(* ===== verification/_CoqProject ===== *)
-Q . S2P
Prelude.v
Buffer.v
CriticalCommand.v
RevisionState.v
Snapshot.v
Wire.v
SnapshotCodec.v
PlayerCodec.v
CollectorPolicy.v
SaveWorker.v
Coordinator.v
Files.v
SaveJournal.v
SaveJournalScan.v
SaveJournalSafety.v
SavePipeline.v
SavePipelineMoves.v
SavePipelineWriter.v
SavePipelineAccounts.v
SavePipelineSafety.v
CommandJournal.v
CommandJournalScan.v
CommandJournalSafety.v
LoadTopology.v
CurrencyCommand.v
ItemTransfer.v
ItemTransferCodec.v
CoinTransfer.v
CollectorCodec.v
GameplayRead.v
EventMemory.v
Scheduler.v
SchedulerInvariant.v
SchedulerPass.v
SchedulerInspect.v
SchedulerSafety.v
