(* ===== verification/Prelude.v ===== *)
(** * The persistence and economy kernel of Duris, and its event scheduler

    Duris is a MUD server written in C++ in [.c] files under [src/src].  This
    development models the part of it that decides what is durable: the commands
    that change money and property, the thread that writes them, the table of what
    still has to be written, and the records kept beside them; and the scheduler every
    delayed action of the game goes through.  Definitions carry the
    names of the sources; a function that returns [false], or an error enumerator,
    returns [None] or [Err] here.

    ** The parts and the files

    - [Prelude]: integers of a width, byte buffers, the little-endian fields, the
      result type and its notation, automation, list lemmas.  [Buffer]: records whose
      fields stand at fixed offsets of a buffer.
    - [CriticalCommand] ([persistence/critical_command.c]): the envelope of every
      durable change — an identifier, the entities it locks, the revisions it expects
      and a payload — its validation, normal form and byte codec.
    - [CurrencyCommand] ([economy/currency_command.c]): the payload that changes a
      wallet and an account bank, the result, the key of an account.
    - [ItemTransfer], [ItemTransferCodec] ([item/item_transfer_command.c]): the payload
      that moves items between owners, its validation and the places of the items
      before and after; its six formats, the entities it locks, the command, the result.
    - [CoinTransfer] ([economy/coin_transfer_command.c]): a command out of two of the
      above that takes coins from a wallet or a pile and gives them to another.
    - [SaveWorker] ([player/player_save_worker.c]): the writer thread, its bounded
      queue with replacement of superseded captures, retries and completions.
    - [Coordinator] ([persistence/critical_command_coordinator.c] and
      [critical_command_completion.h]): admission, fences, submission to the writer,
      publication on the game thread and the cache of completed operations.  It uses
      the writer through the class [PersistenceWriter]; [worker_persistence_writer]
      is the instance [SaveWorker] gives.
    - [RevisionState] ([player/player_revision_state.c]): which components of a
      player are dirty, queued, being written and durable, at which revision.
    - [Snapshot] ([player/player_snapshot.h], [item/item_transfer_command.h],
      [core/defines.h]): the item record, owners and entries the next files share.
    - [Wire] ([player/player_snapshot_codec.c], its [encoder] and [decoder]): numbers,
      flags, strings and rows under limits, with the classes [Writes] and [Reads] that
      say what a writer and a reader of one type promise.
    - [SnapshotCodec] (same file): the rows of items, their parents, lists of items,
      and the extraction of subtrees and forests.
    - [PlayerCodec] ([player/player_snapshot.h], same file): the codec of a whole
      character in the eight versions of the format, with the evidence of a death.
    - [CollectorPolicy], [CollectorCodec] ([economy/collector_policy.c],
      [economy/collector_codec.c]): the life of a lost item on sale to its owner, its
      price, its deadlines, and the file of all such records.
    - [Files]: what the journals use of POSIX files, as a map from paths to files and
      the replies of the system calls.
    - [SaveJournal], [SaveJournalScan], [SaveJournalSafety]
      ([player/player_save_journal.c]): the file of captures not yet in the database,
      its scan with a quarantine, its checkpoints and its replay.
    - [CommandJournal], [CommandJournalScan], [CommandJournalSafety]
      ([persistence/critical_command_journal.c]): the file of framed critical commands
      with its strict scan and the rollback of failed appends.
    - [SavePipeline], [SavePipelineMoves], [SavePipelineWriter], [SavePipelineAccounts],
      [SavePipelineSafety] ([player/player_save_pipeline.c]): the way of a capture from the
      game thread through the journal to the writer, the fences of terminal saves and of
      offline commands, and the pulse that reads the completions back into the table;
      [SavePipelineWriter] follows what of it the queue of the writer holds.
    - [LoadTopology] ([player/player_load_topology.c]): the repair of the containers
      of a loaded character.
    - [GameplayRead] ([persistence/gameplay_read_state.c]): recent deaths and
      completed zones of a character.

    - [EventMemory] ([core/mm.c] and the links of [world/new_events.c]): the pool of
      events and the doubly linked lists an event is on, and that the operations on the
      links are those on lists.
    - [Scheduler], [SchedulerInspect] ([world/new_events.c]): scheduling, cancelling and
      rescheduling, the pass over the events of a tick with its budgets, deferral and
      catch-up, and the scheduler's own integrity check with the two checks of
      [world/nevent_periodic.c] that are part of it.
    - [SchedulerInvariant], [SchedulerPass], [SchedulerSafety]: what holds at each step of
      an operation, of a pass, and in every state the game thread can reach.

    A change of money is a currency payload, a movement of items a transfer payload,
    in a critical command; a coin transfer holds two such commands.  The coordinator
    normalises and fences it and gives the writer a job; the worker runs the job and
    the coordinator publishes its completion.  The save pipeline
    takes player captures at the revisions of the table, appends them to their journal and
    hands them to the same worker; the completions acknowledge the revisions and let the
    journal drop its frames.

    ** State and concurrency

    A component's state is a record holding the variables the source guards with one
    mutex, and each region under the mutex is one function of it.  The worker thread
    is split at the points where it releases its lock, so an interleaving of threads
    is a sequence of such steps; [reachable] states are those any sequence gives.  Executing a
    job of the coordinator and the writer's own end of it are two of them, and the completion of
    an execution may or may not find memory.
    The calls and steps of the save pipeline are reduced to a relation of moves
    ([SavePipelineMoves]), by cases on which its invariants are proved; ghost lists record
    what was captured, journaled and submitted.
    The scheduler belongs to one thread, but its callbacks call it back: a callback is the
    list of what it asks, and the invariant of a pass says what such requests leave alone
    ([stable]).  Its pointers are kept: handles outlive their events, and released memory is
    used again.
    Clocks, allocation results and the answers of the database and of the system
    calls are arguments; a history is any sequence of operations with any of them.

    ** What is shown

    - Codecs: encoding succeeds exactly on valid values, decoding gives the value
      back, and only canonical bytes are decoded (critical commands, currency
      payloads — up to one byte the decoder ignores —, results, catalogs, lists of
      items, characters; older versions of a character too are read as written).
      Commands of each kind, once built, survive the journal and read back as what
      they were built from; what is read is valid and names what it locks.
    - Money and property: a coin transfer gives one side exactly the worth it takes
      from the other; an item transfer moves whole trees and keeps them as they are;
      the second half of a coin transfer is fenced against what the first leaves, and
      a refusal reports what was stale and nothing else.
    - Property in trees: a subtree or a forest taken from a list of items leaves a
      well-formed list, loses nothing and holds what was in the taken objects; the
      evidence of a death covers each object of the corpse once, and the coins of the wallet
      as one heap of the same amounts in the corpse itself.
    - No change is lost: a component marked dirty is durable at its last change or
      still on its way; the worker writes captures in order and replaces only the last
      one queued, by one of the same owner; every accepted operation is answered exactly
      once, unless its final answer finds no memory, and then it is exactly what is lost;
      fences are exactly those of the live operations.
    - Journals: whatever calls fail, an accepted command stays a whole record until its
      checkpoint and a replay offers all of them once and in order; a scan of the
      captures accounts for every byte, finds every whole frame behind torn ones as long as
      there are fewer than 4096, and a replay drops a capture only on evidence, a death only on
      a death of its own revision that was not stale; checkpoints are atomic.  Two ways in
      which the journal of captures fails are theorems too.
    - The way of a save: only what the journal accepted reaches the writer, in the order
      of acceptance, and in the order of capture while no append fails; a terminal save
      that answers durable has a journal record or a completion of its revision; an offline
      command is given the login fence once nothing of the player is left anywhere, the queue
      of the writer included, and while it holds it nothing of the player moves.  An append that
      fails lets an older capture overtake a terminal save, and a terminal save that times
      out keeps its fence: both are theorems.
    - Scheduling: no check of the scheduler's ever fails, its integrity check finds exactly
      what is wrong with the characters, objects, links and periodic jobs events are tied to,
      and never anything in the scheduler itself; a callback runs once, when due, in order and not after a cancellation; a pass without
      budgets leaves nothing due behind, one with a limit keeps to it; payloads are destroyed
      once; a handle always cancels its own event while that is active, and never touches
      another.
    - Bounds: queue, byte and table limits, exact overflow behaviour of prices and
      waiting times, deadlines and revisions that never wrap.
    - Refinement: the writer against its interface and an abstract queue, the due
      queue against a map from listings to deadlines, the zone array against a set.
    - Acceptance: the item topology is accepted exactly when it is a forest of depth
      at most 32 of distinct rows with agreeing roots, and its loops end.

    ** Fuel and bounds

    The climbs over parents take the number of items as fuel ([climb_enough],
    [item_transfer_climb]), a binary search the number of entries; words
    of a keyword list take the length of the list, each turn consuming a character;
    the scans of the journals take the length of the file, each turn consuming a byte
    or more ([scan_loop_scanned], [scan_loop_written]);
    a pass of the scheduler takes the number of events and of requests ([pass_fuel],
    [pass_holds]), since each step leaves fewer of them;
    other loops are structural.  Numeric limits are the constants of the sources.

    ** Not modelled

    SHA-256, zlib's [crc32], [getrandom] and the SQL client are parameters or lists of
    answers.  What a power failure leaves of writes not yet synchronised is not modelled.  Left
    out are the SQL repositories, sockets, the live object graph with combat, magic
    and commands, world files and telemetry, which are I/O or game rules over
    structures the kernel does not own, and, of the scheduler, analytics and the registry of
    periodic jobs but for its checks and the events it adds; the scheduler is followed up to tick 4294967294, when the count of
    deferrals of an event could wrap.  Null pointers are not modelled, and failed
    allocation only where the code answers it with a value of its own.  In the
    save pipeline the capture of a character is an argument, and the alerts and traces are
    left out.  Not yet modelled, though they could be in the same way: the payloads of
    shops, auctions, boons, corpses and restitution, and the outboxes. *)

(** * Prelude

    Shared vocabulary of the development: machine-width integers as [Z] with
    their ranges, byte buffers as [list byte], the little-endian field codec
    every command payload uses, the result type of fallible operations with its
    notation, the automation and the generic list lemmas.

    The other files read: data and operations first (named as in the C++
    sources), then the lemmas, then the properties. *)

From stdpp Require Export base gmap list sorting strings.
From Stdlib Require Export ZArith Lia.
From coqutil Require Byte Word.LittleEndianList.

#[export] Set Default Goal Selector "!".

Open Scope Z_scope.

(** ** Integers of a fixed width

    A [uint<w>_t] is a [Z] in [0, 2^w); an [int<w>_t] a [Z] in
    [-2^(w-1), 2^(w-1)).  Arithmetic that can wrap writes its [wrap] out. *)

Definition fits (w x : Z) : Prop := 0 <= x < 2 ^ w.
Definition sfits (w x : Z) : Prop := - 2 ^ (w - 1) <= x < 2 ^ (w - 1).

Abbreviation u8 := (fits 8).
Abbreviation u16 := (fits 16).
Abbreviation u32 := (fits 32).
Abbreviation u64 := (fits 64).
Abbreviation i32 := (sfits 32).
Abbreviation i64 := (sfits 64).

Definition UINT64_MAX : Z := 2 ^ 64 - 1.
Definition INT64_MAX : Z := 2 ^ 63 - 1.
Definition INT64_MIN : Z := - 2 ^ 63.
Definition INT32_MAX : Z := 2 ^ 31 - 1.

(** [static_cast] to an unsigned type, and from [uint<w>_t] to [int<w>_t]. *)
Definition wrap (w x : Z) : Z := x mod 2 ^ w.
Definition to_signed (w x : Z) : Z := if x <? 2 ^ (w - 1) then x else x - 2 ^ w.

(** C's conversion of an integer to [bool]. *)
Definition nz (x : Z) : bool := negb (x =? 0).

(** ** Results of fallible operations *)

Inductive res (E A : Type) : Type :=
| Ok (a : A)
| Err (e : E).
Arguments Ok {E A} a.
Arguments Err {E A} e.

Definition is_ok {E A} (r : res E A) : bool :=
  match r with Ok _ => true | Err _ => false end.

Declare Scope code_scope.
Delimit Scope code_scope with code.

(** [let* x := m in k] continues on success and returns the error early;
    [ensure b else e in k] is the guard [if (!b) return e;], and the forms with
    [?] are those of a function that returns [bool] and fills an output
    parameter: [None] is [false]. *)
Notation "'let*' p ':=' m 'in' k" :=
  (match m with Ok p => k | Err e => Err e end)
  (at level 10, p pattern, k at level 200) : code_scope.
Notation "'let?' p ':=' m 'in' k" :=
  (match m with Some p => k | None => None end)
  (at level 10, p pattern, k at level 200) : code_scope.
Notation "'ensure' b 'else' e 'in' k" :=
  (if negb b then Err e else k)
  (at level 10, b at level 200, e at level 200, k at level 200) : code_scope.
Notation "'ensure?' b 'in' k" :=
  (if negb b then None else k)
  (at level 10, b at level 200, k at level 200) : code_scope.
Open Scope code_scope.

(** ** Automation *)

Create HintDb duris.
Create Rewrite HintDb duris.

(** Boolean conjunctions, disjunctions and comparisons of the guards, as
    propositions. *)
Ltac bool_prop :=
  repeat match goal with
  | H : _ && _ = true |- _ => apply andb_prop in H; destruct H
  | H : _ || _ = false |- _ => apply orb_false_elim in H; destruct H
  | H : negb _ = true |- _ => apply negb_true_iff in H
  | H : negb _ = false |- _ => apply negb_false_iff in H
  | H : (_ =? _) = true |- _ => apply Z.eqb_eq in H
  | H : (_ =? _) = false |- _ => apply Z.eqb_neq in H
  | H : (_ <=? _) = true |- _ => apply Z.leb_le in H
  | H : (_ <=? _) = false |- _ => apply Z.leb_gt in H
  | H : (_ <? _) = true |- _ => apply Z.ltb_lt in H
  | H : (_ <? _) = false |- _ => apply Z.ltb_ge in H
  | H : (_ =? _)%nat = true |- _ => apply Nat.eqb_eq in H
  | H : (_ =? _)%nat = false |- _ => apply Nat.eqb_neq in H
  | H : (_ <=? _)%nat = true |- _ => apply Nat.leb_le in H
  | H : (_ <=? _)%nat = false |- _ => apply Nat.leb_gt in H
  | H : (_ <? _)%nat = true |- _ => apply Nat.ltb_lt in H
  | H : (_ <? _)%nat = false |- _ => apply Nat.ltb_ge in H
  | H : bool_decide _ = true |- _ => apply bool_decide_eq_true_1 in H
  | H : bool_decide _ = false |- _ => apply bool_decide_eq_false_1 in H
  end.

(** Case analysis on every guard of a hypothesis [f ... = r] or of the goal,
    discarding the early returns that contradict it. *)
Ltac step_in H :=
  match type of H with
  | context [ match ?x with _ => _ end ] =>
      lazymatch x with
      | context [ match _ with _ => _ end ] => fail
      | _ => let E := fresh "E" in destruct x eqn:E
      end
  end; try discriminate H.
Ltac steps_in H := repeat (step_in H; simplify_eq).

Ltac width := unfold fits, sfits, UINT64_MAX, INT64_MAX, INT64_MIN, INT32_MAX in *.
Ltac width_lia := width; lia.

(** The [size()] of a vector. *)
Definition vsize {A} (l : list A) : Z := Z.of_nat (length l).

(** ** Bytes *)

Abbreviation byte := Corelib.Init.Byte.byte.
Abbreviation of_byte := Byte.byte.unsigned.
Abbreviation to_byte := Byte.byte.of_Z.
Abbreviation le_split := LittleEndianList.le_split.
Abbreviation le_combine := LittleEndianList.le_combine.

#[export] Instance byte_eq_dec : EqDecision byte := Byte.byte_eq_dec.
#[export] Program Instance byte_countable : Countable byte :=
  inj_countable Byte.to_N Byte.of_N _.
Next Obligation. intros x. apply Byte.of_to_N. Qed.

Lemma of_byte_range b : u8 (of_byte b).
Proof. apply Byte.byte.unsigned_range. Qed.
#[export] Hint Resolve of_byte_range : duris.

Lemma of_to_byte x : u8 x → of_byte (to_byte x) = x.
Proof.
  intros H. rewrite Byte.byte.unsigned_of_Z.
  unfold Byte.byte.wrap. apply Z.mod_small, H.
Qed.

Lemma to_of_byte b : to_byte (of_byte b) = b.
Proof. apply Byte.byte.of_Z_unsigned. Qed.

(** ** The little-endian field codec

    [append_le<T>] pushes [sizeof(T)] bytes, low byte first; [read_le<T>] reads
    them back at an offset and advances it, failing when fewer bytes remain.
    A pointer/length pair is a [list byte] and its [length]. *)

Definition append_le (sz : nat) (output : list byte) (value : Z) : list byte :=
  output ++ le_split sz value.

Definition read_le (sz : nat) (input : list byte) (offset : nat) : option (Z * nat) :=
  if (length input <? offset)%nat || (length input - offset <? sz)%nat then None
  else Some (le_combine (take sz (drop offset input)), (offset + sz)%nat).

(** [get_u<w>]: the unchecked read at a fixed offset. *)
Definition get_le (sz : nat) (input : list byte) (offset : nat) : Z :=
  le_combine (take sz (drop offset input)).

(** A byte that is read at a fixed offset. *)
Definition byte_of (input : list byte) (offset : nat) : Z :=
  from_option of_byte 0 (input !! offset).

(** [memcpy]/[put_u<w>] into a buffer that has room for it. *)
Definition put_bytes (out : list byte) (offset : nat) (bs : list byte) : list byte :=
  list_inserts offset bs out.

Lemma le_combine_split_small sz x :
  fits (8 * Z.of_nat sz) x → le_combine (le_split sz x) = x.
Proof.
  intros H. rewrite LittleEndianList.le_combine_split.
  rewrite (Z.mul_comm _ 8). apply Z.mod_small, H.
Qed.

Lemma length_le_split sz x : length (le_split sz x) = sz.
Proof. apply LittleEndianList.length_le_split. Qed.
#[export] Hint Rewrite length_le_split : duris.

Lemma le_split_inj sz x y :
  fits (8 * Z.of_nat sz) x → fits (8 * Z.of_nat sz) y →
  le_split sz x = le_split sz y → x = y.
Proof.
  intros Hx Hy E. rewrite <- (le_combine_split_small sz x Hx).
  rewrite E. by apply le_combine_split_small.
Qed.

Lemma le_combine_fits bs : fits (8 * Z.of_nat (length bs)) (le_combine bs).
Proof. apply LittleEndianList.le_combine_bound. Qed.

(** *** Reading what was written *)

(** [at_offset input off rest]: from [off] on, the buffer holds [rest]. *)
Definition at_offset (input : list byte) (off : nat) (rest : list byte) : Prop :=
  (off <= length input)%nat ∧ drop off input = rest.

Lemma at_offset_start input : at_offset input 0 input.
Proof. split; [lia | done]. Qed.

Lemma at_offset_length input off rest :
  at_offset input off rest → (length input - off = length rest)%nat.
Proof. intros [_ <-]. by rewrite length_drop. Qed.

Lemma at_offset_app input off a b :
  at_offset input off (a ++ b) → at_offset input (off + length a) b.
Proof.
  intros [Hle E]. assert (L : length (drop off input) = length (a ++ b)) by by rewrite E.
  rewrite length_drop, length_app in L. split; [lia|].
  by rewrite <- drop_drop, E, drop_app_length.
Qed.

Lemma at_offset_take input off a b :
  at_offset input off (a ++ b) → take (length a) (drop off input) = a.
Proof. intros [_ ->]. apply take_app_length. Qed.

Lemma at_offset_lookup input off b rest :
  at_offset input off (b :: rest) → input !! off = Some b.
Proof.
  intros [_ E]. rewrite <- (Nat.add_0_r off), <- lookup_drop, E. done.
Qed.

Lemma at_offset_cons input off b rest :
  at_offset input off (b :: rest) → at_offset input (off + 1) rest.
Proof. intros H. by apply (at_offset_app _ _ [b]). Qed.

Lemma read_le_at sz input off x rest :
  fits (8 * Z.of_nat sz) x →
  at_offset input off (le_split sz x ++ rest) →
  read_le sz input off = Some (x, (off + sz)%nat) ∧ at_offset input (off + sz) rest.
Proof.
  intros Hx H. pose proof (at_offset_length _ _ _ H) as L.
  rewrite length_app, length_le_split in L.
  pose proof (at_offset_take _ _ _ _ H) as T. rewrite length_le_split in T.
  apply at_offset_app in H as R. rewrite length_le_split in R. split; [|done].
  unfold read_le. rewrite T, le_combine_split_small by done.
  destruct H as [Hle _].
  by rewrite !(proj2 (Nat.ltb_ge _ _)) by lia.
Qed.

(** *** What a successful read says of the buffer *)

(** [consumed input off out]: the first [off] bytes are exactly [out]. *)
Definition consumed (input : list byte) (off : nat) (out : list byte) : Prop :=
  (off <= length input)%nat ∧ take off input = out.

Lemma consumed_app input off out sz :
  consumed input off out → (sz <= length input - off)%nat →
  consumed input (off + sz) (out ++ take sz (drop off input)).
Proof.
  intros [Hle <-] Hsz. split; [lia|]. by rewrite take_take_drop.
Qed.

Lemma consumed_lookup input off out b :
  consumed input off out → input !! off = Some b →
  consumed input (off + 1) (out ++ [b]).
Proof.
  intros [Hle <-] Hb. apply lookup_lt_Some in Hb as Hlt. split; [lia|].
  rewrite Nat.add_1_r. by apply take_S_r.
Qed.

Lemma read_le_consumed sz input off v off' out :
  read_le sz input off = Some (v, off') → consumed input off out →
  off' = (off + sz)%nat ∧ fits (8 * Z.of_nat sz) v
  ∧ consumed input off' (append_le sz out v).
Proof.
  unfold read_le. intros H C. steps_in H. bool_prop.
  destruct C as [Hle HC].
  assert (L : length (take sz (drop off input)) = sz)
    by (rewrite length_take, length_drop; lia).
  split; [done|]. split.
  - rewrite <- L at 1. apply le_combine_fits.
  - unfold append_le. rewrite <- L at 2.
    rewrite LittleEndianList.split_le_combine. apply consumed_app; [by split | lia].
Qed.

Lemma consumed_length input off out :
  consumed input off out → length out = off ∧ (off <= length input)%nat.
Proof. intros [Hle <-]. rewrite length_take. lia. Qed.

Lemma consumed_rest input off out : consumed input off out → input = out ++ drop off input.
Proof. intros [_ <-]. by rewrite take_drop. Qed.

Lemma consumed_all input out : consumed input (length input) out → out = input.
Proof. intros [_ <-]. apply firstn_all. Qed.

(** ** Sequences of records

    [decode_many] is the [for] loop reading [count] records with [one];
    [foldl enc] the loop appending them. *)

Fixpoint decode_many {E A} (one : nat → res E (A * nat)) (count : nat) (offset : nat)
  : res E (list A * nat) :=
  match count with
  | O => Ok ([], offset)
  | S count =>
      let* (a, offset) := one offset in
      let* (l, offset) := decode_many one count offset in
      Ok (a :: l, offset)
  end.

Section Many.
Context {E A : Type}.
Context (enc : list byte → A → list byte) (bytes_of : A → list byte).
Context (enc_app : ∀ out a, enc out a = out ++ bytes_of a).

Lemma foldl_enc l out : foldl enc out l = out ++ concat (map bytes_of l).
Proof using enc_app.
  revert out; induction l as [|a l IH]; intros out; simpl.
  - by rewrite app_nil_r.
  - by rewrite IH, enc_app, <- (assoc_L (++)).
Qed.

Context (one : nat → res E (A * nat)) (input : list byte).

(** Reading back what the loop wrote. *)
Lemma decode_many_at (P : A → Prop) l off rest :
  (∀ a off rest, P a → at_offset input off (bytes_of a ++ rest) →
     one off = Ok (a, (off + length (bytes_of a))%nat)) →
  Forall P l →
  at_offset input off (concat (map bytes_of l) ++ rest) →
  decode_many one (length l) off
    = Ok (l, (off + length (concat (map bytes_of l)))%nat)
  ∧ at_offset input (off + length (concat (map bytes_of l))) rest.
Proof.
  intros Hone HP. revert off. induction HP as [|a l Ha Hl IH]; intros off Hat; simpl.
  - by rewrite Nat.add_0_r.
  - cbn in Hat. rewrite <- (assoc_L (++)) in Hat.
    rewrite (Hone a off _ Ha Hat). apply at_offset_app in Hat.
    destruct (IH _ Hat) as [-> Hrest].
    by rewrite length_app, Nat.add_assoc.
Qed.

(** A successful loop consumed exactly what the encoder writes. *)
Lemma decode_many_consumed (P : A → Prop) n off l off' out :
  (∀ off a off' out, one off = Ok (a, off') → consumed input off out →
     P a ∧ consumed input off' (enc out a)) →
  decode_many one n off = Ok (l, off') → consumed input off out →
  length l = n ∧ Forall P l ∧ consumed input off' (foldl enc out l).
Proof.
  intros Hone. revert off l off' out.
  induction n as [|n IH]; intros off l off' out H C; simpl in H; [by simplify_eq|].
  destruct (one off) as [[a o]|] eqn:Ha; [|done].
  destruct (decode_many one n o) as [[l2 o2]|] eqn:Hl; [|done]. simplify_eq.
  destruct (Hone _ _ _ _ Ha C) as [HPa Ca].
  destruct (IH _ _ _ _ Hl Ca) as (<- & HPl & Cl). auto.
Qed.
End Many.

(** ** Sorted lists *)

Lemma StronglySorted_weaken {A} (R S : relation A) l :
  (∀ a b, R a b → S a b) → StronglySorted R l → StronglySorted S l.
Proof.
  intros HRS. induction 1 as [|a l _ IH HF]; constructor; [done|].
  eapply Forall_impl; [exact HF|]. auto.
Qed.

Lemma StronglySorted_map {A B} (f : A → B) (R : relation B) l :
  StronglySorted R (map f l) ↔ StronglySorted (fun a b => R (f a) (f b)) l.
Proof.
  induction l as [|a l IH]; simpl; [split; constructor|].
  split; inversion 1 as [|?? HS HF]; subst; constructor;
    first [by apply IH | by apply Forall_map in HF | by apply Forall_map].
Qed.

(** Along a strict order, two elements with the same key are the same. *)
Lemma StronglySorted_key_inj {A B} (f : A → B) (R : relation B) l a b :
  Irreflexive R → StronglySorted R (map f l) → a ∈ l → b ∈ l → f a = f b → a = b.
Proof.
  intros HR HS Ha Hb E. induction l as [|x l IH]; simpl in *.
  { by apply elem_of_nil in Ha. }
  inversion HS as [|?? HS' HF]; subst. rewrite Forall_forall in HF.
  apply elem_of_cons in Ha as [->|Ha], Hb as [->|Hb]; auto.
  - destruct (HR (f b)). rewrite <- E at 1. by apply HF, list_elem_of_fmap_2.
  - destruct (HR (f a)). rewrite E at 1. by apply HF, list_elem_of_fmap_2.
Qed.

(** ** Maps *)

Lemma alter_as_insert `{Countable K} {A} (f : A → A) (m : gmap K A) i x :
  m !! i = Some x → alter f i m = <[i := f x]> m.
Proof.
  intros Hx. apply map_eq. intros j. rewrite lookup_alter, lookup_insert.
  case_decide; [subst; by rewrite Hx|done].
Qed.

Lemma filter_none {A} (P : A → Prop) `{!∀ x, Decision (P x)} (l : list A) :
  Forall (λ x, ¬ P x) l → filter P l = [].
Proof.
  induction 1 as [|x l Hx _ IH]; [done|]. rewrite filter_cons, decide_False by done. done.
Qed.

Lemma StronglySorted_sublist {A} (R : relation A) (l k : list A) :
  l `sublist_of` k → StronglySorted R k → StronglySorted R l.
Proof.
  induction 1 as [|x l k S IH|x l k S IH]; inversion 1; subst; auto.
  constructor; [auto|]. rewrite Forall_forall in *. intros y Hy.
  by eapply H3, sublist_subseteq.
Qed.

(** ** Fields at fixed offsets *)

Lemma length_put_bytes out off bs : length (put_bytes out off bs) = length out.
Proof. apply length_inserts. Qed.
#[export] Hint Rewrite length_put_bytes : duris.

(** The [n] bytes at an offset. *)
Definition slice (n : nat) (out : list byte) (off : nat) : list byte := take n (drop off out).

Lemma lookup_slice n out off i :
  slice n out off !! i = if decide (i < n)%nat then out !! (off + i)%nat else None.
Proof.
  unfold slice. case_decide.
  - by rewrite lookup_take_lt, lookup_drop.
  - apply lookup_take_ge. lia.
Qed.

Lemma slice_put_same n out off bs :
  n = length bs → (off + length bs <= length out)%nat → slice n (put_bytes out off bs) off = bs.
Proof.
  intros -> L. apply list_eq. intros i. rewrite lookup_slice. case_decide.
  - unfold put_bytes. rewrite list_lookup_inserts by lia. f_equal. lia.
  - symmetry. apply lookup_ge_None. lia.
Qed.

Lemma lookup_put_other out off bs i :
  (i < off)%nat ∨ (off + length bs <= i)%nat → put_bytes out off bs !! i = out !! i.
Proof.
  intros [L|L]; unfold put_bytes; [by apply list_lookup_inserts_lt|by apply list_lookup_inserts_ge].
Qed.

Lemma slice_put_other n out off bs off' :
  (off' + n <= off)%nat ∨ (off + length bs <= off')%nat →
  slice n (put_bytes out off bs) off' = slice n out off'.
Proof.
  intros D. apply list_eq. intros i. rewrite !lookup_slice. case_decide; [|done].
  apply lookup_put_other. lia.
Qed.

Lemma get_le_slice sz input off : get_le sz input off = le_combine (slice sz input off).
Proof. done. Qed.

Lemma length_slice n out off : (off + n <= length out)%nat → length (slice n out off) = n.
Proof. intros L. unfold slice. rewrite length_take, length_drop. lia. Qed.

Lemma slice_all out : slice (length out) out 0 = out.
Proof. unfold slice. by rewrite drop_0, firstn_all. Qed.

Lemma get_le_fits sz input off : fits (8 * Z.of_nat sz) (get_le sz input off).
Proof.
  pose proof (le_combine_fits (slice sz input off)) as [L U].
  assert (length (slice sz input off) <= sz)%nat as B by (unfold slice; rewrite length_take; lia).
  unfold fits. split; [exact L|]. rewrite get_le_slice.
  eapply Z.lt_le_trans; [exact U|]. apply Z.pow_le_mono_r; lia.
Qed.

Lemma forallb_same {A} (f g : A → bool) l : (∀ x, f x = g x) → forallb f l = forallb g l.
Proof. intros E. induction l as [|x l IH]; [done|]. cbn [forallb]. by rewrite E, IH. Qed.

Lemma existsb_false_forall {A} (f : A → bool) l : existsb f l = false ↔ Forall (λ a, f a = false) l.
Proof. induction l as [|a l IH]; cbn; [done|]. by rewrite orb_false_iff, IH, Forall_cons. Qed.

(** C's conversion to [bool]. *)
Lemma nz_true x : nz x = true ↔ x ≠ 0.
Proof. unfold nz. by rewrite negb_true_iff, Z.eqb_neq. Qed.
Lemma nz_false x : nz x = false ↔ x = 0.
Proof. unfold nz. by rewrite negb_false_iff, Z.eqb_eq. Qed.

Lemma wrap_small w x : fits w x → wrap w x = x.
Proof. intros H. by apply Z.mod_small. Qed.

Lemma wrap_range w x : 0 <= w → fits w (wrap w x).
Proof. intros H. apply Z.mod_pos_bound. by apply Z.pow_pos_nonneg. Qed.
