(* ===== verification/Buffer.v ===== *)
(** * Buffers

    Records whose fields stand at fixed offsets of a byte buffer: reading a field off bytes
    that are known from its place on, filling a zeroed buffer from the front, and the
    bytes of what was read. *)

From S2P Require Import Prelude.

(** ** Reading *)

Lemma get_le_at sz input off x rest :
  fits (8 * Z.of_nat sz) x → at_offset input off (le_split sz x ++ rest) →
  get_le sz input off = x ∧ at_offset input (off + sz) rest.
Proof.
  intros F A. destruct (read_le_at sz input off x rest F A) as [R A']. split; [|done].
  unfold get_le. unfold read_le in R. destruct (_ || _); [done|]. by injection R.
Qed.

(** The numbers of an array. *)
Lemma get_les_at sz l input off rest :
  Forall (fits (8 * Z.of_nat sz)) l → at_offset input off (concat (map (le_split sz) l) ++ rest) →
  (λ i, get_le sz input (off + i * sz)) <$> seq 0 (length l) = l.
Proof.
  intros F. revert off. induction F as [|x l Fx F IH]; intros off A; [done|].
  cbn [map concat] in A. rewrite <- (assoc_L (++)) in A. apply get_le_at in A as [E A]; [|done].
  cbn [length seq fmap list_fmap]. rewrite Nat.add_0_r, E. f_equal.
  rewrite <- fmap_S_seq, <- list_fmap_compose. rewrite <- (IH _ A) at 2.
  apply list_fmap_ext. intros i k _. unfold compose. f_equal. lia.
Qed.

Lemma slice_at input off bs rest n :
  n = length bs → at_offset input off (bs ++ rest) →
  slice n input off = bs ∧ at_offset input (off + n) rest.
Proof. intros -> A. split; [by apply (at_offset_take _ _ _ rest)|by apply at_offset_app]. Qed.

Lemma byte_of_at input off b rest :
  at_offset input off (b :: rest) → byte_of input off = of_byte b ∧ at_offset input (off + 1) rest.
Proof.
  intros A. unfold byte_of. rewrite (at_offset_lookup _ _ _ _ A). split; [done|].
  by apply at_offset_cons in A.
Qed.

(** The next read of a record at a fixed offset, and its value. *)
Ltac get_at A :=
  match type of A with
  | at_offset _ _ ([_] ++ _) => cbn [app] in A; get_at A
  | at_offset ?i ?o (?b :: _) =>
      let E := fresh "E" in apply byte_of_at in A as [E A]; cbn [Nat.add] in A
  | at_offset ?i ?o (le_split _ _ ++ _) =>
      let E := fresh "E" in apply get_le_at in A as [E A]; [cbn [Nat.add] in A|]
  end.

Definition zeros (n : nat) : list byte := replicate n Byte.x00.

Lemma length_zeros n : length (zeros n) = n.
Proof. apply length_replicate. Qed.

(** A zeroed buffer filled from the front. *)
Definition filled (out pre : list byte) (n : nat) : Prop := out = pre ++ zeros n.

Lemma filled_put out pre n off bs :
  filled out pre n → off = length pre → (length bs <= n)%nat →
  filled (put_bytes out off bs) (pre ++ bs) (n - length bs).
Proof.
  intros -> -> L. unfold filled, put_bytes, zeros. apply list_eq. intros i.
  destruct (decide (i < length pre)%nat).
  { rewrite list_lookup_inserts_lt by lia. by rewrite !lookup_app_l by (rewrite ?length_app; lia). }
  destruct (decide (i < length pre + length bs)%nat).
  { rewrite list_lookup_inserts by (rewrite ?length_app, ?length_replicate; lia).
    rewrite lookup_app_l by (rewrite length_app; lia). by rewrite lookup_app_r by lia. }
  rewrite list_lookup_inserts_ge by lia. rewrite !lookup_app_r by (rewrite ?length_app; lia).
  rewrite length_app. destruct (decide (i - length pre < n)%nat).
  - by rewrite !lookup_replicate_2 by lia.
  - rewrite !lookup_ge_None_2 by (rewrite length_replicate; lia). done.
Qed.

Lemma filled_skip out pre n k :
  filled out pre n → (k <= n)%nat → filled out (pre ++ zeros k) (n - k).
Proof.
  intros -> L. unfold filled, zeros. rewrite <- (assoc_L (++)), <- replicate_add.
  do 2 f_equal. lia.
Qed.

Lemma filled_all out pre : filled out pre 0 → out = pre.
Proof. intros ->. apply app_nil_r. Qed.

Lemma to_nat_vsize {A} (l : list A) : Z.to_nat (vsize l) = length l.
Proof. apply Nat2Z.id. Qed.

(** What was read, written again. *)
Lemma get_le_bytes sz input off :
  (off + sz <= length input)%nat → le_split sz (get_le sz input off) = slice sz input off.
Proof.
  intros L. rewrite get_le_slice. pose proof (length_slice sz input off L) as E. rewrite <- E at 1.
  apply LittleEndianList.split_le_combine.
Qed.

Lemma slice_app a b input off : slice (a + b) input off = slice a input off ++ slice b input (off + a).
Proof. unfold slice. by rewrite <- drop_drop, take_take_drop. Qed.

Lemma slice_zeros n out off :
  (off + n <= length out)%nat → forallb (λ b, negb (nz (of_byte b))) (slice n out off) = true →
  slice n out off = zeros n.
Proof.
  intros L Z. rewrite <- (length_slice n out off L) at 2. rewrite forallb_forall in Z.
  induction (slice n out off) as [|b l IH]; [done|]. unfold zeros. cbn [length replicate]. f_equal.
  - specialize (Z b (or_introl eq_refl)). apply negb_true_iff, nz_false in Z. by rewrite <- (to_of_byte b), Z.
  - apply IH. intros x X. apply Z. by right.
Qed.

Lemma slice_flag out off :
  (off < length out)%nat → (byte_of out off <=? 1) = true →
  slice 1 out off = [if nz (byte_of out off) then Byte.x01 else Byte.x00].
Proof.
  intros L F. unfold byte_of in *. destruct (lookup_lt_is_Some_2 out off L) as [b B].
  unfold slice. rewrite (drop_S _ _ _ B), B in *. cbn in *. f_equal. rewrite <- (to_of_byte b).
  apply Z.leb_le in F. pose proof (of_byte_range b) as [R _].
  assert (of_byte b = 0 ∨ of_byte b = 1) as [-> | ->] by lia; done.
Qed.

Lemma slice_byte out off : (off < length out)%nat → slice 1 out off = [to_byte (byte_of out off)].
Proof.
  intros L. destruct (lookup_lt_is_Some_2 out off L) as [b B]. unfold slice, byte_of.
  rewrite (drop_S _ _ _ B), B. cbn. by rewrite to_of_byte.
Qed.
