(* ===== verification/CriticalCommand.v ===== *)
(** * Critical commands

    Models [persistence/critical_command.h] and [.c]: the command every durable
    economy and ownership change is carried by, its identity, its validation and
    normalisation, and its byte codec.

    An enum whose values come from a cast of stored bytes is its underlying
    integer with the enumerators as constants, as a C++ scoped enum of a fixed
    underlying type can hold any of its values; an enum only ever built from its
    enumerators is an inductive type.  A null output pointer is not modelled;
    allocation failure is not modelled. *)

From S2P Require Import Prelude.

(** ** Constants and data *)

Definition CRITICAL_COMMAND_SCHEMA_VERSION : Z := 1.
Definition CRITICAL_COMMAND_ID_BYTES : nat := 16.
Definition CRITICAL_COMMAND_ID_HEX_SIZE : nat := 33.
Definition CRITICAL_COMMAND_MAX_KEYS : Z := 3003.
Definition CRITICAL_COMMAND_MAX_PAYLOAD_BYTES : Z := 384 * 1024.
Definition CRITICAL_COMMAND_MAX_ENCODED_BYTES : Z := 512 * 1024.

Abbreviation critical_operation_id := (list byte).

Module critical_entity_type.
Definition player : Z := 1.
Definition account : Z := 2.
Definition item : Z := 3.
Definition guild : Z := 4.
Definition locker : Z := 5.
Definition corpse : Z := 6.
Definition auction : Z := 7.
Definition room : Z := 8.
Definition system : Z := 9.
Definition artifact : Z := 10.
Definition zone : Z := 11.
Definition shopkeeper : Z := 12.
Definition collector : Z := 13.
Definition pet : Z := 14.
End critical_entity_type.

Record critical_entity_key := EntityKey { key_type : Z; key_id : Z }.

Module critical_command_type.
Definition test : Z := 1.
Definition epic : Z := 2.
Definition account_bank : Z := 3.
Definition wallet : Z := 4.
Definition item_transfer : Z := 5.
Definition locker_transfer : Z := 6.
Definition auction : Z := 7.
Definition combat_outcome : Z := 8.
Definition artifact : Z := 9.
Definition guild : Z := 10.
Definition boon_reward : Z := 11.
Definition zone : Z := 12.
Definition session_audit : Z := 13.
Definition boon_shop : Z := 14.
Definition shop_trade : Z := 15.
Definition corpse_lifecycle : Z := 16.
Definition coin_transfer : Z := 17.
Definition collector : Z := 18.
Definition player_death_restitution : Z := 19.
End critical_command_type.

Module critical_source_site.
Definition unknown : Z := 0.
Definition command : Z := 1.
Definition combat : Z := 2.
Definition zone_event : Z := 3.
Definition login : Z := 4.
Definition recovery : Z := 5.
Definition operator_repair : Z := 6.
End critical_source_site.

Module critical_deadline_class.
Definition interactive : Z := 1.
Definition terminal : Z := 2.
Definition background : Z := 3.
Definition recovery : Z := 4.
End critical_deadline_class.

Module critical_failure_stage.
Definition none : Z := 0.
Definition coin_source_wallet_revision : Z := Z.shiftl 1 0.
Definition coin_source_bank_revision : Z := Z.shiftl 1 1.
Definition coin_destination_wallet_revision : Z := Z.shiftl 1 2.
Definition coin_destination_bank_revision : Z := Z.shiftl 1 3.
Definition coin_source_owner_revision : Z := Z.shiftl 1 4.
Definition coin_destination_owner_revision : Z := Z.shiftl 1 5.
Definition coin_source_item_revision : Z := Z.shiftl 1 6.
Definition coin_destination_item_revision : Z := Z.shiftl 1 7.
Definition coin_source_target_parent_revision : Z := Z.shiftl 1 8.
Definition coin_destination_target_parent_revision : Z := Z.shiftl 1 9.
Definition coin_source_coin_payload_revision : Z := Z.shiftl 1 10.
Definition coin_destination_coin_payload_revision : Z := Z.shiftl 1 11.
Definition coin_destination_rebase : Z := Z.shiftl 1 12.
Definition coin_revision_unknown : Z := Z.shiftl 1 13.
End critical_failure_stage.

Definition CRITICAL_FAILURE_STAGE_MASK : Z :=
  Z.lor critical_failure_stage.coin_revision_unknown
        (critical_failure_stage.coin_revision_unknown - 1).

Definition critical_failure_stage_valid (stage : Z) : bool :=
  negb (nz (Z.land stage (Z.lnot CRITICAL_FAILURE_STAGE_MASK))).

Record critical_expected_revision := ExpectedRevision {
  revision_key : critical_entity_key;
  revision_value : Z;
}.

Record critical_command := CriticalCommand {
  schema_version : Z;
  operation_id : critical_operation_id;
  command_type : Z;
  payload_version : Z;
  source_site : Z;
  deadline_class : Z;
  accepted_at_usec : Z;
  keys : list critical_entity_key;
  expected_revisions : list critical_expected_revision;
  payload : list byte;
}.

Inductive critical_command_codec_result :=
| codec_invalid | codec_truncated | codec_overflow | codec_unsupported_version.

#[export] Instance entity_key_eq_dec : EqDecision critical_entity_key.
Proof. solve_decision. Defined.
#[export] Instance expected_revision_eq_dec : EqDecision critical_expected_revision.
Proof. solve_decision. Defined.
#[export] Instance critical_command_eq_dec : EqDecision critical_command.
Proof. solve_decision. Defined.
#[export] Instance codec_result_eq_dec : EqDecision critical_command_codec_result.
Proof. solve_decision. Defined.

(** ** Operation identities *)

Definition COMMAND_MAGIC : list byte := [Byte.x43; Byte.x43; Byte.x4d; Byte.x31].

Definition valid_entity_type (type : Z) : bool :=
  (critical_entity_type.player <=? type) && (type <=? critical_entity_type.pet).

Definition hex_value (value : byte) : Z :=
  let c := of_byte value in
  if (48 <=? c) && (c <=? 57) then c - 48
  else if (97 <=? c) && (c <=? 102) then c - 97 + 10
  else if (65 <=? c) && (c <=? 70) then c - 65 + 10
  else -1.

Definition critical_operation_id_is_zero (id : critical_operation_id) : bool :=
  forallb (fun value => negb (nz (of_byte value))) id.

Definition critical_operation_id_equal (left right : critical_operation_id) : bool :=
  bool_decide (left = right).

(** The replies of the [getrandom] calls of one generation, in order. *)
Inductive getrandom_reply :=
| random_interrupted
| random_failed
| random_bytes (bs : list byte).

(** [None]: the replies given do not finish the loop. *)
Fixpoint generate_loop (replies : list getrandom_reply) (bytes : list byte)
  : option (bool * critical_operation_id) :=
  if (CRITICAL_COMMAND_ID_BYTES <=? length bytes)%nat
  then Some (negb (critical_operation_id_is_zero bytes), bytes)
  else match replies with
  | [] => None
  | random_interrupted :: rest => generate_loop rest bytes
  | random_failed :: _ => Some (false, bytes)
  | random_bytes bs :: rest =>
      if (length bs =? 0)%nat then Some (false, bytes)
      else generate_loop rest (bytes ++ take (CRITICAL_COMMAND_ID_BYTES - length bytes) bs)
  end.

Definition critical_operation_id_generate (replies : list getrandom_reply) :=
  generate_loop replies [].

Definition hex_digits : list byte :=
  [Byte.x30; Byte.x31; Byte.x32; Byte.x33; Byte.x34; Byte.x35; Byte.x36; Byte.x37;
   Byte.x38; Byte.x39; Byte.x61; Byte.x62; Byte.x63; Byte.x64; Byte.x65; Byte.x66].

Definition hex_digit (value : Z) : byte := default Byte.x00 (hex_digits !! Z.to_nat value).

(** The bytes written to [output], the terminating NUL included. *)
Definition critical_operation_id_to_hex (id : critical_operation_id) (output_size : nat)
  : option (list byte) :=
  ensure? negb (output_size <? CRITICAL_COMMAND_ID_HEX_SIZE)%nat in
  Some (concat (map (fun value =>
          [hex_digit (Z.shiftr (of_byte value) 4);
           hex_digit (Z.land (of_byte value) 15)]) id) ++ [Byte.x00]).

Fixpoint from_hex_loop (input : list byte) : option (list byte) :=
  match input with
  | high :: low :: rest =>
      ensure? negb ((hex_value high <? 0) || (hex_value low <? 0)) in
      let? bytes := from_hex_loop rest in
      Some (to_byte (Z.lor (Z.shiftl (hex_value high) 4) (hex_value low)) :: bytes)
  | _ => Some []
  end.

(** [input] is the C string without its NUL, so [strlen] is its length. *)
Definition critical_operation_id_from_hex (input : list byte)
  : option critical_operation_id :=
  ensure? (length input =? CRITICAL_COMMAND_ID_HEX_SIZE - 1)%nat in
  let? bytes := from_hex_loop input in
  ensure? negb (critical_operation_id_is_zero bytes) in
  Some bytes.

(** OpenSSL's [SHA256] is a parameter. *)
Definition derive_input (parent : critical_operation_id) (domain discriminator : Z)
  : list byte :=
  append_le 8 (append_le 4 parent domain) discriminator.

Definition critical_operation_id_derive (SHA256 : list byte → list byte)
    (parent : critical_operation_id) (domain discriminator : Z)
  : option critical_operation_id :=
  ensure? negb (critical_operation_id_is_zero parent) && nz domain in
  let derived := take CRITICAL_COMMAND_ID_BYTES
                      (SHA256 (derive_input parent domain discriminator)) in
  ensure? negb (critical_operation_id_is_zero derived) in
  Some derived.

(** ** Ordering, validation and normalisation *)

Definition critical_entity_key_less (left right : critical_entity_key) : bool :=
  if negb (key_type left =? key_type right)
  then key_type left <? key_type right
  else key_id left <? key_id right.

Definition critical_entity_key_equal (left right : critical_entity_key) : bool :=
  (key_type left =? key_type right) && (key_id left =? key_id right).

(** The order [std::sort] arranges by: no later element is less. *)
Definition key_le (left right : critical_entity_key) : Prop :=
  critical_entity_key_less right left = false.
Definition revision_le (left right : critical_expected_revision) : Prop :=
  key_le (revision_key left) (revision_key right).

#[export] Instance key_le_dec : RelDecision key_le.
Proof. intros ??. unfold key_le. apply _. Defined.
#[export] Instance revision_le_dec : RelDecision revision_le.
Proof. intros ??. unfold revision_le. apply _. Defined.

Fixpoint adjacent_equal (l : list critical_entity_key) : bool :=
  match l with
  | a :: (b :: _) as rest => critical_entity_key_equal a b || adjacent_equal rest
  | _ => false
  end.

(** [std::binary_search] on a range already checked to be sorted. *)
Definition key_search (l : list critical_entity_key) (key : critical_entity_key) : bool :=
  existsb (fun k => negb (critical_entity_key_less k key)
                    && negb (critical_entity_key_less key k)) l.

Fixpoint keys_valid (previous : option critical_entity_key)
    (l : list critical_entity_key) : bool :=
  match l with
  | [] => true
  | key :: rest =>
      valid_entity_type (key_type key) && nz (key_id key)
      && match previous with
         | None => true
         | Some p => critical_entity_key_less p key
         end
      && keys_valid (Some key) rest
  end.

Fixpoint revisions_valid (ks : list critical_entity_key)
    (previous : option critical_entity_key)
    (l : list critical_expected_revision) : bool :=
  match l with
  | [] => true
  | revision :: rest =>
      let key := revision_key revision in
      valid_entity_type (key_type key) && nz (key_id key) && key_search ks key
      && match previous with
         | None => true
         | Some p => critical_entity_key_less p key
         end
      && revisions_valid ks (Some key) rest
  end.

Definition critical_command_valid (c : critical_command) : bool :=
  (schema_version c =? CRITICAL_COMMAND_SCHEMA_VERSION)
  && negb (critical_operation_id_is_zero (operation_id c))
  && nz (payload_version c)
  && (critical_command_type.test <=? command_type c)
  && (command_type c <=? critical_command_type.player_death_restitution)
  && (critical_source_site.command <=? source_site c)
  && (source_site c <=? critical_source_site.operator_repair)
  && (critical_deadline_class.interactive <=? deadline_class c)
  && (deadline_class c <=? critical_deadline_class.recovery)
  && nz (accepted_at_usec c)
  && negb (vsize (keys c) =? 0)
  && (vsize (keys c) <=? CRITICAL_COMMAND_MAX_KEYS)
  && (vsize (expected_revisions c) <=? CRITICAL_COMMAND_MAX_KEYS)
  && (vsize (payload c) <=? CRITICAL_COMMAND_MAX_PAYLOAD_BYTES)
  && keys_valid None (keys c)
  && revisions_valid (keys c) None (expected_revisions c).

(** [None] is [false]; the command is then left partly sorted, and no caller
    reads it. *)
Definition critical_command_normalize (c : critical_command) : option critical_command :=
  let sorted_keys := merge_sort key_le (keys c) in
  ensure? negb (adjacent_equal sorted_keys) in
  let normal := {|
    schema_version := schema_version c; operation_id := operation_id c;
    command_type := command_type c; payload_version := payload_version c;
    source_site := source_site c; deadline_class := deadline_class c;
    accepted_at_usec := accepted_at_usec c;
    keys := sorted_keys;
    expected_revisions := merge_sort revision_le (expected_revisions c);
    payload := payload c |} in
  ensure? critical_command_valid normal in
  Some normal.

(** ** Failure stage names *)

Definition critical_failure_stage_name (stage : Z) : string :=
  let at_stage s := stage =? s in
  if at_stage critical_failure_stage.none then "none"
  else if at_stage critical_failure_stage.coin_source_wallet_revision
  then "coin_source_wallet_revision"
  else if at_stage critical_failure_stage.coin_source_bank_revision
  then "coin_source_bank_revision"
  else if at_stage critical_failure_stage.coin_destination_wallet_revision
  then "coin_destination_wallet_revision"
  else if at_stage critical_failure_stage.coin_destination_bank_revision
  then "coin_destination_bank_revision"
  else if at_stage critical_failure_stage.coin_source_owner_revision
  then "coin_source_owner_revision"
  else if at_stage critical_failure_stage.coin_destination_owner_revision
  then "coin_destination_owner_revision"
  else if at_stage critical_failure_stage.coin_source_item_revision
  then "coin_source_item_revision"
  else if at_stage critical_failure_stage.coin_destination_item_revision
  then "coin_destination_item_revision"
  else if at_stage critical_failure_stage.coin_source_target_parent_revision
  then "coin_source_target_parent_revision"
  else if at_stage critical_failure_stage.coin_destination_target_parent_revision
  then "coin_destination_target_parent_revision"
  else if at_stage critical_failure_stage.coin_source_coin_payload_revision
  then "coin_source_coin_payload_revision"
  else if at_stage critical_failure_stage.coin_destination_coin_payload_revision
  then "coin_destination_coin_payload_revision"
  else if at_stage critical_failure_stage.coin_destination_rebase
  then "coin_destination_rebase"
  else if at_stage critical_failure_stage.coin_revision_unknown
  then "coin_revision_unknown"
  else if critical_failure_stage_valid stage then "multiple_revision_gates" else "invalid".

(** ** The codec *)

Definition encode_key (encoded : list byte) (key : critical_entity_key) : list byte :=
  append_le 8 (append_le 1 encoded (key_type key) ++ repeat Byte.x00 7) (key_id key).

Definition encode_revision (encoded : list byte) (revision : critical_expected_revision)
  : list byte :=
  append_le 8 (encode_key encoded (revision_key revision)) (revision_value revision).

Definition encode_header (c : critical_command) : list byte :=
  let e := append_le 4 COMMAND_MAGIC (schema_version c) in
  let e := e ++ operation_id c in
  let e := append_le 2 e (command_type c) in
  let e := append_le 2 e (payload_version c) in
  let e := append_le 2 e (source_site c) in
  let e := append_le 1 e (deadline_class c) in
  let e := e ++ [Byte.x00] in
  let e := append_le 8 e (accepted_at_usec c) in
  let e := append_le 4 e (vsize (keys c)) in
  let e := append_le 4 e (vsize (expected_revisions c)) in
  append_le 4 e (vsize (payload c)).

Definition critical_command_encode (c : critical_command)
  : res critical_command_codec_result (list byte) :=
  ensure critical_command_valid c else codec_invalid in
  let e := foldl encode_key (encode_header c) (keys c) in
  let e := foldl encode_revision e (expected_revisions c) in
  let e := e ++ payload c in
  ensure vsize e <=? CRITICAL_COMMAND_MAX_ENCODED_BYTES else codec_overflow in
  Ok e.

Definition critical_command_equal (left right : critical_command) : bool :=
  match critical_command_encode left, critical_command_encode right with
  | Ok left_encoded, Ok right_encoded => bool_decide (left_encoded = right_encoded)
  | _, _ => false
  end.

(** An in-range read of one byte; [required == size - offset] has established the
    range, so the [None] branch is the C++ code reading past the buffer. *)
Definition byte_at (encoded : list byte) (offset : nat)
  : res critical_command_codec_result byte :=
  match encoded !! offset with Some b => Ok b | None => Err codec_truncated end.

(** [read_le] as the decoder uses it. *)
Definition field (sz : nat) (encoded : list byte) (offset : nat)
  : res critical_command_codec_result (Z * nat) :=
  match read_le sz encoded offset with
  | Some r => Ok r
  | None => Err codec_truncated
  end.

Definition pads_zero (encoded : list byte) (offset : nat) : bool :=
  bool_decide (take 7 (drop (offset + 1) encoded) = repeat Byte.x00 7).

Definition decode_key (encoded : list byte) (offset : nat)
  : res critical_command_codec_result (critical_entity_key * nat) :=
  let* type := byte_at encoded offset in
  ensure pads_zero encoded offset else codec_invalid in
  let* (id, offset) := field 8 encoded (offset + 8) in
  Ok (EntityKey (of_byte type) id, offset).

Definition decode_revision (encoded : list byte) (offset : nat)
  : res critical_command_codec_result (critical_expected_revision * nat) :=
  let* (key, offset) := decode_key encoded offset in
  let* (revision, offset) := field 8 encoded offset in
  Ok (ExpectedRevision key revision, offset).

Definition critical_command_decode (encoded : list byte)
  : res critical_command_codec_result critical_command :=
  let size := length encoded in
  ensure negb (size <? 52)%nat else codec_truncated in
  ensure (vsize encoded <=? CRITICAL_COMMAND_MAX_ENCODED_BYTES)
         && bool_decide (take 4 encoded = COMMAND_MAGIC) else codec_invalid in
  let* (version, offset) := field 4 encoded 4 in
  ensure version =? CRITICAL_COMMAND_SCHEMA_VERSION else codec_unsupported_version in
  let id := take CRITICAL_COMMAND_ID_BYTES (drop offset encoded) in
  let offset := (offset + CRITICAL_COMMAND_ID_BYTES)%nat in
  let* (type, offset) := field 2 encoded offset in
  let* (pversion, offset) := field 2 encoded offset in
  let* (source, offset) := field 2 encoded offset in
  ensure (offset + 2 <=? size)%nat else codec_truncated in
  let* deadline := byte_at encoded offset in
  let* pad := byte_at encoded (offset + 1) in
  ensure negb (nz (of_byte pad)) else codec_invalid in
  let offset := (offset + 2)%nat in
  let* (accepted, offset) := field 8 encoded offset in
  let* (key_count, offset) := field 4 encoded offset in
  let* (revision_count, offset) := field 4 encoded offset in
  let* (payload_size, offset) := field 4 encoded offset in
  ensure nz key_count && (key_count <=? CRITICAL_COMMAND_MAX_KEYS)
         && (revision_count <=? CRITICAL_COMMAND_MAX_KEYS)
         && (payload_size <=? CRITICAL_COMMAND_MAX_PAYLOAD_BYTES) else codec_overflow in
  let required := wrap 64 (key_count * 16 + revision_count * 24 + payload_size) in
  let remaining := Z.of_nat (size - offset) in
  ensure required =? remaining
    else (if remaining <? required then codec_truncated else codec_invalid) in
  let* (ks, offset) := decode_many (decode_key encoded) (Z.to_nat key_count) offset in
  let* (rs, offset) :=
    decode_many (decode_revision encoded) (Z.to_nat revision_count) offset in
  let decoded := {|
    schema_version := version; operation_id := id; command_type := type;
    payload_version := pversion; source_site := source;
    deadline_class := of_byte deadline; accepted_at_usec := accepted;
    keys := ks; expected_revisions := rs; payload := drop offset encoded |} in
  ensure critical_command_valid decoded else codec_invalid in
  Ok decoded.

(** The command with the time the coordinator accepts it at. *)
Definition accepted_at (usec : Z) (c : critical_command) : critical_command :=
  CriticalCommand (schema_version c) (operation_id c) (command_type c) (payload_version c)
    (source_site c) (deadline_class c) usec (keys c) (expected_revisions c) (payload c).

(** ** Lemmas *)

Section Typed.
Definition key_typed (k : critical_entity_key) : Prop := u8 (key_type k) ∧ u64 (key_id k).
Definition revision_typed (r : critical_expected_revision) : Prop :=
  key_typed (revision_key r) ∧ u64 (revision_value r).

(** The ranges the C++ field types give. *)
Record command_typed (c : critical_command) : Prop := {
  typed_schema : u32 (schema_version c);
  typed_id : length (operation_id c) = CRITICAL_COMMAND_ID_BYTES;
  typed_type : u16 (command_type c);
  typed_payload_version : u16 (payload_version c);
  typed_source : u16 (source_site c);
  typed_deadline : u8 (deadline_class c);
  typed_accepted : u64 (accepted_at_usec c);
  typed_keys : Forall key_typed (keys c);
  typed_revisions : Forall revision_typed (expected_revisions c);
}.
End Typed.

(** *** The order of entity keys *)

Lemma key_less_spec a b :
  critical_entity_key_less a b = true ↔
  key_type a < key_type b ∨ (key_type a = key_type b ∧ key_id a < key_id b).
Proof. unfold critical_entity_key_less. destruct (Z.eqb_spec (key_type a) (key_type b)); simpl; lia. Qed.

Lemma key_less_false a b :
  critical_entity_key_less a b = false ↔
  key_type b < key_type a ∨ (key_type a = key_type b ∧ key_id b <= key_id a).
Proof. unfold critical_entity_key_less. destruct (Z.eqb_spec (key_type a) (key_type b)); simpl; lia. Qed.

Lemma entity_key_eq a b : key_type a = key_type b → key_id a = key_id b → a = b.
Proof. destruct a, b; simpl; congruence. Qed.

Lemma key_equal_spec a b : critical_entity_key_equal a b = true ↔ a = b.
Proof.
  unfold critical_entity_key_equal. split.
  - intros H. bool_prop. by apply entity_key_eq.
  - intros ->. by rewrite !Z.eqb_refl.
Qed.

#[export] Instance key_le_total : Total key_le.
Proof. intros a b. unfold key_le. rewrite !key_less_false. lia. Qed.
#[export] Instance key_le_trans : Transitive key_le.
Proof. intros a b c. unfold key_le. rewrite !key_less_false. lia. Qed.
#[export] Instance key_le_antisymm : AntiSymm (=) key_le.
Proof.
  intros a b. unfold key_le. rewrite !key_less_false. intros.
  apply entity_key_eq; lia.
Qed.
#[export] Instance revision_le_total : Total revision_le.
Proof. intros a b. apply key_le_total. Qed.
#[export] Instance revision_le_trans : Transitive revision_le.
Proof. intros a b c. apply key_le_trans. Qed.

(** Strict order, for the sets of distinct keys. *)
Definition key_lt (a b : critical_entity_key) : Prop := critical_entity_key_less a b = true.

#[export] Instance key_lt_trans : Transitive key_lt.
Proof. intros a b c. unfold key_lt. rewrite !key_less_spec. lia. Qed.

Lemma key_search_spec l k : key_search l k = true ↔ k ∈ l.
Proof.
  unfold key_search. rewrite existsb_exists. split.
  - intros (x & Hx & H). bool_prop. rewrite list_elem_of_In.
    replace k with x; [done|].
    rewrite key_less_false in *. apply entity_key_eq; lia.
  - intros H. exists k. rewrite <- list_elem_of_In. split; [done|].
    assert (critical_entity_key_less k k = false) as ->; [|done].
    rewrite key_less_false. lia.
Qed.

Definition key_ok (k : critical_entity_key) : Prop :=
  valid_entity_type (key_type k) = true ∧ nz (key_id k) = true.

Definition before (previous : option critical_entity_key) (l : list critical_entity_key)
  : list critical_entity_key :=
  match previous with None => l | Some p => p :: l end.

(** The validation loops accept exactly the strictly sorted lists of well-formed
    keys, the revisions over keys of the command. *)
Lemma keys_valid_spec previous l :
  keys_valid previous l = true ↔ Forall key_ok l ∧ Sorted key_lt (before previous l).
Proof.
  revert previous. induction l as [|k l IH]; intros previous; simpl.
  { split; [|done]. intros _. split; [done|]. destruct previous; repeat constructor. }
  rewrite !andb_true_iff, IH, Forall_cons. unfold key_ok at 2. simpl.
  destruct previous as [p|]; simpl; [|tauto].
  split.
  - intros [[[? ?] ?] [? ?]]. repeat split; [done..|]. constructor; [done|by constructor].
  - intros [[? ?] HS]. inversion HS as [|?? HS' HH]; inversion HH; subst. tauto.
Qed.

Lemma keys_valid_sorted l :
  keys_valid None l = true ↔ Forall key_ok l ∧ Sorted key_lt l.
Proof. apply keys_valid_spec. Qed.

Lemma revisions_valid_spec ks previous l :
  revisions_valid ks previous l = true ↔
  keys_valid previous (map revision_key l) = true
  ∧ Forall (fun r => revision_key r ∈ ks) l.
Proof.
  revert previous. induction l as [|r l IH]; intros previous; simpl.
  { split; [intros _; by constructor|done]. }
  rewrite Forall_cons, !andb_true_iff, IH, key_search_spec. tauto.
Qed.

(** *** The encoding as one byte string *)

Definition key_bytes (k : critical_entity_key) : list byte :=
  le_split 1 (key_type k) ++ repeat Byte.x00 7 ++ le_split 8 (key_id k).
Definition revision_bytes (r : critical_expected_revision) : list byte :=
  key_bytes (revision_key r) ++ le_split 8 (revision_value r).

Definition command_bytes (c : critical_command) : list byte :=
  COMMAND_MAGIC ++ le_split 4 (schema_version c) ++ operation_id c
  ++ le_split 2 (command_type c) ++ le_split 2 (payload_version c)
  ++ le_split 2 (source_site c) ++ le_split 1 (deadline_class c) ++ Byte.x00
  :: le_split 8 (accepted_at_usec c) ++ le_split 4 (vsize (keys c))
  ++ le_split 4 (vsize (expected_revisions c)) ++ le_split 4 (vsize (payload c))
  ++ concat (map key_bytes (keys c))
  ++ concat (map revision_bytes (expected_revisions c)) ++ payload c.

Lemma encode_key_app out k : encode_key out k = out ++ key_bytes k.
Proof. unfold encode_key, key_bytes, append_le. by rewrite <- !(assoc_L (++)). Qed.

Lemma encode_revision_app out r : encode_revision out r = out ++ revision_bytes r.
Proof.
  unfold encode_revision, revision_bytes, append_le.
  by rewrite encode_key_app, <- !(assoc_L (++)).
Qed.

Lemma encoded_bytes c :
  foldl encode_revision (foldl encode_key (encode_header c) (keys c)) (expected_revisions c)
    ++ payload c = command_bytes c.
Proof.
  rewrite (foldl_enc encode_key _ encode_key_app).
  rewrite (foldl_enc encode_revision _ encode_revision_app).
  unfold encode_header, command_bytes, append_le. by rewrite <- !(assoc_L (++)).
Qed.

Lemma length_concat_const {A B} (f : A → list B) n l :
  (∀ a, length (f a) = n) → length (concat (map f l)) = (length l * n)%nat.
Proof. intros H. induction l as [|a l IH]; simpl; [done|]. by rewrite length_app, H, IH. Qed.

Lemma length_key_bytes k : length (key_bytes k) = 16%nat.
Proof. unfold key_bytes. by rewrite !length_app, !length_le_split. Qed.
Lemma length_revision_bytes r : length (revision_bytes r) = 24%nat.
Proof.
  unfold revision_bytes. by rewrite length_app, length_key_bytes, length_le_split.
Qed.

Lemma length_command_bytes c :
  length (operation_id c) = CRITICAL_COMMAND_ID_BYTES →
  length (command_bytes c)
    = (52 + length (keys c) * 16 + length (expected_revisions c) * 24
       + length (payload c))%nat.
Proof.
  intros Hid. unfold command_bytes. rewrite !length_app, Hid. cbn [length].
  rewrite !length_app, !length_le_split.
  rewrite (length_concat_const _ 16), (length_concat_const _ 24)
    by auto using length_key_bytes, length_revision_bytes.
  unfold CRITICAL_COMMAND_ID_BYTES, COMMAND_MAGIC. cbn [length]. lia.
Qed.

(** What validity says of the lists' sizes. *)
Lemma valid_sizes c :
  critical_command_valid c = true →
  schema_version c = CRITICAL_COMMAND_SCHEMA_VERSION
  ∧ 0 < vsize (keys c) <= CRITICAL_COMMAND_MAX_KEYS
  ∧ vsize (expected_revisions c) <= CRITICAL_COMMAND_MAX_KEYS
  ∧ vsize (payload c) <= CRITICAL_COMMAND_MAX_PAYLOAD_BYTES.
Proof.
  unfold critical_command_valid. intros H. bool_prop. unfold vsize in *. lia.
Qed.

Ltac limits :=
  unfold vsize, CRITICAL_COMMAND_MAX_KEYS, CRITICAL_COMMAND_MAX_PAYLOAD_BYTES,
    CRITICAL_COMMAND_MAX_ENCODED_BYTES in *.

Lemma command_bytes_bound c :
  length (operation_id c) = CRITICAL_COMMAND_ID_BYTES →
  critical_command_valid c = true →
  vsize (command_bytes c) <= CRITICAL_COMMAND_MAX_ENCODED_BYTES.
Proof.
  intros Hid (_ & Hk & Hr & Hp)%valid_sizes. unfold vsize at 1.
  rewrite length_command_bytes by done. limits. lia.
Qed.

Lemma encode_valid c :
  length (operation_id c) = CRITICAL_COMMAND_ID_BYTES →
  critical_command_valid c = true → critical_command_encode c = Ok (command_bytes c).
Proof.
  intros Hid Hv. unfold critical_command_encode. rewrite Hv, encoded_bytes. simpl.
  pose proof (command_bytes_bound c Hid Hv) as Hb. apply Z.leb_le in Hb. by rewrite Hb.
Qed.

Lemma encode_ok c bs :
  critical_command_encode c = Ok bs →
  critical_command_valid c = true ∧ bs = command_bytes c.
Proof.
  unfold critical_command_encode. rewrite encoded_bytes. intros H.
  steps_in H. bool_prop. done.
Qed.

(** *** Decoding what was encoded *)

Lemma field_at sz input off x rest :
  fits (8 * Z.of_nat sz) x →
  at_offset input off (le_split sz x ++ rest) →
  field sz input off = Ok (x, (off + sz)%nat) ∧ at_offset input (off + sz) rest.
Proof.
  intros Hx Hat. destruct (read_le_at _ _ _ _ _ Hx Hat) as [E R].
  unfold field. by rewrite E.
Qed.

Lemma byte_at_spec input off b rest :
  at_offset input off (b :: rest) →
  byte_at input off = Ok b ∧ at_offset input (off + 1) rest.
Proof.
  intros Hat. unfold byte_at. rewrite (at_offset_lookup _ _ _ _ Hat).
  split; [done|]. by apply at_offset_cons in Hat.
Qed.

Lemma le_split_1 x : u8 x → le_split 1 x = [to_byte x].
Proof. done. Qed.

Lemma decode_key_at input off k rest :
  key_typed k → at_offset input off (key_bytes k ++ rest) →
  decode_key input off = Ok (k, (off + length (key_bytes k))%nat)
  ∧ at_offset input (off + 16) rest.
Proof.
  intros [Ht Hi] Hat. rewrite length_key_bytes. unfold key_bytes in Hat.
  rewrite le_split_1, <- !(assoc_L (++)) in Hat by done. cbn [app] in Hat.
  unfold decode_key. destruct (byte_at_spec _ _ _ _ Hat) as [-> Hat1].
  assert (pads_zero input off = true) as ->
    by apply bool_decide_eq_true_2, (at_offset_take _ _ (repeat Byte.x00 7) _ Hat1).
  apply (at_offset_app _ _ (repeat Byte.x00 7)) in Hat1. simpl in Hat1.
  replace (off + 1 + 7)%nat with (off + 8)%nat in Hat1 by lia.
  destruct (field_at 8 _ _ _ _ Hi Hat1) as [-> Hat2]. simpl.
  rewrite of_to_byte by done.
  replace (off + 8 + 8)%nat with (off + 16)%nat in * by lia.
  by destruct k.
Qed.

Lemma decode_revision_at input off r rest :
  revision_typed r → at_offset input off (revision_bytes r ++ rest) →
  decode_revision input off = Ok (r, (off + length (revision_bytes r))%nat).
Proof.
  intros [Hk Hv] Hat. rewrite length_revision_bytes. unfold revision_bytes in Hat.
  rewrite <- !(assoc_L (++)) in Hat. unfold decode_revision.
  destruct (decode_key_at _ _ _ _ Hk Hat) as [-> Hat1]. rewrite length_key_bytes.
  destruct (field_at 8 _ _ _ _ Hv Hat1) as [-> _].
  replace (off + 16 + 8)%nat with (off + 24)%nat by lia. by destruct r.
Qed.

(** Steps the decoder over the next integer field of the buffer. *)
Ltac read_field sz Hat :=
  match goal with
  | |- context [field sz _ _] =>
      let E := fresh "E" in
      eapply (field_at sz) in Hat as [E Hat]; [rewrite E; clear E|]
  end.

(** The decoder's own bound checks pass on a valid command's counts. *)
Lemma sizes_accepted c :
  critical_command_valid c = true →
  nz (vsize (keys c)) && (vsize (keys c) <=? CRITICAL_COMMAND_MAX_KEYS)
  && (vsize (expected_revisions c) <=? CRITICAL_COMMAND_MAX_KEYS)
  && (vsize (payload c) <=? CRITICAL_COMMAND_MAX_PAYLOAD_BYTES) = true.
Proof.
  intros (_ & Hk & Hr & Hp)%valid_sizes. unfold nz.
  rewrite !andb_true_iff, negb_true_iff, Z.eqb_neq, !Z.leb_le. lia.
Qed.

Lemma fits_vsize {A} (l : list A) m w : vsize l <= m → m < 2 ^ w → fits w (vsize l).
Proof. unfold vsize, fits. lia. Qed.

Lemma decode_command_bytes c :
  command_typed c → critical_command_valid c = true →
  critical_command_decode (command_bytes c) = Ok c.
Proof.
  intros T V. pose proof (valid_sizes c V) as (Hs & Hk & Hr & Hp).
  pose proof (typed_id c T) as Hid.
  pose proof (command_bytes_bound c Hid V) as Hb.
  pose proof (length_command_bytes c Hid) as HL.
  pose proof (at_offset_start (command_bytes c)) as Hat.
  unfold critical_command_decode.
  set (bs := command_bytes c) in *. unfold bs in Hat at 2. unfold command_bytes in Hat.
  clearbody bs. rewrite (proj2 (Nat.ltb_ge _ _)) by lia. cbn [negb].
  rewrite (proj2 (Z.leb_le _ _) Hb).
  rewrite (bool_decide_eq_true_2 (take 4 bs = _)) by apply (at_offset_take _ 0 COMMAND_MAGIC _ Hat).
  cbn [andb negb].
  apply at_offset_app in Hat. cbn [length COMMAND_MAGIC Nat.add] in Hat.
  read_field 4%nat Hat; [|by apply typed_schema].
  rewrite Hs, Z.eqb_refl. cbn [negb].
  assert (take CRITICAL_COMMAND_ID_BYTES (drop (4 + 4) bs) = operation_id c) as ->
    by (rewrite <- Hid; by apply at_offset_take in Hat).
  apply at_offset_app in Hat. rewrite Hid in Hat.
  read_field 2%nat Hat; [|by apply typed_type].
  read_field 2%nat Hat; [|by apply typed_payload_version].
  read_field 2%nat Hat; [|by apply typed_source].
  rewrite (proj2 (Nat.leb_le _ _)) by (unfold CRITICAL_COMMAND_ID_BYTES; lia). cbn [negb].
  rewrite le_split_1 in Hat by apply T. cbn [app] in Hat.
  destruct (byte_at_spec _ _ _ _ Hat) as [-> Hat1].
  destruct (byte_at_spec _ _ _ _ Hat1) as [-> Hat2]. clear Hat Hat1.
  cbn [negb nz]. rewrite <- Nat.add_assoc in Hat2. change (1 + 1)%nat with 2%nat in Hat2.
  read_field 8%nat Hat2; [|by apply typed_accepted].
  read_field 4%nat Hat2; [|by eapply fits_vsize; [apply Hk|]].
  read_field 4%nat Hat2; [|by eapply fits_vsize; [apply Hr|]].
  read_field 4%nat Hat2; [|by eapply fits_vsize; [apply Hp|]].
  change (negb (negb (nz (of_byte Byte.x00)))) with false. cbv iota.
  rewrite (sizes_accepted c V). cbn [negb].
  assert (Z.of_nat (length bs - (4 + 4 + CRITICAL_COMMAND_ID_BYTES + 2 + 2 + 2 + 2 + 8 + 4 + 4 + 4))
          = vsize (keys c) * 16 + vsize (expected_revisions c) * 24 + vsize (payload c)) as ->
    by (rewrite HL; unfold vsize, CRITICAL_COMMAND_ID_BYTES; lia).
  unfold wrap. rewrite Z.mod_small, Z.eqb_refl by (limits; lia). cbn [negb].
  unfold vsize. rewrite !Nat2Z.id.
  destruct (decode_many_at key_bytes (decode_key bs) bs key_typed (keys c) _ _
              (fun _ _ _ P A => proj1 (decode_key_at _ _ _ _ P A)) (typed_keys c T) Hat2)
    as [-> Hat3].
  destruct (decode_many_at revision_bytes (decode_revision bs) bs revision_typed
              (expected_revisions c) _ _
              (fun _ _ _ P A => decode_revision_at _ _ _ _ P A) (typed_revisions c T) Hat3)
    as [-> [_ ->]].
  rewrite <- Hs, of_to_byte by apply T. assert (Hd : ∀ d, d = c →
    (ensure critical_command_valid d else codec_invalid in Ok d) = Ok c)
    by (intros ? ->; by rewrite V).
  apply Hd. by destruct c.
Qed.

(** *** What a successful decoding says of the buffer *)

Lemma field_consumed sz input off v off' out :
  field sz input off = Ok (v, off') → consumed input off out →
  off' = (off + sz)%nat ∧ fits (8 * Z.of_nat sz) v ∧ consumed input off' (append_le sz out v).
Proof.
  unfold field. intros H C. steps_in H. by eapply read_le_consumed.
Qed.

Lemma byte_at_consumed input off b out :
  byte_at input off = Ok b → consumed input off out →
  consumed input (off + 1) (append_le 1 out (of_byte b)).
Proof.
  unfold byte_at. intros H C. steps_in H. unfold append_le.
  rewrite le_split_1, to_of_byte by auto with duris. by apply consumed_lookup.
Qed.

Lemma decode_key_consumed input off k off' out :
  decode_key input off = Ok (k, off') → consumed input off out →
  key_typed k ∧ consumed input off' (encode_key out k).
Proof.
  unfold decode_key. intros H C. steps_in H. bool_prop.
  pose proof (byte_at_consumed _ _ _ _ E C) as C1.
  unfold pads_zero in E0. apply bool_decide_eq_true_1 in E0.
  assert (L : length (take 7 (drop (off + 1) input)) = 7%nat) by (rewrite E0; done).
  rewrite length_take, length_drop in L.
  pose proof (consumed_app _ _ _ 7 C1) as C2. rewrite E0 in C2.
  replace (off + 1 + 7)%nat with (off + 8)%nat in C2 by lia.
  destruct (field_consumed _ _ _ _ _ _ E1 (C2 ltac:(lia))) as (_ & Hi & C3).
  split; [split; [apply of_byte_range|exact Hi]|exact C3].
Qed.

Lemma decode_revision_consumed input off r off' out :
  decode_revision input off = Ok (r, off') → consumed input off out →
  revision_typed r ∧ consumed input off' (encode_revision out r).
Proof.
  unfold decode_revision. intros H C. steps_in H.
  destruct (decode_key_consumed _ _ _ _ _ E C) as [Hk C1].
  destruct (field_consumed _ _ _ _ _ _ E0 C1) as (_ & Hv & C2).
  split; [by split|exact C2].
Qed.

(** Advances the consumed prefix over the next decoded field. *)
Ltac consume C :=
  match goal with
  | E : field _ _ _ = Ok _ |- _ =>
      let Hf := fresh "Hf" in
      apply (field_consumed _ _ _ _ _ _ E) in C as (_ & Hf & C); clear E
  end.

Lemma nz_false_byte b : nz (of_byte b) = false → of_byte b = 0.
Proof. unfold nz. intros H. bool_prop. done. Qed.

(** The exact-size check makes the rest of the buffer the payload. *)
Lemma payload_remaining bs n6 n8 out l l0 z6 :
  consumed bs n6 out →
  consumed bs n8 (foldl encode_revision (foldl encode_key out l) l0) →
  wrap 64 (vsize l * 16 + vsize l0 * 24 + z6) = Z.of_nat (length bs - n6) →
  0 <= vsize l * 16 + vsize l0 * 24 + z6 < 2 ^ 64 → 0 <= z6 →
  z6 = vsize (drop n8 bs).
Proof.
  intros C2 C4 E Hr Hz. unfold wrap in E. rewrite Z.mod_small in E by done.
  apply consumed_length in C2 as [L2 H2], C4 as [L4 H4].
  rewrite (foldl_enc encode_revision _ encode_revision_app),
    (foldl_enc encode_key _ encode_key_app), !length_app in L4.
  rewrite (length_concat_const _ 16), (length_concat_const _ 24) in L4
    by auto using length_key_bytes, length_revision_bytes.
  unfold vsize in *. rewrite length_drop. lia.
Qed.

Lemma decode_ok bs c :
  critical_command_decode bs = Ok c →
  command_typed c ∧ critical_command_valid c = true ∧ bs = command_bytes c.
Proof.
  unfold critical_command_decode. intros H. steps_in H. bool_prop.
  assert (C : consumed bs 4 COMMAND_MAGIC) by (split; [lia|done]).
  apply (field_consumed _ _ _ _ _ _ E1) in C as (-> & Hz & C). clear E1.
  assert (Lid : length (take CRITICAL_COMMAND_ID_BYTES (drop (4 + 4) bs))
                = CRITICAL_COMMAND_ID_BYTES)
    by (rewrite length_take, length_drop; unfold CRITICAL_COMMAND_ID_BYTES; lia).
  apply (consumed_app _ _ _ CRITICAL_COMMAND_ID_BYTES) in C;
    [|unfold CRITICAL_COMMAND_ID_BYTES; lia].
  do 3 (consume C).
  apply (byte_at_consumed _ _ _ _ E7) in C as C1.
  apply (byte_at_consumed _ _ _ _ E8) in C1 as C2. clear C C1.
  rewrite <- Nat.add_assoc in C2. change (1 + 1)%nat with 2%nat in C2.
  do 4 (consume C2).
  destruct (decode_many_consumed encode_key (decode_key bs) bs key_typed _ _ _ _ _
              (decode_key_consumed bs) E16 C2) as (Ll & Hl & C3).
  destruct (decode_many_consumed encode_revision (decode_revision bs) bs revision_typed
              _ _ _ _ _ (decode_revision_consumed bs) E17 C3) as (Ll0 & Hl0 & C4).
  split; [constructor; cbn; auto with duris|]. split; [done|].
  apply consumed_rest in C4 as Hbs.
  assert (vsize l = z4) as <- by (unfold vsize; width; lia).
  assert (vsize l0 = z5) as <- by (unfold vsize; width; lia).
  apply (payload_remaining _ _ _ _ _ _ _ C2 C4) in E15; [|limits; width; lia..].
  rewrite <- encoded_bytes. unfold encode_header. simpl.
  rewrite <- E15. rewrite (nz_false_byte a0) in Hbs by done. exact Hbs.
Qed.

Lemma decode_encode bs c :
  critical_command_decode bs = Ok c → critical_command_encode c = Ok bs.
Proof.
  intros (T & V & ->)%decode_ok. by apply encode_valid; [apply T|].
Qed.

Lemma encode_inj l r bs :
  command_typed l → command_typed r →
  critical_command_encode l = Ok bs → critical_command_encode r = Ok bs → l = r.
Proof.
  intros Tl Tr [Vl ->]%encode_ok [Vr E]%encode_ok.
  apply decode_command_bytes in Vl, Vr; [|done..]. congruence.
Qed.

(** *** Normalisation *)

(** The same command up to the order of its keys and revisions. *)
Record same_command (c d : critical_command) : Prop := {
  same_schema : schema_version c = schema_version d;
  same_id : operation_id c = operation_id d;
  same_type : command_type c = command_type d;
  same_payload_version : payload_version c = payload_version d;
  same_source : source_site c = source_site d;
  same_deadline : deadline_class c = deadline_class d;
  same_accepted : accepted_at_usec c = accepted_at_usec d;
  same_keys : keys c ≡ₚ keys d;
  same_revisions : expected_revisions c ≡ₚ expected_revisions d;
  same_payload : payload c = payload d;
}.

Lemma valid_keys c :
  critical_command_valid c = true →
  Forall key_ok (keys c) ∧ StronglySorted key_lt (keys c).
Proof.
  unfold critical_command_valid. rewrite !andb_true_iff, keys_valid_sorted.
  intros [[_ [Hok HS]] _]. split; [done|]. by apply (Sorted_StronglySorted _).
Qed.

Lemma valid_revisions c :
  critical_command_valid c = true →
  StronglySorted key_lt (map revision_key (expected_revisions c))
  ∧ Forall (fun r => revision_key r ∈ keys c) (expected_revisions c).
Proof.
  unfold critical_command_valid.
  rewrite !andb_true_iff, revisions_valid_spec, !keys_valid_sorted.
  intros [_ [[_ HS] HF]]. split; [|done]. by apply (Sorted_StronglySorted _).
Qed.

Lemma key_lt_le a b : key_lt a b → key_le a b.
Proof. unfold key_lt, key_le. rewrite key_less_spec, key_less_false. lia. Qed.

Lemma adjacent_equal_sorted l :
  StronglySorted key_lt l → adjacent_equal l = false.
Proof.
  induction 1 as [|a l HS IH HF]; [done|]. destruct l as [|b l]; [done|].
  change (critical_entity_key_equal a b || adjacent_equal (b :: l) = false).
  rewrite IH, orb_false_r. apply Forall_cons in HF as [Hlt _].
  apply not_true_iff_false. rewrite key_equal_spec. intros ->.
  unfold key_lt in Hlt. apply key_less_spec in Hlt. lia.
Qed.

Lemma adjacent_unequal_sorted l :
  StronglySorted key_le l → adjacent_equal l = false → StronglySorted key_lt l.
Proof.
  intros S. induction S as [|a l S IH F]; intros A; [constructor|].
  destruct l as [|b l]; [repeat constructor|].
  change (critical_entity_key_equal a b || adjacent_equal (b :: l) = false) in A.
  apply orb_false_iff in A as [N A]. specialize (IH A). constructor; [done|].
  assert (key_lt a b) as L.
  { apply Forall_cons in F as [F _]. unfold key_le, key_lt in *.
    rewrite key_less_false in F. apply key_less_spec. destruct (decide (a = b)) as [->|Ne].
    - by rewrite (proj2 (key_equal_spec b b) eq_refl) in N.
    - assert (¬ (key_type a = key_type b ∧ key_id a = key_id b)) as X
        by (intros [X Y]; by apply Ne, entity_key_eq). lia. }
  apply Forall_cons. split; [done|]. apply StronglySorted_inv in IH as [_ IH].
  eapply Forall_impl; [exact IH|]. intros x X. by etrans.
Qed.

Lemma sorted_revision_keys pairs :
  revision_key <$> merge_sort revision_le pairs = merge_sort key_le (revision_key <$> pairs).
Proof.
  apply (StronglySorted_unique key_le).
  - apply (StronglySorted_map revision_key key_le). apply StronglySorted_merge_sort; apply _.
  - apply StronglySorted_merge_sort; apply _.
  - by rewrite !merge_sort_Permutation.
Qed.

Lemma sorted_keys_unique c d :
  same_command c d → critical_command_valid d = true →
  merge_sort key_le (keys c) = keys d.
Proof.
  intros S (_ & HS)%valid_keys. apply (StronglySorted_unique key_le).
  - apply StronglySorted_merge_sort; apply _.
  - by eapply StronglySorted_weaken; [apply key_lt_le|].
  - rewrite merge_sort_Permutation. apply S.
Qed.

#[export] Instance key_lt_irrefl : Irreflexive key_lt.
Proof. intros a. unfold complement, key_lt. rewrite key_less_spec. lia. Qed.

Lemma sorted_revisions_unique c d :
  same_command c d → critical_command_valid d = true →
  merge_sort revision_le (expected_revisions c) = expected_revisions d.
Proof.
  intros S (HS & _)%valid_revisions.
  assert (P : merge_sort revision_le (expected_revisions c) ≡ₚ expected_revisions d)
    by (rewrite merge_sort_Permutation; apply S).
  apply (StronglySorted_unique_strong revision_le); [| | |done].
  - intros r1 r2 H1 H2 L12 L21. rewrite P in H1.
    eapply StronglySorted_key_inj; [apply _|exact HS|done..|].
    by apply (anti_symm key_le).
  - apply StronglySorted_merge_sort; apply _.
  - rewrite StronglySorted_map in HS. eapply StronglySorted_weaken; [|exact HS].
    intros a b. apply key_lt_le.
Qed.

Lemma normalize_same c d :
  critical_command_normalize c = Some d →
  same_command c d ∧ critical_command_valid d = true.
Proof.
  unfold critical_command_normalize. intros H. steps_in H. bool_prop.
  split; [|done]. constructor; simpl; try done; by rewrite merge_sort_Permutation.
Qed.

Lemma normalize_complete c d :
  same_command c d → critical_command_valid d = true →
  critical_command_normalize c = Some d.
Proof.
  intros S V. unfold critical_command_normalize.
  rewrite (sorted_keys_unique c d), (sorted_revisions_unique c d) by done.
  rewrite adjacent_equal_sorted by (by apply valid_keys). cbn [negb].
  assert (Hd : ∀ e, e = d → (ensure? critical_command_valid e in Some e) = Some d)
    by (intros ? ->; by rewrite V).
  apply Hd. destruct S, d; simpl in *; congruence.
Qed.

(** Sorting keeps the commands that decode. *)
Lemma normalize_sorted c d :
  StronglySorted key_lt (keys c) → revision_key <$> expected_revisions c = keys c →
  critical_command_normalize c = Some d → d = c.
Proof.
  intros S R. unfold critical_command_normalize. destruct (negb (adjacent_equal _)); [|done].
  cbn [negb]. destruct (critical_command_valid _); [|done]. cbn [negb]. intros E. apply (inj Some) in E as <-.
  assert (merge_sort key_le (keys c) = keys c) as ->.
  { apply (StronglySorted_unique key_le); [apply StronglySorted_merge_sort; apply _| |apply merge_sort_Permutation].
    by eapply StronglySorted_weaken; [apply key_lt_le|]. }
  assert (merge_sort revision_le (expected_revisions c) = expected_revisions c) as ->; [|by destruct c].
  rewrite <- R in S. apply (StronglySorted_unique_strong revision_le).
  - intros r1 r2 H1 H2 L12 L21. rewrite merge_sort_Permutation in H1.
    eapply StronglySorted_key_inj; [apply _|exact S|done..|]. by apply (anti_symm key_le).
  - apply StronglySorted_merge_sort; apply _.
  - apply (StronglySorted_map revision_key) in S. eapply StronglySorted_weaken; [|exact S].
    intros a b. apply key_lt_le.
  - apply merge_sort_Permutation.
Qed.

(** *** Hexadecimal identities *)

Lemma hex_byte (b : byte) :
  from_hex_loop [hex_digit (Z.shiftr (of_byte b) 4); hex_digit (Z.land (of_byte b) 15)]
  = Some [b].
Proof. destruct b; vm_compute; reflexivity. Qed.

Lemma from_hex_loop_app a b rest :
  from_hex_loop (a :: b :: rest)
  = match from_hex_loop [a; b], from_hex_loop rest with
    | Some x, Some y => Some (x ++ y)
    | _, _ => None
    end.
Proof.
  cbn [from_hex_loop]. destruct (negb (negb _)); [done|].
  by destruct (from_hex_loop rest).
Qed.

Definition hex_of (id : critical_operation_id) : list byte :=
  concat (map (fun value => [hex_digit (Z.shiftr (of_byte value) 4);
                             hex_digit (Z.land (of_byte value) 15)]) id).

Lemma from_hex_hex_of id : from_hex_loop (hex_of id) = Some id.
Proof.
  induction id as [|b id IH]; [done|]. unfold hex_of in *. simpl map. simpl concat.
  by rewrite from_hex_loop_app, hex_byte, IH.
Qed.

(** *** Derived identities *)

Lemma derive_input_inj p1 p2 d1 d2 n1 n2 :
  length p1 = length p2 → u32 d1 → u32 d2 → u64 n1 → u64 n2 →
  derive_input p1 d1 n1 = derive_input p2 d2 n2 → p1 = p2 ∧ d1 = d2 ∧ n1 = n2.
Proof.
  unfold derive_input, append_le. intros L H1 H2 H3 H4 E.
  apply app_inj_2 in E as [E E3]; [|by rewrite !length_le_split].
  apply app_inj_2 in E as [E E2]; [|by rewrite !length_le_split].
  repeat split; [done|exact (le_split_inj 4 _ _ H1 H2 E2)|exact (le_split_inj 8 _ _ H3 H4 E3)].
Qed.

(** ** Properties *)

(** every well-typed command [critical_command_valid] accepts is encoded — the
    512 KiB bound is never reached, so [overflow] is not returned — and decoding
    the bytes gives the same command back. *)
Theorem critical_command_roundtrip c :
  command_typed c → critical_command_valid c = true →
  ∃ bs, critical_command_encode c = Ok bs ∧ critical_command_decode bs = Ok c.
Proof.
  intros T V. exists (command_bytes c).
  split; [apply encode_valid; [apply T|done] | by apply decode_command_bytes].
Qed.

(** C21: the decoder accepts only canonical bytes: what it returns is a valid
    command whose encoding is exactly the input, so two different durable rows
    never decode to the same command. *)
Theorem critical_command_decode_canonical bs c :
  critical_command_decode bs = Ok c →
  critical_command_valid c = true ∧ critical_command_encode c = Ok bs.
Proof. intros H. split; [apply (decode_ok _ _ H) | by apply decode_encode]. Qed.

(** [critical_command_equal], which decides whether a resubmitted operation id
    is the same operation, is equality of valid commands. *)
Theorem critical_command_equal_spec l r :
  command_typed l → command_typed r →
  critical_command_equal l r = true ↔ l = r ∧ critical_command_valid l = true.
Proof.
  intros Tl Tr. unfold critical_command_equal. split.
  - intros H. steps_in H. bool_prop. subst. split; [by eapply encode_inj|].
    by eapply encode_ok.
  - intros [-> V]. rewrite (encode_valid r) by (done || apply Tr).
    by apply bool_decide_eq_true_2.
Qed.

(** [critical_command_normalize] succeeds exactly when some reordering of the
    command's keys and expected revisions is valid, and its result is that
    reordering, which is unique. *)
Theorem critical_command_normalize_spec c d :
  critical_command_normalize c = Some d ↔
  same_command c d ∧ critical_command_valid d = true.
Proof.
  split; [apply normalize_same|]. intros [S V]. by apply normalize_complete.
Qed.

(** the 33-character form of a non-zero operation id parses back to it. *)
Theorem operation_id_hex_roundtrip id out :
  length id = CRITICAL_COMMAND_ID_BYTES → critical_operation_id_is_zero id = false →
  critical_operation_id_to_hex id CRITICAL_COMMAND_ID_HEX_SIZE = Some out →
  length out = CRITICAL_COMMAND_ID_HEX_SIZE
  ∧ critical_operation_id_from_hex (removelast out) = Some id.
Proof.
  intros L Z H. change (Some (hex_of id ++ [Byte.x00]) = Some out) in H. simplify_eq.
  rewrite removelast_last, length_app. cbn [length].
  assert (length (hex_of id) = 32%nat) as L2
    by (unfold hex_of; by rewrite (length_concat_const _ 2), L).
  rewrite L2. split; [done|]. unfold critical_operation_id_from_hex.
  by rewrite L2, from_hex_hex_of, Z.
Qed.

(** subcommand ids derived for different (parent, domain, discriminator)
    triples differ, unless SHA-256 maps the two different 28-byte inputs hashed for
    them to one 16-byte prefix. *)
Theorem operation_id_derive_separates SHA256 p1 p2 d1 d2 n1 n2 id :
  length p1 = CRITICAL_COMMAND_ID_BYTES → length p2 = CRITICAL_COMMAND_ID_BYTES →
  u32 d1 → u32 d2 → u64 n1 → u64 n2 →
  critical_operation_id_derive SHA256 p1 d1 n1 = Some id →
  critical_operation_id_derive SHA256 p2 d2 n2 = Some id →
  (p1, d1, n1) ≠ (p2, d2, n2) →
  let x := derive_input p1 d1 n1 in
  let y := derive_input p2 d2 n2 in
  length x = 28%nat ∧ length y = 28%nat ∧ x ≠ y
  ∧ take CRITICAL_COMMAND_ID_BYTES (SHA256 x) = take CRITICAL_COMMAND_ID_BYTES (SHA256 y).
Proof.
  unfold critical_operation_id_derive. intros L1 L2 H1 H2 H3 H4 E1 E2 Hne.
  steps_in E1. steps_in E2.
  assert (HL : ∀ p d n, length p = CRITICAL_COMMAND_ID_BYTES →
                 length (derive_input p d n) = 28%nat)
    by (intros p d n Hp; unfold derive_input, append_le;
        by rewrite !length_app, !length_le_split, Hp).
  repeat split; [by apply HL..| |done].
  intros (-> & -> & ->)%derive_input_inj; congruence.
Qed.

(** ** Witnesses *)

Definition sample_command : critical_command := {|
  schema_version := 1; operation_id := repeat Byte.x07 16;
  command_type := critical_command_type.account_bank; payload_version := 1;
  source_site := critical_source_site.command;
  deadline_class := critical_deadline_class.interactive; accepted_at_usec := 77;
  keys := [EntityKey 1 5; EntityKey 2 9];
  expected_revisions := [ExpectedRevision (EntityKey 2 9) 4];
  payload := [Byte.x01; Byte.x02] |}.

(** The same command with its keys out of order, as a caller may submit it. *)
Definition sample_unsorted : critical_command := {|
  schema_version := 1; operation_id := repeat Byte.x07 16;
  command_type := critical_command_type.account_bank; payload_version := 1;
  source_site := critical_source_site.command;
  deadline_class := critical_deadline_class.interactive; accepted_at_usec := 77;
  keys := [EntityKey 2 9; EntityKey 1 5];
  expected_revisions := [ExpectedRevision (EntityKey 2 9) 4];
  payload := [Byte.x01; Byte.x02] |}.

Ltac typed := repeat first [split | constructor]; cbn; try done; width; lia.

Lemma sample_typed : command_typed sample_command.
Proof. typed. Qed.

Example normalize_sample : critical_command_normalize sample_unsorted = Some sample_command.
Proof. vm_compute. reflexivity. Qed.

Lemma critical_command_roundtrip_witness :
  ∃ bs, critical_command_encode sample_command = Ok bs
        ∧ critical_command_decode bs = Ok sample_command.
Proof. apply critical_command_roundtrip; [apply sample_typed | vm_compute; reflexivity]. Defined.

Lemma critical_command_decode_canonical_witness :
  critical_command_valid sample_command = true
  ∧ critical_command_encode sample_command = Ok (command_bytes sample_command).
Proof. apply critical_command_decode_canonical. vm_compute. reflexivity. Defined.

Lemma critical_command_equal_spec_witness :
  critical_command_equal sample_command sample_command = true
  ↔ sample_command = sample_command ∧ critical_command_valid sample_command = true.
Proof. apply critical_command_equal_spec; apply sample_typed. Defined.

Lemma operation_id_hex_roundtrip_witness :
  ∃ out, critical_operation_id_to_hex (repeat Byte.xa7 16) 33 = Some out
         ∧ critical_operation_id_from_hex (removelast out) = Some (repeat Byte.xa7 16).
Proof.
  eexists. split; [reflexivity|].
  eapply (operation_id_hex_roundtrip (repeat Byte.xa7 16));
    [reflexivity | vm_compute; reflexivity | reflexivity].
Defined.

(** A hash that keeps only the first 16 bytes of its input collides on two
    domains, as the conclusion says. *)
Lemma operation_id_derive_separates_witness :
  derive_input (repeat Byte.x07 16) 1 0 ≠ derive_input (repeat Byte.x07 16) 2 0.
Proof.
  refine (proj1 (proj2 (proj2 (operation_id_derive_separates (fun bs => take 16 bs)
    (repeat Byte.x07 16) (repeat Byte.x07 16) 1 2 0 0 (repeat Byte.x07 16)
    _ _ _ _ _ _ _ _ _)))); try (vm_compute; reflexivity); try done; width; lia.
Defined.
