(* ===== verification/RevisionState.v ===== *)
(** * Player checkpoint revisions

    Models [player/player_revision_state.h] and [.c]: per player, which snapshot
    components changed at which revision, and which of the changes are queued, being
    written, or durable.

    [revision_states] is a [gmap] from pid to entry; every function returns the new
    map, with [None] for a C++ [false].  A revision is a 64-bit [Z], a component
    mask a [Z] read bit by bit.  Allocation failure of [emplace] is not modelled. *)

From S2P Require Import Prelude.

(** ** Constants and data *)

Definition PLAYER_COMPONENT_STATUS : Z := Z.shiftl 1 0.
Definition PLAYER_COMPONENT_LANGUAGES : Z := Z.shiftl 1 1.
Definition PLAYER_COMPONENT_INTRODUCTIONS : Z := Z.shiftl 1 2.
Definition PLAYER_COMPONENT_TIMERS : Z := Z.shiftl 1 3.
Definition PLAYER_COMPONENT_UNDEAD_SLOTS : Z := Z.shiftl 1 4.
Definition PLAYER_COMPONENT_FORGED_ITEMS : Z := Z.shiftl 1 5.
Definition PLAYER_COMPONENT_GRANTED_COMMANDS : Z := Z.shiftl 1 6.
Definition PLAYER_COMPONENT_SKILLS : Z := Z.shiftl 1 7.
Definition PLAYER_COMPONENT_AFFECTS : Z := Z.shiftl 1 8.
Definition PLAYER_COMPONENT_EQUIPMENT : Z := Z.shiftl 1 9.
Definition PLAYER_COMPONENT_INVENTORY : Z := Z.shiftl 1 10.
Definition PLAYER_COMPONENT_PETS : Z := Z.shiftl 1 11.
Definition PLAYER_COMPONENT_SHAPECHANGES : Z := Z.shiftl 1 12.
Definition PLAYER_COMPONENT_TROPHIES : Z := Z.shiftl 1 13.
Definition PLAYER_CHECKPOINT_COMPONENT_ALL : Z :=
  Z.shiftl PLAYER_COMPONENT_TROPHIES 1 - 1.

Definition MAX_PLAYER_REVISION_STATES : nat := Z.to_nat 8192.
Definition CHECKPOINT_COMPONENT_COUNT : nat := 14.

Record player_revision_entry := RevisionEntry {
  current_revision : Z;
  acknowledged_revision : Z;
  queued_revision : Z;
  inflight_revision : Z;
  dirty_components : Z;
  unacknowledged_components : Z;
  queued_components : Z;
  inflight_components : Z;
  component_revisions : list Z;
  overflowed : bool;
  session_ended : bool;
}.

Abbreviation revision_map := (gmap Z player_revision_entry).

(** ** Operations *)

Definition valid_components (components : Z) : bool :=
  nz components && negb (nz (Z.ldiff components PLAYER_CHECKPOINT_COMPONENT_ALL)).

Definition component (index : nat) : Z := Z.shiftl 1 (Z.of_nat index).
Definition component_revision (e : player_revision_entry) (index : nat) : Z :=
  default 0 (component_revisions e !! index).

(** The three masks one iteration of the loop clears, or not. *)
Definition clear_component (revision components : Z) (e : player_revision_entry)
    (index : nat) : player_revision_entry :=
  if nz (Z.land components (component index)) && (component_revision e index <=? revision)
  then RevisionEntry (current_revision e) (acknowledged_revision e) (queued_revision e)
         (inflight_revision e)
         (Z.ldiff (dirty_components e) (component index))
         (Z.ldiff (unacknowledged_components e) (component index))
         (Z.ldiff (queued_components e) (component index))
         (inflight_components e) (component_revisions e) (overflowed e) (session_ended e)
  else e.

Definition clear_acknowledged_components (e : player_revision_entry)
    (revision components : Z) : player_revision_entry :=
  foldl (clear_component revision components) e (seq 0 CHECKPOINT_COMPONENT_COUNT).

Definition fill_revisions (revision : Z) : list Z :=
  replicate CHECKPOINT_COMPONENT_COUNT revision.

Definition player_revision_hydrate (pid durable_revision : Z) (states : revision_map)
  : bool * revision_map :=
  if pid <=? 0 then (false, states)
  else match states !! pid with
  | Some e =>
      if nz (unacknowledged_components e) || nz (queued_components e)
         || nz (inflight_components e)
      then (durable_revision =? acknowledged_revision e, states)
      else if durable_revision <? acknowledged_revision e then (false, states)
      else (true, <[pid := RevisionEntry durable_revision durable_revision
                    (queued_revision e) (inflight_revision e) (dirty_components e)
                    (unacknowledged_components e) (queued_components e)
                    (inflight_components e) (fill_revisions durable_revision)
                    (overflowed e) false]> states)
  | None =>
      if (MAX_PLAYER_REVISION_STATES <=? size states)%nat then (false, states)
      else (true, <[pid := RevisionEntry durable_revision durable_revision 0 0 0 0 0 0
                    (fill_revisions durable_revision) false false]> states)
  end.

(** [component_revisions[index] = current] for the components marked. *)
Definition mark_revisions (components revision : Z) (revisions : list Z) : list Z :=
  imap (fun index r => if nz (Z.land components (component index)) then revision else r)
       revisions.

Definition player_revision_mark (pid components : Z) (states : revision_map)
  : option Z * revision_map :=
  match states !! pid with
  | None => (None, states)
  | Some e =>
      if negb (valid_components components) || overflowed e then (None, states)
      else if current_revision e =? UINT64_MAX
      then (None, <[pid := RevisionEntry (current_revision e) (acknowledged_revision e)
                    (queued_revision e) (inflight_revision e) (dirty_components e)
                    (unacknowledged_components e) (queued_components e)
                    (inflight_components e) (component_revisions e) true
                    (session_ended e)]> states)
      else
        let current := current_revision e + 1 in
        (Some current,
         <[pid := RevisionEntry current (acknowledged_revision e)
                  (queued_revision e) (inflight_revision e)
                  (Z.lor (dirty_components e) components)
                  (Z.lor (unacknowledged_components e) components)
                  (queued_components e) (inflight_components e)
                  (mark_revisions components current (component_revisions e))
                  (overflowed e) (session_ended e)]> states)
  end.

Definition player_revision_queue (pid : Z) (states : revision_map)
  : option (Z * Z) * revision_map :=
  match states !! pid with
  | None => (None, states)
  | Some e =>
      if negb (nz (unacknowledged_components e)) then (None, states)
      else
        (Some (current_revision e, unacknowledged_components e),
         <[pid := RevisionEntry (current_revision e) (acknowledged_revision e)
                  (current_revision e) (inflight_revision e) 0
                  (unacknowledged_components e) (unacknowledged_components e)
                  (inflight_components e) (component_revisions e) (overflowed e)
                  (session_ended e)]> states)
  end.

Definition player_revision_begin_inflight (pid revision components : Z)
    (states : revision_map) : bool * revision_map :=
  match states !! pid with
  | None => (false, states)
  | Some e =>
      if nz (inflight_components e) || negb (revision =? queued_revision e)
         || negb (components =? queued_components e) || negb (valid_components components)
      then (false, states)
      else (true, <[pid := RevisionEntry (current_revision e) (acknowledged_revision e)
                    0 revision (dirty_components e) (unacknowledged_components e)
                    0 components (component_revisions e) (overflowed e)
                    (session_ended e)]> states)
  end.

(** The guard [acknowledge] and [fail_inflight] share. *)
Definition is_inflight (e : player_revision_entry) (revision components : Z) : bool :=
  (revision =? inflight_revision e) && (components =? inflight_components e)
  && valid_components components.

Definition player_revision_acknowledge (pid revision components : Z)
    (states : revision_map) : bool * revision_map :=
  match states !! pid with
  | None => (false, states)
  | Some e =>
      if negb (is_inflight e revision components) then (false, states)
      else
        let c := clear_acknowledged_components e revision components in
        (true, <[pid := RevisionEntry (current_revision c)
                  (if acknowledged_revision c <? revision then revision
                   else acknowledged_revision c)
                  (queued_revision c) 0 (dirty_components c)
                  (unacknowledged_components c) (queued_components c) 0
                  (component_revisions c) (overflowed c) (session_ended c)]> states)
  end.

Definition player_revision_acknowledge_durable (pid revision components : Z)
    (states : revision_map) : bool * revision_map :=
  match states !! pid with
  | None => (false, states)
  | Some e =>
      if negb (valid_components components) || (revision <? acknowledged_revision e)
         || (current_revision e <? revision) then (false, states)
      else
        let c := clear_acknowledged_components e revision components in
        let cleared := Z.ldiff (unacknowledged_components e)
                               (unacknowledged_components c) in
        let inflight := Z.ldiff (inflight_components c) cleared in
        (true, <[pid := RevisionEntry (current_revision c)
                  (if acknowledged_revision c <? revision then revision
                   else acknowledged_revision c)
                  (if negb (nz (queued_components c)) then 0 else queued_revision c)
                  (if negb (nz inflight) then 0 else inflight_revision c)
                  (dirty_components c) (unacknowledged_components c)
                  (queued_components c) inflight (component_revisions c)
                  (overflowed c) (session_ended c)]> states)
  end.

Definition player_revision_fail_inflight (pid revision components : Z)
    (states : revision_map) : bool * revision_map :=
  match states !! pid with
  | None => (false, states)
  | Some e =>
      if negb (is_inflight e revision components) then (false, states)
      else (true, <[pid := RevisionEntry (current_revision e) (acknowledged_revision e)
                    (current_revision e) 0 (dirty_components e)
                    (unacknowledged_components e) (unacknowledged_components e) 0
                    (component_revisions e) (overflowed e) (session_ended e)]> states)
  end.

Definition player_revision_snapshot_copy (pid : Z) (states : revision_map)
  : option player_revision_entry := states !! pid.

Definition player_revision_end_session (pid : Z) (states : revision_map) : revision_map :=
  alter (fun e => RevisionEntry (current_revision e) (acknowledged_revision e)
           (queued_revision e) (inflight_revision e) (dirty_components e)
           (unacknowledged_components e) (queued_components e) (inflight_components e)
           (component_revisions e) (overflowed e) true) pid states.

Definition player_revision_forget (pid : Z) (states : revision_map) : revision_map :=
  if 0 <? pid then delete pid states else states.

Definition player_revision_state_count (states : revision_map) : nat := size states.

Definition player_revision_dirty_count (states : revision_map) : nat :=
  size (filter (fun '(_, e) => nz (unacknowledged_components e) = true) states).

(** ** The calls on the table, in sequence *)

Inductive revision_call :=
| Hydrate (pid durable_revision : Z)
| Mark (pid components : Z)
| Queue (pid : Z)
| BeginInflight (pid revision components : Z)
| Acknowledge (pid revision components : Z)
| AcknowledgeDurable (pid revision components : Z)
| FailInflight (pid revision components : Z)
| EndSession (pid : Z)
| Forget (pid : Z).

Definition call (c : revision_call) (states : revision_map) : revision_map :=
  match c with
  | Hydrate pid r => snd (player_revision_hydrate pid r states)
  | Mark pid m => snd (player_revision_mark pid m states)
  | Queue pid => snd (player_revision_queue pid states)
  | BeginInflight pid r m => snd (player_revision_begin_inflight pid r m states)
  | Acknowledge pid r m => snd (player_revision_acknowledge pid r m states)
  | AcknowledgeDurable pid r m => snd (player_revision_acknowledge_durable pid r m states)
  | FailInflight pid r m => snd (player_revision_fail_inflight pid r m states)
  | EndSession pid => player_revision_end_session pid states
  | Forget pid => player_revision_forget pid states
  end.

Definition calls (cs : list revision_call) (states : revision_map) : revision_map :=
  foldl (fun states c => call c states) states cs.

(** The one argument whose range the functions do not check themselves. *)
Definition call_typed (c : revision_call) : Prop :=
  match c with Hydrate _ r => u64 r | _ => True end.

(** ** Lemmas: masks as sets of component indexes *)

Definition has (m : Z) (index : nat) : bool := Z.testbit m (Z.of_nat index).

Definition within (m : Z) : Prop :=
  0 <= m ∧ ∀ i, has m i = true → (i < CHECKPOINT_COMPONENT_COUNT)%nat.

Lemma has_component i j : has (component i) j = bool_decide (i = j).
Proof.
  unfold has, component. rewrite Z.shiftl_1_l, Z.pow2_bits_eqb by lia.
  case_bool_decide; [subst; apply Z.eqb_refl | apply Z.eqb_neq; lia].
Qed.

Lemma has_0 i : has 0 i = false.
Proof. apply Z.testbit_0_l. Qed.

Lemma has_lor a b i : has (Z.lor a b) i = has a i || has b i.
Proof. apply Z.lor_spec. Qed.

Lemma has_ldiff a b i : has (Z.ldiff a b) i = has a i && negb (has b i).
Proof. apply Z.ldiff_spec. Qed.

#[export] Hint Rewrite has_component has_0 has_lor has_ldiff : duris.

Lemma has_land_component m i : nz (Z.land m (component i)) = has m i.
Proof.
  unfold nz. destruct (has m i) eqn:E.
  - apply negb_true_iff, Z.eqb_neq. intros H.
    assert (Hb : has (Z.land m (component i)) i = true).
    { unfold has in *. rewrite Z.land_spec, E. fold (has (component i) i).
      by rewrite has_component, bool_decide_eq_true_2. }
    rewrite H, has_0 in Hb. done.
  - apply negb_false_iff, Z.eqb_eq, Z.bits_inj'. intros n Hn.
    rewrite Z.land_spec, Z.testbit_0_l. rewrite <- (Z2Nat.id n) by done.
    fold (has m (Z.to_nat n)) (has (component i) (Z.to_nat n)).
    rewrite has_component. case_bool_decide; [subst; by rewrite E|apply andb_false_r].
Qed.

Lemma mask_ext a b : (∀ i, has a i = has b i) → a = b.
Proof.
  intros H. apply Z.bits_inj'. intros n Hn. rewrite <- (Z2Nat.id n) by done. apply H.
Qed.

Lemma mask_zero m : (∀ i, has m i = false) → m = 0.
Proof. intros H. apply mask_ext. intros i. by rewrite H, has_0. Qed.

Lemma nz_false_has m i : nz m = false → has m i = false.
Proof. unfold nz. intros H. bool_prop. subst. apply has_0. Qed.

Lemma valid_components_spec m :
  valid_components m = true → within m ∧ ∃ i, has m i = true.
Proof.
  unfold valid_components, nz. intros H. bool_prop.
  change PLAYER_CHECKPOINT_COMPONENT_ALL with (Z.ones 14) in *.
  rewrite Z.ldiff_ones_r, Z.shiftl_eq_0_iff in * by lia.
  assert (Hs : Z.shiftr m 14 = 0) by done. rewrite Z.shiftr_div_pow2 in Hs by lia.
  assert (Hm : 0 <= m < 2 ^ 14)
    by (pose proof (Z.div_mod m (2 ^ 14)); pose proof (Z.mod_pos_bound m (2 ^ 14)); lia).
  split; [split; [lia|]|].
  - intros i Hi. unfold CHECKPOINT_COMPONENT_COUNT.
    destruct (decide (i < 14)%nat) as [?|Hge]; [done|]. unfold has in Hi.
    rewrite Z.bits_above_log2 in Hi; [done|lia|].
    apply Z.log2_lt_pow2; [lia|].
    pose proof (Z.pow_le_mono_r 2 14 (Z.of_nat i)). lia.
  - exists (Z.to_nat (Z.log2 m)). unfold has.
    rewrite Z2Nat.id by apply Z.log2_nonneg. apply Z.bit_log2. lia.
Qed.

Lemma within_ldiff a b : within a → within (Z.ldiff a b).
Proof.
  intros [H0 H]. split.
  - apply Z.ldiff_nonneg. by left.
  - intros i. rewrite has_ldiff. intros [Hi _]%andb_true_iff. by apply H.
Qed.

Lemma within_lor a b : within a → within b → within (Z.lor a b).
Proof.
  intros [H0 H] [H0' H']. split; [by apply Z.lor_nonneg|].
  intros i. rewrite has_lor. intros [Hi|Hi]%orb_true_iff; auto.
Qed.

Lemma within_0 : within 0.
Proof. split; [done|]. intros i. by rewrite has_0. Qed.

#[export] Hint Resolve within_ldiff within_lor within_0 : duris.

(** *** What clearing acknowledged components does, bit by bit *)

(** The component is acknowledged by a write of [components] at [revision]. *)
Definition covered (e : player_revision_entry) (revision components : Z) (i : nat) : bool :=
  bool_decide (i < CHECKPOINT_COMPONENT_COUNT)%nat && has components i
  && (component_revision e i <=? revision).

Record cleared (e c : player_revision_entry) (gone : nat → bool) : Prop := {
  cleared_unacked i :
    has (unacknowledged_components c) i = has (unacknowledged_components e) i && negb (gone i);
  cleared_dirty i : has (dirty_components c) i = has (dirty_components e) i && negb (gone i);
  cleared_queued i : has (queued_components c) i = has (queued_components e) i && negb (gone i);
  cleared_within_unacked : within (unacknowledged_components e) → within (unacknowledged_components c);
  cleared_within_dirty : within (dirty_components e) → within (dirty_components c);
  cleared_within_queued : within (queued_components e) → within (queued_components c);
  cleared_current : current_revision c = current_revision e;
  cleared_acknowledged : acknowledged_revision c = acknowledged_revision e;
  cleared_queued_revision : queued_revision c = queued_revision e;
  cleared_inflight_revision : inflight_revision c = inflight_revision e;
  cleared_inflight : inflight_components c = inflight_components e;
  cleared_revisions : component_revisions c = component_revisions e;
}.

Lemma clear_component_spec revision components e i :
  cleared e (clear_component revision components e i)
    (fun j => bool_decide (i = j) && has components i && (component_revision e i <=? revision)).
Proof.
  unfold clear_component. rewrite has_land_component.
  destruct (has components i && _) eqn:E; constructor; simpl; auto with duris; intros j;
    rewrite <- andb_assoc, E; autorewrite with duris;
    rewrite ?andb_true_r, ?andb_false_r, ?andb_true_r; try done.
Qed.

Lemma clear_loop_spec revision components l e :
  cleared e (foldl (clear_component revision components) e l)
    (fun j => bool_decide (j ∈ l) && has components j && (component_revision e j <=? revision)).
Proof.
  revert e. induction l as [|i l IH]; intros e; simpl.
  { constructor; auto; intros j; by rewrite andb_true_r. }
  pose proof (clear_component_spec revision components e i) as C.
  pose proof (IH (clear_component revision components e i)) as D.
  assert (HR : ∀ j, component_revision (clear_component revision components e i) j
                    = component_revision e j)
    by (intros j; unfold component_revision; by rewrite (cleared_revisions _ _ _ C)).
  assert (HG : ∀ (a : bool) j,
    a && negb (bool_decide (i = j) && has components i && (component_revision e i <=? revision))
      && negb (bool_decide (j ∈ l) && has components j
               && (component_revision (clear_component revision components e i) j <=? revision))
    = a && negb (bool_decide (j ∈ i :: l) && has components j
                 && (component_revision e j <=? revision))).
  { intros a j. rewrite HR. destruct a; [|done]. simpl.
    rewrite (bool_decide_ext (j ∈ i :: l) (i = j ∨ j ∈ l)) by (rewrite elem_of_cons; split; intros [?|?]; auto).
    rewrite bool_decide_or. case_bool_decide; [subst|done]. simpl.
    destruct (has components j && _) eqn:E; simpl; [done|].
    by rewrite <- andb_assoc, E, andb_false_r. }
  destruct C, D. constructor; try congruence; auto; intros j;
    rewrite ?cleared_unacked1, ?cleared_unacked0, ?cleared_dirty1, ?cleared_dirty0,
      ?cleared_queued1, ?cleared_queued0; apply HG.
Qed.

Lemma clear_acknowledged_spec e revision components :
  cleared e (clear_acknowledged_components e revision components)
    (covered e revision components).
Proof.
  pose proof (clear_loop_spec revision components (seq 0 CHECKPOINT_COMPONENT_COUNT) e) as [].
  constructor; auto; intros i; rewrite ?cleared_unacked0, ?cleared_dirty0, ?cleared_queued0;
    unfold covered;
    by rewrite (bool_decide_ext (i ∈ seq 0 CHECKPOINT_COMPONENT_COUNT)
      (i < CHECKPOINT_COMPONENT_COUNT)%nat) by (rewrite elem_of_seq; lia).
Qed.

(** *** The invariant of an entry *)

Definition revision_at (e : player_revision_entry) (i : nat) : Z := component_revision e i.

Record entry_inv (e : player_revision_entry) : Prop := {
  inv_length : length (component_revisions e) = CHECKPOINT_COMPONENT_COUNT;
  inv_within_dirty : within (dirty_components e);
  inv_within_unacked : within (unacknowledged_components e);
  inv_within_queued : within (queued_components e);
  inv_within_inflight : within (inflight_components e);
  inv_dirty i : has (dirty_components e) i = true →
    has (unacknowledged_components e) i = true;
  inv_queued i : has (queued_components e) i = true →
    has (unacknowledged_components e) i = true;
  inv_inflight i : has (inflight_components e) i = true →
    has (unacknowledged_components e) i = true;
  inv_acked : 0 <= acknowledged_revision e <= current_revision e;
  inv_current : current_revision e <= UINT64_MAX;
  inv_queued_revision : queued_revision e <= current_revision e;
  inv_inflight_revision : inflight_revision e <= current_revision e;
  inv_revisions i : (i < CHECKPOINT_COMPONENT_COUNT)%nat →
    component_revision e i <= current_revision e;
  (** a component not outstanding last changed no later than the durable revision *)
  inv_clean i : (i < CHECKPOINT_COMPONENT_COUNT)%nat →
    has (unacknowledged_components e) i = false →
    component_revision e i <= acknowledged_revision e;
  (** an outstanding component is still to be captured, or a capture that includes
      its last change is queued or being written *)
  inv_carried i : has (unacknowledged_components e) i = true →
    has (dirty_components e) i = true
    ∨ (has (queued_components e) i = true ∧ component_revision e i <= queued_revision e)
    ∨ (has (inflight_components e) i = true ∧ component_revision e i <= inflight_revision e);
  (** the current revision is durable, or some component changed at it *)
  inv_latest : current_revision e = acknowledged_revision e
    ∨ ∃ i, (i < CHECKPOINT_COMPONENT_COUNT)%nat ∧ component_revision e i = current_revision e;
}.

Definition table_inv (states : revision_map) : Prop :=
  map_Forall (fun _ e => entry_inv e) states
  ∧ (size states <= MAX_PLAYER_REVISION_STATES)%nat.

Lemma fill_at r i : (i < CHECKPOINT_COMPONENT_COUNT)%nat →
  default 0 (fill_revisions r !! i) = r.
Proof. intros H. unfold fill_revisions. by rewrite lookup_replicate_2. Qed.

Lemma mark_at components r l i : (i < length l)%nat →
  default 0 (mark_revisions components r l !! i)
  = if has components i then r else default 0 (l !! i).
Proof.
  intros [x Hx]%lookup_lt_is_Some. unfold mark_revisions.
  by rewrite list_lookup_imap, Hx; simpl; rewrite has_land_component.
Qed.

Lemma quiescent_masks e :
  nz (unacknowledged_components e) || nz (queued_components e)
    || nz (inflight_components e) = false →
  (∀ i, has (unacknowledged_components e) i = false)
  ∧ (∀ i, has (queued_components e) i = false)
  ∧ (∀ i, has (inflight_components e) i = false).
Proof.
  intros H. apply orb_false_elim in H as [[H1 H2]%orb_false_elim H3].
  repeat split; intros i; by apply nz_false_has.
Qed.

(** With nothing outstanding the current revision is the durable one, so hydration
    never moves it back. *)
Lemma quiescent_current e :
  entry_inv e → (∀ i, has (unacknowledged_components e) i = false) →
  current_revision e = acknowledged_revision e.
Proof.
  intros I H. destruct (inv_latest e I) as [?|(i & Hi & E)]; [done|].
  pose proof (inv_clean e I i Hi (H i)). pose proof (inv_acked e I). lia.
Qed.

(** *** Every function keeps it *)

(** The two flags play no part in it. *)
Lemma inv_flags c a q f d u qc ic r o1 s1 o2 s2 :
  entry_inv (RevisionEntry c a q f d u qc ic r o1 s1) →
  entry_inv (RevisionEntry c a q f d u qc ic r o2 s2).
Proof. intros []. by constructor. Qed.

Lemma hydrate_inv r q f o s : u64 r → q <= r → f <= r →
  entry_inv (RevisionEntry r r q f 0 0 0 0 (fill_revisions r) o s).
Proof.
  intros Hr Hq Hf. constructor; unfold component_revision; simpl; auto with duris;
    try (intros i; rewrite has_0; done).
  - width. lia.
  - width. lia.
  - intros i Hi. rewrite fill_at by done. lia.
  - intros i Hi _. rewrite fill_at by done. lia.
Qed.

Ltac entry_bounds I :=
  pose proof (inv_acked _ I); pose proof (inv_current _ I);
  pose proof (inv_queued_revision _ I); pose proof (inv_inflight_revision _ I).

Lemma mark_inv e components o s :
  entry_inv e → valid_components components = true → current_revision e ≠ UINT64_MAX →
  entry_inv (RevisionEntry (current_revision e + 1) (acknowledged_revision e)
    (queued_revision e) (inflight_revision e) (Z.lor (dirty_components e) components)
    (Z.lor (unacknowledged_components e) components) (queued_components e)
    (inflight_components e)
    (mark_revisions components (current_revision e + 1) (component_revisions e)) o s).
Proof.
  intros I [W [j Hj]]%valid_components_spec Hmax.
  set (rs := mark_revisions components (current_revision e + 1) (component_revisions e)).
  assert (M : ∀ e' i, component_revisions e' = rs → (i < CHECKPOINT_COMPONENT_COUNT)%nat →
    component_revision e' i
    = if has components i then current_revision e + 1 else component_revision e i)
    by (intros e' i E Hi; unfold component_revision at 1; rewrite E;
        apply mark_at; by rewrite (inv_length e I)).
  entry_bounds I.
  constructor; simpl; eauto using within_lor, inv_within_dirty, inv_within_unacked;
    try apply I.
  - unfold rs, mark_revisions. rewrite length_imap. apply I.
  - intros i. rewrite !has_lor. intros [Hd|Hd]%orb_true_iff; [|by rewrite Hd, orb_true_r].
    by rewrite (inv_dirty e I) by done.
  - intros i Hq. by rewrite has_lor, (inv_queued e I).
  - intros i Hf. by rewrite has_lor, (inv_inflight e I).
  - lia.
  - lia.
  - lia.
  - lia.
  - intros i Hi. rewrite M by done. pose proof (inv_revisions e I i Hi). destruct (has _ i); lia.
  - intros i Hi. rewrite has_lor. intros [Hu Hc]%orb_false_elim. rewrite M, Hc by done.
    by apply (inv_clean e I).
  - intros i. rewrite !has_lor. destruct (has components i) eqn:Hc.
    + intros _. left. apply orb_true_r.
    + rewrite !orb_false_r. intros Hu.
      assert (Hi : (i < CHECKPOINT_COMPONENT_COUNT)%nat) by by apply (inv_within_unacked e I).
      rewrite M, Hc by done. by apply (inv_carried e I).
  - right. exists j. split; [by apply W|]. rewrite M by (done || by apply W). by rewrite Hj.
Qed.

Lemma queue_inv e o s :
  entry_inv e →
  entry_inv (RevisionEntry (current_revision e) (acknowledged_revision e)
    (current_revision e) (inflight_revision e) 0 (unacknowledged_components e)
    (unacknowledged_components e) (inflight_components e) (component_revisions e) o s).
Proof.
  intros I. entry_bounds I. constructor; simpl; auto with duris; try apply I; try lia.
  - intros i. by rewrite has_0.
  - intros i Hu. right. left. split; [done|]. apply (inv_revisions e I).
    by apply (inv_within_unacked e I).
Qed.

Lemma begin_inflight_inv e o s :
  entry_inv e → nz (inflight_components e) = false →
  entry_inv (RevisionEntry (current_revision e) (acknowledged_revision e) 0
    (queued_revision e) (dirty_components e) (unacknowledged_components e) 0
    (queued_components e) (component_revisions e) o s).
Proof.
  intros I Hf. entry_bounds I. constructor; simpl; auto with duris; try apply I; try lia.
  - intros i. by rewrite has_0.
  - intros i Hu. destruct (inv_carried e I i Hu) as [?|[?|[Hi _]]]; [by left|by right; right|].
    by rewrite nz_false_has in Hi.
Qed.

Lemma fail_inv e o s :
  entry_inv e →
  entry_inv (RevisionEntry (current_revision e) (acknowledged_revision e)
    (current_revision e) 0 (dirty_components e) (unacknowledged_components e)
    (unacknowledged_components e) 0 (component_revisions e) o s).
Proof.
  intros I. entry_bounds I. constructor; simpl; auto with duris; try apply I; try lia.
  - intros i. by rewrite has_0.
  - intros i Hu. right. left. split; [done|]. apply (inv_revisions e I).
    by apply (inv_within_unacked e I).
Qed.

(** An acknowledged write, whichever way it is reported: the components it covers
    stop being outstanding, and no other loses its carrier. *)
Lemma acknowledged_inv e revision components q f r o s :
  entry_inv e → revision <= current_revision e →
  let c := clear_acknowledged_components e revision components in
  (∀ i, has (queued_components c) i = true → q = queued_revision e) →
  q <= current_revision e → r <= current_revision e → within f →
  (∀ i, has f i = true → has (unacknowledged_components c) i = true) →
  (∀ i, has (unacknowledged_components c) i = true → has (inflight_components e) i = true →
     component_revision e i <= inflight_revision e →
     has f i = true ∧ r = inflight_revision e) →
  entry_inv (RevisionEntry (current_revision c)
    (if acknowledged_revision c <? revision then revision else acknowledged_revision c)
    q r (dirty_components c) (unacknowledged_components c) (queued_components c) f
    (component_revisions c) o s).
Proof.
  intros I Hle c Hq Hqc Hrc Hwf Hf Hcarry.
  pose proof (clear_acknowledged_spec e revision components) as C. fold c in C.
  destruct C as [Cu Cd Cq Wu Wd Wq Ec Ea Eqr Eir Eif Ers].
  set (acked := if acknowledged_revision c <? revision then _ else _).
  assert (Ha : acknowledged_revision e <= acked ∧ revision <= acked ∧ acked <= current_revision e)
    by (pose proof (inv_acked e I); unfold acked; rewrite Ea; destruct (Z.ltb_spec (acknowledged_revision e) revision); lia).
  assert (HR : ∀ c' i, component_revisions c' = component_revisions c →
                 component_revision c' i = component_revision e i)
    by (intros c' i E; unfold component_revision; congruence).
  entry_bounds I. constructor; simpl; rewrite ?Ec; auto; try lia.
  - rewrite Ers. apply I.
  - apply Wd, I.
  - apply Wu, I.
  - apply Wq, I.
  - intros i. rewrite Cd, Cu. intros [Hd Hg]%andb_true_iff. by rewrite (inv_dirty e I).
  - intros i. rewrite Cq, Cu. intros [Hd Hg]%andb_true_iff. by rewrite (inv_queued e I).
  - intros i Hi. rewrite HR by done. by apply (inv_revisions e I).
  - intros i Hi. rewrite HR by done. rewrite Cu. intros [Hu|Hg]%andb_false_iff.
    + pose proof (inv_clean e I i Hi Hu). lia.
    + unfold covered in Hg. bool_prop. lia.
  - intros i Hu. rewrite HR by done.
    pose proof Hu as Hu'. rewrite Cu in Hu'. apply andb_true_iff in Hu' as [Hue Hg].
    destruct (inv_carried e I i Hue) as [Hd|[[Hqe Hqr]|[Hfe Hfr]]].
    + left. by rewrite Cd, Hd, Hg.
    + right. left. assert (Hqi : has (queued_components c) i = true) by by rewrite Cq, Hqe, Hg.
      split; [done|]. by rewrite (Hq i).
    + right. right. destruct (Hcarry i Hu Hfe Hfr) as [? ->]. done.
  - destruct (inv_latest e I) as [E|(i & Hi & E)].
    + left. lia.
    + right. exists i. split; [done|]. by rewrite HR.
Qed.

Lemma table_inv_insert pid e states :
  table_inv states → entry_inv e →
  is_Some (states !! pid) ∨ (size states < MAX_PLAYER_REVISION_STATES)%nat →
  table_inv (<[pid := e]> states).
Proof.
  intros [HI HS] He Hsize. split; [by apply map_Forall_insert_2|].
  destruct (states !! pid) eqn:E.
  - by rewrite map_size_insert_Some by eauto.
  - rewrite map_size_insert_None by done. destruct Hsize as [[? ?]|?]; [done|lia].
Qed.

Lemma is_inflight_spec e revision components :
  is_inflight e revision components = true →
  revision = inflight_revision e ∧ components = inflight_components e
  ∧ valid_components components = true.
Proof. unfold is_inflight. intros H. bool_prop. done. Qed.

(** Splits a call on an existing entry down to the entry written back. *)
Ltac on_entry states pid :=
  destruct (states !! pid) as [e|] eqn:He; [|done];
  match goal with T : table_inv states |- _ =>
    pose proof (map_Forall_lookup_1 _ _ _ _ (proj1 T) He) as I; cbv beta in I
  end.
Ltac write_back := apply table_inv_insert; [done| |by left].

Lemma hydrate_table_inv pid r states :
  u64 r → table_inv states → table_inv (snd (player_revision_hydrate pid r states)).
Proof.
  intros Hr T. unfold player_revision_hydrate. destruct (pid <=? 0); [done|].
  destruct (states !! pid) as [e|] eqn:He.
  - pose proof (map_Forall_lookup_1 _ _ _ _ (proj1 T) He) as I.
    destruct (_ || nz (inflight_components e)) eqn:Hq; [done|].
    destruct (Z.ltb_spec r (acknowledged_revision e)); [done|]. write_back.
    apply quiescent_masks in Hq as (Hu & Hqc & Hf).
    pose proof (quiescent_current e I Hu). entry_bounds I.
    assert (dirty_components e = 0) as ->.
    { apply mask_zero. intros i. destruct (has (dirty_components e) i) eqn:E; [|done].
      by rewrite <- (Hu i), (inv_dirty e I). }
    rewrite (mask_zero _ Hu), (mask_zero _ Hqc), (mask_zero _ Hf).
    apply hydrate_inv; [done|lia..].
  - destruct (Nat.leb_spec MAX_PLAYER_REVISION_STATES (size states)); [done|].
    apply table_inv_insert; [done| |by right]. apply hydrate_inv; [done|width; lia..].
Qed.

Lemma mark_table_inv pid m states :
  table_inv states → table_inv (snd (player_revision_mark pid m states)).
Proof.
  intros T. unfold player_revision_mark. on_entry states pid.
  destruct (negb (valid_components m) || overflowed e) eqn:Hv; [done|]. bool_prop.
  destruct (Z.eqb_spec (current_revision e) UINT64_MAX); write_back.
  - destruct e. by eapply inv_flags.
  - by apply mark_inv.
Qed.

Lemma queue_table_inv pid states :
  table_inv states → table_inv (snd (player_revision_queue pid states)).
Proof.
  intros T. unfold player_revision_queue. on_entry states pid.
  destruct (negb _); [done|]. write_back. by apply queue_inv.
Qed.

Lemma begin_inflight_table_inv pid r m states :
  table_inv states → table_inv (snd (player_revision_begin_inflight pid r m states)).
Proof.
  intros T. unfold player_revision_begin_inflight. on_entry states pid.
  destruct (_ || negb (valid_components m)) eqn:Hg; [done|]. bool_prop. subst.
  write_back. by apply begin_inflight_inv.
Qed.

Lemma acknowledge_table_inv pid r m states :
  table_inv states → table_inv (snd (player_revision_acknowledge pid r m states)).
Proof.
  intros T. unfold player_revision_acknowledge. on_entry states pid.
  destruct (negb (is_inflight e r m)) eqn:Hg; [done|].
  apply negb_false_iff, is_inflight_spec in Hg as (-> & -> & Hv).
  write_back. entry_bounds I.
  pose proof (clear_acknowledged_spec e (inflight_revision e) (inflight_components e)) as C.
  apply acknowledged_inv; auto with duris; try lia.
  - by rewrite (cleared_queued_revision _ _ _ C).
  - by rewrite (cleared_queued_revision _ _ _ C).
  - intros i. by rewrite has_0.
  - intros i Hu Hf Hr. exfalso. rewrite (cleared_unacked _ _ _ C) in Hu. bool_prop.
    unfold covered in *. rewrite Hf, bool_decide_eq_true_2 in *
      by by apply (inv_within_inflight e I).
    simpl in *. bool_prop. lia.
Qed.

Lemma acknowledge_durable_table_inv pid r m states :
  table_inv states → table_inv (snd (player_revision_acknowledge_durable pid r m states)).
Proof.
  intros T. unfold player_revision_acknowledge_durable. on_entry states pid.
  destruct (_ || (current_revision e <? r)) eqn:Hg; [done|]. bool_prop.
  write_back. entry_bounds I.
  pose proof (clear_acknowledged_spec e r m) as C.
  set (c := clear_acknowledged_components e r m) in *.
  set (f := Z.ldiff (inflight_components c) _).
  assert (Hf : ∀ i, has f i = has (inflight_components e) i && has (unacknowledged_components c) i).
  { intros i. unfold f. rewrite !has_ldiff, (cleared_inflight _ _ _ C).
    destruct (has (inflight_components e) i) eqn:Hi; [|done].
    rewrite (inv_inflight e I i Hi). by destruct (has (unacknowledged_components c) i). }
  apply acknowledged_inv; auto with duris.
  - intros i Hq. destruct (nz (queued_components c)) eqn:Hn; [apply C|].
    by rewrite nz_false_has in Hq.
  - rewrite (cleared_queued_revision _ _ _ C). destruct (negb _); lia.
  - rewrite (cleared_inflight_revision _ _ _ C). destruct (negb _); lia.
  - unfold f. rewrite (cleared_inflight _ _ _ C). apply within_ldiff, I.
  - intros i. rewrite Hf. by intros [_ ?]%andb_true_iff.
  - intros i Hu Hi _. fold c in Hu. assert (Hfi : has f i = true) by by rewrite Hf, Hi, Hu.
    split; [done|]. destruct (nz f) eqn:Hn; [apply C|]. by rewrite nz_false_has in Hfi.
Qed.

Lemma fail_inflight_table_inv pid r m states :
  table_inv states → table_inv (snd (player_revision_fail_inflight pid r m states)).
Proof.
  intros T. unfold player_revision_fail_inflight. on_entry states pid.
  destruct (negb _); [done|]. write_back. by apply fail_inv.
Qed.

Lemma end_session_table_inv pid states :
  table_inv states → table_inv (player_revision_end_session pid states).
Proof.
  intros T. unfold player_revision_end_session. destruct (states !! pid) as [e|] eqn:He.
  - rewrite (alter_as_insert _ _ _ _ He). write_back.
    pose proof (map_Forall_lookup_1 _ _ _ _ (proj1 T) He). destruct e. by eapply inv_flags.
  - by rewrite alter_id'.
Qed.

Lemma forget_table_inv pid states :
  table_inv states → table_inv (player_revision_forget pid states).
Proof.
  intros [HI HS]. unfold player_revision_forget. destruct (0 <? pid); [|done].
  split; [by apply map_Forall_delete|].
  pose proof (map_size_delete pid states). destruct (states !! pid); simpl in *; lia.
Qed.

#[export] Hint Resolve hydrate_table_inv mark_table_inv queue_table_inv
  begin_inflight_table_inv acknowledge_table_inv acknowledge_durable_table_inv
  fail_inflight_table_inv end_session_table_inv forget_table_inv : duris.

Lemma call_table_inv c states : call_typed c → table_inv states → table_inv (call c states).
Proof. intros Hc T. destruct c; simpl in *; auto with duris. Qed.

Lemma calls_table_inv cs states :
  Forall call_typed cs → table_inv states → table_inv (calls cs states).
Proof.
  intros H. revert states. induction H as [|c cs Hc _ IH]; intros states T; [done|].
  apply IH. by apply call_table_inv.
Qed.

Lemma empty_table_inv : table_inv ∅.
Proof. split; [apply map_Forall_empty|]. rewrite map_size_empty. lia. Qed.

Lemma acknowledged_max a r : (if a <? r then r else a) = Z.max a r.
Proof. destruct (Z.ltb_spec a r); lia. Qed.

(** Reading the table after a call that touches one pid. *)
Lemma lookup_after_insert pid p (e e' : player_revision_entry) (states : revision_map)
    (P : player_revision_entry → Prop) :
  states !! p = Some e → P e → (pid = p → P e') →
  ∃ x, <[pid := e']> states !! p = Some x ∧ P x.
Proof.
  intros He HP HP'. destruct (decide (pid = p)) as [->|Hne].
  - exists e'. rewrite lookup_insert_eq. auto.
  - exists e. by rewrite lookup_insert_ne.
Qed.

(** The two revisions only move forward. *)
Definition advances (e e' : player_revision_entry) : Prop :=
  acknowledged_revision e <= acknowledged_revision e'
  ∧ current_revision e <= current_revision e'.

Lemma advances_refl e : advances e e.
Proof. split; lia. Qed.
#[export] Hint Resolve advances_refl : duris.

Lemma acknowledged_advances e r m q f q' f' o s o' :
  let c := clear_acknowledged_components e r m in
  advances e (RevisionEntry (current_revision c)
    (if acknowledged_revision c <? r then r else acknowledged_revision c)
    q f o s q' f' (component_revisions c) o' (session_ended c)).
Proof.
  intros c. pose proof (clear_acknowledged_spec e r m) as C. fold c in C. clearbody c.
  unfold advances. simpl. rewrite acknowledged_max, (cleared_acknowledged _ _ _ C),
    (cleared_current _ _ _ C). lia.
Qed.

(** A call on [pid]'s entry either changes nothing or writes one entry back. *)
Ltac one_entry states pid :=
  destruct (states !! pid) as [x|] eqn:Hx; [|by eauto with duris].
Ltac unchanged := by eauto with duris.
Ltac advanced He :=
  eapply lookup_after_insert; [exact He|apply advances_refl|];
  intros <-; simplify_map_eq.

Lemma call_monotone c states pid e :
  call_typed c → table_inv states → (∀ p, c ≠ Forget p) → states !! pid = Some e →
  ∃ e', call c states !! pid = Some e' ∧ advances e e'.
Proof.
  intros Hc T Hf He.
  pose proof (map_Forall_lookup_1 _ _ _ _ (proj1 T) He) as I. cbv beta in I.
  entry_bounds I. destruct c as [p r|p m|p|p r m|p r m|p r m|p r m|p|p]; simpl.
  - unfold player_revision_hydrate. destruct (p <=? 0); [unchanged|].
    destruct (states !! p) as [x|] eqn:Hx.
    + destruct (_ || nz (inflight_components x)) eqn:Hq; [unchanged|].
      destruct (Z.ltb_spec r (acknowledged_revision x)); [unchanged|]. advanced He.
      apply quiescent_masks in Hq as [Hu _].
      pose proof (quiescent_current e I Hu). split; simpl; lia.
    + destruct (_ <=? _)%nat; [unchanged|]. advanced He.
  - unfold player_revision_mark. one_entry states p.
    destruct (_ || overflowed x); [unchanged|].
    destruct (_ =? UINT64_MAX); advanced He; split; simpl; lia.
  - unfold player_revision_queue. one_entry states p.
    destruct (negb _); [unchanged|]. advanced He. split; simpl; lia.
  - unfold player_revision_begin_inflight. one_entry states p.
    destruct (_ || _); [unchanged|]. advanced He. split; simpl; lia.
  - unfold player_revision_acknowledge. one_entry states p.
    destruct (negb _); [unchanged|]. cbv zeta. cbn [snd].
    advanced He. apply acknowledged_advances.
  - unfold player_revision_acknowledge_durable. one_entry states p.
    destruct (_ || _); [unchanged|]. cbv zeta. cbn [snd].
    advanced He. apply acknowledged_advances.
  - unfold player_revision_fail_inflight. one_entry states p.
    destruct (negb _); [unchanged|]. advanced He. split; simpl; lia.
  - unfold player_revision_end_session. rewrite lookup_alter.
    case_decide; subst; rewrite He; (eexists; split; [reflexivity|]); split; simpl; lia.
  - by destruct (Hf p).
Qed.

(** *** A whole write, from capture to acknowledgement *)

Lemma within_valid m : within m → nz m = true → valid_components m = true.
Proof.
  intros [H0 H] Hnz. unfold valid_components. rewrite Hnz. simpl.
  apply negb_true_iff. unfold nz. rewrite negb_false_iff, Z.eqb_eq.
  apply mask_zero. intros i. rewrite has_ldiff. destruct (has m i) eqn:Hi; [|done].
  apply H in Hi. change PLAYER_CHECKPOINT_COMPONENT_ALL with (Z.ones 14).
  unfold has. rewrite Z.ones_spec_low; [done|]. unfold CHECKPOINT_COMPONENT_COUNT in Hi. lia.
Qed.

Lemma acknowledge_result pid revision components states states' e :
  player_revision_acknowledge pid revision components states = (true, states') →
  states !! pid = Some e →
  ∃ e', states' !! pid = Some e'
  ∧ acknowledged_revision e' = Z.max (acknowledged_revision e) revision
  ∧ inflight_components e' = 0 ∧ current_revision e' = current_revision e
  ∧ ∀ i, has (unacknowledged_components e') i
         = has (unacknowledged_components e) i && negb (covered e revision components i).
Proof.
  unfold player_revision_acknowledge. intros H He. rewrite He in H.
  destruct (negb _); [done|].
  pose proof (clear_acknowledged_spec e revision components) as C.
  set (c := clear_acknowledged_components e revision components) in *. clearbody c.
  simplify_eq. eexists. rewrite lookup_insert_eq. split; [done|]. simpl.
  rewrite acknowledged_max, (cleared_acknowledged _ _ _ C).
  repeat (split; [done || apply C|]). apply C.
Qed.

(** ** Properties *)


(** a successful acknowledgement of a write clears exactly the outstanding
    components it covered whose last change it included; a component changed after
    the capture stays outstanding.  The durable revision moves to the maximum. *)
Theorem revision_acknowledge_exact pid revision components states states' e :
  player_revision_acknowledge pid revision components states = (true, states') →
  states !! pid = Some e →
  ∃ e', states' !! pid = Some e'
  ∧ acknowledged_revision e' = Z.max (acknowledged_revision e) revision
  ∧ inflight_components e' = 0
  ∧ ∀ i, has (unacknowledged_components e') i
         = has (unacknowledged_components e) i && negb (covered e revision components i).
Proof.
  intros H He. destruct (acknowledge_result _ _ _ _ _ _ H He) as (e' & ? & ? & ? & ? & ?).
  eauto 6.
Qed.

(** no call except [player_revision_forget] moves a player's current or durable
    revision back. *)
Theorem revision_monotone cs c pid e :
  Forall call_typed (cs ++ [c]) → (∀ p, c ≠ Forget p) →
  calls cs ∅ !! pid = Some e →
  ∃ e', calls (cs ++ [c]) ∅ !! pid = Some e'
  ∧ acknowledged_revision e <= acknowledged_revision e'
  ∧ current_revision e <= current_revision e'.
Proof.
  intros [Hcs [Hc _]%Forall_cons]%Forall_app Hf He.
  pose proof (calls_table_inv cs ∅ Hcs empty_table_inv) as T.
  unfold calls. rewrite foldl_app. exact (call_monotone c _ pid e Hc T Hf He).
Qed.

(** the table never holds more than 8192 players, and no revision of an entry
    leaves the 64-bit range or passes the current one: a mark at the last revision
    fails instead of wrapping. *)
Theorem revision_bounds cs pid e :
  Forall call_typed cs → calls cs ∅ !! pid = Some e →
  (player_revision_state_count (calls cs ∅) <= MAX_PLAYER_REVISION_STATES)%nat
  ∧ 0 <= acknowledged_revision e <= current_revision e
  ∧ current_revision e <= UINT64_MAX
  ∧ queued_revision e <= current_revision e ∧ inflight_revision e <= current_revision e.
Proof.
  intros Hcs He. destruct (calls_table_inv cs ∅ Hcs empty_table_inv) as [HI HS].
  pose proof (map_Forall_lookup_1 _ _ _ _ HI He) as I. cbv beta in I.
  repeat split; first [exact HS | apply I].
Qed.

(** from any reachable state with outstanding components and no write under way,
    queueing, beginning the write of what was queued and acknowledging it all
    succeed, and leave nothing outstanding with the current revision durable. *)
Theorem revision_write_drains cs pid e :
  Forall call_typed cs → calls cs ∅ !! pid = Some e →
  nz (unacknowledged_components e) = true → nz (inflight_components e) = false →
  ∃ r m s1 s2 s3 e',
    player_revision_queue pid (calls cs ∅) = (Some (r, m), s1)
    ∧ player_revision_begin_inflight pid r m s1 = (true, s2)
    ∧ player_revision_acknowledge pid r m s2 = (true, s3)
    ∧ s3 !! pid = Some e'
    ∧ unacknowledged_components e' = 0
    ∧ acknowledged_revision e' = current_revision e.
Proof.
  intros Hcs He Hu Hf.
  pose proof (calls_table_inv cs ∅ Hcs empty_table_inv) as [HI _].
  pose proof (map_Forall_lookup_1 _ _ _ _ HI He) as I. cbv beta in I.
  pose proof (within_valid _ (inv_within_unacked e I) Hu) as Hv.
  set (m := unacknowledged_components e) in *.
  set (e1 := RevisionEntry (current_revision e) (acknowledged_revision e)
               (current_revision e) (inflight_revision e) 0 m m (inflight_components e)
               (component_revisions e) (overflowed e) (session_ended e)).
  set (e2 := RevisionEntry (current_revision e) (acknowledged_revision e)
               0 (current_revision e) 0 m 0 m
               (component_revisions e) (overflowed e) (session_ended e)).
  assert (Hack : fst (player_revision_acknowledge pid (current_revision e) m
                        (<[pid := e2]> (calls cs ∅))) = true).
  { unfold player_revision_acknowledge. rewrite lookup_insert_eq.
    unfold is_inflight, e2 at 1. simpl. by rewrite !Z.eqb_refl, Hv. }
  destruct (player_revision_acknowledge _ _ _ _) as [b s3] eqn:Eack in Hack.
  simpl in Hack. subst b.
  destruct (acknowledge_result _ _ _ _ _ e2 Eack (lookup_insert_eq _ _ _))
    as (e' & He' & Ha & _ & _ & Hm).
  exists (current_revision e), m, (<[pid := e1]> (calls cs ∅)), (<[pid := e2]> (calls cs ∅)), s3, e'.
  split; [by unfold player_revision_queue; rewrite He; fold m; rewrite Hu|].
  split.
  { unfold player_revision_begin_inflight. rewrite lookup_insert_eq, insert_insert_eq.
    unfold e1 at 1 2 3. simpl. by rewrite Hf, !Z.eqb_refl, Hv. }
  split; [done|]. split; [done|]. split.
  - apply mask_zero. intros i. rewrite Hm. change (has m i && negb (covered e2 (current_revision e) m i) = false).
    destruct (has m i) eqn:Hi; [|done]. simpl. apply negb_false_iff. unfold covered.
    apply (inv_within_unacked e I) in Hi as Hlt. rewrite Hi, bool_decide_eq_true_2 by done.
    by apply Z.leb_le, (inv_revisions e I).
  - rewrite Ha. simpl. pose proof (inv_acked e I). lia.
Qed.

(** ** Witnesses *)

(** A component marked again while its first change is being written. *)
Definition sample_calls : list revision_call :=
  [Hydrate 7 10; Mark 7 3; Queue 7; BeginInflight 7 11 3; Mark 7 2].

Definition sample_entry : player_revision_entry :=
  RevisionEntry 12 10 0 11 2 3 0 3
    [11; 12; 10; 10; 10; 10; 10; 10; 10; 10; 10; 10; 10; 10] false false.

Lemma sample_calls_typed : Forall call_typed sample_calls.
Proof. repeat constructor; simpl; try done; width; lia. Qed.


(** The first component becomes durable, the re-marked second one stays. *)
Lemma revision_acknowledge_exact_witness :
  ∃ e', snd (player_revision_acknowledge 7 11 3 (calls sample_calls ∅)) !! 7 = Some e'
  ∧ unacknowledged_components e' = 2
  ∧ acknowledged_revision e' = Z.max 10 11.
Proof.
  destruct (revision_acknowledge_exact 7 11 3 (calls sample_calls ∅)
    (snd (player_revision_acknowledge 7 11 3 (calls sample_calls ∅))) sample_entry)
    as (e' & He' & Ha & _ & _).
  - vm_compute. reflexivity.
  - vm_compute. reflexivity.
  - exists e'. split; [exact He'|]. split; [|exact Ha].
    vm_compute in He'. injection He' as <-. reflexivity.
Defined.

Lemma revision_monotone_witness :
  ∃ e', calls (sample_calls ++ [AcknowledgeDurable 7 12 3]) ∅ !! 7 = Some e'
  ∧ 10 <= acknowledged_revision e' ∧ 12 <= current_revision e'.
Proof.
  apply (revision_monotone sample_calls (AcknowledgeDurable 7 12 3) 7 sample_entry).
  - apply Forall_app. split; [apply sample_calls_typed | by repeat constructor].
  - intros p. discriminate.
  - vm_compute. reflexivity.
Defined.

Lemma revision_bounds_witness :
  (player_revision_state_count (calls sample_calls ∅) <= MAX_PLAYER_REVISION_STATES)%nat.
Proof.
  refine (proj1 (revision_bounds sample_calls 7 sample_entry sample_calls_typed _)).
  vm_compute. reflexivity.
Defined.

Lemma revision_write_drains_witness :
  ∃ e', fst (player_revision_queue 7 (calls [Hydrate 7 10; Mark 7 3] ∅)) = Some (11, 3)
  ∧ unacknowledged_components e' = 0 ∧ acknowledged_revision e' = 11.
Proof.
  destruct (revision_write_drains [Hydrate 7 10; Mark 7 3] 7
    (RevisionEntry 11 10 0 0 3 3 0 0
      [11; 11; 10; 10; 10; 10; 10; 10; 10; 10; 10; 10; 10; 10] false false))
    as (r & m & s1 & s2 & s3 & e' & _ & _ & _ & _ & Hu & Ha).
  - repeat constructor; simpl; width; lia.
  - vm_compute. reflexivity.
  - reflexivity.
  - reflexivity.
  - exists e'. split; [vm_compute; reflexivity|]. split; [exact Hu|exact Ha].
Defined.
