(* ===== verification/Snapshot.v ===== *)
(** * Item snapshots

    The item part of [player/player_snapshot.h]: the serialised form of one object,
    which player saves, item transfers and the collector all carry, the identities of
    owners and items of [item/item_transfer_command.h], and the flag and type constants
    of [core/defines.h] the modelled code tests.  An [enum class] read from bytes is the
    number of its underlying type, which may be none of the enumerators. *)

From S2P Require Import Prelude.

Definition PLAYER_SNAPSHOT_SCHEMA_VERSION : Z := 7.
Definition PLAYER_SNAPSHOT_DEATH_SCHEMA_VERSION : Z := 8.
Definition PLAYER_SNAPSHOT_MAX_BYTES : Z := 4 * 1024 * 1024.
Definition PLAYER_SNAPSHOT_MAX_ROWS : Z := 8192.
Definition PLAYER_SNAPSHOT_MAX_OBJECTS : Z := 4096.
Definition PLAYER_SNAPSHOT_MAX_DEPTH : nat := 32.
Definition PLAYER_SNAPSHOT_MAX_STRING_BYTES : Z := 16384.
Definition PLAYER_SNAPSHOT_NO_PARENT : Z := -1.

Definition ITEM_MONEY : Z := 20.
Definition ITEM_CORPSE : Z := 24.
Definition ITEM_TAKE : Z := Z.shiftl 1 0.
Definition ITEM_NOSELL : Z := Z.shiftl 1 3.
Definition ITEM_TRANSIENT : Z := Z.shiftl 1 19.
Definition ITEM_NORENT : Z := Z.shiftl 1 23.
Definition ITEM_ARTIFACT : Z := Z.shiftl 1 28.
Definition ITEM2_ACCOUNT_BOUND : Z := Z.shiftl 1 17.

Record player_item_extra_description_snapshot := ExtraDescription {
  extra_keyword : list byte;
  extra_description : list byte;
  spellbook : bool;
  spell_ids : list Z;
}.

Record player_item_dynamic_affect_snapshot := DynamicAffect {
  affect_type : Z;
  affect_data : Z;
  affect_extra2 : Z;
}.

Record player_item_snapshot := ItemSnapshot {
  parent_index : Z;
  equipment_slot : Z;
  object_uid : Z;
  generated_key : Z;
  vnum : Z;
  item_type : Z;
  string_mask : Z;
  item_name : list byte;
  short_description : list byte;
  description : list byte;
  action_description : list byte;
  values : list Z;
  timers : list Z;
  wear_flags : Z;
  extra_flags : Z;
  anti_flags : Z;
  anti2_flags : Z;
  extra2_flags : Z;
  weight : Z;
  material : Z;
  cost : Z;
  condition : Z;
  craftsmanship : Z;
  bitvectors : list Z;
  affects : list (Z * Z);
  dynamic_affects : list player_item_dynamic_affect_snapshot;
  extra_descriptions : list player_item_extra_description_snapshot;
}.

(** [item_owner_type]. *)
Module item_owner_type.
Definition unknown : Z := 0.
Definition player : Z := 1.
Definition container : Z := 2.
Definition room : Z := 3.
Definition corpse : Z := 4.
Definition locker : Z := 5.
Definition auction : Z := 6.
Definition system : Z := 7.
Definition destruction : Z := 8.
Definition shopkeeper : Z := 9.
Definition collector : Z := 10.
Definition pet : Z := 11.
End item_owner_type.

(** [item_custody_state]. *)
Module item_custody_state.
Definition absent : Z := 0.
Definition active : Z := 1.
Definition destroyed : Z := 2.
Definition quarantined : Z := 3.
End item_custody_state.

Definition ITEM_TRANSFER_ABSENT_REVISION : Z := UINT64_MAX.

Record item_owner_identity := OwnerIdentity {
  owner_type : Z;
  owner_id : Z;
  context_id : Z;
}.

Record item_transfer_entry := TransferEntry {
  item_uid : Z;
  root_item_uid : Z;
  parent_item_uid : Z;
  expected_item_revision : Z;
  entry_vnum : Z;
  expected_state : Z;
}.

#[export] Instance item_owner_identity_eq_dec : EqDecision item_owner_identity.
Proof. solve_decision. Defined.
#[export] Instance item_transfer_entry_eq_dec : EqDecision item_transfer_entry.
Proof. solve_decision. Defined.
#[export] Instance extra_description_eq_dec :
  EqDecision player_item_extra_description_snapshot.
Proof. solve_decision. Defined.
#[export] Instance dynamic_affect_eq_dec : EqDecision player_item_dynamic_affect_snapshot.
Proof. solve_decision. Defined.
#[export] Instance item_snapshot_eq_dec : EqDecision player_item_snapshot.
Proof. solve_decision. Defined.

(** An object with every optional part empty. *)
Definition blank_item : player_item_snapshot :=
  ItemSnapshot PLAYER_SNAPSHOT_NO_PARENT 0 0 0 0 0 0 [] [] [] []
    (replicate 8 0) (replicate 6 0) 0 0 0 0 0 0 0 0 0 0 (replicate 5 0)
    (replicate 4 (0, 0)) [] [].
