(* ===== verification/Wire.v ===== *)
(** * Wire formats

    Models the [encoder] and [decoder] of [player/player_snapshot_codec.c]: numbers,
    flags, strings and rows written one after the other, and read back under limits on
    strings, rows and objects.

    The encoder goes on after a value over its limit and only remembers it; the decoder
    stops at the first failure, whose code is the error.  [number] after a failure is
    never called, so a reader's state is the offset and the two counters.

    A reader and a writer of one type meet in the bytes of a value: the class [Writes]
    says that a writer appends them, the class [Reads] that a reader accepts nothing
    else.  Rows of any type that is written and read are written and read. *)

From S2P Require Import Prelude Snapshot.

(** [player_snapshot_codec_result] without [ok], which is [Ok]. *)
Inductive player_snapshot_codec_result :=
| invalid_value | truncated | limit_exceeded | unsupported_version | allocation_failure.

#[export] Instance snapshot_codec_result_eq_dec : EqDecision player_snapshot_codec_result.
Proof. solve_decision. Defined.

(** ** Writing *)

Record encoder := Encoder { written : list byte; within_limits : bool }.

Module Out.
Definition number (sz : nat) (value : Z) (out : encoder) : encoder :=
  Encoder (append_le sz (written out) (wrap (8 * Z.of_nat sz) value)) (within_limits out).

Definition boolean (value : bool) (out : encoder) : encoder :=
  number 1 (if value then 1 else 0) out.

Definition string (maximum : Z) (value : list byte) (out : encoder) : encoder :=
  if maximum <? vsize value then Encoder (written out) false
  else
    let out := number 4 (vsize value) out in
    Encoder (written out ++ value) (within_limits out).

(** A [for] loop over the elements. *)
Definition array {A} (write : A → encoder → encoder) (values : list A) (out : encoder) : encoder :=
  foldl (λ out value, write value out) out values.

Definition vector {A} (write : A → encoder → encoder) (values : list A) (out : encoder)
  : encoder :=
  if PLAYER_SNAPSHOT_MAX_ROWS <? vsize values then Encoder (written out) false
  else array write values (number 4 (vsize values) out).
End Out.

(** ** Reading *)

Record decoder := Decoder { offset : nat; rows : Z; objects : Z }.

Definition reader (A : Type) : Type :=
  list byte → decoder → res player_snapshot_codec_result (A * decoder).

Module In.
Definition number (sz : nat) : reader Z := λ data d,
  match read_le sz data (offset d) with
  | Some (value, offset) => Ok (value, Decoder offset (rows d) (objects d))
  | None => Err truncated
  end.

(** [number] of a signed type. *)
Definition signed (sz : nat) : reader Z := λ data d,
  let* (value, d) := number sz data d in Ok (to_signed (8 * Z.of_nat sz) value, d).

Definition boolean : reader bool := λ data d,
  let* (encoded, d) := number 1 data d in
  ensure encoded <=? 1 else invalid_value in
  Ok (nz encoded, d).

Definition string (maximum : Z) : reader (list byte) := λ data d,
  let* (length, d) := number 4 data d in
  ensure length <=? maximum else limit_exceeded in
  ensure length <=? vsize data - Z.of_nat (offset d) else truncated in
  let n := Z.to_nat length in
  Ok (take n (drop (offset d) data), Decoder (offset d + n) (rows d) (objects d)).

(** A [for] loop over [count] elements. *)
Fixpoint array {A} (read : reader A) (count : nat) (data : list byte) (d : decoder)
  : res player_snapshot_codec_result (list A * decoder) :=
  match count with
  | O => Ok ([], d)
  | S count =>
      let* (value, d) := read data d in
      let* (values, d) := array read count data d in
      Ok (value :: values, d)
  end.

Definition vector {A} (read : reader A) (object_rows : bool) : reader (list A) := λ data d,
  let* (count, d) := number 4 data d in
  ensure negb ((PLAYER_SNAPSHOT_MAX_ROWS <? count)
               || (PLAYER_SNAPSHOT_MAX_ROWS - count <? rows d)
               || (object_rows
                   && ((PLAYER_SNAPSHOT_MAX_OBJECTS <? count)
                       || (PLAYER_SNAPSHOT_MAX_OBJECTS - count <? objects d))))
    else limit_exceeded in
  array read (Z.to_nat count) data
    (Decoder (offset d) (rows d + count) (if object_rows then objects d + count else objects d)).
End In.

(** ** What a writer and a reader promise *)

(** [out'] is [out] with the bytes [bs], unless a limit was exceeded. *)
Definition puts (sized : bool) (bs : list byte) (out out' : encoder) : Prop :=
  within_limits out' = within_limits out && sized
  ∧ (within_limits out' = true → written out' = written out ++ bs).

(** [bytes_of] are the bytes of a value, for those that are [sized].  A writer appends
    them. *)
Class Writes {A} (put : A → encoder → encoder) (sized : A → bool) (bytes_of : A → list byte) :=
  wire_put a out : puts (sized a) (bytes_of a) out (put a out).
#[export] Hint Mode Writes ! ! - - : typeclass_instances.

(** A reader reads no other value from them, and reads a value only from them. *)
Class Reads {A} (get : reader A) (typed : A → Prop) (sized : A → bool)
    (bytes_of : A → list byte) := {
  wire_agrees data d a rest a' d' :
    typed a → sized a = true → at_offset data (offset d) (bytes_of a ++ rest) →
    get data d = Ok (a', d') → a' = a ∧ at_offset data (offset d') rest;
  wire_sound data d a d' bs :
    get data d = Ok (a, d') → consumed data (offset d) bs →
    typed a ∧ sized a = true ∧ consumed data (offset d') (bs ++ bytes_of a);
}.
#[export] Hint Mode Reads ! ! - - - : typeclass_instances.

Lemma puts_trans s1 s2 b1 b2 out out1 out2 :
  puts s1 b1 out out1 → puts s2 b2 out1 out2 → puts (s1 && s2) (b1 ++ b2) out out2.
Proof.
  intros [V1 W1] [V2 W2]. split; [by rewrite V2, V1, andb_assoc|].
  intros V. rewrite W2, W1 by (rewrite V in V2; by destruct (within_limits out1)).
  by rewrite (assoc_L (++)).
Qed.

Lemma puts_eq s s' b b' out out' :
  puts s b out out' → s = s' → b = b' → puts s' b' out out'.
Proof. by intros H <- <-. Qed.

Lemma puts_refl out : puts true [] out out.
Proof. split; [by rewrite andb_true_r|]. intros _. by rewrite app_nil_r. Qed.

(** ** Numbers and flags *)

Definition number_bytes (sz : nat) (v : Z) : list byte := le_split sz (wrap (8 * Z.of_nat sz) v).
Definition boolean_bytes (b : bool) : list byte := number_bytes 1 (if b then 1 else 0).
Definition unlimited {A} (_ : A) : bool := true.

Lemma to_signed_wrap w x : 0 < w → sfits w x → to_signed w (wrap w x) = x.
Proof.
  intros W [L U]. assert (2 ^ w = 2 * 2 ^ (w - 1)) as P
    by (rewrite <- Z.pow_succ_r by lia; f_equal; lia).
  assert (0 < 2 ^ (w - 1)) as Q by (apply Z.pow_pos_nonneg; lia).
  unfold to_signed, wrap. destruct (Z.leb_spec 0 x).
  - rewrite Z.mod_small by lia. by rewrite (proj2 (Z.ltb_lt _ _)).
  - replace (x mod 2 ^ w) with (x + 2 ^ w)
      by (rewrite <- (Z_mod_plus_full x 1), Z.mul_1_l, Z.mod_small; lia).
    rewrite (proj2 (Z.ltb_ge _ _)); lia.
Qed.

Lemma wrap_to_signed w x : 0 < w → fits w x → wrap w (to_signed w x) = x.
Proof.
  intros W [L U]. unfold to_signed, wrap. destruct (x <? _).
  - by apply Z.mod_small.
  - rewrite <- (Z_mod_plus_full _ 1), Z.mul_1_l. rewrite Z.mod_small; lia.
Qed.

Lemma to_signed_range w x : 0 < w → fits w x → sfits w (to_signed w x).
Proof.
  intros W [L U]. assert (2 ^ w = 2 * 2 ^ (w - 1)) as P
    by (rewrite <- Z.pow_succ_r by lia; f_equal; lia).
  assert (0 < 2 ^ (w - 1)) as Q by (apply Z.pow_pos_nonneg; lia).
  unfold to_signed, sfits. destruct (Z.ltb_spec x (2 ^ (w - 1))); lia.
Qed.

Lemma number_puts sz v out : puts true (number_bytes sz v) out (Out.number sz v out).
Proof. split; [by rewrite andb_true_r|done]. Qed.

Lemma number_agrees sz data d v rest v' d' :
  at_offset data (offset d) (number_bytes sz v ++ rest) →
  In.number sz data d = Ok (v', d') →
  v' = wrap (8 * Z.of_nat sz) v ∧ at_offset data (offset d') rest.
Proof.
  intros A H. assert (fits (8 * Z.of_nat sz) (wrap (8 * Z.of_nat sz) v)) as F by (apply wrap_range; lia).
  destruct (read_le_at sz data (offset d) _ rest F A) as [R A'].
  unfold In.number in H. rewrite R in H. by simplify_eq.
Qed.

Lemma number_sound sz data d v d' bs :
  In.number sz data d = Ok (v, d') → consumed data (offset d) bs →
  fits (8 * Z.of_nat sz) v ∧ consumed data (offset d') (bs ++ number_bytes sz v)
  ∧ offset d' = (offset d + sz)%nat ∧ rows d' = rows d ∧ objects d' = objects d.
Proof.
  intros H C. unfold In.number in H. destruct (read_le sz data (offset d)) as [[x o]|] eqn:R; [|done].
  simplify_eq. destruct (read_le_consumed _ _ _ _ _ _ R C) as (-> & F & C').
  unfold number_bytes. by rewrite wrap_small.
Qed.

#[export] Instance number_writes sz : Writes (Out.number sz) unlimited (number_bytes sz).
Proof. intros v out. apply number_puts. Qed.

#[export] Instance number_reads sz :
  Reads (In.number sz) (fits (8 * Z.of_nat sz)) unlimited (number_bytes sz).
Proof.
  constructor.
  - intros data d v rest v' d' T _ A H. destruct (number_agrees _ _ _ _ _ _ _ A H) as [-> A'].
    by rewrite wrap_small.
  - intros data d v d' bs H C. by destruct (number_sound _ _ _ _ _ _ H C) as (F & C' & _).
Qed.

Lemma signed_reads sz : (0 < sz)%nat →
  Reads (In.signed sz) (sfits (8 * Z.of_nat sz)) unlimited (number_bytes sz).
Proof.
  intros P'. assert (0 < 8 * Z.of_nat sz) as P by lia. clear P'. constructor.
  - intros data d v rest v' d' T _ A H. unfold In.signed in H.
    destruct (In.number sz data d) as [[x d1]|] eqn:E; [|done]. simplify_eq.
    destruct (number_agrees _ _ _ _ _ _ _ A E) as [-> A']. by rewrite to_signed_wrap.
  - intros data d v d' bs H C. unfold In.signed in H.
    destruct (In.number sz data d) as [[x d1]|] eqn:E; [|done]. simplify_eq.
    destruct (number_sound _ _ _ _ _ _ E C) as (F & C' & _).
    split; [by apply to_signed_range|]. split; [done|].
    unfold number_bytes in *. rewrite wrap_to_signed by done. by rewrite wrap_small in C'.
Qed.

#[export] Instance boolean_writes : Writes Out.boolean unlimited boolean_bytes.
Proof. intros v out. apply number_puts. Qed.

#[export] Instance boolean_reads : Reads In.boolean (λ _, True) unlimited boolean_bytes.
Proof.
  constructor.
  - intros data d v rest v' d' _ _ A H. unfold In.boolean in H.
    destruct (In.number 1 data d) as [[x d1]|] eqn:E; [|done].
    destruct (number_agrees _ _ _ _ _ _ _ A E) as [-> A'].
    assert (wrap (8 * Z.of_nat 1) (if v then 1 else 0) = if v then 1 else 0) as W by by destruct v.
    rewrite W in H. destruct v; cbn in H; by simplify_eq.
  - intros data d v d' bs H C. unfold In.boolean in H.
    destruct (In.number 1 data d) as [[x d1]|] eqn:E; [|done].
    destruct (number_sound _ _ _ _ _ _ E C) as ((L & _) & C' & _).
    destruct (Z.leb_spec x 1); [|done]. cbn [negb] in H. simplify_eq.
    split_and!; [done|done|]. assert (x = 0 ∨ x = 1) as [-> | ->] by lia; exact C'.
Qed.

(** ** Strings and rows *)

Definition string_bytes (value : list byte) : list byte := number_bytes 4 (vsize value) ++ value.
Definition string_sized (maximum : Z) (value : list byte) : bool := vsize value <=? maximum.

#[export] Instance string_writes maximum :
  Writes (Out.string maximum) (string_sized maximum) string_bytes.
Proof.
  intros v out. unfold Out.string, string_sized.
  destruct (Z.ltb_spec maximum (vsize v)); split; cbn [within_limits written].
  - by rewrite (proj2 (Z.leb_gt _ _)), andb_false_r by done.
  - done.
  - by rewrite (proj2 (Z.leb_le _ _)), andb_true_r by done.
  - intros _. unfold Out.number, append_le, string_bytes, number_bytes. cbn [written].
    by rewrite (assoc_L (++)).
Qed.

Lemma string_reads maximum : maximum < 2 ^ 32 →
  Reads (In.string maximum) (λ _, True) (string_sized maximum) string_bytes.
Proof.
  intros M. constructor.
  - intros data d v rest v' d' _ L A H. unfold string_sized in L. apply Z.leb_le in L.
    unfold In.string in H. destruct (In.number 4 data d) as [[x d1]|] eqn:E; [|done].
    unfold string_bytes in A. rewrite <- (assoc_L (++)) in A.
    destruct (number_agrees _ _ _ _ _ _ _ A E) as [-> A1].
    rewrite wrap_small in H by (unfold fits, vsize in *; lia).
    destruct (_ <=? maximum); [|done]. destruct (_ <=? vsize data - _); [|done].
    cbn [negb] in H. unfold vsize in H. rewrite Nat2Z.id in H. simplify_eq.
    split; [by apply (at_offset_take _ _ _ rest)|by apply at_offset_app in A1].
  - intros data d v d' bs H C. unfold In.string in H.
    destruct (In.number 4 data d) as [[x d1]|] eqn:E; [|done].
    destruct (number_sound _ _ _ _ _ _ E C) as ((F & _) & C1 & _).
    destruct (Z.leb_spec x maximum); [|done]. cbn [negb] in H.
    destruct (Z.leb_spec x (vsize data - Z.of_nat (offset d1))) as [R|]; [|done]. cbn [negb] in H.
    simplify_eq. unfold vsize in R.
    assert (length (take (Z.to_nat x) (drop (offset d1) data)) = Z.to_nat x) as Ln
      by (rewrite length_take, length_drop; lia).
    split; [done|]. split.
    + unfold string_sized, vsize. rewrite Ln. apply Z.leb_le. lia.
    + unfold string_bytes, vsize. rewrite Ln, Z2Nat.id by done. rewrite (assoc_L (++)).
      cbn [offset]. apply consumed_app; [done|lia].
Qed.

Section Rows.
Context {A : Type} {get : reader A} {put : A → encoder → encoder} {typed : A → Prop}
  {sized : A → bool} {bytes_of : A → list byte}.
Context `{!Writes put sized bytes_of} `{!Reads get typed sized bytes_of}.

Definition array_bytes (l : list A) : list byte := concat (map bytes_of l).

Lemma array_writes : Writes (Out.array put) (forallb sized) array_bytes.
Proof.
  intros l out. revert out. induction l as [|a l IH]; intros out; [apply puts_refl|].
  exact (puts_trans _ _ _ _ _ _ _ (wire_put a out) (IH (put a out))).
Qed.

Lemma array_agrees data l d rest l' d' :
  Forall typed l → forallb sized l = true → at_offset data (offset d) (array_bytes l ++ rest) →
  In.array get (length l) data d = Ok (l', d') → l' = l ∧ at_offset data (offset d') rest.
Proof.
  intros T. revert d l'. induction T as [|a l Ta T IH]; intros d l' S B H; simpl in H; [by simplify_eq|].
  simpl in S. apply andb_prop in S as [Sa S]. unfold array_bytes in B. simpl in B.
  rewrite <- (assoc_L (++)) in B. destruct (get data d) as [[x d1]|] eqn:E; [|done].
  destruct (wire_agrees _ _ _ _ _ _ Ta Sa B E) as [-> B1].
  destruct (In.array get (length l) data d1) as [[xs d2]|] eqn:E1; [|done]. simplify_eq.
  by destruct (IH _ _ S B1 E1) as [-> B2].
Qed.

Lemma array_sound data n d l d' bs :
  In.array get n data d = Ok (l, d') → consumed data (offset d) bs →
  length l = n ∧ Forall typed l ∧ forallb sized l = true
  ∧ consumed data (offset d') (bs ++ array_bytes l).
Proof.
  revert d l bs. induction n as [|n IH]; intros d l bs H C; simpl in H.
  - simplify_eq. by rewrite app_nil_r.
  - destruct (get data d) as [[x d1]|] eqn:E; [|done].
    destruct (wire_sound _ _ _ _ _ E C) as (T & S & C1).
    destruct (In.array get n data d1) as [[xs d2]|] eqn:E1; [|done]. simplify_eq.
    destruct (IH _ _ _ E1 C1) as (<- & Ts & Ss & C2).
    split_and!; [done|by constructor|simpl; by rewrite S|].
    unfold array_bytes in *. simpl. by rewrite <- (assoc_L (++)) in C2.
Qed.

Definition array_typed (n : nat) (l : list A) : Prop := length l = n ∧ Forall typed l.

Lemma array_reads n : Reads (In.array get n) (array_typed n) (forallb sized) array_bytes.
Proof.
  constructor.
  - intros data d l rest l' d' [<- T] S B H. by eapply array_agrees.
  - intros data d l d' bs H C. destruct (array_sound _ _ _ _ _ _ H C) as (L & T & S & C').
    split_and!; [done..|exact C'].
Qed.

Definition vector_bytes (l : list A) : list byte := number_bytes 4 (vsize l) ++ array_bytes l.
Definition vector_sized (l : list A) : bool :=
  (vsize l <=? PLAYER_SNAPSHOT_MAX_ROWS) && forallb sized l.

Lemma vector_writes : Writes (Out.vector put) vector_sized vector_bytes.
Proof.
  intros l out. unfold Out.vector, vector_sized.
  destruct (Z.ltb_spec PLAYER_SNAPSHOT_MAX_ROWS (vsize l)).
  - rewrite (proj2 (Z.leb_gt _ _)) by done. split; [by rewrite andb_false_r|done].
  - rewrite (proj2 (Z.leb_le _ _)) by done.
    exact (puts_trans true _ _ _ _ _ _ (number_puts 4 _ out) (array_writes l _)).
Qed.

Lemma vector_reads object_rows :
  Reads (In.vector get object_rows) (Forall typed) vector_sized vector_bytes.
Proof.
  constructor.
  - intros data d l rest l' d' T S B H. unfold vector_sized in S. apply andb_prop in S as [L S].
    apply Z.leb_le in L. unfold In.vector in H.
    destruct (In.number 4 data d) as [[x d1]|] eqn:E; [|done].
    unfold vector_bytes in B. rewrite <- (assoc_L (++)) in B.
    destruct (number_agrees _ _ _ _ _ _ _ B E) as [-> B1].
    rewrite wrap_small in H by (unfold fits, vsize, PLAYER_SNAPSHOT_MAX_ROWS in *; lia).
    destruct (_ || _); [done|]. cbn [negb] in H. unfold vsize in H. rewrite Nat2Z.id in H.
    eapply array_agrees; [exact T|exact S| |exact H]. exact B1.
  - intros data d l d' bs H C. unfold In.vector in H.
    destruct (In.number 4 data d) as [[x d1]|] eqn:E; [|done].
    destruct (number_sound _ _ _ _ _ _ E C) as ((F & _) & C1 & _).
    destruct (_ || _) eqn:G; [done|]. cbn [negb] in H. apply orb_false_elim in G as [G _].
    apply orb_false_elim in G as [G _]. apply Z.ltb_ge in G.
    destruct (array_sound _ _ _ _ _ _ H C1) as (L & T & S & C2).
    assert (vsize l = x) as Lx by (unfold vsize; lia).
    split; [done|]. split.
    + unfold vector_sized. rewrite S, Lx. by rewrite (proj2 (Z.leb_le _ _)).
    + unfold vector_bytes. by rewrite Lx, (assoc_L (++)).
Qed.
End Rows.
#[export] Existing Instances array_writes array_reads vector_writes vector_reads.

(** The readers of signed values and of strings, for the sizes the codecs use. *)
#[export] Hint Extern 0 (Reads (In.signed _) _ _ _) =>
  simple apply signed_reads; lia : typeclass_instances.
#[export] Hint Extern 0 (Reads (In.string _) _ _ _) =>
  simple apply string_reads; reflexivity : typeclass_instances.

(** ** Records: one field after the other *)

Lemma wire_next `{Reads A get typed sized bytes_of} data d a rest a' d' :
  get data d = Ok (a', d') → at_offset data (offset d) (bytes_of a ++ rest) →
  typed a → sized a = true → a' = a ∧ at_offset data (offset d') rest.
Proof. intros E B T S. by apply (wire_agrees _ _ _ _ _ _ T S B E). Qed.

(** A writer's fields, from the last to the first. *)
Ltac wire_puts :=
  eapply puts_eq;
  [ repeat first [exact (wire_put _ _) | eapply puts_trans; [|exact (wire_put _ _)]]
  | cbn; by rewrite ?andb_true_r, ?andb_assoc | by rewrite <- ?(assoc_L (++)) ].

(** The next reader of a record, on the bytes of a known value. *)
Ltac wire_agree H B :=
  match type of H with
  | match ?t with Ok _ => _ | Err _ => _ end = _ =>
      let x := fresh "x" in let d := fresh "d" in let E := fresh "E" in
      let W := fresh "W" in let T := fresh "T" in let S := fresh "S" in
      let X := fresh "X" in let B' := fresh "B" in
      destruct t as [[x d]|] eqn:E; [|discriminate H];
      pose proof (wire_next _ _ _ _ _ _ E B) as W;
      match type of W with
      | ?P → ?Q → _ =>
          assert P as T;
          [ try done
          | assert Q as S;
            [ try done
            | destruct (W T S) as [X B']; clear W T S B E; rename B' into B; subst x ] ]
      end
  end.

(** The next reader of a record, from its result. *)
Ltac wire_sound H C :=
  match type of H with
  | match ?t with Ok _ => _ | Err _ => _ end = _ =>
      let x := fresh "x" in let d := fresh "d" in let E := fresh "E" in
      let T := fresh "T" in let S := fresh "S" in let C' := fresh "C" in
      destruct t as [[x d]|] eqn:E; [|discriminate H];
      destruct (wire_sound _ _ _ _ _ E C) as (T & S & C'); clear C E; rename C' into C
  end.

(** A guard between two readers. *)
Ltac wire_guard H :=
  match type of H with
  | (if negb ?b then _ else _) = _ => destruct b eqn:?; cbn [negb] in H; [|discriminate H]
  end.

(** The instances of a record, whose [typed] and [sized] are conjunctions over its
    fields in the order of its reader. *)
Tactic Notation "writes_record" reference(put) reference(bytes) :=
  intros ? ?; unfold put, bytes; wire_puts.

Tactic Notation "reads_record" reference(get) reference(typed) reference(sized)
    reference(bytes) :=
  constructor;
  [ intros data d a rest a' d' T S B H; unfold bytes in B; rewrite <- ?(assoc_L (++)) in B;
    unfold get in H; unfold sized in S; rewrite ?andb_true_iff in S; unfold typed in T;
    destruct_and? S; destruct_and? T; repeat first [wire_agree H B | wire_guard H];
    injection H as <- <-; by destruct a
  | intros data d a d' bs H C; unfold get in H; repeat first [wire_sound H C | wire_guard H];
    injection H as <- <-;
    split; [unfold typed; cbn; split_and?; done|];
    split; [unfold sized; cbn; rewrite ?andb_true_iff; split_and?; done|];
    unfold bytes; cbn; by rewrite ?(assoc_L (++)) ].
