(* ===== verification/SnapshotCodec.v ===== *)
(** * Snapshot codec: items

    Models the item part of [player/player_snapshot_codec.c]: the rows of a list of
    items, the check of their parents, and the extraction of subtrees.

    Allocation failure is not modelled. *)

From S2P Require Import Prelude Snapshot Wire.

(** ** Rows *)

Definition put_text : list byte → encoder → encoder := Out.string PLAYER_SNAPSHOT_MAX_STRING_BYTES.
Definition get_text : reader (list byte) := In.string PLAYER_SNAPSHOT_MAX_STRING_BYTES.

Definition put_dynamic_affect (a : player_item_dynamic_affect_snapshot) (out : encoder) : encoder :=
  let out := Out.number 2 (affect_type a) out in
  let out := Out.number 2 (affect_data a) out in
  Out.number 8 (affect_extra2 a) out.

Definition get_dynamic_affect : reader player_item_dynamic_affect_snapshot := λ data d,
  let* (type, d) := In.signed 2 data d in
  let* (extra, d) := In.signed 2 data d in
  let* (extra2, d) := In.number 8 data d in
  Ok (DynamicAffect type extra extra2, d).

Definition put_extra_description (e : player_item_extra_description_snapshot) (out : encoder)
  : encoder :=
  let out := put_text (extra_keyword e) out in
  let out := put_text (extra_description e) out in
  let out := Out.boolean (spellbook e) out in
  Out.vector (Out.number 4) (spell_ids e) out.

Definition get_extra_description : reader player_item_extra_description_snapshot := λ data d,
  let* (keyword, d) := get_text data d in
  let* (description, d) := get_text data d in
  let* (spellbook, d) := In.boolean data d in
  let* (spell_ids, d) := In.vector (In.signed 4) false data d in
  Ok (ExtraDescription keyword description spellbook spell_ids, d).

(** The pairs of [affects]. *)
Definition put_affect (a : Z * Z) (out : encoder) : encoder :=
  Out.number 2 a.2 (Out.number 2 a.1 out).
Definition get_affect : reader (Z * Z) := λ data d,
  let* (location, d) := In.signed 2 data d in
  let* (modifier, d) := In.signed 2 data d in
  Ok ((location, modifier), d).

Definition put_item (row : player_item_snapshot) (out : encoder) : encoder :=
  let out := Out.number 4 (parent_index row) out in
  let out := Out.number 2 (equipment_slot row) out in
  let out := Out.number 8 (object_uid row) out in
  let out := Out.number 8 (generated_key row) out in
  let out := Out.number 4 (vnum row) out in
  let out := Out.number 1 (item_type row) out in
  let out := Out.number 1 (string_mask row) out in
  let out := put_text (item_name row) out in
  let out := put_text (short_description row) out in
  let out := put_text (description row) out in
  let out := put_text (action_description row) out in
  let out := Out.array (Out.number 4) (values row) out in
  let out := Out.array (Out.number 8) (timers row) out in
  let out := Out.number 4 (wear_flags row) out in
  let out := Out.number 4 (extra_flags row) out in
  let out := Out.number 4 (anti_flags row) out in
  let out := Out.number 4 (anti2_flags row) out in
  let out := Out.number 4 (extra2_flags row) out in
  let out := Out.number 4 (weight row) out in
  let out := Out.number 1 (material row) out in
  let out := Out.number 4 (cost row) out in
  let out := Out.number 2 (condition row) out in
  let out := Out.number 2 (craftsmanship row) out in
  let out := Out.array (Out.number 8) (bitvectors row) out in
  let out := Out.array put_affect (affects row) out in
  let out := Out.vector put_dynamic_affect (dynamic_affects row) out in
  Out.vector put_extra_description (extra_descriptions row) out.

Definition get_item : reader player_item_snapshot := λ data d,
  let* (parent_index, d) := In.signed 4 data d in
  let* (equipment_slot, d) := In.signed 2 data d in
  let* (object_uid, d) := In.number 8 data d in
  let* (generated_key, d) := In.signed 8 data d in
  let* (vnum, d) := In.signed 4 data d in
  let* (type, d) := In.signed 1 data d in
  let* (string_mask, d) := In.number 1 data d in
  let* (name, d) := get_text data d in
  let* (short_description, d) := get_text data d in
  let* (description, d) := get_text data d in
  let* (action_description, d) := get_text data d in
  let* (values, d) := In.array (In.signed 4) 8 data d in
  let* (timers, d) := In.array (In.signed 8) 6 data d in
  let* (wear_flags, d) := In.number 4 data d in
  let* (extra_flags, d) := In.number 4 data d in
  let* (anti_flags, d) := In.number 4 data d in
  let* (anti2_flags, d) := In.number 4 data d in
  let* (extra2_flags, d) := In.number 4 data d in
  let* (weight, d) := In.signed 4 data d in
  let* (material, d) := In.signed 1 data d in
  let* (cost, d) := In.signed 4 data d in
  let* (condition, d) := In.signed 2 data d in
  let* (craftsmanship, d) := In.signed 2 data d in
  let* (bitvectors, d) := In.array (In.number 8) 5 data d in
  let* (affects, d) := In.array get_affect 4 data d in
  let* (dynamic_affects, d) := In.vector get_dynamic_affect false data d in
  let* (extra_descriptions, d) := In.vector get_extra_description false data d in
  Ok (ItemSnapshot parent_index equipment_slot object_uid generated_key vnum type string_mask
        name short_description description action_description values timers wear_flags
        extra_flags anti_flags anti2_flags extra2_flags weight material cost condition
        craftsmanship bitvectors affects dynamic_affects extra_descriptions, d).

Definition encode_items : list player_item_snapshot → encoder → encoder := Out.vector put_item.
Definition decode_items : reader (list player_item_snapshot) := In.vector get_item true.

(** ** The parents *)

(** [depths] are those of the rows passed. *)
Fixpoint relationships (depths : list nat) (items : list player_item_snapshot) : bool :=
  match items with
  | [] => true
  | item :: items =>
      let parent := parent_index item in
      if (parent <? PLAYER_SNAPSHOT_NO_PARENT) || (Z.of_nat (length depths) <=? parent) then false
      else if 0 <=? parent then
        let depth := S (default 0%nat (depths !! Z.to_nat parent)) in
        if (PLAYER_SNAPSHOT_MAX_DEPTH <? depth)%nat then false
        else relationships (depths ++ [depth]) items
      else relationships (depths ++ [1%nat]) items
  end.

Definition valid_item_relationships (items : list player_item_snapshot) : bool :=
  relationships [] items.

(** ** Lists of items *)

Definition player_item_snapshot_list_decode (encoded : list byte)
  : res player_snapshot_codec_result (list player_item_snapshot) :=
  ensure negb (length encoded =? 0)%nat else invalid_value in
  ensure vsize encoded <=? PLAYER_SNAPSHOT_MAX_BYTES else limit_exceeded in
  let* (items, d) := decode_items encoded (Decoder 0 0 0) in
  ensure (offset d =? length encoded)%nat && valid_item_relationships items
    else invalid_value in
  Ok items.

Definition player_item_snapshot_list_encode (items : list player_item_snapshot)
  : res player_snapshot_codec_result (list byte) :=
  ensure valid_item_relationships items else invalid_value in
  let out := encode_items items (Encoder [] true) in
  ensure within_limits out && (vsize (written out) <=? PLAYER_SNAPSHOT_MAX_BYTES)
    else limit_exceeded in
  let* _ := player_item_snapshot_list_decode (written out) in
  Ok (written out).

(** ** Subtrees *)

Definition with_parent (parent : Z) (i : player_item_snapshot) : player_item_snapshot :=
  ItemSnapshot parent (equipment_slot i) (object_uid i) (generated_key i) (vnum i) (item_type i)
    (string_mask i) (item_name i) (short_description i) (description i)
    (action_description i) (values i) (timers i) (wear_flags i) (extra_flags i)
    (anti_flags i) (anti2_flags i) (extra2_flags i) (weight i) (material i) (cost i)
    (condition i) (craftsmanship i) (bitvectors i) (affects i) (dynamic_affects i)
    (extra_descriptions i).

(** The vectors of the loop, with those indexed by rows up to the current one. *)
Record extraction := Extraction {
  selected : list player_item_snapshot;
  remaining : list player_item_snapshot;
  included : list bool;
  selected_positions : list Z;
  remaining_positions : list Z;
}.

(** One turn; [selected_positions] and [remaining_positions] start as [NO_PARENT]. *)
Definition extract_row (selected_index : nat) (item : player_item_snapshot) (e : extraction)
  : option extraction :=
  let index := length (included e) in
  let parent := parent_index item in
  let inside :=
    (index =? selected_index)%nat
    || (negb (parent =? PLAYER_SNAPSHOT_NO_PARENT)
        && default false (included e !! Z.to_nat parent)) in
  if inside then
    let at_ :=
      if (index =? selected_index)%nat then PLAYER_SNAPSHOT_NO_PARENT
      else default PLAYER_SNAPSHOT_NO_PARENT (selected_positions e !! Z.to_nat parent) in
    ensure? negb ((at_ =? PLAYER_SNAPSHOT_NO_PARENT) && negb (index =? selected_index)%nat) in
    Some (Extraction (selected e ++ [with_parent at_ item]) (remaining e)
            (included e ++ [true]) (selected_positions e ++ [vsize (selected e)])
            (remaining_positions e ++ [PLAYER_SNAPSHOT_NO_PARENT]))
  else
    let at_ :=
      if negb (parent =? PLAYER_SNAPSHOT_NO_PARENT)
      then default PLAYER_SNAPSHOT_NO_PARENT (remaining_positions e !! Z.to_nat parent)
      else parent in
    ensure? negb (negb (parent =? PLAYER_SNAPSHOT_NO_PARENT) && (at_ =? PLAYER_SNAPSHOT_NO_PARENT)) in
    Some (Extraction (selected e) (remaining e ++ [with_parent at_ item])
            (included e ++ [false]) (selected_positions e ++ [PLAYER_SNAPSHOT_NO_PARENT])
            (remaining_positions e ++ [vsize (remaining e)])).

Fixpoint extract_rows (selected_index : nat) (items : list player_item_snapshot)
    (e : extraction) : option extraction :=
  match items with
  | [] => Some e
  | item :: items => let? e := extract_row selected_index item e in extract_rows selected_index items e
  end.

(** The first row with the identifier. *)
Fixpoint find_row (uid : Z) (items : list player_item_snapshot) : option nat :=
  match items with
  | [] => None
  | item :: items => if object_uid item =? uid then Some 0%nat else S <$> find_row uid items
  end.

Definition player_item_snapshot_extract_subtree (items : list player_item_snapshot)
    (selected_uid : Z)
  : res player_snapshot_codec_result (list player_item_snapshot * list player_item_snapshot) :=
  ensure nz selected_uid && valid_item_relationships items else invalid_value in
  match find_row selected_uid items with
  | None => Err invalid_value
  | Some selected_index =>
      match extract_rows selected_index items (Extraction [] [] [] [] []) with
      | None => Err invalid_value
      | Some e => Ok (selected e, remaining e)
      end
  end.

(** The loop over the roots: each tree is taken from what the ones before left. *)
Fixpoint extract_trees (roots : list Z) (selected remaining : list player_item_snapshot)
  : res player_snapshot_codec_result (list player_item_snapshot * list player_item_snapshot) :=
  match roots with
  | [] => Ok (selected, remaining)
  | root :: roots =>
      let* (tree, next_remaining) := player_item_snapshot_extract_subtree remaining root in
      let move item :=
        if parent_index item =? PLAYER_SNAPSHOT_NO_PARENT then item
        else with_parent (parent_index item + vsize selected) item in
      extract_trees roots (selected ++ map move tree) next_remaining
  end.

(** No two neighbours out of order. *)
Fixpoint strictly_increasing (l : list Z) : bool :=
  match l with
  | a :: (b :: _) as rest => negb (b <=? a) && strictly_increasing rest
  | _ => true
  end.

Definition player_item_snapshot_extract_forest (items : list player_item_snapshot)
    (selected_root_uids : list Z)
  : res player_snapshot_codec_result (list player_item_snapshot * list player_item_snapshot) :=
  ensure negb (length selected_root_uids =? 0)%nat
         && negb (existsb (λ uid, uid =? 0) selected_root_uids)
         && strictly_increasing selected_root_uids else invalid_value in
  extract_trees selected_root_uids [] items.
(** ** Lemmas: the wire form of an item *)

Record dynamic_affect_typed (a : player_item_dynamic_affect_snapshot) : Prop := {
  typed_affect_type : sfits 16 (affect_type a);
  typed_affect_data : sfits 16 (affect_data a);
  typed_affect_extra2 : u64 (affect_extra2 a);
}.
Definition dynamic_affect_bytes (a : player_item_dynamic_affect_snapshot) : list byte :=
  number_bytes 2 (affect_type a) ++ number_bytes 2 (affect_data a) ++ number_bytes 8 (affect_extra2 a).

#[export] Instance dynamic_affect_writes : Writes put_dynamic_affect unlimited dynamic_affect_bytes.
Proof. intros a out. unfold put_dynamic_affect, dynamic_affect_bytes. wire_puts. Qed.

#[export] Instance dynamic_affect_reads : Reads get_dynamic_affect dynamic_affect_typed unlimited dynamic_affect_bytes.
Proof.
  constructor.
  - intros data d a rest a' d' [T1 T2 T3] _ B H. unfold dynamic_affect_bytes in B.
    rewrite <- !(assoc_L (++)) in B. unfold get_dynamic_affect in H.
    do 3 wire_agree H B. destruct a. by simplify_eq/=.
  - intros data d a d' bs H C. unfold get_dynamic_affect in H.
    do 3 wire_sound H C. simplify_eq/=. split; [done|]. split; [done|].
    unfold dynamic_affect_bytes. by rewrite !(assoc_L (++)).
Qed.

Abbreviation text_sized := (string_sized PLAYER_SNAPSHOT_MAX_STRING_BYTES).

#[export] Instance text_writes : Writes put_text text_sized string_bytes.
Proof. apply string_writes. Qed.

#[export] Instance text_reads : Reads get_text (λ _, True) text_sized string_bytes.
Proof. exact (string_reads PLAYER_SNAPSHOT_MAX_STRING_BYTES eq_refl). Qed.

Definition extra_description_typed (e : player_item_extra_description_snapshot) : Prop :=
  Forall (sfits 32) (spell_ids e).
Definition extra_description_sized (e : player_item_extra_description_snapshot) : bool :=
  text_sized (extra_keyword e) && text_sized (extra_description e)
  && vector_sized (sized := unlimited) (spell_ids e).
Definition extra_description_bytes (e : player_item_extra_description_snapshot) : list byte :=
  string_bytes (extra_keyword e) ++ string_bytes (extra_description e)
  ++ boolean_bytes (spellbook e) ++ vector_bytes (bytes_of := number_bytes 4) (spell_ids e).

#[export] Instance extra_description_writes : Writes put_extra_description extra_description_sized extra_description_bytes.
Proof. intros a out. unfold put_extra_description, extra_description_bytes. wire_puts. Qed.

#[export] Instance extra_description_reads : Reads get_extra_description extra_description_typed extra_description_sized extra_description_bytes.
Proof.
  constructor.
  - intros data d e rest e' d' T S B H. unfold extra_description_bytes in B.
    rewrite <- !(assoc_L (++)) in B. unfold get_extra_description in H.
    unfold extra_description_sized in S. rewrite !andb_true_iff in S. destruct_and! S.
    do 4 wire_agree H B. destruct e. by simplify_eq/=.
  - intros data d e d' bs H C. unfold get_extra_description in H.
    do 4 wire_sound H C. simplify_eq/=. split; [done|]. split.
    + unfold extra_description_sized. rewrite !andb_true_iff. done.
    + unfold extra_description_bytes. by rewrite !(assoc_L (++)).
Qed.

Definition affect_typed (a : Z * Z) : Prop := sfits 16 a.1 ∧ sfits 16 a.2.
Definition affect_bytes (a : Z * Z) : list byte := number_bytes 2 a.1 ++ number_bytes 2 a.2.

#[export] Instance affect_writes : Writes put_affect unlimited affect_bytes.
Proof. intros a out. unfold put_affect, affect_bytes. wire_puts. Qed.

#[export] Instance affect_reads : Reads get_affect affect_typed unlimited affect_bytes.
Proof.
  constructor.
  - intros data d a rest a' d' [T1 T2] _ B H. unfold affect_bytes in B.
    rewrite <- !(assoc_L (++)) in B. unfold get_affect in H.
    do 2 wire_agree H B. destruct a. by simplify_eq/=.
  - intros data d a d' bs H C. unfold get_affect in H.
    do 2 wire_sound H C. simplify_eq/=. split; [done|]. split; [done|].
    unfold affect_bytes. by rewrite !(assoc_L (++)).
Qed.

Record item_typed (i : player_item_snapshot) : Prop := {
  typed_parent_index : sfits 32 (parent_index i);
  typed_equipment_slot : sfits 16 (equipment_slot i);
  typed_object_uid : u64 (object_uid i);
  typed_generated_key : sfits 64 (generated_key i);
  typed_vnum : sfits 32 (vnum i);
  typed_item_type : sfits 8 (item_type i);
  typed_string_mask : u8 (string_mask i);
  typed_values : array_typed (typed := sfits 32) 8 (values i);
  typed_timers : array_typed (typed := sfits 64) 6 (timers i);
  typed_flags : u32 (wear_flags i) ∧ u32 (extra_flags i) ∧ u32 (anti_flags i)
    ∧ u32 (anti2_flags i) ∧ u32 (extra2_flags i);
  typed_weight : sfits 32 (weight i);
  typed_material : sfits 8 (material i);
  typed_cost : sfits 32 (cost i);
  typed_condition : sfits 16 (condition i);
  typed_craftsmanship : sfits 16 (craftsmanship i);
  typed_bitvectors : array_typed (typed := fits 64) 5 (bitvectors i);
  typed_affects : array_typed (typed := affect_typed) 4 (affects i);
  typed_dynamic_affects : Forall dynamic_affect_typed (dynamic_affects i);
  typed_extra_descriptions : Forall extra_description_typed (extra_descriptions i);
}.

Definition item_sized (i : player_item_snapshot) : bool :=
  text_sized (item_name i) && text_sized (short_description i) && text_sized (description i)
  && text_sized (action_description i)
  && forallb unlimited (values i) && forallb unlimited (timers i) && forallb unlimited (bitvectors i)
  && forallb unlimited (affects i)
  && vector_sized (sized := unlimited) (dynamic_affects i)
  && vector_sized (sized := extra_description_sized) (extra_descriptions i).

Definition item_bytes (i : player_item_snapshot) : list byte :=
  number_bytes 4 (parent_index i) ++ number_bytes 2 (equipment_slot i)
  ++ number_bytes 8 (object_uid i) ++ number_bytes 8 (generated_key i)
  ++ number_bytes 4 (vnum i) ++ number_bytes 1 (item_type i) ++ number_bytes 1 (string_mask i)
  ++ string_bytes (item_name i) ++ string_bytes (short_description i)
  ++ string_bytes (description i) ++ string_bytes (action_description i)
  ++ array_bytes (bytes_of := number_bytes 4) (values i)
  ++ array_bytes (bytes_of := number_bytes 8) (timers i)
  ++ number_bytes 4 (wear_flags i) ++ number_bytes 4 (extra_flags i)
  ++ number_bytes 4 (anti_flags i) ++ number_bytes 4 (anti2_flags i)
  ++ number_bytes 4 (extra2_flags i) ++ number_bytes 4 (weight i)
  ++ number_bytes 1 (material i) ++ number_bytes 4 (cost i) ++ number_bytes 2 (condition i)
  ++ number_bytes 2 (craftsmanship i)
  ++ array_bytes (bytes_of := number_bytes 8) (bitvectors i)
  ++ array_bytes (bytes_of := affect_bytes) (affects i)
  ++ vector_bytes (bytes_of := dynamic_affect_bytes) (dynamic_affects i)
  ++ vector_bytes (bytes_of := extra_description_bytes) (extra_descriptions i).

#[export] Instance item_writes : Writes put_item item_sized item_bytes.
Proof. intros a out. unfold put_item, item_bytes. wire_puts. Qed.

#[export] Instance item_reads : Reads get_item item_typed item_sized item_bytes.
Proof.
  constructor.
  - intros data d i rest i' d' T S B H. unfold item_bytes in B.
    rewrite <- !(assoc_L (++)) in B. unfold get_item in H.
    unfold item_sized in S. rewrite !andb_true_iff in S. destruct_and! S.
    destruct T as [? ? ? ? ? ? ? ? ? (?&?&?&?&?)].
    do 27 wire_agree H B. injection H as <- <-. by destruct i.
  - intros data d i d' bs H C. unfold get_item in H.
    do 27 wire_sound H C. injection H as <- <-. split; [by constructor|]. split.
    + unfold item_sized. cbn. rewrite !andb_true_iff. done.
    + unfold item_bytes. by rewrite !(assoc_L (++)).
Qed.

(** ** Lemmas: depths *)

(** The depth of a row below those with [depths], if its parent is one of them. *)
Definition row_depth (depths : list nat) (item : player_item_snapshot) : option nat :=
  let parent := parent_index item in
  if (parent <? PLAYER_SNAPSHOT_NO_PARENT) || (Z.of_nat (length depths) <=? parent) then None
  else if 0 <=? parent then
    let depth := S (default 0%nat (depths !! Z.to_nat parent)) in
    if (PLAYER_SNAPSHOT_MAX_DEPTH <? depth)%nat then None else Some depth
  else Some 1%nat.

Fixpoint depths_of (depths : list nat) (items : list player_item_snapshot) : option (list nat) :=
  match items with
  | [] => Some depths
  | item :: items => let? depth := row_depth depths item in depths_of (depths ++ [depth]) items
  end.

Lemma relationships_depths items depths :
  relationships depths items = true ↔ is_Some (depths_of depths items).
Proof.
  revert depths. induction items as [|item items IH]; intros depths; simpl; [done|].
  unfold row_depth. destruct (_ || _); [by split; [|intros [??]]|].
  destruct (0 <=? _); [|apply IH].
  destruct (_ <? _)%nat; [by split; [|intros [??]]|apply IH].
Qed.

Lemma valid_depths items : valid_item_relationships items = true ↔ is_Some (depths_of [] items).
Proof. apply relationships_depths. Qed.

Lemma depths_of_app l1 l2 depths :
  depths_of depths (l1 ++ l2) = (let? ds := depths_of depths l1 in depths_of ds l2).
Proof.
  revert depths. induction l1 as [|item l1 IH]; intros depths; simpl; [done|].
  destruct (row_depth depths item); simpl; [apply IH|done].
Qed.

Lemma depths_of_length items depths ds :
  depths_of depths items = Some ds → length ds = (length depths + length items)%nat.
Proof.
  revert depths. induction items as [|item items IH]; intros depths H; simpl in H.
  - simplify_eq. simpl. lia.
  - destruct (row_depth depths item); simplify_eq/=. apply IH in H. rewrite H, length_app. simpl. lia.
Qed.

(** Rows are at most 32 deep and below an earlier row or none. *)
Lemma row_depth_spec depths item n :
  row_depth depths item = Some n →
  parent_index item = -1 ∧ n = 1%nat
  ∨ ∃ p d, parent_index item = Z.of_nat p ∧ depths !! p = Some d ∧ n = S d ∧ (n <= 32)%nat.
Proof.
  unfold row_depth, PLAYER_SNAPSHOT_NO_PARENT, PLAYER_SNAPSHOT_MAX_DEPTH.
  destruct (_ || _) eqn:G; [done|]. apply orb_false_elim in G as [G1 G2].
  apply Z.ltb_ge in G1. apply Z.leb_gt in G2. destruct (Z.leb_spec 0 (parent_index item)).
  - destruct (Nat.ltb_spec 32 (S (default 0%nat (depths !! Z.to_nat (parent_index item))))); [done|].
    intros [= <-]. right. destruct (lookup_lt_is_Some_2 depths (Z.to_nat (parent_index item))) as [d E]; [lia|].
    exists (Z.to_nat (parent_index item)), d. rewrite E in *. simpl in *. split_and!; [lia|done..].
  - intros [= <-]. left. split; [lia|done].
Qed.

Lemma row_depth_below depths item p d :
  parent_index item = Z.of_nat p → depths !! p = Some d → (S d <= 32)%nat →
  row_depth depths item = Some (S d).
Proof.
  intros P D L. unfold row_depth, PLAYER_SNAPSHOT_NO_PARENT, PLAYER_SNAPSHOT_MAX_DEPTH. rewrite P.
  pose proof (lookup_lt_Some _ _ _ D).
  rewrite (proj2 (Z.ltb_ge _ _)), (proj2 (Z.leb_gt _ _)), (proj2 (Z.leb_le 0 _)) by lia.
  rewrite Nat2Z.id, D. simpl. by rewrite (proj2 (Nat.ltb_ge _ _)).
Qed.

Lemma row_depth_root depths item :
  parent_index item = -1 → row_depth depths item = Some 1%nat.
Proof.
  intros P. unfold row_depth, PLAYER_SNAPSHOT_NO_PARENT. rewrite P.
  rewrite (proj2 (Z.leb_gt _ _)) by lia. done.
Qed.

Lemma depths_of_snoc items item ds :
  depths_of [] (items ++ [item]) = Some ds ↔
  ∃ ds0 n, depths_of [] items = Some ds0 ∧ row_depth ds0 item = Some n ∧ ds = ds0 ++ [n].
Proof.
  rewrite depths_of_app. destruct (depths_of [] items) as [ds0|]; simpl.
  - destruct (row_depth ds0 item) as [n|] eqn:E; simpl; split; intros H; naive_solver.
  - naive_solver.
Qed.

(** What the depths say of each row. *)
Lemma depths_of_rows items ds :
  depths_of [] items = Some ds → ∀ j item, items !! j = Some item →
  ∃ n, ds !! j = Some n ∧ (n <= 32)%nat
    ∧ (parent_index item = -1 ∧ n = 1%nat
       ∨ ∃ p d, parent_index item = Z.of_nat p ∧ (p < j)%nat ∧ ds !! p = Some d ∧ n = S d).
Proof.
  revert ds. induction items as [|item items IH] using rev_ind; intros ds H j x E; [done|].
  apply depths_of_snoc in H as (ds0 & n & H & R & ->).
  pose proof (depths_of_length _ _ _ H) as L. simpl in L.
  apply lookup_snoc_Some in E as [[J E]|[-> <-]].
  - destruct (IH _ H _ _ E) as (m & M & B & C). exists m.
    split_and!; [by apply lookup_app_l_Some|done|]. destruct C as [C|(p & d & P & Lt & D & ->)]; [by left|].
    right. exists p, d. split_and!; [done|done|by apply lookup_app_l_Some|done].
  - exists n. rewrite <- L, list_lookup_middle by done. split; [done|].
    apply row_depth_spec in R as [[P ->]|(p & d & P & D & -> & B)]; [split; [lia|by left]|].
    split; [done|]. right. exists p, d. apply lookup_lt_Some in D as Lt.
    split_and!; [done|done|by apply lookup_app_l_Some|done].
Qed.

(** ** Specification: the rows with a mark *)

(** The rows marked [want] before row [j]. *)
Definition rank (want : bool) (keep : list bool) (j : nat) : nat :=
  length (filter (λ b, b = want) (take j keep)).

(** The new parent of a row: the place of its parent, if that has the same mark. *)
Definition moved_parent (want : bool) (keep : list bool) (item : player_item_snapshot) : Z :=
  let p := Z.to_nat (parent_index item) in
  if (0 <=? parent_index item) && bool_decide (keep !! p = Some want)
  then Z.of_nat (rank want keep p) else -1.

(** The rows marked [want], in order, below each other as they were. *)
Definition restrict (want : bool) (keep : list bool) (items : list player_item_snapshot)
  : list player_item_snapshot :=
  omap (λ '(b, item),
      if decide (b = want) then Some (with_parent (moved_parent want keep item) item) else None)
    (zip keep items).

(** ** Lemmas: restriction *)

(** Each row's parent comes before it. *)
Definition parents_first (items : list player_item_snapshot) : Prop :=
  ∀ j item, items !! j = Some item → parent_index item < Z.of_nat j.

Lemma depths_parents_first items ds : depths_of [] items = Some ds → parents_first items.
Proof.
  revert ds. induction items as [|item items IH] using rev_ind; intros ds H j x E; [done|].
  apply depths_of_snoc in H as (ds0 & n & H & R & ->).
  apply lookup_snoc_Some in E as [[L E]|[-> <-]]; [by eapply IH|].
  apply depths_of_length in H. simpl in H.
  apply row_depth_spec in R as [[-> _]|(p & d & -> & P & _)]; [lia|].
  apply lookup_lt_Some in P. lia.
Qed.

Lemma parents_first_snoc items item :
  parents_first (items ++ [item]) →
  parents_first items ∧ parent_index item < Z.of_nat (length items).
Proof.
  intros H. split.
  - intros j x E. apply (H j). by apply lookup_app_l_Some.
  - apply (H (length items)). by apply list_lookup_middle.
Qed.

Lemma rank_snoc_l want keep b j : (j <= length keep)%nat → rank want (keep ++ [b]) j = rank want keep j.
Proof. intros L. unfold rank. by rewrite take_app_le. Qed.

Lemma rank_S want keep b j : keep !! j = Some b →
  rank want keep (S j) = (rank want keep j + if decide (b = want) then 1 else 0)%nat.
Proof.
  intros E. unfold rank. rewrite (take_S_r _ _ _ E), filter_app, filter_cons, length_app.
  by case_decide.
Qed.

Lemma moved_parent_snoc want keep b item :
  parent_index item < Z.of_nat (length keep) →
  moved_parent want (keep ++ [b]) item = moved_parent want keep item.
Proof.
  intros L. unfold moved_parent. destruct (Z.leb_spec 0 (parent_index item)); [|done].
  rewrite lookup_app_l by lia. by rewrite rank_snoc_l by lia.
Qed.

Lemma restrict_snoc want keep b items item :
  length keep = length items → parents_first (items ++ [item]) →
  restrict want (keep ++ [b]) (items ++ [item])
  = restrict want keep items
    ++ if decide (b = want) then [with_parent (moved_parent want keep item) item] else [].
Proof.
  intros L P. apply parents_first_snoc in P as [P PL]. unfold restrict.
  rewrite zip_with_app, omap_app by done. f_equal.
  - apply list_omap_ext, Forall2_same_length_lookup_2; [done|]. intros j [b1 x] [b2 y] E1 E2.
    rewrite E1 in E2. injection E2 as <- <-. apply lookup_zip_Some in E1 as [_ E].
    pose proof (P _ _ E). apply lookup_lt_Some in E.
    by rewrite moved_parent_snoc by lia.
  - simpl. rewrite moved_parent_snoc by lia. by case_decide.
Qed.

Lemma restrict_length want keep items :
  length keep = length items → length (restrict want keep items) = rank want keep (length keep).
Proof.
  intros L. unfold rank, restrict. rewrite firstn_all.
  generalize (moved_parent want keep). intros f. revert items L.
  induction keep as [|b keep IH]; intros [|item items] L; simplify_eq/=; [done|].
  rewrite filter_cons. case_decide; simpl; auto.
Qed.

(** A row lies no deeper among the rows with its mark than among all. *)
Definition shallower (want : bool) (keep : list bool) (ds ds' : list nat) : Prop :=
  ∀ j d, keep !! j = Some want → ds !! j = Some d →
    ∃ d', ds' !! rank want keep j = Some d' ∧ (1 <= d' <= d)%nat.

Lemma shallower_snoc want keep b ds ds' d d' :
  length keep = length ds → shallower want keep ds ds' →
  (b = want → length ds' = rank want keep (length keep) ∧ (1 <= d' <= d)%nat) →
  shallower want (keep ++ [b]) (ds ++ [d]) (ds' ++ if decide (b = want) then [d'] else []).
Proof.
  intros L S N j e K D. apply lookup_snoc_Some in K as [[J K]|[-> ->]].
  - rewrite lookup_app_l in D by lia. destruct (S j e K D) as (e' & E & B).
    rewrite rank_snoc_l by lia. exists e'. split; [by apply lookup_app_l_Some|done].
  - rewrite rank_snoc_l by done. rewrite L, list_lookup_middle in D by done. simplify_eq.
    destruct (N eq_refl) as [<- B]. rewrite decide_True by done.
    exists d'. by rewrite list_lookup_middle.
Qed.

Lemma row_depth_restrict want keep item ds ds' d :
  length keep = length ds → shallower want keep ds ds' → row_depth ds item = Some d →
  ∃ d', row_depth ds' (with_parent (moved_parent want keep item) item) = Some d'
        ∧ (1 <= d' <= d)%nat.
Proof.
  intros L S R.
  assert (1 <= d)%nat as D1
    by (destruct (row_depth_spec _ _ _ R) as [[_ ->]|(? & ? & _ & _ & -> & _)]; lia).
  destruct (decide (moved_parent want keep item = -1)) as [M|M].
  { exists 1%nat. split; [by apply row_depth_root|lia]. }
  unfold moved_parent in *. destruct (_ && _) eqn:G; [|done].
  apply andb_prop in G as [G K]. apply bool_decide_eq_true in K.
  destruct (row_depth_spec _ _ _ R) as [[P _]|(p & e & P & E & -> & B)]; [by rewrite P in G|].
  rewrite P, Nat2Z.id in *. destruct (S p e K E) as (e' & E' & B').
  exists (Datatypes.S e'). split; [|lia]. eapply row_depth_below; [done|done|lia].
Qed.

Lemma restrict_depths want keep items ds :
  length keep = length items → depths_of [] items = Some ds →
  ∃ ds', depths_of [] (restrict want keep items) = Some ds' ∧ shallower want keep ds ds'.
Proof.
  revert keep ds. induction items as [|item items IH] using rev_ind; intros keep ds L H.
  - destruct keep; [|done]. exists []. split; [done|]. by intros j d K.
  - rewrite length_app in L. simpl in L.
    destruct keep as [|b keep _] using rev_ind; [simpl in L; lia|].
    rewrite length_app in L. simpl in L. assert (length keep = length items) as L' by lia.
    pose proof (depths_parents_first _ _ H) as P. rewrite restrict_snoc by done.
    apply depths_of_snoc in H as (ds0 & n & H & R & ->).
    destruct (IH keep ds0 L' H) as (ds' & D & S).
    pose proof (depths_of_length _ _ _ H) as Ld. simpl in Ld.
    destruct (row_depth_restrict want keep item ds0 ds' n ltac:(lia) S R) as (d' & R' & B).
    exists (ds' ++ if decide (b = want) then [d'] else []). split.
    + case_decide; [|by rewrite !app_nil_r]. apply depths_of_snoc. eauto.
    + apply shallower_snoc; [lia|done|]. intros _. split; [|done].
      apply depths_of_length in D. simpl in D. rewrite D. by apply restrict_length.
Qed.

Lemma restrict_valid want keep items :
  length keep = length items → valid_item_relationships items = true →
  valid_item_relationships (restrict want keep items) = true.
Proof.
  rewrite !valid_depths. intros L [ds H]. destruct (restrict_depths want keep items ds L H) as (ds' & D & _).
  by exists ds'.
Qed.

(** ** Specification: the rows of a subtree *)

(** [j] is row [k] or, through its parents, in it. *)
Inductive belongs (items : list player_item_snapshot) (k : nat) : nat → Prop :=
| belongs_root : belongs items k k
| belongs_in j p item :
    items !! j = Some item → parent_index item = Z.of_nat p → belongs items k p →
    belongs items k j.

(** ** Lemmas: the loop of an extraction *)

Section Extract.
Variables (items : list player_item_snapshot) (k : nat).
Hypothesis first : parents_first items.

Lemma belongs_after j : belongs items k j → (k <= j)%nat.
Proof.
  induction 1 as [|j p item E P _ IH]; [done|]. pose proof (first _ _ E). lia.
Qed.

Lemma belongs_row j item :
  items !! j = Some item → belongs items k j ↔
  j = k ∨ ∃ p, parent_index item = Z.of_nat p ∧ belongs items k p.
Proof.
  intros E. split.
  - intros H. destruct H as [|j p item' E' P H]; [by left|]. right. simplify_eq. eauto.
  - intros [->|(p & P & H)]; [constructor|by eapply belongs_in].
Qed.

(** After the rows [rows]. *)
Record extracted (rows : list player_item_snapshot) (e : extraction) : Prop := {
  ex_length : length (included e) = length rows;
  ex_belongs (j : nat) (b : bool) : included e !! j = Some b → b = true ↔ belongs items k j;
  ex_selected : selected e = restrict true (included e) rows;
  ex_remaining : remaining e = restrict false (included e) rows;
  ex_selected_positions (j : nat) (b : bool) : included e !! j = Some b →
    selected_positions e !! j = Some (if b then Z.of_nat (rank true (included e) j) else -1);
  ex_remaining_positions (j : nat) (b : bool) : included e !! j = Some b →
    remaining_positions e !! j = Some (if b then -1 else Z.of_nat (rank false (included e) j));
  ex_positions : length (selected_positions e) = length rows
    ∧ length (remaining_positions e) = length rows;
}.

Lemma extracted_start : extracted [] (Extraction [] [] [] [] []).
Proof. by constructor. Qed.

(** The positions after one more row. *)
Lemma positions_snoc (f : list bool → nat → bool → Z) keep b (positions : list Z) p :
  (∀ j c, (j <= length keep)%nat → f (keep ++ [b]) j c = f keep j c) →
  length positions = length keep → p = f keep (length keep) b →
  (∀ j c, keep !! j = Some c → positions !! j = Some (f keep j c)) →
  ∀ j c, (keep ++ [b]) !! j = Some c → (positions ++ [p]) !! j = Some (f (keep ++ [b]) j c).
Proof.
  intros F L -> P j c E. apply lookup_snoc_Some in E as [[J E]|[-> ->]].
  - rewrite F by lia. apply lookup_app_l_Some. by apply P.
  - rewrite F by done. by rewrite <- L, list_lookup_middle.
Qed.

(** One more row with its mark. *)
Lemma extracted_snoc rows item e (b : bool) e' :
  extracted rows e → parents_first (rows ++ [item]) →
  (b = true ↔ belongs items k (length rows)) →
  included e' = included e ++ [b] →
  selected e' = selected e
    ++ (if b then [with_parent (moved_parent true (included e) item) item] else []) →
  remaining e' = remaining e
    ++ (if b then [] else [with_parent (moved_parent false (included e) item) item]) →
  selected_positions e' = selected_positions e ++ [if b then vsize (selected e) else -1] →
  remaining_positions e' = remaining_positions e ++ [if b then -1 else vsize (remaining e)] →
  extracted (rows ++ [item]) e'.
Proof.
  intros [L Bl S R SP RP [LS LR]] P M I S' R' SP' RP'.
  assert (∀ want, vsize (restrict want (included e) rows) = Z.of_nat (rank want (included e) (length (included e)))) as V
    by (intros want; unfold vsize; by rewrite restrict_length).
  constructor.
  - rewrite I, !length_app. by rewrite L.
  - intros j c E. rewrite I in E. apply lookup_snoc_Some in E as [[J E]|[-> ->]]; [by apply Bl|].
    by rewrite L.
  - rewrite S', S, I, restrict_snoc by done. by destruct b.
  - rewrite R', R, I, restrict_snoc by done. by destruct b.
  - rewrite I, SP'. apply (positions_snoc (λ keep j c, if c then Z.of_nat (rank true keep j) else -1)).
    + intros j c J. by rewrite rank_snoc_l.
    + by rewrite LS.
    + rewrite S, V. by destruct b.
    + exact SP.
  - rewrite I, RP'. apply (positions_snoc (λ keep j c, if c then -1 else Z.of_nat (rank false keep j))).
    + intros j c J. by rewrite rank_snoc_l.
    + by rewrite LR.
    + rewrite R, V. by destruct b.
    + exact RP.
  - rewrite SP', RP', !length_app. simpl. lia.
Qed.

(** The parent's mark decides the row's, unless it is the root of the subtree. *)
Lemma extract_mark rows item todo e :
  items = rows ++ item :: todo → extracted rows e → -1 <= parent_index item →
  let p := Z.to_nat (parent_index item) in
  (∃ c, 0 <= parent_index item ∧ included e !! p = Some c) ∨ parent_index item = -1.
Proof.
  intros E X Lo p. destruct (Z.leb_spec 0 (parent_index item)); [left|right; lia].
  assert (items !! length rows = Some item) as At by (rewrite E; by apply list_lookup_middle).
  pose proof (first _ _ At). destruct (lookup_lt_is_Some_2 (included e) p) as [c Hc]; [|by exists c].
  rewrite (ex_length _ _ X). unfold p. lia.
Qed.

(** The root of the subtree is marked, and nothing above it is. *)
Lemma extract_root rows item todo e :
  items = rows ++ item :: todo → extracted rows e → length rows = k →
  moved_parent true (included e) item = -1.
Proof.
  intros E X K.
  assert (items !! length rows = Some item) as At by (rewrite E; by apply list_lookup_middle).
  unfold moved_parent. destruct (Z.leb_spec 0 (parent_index item)); [|done].
  rewrite bool_decide_eq_false_2; [done|]. intros Hc.
  apply (ex_belongs _ _ X) in Hc. apply proj1 in Hc. pose proof (belongs_after _ (Hc eq_refl)).
  pose proof (first _ _ At). lia.
Qed.

Lemma extract_row_extracted rows item todo e :
  items = rows ++ item :: todo → extracted rows e → -1 <= parent_index item →
  ∃ e', extract_row k item e = Some e' ∧ extracted (rows ++ [item]) e'.
Proof.
  intros E X Lo.
  assert (items !! length rows = Some item) as At by (rewrite E; by apply list_lookup_middle).
  assert (parents_first (rows ++ [item])) as P.
  { intros j x J. apply (first j). rewrite E, cons_middle, (assoc_L (++)). by apply lookup_app_l_Some. }
  pose proof (belongs_row _ _ At) as BR.
  unfold extract_row, PLAYER_SNAPSHOT_NO_PARENT. rewrite (ex_length _ _ X).
  destruct (Nat.eqb_spec (length rows) k) as [K|K]; cbn [orb negb].
  { rewrite andb_false_r. cbn [negb]. eexists. split; [done|].
    eapply (extracted_snoc rows item e true); cbn; [done|done|by rewrite BR; naive_solver|done| |by rewrite app_nil_r|done|done].
    by rewrite (extract_root rows item todo e). }
  destruct (extract_mark rows item todo e E X Lo) as [(c & Hp & Hc)|Hp].
  - rewrite (proj2 (Z.eqb_neq _ _)) by lia. cbn [negb andb]. rewrite Hc. cbn [default from_option id].
    pose proof (ex_belongs _ _ X _ _ Hc) as Bc.
    assert (c = true ↔ belongs items k (length rows)) as M.
    { rewrite Bc, BR. split; [intros H; right; exists (Z.to_nat (parent_index item)); split; [lia|done]|].
      intros [?|(p & Hp' & H)]; [done|]. by rewrite Hp', Nat2Z.id. }
    assert (∀ want, c = want → moved_parent want (included e) item
      = Z.of_nat (rank want (included e) (Z.to_nat (parent_index item)))) as MP.
    { intros want <-. unfold moved_parent. rewrite (proj2 (Z.leb_le _ _)) by done.
      by rewrite bool_decide_eq_true_2. }
    pose proof (ex_selected_positions _ _ X _ _ Hc) as SP.
    pose proof (ex_remaining_positions _ _ X _ _ Hc) as RP.
    destruct c; rewrite ?SP, ?RP; cbn [from_option id default].
    + rewrite (proj2 (Z.eqb_neq _ _)) by lia. cbn [negb andb]. eexists. split; [done|].
      eapply (extracted_snoc rows item e true); cbn; [done|done|done|done| |by rewrite app_nil_r|done|done].
      by rewrite MP.
    + rewrite (proj2 (Z.eqb_neq _ _)) by lia. cbn [negb andb]. eexists. split; [done|].
      eapply (extracted_snoc rows item e false); cbn; [done|done|done|done|by rewrite app_nil_r| |done|done].
      by rewrite MP.
  - rewrite Hp. cbn. eexists. split; [done|].
    eapply (extracted_snoc rows item e false); cbn; [done|done| |done|by rewrite app_nil_r| |done|done].
    + rewrite BR. split; [done|]. intros [?|(p & Hp' & _)]; [done|lia].
    + unfold moved_parent. by rewrite Hp.
Qed.

Lemma extract_rows_extracted rows todo e :
  items = rows ++ todo → extracted rows e → Forall (λ i, -1 <= parent_index i) todo →
  ∃ e', extract_rows k todo e = Some e' ∧ extracted items e'.
Proof.
  revert rows e. induction todo as [|item todo IH]; intros rows e E X F; simpl.
  - rewrite app_nil_r in E. subst rows. eauto.
  - inversion F as [|? ? Lo F']; subst. destruct (extract_row_extracted rows item todo e) as (e1 & -> & X1); [done..|].
    simpl. apply (IH (rows ++ [item])); [by rewrite <- (assoc_L (++))|done..].
Qed.
End Extract.

(** ** Lemmas: subtrees *)

Lemma find_row_Some uid items k :
  find_row uid items = Some k → ∃ item, items !! k = Some item ∧ object_uid item = uid.
Proof.
  revert k. induction items as [|item items IH]; intros k H; simpl in H; [done|].
  destruct (Z.eqb_spec (object_uid item) uid); [simplify_eq; by exists item|].
  destruct (find_row uid items) as [j|]; simplify_eq/=. by apply IH.
Qed.

Lemma find_row_None uid items :
  find_row uid items = None ↔ Forall (λ item, object_uid item ≠ uid) items.
Proof.
  induction items as [|item items IH]; simpl; [by split|].
  destruct (Z.eqb_spec (object_uid item) uid) as [E|E].
  - split; [done|]. by inversion 1.
  - rewrite Forall_cons, <- IH. destruct (find_row uid items); naive_solver.
Qed.

Lemma depths_parents items ds :
  depths_of [] items = Some ds → Forall (λ i, -1 <= parent_index i) items.
Proof.
  revert ds. induction items as [|item items IH] using rev_ind; intros ds H; [done|].
  apply depths_of_snoc in H as (ds0 & n & H & R & _). apply Forall_app_2; [by eapply IH|].
  apply Forall_singleton. apply row_depth_spec in R as [[-> _]|(p & _ & -> & _)]; lia.
Qed.

(** The marks of a subtree. *)
Definition subtree_marks (items : list player_item_snapshot) (k : nat) (keep : list bool) : Prop :=
  length keep = length items
  ∧ ∀ j b, keep !! j = Some b → b = true ↔ belongs items k j.

Lemma extract_subtree_Ok items uid k :
  nz uid = true → valid_item_relationships items = true → find_row uid items = Some k →
  ∃ keep, subtree_marks items k keep
    ∧ player_item_snapshot_extract_subtree items uid
      = Ok (restrict true keep items, restrict false keep items).
Proof.
  intros N V F. unfold player_item_snapshot_extract_subtree. rewrite N, V, F. cbn [andb negb].
  apply valid_depths in V as [ds D].
  destruct (extract_rows_extracted items k (depths_parents_first _ _ D) [] items
    (Extraction [] [] [] [] [])) as (e & -> & X);
    [done|apply extracted_start|by eapply depths_parents|].
  exists (included e). split; [split; [apply X|apply X]|].
  by rewrite (ex_selected _ _ _ _ X), (ex_remaining _ _ _ _ X).
Qed.

Lemma extract_subtree_cases items uid :
  player_item_snapshot_extract_subtree items uid = Err invalid_value
    ∧ (uid = 0 ∨ valid_item_relationships items = false
       ∨ Forall (λ item, object_uid item ≠ uid) items)
  ∨ ∃ k keep, uid ≠ 0 ∧ valid_item_relationships items = true ∧ find_row uid items = Some k
      ∧ subtree_marks items k keep
      ∧ player_item_snapshot_extract_subtree items uid
        = Ok (restrict true keep items, restrict false keep items).
Proof.
  destruct (nz uid) eqn:N; destruct (valid_item_relationships items) eqn:V.
  2-4: left; unfold player_item_snapshot_extract_subtree; rewrite N, V; unfold nz in N;
    (split; [done|]); destruct (Z.eqb_spec uid 0); naive_solver.
  destruct (find_row uid items) as [k|] eqn:F.
  - right. destruct (extract_subtree_Ok items uid k N V F) as (keep & M & E).
    exists k, keep. unfold nz in N. split_and!; [|done..]. by intros ->.
  - left. split; [|right; right; by apply find_row_None].
    unfold player_item_snapshot_extract_subtree. by rewrite N, V, F.
Qed.

(** A row without its parent. *)
Definition alone : player_item_snapshot → player_item_snapshot := with_parent PLAYER_SNAPSHOT_NO_PARENT.

Lemma alone_with_parent p i : alone (with_parent p i) = alone i.
Proof. done. Qed.

Lemma restrict_permutation keep items :
  length keep = length items →
  map alone (restrict true keep items) ++ map alone (restrict false keep items) ≡ₚ map alone items.
Proof.
  unfold restrict. generalize (moved_parent true keep), (moved_parent false keep). intros f g.
  revert items. induction keep as [|b keep IH]; intros [|item items] L; simplify_eq/=; [done|].
  destruct b; simpl; rewrite !alone_with_parent, <- (IH items L); [done|].
  by rewrite <- Permutation_middle.
Qed.

(** ** Lemmas: forests *)

Definition shifted (n : Z) (item : player_item_snapshot) : player_item_snapshot :=
  if parent_index item =? PLAYER_SNAPSHOT_NO_PARENT then item
  else with_parent (parent_index item + n) item.

Lemma row_depth_shifted ds0 ds item n :
  row_depth ds item = Some n →
  row_depth (ds0 ++ ds) (shifted (Z.of_nat (length ds0)) item) = Some n.
Proof.
  intros R. unfold shifted, PLAYER_SNAPSHOT_NO_PARENT.
  apply row_depth_spec in R as [[P ->]|(p & d & P & D & -> & L)].
  - rewrite P. cbn. by apply row_depth_root.
  - rewrite (proj2 (Z.eqb_neq _ _)) by lia. apply (row_depth_below _ _ (length ds0 + p)); [|by rewrite lookup_app_r, Nat.add_comm, Nat.add_sub by lia|done].
    cbn [parent_index with_parent]. lia.
Qed.

Lemma depths_of_shifted items ds0 ds ds' :
  depths_of ds items = Some ds' →
  depths_of (ds0 ++ ds) (map (shifted (Z.of_nat (length ds0))) items) = Some (ds0 ++ ds').
Proof.
  revert ds. induction items as [|item items IH]; intros ds H; simpl in *; [by simplify_eq|].
  destruct (row_depth ds item) as [n|] eqn:R; [|done]. simpl in H.
  rewrite (row_depth_shifted _ _ _ _ R). simpl. rewrite <- (assoc_L (++)). by apply IH.
Qed.

Lemma valid_append l1 l2 :
  valid_item_relationships l1 = true → valid_item_relationships l2 = true →
  valid_item_relationships (l1 ++ map (shifted (vsize l1)) l2) = true.
Proof.
  rewrite !valid_depths. intros [ds1 D1] [ds2 D2]. exists (ds1 ++ ds2).
  rewrite depths_of_app, D1. simpl. pose proof (depths_of_length _ _ _ D1) as L. simpl in L.
  unfold vsize. rewrite <- L. rewrite <- (app_nil_r ds1) at 1. by apply depths_of_shifted.
Qed.

Lemma alone_shifted n l : map alone (map (shifted n) l) = map alone l.
Proof.
  rewrite map_map. apply map_ext. intros i. unfold shifted. destruct (Z.eqb_spec (parent_index i) PLAYER_SNAPSHOT_NO_PARENT); done.
Qed.

Lemma extract_subtree_sound items uid sel rem :
  player_item_snapshot_extract_subtree items uid = Ok (sel, rem) →
  valid_item_relationships sel = true ∧ valid_item_relationships rem = true
  ∧ map alone sel ++ map alone rem ≡ₚ map alone items.
Proof.
  intros E. destruct (extract_subtree_cases items uid) as [[H _]|(k & keep & _ & V & _ & [L _] & H)];
    rewrite H in E; simplify_eq.
  split_and!; [by apply restrict_valid..|by apply restrict_permutation].
Qed.

Lemma extract_trees_sound roots selected items sel rem :
  valid_item_relationships selected = true → valid_item_relationships items = true →
  extract_trees roots selected items = Ok (sel, rem) →
  valid_item_relationships sel = true ∧ valid_item_relationships rem = true
  ∧ map alone sel ++ map alone rem ≡ₚ map alone selected ++ map alone items.
Proof.
  revert selected items. induction roots as [|root roots IH]; intros selected items Vs Vi H;
    cbn [extract_trees] in H; [by simplify_eq|].
  destruct (player_item_snapshot_extract_subtree items root) as [[tree rest]|] eqn:E; [|done].
  destruct (extract_subtree_sound _ _ _ _ E) as (Vt & Vr & P).
  destruct (IH (selected ++ map (shifted (vsize selected)) tree) rest) as (V1 & V2 & P');
    [by apply valid_append|done|exact H|].
  split_and!; [done|done|]. rewrite P', map_app, alone_shifted, <- (assoc_L (++)). by rewrite P.
Qed.

(** ** Lemmas: lists of items *)

Lemma encode_items_written items bs :
  player_item_snapshot_list_encode items = Ok bs →
  vector_sized (sized := item_sized) items = true ∧ bs = vector_bytes (bytes_of := item_bytes) items.
Proof.
  unfold player_item_snapshot_list_encode. intros H.
  destruct (valid_item_relationships items); [|done]. cbn [negb] in H.
  destruct (wire_put (put := Out.vector put_item) items (Encoder [] true)) as [V W].
  change (Out.vector put_item) with encode_items in *.
  destruct (within_limits (encode_items items (Encoder [] true))); [|done].
  destruct (_ && _); [|done]. cbn [negb] in H.
  destruct (player_item_snapshot_list_decode _); [|done]. injection H as <-.
  split; [done|]. by apply W.
Qed.

Lemma list_decode_Ok bs items :
  player_item_snapshot_list_decode bs = Ok items →
  Forall item_typed items ∧ valid_item_relationships items = true
  ∧ vector_sized (sized := item_sized) items = true
  ∧ bs = vector_bytes (bytes_of := item_bytes) items
  ∧ 0 < vsize bs <= PLAYER_SNAPSHOT_MAX_BYTES.
Proof.
  unfold player_item_snapshot_list_decode. intros H.
  destruct (Nat.eqb_spec (length bs) 0); [done|]. cbn [negb] in H.
  destruct (Z.leb_spec (vsize bs) PLAYER_SNAPSHOT_MAX_BYTES); [|done]. cbn [negb] in H.
  destruct (decode_items bs (Decoder 0 0 0)) as [[xs d]|] eqn:E; [|done].
  destruct (Nat.eqb_spec (offset d) (length bs)) as [O|]; [|done].
  destruct (valid_item_relationships xs) eqn:V; [|done]. injection H as ->.
  unfold decode_items in E. destruct (wire_sound _ _ _ _ [] E) as (T & S & C); [split; [simpl; lia|done]|].
  split_and!; [done|done|done| |unfold vsize in *; lia|done].
  rewrite O in C. by apply consumed_all in C.
Qed.

(** The encoding of a list decodes to it. *)
Lemma list_encode_decode items bs :
  Forall item_typed items → player_item_snapshot_list_encode items = Ok bs →
  player_item_snapshot_list_decode bs = Ok items.
Proof.
  intros T H. destruct (encode_items_written _ _ H) as [S B].
  assert (player_item_snapshot_list_decode bs = Ok items
    ∨ ∃ e, player_item_snapshot_list_decode bs = Err e) as [D|[e D]]; [|done|].
  - destruct (player_item_snapshot_list_decode bs) as [xs|e] eqn:D; [left|right; by exists e].
    apply list_decode_Ok in D as D'. destruct D' as (_ & _ & _ & _ & _). f_equal.
    unfold player_item_snapshot_list_decode in D.
    destruct (length bs =? 0)%nat; [done|]. destruct (_ <=? _); [|done]. cbn [negb] in D.
    destruct (decode_items bs (Decoder 0 0 0)) as [[ys d]|] eqn:E; [|done].
    destruct (_ && _); [|done]. injection D as ->. unfold decode_items in E.
    destruct (wire_next _ _ items [] _ _ E) as [X _]; [|done|done|done].
    rewrite app_nil_r, <- B. apply at_offset_start.
  - exfalso. unfold player_item_snapshot_list_encode in H.
    destruct (valid_item_relationships items); [|done]. cbn [negb] in H.
    destruct (_ && _); [|done]. cbn [negb] in H.
    destruct (player_item_snapshot_list_decode (written _)) eqn:E; [|done]. injection H as <-. congruence.
Qed.

(** ** Theorems *)

(** On lists of typed items the encoder and the decoder are inverse to each other:
    a list has the encoding [bs] exactly when [bs] decodes to it.  So nothing decodes
    that the encoder would not have written, and nothing it writes is misread. *)
Theorem item_list_codec items bs :
  Forall item_typed items →
  player_item_snapshot_list_encode items = Ok bs ↔ player_item_snapshot_list_decode bs = Ok items.
Proof.
  intros T. split; [by apply list_encode_decode|]. intros D.
  destruct (list_decode_Ok _ _ D) as (_ & V & S & B & _ & L).
  unfold player_item_snapshot_list_encode. rewrite V. cbn [negb].
  destruct (wire_put (put := Out.vector put_item) items (Encoder [] true)) as [W1 W2].
  change (Out.vector put_item) with encode_items in *. rewrite W1, S. cbn [andb within_limits].
  rewrite W2 by by rewrite W1. cbn [written app]. rewrite <- B.
  rewrite (proj2 (Z.leb_le _ _)) by done. cbn [negb]. by rewrite D.
Qed.

(** Whatever bytes the decoder accepts, the items it returns have values of the
    declared types, are at most 8192, and each item lies in an earlier one, at most 32
    deep, or in none; the strings of an item are at most 16384 bytes. *)
Theorem item_list_decode_sound bs items :
  player_item_snapshot_list_decode bs = Ok items →
  Forall item_typed items ∧ valid_item_relationships items = true
  ∧ vsize items <= PLAYER_SNAPSHOT_MAX_ROWS ∧ forallb item_sized items = true
  ∧ ∃ depths, length depths = length items ∧ ∀ j item, items !! j = Some item →
      ∃ n, depths !! j = Some n ∧ (n <= 32)%nat
        ∧ (parent_index item = -1 ∧ n = 1%nat
           ∨ ∃ p d, parent_index item = Z.of_nat p ∧ (p < j)%nat ∧ depths !! p = Some d
                    ∧ n = S d).
Proof.
  intros D. destruct (list_decode_Ok _ _ D) as (T & V & S & _ & _).
  unfold vector_sized in S. apply andb_prop in S as [L S]. apply Z.leb_le in L.
  split_and!; [done..|]. apply valid_depths in V as [ds V].
  exists ds. split; [by apply depths_of_length in V|]. by eapply depths_of_rows.
Qed.

(** C23: Taking the subtree of an object fails exactly when the identifier is zero, the
    rows are not well formed or no row has it; else it splits the rows into those of the
    first row with the identifier and everything in it, and the rest, each part in the
    order of the rows and with each row below the row it was below, if that is in the
    same part.  No step of the loop fails. *)
Theorem item_subtree_spec items uid :
  match player_item_snapshot_extract_subtree items uid with
  | Ok (selected, remaining) =>
      ∃ k keep, uid ≠ 0 ∧ valid_item_relationships items = true ∧ find_row uid items = Some k
        ∧ length keep = length items
        ∧ (∀ j b, keep !! j = Some b → b = true ↔ belongs items k j)
        ∧ selected = restrict true keep items ∧ remaining = restrict false keep items
  | Err e =>
      e = invalid_value
      ∧ (uid = 0 ∨ valid_item_relationships items = false
         ∨ Forall (λ item, object_uid item ≠ uid) items)
  end.
Proof.
  destruct (extract_subtree_cases items uid) as [[-> H]|(k & keep & N & V & F & [L B] & ->)];
    [done|]. by exists k, keep.
Qed.

(** Taking several trees loses, adds and changes no object except for its parent,
    and both parts are well formed. *)
Theorem item_forest_partition items roots selected remaining :
  player_item_snapshot_extract_forest items roots = Ok (selected, remaining) →
  valid_item_relationships selected = true ∧ valid_item_relationships remaining = true
  ∧ map alone selected ++ map alone remaining ≡ₚ map alone items.
Proof.
  unfold player_item_snapshot_extract_forest. intros H.
  destruct (_ && _ && _) eqn:G; [|done]. cbn [negb] in H. destruct roots as [|root roots]; [done|].
  apply (extract_trees_sound (root :: roots) []); [done| |done].
  cbn [extract_trees] in H. destruct (extract_subtree_cases items root) as [[E _]|(? & ? & _ & V & _)]; [|done].
  by rewrite E in H.
Qed.

(** ** Witnesses *)

Definition sample_row (uid parent : Z) : player_item_snapshot :=
  ItemSnapshot parent 0 uid 0 100 1 0 [Byte.x61; Byte.x62] [] [] []
    (replicate 8 (-5)) (replicate 6 0) 1 0 0 0 0 7 0 0 0 0 (replicate 5 0)
    (replicate 4 (2, -1)) [DynamicAffect 1 (-2) 3] [ExtraDescription [Byte.x63] [] true [4; -4]].

Definition sample_rows : list player_item_snapshot :=
  [sample_row 10 (-1); sample_row 11 (-1); sample_row 12 1; sample_row 13 0; sample_row 14 2].

Definition sample_list_bytes : list byte := Eval vm_compute in
  match player_item_snapshot_list_encode sample_rows with Ok bs => bs | Err _ => [] end.

Lemma sample_rows_typed : Forall item_typed sample_rows.
Proof.
  repeat constructor; cbn; unfold fits, sfits; try lia.
Qed.

Lemma item_list_codec_witness :
  player_item_snapshot_list_decode sample_list_bytes = Ok sample_rows.
Proof.
  apply (item_list_codec sample_rows); [exact sample_rows_typed|by vm_compute].
Defined.

Lemma item_list_decode_sound_witness :
  vsize sample_rows <= PLAYER_SNAPSHOT_MAX_ROWS.
Proof.
  apply (item_list_decode_sound sample_list_bytes sample_rows). by vm_compute.
Defined.

Example item_subtree_sample :
  player_item_snapshot_extract_subtree sample_rows 11
  = Ok ([sample_row 11 (-1); sample_row 12 0; sample_row 14 1],
        [sample_row 10 (-1); sample_row 13 0]).
Proof. by vm_compute. Qed.

Lemma item_forest_partition_witness :
  map alone [sample_row 12 (-1); sample_row 14 0; sample_row 13 (-1)]
    ++ map alone [sample_row 10 (-1); sample_row 11 (-1)] ≡ₚ map alone sample_rows.
Proof.
  apply (item_forest_partition sample_rows [12; 13]
    [sample_row 12 (-1); sample_row 14 0; sample_row 13 (-1)]
    [sample_row 10 (-1); sample_row 11 (-1)]). by vm_compute.
Defined.
