(* ===== verification/PlayerCodec.v ===== *)
(** * Player snapshots

    Models the records of [player/player_snapshot.h] and the codec of a whole character
    in [player/player_snapshot_codec.c]: what a save writes and a load reads back, in
    the eight versions of the format, with the evidence of a death.

    An [enum class] field is the number it is written as.  Allocation failure is not
    modelled. *)

From stdpp Require Import gmap.
From S2P Require Import Prelude RevisionState Snapshot Wire SnapshotCodec.

(** [RENT_DEATH] of [core/files.h]; [PC_CORPSE] of [core/structs.h]; [VOBJ_CORPSE] and
    [VOBJ_COINS] of [world/vnum.obj.h]; [CORPSE_FLAGS], [CORPSE_PID] and [CORPSE_SAVEID]
    of [classes/necromancy.h]. *)
Definition RENT_DEATH : Z := 4.
Definition PC_CORPSE : Z := 1.
Definition VOBJ_CORPSE : Z := 2.
Definition VOBJ_COINS : Z := 3.
Definition CORPSE_FLAGS : nat := 1.
Definition CORPSE_PID : nat := 3.
Definition CORPSE_SAVEID : nat := 6.

Definition PET_RESTORE_STATE_MAX_BYTES : Z := 32768.
Definition OUTPUT_PREFERENCE_MAX_BYTES : Z := 512.
(** The last enumerators of [player_status_field] and [player_status_string_field], and
    [pet_hold_reason::none]. *)
Definition last_ip : Z := 62.
Definition poof_out : Z := 6.
Definition hold_none : Z := 0.

(** ** Data *)

Record player_snapshot_integer := SnapshotInteger {
  integer_field : Z;
  signed_value : Z;
  unsigned_value : Z;
  is_unsigned : bool;
}.

Record player_snapshot_string := SnapshotString { string_field : Z; string_value : list byte }.

Record player_index_value_snapshot := IndexValue {
  row_index : Z;
  row_value : Z;
  auxiliary : Z;
}.

Record player_skill_snapshot := SkillSnapshot { skill_id : Z; learned : Z; taught : Z }.

Record player_affect_snapshot := AffectSnapshot {
  spell_type : Z;
  duration : Z;
  affect_flags : Z;
  modifier : Z;
  location : Z;
  affect_level : Z;
  affect_bitvectors : list Z;
  wear_off_character : list byte;
  wear_off_room : list byte;
}.

Record player_pet_snapshot := PetSnapshot {
  pet_uid : Z;
  pet_vnum : Z;
  order : Z;
  hit : Z;
  max_hit : Z;
  mana : Z;
  max_mana : Z;
  vitality : Z;
  max_vitality : Z;
  charm_duration : Z;
  pet_room_vnum : Z;
  pet_items : list player_item_snapshot;
  restore_state : list byte;
  hold_reason : Z;
}.

Record player_shape_snapshot := ShapeSnapshot {
  shape_vnum : Z;
  times_researched : Z;
  last_researched : Z;
  last_shapechanged : Z;
}.

Record player_trophy_snapshot := TrophySnapshot { zone_number : Z; trophy_experience : Z }.

Record player_death_custody_snapshot := DeathCustody {
  custody_item : item_transfer_entry;
  custody_owner : item_owner_identity;
  owner_revision : Z;
}.

Record player_death_snapshot := DeathSnapshot {
  death_operation_id : list byte;
  corpse_room_vnum : Z;
  wallet_revision : Z;
  wallet_before : list Z;
  wallet_pile_uid : Z;
  corpse : list player_item_snapshot;
  custody : list player_death_custody_snapshot;
  unresolved_operations : list (list byte);
}.

Record player_snapshot := PlayerSnapshot {
  schema_version : Z;
  snapshot_pid : Z;
  snapshot_revision : Z;
  snapshot_components : Z;
  save_intent : Z;
  room_vnum : Z;
  encoded_size_bound : Z;
  status_integers : list player_snapshot_integer;
  status_strings : list player_snapshot_string;
  conditions : list Z;
  quest_values : list Z;
  languages : list player_index_value_snapshot;
  introductions : list player_index_value_snapshot;
  player_timers : list player_index_value_snapshot;
  undead_slots : list player_index_value_snapshot;
  forged_items : list player_index_value_snapshot;
  granted_commands : list Z;
  skills : list player_skill_snapshot;
  player_affects : list player_affect_snapshot;
  items : list player_item_snapshot;
  pets : list player_pet_snapshot;
  shapes : list player_shape_snapshot;
  trophies : list player_trophy_snapshot;
  recipes_are_external : bool;
  output_preferences : list byte;
  death : option player_death_snapshot;
}.

(** ** Rows *)

Definition put_byte (b : byte) : encoder → encoder := Out.number 1 (of_byte b).
Definition get_byte : reader byte := λ data d,
  let* (b, d) := In.number 1 data d in Ok (to_byte b, d).

Definition put_status_integer (r : player_snapshot_integer) (out : encoder) : encoder :=
  let out := Out.number 2 (integer_field r) out in
  let out := Out.number 8 (signed_value r) out in
  let out := Out.number 8 (unsigned_value r) out in
  Out.boolean (is_unsigned r) out.

Definition get_status_integer : reader player_snapshot_integer := λ data d,
  let* (field, d) := In.number 2 data d in
  ensure field <=? last_ip else invalid_value in
  let* (signed_value, d) := In.signed 8 data d in
  let* (unsigned_value, d) := In.number 8 data d in
  let* (is_unsigned, d) := In.boolean data d in
  Ok (SnapshotInteger field signed_value unsigned_value is_unsigned, d).

Definition put_status_string (r : player_snapshot_string) (out : encoder) : encoder :=
  put_text (string_value r) (Out.number 1 (string_field r) out).

Definition get_status_string : reader player_snapshot_string := λ data d,
  let* (field, d) := In.number 1 data d in
  ensure field <=? poof_out else invalid_value in
  let* (value, d) := get_text data d in
  Ok (SnapshotString field value, d).

Definition put_index_row (r : player_index_value_snapshot) (out : encoder) : encoder :=
  Out.number 8 (auxiliary r) (Out.number 8 (row_value r) (Out.number 4 (row_index r) out)).

Definition get_index_row : reader player_index_value_snapshot := λ data d,
  let* (index, d) := In.signed 4 data d in
  let* (value, d) := In.signed 8 data d in
  let* (auxiliary, d) := In.number 8 data d in
  Ok (IndexValue index value auxiliary, d).

Definition encode_index_rows : list player_index_value_snapshot → encoder → encoder :=
  Out.vector put_index_row.
Definition decode_index_rows : reader (list player_index_value_snapshot) :=
  In.vector get_index_row false.

Definition put_skill (r : player_skill_snapshot) (out : encoder) : encoder :=
  Out.number 1 (taught r) (Out.number 1 (learned r) (Out.number 4 (skill_id r) out)).

Definition get_skill : reader player_skill_snapshot := λ data d,
  let* (skill_id, d) := In.signed 4 data d in
  let* (learned, d) := In.number 1 data d in
  let* (taught, d) := In.number 1 data d in
  Ok (SkillSnapshot skill_id learned taught, d).

Definition put_player_affect (r : player_affect_snapshot) (out : encoder) : encoder :=
  let out := Out.number 2 (spell_type r) out in
  let out := Out.number 4 (duration r) out in
  let out := Out.number 4 (affect_flags r) out in
  let out := Out.number 4 (modifier r) out in
  let out := Out.number 1 (location r) out in
  let out := Out.number 2 (affect_level r) out in
  let out := Out.array (Out.number 8) (affect_bitvectors r) out in
  let out := put_text (wear_off_character r) out in
  put_text (wear_off_room r) out.

Definition get_player_affect : reader player_affect_snapshot := λ data d,
  let* (type, d) := In.signed 2 data d in
  let* (duration, d) := In.signed 4 data d in
  let* (flags, d) := In.number 4 data d in
  let* (modifier, d) := In.signed 4 data d in
  let* (location, d) := In.number 1 data d in
  let* (level, d) := In.number 2 data d in
  let* (bitvectors, d) := In.array (In.number 8) 5 data d in
  let* (wear_off_character, d) := get_text data d in
  let* (wear_off_room, d) := get_text data d in
  Ok (AffectSnapshot type duration flags modifier location level bitvectors
        wear_off_character wear_off_room, d).

Definition put_pet_state : list byte → encoder → encoder := Out.string PET_RESTORE_STATE_MAX_BYTES.
Definition get_pet_state : reader (list byte) := In.string PET_RESTORE_STATE_MAX_BYTES.

Definition put_pet (r : player_pet_snapshot) (out : encoder) : encoder :=
  let out := Out.number 8 (pet_uid r) out in
  let out := Out.number 4 (pet_vnum r) out in
  let out := Out.number 4 (order r) out in
  let out := Out.number 4 (hit r) out in
  let out := Out.number 4 (max_hit r) out in
  let out := Out.number 4 (mana r) out in
  let out := Out.number 4 (max_mana r) out in
  let out := Out.number 4 (vitality r) out in
  let out := Out.number 4 (max_vitality r) out in
  let out := Out.number 4 (charm_duration r) out in
  let out := Out.number 4 (pet_room_vnum r) out in
  let out := encode_items (pet_items r) out in
  let out := put_pet_state (restore_state r) out in
  Out.number 4 (hold_reason r) out.

(** Identifiers came with version 7, the restore state with version 3. *)
Definition get_pet (wire_version : Z) : reader player_pet_snapshot := λ data d,
  let* (pet_uid, d) := (if 7 <=? wire_version then In.number 8 data d else Ok (0, d)) in
  let* (vnum, d) := In.signed 4 data d in
  let* (order, d) := In.signed 4 data d in
  let* (hit, d) := In.signed 4 data d in
  let* (max_hit, d) := In.signed 4 data d in
  let* (mana, d) := In.signed 4 data d in
  let* (max_mana, d) := In.signed 4 data d in
  let* (vitality, d) := In.signed 4 data d in
  let* (max_vitality, d) := In.signed 4 data d in
  let* (charm_duration, d) := In.signed 4 data d in
  let* (room_vnum, d) := In.signed 4 data d in
  let* (items, d) := decode_items data d in
  if wire_version <? 3 then
    Ok (PetSnapshot pet_uid vnum order hit max_hit mana max_mana vitality max_vitality
          charm_duration room_vnum items [] hold_none, d)
  else
    let* (restore_state, d) := get_pet_state data d in
    let* (reason, d) := In.number 4 data d in
    Ok (PetSnapshot pet_uid vnum order hit max_hit mana max_mana vitality max_vitality
          charm_duration room_vnum items restore_state reason, d).

Definition put_shape (r : player_shape_snapshot) (out : encoder) : encoder :=
  let out := Out.number 4 (shape_vnum r) out in
  let out := Out.number 4 (times_researched r) out in
  let out := Out.number 8 (last_researched r) out in
  Out.number 8 (last_shapechanged r) out.

Definition get_shape : reader player_shape_snapshot := λ data d,
  let* (vnum, d) := In.signed 4 data d in
  let* (times, d) := In.signed 4 data d in
  let* (researched, d) := In.signed 8 data d in
  let* (shapechanged, d) := In.signed 8 data d in
  Ok (ShapeSnapshot vnum times researched shapechanged, d).

Definition put_trophy (r : player_trophy_snapshot) (out : encoder) : encoder :=
  Out.number 4 (trophy_experience r) (Out.number 4 (zone_number r) out).

Definition get_trophy : reader player_trophy_snapshot := λ data d,
  let* (zone_number, d) := In.signed 4 data d in
  let* (experience, d) := In.signed 4 data d in
  Ok (TrophySnapshot zone_number experience, d).

(** ** The evidence of a death *)

Definition put_custody (r : player_death_custody_snapshot) (out : encoder) : encoder :=
  let out := Out.number 8 (item_uid (custody_item r)) out in
  let out := Out.number 8 (root_item_uid (custody_item r)) out in
  let out := Out.number 8 (parent_item_uid (custody_item r)) out in
  let out := Out.number 8 (expected_item_revision (custody_item r)) out in
  let out := Out.number 4 (entry_vnum (custody_item r)) out in
  let out := Out.number 1 (expected_state (custody_item r)) out in
  let out := Out.number 1 (owner_type (custody_owner r)) out in
  let out := Out.number 8 (owner_id (custody_owner r)) out in
  let out := Out.number 8 (context_id (custody_owner r)) out in
  Out.number 8 (owner_revision r) out.

Definition get_custody : reader player_death_custody_snapshot := λ data d,
  let* (item_uid, d) := In.number 8 data d in
  let* (root_item_uid, d) := In.number 8 data d in
  let* (parent_item_uid, d) := In.number 8 data d in
  let* (expected_item_revision, d) := In.number 8 data d in
  let* (vnum, d) := In.signed 4 data d in
  let* (state, d) := In.number 1 data d in
  let* (owner, d) := In.number 1 data d in
  let* (id, d) := In.number 8 data d in
  let* (context_id, d) := In.number 8 data d in
  let* (owner_revision, d) := In.number 8 data d in
  Ok (DeathCustody
        (TransferEntry item_uid root_item_uid parent_item_uid expected_item_revision vnum state)
        (OwnerIdentity owner id context_id) owner_revision, d).

Definition put_operation : list byte → encoder → encoder := Out.array put_byte.
Definition get_operation : reader (list byte) := In.array get_byte 16.

Definition encode_death (e : player_death_snapshot) (out : encoder) : encoder :=
  let out := put_operation (death_operation_id e) out in
  let out := Out.number 4 (corpse_room_vnum e) out in
  let out := Out.number 8 (wallet_revision e) out in
  let out := Out.array (Out.number 4) (wallet_before e) out in
  let out := Out.number 8 (wallet_pile_uid e) out in
  let out := encode_items (corpse e) out in
  let out := Out.vector put_custody (custody e) out in
  Out.vector put_operation (unresolved_operations e) out.

Definition decode_death : reader player_death_snapshot := λ data d,
  let* (operation_id, d) := get_operation data d in
  let* (corpse_room_vnum, d) := In.signed 4 data d in
  let* (wallet_revision, d) := In.number 8 data d in
  let* (wallet_before, d) := In.array (In.signed 4) 4 data d in
  let* (wallet_pile_uid, d) := In.number 8 data d in
  let* (corpse, d) := decode_items data d in
  let* (custody, d) := In.vector get_custody false data d in
  let* (unresolved_operations, d) := In.vector get_operation false data d in
  Ok (DeathSnapshot operation_id corpse_room_vnum wallet_revision wallet_before
        wallet_pile_uid corpse custody unresolved_operations, d).

(** ** Validation *)

Definition valid_metadata (s : player_snapshot) : bool :=
  ((schema_version s =? PLAYER_SNAPSHOT_SCHEMA_VERSION)
   || (schema_version s =? PLAYER_SNAPSHOT_DEATH_SCHEMA_VERSION))
  && (0 <? snapshot_pid s) && nz (snapshot_revision s) && nz (snapshot_components s)
  && negb (nz (Z.land (snapshot_components s) (Z.lnot PLAYER_CHECKPOINT_COMPONENT_ALL)))
  && nz (encoded_size_bound s) && (encoded_size_bound s <=? PLAYER_SNAPSHOT_MAX_BYTES).

Definition nonzero_operation (id : list byte) : bool := existsb (λ b, nz (of_byte b)) id.

(** [item.values[index]] of an array of eight. *)
Definition value_at (index : nat) (item : player_item_snapshot) : Z :=
  default 0 (values item !! index).

Definition is_player_corpse (pid : Z) (item : player_item_snapshot) : bool :=
  (vnum item =? VOBJ_CORPSE) && (item_type item =? ITEM_CORPSE)
  && (value_at CORPSE_PID item =? pid) && (0 <? value_at CORPSE_SAVEID item)
  && nz (Z.land (value_at CORPSE_FLAGS item) PC_CORPSE).

(** The pile made of the wallet holds its coins and lies in the corpse itself. *)
Definition is_wallet_pile (e : player_death_snapshot) (item : player_item_snapshot) : bool :=
  (vnum item =? VOBJ_COINS) && (item_type item =? ITEM_MONEY) && (parent_index item =? 0)
  && forallb (λ '(denomination, amount), value_at denomination item =? amount)
       (imap pair (wallet_before e)).

(** The loop over the rows of the corpse; the result is [captured]. *)
Fixpoint capture_rows (e : player_death_snapshot) (index : nat)
    (l : list player_item_snapshot) (captured : gset Z) : option (gset Z) :=
  match l with
  | [] => Some captured
  | item :: l =>
      ensure? negb (object_uid item =? 0) && bool_decide (object_uid item ∉ captured)
              && negb ((0 <? index)%nat && (parent_index item =? PLAYER_SNAPSHOT_NO_PARENT)) in
      ensure? negb (object_uid item =? wallet_pile_uid e) || is_wallet_pile e item in
      capture_rows e (S index) l ({[object_uid item]} ∪ captured)
  end.

Definition custody_accepted (r : player_death_custody_snapshot) : bool :=
  let item := custody_item r in
  let owner := custody_owner r in
  (0 <? entry_vnum item) && (expected_state item <=? item_custody_state.quarantined)
  && (owner_type owner <=? item_owner_type.pet)
  && if expected_state item =? item_custody_state.absent then
       (expected_item_revision item =? ITEM_TRANSFER_ABSENT_REVISION)
       && (owner_type owner =? item_owner_type.unknown) && negb (nz (owner_id owner))
       && negb (nz (context_id owner)) && negb (nz (owner_revision r))
     else
       nz (expected_item_revision item)
       && negb (expected_item_revision item =? ITEM_TRANSFER_ABSENT_REVISION)
       && nz (root_item_uid item) && negb (owner_type owner =? item_owner_type.unknown).

(** The loop over the custody rows, which takes each from [captured]. *)
Fixpoint observe_rows (l : list player_death_custody_snapshot) (observed captured : gset Z)
  : option (gset Z) :=
  match l with
  | [] => Some captured
  | row :: l =>
      let uid := item_uid (custody_item row) in
      ensure? nz uid && bool_decide (uid ∉ observed) && custody_accepted row in
      observe_rows l ({[uid]} ∪ observed) (captured ∖ {[uid]})
  end.

(** The loop over the unresolved operations. *)
Fixpoint operations_distinct (own : list byte) (ids : list (list byte))
    (operations : gset (list byte)) : bool :=
  match ids with
  | [] => true
  | id :: ids =>
      nonzero_operation id && negb (bool_decide (id = own)) && bool_decide (id ∉ operations)
      && operations_distinct own ids ({[id]} ∪ operations)
  end.

Definition valid_death_evidence (pid : Z) (e : player_death_snapshot) : bool :=
  nonzero_operation (death_operation_id e) && (0 <? corpse_room_vnum e)
  && nz (wallet_revision e)
  && match corpse e with
     | [] => false
     | front :: _ =>
         let has_wallet := existsb nz (wallet_before e) in
         valid_item_relationships (corpse e) && is_player_corpse pid front
         && forallb (λ amount, 0 <=? amount) (wallet_before e)
         && eqb has_wallet (nz (wallet_pile_uid e))
         && match capture_rows e 0 (corpse e) ∅ with
            | None => false
            | Some captured =>
                negb (has_wallet && ((wallet_pile_uid e =? object_uid front)
                                     || negb (bool_decide (wallet_pile_uid e ∈ captured))))
                && match observe_rows (custody e) ∅ (captured ∖ {[object_uid front]}) with
                   | None => false
                   | Some captured =>
                       bool_decide (captured = ∅)
                       && operations_distinct (death_operation_id e) (unresolved_operations e) ∅
                   end
            end
     end.

Definition valid_death (s : player_snapshot) : bool :=
  if schema_version s =? PLAYER_SNAPSHOT_SCHEMA_VERSION
  then match death s with None => true | Some _ => false end
  else
    match death s with
    | None => false
    | Some e =>
        (save_intent s =? RENT_DEATH)
        && (snapshot_components s =? PLAYER_CHECKPOINT_COMPONENT_ALL)
        && match items s with [] => true | _ => false end
        && negb (existsb (λ pet, hold_reason pet =? hold_none) (pets s))
        && valid_death_evidence (snapshot_pid s) e
    end.

(** ** A whole character *)

Definition put_preferences : list byte → encoder → encoder := Out.string OUTPUT_PREFERENCE_MAX_BYTES.
(** Preferences came with version 5. *)
Definition get_preferences (wire_version : Z) : reader (list byte) := λ data d,
  if 5 <=? wire_version then In.string OUTPUT_PREFERENCE_MAX_BYTES data d else Ok ([], d).

(** The evidence of a death is there in its schema. *)
Definition put_death (e : option player_death_snapshot) (out : encoder) : encoder :=
  match e with None => out | Some e => encode_death e out end.
Definition get_death (schema : Z) : reader (option player_death_snapshot) := λ data d,
  if schema =? PLAYER_SNAPSHOT_DEATH_SCHEMA_VERSION
  then let* (e, d) := decode_death data d in Ok (Some e, d)
  else Ok (None, d).

Definition encode_header (s : player_snapshot) (out : encoder) : encoder :=
  let out := Out.number 4 (schema_version s) out in
  let out := Out.number 4 (snapshot_pid s) out in
  let out := Out.number 8 (snapshot_revision s) out in
  let out := Out.number 8 (snapshot_components s) out in
  let out := Out.number 4 (save_intent s) out in
  let out := Out.number 4 (room_vnum s) out in
  Out.number 8 (encoded_size_bound s) out.

Definition encode_rows (s : player_snapshot) (out : encoder) : encoder :=
  let out := Out.vector put_status_integer (status_integers s) out in
  let out := Out.vector put_status_string (status_strings s) out in
  let out := Out.array (Out.number 4) (conditions s) out in
  let out := Out.array (Out.number 4) (quest_values s) out in
  let out := encode_index_rows (languages s) out in
  let out := encode_index_rows (introductions s) out in
  let out := encode_index_rows (player_timers s) out in
  let out := encode_index_rows (undead_slots s) out in
  let out := encode_index_rows (forged_items s) out in
  let out := Out.vector (Out.number 4) (granted_commands s) out in
  let out := Out.vector put_skill (skills s) out in
  let out := Out.vector put_player_affect (player_affects s) out in
  let out := encode_items (items s) out in
  let out := Out.vector put_pet (pets s) out in
  let out := Out.vector put_shape (shapes s) out in
  let out := Out.vector put_trophy (trophies s) out in
  let out := Out.boolean (recipes_are_external s) out in
  let out := put_preferences (output_preferences s) out in
  put_death (death s) out.

(** The versions of the format and the schema each is read as. *)
Definition schema_of (wire_version : Z) : Z :=
  if (wire_version =? 1) || (wire_version =? 3) || (wire_version =? 5)
  then PLAYER_SNAPSHOT_SCHEMA_VERSION
  else if (wire_version =? 2) || (wire_version =? 4) || (wire_version =? 6)
  then PLAYER_SNAPSHOT_DEATH_SCHEMA_VERSION
  else wire_version.

(** A snapshot with its header read and no rows yet. *)
Definition header_of (schema pid revision components intent room bound : Z) : player_snapshot :=
  PlayerSnapshot schema pid revision components intent room bound [] [] (replicate 5 0)
    (replicate 14 0) [] [] [] [] [] [] [] [] [] [] [] [] false [] None.

Definition decode_header (wire_version : Z) : reader player_snapshot := λ data d,
  ensure (schema_of wire_version =? PLAYER_SNAPSHOT_SCHEMA_VERSION)
         || (schema_of wire_version =? PLAYER_SNAPSHOT_DEATH_SCHEMA_VERSION)
    else unsupported_version in
  let* (pid, d) := In.signed 4 data d in
  let* (revision, d) := In.number 8 data d in
  let* (components, d) := In.number 8 data d in
  let* (save_intent, d) := In.signed 4 data d in
  let* (room_vnum, d) := In.signed 4 data d in
  let* (encoded_bound, d) := In.number 8 data d in
  let s := header_of (schema_of wire_version) pid revision components save_intent room_vnum
             encoded_bound in
  ensure valid_metadata s else invalid_value in
  Ok (s, d).

Definition decode_rows (wire_version : Z) (s : player_snapshot) : reader player_snapshot := λ data d,
  let* (status_integers, d) := In.vector get_status_integer false data d in
  let* (status_strings, d) := In.vector get_status_string false data d in
  let* (conditions, d) := In.array (In.signed 4) 5 data d in
  let* (quest_values, d) := In.array (In.signed 4) 14 data d in
  let* (languages, d) := decode_index_rows data d in
  let* (introductions, d) := decode_index_rows data d in
  let* (timers, d) := decode_index_rows data d in
  let* (undead_slots, d) := decode_index_rows data d in
  let* (forged_items, d) := decode_index_rows data d in
  let* (granted_commands, d) := In.vector (In.signed 4) false data d in
  let* (skills, d) := In.vector get_skill false data d in
  let* (affects, d) := In.vector get_player_affect false data d in
  let* (items, d) := decode_items data d in
  let* (pets, d) := In.vector (get_pet wire_version) false data d in
  let* (shapes, d) := In.vector get_shape false data d in
  let* (trophies, d) := In.vector get_trophy false data d in
  let* (recipes_are_external, d) := In.boolean data d in
  let* (output_preferences, d) := get_preferences wire_version data d in
  let* (death, d) := get_death (schema_version s) data d in
  Ok (PlayerSnapshot (schema_version s) (snapshot_pid s) (snapshot_revision s)
        (snapshot_components s) (save_intent s) (room_vnum s) (encoded_size_bound s)
        status_integers status_strings conditions quest_values languages introductions timers
        undead_slots forged_items granted_commands skills affects items pets shapes trophies
        recipes_are_external output_preferences death, d).

Definition valid_relationships (s : player_snapshot) : bool :=
  valid_item_relationships (items s)
  && forallb (λ pet, valid_item_relationships (pet_items pet)) (pets s).

Definition player_snapshot_decode (encoded : list byte)
  : res player_snapshot_codec_result player_snapshot :=
  ensure negb (length encoded =? 0)%nat else invalid_value in
  ensure vsize encoded <=? PLAYER_SNAPSHOT_MAX_BYTES else limit_exceeded in
  let* (wire_version, d) := In.number 4 encoded (Decoder 0 0 0) in
  let* (s, d) := decode_header wire_version encoded d in
  let* (s, d) := decode_rows wire_version s encoded d in
  ensure valid_death s else invalid_value in
  ensure (offset d =? length encoded)%nat else invalid_value in
  ensure valid_relationships s else invalid_value in
  Ok s.

Definition player_snapshot_encode (s : player_snapshot)
  : res player_snapshot_codec_result (list byte) :=
  ensure valid_metadata s && valid_relationships s else invalid_value in
  ensure valid_death s else invalid_value in
  let out := encode_rows s (encode_header s (Encoder [] true)) in
  ensure within_limits out && (vsize (written out) <=? PLAYER_SNAPSHOT_MAX_BYTES)
    else limit_exceeded in
  let* _ := player_snapshot_decode (written out) in
  Ok (written out).

(** ** Lemmas: the wire form of the rows *)

Definition byte_bytes (b : byte) : list byte := number_bytes 1 (of_byte b).
Definition any {A} (_ : A) : Prop := True.

#[export] Instance byte_writes : Writes put_byte unlimited byte_bytes.
Proof. writes_record put_byte byte_bytes. Qed.

#[export] Instance byte_reads : Reads get_byte any unlimited byte_bytes.
Proof.
  constructor.
  - intros data d b rest b' d' _ _ B H. unfold get_byte in H.
    wire_agree H B; [apply of_byte_range|]. simplify_eq. by rewrite to_of_byte.
  - intros data d b d' bs H C. unfold get_byte in H. wire_sound H C. simplify_eq.
    unfold byte_bytes. by rewrite of_to_byte.
Qed.

Definition status_integer_typed (r : player_snapshot_integer) : Prop :=
  u16 (integer_field r) ∧ (integer_field r <=? last_ip) = true ∧ i64 (signed_value r)
  ∧ u64 (unsigned_value r).
Definition status_integer_bytes (r : player_snapshot_integer) : list byte :=
  number_bytes 2 (integer_field r) ++ number_bytes 8 (signed_value r)
  ++ number_bytes 8 (unsigned_value r) ++ boolean_bytes (is_unsigned r).

#[export] Instance status_integer_writes :
  Writes put_status_integer unlimited status_integer_bytes.
Proof. writes_record put_status_integer status_integer_bytes. Qed.
#[export] Instance status_integer_reads :
  Reads get_status_integer status_integer_typed unlimited status_integer_bytes.
Proof. reads_record get_status_integer status_integer_typed unlimited status_integer_bytes. Qed.

Definition status_string_typed (r : player_snapshot_string) : Prop :=
  u8 (string_field r) ∧ (string_field r <=? poof_out) = true.
Definition status_string_sized (r : player_snapshot_string) : bool := text_sized (string_value r).
Definition status_string_bytes (r : player_snapshot_string) : list byte :=
  number_bytes 1 (string_field r) ++ string_bytes (string_value r).

#[export] Instance status_string_writes :
  Writes put_status_string status_string_sized status_string_bytes.
Proof. writes_record put_status_string status_string_bytes. Qed.
#[export] Instance status_string_reads :
  Reads get_status_string status_string_typed status_string_sized status_string_bytes.
Proof. reads_record get_status_string status_string_typed status_string_sized status_string_bytes. Qed.

Definition index_row_typed (r : player_index_value_snapshot) : Prop :=
  i32 (row_index r) ∧ i64 (row_value r) ∧ u64 (auxiliary r).
Definition index_row_bytes (r : player_index_value_snapshot) : list byte :=
  number_bytes 4 (row_index r) ++ number_bytes 8 (row_value r) ++ number_bytes 8 (auxiliary r).

#[export] Instance index_row_writes : Writes put_index_row unlimited index_row_bytes.
Proof. writes_record put_index_row index_row_bytes. Qed.
#[export] Instance index_row_reads :
  Reads get_index_row index_row_typed unlimited index_row_bytes.
Proof. reads_record get_index_row index_row_typed unlimited index_row_bytes. Qed.

Definition skill_typed (r : player_skill_snapshot) : Prop :=
  i32 (skill_id r) ∧ u8 (learned r) ∧ u8 (taught r).
Definition skill_bytes (r : player_skill_snapshot) : list byte :=
  number_bytes 4 (skill_id r) ++ number_bytes 1 (learned r) ++ number_bytes 1 (taught r).

#[export] Instance skill_writes : Writes put_skill unlimited skill_bytes.
Proof. writes_record put_skill skill_bytes. Qed.
#[export] Instance skill_reads : Reads get_skill skill_typed unlimited skill_bytes.
Proof. reads_record get_skill skill_typed unlimited skill_bytes. Qed.

Definition player_affect_typed (r : player_affect_snapshot) : Prop :=
  sfits 16 (spell_type r) ∧ i32 (duration r) ∧ u32 (affect_flags r) ∧ i32 (modifier r)
  ∧ u8 (location r) ∧ u16 (affect_level r)
  ∧ array_typed (typed := fits 64) 5 (affect_bitvectors r).
Definition player_affect_sized (r : player_affect_snapshot) : bool :=
  forallb unlimited (affect_bitvectors r) && text_sized (wear_off_character r)
  && text_sized (wear_off_room r).
Definition player_affect_bytes (r : player_affect_snapshot) : list byte :=
  number_bytes 2 (spell_type r) ++ number_bytes 4 (duration r) ++ number_bytes 4 (affect_flags r)
  ++ number_bytes 4 (modifier r) ++ number_bytes 1 (location r) ++ number_bytes 2 (affect_level r)
  ++ array_bytes (bytes_of := number_bytes 8) (affect_bitvectors r)
  ++ string_bytes (wear_off_character r) ++ string_bytes (wear_off_room r).

#[export] Instance player_affect_writes :
  Writes put_player_affect player_affect_sized player_affect_bytes.
Proof. writes_record put_player_affect player_affect_bytes. Qed.
#[export] Instance player_affect_reads :
  Reads get_player_affect player_affect_typed player_affect_sized player_affect_bytes.
Proof. reads_record get_player_affect player_affect_typed player_affect_sized player_affect_bytes. Qed.

Definition shape_typed (r : player_shape_snapshot) : Prop :=
  i32 (shape_vnum r) ∧ i32 (times_researched r) ∧ i64 (last_researched r)
  ∧ i64 (last_shapechanged r).
Definition shape_bytes (r : player_shape_snapshot) : list byte :=
  number_bytes 4 (shape_vnum r) ++ number_bytes 4 (times_researched r)
  ++ number_bytes 8 (last_researched r) ++ number_bytes 8 (last_shapechanged r).

#[export] Instance shape_writes : Writes put_shape unlimited shape_bytes.
Proof. writes_record put_shape shape_bytes. Qed.
#[export] Instance shape_reads : Reads get_shape shape_typed unlimited shape_bytes.
Proof. reads_record get_shape shape_typed unlimited shape_bytes. Qed.

Definition trophy_typed (r : player_trophy_snapshot) : Prop :=
  i32 (zone_number r) ∧ i32 (trophy_experience r).
Definition trophy_bytes (r : player_trophy_snapshot) : list byte :=
  number_bytes 4 (zone_number r) ++ number_bytes 4 (trophy_experience r).

#[export] Instance trophy_writes : Writes put_trophy unlimited trophy_bytes.
Proof. writes_record put_trophy trophy_bytes. Qed.
#[export] Instance trophy_reads : Reads get_trophy trophy_typed unlimited trophy_bytes.
Proof. reads_record get_trophy trophy_typed unlimited trophy_bytes. Qed.

#[export] Instance pet_state_writes :
  Writes put_pet_state (string_sized PET_RESTORE_STATE_MAX_BYTES) string_bytes.
Proof. apply string_writes. Qed.
#[export] Instance pet_state_reads :
  Reads get_pet_state any (string_sized PET_RESTORE_STATE_MAX_BYTES) string_bytes.
Proof. exact (string_reads PET_RESTORE_STATE_MAX_BYTES eq_refl). Qed.

#[export] Instance items_writes :
  Writes encode_items (vector_sized (sized := item_sized)) (vector_bytes (bytes_of := item_bytes)).
Proof. apply vector_writes. Qed.
#[export] Instance items_reads :
  Reads decode_items (Forall item_typed) (vector_sized (sized := item_sized))
    (vector_bytes (bytes_of := item_bytes)).
Proof. apply vector_reads. Qed.

Abbreviation items_sized := (vector_sized (sized := item_sized)).
Abbreviation items_bytes := (vector_bytes (bytes_of := item_bytes)).

(** The fields of all versions. *)
Definition pet_base_typed (r : player_pet_snapshot) : Prop :=
  i32 (pet_vnum r) ∧ i32 (order r) ∧ i32 (hit r) ∧ i32 (max_hit r) ∧ i32 (mana r)
  ∧ i32 (max_mana r) ∧ i32 (vitality r) ∧ i32 (max_vitality r) ∧ i32 (charm_duration r)
  ∧ i32 (pet_room_vnum r) ∧ Forall item_typed (pet_items r).
Definition pet_base_bytes (r : player_pet_snapshot) : list byte :=
  number_bytes 4 (pet_vnum r) ++ number_bytes 4 (order r) ++ number_bytes 4 (hit r)
  ++ number_bytes 4 (max_hit r) ++ number_bytes 4 (mana r) ++ number_bytes 4 (max_mana r)
  ++ number_bytes 4 (vitality r) ++ number_bytes 4 (max_vitality r)
  ++ number_bytes 4 (charm_duration r) ++ number_bytes 4 (pet_room_vnum r)
  ++ items_bytes (pet_items r).

(** What a pet read from a file of one version can be, and how that version wrote it. *)
Definition pet_typed (wire_version : Z) (r : player_pet_snapshot) : Prop :=
  pet_base_typed r
  ∧ (if 7 <=? wire_version then u64 (pet_uid r) else pet_uid r = 0)
  ∧ (if wire_version <? 3 then restore_state r = [] ∧ hold_reason r = hold_none
     else u32 (hold_reason r)).
Definition pet_sized (r : player_pet_snapshot) : bool :=
  items_sized (pet_items r) && string_sized PET_RESTORE_STATE_MAX_BYTES (restore_state r).
Definition pet_bytes (wire_version : Z) (r : player_pet_snapshot) : list byte :=
  (if 7 <=? wire_version then number_bytes 8 (pet_uid r) else [])
  ++ pet_base_bytes r
  ++ (if wire_version <? 3 then []
      else string_bytes (restore_state r) ++ number_bytes 4 (hold_reason r)).

Lemma pet_writes wire_version : 7 <= wire_version → Writes put_pet pet_sized (pet_bytes wire_version).
Proof.
  intros V r out. unfold put_pet, pet_bytes, pet_base_bytes.
  rewrite (proj2 (Z.leb_le _ _)), (proj2 (Z.ltb_ge _ _)) by lia. wire_puts.
Qed.

#[export] Instance pet_reads wire_version :
  Reads (get_pet wire_version) (pet_typed wire_version) pet_sized (pet_bytes wire_version).
Proof.
  constructor.
  - intros data d r rest r' d' (T & Tu & Ts) S B H. unfold pet_bytes, pet_base_bytes in B.
    unfold pet_base_typed in T. destruct_and! T. unfold get_pet in H.
    unfold pet_sized in S. rewrite !andb_true_iff in S. destruct_and! S.
    rewrite <- !(assoc_L (++)) in B.
    destruct (7 <=? wire_version); [wire_agree H B|cbn [app] in B];
      do 11 wire_agree H B; (destruct (wire_version <? 3);
        [|rewrite <- (assoc_L (++)) in B; do 2 wire_agree H B]);
      injection H as <- <-; (split; [|done]); destruct r; cbn in *; by destruct_and?; simplify_eq.
  - intros data d r d' bs H C. unfold get_pet in H.
    destruct (7 <=? wire_version) eqn:V7; [wire_sound H C|];
      do 11 wire_sound H C; (destruct (wire_version <? 3) eqn:V3; [|do 2 wire_sound H C]);
      injection H as <- <-; unfold pet_typed, pet_base_typed, pet_bytes, pet_base_bytes, pet_sized;
      rewrite V7, V3; cbn; rewrite ?andb_true_iff; (split; [split_and!; done|]);
      (split; [done|]); by rewrite ?(assoc_L (++)), ?app_nil_r in *.
Qed.

Definition custody_typed (r : player_death_custody_snapshot) : Prop :=
  u64 (item_uid (custody_item r)) ∧ u64 (root_item_uid (custody_item r))
  ∧ u64 (parent_item_uid (custody_item r)) ∧ u64 (expected_item_revision (custody_item r))
  ∧ i32 (entry_vnum (custody_item r)) ∧ u8 (expected_state (custody_item r))
  ∧ u8 (owner_type (custody_owner r)) ∧ u64 (owner_id (custody_owner r))
  ∧ u64 (context_id (custody_owner r)) ∧ u64 (owner_revision r).
Definition custody_bytes (r : player_death_custody_snapshot) : list byte :=
  number_bytes 8 (item_uid (custody_item r)) ++ number_bytes 8 (root_item_uid (custody_item r))
  ++ number_bytes 8 (parent_item_uid (custody_item r))
  ++ number_bytes 8 (expected_item_revision (custody_item r))
  ++ number_bytes 4 (entry_vnum (custody_item r))
  ++ number_bytes 1 (expected_state (custody_item r))
  ++ number_bytes 1 (owner_type (custody_owner r)) ++ number_bytes 8 (owner_id (custody_owner r))
  ++ number_bytes 8 (context_id (custody_owner r)) ++ number_bytes 8 (owner_revision r).

#[export] Instance custody_writes : Writes put_custody unlimited custody_bytes.
Proof. writes_record put_custody custody_bytes. Qed.
#[export] Instance custody_reads : Reads get_custody custody_typed unlimited custody_bytes.
Proof.
  constructor.
  - intros data d r rest r' d' T _ B H. unfold custody_typed in T. destruct_and! T.
    unfold custody_bytes in B. rewrite <- !(assoc_L (++)) in B. unfold get_custody in H.
    do 10 wire_agree H B. injection H as <- <-. by destruct r as [[] [] ?].
  - intros data d r d' bs H C. unfold get_custody in H. do 10 wire_sound H C.
    injection H as <- <-. split; [by split_and!|]. split; [done|].
    unfold custody_bytes. cbn. by rewrite !(assoc_L (++)).
Qed.

Definition operation_typed : list byte → Prop := array_typed (typed := any) 16.
Definition operation_sized : list byte → bool := forallb unlimited.
Definition operation_bytes : list byte → list byte := array_bytes (bytes_of := byte_bytes).

#[export] Instance operation_writes : Writes put_operation operation_sized operation_bytes.
Proof. apply array_writes. Qed.
#[export] Instance operation_reads :
  Reads get_operation operation_typed operation_sized operation_bytes.
Proof. apply array_reads. Qed.

Definition death_typed (e : player_death_snapshot) : Prop :=
  operation_typed (death_operation_id e) ∧ i32 (corpse_room_vnum e) ∧ u64 (wallet_revision e)
  ∧ array_typed (typed := sfits 32) 4 (wallet_before e) ∧ u64 (wallet_pile_uid e)
  ∧ Forall item_typed (corpse e) ∧ Forall custody_typed (custody e)
  ∧ Forall operation_typed (unresolved_operations e).
Definition death_sized (e : player_death_snapshot) : bool :=
  operation_sized (death_operation_id e) && forallb unlimited (wallet_before e)
  && items_sized (corpse e) && vector_sized (sized := unlimited) (custody e)
  && vector_sized (sized := operation_sized) (unresolved_operations e).
Definition death_bytes (e : player_death_snapshot) : list byte :=
  operation_bytes (death_operation_id e) ++ number_bytes 4 (corpse_room_vnum e)
  ++ number_bytes 8 (wallet_revision e)
  ++ array_bytes (bytes_of := number_bytes 4) (wallet_before e)
  ++ number_bytes 8 (wallet_pile_uid e) ++ items_bytes (corpse e)
  ++ vector_bytes (bytes_of := custody_bytes) (custody e)
  ++ vector_bytes (bytes_of := operation_bytes) (unresolved_operations e).

#[export] Instance death_writes : Writes encode_death death_sized death_bytes.
Proof. writes_record encode_death death_bytes. Qed.
#[export] Instance death_reads : Reads decode_death death_typed death_sized death_bytes.
Proof. reads_record decode_death death_typed death_sized death_bytes. Qed.

Definition preferences_typed (wire_version : Z) (p : list byte) : Prop :=
  wire_version < 5 → p = [].
Abbreviation preferences_sized := (string_sized OUTPUT_PREFERENCE_MAX_BYTES).
Definition preferences_bytes (wire_version : Z) (p : list byte) : list byte :=
  if 5 <=? wire_version then string_bytes p else [].

Lemma preferences_writes wire_version :
  5 <= wire_version → Writes put_preferences preferences_sized (preferences_bytes wire_version).
Proof.
  intros V. unfold preferences_bytes. rewrite (proj2 (Z.leb_le _ _)) by done. apply string_writes.
Qed.
#[export] Instance preferences_reads wire_version :
  Reads (get_preferences wire_version) (preferences_typed wire_version) preferences_sized
    (preferences_bytes wire_version).
Proof.
  pose proof (string_reads OUTPUT_PREFERENCE_MAX_BYTES eq_refl) as R.
  unfold get_preferences, preferences_typed, preferences_bytes.
  destruct (Z.leb_spec 5 wire_version) as [V|V]; constructor.
  - intros data d p rest p' d' _. by apply (wire_agrees (typed := any)).
  - intros data d p d' bs H C. destruct (wire_sound _ _ _ _ _ H C) as (_ & S & C'). split; [lia|done].
  - intros data d p rest p' d' T _ B H. injection H as <- <-. by rewrite (T V).
  - intros data d p d' bs H C. injection H as <- <-. by rewrite app_nil_r.
Qed.

Definition death_part_typed (schema : Z) (e : option player_death_snapshot) : Prop :=
  if schema =? PLAYER_SNAPSHOT_DEATH_SCHEMA_VERSION
  then match e with Some e => death_typed e | None => False end else e = None.
Definition death_part_sized (e : option player_death_snapshot) : bool :=
  match e with Some e => death_sized e | None => true end.
Definition death_part_bytes (e : option player_death_snapshot) : list byte :=
  match e with Some e => death_bytes e | None => [] end.

#[export] Instance death_part_writes : Writes put_death death_part_sized death_part_bytes.
Proof. intros [e|] out; [apply death_writes|apply puts_refl]. Qed.
#[export] Instance death_part_reads schema :
  Reads (get_death schema) (death_part_typed schema) death_part_sized death_part_bytes.
Proof.
  unfold get_death, death_part_typed. destruct (schema =? _); constructor.
  - intros data d [e|] rest e' d' T S B H; [|done]. wire_agree H B. by simplify_eq.
  - intros data d e d' bs H C. wire_sound H C. by simplify_eq.
  - intros data d e rest e' d' -> _ B H. by simplify_eq.
  - intros data d e d' bs H C. simplify_eq. cbn. by rewrite app_nil_r.
Qed.

#[export] Instance index_rows_writes :
  Writes encode_index_rows (vector_sized (sized := unlimited))
    (vector_bytes (bytes_of := index_row_bytes)).
Proof. apply vector_writes. Qed.
#[export] Instance index_rows_reads :
  Reads decode_index_rows (Forall index_row_typed) (vector_sized (sized := unlimited))
    (vector_bytes (bytes_of := index_row_bytes)).
Proof. apply vector_reads. Qed.

(** ** Lemmas: the header *)

Definition header_typed (s : player_snapshot) : Prop :=
  i32 (snapshot_pid s) ∧ u64 (snapshot_revision s) ∧ u64 (snapshot_components s)
  ∧ i32 (save_intent s) ∧ i32 (room_vnum s) ∧ u64 (encoded_size_bound s).
Definition header_bytes (s : player_snapshot) : list byte :=
  number_bytes 4 (snapshot_pid s) ++ number_bytes 8 (snapshot_revision s)
  ++ number_bytes 8 (snapshot_components s) ++ number_bytes 4 (save_intent s)
  ++ number_bytes 4 (room_vnum s) ++ number_bytes 8 (encoded_size_bound s).

Lemma header_puts s out :
  puts true (number_bytes 4 (schema_version s) ++ header_bytes s) out (encode_header s out).
Proof. unfold encode_header, header_bytes. wire_puts. Qed.

(** The header of a snapshot, with the schema its version is read as. *)
Definition header (s : player_snapshot) : player_snapshot :=
  header_of (schema_version s) (snapshot_pid s) (snapshot_revision s) (snapshot_components s)
    (save_intent s) (room_vnum s) (encoded_size_bound s).

Lemma header_agrees wire_version s data d rest s' d' :
  header_typed s → schema_of wire_version = schema_version s →
  at_offset data (offset d) (header_bytes s ++ rest) →
  decode_header wire_version data d = Ok (s', d') → s' = header s ∧ at_offset data (offset d') rest.
Proof.
  intros T V B H. unfold header_typed in T. destruct_and! T. unfold header_bytes in B.
  rewrite <- !(assoc_L (++)) in B. unfold decode_header in H. wire_guard H.
  do 6 wire_agree H B. wire_guard H. injection H as <- <-. unfold header. by rewrite <- V.
Qed.

Lemma header_sound wire_version data d s d' bs :
  decode_header wire_version data d = Ok (s, d') → consumed data (offset d) bs →
  header_typed s ∧ s = header s ∧ schema_version s = schema_of wire_version
  ∧ valid_metadata s = true ∧ consumed data (offset d') (bs ++ header_bytes s).
Proof.
  intros H C. unfold decode_header in H. wire_guard H. do 6 wire_sound H C. wire_guard H.
  injection H as <- <-. split; [by split_and!|]. split_and!; [done..|].
  unfold header_bytes. cbn. by rewrite !(assoc_L (++)).
Qed.

(** ** Lemmas: the rows *)

(** What the rows of one version can be, and how that version wrote them. *)
Record rows_typed (wire_version : Z) (s : player_snapshot) : Prop := {
  typed_integers : Forall status_integer_typed (status_integers s);
  typed_strings : Forall status_string_typed (status_strings s);
  typed_conditions : array_typed (typed := sfits 32) 5 (conditions s);
  typed_quests : array_typed (typed := sfits 32) 14 (quest_values s);
  typed_languages : Forall index_row_typed (languages s);
  typed_introductions : Forall index_row_typed (introductions s);
  typed_timers : Forall index_row_typed (player_timers s);
  typed_undead_slots : Forall index_row_typed (undead_slots s);
  typed_forged_items : Forall index_row_typed (forged_items s);
  typed_commands : Forall (sfits 32) (granted_commands s);
  typed_skills : Forall skill_typed (skills s);
  typed_affects : Forall player_affect_typed (player_affects s);
  typed_items : Forall item_typed (items s);
  typed_pets : Forall (pet_typed wire_version) (pets s);
  typed_shapes : Forall shape_typed (shapes s);
  typed_trophies : Forall trophy_typed (trophies s);
  typed_preferences : preferences_typed wire_version (output_preferences s);
  typed_death : death_part_typed (schema_version s) (death s);
}.

Definition rows_sized (s : player_snapshot) : bool :=
  vector_sized (sized := unlimited) (status_integers s)
  && vector_sized (sized := status_string_sized) (status_strings s)
  && forallb unlimited (conditions s) && forallb unlimited (quest_values s)
  && vector_sized (sized := unlimited) (languages s)
  && vector_sized (sized := unlimited) (introductions s)
  && vector_sized (sized := unlimited) (player_timers s)
  && vector_sized (sized := unlimited) (undead_slots s)
  && vector_sized (sized := unlimited) (forged_items s)
  && vector_sized (sized := unlimited) (granted_commands s)
  && vector_sized (sized := unlimited) (skills s)
  && vector_sized (sized := player_affect_sized) (player_affects s)
  && items_sized (items s) && vector_sized (sized := pet_sized) (pets s)
  && vector_sized (sized := unlimited) (shapes s)
  && vector_sized (sized := unlimited) (trophies s)
  && preferences_sized (output_preferences s)
  && death_part_sized (death s).

Definition rows_bytes (wire_version : Z) (s : player_snapshot) : list byte :=
  vector_bytes (bytes_of := status_integer_bytes) (status_integers s)
  ++ vector_bytes (bytes_of := status_string_bytes) (status_strings s)
  ++ array_bytes (bytes_of := number_bytes 4) (conditions s)
  ++ array_bytes (bytes_of := number_bytes 4) (quest_values s)
  ++ vector_bytes (bytes_of := index_row_bytes) (languages s)
  ++ vector_bytes (bytes_of := index_row_bytes) (introductions s)
  ++ vector_bytes (bytes_of := index_row_bytes) (player_timers s)
  ++ vector_bytes (bytes_of := index_row_bytes) (undead_slots s)
  ++ vector_bytes (bytes_of := index_row_bytes) (forged_items s)
  ++ vector_bytes (bytes_of := number_bytes 4) (granted_commands s)
  ++ vector_bytes (bytes_of := skill_bytes) (skills s)
  ++ vector_bytes (bytes_of := player_affect_bytes) (player_affects s)
  ++ items_bytes (items s) ++ vector_bytes (bytes_of := pet_bytes wire_version) (pets s)
  ++ vector_bytes (bytes_of := shape_bytes) (shapes s)
  ++ vector_bytes (bytes_of := trophy_bytes) (trophies s)
  ++ boolean_bytes (recipes_are_external s)
  ++ preferences_bytes wire_version (output_preferences s)
  ++ death_part_bytes (death s).

Lemma rows_puts wire_version s out : 7 <= wire_version →
  puts (rows_sized s) (rows_bytes wire_version s) out (encode_rows s out).
Proof.
  intros V. pose proof (pet_writes wire_version V) as PW.
  pose proof (preferences_writes wire_version ltac:(lia)) as RW.
  unfold encode_rows, rows_bytes, rows_sized. wire_puts.
Qed.

Lemma rows_agrees wire_version s data d rest s' d' :
  rows_typed wire_version s → rows_sized s = true →
  at_offset data (offset d) (rows_bytes wire_version s ++ rest) →
  decode_rows wire_version (header s) data d = Ok (s', d') →
  s' = s ∧ at_offset data (offset d') rest.
Proof.
  intros T S B H. unfold rows_sized in S. rewrite !andb_true_iff in S. destruct_and! S.
  unfold rows_bytes in B. rewrite <- !(assoc_L (++)) in B. unfold decode_rows in H. destruct T.
  do 19 wire_agree H B. injection H as <- <-. by destruct s.
Qed.

Lemma rows_sound wire_version h data d s d' bs :
  decode_rows wire_version h data d = Ok (s, d') → consumed data (offset d) bs →
  rows_typed wire_version s ∧ rows_sized s = true ∧ header s = header h
  ∧ consumed data (offset d') (bs ++ rows_bytes wire_version s).
Proof.
  intros H C. unfold decode_rows in H. do 19 wire_sound H C. injection H as <- <-.
  split; [by constructor|]. split; [unfold rows_sized; cbn; rewrite !andb_true_iff; by split_and!|].
  split; [done|]. unfold rows_bytes. cbn. by rewrite !(assoc_L (++)).
Qed.

(** ** Lemmas: whole snapshots *)

Definition player_snapshot_typed (s : player_snapshot) : Prop :=
  header_typed s ∧ rows_typed (schema_version s) s.

Definition snapshot_bytes (wire_version : Z) (s : player_snapshot) : list byte :=
  number_bytes 4 wire_version ++ header_bytes s ++ rows_bytes wire_version s.

Definition accepted (s : player_snapshot) : Prop :=
  valid_metadata s = true ∧ valid_relationships s = true ∧ valid_death s = true.

Lemma metadata_schema s :
  valid_metadata s = true →
  schema_version s = PLAYER_SNAPSHOT_SCHEMA_VERSION
  ∨ schema_version s = PLAYER_SNAPSHOT_DEATH_SCHEMA_VERSION.
Proof.
  intros V. unfold valid_metadata in V. rewrite !andb_true_iff in V. destruct_and! V.
  rewrite orb_true_iff, !Z.eqb_eq in *. done.
Qed.

Lemma snapshot_encode_Ok s bs :
  player_snapshot_encode s = Ok bs →
  accepted s ∧ rows_sized s = true ∧ bs = snapshot_bytes (schema_version s) s
  ∧ vsize bs <= PLAYER_SNAPSHOT_MAX_BYTES ∧ is_ok (player_snapshot_decode bs) = true.
Proof.
  unfold player_snapshot_encode. intros H.
  destruct (valid_metadata s) eqn:M; [|done]. destruct (valid_relationships s) eqn:R; [|done].
  cbn [andb negb] in H. wire_guard H. destruct (_ && _) eqn:G; [|done]. cbn [negb] in H.
  apply andb_prop in G as [G L]. apply Z.leb_le in L.
  destruct (player_snapshot_decode (written _)) as [x|] eqn:D; [|done]. injection H as <-.
  assert (7 <= schema_version s) as V by (destruct (metadata_schema s M) as [-> | ->]; done).
  destruct (puts_trans _ _ _ _ _ _ _ (header_puts s (Encoder [] true))
    (rows_puts _ s (encode_header s (Encoder [] true)) V)) as [W1 W2].
  rewrite W1 in G. split; [done|]. split; [exact G|]. rewrite W1 in W2. specialize (W2 G).
  split; [|split; [done|by rewrite D]]. rewrite W2. unfold snapshot_bytes. by rewrite <- (assoc_L (++)).
Qed.

Lemma snapshot_decode_Ok bs s :
  player_snapshot_decode bs = Ok s →
  ∃ wire_version, u32 wire_version ∧ schema_of wire_version = schema_version s
    ∧ header_typed s ∧ rows_typed wire_version s ∧ rows_sized s = true
    ∧ accepted s ∧ bs = snapshot_bytes wire_version s
    ∧ 0 < vsize bs <= PLAYER_SNAPSHOT_MAX_BYTES.
Proof.
  unfold player_snapshot_decode. intros H. wire_guard H. wire_guard H.
  assert (consumed bs (offset (Decoder 0 0 0)) []) as C by (split; [simpl; lia|done]).
  wire_sound H C. rename x into wire_version. exists wire_version.
  destruct (decode_header wire_version bs d) as [[h d1]|] eqn:Eh; [|done].
  destruct (header_sound _ _ _ _ _ _ Eh C) as (Th & Hh & Vs & M & C1).
  destruct (decode_rows wire_version h bs d1) as [[x d2]|] eqn:Er; [|done].
  destruct (rows_sound _ _ _ _ _ _ _ Er C1) as (Tr & Sr & Hr & C2).
  do 3 wire_guard H. injection H as <-. bool_prop.
  unfold header, header_of in Hr. injection Hr as F1 F2 F3 F4 F5 F6 F7.
  assert (header_typed x) as Tx by (unfold header_typed; by rewrite F2, F3, F4, F5, F6, F7).
  assert (valid_metadata x = true) as Mx by (unfold valid_metadata; by rewrite F1, F2, F3, F4, F7).
  split_and!; [done|by rewrite F1|done|done|done|done| |unfold vsize in *; lia|done].
  assert (header_bytes h = header_bytes x) as Hb by (unfold header_bytes; by rewrite F2, F3, F4, F5, F6, F7).
  replace (offset d2) with (length bs) in C2. apply consumed_all in C2. rewrite <- C2 at 1.
  unfold snapshot_bytes. cbn [app]. by rewrite Hb, (assoc_L (++)).
Qed.

Lemma schema_of_current v : v = 7 ∨ v = 8 → schema_of v = v.
Proof. by intros [-> | ->]. Qed.

(** The bytes of a snapshot in the current version of its schema decode to nothing else. *)
Lemma snapshot_decode_agrees s s' :
  player_snapshot_typed s → accepted s → rows_sized s = true →
  player_snapshot_decode (snapshot_bytes (schema_version s) s) = Ok s' → s' = s.
Proof.
  intros [Th Tr] (M & _ & _) S H.
  pose proof (metadata_schema s M) as V. pose proof (schema_of_current _ V) as Vs.
  assert (at_offset (snapshot_bytes (schema_version s) s) 0
    (number_bytes 4 (schema_version s) ++ header_bytes s ++ rows_bytes (schema_version s) s ++ []))
    as B by (rewrite app_nil_r; apply at_offset_start).
  revert H B. generalize (snapshot_bytes (schema_version s) s). intros bs H B.
  change 0%nat with (offset (Decoder 0 0 0)) in B.
  unfold player_snapshot_decode in H. do 2 wire_guard H.
  assert (u32 (schema_version s)) as V32 by (destruct V as [-> | ->]; done).
  wire_agree H B. destruct (decode_header _ bs d) as [[h d1]|] eqn:Eh; [|done].
  destruct (header_agrees _ s _ _ _ _ _ Th Vs B Eh) as [-> B1].
  destruct (decode_rows _ (header s) bs d1) as [[x d2]|] eqn:Er; [|done].
  destruct (rows_agrees _ s _ _ _ _ _ Tr S B1 Er) as [-> _].
  do 3 wire_guard H. by simplify_eq.
Qed.

Lemma snapshot_encode_bytes s :
  accepted s → rows_sized s = true →
  let bs := snapshot_bytes (schema_version s) s in
  vsize bs <= PLAYER_SNAPSHOT_MAX_BYTES → is_ok (player_snapshot_decode bs) = true →
  player_snapshot_encode s = Ok bs.
Proof.
  intros (M & R & D) S bs L K. unfold player_snapshot_encode. rewrite M, R, D. cbn [andb negb].
  assert (7 <= schema_version s) as V by (destruct (metadata_schema s M) as [-> | ->]; done).
  destruct (puts_trans _ _ _ _ _ _ _ (header_puts s (Encoder [] true))
    (rows_puts _ s (encode_header s (Encoder [] true)) V)) as [W1 W2].
  rewrite W1, S in *. specialize (W2 eq_refl). cbn [andb within_limits written app] in *. rewrite W2.
  rewrite <- (assoc_L (++)). change (_ ++ _ ++ _) with bs. rewrite (proj2 (Z.leb_le _ _)) by done.
  cbn [negb]. by destruct (player_snapshot_decode bs).
Qed.

(** The version a file begins with. *)
Definition wire_version_of (bs : list byte) : Z := get_le 4 bs 0.

Lemma wire_version_bytes v s : u32 v → wire_version_of (snapshot_bytes v s) = v.
Proof.
  intros F. unfold wire_version_of, get_le, snapshot_bytes, number_bytes.
  rewrite drop_0, take_app_length' by (symmetry; apply length_le_split).
  rewrite wrap_small by done. by apply (le_combine_split_small 4).
Qed.

(** ** Theorems: the codec *)

(** C22: A character of the declared types has the encoding [bs] exactly when [bs] is a
    file of the current format that decodes to it.  So no field of a save is lost or
    confused, and a current file the decoder accepts is the one the encoder writes. *)
Theorem player_snapshot_codec s bs :
  player_snapshot_typed s →
  player_snapshot_encode s = Ok bs ↔
  player_snapshot_decode bs = Ok s
  ∧ (wire_version_of bs = PLAYER_SNAPSHOT_SCHEMA_VERSION
     ∨ wire_version_of bs = PLAYER_SNAPSHOT_DEATH_SCHEMA_VERSION).
Proof.
  intros T. split.
  - intros E. destruct (snapshot_encode_Ok _ _ E) as (A & S & -> & _ & K).
    pose proof (metadata_schema s (proj1 A)) as V. split.
    + destruct (player_snapshot_decode _) as [s'|] eqn:D; [|done].
      by rewrite (snapshot_decode_agrees s s' T A S D).
    + rewrite wire_version_bytes; [done|]. destruct V as [-> | ->]; done.
  - intros [D V]. destruct (snapshot_decode_Ok _ _ D) as (v & F & Sv & _ & _ & S & A & -> & _ & L).
    rewrite wire_version_bytes in V by done. rewrite (schema_of_current v V) in Sv. subst v.
    apply snapshot_encode_bytes; [done..|]. by rewrite D.
Qed.

(** Whatever file the decoder accepts, of whatever version: its bytes are exactly the
    fields of the character in the layout of that version, nothing skipped and nothing
    left over; the character has the declared types, its metadata, the parents of its
    items and of its pets' items and its death are valid; before version 7 pets have no
    identifier, before 3 no restore state, before 5 there are no preferences. *)
Theorem player_snapshot_decode_sound bs s :
  player_snapshot_decode bs = Ok s →
  ∃ wire_version, 1 <= wire_version <= 8 ∧ wire_version = wire_version_of bs
    ∧ schema_version s = (if Z.odd wire_version then 7 else 8)
    ∧ bs = snapshot_bytes wire_version s
    ∧ header_typed s ∧ rows_typed wire_version s ∧ rows_sized s = true
    ∧ valid_metadata s = true ∧ valid_death s = true
    ∧ valid_item_relationships (items s) = true
    ∧ Forall (λ pet, valid_item_relationships (pet_items pet) = true) (pets s).
Proof.
  intros D. destruct (snapshot_decode_Ok _ _ D) as (v & F & Sv & Th & Tr & S & (M & R & Dt) & -> & _).
  unfold valid_relationships in R. apply andb_prop in R as [Ri Rp].
  exists v. rewrite wire_version_bytes by done.
  pose proof (metadata_schema s M) as V. rewrite <- Sv in V.
  assert (1 <= v <= 8 ∧ schema_of v = if Z.odd v then 7 else 8) as [B O].
  { unfold schema_of, PLAYER_SNAPSHOT_SCHEMA_VERSION, PLAYER_SNAPSHOT_DEATH_SCHEMA_VERSION in *.
    repeat match goal with
    | H : context [?a =? ?b] |- _ => destruct (Z.eqb_spec a b); [subst; done|]
    end. cbn [orb] in V. by destruct V as [-> | ->]. }
  rewrite <- Sv. split_and!; [apply B..|done|done|done|done|done|done|done|done|done|].
  apply Forall_forall. intros p P. rewrite forallb_forall in Rp. apply Rp.
  by apply list_elem_of_In.
Qed.

(** ** Specification: the evidence of a death *)

Definition item_uids (l : list player_item_snapshot) : list Z := object_uid <$> l.
Definition custody_uids (l : list player_death_custody_snapshot) : list Z :=
  (λ r, item_uid (custody_item r)) <$> l.

(** How deep a row lies: at the top, or in the row its parent index names. *)
Inductive depth (l : list player_item_snapshot) : nat → nat → Prop :=
| depth_top k i : l !! k = Some i → parent_index i = PLAYER_SNAPSHOT_NO_PARENT → depth l k 1
| depth_in k i j n : l !! k = Some i → parent_index i = Z.of_nat j → depth l j n → depth l k (S n).

(** Every row lies at the top or in one before it, and none too deep. *)
Definition forest (l : list player_item_snapshot) : Prop :=
  ∀ k i, l !! k = Some i →
    (parent_index i = PLAYER_SNAPSHOT_NO_PARENT ∨ 0 <= parent_index i < Z.of_nat k)
    ∧ ∀ n, depth l k n → (n <= PLAYER_SNAPSHOT_MAX_DEPTH)%nat.

Record player_corpse (pid : Z) (i : player_item_snapshot) : Prop := {
  corpse_vnum : vnum i = VOBJ_CORPSE;
  corpse_type : item_type i = ITEM_CORPSE;
  corpse_pid : default 0 (values i !! CORPSE_PID) = pid;
  corpse_saved : 0 < default 0 (values i !! CORPSE_SAVEID);
  corpse_flag : Z.testbit (default 0 (values i !! CORPSE_FLAGS)) 0 = true;
}.

(** A heap of coins that lies in the corpse itself and has the amounts of the wallet. *)
Record wallet_pile (wallet : list Z) (i : player_item_snapshot) : Prop := {
  pile_vnum : vnum i = VOBJ_COINS;
  pile_type : item_type i = ITEM_MONEY;
  pile_inside : parent_index i = 0;
  pile_amounts denomination amount :
    wallet !! denomination = Some amount → default 0 (values i !! denomination) = amount;
}.

(** What a row of custody says of an object that is registered, and of one that is not. *)
Record consistent_custody (r : player_death_custody_snapshot) : Prop := {
  row_vnum : 0 < entry_vnum (custody_item r);
  row_state : expected_state (custody_item r) <= item_custody_state.quarantined;
  row_owner : owner_type (custody_owner r) <= item_owner_type.pet;
  row_absent : expected_state (custody_item r) = item_custody_state.absent →
    expected_item_revision (custody_item r) = ITEM_TRANSFER_ABSENT_REVISION
    ∧ custody_owner r = OwnerIdentity item_owner_type.unknown 0 0 ∧ owner_revision r = 0;
  row_present : expected_state (custody_item r) ≠ item_custody_state.absent →
    expected_item_revision (custody_item r) ≠ 0
    ∧ expected_item_revision (custody_item r) ≠ ITEM_TRANSFER_ABSENT_REVISION
    ∧ root_item_uid (custody_item r) ≠ 0 ∧ owner_type (custody_owner r) ≠ item_owner_type.unknown;
}.

(** Not all bytes of an operation are zero. *)
Definition nonzero (id : list byte) : Prop := Exists (λ b, b ≠ Byte.x00) id.

Record death_evidence (pid : Z) (e : player_death_snapshot)
    (front : player_item_snapshot) (rest : list player_item_snapshot) : Prop := {
  evidence_operation : nonzero (death_operation_id e);
  evidence_room : 0 < corpse_room_vnum e;
  evidence_wallet_revision : wallet_revision e ≠ 0;
  (** One tree of distinct objects, whose root is the player's corpse. *)
  evidence_corpse : corpse e = front :: rest;
  evidence_tree : forest (corpse e);
  evidence_front : player_corpse pid front;
  evidence_inside : Forall (λ i, parent_index i ≠ PLAYER_SNAPSHOT_NO_PARENT) rest;
  evidence_uids : NoDup (item_uids (corpse e));
  evidence_nonzero : 0 ∉ item_uids (corpse e);
  (** The coins of the wallet lie in the corpse, as one pile. *)
  evidence_wallet : Forall (λ amount, 0 <= amount) (wallet_before e);
  evidence_pile :
    (Forall (λ amount, amount = 0) (wallet_before e) ∧ wallet_pile_uid e = 0)
    ∨ (Exists (λ amount, amount ≠ 0) (wallet_before e)
       ∧ ∃ pile, pile ∈ rest ∧ object_uid pile = wallet_pile_uid e ∧ wallet_pile (wallet_before e) pile);
  (** Every object in the corpse has one row of custody. *)
  evidence_custody : Forall consistent_custody (custody e);
  evidence_custody_uids : NoDup (custody_uids (custody e));
  evidence_custody_nonzero : 0 ∉ custody_uids (custody e);
  evidence_covered : item_uids rest ⊆ custody_uids (custody e);
  evidence_unresolved : Forall (λ id, nonzero id ∧ id ≠ death_operation_id e) (unresolved_operations e);
  evidence_unresolved_distinct : NoDup (unresolved_operations e);
}.

(** ** Lemmas: what the checks of one row say *)

Lemma depth_unique l k n m : depth l k n → depth l k m → n = m.
Proof.
  intros D. revert m. induction D as [k i E P|k i j n E P D IH]; intros m D'.
  - inversion D' as [k' i' E' P'|k' i' j' n' E' P' _]; subst; [done|].
    unfold PLAYER_SNAPSHOT_NO_PARENT in *. simplify_eq. lia.
  - inversion D' as [k' i' E' P'|k' i' j' n' E' P' D2]; subst; simplify_eq.
    + unfold PLAYER_SNAPSHOT_NO_PARENT in *. lia.
    + assert (j' = j) as -> by lia. f_equal. by apply IH.
Qed.

(** The loop over the parents, from some row on, the depths of the rows before known. *)
Lemma relationships_forest l : ∀ rows l1 depths,
  l = l1 ++ rows → length depths = length l1 →
  (∀ k n, (k < length l1)%nat → depths !! k = Some n → depth l k n) →
  relationships depths rows = true ↔ ∀ k i, (length l1 <= k)%nat → l !! k = Some i →
    (parent_index i = PLAYER_SNAPSHOT_NO_PARENT ∨ 0 <= parent_index i < Z.of_nat k)
    ∧ ∀ n, depth l k n → (n <= PLAYER_SNAPSHOT_MAX_DEPTH)%nat.
Proof.
  unfold PLAYER_SNAPSHOT_NO_PARENT. induction rows as [|i rows IH]; intros l1 depths El Ld Dp.
  { split; [|done]. intros _ k i Le E. apply lookup_lt_Some in E. rewrite El, app_nil_r in E. lia. }
  assert (l !! length l1 = Some i) as Ei by by rewrite El, list_lookup_middle.
  assert (∀ n, depth l (length l1) n → (n <= PLAYER_SNAPSHOT_MAX_DEPTH)%nat →
    (parent_index i = -1 ∨ 0 <= parent_index i < Z.of_nat (length l1)) →
    relationships (depths ++ [n]) rows = true ↔ ∀ k i, (length l1 <= k)%nat → l !! k = Some i →
      (parent_index i = -1 ∨ 0 <= parent_index i < Z.of_nat k)
      ∧ ∀ n, depth l k n → (n <= PLAYER_SNAPSHOT_MAX_DEPTH)%nat) as Go.
  { intros n D Le Pa. rewrite (IH (l1 ++ [i]) (depths ++ [n])).
    - rewrite length_app. cbn [length]. split; intros H k x Lk Ex.
      + destruct (decide (k = length l1)) as [->|]; [|by apply H; [lia|]].
        rewrite Ei in Ex. injection Ex as <-. split; [done|]. intros m D'. by rewrite (depth_unique l _ m n D' D).
      + by apply H; [lia|].
    - by rewrite <- app_assoc.
    - rewrite !length_app. cbn. lia.
    - intros k m. rewrite length_app. cbn [length]. intros Lk Ek. destruct (decide (k = length l1)) as [->|].
      + rewrite <- Ld, list_lookup_middle in Ek by done. by injection Ek as <-.
      + rewrite lookup_app_l in Ek by lia. by apply Dp; [lia|]. }
  cbn [relationships]. unfold PLAYER_SNAPSHOT_NO_PARENT. cbv zeta. rewrite Ld.
  destruct (Z.ltb_spec (parent_index i) (-1)); cbn [orb].
  { split; [done|]. intros H0. destruct (H0 _ _ (le_n _) Ei) as [[?|?] _]; lia. }
  destruct (Z.leb_spec (Z.of_nat (length l1)) (parent_index i)).
  { split; [done|]. intros H1. destruct (H1 _ _ (le_n _) Ei) as [[?|?] _]; lia. }
  destruct (Z.leb_spec 0 (parent_index i)) as [P|P].
  - destruct (lookup_lt_is_Some_2 depths (Z.to_nat (parent_index i))) as [n En]; [lia|]. rewrite En. cbn [default].
    assert (depth l (length l1) (S n)) as D.
    { eapply depth_in; [exact Ei|by rewrite <- (Z2Nat.id (parent_index i)) by lia|]. apply Dp; [lia|done]. }
    unfold id. destruct (Nat.ltb_spec PLAYER_SNAPSHOT_MAX_DEPTH (S n)).
    + split; [done|]. intros H2. destruct (H2 _ _ (le_n _) Ei) as [_ M]. specialize (M _ D). lia.
    + apply Go; [done|lia|right; lia].
  - apply Go; [by apply (depth_top _ _ i); [|unfold PLAYER_SNAPSHOT_NO_PARENT; lia]|by compute; lia|left; lia].
Qed.

Lemma tree_spec l : valid_item_relationships l = true ↔ forest l.
Proof.
  unfold valid_item_relationships. rewrite (relationships_forest l l [] []); [|done|done|by intros k n ?%Nat.nlt_0_r].
  split; intros H k i; [apply H; cbn; lia|intros _; apply H].
Qed.

Lemma nonzero_spec id : nonzero_operation id = true ↔ nonzero id.
Proof.
  unfold nonzero. induction id as [|b id IH]; cbn; [by rewrite Exists_nil|].
  rewrite orb_true_iff, IH, Exists_cons. apply or_iff_compat_r. by destruct b.
Qed.

Lemma corpse_spec pid i : is_player_corpse pid i = true ↔ player_corpse pid i.
Proof.
  unfold is_player_corpse, value_at, PC_CORPSE, nz. change 1 with (Z.ones 1). rewrite Z.land_ones by done.
  change (2 ^ 1) with 2. rewrite Zmod_odd, <- Z.bit0_odd.
  rewrite !andb_true_iff, negb_true_iff, !Z.eqb_eq, Z.ltb_lt, Z.eqb_neq. split.
  - intros H. destruct_and! H. split; try done. by destruct (Z.testbit _ 0).
  - intros [A B C D ->]. by split_and!.
Qed.

Lemma amounts_spec (l : list Z) (P : nat → Z → bool) : ∀ n,
  forallb (λ '(k, x), P k x) (imap (λ k, pair (n + k)%nat) l) = true ↔
  ∀ k x, l !! k = Some x → P (n + k)%nat x = true.
Proof.
  induction l as [|y l IH]; intros n; [done|]. cbn [imap forallb]. rewrite andb_true_iff, Nat.add_0_r.
  assert (imap ((λ k, pair (n + k)%nat) ∘ S) l = imap (λ k, pair (S n + k)%nat) l) as ->.
  { apply imap_ext. intros k x _. cbn. by rewrite Nat.add_succ_r. }
  rewrite IH. split.
  - intros [A B] [|k] x E; cbn in E; [injection E as <-; by rewrite Nat.add_0_r|]. rewrite Nat.add_succ_r. by apply B.
  - intros A. split; [rewrite <- (Nat.add_0_r n); by apply A|]. intros k x E. rewrite Nat.add_succ_comm. by apply A.
Qed.

Lemma pile_item_spec e i : is_wallet_pile e i = true ↔ wallet_pile (wallet_before e) i.
Proof.
  unfold is_wallet_pile. rewrite !andb_true_iff, !Z.eqb_eq.
  rewrite (amounts_spec (wallet_before e) (λ k x, value_at k i =? x) 0).
  split; [intros [[[A B] C] D]|intros [A B C D]; split_and!; try done];
    [split; try done|]; intros k x E; apply Z.eqb_eq, D, E.
Qed.

Lemma custody_spec r : custody_accepted r = true ↔ consistent_custody r.
Proof.
  unfold custody_accepted, nz. destruct (custody_owner r) as [ot oi ct] eqn:Eo. cbn [owner_type owner_id context_id].
  destruct (Z.eqb_spec (expected_state (custody_item r)) item_custody_state.absent) as [A|A];
    rewrite !andb_true_iff, !negb_true_iff, ?negb_false_iff, Z.ltb_lt, !Z.leb_le, ?Z.eqb_eq, ?Z.eqb_neq; split.
  - intros H. destruct_and! H. subst. split; rewrite ?Eo; try done. 
  - intros [B C D F _]. rewrite Eo in *. destruct (F A) as (F1 & [= -> -> ->] & ->). done.
  - intros H. destruct_and! H. split; rewrite ?Eo; try done.
  - intros [B C D _ F]. rewrite Eo in *. destruct (F A) as (F1 & F2 & F3 & F4). done.
Qed.

(** ** Lemmas: the loops over the evidence *)

Lemma capture_rows_spec e n l captured r :
  capture_rows e (S n) l captured = Some r ↔
  0 ∉ item_uids l ∧ NoDup (item_uids l) ∧ (∀ u, u ∈ item_uids l → u ∉ captured)
  ∧ Forall (λ i, parent_index i ≠ PLAYER_SNAPSHOT_NO_PARENT) l
  ∧ Forall (λ i, object_uid i = wallet_pile_uid e → is_wallet_pile e i = true) l
  ∧ r = captured ∪ list_to_set (item_uids l).
Proof.
  revert n captured. induction l as [|i l IH]; intros n captured.
  - cbn. split; [intros [= <-]; split_and!; [set_solver|constructor|set_solver|done|done|set_solver]|].
    intros (_ & _ & _ & _ & _ & ->). f_equal. set_solver.
  - cbn [capture_rows item_uids fmap list_fmap list_to_set].
    destruct (Z.eqb_spec (object_uid i) 0) as [Z0|Z0]; cbn [negb andb].
    { split; [done|]. intros (N & _). destruct N. rewrite Z0. left. }
    destruct (decide (object_uid i ∈ captured)) as [Cap|Cap].
    { rewrite bool_decide_eq_false_2 by auto. split; [done|]. intros (_ & _ & D & _).
      destruct (D (object_uid i)); [left|done]. }
    rewrite bool_decide_eq_true_2 by done. cbn. destruct (Z.eqb_spec (parent_index i) PLAYER_SNAPSHOT_NO_PARENT) as [P|P]; cbn [negb].
    { split; [done|]. intros (_ & _ & _ & F & _). by inversion F. }
    destruct (negb (object_uid i =? wallet_pile_uid e) || is_wallet_pile e i) eqn:W; cbn [negb].
    2: { split; [done|]. intros (_ & _ & _ & _ & F & _). inversion F as [|? ? Fi _]; subst.
         bool_prop. rewrite Fi in * by done. done. }
    rewrite IH. rewrite !Forall_cons, NoDup_cons, !not_elem_of_cons.
    assert (object_uid i = wallet_pile_uid e → is_wallet_pile e i = true).
    { intros E. rewrite E, Z.eqb_refl in W. done. }
    fold (item_uids l). split; intros; destruct_and?; split_and!; try done; try set_solver.
Qed.

Lemma observe_rows_spec l observed captured r :
  observe_rows l observed captured = Some r ↔
  0 ∉ custody_uids l ∧ NoDup (custody_uids l) ∧ (∀ u, u ∈ custody_uids l → u ∉ observed)
  ∧ Forall (λ row, custody_accepted row = true) l
  ∧ r = captured ∖ list_to_set (custody_uids l).
Proof.
  revert observed captured. induction l as [|row l IH]; intros observed captured.
  - cbn. split; [intros [= <-]; split_and!; [set_solver|constructor|set_solver|done|set_solver]|].
    intros (_ & _ & _ & _ & ->). f_equal. set_solver.
  - cbn [observe_rows custody_uids fmap list_fmap list_to_set]. fold (custody_uids l).
    rewrite Forall_cons, NoDup_cons, !not_elem_of_cons.
    set (uid := item_uid (custody_item row)). unfold nz.
    destruct (Z.eqb_spec uid 0) as [Z0|Z0]; cbn [negb andb];
      [split; [done|]; intros ([N _] & _); done|].
    destruct (decide (uid ∈ observed)) as [O|O].
    { rewrite bool_decide_eq_false_2 by auto. split; [done|]. intros (_ & _ & D & _).
      destruct (D uid); [left|done]. }
    rewrite bool_decide_eq_true_2 by done. cbn [andb].
    destruct (custody_accepted row); cbn [negb];
      [|split; [done|]; intros (_ & _ & _ & [A _] & _); done].
    rewrite IH. split; intros; destruct_and?; split_and!; try done; try set_solver.
Qed.

Lemma operations_distinct_spec own ids operations :
  operations_distinct own ids operations = true ↔
  Forall (λ id, nonzero_operation id = true ∧ id ≠ own) ids ∧ NoDup ids
  ∧ (∀ id, id ∈ ids → id ∉ operations).
Proof.
  revert operations. induction ids as [|id ids IH]; intros operations; cbn [operations_distinct].
  - split; [|done]. intros _. split_and!; [done|constructor|set_solver].
  - rewrite !andb_true_iff, IH, Forall_cons, NoDup_cons, negb_true_iff, bool_decide_eq_true,
      bool_decide_eq_false.
    split; intros; destruct_and?; split_and!; try done; set_solver.
Qed.

Lemma wallet_empty l : existsb nz l = false ↔ Forall (λ amount, amount = 0) l.
Proof.
  induction l as [|a l IH]; cbn; [by split|]. rewrite orb_false_iff, IH, Forall_cons.
  unfold nz. by rewrite negb_false_iff, Z.eqb_eq.
Qed.

Lemma wallet_coins l : existsb nz l = true ↔ Exists (λ amount, amount ≠ 0) l.
Proof.
  induction l as [|a l IH]; cbn; [by rewrite Exists_nil|].
  rewrite orb_true_iff, IH, Exists_cons. unfold nz. by rewrite negb_true_iff, Z.eqb_neq.
Qed.

(** The corpse itself cannot be the pile. *)
Lemma corpse_is_no_pile pid e i : is_player_corpse pid i = true → is_wallet_pile e i = false.
Proof.
  unfold is_player_corpse, is_wallet_pile, VOBJ_CORPSE, VOBJ_COINS. intros C. bool_prop.
  rewrite (proj2 (Z.eqb_neq (vnum i) 3)); [done|lia].
Qed.

(** The capture of a corpse whose front is known. *)
Lemma capture_front_spec e pid front rest r :
  is_player_corpse pid front = true →
  capture_rows e 0 (front :: rest) ∅ = Some r ↔
  0 ∉ item_uids (front :: rest) ∧ NoDup (item_uids (front :: rest))
  ∧ Forall (λ i, parent_index i ≠ PLAYER_SNAPSHOT_NO_PARENT) rest
  ∧ object_uid front ≠ wallet_pile_uid e
  ∧ Forall (λ i, object_uid i = wallet_pile_uid e → is_wallet_pile e i = true) rest
  ∧ r = {[object_uid front]} ∪ list_to_set (item_uids rest).
Proof.
  intros F. cbn [capture_rows item_uids fmap list_fmap]. fold (item_uids rest).
  rewrite (corpse_is_no_pile _ _ _ F), orb_false_r, NoDup_cons, not_elem_of_cons.
  rewrite bool_decide_eq_true_2 by set_solver. rewrite Nat.ltb_irrefl.
  cbn [andb negb]. rewrite !andb_true_r.
  destruct (Z.eqb_spec (object_uid front) 0); cbn [negb];
    [split; [done|]; intros ([N _] & _); done|].
  destruct (Z.eqb_spec (object_uid front) (wallet_pile_uid e)); cbn [negb];
    [split; [done|]; intros (_ & _ & _ & N & _); done|].
  rewrite capture_rows_spec. split; intros; destruct_and?; split_and!; try done; set_solver.
Qed.

(** What the two loops over the objects accept. *)
Lemma loops_spec e pid front rest :
  corpse e = front :: rest → is_player_corpse pid front = true →
  match capture_rows e 0 (corpse e) ∅ with
  | None => false
  | Some captured =>
      negb (existsb nz (wallet_before e)
            && ((wallet_pile_uid e =? object_uid front)
                || negb (bool_decide (wallet_pile_uid e ∈ captured))))
      && match observe_rows (custody e) ∅ (captured ∖ {[object_uid front]}) with
         | None => false
         | Some captured =>
             bool_decide (captured = ∅)
             && operations_distinct (death_operation_id e) (unresolved_operations e) ∅
         end
  end = true ↔
  0 ∉ item_uids (corpse e) ∧ NoDup (item_uids (corpse e))
  ∧ Forall (λ i, parent_index i ≠ PLAYER_SNAPSHOT_NO_PARENT) rest
  ∧ object_uid front ≠ wallet_pile_uid e
  ∧ Forall (λ i, object_uid i = wallet_pile_uid e → is_wallet_pile e i = true) rest
  ∧ (existsb nz (wallet_before e) = true → wallet_pile_uid e ∈ item_uids rest)
  ∧ 0 ∉ custody_uids (custody e) ∧ NoDup (custody_uids (custody e))
  ∧ Forall (λ row, custody_accepted row = true) (custody e)
  ∧ item_uids rest ⊆ custody_uids (custody e)
  ∧ Forall (λ id, nonzero_operation id = true ∧ id ≠ death_operation_id e)
      (unresolved_operations e)
  ∧ NoDup (unresolved_operations e).
Proof.
  intros Ec F. pose proof (λ r, capture_front_spec e pid front rest r F) as CF. rewrite Ec.
  destruct (capture_rows e 0 (front :: rest) ∅) as [captured|] eqn:Ecap.
  2: { split; [done|]. intros H. destruct_and! H. exfalso.
       enough (None = Some ({[object_uid front]} ∪ list_to_set (item_uids rest) : gset Z)) by done.
       apply CF. by split_and!. }
  destruct (proj1 (CF captured) eq_refl) as (N & D & I & P & W & Eq).
  assert (object_uid front ∉ item_uids rest) as Fr by (by destruct (proj1 (NoDup_cons _ _) D)).
  assert (captured ∖ {[object_uid front]} = list_to_set (item_uids rest)) as -> by set_solver.
  assert (bool_decide (wallet_pile_uid e ∈ captured)
          = bool_decide (wallet_pile_uid e ∈ item_uids rest)) as ->
    by (apply bool_decide_ext; set_solver).
  rewrite (proj2 (Z.eqb_neq (wallet_pile_uid e) _)) by auto. cbn [orb].
  rewrite andb_true_iff, negb_true_iff, andb_false_iff, negb_false_iff, bool_decide_eq_true.
  pose proof (λ r, observe_rows_spec (custody e) ∅ (list_to_set (item_uids rest)) r) as OR.
  destruct (observe_rows (custody e) ∅ (list_to_set (item_uids rest))) as [left_|].
  2: { split; [by intros [_ ?]|]. intros H. destruct_and! H. exfalso.
       enough (None = Some (list_to_set (item_uids rest) ∖ list_to_set (custody_uids (custody e)) : gset Z)) by done.
       apply OR. split_and!; [done|done|set_solver|done|done]. }
  destruct (proj1 (OR left_) eq_refl) as (N' & D' & _ & A & ->).
  rewrite andb_true_iff, bool_decide_eq_true, operations_distinct_spec.
  assert (list_to_set (item_uids rest) ∖ list_to_set (custody_uids (custody e)) =@{gset Z} ∅
    ↔ item_uids rest ⊆ custody_uids (custody e)) as ->.
  { split; [|set_solver]. intros E u U.
    destruct (decide (u ∈ custody_uids (custody e))) as [|Nu]; [done|].
    assert (u ∈ (∅ : gset Z)) by (rewrite <- E; set_solver). set_solver. }
  destruct (existsb nz (wallet_before e)); split; intros H; destruct_and! H; split_and!; try done;
    try (by intros ? _ ?); naive_solver.
Qed.

(** Coins and pile agree, given what the loops say of the pile. *)
Lemma pile_spec e front rest :
  0 ∉ item_uids (front :: rest) →
  object_uid front ≠ wallet_pile_uid e →
  Forall (λ i, object_uid i = wallet_pile_uid e → is_wallet_pile e i = true) rest →
  eqb (existsb nz (wallet_before e)) (nz (wallet_pile_uid e)) = true →
  (existsb nz (wallet_before e) = true → wallet_pile_uid e ∈ item_uids rest) →
  (Forall (λ amount, amount = 0) (wallet_before e) ∧ wallet_pile_uid e = 0)
  ∨ (Exists (λ amount, amount ≠ 0) (wallet_before e)
     ∧ ∃ pile, pile ∈ rest ∧ object_uid pile = wallet_pile_uid e ∧ wallet_pile (wallet_before e) pile).
Proof.
  intros N F W E I. apply (proj1 (eqb_true_iff _ _)) in E. destruct (existsb nz (wallet_before e)) eqn:H.
  - right. split; [by apply wallet_coins|].
    destruct (proj1 (list_elem_of_fmap _ _ _) (I eq_refl)) as (pile & U & P).
    exists pile. split_and!; [done..|]. apply pile_item_spec. rewrite Forall_forall in W. by apply W.
  - left. split; [by apply wallet_empty|]. unfold nz in E. symmetry in E.
    by apply negb_false_iff, Z.eqb_eq in E.
Qed.

Lemma pile_loops pid e front rest :
  death_evidence pid e front rest →
  object_uid front ≠ wallet_pile_uid e
  ∧ Forall (λ i, object_uid i = wallet_pile_uid e → is_wallet_pile e i = true) rest
  ∧ eqb (existsb nz (wallet_before e)) (nz (wallet_pile_uid e)) = true
  ∧ (existsb nz (wallet_before e) = true → wallet_pile_uid e ∈ item_uids rest).
Proof.
  intros V. pose proof (evidence_uids _ _ _ _ V) as D. pose proof (evidence_nonzero _ _ _ _ V) as N.
  rewrite (evidence_corpse _ _ _ _ V) in D, N. cbn in D, N.
  apply not_elem_of_cons in N as [N1 N2]. destruct (proj1 (NoDup_cons _ _) D) as [D1 D2].
  destruct (evidence_pile _ _ _ _ V) as [[E Z0]|(E & pile & P & U & W%pile_item_spec)].
  - rewrite Z0, (proj2 (wallet_empty _) E). split_and!; [done| |done|done].
    apply Forall_forall. intros i I Ui. destruct N2. rewrite <- Ui. by apply list_elem_of_fmap_2.
  - rewrite (proj2 (wallet_coins _) E). rewrite <- U.
    assert (object_uid pile ∈ object_uid <$> rest) as Ip by by apply list_elem_of_fmap_2.
    split_and!; [intros Eq; by rewrite Eq in D1| | |done].
    + apply Forall_forall. intros i I Ui. enough (i = pile) as -> by done.
      apply list_elem_of_lookup in I as [m I], P as [n P].
      assert (m = n) as ->; [|by simplify_eq].
      apply (NoDup_lookup _ _ _ (object_uid i) D2); by rewrite list_lookup_fmap, ?I, ?P; cbn; f_equal.
    + unfold nz. rewrite (proj2 (Z.eqb_neq _ _)); [done|]. intros Z0. by rewrite Z0 in Ip.
Qed.

Lemma amounts_nonneg l : forallb (λ amount, 0 <=? amount) l = true ↔ Forall (λ amount, 0 <= amount) l.
Proof.
  induction l as [|a l IH]; cbn; [by rewrite Forall_nil|]. by rewrite andb_true_iff, IH, Forall_cons, Z.leb_le.
Qed.

Lemma evidence_spec pid e :
  valid_death_evidence pid e = true ↔ ∃ front rest, death_evidence pid e front rest.
Proof.
  unfold valid_death_evidence. destruct (corpse e) as [|front rest] eqn:Ec.
  { rewrite andb_false_r. split; [done|]. intros (f & r & []). congruence. }
  rewrite <- Ec, !andb_true_iff. destruct (is_player_corpse pid front) eqn:F.
  2: { split; [naive_solver|]. intros (f & r & V). pose proof (evidence_corpse _ _ _ _ V).
       pose proof (proj2 (corpse_spec _ _) (evidence_front _ _ _ _ V)). congruence. }
  rewrite (loops_spec e pid front rest Ec F), Z.ltb_lt, nonzero_spec, tree_spec, amounts_nonneg.
  assert (Forall (λ row, custody_accepted row = true) (custody e) ↔ Forall consistent_custody (custody e)) as ->.
  { apply Forall_iff. intros r. apply custody_spec. }
  assert (Forall (λ id, nonzero_operation id = true ∧ id ≠ death_operation_id e) (unresolved_operations e)
    ↔ Forall (λ id, nonzero id ∧ id ≠ death_operation_id e) (unresolved_operations e)) as ->.
  { apply Forall_iff. intros id. by rewrite nonzero_spec. }
  assert (nz (wallet_revision e) = true ↔ wallet_revision e ≠ 0) as -> by (unfold nz; by rewrite negb_true_iff, Z.eqb_neq).
  split.
  - intros H. destruct_and! H. exists front, rest. apply corpse_spec in F. rewrite Ec in *.
    constructor; rewrite ?Ec; try done. by eapply pile_spec.
  - intros (f & r & V). pose proof (evidence_corpse _ _ _ _ V) as Ec'.
    rewrite Ec in Ec'. injection Ec' as <- <-.
    destruct (pile_loops _ _ _ _ V) as (P1 & P2 & P3 & P4). by destruct V; split_and!.
Qed.

(** C24: The evidence of a death is accepted exactly when there is none in the ordinary
    schema, or in the other one the character was saved dead and whole, carries nothing,
    its pets are held back, and: the corpse is one tree of distinct objects whose root
    is this player's corpse; the coins of the wallet, if any, are one pile lying in the
    corpse itself with the same amounts; every object in the corpse, and none twice, has
    a row of custody that is consistent; and the unresolved operations are distinct and
    not the death's own. *)
Theorem player_death_valid s :
  valid_death s = true ↔
  (schema_version s = PLAYER_SNAPSHOT_SCHEMA_VERSION ∧ death s = None)
  ∨ (schema_version s ≠ PLAYER_SNAPSHOT_SCHEMA_VERSION ∧ save_intent s = RENT_DEATH
     ∧ snapshot_components s = PLAYER_CHECKPOINT_COMPONENT_ALL ∧ items s = []
     ∧ Forall (λ pet, hold_reason pet ≠ hold_none) (pets s)
     ∧ ∃ e front rest, death s = Some e ∧ death_evidence (snapshot_pid s) e front rest).
Proof.
  unfold valid_death. destruct (Z.eqb_spec (schema_version s) PLAYER_SNAPSHOT_SCHEMA_VERSION) as [V|V].
  { destruct (death s); naive_solver. }
  destruct (death s) as [e|]; [|naive_solver].
  rewrite !andb_true_iff, !Z.eqb_eq, negb_true_iff, evidence_spec.
  assert (existsb (λ pet, hold_reason pet =? hold_none) (pets s) = false
    ↔ Forall (λ pet, hold_reason pet ≠ hold_none) (pets s)) as ->.
  { induction (pets s) as [|pet l IH]; cbn; [by split|].
    by rewrite orb_false_iff, Z.eqb_neq, IH, Forall_cons. }
  assert (match items s with [] => true | _ => false end = true ↔ items s = []) as ->
    by (destruct (items s); naive_solver).
  naive_solver.
Qed.

(** ** Witnesses *)

Definition sample_pet : player_pet_snapshot :=
  PetSnapshot 77 1201 0 50 60 10 10 40 40 (-1) 3001 [sample_row 20 (-1); sample_row 21 0] [Byte.x7b] 6.

Definition sample_corpse : list player_item_snapshot :=
  [ItemSnapshot (-1) 0 30 0 VOBJ_CORPSE ITEM_CORPSE 0 [] [] [] [] [0; 1; 0; 5; 0; 0; 9; 0]
     (replicate 6 0) 0 0 0 0 0 0 0 0 0 0 (replicate 5 0) (replicate 4 (0, 0)) [] [];
   ItemSnapshot 0 0 31 0 VOBJ_COINS ITEM_MONEY 0 [] [] [] [] [3; 0; 2; 0; 0; 0; 0; 0]
     (replicate 6 0) 0 0 0 0 0 0 0 0 0 0 (replicate 5 0) (replicate 4 (0, 0)) [] [];
   sample_row 32 0].

Definition sample_death : player_death_snapshot :=
  DeathSnapshot (replicate 16 Byte.x01) 3001 4 [3; 0; 2; 0] 31 sample_corpse
    [DeathCustody (TransferEntry 31 31 0 2 VOBJ_COINS item_custody_state.active)
       (OwnerIdentity item_owner_type.player 5 0) 3;
     DeathCustody (TransferEntry 32 32 0 ITEM_TRANSFER_ABSENT_REVISION 100 item_custody_state.absent)
       (OwnerIdentity item_owner_type.unknown 0 0) 0]
    [replicate 16 Byte.x02].

Definition sample_snapshot : player_snapshot :=
  PlayerSnapshot 8 5 12 PLAYER_CHECKPOINT_COMPONENT_ALL RENT_DEATH 3001 65536
    [SnapshotInteger 5 (-3) 3 false] [SnapshotString 0 [Byte.x61]] [0; 1; 2; 3; 4] (replicate 14 (-1))
    [IndexValue 0 100 0] [] [IndexValue 2 (-9) 7] [] [] [11; -12] [SkillSnapshot 3 90 1]
    [AffectSnapshot 4 10 0 (-2) 3 50 (replicate 5 1) [] [Byte.x62]] [] [sample_pet]
    [ShapeSnapshot 900 1 2 3] [TrophySnapshot 12 3400] true [Byte.x63] (Some sample_death).

Definition sample_file : list byte := Eval vm_compute in
  match player_snapshot_encode sample_snapshot with Ok bs => bs | Err _ => [] end.

Lemma sample_snapshot_typed : player_snapshot_typed sample_snapshot.
Proof.
  split; [repeat split; by vm_compute|].
  constructor; cbn; repeat constructor; cbn; unfold fits, sfits; try lia; done.
Qed.

Lemma player_snapshot_codec_witness :
  player_snapshot_decode sample_file = Ok sample_snapshot
  ∧ (wire_version_of sample_file = 7 ∨ wire_version_of sample_file = 8).
Proof.
  apply (player_snapshot_codec sample_snapshot); [exact sample_snapshot_typed|by vm_compute].
Defined.

(** The same character as version 4 wrote it: pets had no identifiers. *)
Definition sample_old_file : list byte :=
  number_bytes 4 4 ++ header_bytes sample_snapshot ++ rows_bytes 4 sample_snapshot.

Lemma player_snapshot_decode_sound_witness :
  ∃ s wire_version, player_snapshot_decode sample_old_file = Ok s ∧ wire_version = 4
    ∧ wire_version = wire_version_of sample_old_file
    ∧ sample_old_file = snapshot_bytes wire_version s.
Proof.
  destruct (player_snapshot_decode sample_old_file) as [s|] eqn:D; [|by vm_compute in D].
  destruct (player_snapshot_decode_sound sample_old_file s D) as (v & _ & V & _ & B & _).
  exists s, v. split_and!; [done| |done|done]. rewrite V. by vm_compute.
Defined.
