(* ===== verification/CollectorPolicy.v ===== *)
(** * Collector policy

    Models [economy/collector_policy.h] and [.c]: the life of an item lost at a
    player's death — candidate, collected, on sale to its former owner, and sold,
    expired or cancelled — and the queue that schedules its deadlines.

    A transition returns [Ok] of the new record for [outcome::applied] and [Err] of
    any other outcome, with the caller's record unchanged as in C++.  The [state]
    and [reason] of a record are their underlying integers, since [valid_record]
    checks them; amounts and times are 64-bit integers.  [std::set] of pairs is a
    [gset] read in ascending order. *)

From S2P Require Import Prelude Snapshot.

(** ** Data *)

Definition record_version : Z := 1.
Definition death_operation_hex_size : nat := 32.

Module state.
Definition candidate : Z := 1.
Definition collected : Z := 2.
Definition available : Z := 3.
Definition purchased : Z := 4.
Definition cancelled : Z := 5.
Definition expired : Z := 6.
End state.

Module reason.
Definition none : Z := 0.
Definition claimed : Z := 1.
Definition destroyed : Z := 2.
Definition quarantined : Z := 3.
Definition excluded : Z := 4.
Definition character_deleted : Z := 5.
Definition season_reset : Z := 6.
Definition holding_elapsed : Z := 7.
End reason.

Record rules := Rules {
  enabled : bool;
  collection_delay : Z;
  sale_delay : Z;
  holding_duration : Z;
  price_percent : Z;
  minimum_value : Z;
}.

Definition default_rules : rules :=
  Rules false (12 * 60 * 60) (24 * 60 * 60) (7 * 24 * 60 * 60) 200 100.

(** [death_operation] is the 32 characters of the array; its last byte, the NUL, is
    [death_operation_end]. *)
Record record := CollectorRecord {
  version : Z;
  listing : Z;
  death_operation : list byte;
  death_operation_end : byte;
  beneficiary : Z;
  uid : Z;
  death_time : Z;
  collect_at : Z;
  sale_at : Z;
  available_at : Z;
  expires_at : Z;
  holding_paused : bool;
  paused_at : Z;
  revision : Z;
  item_revision : Z;
  price_value : Z;
  policy : rules;
  status : Z;
  closed_reason : Z;
}.

(** [outcome] without [applied], which is [Ok]. *)
Inductive outcome :=
| not_due | conflict | invalid | overflow | forbidden | insufficient_funds | capacity.

#[export] Instance rules_eq_dec : EqDecision rules.
Proof. solve_decision. Defined.
#[export] Instance record_eq_dec : EqDecision record.
Proof. solve_decision. Defined.
#[export] Instance outcome_eq_dec : EqDecision outcome.
Proof. solve_decision. Defined.

(** ** Item eligibility *)

Definition is_space (c : byte) : bool := of_byte c =? 32.

(** [std::tolower] in the C locale. *)
Definition tolower (c : byte) : Z :=
  let v := of_byte c in if (65 <=? v) && (v <=? 90) then v + 32 else v.

Fixpoint skip_spaces (names : list byte) : list byte :=
  match names with
  | c :: rest => if is_space c then skip_spaces rest else names
  | [] => []
  end.

(** The word at the start, and what follows it. *)
Fixpoint next_word (names : list byte) : list byte * list byte :=
  match names with
  | c :: rest => if is_space c then ([], names)
                 else let (w, r) := next_word rest in (c :: w, r)
  | [] => ([], [])
  end.

(** The outer [while]; each turn consumes at least one character. *)
Fixpoint keyword_loop (fuel : nat) (names sought : list byte) : bool :=
  match fuel with
  | O => false
  | S fuel =>
      match names with
      | [] => false
      | _ =>
          let (word, rest) := next_word (skip_spaces names) in
          if bool_decide (map tolower word = map tolower sought) then true
          else keyword_loop fuel rest sought
      end
  end.

Definition collector_keyword (names sought : list byte) : bool :=
  keyword_loop (S (length names)) names sought.

Definition flag (flags bit : Z) : bool := nz (Z.land flags bit).

Definition unique_keyword : list byte :=
  [Byte.x75; Byte.x6e; Byte.x69; Byte.x71; Byte.x75; Byte.x65].
Definition powerunique_keyword : list byte :=
  [Byte.x70; Byte.x6f; Byte.x77; Byte.x65; Byte.x72] ++ unique_keyword.

Definition collector_death_item_snapshot_eligible (item : player_item_snapshot) : bool :=
  nz (object_uid item) && (0 <? vnum item) && negb (item_type item =? ITEM_MONEY)
  && negb (item_type item =? ITEM_CORPSE) && negb (flag (extra_flags item) ITEM_ARTIFACT)
  && negb (collector_keyword (item_name item) unique_keyword
           && negb (collector_keyword (item_name item) powerunique_keyword))
  && negb (flag (extra_flags item) ITEM_TRANSIENT)
  && negb (flag (extra_flags item) ITEM_NORENT)
  && negb (flag (extra_flags item) ITEM_NOSELL)
  && negb (flag (extra2_flags item) ITEM2_ACCOUNT_BOUND)
  && flag (wear_flags item) ITEM_TAKE.

(** ** Records *)

Definition add (left right : Z) : option Z :=
  if UINT64_MAX - left <? right then None else Some (left + right).

Definition hexadecimal (value : byte) : bool :=
  let c := of_byte value in
  ((48 <=? c) && (c <=? 57)) || ((97 <=? c) && (c <=? 102)).

Definition valid_death_operation (operation : list byte) : bool :=
  (length operation =? death_operation_hex_size)%nat
  && forallb hexadecimal operation
  && existsb (fun value => negb (of_byte value =? 48)) operation.

Definition valid_death_operation_id (operation : list byte) (last : byte) : bool :=
  (of_byte last =? 0) && valid_death_operation operation.

Definition cancellation_reason (why : Z) : bool :=
  (why =? reason.claimed) || (why =? reason.destroyed) || (why =? reason.quarantined)
  || (why =? reason.excluded) || (why =? reason.character_deleted)
  || (why =? reason.season_reset).

Definition valid_reason (why : Z) : bool :=
  (why =? reason.none) || cancellation_reason why || (why =? reason.holding_elapsed).

Definition valid_rules (p : rules) : bool :=
  nz (collection_delay p) && (collection_delay p <=? sale_delay p)
  && nz (holding_duration p) && nz (price_percent p) && nz (minimum_value p).

Definition terminal (s : Z) : bool :=
  (s =? state.purchased) || (s =? state.cancelled) || (s =? state.expired).

Definition available_part (e : record) : bool := negb (available_at e =? 0).

Definition availability_valid (e : record) : bool :=
  available_part e && nz (price_value e) && (sale_at e <=? available_at e)
  && (available_at e <=? expires_at e)
  && (holding_duration (policy e) <=? expires_at e - available_at e)
  && (if holding_paused e then available_at e <=? paused_at e else negb (nz (paused_at e))).

Definition before_availability (e : record) : bool :=
  negb (nz (available_at e)) && negb (nz (expires_at e)) && negb (holding_paused e)
  && negb (nz (paused_at e)).

(** The [switch] on the state. *)
Definition status_valid (e : record) : bool :=
  let s := status e in
  if s =? state.candidate then
    negb (nz (price_value e)) && before_availability e && (closed_reason e =? reason.none)
  else if s =? state.collected then
    nz (price_value e) && before_availability e && (closed_reason e =? reason.none)
  else if s =? state.available then
    availability_valid e && (closed_reason e =? reason.none)
  else if s =? state.purchased then
    availability_valid e && negb (holding_paused e) && (closed_reason e =? reason.none)
  else if s =? state.cancelled then
    if negb (cancellation_reason (closed_reason e)) then false
    else if closed_reason e =? reason.claimed then
      negb (nz (price_value e)) && before_availability e
    else if nz (price_value e) then
      if available_part e then availability_valid e else before_availability e
    else before_availability e
  else if s =? state.expired then
    availability_valid e && negb (holding_paused e)
    && (closed_reason e =? reason.holding_elapsed)
  else false.

Definition valid_record (e : record) : bool :=
  (version e =? record_version) && nz (listing e) && nz (beneficiary e) && nz (uid e)
  && nz (item_revision e) && nz (revision e) && enabled (policy e)
  && valid_rules (policy e)
  && valid_death_operation_id (death_operation e) (death_operation_end e)
  && bool_decide (add (death_time e) (collection_delay (policy e)) = Some (collect_at e))
  && bool_decide (add (death_time e) (sale_delay (policy e)) = Some (sale_at e))
  && (state.candidate <=? status e) && (status e <=? state.expired)
  && valid_reason (closed_reason e)
  && negb (nz (price_value e) && (price_value e <? minimum_value (policy e)))
  && status_valid e.

(** The guard every transition starts with. *)
Definition checked (e : record) (expected required : Z) : res outcome unit :=
  ensure valid_record e else invalid in
  ensure (revision e =? expected) && (status e =? required) else conflict in
  ensure negb (revision e =? UINT64_MAX) else overflow in
  Ok tt.

(** ** Prices and transitions *)

Definition price (base_value : Z) (p : rules) : res outcome Z :=
  ensure valid_rules p else invalid in
  let base := if 0 <? base_value then base_value else 0 in
  let whole := price_percent p / 100 in
  let remainder := price_percent p mod 100 in
  ensure negb (nz whole && (UINT64_MAX / whole <? base)) else overflow in
  let fractional :=
    wrap 64 ((base / 100) * remainder + ((base mod 100) * remainder + 99) / 100) in
  match add (wrap 64 (base * whole)) fractional with
  | None => Err overflow
  | Some result => Ok (Z.max result (minimum_value p))
  end.

Definition enroll (l : Z) (operation : list byte) (owner item_uid item_rev death : Z)
    (p : rules) : res outcome record :=
  ensure nz l && valid_death_operation operation && nz owner && nz item_uid
         && nz item_rev && enabled p && valid_rules p else invalid in
  match add death (collection_delay p), add death (sale_delay p) with
  | Some at_collect, Some at_sale =>
      Ok (CollectorRecord record_version l operation Byte.x00 owner item_uid death
            at_collect at_sale 0 0 false 0 1 item_rev 0 p state.candidate reason.none)
  | _, _ => Err overflow
  end.

(** The fields a transition may change; every other one is copied. *)
Definition with_fields (e : record) (avail expire : Z) (paused : bool) (paused_time : Z)
    (rev item_rev value s why : Z) : record :=
  CollectorRecord (version e) (listing e) (death_operation e) (death_operation_end e)
    (beneficiary e) (uid e) (death_time e) (collect_at e) (sale_at e) avail expire paused
    paused_time rev item_rev value (policy e) s why.

Definition cancel (e : record) (expected_revision why : Z) : res outcome record :=
  ensure cancellation_reason why else invalid in
  let* _ := checked e expected_revision (status e) in
  ensure negb (terminal (status e)
               || ((why =? reason.claimed) && negb (status e =? state.candidate)))
    else conflict in
  let held := (status e =? state.collected) || (status e =? state.available) in
  ensure negb (held && (item_revision e =? UINT64_MAX)) else overflow in
  Ok (with_fields e (available_at e) (expires_at e) false 0 (revision e + 1)
        (if held then item_revision e + 1 else item_revision e) (price_value e)
        state.cancelled why).

Definition collect (e : record) (expected_revision expected_item_revision
    current_item_revision : Z) (active_unclaimed : bool) (current_base_value now : Z)
  : res outcome record :=
  let* _ := checked e expected_revision state.candidate in
  ensure negb (now <? collect_at e) else not_due in
  ensure active_unclaimed && nz current_item_revision
         && (expected_item_revision =? current_item_revision)
         && negb (current_item_revision <? item_revision e) else conflict in
  ensure negb (current_item_revision =? UINT64_MAX) else overflow in
  let* gold := price current_base_value (policy e) in
  Ok (with_fields e (available_at e) (expires_at e) (holding_paused e) (paused_at e)
        (revision e + 1) (current_item_revision + 1) gold state.collected
        (closed_reason e)).

Definition activate (e : record) (expected_revision now : Z) : res outcome record :=
  let* _ := checked e expected_revision state.collected in
  ensure negb (now <? sale_at e) else not_due in
  match add now (holding_duration (policy e)) with
  | None => Err overflow
  | Some expiry =>
      Ok (with_fields e now expiry (holding_paused e) (paused_at e) (revision e + 1)
            (item_revision e) (price_value e) state.available (closed_reason e))
  end.

Definition purchase (e : record) (expected_revision actor carried_value : Z)
    (has_capacity : bool) (now : Z) : res outcome record :=
  let* _ := checked e expected_revision state.available in
  ensure nz actor && (actor =? beneficiary e) else forbidden in
  ensure negb (holding_paused e || (now <? available_at e) || (expires_at e <=? now))
    else conflict in
  ensure has_capacity else capacity in
  ensure negb (carried_value <? price_value e) else insufficient_funds in
  ensure negb (item_revision e =? UINT64_MAX) else overflow in
  Ok (with_fields e (available_at e) (expires_at e) (holding_paused e) (paused_at e)
        (revision e + 1) (item_revision e + 1) (price_value e) state.purchased
        (closed_reason e)).

Definition expire (e : record) (expected_revision now : Z) : res outcome record :=
  let* _ := checked e expected_revision state.available in
  ensure negb (holding_paused e || (now <? expires_at e)) else not_due in
  ensure negb (item_revision e =? UINT64_MAX) else overflow in
  Ok (with_fields e (available_at e) (expires_at e) (holding_paused e) (paused_at e)
        (revision e + 1) (item_revision e + 1) (price_value e) state.expired
        reason.holding_elapsed).

Definition pause (e : record) (expected_revision now : Z) : res outcome record :=
  let* _ := checked e expected_revision state.available in
  ensure negb (holding_paused e || (now <? available_at e) || (expires_at e <=? now))
    else conflict in
  Ok (with_fields e (available_at e) (expires_at e) true now (revision e + 1)
        (item_revision e) (price_value e) (status e) (closed_reason e)).

Definition resume (e : record) (expected_revision now : Z) : res outcome record :=
  let* _ := checked e expected_revision state.available in
  ensure holding_paused e && negb (now <? paused_at e) else conflict in
  match add (expires_at e) (now - paused_at e) with
  | None => Err overflow
  | Some expiry =>
      Ok (with_fields e (available_at e) expiry false 0 (revision e + 1)
            (item_revision e) (price_value e) (status e) (closed_reason e))
  end.

(** ** The queue of deadlines *)

Record due_queue := DueQueue {
  by_deadline : gset (Z * Z);
  by_listing : gmap Z Z;
}.

Definition due_empty : due_queue := DueQueue ∅ ∅.

Definition due_erase (l : Z) (q : due_queue) : due_queue :=
  match by_listing q !! l with
  | None => q
  | Some d => DueQueue (by_deadline q ∖ {[(d, l)]}) (delete l (by_listing q))
  end.

(** The deadline of a record still scheduled; [inl] of the returned value when the
    record is not scheduled ([true]: erased, [false]: refused). *)
Definition record_deadline (e : record) : bool + Z :=
  let s := status e in
  if s =? state.candidate then inr (collect_at e)
  else if s =? state.collected then inr (sale_at e)
  else if s =? state.available then
    if holding_paused e then inl true else inr (expires_at e)
  else if terminal s then inl true
  else inl false.

Definition due_update (e : record) (q : due_queue) : bool * due_queue :=
  if negb (valid_record e) then (false, q)
  else match record_deadline e with
  | inl true => (true, due_erase (listing e) q)
  | inl false => (false, q)
  | inr deadline =>
      match by_listing q !! listing e with
      | Some previous =>
          if previous =? deadline then (true, q)
          else (true, DueQueue (({[(deadline, listing e)]} ∪ by_deadline q)
                                  ∖ {[(previous, listing e)]})
                               (<[listing e := deadline]> (by_listing q)))
      | None =>
          (true, DueQueue ({[(deadline, listing e)]} ∪ by_deadline q)
                          (<[listing e := deadline]> (by_listing q)))
      end
  end.

Definition due_deadline (l : Z) (q : due_queue) : option Z :=
  if negb (nz l) then None else by_listing q !! l.

Definition due_defer (l deadline : Z) (q : due_queue) : bool * due_queue :=
  if negb (nz l) || negb (nz deadline) then (false, q)
  else match by_listing q !! l with
  | None => (false, q)
  | Some previous =>
      if deadline <=? previous then (true, q)
      else if bool_decide ((deadline, l) ∈ by_deadline q) then (false, q)
      else (true, DueQueue (({[(deadline, l)]} ∪ by_deadline q) ∖ {[(previous, l)]})
                           (<[l := deadline]> (by_listing q)))
  end.

(** The order [std::set<std::pair>] iterates in. *)
Definition pair_le (a b : Z * Z) : Prop := a.1 < b.1 ∨ (a.1 = b.1 ∧ a.2 <= b.2).
#[export] Instance pair_le_dec : RelDecision pair_le.
Proof. intros ??. unfold pair_le. apply _. Defined.

Definition ascending (s : gset (Z * Z)) : list (Z * Z) := merge_sort pair_le (elements s).

Fixpoint select_due (now : Z) (limit : nat) (l : list (Z * Z)) : list Z :=
  match limit, l with
  | S limit, (d, x) :: l => if d <=? now then x :: select_due now limit l else []
  | _, _ => []
  end.

Definition lease_one (lease_until : Z) (q : due_queue) (l : Z) : due_queue :=
  match by_listing q !! l with
  | None => q
  | Some d =>
      if negb (bool_decide ((d, l) ∈ by_deadline q)) then q
      else DueQueue ({[(lease_until, l)]} ∪ (by_deadline q ∖ {[(d, l)]}))
                    (<[l := lease_until]> (by_listing q))
  end.

Definition lease_due (now : Z) (limit : nat) (lease_until : Z) (q : due_queue)
  : list Z * due_queue :=
  if (limit =? 0)%nat || (lease_until <=? now) then ([], q)
  else let result := select_due now limit (ascending (by_deadline q)) in
       (result, foldl (lease_one lease_until) q result).

Definition due_swap (q other : due_queue) : due_queue * due_queue := (other, q).

Definition due_size (q : due_queue) : nat := size (by_listing q).

(** ** Events on a record *)

Inductive event :=
| Cancel (expected why : Z)
| Collect (expected expected_item current_item : Z) (active_unclaimed : bool)
    (current_base now : Z)
| Activate (expected now : Z)
| Purchase (expected actor carried : Z) (has_capacity : bool) (now : Z)
| Expire (expected now : Z)
| Pause (expected now : Z)
| Resume (expected now : Z).

Definition apply_event (e : record) (ev : event) : res outcome record :=
  match ev with
  | Cancel x why => cancel e x why
  | Collect x xi ci a b now => collect e x xi ci a b now
  | Activate x now => activate e x now
  | Purchase x actor carried cap now => purchase e x actor carried cap now
  | Expire x now => expire e x now
  | Pause x now => pause e x now
  | Resume x now => resume e x now
  end.

(** The ranges of the arguments' C++ types. *)
Definition event_typed (ev : event) : Prop :=
  match ev with
  | Cancel x why => u64 x ∧ u8 why
  | Collect x xi ci _ b now => u64 x ∧ u64 xi ∧ u64 ci ∧ i64 b ∧ u64 now
  | Activate x now => u64 x ∧ u64 now
  | Purchase x actor carried _ now => u64 x ∧ u32 actor ∧ u64 carried ∧ u64 now
  | Expire x now | Pause x now | Resume x now => u64 x ∧ u64 now
  end.

Record rules_typed (p : rules) : Prop := {
  typed_collection : u64 (collection_delay p);
  typed_sale : u64 (sale_delay p);
  typed_holding : u64 (holding_duration p);
  typed_percent : u64 (price_percent p);
  typed_minimum : u64 (minimum_value p);
}.

Record record_typed (e : record) : Prop := {
  typed_death : u64 (death_time e);
  typed_sale_at : u64 (sale_at e);
  typed_available : u64 (available_at e);
  typed_expires : u64 (expires_at e);
  typed_paused : u64 (paused_at e);
  typed_revision : u64 (revision e);
  typed_item_revision : u64 (item_revision e);
  typed_price : u64 (price_value e);
  typed_rules : rules_typed (policy e);
}.

(** Records reachable from an enrolment. *)
Inductive reachable : record → Prop :=
| reach_enroll l operation owner item_uid item_rev death p e :
    u64 death → u64 item_rev → rules_typed p →
    enroll l operation owner item_uid item_rev death p = Ok e → reachable e
| reach_event e ev e' :
    reachable e → event_typed ev → apply_event e ev = Ok e' → reachable e'.

(** ** Lemmas *)

Lemma add_spec a b s : add a b = Some s ↔ s = a + b ∧ a + b <= UINT64_MAX.
Proof.
  unfold add. destruct (Z.ltb_spec (UINT64_MAX - a) b).
  - split; [done|lia].
  - split; [intros; simplify_eq; lia|]. intros [-> _]. done.
Qed.

(** The clauses of [valid_record] the transitions use. *)
Record record_facts (e : record) : Prop := {
  fact_revision : revision e ≠ 0;
  fact_item_revision : item_revision e ≠ 0;
  fact_rules : valid_rules (policy e) = true;
  fact_sale : add (death_time e) (sale_delay (policy e)) = Some (sale_at e);
  fact_collect : add (death_time e) (collection_delay (policy e)) = Some (collect_at e);
  fact_status : status_valid e = true;
  fact_price : price_value e ≠ 0 → minimum_value (policy e) <= price_value e;
}.

Lemma valid_facts e : valid_record e = true → record_facts e.
Proof.
  unfold valid_record. intros H. bool_prop. rewrite ?nz_true in *.
  constructor; try done. intros Hp. apply nz_true in Hp.
  rewrite Hp in *. simpl in *. bool_prop. lia.
Qed.

(** Only the changed fields have to be checked again. *)
Lemma valid_with_fields e avail expire paused paused_time rev item_rev value s why :
  valid_record e = true → rev ≠ 0 → item_rev ≠ 0 →
  valid_reason why = true → state.candidate <= s <= state.expired →
  (value ≠ 0 → minimum_value (policy e) <= value) →
  status_valid (with_fields e avail expire paused paused_time rev item_rev value s why) = true →
  valid_record (with_fields e avail expire paused paused_time rev item_rev value s why) = true.
Proof.
  intros H Hr Hi Hw [Hs1 Hs2] Hv HS. unfold valid_record in *. rewrite HS. simpl. bool_prop.
  apply nz_true in Hr, Hi. apply Z.leb_le in Hs1, Hs2.
  rewrite !andb_true_iff, negb_true_iff. repeat split; try done.
  - by apply Z.eqb_eq.
  - by apply bool_decide_eq_true_2.
  - by apply bool_decide_eq_true_2.
  - destruct (nz value) eqn:E; [|done]. apply nz_true in E. simpl. apply Z.ltb_ge. auto.
Qed.

Lemma checked_ok e x s : checked e x s = Ok tt →
  valid_record e = true ∧ revision e = x ∧ status e = s ∧ revision e ≠ UINT64_MAX.
Proof. unfold checked. intros H. steps_in H. bool_prop. done. Qed.

(** The price without the overflow-avoiding arithmetic: the percentage of the
    non-negative value, rounded up, but no less than the minimum. *)
Definition reference_price (b : Z) (p : rules) : Z :=
  (Z.max b 0 * price_percent p + 99) / 100.

Lemma ceil_split base percent :
  0 <= base → 0 <= percent →
  (base * percent + 99) / 100
  = base * (percent / 100)
    + ((base / 100) * (percent mod 100) + ((base mod 100) * (percent mod 100) + 99) / 100).
Proof.
  intros Hb Hp.
  pose proof (Z.div_mod base 100). pose proof (Z.div_mod percent 100).
  set (c := base / 100) in *. set (d := base mod 100) in *.
  set (q := percent / 100) in *. set (r := percent mod 100) in *.
  replace (base * percent + 99) with (d * r + 99 + (base * q + c * r) * 100) by nia.
  rewrite Z.div_add by lia. lia.
Qed.

Lemma price_spec b p :
  rules_typed p → i64 b → valid_rules p = true →
  price b p = if reference_price b p <=? UINT64_MAX
              then Ok (Z.max (reference_price b p) (minimum_value p)) else Err overflow.
Proof.
  intros T Hb V. unfold price. rewrite V. cbn [negb].
  assert (Hbase : (if 0 <? b then b else 0) = Z.max b 0) by (destruct (Z.ltb_spec 0 b); lia).
  rewrite Hbase. clear Hbase. pose proof (typed_percent p T) as Hp. unfold fits, sfits in Hp, Hb.
  unfold reference_price. rewrite (ceil_split (Z.max b 0) (price_percent p)) by lia.
  set (base := Z.max b 0). set (q := price_percent p / 100).
  set (c := base / 100). set (r := price_percent p mod 100).
  set (f := c * r + (base mod 100 * r + 99) / 100).
  assert (Hbnd : 0 <= base < 2 ^ 63) by (width; lia).
  assert (Hr : 0 <= r < 100) by (apply Z.mod_pos_bound; lia).
  assert (Hd : 0 <= base mod 100 < 100) by (apply Z.mod_pos_bound; lia).
  assert (Hc : 0 <= c <= base) by (unfold c; split; [apply Z.div_pos; lia|apply Z.div_le_upper_bound; lia]).
  assert (Hc2 : c <= 2 ^ 63 / 100) by (apply Z.div_le_mono; lia).
  assert (Hq : 0 <= q) by (apply Z.div_pos; width; lia).
  assert (Hf : 0 <= f < 2 ^ 64).
  { unfold f. assert (0 <= (base mod 100 * r + 99) / 100 < 101).
    { split; [apply Z.div_pos; nia|apply Z.div_lt_upper_bound; nia]. }
    change (2 ^ 63 / 100) with 92233720368547758 in Hc2. nia. }
  unfold wrap at 2. rewrite (Z.mod_small f) by lia.
  destruct (nz q && (UINT64_MAX / q <? base)) eqn:Ho; cbn [negb].
  - bool_prop. apply nz_true in H. assert (UINT64_MAX < base * q).
    { pose proof (Z.mul_succ_div_gt UINT64_MAX q). width. nia. }
    by rewrite (proj2 (Z.leb_gt _ _)) by lia.
  - assert (Hbq : 0 <= base * q <= UINT64_MAX).
    { apply andb_false_iff in Ho as [Ho|Ho]; [apply nz_false in Ho; width; lia|].
      bool_prop. split; [nia|]. destruct (decide (q = 0)); [width; lia|].
      pose proof (Z.mul_div_le UINT64_MAX q). nia. }
    unfold wrap. rewrite Z.mod_small by (width; lia). unfold add.
    destruct (Z.ltb_spec (UINT64_MAX - base * q) f), (Z.leb_spec (base * q + f) UINT64_MAX);
      first [done|lia].
Qed.

Lemma price_ok b p v :
  rules_typed p → i64 b → valid_rules p = true → price b p = Ok v →
  u64 v ∧ v ≠ 0 ∧ minimum_value p <= v.
Proof.
  intros T Hb V. rewrite price_spec by done. intros H.
  destruct (Z.leb_spec (reference_price b p) UINT64_MAX); [|done]. simplify_eq.
  pose proof (typed_minimum p T). unfold valid_rules in V. bool_prop.
  rewrite nz_true in *. width. lia.
Qed.

(** The part of a record no transition may touch. *)
Definition identity (e : record) :=
  (version e, listing e, (death_operation e, death_operation_end e), beneficiary e, uid e,
   death_time e, (collect_at e, sale_at e), policy e).

Lemma checked_inv e x s u : checked e x s = Ok u →
  valid_record e = true ∧ revision e = x ∧ status e = s ∧ revision e ≠ UINT64_MAX.
Proof. destruct u. apply checked_ok. Qed.

(** What an accepted event leaves: a record that differs in the listed fields. *)
Definition successor (e e' : record) : Prop :=
  ∃ avail expire paused paused_time item_rev value s why,
    e' = with_fields e avail expire paused paused_time (revision e + 1) item_rev value s why
    ∧ valid_record e = true ∧ revision e ≠ UINT64_MAX ∧ item_revision e <= item_rev
    ∧ valid_reason why = true ∧ state.candidate <= s <= state.expired
    ∧ (value ≠ 0 → minimum_value (policy e) <= value)
    ∧ status_valid e' = true
    ∧ u64 avail ∧ u64 expire ∧ u64 paused_time ∧ u64 item_rev ∧ u64 value.

(** Splits [status_valid] of a record in a known state. *)
Ltac status_cases :=
  repeat match goal with
  | H : context [status_valid] |- _ => unfold status_valid in H
  | H : context [availability_valid] |- _ => unfold availability_valid in H
  | H : context [before_availability] |- _ => unfold before_availability in H
  | H : context [available_part] |- _ => unfold available_part in H
  end.
Ltac open_event H :=
  steps_in H; bool_prop;
  repeat match goal with
  | H : checked _ _ _ = Ok _ |- _ =>
      apply checked_inv in H;
      let V := fresh "V" in let R := fresh "R" in let S := fresh "S" in
      let M := fresh "M" in destruct H as (V & R & S & M)
  | H : add _ _ = Some _ |- _ => apply add_spec in H; destruct H
  end.

Lemma sale_at_positive e : valid_record e = true → u64 (death_time e) → 
  u64 (sale_delay (policy e)) → u64 (collection_delay (policy e)) →
  0 < sale_at e.
Proof.
  intros V D S C. apply valid_facts in V as []. apply add_spec in fact_sale0 as [].
  unfold valid_rules in *. bool_prop. rewrite nz_true in *. width. lia.
Qed.

(** Each condition of the new status is one of the old status or a guard. *)
Ltac new_status :=
  unfold status_valid, availability_valid, before_availability, available_part, with_fields;
  cbn -[Z.sub Z.leb Z.eqb]; simpl;
  rewrite ?andb_true_iff, ?negb_true_iff, ?Z.leb_le, ?Z.eqb_neq, ?nz_true, ?nz_false.
Ltac old_status V S :=
  let F := fresh "F" in
  pose proof (fact_status _ (valid_facts _ V)) as F; unfold status_valid in F;
  rewrite S in F; simpl in F; status_cases; bool_prop;
  repeat match goal with
  | H : holding_paused ?e = _, H' : context [if holding_paused ?e then _ else _] |- _ =>
      rewrite H in H'; bool_prop
  end; rewrite ?nz_true, ?nz_false in *.

Ltac use_fields e :=
  repeat match goal with H : ?f e = _ |- context [?f e] => rewrite H end.
Ltac successor_of e :=
  eexists _, _, _, _, _, _, _, _; split; [reflexivity|];
  let T := fresh "T" in
  match goal with H : record_typed e |- _ => pose proof (typed_rules e H); destruct H end;
  match goal with H : rules_typed _ |- _ => destruct H end;
  use_fields e;
  split_and!; try done; try (width; lia);
  new_status; use_fields e; repeat split; first [done|lia|width; lia].

Lemma collect_successor e x xi ci a b now e' :
  record_typed e → u64 ci → i64 b → collect e x xi ci a b now = Ok e' → successor e e'.
Proof.
  intros T Tc Tb H. unfold collect in H. open_event H.
  old_status V S. pose proof (valid_facts e V) as [].
  edestruct (price_ok b (policy e)) as (P1 & P2 & P3); [apply T|done..|].
  successor_of e.
Qed.

Lemma activate_successor e x now e' :
  record_typed e → u64 now → activate e x now = Ok e' → successor e e'.
Proof.
  intros T Tn H. unfold activate in H. open_event H.
  old_status V S. pose proof (valid_facts e V) as [].
  pose proof (typed_rules e T) as TR.
  pose proof (sale_at_positive e V (typed_death _ T) (typed_sale _ TR) (typed_collection _ TR)).
  successor_of e.
Qed.

Lemma purchase_successor e x actor carried cap now e' :
  record_typed e → purchase e x actor carried cap now = Ok e' → successor e e'.
Proof.
  intros T H. unfold purchase in H. open_event H.
  old_status V S. pose proof (valid_facts e V) as []. successor_of e.
Qed.

Lemma expire_successor e x now e' :
  record_typed e → expire e x now = Ok e' → successor e e'.
Proof.
  intros T H. unfold expire in H. open_event H.
  old_status V S. pose proof (valid_facts e V) as []. successor_of e.
Qed.

Lemma pause_successor e x now e' :
  record_typed e → u64 now → pause e x now = Ok e' → successor e e'.
Proof.
  intros T Tn H. unfold pause in H. open_event H.
  old_status V S. pose proof (valid_facts e V) as []. successor_of e.
Qed.

Lemma resume_successor e x now e' :
  record_typed e → u64 now → resume e x now = Ok e' → successor e e'.
Proof.
  intros T Tn H. unfold resume in H. open_event H.
  old_status V S. pose proof (valid_facts e V) as []. successor_of e.
Qed.

(** The states a valid record that is not closed can be in. *)
Lemma open_state e : valid_record e = true → terminal (status e) = false →
  status e = state.candidate ∨ status e = state.collected ∨ status e = state.available.
Proof.
  unfold valid_record, terminal. intros H T. bool_prop.
  unfold state.candidate, state.collected, state.available, state.purchased, state.cancelled,
    state.expired in *. lia.
Qed.

Lemma cancel_status e why : valid_record e = true → terminal (status e) = false →
  cancellation_reason why = true →
  (why = reason.claimed → status e = state.candidate) →
  ∀ rev irev, status_valid (with_fields e (available_at e) (expires_at e) false 0 rev irev
                  (price_value e) state.cancelled why) = true.
Proof.
  intros V T W C rev irev. 
  assert (O := open_state e V T). unfold status_valid at 1. simpl. rewrite W. simpl.
  destruct (why =? reason.claimed) eqn:Y.
  - bool_prop. specialize (C Y). old_status V C. new_status. done.
  - destruct O as [S|[S|S]]; old_status V S; new_status; use_fields e; simpl.
    + done.
    + destruct (nz (price_value e)); done.
    + destruct (nz (price_value e)) eqn:P, (available_at e =? 0) eqn:A; bool_prop;
        rewrite ?nz_false in *; try done; simpl.
      rewrite !andb_true_iff, !Z.leb_le. done.
Qed.

Lemma cancel_successor e x why e' :
  record_typed e → cancel e x why = Ok e' → successor e e'.
Proof.
  intros T H. unfold cancel in H. open_event H.
  rename V into V'. assert (T' := T). destruct T'.
  pose proof (valid_facts e V') as [].
  eexists _, _, _, _, _, _, _, _. split; [reflexivity|].
  assert (why = reason.claimed → status e = state.candidate).
  { intros ->. simpl in *. bool_prop. done. }
  split_and!; try done; try (destruct (_ || _); bool_prop; width; lia).
  - unfold valid_reason. use_fields e. by rewrite E, orb_true_r.
  - by apply cancel_status.
Qed.

Lemma apply_successor e ev e' :
  record_typed e → event_typed ev → apply_event e ev = Ok e' → successor e e'.
Proof.
  destruct ev; simpl; intros T TE H; destruct_and?.
  - by apply cancel_successor in H.
  - by apply collect_successor in H.
  - by apply activate_successor in H.
  - by apply purchase_successor in H.
  - by apply expire_successor in H.
  - by apply pause_successor in H.
  - by apply resume_successor in H.
Qed.

Lemma successor_valid e e' : successor e e' → record_typed e →
  valid_record e' = true ∧ record_typed e' ∧ revision e' = revision e + 1
  ∧ identity e' = identity e ∧ item_revision e <= item_revision e'.
Proof.
  intros (av & ex & pd & pt & ir & v & s & why & -> & V & M & I & W & S & P & SV & T1 & T2 & T3
          & T4 & T5) T.
  assert (R := typed_revision e T). pose proof (typed_item_revision e T).
  pose proof (valid_facts e V) as [F1 F2 _ _ _ _ _].
  split_and!; try done.
  - apply valid_with_fields; try done; width; lia.
  - destruct T; constructor; simpl; try done. width; lia.
Qed.

Lemma enroll_valid l operation owner item_uid item_rev death p e :
  u64 death → u64 item_rev → rules_typed p →
  enroll l operation owner item_uid item_rev death p = Ok e →
  valid_record e = true ∧ record_typed e.
Proof.
  intros Td Ti Tp H. unfold enroll in H. steps_in H. bool_prop. 
  split.
  - unfold valid_record, valid_death_operation_id. simpl. use_fields p.
    rewrite ?H5, ?H4, ?H3, ?H2. rewrite !andb_true_iff. split_and!; try done;
      by apply bool_decide_eq_true_2.
  - apply add_spec in E1 as []. assert (T := Tp). destruct Tp.
    constructor; simpl; try done; width; lia.
Qed.

Lemma reachable_valid e : reachable e → valid_record e = true ∧ record_typed e.
Proof.
  induction 1 as [l operation owner item_uid item_rev death p e Td Ti Tp H|e ev e' R [V T] Tev H].
  - by apply enroll_valid in H.
  - apply apply_successor in H; try done. by apply successor_valid in H as (? & ? & _).
Qed.

(** ** Properties of the records *)

(** C40: Every accepted transition takes a record to a valid record: one revision later, with the
    same listing, owner, item, death and policy, and never an older item revision; so every
    record obtained from an enrolment satisfies [valid_record]. *)
Theorem collector_transition_valid e ev e' :
  reachable e → event_typed ev → apply_event e ev = Ok e' →
  valid_record e' = true ∧ revision e' = revision e + 1 ∧ identity e' = identity e
  ∧ item_revision e <= item_revision e'.
Proof.
  intros R Tev H. apply reachable_valid in R as [V T].
  apply apply_successor in H; try done. by apply successor_valid in H as (? & _ & ? & ? & ?).
Qed.

(** The permitted changes of state. *)
Definition transition (s s' : Z) : Prop :=
  (s = state.candidate ∧ (s' = state.collected ∨ s' = state.cancelled))
  ∨ (s = state.collected ∧ (s' = state.available ∨ s' = state.cancelled))
  ∨ (s = state.available ∧ (s' = state.available ∨ s' = state.purchased
                            ∨ s' = state.expired ∨ s' = state.cancelled)).

(** The state machine of a listing: an accepted transition follows one of the edges
    candidate - collected - available - purchased/expired, or a cancellation of an open record;
    [purchased], [cancelled] and [expired] are terminal. *)
Theorem collector_lifecycle e ev e' :
  apply_event e ev = Ok e' → terminal (status e) = false ∧ transition (status e) (status e').
Proof.
  destruct ev; simpl; unfold cancel, collect, activate, purchase, expire, pause, resume;
    intros H; open_event H; simpl; try (rewrite S; unfold transition; tauto).
  split; [done|]. unfold transition. destruct (open_state e V) as [S1|[S1|S1]]; rewrite ?S1; tauto.
Qed.

(** C35: [price], which avoids a 128-bit product, computes the percentage of the item's
    non-negative value rounded up to the next unit, at least the minimum of the policy, and
    reports an overflow exactly when that amount does not fit in 64 bits. *)
Theorem collector_price_exact b p :
  rules_typed p → i64 b → valid_rules p = true →
  price b p = if reference_price b p <=? UINT64_MAX
              then Ok (Z.max (reference_price b p) (minimum_value p)) else Err overflow.
Proof. apply price_spec. Qed.

(** A purchase is accepted exactly when the record is for sale, unpaused and inside its
    window, the actor is the player who lost the item, has room for it and carries at least the
    price; it changes the state, and advances both revisions, and nothing else. *)
Theorem collector_purchase_exact e x actor carried cap now e' :
  purchase e x actor carried cap now = Ok e' ↔
  (valid_record e = true ∧ revision e = x ∧ revision e ≠ UINT64_MAX
   ∧ item_revision e ≠ UINT64_MAX ∧ status e = state.available
   ∧ actor = beneficiary e ∧ holding_paused e = false
   ∧ available_at e <= now < expires_at e ∧ cap = true ∧ price_value e <= carried)
  ∧ e' = with_fields e (available_at e) (expires_at e) (holding_paused e) (paused_at e)
           (revision e + 1) (item_revision e + 1) (price_value e) state.purchased
           (closed_reason e).
Proof.
  split.
  - intros H. unfold purchase in H. open_event H. done.
  - intros [(V & <- & M & I & S & -> & P & [A1 A2] & -> & F) ->]. unfold purchase, checked.
    assert (nz (beneficiary e) = true) as Hb by (unfold valid_record in V; by bool_prop).
    apply Z.eqb_neq in M, I. apply Z.ltb_ge in A1, F. apply Z.leb_gt in A2.
    rewrite V, S, M, I, P, A1, A2, F, Hb, !Z.eqb_refl. done.
Qed.

(** Pausing a listing and resuming it stops its clock: the listing is for sale again, with
    its expiry moved by exactly the time it was paused. *)
Theorem collector_pause_resume e x now e1 now' e2 :
  pause e x now = Ok e1 → resume e1 (x + 1) now' = Ok e2 →
  now <= now' ∧ expires_at e2 = expires_at e + (now' - now) ∧ available_at e2 = available_at e
  ∧ holding_paused e2 = false ∧ status e2 = status e ∧ price_value e2 = price_value e.
Proof.
  unfold pause, resume. intros H H'. open_event H. open_event H'. simpl in *. done.
Qed.

(** ** The queue: lemmas *)

(** [by_deadline] is the graph of [by_listing]. *)
Definition due_ok (q : due_queue) : Prop :=
  ∀ d l, (d, l) ∈ by_deadline q ↔ by_listing q !! l = Some d.

#[export] Instance pair_le_total : Total pair_le.
Proof. intros [a b] [c d]. unfold pair_le. simpl. lia. Qed.
#[export] Instance pair_le_trans : Transitive pair_le.
Proof. intros [a b] [c d] [e f]. unfold pair_le. simpl. lia. Qed.
#[export] Instance pair_le_antisymm : AntiSymm (=) pair_le.
Proof. intros [a b] [c d]. unfold pair_le. simpl. intros ??. f_equal; lia. Qed.

(** The one change every operation makes: the listing moves to another deadline. *)
Lemma due_ok_move d l d' s m :
  due_ok (DueQueue s m) → m !! l = Some d → d ≠ d' →
  due_ok (DueQueue (({[(d', l)]} ∪ s) ∖ {[(d, l)]}) (<[l := d']> m)).
Proof.
  unfold due_ok. simpl. intros Q L N a b. rewrite lookup_insert. specialize (Q a b).
  destruct (decide (l = b)) as [->|].
  - rewrite L in Q. set_solver.
  - set_solver.
Qed.
Lemma due_ok_add l d' s m :
  due_ok (DueQueue s m) → m !! l = None →
  due_ok (DueQueue ({[(d', l)]} ∪ s) (<[l := d']> m)).
Proof.
  unfold due_ok. simpl. intros Q L a b. rewrite lookup_insert. specialize (Q a b).
  destruct (decide (l = b)) as [->|].
  - rewrite L in Q. set_solver.
  - set_solver.
Qed.
Lemma due_ok_erase l q : due_ok q → due_ok (due_erase l q).
Proof.
  unfold due_ok, due_erase. intros Q a b. destruct (by_listing q !! l) as [d|] eqn:L; [|done].
  simpl. rewrite lookup_delete. specialize (Q a b).
  destruct (decide (l = b)) as [->|]; [rewrite L in Q|]; set_solver.
Qed.
Lemma due_ok_lease_one until l q : due_ok q → due_ok (lease_one until q l).
Proof.
  unfold lease_one. intros Q. destruct (by_listing q !! l) as [d|] eqn:L; [|done].
  case_bool_decide; simpl; [|done].
  unfold due_ok in *. simpl. intros a b. rewrite lookup_insert. specialize (Q a b).
  destruct (decide (l = b)) as [->|]; [rewrite L in Q|]; set_solver.
Qed.

Lemma lease_one_listing until l q : due_ok q →
  by_listing (lease_one until q l)
  = if bool_decide (is_Some (by_listing q !! l)) then <[l := until]> (by_listing q)
    else by_listing q.
Proof.
  unfold lease_one. intros Q. destruct (by_listing q !! l) as [d|] eqn:L; simpl; [|done].
  rewrite bool_decide_eq_true_2 by by apply Q. done.
Qed.

Lemma lease_all until ls q : due_ok q → (∀ l, l ∈ ls → is_Some (by_listing q !! l)) →
  due_ok (foldl (lease_one until) q ls)
  ∧ by_listing (foldl (lease_one until) q ls)
    = foldl (λ m l, <[l := until]> m) (by_listing q) ls.
Proof.
  revert q. induction ls as [|l ls IH]; intros q Q M; simpl; [done|].
  assert (by_listing (lease_one until q l) = <[l := until]> (by_listing q)) as B.
  { rewrite lease_one_listing, bool_decide_eq_true_2; [done|apply M; set_solver|done]. }
  rewrite <- B. apply IH; [by apply due_ok_lease_one|].
  intros k K. rewrite B, lookup_insert. case_decide; [done|]. apply M. set_solver.
Qed.

Lemma select_due_spec now limit l :
  StronglySorted pair_le l →
  select_due now limit l = take limit (snd <$> filter (λ p, p.1 <= now) l).
Proof.
  revert limit. induction l as [|[d x] l IH]; intros limit S; simpl.
  - by destruct limit; rewrite ?take_nil.
  - inversion S as [|? ? S' F]; subst. destruct limit as [|limit]; [done|].
    rewrite filter_cons. simpl. destruct (Z.leb_spec d now).
    + rewrite decide_True by done. simpl. by rewrite IH.
    + rewrite decide_False by lia.
      rewrite (filter_none _ l); [done|].
      eapply Forall_impl; [exact F|]. intros [a b]. unfold pair_le. simpl. lia.
Qed.

(** ** The queue: specification *)

(** The abstract queue is the map from listings to deadlines. *)
Inductive due_op :=
| DUpdate (e : record)
| DErase (l : Z)
| DDefer (l deadline : Z)
| DLease (now : Z) (limit : nat) (until : Z).

Definition run_due (op : due_op) (q : due_queue) : due_queue :=
  match op with
  | DUpdate e => (due_update e q).2
  | DErase l => due_erase l q
  | DDefer l deadline => (due_defer l deadline q).2
  | DLease now limit until => (lease_due now limit until q).2
  end.

(** The scheduled pairs of an abstract queue, earliest first. *)
Definition schedule (m : gmap Z Z) : list (Z * Z) :=
  merge_sort pair_le (prod_swap <$> map_to_list m).
Definition due_listings (now : Z) (m : gmap Z Z) : list Z :=
  snd <$> filter (λ p, p.1 <= now) (schedule m).
Definition leased (now : Z) (limit : nat) (until : Z) (m : gmap Z Z) : list Z :=
  if (limit =? 0)%nat || (until <=? now) then [] else take limit (due_listings now m).

Definition due_spec (op : due_op) (m : gmap Z Z) : gmap Z Z :=
  match op with
  | DUpdate e =>
      if valid_record e then
        match record_deadline e with
        | inr d => <[listing e := d]> m
        | inl true => delete (listing e) m
        | inl false => m
        end
      else m
  | DErase l => delete l m
  | DDefer l deadline =>
      if nz l && nz deadline then alter (Z.max deadline) l m else m
  | DLease now limit until =>
      foldl (λ m l, <[l := until]> m) m (leased now limit until m)
  end.

Lemma ascending_schedule q : due_ok q → ascending (by_deadline q) = schedule (by_listing q).
Proof.
  intros Q. unfold ascending, schedule.
  apply (StronglySorted_unique pair_le); try apply (StronglySorted_merge_sort pair_le).
  rewrite !merge_sort_Permutation. apply NoDup_Permutation.
  - apply NoDup_elements.
  - apply NoDup_fmap; [intros [??] [??]; simpl; congruence|apply NoDup_map_to_list].
  - intros [d l]. rewrite elem_of_elements, (Q d l), list_elem_of_fmap. split.
    + intros L. exists (l, d). split; [done|]. by apply elem_of_map_to_list.
    + intros [[l' d'] [Heq L]]. simpl in Heq. simplify_eq. by apply elem_of_map_to_list in L.
Qed.

Lemma leased_listed now limit until m l : l ∈ leased now limit until m → is_Some (m !! l).
Proof.
  unfold leased. destruct (_ || _); [set_solver|]. intros H.
  apply (subseteq_take limit) in H. apply list_elem_of_fmap in H as [[d x] [-> H]].
  apply list_elem_of_filter in H as [_ H]. unfold schedule in H.
  rewrite merge_sort_Permutation in H. apply list_elem_of_fmap in H as [[l' d'] [Heq L]].
  simpl in Heq. simplify_eq. apply elem_of_map_to_list in L. by exists d'.
Qed.

Lemma lease_due_result now limit until q : due_ok q →
  lease_due now limit until q
  = (leased now limit until (by_listing q),
     foldl (lease_one until) q (leased now limit until (by_listing q))).
Proof.
  intros Q. unfold lease_due, leased. destruct (_ || _); [done|].
  rewrite select_due_spec, ascending_schedule by
    (done || apply (StronglySorted_merge_sort pair_le)). done.
Qed.

Lemma due_update_spec e q : due_ok q →
  due_ok (due_update e q).2 ∧ by_listing (due_update e q).2 = due_spec (DUpdate e) (by_listing q).
Proof.
  intros Q. unfold due_update. simpl. destruct (valid_record e); simpl; [|done].
  destruct (record_deadline e) as [[]|d]; simpl; [|done|].
  - split; [by apply due_ok_erase|]. unfold due_erase.
    destruct (by_listing q !! listing e) eqn:L; simpl; [done|]. by rewrite delete_id.
  - destruct q as [s m]. simpl. destruct (m !! listing e) as [previous|] eqn:L; simpl.
    + destruct (Z.eqb_spec previous d) as [->|N]; simpl; [by rewrite insert_id|].
      split; [by apply due_ok_move|done].
    + split; [by apply due_ok_add|done].
Qed.

Lemma due_defer_spec l d q : due_ok q →
  due_ok (due_defer l d q).2 ∧ by_listing (due_defer l d q).2 = due_spec (DDefer l d) (by_listing q).
Proof.
  intros Q. unfold due_defer. simpl. rewrite <- negb_andb.
  destruct (nz l && nz d); simpl; [|done].
  destruct q as [s m]. simpl. destruct (m !! l) as [previous|] eqn:L; simpl.
  - rewrite (alter_as_insert _ _ _ _ L). destruct (Z.leb_spec d previous); simpl.
    + rewrite Z.max_r, insert_id by (done || lia). done.
    + rewrite Z.max_l by lia. rewrite bool_decide_eq_false_2; simpl.
      * split; [apply due_ok_move; [done|done|lia]|done].
      * rewrite (Q d l). simpl. rewrite L. intros [= ->]. lia.
  - split; [done|]. symmetry. apply alter_id. congruence.
Qed.

(** ** Properties of the queue *)

Lemma run_due_spec op q : due_ok q →
  due_ok (run_due op q) ∧ by_listing (run_due op q) = due_spec op (by_listing q).
Proof.
  intros Q. destruct op as [e|l|l d|now limit until]; simpl.
  - by apply due_update_spec.
  - split; [by apply due_ok_erase|]. unfold due_erase.
    destruct (by_listing q !! l) eqn:L; simpl; [done|]. by rewrite delete_id.
  - by apply due_defer_spec.
  - rewrite lease_due_result by done. simpl. apply lease_all; [done|].
    intros l. apply leased_listed.
Qed.

(** C36: The two indexes of the queue stay inverse to each other over every sequence of
    operations, and the queue refines the map from listings to deadlines: each operation acts on
    [by_listing] as its specification acts on the map. *)
Theorem due_queue_refines ops :
  let q := foldl (λ q op, run_due op q) due_empty ops in
  due_ok q ∧ by_listing q = foldl (λ m op, due_spec op m) ∅ ops.
Proof.
  cbv zeta. assert (due_ok due_empty) as Q by (intros ??; simpl; set_solver).
  change (∅ : gmap Z Z) with (by_listing due_empty). revert Q. generalize due_empty.
  induction ops as [|op ops IH]; intros q Q; simpl; [done|].
  destruct (run_due_spec op q Q) as [Q' <-]. by apply IH.
Qed.

Lemma lookup_insert_all (until : Z) ls (m : gmap Z Z) l :
  foldl (λ m l, <[l := until]> m) m ls !! l
  = if bool_decide (l ∈ ls) then Some until else m !! l.
Proof.
  revert m. induction ls as [|k ls IH]; intros m.
  - by rewrite bool_decide_eq_false_2 by set_solver.
  - simpl. rewrite IH, lookup_insert. repeat (case_bool_decide || case_decide); set_solver.
Qed.

Lemma elem_of_schedule m d l : (d, l) ∈ schedule m ↔ m !! l = Some d.
Proof.
  unfold schedule. rewrite merge_sort_Permutation, list_elem_of_fmap. split.
  - intros [[l' d'] [Heq L]]. simpl in Heq. simplify_eq. by apply elem_of_map_to_list in L.
  - intros L. exists (l, d). split; [done|]. by apply elem_of_map_to_list.
Qed.

Lemma schedule_listings m : NoDup (schedule m).*2.
Proof.
  unfold schedule. rewrite merge_sort_Permutation, <- list_fmap_compose.
  rewrite (list_fmap_ext _ fst) by by intros ? []. apply NoDup_fst_map_to_list.
Qed.

(** The pairs behind a lease: a sorted sublist of the schedule. *)
Lemma leased_pairs now limit until m : (0 < limit)%nat → now < until →
  ∃ ps, leased now limit until m = ps.*2 ∧ ps `sublist_of` schedule m
    ∧ ps = take limit (filter (λ p, p.1 <= now) (schedule m)).
Proof.
  intros L U. eexists. split_and!; [| |reflexivity].
  2: by etransitivity; [apply sublist_take|apply sublist_filter].
  unfold leased, due_listings. rewrite (proj2 (Nat.eqb_neq _ _)), (proj2 (Z.leb_gt _ _)) by lia.
  simpl. symmetry. apply fmap_take.
Qed.

(** Leasing due work takes, earliest first and at most [limit] at a time, listings whose
    deadline has passed, each once; below the limit it takes all of them.  Each moves to the end
    of the lease and no other listing moves, so nothing leased is due again before its lease
    ends. *)
Theorem due_queue_lease now limit until q ls q' :
  due_ok q → (0 < limit)%nat → now < until → lease_due now limit until q = (ls, q') →
  NoDup ls ∧ (length ls <= limit)%nat
  ∧ (∀ l, l ∈ ls → ∃ d, by_listing q !! l = Some d ∧ d <= now)
  ∧ ((length ls < limit)%nat →
     ∀ l d, by_listing q !! l = Some d → d <= now → l ∈ ls)
  ∧ StronglySorted pair_le ((λ l, (default 0 (by_listing q !! l), l)) <$> ls)
  ∧ (∀ l, by_listing q' !! l = if bool_decide (l ∈ ls) then Some until else by_listing q !! l).
Proof.
  intros Q L U H. rewrite lease_due_result in H by done.
  destruct (leased_pairs now limit until (by_listing q) L U) as (ps & P & Sub & Hps).
  rewrite P in H. simplify_eq H. intros <- <-.
  assert (Sched : ∀ d l, (d, l) ∈ ps → by_listing q !! l = Some d).
  { intros d l I. apply elem_of_schedule. by eapply sublist_subseteq. }
  split_and!.
  - eapply sublist_NoDup; [apply schedule_listings|by apply fmap_sublist].
  - rewrite length_fmap, Hps. apply firstn_le_length.
  - intros l I. apply list_elem_of_fmap in I as [[d x] [-> I]]. exists d. split; [by apply Sched|].
    rewrite Hps in I. apply subseteq_take, list_elem_of_filter in I. tauto.
  - rewrite length_fmap. intros Short l d D Le. apply list_elem_of_fmap. exists (d, l). split; [done|].
    rewrite Hps in *. rewrite length_take in Short. rewrite take_ge by lia.
    apply list_elem_of_filter. split; [done|]. by apply elem_of_schedule.
  - rewrite <- list_fmap_compose. rewrite (list_fmap_ext _ id), list_fmap_id.
    + eapply StronglySorted_sublist; [exact Sub|]. apply (StronglySorted_merge_sort pair_le).
    + intros i [d l] I. simpl. apply list_elem_of_lookup_2 in I. by rewrite (Sched d l).
  - intros l. destruct (lease_all until ps.*2 q Q) as [_ ->].
    + intros l' I. apply list_elem_of_fmap in I as [[d x] [-> I]]. exists d. by apply Sched.
    + apply lookup_insert_all.
Qed.

(** ** Witnesses *)

Definition sample_rules : rules := Rules true 60 120 1000 150 100.
Definition sample_operation : list byte := replicate 32 Byte.x61.
Definition sample_candidate : record :=
  CollectorRecord record_version 5 sample_operation Byte.x00 42 77 1000 1060 1120 0 0 false 0 1
    3 0 sample_rules state.candidate reason.none.
Definition sample_available : record :=
  with_fields sample_candidate 1200 2200 false 0 3 5 1500 state.available reason.none.

Lemma sample_rules_typed : rules_typed sample_rules.
Proof. constructor; simpl; width; lia. Qed.

Lemma sample_reachable : reachable sample_candidate.
Proof.
  eapply (reach_enroll 5 sample_operation 42 77 3 1000 sample_rules); try (width; lia).
  - apply sample_rules_typed.
  - reflexivity.
Qed.

Lemma collector_transition_valid_witness : ∃ e', 
  valid_record e' = true ∧ revision e' = 2 ∧ identity e' = identity sample_candidate
  ∧ 3 <= item_revision e'.
Proof.
  eexists. eapply (collector_transition_valid sample_candidate (Collect 1 4 4 true 1000 1060)).
  - apply sample_reachable.
  - simpl. split_and!; width; lia.
  - reflexivity.
Defined.

Lemma collector_lifecycle_witness :
  terminal (status sample_available) = false ∧ transition state.available state.purchased.
Proof.
  apply (collector_lifecycle sample_available (Purchase 3 42 1500 true 1300)
    (with_fields sample_available 1200 2200 false 0 4 6 1500 state.purchased reason.none)).
  reflexivity.
Defined.

Lemma collector_price_exact_witness : price 333 sample_rules = Ok 500.
Proof.
  etransitivity; [apply collector_price_exact|reflexivity].
  - apply sample_rules_typed.
  - width. lia.
  - reflexivity.
Defined.

Lemma collector_pause_resume_witness : ∃ e2, 1300 <= 1350 ∧ expires_at e2 = 2200 + 50
  ∧ available_at e2 = 1200 ∧ holding_paused e2 = false ∧ status e2 = state.available
  ∧ price_value e2 = 1500.
Proof.
  eexists. eapply (collector_pause_resume sample_available 3 1300 _ 1350); reflexivity.
Defined.

Lemma collector_due_queue_lease_witness :
  let q := run_due (DUpdate sample_candidate) due_empty in
  NoDup (lease_due 1100 4 1200 q).1 ∧ 5 ∈ (lease_due 1100 4 1200 q).1.
Proof.
  cbv zeta. set (q := run_due (DUpdate sample_candidate) due_empty).
  assert (due_ok q) as Q by (apply (run_due_spec (DUpdate sample_candidate) due_empty); intros ??; simpl; set_solver).
  destruct (due_queue_lease 1100 4 1200 q (lease_due 1100 4 1200 q).1 (lease_due 1100 4 1200 q).2)
    as (N & _ & _ & C & _).
  - exact Q.
  - lia.
  - lia.
  - by destruct (lease_due _ _ _ _).
  - split; [exact N|]. eapply (C _ 5 1060); [reflexivity|lia].
    Unshelve. apply Nat.ltb_lt. vm_compute. reflexivity.
Defined.
