(* ===== verification/SaveWorker.v ===== *)
(** * The persistence writer

    Models [player/player_save_worker.c] and [.h]: the queue of captured saves, the
    index of each owner's newest one, the single writer thread that applies them in
    capture order with its retries, the ring of completions, and the health counters.

    Every region under [worker_mutex] is one definition on the shared state; what
    happens in between (the database call, the clock, allocation failure) is an
    argument.  A [std::list] node is an identifier that is never reused, so an
    iterator of [queued_by_owner] is such an identifier.  The fields of a
    [player_snapshot] the worker never reads, and the closure of any other job, are
    the type parameters [B] and [W]. *)

From S2P Require Import Prelude Snapshot RevisionState.

Definition PLAYER_SAVE_WORKER_MAX_AGE_MSEC : Z := 5 * 60 * 1000.
Definition PLAYER_SAVE_WORKER_RETRY_INITIAL_MSEC : Z := 100.
Definition PLAYER_SAVE_WORKER_RETRY_MAX_MSEC : Z := 5000.
Definition PLAYER_SAVE_WORKER_MAX_PENDING_JOBS : nat := Z.to_nat 4096.
Definition PLAYER_SAVE_WORKER_MAX_PENDING_BYTES : Z := 128 * 1024 * 1024.

Inductive persistence_job_kind :=
| player | corpse | locker | saved_item | log | critical | bank | shopkeeper | sql | artifact
| economy.

Inductive player_save_apply_outcome :=
| applied | already_applied | stale_revision | retryable_failure | terminal_failure
| ambiguous_commit.

Inductive errno := EIO | ENOMEM | EFAULT | ENOTCONN | ESHUTDOWN | ENOSPC.

(** [error_code] holds an [errno] or a repository's own code. *)
Inductive error_code_t := Errno (e : errno) | Code (c : Z).

Record player_save_apply_result := ApplyResult {
  outcome : player_save_apply_outcome;
  durable_revision : Z;
  error_code : error_code_t;
  failed_field : list byte;
  rolled_back : bool;
}.

Record player_save_completion := Completion {
  c_kind : persistence_job_kind;
  c_owner : Z;
  c_pid : Z;
  c_revision : Z;
  c_components : Z;
  c_outcome : player_save_apply_outcome;
  c_durable_revision : Z;
  c_error_code : error_code_t;
  retry_count : Z;
  c_queued_at_usec : Z;
  started_at_usec : Z;
  completed_at_usec : Z;
  c_failed_field : list byte;
  c_rolled_back : bool;
}.

(** The results this component returns. *)
Inductive player_save_submit_result :=
| accepted | replaced | invalid | unavailable | capacity_exceeded | worker_unavailable.

#[export] Instance job_kind_eq_dec : EqDecision persistence_job_kind.
Proof. solve_decision. Defined.
#[export] Instance outcome_eq_dec : EqDecision player_save_apply_outcome.
Proof. solve_decision. Defined.
#[export] Instance errno_eq_dec : EqDecision errno.
Proof. solve_decision. Defined.
#[export] Instance submit_result_eq_dec : EqDecision player_save_submit_result.
Proof. solve_decision. Defined.

(** The underlying value of the enumeration. *)
Definition job_kind_value (k : persistence_job_kind) : nat :=
  match k with
  | player => 0 | corpse => 1 | locker => 2 | saved_item => 3 | log => 4 | critical => 5
  | bank => 6 | shopkeeper => 7 | sql => 8 | artifact => 9 | economy => 10
  end.
Definition job_kinds : list persistence_job_kind :=
  [player; corpse; locker; saved_item; log; critical; bank; shopkeeper; sql; artifact; economy].

#[export] Instance job_kind_countable : Countable persistence_job_kind.
Proof.
  apply (inj_countable job_kind_value (λ n, job_kinds !! n)). by intros [].
Defined.

Definition persistence_job_kind_name (k : persistence_job_kind) : String.string :=
  match k with
  | player => "player" | corpse => "corpse" | locker => "locker"
  | saved_item => "saved_item" | log => "log" | critical => "critical" | bank => "bank"
  | shopkeeper => "shopkeeper" | sql => "sql" | artifact => "artifact"
  | economy => "economy"
  end%string.

Definition persistence_job_owner : Type := persistence_job_kind * Z.

Definition saturating_increment (counter : Z) : Z :=
  if UINT64_MAX - counter <? 1 then UINT64_MAX else counter + 1.
Definition update_max (target candidate : Z) : Z :=
  if target <? candidate then candidate else target.

Definition succeeded (o : player_save_apply_outcome) : bool :=
  match o with applied | already_applied | stale_revision => true | _ => false end.
Definition connection_lost (o : player_save_apply_outcome) : bool :=
  match o with retryable_failure | ambiguous_commit => true | _ => false end.

(** ** The ring of completions *)

Record completion_queue := Ring {
  entries : list player_save_completion;
  head : nat;
  count : nat;
}.

Definition ring_index (q : completion_queue) (i : nat) : nat :=
  ((head q + i) mod length (entries q))%nat.
Definition ring_at (q : completion_queue) (i : nat) : option player_save_completion :=
  entries q !! ring_index q i.
Definition ring_push (c : player_save_completion) (q : completion_queue) : completion_queue :=
  Ring (<[ring_index q (count q) := c]> (entries q)) (head q) (S (count q)).
Definition ring_pop (q : completion_queue) : completion_queue :=
  Ring (entries q) ((head q + 1) mod length (entries q))%nat (count q - 1)%nat.
Definition ring_clear (q : completion_queue) : completion_queue := Ring (entries q) 0 0.

(** The queued completions, oldest first. *)
Definition ring_contents (q : completion_queue) : list player_save_completion :=
  omap (ring_at q) (seq 0 (count q)).

Definition blank_completion : player_save_completion :=
  Completion player 0 0 0 0 applied 0 (Code 0) 0 0 0 0 (replicate 64 Byte.x00) false.
Definition empty_ring : completion_queue :=
  Ring (replicate PLAYER_SAVE_WORKER_MAX_PENDING_JOBS blank_completion) 0 0.

(** ** Callbacks *)

(** How a callback ends. *)
Inductive callback (A : Type) := Returned (a : A) | BadAlloc | Threw.
Arguments Returned {A}.
Arguments BadAlloc {A}.
Arguments Threw {A}.

(** What the callbacks do in one attempt. *)
Record attempt := Attempt {
  on_append : callback bool;
  on_apply : callback player_save_apply_result;
  on_ack : callback bool;
  on_write : callback player_save_apply_result;
}.

Definition failure (o : player_save_apply_outcome) (e : errno) : player_save_apply_result :=
  ApplyResult o 0 (Errno e) (replicate 64 Byte.x00) false.

(** The [catch] clauses. *)
Definition caught {A} (c : callback A) (k : A → player_save_apply_result)
  : player_save_apply_result :=
  match c with
  | Returned a => k a
  | BadAlloc => failure terminal_failure ENOMEM
  | Threw => failure terminal_failure EFAULT
  end.

(** ** Jobs *)

Section Worker.

Context {B W : Type} (no_body : B).

Record player_snapshot := PlayerSnapshot {
  schema_version : Z;
  pid : Z;
  s_revision : Z;
  s_components : Z;
  encoded_size_bound : Z;
  death : bool;
  body : B;
}.

Definition no_snapshot : player_snapshot := PlayerSnapshot 0 0 0 0 0 false no_body.

Record queued_job := Job {
  kind : persistence_job_kind;
  owner : Z;
  snapshot : player_snapshot;
  write : option W;
  bytes : Z;
  queued_at_usec : Z;
}.

Definition job_key (j : queued_job) : persistence_job_owner := (kind j, owner j).
Definition queued_at (t : Z) (j : queued_job) : queued_job :=
  Job (kind j) (owner j) (snapshot j) (write j) (bytes j) t.

Definition valid_snapshot (s : player_snapshot) : bool :=
  (if death s then schema_version s =? PLAYER_SNAPSHOT_DEATH_SCHEMA_VERSION
   else schema_version s =? PLAYER_SNAPSHOT_SCHEMA_VERSION)
  && (0 <? pid s) && nz (s_revision s) && nz (s_components s)
  && negb (nz (Z.land (s_components s) (Z.lnot PLAYER_CHECKPOINT_COMPONENT_ALL)))
  && nz (encoded_size_bound s) && (encoded_size_bound s <=? PLAYER_SNAPSHOT_MAX_BYTES).

(** ** The shared state *)

Record worker_health := Health {
  queued_jobs : Z;
  inflight_jobs : Z;
  completion_jobs : Z;
  h_queued_bytes : Z;
  inflight_bytes : Z;
  high_water_jobs : Z;
  high_water_bytes : Z;
  submitted : Z;
  h_replaced : Z;
  h_applied : Z;
  connection_retries : Z;
  failures : Z;
  max_capture_to_apply_usec : Z;
  max_apply_usec : Z;
}.

Definition no_health : worker_health := Health 0 0 0 0 0 0 0 0 0 0 0 0 0 0.

(** What [worker_mutex] protects of the jobs. *)
Record jobs := Jobs {
  queue : list (nat * queued_job);
  next_node : nat;
  queued_by_owner : gmap persistence_job_owner nat;
  inflight : option queued_job;
  results : completion_queue;
  queued_bytes : Z;
}.

Definition no_jobs : jobs := Jobs [] 0 ∅ None empty_ring 0.

(** Where the writer thread stands between two locked regions. *)
Inductive writer_pc :=
| Exited
| Waiting
| Writing (started retries delay : Z)
| BackingOff (started retries delay : Z) (last : player_save_apply_result)
| Finishing (started retries : Z) (last : player_save_apply_result)
| Stopping.

Record worker := Worker {
  pending : jobs;
  pc : writer_pc;
  joinable : bool;
  apply_set : bool;
  journal_append : bool;
  journal_ack : bool;
  health : worker_health;
  running : bool;
  stop_pending : bool;
  stop_requested : bool;
  writer_exited : bool;
}.

Definition initial_worker : worker :=
  Worker no_jobs Exited false false false false no_health false false false true.

Definition inflight_size (s : jobs) : Z := from_option bytes 0 (inflight s).
Definition inflight_count (s : jobs) : nat := from_option (λ _, 1%nat) 0%nat (inflight s).
Definition pending_jobs (s : jobs) : nat :=
  (length (queue s) + inflight_count s + count (results s))%nat.

Definition update_depth_health (s : jobs) (h : worker_health) : worker_health :=
  let jobs_now := Z.of_nat (pending_jobs s) in
  Health (vsize (queue s)) (Z.of_nat (inflight_count s)) (Z.of_nat (count (results s)))
    (queued_bytes s) (inflight_size s)
    (update_max (high_water_jobs h) jobs_now)
    (update_max (high_water_bytes h) (queued_bytes s + inflight_size s))
    (submitted h) (h_replaced h) (h_applied h) (connection_retries h) (failures h)
    (max_capture_to_apply_usec h) (max_apply_usec h).

Definition with_jobs (s : jobs) (h : worker_health) (w : worker) : worker :=
  Worker s (pc w) (joinable w) (apply_set w) (journal_append w) (journal_ack w)
    (update_depth_health s h) (running w) (stop_pending w) (stop_requested w)
    (writer_exited w).
Definition at_pc (p : writer_pc) (w : worker) : worker :=
  Worker (pending w) p (joinable w) (apply_set w) (journal_append w) (journal_ack w)
    (health w) (running w) (stop_pending w) (stop_requested w) (writer_exited w).

(** ** Admission *)

(** The index names the node of the last queued job of the key. *)
Definition is_tail (node : nat) (s : jobs) : bool :=
  match last (queue s) with Some (n, _) => (n =? node)%nat | None => false end.
Definition node_job (node : nat) (s : jobs) : option queued_job :=
  snd <$> list.head (filter (λ p, p.1 = node) (queue s)).

Definition replaceable (job : queued_job) (s : jobs) : option queued_job :=
  match queued_by_owner s !! job_key job with
  | None => None
  | Some node =>
      match node_job node s with
      | Some old =>
          if is_tail node s && negb (death (snapshot job)) && negb (death (snapshot old))
          then Some old else None
      | None => None
      end
  end.

Definition set_node (node : nat) (job : queued_job) (q : list (nat * queued_job))
  : list (nat * queued_job) :=
  (λ p, if (p.1 =? node)%nat then (node, job) else p) <$> q.

(** The result, [errno] when it is set, and the caller's job where it is kept; [now] is the
    clock and [memory] whether the list and index nodes can be allocated. *)
Definition enqueue (now : Z) (memory : bool) (job : queued_job) (w : worker)
  : player_save_submit_result * option errno * worker :=
  let s := pending w in
  if negb (running w) || stop_requested w then (unavailable, Some ESHUTDOWN, w)
  else
    let old := replaceable job s in
    let retained := wrap 64 (queued_bytes s + inflight_size s - from_option bytes 0 old) in
    if (PLAYER_SAVE_WORKER_MAX_PENDING_BYTES <? bytes job)
       || (PLAYER_SAVE_WORKER_MAX_PENDING_BYTES - bytes job <? retained)
       || (negb (bool_decide (is_Some old))
           && (PLAYER_SAVE_WORKER_MAX_PENDING_JOBS <=? pending_jobs s)%nat)
    then (unavailable, Some ENOSPC, w)
    else
      let job := queued_at now job in
      match old, queued_by_owner s !! job_key job with
      | Some previous, Some node =>
          let s' := Jobs (set_node node job (queue s)) (next_node s) (queued_by_owner s)
                      (inflight s) (results s)
                      (wrap 64 (wrap 64 (queued_bytes s - bytes previous) + bytes job)) in
          let h := health w in
          (replaced, None, with_jobs s' (Health (queued_jobs h) (inflight_jobs h)
             (completion_jobs h) (h_queued_bytes h) (inflight_bytes h) (high_water_jobs h)
             (high_water_bytes h) (submitted h) (saturating_increment (h_replaced h))
             (h_applied h) (connection_retries h) (failures h)
             (max_capture_to_apply_usec h) (max_apply_usec h)) w)
      | _, _ =>
          if negb memory then (unavailable, Some ENOMEM, w)
          else
            let s' := Jobs (queue s ++ [(next_node s, job)]) (S (next_node s))
                        (<[job_key job := next_node s]> (queued_by_owner s))
                        (inflight s) (results s) (wrap 64 (queued_bytes s + bytes job)) in
            let h := health w in
            (accepted, None, with_jobs s' (Health (queued_jobs h) (inflight_jobs h)
               (completion_jobs h) (h_queued_bytes h) (inflight_bytes h) (high_water_jobs h)
               (high_water_bytes h) (saturating_increment (submitted h)) (h_replaced h)
               (h_applied h) (connection_retries h) (failures h)
               (max_capture_to_apply_usec h) (max_apply_usec h)) w)
      end.

Definition player_job (s : player_snapshot) : queued_job :=
  Job player (wrap 64 (pid s)) s None (encoded_size_bound s) 0.

Definition player_save_worker_submit (now : Z) (memory : bool) (s : player_snapshot)
    (w : worker) : player_save_submit_result * worker :=
  if negb (valid_snapshot s) then (invalid, w)
  else let '(r, _, w') := enqueue now memory (player_job s) w in (r, w').

(** The second component is the snapshot the caller still holds. *)
Definition player_save_worker_submit_retained (now : Z) (memory : bool) (s : player_snapshot)
    (w : worker) : player_save_submit_result * option player_snapshot * worker :=
  if negb (valid_snapshot s) then (invalid, Some s, w)
  else
    let '(r, e, w') := enqueue now memory (player_job s) w in
    if negb (bool_decide (r = unavailable)) then (r, None, w')
    else (if bool_decide (e = Some ESHUTDOWN) then worker_unavailable else capacity_exceeded,
          Some (snapshot (player_job s)), w').

Definition persistence_writer_submit (now : Z) (memory : bool) (k : persistence_job_kind)
    (o size : Z) (f : option W) (w : worker) : player_save_submit_result * worker :=
  if bool_decide (k = player) || negb (nz o) || negb (bool_decide (is_Some f))
  then (invalid, w)
  else let '(r, _, w') := enqueue now memory (Job k o no_snapshot f size 0) w in (r, w').

(** ** Writing one job *)

Definition write_job (env : attempt) (w : worker) (job : queued_job)
  : player_save_apply_result :=
  match kind job with
  | player =>
      caught (if journal_append w then on_append env else Returned true) (λ appended,
      if negb appended then failure retryable_failure EIO
      else caught (on_apply env) (λ r,
      caught (if succeeded (outcome r) && journal_ack w then on_ack env else Returned true)
        (λ acked, if negb acked then failure retryable_failure EIO else r)))
  | _ => caught (on_write env) (λ r, r)
  end.

(** ** The writer thread *)

(** The first locked region; [None] while it waits. *)
Definition writer_take (now : Z) (w : worker) : option worker :=
  let s := pending w in
  match pc w with
  | Waiting =>
  if stop_requested w then Some (at_pc Stopping w)
  else match queue s with
  | [] => None
  | (node, job) :: rest =>
      let index :=
        match queued_by_owner s !! job_key job with
        | Some n => if (n =? node)%nat then delete (job_key job) (queued_by_owner s)
                    else queued_by_owner s
        | None => queued_by_owner s
        end in
      let s' := Jobs rest (next_node s) index (Some job) (results s)
                  (wrap 64 (queued_bytes s - bytes job)) in
      Some (at_pc (Writing now 0 PLAYER_SAVE_WORKER_RETRY_INITIAL_MSEC)
              (with_jobs s' (health w) w))
  end
  | _ => None
  end.

(** An attempt, and the region that counts its failure. *)
Definition writer_attempt (mysql_ready : bool) (env : attempt) (w : worker) : option worker :=
  match pc w, inflight (pending w) with
  | Writing started retries delay, Some job =>
      let r := if mysql_ready then write_job env w job
               else failure retryable_failure ENOTCONN in
      if negb (connection_lost (outcome r)) then Some (at_pc (Finishing started retries r) w)
      else
        let h := health w in
        Some (Worker (pending w) (BackingOff started (wrap 32 (retries + 1)) delay r)
          (joinable w) (apply_set w) (journal_append w) (journal_ack w)
          (Health (queued_jobs h) (inflight_jobs h) (completion_jobs h) (h_queued_bytes h)
             (inflight_bytes h) (high_water_jobs h) (high_water_bytes h) (submitted h)
             (h_replaced h) (h_applied h) (saturating_increment (connection_retries h))
             (failures h) (max_capture_to_apply_usec h) (max_apply_usec h))
          (running w) (stop_pending w) (stop_requested w) (writer_exited w))
  | _, _ => None
  end.

(** The end of the back-off: a stop, or the next attempt with twice the delay. *)
Definition writer_wake (w : worker) : option worker :=
  match pc w with
  | BackingOff started retries delay r =>
      Some (at_pc (if stop_requested w then Finishing started retries r
                   else Writing started retries
                          (Z.min (delay * 2) PLAYER_SAVE_WORKER_RETRY_MAX_MSEC)) w)
  | _ => None
  end.

Definition completion_of (job : queued_job) (r : player_save_apply_result)
    (retries started completed : Z) : player_save_completion :=
  let is_player := bool_decide (kind job = player) in
  Completion (kind job) (owner job)
    (if is_player then pid (snapshot job) else 0)
    (if is_player then s_revision (snapshot job) else 0)
    (if is_player then s_components (snapshot job) else 0)
    (outcome r)
    (if nz (durable_revision r) then durable_revision r
     else if is_player then s_revision (snapshot job) else 0)
    (error_code r) retries (queued_at_usec job) started completed (failed_field r)
    (rolled_back r).

(** The last locked region of a job. *)
Definition writer_finish (now : Z) (w : worker) : option worker :=
  match pc w, inflight (pending w) with
  | Finishing started retries r, Some job =>
      let s := pending w in
      let h := health w in
      let h' := Health (queued_jobs h) (inflight_jobs h) (completion_jobs h)
        (h_queued_bytes h) (inflight_bytes h) (high_water_jobs h) (high_water_bytes h)
        (submitted h) (h_replaced h)
        (if succeeded (outcome r) then saturating_increment (h_applied h) else h_applied h)
        (connection_retries h)
        (if negb (succeeded (outcome r)) && negb (connection_lost (outcome r))
         then saturating_increment (failures h) else failures h)
        (update_max (max_capture_to_apply_usec h) (wrap 64 (started - queued_at_usec job)))
        (update_max (max_apply_usec h) (wrap 64 (now - started))) in
      let s' :=
        if negb (stop_requested w) || negb (connection_lost (outcome r))
        then Jobs (queue s) (next_node s) (queued_by_owner s) None
               (ring_push (completion_of job r retries started now) (results s))
               (queued_bytes s)
        else s in
      Some (at_pc (if stop_requested w then Stopping else Waiting) (with_jobs s' h' w))
  | _, _ => None
  end.

Definition writer_exit (w : worker) : option worker :=
  match pc w with
  | Stopping => Some (Worker (pending w) Exited (joinable w) (apply_set w) (journal_append w)
      (journal_ack w) (health w) (running w) (stop_pending w) (stop_requested w) true)
  | _ => None
  end.

(** ** Control, and the game thread *)

Definition player_save_worker_init (apply_given thread_ok : bool) (w : worker) : bool * worker :=
  if negb apply_given then (false, w)
  else if running w || joinable w || negb (writer_exited w) then (false, w)
  else if thread_ok then
    (true, Worker (pending w) Waiting true true (journal_append w) (journal_ack w) (health w)
             true false false false)
  else
    (false, Worker (pending w) (pc w) (joinable w) false (journal_append w) (journal_ack w)
              (health w) false false false true).

Definition idle (w : worker) : bool :=
  match queue (pending w), inflight (pending w) with [], None => true | _, _ => false end.

Definition player_save_worker_set_journal_hooks (append acknowledge : bool) (w : worker)
  : bool * worker :=
  if (append && negb acknowledge) || negb (idle w) then (false, w)
  else (true, Worker (pending w) (pc w) (joinable w) (apply_set w) append acknowledge (health w)
                (running w) (stop_pending w) (stop_requested w) (writer_exited w)).

(** The region that asks the writer to stop, and the one after it has. *)
Definition shutdown_request (w : worker) : worker :=
  Worker (pending w) (pc w) (joinable w) (apply_set w) (journal_append w) (journal_ack w)
    (health w) (running w) true true (writer_exited w).
(** [joinable] ends by [join], which waits for the writer, or by [detach] after the grace. *)
Definition shutdown_finish (detached : bool) (w : worker) : option worker :=
  if stop_requested w && (detached || negb (joinable w) || match pc w with Exited => true | _ => false end)
  then
    Some (Worker (pending w) (pc w) false false (journal_append w) (journal_ack w) (health w)
            false false (stop_requested w) (writer_exited w))
  else None.

Fixpoint pulse_loop (capacity : nat) (r : completion_queue)
  : list player_save_completion * completion_queue :=
  match capacity, count r with
  | S capacity, S _ =>
      let (out, r') := pulse_loop capacity (ring_pop r) in
      (option_list (ring_at r 0) ++ out, r')
  | _, _ => ([], r)
  end.

Definition player_save_worker_pulse (capacity : nat) (w : worker)
  : list player_save_completion * worker :=
  let s := pending w in
  let (out, r) := pulse_loop capacity (results s) in
  (out, with_jobs (Jobs (queue s) (next_node s) (queued_by_owner s) (inflight s) r
                     (queued_bytes s)) (health w) w).

Definition player_save_worker_pid_pending (p : Z) (w : worker) : bool :=
  let s := pending w in
  if p <=? 0 then false
  else from_option (λ j, bool_decide (kind j = player) && (pid (snapshot j) =? p)) false
         (inflight s)
       || bool_decide (is_Some (queued_by_owner s !! (player, p)))
       || existsb (λ i, from_option (λ c, bool_decide (c_kind c = player) && (c_pid c =? p))
                          false (ring_at (results s) i)) (seq 0 (count (results s))).

Definition persistence_writer_pending (k : persistence_job_kind) (o : Z) (w : worker) : bool :=
  from_option (λ j, bool_decide (kind j = k) && (owner j =? o)) false (inflight (pending w))
  || bool_decide (is_Some (queued_by_owner (pending w) !! (k, o))).

Definition persistence_writer_pending_owners (w : worker) : list persistence_job_owner :=
  option_list (job_key <$> inflight (pending w)) ++ (job_key ∘ snd <$> queue (pending w)).

(** What the wait reports when it ends; [None] while it goes on. *)
Definition persistence_writer_wait_idle (timed_out : bool) (w : worker) : option bool :=
  if timed_out || idle w || negb (running w) then Some (idle w) else None.

(** After its shutdown, once the writer has exited. *)
Definition player_save_worker_reset_for_tests (w : worker) : option worker :=
  if writer_exited w then
    let s := pending w in
    Some (Worker (Jobs [] (next_node s) ∅ None (ring_clear (results s)) 0) (pc w) (joinable w)
            (apply_set w) false false no_health false false false true)
  else None.

(** The age in the copied health. *)
Definition oldest_age_msec (current : Z) (s : jobs) : Z :=
  let age at_usec := (current - at_usec) / 1000 in
  let oldest :=
    match inflight s with
    | Some j => if queued_at_usec j <=? current then age (queued_at_usec j) else 0
    | None => 0
    end in
  match queue s with
  | (_, j) :: _ =>
      if queued_at_usec j <=? current then update_max oldest (age (queued_at_usec j))
      else oldest
  | [] => oldest
  end.
Definition age_limit_exceeded (current : Z) (s : jobs) : bool :=
  PLAYER_SAVE_WORKER_MAX_AGE_MSEC <? oldest_age_msec current s.

(** ** Histories *)

(** What happened so far: the accepted captures in order; the jobs the writer is through
    with, each with its completion; the completions the game has consumed; and whether the
    writer was ever restarted over a job a shutdown had left unfinished. *)
Record history := History {
  h_accepted : list queued_job;
  h_done : list (queued_job * option player_save_completion);
  h_delivered : list player_save_completion;
  h_restarted : bool;
}.

Inductive worker_call :=
| CSubmit (now : Z) (memory : bool) (s : player_snapshot)
| CWrite (now : Z) (memory : bool) (k : persistence_job_kind) (o size : Z) (f : option W)
| CTake (now : Z)
| CAttempt (mysql_ready : bool) (env : attempt)
| CWake
| CFinish (now : Z)
| CExit
| CInit (apply_given thread_ok : bool)
| CHooks (append acknowledge : bool)
| CShutdown
| CStopped (detached : bool)
| CPulse (capacity : nat).

Definition worker_call_typed (c : worker_call) : Prop :=
  match c with
  | CWrite _ _ _ o size _ => u64 o ∧ u64 size
  | CSubmit _ _ s => i32 (pid s) ∧ u64 (encoded_size_bound s)
  | _ => True
  end.

Definition is_accepted (r : player_save_submit_result) : bool :=
  match r with accepted | replaced => true | _ => false end.

Definition note_accepted (r : player_save_submit_result) (j : queued_job) (h : history) : history :=
  if is_accepted r
  then History (h_accepted h ++ [j]) (h_done h) (h_delivered h) (h_restarted h) else h.
Definition note_done (d : option (queued_job * option player_save_completion)) (h : history) : history :=
  History (h_accepted h) (h_done h ++ option_list d) (h_delivered h) (h_restarted h).

(** One call; a call the thread is not at is no step. *)
Definition run_call (c : worker_call) (st : worker * history) : worker * history :=
  let '(w, h) := st in
  match c with
  | CSubmit now memory s =>
      let '(r, w') := player_save_worker_submit now memory s w in
      (w', note_accepted r (queued_at now (player_job s)) h)
  | CWrite now memory k o size f =>
      let '(r, w') := persistence_writer_submit now memory k o size f w in
      (w', note_accepted r (queued_at now (Job k o no_snapshot f size 0)) h)
  | CTake now =>
      match writer_take now w with
      | Some w' =>
          (w', if stop_requested w then h
               else note_done ((λ j, (j, None)) <$> inflight (pending w)) h)
      | None => st
      end
  | CAttempt ready env => (default w (writer_attempt ready env w), h)
  | CWake => (default w (writer_wake w), h)
  | CFinish now =>
      match writer_finish now w with
      | Some w' =>
          (w', match inflight (pending w), inflight (pending w'), pc w with
               | Some j, None, Finishing started retries r =>
                   note_done (Some (j, Some (completion_of j r retries started now))) h
               | _, _, _ => h
               end)
      | None => st
      end
  | CExit => (default w (writer_exit w), h)
  | CInit given ok =>
      let '(started, w') := player_save_worker_init given ok w in
      (w', if started && bool_decide (is_Some (inflight (pending w)))
           then History (h_accepted h) (h_done h) (h_delivered h) true else h)
  | CHooks a b => ((player_save_worker_set_journal_hooks a b w).2, h)
  | CShutdown => (shutdown_request w, h)
  | CStopped detached => (default w (shutdown_finish detached w), h)
  | CPulse capacity =>
      let '(out, w') := player_save_worker_pulse capacity w in
      (w', History (h_accepted h) (h_done h) (h_delivered h ++ out) (h_restarted h))
  end.

Definition run_calls (cs : list worker_call) : worker * history :=
  foldl (λ st c, run_call c st) (initial_worker, History [] [] [] false) cs.

(** ** Invariants *)

Definition total_bytes (q : list queued_job) : Z := foldr Z.add 0 (bytes <$> q).

Definition newest (k : persistence_job_owner) (q : list (nat * queued_job))
  : option (nat * queued_job) := last (filter (λ p, job_key p.2 = k) q).

Record jobs_inv (s : jobs) : Prop := {
  inv_nodes : NoDup (queue s).*1;
  inv_fresh : Forall (λ p, (p.1 < next_node s)%nat) (queue s);
  inv_index : ∀ k, queued_by_owner s !! k = fst <$> newest k (queue s);
  inv_total : queued_bytes s = total_bytes (queue s).*2;
  inv_sizes : Forall (λ j, 0 <= bytes j) ((queue s).*2 ++ option_list (inflight s));
  inv_retained : queued_bytes s + inflight_size s <= PLAYER_SAVE_WORKER_MAX_PENDING_BYTES;
  inv_count : (pending_jobs s <= PLAYER_SAVE_WORKER_MAX_PENDING_JOBS)%nat;
  inv_ring : length (entries (results s)) = PLAYER_SAVE_WORKER_MAX_PENDING_JOBS;
}.

Lemma total_bytes_app q q' : total_bytes (q ++ q') = total_bytes q + total_bytes q'.
Proof.
  unfold total_bytes. induction q as [|j q IH]; csimpl; [done|].
  fold (total_bytes (q ++ q')) in *. lia.
Qed.
Lemma total_bytes_nonneg q : Forall (λ j, 0 <= bytes j) q → 0 <= total_bytes q.
Proof. unfold total_bytes. induction 1; csimpl; lia. Qed.

Lemma newest_app k q q' : newest k (q ++ q') = match newest k q' with Some p => Some p | None => newest k q end.
Proof. unfold newest. rewrite filter_app, last_app. by destruct (last _). Qed.
Lemma newest_single k n j : newest k [(n, j)] = if bool_decide (job_key j = k) then Some (n, j) else None.
Proof. unfold newest. rewrite filter_cons. simpl. by case_decide; case_bool_decide. Qed.
Lemma newest_elem k q p : newest k q = Some p → p ∈ q ∧ job_key p.2 = k.
Proof.
  intros H. apply last_Some_elem_of, list_elem_of_filter in H. tauto.
Qed.

Lemma node_job_elem s n j :
  NoDup (queue s).*1 → (n, j) ∈ queue s → node_job n s = Some j.
Proof.
  unfold node_job. induction (queue s) as [|[m i] q IH]; [set_solver|].
  csimpl. intros N I. inversion N as [|? ? Hn N']; subst. rewrite filter_cons. simpl.
  case_decide as Heq.
  - subst. simpl. apply elem_of_cons in I as [[= ->]|I]; [done|].
    destruct Hn. by apply (list_elem_of_fmap_2 fst) in I.
  - apply IH; [done|]. set_solver.
Qed.

(** Whether the next capture replaces the last job, read off the queue. *)
Definition replaces (job old : queued_job) : bool :=
  bool_decide (job_key old = job_key job) && negb (death (snapshot job))
  && negb (death (snapshot old)).
Definition spec_replaceable (job : queued_job) (q : list queued_job) : option queued_job :=
  match last q with
  | Some old => if replaces job old then Some old else None
  | None => None
  end.

Lemma replaceable_spec job s : jobs_inv s →
  replaceable job s = spec_replaceable job (queue s).*2.
Proof.
  intros []. unfold replaceable, spec_replaceable, is_tail. rewrite inv_index0, fmap_last.
  destruct (queue s) as [|p q _] eqn:Q using rev_ind; [done|].
  rewrite newest_app, last_snoc. destruct p as [m old]. rewrite newest_single. simpl.
  unfold replaces. case_bool_decide as K; simpl.
  - rewrite Nat.eqb_refl. erewrite (node_job_elem s m old); [|by rewrite Q|rewrite Q; set_solver].
    done.
  - destruct (newest (job_key job) q) as [[n j]|] eqn:N; [|done]. simpl.
    destruct (node_job n s); [|done]. rewrite (proj2 (Nat.eqb_neq _ _)); [done|].
    intros ->. apply newest_elem in N as [N _]. rewrite fmap_app in inv_nodes0.
    apply NoDup_app in inv_nodes0 as (_ & D & _). apply (D n); [|set_solver].
    by apply (list_elem_of_fmap_2 fst) in N.
Qed.

Lemma spec_replaceable_Some job q old : spec_replaceable job q = Some old →
  ∃ front, q = front ++ [old] ∧ replaces job old = true.
Proof.
  unfold spec_replaceable. destruct (last q) as [j|] eqn:L; [|done].
  destruct (replaces job j) eqn:R; [|done]. intros [= ->]. apply last_Some in L as [front ->].
  by exists front.
Qed.

Lemma set_node_last n old job front :
  NoDup (front ++ [(n, old)]).*1 → set_node n job (front ++ [(n, old)]) = front ++ [(n, job)].
Proof.
  intros N. unfold set_node. rewrite fmap_app in N. rewrite fmap_app. csimpl. rewrite Nat.eqb_refl. f_equal.
  apply NoDup_app in N as (_ & D & _). rewrite <- (list_fmap_id front) at 2.
  apply list_fmap_ext. intros i [m j] I. simpl. rewrite (proj2 (Nat.eqb_neq _ _)); [done|].
  intros ->. apply list_elem_of_lookup_2 in I. apply (D n); [|set_solver].
  by apply (list_elem_of_fmap_2 fst) in I.
Qed.

(** Admission, on the queue of jobs. *)
Definition spec_admit (job : queued_job) (q : list queued_job) : list queued_job :=
  match spec_replaceable job q with
  | Some _ => removelast q ++ [job]
  | None => q ++ [job]
  end.

(** The bytes and jobs of a capture fit beside what stays. *)
Definition spec_fits (job : queued_job) (s : jobs) : bool :=
  let q := (queue s).*2 in
  let old := spec_replaceable job q in
  (total_bytes q + inflight_size s - from_option bytes 0 old + bytes job
   <=? PLAYER_SAVE_WORKER_MAX_PENDING_BYTES)
  && (bool_decide (is_Some old)
      || (pending_jobs s <? PLAYER_SAVE_WORKER_MAX_PENDING_JOBS)%nat).

Definition jobs_replace (now : Z) (job : queued_job) (s : jobs) : jobs :=
  match queued_by_owner s !! job_key job with
  | Some node =>
      Jobs (set_node node (queued_at now job) (queue s)) (next_node s) (queued_by_owner s)
        (inflight s) (results s) (total_bytes (spec_admit (queued_at now job) (queue s).*2))
  | None => s
  end.
Definition jobs_append (now : Z) (job : queued_job) (s : jobs) : jobs :=
  Jobs (queue s ++ [(next_node s, queued_at now job)]) (S (next_node s))
    (<[job_key job := next_node s]> (queued_by_owner s)) (inflight s) (results s)
    (total_bytes (spec_admit (queued_at now job) (queue s).*2)).

Lemma inflight_size_nonneg s : jobs_inv s → 0 <= inflight_size s.
Proof.
  intros []. unfold inflight_size. destruct (inflight s); simpl in *; [|lia].
  apply Forall_app in inv_sizes0 as [_ F]. by inversion F.
Qed.
Lemma queue_sizes s : jobs_inv s → Forall (λ j, 0 <= bytes j) (queue s).*2.
Proof. intros []. by apply Forall_app in inv_sizes0 as [? _]. Qed.

Lemma replaced_size job s old : jobs_inv s →
  spec_replaceable job (queue s).*2 = Some old →
  0 <= bytes old <= total_bytes (queue s).*2.
Proof.
  intros I R. apply spec_replaceable_Some in R as (front & Q & _).
  pose proof (queue_sizes s I) as F. rewrite Q in *. apply Forall_app in F as [F1 F2].
  inversion F2; subst. rewrite total_bytes_app. apply total_bytes_nonneg in F1.
  unfold total_bytes at 2. simpl. lia.
Qed.

Lemma wrap_id w x : fits w x → wrap w x = x.
Proof. unfold fits, wrap. intros. by apply Z.mod_small. Qed.

Lemma max_pending_bytes : PLAYER_SAVE_WORKER_MAX_PENDING_BYTES = 134217728.
Proof. done. Qed.

(** Why a capture is refused. *)
Definition spec_refusal (memory : bool) (job : queued_job) (w : worker) : option errno :=
  if negb (running w) || stop_requested w then Some ESHUTDOWN
  else if negb (spec_fits job (pending w)) then Some ENOSPC
  else if negb memory && negb (bool_decide (is_Some (spec_replaceable job (queue (pending w)).*2)))
  then Some ENOMEM else None.

Lemma retained_spec job s : jobs_inv s → u64 (bytes job) →
  let old := replaceable job s in
  ((PLAYER_SAVE_WORKER_MAX_PENDING_BYTES <? bytes job)
   || (PLAYER_SAVE_WORKER_MAX_PENDING_BYTES - bytes job
       <? wrap 64 (queued_bytes s + inflight_size s - from_option bytes 0 old))
   || (negb (bool_decide (is_Some old))
       && (PLAYER_SAVE_WORKER_MAX_PENDING_JOBS <=? pending_jobs s)%nat))
  = negb (spec_fits job s).
Proof.
  intros I Hb old. subst old. rewrite (replaceable_spec _ _ I). unfold spec_fits.
  rewrite (inv_total _ I). pose proof (inv_retained _ I) as R. rewrite (inv_total _ I) in R.
  pose proof (inflight_size_nonneg _ I). pose proof (total_bytes_nonneg _ (queue_sizes _ I)).
  pose proof (replaced_size job s) as RS.
  rewrite max_pending_bytes in *.
  assert (0 <= from_option bytes 0 (spec_replaceable job (queue s).*2) <= total_bytes (queue s).*2) as O.
  { destruct (spec_replaceable _ _); simpl; [by apply RS|lia]. }
  rewrite wrap_id by (unfold fits in *; lia). rewrite negb_andb, negb_orb. f_equal.
  - unfold fits in *.
    destruct (Z.leb_spec (total_bytes (queue s).*2 + inflight_size s
      - from_option bytes 0 (spec_replaceable job (queue s).*2) + bytes job) 134217728);
    simpl; [apply orb_false_iff; rewrite !Z.ltb_ge; lia|].
    apply orb_true_iff. rewrite !Z.ltb_lt. lia.
  - f_equal. by rewrite <- Nat.leb_antisym.
Qed.

Lemma spec_admit_bytes now job q : 
  total_bytes (spec_admit (queued_at now job) q)
  = total_bytes q - from_option bytes 0 (spec_replaceable job q) + bytes job.
Proof.
  unfold spec_admit. change (spec_replaceable (queued_at now job) q) with (spec_replaceable job q).
  destruct (spec_replaceable job q) as [old|] eqn:R.
  - apply spec_replaceable_Some in R as (front & -> & _).
    rewrite removelast_last, !total_bytes_app. unfold total_bytes. simpl. lia.
  - rewrite total_bytes_app. unfold total_bytes. simpl. lia.
Qed.

Lemma enqueue_cases now memory job w r e w' :
  jobs_inv (pending w) → u64 (bytes job) → enqueue now memory job w = (r, e, w') →
  e = spec_refusal memory job w ∧
  match e with
  | Some _ => r = unavailable ∧ w' = w
  | None =>
      spec_fits job (pending w) = true ∧ ∃ h,
      match spec_replaceable job (queue (pending w)).*2 with
      | Some _ => r = replaced ∧ w' = with_jobs (jobs_replace now job (pending w)) h w
      | None => r = accepted ∧ w' = with_jobs (jobs_append now job (pending w)) h w
      end
  end.
Proof.
  intros I Hb. unfold enqueue, spec_refusal.
  destruct (negb (running w) || stop_requested w); [by intros [= <- <- <-]|].
  rewrite (retained_spec job (pending w) I Hb), (replaceable_spec _ _ I).
  destruct (spec_fits job (pending w)) eqn:F; simpl; [|by intros [= <- <- <-]].
  unfold spec_fits in F. apply andb_prop in F as [F _]. apply Z.leb_le in F.
  pose proof (inflight_size_nonneg _ I). pose proof (total_bytes_nonneg _ (queue_sizes _ I)).
  pose proof (inv_total _ I) as T. rewrite max_pending_bytes in F.
  change (job_key (queued_at now job)) with (job_key job).
  change (bytes (queued_at now job)) with (bytes job).
  destruct (spec_replaceable job (queue (pending w)).*2) as [old|] eqn:R; simpl in F |- *.
  - rewrite andb_false_r. 
    pose proof (replaced_size _ _ _ I R) as RS. unfold fits in Hb.
    destruct (queued_by_owner (pending w) !! job_key job) as [node|] eqn:L.
    + intros [= <- <- <-]. split; [done|]. split; [done|]. eexists. split; [done|].
      unfold jobs_replace. rewrite L, spec_admit_bytes, R, T. simpl.
      rewrite (wrap_id 64 (_ - _)) by (unfold fits; lia).
      rewrite wrap_id by (unfold fits; lia). done.
    + rewrite <- (replaceable_spec _ _ I) in R. unfold replaceable in R. by rewrite L in R.
  - rewrite andb_true_r. destruct memory; simpl; [|by intros [= <- <- <-]].
    intros [= <- <- <-]. split; [done|]. split; [done|]. eexists. split; [done|].
    unfold jobs_append. rewrite spec_admit_bytes, R, T. simpl. unfold fits in Hb.
    rewrite wrap_id by (unfold fits; lia). do 3 f_equal. lia.
Qed.

Lemma jobs_append_inv now job s :
  jobs_inv s → 0 <= bytes job → spec_replaceable job (queue s).*2 = None →
  spec_fits job s = true → jobs_inv (jobs_append now job s).
Proof.
  intros I Hb R F. unfold spec_fits in F. rewrite R in F. simpl in F. bool_prop. destruct I.
  constructor; unfold jobs_append; simpl; try done.
  - rewrite fmap_app. simpl. apply NoDup_app. split_and!; [done| |apply NoDup_singleton].
    intros n I. rewrite list_elem_of_singleton. intros ->.
    apply list_elem_of_fmap in I as [[m j] [Heq I]]. rewrite Forall_forall in inv_fresh0.
    apply inv_fresh0 in I. simpl in *. lia.
  - apply Forall_app. split; [|by repeat constructor; simpl; lia].
    eapply Forall_impl; [done|]. simpl. lia.
  - intros k. rewrite newest_app, newest_single, lookup_insert.
    change (job_key (queued_at now job)) with (job_key job).
    case_decide; case_bool_decide; done.
  - rewrite spec_admit_bytes, R, fmap_app, total_bytes_app. unfold total_bytes. simpl. lia.
  - rewrite fmap_app, !Forall_app in *. simpl. repeat split; try tauto. repeat constructor. done.
  - rewrite spec_admit_bytes, R. unfold inflight_size in *. simpl. lia.
  - unfold pending_jobs, inflight_count in *. simpl. rewrite length_app. simpl. lia.
Qed.

(** The parts of a queue whose last job the next capture replaces. *)
Lemma replaceable_queue job s old : jobs_inv s →
  spec_replaceable job (queue s).*2 = Some old →
  ∃ front node, queue s = front ++ [(node, old)] ∧ replaces job old = true
    ∧ queued_by_owner s !! job_key job = Some node.
Proof.
  intros I R. apply spec_replaceable_Some in R as (front & Q & R).
  destruct (queue s) as [|[node j] q _] eqn:Q' using rev_ind; [by destruct front|].
  rewrite fmap_app in Q. simpl in Q. apply app_inj_tail in Q as [_ ->].
  exists q, node. split_and!; [done|done|]. rewrite (inv_index _ I), Q', newest_app, newest_single.
  unfold replaces in R. bool_prop. by rewrite bool_decide_eq_true_2.
Qed.

Lemma jobs_replace_queue now job s old : jobs_inv s →
  spec_replaceable job (queue s).*2 = Some old →
  (queue (jobs_replace now job s)).*2 = spec_admit (queued_at now job) (queue s).*2.
Proof.
  intros I R. unfold spec_admit.
  change (spec_replaceable (queued_at now job)) with (spec_replaceable job). rewrite R.
  destruct (replaceable_queue _ _ _ I R) as (front & node & Q & K & L).
  unfold jobs_replace. rewrite L. simpl. pose proof (inv_nodes _ I) as N. rewrite Q in *.
  rewrite set_node_last by done. rewrite !fmap_app. simpl. by rewrite removelast_last.
Qed.

Lemma jobs_replace_inv now job s old :
  jobs_inv s → 0 <= bytes job → spec_replaceable job (queue s).*2 = Some old →
  spec_fits job s = true → jobs_inv (jobs_replace now job s).
Proof.
  intros I Hb R F. assert (QR := jobs_replace_queue now job s old I R).
  destruct (replaceable_queue _ _ _ I R) as (front & node & Q & K & L).
  unfold spec_fits in F. rewrite R in F. simpl in F. bool_prop.
  assert (set_node node (queued_at now job) (queue s) = front ++ [(node, queued_at now job)]) as SN.
  { rewrite Q. apply set_node_last. rewrite <- Q. apply I. }
  unfold jobs_replace in *. rewrite L in *. simpl in QR. destruct I.
  constructor; simpl; rewrite ?SN in *; try done.
  - rewrite Q in inv_nodes0. by rewrite fmap_app in *.
  - rewrite Q, Forall_app in inv_fresh0. destruct inv_fresh0 as [F1 F2]. apply Forall_app.
    split; [done|]. inversion F2. by repeat constructor.
  - intros k. rewrite inv_index0, Q, !newest_app, !newest_single.
    change (job_key (queued_at now job)) with (job_key job).
    assert (job_key old = job_key job) as -> by (unfold replaces in K; by bool_prop).
    by case_bool_decide.
  - by rewrite QR.
  - rewrite Q, !fmap_app, !Forall_app in *. simpl in *. repeat split; try tauto.
    by repeat constructor.
  - rewrite spec_admit_bytes, R. unfold inflight_size in *. simpl in *. lia.
  - unfold pending_jobs, inflight_count in *. simpl. rewrite Q in inv_count0.
    rewrite length_app in *. done.
Qed.

Lemma total_bytes_cons j q : total_bytes (j :: q) = bytes j + total_bytes q.
Proof. done. Qed.

(** What a take leaves of the jobs. *)
Definition jobs_take (s : jobs) : jobs :=
  match queue s with
  | [] => s
  | (node, job) :: rest =>
      Jobs rest (next_node s)
        (match queued_by_owner s !! job_key job with
         | Some n => if (n =? node)%nat then delete (job_key job) (queued_by_owner s)
                     else queued_by_owner s
         | None => queued_by_owner s
         end) (Some job) (results s) (total_bytes rest.*2)
  end.

Lemma newest_cons k n j q :
  newest k ((n, j) :: q) = match newest k q with
                           | Some p => Some p
                           | None => if bool_decide (job_key j = k) then Some (n, j) else None
                           end.
Proof. change ((n, j) :: q) with ([(n, j)] ++ q). by rewrite newest_app, newest_single. Qed.

Lemma jobs_take_inv s : jobs_inv s → jobs_inv (jobs_take s).
Proof.
  intros I. pose proof (queue_sizes _ I) as FS. pose proof (inflight_size_nonneg _ I).
  unfold jobs_take. destruct (queue s) as [|[node job] rest] eqn:Q; [done|].
  destruct I. rewrite Q in *. csimpl in *. constructor; simpl; try done.
  - by inversion inv_nodes0.
  - by inversion inv_fresh0.
  - intros k. inversion inv_nodes0 as [|? ? Hn _]; subst.
    rewrite !inv_index0, newest_cons, bool_decide_eq_true_2 by done.
    assert (∀ p, newest (job_key job) rest = Some p → p.1 ≠ node) as D.
    { intros p N Hp. apply newest_elem in N as [N _]. apply (list_elem_of_fmap_2 fst) in N.
      apply Hn. by rewrite <- Hp. }
    destruct (newest (job_key job) rest) as [p|] eqn:N; simpl.
    + rewrite (proj2 (Nat.eqb_neq _ _)) by by apply D.
      rewrite inv_index0, newest_cons. destruct (newest k rest) eqn:N2; [done|].
      case_bool_decide; [subst; congruence|done].
    + rewrite Nat.eqb_refl, lookup_delete, inv_index0, newest_cons.
      case_decide; [by subst; rewrite N|].
      destruct (newest k rest); [done|]. by rewrite bool_decide_eq_false_2.
  - by apply Forall_app; inversion FS; repeat constructor.
  - inversion FS; subst. unfold inflight_size in *. simpl in *. rewrite inv_total0 in inv_retained0.
    rewrite total_bytes_cons in inv_retained0. lia.
  - unfold pending_jobs, inflight_count in *. simpl in *. rewrite Q in inv_count0. simpl in *. lia.
Qed.

(** ** The ring refines a list *)

Record ring_inv (q : completion_queue) : Prop := {
  ring_nonempty : entries q ≠ [];
  ring_count : (count q <= length (entries q))%nat;
}.

Lemma ring_lookup q i : ring_inv q → (i < count q)%nat → is_Some (ring_at q i).
Proof.
  intros [] L. unfold ring_at, ring_index. apply lookup_lt_is_Some, Nat.mod_upper_bound.
  by destruct (entries q).
Qed.

(** Distinct positions of the ring are distinct entries. *)
Lemma ring_index_inj q i j :
  (i < length (entries q))%nat → (j < length (entries q))%nat →
  ring_index q i = ring_index q j → i = j.
Proof.
  unfold ring_index. intros Hi Hj Heq. set (n := length (entries q)) in *.
  pose proof (Nat.div_mod_eq (head q + i) n). pose proof (Nat.div_mod_eq (head q + j) n).
  rewrite Heq in *. clear Heq.
  generalize dependent ((head q + j) mod n)%nat.
  generalize dependent ((head q + i) / n)%nat. generalize dependent ((head q + j) / n)%nat.
  intros b a Ha r Hb. destruct (Nat.lt_trichotomy a b) as [?|[->|?]]; nia.
Qed.

Lemma omap_ext_seq {A} (f g : nat → option A) m n :
  (∀ i, (i < n)%nat → f (m + i)%nat = g (m + i)%nat) → omap f (seq m n) = omap g (seq m n).
Proof.
  intros H. apply list_omap_ext. apply Forall2_same_length_lookup_2; [done|].
  intros i x y Hx Hy. rewrite Hx in Hy. simplify_eq. apply lookup_seq in Hx as [-> L]. by apply H.
Qed.

Lemma omap_shift {A} (f g : nat → option A) m n :
  (∀ i, f (S i) = g i) → omap f (seq (S m) n) = omap g (seq m n).
Proof.
  intros H. revert m. induction n as [|n IH]; intros m; simpl; [done|]. by rewrite H, IH.
Qed.

Lemma omap_length_all {A} (f : nat → option A) l :
  (∀ i, i ∈ l → is_Some (f i)) → length (omap f l) = length l.
Proof.
  induction l as [|i l IH]; intros H; [done|]. simpl.
  destruct (H i) as [x Hx]; [set_solver|]. rewrite Hx. simpl. f_equal. apply IH. set_solver.
Qed.

Lemma ring_contents_length q : ring_inv q → length (ring_contents q) = count q.
Proof.
  intros R. unfold ring_contents. rewrite omap_length_all, length_seq; [done|].
  intros i I. apply ring_lookup; [done|]. apply elem_of_seq in I. lia.
Qed.

Lemma ring_push_contents c q : ring_inv q → (count q < length (entries q))%nat →
  ring_inv (ring_push c q) ∧ ring_contents (ring_push c q) = ring_contents q ++ [c].
Proof.
  intros R L. split.
  { destruct R. constructor; simpl; rewrite ?length_insert; [|lia].
    intros E0. apply (f_equal length) in E0. rewrite length_insert in E0. simpl in E0. lia. }
  unfold ring_contents. change (count (ring_push c q)) with (S (count q)).
  rewrite seq_S, omap_app. f_equal.
  - apply omap_ext_seq. simpl. intros i Hi. unfold ring_at, ring_index. simpl.
    rewrite length_insert, list_lookup_insert_ne; [done|].
    intros E0. apply (ring_index_inj q) in E0; lia.
  - simpl. unfold ring_at at 1, ring_index at 1. simpl. rewrite length_insert.
    rewrite list_lookup_insert_eq; [done|]. apply Nat.mod_upper_bound. lia.
Qed.

Lemma ring_pop_contents c q : ring_inv q → (0 < count q)%nat → ring_at q 0 = Some c →
  ring_inv (ring_pop q) ∧ ring_contents q = c :: ring_contents (ring_pop q).
Proof.
  intros R L C. split; [destruct R; constructor; simpl; [done|lia]|].
  unfold ring_contents. destruct (count q) as [|n] eqn:N; [lia|].
  simpl. rewrite C, N. f_equal. simpl. rewrite Nat.sub_0_r.
  apply omap_shift. intros i. unfold ring_at, ring_index. simpl. f_equal.
  rewrite Nat.Div0.add_mod_idemp_l. f_equal. lia.
Qed.

Lemma jobs_inv_ring s : jobs_inv s → ring_inv (results s).
Proof.
  intros []. constructor.
  - intros E0. rewrite E0 in inv_ring0. done.
  - unfold pending_jobs in inv_count0. rewrite inv_ring0. lia.
Qed.

Lemma pulse_loop_spec capacity q out q' : ring_inv q → pulse_loop capacity q = (out, q') →
  ring_inv q' ∧ ring_contents q = out ++ ring_contents q' ∧ length out = Nat.min capacity (count q)
  ∧ (count q' <= count q)%nat ∧ length (entries q') = length (entries q).
Proof.
  revert q out q'. induction capacity as [|capacity IH]; intros q out q' R H; simpl in H.
  { simplify_eq. done. }
  destruct (count q) as [|n] eqn:N.
  { simplify_eq. rewrite N. done. }
  destruct (pulse_loop capacity (ring_pop q)) as [o r] eqn:P. simplify_eq.
  destruct (ring_lookup q 0 R) as [c C]; [lia|].
  destruct (ring_pop_contents c q R ltac:(lia) C) as [R' ->].
  apply IH in P as (R2 & -> & L & K & E1); [|done]. rewrite C. simpl. simpl in *.
  split_and!; [done|done|rewrite L, N; lia|lia|done].
Qed.

(** ** Captures kept *)

Definition latest (k : persistence_job_owner) (l : list queued_job) : option queued_job :=
  last (filter (λ j, job_key j = k) l).

Definition death_job (j : queued_job) : Prop := death (snapshot j) = true.

(** The next capture may take [old]'s place: the same owner's, and neither is a death. *)
Definition replaced_by (old job : queued_job) : Prop :=
  job_key old = job_key job ∧ death (snapshot old) = false ∧ death (snapshot job) = false.

(** The captures [kept_jobs] is left of the accepted ones: one is only missing when the capture
    accepted next took its place. *)
Inductive superseded : list queued_job → list queued_job → Prop :=
| superseded_nil : superseded [] []
| superseded_keep j accepted_jobs kept_jobs :
    superseded accepted_jobs kept_jobs → superseded (j :: accepted_jobs) (j :: kept_jobs)
| superseded_drop old j accepted_jobs kept_jobs :
    replaced_by old j → superseded (j :: accepted_jobs) kept_jobs →
    superseded (old :: j :: accepted_jobs) kept_jobs.

(** What replacement leaves of the accepted captures: in order, each missing one replaced by
    the capture accepted right after it, with every death and the newest of each owner. *)
Record kept (accepted_jobs timeline : list queued_job) : Prop := {
  kept_order : timeline `sublist_of` accepted_jobs;
  kept_superseded : superseded accepted_jobs timeline;
  kept_deaths : filter death_job accepted_jobs = filter death_job timeline;
  kept_latest : ∀ k, latest k accepted_jobs = latest k timeline;
}.

Lemma replaces_replaced_by job old : replaces job old = true ↔ replaced_by old job.
Proof.
  unfold replaces, replaced_by. rewrite !andb_true_iff, !negb_true_iff, bool_decide_eq_true. tauto.
Qed.

Lemma superseded_nil_inv a t : superseded a t → t = [] → a = [].
Proof. induction 1 as [|j a t H IH|old j a t R H IH]; [done|done|]. intros T. by specialize (IH T). Qed.

Lemma superseded_append a t j : superseded a t → superseded (a ++ [j]) (t ++ [j]).
Proof.
  induction 1; simpl; [apply superseded_keep, superseded_nil|by apply superseded_keep|].
  by apply superseded_drop.
Qed.

Lemma superseded_replace a f old j :
  superseded a (f ++ [old]) → replaced_by old j → superseded (a ++ [j]) (f ++ [j]).
Proof.
  intros S R. remember (f ++ [old]) as t eqn:T. revert f T.
  induction S as [|x a t S IH|x y a t X S IH]; intros f T; [by destruct f| |].
  - destruct f as [|z f]; simplify_list_eq.
    + apply superseded_nil_inv in S as ->; [|done]. simpl.
      by apply superseded_drop, superseded_keep, superseded_nil.
    + constructor. by apply IH.
  - simpl. constructor; [done|]. by apply (IH f).
Qed.

Lemma latest_snoc k l j :
  latest k (l ++ [j]) = if bool_decide (job_key j = k) then Some j else latest k l.
Proof.
  unfold latest. rewrite filter_app, filter_cons, filter_nil.
  case_decide; case_bool_decide; try done; by rewrite ?last_snoc, ?app_nil_r.
Qed.

Lemma kept_append a t j : kept a t → kept (a ++ [j]) (t ++ [j]).
Proof.
  intros []. constructor.
  - by apply sublist_app.
  - by apply superseded_append.
  - by rewrite !filter_app, kept_deaths0.
  - intros k. by rewrite !latest_snoc, kept_latest0.
Qed.

Lemma kept_replace a f old j :
  kept a (f ++ [old]) → replaces j old = true → kept (a ++ [j]) (f ++ [j]).
Proof.
  intros [] R. pose proof (proj1 (replaces_replaced_by _ _) R) as RB.
  unfold replaces in R. bool_prop. constructor.
  - apply sublist_app; [|done]. etransitivity; [|exact kept_order0]. by apply sublist_inserts_r.
  - by eapply superseded_replace.
  - rewrite !filter_app, kept_deaths0, filter_app.
    rewrite (filter_none death_job [old]) by (constructor; [unfold death_job; congruence|done]).
    by rewrite app_nil_r.
  - intros k. rewrite !latest_snoc. case_bool_decide; [done|].
    rewrite kept_latest0, latest_snoc, bool_decide_eq_false_2; [done|congruence].
Qed.

Lemma spec_admit_kept now a t job q :
  kept a (t ++ q) →
  kept (a ++ [queued_at now job]) (t ++ spec_admit (queued_at now job) q).
Proof.
  intros K. unfold spec_admit.
  change (spec_replaceable (queued_at now job) q) with (spec_replaceable job q).
  destruct (spec_replaceable job q) as [old|] eqn:R.
  - apply spec_replaceable_Some in R as (front & -> & R). rewrite removelast_last.
    rewrite app_assoc. rewrite app_assoc in K. by eapply kept_replace.
  - rewrite app_assoc. by apply kept_append.
Qed.

(** ** The invariant of every run *)

Definition timeline (w : worker) (h : history) : list queued_job :=
  (h_done h).*1 ++ option_list (inflight (pending w)) ++ (queue (pending w)).*2.

Definition completes (j : queued_job) (c : player_save_completion) : Prop :=
  connection_lost (c_outcome c) = false
  ∧ ∃ r retries started completed, c = completion_of j r retries started completed.

Definition pc_inv (w : worker) : Prop :=
  match pc w with
  | Writing _ _ delay =>
      PLAYER_SAVE_WORKER_RETRY_INITIAL_MSEC <= delay <= PLAYER_SAVE_WORKER_RETRY_MAX_MSEC
      ∧ is_Some (inflight (pending w))
  | BackingOff _ _ delay r =>
      PLAYER_SAVE_WORKER_RETRY_INITIAL_MSEC <= delay <= PLAYER_SAVE_WORKER_RETRY_MAX_MSEC
      ∧ is_Some (inflight (pending w)) ∧ connection_lost (outcome r) = true
  | Finishing _ _ r =>
      is_Some (inflight (pending w))
      ∧ (connection_lost (outcome r) = true → stop_requested w = true)
  | _ => True
  end.

Record run_inv (w : worker) (h : history) : Prop := {
  run_jobs : jobs_inv (pending w);
  run_kept : kept (h_accepted h) (timeline w h);
  run_out : omap snd (h_done h) = h_delivered h ++ ring_contents (results (pending w));
  run_done : Forall (λ d, ∀ c, d.2 = Some c → completes d.1 c) (h_done h);
  run_pc : pc_inv w;
  run_exited : writer_exited w = true → pc w = Exited;
  run_whole : h_restarted h = false →
    Forall (λ d, is_Some d.2) (h_done h) ∧ (pc w = Waiting → inflight (pending w) = None);
}.

Lemma run_inv_initial : run_inv initial_worker (History [] [] [] false).
Proof.
  assert (ring_contents empty_ring = []) as RC by done.
  constructor; simpl; try done.
  - constructor; simpl; try done; first [apply NoDup_nil_2|apply Nat.le_0_l].
  - constructor; simpl; try done. constructor.
Qed.

Lemma enqueue_run now memory job w h r e w' :
  run_inv w h → u64 (bytes job) → enqueue now memory job w = (r, e, w') →
  run_inv w' (note_accepted r (queued_at now job) h).
Proof.
  intros I Hb H. pose proof (run_jobs _ _ I) as J.
  destruct (enqueue_cases _ _ _ _ _ _ _ J Hb H) as [_ C]. destruct e; [by destruct C as [-> ->]|].
  destruct C as [F [hl C]]. 
  assert (K := spec_admit_kept now _ _ job _ ltac:(
    pose proof (run_kept _ _ I) as K; unfold timeline in K; rewrite app_assoc in K; exact K)).
  assert (0 <= bytes job) as B0 by apply Hb.
  destruct (spec_replaceable job (queue (pending w)).*2) as [old|] eqn:R; destruct C as [-> ->].
  - pose proof (jobs_replace_queue now job _ old J R) as Q.
    destruct (replaceable_queue _ _ _ J R) as (_ & node & _ & _ & L).
    assert (inflight (jobs_replace now job (pending w)) = inflight (pending w)
      ∧ results (jobs_replace now job (pending w)) = results (pending w)) as [QI QR].
    { unfold jobs_replace. by rewrite L. }
    destruct I. constructor; simpl.
    + by eapply jobs_replace_inv.
    + unfold timeline. simpl. by rewrite Q, QI, app_assoc.
    + by rewrite QR.
    + done.
    + unfold pc_inv in *. simpl. by rewrite QI.
    + done.
    + by rewrite QI.
  - assert ((queue (jobs_append now job (pending w))).*2
      = spec_admit (queued_at now job) (queue (pending w)).*2) as Q.
    { unfold spec_admit. change (spec_replaceable (queued_at now job)) with (spec_replaceable job).
      rewrite R. unfold jobs_append. simpl. by rewrite fmap_app. }
    destruct I. constructor; simpl; try done.
    + by apply jobs_append_inv.
    + unfold timeline. simpl in *. by rewrite Q, app_assoc.
Qed.

Lemma writer_take_jobs now w w' : jobs_inv (pending w) → writer_take now w = Some w' →
  pc w = Waiting ∧
  ((stop_requested w = true ∧ w' = at_pc Stopping w)
   ∨ (stop_requested w = false ∧ queue (pending w) ≠ []
      ∧ w' = at_pc (Writing now 0 PLAYER_SAVE_WORKER_RETRY_INITIAL_MSEC)
               (with_jobs (jobs_take (pending w)) (health w) w))).
Proof.
  unfold writer_take. intros J H. destruct (pc w); try done. split; [done|].
  destruct (stop_requested w); [left; by simplify_eq|right].
  destruct (queue (pending w)) as [|[node job] rest] eqn:Q; [done|]. simplify_eq.
  split_and!; [done|done|]. unfold jobs_take. rewrite Q. do 3 f_equal.
  pose proof (queue_sizes _ J) as S. pose proof (inflight_size_nonneg _ J).
  destruct J. rewrite inv_total0 in *. rewrite Q in *. csimpl in *. inversion S; subst.
  rewrite total_bytes_cons in *. pose proof (total_bytes_nonneg _ H3).
  rewrite max_pending_bytes in *. rewrite wrap_id; [lia|]. unfold fits. lia.
Qed.

Lemma jobs_take_queue s : queue s ≠ [] →
  ∃ job, inflight (jobs_take s) = Some job ∧ (queue s).*2 = job :: (queue (jobs_take s)).*2
    ∧ results (jobs_take s) = results s.
Proof. unfold jobs_take. destruct (queue s) as [|[node job] rest]; [done|]. intros _. by exists job. Qed.

Lemma take_run now w h w' :
  run_inv w h → writer_take now w = Some w' →
  run_inv w' (if stop_requested w then h
              else note_done ((λ j, (j, None)) <$> inflight (pending w)) h).
Proof.
  intros I H. pose proof (run_jobs _ _ I) as J.
  apply writer_take_jobs in H as [P [[-> ->]|(-> & Q & ->)]]; [| |done].
  { destruct I. constructor; simpl; try done.
    - intros X. apply run_exited0 in X. congruence.
    - intros X. by apply run_whole0 in X as [? _]. }
  destruct (jobs_take_queue _ Q) as (job & I' & Q' & R').
  destruct I. constructor; simpl.
  - by apply jobs_take_inv.
  - unfold timeline in *. simpl. rewrite fmap_app, I'. rewrite Q' in run_kept0.
    destruct (inflight (pending w)); simpl in *; by rewrite <- ?app_assoc, ?app_nil_r in *.
  - rewrite omap_app, R'. destruct (inflight (pending w)); simpl; by rewrite app_nil_r.
  - apply Forall_app. split; [done|]. destruct (inflight (pending w)); by repeat constructor.
  - unfold pc_inv. simpl. rewrite I'. split; [|done].
    unfold PLAYER_SAVE_WORKER_RETRY_INITIAL_MSEC, PLAYER_SAVE_WORKER_RETRY_MAX_MSEC. lia.
  - intros X. apply run_exited0 in X. congruence.
  - intros X. apply run_whole0 in X as [D N]. split; [|done].
    by rewrite (N P), app_nil_r.
Qed.

(** The completion slot that admission reserved is free. *)
Lemma slot_free s : jobs_inv s → is_Some (inflight s) →
  (count (results s) < length (entries (results s)))%nat.
Proof.
  intros [] [j Hj]. unfold pending_jobs, inflight_count in *. rewrite Hj in inv_count0.
  rewrite inv_ring0. simpl in inv_count0. lia.
Qed.

Lemma finish_jobs_inv s c : jobs_inv s → is_Some (inflight s) →
  jobs_inv (Jobs (queue s) (next_node s) (queued_by_owner s) None (ring_push c (results s))
              (queued_bytes s)).
Proof.
  intros J F. pose proof (inflight_size_nonneg _ J) as S. destruct J, F as [j Hj].
  constructor; simpl; try done.
  - apply Forall_app in inv_sizes0 as [? _]. by rewrite app_nil_r.
  - unfold inflight_size in *. simpl. lia.
  - unfold pending_jobs, inflight_count in *. rewrite Hj in inv_count0. simpl in *. lia.
  - by rewrite length_insert.
Qed.

Lemma finish_run now w h : run_inv w h →
  let st := run_call (CFinish now) (w, h) in run_inv st.1 st.2.
Proof.
  intros I. cbn [run_call]. unfold writer_finish.
  destruct (pc w) as [| | | |started retries r|] eqn:P; try exact I.
  pose proof (run_pc _ _ I) as PC. unfold pc_inv in PC. rewrite P in PC. destruct PC as [[j Hj] SR].
  rewrite Hj. pose proof (run_jobs _ _ I) as J.
  destruct (negb (stop_requested w) || negb (connection_lost (outcome r))) eqn:C.
  - simpl. 
    assert (connection_lost (outcome r) = false) as CL.
    { destruct (connection_lost (outcome r)); [|done]. by rewrite (SR eq_refl) in C. }
    destruct (ring_push_contents (completion_of j r retries started now) (results (pending w))
      (jobs_inv_ring _ J) (slot_free _ J (ex_intro _ _ Hj))) as [_ RP].
    destruct I. constructor; simpl.
    + by apply finish_jobs_inv.
    + unfold timeline in *. simpl. rewrite Hj in run_kept0. rewrite fmap_app.
      by rewrite <- app_assoc.
    + rewrite omap_app, run_out0, RP. by rewrite <- app_assoc.
    + apply Forall_app. split; [done|]. apply Forall_singleton. simpl.
      intros c [= <-]. split; [done|]. by eexists _, _, _, _.
    + unfold pc_inv. simpl. by destruct (stop_requested w).
    + intros X. apply run_exited0 in X. congruence.
    + intros X. apply run_whole0 in X as [D N]. split; [|done].
      apply Forall_app. split; [done|]. by repeat constructor.
  - simpl. rewrite Hj. simpl. apply orb_false_elim in C as [C1 C2]. apply negb_false_iff in C1.
    rewrite C1. destruct I. constructor; simpl; try done.
    + intros X. apply run_exited0 in X. congruence.
    + intros X. by apply run_whole0 in X as [? _].
Qed.

Lemma pulse_run capacity w h out w' :
  run_inv w h → player_save_worker_pulse capacity w = (out, w') →
  run_inv w' (History (h_accepted h) (h_done h) (h_delivered h ++ out) (h_restarted h)).
Proof.
  intros I H. unfold player_save_worker_pulse in H.
  destruct (pulse_loop capacity (results (pending w))) as [o q] eqn:P. simplify_eq.
  pose proof (run_jobs _ _ I) as J.
  apply pulse_loop_spec in P as (R & C & _ & K & L); [|by apply jobs_inv_ring].
  destruct I. constructor; simpl; try done.
  - destruct J. constructor; simpl; try done; [|by rewrite L].
    unfold pending_jobs, inflight_count in *. simpl. lia.
  - by rewrite <- app_assoc, <- C.
Qed.

Lemma attempt_run ready env w h w' :
  run_inv w h → writer_attempt ready env w = Some w' → run_inv w' h.
Proof.
  intros I H. unfold writer_attempt in H.
  destruct (pc w) as [| |started retries delay| | |] eqn:P; try done.
  pose proof (run_pc _ _ I) as PC. unfold pc_inv in PC. rewrite P in PC.
  destruct (inflight (pending w)) as [job|] eqn:F; [|done].
  destruct (negb (connection_lost _)) eqn:C; simplify_eq; destruct I; constructor; simpl; try done.
  - unfold pc_inv. simpl. split; [by rewrite F|]. apply negb_true_iff in C. by rewrite C.
  - intros X. apply run_exited0 in X. congruence.
  - intros X. by apply run_whole0 in X as [? _].
  - unfold pc_inv. simpl. rewrite F. apply negb_false_iff in C. destruct PC.
    split; [done|split].
    + eauto.
    + exact C.
  - intros X. apply run_exited0 in X. congruence.
  - intros X. by apply run_whole0 in X as [? _].
Qed.

Lemma wake_run w h w' : run_inv w h → writer_wake w = Some w' → run_inv w' h.
Proof.
  intros I H. unfold writer_wake in H.
  destruct (pc w) as [| | |started retries delay r| |] eqn:P; try done. simplify_eq.
  pose proof (run_pc _ _ I) as PC. unfold pc_inv in PC. rewrite P in PC.
  destruct PC as (D & F & C).
  destruct I. constructor; simpl; try done.
  - unfold pc_inv. simpl. destruct (stop_requested w) eqn:S; simpl; [done|].
    split; [|done]. unfold PLAYER_SAVE_WORKER_RETRY_INITIAL_MSEC, PLAYER_SAVE_WORKER_RETRY_MAX_MSEC in *.
    lia.
  - intros X. apply run_exited0 in X. congruence.
  - intros X. apply run_whole0 in X as [? _]. split; [done|]. by destruct (stop_requested w).
Qed.

Lemma control_run w h w' :
  run_inv w h → pending w' = pending w → pc_inv w' → (writer_exited w' = true → pc w' = Exited) →
  (pc w' = Waiting → pc w = Waiting) → run_inv w' h.
Proof.
  intros [] P C E0 N. constructor; rewrite ?P; try done.
  - unfold timeline in *. by rewrite P.
  - intros X. apply run_whole0 in X as [D F]. auto.
Qed.

Lemma init_run given ok w h : run_inv w h →
  let st := run_call (CInit given ok) (w, h) in run_inv st.1 st.2.
Proof.
  intros I. cbn [run_call]. unfold player_save_worker_init.
  destruct given; simpl; [|exact I]. destruct (_ || _) eqn:C; [exact I|]. bool_prop.
  assert (pc w = Exited) as P by by apply (run_exited _ _ I).
  destruct ok; simpl; [|apply (control_run w); try done; unfold pc_inv; simpl; by rewrite P].
  destruct I. case_bool_decide as F; constructor; simpl; try done.
  intros X. apply run_whole0 in X as [D _]. split; [done|]. intros _.
  by apply eq_None_not_Some.
Qed.

Lemma run_call_inv c w h :
  worker_call_typed c → run_inv w h → run_inv (run_call c (w, h)).1 (run_call c (w, h)).2.
Proof.
  intros T I. destruct c as [now memory s|now memory k o size f|now|ready env| |now| |given ok|a b| |detached|capacity].
  - cbn [run_call]. unfold player_save_worker_submit.
    destruct (valid_snapshot s); simpl; [|done].
    destruct (enqueue now memory (player_job s) w) as [[r e] w'] eqn:Q. simpl.
    eapply enqueue_run; [done| |done]. apply T.
  - cbn [run_call]. unfold persistence_writer_submit. destruct (_ || _); simpl; [done|].
    destruct (enqueue now memory _ w) as [[r e] w'] eqn:Q. simpl.
    eapply enqueue_run; [done| |done]. apply T.
  - cbn [run_call]. destruct (writer_take now w) as [w'|] eqn:Q; [|done]. by apply (take_run now w h).
  - cbn [run_call]. destruct (writer_attempt ready env w) as [w'|] eqn:Q; [|done]. by eapply attempt_run.
  - cbn [run_call]. destruct (writer_wake w) as [w'|] eqn:Q; [|done]. by eapply wake_run.
  - by apply finish_run.
  - cbn [run_call]. destruct (writer_exit w) as [w'|] eqn:Q; [|done]. simpl.
    unfold writer_exit in Q. destruct (pc w) eqn:P; simplify_eq. by apply (control_run w).
  - by apply init_run.
  - cbn [run_call]. unfold player_save_worker_set_journal_hooks. destruct (_ || _); [done|].
    simpl. apply (control_run w); try done; apply I.
  - cbn [run_call]. apply (control_run w); try done; [|apply I].
    pose proof (run_pc _ _ I) as PC. unfold pc_inv in *. simpl. destruct (pc w); try done. tauto.
  - cbn [run_call]. unfold shutdown_finish. destruct (_ && _); [|done]. simpl.
    apply (control_run w); try done; apply I.
  - cbn [run_call]. destruct (player_save_worker_pulse capacity w) as [out w'] eqn:Q.
    by apply (pulse_run capacity w h out w').
Qed.

Lemma run_calls_inv cs : Forall worker_call_typed cs →
  run_inv (run_calls cs).1 (run_calls cs).2.
Proof.
  intros T. unfold run_calls. pose proof run_inv_initial as I. revert I.
  generalize initial_worker (History [] [] [] false).
  induction T as [|c cs Tc T IH]; intros w h I; [done|]. cbn [foldl].
  pose proof (run_call_inv c w h Tc I) as I'. destruct (run_call c (w, h)) as [w' h']. by apply IH.
Qed.

(** A submission seen from the captured queue. *)
Lemma enqueue_queue now memory job w r e w' :
  jobs_inv (pending w) → u64 (bytes job) → enqueue now memory job w = (r, e, w') →
  let before := (queue (pending w)).*2 in let after := (queue (pending w')).*2 in
  if bool_decide (r = unavailable) then w' = w
  else inflight (pending w') = inflight (pending w) ∧ results (pending w') = results (pending w)
    ∧ ((r = replaced ∧ ∃ front old, before = front ++ [old] ∧ replaced_by old job
         ∧ after = front ++ [queued_at now job])
       ∨ (r = accepted ∧ (∀ front old, before = front ++ [old] → ¬ replaced_by old job)
         ∧ after = before ++ [queued_at now job])).
Proof.
  intros J Hb H. destruct (enqueue_cases _ _ _ _ _ _ _ J Hb H) as [_ C].
  destruct e as [f|]; [by destruct C as [-> ->]|]. destruct C as (F & hl & C). cbv zeta.
  destruct (spec_replaceable job (queue (pending w)).*2) as [old|] eqn:R; destruct C as [-> ->];
    simpl.
  - rewrite (jobs_replace_queue _ _ _ _ J R). unfold spec_admit.
    change (spec_replaceable (queued_at now job)) with (spec_replaceable job). rewrite R.
    destruct (replaceable_queue _ _ _ J R) as (_ & node & _ & _ & L).
    unfold jobs_replace. rewrite L. split_and!; [done|done|]. left. split; [done|].
    apply spec_replaceable_Some in R as (front & -> & K). exists front, old.
    by rewrite removelast_last, <- replaces_replaced_by.
  - split_and!; [done|done|]. right. split_and!; [done| |by rewrite fmap_app].
    intros front old Q K%replaces_replaced_by. unfold spec_replaceable in R.
    by rewrite Q, last_snoc, K in R.
Qed.

(** ** Properties *)

(** Whatever the interleaving of submissions, writer steps, restarts and consumption: at
    most 4096 jobs and completions are pending, at most 128 MiB are captured, [queued_bytes] is
    exactly the sum over the queue (so its unsigned updates never wrap), and the completion ring
    has a free slot whenever the writer is about to use one, so the ring's assertions hold. *)
Theorem save_worker_bounds cs : Forall worker_call_typed cs →
  let w := (run_calls cs).1 in
  (pending_jobs (pending w) <= PLAYER_SAVE_WORKER_MAX_PENDING_JOBS)%nat
  ∧ queued_bytes (pending w) = total_bytes (queue (pending w)).*2
  ∧ queued_bytes (pending w) + inflight_size (pending w) <= PLAYER_SAVE_WORKER_MAX_PENDING_BYTES
  ∧ (is_Some (inflight (pending w)) →
     (count (results (pending w)) < length (entries (results (pending w))))%nat)
  ∧ (∀ i, (i < count (results (pending w)))%nat → is_Some (ring_at (results (pending w)) i)).
Proof.
  intros T w. destruct (run_calls_inv cs T) as [J _ _ _ _ _ _]. pose proof J as [].
  split_and!; try done.
  - by apply slot_free.
  - intros i. apply ring_lookup. by apply jobs_inv_ring.
Qed.

(** C2: Captures are written in the order they were accepted.  What the writer is through with,
    the job being written and the queue are, in this order, the accepted captures less the
    replaced ones: one is only missing when the capture accepted right after it is of the same
    owner and neither is a death, so no captured death is ever replaced, and the newest capture
    of each owner never is.  A submission is refused and changes nothing, or leaves the job being
    written and the completions alone and puts its job at the end of the queue: in place of the
    last queued job exactly when that is the same owner's and neither is a death, behind it
    otherwise.  Completions reach the game in the order of their jobs, each once and each for its
    own job; unless the writer is restarted over a job a shutdown left unfinished, every job it is
    through with has one. *)
Theorem save_worker_order cs : Forall worker_call_typed cs →
  let (w, h) := run_calls cs in
  kept (h_accepted h) (timeline w h)
  ∧ (∀ now memory job, u64 (bytes job) →
     let '(r, _, w') := enqueue now memory job w in
     let before := (queue (pending w)).*2 in let after := (queue (pending w')).*2 in
     if bool_decide (r = unavailable) then w' = w
     else inflight (pending w') = inflight (pending w) ∧ results (pending w') = results (pending w)
       ∧ ((r = replaced ∧ ∃ front old, before = front ++ [old] ∧ replaced_by old job
            ∧ after = front ++ [queued_at now job])
          ∨ (r = accepted ∧ (∀ front old, before = front ++ [old] → ¬ replaced_by old job)
            ∧ after = before ++ [queued_at now job])))
  ∧ omap snd (h_done h) = h_delivered h ++ ring_contents (results (pending w))
  ∧ Forall (λ d, ∀ c, d.2 = Some c → completes d.1 c) (h_done h)
  ∧ (h_restarted h = false → Forall (λ d, is_Some d.2) (h_done h)).
Proof.
  intros T. pose proof (run_calls_inv cs T) as I. destruct (run_calls cs) as [w h]. simpl in I.
  pose proof (run_jobs _ _ I) as J. destruct I. split_and!; try done.
  - intros now memory job Hb. destruct (enqueue now memory job w) as [[r e] w'] eqn:Q.
    by apply (enqueue_queue now memory job w r e w').
  - intros X. by apply run_whole0 in X as [? _].
Qed.

(** A job whose connection was lost is retried, with a delay between 100 ms and 5 s, until
    the database answers or the writer is asked to stop; no completion ever reports a lost
    connection. *)
Theorem save_worker_retries cs : Forall worker_call_typed cs →
  let (w, h) := run_calls cs in
  pc_inv w
  ∧ Forall (λ c, connection_lost (c_outcome c) = false)
      (h_delivered h ++ ring_contents (results (pending w))).
Proof.
  intros T. pose proof (run_calls_inv cs T) as I. destruct (run_calls cs) as [w h]. simpl in I.
  destruct I. split; [done|]. rewrite <- run_out0. apply Forall_forall. intros c C.
  apply list_elem_of_omap in C as [d [D E0]]. rewrite Forall_forall in run_done0.
  by destruct (run_done0 d D c E0).
Qed.

(** Submitting a job acts on the captured queue as its specification: it replaces the last
    job exactly when that is the same owner's and neither is a death, is appended otherwise, and
    is refused, with nothing changed, exactly when the writer is stopped, the bytes or the slots
    do not suffice, or a needed node cannot be allocated. *)
Theorem save_worker_admission cs now memory job r e w' :
  Forall worker_call_typed cs → u64 (bytes job) →
  let w := (run_calls cs).1 in
  enqueue now memory job w = (r, e, w') →
  e = spec_refusal memory job w
  ∧ match e with
    | Some _ => r = unavailable ∧ w' = w
    | None =>
        (queue (pending w')).*2 = spec_admit (queued_at now job) (queue (pending w)).*2
        ∧ r = (if bool_decide (is_Some (spec_replaceable job (queue (pending w)).*2))
               then replaced else accepted)
        ∧ inflight (pending w') = inflight (pending w)
        ∧ results (pending w') = results (pending w) ∧ pc w' = pc w
    end.
Proof.
  intros T Hb w H. destruct (run_calls_inv cs T) as [J _ _ _ _ _ _]. fold w in J.
  destruct (enqueue_cases _ _ _ _ _ _ _ J Hb H) as [-> C]. split; [done|].
  destruct (spec_refusal memory job w); [done|]. destruct C as (F & hl & C).
  destruct (spec_replaceable job (queue (pending w)).*2) as [old|] eqn:R; destruct C as [-> ->].
  - simpl. rewrite (jobs_replace_queue _ _ _ _ J R).
    destruct (replaceable_queue _ _ _ J R) as (_ & node & _ & _ & L).
    unfold jobs_replace. by rewrite L.
  - simpl. split; [|done]. unfold spec_admit.
    change (spec_replaceable (queued_at now job)) with (spec_replaceable job). rewrite R.
    by rewrite fmap_app.
Qed.

(** [persistence_writer_pending] answers exactly whether a job of that kind and owner is
    queued or being written, although the index keeps only each owner's newest job. *)
Theorem save_worker_pending_exact cs k o : Forall worker_call_typed cs →
  let w := (run_calls cs).1 in
  persistence_writer_pending k o w = true ↔ (k, o) ∈ persistence_writer_pending_owners w.
Proof.
  intros T w. destruct (run_calls_inv cs T) as [J _ _ _ _ _ _]. fold w in J.
  unfold persistence_writer_pending, persistence_writer_pending_owners.
  rewrite orb_true_iff, elem_of_app, bool_decide_eq_true, (inv_index _ J). f_equiv.
  - destruct (inflight (pending w)) as [j|]; simpl; [|set_solver].
    rewrite andb_true_iff, bool_decide_eq_true, Z.eqb_eq, list_elem_of_singleton.
    unfold job_key. split; [by intros [-> ->]|by intros [= -> ->]].
  - rewrite fmap_is_Some, list_elem_of_fmap. split.
    + intros [p P]. apply newest_elem in P as [P K]. by exists p.
    + intros [p [K P]]. unfold newest. apply last_is_Some. intros E0.
      by apply (filter_nil_not_elem_of (λ p : nat * queued_job, job_key p.2 = (k, o)) _ p E0).
Qed.

End Worker.

(** ** Witnesses *)

Definition sample_snapshot (p revision : Z) (dead : bool) : @player_snapshot unit :=
  PlayerSnapshot (if dead then PLAYER_SNAPSHOT_DEATH_SCHEMA_VERSION
                  else PLAYER_SNAPSHOT_SCHEMA_VERSION) p revision 1 512 dead tt.
Definition sample_answer (o : player_save_apply_outcome) : @attempt :=
  Attempt (Returned true) (Returned (ApplyResult o 0 (Code 0) [] false)) (Returned true)
    (Returned (ApplyResult o 0 (Code 0) [] false)).

(** Two saves of player 7, a log row, another save of player 7, which a lost connection delays. *)
Definition sample_run : list (@worker_call unit unit) :=
  [CInit true true; CSubmit 10 true (sample_snapshot 7 1 false);
   CSubmit 11 true (sample_snapshot 7 2 false); CWrite 12 true log 3 100 (Some tt);
   CSubmit 13 true (sample_snapshot 7 3 true); CTake 14; CAttempt true (sample_answer ambiguous_commit);
   CWake; CAttempt true (sample_answer applied); CFinish 15; CPulse 4; CTake 16].

Lemma sample_run_typed : Forall worker_call_typed sample_run.
Proof. repeat constructor; simpl; unfold fits, sfits; lia. Qed.

Lemma save_worker_bounds_witness :
  let w := (run_calls tt sample_run).1 in
  queued_bytes (pending w) = 512 ∧ inflight_size (pending w) = 100
  ∧ queued_bytes (pending w) + inflight_size (pending w) <= PLAYER_SAVE_WORKER_MAX_PENDING_BYTES.
Proof.
  destruct (save_worker_bounds tt sample_run sample_run_typed) as (_ & _ & R & _ & _).
  cbv zeta. split_and!; [vm_compute; reflexivity|vm_compute; reflexivity|exact R].
Defined.

Lemma save_worker_order_witness :
  let (w, h) := run_calls tt sample_run in
  kept (h_accepted h) (timeline w h) ∧ length (h_accepted h) = 4%nat
  ∧ job_key <$> timeline w h = [(player, 7); (log, 3); (player, 7)].
Proof.
  pose proof (save_worker_order tt sample_run sample_run_typed) as O.
  assert (length (h_accepted (run_calls tt sample_run).2) = 4%nat) as L by (vm_compute; reflexivity).
  assert (job_key <$> timeline (run_calls tt sample_run).1 (run_calls tt sample_run).2
    = [(player, 7); (log, 3); (player, 7)]) as K by (vm_compute; reflexivity).
  destruct (run_calls tt sample_run) as [w h]. split_and!; [apply O|exact L|exact K].
Defined.

Lemma save_worker_retries_witness :
  let (w, h) := run_calls tt sample_run in
  Forall (λ c, connection_lost (c_outcome c) = false) (h_delivered h)
  ∧ retry_count <$> h_delivered h = [1].
Proof.
  pose proof (save_worker_retries tt sample_run sample_run_typed) as O.
  assert (retry_count <$> h_delivered (run_calls tt sample_run).2 = [1]) as L
    by (vm_compute; reflexivity).
  destruct (run_calls tt sample_run) as [w h]. split; [|exact L].
  destruct O as [_ O]. by apply Forall_app in O as [O _].
Defined.

(** A second save of player 7 does not overtake the death queued last. *)
Lemma save_worker_admission_witness :
  let job := player_job (sample_snapshot 7 4 false) in
  let w := (run_calls tt sample_run).1 in
  length (queue (pending (enqueue 20 true job w).2)) = 2%nat
  ∧ (enqueue 20 true job w).1.1 = accepted
  ∧ inflight (pending (enqueue 20 true job w).2) = inflight (pending w).
Proof.
  cbv zeta. set (job := player_job (sample_snapshot 7 4 false)).
  pose proof (save_worker_admission tt sample_run 20 true job
    (enqueue 20 true job (run_calls tt sample_run).1).1.1
    (enqueue 20 true job (run_calls tt sample_run).1).1.2
    (enqueue 20 true job (run_calls tt sample_run).1).2 sample_run_typed
    ltac:(unfold fits; simpl; lia)) as C.
  assert ((enqueue 20 true job (run_calls tt sample_run).1).1.2 = None) as N
    by (vm_compute; reflexivity).
  rewrite N in C. split_and!; [vm_compute; reflexivity|vm_compute; reflexivity|].
  apply C. rewrite <- N. by destruct (enqueue _ _ _ _) as [[??]?].
Defined.

Lemma save_worker_pending_exact_witness :
  (log, 3) ∈ persistence_writer_pending_owners (run_calls tt sample_run).1.
Proof.
  apply (save_worker_pending_exact tt sample_run log 3 sample_run_typed). vm_compute. reflexivity.
Defined.
