(* ===== verification/Coordinator.v ===== *)
(** * The critical command coordinator

    Models [persistence/critical_command_coordinator.c] and [.h] with the completion
    delivery of [persistence/critical_command_completion.h]: the table of submitted
    operations, the entity fences they hold, the cache of completed ones, and the
    delivery of completions from the writer thread to the game thread.

    The coordinator's client view of the persistence writer is the class
    [PersistenceWriter] at the end of the first part; [WriterInstance] discharges it
    for the worker of [SaveWorker].  Every region under [coordinator_mutex] is one
    definition; a submission is one step, since between its regions the writer thread
    can only add the new job's completion.  [generation] and [writer_sequence] are
    64-bit counters of restarts and submissions and are taken not to wrap; a bad
    allocation inside a [pulse] ends it as a smaller capacity would. *)

From stdpp Require Import pretty strings.
From S2P Require Import Prelude SaveWorker CriticalCommand.

Definition CRITICAL_COORDINATOR_MAX_OPERATIONS : nat := Z.to_nat 1024.
Definition CRITICAL_COORDINATOR_MAX_BYTES : Z := 64 * 1024 * 1024.
Definition CRITICAL_COORDINATOR_COMPLETED_CACHE_MAX : nat := Z.to_nat 256.
Definition CRITICAL_COORDINATOR_COMPLETED_CACHE_BYTES : Z := 8 * 1024 * 1024.
Definition CRITICAL_COORDINATOR_MAX_RESULTS : nat := Z.to_nat 2048.

(** ** Completions *)

Inductive critical_apply_outcome :=
| a_applied | a_already_applied | a_retryable_failure | a_ambiguous_commit | a_terminal_failure.

(** [failure_detail] is the text up to the NUL; the payload array is [result_payload]. *)
Record critical_apply_result := CriticalApply {
  a_outcome : critical_apply_outcome;
  a_durable_revision : Z;
  a_error_code : Z;
  a_failure_stage : Z;
  a_result_size : Z;
  a_result_payload : list byte;
  a_failure_detail : String.string;
}.

Record critical_completion := CriticalCompletion {
  m_operation_id : critical_operation_id;
  m_type : Z;
  m_outcome : critical_apply_outcome;
  m_durable_revision : Z;
  m_error_code : Z;
  m_attempt : Z;
  m_queued_at_usec : Z;
  m_started_at_usec : Z;
  m_completed_at_usec : Z;
  m_failure_stage : Z;
  m_result_size : Z;
  m_result_payload : list byte;
  m_recovery_correlation : list byte;
  m_failure_detail : String.string;
}.

Inductive critical_submit_result :=
| accepted | awaiting_durability | attached | invalid | identity_conflict | overloaded
| journal_failure | journal_uncertain | unavailable.

#[export] Instance critical_outcome_eq_dec : EqDecision critical_apply_outcome.
Proof. solve_decision. Defined.
#[export] Instance critical_completion_eq_dec : EqDecision critical_completion.
Proof. solve_decision. Defined.
#[export] Instance critical_submit_result_eq_dec : EqDecision critical_submit_result.
Proof. solve_decision. Defined.

Definition critical_submit_result_keeps_operation (r : critical_submit_result) : bool :=
  match r with
  | accepted | awaiting_durability | attached | journal_uncertain => true
  | _ => false
  end.

Inductive critical_completion_channel := execution | admission_failure.

Record critical_completion_delivery := Delivery {
  execution_results : list critical_completion;
  admission_failures : list critical_completion;
}.

Definition delivery_size (d : critical_completion_delivery) : nat :=
  (length (execution_results d) + length (admission_failures d))%nat.
Definition has_capacity (d : critical_completion_delivery) : bool :=
  (delivery_size d <? CRITICAL_COORDINATOR_MAX_RESULTS)%nat.
Definition channel_queue (ch : critical_completion_channel) (d : critical_completion_delivery) :=
  match ch with execution => execution_results d | admission_failure => admission_failures d end.
Definition set_channel (ch : critical_completion_channel) (q : list critical_completion)
    (d : critical_completion_delivery) : critical_completion_delivery :=
  match ch with
  | execution => Delivery q (admission_failures d)
  | admission_failure => Delivery (execution_results d) q
  end.
Definition delivery_enqueue (ch : critical_completion_channel) (m : critical_completion)
    (d : critical_completion_delivery) : critical_completion_delivery :=
  set_channel ch (channel_queue ch d ++ [m]) d.
Definition try_enqueue (memory : bool) (ch : critical_completion_channel)
    (m : critical_completion) (d : critical_completion_delivery)
  : bool * critical_completion_delivery :=
  if negb (has_capacity d) || negb memory then (false, d) else (true, delivery_enqueue ch m d).
Definition delivery_front (ch : critical_completion_channel) (d : critical_completion_delivery)
  : option critical_completion := hd_error (channel_queue ch d).
Definition delivery_pop_front (ch : critical_completion_channel)
    (d : critical_completion_delivery) : critical_completion_delivery :=
  set_channel ch (tl (channel_queue ch d)) d.
Definition no_delivery : critical_completion_delivery := Delivery [] [].

(** ** The coordinator's state *)

(** Operations are found by the 16 bytes of their identifier, which [operation_key] makes
    a string; entities by the nine bytes of [entity_key]. *)
Abbreviation identity_t := (list byte).
Abbreviation fence_key := (list byte).

Record operation_state := OperationState {
  o_command : critical_command;
  o_retained_bytes : Z;
  o_queued_at_usec : Z;
  o_attempt : Z;
  o_attachments : Z;
  o_retain_until_publication : bool;
  o_publication_pending : bool;
  o_completion : option critical_completion;
}.

Record completed_state := CompletedState {
  e_command : critical_command;
  e_encoded_size : Z;
  e_completion : critical_completion;
}.

(** The depth gauges of the health record, and its counters. *)
Record depth := Depth {
  d_inflight : Z;
  d_publication_pending : Z;
  d_retained_bytes : Z;
  d_oldest_age_msec : Z;
  d_completed_cache : Z;
  d_high_water_operations : Z;
  d_high_water_bytes : Z;
}.
Definition no_depth : depth := Depth 0 0 0 0 0 0 0.

Inductive counter :=
| n_accepted | n_attached | n_completed | n_retries | n_ambiguous | n_terminal_failures
| n_stale_completions | n_overloads.
#[export] Instance counter_eq_dec : EqDecision counter.
Proof. solve_decision. Defined.

Definition counters : Type := counter → Z.
Definition bump (k : counter) (n : counters) : counters :=
  λ k', if decide (k = k') then wrap 64 (n k' + 1) else n k'.

Record coordinator := Coordinator {
  operations : gmap identity_t operation_state;
  delivery : critical_completion_delivery;
  fences : gmap fence_key (list identity_t);
  completed_cache : gmap identity_t completed_state;
  completed_order : list identity_t;
  completed_cache_bytes : Z;
  apply_given : bool;
  gauges : depth;
  fenced_keys : Z;
  counts : counters;
  initialized : bool;
  accepting : bool;
  running : bool;
  writer_sequence : Z;
  generation : Z;
}.

Definition initial_coordinator : coordinator :=
  Coordinator ∅ no_delivery ∅ ∅ [] 0 false no_depth 0 (λ _, 0) false false false 0 0.

Definition operation_key (id : critical_operation_id) : identity_t := id.
Definition entity_key (k : critical_entity_key) : fence_key :=
  to_byte (key_type k) :: le_split 8 (key_id k).

(** ** Setters *)

Definition with_operations (ops : gmap identity_t operation_state) (c : coordinator) :=
  Coordinator ops (delivery c) (fences c) (completed_cache c) (completed_order c)
    (completed_cache_bytes c) (apply_given c) (gauges c) (fenced_keys c) (counts c)
    (initialized c) (accepting c) (running c) (writer_sequence c) (generation c).
Definition with_delivery (d : critical_completion_delivery) (c : coordinator) :=
  Coordinator (operations c) d (fences c) (completed_cache c) (completed_order c)
    (completed_cache_bytes c) (apply_given c) (gauges c) (fenced_keys c) (counts c)
    (initialized c) (accepting c) (running c) (writer_sequence c) (generation c).
Definition with_fences (f : gmap fence_key (list identity_t)) (c : coordinator) :=
  Coordinator (operations c) (delivery c) f (completed_cache c) (completed_order c)
    (completed_cache_bytes c) (apply_given c) (gauges c) (Z.of_nat (size f)) (counts c)
    (initialized c) (accepting c) (running c) (writer_sequence c) (generation c).
Definition with_cache (cache : gmap identity_t completed_state) (order : list identity_t)
    (cache_bytes : Z) (c : coordinator) :=
  Coordinator (operations c) (delivery c) (fences c) cache order cache_bytes (apply_given c)
    (gauges c) (fenced_keys c) (counts c) (initialized c) (accepting c) (running c)
    (writer_sequence c) (generation c).
Definition with_gauges (g : depth) (c : coordinator) :=
  Coordinator (operations c) (delivery c) (fences c) (completed_cache c) (completed_order c)
    (completed_cache_bytes c) (apply_given c) g (fenced_keys c) (counts c)
    (initialized c) (accepting c) (running c) (writer_sequence c) (generation c).
Definition count_up (k : counter) (c : coordinator) :=
  Coordinator (operations c) (delivery c) (fences c) (completed_cache c) (completed_order c)
    (completed_cache_bytes c) (apply_given c) (gauges c) (fenced_keys c) (bump k (counts c))
    (initialized c) (accepting c) (running c) (writer_sequence c) (generation c).
Definition with_sequence (n : Z) (c : coordinator) :=
  Coordinator (operations c) (delivery c) (fences c) (completed_cache c) (completed_order c)
    (completed_cache_bytes c) (apply_given c) (gauges c) (fenced_keys c) (counts c)
    (initialized c) (accepting c) (running c) n (generation c).
Definition with_accepting (b : bool) (c : coordinator) :=
  Coordinator (operations c) (delivery c) (fences c) (completed_cache c) (completed_order c)
    (completed_cache_bytes c) (apply_given c) (gauges c) (fenced_keys c) (counts c)
    (initialized c) b (running c) (writer_sequence c) (generation c).

(** ** Fences, gauges and the cache *)

Definition add_fence (id : identity_t) (f : gmap fence_key (list identity_t))
    (k : critical_entity_key) : gmap fence_key (list identity_t) :=
  <[entity_key k := default [] (f !! entity_key k) ++ [id]]> f.
Definition add_fences (id : identity_t) (cmd : critical_command) (c : coordinator)
  : coordinator := with_fences (foldl (add_fence id) (fences c) (keys cmd)) c.

Definition remove_fence (id : identity_t) (f : gmap fence_key (list identity_t))
    (k : critical_entity_key) : gmap fence_key (list identity_t) :=
  match f !! entity_key k with
  | None => f
  | Some ids =>
      match filter (λ i, i ≠ id) ids with
      | [] => delete (entity_key k) f
      | ids' => <[entity_key k := ids']> f
      end
  end.
Definition remove_fences (id : identity_t) (cmd : critical_command) (c : coordinator)
  : coordinator := with_fences (foldl (remove_fence id) (fences c) (keys cmd)) c.

Definition retained_total (ops : gmap identity_t operation_state) : Z :=
  map_fold (λ _ op acc, o_retained_bytes op + acc) 0 ops.
Definition pending_total (ops : gmap identity_t operation_state) : Z :=
  Z.of_nat (size (filter (λ p, o_publication_pending p.2 = true) ops)).
Definition oldest_queued (ops : gmap identity_t operation_state) : Z :=
  map_fold (λ _ op oldest,
    if (oldest =? 0) || (o_queued_at_usec op <? oldest) then o_queued_at_usec op else oldest)
    0 ops.

Definition update_depth (now : Z) (c : coordinator) : coordinator :=
  let ops := operations c in
  let oldest := oldest_queued ops in
  let inflight := Z.of_nat (size ops) in
  let retained := retained_total ops in
  with_gauges (Depth inflight (pending_total ops) retained
    (if nz oldest && (oldest <? now) then (now - oldest) / 1000 else 0)
    (Z.of_nat (size (completed_cache c)))
    (Z.max (d_high_water_operations (gauges c)) inflight)
    (Z.max (d_high_water_bytes (gauges c)) retained)) c.

(** The eviction loop. *)
Fixpoint evict (retained : Z) (order : list identity_t)
    (cache : gmap identity_t completed_state) (cache_bytes : Z)
  : gmap identity_t completed_state * list identity_t * Z :=
  match order with
  | [] => (cache, [], cache_bytes)
  | first :: rest =>
      if (CRITICAL_COORDINATOR_COMPLETED_CACHE_MAX <=? size cache)%nat
         || (CRITICAL_COORDINATOR_COMPLETED_CACHE_BYTES - retained <? cache_bytes) then
        match cache !! first with
        | Some found =>
            evict retained rest (delete first cache) (wrap 64 (cache_bytes - e_encoded_size found))
        | None => evict retained rest cache cache_bytes
        end
      else (cache, order, cache_bytes)
  end.

Definition remember_completed (memory : bool) (id : identity_t) (cmd : critical_command)
    (m : critical_completion) (c : coordinator) : coordinator :=
  match critical_command_encode cmd with
  | Err _ => c
  | Ok encoded =>
      let retained := vsize encoded in
      if CRITICAL_COORDINATOR_COMPLETED_CACHE_BYTES <? retained then c
      else
        let '(cache, order, total) :=
          evict retained (completed_order c) (completed_cache c) (completed_cache_bytes c) in
        if memory then
          with_cache (match cache !! id with
                      | Some _ => cache
                      | None => <[id := CompletedState cmd retained m]> cache
                      end) (order ++ [id]) (wrap 64 (total + retained)) c
        else with_cache (delete id cache) order total c
  end.

(** ** Execution on the writer thread *)

Record writer_job := WriterJob {
  j_command : critical_command;
  j_queued_at_usec : Z;
  j_generation : Z;
}.

(** [snprintf] into what is left of an array: all but the last byte. *)
Definition snprintf (remaining : nat) (text : String.string) : String.string :=
  String.substring 0 (remaining - 1) text.

Definition source_names : list String.string :=
  ["unknown"; "command"; "combat"; "zone_event"; "login"; "recovery"; "operator_repair"]%string.
Definition key_names : list String.string :=
  ["unknown"; "player"; "account"; "item"; "guild"; "locker"; "corpse"; "auction"; "room";
   "system"; "artifact"; "zone"; "shopkeeper"; "collector"; "pet"]%string.
Definition named (names : list String.string) (index : Z) : String.string :=
  default "unknown"%string (names !! Z.to_nat index).

Definition FAILURE_DETAIL_SIZE : nat := 2048.

Fixpoint describe_keys (index count : nat) (ks : list critical_entity_key)
    (detail : String.string) : String.string :=
  match ks with
  | [] => detail
  | key :: rest =>
      let remaining := (FAILURE_DETAIL_SIZE - String.length detail)%nat in
      if (remaining <? 96)%nat then
        (detail +:+ snprintf remaining (" omitted_keys=" +:+ pretty (N.of_nat (count - index))))%string
      else
        describe_keys (S index) count rest
          (detail +:+ snprintf remaining ((if (index =? 0)%nat then "" else ",")
             +:+ named key_names (key_type key) +:+ ":" +:+ pretty (Z.to_N (key_id key))))%string
  end.

Definition failure_detail (cmd : critical_command) (applied : critical_apply_result)
  : String.string :=
  let count := length (keys cmd) in
  describe_keys 0 count (keys cmd)
    (snprintf FAILURE_DETAIL_SIZE (a_failure_detail applied +:+ " source="
       +:+ named source_names (source_site cmd) +:+ " key_count=" +:+ pretty (N.of_nat count)
       +:+ " keys=")%string).

Definition no_apply_result (o : critical_apply_outcome) : critical_apply_result :=
  CriticalApply o 0 0 critical_failure_stage.none 0 [] "".

(** The callback and its [catch]. *)
Definition apply_outcome (reply : callback critical_apply_result) : critical_apply_result :=
  match reply with
  | Returned r => r
  | BadAlloc | Threw => no_apply_result a_retryable_failure
  end.

Definition retried (o : critical_apply_outcome) : bool :=
  match o with a_retryable_failure | a_ambiguous_commit => true | _ => false end.

Definition writer_answer (o : player_save_apply_outcome) (code : Z) : player_save_apply_result :=
  ApplyResult o 0 (Code code) (replicate 64 Byte.x00) false.

Definition job_completion (job : writer_job) (r : critical_apply_result) (started completed : Z)
  : critical_completion :=
  CriticalCompletion (operation_id (j_command job)) (command_type (j_command job)) (a_outcome r)
    (a_durable_revision r) (a_error_code r) 1 (j_queued_at_usec job) started completed
    critical_failure_stage.none (a_result_size r) (a_result_payload r) (replicate 33 Byte.x00)
    (if bool_decide (a_outcome r = a_terminal_failure) then failure_detail (j_command job) r
     else ""%string).

(** One attempt at a job; [memory] is whether the completion can be queued. *)
Definition execute (started completed : Z) (memory : bool)
    (reply : callback critical_apply_result) (job : writer_job) (c : coordinator)
  : player_save_apply_result * coordinator :=
  let r := apply_outcome reply in
  let current := initialized c && (j_generation job =? generation c) in
  if retried (a_outcome r) then
    (writer_answer retryable_failure (a_error_code r),
     if current then
       let c := count_up n_retries c in
       if bool_decide (a_outcome r = a_ambiguous_commit) then count_up n_ambiguous c else c
     else c)
  else
    (writer_answer applied 0,
     if current then
       with_delivery (try_enqueue memory execution (job_completion job r started completed)
                        (delivery c)).2 c
     else c).

(** ** The persistence writer the coordinator relies on *)

(** A writer state has a list of jobs of kind [critical] still to be finished, oldest first,
    each with its owner; a submission under an owner that has none queued is appended or
    refused. *)
Class PersistenceWriter (S J : Type) := {
  writer_ok : S → Prop;
  writer_jobs : S → list (Z * J);
  writer_submit : Z → Z → J → S → player_save_submit_result * option errno * S;
  writer_submit_law o size j w r e w' :
    writer_ok w → u64 o → o ≠ 0 → u64 size → o ∉ (writer_jobs w).*1 →
    writer_submit o size j w = (r, e, w') →
    writer_ok w'
    ∧ (r = SaveWorker.accepted ∧ writer_jobs w' = writer_jobs w ++ [(o, j)]
       ∨ r = SaveWorker.unavailable ∧ writer_jobs w' = writer_jobs w);
}.

(** ** Submission *)

Section Coordinator.

Context {S : Type} `{!PersistenceWriter S writer_job}.
(** [sizeof (writer_job)]. *)
Context (sizeof_writer_job : Z).

(** What the machine answers during a submission: the wall clock, the steady clock, and
    whether the reservation and the callback can be allocated. *)
Record submission := Submission {
  wall_now : Z;
  steady_now : Z;
  reserve_memory : bool;
  callback_memory : bool;
}.

Definition reserve (env : submission) (id : identity_t) (cmd : critical_command) (size : Z)
    (c : coordinator) : res (critical_submit_result * errno * coordinator) (writer_job * coordinator) :=
  if reserve_memory env then
    let op := OperationState cmd size (steady_now env) 1 0 false false None in
    Ok (WriterJob cmd (steady_now env) (generation c),
        update_depth (steady_now env)
          (add_fences id cmd (with_operations (<[id := op]> (operations c)) c)))
  else Err (overloaded, ENOMEM, count_up n_overloads c).

Definition release (id : identity_t) (c : coordinator) : coordinator :=
  match operations c !! id with
  | None => c
  | Some op =>
      let c := remove_fences id (o_command op) c in
      with_operations (delete id (operations c)) c
  end.

Definition queue_on_writer (env : submission) (id : identity_t) (job : writer_job)
    (c : coordinator) (w : S) : bool * option errno * coordinator * S :=
  let size := vsize (payload (j_command job)) + sizeof_writer_job in
  let c := with_sequence (writer_sequence c + 1) c in
  let '(submitted, error, w) :=
    if callback_memory env then writer_submit (writer_sequence c) size job w
    else (SaveWorker.unavailable, Some ENOMEM, w) in
  if bool_decide (submitted = SaveWorker.accepted) then (true, None, count_up n_accepted c, w)
  else
    let c := if bool_decide (error = Some ENOMEM) then count_up n_overloads c else c in
    (false, error, update_depth (steady_now env) (release id c), w).

Definition retain (flag : bool) (op : operation_state) : operation_state :=
  OperationState (o_command op) (o_retained_bytes op) (o_queued_at_usec op) (o_attempt op)
    (o_attachments op) flag (o_publication_pending op) (o_completion op).
Definition attach (op : operation_state) : operation_state :=
  OperationState (o_command op) (o_retained_bytes op) (o_queued_at_usec op) (o_attempt op)
    (wrap 64 (o_attachments op + 1)) (o_retain_until_publication op)
    (o_publication_pending op) (o_completion op).

(** The result, [errno] when it is set, and both states. *)
Definition submit_command (env : submission) (retain_until_publication : bool)
    (command : critical_command) (c : coordinator) (w : S)
  : critical_submit_result * option errno * coordinator * S :=
  let supplied := nz (accepted_at_usec command) in
  let command := if supplied then command else accepted_at (wall_now env) command in
  match critical_command_normalize command with
  | None => (invalid, None, c, w)
  | Some command =>
      let id := operation_key (operation_id command) in
      if negb (initialized c) || negb (accepting c) then (unavailable, Some ESHUTDOWN, c, w)
      else match completed_cache c !! id with
      | Some done =>
          let command := if supplied then command
                         else accepted_at (accepted_at_usec (e_command done)) command in
          if negb (critical_command_equal (e_command done) command)
          then (identity_conflict, None, c, w)
          else (attached, None, count_up n_attached c, w)
      | None =>
      match operations c !! id with
      | Some op =>
          let command := if supplied then command
                         else accepted_at (accepted_at_usec (o_command op)) command in
          if negb (critical_command_equal (o_command op) command)
          then (identity_conflict, None, c, w)
          else (attached, None,
                count_up n_attached (with_operations (<[id := attach op]> (operations c)) c), w)
      | None =>
      match critical_command_encode command with
      | Err _ => (invalid, None, c, w)
      | Ok encoded =>
          if (CRITICAL_COORDINATOR_MAX_OPERATIONS <=? size (operations c))%nat
             || (wrap 64 (CRITICAL_COORDINATOR_MAX_BYTES - d_retained_bytes (gauges c))
                 <? vsize encoded)
          then (overloaded, Some ENOSPC, count_up n_overloads c, w)
          else match reserve env id command (vsize encoded) c with
          | Err (r, e, c) => (r, Some e, c, w)
          | Ok (job, c) =>
              let c := with_operations (alter (retain retain_until_publication) id (operations c)) c in
              let '(queued, error, c, w) := queue_on_writer env id job c w in
              (if queued then accepted else unavailable, error, c, w)
          end
      end
      end
      end
  end.

Definition critical_command_coordinator_submit (env : submission) := submit_command env false.
Definition critical_command_coordinator_submit_for_publication (env : submission) :=
  submit_command env true.

End Coordinator.

(** ** Publication on the game thread *)

Definition set_pending (m : critical_completion) (op : operation_state) : operation_state :=
  OperationState (o_command op) (o_retained_bytes op) (o_queued_at_usec op) (o_attempt op)
    (o_attachments op) (o_retain_until_publication op) true (Some m).

(** What one completion popped from the queue does; whether it is published. *)
Definition publish_one (memory : identity_t → bool) (m : critical_completion)
    (c : coordinator) : bool * coordinator :=
  let id := operation_key (m_operation_id m) in
  match operations c !! id with
  | Some op =>
      if negb (o_attempt op =? m_attempt m) || o_publication_pending op
      then (false, count_up n_stale_completions c)
      else
        let c := if bool_decide (m_outcome m = a_terminal_failure)
                 then count_up n_terminal_failures c else c in
        if o_retain_until_publication op then
          (true, with_operations (<[id := set_pending m op]> (operations c)) c)
        else
          let c := remove_fences id (o_command op) c in
          let c := remember_completed (memory id) id (o_command op) m c in
          let c := count_up n_completed c in
          (true, with_operations (delete id (operations c)) c)
  | None => (false, count_up n_stale_completions c)
  end.

(** The loop of [pulse], over the queue it pops. *)
Fixpoint publish_loop (memory : identity_t → bool) (capacity : nat)
    (queue : list critical_completion) (c : coordinator)
  : list critical_completion * coordinator :=
  match queue with
  | [] => ([], c)
  | m :: rest =>
      match capacity with
      | O => ([], c)
      | S less =>
          let c := with_delivery (delivery_pop_front execution (delivery c)) c in
          let (published, c) := publish_one memory m c in
          let (out, c) := publish_loop memory (if published then less else capacity) rest c in
          (if published then m :: out else out, c)
      end
  end.

Definition critical_command_coordinator_pulse (now : Z) (memory : identity_t → bool)
    (capacity : nat) (c : coordinator) : list critical_completion * coordinator :=
  let (out, c) := publish_loop memory capacity (execution_results (delivery c)) c in
  (out, update_depth now c).

Definition critical_command_coordinator_acknowledge_publication (now : Z)
    (memory : identity_t → bool) (operation : critical_operation_id) (c : coordinator)
  : bool * coordinator :=
  let id := operation_key operation in
  match operations c !! id with
  | None => (bool_decide (is_Some (completed_cache c !! id)), c)
  | Some op =>
      match o_publication_pending op, o_completion op with
      | true, Some m =>
          let c := remember_completed (memory id) id (o_command op) m c in
          let c := remove_fences id (o_command op) c in
          let c := with_operations (delete id (operations c)) c in
          (true, update_depth now (count_up n_completed c))
      | _, _ => (false, c)
      end
  end.

Definition critical_command_coordinator_get_completed (operation : critical_operation_id)
    (c : coordinator) : option critical_completion :=
  let id := operation_key operation in
  match operations c !! id with
  | Some op => if o_publication_pending op then o_completion op
               else e_completion <$> completed_cache c !! id
  | None => e_completion <$> completed_cache c !! id
  end.

(** Whether the key is fenced, and the operation the caller asks for. *)
Definition critical_command_coordinator_is_fenced (k : critical_entity_key) (wanted : bool)
    (c : coordinator) : bool * option critical_operation_id :=
  match fences c !! entity_key k with
  | None | Some [] => (false, None)
  | Some (first :: _) =>
      if wanted then
        match operations c !! first with
        | None => (false, None)
        | Some op => (true, Some (operation_id (o_command op)))
        end
      else (true, None)
  end.

(** ** Control *)

Definition cleared (up given : bool) (c : coordinator) : coordinator :=
  Coordinator ∅ no_delivery ∅ ∅ [] 0 given no_depth 0 (λ _, 0) up up up (writer_sequence c)
    (generation c + 1).

Definition critical_command_coordinator_init (apply : bool) (c : coordinator)
  : bool * coordinator :=
  if negb apply then (false, c)
  else if initialized c then (false, c)
  else (true, cleared true true c).
Definition critical_command_coordinator_shutdown (c : coordinator) : coordinator :=
  cleared false false c.
Definition critical_command_coordinator_quiesce (c : coordinator) : coordinator :=
  with_accepting false c.
Definition critical_command_coordinator_resume (c : coordinator) : coordinator :=
  if initialized c then with_accepting true c else c.
Definition critical_command_coordinator_health_copy (now : Z) (c : coordinator)
  : depth * coordinator := let c := update_depth now c in (gauges c, c).

(** One turn of the drain loop: what the observer sees, and the result that ends it. *)
Definition drain_turn (now : Z) (memory : identity_t → bool) (past_deadline : bool)
    (c : coordinator) : list critical_completion * option bool * coordinator :=
  let (out, c) := critical_command_coordinator_pulse now memory 64 c in
  let (g, c) := critical_command_coordinator_health_copy now c in
  (out, if d_inflight g =? 0 then Some true
        else if past_deadline then Some false else None, c).

Definition critical_command_coordinator_inject_completion_for_tests (memory : bool)
    (m : critical_completion) (c : coordinator) : bool * coordinator :=
  let (ok, d) := try_enqueue memory execution m (delivery c) in (ok, with_delivery d c).

(** Kept folded: unary numerals. *)
#[global] Opaque CRITICAL_COORDINATOR_MAX_OPERATIONS CRITICAL_COORDINATOR_COMPLETED_CACHE_MAX
  CRITICAL_COORDINATOR_MAX_RESULTS.
#[local] Arguments remember_completed : simpl never.
#[local] Arguments critical_command_encode : simpl never.
#[local] Arguments critical_command_normalize : simpl never.
#[local] Arguments critical_command_equal : simpl never.
#[local] Arguments map_fold : simpl never.
#[local] Arguments size : simpl never.

(** ** Lemmas: sums over maps, fences, the cache *)

Definition map_sum {A} (f : A → Z) (m : gmap identity_t A) : Z :=
  map_fold (λ _ x acc, f x + acc) 0 m.

Lemma map_sum_insert {A} (f : A → Z) (m : gmap identity_t A) i x :
  m !! i = None → map_sum f (<[i := x]> m) = f x + map_sum f m.
Proof. intros H. unfold map_sum. rewrite map_fold_insert_L; [done| |done]. intros. lia. Qed.
Lemma map_sum_delete {A} (f : A → Z) (m : gmap identity_t A) i x :
  m !! i = Some x → map_sum f m = f x + map_sum f (delete i m).
Proof.
  intros H. rewrite <- (map_sum_insert f (delete i m) i x) by apply lookup_delete_eq. by rewrite insert_delete_id.
Qed.
Lemma map_sum_update {A} (f : A → Z) (m : gmap identity_t A) i x y :
  m !! i = Some x → f x = f y → map_sum f (<[i := y]> m) = map_sum f m.
Proof.
  intros H E0. rewrite (map_sum_delete f m i x H), E0.
  rewrite <- insert_delete_eq, map_sum_insert by apply lookup_delete_eq. done.
Qed.
Lemma map_sum_nonneg {A} (f : A → Z) (m : gmap identity_t A) :
  map_Forall (λ _ x, 0 <= f x) m → 0 <= map_sum f m.
Proof.
  induction m as [|i x m Hi IH] using map_ind; [done|]. intros F.
  rewrite map_sum_insert by done. apply map_Forall_insert in F as [F1 F2]; [|done].
  apply IH in F2. lia.
Qed.

Definition fence_ids (f : gmap fence_key (list identity_t)) (k : fence_key) : list identity_t :=
  default [] (f !! k).

Record fences_inv (f : gmap fence_key (list identity_t)) (ops : gmap identity_t operation_state)
  : Prop := {
  fence_exact : ∀ k id, id ∈ fence_ids f k
    ↔ ∃ op, ops !! id = Some op ∧ k ∈ entity_key <$> keys (o_command op);
  fence_used : ∀ k, f !! k ≠ Some [];
}.

Lemma fence_ids_add id f k k' i :
  i ∈ fence_ids (add_fence id f k) k' ↔ i ∈ fence_ids f k' ∨ (i = id ∧ k' = entity_key k).
Proof.
  unfold fence_ids, add_fence. rewrite lookup_insert. case_decide as K.
  - subst. simpl. rewrite elem_of_app, list_elem_of_singleton. naive_solver.
  - naive_solver.
Qed.

Lemma fence_ids_add_all id ks f k' i :
  i ∈ fence_ids (foldl (add_fence id) f ks) k'
  ↔ i ∈ fence_ids f k' ∨ (i = id ∧ k' ∈ entity_key <$> ks).
Proof.
  revert f. induction ks as [|k ks IH]; intros f; [set_solver|].
  cbn [foldl]. rewrite IH, fence_ids_add. csimpl. rewrite elem_of_cons. tauto.
Qed.

Lemma add_all_used id ks f : (∀ k, f !! k ≠ Some []) →
  ∀ k, foldl (add_fence id) f ks !! k ≠ Some [].
Proof.
  revert f. induction ks as [|k ks IH]; intros f H; [done|]. cbn [foldl]. apply IH.
  intros k'. unfold add_fence. rewrite lookup_insert. case_decide; [|done].
  by destruct (default [] _).
Qed.

Lemma fence_ids_remove id f k k' i :
  i ∈ fence_ids (remove_fence id f k) k'
  ↔ i ∈ fence_ids f k' ∧ ¬ (i = id ∧ k' = entity_key k).
Proof.
  unfold fence_ids, remove_fence. destruct (f !! entity_key k) as [ids|] eqn:L.
  - assert (∀ j, j ∈ filter (λ i, i ≠ id) ids ↔ j ∈ ids ∧ j ≠ id) as F
      by (intros; rewrite list_elem_of_filter; tauto).
    destruct (filter (λ i, i ≠ id) ids) as [|i0 ids'] eqn:Q.
    + rewrite lookup_delete. case_decide as K; [subst; rewrite L; simpl; specialize (F i); set_solver|].
      naive_solver.
    + rewrite lookup_insert. case_decide as K; [subst; rewrite L; simpl; rewrite F; naive_solver|].
      naive_solver.
  - split; [|tauto]. intros H. split; [done|]. intros [-> ->]. rewrite L in H. set_solver.
Qed.

Lemma fence_ids_remove_all id ks f k' i :
  i ∈ fence_ids (foldl (remove_fence id) f ks) k'
  ↔ i ∈ fence_ids f k' ∧ ¬ (i = id ∧ k' ∈ entity_key <$> ks).
Proof.
  revert f. induction ks as [|k ks IH]; intros f; [set_solver|].
  cbn [foldl]. rewrite IH, fence_ids_remove. csimpl. rewrite elem_of_cons. tauto.
Qed.

Lemma remove_all_used id ks f : (∀ k, f !! k ≠ Some []) →
  ∀ k, foldl (remove_fence id) f ks !! k ≠ Some [].
Proof.
  revert f. induction ks as [|k ks IH]; intros f H; [done|]. cbn [foldl]. apply IH.
  intros k'. unfold remove_fence. destruct (f !! entity_key k) as [ids|]; [|done].
  destruct (filter _ ids); [rewrite lookup_delete|rewrite lookup_insert]; case_decide; done.
Qed.

Lemma fences_insert id op f ops : fences_inv f ops → ops !! id = None →
  fences_inv (foldl (add_fence id) f (keys (o_command op))) (<[id := op]> ops).
Proof.
  intros [X U] N. constructor; [|by apply add_all_used].
  intros k i. rewrite fence_ids_add_all, X. setoid_rewrite lookup_insert.
  destruct (decide (id = i)) as [->|]; [|naive_solver].
  rewrite N. naive_solver.
Qed.
Lemma fences_delete id op f ops : fences_inv f ops → ops !! id = Some op →
  fences_inv (foldl (remove_fence id) f (keys (o_command op))) (delete id ops).
Proof.
  intros [X U] N. constructor; [|by apply remove_all_used].
  intros k i. rewrite fence_ids_remove_all, X. setoid_rewrite lookup_delete.
  destruct (decide (id = i)) as [->|]; [|naive_solver].
  split; [|naive_solver]. intros [(op' & E0 & K) D]. simplify_eq. tauto.
Qed.
Lemma fences_update id op op' f ops : fences_inv f ops → ops !! id = Some op →
  o_command op' = o_command op → fences_inv f (<[id := op']> ops).
Proof.
  intros [X U] N C. constructor; [|done]. intros k i. rewrite X.
  setoid_rewrite lookup_insert. destruct (decide (id = i)) as [->|]; [|naive_solver].
  rewrite N. split; intros (o & E0 & K); simplify_eq; eexists; (split; [done|congruence]).
Qed.

Record cache_inv (cache : gmap identity_t completed_state) (order : list identity_t) (total : Z)
  : Prop := {
  cache_order : ∀ id, is_Some (cache !! id) ↔ id ∈ order;
  cache_nodup : NoDup order;
  cache_total : total = map_sum e_encoded_size cache;
  cache_sizes : map_Forall (λ _ e, 0 <= e_encoded_size e) cache;
  cache_count : (size cache <= CRITICAL_COORDINATOR_COMPLETED_CACHE_MAX)%nat;
  cache_bound : total <= CRITICAL_COORDINATOR_COMPLETED_CACHE_BYTES;
}.

Lemma cache_bytes_value : CRITICAL_COORDINATOR_COMPLETED_CACHE_BYTES = 8388608.
Proof. done. Qed.

Lemma cache_evict_first cache first rest total e :
  cache_inv cache (first :: rest) total → cache !! first = Some e →
  wrap 64 (total - e_encoded_size e) = total - e_encoded_size e
  ∧ cache_inv (delete first cache) rest (total - e_encoded_size e).
Proof.
  intros [] L. inversion cache_nodup0; subst.
  pose proof (map_sum_delete e_encoded_size cache first e L) as S.
  assert (map_Forall (λ _ e, 0 <= e_encoded_size e) (delete first cache)) as F
    by by apply map_Forall_delete.
  pose proof (map_sum_nonneg _ _ F). pose proof (cache_sizes0 _ _ L). simpl in *.
  rewrite cache_bytes_value in *. split; [apply wrap_id; unfold fits; lia|].
  constructor; try done.
  - intros id. rewrite lookup_delete_is_Some, cache_order0, elem_of_cons.
    split; [naive_solver|]. intros I. split; [by intros ->|by right].
  - lia.
  - rewrite map_size_delete_Some by by exists e.
    revert cache_count0. generalize (size cache) CRITICAL_COORDINATOR_COMPLETED_CACHE_MAX. lia.
  - rewrite cache_bytes_value. lia.
Qed.

Lemma evict_spec retained order cache total cache' order' total' :
  cache_inv cache order total → 0 <= retained <= CRITICAL_COORDINATOR_COMPLETED_CACHE_BYTES →
  evict retained order cache total = (cache', order', total') →
  cache_inv cache' order' total' ∧ cache' ⊆ cache
  ∧ (size cache' < CRITICAL_COORDINATOR_COMPLETED_CACHE_MAX)%nat
  ∧ total' + retained <= CRITICAL_COORDINATOR_COMPLETED_CACHE_BYTES.
Proof.
  revert cache total. induction order as [|first rest IH]; intros cache total I R H; cbn [evict] in H.
  - simplify_eq. assert (cache' = ∅) as ->.
    { apply map_empty. intros i. destruct (cache' !! i) eqn:L; [|done].
      assert (i ∈ @nil identity_t); [|set_solver]. by apply (cache_order _ _ _ I). }
    split_and!; [done|done|rewrite map_size_empty; apply Nat.ltb_lt; vm_compute; done|].
    pose proof (cache_total _ _ _ I) as T. unfold map_sum in T. rewrite map_fold_empty in T. lia.
  - destruct (_ || _) eqn:C.
    + destruct (cache !! first) as [e|] eqn:L.
      * destruct (cache_evict_first _ _ _ _ _ I L) as [W I']. rewrite W in H.
        apply IH in H as (? & ? & ? & ?); [|done|done]. split_and!; try done.
        etransitivity; [done|]. apply delete_subseteq.
      * exfalso. assert (is_Some (cache !! first)) as [? X]; [|congruence].
        apply (cache_order _ _ _ I). set_solver.
    + simplify_eq. bool_prop. split_and!; try done; lia.
Qed.

Lemma encode_size cmd bs : critical_command_encode cmd = Ok bs →
  0 <= vsize bs <= CRITICAL_COMMAND_MAX_ENCODED_BYTES.
Proof.
  unfold critical_command_encode. intros H. steps_in H. bool_prop. unfold vsize in *. lia.
Qed.

Lemma max_encoded : CRITICAL_COMMAND_MAX_ENCODED_BYTES = 524288.
Proof. done. Qed.

(** ** The coordinator's own invariant *)

Definition operation_ok (id : identity_t) (op : operation_state) : Prop :=
  operation_id (o_command op) = id
  ∧ (∃ bs, critical_command_encode (o_command op) = Ok bs ∧ o_retained_bytes op = vsize bs)
  ∧ o_attempt op = 1
  ∧ o_publication_pending op = bool_decide (is_Some (o_completion op)).

Record core_inv (c : coordinator) : Prop := {
  core_operations : map_Forall operation_ok (operations c);
  core_fences : fences_inv (fences c) (operations c);
  core_cache : cache_inv (completed_cache c) (completed_order c) (completed_cache_bytes c);
  core_disjoint : ∀ id, is_Some (operations c !! id) → completed_cache c !! id = None;
  core_count : (size (operations c) <= CRITICAL_COORDINATOR_MAX_OPERATIONS)%nat;
  core_bytes : map_sum o_retained_bytes (operations c) <= CRITICAL_COORDINATOR_MAX_BYTES;
  core_down : initialized c = false → operations c = ∅;
}.

(** The gauge admission reads is current. *)
Definition gauge_ok (c : coordinator) : Prop :=
  d_retained_bytes (gauges c) = map_sum o_retained_bytes (operations c).

(** The fields of the state the invariant reads. *)
Definition core (c : coordinator) :=
  (operations c, fences c, (completed_cache c, completed_order c, completed_cache_bytes c),
   initialized c).

Lemma core_inv_core c c' : core c' = core c → core_inv c → core_inv c'.
Proof.
  unfold core. intros H []. injection H as H1 H2 H3 H4 H5 H6.
  constructor; rewrite ?H1, ?H2, ?H3, ?H4, ?H5, ?H6; done.
Qed.

Lemma update_depth_core now c : core_inv c → core_inv (update_depth now c) ∧ gauge_ok (update_depth now c).
Proof. intros I. split; [by apply (core_inv_core c)|done]. Qed.

Lemma core_cache_none c id : core_inv c → is_Some (operations c !! id) →
  id ∉ completed_order c.
Proof.
  intros I H N. apply (cache_order _ _ _ (core_cache _ I)) in N as [e N].
  by rewrite (core_disjoint _ I) in N.
Qed.

Lemma retained_nonneg c : core_inv c → map_Forall (λ _ op, 0 <= o_retained_bytes op) (operations c).
Proof.
  intros I id op L. destruct (core_operations _ I _ _ L) as (_ & (bs & B & ->) & _).
  apply encode_size in B. lia.
Qed.

(** Removing a live operation, with its completion remembered or not. *)
Lemma remember_spec memory id cmd m c bs : core_inv c → is_Some (operations c !! id) →
  critical_command_encode cmd = Ok bs →
  let c' := remember_completed memory id cmd m c in
  operations c' = operations c ∧ fences c' = fences c ∧ delivery c' = delivery c
  ∧ initialized c' = initialized c ∧ generation c' = generation c
  ∧ writer_sequence c' = writer_sequence c ∧ gauges c' = gauges c
  ∧ cache_inv (completed_cache c') (completed_order c') (completed_cache_bytes c')
  ∧ (∀ i, i ≠ id → completed_cache c !! i = None → completed_cache c' !! i = None)
  ∧ (memory = true → completed_cache c' !! id = Some (CompletedState cmd (vsize bs) m)).
Proof.
  intros I L B. pose proof (encode_size _ _ B) as Hs. rewrite max_encoded in Hs.
  unfold remember_completed. rewrite B, (proj2 (Z.ltb_ge _ _)) by (rewrite cache_bytes_value; lia).
  destruct (evict (vsize bs) (completed_order c) (completed_cache c) (completed_cache_bytes c))
    as [[cache order] total] eqn:Q.
  apply evict_spec in Q as (I' & Sub & Sz & Tot); [|apply I|rewrite cache_bytes_value; lia].
  pose proof (core_disjoint _ I _ L) as D.
  assert (cache !! id = None) as N.
  { destruct (cache !! id) eqn:X; [|done]. eapply lookup_weaken in X; [|done]. congruence. }
  assert (∀ i, completed_cache c !! i = None → cache !! i = None) as W.
  { intros i Hi. destruct (cache !! i) eqn:X; [|done]. eapply lookup_weaken in X; [|done]. congruence. }
  pose proof (map_sum_nonneg _ _ (cache_sizes _ _ _ I')) as P. 
  destruct memory; simpl; split_and!; try done.
  - rewrite N. destruct I'. rewrite cache_bytes_value in *.
    rewrite wrap_id by (unfold fits; lia). constructor.
    + intros i. rewrite elem_of_app, list_elem_of_singleton, lookup_insert, <- cache_order0.
      case_decide; [subst; naive_solver|naive_solver].
    + apply NoDup_app. split_and!; [done| |apply NoDup_singleton].
      intros i Hi. rewrite list_elem_of_singleton. intros ->. apply cache_order0 in Hi as [? ?]. congruence.
    + rewrite map_sum_insert by done. simpl. lia.
    + apply map_Forall_insert_2; [simpl; lia|done].
    + rewrite map_size_insert_None by done. lia.
    + rewrite cache_bytes_value. lia.
  - intros i Hi Hn. rewrite N, lookup_insert_ne by done. auto.
  - intros _. by rewrite N, lookup_insert_eq.
  - by rewrite delete_id.
  - intros i Hi Hn. rewrite lookup_delete_ne by done. auto.
Qed.

(** ** The system: the coordinator and its writer *)

Section System.

Context {S : Type} `{!PersistenceWriter S writer_job}.
Context (sizeof_writer_job : Z) (sizeof_small : 0 <= sizeof_writer_job < 2 ^ 32).

(** What the locked regions of the two threads leave in neither state: whether the writer's
    oldest job has been executed and waits for the writer to finish it, and the operations of this
    generation whose completion could not be allocated. *)
Record progress := Progress {
  executed : bool;
  lost : list identity_t;
}.

(** The writer's jobs still to be executed. *)
Definition unexecuted (w : S) (g : progress) : list (Z * writer_job) :=
  if executed g then tail (writer_jobs w) else writer_jobs w.

(** The operations an execution loses: the answer is final, the job is of this generation and
    there is no memory for its completion. *)
Definition loses (memory : bool) (reply : callback critical_apply_result) (job : writer_job)
    (c : coordinator) : list identity_t :=
  if negb memory && negb (retried (a_outcome (apply_outcome reply)))
     && initialized c && (j_generation job =? generation c)
  then [operation_id (j_command job)] else [].

(** The identifiers of the operations still to be published: those of the writer's unexecuted
    jobs of this generation, of the completions not yet consumed, and of the lost completions. *)
Definition pending_ids (c : coordinator) (w : S) (g : progress) : list identity_t :=
  ((λ j, operation_id (j_command j))
     <$> filter (λ j, j_generation j = generation c) (unexecuted w g).*2)
  ++ (m_operation_id <$> execution_results (delivery c)) ++ lost g.

Record system_inv (c : coordinator) (w : S) (g : progress) : Prop := {
  sys_core : core_inv c;
  sys_gauge : gauge_ok c;
  sys_writer : writer_ok w;
  sys_executed : executed g = true → writer_jobs w ≠ [];
  sys_once : NoDup (pending_ids c w g);
  sys_pending : ∀ id, id ∈ pending_ids c w g
    ↔ ∃ op, operations c !! id = Some op ∧ o_publication_pending op = false;
  sys_attempts : Forall (λ m, m_attempt m = 1) (execution_results (delivery c));
  sys_channel : admission_failures (delivery c) = [];
  sys_owners : Forall (λ p, 0 < p.1 <= writer_sequence c) (writer_jobs w);
  sys_generations : Forall (λ p, j_generation p.2 <= generation c) (writer_jobs w);
  sys_sequence : 0 <= writer_sequence c;
}.

Lemma unexecuted_same w w' g : writer_jobs w' = writer_jobs w → unexecuted w' g = unexecuted w g.
Proof. unfold unexecuted. by intros ->. Qed.

Lemma unexecuted_snoc w w' g j : (executed g = true → writer_jobs w ≠ []) →
  writer_jobs w' = writer_jobs w ++ [j] → unexecuted w' g = unexecuted w g ++ [j].
Proof.
  unfold unexecuted. intros E ->. destruct (executed g); [|done].
  destruct (writer_jobs w); [by destruct (E eq_refl)|done].
Qed.

(** Changes that no clause of the invariant reads. *)
Lemma system_inv_same c c' w w' g :
  system_inv c w g → core c' = core c → delivery c' = delivery c → generation c' = generation c →
  writer_sequence c <= writer_sequence c' → gauge_ok c' → writer_ok w' →
  writer_jobs w' = writer_jobs w → system_inv c' w' g.
Proof.
  intros [] C D G Sq GO WO J. assert (C' := core_inv_core _ _ C sys_core0).
  unfold core in C. injection C as C1 C2 C3 C4 C5 C6.
  constructor; unfold pending_ids in *;
    rewrite ?(unexecuted_same w w' g J), ?C1, ?D, ?G, ?J; try done; [|lia].
  eapply Forall_impl; [exact sys_owners0|]. simpl. intros. lia.
Qed.

Lemma pending_length c w g : system_inv c w g →
  (length (pending_ids c w g) <= size (operations c))%nat.
Proof.
  intros []. rewrite <- size_dom, <- (size_list_to_set (C := gset identity_t)) by done.
  apply subseteq_size. intros id. rewrite elem_of_list_to_set, sys_pending0, elem_of_dom.
  intros (op & L & _). by exists op.
Qed.

(** There is room for every completion. *)
Lemma delivery_room c w g : system_inv c w g →
  (∃ p rest, unexecuted w g = p :: rest ∧ j_generation p.2 = generation c) →
  has_capacity (delivery c) = true.
Proof.
  intros I (p & rest & J & G). pose proof (pending_length c w g I) as P.
  unfold pending_ids in P. rewrite J in P. csimpl in P. rewrite filter_cons, decide_True in P by done.
  rewrite !length_app, !length_fmap in P. csimpl in P.
  pose proof (core_count _ (sys_core _ _ _ I)) as C. unfold has_capacity, delivery_size.
  rewrite (sys_channel _ _ _ I). apply Nat.ltb_lt. simpl length.
  assert (CRITICAL_COORDINATOR_MAX_OPERATIONS < CRITICAL_COORDINATOR_MAX_RESULTS)%nat as L
    by (apply Nat.ltb_lt; vm_compute; reflexivity).
  revert P C L. generalize (size (operations c)) CRITICAL_COORDINATOR_MAX_OPERATIONS
    CRITICAL_COORDINATOR_MAX_RESULTS. intros. lia.
Qed.

Definition new_operation (now : Z) (flag : bool) (cmd : critical_command) (size : Z)
  : operation_state := OperationState cmd size now 1 0 flag false None.

Lemma reserve_core env flag cmd bs c :
  let id := operation_id cmd in
  let op := new_operation (steady_now env) flag cmd (vsize bs) in
  core_inv c → gauge_ok c → initialized c = true →
  operations c !! id = None → completed_cache c !! id = None →
  critical_command_encode cmd = Ok bs →
  (size (operations c) < CRITICAL_COORDINATOR_MAX_OPERATIONS)%nat →
  vsize bs <= CRITICAL_COORDINATOR_MAX_BYTES - d_retained_bytes (gauges c) →
  ∀ job c1, reserve env id cmd (vsize bs) c = Ok (job, c1) →
  let c' := with_operations (alter (retain flag) id (operations c1)) c1 in
  job = WriterJob cmd (steady_now env) (generation c)
  ∧ core_inv c' ∧ gauge_ok c' ∧ operations c' = <[id := op]> (operations c)
  ∧ delivery c' = delivery c ∧ generation c' = generation c
  ∧ writer_sequence c' = writer_sequence c ∧ initialized c' = true
  ∧ completed_cache c' = completed_cache c.
Proof.
  intros id op I G Up N1 N2 B Sz By job c1 H. unfold reserve in H.
  destruct (reserve_memory env); [|done]. simplify_eq. unfold with_operations at 1 2. simpl.
  assert (alter (retain flag) id
    (<[id := OperationState cmd (vsize bs) (steady_now env) 1 0 false false None]> (operations c))
    = <[id := op]> (operations c)) as ->.
  { rewrite (alter_as_insert _ _ _ _ (lookup_insert_eq _ _ _)). by rewrite insert_insert_eq. }
  assert (map_sum o_retained_bytes (<[id := op]> (operations c))
    = vsize bs + map_sum o_retained_bytes (operations c)) as T
    by by rewrite map_sum_insert.
  split_and!; try done.
  - destruct I. constructor; simpl; try done.
    + apply map_Forall_insert_2; [|done]. split_and!; try done. by exists bs.
    + by apply (fences_insert id op).
    + intros i [o L]. rewrite lookup_insert in L. case_decide; [by subst|].
      apply core_disjoint0. by exists o.
    + rewrite map_size_insert_None by done. lia.
    + rewrite T. unfold gauge_ok in G. lia.
    + congruence.
  - unfold gauge_ok. simpl. rewrite T. change (retained_total) with (map_sum o_retained_bytes).
    by rewrite map_sum_insert.
Qed.

Lemma release_core now c id op : core_inv c → operations c !! id = Some op →
  let c' := update_depth now (release id c) in
  core_inv c' ∧ gauge_ok c' ∧ operations c' = delete id (operations c)
  ∧ delivery c' = delivery c ∧ generation c' = generation c
  ∧ writer_sequence c' = writer_sequence c.
Proof.
  intros I L. unfold release. rewrite L. simpl. split_and!; try done. 
  pose proof (retained_nonneg _ I) as RN. destruct I. constructor; simpl; try done.
  - by apply map_Forall_delete.
  - by apply fences_delete.
  - intros i [o Lo]. rewrite lookup_delete in Lo. case_decide; [done|]. apply core_disjoint0. by exists o.
  - rewrite map_size_delete_Some by by exists op. revert core_count0.
    generalize (size (operations c)) CRITICAL_COORDINATOR_MAX_OPERATIONS. lia.
  - rewrite (map_sum_delete _ _ _ _ L) in core_bytes0. pose proof (RN _ _ L). simpl in *. lia.
  - intros X. rewrite core_down0 by done. apply delete_empty.
Qed.

Lemma normalize_id cmd n : critical_command_normalize cmd = Some n →
  operation_id n = operation_id cmd ∧ critical_command_valid n = true.
Proof.
  unfold critical_command_normalize. intros H. steps_in H. bool_prop. done.
Qed.

(** A fresh submission reserves the operation and either leaves it queued or removes it. *)
Lemma fresh_submission env flag cmd bs c w job c1 queued error c' w' g :
  let id := operation_id cmd in
  let op := new_operation (steady_now env) flag cmd (vsize bs) in
  system_inv c w g → initialized c = true → writer_sequence c + 1 < 2 ^ 64 →
  operations c !! id = None → completed_cache c !! id = None →
  critical_command_valid cmd = true → critical_command_encode cmd = Ok bs →
  (size (operations c) < CRITICAL_COORDINATOR_MAX_OPERATIONS)%nat →
  vsize bs <= CRITICAL_COORDINATOR_MAX_BYTES - d_retained_bytes (gauges c) →
  reserve env id cmd (vsize bs) c = Ok (job, c1) →
  queue_on_writer sizeof_writer_job env id job
    (with_operations (alter (retain flag) id (operations c1)) c1) w = (queued, error, c', w') →
  system_inv c' w' g
  ∧ operations c' = (if queued then <[id := op]> (operations c) else operations c)
  ∧ writer_jobs w' = (if queued
      then writer_jobs w ++ [(writer_sequence c + 1, WriterJob cmd (steady_now env) (generation c))]
      else writer_jobs w).
Proof.
  intros id op I Up Sq N1 N2 V B Sz By R Q.
  destruct (reserve_core env flag cmd bs c (sys_core _ _ _ I) (sys_gauge _ _ _ I) Up N1 N2 B Sz By
    job c1 R) as (-> & C2 & G2 & O2 & D2 & Gn2 & S2 & U2 & CC2).
  revert Q C2 G2 O2 D2 Gn2 S2 U2 CC2.
  set (c2 := with_operations _ c1). clearbody c2. intros Q C2 G2 O2 D2 Gn2 S2 U2 CC2.
  assert (delete id (<[id := op]> (operations c)) = operations c) as DI by by apply delete_insert_id.
  (* the operation is not queued *)
  assert (∀ c3, core c3 = core c2 → gauge_ok c3 → delivery c3 = delivery c2 →
    generation c3 = generation c2 → writer_sequence c3 = writer_sequence c2 + 1 →
    ∀ w3, writer_ok w3 → writer_jobs w3 = writer_jobs w →
    system_inv (update_depth (steady_now env) (release id c3)) w3 g
    ∧ operations (update_depth (steady_now env) (release id c3)) = operations c
    ∧ writer_jobs w3 = writer_jobs w) as Refused.
  { intros c3 K3 G3 D3 Gn3 S3 w3 W3 J3. assert (C3 := core_inv_core _ _ K3 C2).
    assert (operations c3 = <[id := op]> (operations c)) as O3.
    { unfold core in K3. injection K3 as -> _ _ _ _ _. exact O2. }
    destruct (release_core (steady_now env) c3 id op C3) as (RC & RG & RO & RD & RGn & RS).
    { rewrite O3. apply lookup_insert_eq. }
    rewrite O3, DI in RO. split; [|by split].
    destruct I. constructor; unfold pending_ids in *;
      rewrite ?(unexecuted_same w w3 g J3), ?RO, ?RD, ?RGn, ?RS, ?D3, ?Gn3, ?S3, ?D2, ?Gn2, ?S2, ?J3;
      try done; [|lia].
    eapply Forall_impl; [exact sys_owners0|]. simpl. intros. lia. }
  unfold queue_on_writer in Q. destruct (callback_memory env).
  - destruct (writer_submit _ _ _ w) as [[r e] w3] eqn:WS.
    pose proof (valid_sizes _ V) as (_ & _ & _ & Vp).
    apply writer_submit_law in WS as (W3 & L).
    + destruct L as [[-> J3]|[-> J3]].
      * rewrite bool_decide_eq_true_2 in Q by done. simplify_eq Q. intros <- <- <- <-.
        split; [|split; [exact O2|by rewrite J3; simpl; rewrite S2]]. destruct I.
        assert (id ∉ pending_ids c w g) as NI.
        { rewrite sys_pending0. intros (o & L & _). congruence. }
        assert (pending_ids (count_up n_accepted (with_sequence (writer_sequence c2 + 1) c2)) w3 g
          ≡ₚ id :: pending_ids c w g) as P.
        { unfold pending_ids. simpl. rewrite (unexecuted_snoc _ _ g _ sys_executed0 J3), D2, Gn2.
          rewrite !fmap_app, filter_app.
          rewrite fmap_app. csimpl. rewrite filter_cons, decide_True by done. csimpl.
          rewrite <- !app_assoc. simpl. by rewrite <- Permutation_middle. }
        constructor; simpl; rewrite ?D2, ?Gn2, ?S2, ?J3; try done.
        -- by apply (core_inv_core c2).
        -- intros X. by destruct (writer_jobs w).
        -- rewrite P. by constructor.
        -- intros i. rewrite P, elem_of_cons, sys_pending0, O2.
           split.
           ++ intros [->|(o & L & Pn)]; [exists op; split; [apply lookup_insert_eq|done]|].
              exists o. split; [|done]. rewrite lookup_insert_ne; [done|]. intros Heq.
              assert (Some o = None) by (rewrite <- L, <- Heq; exact N1). done.
           ++ intros (o & L & Pn). apply lookup_insert_Some in L as [[<- <-]|[Ne L]]; [by left|].
              right. by exists o.
        -- apply Forall_app. split; [eapply Forall_impl; [exact sys_owners0|]; simpl; intros; lia|].
           apply Forall_singleton. simpl. lia.
        -- apply Forall_app. split; [done|]. apply Forall_singleton. simpl. lia.
        -- lia.
      * rewrite bool_decide_eq_false_2 in Q by done.
        case_bool_decide; simplify_eq Q; intros <- <- <- <-;
          apply Refused; try done; simpl; lia.
    + apply I.
    + pose proof (sys_sequence _ _ _ I). unfold fits. simpl. rewrite S2. lia.
    + pose proof (sys_sequence _ _ _ I). simpl. rewrite S2. lia.
    + unfold fits. simpl. unfold CRITICAL_COMMAND_MAX_PAYLOAD_BYTES, vsize in *. lia.
    + pose proof (sys_owners _ _ _ I) as O. rewrite Forall_forall in O. simpl. rewrite S2.
      intros X. apply list_elem_of_fmap in X as [p [Hp X]]. apply O in X. lia.
  - rewrite bool_decide_eq_false_2 in Q by done. rewrite bool_decide_eq_true_2 in Q by done.
    simplify_eq Q. intros <- <- <- <-. apply Refused; try done; simpl; try lia. apply I.
Qed.

Lemma max_bytes_value : CRITICAL_COORDINATOR_MAX_BYTES = 67108864.
Proof. done. Qed.

Lemma free_bytes c w g : system_inv c w g →
  wrap 64 (CRITICAL_COORDINATOR_MAX_BYTES - d_retained_bytes (gauges c))
  = CRITICAL_COORDINATOR_MAX_BYTES - d_retained_bytes (gauges c).
Proof.
  intros []. pose proof (core_bytes _ sys_core0) as B.
  pose proof (map_sum_nonneg _ _ (retained_nonneg _ sys_core0)) as P.
  rewrite max_bytes_value in *. rewrite sys_gauge0 in *. apply wrap_id. unfold fits. lia.
Qed.

(** Updating an operation without touching what the invariant reads of it. *)
Lemma update_core c id op op' : core_inv c → operations c !! id = Some op →
  o_command op' = o_command op → o_retained_bytes op' = o_retained_bytes op →
  operation_ok id op' →
  core_inv (with_operations (<[id := op']> (operations c)) c)
  ∧ map_sum o_retained_bytes (<[id := op']> (operations c)) = map_sum o_retained_bytes (operations c).
Proof.
  intros I L C R Ok'. assert (map_sum o_retained_bytes (<[id := op']> (operations c))
    = map_sum o_retained_bytes (operations c)) as T by by eapply map_sum_update.
  split; [|done]. destruct I. constructor; simpl; try done.
  - by apply map_Forall_insert_2.
  - by eapply fences_update.
  - intros i X. apply core_disjoint0. rewrite lookup_insert in X. case_decide; [subst; by exists op|done].
  - by rewrite map_size_insert_Some by by exists op.
  - by rewrite T.
  - intros X. rewrite core_down0 in L by done. done.
Qed.

(** The command a submission compares or queues: with the submission's own acceptance time,
    or that of the operation already known. *)
Definition stamped (env : submission) (cmd : critical_command) : critical_command :=
  if nz (accepted_at_usec cmd) then cmd else accepted_at (wall_now env) cmd.
Definition compared (cmd known n : critical_command) : critical_command :=
  if nz (accepted_at_usec cmd) then n else accepted_at (accepted_at_usec known) n.

(** The command the tables know under an identifier. *)
Definition known_command (c : coordinator) (id : identity_t) : option critical_command :=
  match completed_cache c !! id with
  | Some d => Some (e_command d)
  | None => o_command <$> operations c !! id
  end.

(** What a submission does, by its result. *)
Definition submission_effect (env : submission) (flag : bool) (cmd : critical_command)
    (c : coordinator) (w : S) (r : critical_submit_result) (c' : coordinator) (w' : S) : Prop :=
  match r with
  | accepted =>
      ∃ n size job, critical_command_normalize (stamped env cmd) = Some n
        ∧ known_command c (operation_id n) = None
        ∧ operations c' = <[operation_id n := new_operation (steady_now env) flag n size]> (operations c)
        ∧ writer_jobs w' = writer_jobs w ++ [(writer_sequence c + 1, job)]
        ∧ j_command job = n ∧ j_generation job = generation c
  | attached =>
      w' = w ∧ o_command <$> operations c' = o_command <$> operations c
      ∧ ∃ n known, critical_command_normalize (stamped env cmd) = Some n
        ∧ known_command c (operation_id n) = Some known
        ∧ critical_command_equal known (compared cmd known n) = true
  | identity_conflict =>
      c' = c ∧ w' = w
      ∧ ∃ n known, critical_command_normalize (stamped env cmd) = Some n
        ∧ known_command c (operation_id n) = Some known
        ∧ critical_command_equal known (compared cmd known n) = false
  | _ => writer_jobs w' = writer_jobs w ∧ operations c' = operations c
  end.

Lemma attach_commands c id op : operations c !! id = Some op →
  o_command <$> <[id := attach op]> (operations c) = o_command <$> operations c.
Proof.
  intros L. rewrite fmap_insert. apply insert_id. rewrite lookup_fmap, L. done.
Qed.

Lemma attach_inv c id op w g : system_inv c w g → operations c !! id = Some op →
  system_inv (count_up n_attached (with_operations (<[id := attach op]> (operations c)) c)) w g.
Proof.
  intros I On. destruct (update_core c id op (attach op) (sys_core _ _ _ I) On) as [U T];
    [done|done|exact (core_operations _ (sys_core _ _ _ I) _ _ On)|].
  destruct I. constructor; simpl; try done.
  - by apply (core_inv_core (with_operations (<[id := attach op]> (operations c)) c)).
  - unfold gauge_ok in *. simpl. by rewrite T.
  - intros i. rewrite (sys_pending0 i). split; intros (o & L & Pn).
    + rewrite lookup_insert. case_decide; [subst; eexists; split; [done|]|by exists o].
      simplify_eq. exact Pn.
    + apply lookup_insert_Some in L as [[<- <-]|[? L]]; [by exists op|by exists o].
Qed.

Lemma submit_inv env flag cmd c w r e c' w' g :
  system_inv c w g → writer_sequence c + 1 < 2 ^ 64 →
  submit_command sizeof_writer_job env flag cmd c w = (r, e, c', w') →
  system_inv c' w' g ∧ submission_effect env flag cmd c w r c' w'.
Proof.
  intros I Sq H. unfold submit_command in H. fold (stamped env cmd) in H.
  destruct (critical_command_normalize (stamped env cmd)) as [n|] eqn:N; [|by simplify_eq].
  pose proof (normalize_id _ _ N) as [_ V].
  destruct (initialized c) eqn:Up; simpl in H; [|by simplify_eq].
  destruct (accepting c); simpl in H; [|by simplify_eq].
  unfold operation_key in H.
  destruct (completed_cache c !! operation_id n) as [d|] eqn:Dn.
  { assert (known_command c (operation_id n) = Some (e_command d)) as Kn
      by (unfold known_command; by rewrite Dn).
    fold (compared cmd (e_command d) n) in H.
    destruct (critical_command_equal _ _) eqn:Q; simpl in H; simplify_eq.
    - split; [apply (system_inv_same c _ w'); first [done|apply I|apply (sys_gauge _ _ _ I)]|].
      split_and!; try done. by eexists _, _.
    - split; [done|]. split_and!; try done. by eexists _, _. }
  destruct (operations c !! operation_id n) as [op|] eqn:On.
  { assert (known_command c (operation_id n) = Some (o_command op)) as Kn
      by (unfold known_command; by rewrite Dn, On).
    fold (compared cmd (o_command op) n) in H.
    destruct (critical_command_equal _ _) eqn:Q; simpl in H; simplify_eq.
    - split; [by apply attach_inv|]. split_and!; [done|by apply attach_commands|]. by eexists _, _.
    - split; [done|]. split_and!; try done. by eexists _, _. }
  destruct (critical_command_encode n) as [bs|] eqn:B; [|by simplify_eq].
  rewrite (free_bytes _ _ _ I) in H.
  destruct (_ || _) eqn:F.
  { simplify_eq. split; [|done].
    apply (system_inv_same c _ w'); first [done|apply I|apply (sys_gauge _ _ _ I)]. }
  apply orb_false_elim in F as [F1 F2]. apply Nat.leb_gt in F1. apply Z.ltb_ge in F2.
  destruct (reserve env (operation_id n) n (vsize bs) c) as [[job c1]|[[r1 e1] c1]] eqn:R.
  - destruct (queue_on_writer _ _ _ _ _ _) as [[[queued error] c2] w2] eqn:Q. simplify_eq.
    edestruct fresh_submission as (I' & O' & J'); eauto. split; [done|].
    destruct queued; [|done]. eexists n, (vsize bs), _. split_and!; try done.
    unfold known_command. by rewrite Dn, On.
  - unfold reserve in R. destruct (reserve_memory env); [done|]. simplify_eq. split; [|done].
    apply (system_inv_same c _ w'); first [done|apply I|apply (sys_gauge _ _ _ I)].
Qed.

(** While the coordinator is down no job is of its generation. *)
Lemma current_up c w g o job rest : system_inv c w g → unexecuted w g = (o, job) :: rest →
  j_generation job = generation c → initialized c = true.
Proof.
  intros I J G. destruct (initialized c) eqn:Up; [done|exfalso].
  destruct (proj1 (sys_pending _ _ _ I (operation_id (j_command job)))) as (op & L & _).
  { unfold pending_ids. rewrite J. csimpl. rewrite filter_cons, decide_True by done. set_solver. }
  by rewrite (core_down _ (sys_core _ _ _ I) Up) in L.
Qed.

(** The completion of a final answer, or its loss, takes the job's place. *)
Lemma execute_pending started completed memory reply job c w g o rest a c' :
  system_inv c w g → executed g = false → writer_jobs w = (o, job) :: rest →
  retried (a_outcome (apply_outcome reply)) = false →
  execute started completed memory reply job c = (a, c') →
  pending_ids c' w (Progress true (lost g ++ loses memory reply job c)) ≡ₚ pending_ids c w g
  ∧ core c' = core c ∧ gauges c' = gauges c ∧ operations c' = operations c
  ∧ generation c' = generation c ∧ writer_sequence c' = writer_sequence c
  ∧ admission_failures (delivery c') = admission_failures (delivery c)
  ∧ Forall (λ m, m_attempt m = 1) (execution_results (delivery c'))
  ∧ connection_lost (SaveWorker.outcome a) = false.
Proof.
  intros I X J Rt H. assert (unexecuted w g = (o, job) :: rest) as U by (unfold unexecuted; by rewrite X).
  pose proof (current_up c w g o job rest I U) as Up. pose proof (delivery_room c w g I) as Room.
  rewrite U in Room. pose proof (sys_attempts _ _ _ I) as At.
  assert (pending_ids c w g = ((λ j, operation_id (j_command j))
     <$> filter (λ j, j_generation j = generation c) (job :: rest.*2))
     ++ (m_operation_id <$> execution_results (delivery c)) ++ lost g) as ->
    by (unfold pending_ids; by rewrite U).
  unfold execute in H. unfold loses. rewrite Rt in *. simpl in H |- *. rewrite filter_cons.
  injection H as <- <-.
  destruct (decide (j_generation job = generation c)) as [G|G].
  - rewrite (Up G), (proj2 (Z.eqb_eq _ _) G). simpl. unfold try_enqueue.
    rewrite Room by (by eexists _, _). unfold pending_ids, unexecuted. simpl. rewrite J. csimpl.
    destruct memory; simpl; split_and!; try done.
    + rewrite fmap_app, app_nil_r. csimpl. rewrite <- app_assoc. simpl. by rewrite <- !Permutation_middle.
    + apply Forall_app. by repeat constructor.
    + rewrite !app_assoc. by rewrite <- Permutation_cons_append.
  - rewrite (proj2 (Z.eqb_neq _ _) G), !andb_false_r. unfold pending_ids, unexecuted. simpl.
    by rewrite J, app_nil_r.
Qed.

(** One execution of the writer's oldest job. *)
Lemma execute_inv c w g o job rest started completed memory reply a c' :
  system_inv c w g → executed g = false → writer_jobs w = (o, job) :: rest →
  execute started completed memory reply job c = (a, c') →
  system_inv c' w (Progress (negb (connection_lost (SaveWorker.outcome a)))
                     (lost g ++ loses memory reply job c)).
Proof.
  intros I X J H. destruct (retried (a_outcome (apply_outcome reply))) eqn:Rt.
  - assert (g = Progress (negb (connection_lost (SaveWorker.outcome a)))
      (lost g ++ loses memory reply job c)) as <-.
    { unfold execute in H. rewrite Rt in H. injection H as <- _. unfold loses. rewrite Rt, andb_false_r.
      simpl. rewrite app_nil_r. destruct g. simpl in *. by subst. }
    unfold execute in H. rewrite Rt in H. injection H as _ <-.
    destruct (_ && _); [|done].
    case_bool_decide; apply (system_inv_same c _ w); first [done|apply I|apply (sys_gauge _ _ _ I)].
  - destruct (execute_pending _ _ _ _ _ _ _ _ _ _ _ _ I X J Rt H)
      as (P & C & Ga & O & G & Sq & Ad & At & ->).
    simpl. destruct I. constructor; rewrite ?O, ?G, ?Sq, ?Ad; try done.
    + by apply (core_inv_core c).
    + unfold gauge_ok. by rewrite O, Ga.
    + intros _. by rewrite J.
    + by rewrite P.
    + intros i. by rewrite P.
Qed.

(** The writer is through with the job it executed. *)
Lemma finish_inv c w g p rest w' : system_inv c w g → executed g = true →
  writer_jobs w = p :: rest → writer_ok w' → writer_jobs w' = rest →
  system_inv c w' (Progress false (lost g)).
Proof.
  intros I X J W J'.
  assert (pending_ids c w' (Progress false (lost g)) = pending_ids c w g) as P
    by (unfold pending_ids, unexecuted; simpl; by rewrite X, J, J').
  destruct I. rewrite J in *. constructor; rewrite ?P, ?J'; try done; by inversion sys_owners0;
    inversion sys_generations0.
Qed.

(** The invariant but for the gauges, which a pulse only refreshes at its end. *)
Definition loose_inv (c : coordinator) (w : S) (g : progress) : Prop := system_inv (update_depth 0 c) w g.

Lemma loose_same c c' w g : loose_inv c w g → core c' = core c → delivery c' = delivery c →
  generation c' = generation c → writer_sequence c' = writer_sequence c → loose_inv c' w g.
Proof.
  intros I C D G Sq. apply (system_inv_same (update_depth 0 c) _ w); try done; [|apply I].
  simpl. lia.
Qed.
Lemma loose_of_system c w g : system_inv c w g → loose_inv c w g.
Proof. intros I. apply (system_inv_same c _ w); try done. apply I. Qed.
Lemma system_of_loose now c w g : loose_inv c w g → system_inv (update_depth now c) w g.
Proof. intros I. apply (system_inv_same (update_depth 0 c) _ w); try done. apply I. Qed.

(** The operation leaves the table with its completion remembered and its fences freed. *)
Definition finished (memory : bool) (id : identity_t) (op : operation_state)
    (m : critical_completion) (c c' : coordinator) : Prop :=
  operations c' = delete id (operations c) ∧ core_inv c' ∧ delivery c' = delivery c
  ∧ generation c' = generation c ∧ writer_sequence c' = writer_sequence c
  ∧ (memory = true → ∃ size, completed_cache c' !! id = Some (CompletedState (o_command op) size m)).

Lemma finish_core memory id op m c c' :
  core_inv c → operations c !! id = Some op →
  (let r := remember_completed memory id (o_command op) m c in
   operations c' = delete id (operations c) ∧ initialized c' = initialized c
   ∧ fences c' = foldl (remove_fence id) (fences c) (keys (o_command op))
   ∧ delivery c' = delivery c ∧ generation c' = generation c
   ∧ writer_sequence c' = writer_sequence c ∧ completed_cache c' = completed_cache r
   ∧ completed_order c' = completed_order r
   ∧ completed_cache_bytes c' = completed_cache_bytes r) →
  finished memory id op m c c'.
Proof.
  intros I L (O & Up & F & D & G & Sq & C1 & C2 & C3).
  destruct (core_operations _ I _ _ L) as (_ & (bs & B & _) & _).
  destruct (remember_spec memory id (o_command op) m c bs I (ex_intro _ _ L) B)
    as (_ & _ & _ & _ & _ & _ & _ & CI & Other & Mem).
  pose proof (retained_nonneg _ I) as RN.
  split_and!; try done; [|intros X; exists (vsize bs); rewrite C1; auto].
  destruct I. constructor; rewrite ?O, ?Up, ?F, ?C1, ?C2, ?C3; try done.
  - by apply map_Forall_delete.
  - by apply fences_delete.
  - intros i [o Lo]. rewrite lookup_delete in Lo. case_decide; [done|].
    apply Other; [done|]. apply core_disjoint0. by exists o.
  - rewrite map_size_delete_Some by by exists op. revert core_count0.
    generalize (size (operations c)) CRITICAL_COORDINATOR_MAX_OPERATIONS. lia.
  - rewrite (map_sum_delete _ _ _ _ L) in core_bytes0. pose proof (RN _ _ L). simpl in *. lia.
  - intros X. rewrite core_down0 by done. apply delete_empty.
Qed.

(** The effect of publishing the oldest completion. *)
Definition published (memory : identity_t → bool) (m : critical_completion)
    (c c' : coordinator) : Prop :=
  let id := m_operation_id m in
  ∃ op, operations c !! id = Some op ∧ o_publication_pending op = false ∧
  if o_retain_until_publication op
  then operations c' = <[id := set_pending m op]> (operations c)
       ∧ fences c' = fences c ∧ completed_cache c' = completed_cache c
  else operations c' = delete id (operations c)
       ∧ (memory id = true →
          ∃ size, completed_cache c' !! id = Some (CompletedState (o_command op) size m)).

Lemma remember_fields memory id cmd m c :
  let r := remember_completed memory id cmd m c in
  operations r = operations c ∧ fences r = fences c ∧ delivery r = delivery c
  ∧ initialized r = initialized c ∧ generation r = generation c
  ∧ writer_sequence r = writer_sequence c.
Proof.
  unfold remember_completed. destruct (critical_command_encode cmd); [|done].
  destruct (_ <? _); [done|]. destruct (evict _ _ _ _) as [[??]?]. by destruct memory.
Qed.

Lemma remember_ext memory id cmd m c d :
  (completed_cache d, completed_order d, completed_cache_bytes d)
  = (completed_cache c, completed_order c, completed_cache_bytes c) →
  let r := remember_completed memory id cmd m c in
  let s := remember_completed memory id cmd m d in
  completed_cache s = completed_cache r ∧ completed_order s = completed_order r
  ∧ completed_cache_bytes s = completed_cache_bytes r.
Proof.
  intros H. injection H as H1 H2 H3. unfold remember_completed.
  destruct (critical_command_encode cmd); [|done].
  destruct (_ <? _); [done|]. rewrite H1, H2, H3.
  destruct (evict _ _ _ _) as [[??]?]. by destruct memory.
Qed.

Lemma pop_head c m rest : execution_results (delivery c) = m :: rest →
  admission_failures (delivery c) = [] →
  with_delivery (delivery_pop_front execution (delivery c)) c
  = with_delivery (Delivery rest []) c.
Proof. intros Q A. unfold delivery_pop_front. simpl. by rewrite Q, A. Qed.

Lemma publish_one_inv memory m rest c w b c' g :
  loose_inv c w g → execution_results (delivery c) = m :: rest →
  publish_one memory m (with_delivery (delivery_pop_front execution (delivery c)) c) = (b, c') →
  b = true ∧ loose_inv c' w g ∧ execution_results (delivery c') = rest ∧ published memory m c c'.
Proof.
  intros I Q H. rewrite (pop_head c m rest Q (sys_channel _ _ _ I)) in H.
  assert (I' := I). destruct I'. simpl in *. unfold publish_one, operation_key in H. simpl in H.
  unfold pending_ids in *. simpl in *. rewrite Q in *. csimpl in *.
  assert (m_attempt m = 1) as Att by by inversion sys_attempts0.
  destruct (proj1 (sys_pending0 (m_operation_id m))) as (op & L & Pn); [set_solver|].
  rewrite L, Pn in H.
  assert (core_inv c) as CI by by apply (core_inv_core (update_depth 0 c)).
  destruct (core_operations _ CI _ _ L) as (OkId & OkB & At & OkP). rewrite At, Att in H. simpl in H.
  set (jobs := (λ j, operation_id (j_command j)) <$> _) in *.
  rewrite <- Permutation_middle in sys_once0.
  assert (∀ i, i ∈ jobs ++ (m_operation_id <$> rest) ++ lost g ↔ i ≠ m_operation_id m ∧
    ∃ o, operations c !! i = Some o ∧ o_publication_pending o = false) as Rest.
  { intros i. rewrite <- sys_pending0, <- Permutation_middle, elem_of_cons.
    inversion sys_once0 as [|? ? Nin _]; subst. split; [|by intros [? [->|?]]].
    intros X. split; [by intros ->|by right]. }
  apply NoDup_cons in sys_once0 as [_ Once].
  set (c1 := if bool_decide _ then _ else _) in H.
  assert (core c1 = core c ∧ delivery c1 = Delivery rest [] ∧ generation c1 = generation c
    ∧ writer_sequence c1 = writer_sequence c) as (K1 & D1 & G1 & S1)
    by (unfold c1; clear; destruct (bool_decide (m_outcome m = a_terminal_failure)); split_and!; reflexivity).
  clearbody c1. assert (C1 := core_inv_core _ _ K1 CI).
  unfold core in K1. injection K1 as O1 F1 Cc1 Co1 Cb1 U1.
  destruct (o_retain_until_publication op) eqn:Ret; injection H as <- <-.
  - rewrite <- O1 in L. destruct (update_core c1 _ op (set_pending m op) C1 L) as [U T];
      [done|done|by split_and!|]. rewrite O1 in *.
    split_and!; [done| |by simpl; rewrite D1|exists op; rewrite Ret; simpl; by rewrite F1, Cc1].
    assert (∀ d, delivery d = delivery c1 → generation d = generation c1 →
      pending_ids d w g = jobs ++ (m_operation_id <$> rest) ++ lost g) as P
      by (intros d Dd Gd; unfold pending_ids; rewrite Dd, Gd, D1, G1; reflexivity).
    constructor; simpl; rewrite ?D1, ?G1, ?S1; try done.
    + apply (core_inv_core (with_operations (<[m_operation_id m:=set_pending m op]> (operations c)) c1)); [done|].
      exact U.
    + by rewrite P.
    + intros i. rewrite P, Rest by done. split.
      * intros [Ne (o & Lo & Po)]. exists o. by rewrite lookup_insert_ne.
      * intros (o & Lo & Po). apply lookup_insert_Some in Lo as [[<- <-]|[Ne Lo]]; [done|].
        split; [congruence|by exists o].
    + by inversion sys_attempts0.
  - rewrite <- O1 in L.
    assert (finished (memory (m_operation_id m)) (m_operation_id m) op m c1
      (with_operations (delete (m_operation_id m) (operations (count_up n_completed
        (remember_completed (memory (m_operation_id m)) (m_operation_id m) (o_command op) m
           (remove_fences (m_operation_id m) (o_command op) c1)))))
        (count_up n_completed (remember_completed (memory (m_operation_id m)) (m_operation_id m)
           (o_command op) m (remove_fences (m_operation_id m) (o_command op) c1))))) as F.
    { apply finish_core; [done|done|]. cbv zeta.
      destruct (remember_fields (memory (m_operation_id m)) (m_operation_id m) (o_command op) m
        (remove_fences (m_operation_id m) (o_command op) c1)) as (R1 & R2 & R3 & R4 & R5 & R6).
      destruct (remember_ext (memory (m_operation_id m)) (m_operation_id m) (o_command op) m c1
        (remove_fences (m_operation_id m) (o_command op) c1)) as (X1 & X2 & X3); [done|].
      simpl. rewrite R1, R2, R3, R4, R5, R6, X1, X2, X3. done. }
    destruct F as (FO & FC & FD & FG & FS & FM). revert FO FC FD FG FS FM.
    set (c2 := with_operations _ _). clearbody c2. intros FO FC FD FG FS FM. rewrite O1 in *.
    split_and!; [done| |by rewrite FD, D1|exists op; rewrite Ret; done].
    assert (∀ d, delivery d = delivery c2 → generation d = generation c2 →
      pending_ids d w g = jobs ++ (m_operation_id <$> rest) ++ lost g) as P
      by (intros d Dd Gd; unfold pending_ids; rewrite Dd, Gd, FD, FG, D1, G1; reflexivity).
    constructor; simpl; rewrite ?FO, ?FD, ?FG, ?FS, ?D1, ?G1, ?S1; try done.
    + by apply (core_inv_core c2).
    + by rewrite P.
    + intros i. rewrite P, Rest by done. split.
      * intros [Ne (o & Lo & Po)]. exists o. by rewrite lookup_delete_ne.
      * intros (o & Lo & Po). apply lookup_delete_Some in Lo as [Ne Lo].
        split; [congruence|by exists o].
    + by inversion sys_attempts0.
Qed.

(** A pulse publishes the oldest completions, up to its capacity; each was waiting for its
    operation. *)
Inductive publishes (memory : identity_t → bool)
  : list critical_completion → coordinator → coordinator → Prop :=
| publishes_nil c : publishes memory [] c c
| publishes_cons m out c c1 c2 :
    published memory m c c1 → publishes memory out c1 c2 → publishes memory (m :: out) c c2.

Lemma publish_loop_inv memory capacity queue c w out c' g :
  loose_inv c w g → execution_results (delivery c) = queue →
  publish_loop memory capacity queue c = (out, c') →
  loose_inv c' w g ∧ out = take capacity queue
  ∧ execution_results (delivery c') = drop capacity queue ∧ publishes memory out c c'.
Proof.
  revert capacity c out c'. induction queue as [|m rest IH]; intros capacity c out c' I Q H; simpl in H.
  { simplify_eq. rewrite take_nil, drop_nil. split_and!; try done. constructor. }
  destruct capacity as [|less]; [simplify_eq; split_and!; try done; constructor|].
  destruct (publish_one memory m _) as [b c1] eqn:P.
  apply (publish_one_inv memory m rest c w b c1 g) in P as (-> & I1 & Q1 & Pub); [|done|done].
  destruct (publish_loop memory less rest c1) as [o c2] eqn:L. simplify_eq.
  apply IH in L as (I2 & -> & Q2 & Pubs); [|done|done].
  split_and!; try done. by econstructor.
Qed.

Lemma pulse_inv now memory capacity c w out c' g :
  system_inv c w g → critical_command_coordinator_pulse now memory capacity c = (out, c') →
  system_inv c' w g ∧ out = take capacity (execution_results (delivery c))
  ∧ execution_results (delivery c') = drop capacity (execution_results (delivery c))
  ∧ ∃ c1, publishes memory out c c1 ∧ c' = update_depth now c1.
Proof.
  intros I H. unfold critical_command_coordinator_pulse in H.
  destruct (publish_loop _ _ _ _) as [o c1] eqn:L. simplify_eq.
  apply (publish_loop_inv memory capacity _ c w _ _ g) in L as (I1 & -> & Q & P);
    [|by apply loose_of_system|done].
  split_and!; try done; [by apply system_of_loose|by exists c1].
Qed.

Lemma ack_inv now memory id c w b c' g :
  system_inv c w g → critical_command_coordinator_acknowledge_publication now memory id c = (b, c') →
  system_inv c' w g ∧
  match operations c !! id with
  | Some op =>
      match o_completion op with
      | Some m => b = true ∧ operations c' = delete id (operations c)
          ∧ (memory id = true →
             ∃ size, completed_cache c' !! id = Some (CompletedState (o_command op) size m))
      | None => b = false ∧ c' = c
      end
  | None => b = bool_decide (is_Some (completed_cache c !! id)) ∧ c' = c
  end.
Proof.
  intros I H. unfold critical_command_coordinator_acknowledge_publication, operation_key in H.
  destruct (operations c !! id) as [op|] eqn:L; [|by simplify_eq].
  pose proof (sys_core _ _ _ I) as C. destruct (core_operations _ C _ _ L) as (_ & _ & _ & OkP).
  destruct (o_completion op) as [m|] eqn:M; simpl in OkP; rewrite OkP in H; [|by simplify_eq].
  injection H as <- <-.
  destruct (remember_fields (memory id) id (o_command op) m c) as (R1 & R2 & R3 & R4 & R5 & R6).
  set (c1 := remember_completed _ _ _ _ _) in *.
  assert (finished (memory id) id op m c (with_operations (delete id (operations
    (remove_fences id (o_command op) c1))) (remove_fences id (o_command op) c1))) as F.
  { apply finish_core; [done|done|]. simpl. rewrite R1, R2. done. }
  clearbody c1. destruct F as (FO & FC & FD & FG & FS & FM). revert FO FC FD FG FS FM.
  set (c2 := with_operations _ _). clearbody c2. intros FO FC FD FG FS FM.
  split; [|by split_and!].
  destruct I. constructor; unfold pending_ids in *; simpl; rewrite ?FO, ?FD, ?FG, ?FS; try done.
  - by apply (core_inv_core c2).
  - intros i. rewrite sys_pending0. split; intros (o & Lo & Po).
    + exists o. rewrite lookup_delete_ne; [done|]. intros ->. simplify_eq.
      by rewrite OkP in Po.
    + apply lookup_delete_Some in Lo as [_ Lo]. by exists o.
Qed.

(** ** Runs *)

(** The writer executes its oldest job in one locked region of the coordinator, whatever it
    answers and with or without memory for the completion, and is through with it in a later one of
    its own; anything may come between. *)
Inductive system_step
  : coordinator → S → progress → coordinator → S → progress → Prop :=
| step_submit env flag cmd r e c w g c' w' :
    writer_sequence c + 1 < 2 ^ 64 →
    submit_command sizeof_writer_job env flag cmd c w = (r, e, c', w') →
    system_step c w g c' w' g
| step_execute c w g o job rest started completed memory reply a c' :
    executed g = false → writer_jobs w = (o, job) :: rest →
    execute started completed memory reply job c = (a, c') →
    system_step c w g c' w (Progress (negb (connection_lost (SaveWorker.outcome a)))
                              (lost g ++ loses memory reply job c))
| step_finish c w g p rest w' :
    executed g = true → writer_jobs w = p :: rest → writer_ok w' → writer_jobs w' = rest →
    system_step c w g c w' (Progress false (lost g))
| step_writer c w g w' :
    writer_ok w' → writer_jobs w' = writer_jobs w → system_step c w g c w' g
| step_pulse now memory capacity c w g :
    system_step c w g (critical_command_coordinator_pulse now memory capacity c).2 w g
| step_acknowledge now memory id c w g :
    system_step c w g (critical_command_coordinator_acknowledge_publication now memory id c).2 w g
| step_init given c w g :
    let up := critical_command_coordinator_init given c in
    system_step c w g up.2 w (if up.1 then Progress (executed g) [] else g)
| step_shutdown c w g :
    system_step c w g (critical_command_coordinator_shutdown c) w (Progress (executed g) [])
| step_quiesce c w g : system_step c w g (critical_command_coordinator_quiesce c) w g
| step_resume c w g : system_step c w g (critical_command_coordinator_resume c) w g
| step_health now c w g :
    system_step c w g (critical_command_coordinator_health_copy now c).2 w g.

Inductive reachable : coordinator → S → progress → Prop :=
| reach_start w :
    writer_ok w → writer_jobs w = [] → reachable initial_coordinator w (Progress false [])
| reach_step c w g c' w' g' :
    reachable c w g → system_step c w g c' w' g' → reachable c' w' g'.

Lemma empty_core c : operations c = ∅ → fences c = ∅ → completed_cache c = ∅ →
  completed_order c = [] → completed_cache_bytes c = 0 → core_inv c.
Proof.
  intros O F C Od T. constructor; rewrite ?O, ?F, ?C, ?Od, ?T; try done.
  - constructor; [|intros k; by rewrite lookup_empty].
    intros k id. unfold fence_ids. rewrite lookup_empty. simpl. split; [set_solver|].
    intros (op & L & _). by rewrite lookup_empty in L.
  - constructor; try done; [|apply NoDup_nil_2|rewrite map_size_empty; apply Nat.le_0_l].
    intros id. rewrite lookup_empty. split; [by intros []|set_solver].
  - rewrite map_size_empty. apply Nat.le_0_l.
Qed.

Lemma cleared_inv up given c w g : system_inv c w g →
  system_inv (cleared up given c) w (Progress (executed g) []).
Proof.
  intros []. assert (pending_ids (cleared up given c) w (Progress (executed g) []) = []) as Nil.
  { unfold pending_ids. simpl. rewrite app_nil_r. rewrite filter_none; [done|].
    apply Forall_fmap. assert (Forall (λ p, j_generation p.2 <= generation c) (unexecuted w g)) as F.
    { unfold unexecuted. destruct (executed g); [|done].
      destruct (writer_jobs w); [done|]. by inversion sys_generations0. }
    eapply Forall_impl; [exact F|]. simpl. intros. lia. }
  constructor; rewrite ?Nil; try done.
  - by apply empty_core.
  - apply NoDup_nil_2.
  - intros id. split; [set_solver|]. intros (op & L & _). simpl in L. by rewrite lookup_empty in L.
  - eapply Forall_impl; [exact sys_generations0|]. simpl. intros. lia.
Qed.

Lemma reachable_inv c w g : reachable c w g → system_inv c w g.
Proof.
  induction 1 as [w W J|c w g c' w' g' R I St].
  { constructor; unfold pending_ids, unexecuted; simpl; rewrite ?J; try done;
      [by apply empty_core|apply NoDup_nil_2|].
    intros id. split; [set_solver|]. intros (op & L & _). simpl in L. by rewrite lookup_empty in L. }
  destruct St.
  - eapply submit_inv in H0 as [I' _]; [exact I'|done|done].
  - by eapply execute_inv.
  - by eapply finish_inv.
  - by apply (system_inv_same c _ w); first [done|apply I].
  - destruct (critical_command_coordinator_pulse now memory capacity c) as [out c1] eqn:P.
    by apply (pulse_inv now memory capacity c w _ _ g) in P as [? _].
  - destruct (critical_command_coordinator_acknowledge_publication now memory id c) as [b c1] eqn:P.
    by apply (ack_inv now memory id c w _ _ g) in P as [? _].
  - subst up. unfold critical_command_coordinator_init. destruct given; simpl; [|done].
    destruct (initialized c); [done|]. by apply cleared_inv.
  - by apply cleared_inv.
  - apply (system_inv_same c _ w); first [done|apply I|apply (sys_gauge _ _ _ I)].
  - unfold critical_command_coordinator_resume. destruct (initialized c); [|done].
    apply (system_inv_same c _ w); first [done|apply I|apply (sys_gauge _ _ _ I)].
  - apply (system_inv_same c _ w); first [done|apply I|apply (sys_gauge _ _ _ I)].
Qed.

(** ** Properties *)

(** In every reachable state an entity is fenced exactly while a live operation names it;
    at most 1024 operations and 64 MiB of commands are retained, at most 256 completed commands
    and 8 MiB of them are cached, each listed once in eviction order, and no identifier is both
    live and completed. *)
Theorem coordinator_tables c w g : reachable c w g →
  (∀ k, (critical_command_coordinator_is_fenced k false c).1 = true ↔
     ∃ id op, operations c !! id = Some op ∧ entity_key k ∈ entity_key <$> keys (o_command op))
  ∧ (size (operations c) <= CRITICAL_COORDINATOR_MAX_OPERATIONS)%nat
  ∧ retained_total (operations c) <= CRITICAL_COORDINATOR_MAX_BYTES
  ∧ d_retained_bytes (gauges c) = retained_total (operations c)
  ∧ cache_inv (completed_cache c) (completed_order c) (completed_cache_bytes c)
  ∧ (∀ id, is_Some (operations c !! id) → completed_cache c !! id = None).
Proof.
  intros R. apply reachable_inv in R as [C G]. destruct C.
  split_and!; try done. intros k. destruct core_fences0 as [X U].
  specialize (X (entity_key k)). specialize (U (entity_key k)).
  unfold critical_command_coordinator_is_fenced, fence_ids in *.
  destruct (fences c !! entity_key k) as [[|i l]|]; simpl in *; [done| |].
  - split; [|done]. intros _. destruct (proj1 (X i)) as (op & H); [set_solver|]. by exists i, op.
  - split; [done|]. intros (id & op & H). assert (id ∈ @nil identity_t); [|set_solver].
    apply X. by exists op.
Qed.

(** C3: Every operation is answered once, but for an allocation that fails.  In every reachable
    state an operation not yet published has exactly one of these, and nothing else of this
    generation has any: a job the writer has still to execute, a completion in the queue, or a
    final answer that was lost because its completion could not be allocated.  No completion is
    dropped for capacity: when the writer executes its next job of this generation, comes to a
    final answer and has memory for the completion, the completion is queued behind the others
    and nothing is lost; without memory the operation is lost and the queue unchanged. *)
Theorem coordinator_answers_once c w g : reachable c w g →
  NoDup (pending_ids c w g)
  ∧ (∀ id, id ∈ pending_ids c w g
       ↔ ∃ op, operations c !! id = Some op ∧ o_publication_pending op = false)
  ∧ (∀ p rest started completed memory reply,
       unexecuted w g = p :: rest → j_generation p.2 = generation c →
       retried (a_outcome (apply_outcome reply)) = false →
       let r := apply_outcome reply in
       let (a, c') := execute started completed memory reply p.2 c in
       a = writer_answer SaveWorker.applied 0 ∧ operations c' = operations c
       ∧ if memory
         then execution_results (delivery c')
              = execution_results (delivery c) ++ [job_completion p.2 r started completed]
              ∧ loses memory reply p.2 c = []
         else delivery c' = delivery c
              ∧ loses memory reply p.2 c = [operation_id (j_command p.2)]).
Proof.
  intros R. apply reachable_inv in R as I. split_and!; [apply I|apply I|].
  intros [o job] rest started completed memory reply J G Rt r. simpl in *.
  assert (has_capacity (delivery c) = true) as Room
    by (apply (delivery_room c w g I); by exists (o, job), rest).
  unfold execute, loses. rewrite Rt, (current_up _ _ _ _ _ _ I J G), (proj2 (Z.eqb_eq _ _) G).
  simpl. unfold try_enqueue. rewrite Room. by destruct memory.
Qed.

(** A submission is accepted at most once per identifier: an identifier the tables know is
    attached to when the command is the same and refused as a conflict when it is not, and nothing
    is queued; an accepted one was unknown and puts exactly its own command at the writer; any
    other result leaves the operations and the writer's jobs as they were. *)
Theorem coordinator_submission env flag cmd c w r e c' w' g :
  reachable c w g → writer_sequence c + 1 < 2 ^ 64 →
  submit_command sizeof_writer_job env flag cmd c w = (r, e, c', w') →
  submission_effect env flag cmd c w r c' w'.
Proof. intros R Sq H. apply reachable_inv in R. by apply (submit_inv _ _ _ _ _ _ _ _ _ g R Sq) in H as [_ ?]. Qed.

(** A pulse publishes the oldest completions in order, up to its capacity, and keeps the
    rest; each ends its operation and is remembered, or, for an operation retained until its
    publication is acknowledged, keeps the operation and its fences. *)
Theorem coordinator_pulse now memory capacity c w out c' g :
  reachable c w g → critical_command_coordinator_pulse now memory capacity c = (out, c') →
  out = take capacity (execution_results (delivery c))
  ∧ execution_results (delivery c') = drop capacity (execution_results (delivery c))
  ∧ ∃ c1, publishes memory out c c1 ∧ c' = update_depth now c1.
Proof. intros R H. apply reachable_inv in R. by apply (pulse_inv _ _ _ _ _ _ _ g R) in H as [_ ?]. Qed.

(** Acknowledging a publication succeeds exactly for an operation whose completion was
    published, or one already completed; it ends the operation, frees its fences, and the
    completion can then be read back from the cache. *)
Theorem coordinator_acknowledge now memory id c w b c' g :
  reachable c w g →
  critical_command_coordinator_acknowledge_publication now memory id c = (b, c') →
  match operations c !! id with
  | Some op =>
      match o_completion op with
      | Some m =>
          b = true ∧ operations c' = delete id (operations c)
          ∧ (memory id = true → critical_command_coordinator_get_completed id c' = Some m)
      | None => b = false ∧ c' = c
      end
  | None => b = bool_decide (is_Some (completed_cache c !! id)) ∧ c' = c
  end.
Proof.
  intros R H. apply reachable_inv in R. apply (ack_inv now memory id c w _ _ g) in H as [_ H]; [|done].
  destruct (operations c !! id) as [op|]; [|done]. destruct (o_completion op) as [m|]; [|done].
  destruct H as (-> & O & Mem). split_and!; [done|done|]. intros X.
  unfold critical_command_coordinator_get_completed, operation_key.
  rewrite O, lookup_delete_eq. destruct (Mem X) as [size ->]. done.
Qed.

(** What the repository says about the stage of a failure is not carried: whatever the callback
    returns, the completion of a job has the failure stage [none]. *)
Lemma execute_loses_failure_stage started completed memory reply job c m :
  m ∈ execution_results (delivery (execute started completed memory reply job c).2) →
  m ∈ execution_results (delivery c) ∨ m_failure_stage m = critical_failure_stage.none.
Proof.
  unfold execute. destruct (retried _); simpl.
  - destruct (_ && _); [|by left]. case_bool_decide; by left.
  - destruct (_ && _); [|by left]. unfold try_enqueue. destruct (_ || _); simpl; [by left|].
    rewrite elem_of_app, list_elem_of_singleton. intros [?| ->]; [by left|by right].
Qed.

(** If the completion cannot be allocated the job still reports success to the writer, and no
    completion is queued. *)
Lemma execute_drops_unallocated started completed reply job c :
  retried (a_outcome (apply_outcome reply)) = false →
  (execute started completed false reply job c).1 = writer_answer applied 0
  ∧ delivery (execute started completed false reply job c).2 = delivery c.
Proof.
  unfold execute. intros ->. simpl. split; [done|]. destruct (_ && _); [|done].
  unfold try_enqueue. by rewrite orb_true_r.
Qed.

End System.

(** ** The worker is a persistence writer *)

Section WriterInstance.

Context {B J : Type} (no_body : B).

(** The coordinator's jobs among those of the worker. *)
Definition critical_job (j : @queued_job B J) : option (Z * J) :=
  match kind j, write j with critical, Some f => Some (owner j, f) | _, _ => None end.

Definition worker_jobs (w : @worker B J) : list (Z * J) :=
  omap critical_job (option_list (inflight (pending w)) ++ (queue (pending w)).*2).

(** The queue of a worker in use: its invariant, and every job of kind [critical] has its
    callback. *)
Definition worker_ok (w : @worker B J) : Prop :=
  jobs_inv (pending w)
  ∧ Forall (λ j, kind j = critical → is_Some (write j))
      (option_list (inflight (pending w)) ++ (queue (pending w)).*2).

(** The clock and the allocator during a submission, as the worker reads them. *)
Context (now : Z) (memory : bool).

Definition worker_submit (o size : Z) (f : J) (w : @worker B J)
  : player_save_submit_result * option errno * @worker B J :=
  enqueue now memory (Job critical o (no_snapshot no_body) (Some f) size 0) w.

(** It is [persistence_writer_submit], with the [errno] it leaves. *)
Lemma worker_submit_spec o size f w : o ≠ 0 →
  persistence_writer_submit no_body now memory critical o size (Some f) w
  = ((worker_submit o size f w).1.1, (worker_submit o size f w).2).
Proof.
  intros N. unfold persistence_writer_submit, worker_submit, nz.
  rewrite (proj2 (Z.eqb_neq _ _) N). simpl. by destruct (enqueue _ _ _ _) as [[??]?].
Qed.

Lemma worker_submit_ok o size f w r e w' :
  worker_ok w → u64 o → o ≠ 0 → u64 size → o ∉ (worker_jobs w).*1 →
  worker_submit o size f w = (r, e, w') →
  worker_ok w'
  ∧ (r = SaveWorker.accepted ∧ worker_jobs w' = worker_jobs w ++ [(o, f)]
     ∨ r = SaveWorker.unavailable ∧ worker_jobs w' = worker_jobs w).
Proof.
  intros [I Wr] Ho No Hs Fresh H. unfold worker_submit in H.
  set (job := Job critical o (no_snapshot no_body) (Some f) size 0) in *.
  assert (spec_replaceable job (queue (pending w)).*2 = None) as R.
  { destruct (spec_replaceable job _) as [old|] eqn:R; [|done].
    apply spec_replaceable_Some in R as (front & Q & K). exfalso. apply Fresh.
    unfold replaces in K. bool_prop. unfold job_key in H0. simpl in H0. injection H0 as K1 K2.
    unfold worker_jobs. rewrite Q in *. apply Forall_app in Wr as [_ Wr].
    apply Forall_app in Wr as [_ Wr]. rewrite Forall_singleton in Wr. destruct (Wr K1) as [g Hg].
    apply list_elem_of_fmap. exists (o, g). split; [done|]. apply list_elem_of_omap.
    exists old. split; [set_solver|]. unfold critical_job. by rewrite K1, Hg, K2. }
  destruct (enqueue_cases now memory job w r e w' I Hs H) as [_ C]. destruct e as [e|].
  { destruct C as [-> ->]. split; [done|by right]. }
  destruct C as (F & h & C). rewrite R in C. destruct C as [-> ->].
  split; [split|left; split; [done|]]; simpl.
  - apply jobs_append_inv; [done|apply Hs|done|done].
  - rewrite fmap_app, app_assoc. apply Forall_app. split; [done|]. apply Forall_singleton. done.
  - unfold worker_jobs. simpl. rewrite fmap_app, app_assoc, omap_app. done.
Qed.

#[export] Instance worker_persistence_writer : PersistenceWriter (@worker B J) J := {|
  writer_ok := worker_ok;
  writer_jobs := worker_jobs;
  writer_submit := worker_submit;
  writer_submit_law := worker_submit_ok;
|}.

Definition has_callback (j : @queued_job B J) : Prop := kind j = critical → is_Some (write j).

Lemma accepted_callback c st :
  Forall has_callback (h_accepted st.2) → Forall has_callback (h_accepted (run_call no_body c st).2).
Proof.
  destruct st as [w h]. simpl. intros F.
  assert (∀ r j, has_callback j → Forall has_callback (h_accepted (note_accepted r j h))) as A.
  { intros r j Hj. unfold note_accepted. destruct (is_accepted r); [|done]. apply Forall_app.
    by repeat constructor. }
  destruct c as [n m s|n m k ow sz f'|n|ready env| |n| |given ok|a b| |detached|capacity]; cbn [run_call].
  - destruct (player_save_worker_submit n m s w) as [r w']. by apply A.
  - destruct (persistence_writer_submit no_body n m k ow sz f' w) as [r w'] eqn:Q.
    unfold persistence_writer_submit in Q. destruct (_ || _) eqn:G.
    + by injection Q as <- <-.
    + apply A. intros _. apply orb_false_elim in G as [_ G].
      destruct f'; [by eexists|]. by rewrite bool_decide_eq_false_2 in G by by intros [].
  - destruct (writer_take n w); [|done]. by destruct (stop_requested w).
  - done.
  - done.
  - destruct (writer_finish n w) as [w'|]; [|done]. simpl.
    destruct (inflight (pending w)); [|done]. destruct (inflight (pending w')); [done|].
    by destruct (pc w).
  - done.
  - destruct (player_save_worker_init given ok w) as [st w']. simpl. by destruct (_ && _).
  - done.
  - done.
  - done.
  - by destruct (player_save_worker_pulse capacity w).
Qed.

Lemma run_calls_ok cs : Forall worker_call_typed cs → worker_ok (run_calls no_body cs).1.
Proof.
  intros T. pose proof (run_calls_inv no_body cs T) as I.
  assert (Forall has_callback (h_accepted (run_calls no_body cs).2)) as F.
  { unfold run_calls. generalize (initial_worker (B := B) (W := J), History (B := B) (W := J) [] [] [] false)
      (Forall_nil_2 has_callback : Forall has_callback (h_accepted
        (initial_worker (B := B) (W := J), History (B := B) (W := J) [] [] [] false).2)).
    clear. induction cs as [|c cs IH]; intros st F; [done|]. cbn [foldl]. apply IH.
    by apply accepted_callback. }
  destruct I as [Jb K _ _ _ _ _]. split; [done|].
  apply kept_order, sublist_subseteq in K. rewrite Forall_forall in F. apply Forall_forall.
  intros j Hj. apply F, K. unfold timeline. set_solver.
Qed.

(** The worker keeps what the coordinator asks of its writer: in every reachable state of the
    worker a submission under an owner without a queued job is appended behind every other job,
    or refused with nothing changed, and it is never merged with another. *)
Theorem worker_is_writer cs o size f r e w' :
  let w := (run_calls no_body cs).1 in
  Forall worker_call_typed cs → u64 o → o ≠ 0 → u64 size → o ∉ (worker_jobs w).*1 →
  writer_submit o size f w = (r, e, w') →
  writer_ok w'
  ∧ (r = SaveWorker.accepted ∧ writer_jobs w' = writer_jobs w ++ [(o, f)]
     ∨ r = SaveWorker.unavailable ∧ writer_jobs w' = writer_jobs w).
Proof.
  intros w T Ho No Hs Fr H. eapply worker_submit_ok; try done. by apply run_calls_ok.
Qed.

End WriterInstance.

(** ** Witnesses *)

Section Sample.

#[local] Instance sample_writer : PersistenceWriter (@worker unit writer_job) writer_job :=
  worker_persistence_writer tt 50 true.

Definition sample_sizeof : Z := 512.
Definition sample_env : submission := Submission 900 50 true true.
Definition sample_worker : @worker unit writer_job := (run_calls tt [CInit true true]).1.
Definition sample_start : coordinator :=
  (critical_command_coordinator_init true initial_coordinator).2.

(** The sample command, submitted for publication. *)
Definition sample_submitted :=
  submit_command sample_sizeof sample_env true sample_command sample_start sample_worker.
Definition submitted_coordinator : coordinator := sample_submitted.1.2.
Definition submitted_worker : @worker unit writer_job := sample_submitted.2.
Definition sample_job : writer_job :=
  WriterJob (default sample_command (critical_command_normalize sample_command)) 50 1.

Definition sample_reply : callback critical_apply_result :=
  Returned (CriticalApply a_applied 7 0 0 0 [] "").
Definition executed_coordinator : coordinator :=
  (execute 51 52 true sample_reply sample_job submitted_coordinator).2.
(** The same execution without memory for the completion. *)
Definition lossy_coordinator : coordinator :=
  (execute 51 52 false sample_reply sample_job submitted_coordinator).2.
Definition published_coordinator : coordinator :=
  (critical_command_coordinator_pulse 53 (λ _, true) 4 executed_coordinator).2.

Lemma start_reachable : reachable sample_sizeof sample_start sample_worker (Progress false []).
Proof.
  eapply reach_step; [apply (reach_start _ sample_worker)|apply (step_init _ true)].
  - apply (run_calls_ok tt [CInit true true]). by repeat constructor.
  - vm_compute. reflexivity.
Qed.

Lemma submitted_reachable : reachable sample_sizeof submitted_coordinator submitted_worker (Progress false []).
Proof.
  eapply reach_step; [apply start_reachable|].
  apply (step_submit _ sample_env true sample_command sample_submitted.1.1.1 sample_submitted.1.1.2).
  - vm_compute. reflexivity.
  - unfold submitted_coordinator, submitted_worker, sample_submitted.
    by destruct (submit_command _ _ _ _ _ _) as [[[??]?]?].
Qed.

Lemma executed_reachable :
  reachable sample_sizeof executed_coordinator submitted_worker (Progress true []).
Proof.
  eapply reach_step; [apply submitted_reachable|].
  apply (step_execute _ _ _ (Progress false []) 1 sample_job [] 51 52 true sample_reply
    (writer_answer SaveWorker.applied 0)); [reflexivity|vm_compute; reflexivity|].
  unfold executed_coordinator. by destruct (execute _ _ _ _ _ _) as [a c] eqn:Q; injection Q as <- _.
Qed.

Lemma lossy_reachable :
  reachable sample_sizeof lossy_coordinator submitted_worker
    (Progress true [operation_id (j_command sample_job)]).
Proof.
  assert (Progress true [operation_id (j_command sample_job)]
    = Progress (negb (connection_lost (SaveWorker.outcome (writer_answer SaveWorker.applied 0))))
        (lost (Progress false []) ++ loses false sample_reply sample_job submitted_coordinator)) as ->
    by (vm_compute; reflexivity).
  eapply reach_step; [apply submitted_reachable|].
  apply (step_execute _ _ _ (Progress false []) 1 sample_job [] 51 52 false sample_reply
    (writer_answer SaveWorker.applied 0)); [reflexivity|vm_compute; reflexivity|].
  unfold lossy_coordinator. by destruct (execute _ _ _ _ _ _) as [a c] eqn:Q; injection Q as <- _.
Qed.

Lemma published_reachable :
  reachable sample_sizeof published_coordinator submitted_worker (Progress true []).
Proof. eapply reach_step; [apply executed_reachable|apply step_pulse]. Qed.

Lemma coordinator_tables_witness :
  size (operations submitted_coordinator) = 1%nat
  ∧ retained_total (operations submitted_coordinator) <= CRITICAL_COORDINATOR_MAX_BYTES.
Proof.
  destruct (coordinator_tables sample_sizeof ltac:(unfold sample_sizeof; lia) _ _ _ submitted_reachable)
    as (_ & _ & T & _).
  split; [vm_compute; reflexivity|exact T].
Defined.

(** With memory the operation waits for its queued completion, without it for nothing. *)
Lemma coordinator_answers_once_witness :
  (NoDup (pending_ids executed_coordinator submitted_worker (Progress true []))
   ∧ length (execution_results (delivery executed_coordinator)) = 1%nat)
  ∧ (∃ op, operations lossy_coordinator !! operation_id (j_command sample_job) = Some op
       ∧ o_publication_pending op = false)
  ∧ execution_results (delivery lossy_coordinator) = [].
Proof.
  destruct (coordinator_answers_once sample_sizeof ltac:(unfold sample_sizeof; lia) _ _ _
    executed_reachable) as (N & _).
  destruct (coordinator_answers_once sample_sizeof ltac:(unfold sample_sizeof; lia) _ _ _
    lossy_reachable) as (_ & P & _).
  split_and!; [exact N|vm_compute; reflexivity| |vm_compute; reflexivity].
  apply P. unfold pending_ids. rewrite !elem_of_app. right. right. apply list_elem_of_here.
Defined.

(** Submitting the command again attaches to the operation. *)
Lemma coordinator_submission_witness :
  let again := submit_command sample_sizeof sample_env true sample_command
                 submitted_coordinator submitted_worker in
  again.1.1.1 = attached
  ∧ submission_effect sample_env true sample_command submitted_coordinator submitted_worker
      attached again.1.2 again.2.
Proof.
  cbv zeta. split; [vm_compute; reflexivity|].
  apply (coordinator_submission sample_sizeof ltac:(unfold sample_sizeof; lia) sample_env true
    sample_command _ _ attached None _ _ _ submitted_reachable).
  - vm_compute. reflexivity.
  - assert ((submit_command sample_sizeof sample_env true sample_command
      submitted_coordinator submitted_worker).1.1 = (attached, None)) as Q by (vm_compute; reflexivity).
    destruct (submit_command _ _ _ _ _ _) as [[[??]?]?]. simpl in Q. by injection Q as -> ->.
Defined.

Lemma coordinator_pulse_witness :
  let p := critical_command_coordinator_pulse 53 (λ _, true) 4 executed_coordinator in
  p.1 = take 4 (execution_results (delivery executed_coordinator)) ∧ length p.1 = 1%nat.
Proof.
  cbv zeta. split; [|vm_compute; reflexivity].
  apply (coordinator_pulse sample_sizeof ltac:(unfold sample_sizeof; lia) 53 (λ _, true) 4 _ _ _ _ _
    executed_reachable (surjective_pairing _)).
Defined.

Lemma coordinator_acknowledge_witness :
  let a := critical_command_coordinator_acknowledge_publication 54 (λ _, true)
             (operation_id sample_command) published_coordinator in
  a.1 = true ∧ operations a.2 = delete (operation_id sample_command) (operations published_coordinator).
Proof.
  cbv zeta.
  pose proof (coordinator_acknowledge sample_sizeof ltac:(unfold sample_sizeof; lia) 54 (λ _, true)
    (operation_id sample_command) _ _ _ _ _ published_reachable (surjective_pairing _)) as A.
  assert (is_Some (operations published_coordinator !! operation_id sample_command ≫= o_completion)) as K
    by (vm_compute; by eexists).
  destruct (operations published_coordinator !! operation_id sample_command) as [op|];
    [|by destruct K]. simpl in K. destruct (o_completion op); [|by destruct K].
  destruct A as (A1 & A2 & _). by split.
Defined.

Lemma worker_is_writer_witness :
  ∃ w' : @worker unit writer_job, worker_jobs w' = [(1, sample_job)] ∧ worker_ok w'.
Proof.
  exists (worker_submit tt 50 true 1 515 sample_job sample_worker).2.
  split; [vm_compute; reflexivity|].
  apply (worker_is_writer tt 50 true [CInit true true] 1 515 sample_job
    (worker_submit tt 50 true 1 515 sample_job sample_worker).1.1
    (worker_submit tt 50 true 1 515 sample_job sample_worker).1.2).
  - by repeat constructor.
  - unfold fits. lia.
  - lia.
  - unfold fits. lia.
  - vm_compute. set_solver.
  - unfold sample_worker. simpl. by destruct (worker_submit _ _ _ _ _ _ _) as [[??]?].
Defined.

End Sample.
