(* ===== verification/Files.v ===== *)
(** * Files and system calls

    What the two journals use of POSIX: regular files and directories with their owner,
    mode and links, the calls that open, create, truncate, rename and remove them, and
    the loops over [write] and [read] that survive interrupted and short transfers.

    The files are a finite map from paths to nodes.  Whether a call of the system
    succeeds, beyond what the files decide, is an argument: a [bool], an error, or for
    the transfer loops the list of replies of the successive calls, after which every
    further call fails; so each list is one finite behaviour of the device.  A file
    holds what was written to it and not cut off again; what a power failure would
    leave of it is not modelled. *)

From S2P Require Import Prelude.
From coqutil Require Export Datatypes.RecordSetters.
Export OCamlLikeNotations.

Arguments constant _ _ _ /.

(** The identity of the process. *)
Class Process := { geteuid : Z; umask : Z }.

Inductive file_type := regular_file | directory | symbolic_link.
#[export] Instance file_type_eq_dec : EqDecision file_type.
Proof. solve_decision. Defined.

Record node := Node {
  node_type : file_type;
  node_owner : Z;
  node_links : Z;
  node_mode : Z;
  node_data : list byte;
}.
Abbreviation disk := (gmap string node).

(** The error numbers the sources tell apart. *)
Inductive open_errno := ENOENT | EPERM | EOTHER.
#[export] Instance open_errno_eq_dec : EqDecision open_errno.
Proof. solve_decision. Defined.

(** A failure that the files do not explain: never [ENOENT]. *)
Inductive open_failure := no_permission | other_failure.
Definition failure_errno (f : open_failure) : open_errno :=
  match f with no_permission => EPERM | other_failure => EOTHER end.

(** One reply of [read] or [write]: [EINTR], another error, or a count. *)
Inductive io_reply := io_interrupted | io_failed | io_count (n : nat).

Definition data_at (d : disk) (path : string) : list byte :=
  from_option node_data [] (d !! path).
Definition set_data (f : list byte → list byte) (path : string) (d : disk) : disk :=
  alter (λ nd, {nd with node_data ::= f}) path d.
Definition append_data (bs : list byte) (path : string) (d : disk) : disk :=
  set_data (λ data, data ++ bs) path d.

(** [ftruncate] cuts, or extends with zeros. *)
Definition truncated (size : nat) (data : list byte) : list byte :=
  take size data ++ repeat Byte.x00 (size - length data).

Definition rename (from to : string) (d : disk) : disk :=
  match d !! from with Some nd => <[to := nd]> (delete from d) | None => d end.

Section Calls.
Context `{Process}.

Definition created (mode : Z) : node :=
  Node regular_file geteuid 1 (Z.land mode (Z.lnot umask)) [].

(** [open] with [O_NOFOLLOW], of a file read or written: a directory or a link does not
    open.  [creat] is the mode of [O_CREAT]; [None]: the flag is absent.  A success is
    [None], as [errno] is then not read. *)
Definition open_file (failure : option open_failure) (creat : option Z) (excl : bool)
    (path : string) (d : disk) : option open_errno * disk :=
  match failure with
  | Some f => (Some (failure_errno f), d)
  | None =>
      match d !! path, creat with
      | None, None => (Some ENOENT, d)
      | None, Some mode => (None, <[path := created mode]> d)
      | Some nd, _ =>
          if excl || negb (bool_decide (node_type nd = regular_file))
          then (Some EOTHER, d) else (None, d)
      end
  end.
End Calls.

(** [write_all]: whether everything was written, what was, and the replies left. *)
Fixpoint write_all (replies : list io_reply) (data : list byte)
  : bool * list byte * list io_reply :=
  match data with
  | [] => (true, [], replies)
  | _ =>
      match replies with
      | io_interrupted :: replies => write_all replies data
      | io_count (S n) :: replies =>
          let count := Nat.min (S n) (length data) in
          let '(ok, written, replies) := write_all replies (drop count data) in
          (ok, take count data ++ written, replies)
      | _ :: replies => (false, [], replies)
      | [] => (false, [], [])
      end
  end.

(** The loop of [read]s into a buffer of [size] bytes: the offset it ends at. *)
Fixpoint read_loop (replies : list io_reply) (size offset : nat) : nat :=
  if (offset <? size)%nat then
    match replies with
    | io_interrupted :: replies => read_loop replies size offset
    | io_count (S n) :: replies =>
        read_loop replies size (offset + Nat.min (S n) (size - offset))
    | _ => offset
    end
  else offset.

(** ** Lemmas *)

Lemma data_at_append bs path d :
  is_Some (d !! path) → data_at (append_data bs path d) path = data_at d path ++ bs.
Proof.
  intros [nd E]. unfold data_at, append_data, set_data. by rewrite lookup_alter_eq, E.
Qed.

Lemma data_at_set f path d :
  is_Some (d !! path) → data_at (set_data f path d) path = f (data_at d path).
Proof. intros [nd E]. unfold data_at, set_data. by rewrite lookup_alter_eq, E. Qed.

Lemma lookup_set_ne f path path' d : path ≠ path' → set_data f path d !! path' = d !! path'.
Proof. intros N. by apply lookup_alter_ne. Qed.

Lemma data_at_set_ne f path path' d :
  path ≠ path' → data_at (set_data f path d) path' = data_at d path'.
Proof. intros N. unfold data_at. by rewrite lookup_set_ne. Qed.

Lemma set_data_present f path path' d :
  is_Some (d !! path') → is_Some (set_data f path d !! path').
Proof.
  intros [nd E]. unfold set_data. rewrite lookup_alter. case_decide; subst; rewrite E; by eexists.
Qed.

Lemma truncated_prefix data more : truncated (length data) (data ++ more) = data.
Proof.
  unfold truncated. rewrite take_app_length, length_app.
  replace (length data - (length data + length more))%nat with O by lia. apply app_nil_r.
Qed.

(** Whatever the replies, what was written is a beginning of the data: all of it on
    success, a proper one on failure. *)
Lemma write_all_prefix replies data ok written rest :
  write_all replies data = (ok, written, rest) →
  written `prefix_of` data ∧ (if ok then written = data else (length written < length data)%nat).
Proof.
  revert data ok written rest. induction replies as [|reply replies IH]; intros data ok written rest.
  - destruct data; intros [= <- <- <-]; (split; [apply prefix_nil || done|cbn; done || lia]).
  - destruct data as [|b data]; [intros [= <- <- <-]; done|].
    destruct reply as [| |[|n]]; cbn [write_all];
      [apply IH|intros [= <- <- <-]; split; [apply prefix_nil|cbn; lia]..|].
    set (count := Nat.min (S n) (length (b :: data))).
    assert (count <= length (b :: data))%nat as L by lia.
    destruct (write_all replies (drop count (b :: data))) as [[o w] r] eqn:E.
    intros [= <- <- <-]. destruct (IH _ _ _ _ E) as [[tail P] Q].
    assert (take count (b :: data) ++ drop count (b :: data) = b :: data) as T by apply take_drop.
    split.
    + change (take count (b :: data) ++ w `prefix_of` b :: data).
      exists tail. rewrite <- app_assoc, <- P. by symmetry.
    + change (if o then take count (b :: data) ++ w = b :: data
              else (length (take count (b :: data) ++ w) < length (b :: data))%nat).
      destruct o; [by rewrite Q|]. rewrite length_app, length_take.
      rewrite length_drop in Q. lia.
Qed.

Lemma write_all_ok replies data written rest :
  write_all replies data = (true, written, rest) → written = data.
Proof. intros E. by destruct (write_all_prefix _ _ _ _ _ E). Qed.

(** One call that takes everything. *)
Lemma write_all_once data n replies :
  (length data <= S n)%nat → data ≠ [] →
  write_all (io_count (S n) :: replies) data = (true, data, replies).
Proof.
  intros L N. destruct data as [|b data]; [done|]. cbn [write_all].
  replace (Nat.min (S n) (length (b :: data))) with (length (b :: data)) by (cbn in *; lia).
  rewrite drop_all, firstn_all. destruct replies; cbn; by rewrite app_nil_r.
Qed.

Lemma read_loop_bound replies size offset :
  (offset <= size)%nat → (read_loop replies size offset <= size)%nat.
Proof.
  revert offset. induction replies as [|reply replies IH]; intros offset L; cbn [read_loop].
  - by destruct (offset <? size)%nat.
  - destruct (Nat.ltb_spec offset size); [|lia]. destruct reply as [| |[|n]]; auto with lia.
Qed.

(** The contents of every file, whatever the modes. *)
Definition same_data (d d' : disk) : Prop := ∀ p, data_at d' p = data_at d p.

#[export] Instance same_data_po : PreOrder same_data.
Proof. split; [by intros d p|]. intros a b c H1 H2 p. by rewrite H2. Qed.

Lemma data_at_absent d p : d !! p = None → data_at d p = [].
Proof. intros E. unfold data_at. by rewrite E. Qed.

Lemma data_at_rename from to d p :
  is_Some (d !! from) →
  data_at (rename from to d) p
  = if decide (p = to) then data_at d from else if decide (p = from) then [] else data_at d p.
Proof.
  intros [nd E]. unfold rename, data_at. rewrite E, lookup_insert. case_decide; subst.
  - by rewrite decide_True.
  - rewrite decide_False by done. rewrite lookup_delete.
    repeat case_decide; subst; congruence || done.
Qed.

Lemma data_at_delete from d p :
  data_at (delete from d) p = if decide (p = from) then [] else data_at d p.
Proof. unfold data_at. rewrite lookup_delete. repeat case_decide; subst; congruence || done. Qed.

(** Paths in one directory. *)
Lemma append_string_inj a b c : (a +:+ b)%string = (a +:+ c)%string → b = c.
Proof. induction a as [|x a IH]; cbn; [done|]. intros [= E]. auto. Qed.

Section CallLemmas.
Context `{Process}.

Lemma open_file_data failure creat excl path d err d' :
  open_file failure creat excl path d = (err, d') →
  same_data d d' ∧ (err = None → is_Some (d' !! path) ∧ (excl = true → d !! path = None)).
Proof.
  unfold open_file. intros E. destruct failure as [f|]; [by injection E as <- <-|].
  destruct (d !! path) as [nd|] eqn:P.
  - destruct (excl || _) eqn:X; injection E as <- <-; (split; [done|]); [done|].
    bool_prop. intros _. split; [eauto|]. by intros ->.
  - destruct creat; injection E as <- <-; [|done]. split.
    + intros p. unfold data_at. rewrite lookup_insert. case_decide; subst; [|done]. by rewrite P.
    + intros _. rewrite lookup_insert_eq. eauto.
Qed.
End CallLemmas.
