(* ===== verification/SaveJournal.v ===== *)
(** * The player save journal

    Models [player/player_save_journal.c] and [.h]: the file every captured save is
    appended to before the writer may take it, the scan that recovers the frames of that
    file and sets aside what it cannot read, the compaction that drops what is durable,
    and the replay at startup.

    The state is the variables behind [journal_mutex] and the files.  Each operation
    takes the replies of the system calls it makes and the readings of the clock.  An
    allocation that fails is a reply as well: the code answers it with results of its
    own.  The bytes of the identity [replay] compares are the four numbers it prints,
    and [std::sort] is a merge sort, which may differ only in the order of frames equal
    in character, revision and record id. *)

From S2P Require Import Prelude Buffer Files RevisionState Snapshot SaveWorker Wire PlayerCodec.

(** ** Constants and data *)

Definition PLAYER_SAVE_JOURNAL_MAX_BYTES : Z := 256 * 1024 * 1024.
Definition PLAYER_SAVE_JOURNAL_MAX_RECORDS : Z := 4096.
Definition PLAYER_SAVE_JOURNAL_MAX_AGE_MSEC : Z := 7 * 24 * 60 * 60 * 1000.

Definition JOURNAL_MAGIC : list byte :=
  [Byte.x44; Byte.x50; Byte.x53; Byte.x4a; Byte.x4e; Byte.x4c; Byte.x31; Byte.x00].
Definition JOURNAL_FORMAT_VERSION : Z := 1.
Definition JOURNAL_HEADER_SIZE : nat := 72.
Definition JOURNAL_CHECKSUM_OFFSET : nat := 68.
Definition JOURNAL_MAX_RECORD_SIZE : Z :=
  Z.of_nat JOURNAL_HEADER_SIZE + PLAYER_SNAPSHOT_MAX_BYTES.
Definition JOURNAL_FILE_NAME : string := "player-save.journal".
Definition JOURNAL_TEMP_NAME : string := "player-save.journal.tmp".
Definition JOURNAL_QUARANTINE_NAME : string := "player-save.journal.quarantine".

(** [player_save_journal_result]. *)
Inductive journal_result :=
| journal_ok | not_initialized | invalid_path | unsafe_permissions | encode_failure
| io_failure | quota_exceeded | corrupt_data | replay_blocked.

#[export] Instance journal_result_eq_dec : EqDecision journal_result.
Proof. solve_decision. Defined.

Record player_save_journal_health := Health {
  h_bytes : Z;
  h_records : Z;
  h_oldest_age_msec : Z;
  h_appended : Z;
  h_append_failures : Z;
  h_checkpoints : Z;
  h_checkpoint_failures : Z;
  h_replayed : Z;
  h_duplicates : Z;
  h_corrupt_records : Z;
  h_unsupported_records : Z;
  h_quarantined_bytes : Z;
  h_backpressure : Z;
  h_initialized : bool;
  h_quota_exceeded : bool;
  h_age_limit_exceeded : bool;
}.
Definition no_health : player_save_journal_health :=
  Health 0 0 0 0 0 0 0 0 0 0 0 0 0 false false false.

Record journal_frame := Frame {
  f_bytes : list byte;
  f_snapshot : player_snapshot;
  f_record_id : Z;
  f_created_msec : Z;
  f_payload_checksum : Z;
}.

Record journal := Journal {
  journal_directory : string;
  journal_path : string;
  quarantine_path : string;
  journal_quota : Z;
  record_sequence : Z;
  oldest_record_msec : Z;
  health : player_save_journal_health;
  files : disk;
}.

(** [++counter] of a 64-bit counter. *)
Definition bump (counter : Z) : Z := wrap 64 (counter + 1).

(** ** Frames *)

Definition put_u32 (bytes : list byte) (offset : nat) (value : Z) : list byte :=
  put_bytes bytes offset (le_split 4 value).
Definition put_u64 (bytes : list byte) (offset : nat) (value : Z) : list byte :=
  put_bytes bytes offset (le_split 8 value).
Definition get_u32 (bytes : list byte) (offset : nat) : Z := get_le 4 bytes offset.
Definition get_u64 (bytes : list byte) (offset : nat) : Z := get_le 8 bytes offset.

Definition crc32_bit (crc : Z) : Z :=
  Z.lxor (Z.shiftr crc 1) (Z.land 0xedb88320 (wrap 32 (0 - Z.land crc 1))).
Definition crc32_update (crc : Z) (bytes : list byte) : Z :=
  foldl (λ crc b, Nat.iter 8 crc32_bit (Z.lxor crc (of_byte b))) crc bytes.

Definition frame_checksum (bytes : list byte) : Z :=
  let crc := crc32_update (2 ^ 32 - 1) (take JOURNAL_CHECKSUM_OFFSET bytes) in
  let crc := if (JOURNAL_HEADER_SIZE <? length bytes)%nat
             then crc32_update crc (drop JOURNAL_HEADER_SIZE bytes) else crc in
  wrap 32 (Z.lnot crc).
Definition payload_checksum (bytes : list byte) : Z :=
  wrap 32 (Z.lnot (crc32_update (2 ^ 32 - 1) bytes)).

(** What [build_frame] writes. *)
Definition frame_bytes (s : player_snapshot) (payload : list byte) (record_id created : Z)
  : list byte :=
  let b := zeros (JOURNAL_HEADER_SIZE + length payload) in
  let b := put_bytes b 0 JOURNAL_MAGIC in
  let b := put_u32 b 8 JOURNAL_FORMAT_VERSION in
  let b := put_u32 b 12 (Z.of_nat JOURNAL_HEADER_SIZE) in
  let b := put_u64 b 16 (vsize b) in
  let b := put_u64 b 24 record_id in
  let b := put_u64 b 32 created in
  let b := put_u32 b 40 (wrap 32 (snapshot_pid s)) in
  let b := put_u32 b 44 (schema_version s) in
  let b := put_u64 b 48 (snapshot_revision s) in
  let b := put_u64 b 56 (snapshot_components s) in
  let b := put_u32 b 64 (wrap 32 (vsize payload)) in
  let b := put_bytes b JOURNAL_HEADER_SIZE payload in
  put_u32 b JOURNAL_CHECKSUM_OFFSET (frame_checksum b).

Definition next_record_id (s : player_snapshot) (created sequence : Z) : Z :=
  Z.lxor (Z.lxor (Z.lxor (wrap 64 (Z.shiftl created 20)) sequence)
            (wrap 64 (Z.shiftl (wrap 64 (snapshot_pid s)) 32)))
    (snapshot_revision s).

(** [now] is the clock's reading, zero when it fails.  The sequence advances once the
    snapshot is encoded. *)
Definition build_frame (now : Z) (snapshot : player_snapshot) (j : journal)
  : option (journal_frame * journal) :=
  match player_snapshot_encode snapshot with
  | Err _ => None
  | Ok payload =>
      let j := {j with record_sequence := bump (record_sequence j)} in
      let record_id := next_record_id snapshot now (record_sequence j) in
      Some (Frame (frame_bytes snapshot payload record_id now) snapshot record_id now
              (payload_checksum payload), j)
  end.

(** ** Safe files *)

Section Journal.
Context `{Process}.

Definition safe_owned_mode (nd : node) (allowed : Z) (type : file_type) : bool :=
  bool_decide (node_type nd = type) && (node_owner nd =? geteuid)
  && negb (nz (Z.land (Z.land (node_mode nd) (Z.lnot allowed)) 0x1ff)).

Record open_replies := OpenReplies {
  o_open : option open_failure;
  o_fstat : bool;
  o_fchmod : bool;
}.

Definition chmod (mode : Z) (path : string) (d : disk) : disk :=
  alter (λ nd, {nd with node_mode := mode}) path d.

(** The mode 0600. *)
Definition private_mode : Z := 0x180.

Definition open_safe_file (r : open_replies) (creat : option Z) (excl : bool) (path : string)
    (d : disk) : option open_errno * disk :=
  let '(failed, d) := open_file (o_open r) creat excl path d in
  match failed with
  | Some errno => (Some errno, d)
  | None =>
      let safe := match d !! path with
                  | Some nd => safe_owned_mode nd private_mode regular_file
                  | None => false
                  end in
      if negb (o_fstat r) || negb safe || negb (o_fchmod r) then (Some EPERM, d)
      else (None, chmod private_mode path d)
  end.

Record sync_replies := SyncReplies { s_open : bool; s_fsync : bool }.
Definition sync_directory (r : sync_replies) : bool := s_open r && s_fsync r.

(** [fstat] on an open file: its size. *)
Definition fstat_size (ok : bool) (path : string) (d : disk) : option Z :=
  if ok then Some (vsize (data_at d path)) else None.

(** ** Quarantine *)

Record quarantine_replies := QuarantineReplies {
  q_open : open_replies;
  q_fstat : bool;
  q_writes : list io_reply;
  q_fdatasync : bool;
}.

Definition append_quarantine (r : quarantine_replies) (bytes : list byte) (j : journal)
  : bool * journal :=
  if (length bytes =? 0)%nat then (true, j) else
  let path := quarantine_path j in
  let '(failed, d) := open_safe_file (q_open r) (Some private_mode) false path (files j) in
  let j := {j with files := d} in
  match failed with
  | Some _ => (false, j)
  | None =>
      let refused := match fstat_size (q_fstat r) path d with
                     | None => true
                     | Some st_size =>
                         (st_size <? 0) || (journal_quota j <? vsize bytes)
                         || (journal_quota j - vsize bytes <? st_size)
                     end in
      if refused then (false, j) else
      let '(wrote, written, _) := write_all (q_writes r) bytes in
      let j := {j with files := append_data written path d} in
      if wrote && q_fdatasync r
      then (true, {j with health -> h_quarantined_bytes
                            ::= λ n, wrap 64 (n + vsize bytes)})
      else (false, j)
  end.

(** ** Scanning *)

Record scan_replies := ScanReplies {
  sr_open : open_replies;
  sr_fstat : bool;
  sr_resize : bool;
  sr_reads : list io_reply;
  (** Whether the allocations made for the frame at an offset succeed. *)
  sr_memory : nat → bool;
  sr_quarantine : nat → quarantine_replies;
}.

Definition read_journal_file (r : scan_replies) (j : journal)
  : res journal_result (list byte) * journal :=
  let path := journal_path j in
  let '(failed, d) := open_safe_file (sr_open r) None false path (files j) in
  let j := {j with files := d} in
  match failed with
  | Some ENOENT => (Ok [], j)
  | Some EPERM => (Err unsafe_permissions, j)
  | Some EOTHER => (Err io_failure, j)
  | None =>
      match fstat_size (sr_fstat r) path d with
      | None => (Err io_failure, j)
      | Some st_size =>
          if st_size <? 0 then (Err quota_exceeded, j)
          else if journal_quota j <? st_size then (Err quota_exceeded, j)
          else if negb (sr_resize r) then (Err io_failure, j)
          else
            let data := data_at d path in
            if (read_loop (sr_reads r) (length data) 0 <? length data)%nat
            then (Err io_failure, j) else (Ok data, j)
      end
  end.

Definition starts_frame (bytes : list byte) : bool :=
  bool_decide (take (length JOURNAL_MAGIC) bytes = JOURNAL_MAGIC).

(** [find_next_magic]: [n] counts down the offsets left. *)
Fixpoint find_magic_loop (n : nat) (bytes : list byte) (offset : nat) : nat :=
  match n with
  | O => length bytes
  | S n =>
      if (offset + length JOURNAL_MAGIC <=? length bytes)%nat then
        if starts_frame (drop offset bytes) then offset
        else find_magic_loop n bytes (S offset)
      else length bytes
  end.
Definition find_next_magic (bytes : list byte) (start : nat) : nat :=
  find_magic_loop (length bytes - start) bytes start.

(** What one turn of the scan finds at the bytes [at_] that are left: something to skip
    up to the next magic, a frame cut off by the end, a frame of another version or one
    that is damaged, with its size, an allocation that failed, or a frame. *)
Inductive finding :=
| unframed
| cut_off
| unsupported (record_size : nat)
| damaged (record_size : nat)
| exhausted
| framed (record_size : nat) (frame : journal_frame).

Definition examine (memory : bool) (at_ : list byte) : finding :=
  if (length at_ <? JOURNAL_HEADER_SIZE)%nat || negb (starts_frame at_) then unframed else
  let version := get_u32 at_ 8 in
  let header_size := get_u32 at_ 12 in
  let record_size := get_u64 at_ 16 in
  let payload_size := get_u32 at_ 64 in
  if negb (header_size =? Z.of_nat JOURNAL_HEADER_SIZE)
     || (record_size <? Z.of_nat JOURNAL_HEADER_SIZE)
     || (JOURNAL_MAX_RECORD_SIZE <? record_size)
     || negb (payload_size =? record_size - header_size) then unframed else
  if vsize at_ <? record_size then cut_off else
  let size := Z.to_nat record_size in
  if negb (version =? JOURNAL_FORMAT_VERSION) then unsupported size else
  let expected := get_u32 at_ JOURNAL_CHECKSUM_OFFSET in
  if negb (expected =? frame_checksum (take size at_)) then damaged size else
  if negb memory then exhausted else
  let payload := slice (Z.to_nat payload_size) at_ JOURNAL_HEADER_SIZE in
  match player_snapshot_decode payload with
  | Err _ => damaged size
  | Ok s =>
      if negb (wrap 32 (snapshot_pid s) =? get_u32 at_ 40)
         || negb (get_u32 payload 0 =? get_u32 at_ 44)
         || negb (snapshot_revision s =? get_u64 at_ 48)
         || negb (snapshot_components s =? get_u64 at_ 56) then damaged size
      else framed size (Frame (take size at_) s (get_u64 at_ 24) (get_u64 at_ 32)
                          (payload_checksum payload))
  end.

Definition count_corrupt (j : journal) : journal :=
  {j with health -> h_corrupt_records ::= bump}.
Definition count_unsupported (j : journal) : journal :=
  {j with health -> h_unsupported_records ::= bump}.
Definition count_backpressure (j : journal) : journal :=
  {j with health -> h_backpressure ::= bump}.

(** Where the loop stops: the offset, the frames and whether all was quarantined;
    [None] when an allocation failed. *)
Definition scan_state : Type := option (nat * list journal_frame * bool).

Fixpoint scan_loop (fuel : nat) (r : scan_replies) (bytes : list byte) (offset : nat)
    (frames : list journal_frame) (quarantine_ok : bool) (j : journal)
  : scan_state * journal :=
  match fuel with
  | O => (Some (offset, frames, quarantine_ok), j)
  | S fuel =>
      if (offset <? length bytes)%nat && (vsize frames <? PLAYER_SAVE_JOURNAL_MAX_RECORDS)
      then
        let quarantine n := append_quarantine (sr_quarantine r offset) (slice n bytes offset) j in
        match examine (sr_memory r offset) (drop offset bytes) with
        | unframed =>
            let next := find_next_magic bytes (S offset) in
            let '(ok, j) := quarantine (next - offset)%nat in
            scan_loop fuel r bytes next frames (quarantine_ok && ok) (count_corrupt j)
        | cut_off =>
            let '(ok, j) := quarantine (length bytes - offset)%nat in
            (Some (length bytes, frames, quarantine_ok && ok), count_corrupt j)
        | unsupported size =>
            let '(ok, j) := quarantine size in
            scan_loop fuel r bytes (offset + size) frames (quarantine_ok && ok)
              (count_unsupported j)
        | damaged size =>
            let '(ok, j) := quarantine size in
            scan_loop fuel r bytes (offset + size) frames (quarantine_ok && ok)
              (count_corrupt j)
        | exhausted => (None, j)
        | framed size frame =>
            scan_loop fuel r bytes (offset + size) (frames ++ [frame]) quarantine_ok j
        end
      else (Some (offset, frames, quarantine_ok), j)
  end.

Definition scan_journal (r : scan_replies) (j : journal)
  : journal_result * list journal_frame * journal :=
  let '(read, j) := read_journal_file r j in
  match read with
  | Err e => (e, [], j)
  | Ok bytes =>
      let '(stop, j) := scan_loop (length bytes) r bytes 0 [] true j in
      match stop with
      | None => (io_failure, [], j)
      | Some (offset, frames, quarantine_ok) =>
          let blocked := (offset <? length bytes)%nat in
          let j := if blocked then count_backpressure j else j in
          let result := if negb quarantine_ok then io_failure
                        else if blocked then replay_blocked else journal_ok in
          (result, frames, j)
      end
  end.

(** ** Compaction *)

Record compact_replies := CompactReplies {
  (** The allocation of the temporary path. *)
  c_memory : bool;
  c_open : open_replies;
  c_writes : list io_reply;
  c_fdatasync : bool;
  c_close : bool;
  c_rename : bool;
  c_sync : sync_replies;
  c_unlink : bool;
}.

(** The writes of the frames, up to the first that fails. *)
Fixpoint write_frames (replies : list io_reply) (frames : list journal_frame)
  : bool * list byte :=
  match frames with
  | [] => (true, [])
  | frame :: rest =>
      let '(wrote, written, replies) := write_all replies (f_bytes frame) in
      if wrote then
        let '(ok, more) := write_frames replies rest in (ok, written ++ more)
      else (false, written)
  end.

Definition temp_path (j : journal) : string :=
  (journal_directory j +:+ "/" +:+ JOURNAL_TEMP_NAME)%string.

Definition write_compacted (r : compact_replies) (frames : list journal_frame) (j : journal)
  : bool * journal :=
  if negb (c_memory r) then (false, j) else
  let temporary := temp_path j in
  let '(failed, d) := open_safe_file (c_open r) (Some private_mode) true temporary (files j) in
  match failed with
  | Some _ => (false, {j with files := d})
  | None =>
      let '(ok, written) := write_frames (c_writes r) frames in
      let d := append_data written temporary d in
      let ok := ok && c_fdatasync r in
      let ok := ok && c_close r in
      let ok := ok && c_rename r in
      let d := if ok then rename temporary (journal_path j) d else d in
      let ok := ok && sync_directory (c_sync r) in
      let d := if negb ok && c_unlink r then delete temporary d else d in
      (ok, {j with files := d})
  end.

(** ** The state of the journal *)

Definition oldest_of (frames : list journal_frame) : Z :=
  foldl (λ oldest frame,
    if (oldest =? 0) || (f_created_msec frame <? oldest) then f_created_msec frame else oldest)
    0 frames.
Definition total_bytes (frames : list journal_frame) : Z :=
  foldl (λ total frame, wrap 64 (total + vsize (f_bytes frame))) 0 frames.
Definition age_of (oldest now : Z) : Z :=
  if nz oldest && (oldest <=? now) then now - oldest else 0.

Definition refresh_health (now : Z) (frames : list journal_frame) (j : journal) : journal :=
  let oldest := oldest_of frames in
  let age := age_of oldest now in
  let bytes := total_bytes frames in
  let h := {health j with
    h_records := vsize frames;
    h_bytes := bytes;
    h_oldest_age_msec := age;
    h_age_limit_exceeded := PLAYER_SAVE_JOURNAL_MAX_AGE_MSEC <? age;
    h_quota_exceeded := journal_quota j <=? bytes} in
  {j with oldest_record_msec := oldest; health := h}.

(** [player_save_journal_health_copy]. *)
Definition player_save_journal_health_copy (now : Z) (j : journal)
  : player_save_journal_health :=
  let age := age_of (oldest_record_msec j) now in
  {health j with h_oldest_age_msec := age;
                 h_age_limit_exceeded := PLAYER_SAVE_JOURNAL_MAX_AGE_MSEC <? age}.

(** ** Opening and closing *)

Record init_replies := InitReplies {
  i_lstat : bool;
  i_mkdir : bool;
  i_open_directory : bool;
  i_fstat_directory : bool;
  i_fchmod_directory : bool;
  i_unlink : bool;
  i_open : open_replies;
  i_sync : sync_replies;
  i_scan : scan_replies;
  i_compact : compact_replies;
  i_stat : bool;
}.

Definition directory_mode : Z := 0x1c0.

(** The directory, made when it is absent, safe and private; [None]: [init] fails. *)
Definition open_directory (r : init_replies) (path : string) (d : disk) : option unit * disk :=
  let found := match d !! path with
               | Some _ => if i_lstat r then Some d else None
               | None =>
                   if i_mkdir r
                   then Some (<[path := Node directory geteuid 2
                                          (Z.land directory_mode (Z.lnot umask)) []]> d)
                   else None
               end in
  match found with
  | None => (None, d)
  | Some d =>
      match d !! path with
      | Some nd =>
          if i_open_directory r && bool_decide (node_type nd = directory)
             && i_fstat_directory r && safe_owned_mode nd directory_mode directory
             && i_fchmod_directory r
          then (Some tt, chmod directory_mode path d) else (None, d)
      | None => (None, d)
      end
  end.

Definition absolute (directory : string) : bool := String.prefix "/" directory.

Definition player_save_journal_init (r : init_replies) (now : Z) (directory : string)
    (quota_bytes : Z) (j : journal) : bool * journal :=
  if negb (absolute directory) || (quota_bytes <? Z.of_nat JOURNAL_HEADER_SIZE + 64)
     || (PLAYER_SAVE_JOURNAL_MAX_BYTES <? quota_bytes) then (false, j) else
  if h_initialized (health j) then (false, j) else
  let '(opened, d) := open_directory r directory (files j) in
  let j := {j with files := d} in
  match opened with
  | None => (false, j)
  | Some _ =>
      let path name := (directory +:+ "/" +:+ name)%string in
      let j := {j with journal_directory := directory;
                       journal_path := path JOURNAL_FILE_NAME;
                       quarantine_path := path JOURNAL_QUARANTINE_NAME;
                       journal_quota := quota_bytes} in
      let d := if i_unlink r then delete (temp_path j) d else d in
      let '(failed, d) := open_safe_file (i_open r) (Some private_mode) false (journal_path j) d in
      let j := {j with files := d} in
      match failed with
      | Some _ => (false, j)
      | None =>
          if negb (sync_directory (i_sync r)) then (false, j) else
          let j := {j with health := {no_health with h_initialized := true}} in
          let stopped (j : journal) := {j with health -> h_initialized := false} in
          let '(result, frames, j) := scan_journal (i_scan r) j in
          if negb (bool_decide (result = journal_ok) || bool_decide (result = corrupt_data))
          then (false, stopped j) else
          let invalid := 0 <? wrap 64 (h_corrupt_records (health j)
                                       + h_unsupported_records (health j)) in
          let '(compacted, j) := if invalid then write_compacted (i_compact r) frames j
                                 else (true, j) in
          if negb compacted then (false, stopped j) else
          let j := refresh_health now frames j in
          match fstat_size (i_stat r) (journal_path j) (files j) with
          | Some st_size =>
              if 0 <=? st_size then (true, {j with health -> h_bytes := st_size}) else (true, j)
          | None => (true, j)
          end
      end
  end.

Definition player_save_journal_shutdown (j : journal) : journal :=
  {j with health -> h_initialized := false; journal_directory := "";
          journal_path := ""; quarantine_path := ""; journal_quota := 0;
          oldest_record_msec := 0}.

(** ** Appending *)

Record append_replies := AppendReplies {
  a_memory : bool;
  a_open : open_replies;
  a_fstat : bool;
  a_writes : list io_reply;
  a_fdatasync : bool;
}.

Definition append_failed (j : journal) : journal :=
  {j with health -> h_append_failures ::= bump}.

Definition player_save_journal_append (r : append_replies) (now : Z)
    (snapshot : player_snapshot) (j : journal) : journal_result * journal :=
  if negb (h_initialized (health j)) then (not_initialized, j) else
  match (if a_memory r then build_frame now snapshot j else None) with
  | None => (encode_failure, append_failed j)
  | Some (frame, j) =>
      let path := journal_path j in
      let '(failed, d) := open_safe_file (a_open r) None false path (files j) in
      let j := {j with files := d} in
      match failed with
      | Some errno =>
          (if bool_decide (errno = EPERM) then unsafe_permissions else io_failure,
           append_failed j)
      | None =>
          let size := vsize (f_bytes frame) in
          let refused := (journal_quota j <? size) ||
            match fstat_size (a_fstat r) path d with
            | None => true
            | Some st_size => (st_size <? 0) || (journal_quota j - size <? st_size)
            end in
          if refused then
            (quota_exceeded,
             {append_failed (count_backpressure j) with health -> h_quota_exceeded := true})
          else
            let '(wrote, written, _) := write_all (a_writes r) (f_bytes frame) in
            let j := {j with files := append_data written path d} in
            if wrote && a_fdatasync r then
              let h := {health j with h_appended ::= bump; h_records ::= bump;
                                      h_bytes ::= λ n, wrap 64 (n + size)} in
              let oldest := oldest_record_msec j in
              let oldest := if (oldest =? 0) || (f_created_msec frame <? oldest)
                            then f_created_msec frame else oldest in
              (journal_ok, {j with health := h; oldest_record_msec := oldest})
            else (io_failure, append_failed j)
      end
  end.

(** ** Checkpoints *)

Record checkpoint_replies := CheckpointReplies {
  k_scan : scan_replies;
  k_memory : bool;
  k_compact : compact_replies;
}.

(** A frame the durable revision does not yet cover.  A later save does not cover a
    death: only its own revision does. *)
Definition retained (pid durable_revision : Z) (frame : journal_frame) : bool :=
  let s := f_snapshot frame in
  negb (snapshot_pid s =? pid)
  || (durable_revision <? snapshot_revision s)
  || (bool_decide (is_Some (death s)) && negb (snapshot_revision s =? durable_revision)).

Definition checkpoint_failed (j : journal) : journal :=
  {j with health -> h_checkpoint_failures ::= bump}.

Definition player_save_journal_checkpoint (r : checkpoint_replies) (now pid : Z)
    (durable_revision : Z) (j : journal) : journal_result * journal :=
  if (pid <=? 0) || negb (nz durable_revision) then (corrupt_data, j) else
  if negb (h_initialized (health j)) then (not_initialized, j) else
  let '(result, frames, j) := scan_journal (k_scan r) j in
  if negb (bool_decide (result = journal_ok)) then (result, checkpoint_failed j) else
  if negb (k_memory r) then (io_failure, checkpoint_failed j) else
  let frames := List.filter (retained pid durable_revision) frames in
  let '(compacted, j) := write_compacted (k_compact r) frames j in
  if negb compacted then (io_failure, checkpoint_failed j) else
  (journal_ok, refresh_health now frames {j with health -> h_checkpoints ::= bump}).

(** ** Replay *)

Definition frame_key (f : journal_frame) : Z * Z * Z :=
  (snapshot_pid (f_snapshot f), snapshot_revision (f_snapshot f), f_record_id f).
Definition frame_less (left right : journal_frame) : bool :=
  let '(lp, lr, li) := frame_key left in
  let '(rp, rr, ri) := frame_key right in
  if negb (lp =? rp) then lp <? rp else if negb (lr =? rr) then lr <? rr else li <? ri.
Definition frame_le (left right : journal_frame) : Prop := frame_less right left = false.

#[export] Instance frame_le_dec : RelDecision frame_le.
Proof. intros ??. unfold frame_le. apply _. Defined.

Definition frame_identity (f : journal_frame) : Z * Z * Z * Z :=
  let s := f_snapshot f in
  (snapshot_pid s, snapshot_revision s, snapshot_components s, f_payload_checksum f).

Definition key_before (a b : Z * Z) : Prop := a.1 <= b.1.
#[export] Instance key_before_dec : RelDecision key_before.
Proof. intros ??. unfold key_before. apply _. Defined.

Record replay_replies := ReplayReplies {
  r_scan : scan_replies;
  (** Whether the allocations for the n-th frame succeed, before and after its apply. *)
  r_memory : nat → bool;
  r_ack_memory : nat → bool;
  r_now : nat → Z;
  r_checkpoint : nat → checkpoint_replies;
  (** The checkpoints made at the end, by character. *)
  r_final_now : Z → Z;
  r_final : Z → checkpoint_replies;
}.

Definition count_duplicate (j : journal) : journal :=
  {j with health -> h_duplicates ::= bump}.
Definition count_replayed (j : journal) : journal :=
  {j with health -> h_replayed ::= bump}.

(** Before it goes on, the replay drops a death that was applied. *)
Definition release_death (r : checkpoint_replies) (now : Z) (s : player_snapshot)
    (a : player_save_apply_result) (j : journal) : res journal_result unit * journal :=
  if bool_decide (is_Some (death s)) then
    if bool_decide (outcome a = stale_revision) || (durable_revision a <? snapshot_revision s)
    then (Err replay_blocked, j) else
    let '(result, j) := player_save_journal_checkpoint r now (snapshot_pid s)
                          (snapshot_revision s) j in
    if bool_decide (result = journal_ok) then (Ok tt, j) else (Err io_failure, j)
  else (Ok tt, j).

Section Replay.
(** [apply], with what it acts on; [None]: it threw. *)
Context {W : Type} (apply : player_snapshot → W → option player_save_apply_result * W).

Fixpoint replay_loop (r : replay_replies) (n : nat) (frames : list journal_frame)
    (identities : gset (Z * Z * Z * Z)) (acknowledged : gmap Z Z) (w : W) (j : journal)
  : res journal_result (gmap Z Z) * W * journal :=
  match frames with
  | [] => (Ok acknowledged, w, j)
  | frame :: rest =>
      let s := f_snapshot frame in
      if negb (r_memory r n) then (Err replay_blocked, w, count_backpressure j) else
      if bool_decide (frame_identity frame ∈ identities)
      then replay_loop r (S n) rest identities acknowledged w (count_duplicate j) else
      let identities := {[ frame_identity frame ]} ∪ identities in
      let '(answer, w) := apply s w in
      match answer with
      | None => (Err replay_blocked, w, j)
      | Some a =>
          if negb (succeeded (outcome a))
          then (Err replay_blocked, w, count_backpressure j) else
          match release_death (r_checkpoint r n) (r_now r n) s a j with
          | (Err e, j) => (Err e, w, j)
          | (Ok _, j) =>
              if negb (r_ack_memory r n) then (Err replay_blocked, w, count_backpressure j) else
              let known := default 0 (acknowledged !! snapshot_pid s) in
              let acknowledged :=
                <[snapshot_pid s := Z.max known (durable_revision a)]> acknowledged in
              replay_loop r (S n) rest identities acknowledged w (count_replayed j)
          end
      end
  end.

Fixpoint final_checkpoints (r : replay_replies) (acknowledged : list (Z * Z)) (j : journal)
  : journal_result * journal :=
  match acknowledged with
  | [] => (journal_ok, j)
  | (pid, revision) :: rest =>
      if nz revision then
        let '(result, j) := player_save_journal_checkpoint (r_final r pid) (r_final_now r pid)
                              pid revision j in
        if bool_decide (result = journal_ok) then final_checkpoints r rest j
        else (io_failure, j)
      else final_checkpoints r rest j
  end.

(** A [std::map] is visited in the order of its keys. *)
Definition in_order (m : gmap Z Z) : list (Z * Z) := merge_sort key_before (map_to_list m).

Definition player_save_journal_replay (r : replay_replies) (w : W) (j : journal)
  : journal_result * W * journal :=
  if negb (h_initialized (health j)) then (not_initialized, w, j) else
  let '(result, frames, j) := scan_journal (r_scan r) j in
  if negb (bool_decide (result = journal_ok)) then (result, w, j) else
  let '(stop, w, j) := replay_loop r 0 (merge_sort frame_le frames) ∅ ∅ w j in
  match stop with
  | Err e => (e, w, j)
  | Ok acknowledged =>
      let '(result, j) := final_checkpoints r (in_order acknowledged) j in (result, w, j)
  end.
End Replay.

(** ** The hooks of the writer *)

Definition player_save_journal_worker_append (r : append_replies) (now : Z)
    (snapshot : player_snapshot) (j : journal) : bool * journal :=
  let '(result, j) := player_save_journal_append r now snapshot j in
  (bool_decide (result = journal_ok), j).

Definition player_save_journal_worker_ack (r : checkpoint_replies) (now pid revision : Z)
    (j : journal) : bool * journal :=
  let '(result, j) := player_save_journal_checkpoint r now pid revision j in
  (bool_decide (result = journal_ok), j).
End Journal.
