(* ===== verification/SaveJournalScan.v ===== *)
(** * Scanning the save journal

    The layout of a frame of [SaveJournal] and what the scan makes of bytes: it reads
    back each frame that was appended, wherever it stands and whatever follows, sees
    that a frame cut off by the end of the file is not one, accounts for every byte of
    any file, and ends because the file or the room for frames does. *)

From S2P Require Import Prelude Buffer Files RevisionState Snapshot SaveWorker Wire PlayerCodec SaveJournal.

(** ** Lemmas: the layout of a frame *)

Lemma put_bytes_middle a z c bs :
  length z = length bs → put_bytes (a ++ z ++ c) (length a) bs = a ++ bs ++ c.
Proof.
  intros L. unfold put_bytes. rewrite <- (Nat.add_0_r (length a)), list_inserts_app_r.
  f_equal. by apply list_inserts_0_r.
Qed.

(** The header up to the checksum. *)
Definition frame_header (s : player_snapshot) (payload : list byte) (record_id created : Z)
  : list byte :=
  JOURNAL_MAGIC ++ le_split 4 JOURNAL_FORMAT_VERSION ++ le_split 4 (Z.of_nat JOURNAL_HEADER_SIZE)
  ++ le_split 8 (Z.of_nat JOURNAL_HEADER_SIZE + vsize payload) ++ le_split 8 record_id
  ++ le_split 8 created ++ le_split 4 (wrap 32 (snapshot_pid s)) ++ le_split 4 (schema_version s)
  ++ le_split 8 (snapshot_revision s) ++ le_split 8 (snapshot_components s)
  ++ le_split 4 (wrap 32 (vsize payload)).

Lemma length_frame_header s p i c : length (frame_header s p i c) = JOURNAL_CHECKSUM_OFFSET.
Proof. unfold frame_header. rewrite !length_app, !length_le_split. done. Qed.

(** The checksum does not depend on the bytes that hold it. *)
Lemma frame_checksum_parts header z payload :
  length header = JOURNAL_CHECKSUM_OFFSET → length z = 4%nat →
  frame_checksum (header ++ z ++ payload)
  = wrap 32 (Z.lnot (crc32_update (crc32_update (2 ^ 32 - 1) header) payload)).
Proof.
  intros H Z. unfold frame_checksum. rewrite take_app_length' by done.
  assert (drop JOURNAL_HEADER_SIZE (header ++ z ++ payload) = payload) as ->.
  { rewrite (assoc_L (++)). apply drop_app_length'. rewrite length_app, H, Z. done. }
  do 2 f_equal. destruct (Nat.ltb_spec JOURNAL_HEADER_SIZE (length (header ++ z ++ payload)))
    as [L|L]; [done|].
  rewrite !length_app, H, Z in L. destruct payload; [done|].
  unfold JOURNAL_HEADER_SIZE, JOURNAL_CHECKSUM_OFFSET in L. cbn in L. lia.
Qed.

Definition frame_sum (s : player_snapshot) (payload : list byte) (record_id created : Z) : Z :=
  wrap 32 (Z.lnot (crc32_update (crc32_update (2 ^ 32 - 1)
    (frame_header s payload record_id created)) payload)).

(** The next field of a buffer being filled, of which [k] bytes are left. *)
Ltac put_field F off bs k :=
  apply (filled_put _ _ _ off bs) in F;
  [replace (_ - length bs)%nat with k in F by (rewrite ?length_le_split; cbn; lia)
  |rewrite ?length_app, ?length_zeros, ?length_le_split; done
  |rewrite ?length_le_split; cbn; lia].

Lemma frame_layout s payload record_id created :
  frame_bytes s payload record_id created
  = frame_header s payload record_id created
    ++ le_split 4 (frame_sum s payload record_id created) ++ payload.
Proof.
  set (n := length payload). set (header := frame_header s payload record_id created).
  pose proof (length_frame_header s payload record_id created) as LH. fold header in LH.
  assert (∃ b, frame_bytes s payload record_id created
               = put_u32 b JOURNAL_CHECKSUM_OFFSET (frame_checksum b)
               ∧ b = header ++ zeros 4 ++ payload) as (b & -> & E).
  { eexists. split; [reflexivity|]. unfold put_u32, put_u64, JOURNAL_HEADER_SIZE, vsize.
    rewrite !length_put_bytes, length_zeros. fold n. unfold header, frame_header, vsize, JOURNAL_HEADER_SIZE.
    fold n. rewrite Nat2Z.inj_add.
    assert (filled (zeros (72 + n)) [] (72 + n)) as F by done.
    put_field F 0%nat JOURNAL_MAGIC (64 + n)%nat.
    put_field F 8%nat (le_split 4 JOURNAL_FORMAT_VERSION) (60 + n)%nat.
    put_field F 12%nat (le_split 4 (Z.of_nat 72)) (56 + n)%nat.
    put_field F 16%nat (le_split 8 (Z.of_nat 72 + Z.of_nat n)) (48 + n)%nat.
    put_field F 24%nat (le_split 8 record_id) (40 + n)%nat.
    put_field F 32%nat (le_split 8 created) (32 + n)%nat.
    put_field F 40%nat (le_split 4 (wrap 32 (snapshot_pid s))) (28 + n)%nat.
    put_field F 44%nat (le_split 4 (schema_version s)) (24 + n)%nat.
    put_field F 48%nat (le_split 8 (snapshot_revision s)) (16 + n)%nat.
    put_field F 56%nat (le_split 8 (snapshot_components s)) (8 + n)%nat.
    put_field F 64%nat (le_split 4 (wrap 32 (Z.of_nat n))) (4 + n)%nat.
    apply (filled_skip _ _ _ 4) in F; [|lia].
    put_field F 72%nat payload 0%nat. apply filled_all in F. etransitivity; [exact F|].
    by rewrite <- !(assoc_L (++)). }
  assert (put_u32 b JOURNAL_CHECKSUM_OFFSET (frame_checksum b)
          = header ++ le_split 4 (frame_checksum b) ++ payload) as ->.
  { rewrite E at 1. unfold put_u32. rewrite <- LH. apply put_bytes_middle.
    by rewrite length_le_split, length_zeros. }
  rewrite E, frame_checksum_parts by done. done.
Qed.

Lemma length_frame_bytes s payload record_id created :
  length (frame_bytes s payload record_id created) = (JOURNAL_HEADER_SIZE + length payload)%nat.
Proof.
  rewrite frame_layout, !length_app, length_frame_header, length_le_split. done.
Qed.

(** ** Lemmas: reading frames back *)

(** A frame [build_frame] made of a character of the declared types. *)
Record written_frame (f : journal_frame) : Prop := {
  written_payload : ∃ payload,
    player_snapshot_encode (f_snapshot f) = Ok payload
    ∧ f_bytes f = frame_bytes (f_snapshot f) payload (f_record_id f) (f_created_msec f)
    ∧ f_payload_checksum f = payload_checksum payload;
  written_typed : player_snapshot_typed (f_snapshot f);
  written_id : u64 (f_record_id f);
  written_created : u64 (f_created_msec f);
}.

Lemma encoded_decodes s payload :
  player_snapshot_typed s → player_snapshot_encode s = Ok payload →
  player_snapshot_decode payload = Ok s ∧ get_u32 payload 0 = schema_version s
  ∧ u32 (schema_version s) ∧ vsize payload <= PLAYER_SNAPSHOT_MAX_BYTES.
Proof.
  intros T E. destruct (snapshot_encode_Ok _ _ E) as ((M & R & Dt) & Sz & B & L & D).
  pose proof (metadata_schema s M) as V.
  assert (u32 (schema_version s)) as U by (destruct V as [-> | ->]; by vm_compute).
  split_and!; [|subst payload; by apply wire_version_bytes|done|done].
  subst payload. destruct (player_snapshot_decode _) as [s'|] eqn:D'; [|done].
  f_equal. by apply (snapshot_decode_agrees s s').
Qed.

(** The header, as the scan reads it. *)
Lemma header_reads s payload id created rest (at_ := frame_bytes s payload id created ++ rest) :
  header_typed s → u32 (schema_version s) → u64 id → u64 created → u32 (vsize payload) →
  starts_frame at_ = true
  ∧ get_u32 at_ 8 = JOURNAL_FORMAT_VERSION ∧ get_u32 at_ 12 = Z.of_nat JOURNAL_HEADER_SIZE
  ∧ get_u64 at_ 16 = Z.of_nat JOURNAL_HEADER_SIZE + vsize payload
  ∧ get_u64 at_ 24 = id ∧ get_u64 at_ 32 = created
  ∧ get_u32 at_ 40 = wrap 32 (snapshot_pid s) ∧ get_u32 at_ 44 = schema_version s
  ∧ get_u64 at_ 48 = snapshot_revision s ∧ get_u64 at_ 56 = snapshot_components s
  ∧ get_u32 at_ 64 = vsize payload
  ∧ get_u32 at_ JOURNAL_CHECKSUM_OFFSET = frame_sum s payload id created
  ∧ slice (length payload) at_ JOURNAL_HEADER_SIZE = payload.
Proof.
  intros (Tp & Tr & Tc & _) U I M P.
  assert (at_offset at_ 0 at_) as A by (split; [lia|done]).
  unfold at_ at 2 in A. rewrite frame_layout in A. unfold frame_header in A.
  rewrite <- !(assoc_L (++)) in A.
  apply (slice_at _ _ _ _ 8) in A as [Em A]; [|done]. cbn [Nat.add] in A.
  do 11 (get_at A; [|first [assumption | by apply (wrap_range 32)
    | unfold fits, JOURNAL_HEADER_SIZE, JOURNAL_FORMAT_VERSION in *; lia]]).
  apply (slice_at _ _ _ _ (length payload)) in A as [Ep _]; [|done].
  rewrite wrap_small in E8 by done.
  split_and!; [by apply bool_decide_eq_true_2|done..].
Qed.

Lemma examine_written f rest m :
  written_frame f →
  examine m (f_bytes f ++ rest) = if m then framed (length (f_bytes f)) f else exhausted.
Proof.
  intros [(payload & E & B & C) T I M]. destruct f as [bytes s id created sum]. cbn in *.
  subst bytes sum. destruct (encoded_decodes s payload T E) as (D & V & U & L).
  assert (u32 (vsize payload)) as P by (unfold fits, PLAYER_SNAPSHOT_MAX_BYTES, vsize in *; lia).
  destruct (header_reads s payload id created rest (proj1 T) U I M P)
    as (S & E0 & E1 & E2 & E3 & E4 & E5 & E6 & E7 & E8 & E9 & E10 & Ep).
  set (at_ := frame_bytes s payload id created ++ rest) in *.
  assert (length at_ = 72 + length payload + length rest)%nat as LA
    by (unfold at_; by rewrite length_app, length_frame_bytes).
  assert (take (72 + length payload) at_ = frame_bytes s payload id created) as TA
    by (apply take_app_length'; by rewrite length_frame_bytes).
  unfold examine. rewrite S, (proj2 (Nat.ltb_ge _ _)) by (unfold JOURNAL_HEADER_SIZE; lia).
  cbn [negb orb]. rewrite E0, E1, E2, E3, E4, E5, E6, E7, E8, E9, E10.
  replace (Z.of_nat JOURNAL_HEADER_SIZE + vsize payload - Z.of_nat JOURNAL_HEADER_SIZE)
    with (vsize payload) by lia.
  replace (Z.to_nat (Z.of_nat JOURNAL_HEADER_SIZE + vsize payload)) with (72 + length payload)%nat
    by (unfold vsize, JOURNAL_HEADER_SIZE; lia).
  rewrite TA, length_frame_bytes, to_nat_vsize, !Z.eqb_refl. unfold JOURNAL_MAX_RECORD_SIZE.
  rewrite !(proj2 (Z.ltb_ge _ _)) by (unfold vsize, JOURNAL_HEADER_SIZE in *; lia).
  cbn [negb orb]. rewrite frame_layout at 1. rewrite frame_checksum_parts
    by (apply length_frame_header || apply length_le_split).
  unfold frame_sum. rewrite Z.eqb_refl. cbn [negb].
  destruct m; [|done]. cbn [negb]. rewrite Ep, D, V, !Z.eqb_refl. done.
Qed.

(** What the scan accepts as a frame: its bytes are the next ones, and its snapshot is
    what they decode to, whose identity the header repeats. *)
Lemma examine_framed m at_ size f :
  examine m at_ = framed size f →
  f_bytes f = take size at_ ∧ (JOURNAL_HEADER_SIZE <= size <= length at_)%nat
  ∧ player_snapshot_decode (drop JOURNAL_HEADER_SIZE (f_bytes f)) = Ok (f_snapshot f)
  ∧ get_u32 (f_bytes f) JOURNAL_CHECKSUM_OFFSET = frame_checksum (f_bytes f)
  ∧ f_payload_checksum f = payload_checksum (drop JOURNAL_HEADER_SIZE (f_bytes f)).
Proof.
  unfold examine. intros H. steps_in H. bool_prop. cbn [f_bytes f_snapshot f_payload_checksum].
  set (size := Z.to_nat (get_u64 at_ 16)) in *.
  assert (slice (Z.to_nat (get_u32 at_ 64)) at_ JOURNAL_HEADER_SIZE
          = drop JOURNAL_HEADER_SIZE (take size at_)) as P.
  { unfold slice. rewrite take_drop_commute. do 2 f_equal. unfold size, JOURNAL_HEADER_SIZE in *. lia. }
  rewrite P in *. split_and!; [done|unfold size, vsize, JOURNAL_HEADER_SIZE in *; lia..|done| |done].
  etransitivity; [|exact E3]. unfold get_u32, get_le. f_equal.
  rewrite take_drop_commute, take_take, take_drop_commute. do 2 f_equal.
  unfold size, JOURNAL_HEADER_SIZE, JOURNAL_CHECKSUM_OFFSET in *. lia.
Qed.

Lemma get_le_prefix sz a b off :
  (off + sz <= length a)%nat → get_le sz (a ++ b) off = get_le sz a off.
Proof.
  intros L. unfold get_le. rewrite drop_app_le, take_app_le by (rewrite ?length_drop; lia). done.
Qed.

(** A frame cut off by the end of the file is not one. *)
Lemma examine_torn f torn more m :
  written_frame f → f_bytes f = torn ++ more → more ≠ [] →
  examine m torn = if (length torn <? JOURNAL_HEADER_SIZE)%nat then unframed else cut_off.
Proof.
  intros [(payload & E & B & _) T I M] C N. destruct f as [bytes s id created sum].
  cbn [f_bytes f_snapshot f_record_id f_created_msec] in *.
  subst bytes. destruct (encoded_decodes s payload T E) as (_ & _ & U & L).
  assert (u32 (vsize payload)) as P by (unfold fits, PLAYER_SNAPSHOT_MAX_BYTES, vsize in *; lia).
  destruct (header_reads s payload id created [] (proj1 T) U I M P)
    as (S & _ & E1 & E2 & _ & _ & _ & _ & _ & _ & E9 & _ & _).
  rewrite app_nil_r, C in *. pose proof (length_frame_bytes s payload id created) as LF.
  rewrite C, length_app in LF. destruct more as [|b more]; [done|]. cbn [length] in LF.
  unfold examine. destruct (Nat.ltb_spec (length torn) JOURNAL_HEADER_SIZE) as [F|F]; [done|].
  unfold starts_frame in S. unfold JOURNAL_HEADER_SIZE in F. unfold get_u32, get_u64 in *.
  rewrite take_app_le in S by (cbn; lia). rewrite get_le_prefix in E1, E2, E9 by lia.
  unfold starts_frame. rewrite S, E1, E2, E9. cbn [negb orb].
  replace (Z.of_nat JOURNAL_HEADER_SIZE + vsize payload - Z.of_nat JOURNAL_HEADER_SIZE)
    with (vsize payload) by lia. rewrite !Z.eqb_refl. unfold JOURNAL_MAX_RECORD_SIZE.
  rewrite !(proj2 (Z.ltb_ge _ _)) by (unfold vsize, JOURNAL_HEADER_SIZE in *; lia). cbn [negb orb].
  rewrite (proj2 (Z.ltb_lt _ _)) by (unfold vsize, JOURNAL_HEADER_SIZE in *; lia). done.
Qed.

(** A frame the scan finds wherever it stands. *)
Definition readable_frame (f : journal_frame) : Prop :=
  (JOURNAL_HEADER_SIZE <= length (f_bytes f))%nat
  ∧ ∀ rest m, examine m (f_bytes f ++ rest)
              = if m then framed (length (f_bytes f)) f else exhausted.

Lemma written_readable f : written_frame f → readable_frame f.
Proof.
  intros W. split; [|intros rest m; by apply examine_written].
  destruct W as [(p & _ & -> & _) _ _ _]. rewrite length_frame_bytes. lia.
Qed.

(** What follows a frame does not matter. *)
Lemma examine_readable m at_ size f : examine m at_ = framed size f → readable_frame f.
Proof.
  intros H. pose proof (examine_framed _ _ _ _ H) as (B & [L1 L2] & _).
  set (b := f_bytes f) in *. assert (length b = size) as Lb by (rewrite B, length_take; lia).
  assert (at_ = b ++ drop size at_) as E by by rewrite B, take_drop.
  revert H. rewrite E. generalize (drop size at_) as rest0. clear B E L2 at_. intros rest0 H.
  split; [fold b; by rewrite Lb|]. fold b. rewrite Lb. intros rest m'. subst size.
  unfold JOURNAL_HEADER_SIZE in L1.
  assert (∀ r sz k, (k + sz <= 72)%nat → get_le sz (b ++ r) k = get_le sz b k) as P
    by (intros; apply get_le_prefix; lia).
  assert (∀ r, starts_frame (b ++ r) = starts_frame b) as Ps.
  { intros r. unfold starts_frame. rewrite take_app_le; [done|]. cbn. lia. }
  assert (∀ r, (length (b ++ r) <? JOURNAL_HEADER_SIZE) = false)%nat as Pl.
  { intros r. apply Nat.ltb_ge. rewrite length_app. unfold JOURNAL_HEADER_SIZE. lia. }
  unfold examine, get_u32, get_u64 in *. rewrite Pl, Ps in *. unfold JOURNAL_CHECKSUM_OFFSET in *.
  rewrite !(P _ 4%nat), !(P _ 8%nat) in * by lia. cbn [orb] in *.
  destruct (starts_frame b); [|done]. cbn [negb] in *.
  match type of H with (if ?c then _ else _) = _ => destruct c eqn:C; [done|] end.
  destruct (_ <? _) eqn:V in H; [done|].
  destruct (negb _) eqn:Ve in H; [done|]. rewrite Ve.
  assert (Z.to_nat (get_le 8 b 16) = length b) as N.
  { clear -H. revert H. repeat case_match; congruence. }
  rewrite !orb_false_iff, !negb_false_iff, !Z.eqb_eq in C. destruct C as [[[C1 C2] _] C4].
  unfold JOURNAL_HEADER_SIZE in C1, C2. rewrite Z.ltb_ge in C2.
  assert (∀ r, slice (Z.to_nat (get_le 4 b 64)) (b ++ r) JOURNAL_HEADER_SIZE = drop JOURNAL_HEADER_SIZE b) as Q.
  { intros r. unfold slice, JOURNAL_HEADER_SIZE. rewrite drop_app_le by lia.
    apply take_app_length'. rewrite length_drop. lia. }
  rewrite !Q, N, !take_app_length in *.
  rewrite (proj2 (Z.ltb_ge _ _)) by (unfold vsize; rewrite length_app; lia).
  destruct (negb (get_le 4 b 68 =? _)); [done|]. destruct m; [|done]. cbn [negb] in H.
  rewrite H. by destruct m'.
Qed.

(** ** Lemmas: data that operations leave alone *)

Lemma chmod_data mode path d : same_data d (chmod mode path d).
Proof.
  intros p. unfold data_at, chmod. rewrite lookup_alter. case_decide; subst; [|done].
  by destruct (d !! p).
Qed.

Section Calls.
Context `{Process}.

Lemma open_safe_file_data r creat excl path d err d' :
  open_safe_file r creat excl path d = (err, d') →
  same_data d d' ∧ (err = None → is_Some (d' !! path) ∧ (excl = true → d !! path = None)).
Proof.
  unfold open_safe_file. destruct (open_file _ _ _ _ _) as [e d1] eqn:O.
  apply open_file_data in O as [D N]. destruct e as [e|]; [by intros [= <- <-]|].
  destruct (_ || _); intros [= <- <-]; [by split|]. split.
  - etransitivity; [exact D|]. apply chmod_data.
  - intros _. destruct (N eq_refl) as [[nd P] X]. split; [|done].
    unfold chmod. rewrite lookup_alter_eq, P. by eexists.
Qed.
(** *** Quarantine *)

(** Where the journal is kept. *)
Definition place (j : journal) : string * string * string * Z :=
  (journal_directory j, journal_path j, quarantine_path j, journal_quota j).
Definition records (j : journal) : list byte := data_at (files j) (journal_path j).
Definition quarantined (j : journal) : list byte := data_at (files j) (quarantine_path j).

(** The records [init] counts as invalid. *)
Definition invalid_records (j : journal) : Z :=
  h_corrupt_records (health j) + h_unsupported_records (health j).

(** Only the quarantine, the counters and modes change. *)
Definition quarantines (j j' : journal) : Prop :=
  place j' = place j ∧ h_initialized (health j') = h_initialized (health j)
  ∧ ∀ p, p ≠ quarantine_path j → data_at (files j') p = data_at (files j) p.

#[export] Instance quarantines_po : PreOrder quarantines.
Proof.
  split; [by intros j|]. intros a b c (P1 & I1 & D1) (P2 & I2 & D2).
  split; [congruence|]. split; [congruence|]. intros p N.
  rewrite D2; [by apply D1|]. unfold place in P1. injection P1 as _ _ -> _. done.
Qed.

Lemma quarantines_records j j' :
  quarantines j j' → journal_path j ≠ quarantine_path j → records j' = records j.
Proof.
  intros (P & _ & D) N. unfold records. unfold place in P. injection P as _ -> _ _. by apply D.
Qed.

Lemma append_quarantine_effect r bs j ok j' :
  append_quarantine r bs j = (ok, j') →
  quarantines j j' ∧ invalid_records j' = invalid_records j
  ∧ (ok = true → quarantined j' = quarantined j ++ bs).
Proof.
  unfold append_quarantine. destruct (Nat.eqb_spec (length bs) 0) as [Z|_].
  { intros [= <- <-]. split; [done|]. split; [done|]. intros _. destruct bs; [|done]. by rewrite app_nil_r. }
  destruct (open_safe_file _ _ _ _ _) as [failed d] eqn:O.
  apply open_safe_file_data in O as [D N].
  destruct failed; [by intros [= <- <-]|]. destruct (N eq_refl) as [P _].
  match goal with |- context [if ?b then _ else _] => destruct b end; [by intros [= <- <-]|].
  destruct (write_all _ _) as [[wrote w] rest] eqn:W.
  assert (∀ p, p ≠ quarantine_path j →
            data_at (append_data w (quarantine_path j) d) p = data_at (files j) p) as Q.
  { intros p Np. unfold append_data. rewrite data_at_set_ne by done. apply D. }
  destruct (wrote && _) eqn:K; intros [= <- <-]; [|by split].
  split; [by split|]. split; [done|]. intros _. apply andb_prop in K as [-> _].
  apply write_all_ok in W as ->. unfold quarantined. cbn. by rewrite data_at_append, D.
Qed.
End Calls.

(** ** Lemmas: the scan *)

Lemma find_magic_bounds n bytes offset :
  (offset <= length bytes)%nat → (offset <= find_magic_loop n bytes offset <= length bytes)%nat.
Proof.
  revert offset. induction n as [|n IH]; intros offset L; cbn [find_magic_loop]; [lia|].
  destruct (Nat.leb_spec (offset + length JOURNAL_MAGIC) (length bytes)) as [B|B]; [|lia].
  destruct (starts_frame _); [lia|]. cbn in B. specialize (IH (S offset)). lia.
Qed.

(** What the scan makes of a stretch of the file. *)
Inductive chunk := kept (f : journal_frame) | set_aside (bs : list byte).
Definition chunk_bytes (c : chunk) : list byte :=
  match c with kept f => f_bytes f | set_aside bs => bs end.
Definition kept_of (cs : list chunk) : list journal_frame :=
  omap (λ c, match c with kept f => Some f | _ => None end) cs.
Definition aside_of (cs : list chunk) : list byte :=
  concat (map (λ c, match c with set_aside bs => bs | _ => [] end) cs).

Definition set_asides (cs : list chunk) : nat :=
  length (List.filter (λ c, match c with set_aside _ => true | _ => false end) cs).

(** A frame the scan vouches for. *)
Definition sound_frame (f : journal_frame) : Prop :=
  readable_frame f
  ∧ player_snapshot_decode (drop JOURNAL_HEADER_SIZE (f_bytes f)) = Ok (f_snapshot f)
  ∧ get_u32 (f_bytes f) JOURNAL_CHECKSUM_OFFSET = frame_checksum (f_bytes f)
  ∧ f_payload_checksum f = payload_checksum (drop JOURNAL_HEADER_SIZE (f_bytes f)).

Lemma count_corrupt_quarantines j : quarantines j (count_corrupt j).
Proof. done. Qed.
Lemma count_unsupported_quarantines j : quarantines j (count_unsupported j).
Proof. done. Qed.

Lemma bump_invalid a b : wrap 64 (bump a + b) = wrap 64 (a + b + 1) ∧ wrap 64 (a + bump b) = wrap 64 (a + b + 1).
Proof.
  unfold bump, wrap. rewrite Z.add_mod_idemp_l, Z.add_mod_idemp_r by done. split; f_equal; lia.
Qed.

Lemma count_corrupt_invalid j :
  wrap 64 (invalid_records (count_corrupt j)) = wrap 64 (invalid_records j + 1).
Proof. apply bump_invalid. Qed.
Lemma count_unsupported_invalid j :
  wrap 64 (invalid_records (count_unsupported j)) = wrap 64 (invalid_records j + 1).
Proof. apply bump_invalid. Qed.

Section Scan.
Context `{Process} (r : scan_replies) (bytes : list byte).

(** One turn that sets the next [n] bytes aside. *)
Definition sets_aside (n : nat) (offset : nat) (j : journal) : bool * journal :=
  append_quarantine (sr_quarantine r offset) (slice n bytes offset) j.

(** A frame takes at least a byte. *)
Lemma examine_size m at_ :
  match examine m at_ with
  | unsupported n | damaged n => (JOURNAL_HEADER_SIZE <= n <= length at_)%nat
  | _ => True
  end.
Proof.
  destruct (examine m at_) as [| |n|n| |n f] eqn:X; try done; unfold examine in X;
    steps_in X; bool_prop; unfold vsize, JOURNAL_HEADER_SIZE in *; lia.
Qed.

Record scanned (offset : nat) (frames : list journal_frame) (ok : bool) (j : journal)
    (offset' : nat) (frames' : list journal_frame) (ok' : bool) (j' : journal)
    (cs : list chunk) : Prop := {
  scanned_bounds : (offset <= offset' <= length bytes)%nat;
  scanned_chunks : slice (offset' - offset) bytes offset = concat (map chunk_bytes cs);
  scanned_frames : frames' = frames ++ kept_of cs;
  scanned_sound : Forall sound_frame (kept_of cs);
  scanned_effect : quarantines j j';
  scanned_nonempty : Forall (λ c, chunk_bytes c ≠ []) cs;
  scanned_count :
    wrap 64 (invalid_records j') = wrap 64 (invalid_records j + Z.of_nat (set_asides cs));
  scanned_aside : ok' = true → ok = true ∧ quarantined j' = quarantined j ++ aside_of cs;
}.

Lemma scanned_done offset frames ok j :
  (offset <= length bytes)%nat → scanned offset frames ok j offset frames ok j [].
Proof.
  intros L. split; [lia| |by rewrite app_nil_r|constructor|done|constructor| |by rewrite app_nil_r].
  - by rewrite Nat.sub_diag.
  - by rewrite Z.add_0_r.
Qed.

Lemma scanned_aside_step offset n frames ok j offset' frames' ok' j' cs b j1 j2 :
  (0 < n)%nat → (offset + n <= length bytes)%nat → sets_aside n offset j = (b, j1) →
  quarantines j1 j2 → quarantined j2 = quarantined j1 →
  wrap 64 (invalid_records j2) = wrap 64 (invalid_records j1 + 1) →
  scanned (offset + n) frames (ok && b) j2 offset' frames' ok' j' cs →
  scanned offset frames ok j offset' frames' ok' j' (set_aside (slice n bytes offset) :: cs).
Proof.
  intros Pos L A Q12 E Cn [B C F S Q Ne Ct K].
  apply append_quarantine_effect in A as (Q01 & Iv & A). split.
  - lia.
  - cbn [map concat chunk_bytes]. rewrite <- C, <- slice_app. f_equal. lia.
  - done.
  - done.
  - by do 2 (etransitivity; [eassumption|]).
  - constructor; [|done]. cbn. intros X.
    assert (length (slice n bytes offset) = n) as Ln by (apply length_slice; lia).
    rewrite X in Ln. cbn in Ln. lia.
  - rewrite Ct. unfold set_asides. cbn [List.filter length]. unfold wrap in *.
    rewrite Z.add_mod, Cn, <- Z.add_mod, Iv by done. f_equal. lia.
  - intros T. destruct (K T) as [O R]. apply andb_prop in O as [-> ->]. split; [done|].
    rewrite R, E, A by done. unfold aside_of. cbn. by rewrite <- (assoc_L (++)).
Qed.

Lemma scan_loop_scanned fuel offset frames ok j offset' frames' ok' j' :
  (offset <= length bytes)%nat →
  scan_loop fuel r bytes offset frames ok j = (Some (offset', frames', ok'), j') →
  ∃ cs, scanned offset frames ok j offset' frames' ok' j' cs.
Proof.
  revert offset frames ok j. induction fuel as [|fuel IH]; intros offset frames ok j L H0; cbn [scan_loop] in H0.
  { injection H0 as <- <- <- <-. exists []. by apply scanned_done. }
  destruct (_ && _) eqn:C; [|injection H0 as <- <- <- <-; exists []; by apply scanned_done].
  apply andb_prop in C as [C _]. apply Nat.ltb_lt in C.
  pose proof (examine_size (sr_memory r offset) (drop offset bytes)) as Sz. rewrite length_drop in Sz. unfold JOURNAL_HEADER_SIZE in Sz.
  destruct (examine _ _) as [| |n|n| |n f] eqn:X.
  - pose proof (find_magic_bounds (length bytes - S offset) bytes (S offset) ltac:(lia)) as FB.
    fold (find_next_magic bytes (S offset)) in FB. set (next := find_next_magic bytes (S offset)) in *.
    destruct (append_quarantine _ _ _) as [b j1] eqn:A.
    eapply IH in H0 as [cs Hcs]; [|lia]. eexists.
    eapply (scanned_aside_step offset (next - offset)); [lia|lia|exact A| | | |
      replace (offset + (next - offset))%nat with next by lia; exact Hcs]; first [done | apply bump_invalid].
  - destruct (append_quarantine _ _ _) as [b j1] eqn:A. injection H0 as <- <- <- <-.
    eexists. eapply (scanned_aside_step offset (length bytes - offset)); [lia|lia|exact A| | | |
      replace (offset + (length bytes - offset))%nat with (length bytes) by lia;
      by apply scanned_done]; first [done | apply bump_invalid].
  - destruct (append_quarantine _ _ _) as [b j1] eqn:A.
    eapply IH in H0 as [cs Hcs]; [|lia]. eexists.
    eapply (scanned_aside_step offset n); [lia|lia|exact A| | | |exact Hcs]; first [done | apply bump_invalid].
  - destruct (append_quarantine _ _ _) as [b j1] eqn:A.
    eapply IH in H0 as [cs Hcs]; [|lia]. eexists.
    eapply (scanned_aside_step offset n); [lia|lia|exact A| | | |exact Hcs]; first [done | apply bump_invalid].
  - done.
  - pose proof (examine_readable _ _ _ _ X) as Rd.
    apply examine_framed in X as (Tk & B & D & K & P). rewrite length_drop in B.
    eapply IH in H0 as [cs [B' C' F' S' Q' Ne' Ct' K']]; [|lia].
    exists (kept f :: cs). split; [lia| | |constructor; [|done]|done| |done|done].
    + cbn [map concat chunk_bytes]. rewrite <- C', Tk.
      change (take n (drop offset bytes)) with (slice n bytes offset). rewrite <- slice_app. f_equal. lia.
    + rewrite F'. cbn. by rewrite <- (assoc_L (++)).
    + done.
    + constructor; [|done]. cbn. intros X. rewrite Tk in X. apply (f_equal length) in X.
      rewrite length_take, length_drop in X. unfold JOURNAL_HEADER_SIZE in B. cbn in X. lia.
Qed.

(** Also when it stops for want of memory. *)
Lemma scan_loop_quarantines fuel offset frames ok j stop j' :
  scan_loop fuel r bytes offset frames ok j = (stop, j') → quarantines j j'.
Proof.
  revert offset frames ok j. induction fuel as [|fuel IH]; intros offset frames ok j H0; cbn [scan_loop] in H0.
  { by injection H0 as _ <-. }
  destruct (_ && _); [|by injection H0 as _ <-].
  destruct (examine _ _) as [| |n|n| |n f].
  all: try by injection H0 as _ <-.
  all: try by eapply IH.
  all: destruct (append_quarantine _ _ _) as [b j1] eqn:A; apply append_quarantine_effect in A as (A & _).
  all: etransitivity; [exact A|].
  all: try by injection H0 as _ <-.
  all: apply IH in H0; done.
Qed.

(** The loop ends because the file, or the room for frames, does. *)
Lemma scan_loop_ends fuel offset frames ok j offset' frames' ok' j' :
  (length bytes - offset <= fuel)%nat →
  scan_loop fuel r bytes offset frames ok j = (Some (offset', frames', ok'), j') →
  (length bytes <= offset')%nat ∨ PLAYER_SAVE_JOURNAL_MAX_RECORDS <= vsize frames'.
Proof.
  revert offset frames ok j. induction fuel as [|fuel IH]; intros offset frames ok j L H0; cbn [scan_loop] in H0.
  { injection H0 as <- <- <- <-. left. lia. }
  destruct (_ && _) eqn:C.
  2: { injection H0 as <- <- <- <-. apply andb_false_iff in C as [C|C]; bool_prop; auto. }
  apply andb_prop in C as [C _]. apply Nat.ltb_lt in C.
  pose proof (examine_size (sr_memory r offset) (drop offset bytes)) as Sz.
  unfold JOURNAL_HEADER_SIZE in Sz.
  destruct (examine _ _) as [| |n|n| |n f] eqn:X.
  - pose proof (find_magic_bounds (length bytes - S offset) bytes (S offset) ltac:(lia)) as FB.
    fold (find_next_magic bytes (S offset)) in FB.
    destruct (append_quarantine _ _ _) as [b j1]. eapply IH; [|exact H0]; lia.
  - destruct (append_quarantine _ _ _) as [b j1]. injection H0 as <- <- <- <-. left. lia.
  - destruct (append_quarantine _ _ _) as [b j1]. eapply IH; [|exact H0]; lia.
  - destruct (append_quarantine _ _ _) as [b j1]. eapply IH; [|exact H0]; lia.
  - done.
  - apply examine_framed in X as (_ & B & _). unfold JOURNAL_HEADER_SIZE in B.
    eapply IH; [|exact H0]; lia.
Qed.
End Scan.

(** ** Lemmas: scanning what was appended *)

Definition frames_bytes (fs : list journal_frame) : list byte := concat (map f_bytes fs).

(** A beginning of a frame, not the whole of it. *)
Definition torn_frame (bs : list byte) : Prop :=
  ∃ f more, written_frame f ∧ f_bytes f = bs ++ more ∧ more ≠ [].

Lemma frames_length fs : Forall readable_frame fs → (length fs <= length (frames_bytes fs))%nat.
Proof.
  induction 1 as [|f fs W F IH]; [done|]. unfold frames_bytes in *. cbn.
  rewrite length_app. destruct W as [W _]. unfold JOURNAL_HEADER_SIZE in W. lia.
Qed.

Lemma aside_all cs : kept_of cs = [] → aside_of cs = concat (map chunk_bytes cs).
Proof.
  induction cs as [|[f|bs] cs IH]; intros K; [done..|]. unfold aside_of in *. cbn in *. by rewrite IH.
Qed.

Section ScanWritten.
Context `{Process} (r : scan_replies) (bytes : list byte).

Lemma scan_written fs fuel pre rest frames ok j :
  Forall readable_frame fs → bytes = pre ++ frames_bytes fs ++ rest →
  vsize frames + vsize fs <= PLAYER_SAVE_JOURNAL_MAX_RECORDS → (length fs <= fuel)%nat →
  (scan_loop fuel r bytes (length pre) frames ok j = (None, j) ∧ ∃ o, sr_memory r o = false)
  ∨ scan_loop fuel r bytes (length pre) frames ok j
    = scan_loop (fuel - length fs) r bytes (length (pre ++ frames_bytes fs)) (frames ++ fs) ok j.
Proof.
  intros F. revert fuel pre frames. induction F as [|f fs Wf F IH]; intros fuel pre frames E M L.
  { right. cbn. by rewrite !app_nil_r, Nat.sub_0_r. }
  destruct fuel as [|fuel]; [cbn in L; lia|]. cbn [scan_loop].
  assert (drop (length pre) bytes = f_bytes f ++ frames_bytes fs ++ rest) as D.
  { rewrite E, drop_app_length. unfold frames_bytes. cbn. by rewrite <- (assoc_L (++)). }
  assert (length pre < length bytes)%nat as Lb.
  { pose proof (proj1 Wf) as W. unfold JOURNAL_HEADER_SIZE in W.
    assert (length (drop (length pre) bytes) = length (f_bytes f ++ frames_bytes fs ++ rest)) as X by by rewrite D.
    rewrite length_drop, length_app in X. lia. }
  assert (vsize frames < PLAYER_SAVE_JOURNAL_MAX_RECORDS) as Lf by (unfold vsize in *; cbn in M; lia).
  rewrite (proj2 (Nat.ltb_lt _ _) Lb), (proj2 (Z.ltb_lt _ _) Lf). cbn [andb].
  rewrite D, (proj2 Wf).
  destruct (sr_memory r (length pre)) eqn:Mo; [|left; eauto].
  replace (length pre + length (f_bytes f))%nat with (length (pre ++ f_bytes f)) by apply length_app.
  destruct (IH fuel (pre ++ f_bytes f) (frames ++ [f])) as [X| ->].
  - rewrite E. unfold frames_bytes. cbn [map concat]. by rewrite <- !(assoc_L (++)).
  - unfold vsize in *. rewrite length_app. cbn in *. lia.
  - cbn in L. lia.
  - by left.
  - right. cbn [length Nat.sub]. unfold frames_bytes. cbn [map concat]. by rewrite <- !(assoc_L (++)).
Qed.

(** The rest of a file that is too short for a header. *)
Lemma scan_short fuel offset frames ok j :
  (offset <= length bytes)%nat → (length bytes - offset < JOURNAL_HEADER_SIZE)%nat →
  (length bytes - offset <= fuel)%nat → vsize frames < PLAYER_SAVE_JOURNAL_MAX_RECORDS →
  ∃ ok' j', scan_loop fuel r bytes offset frames ok j = (Some (length bytes, frames, ok'), j').
Proof.
  revert offset ok j. induction fuel as [|fuel IH]; intros offset ok j L S F M; cbn [scan_loop].
  { exists ok, j. do 4 f_equal. lia. }
  destruct (Nat.ltb_spec offset (length bytes)) as [B|B].
  2: { exists ok, j. cbn [andb]. do 4 f_equal. lia. }
  rewrite (proj2 (Z.ltb_lt _ _) M). cbn [andb].
  assert (examine (sr_memory r offset) (drop offset bytes) = unframed) as ->.
  { unfold examine. rewrite (proj2 (Nat.ltb_lt _ _)) by by rewrite length_drop. done. }
  destruct (append_quarantine _ _ _) as [b j1].
  pose proof (find_magic_bounds (length bytes - Datatypes.S offset) bytes (Datatypes.S offset) ltac:(lia)) as FB.
  fold (find_next_magic bytes (Datatypes.S offset)) in FB. apply IH; lia || done.
Qed.

Lemma scan_torn fuel offset frames ok j :
  torn_frame (drop offset bytes) → (offset <= length bytes)%nat → (length bytes - offset <= fuel)%nat →
  vsize frames < PLAYER_SAVE_JOURNAL_MAX_RECORDS →
  ∃ ok' j', scan_loop fuel r bytes offset frames ok j = (Some (length bytes, frames, ok'), j').
Proof.
  intros (f & more & W & E & N) L F M.
  destruct (decide (length bytes - offset < JOURNAL_HEADER_SIZE)%nat) as [S|S]; [by apply scan_short|].
  destruct fuel as [|fuel]; [unfold JOURNAL_HEADER_SIZE in S; lia|]. cbn [scan_loop].
  rewrite (proj2 (Nat.ltb_lt _ _)) by (unfold JOURNAL_HEADER_SIZE in S; lia).
  rewrite (proj2 (Z.ltb_lt _ _) M). cbn [andb]. rewrite (examine_torn _ _ _ _ W E N), length_drop.
  rewrite (proj2 (Nat.ltb_ge _ _)) by lia. destruct (append_quarantine _ _ _) as [b j1]. eauto.
Qed.

(** A file of frames, the last possibly cut off. *)
Lemma scan_frames fs torn j :
  Forall readable_frame fs → bytes = frames_bytes fs ++ torn → torn = [] ∨ torn_frame torn →
  vsize fs <= PLAYER_SAVE_JOURNAL_MAX_RECORDS →
  (torn ≠ [] → vsize fs < PLAYER_SAVE_JOURNAL_MAX_RECORDS) →
  (scan_loop (length bytes) r bytes 0 [] true j = (None, j) ∧ ∃ o, sr_memory r o = false)
  ∨ ∃ ok j', scan_loop (length bytes) r bytes 0 [] true j = (Some (length bytes, fs, ok), j')
    ∧ quarantines j j' ∧ (ok = true → quarantined j' = quarantined j ++ torn)
    ∧ (torn = [] → ok = true ∧ j' = j).
Proof.
  intros F E T M Mt.
  pose proof (frames_length fs F) as LF.
  assert (length bytes = length (frames_bytes fs) + length torn)%nat as LB by by rewrite E, length_app.
  set (fuel := (length bytes - length fs)%nat).
  change 0%nat with (length (@nil byte)).
  destruct (scan_written fs (length bytes) [] torn [] true j F E ltac:(done) ltac:(lia)) as [X| ->];
    [by left|right]. cbn [app].
  destruct (decide (torn = [])) as [->|Nt].
  { exists true, j. rewrite app_nil_r in *. rewrite E. split_and!; [|done..].
    subst fuel. destruct (length (frames_bytes fs) - length fs)%nat; cbn [scan_loop]; [done|]. by rewrite (proj2 (Nat.ltb_ge _ _)) by lia. }
  destruct T as [?|T]; [done|].
  destruct (scan_torn fuel (length (frames_bytes fs)) fs true j)
    as (ok & j' & S); [by rewrite E, drop_app_length|lia|unfold fuel; lia|by apply Mt|].
  exists ok, j'. split; [exact S|].
  apply scan_loop_scanned in S as [cs [_ C Fr _ Qd _ _ A]]; [|lia].
  split_and!; [exact Qd| |done]. intros O. destruct (A O) as [_ ->]. f_equal.
  rewrite aside_all, <- C; [|by apply (app_inv_head fs); rewrite app_nil_r].
  rewrite E at 2. unfold slice. rewrite drop_app_length. apply take_ge. lia.
Qed.

(** As many frames as the scan keeps, and more behind them: it stops before the rest. *)
Lemma scan_full fs rest j :
  Forall readable_frame fs → bytes = frames_bytes fs ++ rest →
  vsize fs = PLAYER_SAVE_JOURNAL_MAX_RECORDS →
  (scan_loop (length bytes) r bytes 0 [] true j = (None, j) ∧ ∃ o, sr_memory r o = false)
  ∨ scan_loop (length bytes) r bytes 0 [] true j = (Some (length (frames_bytes fs), fs, true), j).
Proof.
  intros F E M. pose proof (frames_length fs F) as LF.
  assert (length bytes = length (frames_bytes fs) + length rest)%nat as LB by by rewrite E, length_app.
  change 0%nat with (length (@nil byte)).
  destruct (scan_written fs (length bytes) [] rest [] true j F E) as [X| ->];
    [change (vsize fs <= PLAYER_SAVE_JOURNAL_MAX_RECORDS); by rewrite M|lia|by left|right]. cbn [app].
  destruct (length bytes - length fs)%nat; cbn [scan_loop]; [done|].
  by rewrite (proj2 (Z.ltb_ge _ _)), andb_false_r by lia.
Qed.

(** More frames than the scan keeps: it stops before the end. *)
Lemma scan_overflow fs j :
  Forall readable_frame fs → bytes = frames_bytes fs → PLAYER_SAVE_JOURNAL_MAX_RECORDS < vsize fs →
  (scan_loop (length bytes) r bytes 0 [] true j = (None, j) ∧ ∃ o, sr_memory r o = false)
  ∨ ∃ offset kept, scan_loop (length bytes) r bytes 0 [] true j = (Some (offset, kept, true), j)
    ∧ (offset < length bytes)%nat.
Proof.
  intros F E M. assert (∃ n, Z.of_nat n = PLAYER_SAVE_JOURNAL_MAX_RECORDS) as [n Hn]
    by (exists (Z.to_nat PLAYER_SAVE_JOURNAL_MAX_RECORDS); by apply Z2Nat.id).
  unfold vsize in M.
  rewrite <- (take_drop n fs) in E, F. apply Forall_app in F as [F1 F2].
  assert (length (take n fs) = n) as Ln by (rewrite length_take; lia).
  unfold frames_bytes in E. rewrite map_app, concat_app in E.
  fold (frames_bytes (take n fs)) (frames_bytes (drop n fs)) in E.
  destruct (scan_full (take n fs) (frames_bytes (drop n fs)) j F1 E) as [X|X];
    [unfold vsize; by rewrite Ln, Hn|by left|right].
  eexists _, _. split; [exact X|]. rewrite E at 1. rewrite length_app.
  apply frames_length in F2. rewrite length_drop in F2. lia.
Qed.
End ScanWritten.
