(* ===== verification/SaveJournalSafety.v ===== *)
(** * What the save journal keeps

    The operations of [SaveJournal] on a journal that [holds] a list of frames: opening,
    appending, checkpoints and replay, with every call of the system free to fail.  The
    theorems say what is in the journal afterwards, what the database was asked, and
    two ways in which a capture that was accepted is lost or never dropped. *)

From S2P Require Import Prelude Buffer Files RevisionState Snapshot SaveWorker Wire PlayerCodec SaveJournal SaveJournalScan.

Section Effects.
Context `{Process}.

Lemma read_journal_effect r j read j' :
  read_journal_file r j = (read, j') →
  place j' = place j ∧ health j' = health j ∧ same_data (files j) (files j')
  ∧ read ≠ Err journal_ok ∧ ∀ bytes, read = Ok bytes → bytes = records j.
Proof.
  unfold read_journal_file. destruct (open_safe_file _ _ _ _ _) as [failed d] eqn:O.
  pose proof O as O'. apply open_safe_file_data in O' as [D _].
  destruct failed as [[]|].
  - intros [= <- <-]. split_and!; [done..|]. intros bytes [= <-].
    unfold open_safe_file, open_file in O. unfold records. symmetry. apply data_at_absent.
    destruct (o_open (sr_open r)) as [[]|]; [done..|].
    destruct (files j !! journal_path j) as [nd|] eqn:P; [|done].
    cbn [orb] in O. destruct (negb _); [done|]. by repeat case_match.
  - intros [= <- <-]. done.
  - intros [= <- <-]. done.
  - destruct (fstat_size _ _ _) as [st_size|]; [|by intros [= <- <-]].
    repeat (case_match; try by intros [= <- <-]).
    intros [= <- <-]. split_and!; [done..|]. intros bytes [= <-]. apply D.
Qed.

Lemma same_data_quarantines j j' :
  place j' = place j → health j' = health j → same_data (files j) (files j') →
  quarantines j j' ∧ quarantined j' = quarantined j.
Proof.
  intros P Hh D. unfold quarantined. pose proof P as Q. unfold place in Q. injection Q as _ _ -> _.
  split; [|apply D]. split; [done|]. split; [by rewrite Hh|]. intros p _. apply D.
Qed.

(** Whatever the file holds: a scan that succeeds accounts for every byte of it, in
    order, and has put all that is not a sound frame in the quarantine. *)
Lemma scan_journal_scanned r j result frames j' :
  scan_journal r j = (result, frames, j') →
  quarantines j j'
  ∧ (result = journal_ok →
     ∃ cs, records j = concat (map chunk_bytes cs) ∧ frames = kept_of cs
       ∧ Forall sound_frame (kept_of cs) ∧ quarantined j' = quarantined j ++ aside_of cs
       ∧ Forall (λ c, chunk_bytes c ≠ []) cs
       ∧ wrap 64 (invalid_records j') = wrap 64 (invalid_records j + Z.of_nat (set_asides cs))).
Proof.
  unfold scan_journal. destruct (read_journal_file r j) as [read j1] eqn:R.
  apply read_journal_effect in R as (P & Hh & D & NE & B).
  destruct (same_data_quarantines j j1 P Hh D) as [Q0 Q1].
  destruct read as [bytes|e]; [|intros [= <- <- <-]; split; [done|]; by intros ->].
  destruct (scan_loop _ _ _ _ _ _ _) as [stop j2] eqn:S.
  pose proof (scan_loop_quarantines _ _ _ _ _ _ _ _ _ S) as Q2.
  destruct stop as [[[offset fs] ok]|]; [|intros [= <- <- <-]; split; [by etransitivity|done]].
  intros [= <- <- <-]. split.
  { etransitivity; [exact Q0|]. etransitivity; [exact Q2|]. by destruct (offset <? length bytes)%nat. }
  destruct ok; [|done]. destruct (Nat.ltb_spec offset (length bytes)) as [L|L]; [done|]. intros _.
  apply scan_loop_scanned in S as [cs [B1 C F So _ Ne Ct A]]; [|lia].
  exists cs. destruct (A eq_refl) as [_ A']. rewrite <- C, A', Q1. replace offset with (length bytes) by lia.
  rewrite Nat.sub_0_r, slice_all. split_and!; [symmetry; by apply B|exact F|exact So|done|exact Ne|].
  rewrite Ct. unfold invalid_records. by rewrite Hh.
Qed.

(** The scan of a file of frames this journal appended, the last possibly cut off. *)
Lemma scan_journal_frames r j fs torn :
  Forall readable_frame fs → records j = frames_bytes fs ++ torn → torn = [] ∨ torn_frame torn →
  vsize fs <= PLAYER_SAVE_JOURNAL_MAX_RECORDS →
  (torn ≠ [] → vsize fs < PLAYER_SAVE_JOURNAL_MAX_RECORDS) →
  ∀ result frames j', scan_journal r j = (result, frames, j') →
  result = journal_ok → frames = fs ∧ quarantined j' = quarantined j ++ torn.
Proof.
  intros F E T M Mt result frames j'. unfold scan_journal.
  destruct (read_journal_file r j) as [read j1] eqn:R.
  apply read_journal_effect in R as (P & Hh & D & NE & B).
  destruct (same_data_quarantines j j1 P Hh D) as [Q0 Q1].
  destruct read as [bytes|e]; [|intros [= <- <- <-]; by intros ->].
  rewrite <- (B bytes eq_refl) in E.
  destruct (scan_frames r bytes fs torn j1 F E T M Mt) as [[-> _]|(ok & j2 & -> & Q2 & A & _)];
    [by intros [= <- <- <-]|].
  rewrite Nat.ltb_irrefl. intros [= <- <- <-]. destruct ok; [|done].
  intros _. by rewrite A, Q1.
Qed.



Lemma scan_journal_overflow r j fs result frames j' :
  Forall readable_frame fs → records j = frames_bytes fs → PLAYER_SAVE_JOURNAL_MAX_RECORDS < vsize fs →
  scan_journal r j = (result, frames, j') → result ≠ journal_ok.
Proof.
  intros F E M. unfold scan_journal.
  destruct (read_journal_file r j) as [read j1] eqn:R.
  apply read_journal_effect in R as (P & Hh & D & NE & B).
  destruct read as [bytes|e]; [|intros [= <- <- <-]; congruence].
  rewrite <- (B bytes eq_refl) in E.
  destruct (scan_overflow r bytes fs j1 F E M) as [[-> _]|(offset & kept & -> & L)].
  - by intros [= <- <- <-].
  - rewrite (proj2 (Nat.ltb_lt _ _) L). by intros [= <- <- <-].
Qed.

(** ** Lemmas: appending and compacting *)

(** The paths [init] gives a journal, and that the files they name are different. *)
Definition placed (j : journal) : Prop :=
  journal_path j = (journal_directory j +:+ "/" +:+ JOURNAL_FILE_NAME)%string
  ∧ quarantine_path j = (journal_directory j +:+ "/" +:+ JOURNAL_QUARANTINE_NAME)%string.

Lemma placed_apart j : placed j →
  journal_path j ≠ quarantine_path j ∧ temp_path j ≠ journal_path j ∧ temp_path j ≠ quarantine_path j.
Proof.
  intros [P Q]. rewrite P, Q. unfold temp_path.
  split_and!; intros E; by do 2 apply append_string_inj in E.
Qed.

Lemma placed_place j j' : place j' = place j → placed j → placed j'.
Proof. unfold place, placed. by intros [= -> -> -> _]. Qed.

Lemma lxor_u64 a b : u64 a → u64 b → u64 (Z.lxor a b).
Proof.
  intros A B. assert (0 <= Z.lxor a b) as L by (apply Z.lxor_nonneg; unfold fits in *; lia).
  apply Z.bounded_iff_bits_nonneg'; [lia|done|]. intros l Hl. rewrite Z.lxor_spec.
  rewrite (proj1 (Z.bounded_iff_bits_nonneg' 64 a ltac:(lia) (proj1 A)) A) by done.
  by rewrite (proj1 (Z.bounded_iff_bits_nonneg' 64 b ltac:(lia) (proj1 B)) B).
Qed.

Lemma bump_u64 x : u64 (bump x).
Proof. by apply (wrap_range 64). Qed.

Lemma build_frame_written now s j f j' :
  player_snapshot_typed s → u64 now → build_frame now s j = Some (f, j') →
  written_frame f ∧ f_snapshot f = s ∧ f_created_msec f = now
  ∧ place j' = place j ∧ health j' = health j ∧ files j' = files j.
Proof.
  intros T N. unfold build_frame. destruct (player_snapshot_encode s) as [payload|] eqn:E; [|done].
  intros [= <- <-]. split_and!; [|done..]. split; cbn; [eauto|done| |done].
  pose proof T as ((_ & Tr & _) & _). unfold next_record_id.
  repeat apply lxor_u64; first [done | apply bump_u64 | by apply (wrap_range 64)].
Qed.

(** Only the file [path], the counters and modes change. *)
Definition writes_only (path : string) (j j' : journal) : Prop :=
  place j' = place j ∧ h_initialized (health j') = h_initialized (health j)
  ∧ ∀ p, p ≠ path → data_at (files j') p = data_at (files j) p.

(** What an append leaves of a frame, by its result. *)
Definition appended (result : journal_result) (f : journal_frame) (added : list byte) : Prop :=
  match result with
  | journal_ok => added = f_bytes f
  | io_failure => added `prefix_of` f_bytes f
  | _ => added = []
  end.

Lemma place_path j j' : place j' = place j →
  journal_path j' = journal_path j ∧ quarantine_path j' = quarantine_path j
  ∧ temp_path j' = temp_path j ∧ journal_quota j' = journal_quota j.
Proof. unfold place, temp_path. by intros [= -> -> -> ->]. Qed.

(** Nothing written, and something appended, after the files were opened as [d]. *)
Lemma records_same j j' d :
  same_data (files j) d → place j' = place j → files j' = d →
  h_initialized (health j') = h_initialized (health j) →
  writes_only (journal_path j) j j' ∧ records j' = records j.
Proof.
  intros D P F I. split; [split; [done|]; split; [done|]; intros p _; rewrite F; apply D|].
  unfold records. rewrite F. destruct (place_path _ _ P) as [-> _]. apply D.
Qed.

Lemma records_grown j j' d w :
  same_data (files j) d → is_Some (d !! journal_path j) → place j' = place j →
  files j' = append_data w (journal_path j) d →
  h_initialized (health j') = h_initialized (health j) →
  writes_only (journal_path j) j j' ∧ records j' = records j ++ w.
Proof.
  intros D Is P F I. split.
  - split; [done|]. split; [done|]. intros p N. rewrite F. unfold append_data.
    rewrite data_at_set_ne by done. apply D.
  - unfold records. rewrite F. destruct (place_path _ _ P) as [-> _].
    rewrite data_at_append by done. by rewrite D.
Qed.

Lemma append_effect r now s j result j' :
  player_snapshot_typed s → u64 now → h_initialized (health j) = true →
  player_save_journal_append r now s j = (result, j') →
  writes_only (journal_path j) j j'
  ∧ (result = encode_failure ∧ records j' = records j
     ∨ ∃ f added, written_frame f ∧ f_snapshot f = s ∧ f_created_msec f = now
         ∧ records j' = records j ++ added ∧ appended result f added
         ∧ (added ≠ [] → vsize (records j ++ f_bytes f) <= journal_quota j)).
Proof.
  intros T N I. unfold player_save_journal_append. rewrite I. cbn [negb].
  destruct (if a_memory r then _ else _) as [[f j1]|] eqn:B; [|by intros [= <- <-]; split; [|left]].
  destruct (a_memory r); [|done].
  destruct (build_frame_written _ _ _ _ _ T N B) as (W & S & C & P & Hh & Fi). clear B.
  destruct (open_safe_file _ _ _ _ _) as [failed d] eqn:O.
  apply open_safe_file_data in O as [D Op]. rewrite Fi in D.
  assert (∃ j2, {j1 with files := d} = j2 ∧ place j2 = place j ∧ files j2 = d ∧ health j2 = health j)
    as (j2 & -> & P2 & F2 & H2) by (eexists; split; [reflexivity|]; done).
  destruct (place_path _ _ P) as (Pj & _). destruct (place_path _ _ P2) as (_ & _ & _ & ->).
  rewrite Pj in *.
  assert (∀ result j3, place j3 = place j → files j3 = d → h_initialized (health j3) = true →
            appended result f [] →
            writes_only (journal_path j) j j3
            ∧ (result = encode_failure ∧ records j3 = records j
               ∨ ∃ f added, written_frame f ∧ f_snapshot f = s ∧ f_created_msec f = now
                   ∧ records j3 = records j ++ added ∧ appended result f added
                   ∧ (added ≠ [] → vsize (records j ++ f_bytes f) <= journal_quota j))) as Nothing.
  { intros result0 j3 P3 F3 I3 A3. destruct (records_same j j3 d D P3 F3 (eq_trans I3 (eq_sym I))) as [S1 S2].
    split; [exact S1|]. right. exists f, []. by rewrite app_nil_r. }
  assert (h_initialized (health j2) = true) as I2 by by rewrite H2.
  destruct failed as [errno|].
  { intros [= <- <-]. apply Nothing; [done..|].
    case_bool_decide; [done|]. apply prefix_nil. }
  destruct (_ || _) eqn:G; [intros [= <- <-]; by apply Nothing|].
  apply orb_false_elim in G as [G1 G2]. apply Z.ltb_ge in G1.
  destruct (a_fstat r); [|done]. cbn [fstat_size] in G2. apply orb_false_elim in G2 as [_ G2].
  apply Z.ltb_ge in G2. rewrite D in G2. fold (records j) in G2.
  destruct (write_all _ _) as [[wrote w] rest] eqn:Wr.
  destruct (write_all_prefix _ _ _ _ _ Wr) as [Pre _].
  destruct (Op eq_refl) as [Is _].
  assert (vsize (records j ++ f_bytes f) <= journal_quota j) as Room
    by (unfold vsize in *; rewrite length_app; lia).
  assert (∀ j3, place j3 = place j → files j3 = append_data w (journal_path j) d →
            h_initialized (health j3) = true →
            writes_only (journal_path j) j j3 ∧ records j3 = records j ++ w) as Grown.
  { intros j3 P3 F3 I3. eapply records_grown; [done..|congruence]. }
  destruct (wrote && _) eqn:K; intros [= <- <-].
  - apply andb_prop in K as [-> _]. apply write_all_ok in Wr as ->.
    edestruct Grown as [G3 G4]; [| | |split; [exact G3|right; exists f, (f_bytes f); split_and!; [done..|exact G4|done|done]]];
      done.
  - edestruct Grown as [G3 G4]; [| | |split; [exact G3|right; exists f, w; split_and!; [done..|exact G4|exact Pre|done]]];
      done.
Qed.
End Effects.

Section Compaction.
Context `{Process}.

Lemma write_frames_ok replies fs written :
  write_frames replies fs = (true, written) → written = frames_bytes fs.
Proof.
  revert replies written. induction fs as [|f fs IH]; intros replies written E; cbn in E; [by simplify_eq|].
  destruct (write_all replies (f_bytes f)) as [[[] w] rest] eqn:W; [|done].
  destruct (write_frames rest fs) as [ok more] eqn:M. injection E as -> <-.
  apply write_all_ok in W as ->. apply IH in M as ->. done.
Qed.

(** The compaction replaces the file at once or leaves it as it is, whatever fails. *)
Lemma write_compacted_effect r frames j ok j' :
  placed j → write_compacted r frames j = (ok, j') →
  place j' = place j ∧ health j' = health j ∧ quarantined j' = quarantined j
  ∧ (records j' = frames_bytes frames ∨ ok = false ∧ records j' = records j).
Proof.
  intros Pl. destruct (placed_apart j Pl) as (A1 & A2 & A3). unfold write_compacted.
  destruct (c_memory r); cbn [negb]; [|intros [= <- <-]; split_and!; [done..|by right]].
  destruct (open_safe_file _ _ _ _ _) as [failed d] eqn:O. apply open_safe_file_data in O as [D Op].
  unfold records, quarantined.
  destruct failed; [intros [= <- <-]; split_and!; [done..|apply D|right; split; [done|apply D]]|].
  destruct (Op eq_refl) as [Is Ab]. specialize (Ab eq_refl).
  destruct (write_frames _ _) as [wrote w] eqn:W.
  set (d1 := append_data w (temp_path j) d).
  assert (data_at d1 (temp_path j) = w) as Dt.
  { unfold d1. by rewrite data_at_append, D, data_at_absent. }
  assert (∀ p, p ≠ temp_path j → data_at d1 p = data_at (files j) p) as Do.
  { intros p N. unfold d1, append_data. rewrite data_at_set_ne by done. apply D. }
  assert (is_Some (d1 !! temp_path j)) as I1 by by apply set_data_present.
  set (fine := wrote && c_fdatasync r && c_close r && c_rename r).
  replace (((wrote && c_fdatasync r) && c_close r) && c_rename r) with fine by done.
  intros [= <- <-].
  split; [done|]. split; [done|].
  set (d2 := if fine then rename (temp_path j) (journal_path j) d1 else d1).
  set (d3 := if negb (fine && sync_directory (c_sync r)) && c_unlink r then delete (temp_path j) d2 else d2).
  assert (∀ p, p ≠ temp_path j → data_at d3 p = data_at d2 p) as E3.
  { intros p N. unfold d3. destruct (_ && c_unlink r); [|done]. by rewrite data_at_delete, decide_False. }
  change (data_at d3 (quarantine_path j) = data_at (files j) (quarantine_path j)
    ∧ (data_at d3 (journal_path j) = frames_bytes frames
       ∨ fine && sync_directory (c_sync r) = false
         ∧ data_at d3 (journal_path j) = data_at (files j) (journal_path j))).
  rewrite !E3 by done. unfold d2. destruct fine eqn:F.
  - rewrite !data_at_rename by done. rewrite (decide_True _ _ (eq_refl (journal_path j))), Dt.
    rewrite !decide_False by done. rewrite Do by done. split; [done|]. left.
    unfold fine in F. destruct wrote; [|done]. by eapply write_frames_ok.
  - rewrite !Do by done. auto.
Qed.

(** ** Lemmas: checkpoints *)

Lemma refresh_same now frames j :
  place (refresh_health now frames j) = place j
  ∧ h_initialized (health (refresh_health now frames j)) = h_initialized (health j)
  ∧ files (refresh_health now frames j) = files j.
Proof. done. Qed.

(** What a journal of appended frames is. *)
Record holds (j : journal) (fs : list journal_frame) : Prop := {
  holds_placed : placed j;
  holds_initialized : h_initialized (health j) = true;
  holds_records : records j = frames_bytes fs;
  holds_readable : Forall readable_frame fs;
}.

Lemma holds_quarantines j j' fs : quarantines j j' → holds j fs → holds j' fs.
Proof.
  intros Q [P I R W]. pose proof (placed_apart j P) as (A & _ & _).
  split; [by eapply placed_place; [apply Q|]| |rewrite (quarantines_records j j' Q A); done|done].
  destruct Q as (_ & -> & _). done.
Qed.

Lemma scan_holds r j fs result frames j' :
  holds j fs → scan_journal r j = (result, frames, j') →
  holds j' fs ∧ (result = journal_ok → frames = fs).
Proof.
  intros Hj S. pose proof S as S'. apply scan_journal_scanned in S' as [Q _].
  split; [by eapply holds_quarantines|]. intros ->. destruct Hj as [P I R W].
  destruct (decide (vsize fs <= PLAYER_SAVE_JOURNAL_MAX_RECORDS)) as [L|L].
  - eapply (scan_journal_frames r j fs []); [done|by rewrite app_nil_r|by left|done|done|exact S|done].
  - exfalso. by eapply (scan_journal_overflow r j fs); [..|exact S|]; [done|done|lia|].
Qed.

Lemma checkpoint_effect r now pid revision j fs result j' :
  holds j fs → player_save_journal_checkpoint r now pid revision j = (result, j') →
  holds j' (List.filter (retained pid revision) fs) ∨ result ≠ journal_ok ∧ holds j' fs.
Proof.
  intros Hj. unfold player_save_journal_checkpoint.
  destruct (_ || _); [intros [= <- <-]; by right|].
  rewrite (holds_initialized _ _ Hj). cbn [negb].
  destruct (scan_journal (k_scan r) j) as [[scanned frames] j1] eqn:S.
  destruct (scan_holds _ _ _ _ _ _ Hj S) as [H1 F].
  case_bool_decide as E; cbn [negb]; [|intros [= <- <-]; right; split; [done|by destruct H1]].
  rewrite (F E). destruct (k_memory r); cbn [negb]; [|intros [= <- <-]; right; split; [done|by destruct H1]].
  destruct (write_compacted _ _ _) as [ok j2] eqn:W.
  destruct H1 as [P I R Wf].
  destruct (write_compacted_effect _ _ _ _ _ P W) as (P2 & H2 & _ & D).
  assert (∀ l, Forall readable_frame l → Forall readable_frame (List.filter (retained pid revision) l)) as Ff.
  { intros l. rewrite !Forall_forall. intros Fl f. rewrite list_elem_of_In, filter_In, <- list_elem_of_In.
    intros [Hin _]. by apply Fl. }
  destruct ok; cbn [negb]; intros [= <- <-].
  - left. destruct D as [D|[? _]]; [|done]. split; [by eapply placed_place|change (h_initialized (health j2) = true); by rewrite H2|exact D|by apply Ff].
  - destruct D as [D|[_ D]].
    + left. split; [by eapply placed_place|change (h_initialized (health j2) = true); by rewrite H2|exact D|by apply Ff].
    + right. split; [done|]. split; [by eapply placed_place|change (h_initialized (health j2) = true); by rewrite H2|by rewrite <- R|done].
Qed.
End Compaction.

(** ** Lemmas: replay *)

Section ReplayLog.
Context `{Process} {W : Type}.
Context (apply : player_snapshot → W → option player_save_apply_result * W).
(** The frames the journal held before the replay. *)
Context (all : list journal_frame).

(** [apply] with a log of its calls and their answers. *)
Definition call_log : Type := list (player_snapshot * option player_save_apply_result).
Definition logged (s : player_snapshot) (w : W * call_log)
  : option player_save_apply_result * (W * call_log) :=
  let '(a, w') := apply s w.1 in (a, (w', w.2 ++ [(s, a)])).

(** A call that succeeded. *)
Definition applied_in (log : call_log) (s : player_snapshot) (a : player_save_apply_result) : Prop :=
  (s, Some a) ∈ log ∧ succeeded (outcome a) = true.

(** An application that proves a death was carried out: not one the database found stale, and
    durable from the death's revision on. *)
Definition disposes (s : player_snapshot) (a : player_save_apply_result) : Prop :=
  outcome a ≠ stale_revision ∧ snapshot_revision s <= durable_revision a.

(** What releases a frame of the journal that held [all].  One that is no death: an application of
    a snapshot of its character that is durable from the frame's revision on.  A death: an
    application of a death of its character and revision that proves it was carried out; or one of
    a snapshot that is no death, of a frame of the same character, revision, components and
    payload checksum, whose duplicate the death was taken for. *)
Definition released (log : call_log) (f : journal_frame) : Prop :=
  ∃ s a, applied_in log s a ∧ snapshot_pid s = snapshot_pid (f_snapshot f)
    ∧ (¬ is_Some (death (f_snapshot f)) → snapshot_revision (f_snapshot f) <= durable_revision a)
    ∧ (is_Some (death (f_snapshot f)) → snapshot_revision s = snapshot_revision (f_snapshot f)
       ∧ (is_Some (death s) ∧ disposes s a
          ∨ ¬ is_Some (death s)
            ∧ ∃ g, g ∈ all ∧ f_snapshot g = s ∧ frame_identity g = frame_identity f)).

Lemma released_app log more f : released log f → released (log ++ more) f.
Proof.
  intros (s & a & [E S] & R). exists s, a. split; [|done]. split; [|done]. apply elem_of_app. by left.
Qed.

(** A frame the loop went past: applied, and if it is a death, proved. *)
Definition passed (log : call_log) (f : journal_frame) : Prop :=
  ∃ g a, g ∈ all ∧ frame_identity g = frame_identity f ∧ applied_in log (f_snapshot g) a
    ∧ (is_Some (death (f_snapshot g)) → disposes (f_snapshot g) a).

(** The state of the loop: what the identities and the acknowledged revisions rest on. *)
Definition identities_ok (log : call_log) (identities : gset (Z * Z * Z * Z)) : Prop :=
  ∀ f, frame_identity f ∈ identities → passed log f.
Definition acknowledged_ok (log : call_log) (acknowledged : gmap Z Z) : Prop :=
  ∀ pid revision, acknowledged !! pid = Some revision → revision = 0 ∨
    ∃ s a, applied_in log s a ∧ snapshot_pid s = pid ∧ durable_revision a = revision.

Lemma applied_in_app log more s a : applied_in log s a → applied_in (log ++ more) s a.
Proof. intros [E S]. split; [|done]. apply elem_of_app. by left. Qed.

Lemma passed_app log more f : passed log f → passed (log ++ more) f.
Proof.
  intros (g & a & I & F & A & D). exists g, a. split_and!; [done|done|by apply applied_in_app|done].
Qed.

Lemma passed_released log f : passed log f → is_Some (death (f_snapshot f)) → released log f.
Proof.
  intros (g & a & I & F & A & D) Sd. exists (f_snapshot g), a. assert (F' := F).
  unfold frame_identity in F'. injection F' as F1 F2 _ _. split_and!; [done|done|by intros []|].
  intros _. split; [done|]. destruct (decide (is_Some (death (f_snapshot g)))) as [Sg|Ng];
    [left; auto|right; split; [done|by exists g]].
Qed.

Lemma identities_ok_step log ids f a :
  identities_ok log ids → f ∈ all → succeeded (outcome a) = true →
  (is_Some (death (f_snapshot f)) → disposes (f_snapshot f) a) →
  identities_ok (log ++ [(f_snapshot f, Some a)]) ({[ frame_identity f ]} ∪ ids).
Proof.
  intros I Fi S D g E. apply elem_of_union in E as [E|E].
  - apply elem_of_singleton in E. exists f, a. split_and!; [done..| |done]. split; [|done].
    apply elem_of_app. right. by apply list_elem_of_singleton.
  - apply passed_app, I, E.
Qed.

Lemma acknowledged_ok_step log ack s a :
  acknowledged_ok log ack → succeeded (outcome a) = true →
  acknowledged_ok (log ++ [(s, Some a)])
    (<[snapshot_pid s := Z.max (default 0 (ack !! snapshot_pid s)) (durable_revision a)]> ack).
Proof.
  intros I S pid v E. rewrite lookup_insert in E. case_decide as P.
  - injection E as <-. subst pid.
    destruct (Z.max_spec (default 0 (ack !! snapshot_pid s)) (durable_revision a)) as [[_ ->]|[_ ->]].
    + right. exists s, a. split; [|done]. split; [|done].
      apply elem_of_app. right. by apply list_elem_of_singleton.
    + destruct (ack !! snapshot_pid s) as [v|] eqn:K; [|by left].
      destruct (I _ _ K) as [->|(t & b & A & Q)]; [by left|right].
      exists t, b. split; [by apply applied_in_app|done].
  - destruct (I _ _ E) as [->|(t & b & A & Q)]; [by left|right].
    exists t, b. split; [by apply applied_in_app|done].
Qed.

(** A checkpoint for a durable revision releases what it drops. *)
Lemma retained_released log s a v f :
  applied_in log s a → v <= durable_revision a →
  (is_Some (death (f_snapshot f)) → snapshot_pid (f_snapshot f) = snapshot_pid s →
   snapshot_revision (f_snapshot f) = v → released log f) →
  retained (snapshot_pid s) v f = false → released log f.
Proof.
  intros A V D R. unfold retained in R. bool_prop.
  destruct (decide (is_Some (death (f_snapshot f)))) as [Sd|Nd].
  - apply D; [done..|]. rewrite bool_decide_eq_true_2 in * by done. cbn in *. bool_prop. done.
  - exists s, a. split; [done|]. split; [congruence|]. split; [intros _; lia|done].
Qed.

Definition live_in (log : call_log) (live live' : list journal_frame) : Prop :=
  live' `sublist_of` live ∧ ∀ f, f ∈ live → f ∈ live' ∨ released log f.

Lemma live_in_filter log live p :
  (∀ f, f ∈ live → p f = false → released log f) → live_in log live (List.filter p live).
Proof.
  intros R. split.
  - clear R. induction live as [|f live IH]; [done|]. cbn. destruct (p f); by constructor.
  - intros f E. destruct (p f) eqn:Pf; [left|right; by apply R].
    rewrite list_elem_of_In, filter_In, <- list_elem_of_In. done.
Qed.

Lemma live_in_refl log live : live_in log live live.
Proof. split; [done|]. auto. Qed.

Lemma live_in_trans log more a b c : live_in log a b → live_in (log ++ more) b c → live_in (log ++ more) a c.
Proof.
  intros [S1 R1] [S2 R2]. split; [by etransitivity|]. intros f E.
  destruct (R1 f E) as [E'|R']; [by apply R2|right; by apply released_app].
Qed.

(** One checkpoint, whatever becomes of it. *)
Lemma checkpoint_live r now pid v j live result j' log :
  holds j live →
  (∀ f, f ∈ live → retained pid v f = false → released log f) →
  player_save_journal_checkpoint r now pid v j = (result, j') →
  ∃ live', holds j' live' ∧ live_in log live live'.
Proof.
  intros Hj R C. destruct (checkpoint_effect _ _ _ _ _ _ _ _ Hj C) as [H'|[_ H']].
  - eexists. split; [exact H'|]. by apply live_in_filter.
  - eexists. split; [exact H'|]. apply live_in_refl.
Qed.

Lemma release_death_live r now s a j live result j' log :
  holds j live → applied_in log s a →
  release_death r now s a j = (result, j') →
  (∃ live', holds j' live' ∧ live_in log live live')
  ∧ (is_ok result = true → is_Some (death s) → disposes s a).
Proof.
  intros Hj A. unfold release_death.
  assert (holds j live → ∃ live', holds j live' ∧ live_in log live live') as Same.
  { intros _. exists live. split; [done|apply live_in_refl]. }
  case_bool_decide as Sd; [|intros [= <- <-]; split; [by apply Same|done]].
  destruct (_ || _) eqn:G; [intros [= <- <-]; split; [by apply Same|done]|]. bool_prop.
  destruct (player_save_journal_checkpoint _ _ _ _ _) as [res j1] eqn:C.
  apply (checkpoint_live _ _ _ _ _ live _ _ log) in C as (live' & H' & L); [|done|].
  - case_bool_decide; intros [= <- <-]; split; [by exists live'|done|by exists live'|done].
  - intros f _ R. eapply retained_released; [exact A| |intros Df Pf Rf|exact R]; [done|].
    exists s, a. split_and!; [done|done|by intros []|]. intros _. split; [done|]. by left.
Qed.

(** What a part of the loop, from a journal that holds [live], comes to. *)
Definition replayed (log : call_log) (live frames : list journal_frame)
    (stop : res journal_result (gmap Z Z)) (log' : call_log) (j' : journal) : Prop :=
  ∃ more live', log' = log ++ more ∧ holds j' live' ∧ live_in log' live live'
    ∧ ∀ ack', stop = Ok ack' → acknowledged_ok log' ack'
        ∧ ∀ f, f ∈ frames → passed log' f.

Lemma replayed_stop log live frames e more live' j' :
  holds j' live' → live_in (log ++ more) live live' →
  replayed log live frames (Err e) (log ++ more) j'.
Proof. intros Hj L. by exists more, live'. Qed.

Lemma replay_loop_live r n frames ids ack w log j stop w' log' j' live :
  holds j live → frames ⊆ all → identities_ok log ids → acknowledged_ok log ack →
  replay_loop logged r n frames ids ack (w, log) j = (stop, (w', log'), j') →
  replayed log live frames stop log' j'.
Proof.
  revert n ids ack w log j live.
  induction frames as [|f frames IH]; intros n ids ack w log j live Hj All Ii Ia E; cbn [replay_loop] in E.
  { injection E as <- <- <- <-. exists [], live. rewrite app_nil_r.
    split_and!; [done..|apply live_in_refl|]. intros ack' [= <-]. split; [done|]. set_solver. }
  assert (f ∈ all) as Fa by (apply All; left).
  assert (frames ⊆ all) as All' by (intros g G; apply All; by right).
  assert (∀ j1, holds j1 live → replayed log live (f :: frames) (Err replay_blocked) log j1) as Stop0.
  { intros j1 H1. rewrite <- (app_nil_r log) at 2. eapply replayed_stop; [done|apply live_in_refl]. }
  destruct (r_memory r n); cbn [negb] in E.
  2: { injection E as <- <- <- <-. apply Stop0. by destruct Hj. }
  case_bool_decide as Id.
  { eapply (IH _ _ _ _ log _ live) in E as (more & live' & L & H' & Lv & K); [|by destruct Hj|done..].
    exists more, live'. split_and!; [done..|]. intros ack' Ok. destruct (K ack' Ok) as [Ka Kf].
    split; [done|]. intros g [->|G]%elem_of_cons; [|by apply Kf].
    rewrite L. by apply passed_app, Ii. }
  unfold logged in E at 1. cbn [fst snd] in E. destruct (apply (f_snapshot f) w) as [answer w1].
  destruct answer as [a|].
  2: { injection E as <- <- <- <-. eapply replayed_stop; [done|apply live_in_refl]. }
  destruct (succeeded (outcome a)) eqn:Su; cbn [negb] in E.
  2: { injection E as <- <- <- <-. eapply replayed_stop; [by destruct Hj|apply live_in_refl]. }
  assert (applied_in (log ++ [(f_snapshot f, Some a)]) (f_snapshot f) a) as A.
  { split; [|done]. apply elem_of_app. right. by apply list_elem_of_singleton. }
  destruct (release_death _ _ _ _ _) as [rel j1] eqn:R.
  eapply release_death_live in R as ((live1 & H1 & L1) & D); [|exact Hj|exact A].
  destruct rel as [u|e].
  2: { injection E as <- <- <- <-. by eapply replayed_stop. }
  specialize (D eq_refl). clear u.
  destruct (r_ack_memory r n); cbn [negb] in E.
  2: { injection E as <- <- <- <-. eapply replayed_stop; [by destruct H1|exact L1]. }
  eapply (IH _ _ _ _ _ _ live1) in E as (more & live' & L & H' & Lv & K);
    [|by destruct H1|done|by apply identities_ok_step; auto|by apply acknowledged_ok_step].
  subst log'. rewrite <- (assoc_L (++)) in *. eexists _, live'.
  split; [reflexivity|]. split; [done|]. split.
  { rewrite (assoc_L (++)) in *. by eapply live_in_trans. }
  intros ack' Ok. destruct (K ack' Ok) as [Ka Kf]. split; [done|].
  intros g [->|G]%elem_of_cons; [|by apply Kf].
  exists f, a. split_and!; [done|done| |by apply D]. rewrite (assoc_L (++)). by apply applied_in_app.
Qed.

Lemma final_checkpoints_live r l j live result j' log :
  holds j live →
  (∀ pid v, (pid, v) ∈ l → v = 0 ∨
     ∃ s a, applied_in log s a ∧ snapshot_pid s = pid ∧ durable_revision a = v) →
  (∀ f, f ∈ live → passed log f) →
  final_checkpoints r l j = (result, j') → ∃ live', holds j' live' ∧ live_in log live live'.
Proof.
  intros Hj A D. revert j live Hj D.
  induction l as [|[pid v] l IH]; intros j live Hj D E; cbn [final_checkpoints] in E.
  { injection E as <- <-. exists live. split; [done|apply live_in_refl]. }
  assert (∀ pid v, (pid, v) ∈ l → v = 0 ∨
     ∃ s a, applied_in log s a ∧ snapshot_pid s = pid ∧ durable_revision a = v) as A'
    by (intros q u Q; apply A; by right).
  destruct (nz v) eqn:N; [|by eapply (IH A')].
  destruct (player_save_journal_checkpoint _ _ _ _ _) as [res j1] eqn:C.
  destruct (A pid v ltac:(left)) as [->|(s & a & Ap & <- & Dv)]; [done|].
  apply (checkpoint_live _ _ _ _ _ live _ _ log) in C as (live1 & H1 & L1); [|done|].
  2: { intros f F R. eapply retained_released; [exact Ap| |intros Sd _ _|exact R]; [lia|].
       apply passed_released; [by apply D|done]. }
  case_bool_decide; [|injection E as <- <-; by exists live1].
  destruct (IH A' j1 live1 H1) as (live2 & H2 & L2); [|exact E|].
  { intros f F. apply D. destruct L1 as [S _]. by eapply sublist_subseteq. }
  exists live2. split; [done|]. rewrite <- (app_nil_r log). eapply live_in_trans; [exact L1|].
  by rewrite app_nil_r.
Qed.

Lemma replay_live r w log j live result w' log' j' :
  holds j live → live ⊆ all →
  player_save_journal_replay logged r (w, log) j = (result, (w', log'), j') →
  ∃ live' more, log' = log ++ more ∧ holds j' live' ∧ live_in log' live live'.
Proof.
  intros Hj All. unfold player_save_journal_replay. rewrite (holds_initialized _ _ Hj). cbn [negb].
  destruct (scan_journal _ _) as [[res frames] j1] eqn:S.
  destruct (scan_holds _ _ _ _ _ _ Hj S) as [H1 F].
  case_bool_decide as E; cbn [negb].
  2: { intros [= <- <- <- <-]. exists live, []. rewrite app_nil_r. split_and!; [done..|apply live_in_refl]. }
  rewrite (F E). destruct (replay_loop _ _ _ _ _ _ _ _) as [[stop [w2 log2]] j2] eqn:L.
  eapply replay_loop_live in L as (more & live2 & -> & H2 & L2 & K); [|exact H1| |done|done].
  2: { intros f I. apply All. by rewrite merge_sort_Permutation in I. }
  destruct stop as [ack|e]; [|intros [= <- <- <- <-]; by exists live2, more].
  destruct (final_checkpoints _ _ _) as [res3 j3] eqn:C. intros [= <- <- <- <-].
  destruct (K ack eq_refl) as [Ka Kf].
  eapply (final_checkpoints_live _ _ _ live2 _ _ (log ++ more)) in C as (live3 & H3 & L3);
    [|exact H2| |].
  - exists live3, more. split_and!; [done..|]. rewrite <- (app_nil_r (log ++ more)).
    eapply live_in_trans; [exact L2|by rewrite app_nil_r].
  - intros pid v I. apply Ka. unfold in_order in I. rewrite merge_sort_Permutation in I.
    by apply elem_of_map_to_list.
  - intros f I. apply Kf. rewrite merge_sort_Permutation. destruct L2 as [Sub _].
    by eapply sublist_subseteq.
Qed.

(** *** The order of the calls *)

Lemma replay_loop_calls r n frames ids ack w log j stop w' log' j' :
  replay_loop logged r n frames ids ack (w, log) j = (stop, (w', log'), j') →
  ∃ called, log'.*1 = log.*1 ++ (f_snapshot <$> called) ∧ called `sublist_of` frames
    ∧ NoDup (frame_identity <$> called) ∧ (∀ f, f ∈ called → frame_identity f ∉ ids)
    ∧ (is_ok stop = true → ∀ f, f ∈ frames →
         frame_identity f ∈ ids ∨ frame_identity f ∈ (frame_identity <$> called)).
Proof.
  revert n ids ack w log j. induction frames as [|f frames IH]; intros n ids ack w log j E; cbn [replay_loop] in E.
  { injection E as <- <- <- <-. exists []. rewrite app_nil_r. split_and!; [done..|constructor|set_solver|set_solver]. }
  destruct (r_memory r n); cbn [negb] in E.
  2: { injection E as <- <- <- <-. exists []. rewrite app_nil_r.
       split_and!; [done|apply sublist_nil_l|constructor|set_solver|done]. }
  case_bool_decide as Id.
  { apply IH in E as (called & L & S & N & D & K). exists called.
    split_and!; [done|by constructor|done..|]. intros Ok g [->|G]%elem_of_cons; [by left|by apply K]. }
  unfold logged in E at 1. cbn [fst snd] in E. destruct (apply (f_snapshot f) w) as [answer w1].
  assert (∀ e, ∃ called, (log ++ [(f_snapshot f, answer)]).*1 = log.*1 ++ (f_snapshot <$> called)
    ∧ called `sublist_of` f :: frames
    ∧ NoDup (frame_identity <$> called) ∧ (∀ g, g ∈ called → frame_identity g ∉ ids)
    ∧ (is_ok (Err e : res journal_result (gmap Z Z)) = true → ∀ g, g ∈ f :: frames →
         frame_identity g ∈ ids ∨ frame_identity g ∈ (frame_identity <$> called))) as Last.
  { intros e. exists [f]. rewrite fmap_app. split_and!; [done| |apply NoDup_singleton| |done].
    - apply sublist_skip, sublist_nil_l.
    - intros g ->%list_elem_of_singleton. done. }
  destruct answer as [a|]; [|injection E as <- <- <- <-; apply Last].
  destruct (succeeded (outcome a)); cbn [negb] in E; [|injection E as <- <- <- <-; apply Last].
  destruct (release_death _ _ _ _ _) as [rel j1]. destruct rel as [_|e]; [|injection E as <- <- <- <-; apply Last].
  destruct (r_ack_memory r n); cbn [negb] in E; [|injection E as <- <- <- <-; apply Last].
  apply IH in E as (called & L & S & N & D & K). exists (f :: called).
  rewrite L, fmap_app. split_and!.
  - cbn. by rewrite <- (assoc_L (++)).
  - by constructor.
  - cbn. constructor; [|done]. intros (g & Eg & G)%list_elem_of_fmap. apply (D g G). rewrite <- Eg. set_solver.
  - intros g [->|G]%elem_of_cons; [done|]. specialize (D g G). set_solver.
  - intros Ok g [->|G]%elem_of_cons; [right; left|]. destruct (K Ok g G) as [I|I]; [|right; by right].
    apply elem_of_union in I as [->%elem_of_singleton|I]; [right; left|by left].
Qed.

Lemma release_death_error r now s a j result j' :
  release_death r now s a j = (result, j') → result ≠ Err journal_ok.
Proof.
  unfold release_death. repeat case_match; by intros [= <- <-].
Qed.

Lemma replay_loop_error r n frames ids ack w j stop w' j' :
  replay_loop logged r n frames ids ack w j = (stop, w', j') → stop ≠ Err journal_ok.
Proof.
  revert n ids ack w j. induction frames as [|f frames IH]; intros n ids ack w j E; cbn [replay_loop] in E.
  { by injection E as <- _ _. }
  destruct (r_memory r n); cbn [negb] in E; [|by injection E as <- _ _].
  case_bool_decide; [by eapply IH|].
  destruct (logged (f_snapshot f) w) as [[a|] w1]; [|by injection E as <- _ _].
  destruct (succeeded (outcome a)); cbn [negb] in E; [|by injection E as <- _ _].
  destruct (release_death _ _ _ _ _) as [rel j1] eqn:R. apply release_death_error in R.
  destruct rel as [u|e]; [|injection E as <- _ _; congruence].
  destruct (r_ack_memory r n); cbn [negb] in E; [by eapply IH|by injection E as <- _ _].
Qed.

Lemma replay_calls r w j live result w' log j' :
  holds j live → player_save_journal_replay logged r (w, []) j = (result, (w', log), j') →
  ∃ called, log.*1 = f_snapshot <$> called ∧ called `sublist_of` merge_sort frame_le live
    ∧ NoDup (frame_identity <$> called)
    ∧ (result = journal_ok → ∀ f, f ∈ live → frame_identity f ∈ (frame_identity <$> called)).
Proof.
  intros Hj. unfold player_save_journal_replay. rewrite (holds_initialized _ _ Hj). cbn [negb].
  destruct (scan_journal _ _) as [[res frames] j1] eqn:S.
  destruct (scan_holds _ _ _ _ _ _ Hj S) as [H1 F].
  case_bool_decide as E; cbn [negb].
  2: { intros [= <- <- <- <-]. exists []. split_and!; [done|apply sublist_nil_l|constructor|done]. }
  rewrite (F E). destruct (replay_loop _ _ _ _ _ _ _ _) as [[stop [w2 log2]] j2] eqn:L.
  pose proof (replay_loop_error _ _ _ _ _ _ _ _ _ _ L) as NE.
  apply replay_loop_calls in L as (called & Lg & Sub & N & _ & K).
  assert (∀ res3, (is_ok stop = true ∨ res3 ≠ journal_ok) →
    ∃ called, log2.*1 = f_snapshot <$> called ∧ called `sublist_of` merge_sort frame_le live
    ∧ NoDup (frame_identity <$> called)
    ∧ (res3 = journal_ok → ∀ f, f ∈ live → frame_identity f ∈ (frame_identity <$> called))) as Done.
  { intros res3 O. exists called. split_and!; [done..|]. intros -> f I. destruct O as [O|]; [|done].
    destruct (K O f) as [X|X]; [by rewrite merge_sort_Permutation|set_solver|done]. }
  destruct stop as [ack|e].
  - destruct (final_checkpoints _ _ _) as [res3 j3]. intros [= <- <- <- <-]. apply Done. by left.
  - intros [= <- <- <- <-]. apply Done. right. congruence.
Qed.
End ReplayLog.

(** ** Lemmas: opening *)

Lemma set_asides_bound cs :
  Forall (λ c, chunk_bytes c ≠ []) cs → (set_asides cs <= length (concat (map chunk_bytes cs)))%nat.
Proof.
  unfold set_asides. induction 1 as [|c cs N F IH]; [done|]. cbn [map concat List.filter].
  rewrite length_app. destruct c as [f|bs]; cbn in *; [lia|]. destruct bs; [done|]. cbn. lia.
Qed.

Lemma no_asides cs :
  set_asides cs = 0%nat →
  concat (map chunk_bytes cs) = frames_bytes (kept_of cs) ∧ aside_of cs = [].
Proof.
  unfold set_asides, frames_bytes, aside_of.
  induction cs as [|[f|bs] cs IH]; cbn; [done| |done]. intros E. destruct (IH E) as [-> ->]. done.
Qed.

Section Init.
Context `{Process}.

Lemma open_directory_data r path d ok d' :
  open_directory r path d = (ok, d') → same_data d d'.
Proof.
  unfold open_directory. intros E.
  assert (∀ d0, same_data d d0 →
    match d0 !! path with
    | Some nd =>
        if i_open_directory r && bool_decide (node_type nd = directory)
           && i_fstat_directory r && safe_owned_mode nd directory_mode directory
           && i_fchmod_directory r
        then (Some tt, chmod directory_mode path d0) else (None, d0)
    | None => (None, d0)
    end = (ok, d') → same_data d d') as Opened.
  { intros d0 S E0. destruct (d0 !! path); [|by injection E0 as <- <-].
    destruct (_ && _); injection E0 as <- <-; [|done]. etransitivity; [exact S|apply chmod_data]. }
  destruct (d !! path) as [nd|] eqn:P.
  - destruct (i_lstat r); [by eapply Opened|by injection E as <- <-].
  - destruct (i_mkdir r); [|by injection E as <- <-]. eapply Opened; [|exact E].
    intros p. unfold data_at. rewrite lookup_insert. case_decide; subst; [|done]. by rewrite P.
Qed.

Lemma read_size r j bytes j' :
  read_journal_file r j = (Ok bytes, j') → bytes = [] ∨ vsize bytes <= journal_quota j.
Proof.
  unfold read_journal_file. destruct (open_safe_file _ _ _ _ _) as [failed d].
  destruct failed as [[]|]; [by intros [= <- <-]; left|done..|].
  destruct (fstat_size _ _ _) as [st_size|] eqn:S; [|done].
  destruct (st_size <? 0); [done|]. destruct (_ <? st_size) eqn:Q; [done|].
  destruct (negb _); [done|]. destruct (_ <? _)%nat; [done|]. intros [= <- <-]. right.
  unfold fstat_size in S. destruct (sr_fstat r); [|done]. injection S as <-. by apply Z.ltb_ge.
Qed.

Lemma scan_never_corrupt r j result frames j' :
  scan_journal r j = (result, frames, j') → result ≠ corrupt_data.
Proof.
  unfold scan_journal. destruct (read_journal_file r j) as [[bytes|e] j0] eqn:R.
  - clear R. destruct (scan_loop _ _ _ _ _ _ _) as [[[[offset fs] ok]|] j2];
      intros [= <- <- <-]; [|done]. destruct ok; cbn [negb]; [|done]. by case_match.
  - intros [= <- <- <-]. revert R. unfold read_journal_file.
    destruct (open_safe_file _ _ _ _ _) as [failed d]. repeat case_match; by intros [= <- <-].
Qed.

(** After the scan of a journal just opened, its compaction leaves the frames alone. *)
Lemma opened_holds r j frames j1 rc ok j2 :
  placed j → h_initialized (health j) = true → invalid_records j = 0 →
  journal_quota j <= PLAYER_SAVE_JOURNAL_MAX_BYTES →
  scan_journal r j = (journal_ok, frames, j1) →
  (if 0 <? wrap 64 (invalid_records j1) then write_compacted rc frames j1 else (true, j1)) = (ok, j2) →
  ok = true →
  ∃ cs, records j = concat (map chunk_bytes cs) ∧ frames = kept_of cs ∧ holds j2 (kept_of cs)
    ∧ quarantined j2 = quarantined j ++ aside_of cs ∧ place j2 = place j.
Proof.
  intros P I Z0 Qu S E ->. pose proof S as S'.
  apply scan_journal_scanned in S' as [Q K]. destruct (K eq_refl) as (cs & R & F & So & A & N & C).
  exists cs. split; [done|]. split; [done|].
  assert (Forall readable_frame (kept_of cs)) as Rd by (eapply Forall_impl; [exact So|]; by intros f []).
  rewrite Z0, Z.add_0_l in C.
  assert (wrap 64 (Z.of_nat (set_asides cs)) = Z.of_nat (set_asides cs)) as Wr.
  { apply wrap_small. pose proof (set_asides_bound cs N) as B. rewrite <- R in B.
    unfold scan_journal in S. destruct (read_journal_file r j) as [[bytes|e] j0] eqn:Rj.
    - pose proof (read_size _ _ _ _ Rj) as Sz. apply read_journal_effect in Rj as (_ & _ & _ & _ & Rb).
      rewrite <- (Rb bytes eq_refl) in B. unfold PLAYER_SAVE_JOURNAL_MAX_BYTES, fits in *.
      destruct Sz as [->|Sz]; [cbn in B; lia|unfold vsize in Sz; lia].
    - apply read_journal_effect in Rj as (_ & _ & _ & Ne & _). simplify_eq. }
  rewrite C, Wr in E. destruct (placed_apart j P) as (Ap & _ & _). pose proof (quarantines_records j j1 Q Ap) as Rc.
  destruct (Z.ltb_spec 0 (Z.of_nat (set_asides cs))) as [L|L].
  - destruct (write_compacted_effect _ _ _ _ _ (placed_place _ _ (proj1 Q) P) E) as (P2 & H2 & Q2 & D).
    destruct D as [D|[? _]]; [|done]. rewrite F in D.
    split; [|split; [by rewrite Q2|by rewrite P2; apply Q]].
    split; [by eapply placed_place; [|exact P]; rewrite P2; apply Q| |done|done].
    rewrite H2. destruct Q as (_ & -> & _). done.
  - injection E as <-. destruct (no_asides cs) as [Fb Ab]; [lia|].
    split; [|split; [done|apply Q]].
    split; [by eapply placed_place; [apply Q|]| |by rewrite Rc, R|done].
    destruct Q as (_ & -> & _). done.
Qed.

Definition file_in (directory name : string) : string := (directory +:+ "/" +:+ name)%string.

End Init.

#[export] Instance frame_le_total : Total frame_le.
Proof.
  intros a b. unfold frame_le, frame_less.
  destruct (frame_key a) as [[ap ar] ai], (frame_key b) as [[bp br] bi].
  destruct (Z.eqb_spec ap bp) as [->|]; [rewrite Z.eqb_refl|rewrite (proj2 (Z.eqb_neq _ _)) by auto];
    cbn [negb]; [|rewrite !Z.ltb_ge; lia].
  destruct (Z.eqb_spec ar br) as [->|]; [rewrite Z.eqb_refl|rewrite (proj2 (Z.eqb_neq _ _)) by auto];
    cbn [negb]; rewrite !Z.ltb_ge; lia.
Qed.

(** The order of the replay: by character, then revision, then record. *)
Lemma frame_le_spec a b :
  frame_le a b ↔
  let '(ap, ar, ai) := frame_key a in let '(bp, br, bi) := frame_key b in
  ap < bp ∨ ap = bp ∧ (ar < br ∨ ar = br ∧ ai <= bi).
Proof.
  unfold frame_le, frame_less. destruct (frame_key a) as [[ap ar] ai], (frame_key b) as [[bp br] bi].
  destruct (Z.eqb_spec bp ap) as [->|]; cbn [negb]; [|rewrite Z.ltb_ge; lia].
  destruct (Z.eqb_spec br ar) as [->|]; cbn [negb]; rewrite Z.ltb_ge; lia.
Qed.

#[export] Instance frame_le_trans : Transitive frame_le.
Proof.
  intros a b c. rewrite !frame_le_spec.
  destruct (frame_key a) as [[ap ar] ai], (frame_key b) as [[bp br] bi], (frame_key c) as [[cp cr] ci]. lia.
Qed.

Lemma frame_retained_spec pid revision f :
  retained pid revision f = false ↔
  snapshot_pid (f_snapshot f) = pid ∧ snapshot_revision (f_snapshot f) <= revision
  ∧ (is_Some (death (f_snapshot f)) → snapshot_revision (f_snapshot f) = revision).
Proof.
  unfold retained. rewrite !orb_false_iff, andb_false_iff, !negb_false_iff, Z.ltb_ge, !Z.eqb_eq.
  rewrite bool_decide_eq_false. destruct (decide (is_Some (death (f_snapshot f)))); naive_solver.
Qed.

(** ** Theorems *)

Section Theorems.
Context `{Process}.

(** Opening a journal accounts for every byte its file held.  When [init] succeeds,
    the old bytes are a sequence of frames and of stretches that are not frames; the
    journal now holds exactly the frames, in their order, each one readable wherever it
    stands, and the quarantine has gained exactly the other stretches. *)
Theorem save_journal_init_accounts r now directory quota j j' :
  player_save_journal_init r now directory quota j = (true, j') →
  ∃ cs, data_at (files j) (file_in directory JOURNAL_FILE_NAME) = concat (map chunk_bytes cs)
    ∧ holds j' (kept_of cs)
    ∧ quarantined j' = data_at (files j) (file_in directory JOURNAL_QUARANTINE_NAME) ++ aside_of cs
    ∧ journal_directory j' = directory ∧ journal_quota j' = quota.
Proof.
  unfold player_save_journal_init. destruct (_ || _) eqn:G; [done|]. bool_prop.
  destruct (h_initialized (health j)); [done|].
  destruct (open_directory _ _ _) as [opened d] eqn:O. apply open_directory_data in O.
  destruct opened; [|done].
  destruct (open_safe_file _ _ _ _ _) as [failed d2] eqn:F. apply open_safe_file_data in F as [D2 _].
  destruct failed; [done|]. destruct (sync_directory _); cbn [negb]; [|done].
  match type of D2 with same_data ?d1 _ => set (d1' := d1) in D2 end.
  match goal with |- context [scan_journal (i_scan r) ?x] => set (j3 := x) end.
  assert (placed j3) as P3 by done. destruct (placed_apart j3 P3) as (_ & A2 & A3).
  assert (∀ p, p ≠ temp_path j3 → data_at (files j3) p = data_at (files j) p) as D3.
  { intros p N. change (files j3) with d2. rewrite D2. unfold d1'.
    destruct (i_unlink r); [|apply O]. rewrite data_at_delete, decide_False by exact N. apply O. }
  destruct (scan_journal (i_scan r) j3) as [[result frames] j4] eqn:S.
  pose proof (scan_never_corrupt _ _ _ _ _ S) as NC.
  rewrite (bool_decide_eq_false_2 _ NC), orb_false_r. case_bool_decide as E; cbn [negb]; [|done].
  rewrite E in S. clear E NC.
  match goal with |- context [let '(_, _) := ?t in _] => destruct t as [compacted j5] eqn:C end.
  destruct compacted; cbn [negb]; [|done].
  assert (journal_quota j3 <= PLAYER_SAVE_JOURNAL_MAX_BYTES) as Q3 by assumption.
  destruct (opened_holds _ _ _ _ _ _ _ P3 eq_refl eq_refl Q3 S C eq_refl) as (cs & R & F & Hd & Qu & P5).
  assert (∀ j6, place j6 = place j5 → h_initialized (health j6) = h_initialized (health j5) →
    files j6 = files j5 → j6 = j' →
    ∃ cs, data_at (files j) (file_in directory JOURNAL_FILE_NAME) = concat (map chunk_bytes cs)
      ∧ holds j' (kept_of cs)
      ∧ quarantined j' = data_at (files j) (file_in directory JOURNAL_QUARANTINE_NAME) ++ aside_of cs
      ∧ journal_directory j' = directory ∧ journal_quota j' = quota) as Final.
  { intros j6 P6 I6 F6 <-. exists cs. destruct Hd as [Hp Hi Hr Hw].
    destruct (place_path _ _ P6) as (Pa & Pb & _). unfold records, quarantined in *.
    split_and!.
    - rewrite <- R. symmetry. apply D3. by apply not_eq_sym.
    - split; [by eapply placed_place|by rewrite I6|unfold records; by rewrite F6, Pa|done].
    - rewrite F6, Pb, Qu. f_equal. apply D3. by apply not_eq_sym.
    - rewrite P5 in P6. unfold place in P6. by injection P6.
    - rewrite P5 in P6. unfold place in P6. by injection P6. }
  destruct (fstat_size _ _ _); [destruct (_ <=? _)|]; intros [= E]; (eapply Final; [| | |exact E]; done).
Qed.


(** C6: What an append leaves.  Only on success is the frame of the snapshot in the
    journal for certain, behind all others; a failure leaves the journal as it was,
    except that a failed write may leave a beginning of the frame behind the others, and
    a failed sync all of it.  No other file changes and the quota is never passed. *)
Theorem save_journal_append r now s j fs result j' :
  holds j fs → player_snapshot_typed s → u64 now →
  player_save_journal_append r now s j = (result, j') →
  writes_only (journal_path j) j j'
  ∧ vsize (records j') <= Z.max (vsize (records j)) (journal_quota j)
  ∧ ((∃ f, f_snapshot f = s ∧ f_created_msec f = now ∧ holds j' (fs ++ [f])
           ∧ (result = journal_ok ∨ result = io_failure))
     ∨ result ≠ journal_ok ∧ holds j' fs
     ∨ result = io_failure ∧ ∃ torn, torn_frame torn ∧ records j' = frames_bytes fs ++ torn).
Proof.
  intros [P I R W] T N E. destruct (append_effect _ _ _ _ _ _ T N I E) as [Wo D].
  assert (∀ gs, records j' = frames_bytes gs → Forall readable_frame gs → holds j' gs) as Hold.
  { intros gs Rg Fg. split; [eapply placed_place; [apply Wo|done]| |done|done].
    destruct Wo as (_ & -> & _). done. }
  split; [exact Wo|]. destruct D as [[-> D]|(f & added & Wf & S & C & D & A & Q)].
  { split; [rewrite D; lia|]. right. left. split; [done|]. apply Hold; [by rewrite D|done]. }
  assert (added `prefix_of` f_bytes f) as Pre by (destruct result; cbn in A; first [done | rewrite A; done || apply prefix_nil]).
  split.
  { rewrite D. destruct (decide (added = [])) as [->|Ne]; [rewrite app_nil_r; lia|].
    specialize (Q Ne). apply prefix_length in Pre. unfold vsize in *.
    rewrite !length_app in *. lia. }
  destruct (decide (added = f_bytes f)) as [->|Nf].
  { left. exists f. split; [done|]. split; [done|]. split.
    - apply Hold; [rewrite D, R; unfold frames_bytes; by rewrite map_app, concat_app; cbn; rewrite app_nil_r|].
      apply Forall_app. split; [done|]. by constructor; [apply written_readable|].
    - destruct (written_readable f Wf) as [L _]. unfold JOURNAL_HEADER_SIZE in L.
      destruct result; auto; cbn in A; rewrite A in L; cbn in L; lia. }
  right. destruct (decide (added = [])) as [->|Ne].
  - left. rewrite app_nil_r in D. split; [by intros ->|]. apply Hold; [by rewrite D|done].
  - right. destruct result; try done. split; [done|]. exists added. rewrite <- R. split; [|done].
    destruct Pre as [more Pre]. exists f, more. split_and!; [done..|]. intros ->. by rewrite app_nil_r in Pre.
Qed.

(** C32: A checkpoint drops exactly the frames a durable revision covers — those of the
    character up to that revision, but a death only at its own — and is atomic: whatever
    call fails, the journal holds all the frames or exactly those that are left. *)
Theorem save_journal_checkpoint_exact r now pid revision j fs result j' :
  holds j fs → player_save_journal_checkpoint r now pid revision j = (result, j') →
  let left := filter (λ f, ¬ (snapshot_pid (f_snapshot f) = pid
                ∧ snapshot_revision (f_snapshot f) <= revision
                ∧ (is_Some (death (f_snapshot f)) → snapshot_revision (f_snapshot f) = revision))) fs in
  holds j' left ∨ result ≠ journal_ok ∧ holds j' fs.
Proof.
  intros Hj C. destruct (checkpoint_effect _ _ _ _ _ _ _ _ Hj C) as [H'|H']; [left|by right].
  replace (filter _ fs) with (List.filter (retained pid revision) fs); [done|].
  clear. induction fs as [|f fs IH]; [done|]. rewrite filter_cons. cbn [List.filter]. rewrite IH.
  destruct (retained pid revision f) eqn:R.
  - rewrite decide_True; [done|]. intros X. apply frame_retained_spec in X. congruence.
  - rewrite decide_False; [done|]. intros X. apply X. by apply frame_retained_spec.
Qed.

(** C4: The replay gives up a frame only against evidence.  Whatever the database answers
    and whatever call fails, the journal afterwards holds a part of its frames in their
    order, and each frame that is gone belongs to a character of whom the database accepted a
    snapshot.  For a frame that is no death that snapshot's answer is durable from the frame's
    revision on.  For a death it is a death of the very same revision that was applied or had
    been applied already, not one the database found stale, and its answer is durable from that
    revision on; the one exception is a snapshot that is no death but has the character, revision,
    components and payload checksum of the death, for which the replay takes it. *)
Theorem save_journal_replay_evidence {W} apply r (w : W) j fs result w' log j' :
  holds j fs → player_save_journal_replay (logged apply) r (w, []) j = (result, (w', log), j') →
  ∃ live, holds j' live ∧ live `sublist_of` fs ∧ ∀ f, f ∈ fs → f ∈ live ∨
    ∃ s a, (s, Some a) ∈ log ∧ outcome a ∈ [applied; already_applied; stale_revision]
      ∧ snapshot_pid s = snapshot_pid (f_snapshot f)
      ∧ if bool_decide (is_Some (death (f_snapshot f)))
        then snapshot_revision s = snapshot_revision (f_snapshot f)
          ∧ (is_Some (death s) ∧ outcome a ≠ stale_revision
               ∧ snapshot_revision s <= durable_revision a
             ∨ death s = None
               ∧ ∃ g, g ∈ fs ∧ f_snapshot g = s ∧ frame_identity g = frame_identity f)
        else snapshot_revision (f_snapshot f) <= durable_revision a.
Proof.
  intros Hj E.
  destruct (replay_live _ fs _ _ _ _ _ _ _ _ _ Hj (reflexivity _) E) as (live & more & -> & Hl & L & R).
  exists live. split_and!; [done..|]. intros f F. destruct (R f F) as [I|I]; [by left|right].
  destruct I as (s & a & [I S] & P & N & D). exists s, a.
  split_and!; [done| |done|].
  - unfold succeeded in S. destruct (outcome a); try done; set_solver.
  - case_bool_decide as Sd; [|auto]. destruct (D Sd) as [Rv [X|[Ns X]]]; split; try done; [by left|right].
    split; [by apply eq_None_not_Some|done].
Qed.

(** The replay calls the database in order and once per record.  The snapshots it was
    called with are those of distinct frames of the journal, by increasing character,
    revision and record; and when it succeeds every frame of the journal is one of them
    or a duplicate of one. *)
Theorem save_journal_replay_order {W} apply r (w : W) j fs result w' log j' :
  holds j fs → player_save_journal_replay (logged apply) r (w, []) j = (result, (w', log), j') →
  ∃ called, log.*1 = f_snapshot <$> called ∧ called ⊆ fs ∧ StronglySorted frame_le called
    ∧ NoDup (frame_identity <$> called)
    ∧ (result = journal_ok → ∀ f, f ∈ fs → frame_identity f ∈ (frame_identity <$> called)).
Proof.
  intros Hj E. destruct (replay_calls _ _ _ _ _ _ _ _ _ Hj E) as (called & L & S & N & K).
  exists called. split_and!; [done| | |done..].
  - intros f F. rewrite <- (merge_sort_Permutation frame_le fs). by eapply sublist_subseteq.
  - eapply StronglySorted_sublist; [exact S|]. apply StronglySorted_merge_sort; apply _.
Qed.

(** Appending does not count records, but reading does.  Once the journal holds more
    than 4096 frames no checkpoint and no replay succeeds any more, and none changes the
    journal: from then on it only grows. *)
Theorem save_journal_full_forever j fs :
  holds j fs → PLAYER_SAVE_JOURNAL_MAX_RECORDS < vsize fs →
  (∀ r now pid revision result j',
     player_save_journal_checkpoint r now pid revision j = (result, j') →
     result ≠ journal_ok ∧ holds j' fs)
  ∧ ∀ W (apply : player_snapshot → W → option player_save_apply_result * W) r w result w' j',
     player_save_journal_replay apply r w j = (result, w', j') →
     result ≠ journal_ok ∧ holds j' fs ∧ w' = w.
Proof.
  intros Hj M.
  assert (∀ r result frames j', scan_journal r j = (result, frames, j') →
            result ≠ journal_ok ∧ holds j' fs) as Scan.
  { intros r result frames j' S. destruct (scan_holds _ _ _ _ _ _ Hj S) as [H1 _].
    split; [|done]. eapply scan_journal_overflow; [apply Hj|apply Hj|exact M|exact S]. }
  split.
  - intros r now pid revision result j'. unfold player_save_journal_checkpoint.
    destruct (_ || _); [by intros [= <- <-]|]. rewrite (holds_initialized _ _ Hj). cbn [negb].
    destruct (scan_journal _ _) as [[res frames] j1] eqn:S. destruct (Scan _ _ _ _ S) as [N H1].
    rewrite bool_decide_eq_false_2 by done. intros [= <- <-]. split; [done|by destruct H1].
  - intros W apply r w result w' j'. unfold player_save_journal_replay.
    rewrite (holds_initialized _ _ Hj). cbn [negb].
    destruct (scan_journal _ _) as [[res frames] j1] eqn:S. destruct (Scan _ _ _ _ S) as [N H1].
    rewrite bool_decide_eq_false_2 by done. by intros [= <- <- <-].
Qed.
End Theorems.

(** ** A lost append *)

Definition sample_process : Process := {| geteuid := 1000; umask := 0x12 |}.
#[local] Existing Instance sample_process.

(** Replies of calls that all succeed. *)
Definition good_open : open_replies := OpenReplies None true true.
Definition good_io : list io_reply := [io_count (Z.to_nat 9000)].
Definition good_quarantine : quarantine_replies := QuarantineReplies good_open true good_io true.
Definition good_scan : scan_replies :=
  ScanReplies good_open true true good_io (λ _, true) (λ _, good_quarantine).
Definition good_sync : sync_replies := SyncReplies true true.
Definition good_compact : compact_replies :=
  CompactReplies true good_open (concat (repeat good_io 9)) true true true good_sync true.
Definition good_checkpoint : checkpoint_replies := CheckpointReplies good_scan true good_compact.
Definition good_append : append_replies := AppendReplies true good_open true good_io true.
Definition good_init : init_replies :=
  InitReplies true true true true true true good_open good_sync good_scan good_compact true.
(** A small character. *)
Definition small_snapshot : player_snapshot :=
  PlayerSnapshot 7 5 12 1 0 3001 65536 [] [] (replicate 5 0) (replicate 14 0) [] [] [] [] [] [] []
    [] [] [] [] [] true [] None.
Definition small_file : list byte := Eval vm_compute in
  match player_snapshot_encode small_snapshot with Ok bs => bs | Err _ => [] end.

Lemma small_snapshot_typed : player_snapshot_typed small_snapshot.
Proof.
  split; [repeat split; by vm_compute|].
  constructor; cbn; repeat constructor; cbn; unfold fits, sfits; try lia; done.
Qed.

(** The device takes a hundred bytes and then fails. *)
Definition torn_append : append_replies := AppendReplies true good_open true [io_count 100] true.

Definition sample_place (name : string) : string := file_in "/j" name.
Definition sample_journal (data : list byte) : journal :=
  Journal "/j" (sample_place JOURNAL_FILE_NAME) (sample_place JOURNAL_QUARANTINE_NAME)
    100000 0 0 {no_health with h_initialized := true}
    {[ sample_place JOURNAL_FILE_NAME := Node regular_file 1000 1 private_mode data ]}.

(** An append that fails can lose the next one.  The failed write leaves a beginning of
    a frame, which is not cut off again; the next append succeeds behind it, and the
    player may log out; but the torn header claims the bytes of the good frame, the
    checksum fails and the scan sets all of it aside, reporting success and no frame. *)
Theorem save_journal_torn_append_loses :
  ∃ j j1 j2 j3 s torn fine r,
    holds j [] ∧ player_snapshot_typed s
    ∧ player_save_journal_append torn 8000 s j = (io_failure, j1)
    ∧ player_save_journal_append fine 9000 s j1 = (journal_ok, j2)
    ∧ scan_journal r j2 = (journal_ok, [], j3)
    ∧ quarantined j3 = records j2.
Proof.
  assert (let o1 := player_save_journal_append torn_append 8000 small_snapshot (sample_journal []) in
          let o2 := player_save_journal_append good_append 9000 small_snapshot o1.2 in
          let o3 := scan_journal good_scan o2.2 in
          o1.1 = io_failure ∧ o2.1 = journal_ok ∧ o3.1 = (journal_ok, [])
          ∧ quarantined o3.2 = records o2.2) as R by by vm_compute.
  destruct (player_save_journal_append torn_append _ _ _) as [e1 j1] eqn:E1. cbn [fst snd] in R.
  destruct (player_save_journal_append good_append _ _ _) as [e2 j2] eqn:E2. cbn [fst snd] in R.
  destruct (scan_journal good_scan j2) as [e3 j3] eqn:E3. cbn [fst snd] in R.
  destruct R as (-> & -> & -> & Q).
  exists (sample_journal []), j1, j2, j3, small_snapshot, torn_append, good_append, good_scan.
  split; [by repeat split; constructor|]. split; [exact small_snapshot_typed|].
  split; [exact E1|]. split; [exact E2|]. split; [exact E3|exact Q].
Qed.

(** ** Witnesses *)

Definition sample_frame : journal_frame :=
  Frame (frame_bytes small_snapshot small_file 77 5000) small_snapshot 77 5000
    (payload_checksum small_file).

Lemma sample_frame_written : written_frame sample_frame.
Proof.
  split; [exists small_file; split; [by vm_compute|done]|exact small_snapshot_typed|by vm_compute..].
Qed.

Lemma sample_records data : records (sample_journal data) = data.
Proof. unfold records, data_at. cbn [journal_path files sample_journal]. by rewrite lookup_singleton_eq. Qed.



Lemma sample_holds fs : Forall written_frame fs → holds (sample_journal (frames_bytes fs)) fs.
Proof.
  intros F. split; [done|done|apply sample_records|]. eapply Forall_impl; [exact F|apply written_readable].
Qed.

(** A journal of one frame, and of the same frame twice. *)
Definition one_journal : journal := sample_journal (frames_bytes [sample_frame]).
Definition two_journal : journal := sample_journal (frames_bytes [sample_frame; sample_frame]).

Lemma one_holds : holds one_journal [sample_frame].
Proof. apply sample_holds. by apply Forall_cons_2; [exact sample_frame_written|]. Qed.
Lemma two_holds : holds two_journal [sample_frame; sample_frame].
Proof. apply sample_holds. by do 2 (apply Forall_cons_2; [exact sample_frame_written|]). Qed.

Lemma one_size : vsize (records one_journal) <= 100000.
Proof. by vm_compute. Qed.
Lemma sample_now : u64 9000.
Proof. by vm_compute. Qed.

Definition torn_bytes : list byte := take 150 (f_bytes sample_frame).


(** The file before the journal is opened: a frame between two other stretches. *)
Definition unopened : journal :=
  Journal "" "" "" 0 0 0 no_health
    {[ sample_place JOURNAL_FILE_NAME :=
         Node regular_file 1000 1 private_mode ([Byte.x07] ++ f_bytes sample_frame ++ torn_bytes) ]}.

Lemma save_journal_init_accounts_witness :
  ∃ j', player_save_journal_init good_init 6000 "/j" 100000 unopened = (true, j')
    ∧ h_records (health j') = 1
    ∧ ∃ cs, [Byte.x07] ++ f_bytes sample_frame ++ torn_bytes = concat (map chunk_bytes cs)
        ∧ holds j' (kept_of cs).
Proof.
  assert (let o := player_save_journal_init good_init 6000 "/j" 100000 unopened in
          o.1 = true ∧ h_records (health o.2) = 1) as R by by vm_compute.
  destruct (player_save_journal_init good_init 6000 "/j" 100000 unopened) as [ok j'] eqn:E.
  destruct R as [R1 R2]. cbn [fst snd] in R1, R2. subst ok.
  exists j'. split; [exact eq_refl|]. split; [exact R2|].
  destruct (save_journal_init_accounts good_init 6000 "/j" 100000 unopened j' E) as (cs & D & Hd & _).
  exact (ex_intro _ cs (conj D Hd)).
Defined.


Lemma save_journal_append_witness :
  ∃ j', player_save_journal_append good_append 9000 small_snapshot
          one_journal = (journal_ok, j')
    ∧ vsize (records j') <= 100000.
Proof.
  assert ((player_save_journal_append good_append 9000 small_snapshot
              one_journal).1 = journal_ok) as R by by vm_compute.
  destruct (player_save_journal_append good_append 9000 small_snapshot
              one_journal) as [result j'] eqn:E.
  cbn [fst] in R. subst result. exists j'. split; [exact eq_refl|].
  pose proof (save_journal_append good_append 9000 small_snapshot one_journal [sample_frame]
    journal_ok j' one_holds small_snapshot_typed sample_now E) as (_ & L & _).
  pose proof one_size as L0. change (journal_quota one_journal) with 100000 in L. clear E. lia.
Defined.

Lemma save_journal_checkpoint_exact_witness :
  ∃ j', player_save_journal_checkpoint good_checkpoint 9000 5 12
          one_journal = (journal_ok, j') ∧ holds j' [].
Proof.
  assert ((player_save_journal_checkpoint good_checkpoint 9000 5 12
             one_journal).1 = journal_ok) as R by by vm_compute.
  destruct (player_save_journal_checkpoint good_checkpoint 9000 5 12
              one_journal) as [result j'] eqn:E.
  cbn [fst] in R. subst result. exists j'. split; [exact eq_refl|].
  pose proof (save_journal_checkpoint_exact good_checkpoint 9000 5 12 one_journal [sample_frame]
    journal_ok j' one_holds E) as [L|[N _]]; [|contradiction].
  clear E. rewrite filter_cons, decide_False in L; [exact L|]. intros X. apply X. by vm_compute.
Defined.

(** A database that knows a revision. *)
Definition sample_apply (s : player_snapshot) (durable : Z)
  : option player_save_apply_result * Z :=
  let durable := Z.max durable (snapshot_revision s) in
  (Some (ApplyResult applied durable (Code 0) [] false), durable).
Definition good_replay : replay_replies :=
  ReplayReplies good_scan (λ _, true) (λ _, true) (λ _, 9000) (λ _, good_checkpoint)
    (λ _, 9000) (λ _, good_checkpoint).

Lemma save_journal_replay_evidence_witness :
  ∃ w' log j', player_save_journal_replay (logged sample_apply) good_replay (3, [])
                 one_journal = (journal_ok, (w', log), j')
    ∧ records j' = []
    ∧ ∃ s a, (s, Some a) ∈ log ∧ snapshot_pid s = snapshot_pid (f_snapshot sample_frame)
        ∧ snapshot_revision (f_snapshot sample_frame) <= durable_revision a.
Proof.
  assert (let o := player_save_journal_replay (logged sample_apply) good_replay (3, [])
                     one_journal in
          o.1.1 = journal_ok ∧ records o.2 = []) as [R0 R] by by vm_compute.
  destruct (player_save_journal_replay (logged sample_apply) good_replay (3, [])
              one_journal) as [[result [w' log]] j'] eqn:E.
  cbn [fst snd] in R0, R. subst result.
  exists w', log, j'. split; [exact eq_refl|]. split; [exact R|].
  pose proof (save_journal_replay_evidence sample_apply good_replay 3 one_journal [sample_frame]
    journal_ok w' log j' one_holds E) as (live & Hl & S & K).
  clear E.
  assert (¬ is_Some (death (f_snapshot sample_frame))) as Nd by (intros [d D]; vm_compute in D; discriminate D).
  destruct (K sample_frame ltac:(left)) as [I|(s & a & I & _ & P & D)].
  2: { rewrite bool_decide_eq_false_2 in D by exact Nd. exact (ex_intro _ s (ex_intro _ a (conj I (conj P D)))). }
  pose proof (holds_records _ _ Hl) as B. rewrite R in B.
  destruct live as [|f live]; [by apply elem_of_nil in I|].
  pose proof (holds_readable _ _ Hl) as F. inversion F as [|? ? [L _] _]; subst.
  unfold frames_bytes in B. apply (f_equal length) in B. cbn [map concat] in B.
  rewrite length_app in B. unfold JOURNAL_HEADER_SIZE in L. cbn [length] in B. lia.
Defined.

Lemma save_journal_replay_order_witness :
  ∃ w' log j', player_save_journal_replay (logged sample_apply) good_replay (3, [])
                 two_journal = (journal_ok, (w', log), j')
    ∧ length log = 1%nat ∧ ∃ called, log.*1 = f_snapshot <$> called ∧ StronglySorted frame_le called.
Proof.
  assert (let o := player_save_journal_replay (logged sample_apply) good_replay (3, [])
                     two_journal in
          o.1.1 = journal_ok ∧ length o.1.2.2 = 1%nat) as [R0 R] by by vm_compute.
  destruct (player_save_journal_replay (logged sample_apply) good_replay (3, [])
              two_journal) as [[result [w' log]] j'] eqn:E.
  cbn [fst snd] in R0, R. subst result.
  exists w', log, j'. split; [exact eq_refl|]. split; [exact R|].
  pose proof (save_journal_replay_order sample_apply good_replay 3 two_journal
    [sample_frame; sample_frame] journal_ok w' log j' two_holds E)
    as (called & L & _ & S & _).
  exact (ex_intro _ called (conj L S)).
Defined.

Lemma save_journal_full_forever_witness :
  ∃ j fs, holds j fs ∧ vsize fs = 4097
    ∧ ∀ result j', player_save_journal_checkpoint good_checkpoint 9000 5 12 j = (result, j') →
        result ≠ journal_ok ∧ holds j' fs.
Proof.
  set (fs := replicate (Z.to_nat 4097) sample_frame).
  assert (Forall written_frame fs) as F by apply Forall_replicate, sample_frame_written.
  exists (sample_journal (frames_bytes fs)), fs.
  assert (vsize fs = 4097) as L by (unfold vsize, fs; by rewrite length_replicate).
  split; [by apply sample_holds|]. split; [exact L|].
  apply (save_journal_full_forever (sample_journal (frames_bytes fs)) fs).
  - by apply sample_holds.
  - by rewrite L.
Defined.
