(* ===== verification/SavePipeline.v ===== *)
(** * The save pipeline

    Models [player/player_save_pipeline.c] and [.h]: the path of a capture from the game
    thread through the save journal to the writer, with the fences of terminal saves and
    of offline commands.  It composes the table of revisions ([RevisionState]), the
    journal ([SaveJournal]) and the writer ([SaveWorker]): the state is all of them, and
    each of their functions it calls is the definition of its file.

    A region under [pipeline_mutex] is one definition.  The dispatcher is a thread of
    its own, split at those regions; the steps of the other threads inside a call of the
    game thread, where they can be told from steps before or after it, are an argument
    of the call.  Alerts and traces are not modelled.  A [P_char] is what the pipeline
    reads of a character; a capture is an argument. *)

From S2P Require Import Prelude Files RevisionState Snapshot SaveWorker PlayerCodec SaveJournal.

(** ** Constants and data *)

Definition PLAYER_SAVE_PIPELINE_MAX_SNAPSHOTS : nat := 256.
Definition PLAYER_SAVE_PIPELINE_MAX_BYTES : Z := 32 * 1024 * 1024.
Definition PLAYER_SAVE_PIPELINE_PULSE_BUDGET : nat := 32.
Definition PLAYER_SAVE_ERROR_CUSTODY_PAYLOAD_MISMATCH : Z := 10001.
(** The value of [ENOENT], which a repository may report. *)
Definition ENOENT_CODE : Z := 2.

Inductive player_save_pipeline_result :=
| snapshot_queued | coalesced | unchanged | request_invalid | capture_failed | overloaded
| pipeline_unavailable.
Inductive player_save_terminal_result :=
| database_acknowledged | journal_durable | terminal_invalid | terminal_unavailable | timed_out.

#[export] Instance pipeline_result_eq_dec : EqDecision player_save_pipeline_result.
Proof. solve_decision. Defined.
#[export] Instance terminal_result_eq_dec : EqDecision player_save_terminal_result.
Proof. solve_decision. Defined.

Record player_save_pipeline_health := PipelineHealth {
  ph_pending_append : Z;
  ph_durable_ready : Z;
  ph_retained_bytes : Z;
  ph_high_water_snapshots : Z;
  ph_high_water_bytes : Z;
  ph_marked : Z;
  ph_captured : Z;
  ph_coalesced : Z;
  ph_unchanged : Z;
  ph_capture_failures : Z;
  ph_append_failures : Z;
  ph_overloads : Z;
  ph_dispatched : Z;
  ph_durable_spills : Z;
  ph_completions : Z;
  ph_terminal_fences : Z;
  ph_terminal_database_acks : Z;
  ph_terminal_journal_handoffs : Z;
  ph_terminal_timeouts : Z;
  ph_drain_failures : Z;
  ph_initialized : bool;
  ph_accepting : bool;
  ph_append_inflight : bool;
  ph_dispatcher_running : bool;
  ph_replay_complete : bool;
  ph_replay_blocked : bool;
}.
Definition no_pipeline_health : player_save_pipeline_health :=
  PipelineHealth 0 0 0 0 0 0 0 0 0 0 0 0 0 0 0 0 0 0 0 0 false false false false false false.

Record terminal_fence := TerminalFence {
  tf_pid : Z;
  tf_revision : Z;
  tf_journaled : bool;
  tf_acknowledged : bool;
}.
Definition no_terminal_fence : terminal_fence := TerminalFence 0 0 false false.

Record target_save_login_fence := LoginFence {
  lf_pid : Z;
  lf_expected_revision : Z;
}.
Definition no_login_fence : target_save_login_fence := LoginFence 0 0.

(** Where the dispatcher stands. *)
Inductive dispatcher_pc :=
| dispatcher_absent
| dispatcher_started
| dispatcher_replaying
| dispatcher_waiting
| dispatcher_appending (snapshot : player_snapshot)
| dispatcher_appended (snapshot : player_snapshot) (result : journal_result)
| dispatcher_exited.

(** History variables, which the code does not have: the captures taken into the queue,
    those the journal accepted and refused, those handed to the writer and the
    completions read, each in order. *)
Record pipeline_history := History {
  captured : list player_snapshot;
  journaled : list player_snapshot;
  refused : list player_snapshot;
  submitted : list player_snapshot;
  completed : list player_save_completion;
}.

Record pipeline := Pipeline {
  pending_append : list player_snapshot;
  durable_ready : list player_snapshot;
  dispatcher : dispatcher_pc;
  phealth : player_save_pipeline_health;
  retained_bytes : Z;
  pipeline_stop : bool;
  accepting : bool;
  append_inflight : bool;
  append_inflight_pid : Z;
  custody_recapture_armed : gset Z;
  terminal_fences : list terminal_fence;
  login_fences : list target_save_login_fence;
  past : pipeline_history;
}.
Definition no_terminal_fences : list terminal_fence :=
  replicate PLAYER_SAVE_PIPELINE_MAX_SNAPSHOTS no_terminal_fence.
Definition no_login_fences : list target_save_login_fence :=
  replicate PLAYER_SAVE_PIPELINE_MAX_SNAPSHOTS no_login_fence.

(** What the pipeline reads of a character. *)
Record char_data := Char {
  ch_is_npc : bool;
  ch_pid : Z;
  ch_load_degraded : bool;
  ch_item_payload_gap : bool;
  ch_no_db_baseline : bool;
  ch_dead : bool;
  ch_grant_pending : bool;
}.

(** The same structure as the writer reads it. *)
Definition worker_snapshot (s : player_snapshot) : SaveWorker.player_snapshot :=
  SaveWorker.PlayerSnapshot (schema_version s) (snapshot_pid s) (snapshot_revision s)
    (snapshot_components s) (encoded_size_bound s) (bool_decide (is_Some (death s))) s.

(** A value-initialised snapshot. *)
Definition blank_snapshot : player_snapshot :=
  PlayerSnapshot 0 0 0 0 0 0 0 [] [] (replicate 5 0) (replicate 14 0) [] [] [] [] [] [] []
    [] [] [] [] [] false [] None.

Definition bump_size (n : Z) : Z := wrap 64 (n + 1).

(** ** Fences *)

(** [find_terminal_fence_locked] and [find_target_save_login_fence_locked]: a slot. *)
Definition find_terminal (pid : Z) (p : pipeline) : option (nat * terminal_fence) :=
  list_find (λ f, tf_pid f = pid) (terminal_fences p).
Definition find_login (pid : Z) (p : pipeline) : option (nat * target_save_login_fence) :=
  list_find (λ f, lf_pid f = pid) (login_fences p).
Definition login_fenced (pid : Z) (p : pipeline) : bool :=
  bool_decide (is_Some (find_login pid p)).

Definition set_terminal (slot : nat) (f : terminal_fence) (p : pipeline) : pipeline :=
  {p with terminal_fences ::= λ l, <[slot := f]> l}.
Definition set_login (slot : nat) (f : target_save_login_fence) (p : pipeline) : pipeline :=
  {p with login_fences ::= λ l, <[slot := f]> l}.

(** What is done to the fence of a player, where there is one. *)
Definition with_terminal (pid : Z) (g : terminal_fence → terminal_fence) (p : pipeline)
  : pipeline :=
  match find_terminal pid p with
  | Some (slot, f) => set_terminal slot (g f) p
  | None => p
  end.
Definition release_terminal (pid : Z) : pipeline → pipeline :=
  with_terminal pid (λ _, no_terminal_fence).

Definition allocate_terminal_fence (pid : Z) (p : pipeline) : option pipeline :=
  if login_fenced pid p then None else
  match find_terminal pid p with
  | Some _ => Some p
  | None =>
      match find_terminal 0 p with
      | Some (slot, f) =>
          let p := set_terminal slot {f with tf_pid := pid} p in
          Some {p with phealth -> ph_terminal_fences ::= bump_size}
      | None => None
      end
  end.

Definition allocate_login_fence (pid expected_revision : Z) (p : pipeline) : option pipeline :=
  if login_fenced pid p then None else
  match find_login 0 p with
  | Some (slot, _) => Some (set_login slot (LoginFence pid expected_revision) p)
  | None => None
  end.

(** ** Queues *)

Definition update_depth (p : pipeline) : pipeline :=
  let pending := vsize (pending_append p) in
  let ready := vsize (durable_ready p) in
  {p with phealth := {phealth p with
    ph_pending_append := pending;
    ph_durable_ready := ready;
    ph_retained_bytes := retained_bytes p;
    ph_accepting := accepting p;
    ph_append_inflight := append_inflight p;
    ph_high_water_snapshots ::= λ n, Z.max n (pending + ready);
    ph_high_water_bytes ::= λ n, Z.max n (retained_bytes p)}}.

Definition snapshot_is_retained (pid revision : Z) (p : pipeline) : bool :=
  existsb (λ s, (snapshot_pid s =? pid) && (snapshot_revision s =? revision))
    (pending_append p ++ durable_ready p).
Definition any_snapshot_is_retained (pid : Z) (p : pipeline) : bool :=
  existsb (λ s, snapshot_pid s =? pid) (pending_append p ++ durable_ready p).

Definition overload (p : pipeline) : player_save_pipeline_result * pipeline :=
  (overloaded, {p with phealth -> ph_overloads ::= bump_size}).

(** [memory]: whether the queue can grow. *)
Definition enqueue_snapshot (memory : bool) (snapshot : player_snapshot) (p : pipeline)
  : player_save_pipeline_result * pipeline :=
  if negb (ph_initialized (phealth p)) || pipeline_stop p
     || login_fenced (snapshot_pid snapshot) p
  then (pipeline_unavailable, p) else
  let size := encoded_size_bound snapshot in
  match list_find (λ q, snapshot_pid q = snapshot_pid snapshot) (pending_append p) with
  | Some (slot, old) =>
      if snapshot_revision snapshot <=? snapshot_revision old then (coalesced, p) else
      if negb (Z.land (snapshot_components snapshot) (snapshot_components old)
               =? snapshot_components old) then (capture_failed, p) else
      let rest := wrap 64 (retained_bytes p - encoded_size_bound old) in
      if wrap 64 (PLAYER_SAVE_PIPELINE_MAX_BYTES - rest) <? size then overload p else
      (coalesced, update_depth {p with
        retained_bytes := wrap 64 (rest + size);
        pending_append ::= λ l, <[slot := snapshot]> l;
        past -> captured ::= λ l, l ++ [snapshot];
        phealth -> ph_coalesced ::= bump_size})
  | None =>
      if (PLAYER_SAVE_PIPELINE_MAX_SNAPSHOTS
            <=? length (pending_append p) + length (durable_ready p))%nat
         || (wrap 64 (PLAYER_SAVE_PIPELINE_MAX_BYTES - retained_bytes p) <? size)
      then overload p else
      if negb memory then
        overload {p with retained_bytes ::= λ n, wrap 64 (wrap 64 (n + size) - size)}
      else
        (snapshot_queued, update_depth {p with
          retained_bytes ::= λ n, wrap 64 (n + size);
          pending_append ::= λ l, l ++ [snapshot];
          past -> captured ::= λ l, l ++ [snapshot];
          phealth -> ph_captured ::= bump_size})
  end.

(** ** The world of the pipeline *)

Section SavePipeline.
Context `{Process} {W D : Type}.
(** [selected_snapshot_apply()], which the replay calls, on the state of the database. *)
Context (apply : player_snapshot → D → option player_save_apply_result * D).

Record world := World {
  pipe : pipeline;
  revision_states : revision_map;
  writer : SaveWorker.worker (B := player_snapshot) (W := W);
  save_journal : SaveJournal.journal;
  database : D;
  character_list : list char_data;
  (** The characters [persistence_schedule_character_save] was called for. *)
  scheduled_saves : list Z;
}.

Definition on_pipe (g : pipeline → pipeline) (w : world) : world := {w with pipe ::= g}.

Definition live_player (pid : Z) (w : world) : bool :=
  existsb (λ ch, negb (ch_is_npc ch) && (ch_pid ch =? pid)) (character_list w).

Definition retire_ended_player (pid : Z) (w : world) : world :=
  match player_revision_snapshot_copy pid (revision_states w) with
  | Some revision =>
      if session_ended revision && negb (live_player pid w)
         && negb (player_save_worker_pid_pending pid (writer w))
      then {w with revision_states ::= player_revision_forget pid} else w
  | None => w
  end.

(** ** The dispatcher *)

(** [dispatcher_main], at the points where it takes [pipeline_mutex]. *)
Inductive dispatcher_step :=
| step_begin
| step_replay (mysql_ready : bool) (r : replay_replies)
| step_take
| step_append (r : SaveJournal.append_replies) (now : Z)
| step_store (memory : bool).

Definition store_appended (memory : bool) (s : player_snapshot) (result : journal_result)
    (p : pipeline) : pipeline :=
  let drop (p : pipeline) := {p with retained_bytes ::= λ n, wrap 64 (n - encoded_size_bound s)} in
  let p :=
    if bool_decide (result = journal_ok) then
      if memory then
        let p := {p with durable_ready ::= λ l, l ++ [s] } in
        with_terminal (snapshot_pid s)
          (λ f, if tf_revision f =? snapshot_revision s then {f with tf_journaled := true} else f) p
      else
        let p := drop p in
        {p with phealth := {phealth p with ph_durable_spills ::= bump_size; ph_overloads ::= bump_size}}
    else
      let p := {p with phealth -> ph_append_failures ::= bump_size;
                       past -> refused ::= λ l, l ++ [s] } in
      if memory then {p with pending_append ::= cons s}
      else {drop p with phealth -> ph_overloads ::= bump_size} in
  update_depth {p with dispatcher := dispatcher_waiting; append_inflight := false;
                       append_inflight_pid := 0}.

(** [None]: the thread is not there, or waits. *)
Definition run_dispatcher (step : dispatcher_step) (w : world) : option world :=
  match step, dispatcher (pipe w) with
  | step_begin, dispatcher_started =>
      Some (on_pipe (λ p, {p with dispatcher := dispatcher_replaying;
                                  phealth -> ph_dispatcher_running := true}) w)
  | step_replay mysql_ready r, dispatcher_replaying =>
      let '(replay, d, j) :=
        if mysql_ready then player_save_journal_replay apply r (database w) (save_journal w)
        else (replay_blocked, database w, save_journal w) in
      let ok := bool_decide (replay = journal_ok) in
      Some (on_pipe (λ p, {p with dispatcher := dispatcher_waiting;
              phealth := {phealth p with ph_replay_complete := ok; ph_replay_blocked := negb ok}})
              {w with database := d; save_journal := j})
  | step_take, dispatcher_waiting =>
      let p := pipe w in
      match pending_append p with
      | [] =>
          if pipeline_stop p
          then Some (on_pipe (λ p, {p with dispatcher := dispatcher_exited;
                                           phealth -> ph_dispatcher_running := false}) w)
          else None
      | s :: rest =>
          Some {w with pipe := update_depth {p with
            pending_append := rest; dispatcher := dispatcher_appending s;
            append_inflight := true; append_inflight_pid := snapshot_pid s}}
      end
  | step_append r now, dispatcher_appending s =>
      let '(result, j) := player_save_journal_append r now s (save_journal w) in
      Some (on_pipe (λ p, {p with dispatcher := dispatcher_appended s result;
              past -> journaled ::= λ l, if bool_decide (result = journal_ok) then l ++ [s] else l})
              {w with save_journal := j})
  | step_store memory, dispatcher_appended s result =>
      Some (on_pipe (store_appended memory s result) w)
  | _, _ => None
  end.

(** The steps of the two threads; [writer_acknowledges] is the writer's call of the
    journal's hook, with any revision the database may have answered. *)
Inductive thread_step :=
| dispatcher_does (step : dispatcher_step)
| writer_takes (now : Z)
| writer_attempts (mysql_ready : bool) (env : attempt)
| writer_acknowledges (r : SaveJournal.checkpoint_replies) (now pid revision : Z)
| writer_wakes
| writer_finishes (now : Z)
| writer_exits.

Definition on_writer (g : SaveWorker.worker → option SaveWorker.worker) (w : world) : world :=
  match g (writer w) with Some wk => {w with writer := wk} | None => w end.

(** A step the thread is not at changes nothing. *)
Definition run_thread (w : world) (step : thread_step) : world :=
  match step with
  | dispatcher_does step => default w (run_dispatcher step w)
  | writer_takes now => on_writer (writer_take now) w
  | writer_attempts mysql_ready env => on_writer (writer_attempt mysql_ready env) w
  | writer_acknowledges r now pid revision =>
      {w with save_journal := (player_save_journal_worker_ack r now pid revision (save_journal w)).2}
  | writer_wakes => on_writer writer_wake w
  | writer_finishes now => on_writer (writer_finish now) w
  | writer_exits => on_writer writer_exit w
  end.
Definition run_threads (steps : list thread_step) (w : world) : world := foldl run_thread w steps.

(** ** The pulse *)

(** What the other threads do before the ended players are retired; and, for each
    submission, what they do before it, the clock and whether the writer has memory. *)
Record pulse_replies := PulseReplies {
  pr_threads : list thread_step;
  pr_submit : nat → list thread_step * Z * bool;
}.

Definition applied_durably (c : player_save_completion) (revision : Z) : bool :=
  succeeded (c_outcome c) && (revision <=? c_durable_revision c).
Definition failed_with (c : player_save_completion) (code : Z) : bool :=
  bool_decide (c_outcome c = terminal_failure) && match c_error_code c with Code n => n =? code | Errno _ => false end
  && (0 <? c_pid c).

(** What the first loop collects: custody mismatches with whether a recapture is allowed,
    and players without a baseline. *)
Record pulse_notes := PulseNotes {
  custody_mismatches : list (player_save_completion * bool);
  missing_baseline : list Z;
}.

Definition handle_completion (st : world * pulse_notes) (c : player_save_completion)
  : world * pulse_notes :=
  let '(w, notes) := st in
  if negb (bool_decide (c_kind c = player)) then (w, notes) else
  let w :=
    if applied_durably c (c_revision c)
    then {w with revision_states ::= λ t,
            (player_revision_acknowledge_durable (c_pid c) (c_revision c) (c_components c) t).2}
    else w in
  let p := pipe w in
  let p := match c_outcome c with
           | applied | already_applied => {p with custody_recapture_armed ::= λ s, s ∖ {[ c_pid c ]}}
           | _ => p
           end in
  let p := with_terminal (c_pid c)
    (λ f, if (tf_revision f =? c_revision c) && applied_durably c (tf_revision f)
          then {f with tf_acknowledged := true} else f) p in
  let notes :=
    if failed_with c ENOENT_CODE
    then {notes with missing_baseline ::= λ l, l ++ [c_pid c] } else notes in
  if failed_with c PLAYER_SAVE_ERROR_CUSTODY_PAYLOAD_MISMATCH then
    let allowed := negb (bool_decide (c_pid c ∈ custody_recapture_armed p)) in
    ({w with pipe := {p with custody_recapture_armed ::= λ s, {[ c_pid c ]} ∪ s}},
     {notes with custody_mismatches ::= λ l, l ++ [(c, allowed)] })
  else ({w with pipe := p}, notes).

Definition recapture (w : world) (m : player_save_completion * bool) : world :=
  let '(c, allowed) := m in
  if allowed && existsb (λ ch, negb (ch_is_npc ch) && (ch_pid ch =? c_pid c)
                               && negb (ch_dead ch) && negb (ch_load_degraded ch))
                  (character_list w)
  then {w with scheduled_saves ::= λ l, l ++ [c_pid c] } else w.

(** The first character of the player needs a baseline. *)
Definition need_baseline (w : world) (pid : Z) : world :=
  match list_find (λ ch, negb (ch_is_npc ch) && (ch_pid ch =? pid)) (character_list w) with
  | Some (i, ch) =>
      {w with character_list ::= λ l, <[i := {ch with ch_no_db_baseline := true}]> l}
  | None => w
  end.

(** The writer never answers that it spilled a job. *)
Fixpoint submit_loop (budget : nat) (replies : nat → list thread_step * Z * bool) (w : world)
  : world :=
  match budget with
  | O => w
  | S budget =>
      let '(steps, now, memory) := replies budget in
      let w := run_threads steps w in
      match durable_ready (pipe w) with
      | [] => w
      | s :: rest =>
          let '(answer, _, wk) :=
            player_save_worker_submit_retained now memory (worker_snapshot s) (writer w) in
          let w := {w with writer := wk} in
          if bool_decide (answer = worker_unavailable) || bool_decide (answer = capacity_exceeded)
          then w else
          submit_loop budget replies (on_pipe (λ p, update_depth {p with
            retained_bytes ::= λ n, wrap 64 (n - encoded_size_bound s);
            durable_ready := rest;
            past -> submitted ::= λ l, if is_accepted answer then l ++ [s] else l;
            phealth -> ph_dispatched ::= bump_size}) w)
      end
  end.

Definition player_save_pipeline_pulse (replies : pulse_replies) (w : world) : world :=
  let '(completions, wk) :=
    player_save_worker_pulse PLAYER_SAVE_PIPELINE_PULSE_BUDGET (writer w) in
  let w := {w with writer := wk} in
  let w := on_pipe (λ p, {p with
    phealth -> ph_completions ::= λ n, wrap 64 (n + vsize completions);
    past -> completed ::= λ l, l ++ completions}) w in
  let '(w, notes) := foldl handle_completion (w, PulseNotes [] []) completions in
  let w := foldl recapture w (custody_mismatches notes) in
  let w := foldl need_baseline w (missing_baseline notes) in
  let w := run_threads (pr_threads replies) w in
  let w := foldl (λ w c, retire_ended_player (c_pid c) w) w completions in
  submit_loop PLAYER_SAVE_PIPELINE_PULSE_BUDGET (pr_submit replies) w.

(** ** Starting and stopping *)

(** [player_save_worker_shutdown] without an interrupt: the writer is joined, so the call
    returns only if the steps of the meantime let the writer exit. *)
Definition worker_shutdown (steps : list thread_step) (w : world) : option world :=
  let w := run_threads steps {w with writer ::= shutdown_request} in
  match shutdown_finish false (writer w) with
  | Some wk => Some {w with writer := wk}
  | None => None
  end.
Definition journal_shutdown (w : world) : world :=
  {w with save_journal ::= player_save_journal_shutdown}.

Record start_replies := StartReplies {
  st_journal : SaveJournal.init_replies;
  st_now : Z;
  st_writer_thread : bool;
  st_dispatcher_thread : bool;
  (** The steps of the other threads while a failed start is undone. *)
  st_undo : list thread_step;
}.

(** [None]: the call does not return. *)
Definition player_save_pipeline_init (r : start_replies) (journal_directory : string) (w : world)
  : option (bool * world) :=
  if negb (absolute journal_directory) then Some (false, w) else
  if ph_initialized (phealth (pipe w)) then Some (false, w) else
  let '(ok, j) := player_save_journal_init (st_journal r) (st_now r) journal_directory
                    PLAYER_SAVE_JOURNAL_MAX_BYTES (save_journal w) in
  let w := {w with save_journal := j} in
  if negb ok then Some (false, w) else
  let '(ok, wk) := player_save_worker_init true (st_writer_thread r) (writer w) in
  let w := {w with writer := wk} in
  if negb ok then Some (false, journal_shutdown w) else
  let '(ok, wk) := player_save_worker_set_journal_hooks false true (writer w) in
  let w := {w with writer := wk} in
  let undo (w : world) :=
    match worker_shutdown (st_undo r) w with
    | Some w => Some (false, journal_shutdown w)
    | None => None
    end in
  if negb ok then undo w else
  let w := on_pipe (λ p, {p with
    phealth := {no_pipeline_health with ph_initialized := true};
    pipeline_stop := false; accepting := true;
    append_inflight := false; append_inflight_pid := 0}) w in
  if st_dispatcher_thread r
  then Some (true, on_pipe (λ p, {p with dispatcher := dispatcher_started}) w)
  else undo (on_pipe (λ p, {p with phealth -> ph_initialized := false}) w).

(** [joinable] after the thread function returned: joining it ends it. *)
Definition join_dispatcher (w : world) : option world :=
  match dispatcher (pipe w) with
  | dispatcher_absent => Some w
  | dispatcher_exited => Some (on_pipe (λ p, {p with dispatcher := dispatcher_absent}) w)
  | _ => None
  end.

Record stop_replies := StopReplies {
  sp_join : list thread_step;
  sp_pulse : pulse_replies;
  sp_wait : list thread_step;
  sp_last_pulse : pulse_replies;
  sp_writer : list thread_step;
}.

Definition player_save_pipeline_shutdown (r : stop_replies) (w : world) : option world :=
  let w := on_pipe (λ p, {p with pipeline_stop := true}) w in
  match join_dispatcher (run_threads (sp_join r) w) with
  | None => None
  | Some w =>
      let w := player_save_pipeline_pulse (sp_pulse r) w in
      let w := run_threads (sp_wait r) w in
      let w := player_save_pipeline_pulse (sp_last_pulse r) w in
      match worker_shutdown (sp_writer r) w with
      | None => None
      | Some w =>
          let w := journal_shutdown w in
          Some (on_pipe (λ p, update_depth {p with
            pending_append := []; durable_ready := [];
            terminal_fences := no_terminal_fences; login_fences := no_login_fences;
            retained_bytes := 0; accepting := false;
            append_inflight := false; append_inflight_pid := 0;
            phealth -> ph_initialized := false}) w)
      end
  end.

Definition player_save_pipeline_reset_for_tests (r : stop_replies) (w : world) : option world :=
  match player_save_pipeline_shutdown r w with
  | None => None
  | Some w =>
      match player_save_worker_reset_for_tests (writer w) with
      | None => None
      | Some wk =>
          Some {w with writer := wk; revision_states := ∅;
            pipe := {pipe w with phealth := no_pipeline_health; pipeline_stop := false;
                                 accepting := false; append_inflight := false;
                                 append_inflight_pid := 0; login_fences := no_login_fences}}
      end
  end.

(** ** Saving *)

(** Equipment and inventory are saved together. *)
Definition custody_components (components : Z) : Z :=
  let both := Z.lor PLAYER_COMPONENT_EQUIPMENT PLAYER_COMPONENT_INVENTORY in
  if nz (Z.land components both) then Z.lor components both else components.

Definition player_save_pipeline_mark (pid components : Z) (w : world) : bool * world :=
  let components := custody_components components in
  if negb (accepting (pipe w)) then (false, w) else
  if login_fenced pid (pipe w) then (false, w) else
  let '(marked, t) := player_revision_mark pid components (revision_states w) in
  let w := {w with revision_states := t} in
  match marked with
  | None => (false, w)
  | Some revision =>
      (true, on_pipe (λ p,
         let p := with_terminal pid (λ f, {f with tf_revision := revision;
                                                  tf_journaled := false;
                                                  tf_acknowledged := false}) p in
         {p with phealth -> ph_marked ::= bump_size}) w)
  end.

(** [capture]: what the capture of the character makes for a revision and components. *)
Definition capture_reply : Type := Z → Z → option player_snapshot.

Definition count_capture_failure (w : world) : world :=
  on_pipe (λ p, {p with phealth -> ph_capture_failures ::= bump_size}) w.

(** What goes on inside a checkpoint: the capture, which the intent and the room go into,
    the steps of the other threads before it is queued, and whether the queue can grow. *)
Record checkpoint_replies := CheckpointReplies {
  ck_capture : capture_reply;
  ck_threads : list thread_step;
  ck_memory : bool;
}.

(** [ch] is [None] for a null pointer. *)
Definition player_save_pipeline_checkpoint_dirty (r : checkpoint_replies)
    (ch : option char_data) (w : world) : player_save_pipeline_result * world :=
  match ch with
  | None => (request_invalid, w)
  | Some ch =>
      let pid := ch_pid ch in
      if ch_is_npc ch || (pid <=? 0) then (request_invalid, w) else
      if ch_load_degraded ch then (pipeline_unavailable, w) else
      if ch_grant_pending ch then (pipeline_unavailable, w) else
      if login_fenced pid (pipe w) then (pipeline_unavailable, w) else
      match player_revision_snapshot_copy pid (revision_states w) with
      | None => (pipeline_unavailable, w)
      | Some revision =>
          if negb (nz (dirty_components revision))
             && (nz (inflight_components revision) || negb (nz (queued_components revision))
                 || snapshot_is_retained pid (queued_revision revision) (pipe w))
          then (unchanged, on_pipe (λ p, {p with phealth -> ph_unchanged ::= bump_size}) w) else
          let '(queued, t) := player_revision_queue pid (revision_states w) in
          let w := {w with revision_states := t} in
          match queued with
          | None => (capture_failed, w)
          | Some (queued_revision, components) =>
              let captured := ck_capture r queued_revision components in
              let w := run_threads (ck_threads r) w in
              match captured with
              | None => (capture_failed, count_capture_failure w)
              | Some snapshot =>
                  let '(result, p) := enqueue_snapshot (ck_memory r) snapshot (pipe w) in
                  (result, {w with pipe := p})
              end
          end
      end
  end.

Definition player_save_pipeline_request (r : checkpoint_replies) (ch : option char_data) (components : Z) (w : world) : player_save_pipeline_result * world :=
  match ch with
  | None => (request_invalid, w)
  | Some c =>
      if ch_load_degraded c then (pipeline_unavailable, w) else
      if ch_is_npc c then (request_invalid, w) else
      let '(marked, w) := player_save_pipeline_mark (ch_pid c) components w in
      if marked then player_save_pipeline_checkpoint_dirty r ch w
      else (request_invalid, w)
  end.

(** ** Terminal saves *)

Definition begin_terminal_fence (pid : Z) (w : world) : option Z * world :=
  if negb (ph_initialized (phealth (pipe w))) || login_fenced pid (pipe w) then (None, w) else
  match allocate_terminal_fence pid (pipe w) with
  | None => (None, w)
  | Some p =>
      let w := {w with pipe := p} in
      let '(marked, t) :=
        player_revision_mark pid PLAYER_CHECKPOINT_COMPONENT_ALL (revision_states w) in
      let w := {w with revision_states := t} in
      match marked with
      | None => (None, on_pipe (release_terminal pid) w)
      | Some revision =>
          match find_terminal pid (pipe w) with
          | None => (None, w)
          | Some (slot, _) =>
              (Some revision, on_pipe (set_terminal slot (TerminalFence pid revision false false)) w)
          end
      end
  end.

(** One turn of the wait, and what the other threads do meanwhile. *)
Record wait_turn := WaitTurn {
  wt_before : list thread_step;
  wt_replies : pulse_replies;
  wt_after : list thread_step;
}.
Definition take_turn (t : wait_turn) (w : world) : world :=
  run_threads (wt_after t) (player_save_pipeline_pulse (wt_replies t) (run_threads (wt_before t) w)).

(** The deadline comes after the turns. *)
Fixpoint await_terminal_fence (turns : list wait_turn) (pid revision : Z)
    (allow_journal_handoff : bool) (w : world) : player_save_terminal_result * world :=
  match turns with
  | [] => (timed_out, on_pipe (λ p, {p with phealth -> ph_terminal_timeouts ::= bump_size}) w)
  | t :: turns =>
      let w := take_turn t w in
      match find_terminal pid (pipe w) with
      | None => (terminal_unavailable, w)
      | Some (slot, f) =>
          if negb (tf_revision f =? revision) then (terminal_unavailable, w) else
          if tf_acknowledged f then
            (database_acknowledged, on_pipe (λ p, set_terminal slot no_terminal_fence
               {p with phealth -> ph_terminal_database_acks ::= bump_size}) w) else
          if allow_journal_handoff && tf_journaled f then
            (journal_durable, on_pipe (λ p, set_terminal slot no_terminal_fence
               {p with phealth -> ph_terminal_journal_handoffs ::= bump_size}) w) else
          await_terminal_fence turns pid revision allow_journal_handoff w
      end
  end.

Definition player_save_pipeline_terminal (r : checkpoint_replies)
    (turns : list wait_turn) (ch : option char_data) (timeout_msec : Z)
    (allow_journal_handoff : bool) (w : world) : player_save_terminal_result * world :=
  match ch with
  | None => (terminal_invalid, w)
  | Some c =>
      let pid := ch_pid c in
      if ch_is_npc c || (pid <=? 0) || negb (nz timeout_msec) then (terminal_invalid, w) else
      if ch_load_degraded c then (terminal_unavailable, w) else
      let '(fence, w) := begin_terminal_fence pid w in
      match fence with
      | None => (terminal_unavailable, w)
      | Some revision =>
          let '(_, w) := player_save_pipeline_checkpoint_dirty r ch w in
          await_terminal_fence turns pid revision allow_journal_handoff w
      end
  end.

(** What goes on inside a terminal save of a death: the capture for the revision of the
    fence, the steps of the other threads before it is queued, and whether the queue can
    grow. *)
Record death_replies := DeathReplies {
  dr_capture : Z → option player_snapshot;
  dr_threads : list thread_step;
  dr_memory : bool;
}.

(** [corpse]: whether there is one. *)
Definition player_save_pipeline_terminal_death (r : death_replies)
    (turns : list wait_turn) (ch : option char_data) (corpse : bool)
    (timeout_msec : Z) (allow_journal_handoff : bool) (w : world)
  : player_save_terminal_result * world :=
  match ch with
  | None => (terminal_invalid, w)
  | Some c =>
      let pid := ch_pid c in
      if ch_is_npc c || (pid <=? 0) || negb corpse || negb (nz timeout_msec)
      then (terminal_invalid, w) else
      if ch_load_degraded c && negb (ch_item_payload_gap c) then (terminal_unavailable, w) else
      let '(fence, w) := begin_terminal_fence pid w in
      match fence with
      | None => (terminal_unavailable, w)
      | Some revision =>
          let unqueued (w : world) := on_pipe (release_terminal pid) w in
          let w := run_threads (dr_threads r) w in
          match dr_capture r revision with
          | None => (terminal_invalid, unqueued (count_capture_failure w))
          | Some snapshot =>
              let '(queued, t) := player_revision_queue pid (revision_states w) in
              let w := {w with revision_states := t} in
              match queued with
              | Some (queued_revision, components) =>
                  if negb (queued_revision =? revision)
                     || negb (components =? snapshot_components snapshot)
                  then (terminal_unavailable, unqueued w) else
                  let '(result, p) := enqueue_snapshot (dr_memory r) snapshot (pipe w) in
                  let w := {w with pipe := p} in
                  if bool_decide (result = snapshot_queued) || bool_decide (result = coalesced)
                  then await_terminal_fence turns pid revision allow_journal_handoff w
                  else (terminal_unavailable, unqueued w)
              | None => (terminal_unavailable, unqueued w)
              end
          end
      end
  end.

(** ** Pausing and draining *)

Definition player_save_pipeline_quiesce (w : world) : world :=
  on_pipe (λ p, update_depth {p with accepting := false}) w.
Definition player_save_pipeline_resume (w : world) : world :=
  on_pipe (λ p, update_depth
    (if ph_initialized (phealth p) && negb (pipeline_stop p)
     then {p with accepting := true} else p)) w.

Definition pipeline_empty (p : pipeline) : bool :=
  match pending_append p, durable_ready p with
  | [], [] => negb (append_inflight p)
  | _, _ => false
  end.

Fixpoint drain_loop (turns : list wait_turn) (last_pulse : pulse_replies) (w : world)
  : bool * world :=
  match turns with
  | [] => (false, on_pipe (λ p, {p with phealth -> ph_drain_failures ::= bump_size}) w)
  | t :: turns =>
      let w := take_turn t w in
      if pipeline_empty (pipe w)
         && bool_decide (persistence_writer_wait_idle true (writer w) = Some true)
      then (true, player_save_pipeline_pulse last_pulse w)
      else drain_loop turns last_pulse w
  end.

Definition player_save_pipeline_drain (turns : list wait_turn) (last_pulse : pulse_replies)
    (timeout_msec : Z) (w : world) : bool * world :=
  if negb (nz timeout_msec) then (false, w) else
  drain_loop turns last_pulse (player_save_pipeline_quiesce w).

Definition player_save_pipeline_health_copy (w : world) : player_save_pipeline_health :=
  phealth (pipe w).
Definition player_save_pipeline_dirty_count (w : world) : nat :=
  player_revision_dirty_count (revision_states w).

Definition RENT_INN : Z := 3.
Definition RENT_LINKDEAD : Z := 5.
Definition RENT_CAMPED : Z := 6.
Definition RENT_POOFARTI : Z := 8.
Definition RENT_SWAPARTI : Z := 9.
Definition RENT_FIGHTARTI : Z := 10.
Definition player_save_pipeline_is_nonterminal_type (save_intent : Z) : bool :=
  negb (existsb (Z.eqb save_intent)
    [RENT_INN; RENT_LINKDEAD; RENT_CAMPED; RENT_DEATH; RENT_POOFARTI; RENT_SWAPARTI;
     RENT_FIGHTARTI]).

(** ** The barrier of offline commands *)

Definition has_terminal (pid : Z) (p : pipeline) : bool :=
  bool_decide (is_Some (find_terminal pid p)).

(** Not serving, or holding something of the player. *)
Definition pipeline_holds (pid : Z) (p : pipeline) : bool :=
  negb (ph_initialized (phealth p)) || pipeline_stop p || negb (accepting p)
  || has_terminal pid p || (append_inflight_pid p =? pid) || any_snapshot_is_retained pid p.

Definition player_save_pipeline_target_save_pending (pid : Z) (w : world) : bool :=
  if pid <=? 0 then true else
  if pipeline_holds pid (pipe w) then true else
  if player_save_worker_pid_pending pid (writer w) then true else
  match player_revision_snapshot_copy pid (revision_states w) with
  | None => false
  | Some revision =>
      overflowed revision || nz (dirty_components revision)
      || nz (unacknowledged_components revision) || nz (queued_components revision)
      || nz (inflight_components revision)
      || negb (current_revision revision =? acknowledged_revision revision)
  end.

Definition player_save_pipeline_sealed_save_pending (pid : Z) (w : world) : bool :=
  if pid <=? 0 then true else
  if pipeline_holds pid (pipe w) || login_fenced pid (pipe w) then true else
  if player_save_worker_pid_pending pid (writer w) then true else
  match player_revision_snapshot_copy pid (revision_states w) with
  | None => false
  | Some revision =>
      overflowed revision || nz (queued_components revision) || nz (inflight_components revision)
  end.

Definition release_login (pid expected_revision : Z) (p : pipeline) : pipeline :=
  match find_login pid p with
  | Some (slot, f) =>
      if lf_expected_revision f =? expected_revision then set_login slot no_login_fence p else p
  | None => p
  end.
Definition player_save_pipeline_release_target_save_login_fence (pid expected_revision : Z)
    (w : world) : world :=
  if pid <=? 0 then w else on_pipe (release_login pid expected_revision) w.

(** The revision state is not that of a player at rest at the expected revision. *)
Definition not_at_rest (expected_revision : Z) (revision : player_revision_entry) : bool :=
  overflowed revision || nz (dirty_components revision)
  || nz (unacknowledged_components revision) || nz (queued_components revision)
  || nz (inflight_components revision)
  || negb (current_revision revision =? expected_revision)
  || negb (acknowledged_revision revision =? expected_revision).

(** [between]: the steps of the other threads between the regions. *)
Definition player_save_pipeline_acquire_target_save_login_fence
    (between : list thread_step) (pid expected_revision : Z) (w : world) : bool * world :=
  if (pid <=? 0) || (expected_revision =? UINT64_MAX) then (false, w) else
  let p := pipe w in
  let reserved :=
    if pipeline_holds pid p || login_fenced pid p then None
    else allocate_login_fence pid expected_revision p in
  match reserved with
  | None => (false, w)
  | Some p =>
      let w := run_threads between {w with pipe := p} in
      let release := player_save_pipeline_release_target_save_login_fence pid expected_revision in
      if player_save_worker_pid_pending pid (writer w) then (false, release w) else
      if from_option (not_at_rest expected_revision) false
           (player_revision_snapshot_copy pid (revision_states w))
      then (false, release w) else
      let p := pipe w in
      match find_login pid p with
      | None => (false, w)
      | Some (_, f) =>
          if negb (lf_expected_revision f =? expected_revision)
             || (append_inflight_pid p =? pid) || any_snapshot_is_retained pid p
          then (false, on_pipe (release_login pid expected_revision) w)
          else (true, w)
      end
  end.

Definition player_save_pipeline_target_save_login_fenced (pid : Z) (w : world) : bool :=
  (0 <? pid) && login_fenced pid (pipe w).
Definition player_save_pipeline_save_admitted (pid : Z) (w : world) : bool :=
  (0 <? pid) && negb (login_fenced pid (pipe w)).
Definition player_save_pipeline_load_held (pid : Z) (w : world) : bool :=
  (0 <? pid) && player_save_worker_pid_pending pid (writer w).

Definition player_save_pipeline_end_session (pid : Z) (w : world) : world :=
  if (pid <=? 0) || live_player pid w then w else
  retire_ended_player pid {w with revision_states ::= player_revision_end_session pid}.

(** ** Histories *)

(** The calls of the game thread, a wait being any number of turns, and the steps of the
    others.  The last four are what the rest of the game does to the shared state: a
    player is loaded, forgotten, another job is written, the characters change. *)
Inductive pipeline_call :=
| call_thread (step : thread_step)
| call_init (r : start_replies) (journal_directory : string)
| call_shutdown (r : stop_replies)
| call_mark (pid components : Z)
| call_checkpoint (r : checkpoint_replies) (ch : option char_data)
| call_request (r : checkpoint_replies) (ch : option char_data) (components : Z)
| call_terminal (r : checkpoint_replies) (turns : list wait_turn)
    (ch : option char_data) (timeout_msec : Z) (allow_journal_handoff : bool)
| call_terminal_death (r : death_replies) (turns : list wait_turn) (ch : option char_data)
    (corpse : bool) (timeout_msec : Z) (allow_journal_handoff : bool)
| call_pulse (replies : pulse_replies)
| call_quiesce
| call_resume
| call_drain (turns : list wait_turn) (last_pulse : pulse_replies) (timeout_msec : Z)
| call_acquire (between : list thread_step) (pid expected_revision : Z)
| call_release (pid expected_revision : Z)
| call_end_session (pid : Z)
| call_hydrate (pid durable_revision : Z)
| call_forget (pid : Z)
| call_write (now : Z) (memory : bool) (k : persistence_job_kind) (o size : Z) (f : option W)
| call_characters (l : list char_data).

(** A shutdown that does not return has asked the dispatcher to stop. *)
Definition run_call (w : world) (c : pipeline_call) : world :=
  match c with
  | call_thread step => run_thread w step
  | call_init r dir => from_option snd w (player_save_pipeline_init r dir w)
  | call_shutdown r => default (on_pipe (λ p, {p with pipeline_stop := true}) w) (player_save_pipeline_shutdown r w)
  | call_mark pid components => (player_save_pipeline_mark pid components w).2
  | call_checkpoint r ch => (player_save_pipeline_checkpoint_dirty r ch w).2
  | call_request r ch components => (player_save_pipeline_request r ch components w).2
  | call_terminal r turns ch timeout allow =>
      (player_save_pipeline_terminal r turns ch timeout allow w).2
  | call_terminal_death r turns ch corpse timeout allow =>
      (player_save_pipeline_terminal_death r turns ch corpse timeout allow w).2
  | call_pulse replies => player_save_pipeline_pulse replies w
  | call_quiesce => player_save_pipeline_quiesce w
  | call_resume => player_save_pipeline_resume w
  | call_drain turns last_pulse timeout => (player_save_pipeline_drain turns last_pulse timeout w).2
  | call_acquire between pid revision =>
      (player_save_pipeline_acquire_target_save_login_fence between pid revision w).2
  | call_release pid revision =>
      player_save_pipeline_release_target_save_login_fence pid revision w
  | call_end_session pid => player_save_pipeline_end_session pid w
  | call_hydrate pid revision => {w with revision_states ::= λ t, (player_revision_hydrate pid revision t).2}
  | call_forget pid => {w with revision_states ::= player_revision_forget pid}
  | call_write now memory k o size f =>
      {w with writer ::= λ wk, (persistence_writer_submit blank_snapshot now memory k o size f wk).2}
  | call_characters l => {w with character_list := l}
  end.
End SavePipeline.
