(* ===== verification/SavePipelineMoves.v ===== *)
(** * Moves of the save pipeline

    What [SavePipeline] does to its own state, as a step relation: each call of the game
    thread and each step of the other threads is a sequence of moves, so what every move
    keeps holds over all histories and interleavings. *)

From S2P Require Import Prelude Files RevisionState Snapshot SaveWorker PlayerCodec SaveJournal SavePipeline.

(** ** Moves *)

(** The snapshot the dispatcher carries. *)
Definition carried (p : pipeline) : option player_snapshot :=
  match dispatcher p with
  | dispatcher_appending s | dispatcher_appended s _ => Some s
  | _ => None
  end.

(** The same with what the journal answered. *)
Definition cargo (p : pipeline) : option (player_snapshot * option journal_result) :=
  match dispatcher p with
  | dispatcher_appending s => Some (s, None)
  | dispatcher_appended s result => Some (s, Some result)
  | _ => None
  end.

Lemma carried_cargo p : carried p = fst <$> cargo p.
Proof. unfold carried, cargo. by destruct (dispatcher p). Qed.

(** What the moves are about; counters and switches are left out. *)
Definition core (p : pipeline) :=
  ((pending_append p, durable_ready p, cargo p, retained_bytes p),
   (append_inflight p, append_inflight_pid p),
   (terminal_fences p, login_fences p),
   (past p, ph_initialized (phealth p))).

Definition taken (s : player_snapshot) (rest : list player_snapshot) (p : pipeline) : pipeline :=
  update_depth {p with
    pending_append := rest; dispatcher := dispatcher_appending s;
    append_inflight := true; append_inflight_pid := snapshot_pid s}.
Definition appended (s : player_snapshot) (result : journal_result) (p : pipeline) : pipeline :=
  {p with dispatcher := dispatcher_appended s result;
          past -> journaled ::= λ l, if bool_decide (result = journal_ok) then l ++ [s] else l}.
Definition handed (s : player_snapshot) (rest : list player_snapshot) (accepted : bool)
    (p : pipeline) : pipeline :=
  update_depth {p with
    retained_bytes ::= λ n, wrap 64 (n - encoded_size_bound s);
    durable_ready := rest;
    past -> submitted ::= λ l, if accepted then l ++ [s] else l;
    phealth -> ph_dispatched ::= bump_size}.
Definition read_completions (cs : list player_save_completion) (p : pipeline) : pipeline :=
  {p with phealth -> ph_completions ::= λ n, wrap 64 (n + vsize cs);
          past -> completed ::= λ l, l ++ cs}.
Definition acknowledge_fence (c : player_save_completion) (f : terminal_fence) : terminal_fence :=
  if (tf_revision f =? c_revision c) && applied_durably c (tf_revision f)
  then {f with tf_acknowledged := true} else f.
Definition started (running : bool) (p : pipeline) : pipeline :=
  let p := {p with
    phealth := {no_pipeline_health with ph_initialized := true};
    pipeline_stop := false; accepting := true;
    append_inflight := false; append_inflight_pid := 0} in
  if running then {p with dispatcher := dispatcher_started}
  else {p with phealth -> ph_initialized := false}.
Definition cleared (p : pipeline) : pipeline :=
  update_depth {p with
    pending_append := []; durable_ready := [];
    terminal_fences := no_terminal_fences; login_fences := no_login_fences;
    retained_bytes := 0; accepting := false;
    append_inflight := false; append_inflight_pid := 0;
    phealth -> ph_initialized := false}.

(** What the other threads and a pulse do. *)
Inductive thread_move : relation pipeline :=
| move_aside p p' : core p' = core p → thread_move p p'
| move_take p s rest :
    dispatcher p = dispatcher_waiting → pending_append p = s :: rest →
    thread_move p (taken s rest p)
| move_append p s result :
    dispatcher p = dispatcher_appending s → thread_move p (appended s result p)
| move_store p memory s result :
    dispatcher p = dispatcher_appended s result →
    thread_move p (store_appended memory s result p)
| move_hand p s rest accepted :
    durable_ready p = s :: rest → thread_move p (handed s rest accepted p)
| move_read p cs : thread_move p (read_completions cs p)
| move_acknowledge p c :
    c ∈ completed (past p) →
    thread_move p (with_terminal (c_pid c) (acknowledge_fence c) p).

Inductive fence_kind := the_terminal | the_login.

(** Every move; [free] are the fences that may be taken away. *)
Inductive move (free : fence_kind → Z → Prop) : relation pipeline :=
| move_thread p p' : thread_move p p' → move free p p'
| move_enqueue p memory s :
    u64 (encoded_size_bound s) → move free p (enqueue_snapshot memory s p).2
| move_begin p p1 pid slot f revision :
    allocate_terminal_fence pid p = Some p1 → find_terminal pid p1 = Some (slot, f) →
    move free p (set_terminal slot (TerminalFence pid revision false false) p1)
| move_refuse p p1 pid :
    free the_terminal pid → allocate_terminal_fence pid p = Some p1 →
    move free p (release_terminal pid p1)
| move_set p pid slot f revision :
    find_terminal pid p = Some (slot, f) →
    move free p (set_terminal slot (TerminalFence pid revision false false) p)
| move_release p pid : free the_terminal pid → move free p (release_terminal pid p)
| move_login p p' pid revision :
    has_terminal pid p = false → allocate_login_fence pid revision p = Some p' → move free p p'
| move_login_release p pid revision : free the_login pid → move free p (release_login pid revision p)
| move_start p running : ph_initialized (phealth p) = false → move free p (started running p)
| move_clear p : (∀ kind pid, free kind pid) → carried p = None → move free p (cleared p).

Abbreviation thread_moves := (rtc thread_move).
Abbreviation moves free := (rtc (move free)).

Lemma moves_thread free p p' : thread_moves p p' → moves free p p'.
Proof. apply rtc_subrel. intros ??. apply move_thread. Qed.

Lemma once_thread p p' : thread_move p p' → thread_moves p p'.
Proof. apply rtc_once. Qed.

Lemma aside p p' : core p' = core p → thread_moves p p'.
Proof. intros E. by apply rtc_once, move_aside. Qed.

Lemma beside free p p' : core p' = core p → moves free p p'.
Proof. intros E. by apply moves_thread, aside. Qed.

(** ** The calls are moves *)

Section Calls.
Context `{Process} {W D : Type}.
Context (apply : player_snapshot → D → option player_save_apply_result * D).
#[local] Abbreviation the_world := (@world W D).
Implicit Types (w : the_world) (p : pipeline).

Definition capture_typed (r : checkpoint_replies) : Prop :=
  ∀ revision components s, ck_capture r revision components = Some s → u64 (encoded_size_bound s).

(** What the calls pass of the type [size_t]. *)
Definition call_typed (c : pipeline_call (W := W)) : Prop :=
  match c with
  | call_checkpoint r _ | call_request r _ _ | call_terminal r _ _ _ _ => capture_typed r
  | call_terminal_death r _ _ _ _ _ =>
      ∀ revision s, dr_capture r revision = Some s → u64 (encoded_size_bound s)
  | _ => True
  end.

Lemma on_writer_pipe g w : pipe (on_writer g w) = pipe w.
Proof. unfold on_writer. by destruct (g (writer w)). Qed.

Lemma run_dispatcher_moves step w w' :
  run_dispatcher apply step w = Some w' → thread_moves (pipe w) (pipe w').
Proof.
  unfold run_dispatcher. destruct step, (dispatcher (pipe w)) eqn:E; try done.
  - intros [= <-]. apply aside. unfold core, cargo. by rewrite E.
  - destruct (if mysql_ready then _ else _) as [[replay d] j]. intros [= <-].
    apply aside. unfold core, cargo. by rewrite E.
  - destruct (pending_append (pipe w)) as [|s rest] eqn:P.
    + destruct (pipeline_stop _); intros [= <-]. apply aside. unfold core, cargo. by rewrite E.
    + intros [= <-]. apply rtc_once. by apply move_take.
  - destruct (player_save_journal_append _ _ _ _) as [result j]. intros [= <-].
    apply rtc_once. by apply move_append.
  - intros [= <-]. apply rtc_once. by apply move_store.
Qed.

Lemma run_thread_moves w step : thread_moves (pipe w) (pipe (run_thread apply w step)).
Proof.
  destruct step; cbn [run_thread]; rewrite ?on_writer_pipe; try done.
  destruct (run_dispatcher _ _ _) eqn:E; [|done]. by apply run_dispatcher_moves in E.
Qed.

Lemma run_threads_moves steps w : thread_moves (pipe w) (pipe (run_threads apply steps w)).
Proof.
  unfold run_threads. revert w. induction steps as [|step steps IH]; intros w; [done|].
  cbn [foldl]. etransitivity; [apply run_thread_moves|apply IH].
Qed.

(** *** The pulse *)

Lemma handle_completion_moves (st : the_world * pulse_notes) c :
  c ∈ completed (past (pipe st.1)) →
  thread_moves (pipe st.1) (pipe (handle_completion st c).1)
  ∧ past (pipe (handle_completion st c).1) = past (pipe st.1).
Proof.
  destruct st as [w notes]. unfold handle_completion. cbn [fst]. intros C.
  destruct (negb _); [by split|].
  set (w1 := if applied_durably _ _ then _ else _).
  assert (pipe w1 = pipe w) as P1 by (unfold w1; by destruct (applied_durably _ _)).
  clearbody w1. rewrite P1.
  set (p1 := match c_outcome c with applied => _ | _ => _ end).
  assert (core p1 = core (pipe w)) as P2 by (unfold p1; by destruct (c_outcome c)).
  assert (past p1 = past (pipe w)) as P3 by (by injection P2). clearbody p1.
  set (p2 := with_terminal _ _ p1).
  assert (thread_moves (pipe w) p2) as M.
  { etransitivity; [by apply aside|]. apply rtc_once.
    apply (move_acknowledge p1 c). by rewrite P3. }
  assert (past p2 = past (pipe w)) as P4.
  { unfold p2, with_terminal. by destruct (find_terminal _ _) as [[]|]. }
  clearbody p2. destruct (failed_with c PLAYER_SAVE_ERROR_CUSTODY_PAYLOAD_MISMATCH); cbn [fst pipe].
  - split; [|done]. etransitivity; [exact M|]. by apply aside.
  - by split.
Qed.

Lemma handle_completions_moves cs (st : the_world * pulse_notes) :
  (∀ c, c ∈ cs → c ∈ completed (past (pipe st.1))) →
  thread_moves (pipe st.1) (pipe (foldl handle_completion st cs).1).
Proof.
  revert st. induction cs as [|c cs IH]; intros st C; [done|]. cbn [foldl].
  destruct (handle_completion_moves st c) as [M P]; [apply C; by left|].
  etransitivity; [exact M|]. apply IH. intros d I. rewrite P. apply C. by right.
Qed.

Lemma recapture_pipe w m : pipe (recapture w m) = pipe w.
Proof. unfold recapture. destruct m as [c allowed]. by destruct (_ && _). Qed.
Lemma need_baseline_pipe w pid : pipe (need_baseline w pid) = pipe w.
Proof. unfold need_baseline. by destruct (list_find _ _) as [[]|]. Qed.
Lemma retire_pipe pid w : pipe (retire_ended_player pid w) = pipe w.
Proof. unfold retire_ended_player. destruct (player_revision_snapshot_copy _ _); [|done]. by destruct (_ && _). Qed.

Lemma foldl_pipe {A} (g : the_world → A → the_world) l w :
  (∀ (w : the_world) a, pipe (g w a) = pipe w) → pipe (foldl g w l) = pipe w.
Proof. intros G. revert w. induction l as [|a l IH]; intros w; [done|]. cbn [foldl]. by rewrite IH. Qed.

Lemma submit_loop_moves budget replies w :
  thread_moves (pipe w) (pipe (submit_loop apply budget replies w)).
Proof.
  revert w. induction budget as [|budget IH]; intros w; [done|]. cbn [submit_loop].
  destruct (replies budget) as [[steps now] memory].
  etransitivity; [apply (run_threads_moves steps)|]. set (w1 := run_threads apply steps w). clearbody w1.
  destruct (durable_ready (pipe w1)) as [|s rest] eqn:E; [done|].
  destruct (player_save_worker_submit_retained now memory (worker_snapshot s) (writer w1)) as [[answer kept] wk].
  destruct (_ || _); [done|]. etransitivity; [|apply IH].
  apply rtc_once. exact (move_hand (pipe w1) s rest (is_accepted answer) E).
Qed.

Lemma pulse_moves replies w : thread_moves (pipe w) (pipe (player_save_pipeline_pulse apply replies w)).
Proof.
  unfold player_save_pipeline_pulse. destruct (player_save_worker_pulse PLAYER_SAVE_PIPELINE_PULSE_BUDGET (writer w)) as [completions wk].
  set (w1 := on_pipe _ _).
  assert (pipe w1 = read_completions completions (pipe w)) as P1 by done.
  destruct (foldl handle_completion _ _) as [w2 notes] eqn:Hc.
  etransitivity; [|apply submit_loop_moves].
  rewrite (foldl_pipe (λ w c, retire_ended_player (c_pid c) w)) by (intros; apply retire_pipe).
  etransitivity; [|apply run_threads_moves].
  rewrite !foldl_pipe by (intros; apply need_baseline_pipe || apply recapture_pipe).
  change w2 with (w2, notes).1. rewrite <- Hc. etransitivity; [apply rtc_once, (move_read _ completions)|].
  rewrite <- P1. apply (handle_completions_moves completions (w1, PulseNotes [] [])). intros c C. cbn [fst]. rewrite P1.
  apply elem_of_app. by right.
Qed.

Lemma take_turn_moves t w : thread_moves (pipe w) (pipe (take_turn apply t w)).
Proof.
  unfold take_turn. etransitivity; [apply (run_threads_moves (wt_before t))|].
  etransitivity; [apply pulse_moves|apply run_threads_moves].
Qed.

(** *** Starting and stopping *)

Lemma worker_shutdown_moves steps w w' :
  worker_shutdown apply steps w = Some w' → thread_moves (pipe w) (pipe w').
Proof.
  unfold worker_shutdown. pose proof (run_threads_moves steps {w with writer ::= shutdown_request}) as M.
  set (w1 := run_threads _ _ _) in *. clearbody w1.
  destruct (shutdown_finish false (writer w1)); [|done]. by intros [= <-].
Qed.

(** A pipeline that does not run has nothing to dispatch. *)
Lemma init_moves free r dir w ok w' :
  player_save_pipeline_init apply r dir w = Some (ok, w') → moves free (pipe w) (pipe w').
Proof.
  unfold player_save_pipeline_init. destruct (negb (absolute dir)); [by intros [= <- <-]|].
  destruct (ph_initialized _) eqn:I; [by intros [= <- <-]|].
  destruct (player_save_journal_init _ _ _ _ _) as [[] j]; cbn [negb]; [|by intros [= <- <-]].
  destruct (player_save_worker_init _ _ _) as [[] wk]; cbn [negb]; [|by intros [= <- <-]].
  destruct (player_save_worker_set_journal_hooks _ _ _) as [[] wk2]; cbn [negb].
  - destruct (st_dispatcher_thread r).
    + intros [= <- <-]. apply rtc_once. exact (move_start free (pipe w) true I).
    + destruct (worker_shutdown _ _ _) as [w2|] eqn:S; [|done]. intros [= <- <-].
      apply worker_shutdown_moves in S. etransitivity; [apply rtc_once; exact (move_start free (pipe w) false I)|].
      by apply moves_thread.
  - destruct (worker_shutdown _ _ _) as [w2|] eqn:S; [|done]. intros [= <- <-].
    apply worker_shutdown_moves in S. by apply moves_thread.
Qed.

(** The pulse leaves the dispatcher alone, and one that was joined stays so. *)
Lemma with_terminal_dispatcher pid g p : dispatcher (with_terminal pid g p) = dispatcher p.
Proof. unfold with_terminal. by destruct (find_terminal _ _) as [[]|]. Qed.

Lemma handle_completion_dispatcher (st : the_world * pulse_notes) c :
  dispatcher (pipe (handle_completion st c).1) = dispatcher (pipe st.1).
Proof.
  destruct st as [w notes]. unfold handle_completion. cbn [fst].
  destruct (negb _); [done|]. cbv zeta.
  set (w1 := if applied_durably _ _ then _ else _).
  assert (pipe w1 = pipe w) as -> by (unfold w1; by destruct (applied_durably _ _)).
  set (p1 := match c_outcome c with applied => _ | _ => _ end).
  assert (dispatcher p1 = dispatcher (pipe w)) as <- by (unfold p1; by destruct (c_outcome c)).
  clearbody p1. rewrite <- (with_terminal_dispatcher (c_pid c)
    (λ f, if (tf_revision f =? c_revision c) && applied_durably c (tf_revision f)
          then {f with tf_acknowledged := true} else f) p1).
  by destruct (failed_with c PLAYER_SAVE_ERROR_CUSTODY_PAYLOAD_MISMATCH).
Qed.

Lemma threads_absent steps w :
  dispatcher (pipe w) = dispatcher_absent →
  dispatcher (pipe (run_threads apply steps w)) = dispatcher_absent.
Proof.
  unfold run_threads. revert w. induction steps as [|step steps IH]; intros w E; [done|].
  cbn [foldl]. apply IH. destruct step; cbn [run_thread]; rewrite ?on_writer_pipe; try done.
  assert (run_dispatcher apply step w = None) as -> by (unfold run_dispatcher; rewrite E; by destruct step).
  done.
Qed.

Lemma submit_loop_absent budget replies w :
  dispatcher (pipe w) = dispatcher_absent →
  dispatcher (pipe (submit_loop apply budget replies w)) = dispatcher_absent.
Proof.
  revert w. induction budget as [|budget IH]; intros w A; [done|]. cbn [submit_loop].
  destruct (replies budget) as [[steps now] memory]. apply (threads_absent steps) in A.
  set (w1 := run_threads apply steps w) in *. clearbody w1.
  destruct (durable_ready (pipe w1)) as [|s rest]; [done|].
  destruct (player_save_worker_submit_retained now memory (worker_snapshot s) (writer w1)) as [[answer kept] wk].
  destruct (_ || _); [done|]. by apply IH.
Qed.

Lemma pulse_absent replies w :
  dispatcher (pipe w) = dispatcher_absent →
  dispatcher (pipe (player_save_pipeline_pulse apply replies w)) = dispatcher_absent.
Proof.
  intros A. unfold player_save_pipeline_pulse.
  destruct (player_save_worker_pulse PLAYER_SAVE_PIPELINE_PULSE_BUDGET (writer w)) as [completions wk].
  set (w1 := on_pipe _ _). assert (dispatcher (pipe w1) = dispatcher_absent) as A1 by done. clearbody w1.
  destruct (foldl handle_completion _ _) as [w2 notes] eqn:Hc. apply submit_loop_absent.
  rewrite (foldl_pipe (λ w c, retire_ended_player (c_pid c) w)) by (intros; apply retire_pipe).
  apply threads_absent.
  rewrite !foldl_pipe by (intros; apply need_baseline_pipe || apply recapture_pipe).
  change w2 with (w2, notes).1. rewrite <- Hc. clear Hc.
  assert (dispatcher (pipe (w1, PulseNotes [] []).1) = dispatcher_absent) as A2 by done. revert A2.
  generalize (w1, PulseNotes [] []) as st.
  induction completions as [|c cs IH]; intros st A2; [done|]. cbn [foldl]. apply IH.
  by rewrite handle_completion_dispatcher.
Qed.

Lemma worker_shutdown_absent steps w w' :
  worker_shutdown apply steps w = Some w' → dispatcher (pipe w) = dispatcher_absent →
  dispatcher (pipe w') = dispatcher_absent.
Proof.
  unfold worker_shutdown. intros E A.
  assert (∀ w1 : the_world, dispatcher (pipe w1) = dispatcher_absent →
    match shutdown_finish false (writer w1) with
    | Some wk => Some {w1 with writer := wk}
    | None => None
    end = Some w' → dispatcher (pipe w') = dispatcher_absent) as K.
  { intros w1 A1. destruct (shutdown_finish false (writer w1)); [|done]. by intros [= <-]. }
  refine (K _ _ E). by apply threads_absent.
Qed.

Lemma shutdown_moves (free : fence_kind → Z → Prop) r w w' :
  (∀ kind pid, free kind pid) →
  player_save_pipeline_shutdown apply r w = Some w' → moves free (pipe w) (pipe w').
Proof.
  intros Fr. unfold player_save_pipeline_shutdown. set (w0 := on_pipe _ w).
  assert (thread_moves (pipe w) (pipe w0)) as M0 by by apply aside. clearbody w0.
  set (w1 := run_threads _ _ _). assert (thread_moves (pipe w) (pipe w1)) as M1
    by (etransitivity; [exact M0|apply run_threads_moves]). clearbody w1.
  destruct (join_dispatcher w1) as [w2|] eqn:J; [|done].
  assert (thread_moves (pipe w) (pipe w2) ∧ dispatcher (pipe w2) = dispatcher_absent) as [M2 A2].
  { unfold join_dispatcher in J. destruct (dispatcher (pipe w1)) eqn:E; try done.
    - injection J as <-. by split.
    - injection J as <-. split; [|done]. etransitivity; [exact M1|].
      apply aside. unfold core, cargo. by rewrite E. }
  set (w3 := player_save_pipeline_pulse apply (sp_pulse r) w2).
  set (w4 := run_threads apply (sp_wait r) w3).
  set (w5 := player_save_pipeline_pulse apply (sp_last_pulse r) w4).
  assert (thread_moves (pipe w) (pipe w5) ∧ dispatcher (pipe w5) = dispatcher_absent) as [M5 A5].
  { split.
    - etransitivity; [exact M2|]. etransitivity; [apply pulse_moves|].
      etransitivity; [apply run_threads_moves|]. apply pulse_moves.
    - by apply pulse_absent, threads_absent, pulse_absent. }
  clearbody w5. destruct (worker_shutdown _ _ _) as [w6|] eqn:S; [|done]. intros [= <-].
  assert (dispatcher (pipe w6) = dispatcher_absent) as A6.
  { by eapply worker_shutdown_absent. }
  apply worker_shutdown_moves in S. etransitivity; [apply moves_thread; by etransitivity|].
  apply rtc_once. apply (move_clear free (pipe w6)); [done|]. unfold carried. by rewrite A6.
Qed.

(** *** Saving *)

Section Free.
Context (free : fence_kind → Z → Prop).

Lemma with_terminal_set pid revision g p :
  (∀ f, tf_pid f = pid → g f = TerminalFence pid revision false false) →
  moves free p (with_terminal pid g p).
Proof.
  intros G. unfold with_terminal. destruct (find_terminal pid p) as [[slot f]|] eqn:F; [|done].
  apply rtc_once. pose proof F as F'. unfold find_terminal in F'. apply list_find_Some in F' as (_ & P & _).
  rewrite G by done. by eapply move_set.
Qed.

Lemma mark_moves pid components w :
  moves free (pipe w) (pipe (player_save_pipeline_mark pid components w).2).
Proof.
  unfold player_save_pipeline_mark. destruct (negb _); [done|]. destruct (login_fenced _ _); [done|].
  destruct (player_revision_mark _ _ _) as [[revision|] t]; [|done]. cbn [snd].
  etransitivity; [apply (with_terminal_set pid revision
    (λ f, {f with tf_revision := revision; tf_journaled := false; tf_acknowledged := false}))|by apply beside].
  by intros [] [= ->].
Qed.

Lemma checkpoint_moves r ch w :
  capture_typed r →
  moves free (pipe w) (pipe (player_save_pipeline_checkpoint_dirty apply r ch w).2).
Proof.
  intros T. unfold player_save_pipeline_checkpoint_dirty. destruct ch as [ch|]; [|done].
  repeat (match goal with |- context [if ?b then (_, _) else _] => destruct b; [done|] end).
  destruct (player_revision_snapshot_copy _ _) as [revision|]; [|done].
  destruct (negb _ && _); [by apply beside|].
  destruct (player_revision_queue _ _) as [[[q components]|] t]; [|done].
  pose proof (run_threads_moves (ck_threads r) {w with revision_states := t}) as R.
  set (w1 := run_threads _ _ _) in *. clearbody w1. apply (moves_thread free) in R.
  etransitivity; [exact R|].
  destruct (ck_capture r q components) as [s|] eqn:C; [|by apply beside].
  apply T in C. pose proof (move_enqueue free (pipe w1) (ck_memory r) s C) as M.
  destruct (enqueue_snapshot (ck_memory r) s (pipe w1)) as [result p]. by apply rtc_once.
Qed.

Lemma allocate_finds pid p p1 :
  allocate_terminal_fence pid p = Some p1 → is_Some (find_terminal pid p1).
Proof.
  unfold allocate_terminal_fence. destruct (login_fenced _ _); [done|].
  destruct (find_terminal pid p) as [sf|] eqn:F; [by intros [= <-]|].
  destruct (find_terminal 0 p) as [[slot f]|] eqn:Z0; [|done]. intros [= <-].
  apply list_find_Some in Z0 as (L & _ & _). unfold find_terminal.
  apply (list_find_elem_of _ _ {f with tf_pid := pid}); [|done].
  apply (list_elem_of_lookup_2 _ slot). apply list_lookup_insert_eq. by eapply lookup_lt_Some.
Qed.

Lemma begin_moves pid w : free the_terminal pid → moves free (pipe w) (pipe (begin_terminal_fence pid w).2).
Proof.
  intros Fr. unfold begin_terminal_fence. destruct (_ || _); [done|].
  destruct (allocate_terminal_fence _ _) as [p|] eqn:A; [|done].
  destruct (player_revision_mark _ _ _) as [[revision|] t].
  - change (find_terminal pid (pipe _)) with (find_terminal pid p).
    destruct (allocate_finds _ _ _ A) as [[slot f] F]. rewrite F. apply rtc_once.
    by eapply (move_begin free _ p).
  - apply rtc_once. by apply (move_refuse free (pipe w) p pid).
Qed.

Lemma find_terminal_same pid p p' :
  terminal_fences p' = terminal_fences p → find_terminal pid p' = find_terminal pid p.
Proof. unfold find_terminal. by intros ->. Qed.

Lemma release_slot pid slot f p p' :
  free the_terminal pid → find_terminal pid p = Some (slot, f) → core p' = core p →
  moves free p (set_terminal slot no_terminal_fence p').
Proof.
  intros Fr F E. etransitivity; [by apply beside|]. apply rtc_once.
  assert (set_terminal slot no_terminal_fence p' = release_terminal pid p') as ->; [|by apply move_release].
  unfold release_terminal, with_terminal. by rewrite (find_terminal_same pid p p'), F by by injection E.
Qed.

Lemma await_moves turns pid revision allow w :
  free the_terminal pid → moves free (pipe w) (pipe (await_terminal_fence apply turns pid revision allow w).2).
Proof.
  intros Fr. revert w. induction turns as [|t turns IH]; intros w; cbn [await_terminal_fence]; [by apply beside|].
  etransitivity; [apply moves_thread, (take_turn_moves t)|]. set (w1 := take_turn apply t w). clearbody w1.
  destruct (find_terminal pid (pipe w1)) as [[slot f]|] eqn:F; [|done].
  destruct (negb _); [done|].
  destruct (tf_acknowledged f); [by eapply (release_slot pid)|].
  destruct (_ && _); [by eapply (release_slot pid)|]. apply IH.
Qed.

Lemma terminal_moves r turns ch timeout allow w :
  from_option (free the_terminal ∘ ch_pid) True ch → capture_typed r →
  moves free (pipe w) (pipe (player_save_pipeline_terminal apply r turns ch timeout allow w).2).
Proof.
  intros Fr T. unfold player_save_pipeline_terminal. destruct ch as [c|]; [|done].
  do 2 (match goal with |- context [if ?b then (_, _) else _] => destruct b; [done|] end).
  pose proof (begin_moves (ch_pid c) w Fr) as B.
  destruct (begin_terminal_fence _ _) as [[revision|] w1]; [|done].
  pose proof (checkpoint_moves r (Some c) w1 T) as C.
  destruct (player_save_pipeline_checkpoint_dirty _ _ _ _) as [result w2].
  etransitivity; [exact B|]. etransitivity; [exact C|]. by apply await_moves.
Qed.

Lemma terminal_death_moves r turns ch corpse timeout allow w :
  from_option (free the_terminal ∘ ch_pid) True ch →
  (∀ revision s, dr_capture r revision = Some s → u64 (encoded_size_bound s)) →
  moves free (pipe w) (pipe (player_save_pipeline_terminal_death apply r turns ch corpse timeout allow w).2).
Proof.
  intros Fr T. unfold player_save_pipeline_terminal_death. destruct ch as [c|]; [|done].
  do 2 (match goal with |- context [if ?b then (_, _) else _] => destruct b; [done|] end).
  pose proof (begin_moves (ch_pid c) w Fr) as B.
  destruct (begin_terminal_fence _ _) as [[revision|] w1]; [|done]. cbn [snd] in B.
  assert (∀ w3 : the_world, moves free (pipe w1) (pipe w3) →
    moves free (pipe w) (pipe (on_pipe (release_terminal (ch_pid c)) w3))) as R.
  { intros w3 M. etransitivity; [exact B|]. etransitivity; [exact M|]. apply rtc_once.
    by apply (move_release free (pipe w3) (ch_pid c)). }
  pose proof (run_threads_moves (dr_threads r) w1) as Rt.
  set (w2 := run_threads _ _ _) in *. clearbody w2. apply (moves_thread free) in Rt.
  destruct (dr_capture r revision) as [s|] eqn:C;
    [|apply R; etransitivity; [exact Rt|by apply beside]]. apply T in C.
  destruct (player_revision_queue _ _) as [[[q components]|] t]; [|by apply R].
  destruct (_ || _); [by apply R|].
  pose proof (move_enqueue free (pipe w2) (dr_memory r) s C) as M.
  change (pipe {w2 with revision_states := t}) with (pipe w2).
  destruct (enqueue_snapshot (dr_memory r) s (pipe w2)) as [result p]. cbn [snd] in M.
  apply (rtc_r _ _ _ Rt) in M.
  destruct (_ || _); [|by apply R].
  etransitivity; [exact B|]. etransitivity; [exact M|].
  exact (await_moves turns (ch_pid c) revision allow {w2 with revision_states := t; pipe := p} Fr).
Qed.

Lemma drain_moves turns last_pulse w : moves free (pipe w) (pipe (drain_loop apply turns last_pulse w).2).
Proof.
  revert w. induction turns as [|t turns IH]; intros w; cbn [drain_loop]; [by apply beside|].
  etransitivity; [apply moves_thread, (take_turn_moves t)|]. destruct (_ && _); [apply moves_thread, pulse_moves|apply IH].
Qed.

Lemma acquire_moves between pid revision w :
  free the_login pid → moves free (pipe w)
    (pipe (player_save_pipeline_acquire_target_save_login_fence apply between pid revision w).2).
Proof.
  intros Fr. unfold player_save_pipeline_acquire_target_save_login_fence.
  destruct (_ || _) eqn:G; [done|]. apply orb_false_elim in G as [G _]. cbv zeta.
  destruct (if _ || _ then None else _) as [p|] eqn:A; [|done].
  destruct (_ || _) eqn:Hd in A; [done|].
  assert (has_terminal pid (pipe w) = false) as T.
  { unfold pipeline_holds in Hd. by repeat apply orb_false_elim in Hd as [Hd ?]. }
  set (w1 := run_threads _ _ _).
  assert (moves free (pipe w) (pipe w1)) as M.
  { etransitivity; [apply rtc_once; by eapply move_login|]. apply moves_thread. exact (run_threads_moves between {w with pipe := p}). }
  clearbody w1.
  assert (moves free (pipe w) (release_login pid revision (pipe w1))) as R
    by (etransitivity; [exact M|by apply rtc_once, move_login_release]).
  assert (∀ w2, w2 = player_save_pipeline_release_target_save_login_fence pid revision w1 →
            moves free (pipe w) (pipe w2)) as R2.
  { intros w2 ->. unfold player_save_pipeline_release_target_save_login_fence. by rewrite G. }
  destruct (player_save_worker_pid_pending _ _); [by apply R2|].
  destruct (from_option _ _ _); [by apply R2|].
  destruct (find_login pid (pipe w1)) as [[slot f]|]; [|done].
  destruct (_ || _ || any_snapshot_is_retained _ _); [exact R|exact M].
Qed.

End Free.

(** *** Every call *)

(** The fences a call may take away. *)
Definition frees (c : pipeline_call (W := W)) (kind : fence_kind) (pid : Z) : Prop :=
  match kind, c with
  | _, call_shutdown _ => True
  | the_terminal, (call_terminal _ _ ch _ _ | call_terminal_death _ _ ch _ _ _) =>
      from_option ch_pid 0 ch = pid
  | the_login, (call_acquire _ q _ | call_release q _) => q = pid
  | _, _ => False
  end.

Lemma run_call_moves (free : fence_kind → Z → Prop) w c :
  call_typed c → (∀ kind pid, frees c kind pid → free kind pid) → moves free (pipe w) (pipe (run_call apply w c)).
Proof.
  intros T Fr. destruct c; cbn [run_call call_typed] in *.
  - apply moves_thread, run_thread_moves.
  - destruct (player_save_pipeline_init _ _ _ _) as [[ok w']|] eqn:E; [|done]. by eapply init_moves in E.
  - destruct (player_save_pipeline_shutdown _ _ _) as [w'|] eqn:E; [|by apply beside].
    eapply shutdown_moves in E; [exact E|]. intros [] pid; by apply Fr.
  - apply mark_moves.
  - by apply checkpoint_moves.
  - unfold player_save_pipeline_request. destruct ch as [c|]; [|done].
    do 2 (match goal with |- context [if ?b then (_, _) else _] => destruct b; [done|] end).
    pose proof (mark_moves free (ch_pid c) components w) as M.
    destruct (player_save_pipeline_mark _ _ _) as [[] w1]; [|done].
    etransitivity; [exact M|by apply checkpoint_moves].
  - apply terminal_moves; [|done]. destruct ch; [|done]. by apply (Fr the_terminal).
  - apply terminal_death_moves; [|done]. destruct ch; [|done]. by apply (Fr the_terminal).
  - apply moves_thread, pulse_moves.
  - by apply beside.
  - apply beside. change (pipe (player_save_pipeline_resume w)) with (update_depth
      (if ph_initialized (phealth (pipe w)) && negb (pipeline_stop (pipe w))
       then {pipe w with accepting := true} else pipe w)).
    by destruct (ph_initialized (phealth (pipe w)) && negb (pipeline_stop (pipe w))).
  - unfold player_save_pipeline_drain. destruct (negb _); [done|].
    etransitivity; [by apply (beside free _ (pipe (player_save_pipeline_quiesce w)))|apply drain_moves].
  - apply acquire_moves. by apply (Fr the_login).
  - unfold player_save_pipeline_release_target_save_login_fence. destruct (_ <=? _); [done|].
    apply rtc_once. apply (move_login_release free (pipe w) pid expected_revision). by apply (Fr the_login).
  - unfold player_save_pipeline_end_session. destruct (_ || _); [done|]. by rewrite retire_pipe.
  - done.
  - done.
  - done.
  - done.
Qed.

Lemma run_calls_moves (free : fence_kind → Z → Prop) cs w :
  Forall call_typed cs → (∀ c kind pid, c ∈ cs → frees c kind pid → free kind pid) →
  moves free (pipe w) (pipe (foldl (run_call apply) w cs)).
Proof.
  intros F. revert w. induction F as [|c cs T F IH]; intros w Fr; [done|]. cbn [foldl].
  etransitivity; [apply run_call_moves; [done|intros kind pid; apply Fr; by left]|].
  apply IH. intros d kind pid I. apply Fr. by right.
Qed.
End Calls.
