(* ===== verification/SavePipelineWriter.v ===== *)
(** * What the save pipeline hands its writer

    The writer's side of the histories of [SavePipeline].  The index of the queued jobs is
    exact in every state of the writer, whatever the sizes of the jobs are; and a call of the
    pipeline, with any steps of the threads in it, brings a job of a player to the writer only
    together with an entry of the history of submissions. *)

From S2P Require Import Prelude Files RevisionState Snapshot SaveWorker PlayerCodec SaveJournal SavePipeline SavePipelineMoves.

(** ** The jobs of the writer *)

Section Jobs.
Context {B W : Type} (no_body : B).
#[local] Abbreviation the_worker := (@SaveWorker.worker B W).
#[local] Abbreviation the_job := (@SaveWorker.queued_job B W).
Implicit Types (w : the_worker) (j job : the_job).

(** The job being written and the queued ones. *)
Definition jobs_of w : list the_job :=
  option_list (inflight (pending w)) ++ (queue (pending w)).*2.

(** What makes a job of a player. *)
Definition player_owned j : Prop := kind j = player → owner j = wrap 64 (pid (snapshot j)).

(** The index names the newest job of each owner, and a player's jobs are under its number. *)
Record indexed w : Prop := {
  idx_nodes : NoDup (queue (pending w)).*1;
  idx_fresh : Forall (λ p, (p.1 < next_node (pending w))%nat) (queue (pending w));
  idx_index : ∀ k, queued_by_owner (pending w) !! k = fst <$> newest k (queue (pending w));
  idx_owned : Forall player_owned (jobs_of w);
}.

Lemma indexed_initial : indexed initial_worker.
Proof. constructor; [apply NoDup_nil_2|done|done|by apply Forall_nil_2]. Qed.

(** A change of anything but the queue and its index, which may end the job in flight. *)
Lemma indexed_same w w' :
  queue (pending w') = queue (pending w) → next_node (pending w') = next_node (pending w) →
  queued_by_owner (pending w') = queued_by_owner (pending w) → jobs_of w' ⊆ jobs_of w →
  indexed w → indexed w'.
Proof.
  intros Q N I J []. constructor; rewrite ?Q, ?N, ?I; try done.
  rewrite Forall_forall in *. auto.
Qed.

(** The tail of the queue that the index names is the job a submission replaces. *)
Lemma tail_of_index w job node :
  indexed w → queued_by_owner (pending w) !! job_key job = Some node →
  is_tail node (pending w) = true →
  ∃ front old, queue (pending w) = front ++ [(node, old)] ∧ job_key old = job_key job.
Proof.
  intros [N _ I _] L T. unfold is_tail in T. destruct (last (queue (pending w))) as [[n old]|] eqn:La; [|done].
  apply Nat.eqb_eq in T as ->. apply last_Some in La as [front Q]. exists front, old. split; [done|].
  rewrite I, Q, newest_app, newest_single in L. rewrite Q in N.
  case_bool_decide as K; [done|]. destruct (newest _ front) as [[m y]|] eqn:F; [|done].
  simpl in L. injection L as ->. apply newest_elem in F as [F _]. exfalso.
  rewrite fmap_app in N. apply NoDup_app in N as (_ & D & _). apply (D node); [|set_solver].
  by apply (list_elem_of_fmap_2 fst) in F.
Qed.

Lemma player_owned_at now j : player_owned j → player_owned (queued_at now j).
Proof. done. Qed.

(** A submission adds its job or takes another's place. *)
Lemma enqueue_indexed now memory job w r e w' :
  indexed w → player_owned job → enqueue now memory job w = (r, e, w') →
  indexed w' ∧ ∀ j, j ∈ jobs_of w' → j ∈ jobs_of w ∨ is_accepted r = true ∧ j = queued_at now job.
Proof.
  intros I O H. unfold enqueue in H.
  assert (indexed w ∧ ∀ j, j ∈ jobs_of w → j ∈ jobs_of w ∨ is_accepted r = true ∧ j = queued_at now job)
    as Same by auto.
  destruct (negb (running w) || stop_requested w); [by injection H as _ _ <-|].
  destruct (_ || _ || _) in H; [by injection H as _ _ <-|].
  change (job_key (queued_at now job)) with (job_key job) in H.
  assert (∀ c, (if negb memory then (SaveWorker.unavailable, Some ENOMEM, w) else (SaveWorker.accepted, None, c)) = (r, e, w') →
    indexed c ∧ jobs_of c = jobs_of w ++ [queued_at now job] →
    indexed w' ∧ ∀ j, j ∈ jobs_of w' → j ∈ jobs_of w ∨ is_accepted r = true ∧ j = queued_at now job) as Add.
  { intros c E [Ic Jc]. destruct memory; simpl in E; [|by injection E as _ _ <-].
    injection E as <- _ <-. split; [done|]. rewrite Jc. intros j J.
    apply elem_of_app in J as [J|J%list_elem_of_singleton]; auto. }
  destruct (replaceable job (pending w)) as [previous|] eqn:R;
    [destruct (queued_by_owner (pending w) !! job_key job) as [node|] eqn:L|].
  - clear Add. injection H as <- _ <-. unfold replaceable in R. rewrite L in R.
    destruct (node_job node (pending w)); [|done]. destruct (_ && _) eqn:T in R; [|done].
    apply andb_prop in T as [T _]. apply andb_prop in T as [T _].
    destruct (tail_of_index w job node I L T) as (front & old & Q & K).
    pose proof (idx_nodes _ I) as N. rewrite Q in N.
    pose proof (set_node_last node old (queued_at now job) front N) as SN. rewrite <- Q in SN.
    destruct I as [_ F Ix Ow]. split; [constructor|]; unfold jobs_of in *; simpl; rewrite SN.
    + by rewrite fmap_app in *.
    + rewrite Q, Forall_app in F. destruct F as [F1 F2]. apply Forall_app. split; [done|].
      inversion F2. by repeat constructor.
    + intros k. rewrite Ix, Q, !newest_app, !newest_single.
      change (job_key (queued_at now job)) with (job_key job). rewrite K. by case_bool_decide.
    + rewrite Q, !fmap_app, !Forall_app in *. simpl in *. destruct Ow as (Ow1 & Ow2 & _).
      split_and!; [done|done|by repeat constructor].
    + intros j J. rewrite Q. rewrite fmap_app in *. simpl in *. set_solver.
  - unfold replaceable in R. by rewrite L in R.
  - eapply Add; [by destruct (queued_by_owner (pending w) !! job_key job)|]. clear Add H Same.
    destruct I as [N F Ix Ow]. split; [constructor|]; unfold jobs_of in *; simpl.
    + rewrite fmap_app. simpl. apply NoDup_app. split_and!; [done| |apply NoDup_singleton].
      intros n Hn. rewrite list_elem_of_singleton. intros ->.
      apply list_elem_of_fmap in Hn as [[m i] [Heq Hn]]. rewrite Forall_forall in F.
      apply F in Hn. simpl in *. lia.
    + apply Forall_app. split; [|by repeat constructor; simpl; lia].
      eapply Forall_impl; [exact F|]. simpl. lia.
    + intros k. rewrite newest_app, newest_single, lookup_insert.
      change (job_key (queued_at now job)) with (job_key job).
      case_decide; case_bool_decide; done.
    + rewrite fmap_app, !Forall_app in *. simpl. destruct Ow. split_and!; try done. by apply Forall_singleton.
    + rewrite fmap_app. by rewrite (assoc_L (++)).
Qed.

(** The writer that has nothing of a player pending has no job of it. *)
Lemma not_pending w p : indexed w → 0 < p → u64 p → player_save_worker_pid_pending p w = false →
  ∀ j, j ∈ jobs_of w → kind j = player → pid (snapshot j) ≠ p.
Proof.
  intros I Pp Up P j J K E. unfold player_save_worker_pid_pending in P.
  rewrite (proj2 (Z.leb_gt _ _)) in P by done.
  apply orb_false_elim in P as [P _]. apply orb_false_elim in P as [P1 P2].
  apply bool_decide_eq_false_1 in P2. pose proof (idx_owned _ I) as O. rewrite Forall_forall in O.
  assert (job_key j = (player, p)) as Kj.
  { unfold job_key. rewrite (O j J K), K, E. by rewrite wrap_id. }
  unfold jobs_of in J. apply elem_of_app in J as [J|J].
  - destruct (inflight (pending w)); [|by apply elem_of_nil in J].
    apply list_elem_of_singleton in J as ->. simpl in P1. rewrite K, E, Z.eqb_refl in P1. done.
  - apply P2. rewrite (idx_index _ I). apply fmap_is_Some, last_is_Some. intros N.
    apply list_elem_of_fmap in J as [[n x] [-> J]].
    by apply (filter_nil_not_elem_of (λ q : nat * the_job, job_key q.2 = (player, p)) _ (n, x) N).
Qed.

(** The changes of the writer that bring no job of a player. *)
Definition tame w w' : Prop :=
  indexed w → indexed w' ∧ ∀ j, j ∈ jobs_of w' → kind j = player → j ∈ jobs_of w.

Lemma tame_same w w' : pending w' = pending w → tame w w'.
Proof.
  intros P I. unfold jobs_of. rewrite P. split; [|auto].
  apply (indexed_same w); rewrite ?P; try done. unfold jobs_of. by rewrite P.
Qed.

Lemma take_tame now w w' : writer_take now w = Some w' → tame w w'.
Proof.
  intros H I. unfold writer_take in H. destruct (pc w); try done.
  destruct (stop_requested w); [by injection H as <-; apply tame_same|].
  destruct (queue (pending w)) as [|[node job] rest] eqn:Q; [done|]. injection H as <-.
  destruct I as [N F Ix Ow]. unfold jobs_of in *. rewrite Q in *. simpl in *.
  split; [|intros j J _; set_solver]. inversion N as [|? ? Hn N']; subst.
  constructor; unfold jobs_of; simpl; [done|by inversion F| |apply Forall_app in Ow as [_ Ow]; by inversion Ow; constructor].
  intros k. rewrite !Ix, newest_cons, bool_decide_eq_true_2 by done.
  assert (∀ p, newest (job_key job) rest = Some p → p.1 ≠ node) as D.
  { intros p Np Hp. apply newest_elem in Np as [Np _]. apply (list_elem_of_fmap_2 fst) in Np.
    apply Hn. by rewrite <- Hp. }
  destruct (newest (job_key job) rest) as [p|] eqn:E; simpl.
  - rewrite (proj2 (Nat.eqb_neq _ _)) by by apply D.
    rewrite Ix, newest_cons. destruct (newest k rest) eqn:N2; [done|].
    case_bool_decide; [subst; congruence|done].
  - rewrite Nat.eqb_refl, lookup_delete, Ix, newest_cons.
    case_decide; [by subst; rewrite E|].
    destruct (newest k rest); [done|]. by rewrite bool_decide_eq_false_2.
Qed.

Lemma finish_tame now w w' : writer_finish now w = Some w' → tame w w'.
Proof.
  intros H I. unfold writer_finish in H. destruct (pc w); try done.
  destruct (inflight (pending w)) as [j0|] eqn:J; [|done]. injection H as <-.
  assert (∀ s' h pc', (s' = pending w ∨ ∃ r, s' = Jobs (queue (pending w)) (next_node (pending w))
      (queued_by_owner (pending w)) None r (queued_bytes (pending w))) →
    indexed (at_pc pc' (with_jobs s' h w))
    ∧ ∀ j, j ∈ jobs_of (at_pc pc' (with_jobs s' h w)) → kind j = player → j ∈ jobs_of w) as K.
  { intros s' h pc' S. assert (jobs_of (at_pc pc' (with_jobs s' h w)) ⊆ jobs_of w) as Sub.
    { unfold jobs_of. simpl. destruct S as [->|[r ->]]; simpl; set_solver. }
    split; [|auto]. apply (indexed_same w); try done; by destruct S as [->|[r ->]]. }
  apply K. destruct (_ || _); [right; by eexists|by left].
Qed.

Lemma attempt_tame ready env w w' : writer_attempt ready env w = Some w' → tame w w'.
Proof.
  intros H. unfold writer_attempt in H. destruct (pc w); try done.
  destruct (inflight (pending w)); [|done]. destruct (negb _); injection H as <-; by apply tame_same.
Qed.
Lemma wake_tame w w' : writer_wake w = Some w' → tame w w'.
Proof. unfold writer_wake. destruct (pc w); try done. intros [= <-]. by apply tame_same. Qed.
Lemma exit_tame w w' : writer_exit w = Some w' → tame w w'.
Proof. unfold writer_exit. destruct (pc w); try done. intros [= <-]. by apply tame_same. Qed.
Lemma stopped_tame detached w w' : shutdown_finish detached w = Some w' → tame w w'.
Proof. unfold shutdown_finish. destruct (_ && _); [|done]. intros [= <-]. by apply tame_same. Qed.
Lemma init_tame given ok w : tame w (player_save_worker_init given ok w).2.
Proof.
  unfold player_save_worker_init. destruct given; [|by apply tame_same]. simpl.
  destruct (_ || _); [by apply tame_same|]. destruct ok; by apply tame_same.
Qed.
Lemma hooks_tame a b w : tame w (player_save_worker_set_journal_hooks a b w).2.
Proof. unfold player_save_worker_set_journal_hooks. destruct (_ || _); by apply tame_same. Qed.

Lemma pulse_tame capacity w : tame w (player_save_worker_pulse capacity w).2.
Proof.
  unfold player_save_worker_pulse. destruct (pulse_loop _ _) as [out r]. intros I. simpl.
  split; [apply (indexed_same w); first [done|unfold jobs_of; simpl; set_solver]|auto].
Qed.

Lemma write_tame now memory k o size f w :
  tame w (persistence_writer_submit no_body now memory k o size f w).2.
Proof.
  unfold persistence_writer_submit. destruct (_ || _) eqn:G; [by apply tame_same|].
  apply orb_false_elim in G as [G _]. apply orb_false_elim in G as [G _].
  apply bool_decide_eq_false_1 in G.
  destruct (enqueue _ _ _ _) as [[r e] w'] eqn:E. intros I.
  apply enqueue_indexed in E as [I' J]; [|done|by intros K; destruct G]. split; [done|]. simpl.
  intros j Hj K. destruct (J j Hj) as [?|[_ ->]]; [done|]. by destruct G.
Qed.
End Jobs.

(** ** The calls of the pipeline *)

Section Calls.
Context `{Process} {W D : Type}.
Context (apply : player_snapshot → D → option player_save_apply_result * D).
#[local] Abbreviation the_world := (@world W D).
Implicit Types (w : the_world).

Definition handed_over w : list player_snapshot := submitted (past (pipe w)).

(** The writer gets the jobs of players the history says it was handed, and no others. *)
Definition forwards w w' : Prop :=
  ∃ more, handed_over w' = handed_over w ++ more
    ∧ (indexed (writer w) → indexed (writer w') ∧
       ∀ j, j ∈ jobs_of (writer w') → kind j = player →
         j ∈ jobs_of (writer w) ∨ ∃ s, s ∈ more ∧ pid (snapshot j) = snapshot_pid s).

#[export] Instance forwards_preorder : PreOrder forwards.
Proof.
  split.
  - intros w. exists []. rewrite app_nil_r. auto.
  - intros w1 w2 w3 (m1 & E1 & K1) (m2 & E2 & K2). exists (m1 ++ m2).
    split; [by rewrite E2, E1, (assoc_L (++))|]. intros I. apply K1 in I as [I2 J1].
    apply K2 in I2 as [I3 J2]. split; [done|]. intros j J P.
    destruct (J2 j J P) as [J'|(s & S & Q)]; [|right; exists s; set_solver].
    destruct (J1 j J' P) as [?|(s & S & Q)]; [by left|right; exists s; set_solver].
Qed.

Lemma forwards_tame w w' : handed_over w' = handed_over w → tame (writer w) (writer w') → forwards w w'.
Proof.
  intros E T. exists []. split; [by rewrite app_nil_r|]. intros I. destruct (T I) as [I' J]. auto.
Qed.
Lemma forwards_aside w w' : handed_over w' = handed_over w → writer w' = writer w → forwards w w'.
Proof. intros E T. apply forwards_tame; [done|]. apply tame_same. by rewrite T. Qed.

(** What the parts of the calls do to the history of submissions. *)
Lemma submitted_with_terminal pid g p : submitted (past (with_terminal pid g p)) = submitted (past p).
Proof. unfold with_terminal. by destruct (find_terminal pid p) as [[]|]. Qed.
Lemma submitted_release_login pid e p : submitted (past (release_login pid e p)) = submitted (past p).
Proof. unfold release_login. destruct (find_login pid p) as [[]|]; [by destruct (_ =? _)|done]. Qed.
Lemma submitted_allocate pid p p' :
  allocate_terminal_fence pid p = Some p' → submitted (past p') = submitted (past p).
Proof.
  unfold allocate_terminal_fence. destruct (login_fenced pid p); [done|].
  destruct (find_terminal pid p); [by intros [= <-]|].
  destruct (find_terminal 0 p) as [[]|]; [by intros [= <-]|done].
Qed.
Lemma submitted_enqueue memory s p : submitted (past (enqueue_snapshot memory s p).2) = submitted (past p).
Proof.
  unfold enqueue_snapshot. repeat (case_match; try done).
Qed.
Lemma submitted_store memory s result p : submitted (past (store_appended memory s result p)) = submitted (past p).
Proof.
  unfold store_appended. case_bool_decide; destruct memory; try done.
  unfold update_depth. cbn [past]. exact (submitted_with_terminal _ _ {p with durable_ready ::= λ l, l ++ [s] }).
Qed.

Lemma on_writer_forwards g w :
  (∀ wk', g (writer w) = Some wk' → tame (writer w) wk') → forwards w (on_writer g w).
Proof.
  intros T. unfold on_writer. destruct (g (writer w)) as [wk|] eqn:E; [|done].
  by apply forwards_tame; [|apply T].
Qed.

Lemma run_thread_forwards w step : forwards w (run_thread apply w step).
Proof.
  destruct step; cbn [run_thread].
  - destruct (run_dispatcher apply step w) as [w'|] eqn:E; [|done]. cbn [default].
    unfold run_dispatcher in E.
    destruct step, (dispatcher (pipe w)) eqn:Dp; try done.
    + injection E as <-. by apply forwards_aside.
    + destruct (if mysql_ready then _ else _) as [[replay d] j]. injection E as <-. by apply forwards_aside.
    + destruct (pending_append (pipe w)); [destruct (pipeline_stop _)|]; try done;
        injection E as <-; by apply forwards_aside.
    + destruct (player_save_journal_append _ _ _ _) as [result j]. injection E as <-. by apply forwards_aside.
    + injection E as <-. apply forwards_aside; [|done]. apply submitted_store.
  - apply on_writer_forwards. intros wk. apply take_tame.
  - apply on_writer_forwards. intros wk. apply attempt_tame.
  - by apply forwards_aside.
  - apply on_writer_forwards. intros wk. apply wake_tame.
  - apply on_writer_forwards. intros wk. apply finish_tame.
  - apply on_writer_forwards. intros wk. apply exit_tame.
Qed.

Lemma run_threads_forwards steps w : forwards w (run_threads apply steps w).
Proof.
  unfold run_threads. revert w. induction steps as [|step steps IH]; intros w; [done|].
  cbn [foldl]. etransitivity; [apply run_thread_forwards|apply IH].
Qed.
(** *** The pulse *)

Lemma handle_completion_forwards (st : the_world * pulse_notes) c :
  forwards st.1 (handle_completion st c).1.
Proof.
  destruct st as [w notes]. unfold handle_completion. cbn [fst]. destruct (negb _); [done|]. cbv zeta.
  set (w1 := if applied_durably _ _ then _ else _).
  assert (pipe w1 = pipe w ∧ writer w1 = writer w) as [P1 W1] by (unfold w1; by destruct (applied_durably _ _)).
  clearbody w1. rewrite P1.
  set (p1 := match c_outcome c with applied => _ | _ => _ end).
  assert (submitted (past p1) = submitted (past (pipe w))) as P2 by (unfold p1; by destruct (c_outcome c)).
  clearbody p1.
  destruct (failed_with c PLAYER_SAVE_ERROR_CUSTODY_PAYLOAD_MISMATCH);
    (apply forwards_aside; [|done]);
    exact (eq_trans (submitted_with_terminal (c_pid c) _ p1) P2).
Qed.

Lemma foldl_forwards {A} (g : the_world → A → the_world) l w :
  (∀ w a, forwards w (g w a)) → forwards w (foldl g w l).
Proof.
  intros G. revert w. induction l as [|a l IH]; intros w; [done|]. cbn [foldl].
  etransitivity; [apply G|apply IH].
Qed.

Lemma handle_completions_forwards cs (st : the_world * pulse_notes) :
  forwards st.1 (foldl handle_completion st cs).1.
Proof.
  revert st. induction cs as [|c cs IH]; intros st; [done|]. cbn [foldl].
  etransitivity; [apply handle_completion_forwards|apply IH].
Qed.

Lemma recapture_forwards w m : forwards w (recapture w m).
Proof. unfold recapture. destruct m as [c allowed]. destruct (_ && _); by apply forwards_aside. Qed.
Lemma need_baseline_forwards w q : forwards w (need_baseline w q).
Proof. unfold need_baseline. destruct (list_find _ _) as [[]|]; by apply forwards_aside. Qed.
Lemma retire_forwards q w : forwards w (retire_ended_player q w).
Proof.
  unfold retire_ended_player. destruct (player_revision_snapshot_copy _ _); [|done].
  destruct (_ && _); by apply forwards_aside.
Qed.

Lemma submit_indexed now memory s (wk : SaveWorker.worker (W := W)) answer given wk' :
  player_save_worker_submit_retained now memory (worker_snapshot s) wk = (answer, given, wk') →
  indexed wk → indexed wk' ∧ ∀ j, j ∈ jobs_of wk' →
    j ∈ jobs_of wk ∨ is_accepted answer = true ∧ pid (SaveWorker.snapshot j) = snapshot_pid s.
Proof.
  unfold player_save_worker_submit_retained. intros Q I.
  destruct (negb (valid_snapshot _)); [injection Q as _ _ <-; auto|].
  destruct (enqueue _ _ _ _) as [[r e] w1] eqn:E. apply enqueue_indexed in E as [I' J]; [|done|done].
  destruct (bool_decide (r = SaveWorker.unavailable)) eqn:U; simpl in Q; injection Q as <- _ <-.
  - apply bool_decide_eq_true_1 in U as ->. split; [done|]. intros j Hj.
    destruct (J j Hj) as [?|[X _]]; [by left|done].
  - split; [done|]. intros j Hj. destruct (J j Hj) as [?|[X ->]]; [by left|by right].
Qed.

Lemma submit_loop_forwards budget replies w : forwards w (submit_loop apply budget replies w).
Proof.
  revert w. induction budget as [|budget IH]; intros w; [done|]. cbn [submit_loop].
  destruct (replies budget) as [[steps now] memory].
  etransitivity; [apply (run_threads_forwards steps)|].
  set (w1 := run_threads apply steps w). clearbody w1.
  destruct (durable_ready (pipe w1)) as [|s rest]; [done|].
  destruct (player_save_worker_submit_retained now memory (worker_snapshot s) (writer w1))
    as [[answer given] wk] eqn:Q.
  pose proof (submit_indexed _ _ _ _ _ _ _ Q) as K.
  destruct (bool_decide (answer = worker_unavailable) || bool_decide (answer = capacity_exceeded)) eqn:G.
  - apply forwards_tame; [done|]. intros I. destruct (K I) as [I' J]. split; [done|].
    intros j Hj _. destruct (J j Hj) as [?|[X _]]; [done|]. by destruct answer.
  - etransitivity; [|apply IH]. exists (if is_accepted answer then [s] else []). split.
    + unfold handed_over. cbn [on_pipe pipe past update_depth submitted].
      destruct (is_accepted answer); [done|]. by rewrite app_nil_r.
    + intros I. destruct (K I) as [I' J]. split; [done|]. intros j Hj _.
      destruct (J j Hj) as [?|[-> X]]; [by left|right]. exists s. split; [apply list_elem_of_here|done].
Qed.

Lemma pulse_forwards replies w : forwards w (player_save_pipeline_pulse apply replies w).
Proof.
  unfold player_save_pipeline_pulse.
  pose proof (pulse_tame PLAYER_SAVE_PIPELINE_PULSE_BUDGET (writer w)) as T.
  destruct (player_save_worker_pulse PLAYER_SAVE_PIPELINE_PULSE_BUDGET (writer w)) as [completions wk].
  set (w1 := on_pipe _ _). assert (forwards w w1) as F1 by by apply forwards_tame.
  clearbody w1. etransitivity; [exact F1|]. clear F1.
  pose proof (handle_completions_forwards completions (w1, PulseNotes [] [])) as F2.
  destruct (foldl handle_completion _ _) as [w2 notes]. cbn [fst] in F2.
  etransitivity; [exact F2|]. etransitivity; [|apply submit_loop_forwards].
  etransitivity; [apply (foldl_forwards recapture (custody_mismatches notes)), recapture_forwards|].
  etransitivity; [apply (foldl_forwards need_baseline (missing_baseline notes)), need_baseline_forwards|].
  etransitivity; [apply (run_threads_forwards (pr_threads replies))|].
  apply foldl_forwards. intros. apply retire_forwards.
Qed.

Lemma take_turn_forwards t w : forwards w (take_turn apply t w).
Proof.
  unfold take_turn. etransitivity; [apply (run_threads_forwards (wt_before t))|].
  etransitivity; [apply pulse_forwards|apply run_threads_forwards].
Qed.

(** *** Starting and stopping *)

Lemma worker_shutdown_forwards steps w w' : worker_shutdown apply steps w = Some w' → forwards w w'.
Proof.
  unfold worker_shutdown. intros E.
  assert (forwards w (run_threads apply steps {w with writer ::= shutdown_request})) as F1.
  { etransitivity; [|apply run_threads_forwards]. apply forwards_tame; [done|]. by apply tame_same. }
  set (w1 := run_threads _ _ _) in *. clearbody w1. etransitivity; [exact F1|].
  destruct (shutdown_finish false (writer w1)) as [wk|] eqn:S; [|done]. injection E as <-.
  apply forwards_tame; [done|]. by eapply stopped_tame.
Qed.

Lemma init_forwards r dir w o : player_save_pipeline_init apply r dir w = Some o → forwards w o.2.
Proof.
  unfold player_save_pipeline_init. destruct (negb (absolute dir)); [by intros [= <-]|].
  destruct (ph_initialized _); [by intros [= <-]|].
  destruct (player_save_journal_init _ _ _ _ _) as [[] j]; cbn [negb]; [|intros [= <-]; by apply forwards_aside].
  pose proof (init_tame true (st_writer_thread r) (writer w)) as T1.
  change (writer {w with save_journal := j}) with (writer w).
  destruct (player_save_worker_init _ _ _) as [ok wk]. cbn [snd] in T1.
  assert (∀ w1 : the_world, handed_over w1 = handed_over w → writer w1 = wk → forwards w w1) as F1
    by (intros w1 E1 E2; apply forwards_tame; [done|by rewrite E2]).
  destruct ok; cbn [negb]; [|intros [= <-]; by apply F1].
  pose proof (hooks_tame false true wk) as T2. cbn [writer].
  destruct (player_save_worker_set_journal_hooks _ _ _) as [ok wk2]. cbn [snd] in T2.
  assert (∀ w2 : the_world, handed_over w2 = handed_over w → writer w2 = wk2 → forwards w w2) as F2.
  { intros w2 E1 E2. etransitivity; [by apply (F1 {w with writer := wk})|]. apply forwards_tame; [done|by rewrite E2]. }
  assert (∀ w2 o, handed_over w2 = handed_over w → writer w2 = wk2 →
    match worker_shutdown apply (st_undo r) w2 with
    | Some w => Some (false, journal_shutdown w) | None => None end = Some o → forwards w o.2) as U.
  { intros w2 o2 E1 E2 E. destruct (worker_shutdown apply (st_undo r) w2) as [w3|] eqn:S; [|done].
    injection E as <-. etransitivity; [by apply F2|]. etransitivity; [by eapply worker_shutdown_forwards|].
    by apply forwards_aside. }
  destruct ok; cbn [negb]; [|by apply U].
  destruct (st_dispatcher_thread r); [|by apply U]. intros [= <-]. by apply F2.
Qed.

Lemma shutdown_forwards r w w' : player_save_pipeline_shutdown apply r w = Some w' → forwards w w'.
Proof.
  unfold player_save_pipeline_shutdown. set (w0 := on_pipe _ w). intros E.
  assert (forwards w w0) as F0 by by apply forwards_aside. etransitivity; [exact F0|]. clearbody w0.
  etransitivity; [apply (run_threads_forwards (sp_join r))|].
  set (w1 := run_threads _ _ _) in *. clearbody w1.
  destruct (join_dispatcher w1) as [w2|] eqn:J; [|done].
  assert (forwards w1 w2) as F2.
  { unfold join_dispatcher in J. destruct (dispatcher (pipe w1)); try done;
      injection J as <-; [done|by apply forwards_aside]. }
  etransitivity; [exact F2|]. etransitivity; [apply (pulse_forwards (sp_pulse r))|].
  etransitivity; [apply (run_threads_forwards (sp_wait r))|].
  etransitivity; [apply (pulse_forwards (sp_last_pulse r))|].
  set (w5 := player_save_pipeline_pulse apply _ _) in *. clearbody w5.
  destruct (worker_shutdown _ _ _) as [w6|] eqn:S; [|done]. injection E as <-.
  etransitivity; [by eapply worker_shutdown_forwards|]. by apply forwards_aside.
Qed.

(** *** Saving *)

Lemma mark_forwards q components w : forwards w (player_save_pipeline_mark q components w).2.
Proof.
  unfold player_save_pipeline_mark. destruct (negb _); [done|]. destruct (login_fenced _ _); [done|].
  destruct (player_revision_mark _ _ _) as [[revision|] t]; (apply forwards_aside; [|done]); [|done].
  unfold handed_over. cbn [snd on_pipe pipe past]. apply submitted_with_terminal.
Qed.

Lemma checkpoint_forwards r ch w : forwards w (player_save_pipeline_checkpoint_dirty apply r ch w).2.
Proof.
  unfold player_save_pipeline_checkpoint_dirty. destruct ch as [ch|]; [|done].
  repeat (match goal with |- context [if ?b then (_, _) else _] => destruct b; [done|] end).
  destruct (player_revision_snapshot_copy _ _) as [revision|]; [|done].
  destruct (negb _ && _); [by apply forwards_aside|].
  destruct (player_revision_queue _ _) as [[[q components]|] t]; [|by apply forwards_aside].
  etransitivity; [by apply (forwards_aside w {w with revision_states := t})|].
  etransitivity; [apply (run_threads_forwards (ck_threads r))|].
  set (w1 := run_threads _ _ _). clearbody w1.
  destruct (ck_capture r q components) as [s|]; [|by apply forwards_aside].
  pose proof (submitted_enqueue (ck_memory r) s (pipe w1)) as M.
  destruct (enqueue_snapshot (ck_memory r) s (pipe w1)) as [result p]. by apply forwards_aside.
Qed.

Lemma begin_forwards q w : forwards w (begin_terminal_fence q w).2.
Proof.
  unfold begin_terminal_fence. destruct (_ || _); [done|].
  destruct (allocate_terminal_fence _ _) as [p|] eqn:A; [|done]. apply submitted_allocate in A.
  destruct (player_revision_mark _ _ _) as [[revision|] t].
  - destruct (find_terminal _ _) as [[slot f]|]; by apply forwards_aside.
  - apply forwards_aside; [|done]. exact (eq_trans (submitted_with_terminal q _ p) A).
Qed.

Lemma await_forwards turns q revision allow w :
  forwards w (await_terminal_fence apply turns q revision allow w).2.
Proof.
  revert w. induction turns as [|t turns IH]; intros w; cbn [await_terminal_fence]; [by apply forwards_aside|].
  etransitivity; [apply (take_turn_forwards t)|]. set (w1 := take_turn apply t w). clearbody w1.
  destruct (find_terminal q (pipe w1)) as [[slot f]|]; [|done].
  destruct (negb _); [done|]. destruct (tf_acknowledged f); [by apply forwards_aside|].
  destruct (_ && _); [by apply forwards_aside|]. apply IH.
Qed.

Lemma terminal_forwards r turns ch timeout allow w :
  forwards w (player_save_pipeline_terminal apply r turns ch timeout allow w).2.
Proof.
  unfold player_save_pipeline_terminal. destruct ch as [c|]; [|done].
  do 2 (match goal with |- context [if ?b then (_, _) else _] => destruct b; [done|] end).
  pose proof (begin_forwards (ch_pid c) w) as B.
  destruct (begin_terminal_fence _ _) as [[revision|] w1]; [|done].
  pose proof (checkpoint_forwards r (Some c) w1) as C.
  destruct (player_save_pipeline_checkpoint_dirty _ _ _ _) as [result w2].
  etransitivity; [exact B|]. etransitivity; [exact C|]. apply await_forwards.
Qed.

Lemma terminal_death_forwards r turns ch corpse timeout allow w :
  forwards w (player_save_pipeline_terminal_death apply r turns ch corpse timeout allow w).2.
Proof.
  unfold player_save_pipeline_terminal_death. destruct ch as [c|]; [|done].
  do 2 (match goal with |- context [if ?b then (_, _) else _] => destruct b; [done|] end).
  pose proof (begin_forwards (ch_pid c) w) as B.
  destruct (begin_terminal_fence _ _) as [[revision|] w1]; [|done]. cbn [snd] in B.
  etransitivity; [exact B|]. etransitivity; [apply (run_threads_forwards (dr_threads r))|].
  set (w2 := run_threads _ _ _). clearbody w2. clear B.
  assert (∀ w3, handed_over w3 = handed_over w2 → writer w3 = writer w2 →
    forwards w2 (on_pipe (release_terminal (ch_pid c)) w3)) as R.
  { intros w3 E1 E2. apply forwards_aside; [|done].
    exact (eq_trans (submitted_with_terminal (ch_pid c) _ (pipe w3)) E1). }
  destruct (dr_capture r revision) as [s|]; [|by apply R].
  destruct (player_revision_queue _ _) as [[[q components]|] t]; [|by apply R].
  destruct (_ || _); [by apply R|].
  change (pipe {w2 with revision_states := t}) with (pipe w2).
  pose proof (submitted_enqueue (dr_memory r) s (pipe w2)) as M.
  destruct (enqueue_snapshot (dr_memory r) s (pipe w2)) as [result p]. cbn [snd] in M.
  destruct (_ || _); [|by apply R].
  etransitivity; [|apply await_forwards]. by apply forwards_aside.
Qed.

Lemma drain_forwards turns last_pulse w : forwards w (drain_loop apply turns last_pulse w).2.
Proof.
  revert w. induction turns as [|t turns IH]; intros w; cbn [drain_loop]; [by apply forwards_aside|].
  etransitivity; [apply (take_turn_forwards t)|]. destruct (_ && _); [apply pulse_forwards|apply IH].
Qed.

Lemma release_forwards q e w : forwards w (on_pipe (release_login q e) w).
Proof. apply forwards_aside; [|done]. apply submitted_release_login. Qed.

Lemma acquire_forwards between q revision w :
  forwards w (player_save_pipeline_acquire_target_save_login_fence apply between q revision w).2.
Proof.
  unfold player_save_pipeline_acquire_target_save_login_fence. destruct (_ || _); [done|]. cbv zeta.
  destruct (if _ || _ then None else _) as [p|] eqn:A; [|done].
  assert (submitted (past p) = submitted (past (pipe w))) as P.
  { destruct (_ || _) in A; [done|]. unfold allocate_login_fence in A. destruct (login_fenced _ _); [done|].
    destruct (find_login 0 (pipe w)) as [[]|]; [by injection A as <-|done]. }
  etransitivity; [by apply (forwards_aside w {w with pipe := p})|].
  etransitivity; [apply (run_threads_forwards between)|].
  set (w1 := run_threads _ _ _). clearbody w1.
  assert (forwards w1 (player_save_pipeline_release_target_save_login_fence q revision w1)) as R.
  { unfold player_save_pipeline_release_target_save_login_fence. destruct (q <=? 0); [done|apply release_forwards]. }
  destruct (player_save_worker_pid_pending _ _); [done|].
  destruct (from_option _ _ _); [done|].
  destruct (find_login q (pipe w1)) as [[slot f]|]; [|done].
  destruct (_ || _ || any_snapshot_is_retained _ _); [apply release_forwards|done].
Qed.

(** *** Every call *)

Lemma run_call_forwards w c : forwards w (run_call apply w c).
Proof.
  destruct c; cbn [run_call].
  - apply run_thread_forwards.
  - destruct (player_save_pipeline_init _ _ _ _) as [o|] eqn:E; [|done]. by eapply init_forwards.
  - destruct (player_save_pipeline_shutdown _ _ _) as [w'|] eqn:E; [by eapply shutdown_forwards|].
    by apply forwards_aside.
  - apply mark_forwards.
  - apply checkpoint_forwards.
  - unfold player_save_pipeline_request. destruct ch as [c|]; [|done].
    do 2 (match goal with |- context [if ?b then (_, _) else _] => destruct b; [done|] end).
    pose proof (mark_forwards (ch_pid c) components w) as M.
    destruct (player_save_pipeline_mark _ _ _) as [[] w1]; [|done].
    etransitivity; [exact M|apply checkpoint_forwards].
  - apply terminal_forwards.
  - apply terminal_death_forwards.
  - apply pulse_forwards.
  - by apply forwards_aside.
  - apply forwards_aside; [|done]. unfold handed_over.
    change (pipe (player_save_pipeline_resume w)) with (update_depth
      (if ph_initialized (phealth (pipe w)) && negb (pipeline_stop (pipe w))
       then {pipe w with accepting := true} else pipe w)).
    by destruct (ph_initialized (phealth (pipe w)) && negb (pipeline_stop (pipe w))).
  - unfold player_save_pipeline_drain. destruct (negb _); [done|].
    etransitivity; [|apply drain_forwards]. by apply forwards_aside.
  - apply acquire_forwards.
  - unfold player_save_pipeline_release_target_save_login_fence. destruct (_ <=? _); [done|apply release_forwards].
  - unfold player_save_pipeline_end_session. destruct (_ || _); [done|].
    etransitivity; [|apply retire_forwards]. by apply forwards_aside.
  - by apply forwards_aside.
  - by apply forwards_aside.
  - apply forwards_tame; [done|apply write_tame].
  - by apply forwards_aside.
Qed.

Lemma run_calls_forwards calls w : forwards w (foldl (run_call apply) w calls).
Proof. apply foldl_forwards, run_call_forwards. Qed.
End Calls.
