(* ===== verification/SavePipelineAccounts.v ===== *)
(** * The accounts of the save pipeline

    What the pipeline of [SavePipeline] holds and what it counts of it: the effects of the
    moves of [SavePipelineMoves] on the queues and the bytes, and that the accounts agree
    with what is held after every move. *)

From S2P Require Import Prelude Files RevisionState Snapshot SaveWorker PlayerCodec SaveJournal SavePipeline SavePipelineMoves.

(** The statics of the file before [player_save_pipeline_init]. *)
Definition no_pipeline : pipeline :=
  Pipeline [] [] dispatcher_absent no_pipeline_health 0 false false false 0 ∅
    no_terminal_fences no_login_fences (History [] [] [] [] []).

(** What the pipeline holds: the two queues and the snapshot the dispatcher carries. *)
Definition held (p : pipeline) : list player_snapshot :=
  pending_append p ++ durable_ready p ++ option_list (carried p).
Definition total (l : list player_snapshot) : Z := foldr (λ s n, encoded_size_bound s + n) 0 l.

#[global] Arguments held : simpl never.
#[global] Arguments total : simpl never.

Definition of_player (pid : Z) : list player_snapshot → list player_snapshot :=
  filter (λ s, snapshot_pid s = pid).

Lemma total_app l k : total (l ++ k) = total l + total k.
Proof. unfold total. induction l as [|s l IH]; cbn; [done|lia]. Qed.

Lemma total_one s : total [s] = encoded_size_bound s.
Proof. unfold total. cbn. lia. Qed.
Lemma total_cons s l : total (s :: l) = encoded_size_bound s + total l.
Proof. done. Qed.

Lemma total_bounds l : Forall (λ s, u64 (encoded_size_bound s)) l → 0 ≤ total l.
Proof. unfold total, u64. induction 1; cbn in *; lia. Qed.

#[global] Instance total_perm : Proper (Permutation ==> eq) total.
Proof. unfold total. intros l l' E. induction E; cbn; lia. Qed.

Lemma total_part l s :
  Forall (λ s, u64 (encoded_size_bound s)) l → s ∈ l → 0 ≤ encoded_size_bound s ≤ total l.
Proof.
  intros T I. apply list_elem_of_split in I as (l1 & l2 & ->).
  apply Forall_app in T as [T1 T2]. inversion T2 as [|? ? U T3]; subst.
  apply total_bounds in T1, T3. rewrite total_app. unfold total, u64 in *. cbn. lia.
Qed.

Lemma with_terminal_eta pid g p :
  with_terminal pid g p = {p with terminal_fences := terminal_fences (with_terminal pid g p)}.
Proof. unfold with_terminal. destruct (find_terminal pid p) as [[]|]; by destruct p. Qed.

Lemma release_login_eta pid revision p :
  release_login pid revision p = {p with login_fences := login_fences (release_login pid revision p)}.
Proof.
  assert (∀ q (b : target_save_login_fence → bool), q = match find_login pid p with
            | Some (slot, f) => if b f then set_login slot no_login_fence p else p
            | None => p
            end → q = {p with login_fences := login_fences q}) as E; [|by eapply (E _ (λ f, lf_expected_revision f =? revision))].
  intros q b ->. destruct (find_login pid p) as [[slot f]|]; [destruct (b f)|]; by destruct p.
Qed.

(** ** The accounts *)

Record accounted (p : pipeline) : Prop := {
  acc_sum : retained_bytes p = total (held p);
  acc_typed : Forall (λ s, u64 (encoded_size_bound s)) (held p);
  acc_bytes : retained_bytes p ≤ PLAYER_SAVE_PIPELINE_MAX_BYTES;
  acc_count : (length (held p) ≤ PLAYER_SAVE_PIPELINE_MAX_SNAPSHOTS + 1)%nat;
  acc_inflight : append_inflight p = bool_decide (is_Some (carried p));
  acc_pid : append_inflight_pid p = from_option snapshot_pid 0 (carried p);
  acc_idle : ph_initialized (phealth p) = false → held p = [];
}.

Lemma core_fields p p' :
  core p' = core p →
  pending_append p' = pending_append p ∧ durable_ready p' = durable_ready p
  ∧ cargo p' = cargo p ∧ carried p' = carried p ∧ retained_bytes p' = retained_bytes p
  ∧ append_inflight p' = append_inflight p ∧ append_inflight_pid p' = append_inflight_pid p
  ∧ terminal_fences p' = terminal_fences p ∧ login_fences p' = login_fences p
  ∧ past p' = past p ∧ ph_initialized (phealth p') = ph_initialized (phealth p).
Proof. rewrite !carried_cargo. unfold core. intros E. by injection E as -> -> -> -> -> -> -> -> -> ->. Qed.

Ltac core_eq H :=
  apply core_fields in H as (?P & ?Q & ?K & ?C & ?R & ?I & ?J & ?T & ?L & ?X & ?N).

Lemma accounted_elsewhere p p' :
  accounted p → pending_append p' = pending_append p → durable_ready p' = durable_ready p →
  carried p' = carried p → retained_bytes p' = retained_bytes p →
  append_inflight p' = append_inflight p → append_inflight_pid p' = append_inflight_pid p →
  ph_initialized (phealth p') = ph_initialized (phealth p) → accounted p'.
Proof.
  intros A P Q C R I J N. assert (held p' = held p) as Hh by (unfold held; by rewrite P, Q, C).
  destruct A. split; rewrite ?Hh, ?C, ?R, ?I, ?J, ?N; done.
Qed.

Lemma core_accounted p p' : core p' = core p → accounted p → accounted p'.
Proof. intros E A. core_eq E. by apply (accounted_elsewhere p). Qed.

(** Where a queued snapshot is found. *)
Lemma list_find_split {A} (P : A → Prop) `{∀ x, Decision (P x)} l i x :
  list_find P l = Some (i, x) →
  ∃ l1 l2, l = l1 ++ x :: l2 ∧ P x ∧ Forall (λ y, ¬ P y) l1
           ∧ ∀ y, <[i := y]> l = l1 ++ y :: l2.
Proof.
  intros F. apply list_find_Some in F as (L & Px & B). exists (take i l), (drop (S i) l).
  pose proof (lookup_lt_Some _ _ _ L). split; [by rewrite take_drop_middle|]. split; [done|]. split.
  - apply Forall_lookup. intros k y Hk. apply lookup_take_Some in Hk as [Hk ?]. by eapply B.
  - intros y. by apply insert_take_drop.
Qed.

(** A capture in the place of an older one, and at the end. *)
Definition queued_over (s old : player_snapshot) (queue : list player_snapshot) (p : pipeline)
  : pipeline :=
  {p with pending_append := queue;
          retained_bytes ::= λ n, n - encoded_size_bound old + encoded_size_bound s;
          past -> captured ::= λ l, l ++ [s] }.
Definition queued_last (s : player_snapshot) (p : pipeline) : pipeline :=
  {p with pending_append ::= λ l, l ++ [s];
          retained_bytes ::= λ n, n + encoded_size_bound s;
          past -> captured ::= λ l, l ++ [s] }.

(** What becomes of a capture. *)
Inductive enqueued (s : player_snapshot) (p p' : pipeline) : Prop :=
| enqueued_not : core p' = core p → enqueued s p p'
| enqueued_over l1 old l2 :
    login_fenced (snapshot_pid s) p = false →
    pending_append p = l1 ++ old :: l2 → snapshot_pid old = snapshot_pid s →
    Forall (λ q, snapshot_pid q ≠ snapshot_pid s) l1 →
    snapshot_revision old < snapshot_revision s →
    ph_initialized (phealth p) = true →
    retained_bytes p - encoded_size_bound old + encoded_size_bound s
      ≤ PLAYER_SAVE_PIPELINE_MAX_BYTES →
    core p' = core (queued_over s old (l1 ++ s :: l2) p) →
    enqueued s p p'
| enqueued_last :
    login_fenced (snapshot_pid s) p = false →
    Forall (λ q, snapshot_pid q ≠ snapshot_pid s) (pending_append p) →
    ph_initialized (phealth p) = true →
    (length (pending_append p) + length (durable_ready p) < PLAYER_SAVE_PIPELINE_MAX_SNAPSHOTS)%nat →
    retained_bytes p + encoded_size_bound s ≤ PLAYER_SAVE_PIPELINE_MAX_BYTES →
    core p' = core (queued_last s p) →
    enqueued s p p'.

Lemma accounted_range p : accounted p → 0 ≤ retained_bytes p ≤ PLAYER_SAVE_PIPELINE_MAX_BYTES.
Proof. intros A. split; [rewrite acc_sum by done; by apply total_bounds, acc_typed|by apply acc_bytes]. Qed.

Lemma accounted_part p s :
  accounted p → s ∈ held p → 0 ≤ encoded_size_bound s ≤ retained_bytes p.
Proof.
  intros A I. rewrite (acc_sum p A). apply total_part; [by apply acc_typed|done].
Qed.

Lemma enqueue_enqueued memory s p :
  accounted p → u64 (encoded_size_bound s) → enqueued s p (enqueue_snapshot memory s p).2.
Proof.
  intros A U. pose proof (accounted_range p A) as [B0 B]. unfold u64, PLAYER_SAVE_PIPELINE_MAX_BYTES in *.
  unfold enqueue_snapshot. destruct (_ || _) eqn:G; [by apply enqueued_not|].
  apply orb_false_elim in G as [G F]. apply orb_false_elim in G as [G _]. apply negb_false_iff in G.
  destruct (list_find _ _) as [[slot old]|] eqn:E.
  - apply list_find_split in E as (l1 & l2 & E & Po & N & Ins).
    destruct (_ <=? _) eqn:Rv; [by apply enqueued_not|]. destruct (negb _); [by apply enqueued_not|].
    assert (0 ≤ encoded_size_bound old ≤ retained_bytes p) as [O1 O2].
    { apply accounted_part; [done|]. unfold held. rewrite E. set_solver. }
    rewrite (wrap_small _ (retained_bytes p - _)) by (unfold fits; lia).
    rewrite wrap_small by (unfold fits, PLAYER_SAVE_PIPELINE_MAX_BYTES; lia).
    destruct (_ <? _) eqn:Sz; [by apply enqueued_not|]. unfold PLAYER_SAVE_PIPELINE_MAX_BYTES in Sz.
    eapply (enqueued_over _ _ _ l1 old l2); try done; unfold PLAYER_SAVE_PIPELINE_MAX_BYTES; try lia.
    cbn [snd]. unfold core. cbn. rewrite Ins. rewrite (wrap_small _ (retained_bytes p - _ + _)) by (unfold fits; lia). done.
  - apply list_find_None in E. destruct (_ || _) eqn:Full; [by apply enqueued_not|].
    apply orb_false_elim in Full as [Full Sz]. apply Nat.leb_gt in Full.
    rewrite wrap_small in Sz by (unfold fits, PLAYER_SAVE_PIPELINE_MAX_BYTES; lia). unfold PLAYER_SAVE_PIPELINE_MAX_BYTES in Sz.
    destruct memory.
    + apply enqueued_last; try done; unfold PLAYER_SAVE_PIPELINE_MAX_BYTES; [lia|].
      cbn. unfold core. cbn. rewrite (wrap_small _ (retained_bytes p + _)) by (unfold fits; lia). done.
    + apply enqueued_not. cbn. unfold core. cbn. rewrite (wrap_small _ (retained_bytes p + _)) by (unfold fits; lia).
      rewrite wrap_small by (unfold fits; lia).
      by replace (retained_bytes p + encoded_size_bound s - encoded_size_bound s) with (retained_bytes p) by lia.
Qed.

(** A state that holds a part of what an accounted one held, and no more than that. *)
Lemma accounted_submultiset p p' :
  accounted p → held p' ⊆+ held p → retained_bytes p' = total (held p') →
  append_inflight p' = bool_decide (is_Some (carried p')) →
  append_inflight_pid p' = from_option snapshot_pid 0 (carried p') →
  (ph_initialized (phealth p') = false → ph_initialized (phealth p) = false ∨ held p' = []) →
  accounted p'.
Proof.
  intros A S R I J N. pose proof (acc_typed p A) as T.
  assert (Forall (λ s, u64 (encoded_size_bound s)) (held p')) as T'.
  { rewrite Forall_forall in *. intros s Hs. apply T. by eapply elem_of_submseteq. }
  split; try done.
  - rewrite R. transitivity (retained_bytes p); [|by apply acc_bytes]. rewrite (acc_sum p A).
    apply submseteq_Permutation in S as [k S].
    rewrite S, total_app. rewrite S in T. apply Forall_app in T as [_ T].
    apply total_bounds in T. lia.
  - etransitivity; [by apply submseteq_length|by apply acc_count].
  - intros E. destruct (N E) as [F|?]; [|done]. pose proof (acc_idle p A F) as H. rewrite H in S.
    by apply submseteq_nil_r in S.
Qed.

Lemma accounted_thread_move p p' : thread_move p p' → accounted p → accounted p'.
Proof.
  intros M A. pose proof (accounted_range p A) as [B0 B]. unfold PLAYER_SAVE_PIPELINE_MAX_BYTES in B.
  pose proof (acc_sum p A) as Sum. pose proof (acc_typed p A) as T.
  destruct M as [p p' E|p s rest Dp P|p s result Dp|p memory s result Dp|p s rest ok P|p cs|p c C].
  - by eapply core_accounted.
  - assert (held p = s :: rest ++ durable_ready p) as Hp
      by (unfold held, carried; rewrite Dp, P; cbn; by rewrite app_nil_r).
    assert (held (taken s rest p) ≡ₚ held p) as Hq.
    { rewrite Hp. unfold held, carried. cbn. rewrite app_assoc, (Permutation_app_comm _ [s]). done. }
    eapply accounted_submultiset; try done; [by rewrite Hq| |by left].
    rewrite Hq. exact Sum.
  - apply (accounted_elsewhere p); try done. unfold carried. by rewrite Dp.
  - assert (held p = pending_append p ++ durable_ready p ++ [s]) as Hp by (unfold held, carried; by rewrite Dp).
    pose proof (accounted_part p s A) as Ps. rewrite Hp in Ps. specialize (Ps ltac:(set_solver)).
    rewrite Hp, !total_app, total_one in Sum.
    assert (wrap 64 (retained_bytes p - encoded_size_bound s) = retained_bytes p - encoded_size_bound s) as Wr
      by (apply wrap_small; unfold fits; lia).
    assert (∀ p', held p' = pending_append p ++ durable_ready p ∨ held p' ≡ₚ held p →
              retained_bytes p' = total (held p') → carried p' = None → append_inflight p' = false →
              append_inflight_pid p' = 0 → ph_initialized (phealth p') = ph_initialized (phealth p) →
              accounted p') as K.
    { intros p' Hh R Cn I J N. eapply accounted_submultiset; [exact A| |done|by rewrite Cn|by rewrite Cn|].
      - destruct Hh as [->| ->]; [|done]. rewrite Hp, app_assoc. by apply submseteq_inserts_r.
      - left. by rewrite <- N. }
    unfold store_appended. rewrite (with_terminal_eta (snapshot_pid s)).
    case_bool_decide; destruct memory; apply K; try done.
    + right. rewrite Hp. unfold held, carried. destruct p; cbn. by rewrite app_nil_r.
    + unfold held, carried. destruct p; cbn in *. rewrite app_nil_r, !total_app, total_one. lia.
    + left. unfold held, carried. destruct p; cbn. by rewrite app_nil_r.
    + unfold held, carried. destruct p; cbn in *. rewrite app_nil_r, total_app, Wr. lia.
    + right. rewrite Hp. unfold held, carried. destruct p; cbn.
      by rewrite app_nil_r, app_assoc, Permutation_cons_append.
    + unfold held, carried. destruct p; cbn in *. rewrite app_nil_r, total_cons, total_app. lia.
    + left. unfold held, carried. destruct p; cbn. by rewrite app_nil_r.
    + unfold held, carried. destruct p; cbn in *. rewrite app_nil_r, total_app, Wr. lia.
  - assert (held p = pending_append p ++ s :: rest ++ option_list (carried p)) as Hp by (unfold held; by rewrite P).
    pose proof (accounted_part p s A) as Ps. rewrite Hp in Ps. specialize (Ps ltac:(set_solver)).
    assert (held (handed s rest ok p) = pending_append p ++ rest ++ option_list (carried p)) as Hq by done.
    eapply (accounted_submultiset p); try apply A; try done.
    + rewrite Hq, Hp. apply submseteq_app; [done|]. by apply submseteq_cons.
    + rewrite Hq. rewrite Hp, !total_app, total_cons, total_app in Sum.
      change (retained_bytes (handed s rest ok p)) with (wrap 64 (retained_bytes p - encoded_size_bound s)).
      rewrite wrap_small by (unfold fits; lia). rewrite !total_app. lia.
    + by left.
  - apply (accounted_elsewhere p); done.
  - rewrite with_terminal_eta. by apply (accounted_elsewhere p).
Qed.

(** A pipeline that does not run. *)
Lemma idle_empty p :
  accounted p → ph_initialized (phealth p) = false →
  pending_append p = [] ∧ durable_ready p = [] ∧ cargo p = None.
Proof.
  intros A N. pose proof (acc_idle p A N) as Hh. unfold held in Hh.
  apply app_eq_nil in Hh as [Hp Hh]. apply app_eq_nil in Hh as [Hd Hh]. split; [done|]. split; [done|].
  rewrite carried_cargo in Hh. by destruct (cargo p).
Qed.

(** Moves of fences only, and what there is besides them. *)
Record untouched (p p' : pipeline) : Prop := {
  un_pending : pending_append p' = pending_append p;
  un_ready : durable_ready p' = durable_ready p;
  un_cargo : cargo p' = cargo p;
  un_bytes : retained_bytes p' = retained_bytes p;
  un_inflight : append_inflight p' = append_inflight p;
  un_pid : append_inflight_pid p' = append_inflight_pid p;
  un_past : past p' = past p;
  un_running : ph_initialized (phealth p') = ph_initialized (phealth p);
}.

Inductive moved (p p' : pipeline) : Prop :=
| moved_thread : thread_move p p' → moved p p'
| moved_queue s : u64 (encoded_size_bound s) → enqueued s p p' → moved p p'
| moved_fence : untouched p p' → moved p p'
| moved_start running :
    ph_initialized (phealth p) = false → p' = started running p → moved p p'
| moved_clear : carried p = None → p' = cleared p → moved p p'.

Lemma allocate_untouched pid p p' : allocate_terminal_fence pid p = Some p' → untouched p p'.
Proof.
  unfold allocate_terminal_fence. destruct (login_fenced _ _); [done|].
  destruct (find_terminal pid p); [by intros [= <-]|].
  destruct (find_terminal 0 p) as [[slot f]|]; [|done]. by intros [= <-].
Qed.

Lemma untouched_trans p p1 p' : untouched p p1 → untouched p1 p' → untouched p p'.
Proof. intros [] []. split; congruence. Qed.

Lemma release_untouched pid p : untouched p (release_terminal pid p).
Proof. unfold release_terminal. by rewrite with_terminal_eta. Qed.

Lemma move_moved free p p' : accounted p → move free p p' → moved p p'.
Proof.
  intros A M.
  destruct M as [p p' M|p memory s U|p p1 pid slot f revision E F|p p1 pid Fr E|p pid slot f revision F
    |p pid Fr|p p' pid revision Hn E|p pid revision Fr|p running N|p Fr C].
  - by apply moved_thread.
  - eapply moved_queue; [exact U|]. by apply enqueue_enqueued.
  - apply moved_fence. eapply untouched_trans; [by eapply allocate_untouched|done].
  - apply moved_fence. eapply untouched_trans; [by eapply allocate_untouched|apply release_untouched].
  - by apply moved_fence.
  - apply moved_fence, release_untouched.
  - apply moved_fence. unfold allocate_login_fence in E. destruct (login_fenced _ _); [done|].
    destruct (find_login 0 p) as [[slot f]|]; [|done]. by injection E as <-.
  - apply moved_fence. by rewrite release_login_eta.
  - by eapply moved_start.
  - by apply moved_clear.
Qed.

Lemma accounted_move free p p' : move free p p' → accounted p → accounted p'.
Proof.
  intros M A. apply move_moved in M as [M|s U Q|U|running N ->|C ->]; [|..|done].
  - by eapply accounted_thread_move.
  - pose proof (acc_sum p A) as Sum. pose proof (acc_typed p A) as T.
    destruct Q as [E|l1 old l2 Lf E Po N Rv In B Ec|Lf N In Ct B Ec].
    + by eapply core_accounted.
    + eapply core_accounted; [exact Ec|].
      assert (held p = l1 ++ old :: l2 ++ durable_ready p ++ option_list (carried p)) as Hp
        by (unfold held; by rewrite E, <- app_assoc).
      set (p1 := queued_over s old (l1 ++ s :: l2) p).
      assert (held p1 = l1 ++ s :: l2 ++ durable_ready p ++ option_list (carried p)) as Hq
        by (unfold held; cbn; by rewrite <- app_assoc).
      rewrite Hp in Sum, T. rewrite total_app, total_cons in Sum.
      rewrite Forall_app, Forall_cons in T. split; try apply A; try done.
      * rewrite Hq, total_app, total_cons. change (retained_bytes p1) with (retained_bytes p - encoded_size_bound old + encoded_size_bound s). lia.
      * rewrite Hq, Forall_app, Forall_cons. naive_solver.
      * pose proof (acc_count p A) as Ct. rewrite Hp, length_app in Ct. by rewrite Hq, length_app.
      * change (ph_initialized (phealth p1)) with (ph_initialized (phealth p)). congruence.
    + eapply core_accounted; [exact Ec|].
      set (p1 := queued_last s p).
      assert (held p1 ≡ₚ s :: held p) as Hq.
      { change (held p1) with ((pending_append p ++ [s]) ++ durable_ready p ++ option_list (carried p)).
        rewrite <- app_assoc. symmetry. apply Permutation_middle. }
      split; try apply A; try done.
      * rewrite Hq, total_cons. change (retained_bytes p1) with (retained_bytes p + encoded_size_bound s). lia.
      * rewrite Hq. by constructor.
      * rewrite Hq. unfold held. cbn [length]. rewrite !length_app.
        assert (length (option_list (carried p)) ≤ 1)%nat by by destruct (carried p); vm_compute; repeat constructor.
        unfold PLAYER_SAVE_PIPELINE_MAX_SNAPSHOTS in *. lia.
      * change (ph_initialized (phealth p1)) with (ph_initialized (phealth p)). congruence.
  - destruct U. apply (accounted_elsewhere p); try done. rewrite !carried_cargo. congruence.
  - pose proof (acc_idle p A N) as Hh. assert (held (started running p) = []) as Hq.
    { destruct (idle_empty p A N) as (Hp & Hd & Hc). unfold held.
      assert (pending_append (started running p) = [] ∧ durable_ready (started running p) = []
        ∧ carried (started running p) = None) as (-> & -> & ->); [|done].
      split; [rewrite <- Hp; by destruct running|]. split; [rewrite <- Hd; by destruct running|].
      destruct running; [done|]. by rewrite carried_cargo; change (cargo (started false p)) with (cargo p); rewrite Hc. }
    assert (carried (started running p) = None) as Cn.
    { unfold held in Hq. apply app_eq_nil in Hq as [_ Hq]. apply app_eq_nil in Hq as [_ Hq].
      by destruct (carried (started running p)). }
    pose proof (acc_sum p A) as Sum. rewrite Hh in Sum.
    split; rewrite ?Hq, ?Cn; destruct running; try done; cbn; try lia; try apply A.
  - assert (held (cleared p) = []) as Hq by (unfold held; change (carried (cleared p)) with (carried p); by rewrite C).
    split; rewrite ?Hq; change (carried (cleared p)) with (carried p); rewrite ?C; try done.
    cbn. lia.
Qed.
