(* ===== verification/SavePipelineSafety.v ===== *)
(** * What the save pipeline keeps

    Theorems on the histories of [SavePipeline], by cases on the moves of
    [SavePipelineMoves]: what the pipeline accounts for, that nothing reaches the writer
    before the journal has it, in which order captures travel and how a failed append
    breaks it, what a terminal save that succeeded is evidence of, and what the two kinds
    of fences keep out. *)

From S2P Require Import Prelude Files RevisionState Snapshot SaveWorker PlayerCodec SaveJournal SaveJournalSafety SavePipeline SavePipelineMoves SavePipelineWriter SavePipelineAccounts.

Lemma moves_invariant free (I : pipeline → Prop) p p' :
  (∀ p p', accounted p → move free p p' → I p → I p') →
  moves free p p' → accounted p ∧ I p → accounted p' ∧ I p'.
Proof.
  intros K. induction 1 as [|p p1 p' M Ms IH]; intros [A Ip]; [done|].
  apply IH. split; [by eapply accounted_move|by eapply K].
Qed.

Lemma no_pipeline_accounted : accounted no_pipeline.
Proof. split; [done|by apply Forall_nil|done|apply Nat.le_0_l|done|done|done]. Qed.

(** ** Nothing is written before it is in the journal *)

(** The snapshot the dispatcher carries back from the journal, which has it. *)
Definition in_journal (p : pipeline) : list player_snapshot :=
  match cargo p with
  | Some (s, Some result) => if bool_decide (result = journal_ok) then [s] else []
  | _ => []
  end.

(** What has been in the journal and is on its way to the writer, in order. *)
Definition forwarded (p : pipeline) : list player_snapshot :=
  submitted (past p) ++ durable_ready p ++ in_journal p.

Definition written_ahead (p : pipeline) : Prop :=
  forwarded p `sublist_of` journaled (past p).

Lemma written_ahead_elsewhere p p' :
  written_ahead p → durable_ready p' = durable_ready p → cargo p' = cargo p →
  submitted (past p') = submitted (past p) → journaled (past p') = journaled (past p) →
  written_ahead p'.
Proof. unfold written_ahead, forwarded, in_journal. by intros ? -> -> -> ->. Qed.

Lemma written_ahead_thread_move p p' :
  thread_move p p' → written_ahead p → written_ahead p'.
Proof.
  intros M A. destruct M as [p p' E|p s rest Dp P|p s result Dp|p memory s result Dp|p s rest ok P|p cs|p c C].
  - core_eq E. apply (written_ahead_elsewhere p); by rewrite ?Q, ?K, ?X.
  - unfold written_ahead, forwarded, in_journal, cargo in *. rewrite Dp in A. exact A.
  - unfold written_ahead, forwarded, in_journal, cargo in *. rewrite Dp in A. rewrite app_nil_r in A.
    change (sublist (submitted (past p) ++ durable_ready p ++ if bool_decide (result = journal_ok) then [s] else [])
      (if bool_decide (result = journal_ok) then journaled (past p) ++ [s] else journaled (past p))).
    case_bool_decide; [|by rewrite app_nil_r]. rewrite app_assoc. by apply sublist_app.
  - unfold written_ahead, forwarded, in_journal, cargo in *. rewrite Dp in A. unfold store_appended.
    rewrite (with_terminal_eta (snapshot_pid s)).
    destruct p. case_bool_decide; destruct memory; cbn in *; rewrite ?app_nil_r in *; try done.
    all: etransitivity; [|exact A]; apply sublist_app; [done|]; by apply sublist_inserts_r.
  - unfold written_ahead, forwarded, in_journal in *. rewrite P in A.
    change (sublist ((if ok then submitted (past p) ++ [s] else submitted (past p)) ++ rest ++ in_journal p) (journaled (past p))).
    etransitivity; [|exact A]. destruct ok; [by rewrite <- app_assoc|].
    apply sublist_app; [done|]. by apply sublist_cons.
  - by apply (written_ahead_elsewhere p).
  - rewrite with_terminal_eta. by apply (written_ahead_elsewhere p).
Qed.

Lemma written_ahead_move free p p' :
  accounted p → move free p p' → written_ahead p → written_ahead p'.
Proof.
  intros A M Wr. apply move_moved in M as [M|s U Q|U|running N ->|C ->]; [|..|done].
  - by eapply written_ahead_thread_move.
  - destruct Q as [E|l1 old l2 Lf Po1 Po N Rv In B E|Lf N In Ct B E];
      core_eq E; apply (written_ahead_elsewhere p); rewrite ?Q, ?K, ?X; done.
  - destruct U. apply (written_ahead_elsewhere p); congruence.
  - destruct (idle_empty p A N) as (_ & _ & J). destruct running; [|by apply (written_ahead_elsewhere p)].
    unfold written_ahead, forwarded, in_journal in *. rewrite J in Wr. exact Wr.
  - unfold written_ahead, forwarded in *. etransitivity; [|exact Wr].
    change (submitted (past (cleared p))) with (submitted (past p)).
    change (submitted (past p) ++ [] ++ in_journal p `sublist_of` submitted (past p) ++ durable_ready p ++ in_journal p).
    apply sublist_app; [done|]. by apply sublist_inserts_l.
Qed.

(** ** Captures keep their order *)

(** What has been captured and not replaced or lost, from the writer back. *)
Definition travelling (p : pipeline) : list player_snapshot :=
  submitted (past p) ++ durable_ready p ++ option_list (carried p) ++ pending_append p.

Definition keeps_order (p : pipeline) : Prop :=
  refused (past p) = [] → ∀ pid,
    of_player pid (travelling p) `sublist_of` of_player pid (captured (past p))
    ∧ (length (of_player pid (pending_append p)) ≤ 1)%nat.

Lemma of_player_sublist pid l k :
  l `sublist_of` k → of_player pid l `sublist_of` of_player pid k.
Proof.
  unfold of_player. induction 1 as [|x l k S IH|x l k S IH]; [done|..]; rewrite !filter_cons; case_decide; try done.
  - by apply sublist_skip.
  - by apply sublist_cons.
Qed.

Lemma of_player_app pid l k : of_player pid (l ++ k) = of_player pid l ++ of_player pid k.
Proof. apply filter_app. Qed.

Lemma of_player_none pid l : Forall (λ q, snapshot_pid q ≠ pid) l → of_player pid l = [].
Proof.
  unfold of_player. induction 1 as [|s l N F IH]; [done|]. rewrite filter_cons. by rewrite decide_False.
Qed.

Lemma of_player_one pid s : of_player pid [s] = if decide (snapshot_pid s = pid) then [s] else [].
Proof. unfold of_player. rewrite filter_cons. by case_decide. Qed.

Lemma keeps_order_shorter p p' :
  keeps_order p → travelling p' `sublist_of` travelling p →
  pending_append p' `sublist_of` pending_append p → captured (past p') = captured (past p) →
  (refused (past p') = [] → refused (past p) = []) → keeps_order p'.
Proof.
  intros O T P C R N pid. destruct (O (R N) pid) as [S L]. rewrite C. split.
  - etransitivity; [by apply of_player_sublist|exact S].
  - etransitivity; [|exact L]. by apply sublist_length, of_player_sublist.
Qed.

Lemma keeps_order_elsewhere p p' :
  keeps_order p → pending_append p' = pending_append p → durable_ready p' = durable_ready p →
  carried p' = carried p → submitted (past p') = submitted (past p) →
  captured (past p') = captured (past p) → refused (past p') = refused (past p) → keeps_order p'.
Proof.
  intros O P Q C S X R. apply (keeps_order_shorter p); [done| |by rewrite P|done|by rewrite R].
  unfold travelling. by rewrite P, Q, C, S.
Qed.

Lemma keeps_order_thread_move p p' : thread_move p p' → keeps_order p → keeps_order p'.
Proof.
  intros M O. destruct M as [p p' E|p s rest Dp P|p s result Dp|p memory s result Dp|p s rest ok P|p cs|p c C].
  - core_eq E. apply (keeps_order_elsewhere p); by rewrite ?Q, ?C, ?X.
  - apply (keeps_order_shorter p); try done.
    + unfold travelling, carried. rewrite Dp, P. done.
    + rewrite P. by apply sublist_cons.
  - apply (keeps_order_elsewhere p); try done. unfold carried. by rewrite Dp.
  - unfold store_appended. rewrite (with_terminal_eta (snapshot_pid s)).
    case_bool_decide as Ok.
    + apply (keeps_order_shorter p); try done; [|by destruct memory|by destruct memory|by destruct memory].
      unfold travelling, carried. rewrite Dp. destruct p, memory; cbn; rewrite <- ?app_assoc; cbn; [done|].
      do 2 (apply sublist_app; [done|]). by apply sublist_cons.
    + intros Rf. exfalso. destruct p, past, memory; cbn in Rf; by apply app_eq_nil in Rf as [_ ?].
  - apply (keeps_order_shorter p); try done. unfold travelling. rewrite P.
    change ((if ok then submitted (past p) ++ [s] else submitted (past p)) ++ rest ++ option_list (carried p) ++ pending_append p
      `sublist_of` submitted (past p) ++ (s :: rest) ++ option_list (carried p) ++ pending_append p).
    destruct ok; [by rewrite <- app_assoc|]. apply sublist_app; [done|]. by apply sublist_cons.
  - by apply (keeps_order_elsewhere p).
  - rewrite with_terminal_eta. by apply (keeps_order_elsewhere p).
Qed.

(** A later capture takes the place of the one that waits, the last of its player. *)
Lemma of_player_over pid l1 old s l2 :
  snapshot_pid old = snapshot_pid s → Forall (λ q, snapshot_pid q ≠ snapshot_pid s) l1 →
  (length (of_player (snapshot_pid s) (l1 ++ old :: l2)) ≤ 1)%nat →
  (snapshot_pid s ≠ pid ∧ of_player pid (l1 ++ s :: l2) = of_player pid (l1 ++ old :: l2))
  ∨ (snapshot_pid s = pid ∧ of_player pid (l1 ++ s :: l2) = [s]
     ∧ of_player pid (l1 ++ old :: l2) = [old]).
Proof.
  intros Po N L. destruct (decide (snapshot_pid s = pid)) as [<-|Ne].
  - right. rewrite !(of_player_app _ l1), (of_player_none _ l1) in * by done.
    unfold of_player in *. rewrite !filter_cons in *. rewrite decide_True in L by done. rewrite !decide_True by done.
    destruct (filter _ l2); [done|cbn in L; lia].
  - left. rewrite !of_player_app. unfold of_player. rewrite !filter_cons.
    rewrite !decide_False by congruence. done.
Qed.

Lemma keeps_order_enqueued s p p' : enqueued s p p' → keeps_order p → keeps_order p'.
Proof.
  intros [E|l1 old l2 Lf P0 Po N Rv In B E|Lf N In Ct B E] O; core_eq E.
  - apply (keeps_order_elsewhere p); by rewrite ?P, ?Q, ?C, ?X.
  - intros Rf pid. rewrite X in Rf. destruct (O Rf pid) as [S Le]. destruct (O Rf (snapshot_pid s)) as [_ Ls].
    rewrite P0 in Ls, Le.
    assert (captured (past p') = captured (past p) ++ [s] ∧ submitted (past p') = submitted (past p)) as [-> Sb] by (by rewrite X).
    change (pending_append (queued_over s old (l1 ++ s :: l2) p)) with (l1 ++ s :: l2) in P.
    unfold travelling in *. rewrite P, Q, C, Sb.
    change (durable_ready (queued_over s old (l1 ++ s :: l2) p)) with (durable_ready p).
    change (carried (queued_over s old (l1 ++ s :: l2) p)) with (carried p).
    rewrite P0 in S. rewrite (of_player_app _ (captured _)), of_player_one.
    rewrite !(of_player_app _ (submitted _)), !(of_player_app _ (durable_ready _)),
      !(of_player_app _ (option_list _)), !(app_assoc (of_player _ (durable_ready _))),
      !(app_assoc (of_player _ (submitted _))) in *.
    destruct (of_player_over pid l1 old s l2 Po N Ls) as [[Ne Eq]|(<- & Eq & Eo)]; rewrite Eq.
    + rewrite decide_False by done. by rewrite app_nil_r.
    + rewrite decide_True by done. split; [|done]. apply sublist_app; [|done].
      etransitivity; [|exact S]. by apply sublist_inserts_r.
  - intros Rf pid. rewrite X in Rf. destruct (O Rf pid) as [S Le].
    assert (captured (past p') = captured (past p) ++ [s] ∧ submitted (past p') = submitted (past p)) as [-> Sb] by (by rewrite X).
    change (pending_append (queued_last s p)) with (pending_append p ++ [s]) in P.
    unfold travelling in *. rewrite P, Q, C, Sb.
    change (durable_ready (queued_last s p)) with (durable_ready p).
    change (carried (queued_last s p)) with (carried p).
    rewrite !app_assoc in *. rewrite !(of_player_app _ _ [s]). split; [by apply sublist_app|].
    rewrite of_player_one. case_decide as D; [|by rewrite app_nil_r].
    rewrite D in N. by rewrite of_player_none.
Qed.

Lemma keeps_order_move free p p' : accounted p → move free p p' → keeps_order p → keeps_order p'.
Proof.
  intros A M O. apply move_moved in M as [M|s U Q|U|running N ->|C ->]; [|..|done].
  - by eapply keeps_order_thread_move.
  - by eapply keeps_order_enqueued.
  - destruct U as [P Q K R I J X N]. apply (keeps_order_elsewhere p); by rewrite ?carried_cargo, ?P, ?Q, ?K, ?X.
  - destruct (idle_empty p A N) as (_ & _ & J). destruct running; [|by apply (keeps_order_elsewhere p)].
    apply (keeps_order_elsewhere p); try done. by rewrite (carried_cargo p), J.
  - apply (keeps_order_shorter p); try done.
    + unfold travelling. change (carried (cleared p)) with (carried p). rewrite C.
      change (submitted (past p) ++ [] `sublist_of` submitted (past p) ++ durable_ready p ++ pending_append p).
      apply sublist_app; [done|]. apply sublist_nil_l.
    + apply sublist_nil_l.
Qed.

(** ** What a fence is evidence of *)

Definition evidence (h : pipeline_history) (f : terminal_fence) : Prop :=
  (tf_journaled f = true → ∃ s, s ∈ journaled h ∧ snapshot_pid s = tf_pid f
     ∧ snapshot_revision s = tf_revision f)
  ∧ (tf_acknowledged f = true → ∃ c, c ∈ completed h ∧ c_pid c = tf_pid f
     ∧ c_revision c = tf_revision f ∧ applied_durably c (tf_revision f) = true).

Definition evident (p : pipeline) : Prop :=
  ∀ slot f, terminal_fences p !! slot = Some f → tf_pid f ≠ 0 → evidence (past p) f.

Lemma evidence_more h h' f :
  journaled h ⊆ journaled h' → completed h ⊆ completed h' → evidence h f → evidence h' f.
Proof.
  intros J C [Ej Ec]. split.
  - intros F. destruct (Ej F) as (s & I & E). exists s. split; [by apply J|done].
  - intros F. destruct (Ec F) as (c & I & E). exists c. split; [by apply C|done].
Qed.

Lemma evident_elsewhere p p' :
  evident p → terminal_fences p' = terminal_fences p →
  journaled (past p) ⊆ journaled (past p') → completed (past p) ⊆ completed (past p') → evident p'.
Proof. intros A T J C slot f. rewrite T. intros L N. eapply evidence_more; [done..|by eapply A]. Qed.

(** One slot is written. *)
Lemma evident_slot p p' slot f :
  evident p → terminal_fences p' = <[slot := f]> (terminal_fences p) →
  past p' = past p → (tf_pid f ≠ 0 → evidence (past p) f) → evident p'.
Proof.
  intros A T X E i g. rewrite T, X. intros L N. destruct (decide (slot = i)) as [->|Ne].
  - apply list_lookup_insert_Some in L as [(_ & -> & _)|[? _]]; [by apply E|done].
  - rewrite list_lookup_insert_ne in L by done. by eapply A.
Qed.

Lemma with_terminal_cases pid g p :
  with_terminal pid g p = p
  ∨ ∃ slot f, terminal_fences p !! slot = Some f ∧ tf_pid f = pid
      ∧ with_terminal pid g p = set_terminal slot (g f) p.
Proof.
  unfold with_terminal. destruct (find_terminal pid p) as [[slot f]|] eqn:F; [|by left].
  right. exists slot, f. unfold find_terminal in F. apply list_find_Some in F as (L & P & _). done.
Qed.

Lemma evident_with pid g p :
  evident p →
  (∀ f, tf_pid f = pid → evidence (past p) f → pid ≠ 0 → tf_pid (g f) ≠ 0 → evidence (past p) (g f)) →
  (∀ f, tf_pid f = 0 → tf_pid (g f) = 0) →
  evident (with_terminal pid g p).
Proof.
  intros A G Z0. destruct (with_terminal_cases pid g p) as [->|(slot & f & L & P & ->)]; [done|].
  apply (evident_slot p _ slot (g f)); try done. intros N.
  destruct (decide (pid = 0)) as [->|Np]; [by rewrite Z0 in N|].
  apply G; try done. eapply A; [done|]. by rewrite P.
Qed.

Lemma evident_thread_move p p' :
  thread_move p p' → written_ahead p → evident p → evident p'.
Proof.
  intros M Wr A. destruct M as [p p' E|p s rest Dp P|p s result Dp|p memory s result Dp|p s rest ok P|p cs|p c C].
  - core_eq E. apply (evident_elsewhere p); by rewrite ?T, ?X.
  - by apply (evident_elsewhere p).
  - apply (evident_elsewhere p); try done. destruct p, past; cbn. case_bool_decide; set_solver.
  - assert (evident (store_appended memory s result p) ↔ evident
      (if bool_decide (result = journal_ok) then
         if memory then with_terminal (snapshot_pid s)
           (λ f, if tf_revision f =? snapshot_revision s then {f with tf_journaled := true} else f)
           {p with durable_ready ::= λ l, l ++ [s] }
         else p
       else {p with past -> refused ::= λ l, l ++ [s] })) as ->.
    { by destruct (bool_decide (result = journal_ok)) eqn:Ok, memory; unfold store_appended; rewrite Ok. }
    case_bool_decide as Ok; [|by apply (evident_elsewhere p)].
    destruct memory; [|done]. apply evident_with; [by apply (evident_elsewhere p)| |].
    + intros f Pf Ev Np _. destruct (_ =? _) eqn:Er; [|done]. apply Z.eqb_eq in Er.
      destruct Ev as [_ Ec]. split; [|exact Ec]. intros _. exists s.
      split; [|by destruct f].
      change (s ∈ journaled (past p)). eapply elem_of_sublist; [|exact Wr].
      unfold forwarded, in_journal, cargo. rewrite Dp, bool_decide_true by done. set_solver.
    + intros f Pf. by destruct (_ =? _).
  - by apply (evident_elsewhere p).
  - apply (evident_elsewhere p); try done. destruct p, past; cbn. set_solver.
  - apply evident_with; [done| |].
    + intros f Pf Ev Np _. unfold acknowledge_fence. destruct (_ && _) eqn:Er; [|done].
      apply andb_true_iff in Er as [Er Ed]. apply Z.eqb_eq in Er.
      destruct Ev as [Ej _]. split; [exact Ej|]. intros _. exists c. by destruct f; cbn in *; subst.
    + intros f Pf. unfold acknowledge_fence. by destruct (_ && _).
Qed.

(** What a move does to the terminal fences. *)
Inductive fence_moved (free : fence_kind → Z → Prop) (p p' : pipeline) : Prop :=
| fence_thread : thread_move p p' → fence_moved free p p'
| fence_same :
    terminal_fences p' = terminal_fences p → journaled (past p') = journaled (past p) →
    completed (past p') = completed (past p) → fence_moved free p p'
| fence_set slot f pid revision :
    terminal_fences p !! slot = Some f →
    tf_pid f = pid ∨ tf_pid f = 0 ∧ login_fenced pid p = false →
    terminal_fences p' = <[slot := TerminalFence pid revision false false]> (terminal_fences p) →
    past p' = past p → fence_moved free p p'
| fence_dropped slot f :
    terminal_fences p !! slot = Some f → tf_pid f = 0 ∨ free the_terminal (tf_pid f) →
    terminal_fences p' = <[slot := no_terminal_fence]> (terminal_fences p) →
    past p' = past p → fence_moved free p p'
| fence_cleared : (∀ kind pid, free kind pid) → p' = cleared p → fence_moved free p p'.

(** The slot a fence is allocated in is free or already the player's. *)
Lemma allocate_slot pid p p1 slot f :
  allocate_terminal_fence pid p = Some p1 → find_terminal pid p1 = Some (slot, f) →
  login_fenced pid p = false ∧ ∃ f0,
    terminal_fences p !! slot = Some f0 ∧ (tf_pid f0 = pid ∨ tf_pid f0 = 0)
    ∧ ∀ g, <[slot := g]> (terminal_fences p1) = <[slot := g]> (terminal_fences p).
Proof.
  unfold allocate_terminal_fence. destruct (login_fenced _ _); [done|].
  destruct (find_terminal pid p) as [[slot0 f0]|] eqn:E.
  - intros [= <-] F. split; [done|]. rewrite F in E. injection E as -> ->.
    unfold find_terminal in F. apply list_find_Some in F as (L & P & _). eauto.
  - destruct (find_terminal 0 p) as [[slot0 f0]|] eqn:Z0; [|done]. intros [= <-] F. split; [done|].
    unfold find_terminal in *. apply list_find_Some in Z0 as (L0 & P0 & _).
    apply list_find_None in E. apply list_find_Some in F as (L & P & _).
    change (<[slot0 := {f0 with tf_pid := pid}]> (terminal_fences p) !! slot = Some f) in L.
    destruct (decide (slot0 = slot)) as [->|Ne].
    + exists f0. split; [done|]. split; [by right|]. intros g. apply list_insert_insert_eq.
    + rewrite list_lookup_insert_ne in L by done. rewrite Forall_lookup in E. by apply E in L.
Qed.

Lemma with_terminal_slot pid g p slot f :
  find_terminal pid p = Some (slot, f) → with_terminal pid g p = set_terminal slot (g f) p.
Proof. unfold with_terminal. by intros ->. Qed.

Lemma move_fence_moved free p p' : accounted p → move free p p' → fence_moved free p p'.
Proof.
  intros A M.
  destruct M as [p p' M|p memory s U|p p1 pid slot f revision E F|p p1 pid Fr E|p pid slot f revision F
    |p pid Fr|p p' pid revision Hn E|p pid revision Fr|p running N|p Fr C].
  - by apply fence_thread.
  - destruct (enqueue_enqueued memory s p A U) as [E|l1 old l2 Lf Po1 Po N Rv In B E|Lf N In Ct B E];
      core_eq E; apply fence_same; by rewrite ?T, ?X.
  - pose proof (allocate_untouched _ _ _ E) as []. destruct (allocate_slot _ _ _ _ _ E F) as (Lf & f0 & L & P & Eq).
    eapply (fence_set free p _ slot f0 pid revision L); [naive_solver| |done]. apply Eq.
  - pose proof (allocate_untouched _ _ _ E) as []. destruct (allocate_finds _ _ _ E) as [[slot f] F].
    destruct (allocate_slot _ _ _ _ _ E F) as (Lf & f0 & L & P & Eq). unfold release_terminal.
    rewrite (with_terminal_slot _ _ _ _ _ F). eapply (fence_dropped free p _ slot f0 L); [|apply Eq|done].
    destruct P as [<-|P]; auto.
  - unfold find_terminal in F. apply list_find_Some in F as (L & P & _).
    by apply (fence_set free p _ slot f pid revision L); [left|..].
  - unfold release_terminal. destruct (with_terminal_cases pid (λ _, no_terminal_fence) p) as [->|(slot & f & L & P & ->)].
    + by apply fence_same.
    + apply (fence_dropped free p _ slot f L); [right; by rewrite P|done..].
  - unfold allocate_login_fence in E. destruct (login_fenced _ _); [done|].
    destruct (find_login 0 p) as [[slot f]|]; [|done]. injection E as <-. by apply fence_same.
  - rewrite release_login_eta. by apply fence_same.
  - apply fence_same; by destruct running.
  - by apply fence_cleared.
Qed.

Lemma no_fences_lookup slot f : no_terminal_fences !! slot = Some f → f = no_terminal_fence.
Proof. unfold no_terminal_fences. intros L. by apply lookup_replicate in L as [-> _]. Qed.

(** ** The three invariants together *)

Record sound (p : pipeline) : Prop := {
  snd_accounted : accounted p;
  snd_written : written_ahead p;
  snd_evident : evident p;
}.

Lemma sound_move free p p' : move free p p' → sound p → sound p'.
Proof.
  intros M [A Wr Ev]. split; [by eapply accounted_move|by eapply written_ahead_move|].
  apply move_fence_moved in M as [M|T J C|slot f pid revision L P T X|slot f L P T X|Fr ->]; [|..|done].
  - by eapply evident_thread_move.
  - apply (evident_elsewhere p); try done; by rewrite ?J, ?C.
  - by eapply evident_slot.
  - by eapply evident_slot.
  - intros slot f L. change (no_terminal_fences !! slot = Some f) in L. by apply no_fences_lookup in L as ->.
Qed.

Lemma sound_moves free p p' : moves free p p' → sound p → sound p'.
Proof. induction 1 as [|p p1 p' M Ms IH]; intros S; [done|]. apply IH. by eapply sound_move. Qed.

Lemma no_pipeline_sound : sound no_pipeline.
Proof.
  split; [apply no_pipeline_accounted|apply sublist_nil_l|].
  intros slot f L. by apply no_fences_lookup in L as ->.
Qed.

(** ** Theorems *)

Section Theorems.
Context `{Process} {W D : Type}.
Context (apply : player_snapshot → D → option player_save_apply_result * D).
#[local] Abbreviation the_world := (@world W D).
Implicit Types (w : the_world).

(** A world some history of calls and steps leads to, from before the first start. *)
Definition reached w : Prop :=
  ∃ w0 calls, pipe w0 = no_pipeline ∧ Forall call_typed calls
              ∧ w = foldl (run_call apply) w0 calls.

Lemma reached_moves w : reached w → moves (λ _ _, True) no_pipeline (pipe w).
Proof. intros (w0 & calls & <- & T & ->). by apply run_calls_moves. Qed.

Lemma reached_sound w : reached w → sound (pipe w).
Proof. intros R. eapply sound_moves; [by apply reached_moves|apply no_pipeline_sound]. Qed.

Lemma reached_order w : reached w → keeps_order (pipe w).
Proof.
  intros R. apply (moves_invariant (λ _ _, True) keeps_order no_pipeline).
  - intros p p' A M. by eapply keeps_order_move.
  - by apply reached_moves.
  - split; [apply no_pipeline_accounted|]. intros _ pid. split; [apply sublist_nil_l|apply Nat.le_0_l].
Qed.

(** C30: whatever is captured, appended, refused, submitted, lost to memory or shut down, and
    in whatever order the threads run, the bytes the pipeline accounts for are those of the
    snapshots it holds, in its queues or with the dispatcher; they stay within 32 MiB and
    the snapshots within one more than the 256 of the queues; the flags of the append in
    flight tell what the dispatcher carries; and a stopped pipeline holds nothing. *)
Theorem pipeline_accounts w :
  reached w →
  let p := pipe w in
  retained_bytes p = total (held p) ∧ 0 ≤ retained_bytes p ≤ PLAYER_SAVE_PIPELINE_MAX_BYTES
  ∧ (length (held p) ≤ PLAYER_SAVE_PIPELINE_MAX_SNAPSHOTS + 1)%nat
  ∧ append_inflight p = bool_decide (is_Some (carried p))
  ∧ append_inflight_pid p = from_option snapshot_pid 0 (carried p)
  ∧ (ph_initialized (phealth p) = false → held p = []).
Proof.
  intros R p. apply reached_sound in R as [A _ _]. destruct (accounted_range _ A). destruct A.
  repeat split; done.
Qed.

(** C10: nothing reaches the writer that the journal did not accept first: the snapshots
    handed to the writer, then those that wait for it, then the one the dispatcher brings
    back from the journal, are accepted snapshots in the order the journal accepted them,
    each once. *)
Theorem pipeline_writes_ahead w :
  reached w → forwarded (pipe w) `sublist_of` journaled (past (pipe w)).
Proof. intros R. by apply reached_sound in R as [_ Wr _]. Qed.

(** C13: as long as no append has failed, the snapshots of a player travel in the order
    they were captured: the writer is handed, the queues and the dispatcher hold, a
    subsequence of the captures of the player, and at most one waits for the journal. *)
Theorem pipeline_keeps_order w pid :
  reached w → refused (past (pipe w)) = [] →
  of_player pid (travelling (pipe w)) `sublist_of` of_player pid (captured (past (pipe w)))
  ∧ (length (of_player pid (pending_append (pipe w))) ≤ 1)%nat.
Proof. intros R N. by apply reached_order. Qed.

(** *** Terminal saves *)

Lemma take_turn_sound t w : sound (pipe w) → sound (pipe (take_turn apply t w)).
Proof. apply (sound_moves (λ _ _, True)). apply moves_thread, take_turn_moves. Qed.

Definition proof_of (pid revision : Z) (allow : bool) (result : player_save_terminal_result)
    (h : pipeline_history) : Prop :=
  match result with
  | journal_durable =>
      allow = true ∧ ∃ s, s ∈ journaled h ∧ snapshot_pid s = pid ∧ snapshot_revision s = revision
  | database_acknowledged =>
      ∃ c, c ∈ completed h ∧ c_pid c = pid ∧ c_revision c = revision
           ∧ applied_durably c revision = true
  | _ => True
  end.

Lemma await_proof turns pid revision allow w result w' :
  pid ≠ 0 → sound (pipe w) →
  await_terminal_fence apply turns pid revision allow w = (result, w') →
  proof_of pid revision allow result (past (pipe w')).
Proof.
  intros Np. revert w. induction turns as [|t turns IH]; intros w S; cbn [await_terminal_fence];
    [by intros [= <- <-]|].
  apply (take_turn_sound t) in S. set (w1 := take_turn apply t w) in *. clearbody w1.
  destruct (find_terminal pid (pipe w1)) as [[slot f]|] eqn:F; [|by intros [= <- <-]].
  unfold find_terminal in F. apply list_find_Some in F as (L & P & _).
  destruct (tf_revision f =? revision) eqn:Er; cbn [negb]; [|by intros [= <- <-]]. apply Z.eqb_eq in Er.
  destruct (snd_evident _ S slot f L) as [Ej Ec]; [by rewrite P|]. rewrite P, Er in Ej, Ec.
  destruct (tf_acknowledged f); [intros [= <- <-]; by apply Ec|].
  destruct (allow && tf_journaled f) eqn:Ea; [|by apply IH].
  apply andb_true_iff in Ea as [Ea Ej']. intros [= <- <-]. split; [done|]. by apply Ej.
Qed.

Lemma begin_revision pid w revision w' :
  begin_terminal_fence pid w = (Some revision, w') →
  (player_revision_mark pid PLAYER_CHECKPOINT_COMPONENT_ALL (revision_states w)).1 = Some revision.
Proof.
  unfold begin_terminal_fence. destruct (_ || _); [done|].
  destruct (allocate_terminal_fence _ _) as [p|]; [|done].
  change (revision_states {w with pipe := p}) with (revision_states w).
  destruct (player_revision_mark _ _ _) as [[r|] t]; [|done].
  destruct (find_terminal _ _) as [[]|]; [|done]. by intros [= <- <-].
Qed.

Lemma begin_sound pid w : sound (pipe w) → sound (pipe (begin_terminal_fence pid w).2).
Proof. apply (sound_moves (λ _ _, True)). by apply begin_moves. Qed.

(** C11: a terminal save, or one of a death, that succeeds has evidence for the very revision
    it marked: where it answers that the journal has it, the caller allowed the handoff and
    the journal accepted a snapshot of the player and the revision; where it answers that
    the database has it, the writer completed the revision and the database reported it or
    a later one durable. *)
Theorem terminal_has_proof w c turns timeout allow result w' :
  reached w →
  (∃ r, capture_typed r ∧
        player_save_pipeline_terminal apply r turns (Some c) timeout allow w = (result, w'))
  ∨ (∃ r corpse, (∀ revision s, dr_capture r revision = Some s → u64 (encoded_size_bound s))
        ∧ player_save_pipeline_terminal_death apply r turns (Some c) corpse timeout allow w
          = (result, w')) →
  result = journal_durable ∨ result = database_acknowledged →
  ∃ revision,
    (player_revision_mark (ch_pid c) PLAYER_CHECKPOINT_COMPONENT_ALL (revision_states w)).1
      = Some revision
    ∧ proof_of (ch_pid c) revision allow result (past (pipe w')).
Proof.
  intros R E Ok. apply reached_sound in R. destruct E as [(r & T & E)|(r & corpse & T & E)].
  - unfold player_save_pipeline_terminal in E.
    destruct (_ || _) eqn:G in E; [naive_solver|]. apply orb_false_elim in G as [G _].
    apply orb_false_elim in G as [_ G]. destruct (ch_load_degraded c); [naive_solver|].
    apply (begin_sound (ch_pid c)) in R.
    destruct (begin_terminal_fence _ _) as [[revision|] w1] eqn:B; [|naive_solver].
    apply begin_revision in B. exists revision. split; [done|].
    pose proof (checkpoint_moves apply (λ _ _, True) r (Some c) w1 T) as C.
    destruct (player_save_pipeline_checkpoint_dirty _ _ _ _) as [queued w2].
    eapply await_proof; [|by eapply sound_moves|exact E]. lia.
  - unfold player_save_pipeline_terminal_death in E.
    destruct (_ || _) eqn:G in E; [naive_solver|]. do 2 apply orb_false_elim in G as [G _].
    apply orb_false_elim in G as [_ G]. destruct (ch_load_degraded c && _); [naive_solver|].
    apply (begin_sound (ch_pid c)) in R.
    destruct (begin_terminal_fence _ _) as [[revision|] w1] eqn:B; [|naive_solver].
    apply begin_revision in B. exists revision. split; [done|].
    apply (sound_moves (λ _ _, True) _ _ (moves_thread _ _ _ (run_threads_moves apply (dr_threads r) w1))) in R.
    set (w2 := run_threads _ _ _) in *. clearbody w2. cbv zeta in E.
    destruct (dr_capture r revision) as [s|] eqn:C; [|naive_solver]. apply T in C.
    destruct (player_revision_queue _ _) as [[[q components]|] t]; [|naive_solver].
    destruct (_ || _) in E; [naive_solver|].
    pose proof (move_enqueue (λ _ _, True) (pipe w2) (dr_memory r) s C) as M.
    change (pipe {w2 with revision_states := t}) with (pipe w2) in E.
    destruct (enqueue_snapshot (dr_memory r) s (pipe w2)) as [queued p].
    destruct (_ || _) in E; [|naive_solver].
    eapply await_proof; [| |exact E]; [lia|]. by eapply sound_move.
Qed.

(** *** Fences that stay *)

Definition keeps_terminal (pid : Z) (p : pipeline) : Prop :=
  ∃ slot f, terminal_fences p !! slot = Some f ∧ tf_pid f = pid.

Lemma keeps_terminal_has pid p : keeps_terminal pid p ↔ has_terminal pid p = true.
Proof.
  unfold has_terminal, find_terminal. rewrite bool_decide_eq_true. split.
  - intros (slot & f & L & P). apply (list_find_elem_of _ _ f); [|done]. by apply list_elem_of_lookup_2 in L.
  - intros [[slot f] F]. apply list_find_Some in F as (L & P & _). by exists slot, f.
Qed.

(** A slot of another player is written. *)
Lemma keeps_terminal_slot pid p p' slot f g :
  keeps_terminal pid p → terminal_fences p !! slot = Some f →
  tf_pid f ≠ pid ∨ tf_pid g = pid →
  terminal_fences p' = <[slot := g]> (terminal_fences p) → keeps_terminal pid p'.
Proof.
  intros (i & h & Li & Ph) L Or T. unfold keeps_terminal. rewrite T.
  destruct (decide (slot = i)) as [->|Ne].
  - rewrite L in Li. injection Li as ->. exists i, g. destruct Or as [?|Pg]; [done|].
    split; [|done]. apply list_lookup_insert_eq. by eapply lookup_lt_Some.
  - exists i, h. by rewrite list_lookup_insert_ne.
Qed.

Lemma keeps_terminal_with pid q g p :
  (∀ f, tf_pid (g f) = tf_pid f) → keeps_terminal pid p → keeps_terminal pid (with_terminal q g p).
Proof.
  intros G Kp. destruct (with_terminal_cases q g p) as [->|(slot & f & L & P & ->)]; [done|].
  eapply keeps_terminal_slot; [exact Kp|exact L| |done].
  destruct (decide (tf_pid f = pid)) as [E|]; [right; by rewrite G|by left].
Qed.

Lemma keeps_terminal_thread pid p p' :
  thread_move p p' → keeps_terminal pid p → keeps_terminal pid p'.
Proof.
  intros M Kp. destruct M as [p p' E|p s rest Dp P|p s result Dp|p memory s result Dp|p s rest ok P|p cs|p c C]; try exact Kp.
  - core_eq E. unfold keeps_terminal. by rewrite T.
  - assert (keeps_terminal pid (store_appended memory s result p) ↔ keeps_terminal pid
      (if bool_decide (result = journal_ok) && memory then with_terminal (snapshot_pid s)
           (λ f, if tf_revision f =? snapshot_revision s then {f with tf_journaled := true} else f)
           {p with durable_ready ::= λ l, l ++ [s] }
       else p)) as ->.
    { by destruct (bool_decide (result = journal_ok)) eqn:Ok, memory; unfold store_appended; rewrite Ok. }
    destruct (_ && _); [|exact Kp]. apply keeps_terminal_with; [|exact Kp].
    intros f. by destruct (_ =? _).
  - apply keeps_terminal_with; [|exact Kp]. intros f. unfold acknowledge_fence. by destruct (_ && _).
Qed.

Lemma keeps_terminal_move (free : fence_kind → Z → Prop) pid p p' :
  pid ≠ 0 → ¬ free the_terminal pid → accounted p →
  move free p p' → keeps_terminal pid p → keeps_terminal pid p'.
Proof.
  intros Np Fr A M Kp.
  apply move_fence_moved in M as [M|T J C|slot f q revision L P T X|slot f L P T X|Al ->]; [|..|done].
  - by eapply keeps_terminal_thread.
  - unfold keeps_terminal. by rewrite T.
  - eapply keeps_terminal_slot; [exact Kp|exact L| |exact T]. cbn. destruct (decide (q = pid)); [by right|].
    left. destruct P as [P|[P _]]; congruence.
  - eapply keeps_terminal_slot; [exact Kp|exact L| |exact T]. left. intros E. subst.
    by destruct P.
  - by destruct Fr.
Qed.

Lemma await_timed_out turns pid revision allow w w' :
  await_terminal_fence apply turns pid revision allow w = (timed_out, w') →
  thread_moves (pipe w) (pipe w').
Proof.
  revert w. induction turns as [|t turns IH]; intros w; cbn [await_terminal_fence].
  - intros [= <-]. by apply aside.
  - intros E. etransitivity; [apply (take_turn_moves apply t)|]. revert E. set (w1 := take_turn apply t w). clearbody w1.
    destruct (find_terminal pid (pipe w1)) as [[slot f]|]; [|done].
    repeat (match goal with |- context [if ?b then (_, _) else _] => destruct b; [done|] end). apply IH.
Qed.

Lemma keeps_terminal_moves (free : fence_kind → Z → Prop) pid p p' :
  pid ≠ 0 → ¬ free the_terminal pid → moves free p p' → accounted p →
  keeps_terminal pid p → keeps_terminal pid p'.
Proof.
  intros Np Fr M A Kp.
  by apply (moves_invariant free (keeps_terminal pid) p p') in M as [_ ?];
    [|intros q q' Aq Mq; by eapply keeps_terminal_move|].
Qed.

Lemma begin_keeps pid w revision w' :
  begin_terminal_fence pid w = (Some revision, w') → keeps_terminal pid (pipe w').
Proof.
  unfold begin_terminal_fence. destruct (_ || _); [done|].
  destruct (allocate_terminal_fence _ _) as [p|]; [|done].
  destruct (player_revision_mark _ _ _) as [[r|] t]; [|done].
  destruct (find_terminal pid (pipe _)) as [[slot f]|] eqn:F; [|done]. intros [= <- <-].
  change (find_terminal pid p = Some (slot, f)) in F. apply list_find_Some in F as (L & P & _).
  exists slot, (TerminalFence pid r false false). split; [|done].
  apply (list_lookup_insert_eq (terminal_fences p)). by eapply lookup_lt_Some.
Qed.

(** a terminal save that timed out keeps its fence: until another terminal save of the
    player or a shutdown, whatever is acknowledged in the meantime, the player counts as
    having a save pending and no offline command gets the login fence. *)
Theorem timed_out_fence_stays w r turns c timeout allow w' calls :
  reached w → capture_typed r →
  player_save_pipeline_terminal apply r turns (Some c) timeout allow w = (timed_out, w') →
  Forall call_typed calls →
  (∀ call, call ∈ calls → ¬ frees call the_terminal (ch_pid c)) →
  let w'' := foldl (run_call apply) w' calls in
  player_save_pipeline_target_save_pending (ch_pid c) w'' = true
  ∧ player_save_pipeline_sealed_save_pending (ch_pid c) w'' = true
  ∧ ∀ between revision,
      player_save_pipeline_acquire_target_save_login_fence apply between (ch_pid c) revision w''
      = (false, w'').
Proof.
  intros R T E Ts Nf w''. apply reached_sound in R. unfold player_save_pipeline_terminal in E.
  destruct (_ || _) eqn:G in E; [done|]. apply orb_false_elim in G as [G _].
  apply orb_false_elim in G as [_ G]. destruct (ch_load_degraded c); [done|].
  pose proof (begin_sound (ch_pid c) w R) as Sb.
  destruct (begin_terminal_fence _ _) as [[revision|] w1] eqn:B; [|done]. apply begin_keeps in B.
  pose proof (checkpoint_moves apply (λ _ _, False) r (Some c) w1 T) as C.
  destruct (player_save_pipeline_checkpoint_dirty _ _ _ _) as [queued w2].
  apply await_timed_out, (moves_thread (λ _ _, False)) in E.
  assert (ch_pid c ≠ 0) as Np by lia.
  assert (keeps_terminal (ch_pid c) (pipe w'')) as Kp.
  { assert (moves (λ _ _, False) (pipe w1) (pipe w')) as M by (by etransitivity).
    eapply (keeps_terminal_moves (λ kind q, ∃ call, call ∈ calls ∧ frees call kind q));
      [done| |apply run_calls_moves; [done|eauto]| |].
    - intros (call & I & F). by eapply Nf.
    - by eapply sound_moves.
    - eapply keeps_terminal_moves; [done| |exact M| |done]; [by intros []|apply Sb]. }
  apply keeps_terminal_has in Kp. clearbody w''.
  assert (pipeline_holds (ch_pid c) (pipe w'') = true) as Hd
    by (unfold pipeline_holds; rewrite Kp; by rewrite !orb_true_r).
  unfold player_save_pipeline_target_save_pending, player_save_pipeline_sealed_save_pending,
    player_save_pipeline_acquire_target_save_login_fence. rewrite Hd, G. split; [done|]. split; [done|].
  intros between e. by destruct (_ || _).
Qed.

(** *** The barrier of offline commands *)

Record barred (pid revision : Z) (h : pipeline_history) (p : pipeline) : Prop := {
  bar_fence : ∃ slot, find_login pid p = Some (slot, LoginFence pid revision);
  bar_held : Forall (λ s, snapshot_pid s ≠ pid) (held p);
  bar_terminal : ¬ keeps_terminal pid p;
  bar_captured : of_player pid (captured (past p)) = of_player pid (captured h);
  bar_journaled : of_player pid (journaled (past p)) = of_player pid (journaled h);
  bar_submitted : of_player pid (submitted (past p)) = of_player pid (submitted h);
}.

Lemma barred_fenced pid revision h p : barred pid revision h p → login_fenced pid p = true.
Proof. intros [[slot F] _ _ _ _ _]. unfold login_fenced. rewrite F. by rewrite bool_decide_true. Qed.

(** The slot of another player is written. *)
Lemma find_login_slot pid p p' slot f g i h :
  find_login pid p = Some (i, h) → login_fences p !! slot = Some f →
  lf_pid f ≠ pid → lf_pid g ≠ pid →
  login_fences p' = <[slot := g]> (login_fences p) → find_login pid p' = Some (i, h).
Proof.
  unfold find_login. rewrite !list_find_Some. intros (Li & P & B) L Nf Ng ->.
  assert (slot ≠ i) as Ne by (intros ->; congruence).
  split; [by rewrite list_lookup_insert_ne|]. split; [done|]. intros j y Lj Lt.
  apply list_lookup_insert_Some in Lj as [(-> & <- & _)|[_ Lj]]; [done|by eapply B].
Qed.

Lemma find_login_same pid p p' :
  login_fences p' = login_fences p → find_login pid p' = find_login pid p.
Proof. unfold find_login. by intros ->. Qed.

Lemma thread_move_login p p' : thread_move p p' → login_fences p' = login_fences p.
Proof.
  intros M. destruct M as [p p' E|p s rest Dp P|p s result Dp|p memory s result Dp|p s rest ok P|p cs|p c C]; try done.
  - by core_eq E.
  - unfold store_appended. rewrite (with_terminal_eta (snapshot_pid s)). by destruct (bool_decide _), memory.
  - by rewrite with_terminal_eta.
Qed.

Lemma release_login_fences pid p : login_fences (release_terminal pid p) = login_fences p.
Proof. unfold release_terminal. by rewrite with_terminal_eta. Qed.

Lemma allocate_login_fences pid p p1 :
  allocate_terminal_fence pid p = Some p1 → login_fences p1 = login_fences p.
Proof.
  unfold allocate_terminal_fence. destruct (login_fenced _ _); [done|].
  destruct (find_terminal pid p); [by intros [= <-]|].
  destruct (find_terminal 0 p) as [[slot f]|]; [|done]. by intros [= <-].
Qed.

Lemma login_stays (free : fence_kind → Z → Prop) pid p p' i h :
  pid ≠ 0 → ¬ free the_login pid → accounted p → move free p p' →
  find_login pid p = Some (i, h) → find_login pid p' = Some (i, h).
Proof.
  intros Np Fr A M F. rewrite <- F.
  destruct M as [p p' M|p memory s U|p p1 q slot f revision E Ft|p p1 q Fq E|p q slot f revision Ft
    |p q Fq|p p' q revision Hn E|p q revision Fq|p running N|p Fq C].
  - by apply find_login_same, thread_move_login.
  - apply find_login_same. destruct (enqueue_enqueued memory s p A U) as [E|l1 old l2 Lf Po1 Po N Rv In B E|Lf N In Ct B E];
      core_eq E; by rewrite L.
  - apply find_login_same. by rewrite <- (allocate_login_fences q p p1 E).
  - apply find_login_same. rewrite release_login_fences. by eapply allocate_login_fences.
  - done.
  - apply find_login_same, release_login_fences.
  - unfold allocate_login_fence in E. destruct (login_fenced q p) eqn:Lq; [done|].
    destruct (find_login 0 p) as [[slot f]|] eqn:F0; [|done]. injection E as <-.
    rewrite F. pose proof F0 as F0'. unfold find_login in F0'. apply list_find_Some in F0' as (L0 & P0 & _).
    eapply (find_login_slot _ p _ slot f); [done..|congruence| |done].
    cbn. intros ->. unfold login_fenced in Lq. rewrite F in Lq. by rewrite bool_decide_true in Lq.
  - unfold release_login. destruct (find_login q p) as [[slot f]|] eqn:Fq'; [|done].
    destruct (_ =? _); [|done]. rewrite F. pose proof Fq' as Fq2. unfold find_login in Fq2.
    apply list_find_Some in Fq2 as (L0 & P0 & _).
    eapply (find_login_slot _ p _ slot f no_login_fence); [done..| |cbn; congruence|done]. intros <-. by rewrite P0 in Fr.
  - apply find_login_same. by destruct running.
  - by destruct Fr.
Qed.

(** A thread's move brings nothing in, and what it accepts or hands over was held. *)
Lemma thread_move_held p p' :
  thread_move p p' →
  (∀ s, s ∈ held p' → s ∈ held p) ∧ captured (past p') = captured (past p)
  ∧ (journaled (past p') = journaled (past p)
     ∨ ∃ s, s ∈ held p ∧ journaled (past p') = journaled (past p) ++ [s])
  ∧ (submitted (past p') = submitted (past p)
     ∨ ∃ s, s ∈ held p ∧ submitted (past p') = submitted (past p) ++ [s]).
Proof.
  intros M. destruct M as [p p' E|p s rest Dp P|p s result Dp|p memory s result Dp|p s rest ok P|p cs|p c C].
  - core_eq E. unfold held. rewrite P, Q, C, X. naive_solver.
  - split; [|by split; [|split; left]]. unfold held, carried. rewrite P, Dp. cbn. set_solver.
  - split; [|split; [done|split; [|by left]]].
    + unfold held, carried. by rewrite Dp.
    + destruct (bool_decide (result = journal_ok)) eqn:Ok; [right; exists s|left].
      * split; [unfold held, carried; rewrite Dp; set_solver|]. unfold appended. rewrite Ok. done.
      * unfold appended. by rewrite Ok.
  - unfold store_appended. rewrite (with_terminal_eta (snapshot_pid s)).
    destruct p, (bool_decide _), memory; cbn in *; subst; unfold held, carried; cbn; set_solver.
  - split; [|split; [done|split; [by left|]]].
    + unfold held. rewrite P. change (carried (handed s rest ok p)) with (carried p). cbn. set_solver.
    + destruct ok; [right; exists s|by left]. split; [unfold held; rewrite P; set_solver|done].
  - naive_solver.
  - rewrite with_terminal_eta. naive_solver.
Qed.

Lemma thread_move_absent pid p p' : thread_move p p' → ¬ keeps_terminal pid p → ¬ keeps_terminal pid p'.
Proof.
  assert (∀ q g p, (∀ f, tf_pid (g f) = tf_pid f) → keeps_terminal pid (with_terminal q g p) →
            keeps_terminal pid p) as K.
  { clear. intros q g p G. destruct (with_terminal_cases q g p) as [->|(slot & f & L & P & ->)]; [done|].
    intros (i & h & Li & Ph). apply list_lookup_insert_Some in Li as [(-> & <- & _)|[_ Li]]; [|by exists i, h].
    exists i, f. by rewrite <- G. }
  intros M N Kp. apply N. clear N.
  destruct M as [p p' E|p s rest Dp P|p s result Dp|p memory s result Dp|p s rest ok P|p cs|p c C]; try exact Kp.
  - core_eq E. unfold keeps_terminal in *. by rewrite T in Kp.
  - destruct (bool_decide (result = journal_ok)) eqn:Ok, memory;
      [|by unfold store_appended in Kp; rewrite Ok in Kp..].
    unfold store_appended in Kp. rewrite Ok in Kp. revert Kp.
    refine (K _ (λ f, if tf_revision f =? snapshot_revision s then {f with tf_journaled := true} else f)
      {p with durable_ready ::= λ l, l ++ [s] } _). intros f. by destruct (_ =? _).
  - eapply K; [|exact Kp]. intros f. unfold acknowledge_fence. by destruct (_ && _).
Qed.

Lemma of_player_snoc pid l s : snapshot_pid s ≠ pid → of_player pid (l ++ [s]) = of_player pid l.
Proof. intros N. rewrite of_player_app, of_player_one, decide_False by done. apply app_nil_r. Qed.

Lemma barred_thread_move pid revision h p p' :
  thread_move p p' → barred pid revision h p → barred pid revision h p'.
Proof.
  intros M [F Hd T C J S]. pose proof (thread_move_absent pid _ _ M T) as T'.
  pose proof (thread_move_login _ _ M) as L. apply thread_move_held in M as (Hh & Mc & Mj & Ms).
  rewrite Forall_forall in Hd. split; try done.
  - by rewrite (find_login_same pid p p' L).
  - apply Forall_forall. auto.
  - by rewrite Mc.
  - destruct Mj as [->|(s & I & ->)]; [done|]. rewrite of_player_snoc; auto.
  - destruct Ms as [->|(s & I & ->)]; [done|]. rewrite of_player_snoc; auto.
Qed.

Lemma barred_moved pid revision h p p' :
  accounted p → moved p p' → (∃ slot, find_login pid p' = Some (slot, LoginFence pid revision)) →
  ¬ keeps_terminal pid p' → barred pid revision h p → barred pid revision h p'.
Proof.
  intros A M F' T' B. destruct M as [M|s U Q|U|running N ->|Cn ->].
  - by eapply barred_thread_move.
  - pose proof (barred_fenced _ _ _ _ B) as Lf. destruct B as [F Hd T C J S]. rewrite Forall_forall in Hd.
    assert (core p' = core p ∨ snapshot_pid s ≠ pid
       ∧ (∀ q, q ∈ held p' → q ∈ held p ∨ q = s)
       ∧ captured (past p') = captured (past p) ++ [s]
       ∧ journaled (past p') = journaled (past p) ∧ submitted (past p') = submitted (past p)) as [E|(Ns & Hq & Pc & Pj & Ps)].
    { destruct Q as [E|l1 old l2 Ln Po1 Po N Rv In Bd E|Ln N In Ct Bd E]; [by left|right..].
      all: split; [congruence|]; core_eq E; rewrite X; split; [|done].
      - unfold held. rewrite P, Q, C0, Po1. change (carried (queued_over _ _ _ p)) with (carried p). cbn. set_solver.
      - unfold held. rewrite P, Q, C0. change (carried (queued_last _ p)) with (carried p). cbn. set_solver. }
    + core_eq E. split; rewrite ?X; try done. apply Forall_forall. unfold held. by rewrite P, Q0, C0.
    + split; rewrite ?Pj, ?Ps; try done.
      * apply Forall_forall. intros q I. apply Hq in I as [I| ->]; auto.
      * by rewrite Pc, of_player_snoc.
  - destruct B as [F Hd T C J S], U as [P Q K R I X Y Z0]. split; rewrite ?Y; try done.
    unfold held. by rewrite P, Q, carried_cargo, K, <- carried_cargo.
  - destruct B as [F Hd T C J S]. destruct (idle_empty p A N) as (Hp & Hr & Hc).
    split; try done; [|by destruct running..].
    assert (held (started running p) = []) as ->; [|done]. unfold held. rewrite carried_cargo.
    destruct running; change (pending_append (started _ p)) with (pending_append p);
      change (durable_ready (started _ p)) with (durable_ready p); rewrite Hp, Hr; [done|].
    change (cargo (started _ p)) with (cargo p). by rewrite Hc.
  - destruct B as [F Hd T C J S]. split; try done. unfold held. change (carried (cleared p)) with (carried p). by rewrite Cn.
Qed.

Lemma absent_move free pid p p' :
  pid ≠ 0 → accounted p → move free p p' → login_fenced pid p = true → ¬ keeps_terminal pid p →
  ¬ keeps_terminal pid p'.
Proof.
  intros Np A M Lf N.
  apply move_fence_moved in M as [M|T J C|slot f q revision L P T X|slot f L P T X|Al ->]; [|..|done].
  - by eapply thread_move_absent.
  - unfold keeps_terminal. by rewrite T.
  - intros (i & h & Li & Ph). rewrite T in Li.
    apply list_lookup_insert_Some in Li as [(-> & <- & _)|[_ Li]]; [|apply N; by exists i, h].
    cbn in Ph. subst q. destruct P as [P|[_ P]]; [|congruence]. apply N. by exists i, f.
  - intros (i & h & Li & Ph). rewrite T in Li.
    apply list_lookup_insert_Some in Li as [(-> & <- & _)|[_ Li]]; [by cbn in Ph|apply N; by exists i, h].
  - intros (i & h & Li & Ph). by apply no_fences_lookup in Li as ->.
Qed.

Lemma barred_move (free : fence_kind → Z → Prop) pid revision h p p' :
  pid ≠ 0 → ¬ free the_login pid → accounted p → move free p p' →
  barred pid revision h p → barred pid revision h p'.
Proof.
  intros Np Fr A M B. pose proof (barred_fenced _ _ _ _ B) as Lf.
  apply (barred_moved pid revision h p); [done|by eapply move_moved| | |done].
  - destruct (bar_fence _ _ _ _ B) as [slot F]. exists slot. by eapply login_stays.
  - eapply absent_move; [done..|]. by apply (bar_terminal _ _ _ _ B).
Qed.

(** The calls that may take the login fence of the player away. *)
Definition lifts (pid revision : Z) (c : pipeline_call (W := W)) : Prop :=
  match c with
  | call_release q e => q = pid ∧ e = revision
  | call_shutdown _ => True
  | _ => False
  end.

Lemma barred_call pid revision h w c :
  0 < pid → call_typed c → ¬ lifts pid revision c → sound (pipe w) →
  barred pid revision h (pipe w) → barred pid revision h (pipe (run_call apply w c)).
Proof.
  intros Np T Nl S B.
  assert ((∃ e, c = call_release pid e) ∨ (∃ between e, c = call_acquire between pid e)
          ∨ ¬ frees c the_login pid) as [[e ->]|[(between & e & ->)|Fr]]; cbn [run_call].
  { destruct c; try (right; right; cbn; tauto).
    - destruct (decide (pid0 = pid)) as [->|]; [right; left; eauto|by right; right].
    - destruct (decide (pid0 = pid)) as [->|]; [left; eauto|by right; right]. }
  - unfold player_save_pipeline_release_target_save_login_fence. rewrite (proj2 (Z.leb_gt _ _)) by done.
    change (barred pid revision h (release_login pid e (pipe w))). unfold release_login.
    destruct (bar_fence _ _ _ _ B) as [slot F]. rewrite F. cbn [lf_expected_revision].
    destruct (_ =? _) eqn:E; [|done]. apply Z.eqb_eq in E. by destruct Nl.
  - unfold player_save_pipeline_acquire_target_save_login_fence.
    rewrite (barred_fenced _ _ _ _ B), orb_true_r. by destruct (_ || _).
  - pose proof (run_call_moves apply (frees c) w c T (λ _ _ F, F)) as M.
    apply (moves_invariant (frees c) (barred pid revision h)) in M as [_ ?]; [done| |].
    + intros p p' Ap Mp. apply (barred_move (frees c)); [lia|done..].
    + split; [apply S|done].
Qed.

Lemma barred_calls pid revision h calls w :
  0 < pid → Forall call_typed calls → (∀ c, c ∈ calls → ¬ lifts pid revision c) → sound (pipe w) →
  barred pid revision h (pipe w) →
  barred pid revision h (pipe (foldl (run_call apply) w calls)).
Proof.
  intros Np T. revert w. induction T as [|c calls Tc T IH]; intros w Nl S B; [done|]. cbn [foldl].
  apply IH; [intros d I; apply Nl; by right| |].
  - eapply sound_moves; [by apply (run_call_moves apply (λ _ _, True))|done].
  - apply barred_call; try done. apply Nl. by left.
Qed.

Lemma acquired_barred between pid revision w w' :
  sound (pipe w) →
  player_save_pipeline_acquire_target_save_login_fence apply between pid revision w = (true, w') →
  0 < pid ∧ sound (pipe w') ∧ barred pid revision (past (pipe w')) (pipe w').
Proof.
  intros S E. pose proof (acquire_moves apply (λ _ _, True) between pid revision w I) as M.
  rewrite E in M. apply sound_moves in M; [|done]. cbn [snd] in M.
  unfold player_save_pipeline_acquire_target_save_login_fence in E.
  destruct (_ || _) eqn:G in E; [done|]. apply orb_false_elim in G as [G _]. cbv zeta in E.
  split; [lia|]. split; [done|].
  destruct (if _ || _ then None else _) as [p|] eqn:A in E; [|done].
  destruct (_ || _) eqn:Hd in A; [done|].
  assert (¬ keeps_terminal pid p) as Np.
  { rewrite keeps_terminal_has. assert (has_terminal pid p = has_terminal pid (pipe w)) as ->.
    { unfold allocate_login_fence in A. destruct (login_fenced _ _); [done|].
      destruct (find_login 0 (pipe w)) as [[]|]; [|done]. by injection A as <-. }
    unfold pipeline_holds in Hd. repeat apply orb_false_elim in Hd as [Hd ?]. congruence. }
  pose proof (run_threads_moves apply between {w with pipe := p}) as Mt.
  set (w1 := run_threads _ _ _) in *. clearbody w1. cbn [pipe] in Mt. change (pipe {w with pipe := p}) with p in Mt.
  assert (¬ keeps_terminal pid (pipe w1)) as N1.
  { clear -Mt Np. revert Np. induction Mt as [|q q1 q' Mq Ms IH]; [done|]. intros N. apply IH.
    by eapply thread_move_absent. }
  destruct (player_save_worker_pid_pending _ _); [done|]. destruct (from_option _ _ _); [done|].
  destruct (find_login pid (pipe w1)) as [[slot f]|] eqn:F; [|done].
  destruct (_ || _ || any_snapshot_is_retained _ _) eqn:X in E; [done|]. injection E as <-.
  apply orb_false_elim in X as [X Rt]. apply orb_false_elim in X as [Er Ip].
  split; try done.
  - exists slot. rewrite F. unfold find_login in F. apply list_find_Some in F as (_ & P & _).
    destruct f as [q e]. cbn in *. apply negb_false_iff, Z.eqb_eq in Er. by subst.
  - destruct M as [Ac _ _]. pose proof (acc_pid _ Ac) as Pd. apply Z.eqb_neq in Ip.
    unfold held. rewrite app_assoc, Forall_app. split.
    + apply Forall_forall. intros s Hs Ps. unfold any_snapshot_is_retained in Rt.
      apply not_true_iff_false in Rt. apply Rt, existsb_exists. exists s. split; [by apply list_elem_of_In|lia].
    + destruct (carried (pipe w1)); [|done]. apply Forall_cons. split; [by rewrite Pd in Ip|done].
Qed.

(** A world some history leads to from before the first start of the pipeline and its writer. *)
Definition reached_fresh w : Prop :=
  ∃ w0 calls, pipe w0 = no_pipeline ∧ writer w0 = initial_worker ∧ Forall call_typed calls
              ∧ w = foldl (run_call apply) w0 calls.

Lemma reached_fresh_reached w : reached_fresh w → reached w.
Proof. intros (w0 & calls & P & _ & T & E). by exists w0, calls. Qed.

Lemma reached_indexed w : reached_fresh w → indexed (writer w).
Proof.
  intros (w0 & calls & _ & Wr & _ & ->). destruct (run_calls_forwards apply calls w0) as (more & _ & K).
  apply K. rewrite Wr. apply indexed_initial.
Qed.

(** The fence is given only when the writer is done with the player. *)
Lemma acquired_done between pid revision w w' :
  player_save_pipeline_acquire_target_save_login_fence apply between pid revision w = (true, w') →
  player_save_worker_pid_pending pid (writer w') = false.
Proof.
  unfold player_save_pipeline_acquire_target_save_login_fence. destruct (_ || _); [done|]. cbv zeta.
  destruct (if _ || _ then None else _) as [p|]; [|done].
  set (w1 := run_threads _ _ _). clearbody w1.
  destruct (player_save_worker_pid_pending pid (writer w1)) eqn:P; [done|].
  destruct (from_option _ _ _); [done|].
  destruct (find_login pid (pipe w1)) as [[slot f]|]; [|done].
  destruct (_ || _ || any_snapshot_is_retained _ _); [done|]. by intros [= <-].
Qed.

(** C12: an offline command that got the login fence of a player is alone with it.  When the
    fence is given the writer is done with the player: no snapshot of it is queued there or being
    written and no completion is left to read.  Until the fence is released or the pipeline shuts
    down, no call of the game and no step of the threads captures, queues, appends or submits a
    snapshot of the player; the writer never has one, queued or being written; no terminal
    save of the player begins, nothing of the player is marked and no second fence is given. *)
Theorem login_fence_bars w between pid revision w' calls :
  reached_fresh w → i32 pid →
  player_save_pipeline_acquire_target_save_login_fence apply between pid revision w = (true, w') →
  Forall call_typed calls → (∀ c, c ∈ calls → ¬ lifts pid revision c) →
  let w'' := foldl (run_call apply) w' calls in
  player_save_worker_pid_pending pid (writer w') = false
  ∧ (∀ j, j ∈ option_list (inflight (pending (writer w''))) ++ (queue (pending (writer w''))).*2 →
       kind j = player → SaveWorker.pid (SaveWorker.snapshot j) ≠ pid)
  ∧ of_player pid (held (pipe w'')) = [] ∧ has_terminal pid (pipe w'') = false
  ∧ of_player pid (captured (past (pipe w''))) = of_player pid (captured (past (pipe w')))
  ∧ of_player pid (journaled (past (pipe w''))) = of_player pid (journaled (past (pipe w')))
  ∧ of_player pid (submitted (past (pipe w''))) = of_player pid (submitted (past (pipe w')))
  ∧ player_save_pipeline_save_admitted pid w'' = false
  ∧ (∀ components, player_save_pipeline_mark pid components w'' = (false, w''))
  ∧ ∀ between e,
      player_save_pipeline_acquire_target_save_login_fence apply between pid e w'' = (false, w'').
Proof.
  intros R Ip E T Nl w''. pose proof (acquired_done _ _ _ _ _ E) as Dn. split; [done|].
  pose proof (acquire_forwards apply between pid revision w) as (m0 & _ & F0).
  rewrite E in F0. apply reached_indexed in R as Ix. apply F0 in Ix as [Ix _]. cbn [snd] in Ix. clear F0 m0.
  apply reached_fresh_reached, reached_sound in R. apply acquired_barred in E as (Np & S & B); [|done].
  apply (barred_calls _ _ _ calls) in B; [|done..]. fold w'' in B.
  destruct (run_calls_forwards apply calls w') as (more & Hm & F). fold w'' in Hm, F. clearbody w''.
  pose proof (barred_fenced _ _ _ _ B) as Lf. destruct B as [_ Hd Nt Cp Jn Sb].
  split.
  { assert (of_player pid more = []) as Nm.
    { unfold handed_over in Hm. rewrite Hm, of_player_app in Sb.
      rewrite <- (app_nil_r (of_player pid (submitted (past (pipe w'))))) in Sb at 2.
      by apply app_inv_head in Sb. }
    destruct (F Ix) as [_ J]. intros j Hj K Pj. destruct (J j Hj K) as [Old|(s & Hs & Q)].
    - apply (not_pending (writer w') pid Ix Np) with j; [unfold fits, sfits in *; lia|done..].
    - assert (s ∈ of_player pid more) as X; [|rewrite Nm in X; set_solver].
      unfold of_player. apply list_elem_of_filter. split; [congruence|done]. }
  split; [by apply of_player_none|]. split.
  { apply not_true_iff_false. by rewrite <- keeps_terminal_has. }
  do 3 (split; [done|]). unfold player_save_pipeline_save_admitted, player_save_pipeline_mark,
    player_save_pipeline_acquire_target_save_login_fence. rewrite Lf. split; [by rewrite andb_false_r|]. split.
  - intros components. by destruct (negb _).
  - intros b e. rewrite orb_true_r. by destruct (_ || _).
Qed.
End Theorems.

(** ** A failed append lets an older capture overtake a terminal save *)

#[local] Existing Instance sample_process.

Definition sample_capture : capture_reply := λ revision components,
  Some {small_snapshot with snapshot_revision := revision; snapshot_components := components }.
Definition sample_checkpoint : checkpoint_replies := CheckpointReplies sample_capture [] true.
Definition sample_world : @world unit Z :=
  World no_pipeline ∅ initial_worker (Journal "" "" "" 0 0 0 SaveJournal.no_health ∅) 0 [] [].
Definition sample_char : char_data := Char false 5 false false false false false.
Definition sample_start : start_replies := StartReplies good_init 8000 true true [].
Definition sample_pulse : pulse_replies := PulseReplies [] (λ _, ([], 9000, true)).
(** The device does not answer; nothing is written. *)
Definition failed_append : append_replies := AppendReplies true good_open false good_io true.

Definition append_steps (r : append_replies) : list thread_step :=
  [dispatcher_does (step_append r 9000); dispatcher_does (step_store true)].
Definition dispatch_steps (r : append_replies) : list thread_step :=
  dispatcher_does step_take :: append_steps r.
Definition sample_turn : wait_turn := WaitTurn (dispatch_steps good_append) sample_pulse [].

Definition start_calls : list (pipeline_call (W := unit)) :=
  [call_init sample_start "/j"; call_thread (dispatcher_does step_begin);
   call_thread (dispatcher_does (step_replay true good_replay)); call_hydrate 5 0].
(** The writer is busy with a log row.  While the dispatcher appends the first capture of
    the player a second is queued; then the append fails. *)
Definition failing_calls : list (pipeline_call (W := unit)) :=
  start_calls ++
  [call_write 8500 true log 3 100 (Some tt); call_thread (writer_takes 8600);
   call_request sample_checkpoint (Some sample_char) 1; call_thread (dispatcher_does step_take);
   call_request sample_checkpoint (Some sample_char) 1]
  ++ (call_thread <$> append_steps failed_append).
(** After the terminal save the dispatcher and the game thread go on. *)
Definition later_calls : list (pipeline_call (W := unit)) :=
  (call_thread <$> dispatch_steps good_append) ++ [call_pulse sample_pulse].

Definition sample_run (calls : list pipeline_call) : @world unit Z :=
  foldl (run_call sample_apply) sample_world calls.

Lemma sample_capture_typed : capture_typed sample_checkpoint.
Proof. intros revision components s [= <-]. done. Qed.

Lemma start_calls_typed : Forall call_typed start_calls.
Proof. by repeat constructor. Qed.
Lemma failing_calls_typed : Forall call_typed failing_calls.
Proof.
  unfold failing_calls. apply Forall_app_2; [apply start_calls_typed|].
  repeat first [exact sample_capture_typed | constructor].
Qed.

Lemma sample_reached calls : Forall call_typed calls → reached sample_apply (sample_run calls).
Proof. intros T. by exists sample_world, calls. Qed.

(** The revisions of the jobs the writer has for a player, from the next on. *)
Definition queued_revisions (wk : SaveWorker.worker (B := player_snapshot) (W := unit)) : list Z :=
  (λ q, s_revision (SaveWorker.snapshot q.2)) <$>
    filter (λ q, SaveWorker.kind q.2 = player) (queue (SaveWorker.pending wk)).

(** C31: after one failed append an older capture can overtake a terminal save that has
    succeeded.  The capture that failed goes back before one queued meanwhile, the
    terminal save takes the place of the first, the journal accepts it and the player
    may go; then the second follows, and the writer replaces the terminal save, revision
    3, by it: the database is left at revision 2. *)
Theorem append_failure_overtakes :
  ∃ w w' calls,
    reached sample_apply w
    ∧ player_save_pipeline_terminal sample_apply sample_checkpoint [sample_turn] (Some sample_char)
        3000 true w = (journal_durable, w')
    ∧ let w'' := foldl (run_call sample_apply) w' calls in
      snapshot_revision <$> captured (past (pipe w'')) = [1; 2; 3]
      ∧ snapshot_revision <$> journaled (past (pipe w'')) = [3; 2]
      ∧ snapshot_revision <$> submitted (past (pipe w'')) = [3; 2]
      ∧ held (pipe w'') = [] ∧ queued_revisions (writer w'') = [2].
Proof.
  assert (let o := player_save_pipeline_terminal sample_apply sample_checkpoint [sample_turn]
            (Some sample_char) 3000 true (sample_run failing_calls) in
          let w'' := foldl (run_call sample_apply) o.2 later_calls in
          o.1 = journal_durable ∧ snapshot_revision <$> captured (past (pipe w'')) = [1; 2; 3]
          ∧ snapshot_revision <$> journaled (past (pipe w'')) = [3; 2]
          ∧ snapshot_revision <$> submitted (past (pipe w'')) = [3; 2]
          ∧ held (pipe w'') = [] ∧ queued_revisions (writer w'') = [2]) as R by by vm_compute.
  exists (sample_run failing_calls). pose proof (sample_reached _ failing_calls_typed) as Rd.
  destruct (player_save_pipeline_terminal _ _ _ _ _ _ _) as [result w']. cbn [fst snd] in R.
  destruct R as [-> R]. exists w', later_calls. split; [exact Rd|]. split; [done|exact R].
Qed.

(** ** Witnesses *)

(** One capture in the queue, one with the dispatcher, one on its way to the writer. *)
Definition other_capture (pid : Z) : checkpoint_replies := CheckpointReplies (λ revision components,
  Some {small_snapshot with snapshot_pid := pid; snapshot_revision := revision;
                            snapshot_components := components }) [] true.
Definition other_char (pid : Z) : char_data := Char false pid false false false false false.
Definition three_calls : list (pipeline_call (W := unit)) :=
  start_calls ++
  [call_hydrate 6 0; call_request sample_checkpoint (Some sample_char) 1]
  ++ (call_thread <$> dispatch_steps good_append)
  ++ [call_request sample_checkpoint (Some sample_char) 1;
      call_thread (dispatcher_does step_take);
      call_request (other_capture 6) (Some (other_char 6)) 1].

Lemma three_calls_typed : Forall call_typed three_calls.
Proof.
  unfold three_calls. apply Forall_app_2; [apply start_calls_typed|].
  assert (capture_typed (other_capture 6)) as T by (by intros revision components s [= <-]).
  repeat first [exact sample_capture_typed | exact T | constructor].
Qed.

Lemma pipeline_accounts_witness :
  let p := pipe (sample_run three_calls) in
  retained_bytes p = 3 * 65536 ∧ snapshot_revision <$> held p = [1; 1; 2]
  ∧ retained_bytes p = total (held p) ∧ append_inflight_pid p = 5.
Proof.
  destruct (pipeline_accounts sample_apply (sample_run three_calls)
              (sample_reached _ three_calls_typed)) as (Sum & _ & _ & _ & Pid & _).
  cbv zeta in *. split; [by vm_compute|]. split; [by vm_compute|]. split; [exact Sum|].
  rewrite Pid. by vm_compute.
Defined.

Lemma pipeline_writes_ahead_witness :
  let p := pipe (sample_run three_calls) in
  snapshot_revision <$> forwarded p = [1] ∧ forwarded p `sublist_of` journaled (past p).
Proof.
  split; [by vm_compute|].
  exact (pipeline_writes_ahead sample_apply (sample_run three_calls) (sample_reached _ three_calls_typed)).
Defined.

Lemma pipeline_keeps_order_witness :
  let p := pipe (sample_run three_calls) in
  snapshot_revision <$> of_player 5 (travelling p) = [1; 2]
  ∧ of_player 5 (travelling p) `sublist_of` of_player 5 (captured (past p)).
Proof.
  split; [by vm_compute|].
  refine (proj1 (pipeline_keeps_order sample_apply (sample_run three_calls) 5
                   (sample_reached _ three_calls_typed) _)). by vm_compute.
Defined.

Lemma terminal_has_proof_witness :
  ∃ w', player_save_pipeline_terminal sample_apply sample_checkpoint [sample_turn]
          (Some sample_char) 3000 true (sample_run start_calls) = (journal_durable, w')
        ∧ ∃ s, s ∈ journaled (past (pipe w')) ∧ snapshot_pid s = 5 ∧ snapshot_revision s = 1.
Proof.
  assert ((player_save_pipeline_terminal sample_apply sample_checkpoint [sample_turn]
          (Some sample_char) 3000 true (sample_run start_calls)).1 = journal_durable) as R by by vm_compute.
  destruct (player_save_pipeline_terminal _ _ _ _ _ _ _) as [result w'] eqn:E. cbn [fst] in R. subst result.
  exists w'. split; [exact eq_refl|].
  destruct (terminal_has_proof sample_apply (sample_run start_calls) sample_char [sample_turn]
    3000 true journal_durable w' (sample_reached _ start_calls_typed)
    (or_introl (ex_intro _ sample_checkpoint (conj sample_capture_typed E))) (or_introl eq_refl))
    as (revision & M & _ & s & I & P & Rv).
  clear E. exists s. split; [exact I|]. split; [exact P|]. rewrite Rv.
  assert ((player_revision_mark (ch_pid sample_char) PLAYER_CHECKPOINT_COMPONENT_ALL
             (revision_states (sample_run start_calls))).1 = Some 1) as M1 by by vm_compute.
  rewrite M1 in M. by injection M as <-.
Defined.

(** The wait ends at once; then everything is written and acknowledged. *)
Definition settling_calls : list (pipeline_call (W := unit)) :=
  (call_thread <$> dispatch_steps good_append) ++ [call_pulse sample_pulse]
  ++ (call_thread <$> [writer_takes 9100;
        writer_attempts true (Attempt (Returned true) (Returned (ApplyResult applied 1 (Code 0) [] false))
                                (Returned true) (Returned (ApplyResult applied 1 (Code 0) [] false)));
        writer_acknowledges good_checkpoint 9200 5 1; writer_finishes 9300])
  ++ [call_pulse sample_pulse].

Lemma timed_out_fence_stays_witness :
  let w' := (player_save_pipeline_terminal sample_apply sample_checkpoint [] (Some sample_char)
               3000 true (sample_run start_calls)).2 in
  let w'' := foldl (run_call sample_apply) w' settling_calls in
  held (pipe w'') = [] ∧ c_revision <$> completed (past (pipe w'')) = [1]
  ∧ acknowledged_revision <$> player_revision_snapshot_copy 5 (revision_states w'') = Some 1
  ∧ player_save_pipeline_target_save_pending 5 w'' = true.
Proof.
  cbv zeta. split; [by vm_compute|]. split; [by vm_compute|]. split; [by vm_compute|].
  refine (proj1 (timed_out_fence_stays sample_apply (sample_run start_calls) sample_checkpoint []
    sample_char 3000 true _ settling_calls (sample_reached _ start_calls_typed) sample_capture_typed
    _ _ _)).
  - assert ((player_save_pipeline_terminal sample_apply sample_checkpoint [] (Some sample_char) 3000 true
      (sample_run start_calls)).1 = timed_out) as R by by vm_compute.
    rewrite <- R. by destruct (player_save_pipeline_terminal _ _ _ _ _ _ _).
  - unfold settling_calls. repeat constructor.
  - apply Forall_forall. repeat (eapply Forall_cons_2; [intros F; exact F|]). by apply Forall_nil.
Defined.

Lemma sample_reached_fresh calls : Forall call_typed calls → reached_fresh sample_apply (sample_run calls).
Proof. intros T. by exists sample_world, calls. Qed.

Lemma login_fence_bars_witness :
  let o := player_save_pipeline_acquire_target_save_login_fence sample_apply [] 5 0
             (sample_run start_calls) in
  let w'' := foldl (run_call sample_apply) o.2
               [call_request sample_checkpoint (Some sample_char) 1; call_release 5 7] in
  o.1 = true ∧ captured (past (pipe w'')) = [] ∧ player_save_pipeline_save_admitted 5 w'' = false.
Proof.
  cbv zeta. split; [by vm_compute|]. split; [by vm_compute|].
  refine (proj1 (proj2 (proj2 (proj2 (proj2 (proj2 (proj2 (proj2 (login_fence_bars sample_apply
    (sample_run start_calls) [] 5 0 _
    [call_request sample_checkpoint (Some sample_char) 1; call_release 5 7]
    (sample_reached_fresh _ start_calls_typed) _ _ _ _))))))))).
  - unfold sfits. lia.
  - assert ((player_save_pipeline_acquire_target_save_login_fence sample_apply [] 5 0
      (sample_run start_calls)).1 = true) as R by by vm_compute.
    rewrite <- R. by destruct (player_save_pipeline_acquire_target_save_login_fence _ _ _ _ _).
  - repeat first [exact sample_capture_typed | constructor].
  - apply Forall_forall. repeat (eapply Forall_cons_2; [by intros []|]). by apply Forall_nil.
Defined.
