(* ===== verification/CommandJournal.v ===== *)
(** * The command journal

    Models [persistence/critical_command_journal.c] and [.h]: an append-only file of
    framed critical commands, its strict scan, the append that is rolled back when it
    fails, the synchronisation that settles an append of unknown outcome, the
    checkpoint that rewrites the file without one operation, and the replay.

    The state is the variables behind [journal_mutex] and the files.  Each operation
    takes the replies of the system calls it makes and the readings of the clock.
    zlib's [crc32] is a parameter. *)

From S2P Require Import Prelude Buffer CriticalCommand Files.

(** ** Constants and data *)

Definition CRITICAL_COMMAND_JOURNAL_MAX_RECORDS : Z := 4096.
Definition JOURNAL_MAGIC : list byte := [Byte.x43; Byte.x43; Byte.x4a; Byte.x31].
Definition JOURNAL_VERSION : Z := 1.
Definition JOURNAL_HEADER_SIZE : nat := 40.
Definition JOURNAL_FILE : string := "critical-command.journal".
Definition JOURNAL_TEMP : string := "critical-command.journal.tmp".

(** [critical_command_journal_result]. *)
Inductive journal_result :=
| journal_ok | not_initialized | journal_invalid | io_failure | unsafe_permissions
| quota_exceeded | corrupt_data | replay_blocked | append_uncertain.

#[export] Instance journal_result_eq_dec : EqDecision journal_result.
Proof. solve_decision. Defined.

Definition critical_command_journal_result_name (r : journal_result) : string :=
  match r with
  | journal_ok => "ready"
  | not_initialized => "stopped"
  | journal_invalid => "invalid"
  | io_failure => "io_failure"
  | unsafe_permissions => "unsafe_permissions"
  | quota_exceeded => "full"
  | corrupt_data => "corrupt"
  | replay_blocked => "replay_blocked"
  | append_uncertain => "append_uncertain"
  end%string.

Record critical_command_journal_health := Health {
  h_records : Z;
  h_bytes : Z;
  h_oldest_age_msec : Z;
  h_appends : Z;
  h_checkpoints : Z;
  h_replays : Z;
  h_duplicates : Z;
  h_corrupt_records : Z;
  h_io_failures : Z;
  h_last_result : journal_result;
  h_quota_exceeded : bool;
  h_append_uncertain : bool;
  h_initialized : bool;
}.
Definition no_health : critical_command_journal_health :=
  Health 0 0 0 0 0 0 0 0 0 journal_ok false false false.

Record journal_frame := Frame {
  f_operation_id : critical_operation_id;
  f_command : critical_command;
  f_bytes : list byte;
}.

Record journal := Journal {
  journal_directory : string;
  journal_path : string;
  journal_quota : Z;
  health : critical_command_journal_health;
  files : disk;
}.

(** [++counter] of a 64-bit counter. *)
Definition bump (counter : Z) : Z := wrap 64 (counter + 1).

Definition record_result (result : journal_result) (j : journal) : journal :=
  let h := {health j with h_last_result := result} in
  {j with health :=
    match result with
    | corrupt_data => {h with h_corrupt_records ::= bump}
    | io_failure | append_uncertain => {h with h_io_failures ::= bump}
    | quota_exceeded => {h with h_quota_exceeded := true}
    | _ => h
    end}.
(** The early return of a failure that is recorded. *)
Definition fails (result : journal_result) (j : journal) : journal_result * journal :=
  (result, record_result result j).

Definition temp_path (j : journal) : string :=
  (journal_directory j +:+ "/" +:+ JOURNAL_TEMP)%string.

Section Journal.
Context `{Process} (crc32 : list byte → Z).

(** ** Safe files *)

Definition status_safe (nd : node) (type : file_type) (forbidden : Z) : bool :=
  bool_decide (node_type nd = type) && (node_owner nd =? geteuid)
  && negb (nz (Z.land (node_mode nd) forbidden)).

(** [safe_regular] with a maximum mode of 0600; [lstat] is the reply of that call. *)
Definition safe_regular (lstat : bool) (path : string) (d : disk) : bool :=
  match d !! path with
  | Some nd => lstat && status_safe nd regular_file (Z.land 0x1ff (Z.lnot 0x180))
               && (node_links nd =? 1)
  | None => false
  end.
Definition safe_directory (lstat : bool) (path : string) (d : disk) : bool :=
  match d !! path with
  | Some nd => lstat && status_safe nd directory 0x3f
  | None => false
  end.

(** ** Frames *)

Definition frame_bytes (command : critical_command) (payload : list byte) : list byte :=
  let out := append_le 4 JOURNAL_MAGIC JOURNAL_VERSION in
  let out := append_le 8 out (Z.of_nat JOURNAL_HEADER_SIZE + vsize payload) in
  let out := append_le 4 out (wrap 32 (vsize payload)) in
  let out := append_le 4 out (wrap 32 (crc32 payload)) in
  out ++ operation_id command ++ payload.

(** [memory]: whether the allocations succeed. *)
Definition build_frame (memory : bool) (command : critical_command) : option journal_frame :=
  match critical_command_encode command with
  | Err _ => None
  | Ok payload =>
      if memory
      then Some (Frame (operation_id command) command (frame_bytes command payload))
      else None
  end.

(** ** Scanning *)

Record scan_replies := ScanReplies {
  sr_lstat : bool;
  sr_open : option open_failure;
  sr_fstat : bool;
  sr_resize : bool;
  sr_reads : list io_reply;
  (** Whether the allocations made for the frame at an offset succeed. *)
  sr_memory : nat → bool;
}.

(** The header of a frame: its size, the size and checksum of its payload, and where
    the operation id stands. *)
Definition read_header (data : list byte) (offset : nat) : option (Z * Z * Z * nat) :=
  let? (version, cursor) := read_le 4 data (offset + 4) in
  let? (record_size, cursor) := read_le 8 data cursor in
  let? (payload_size, cursor) := read_le 4 data cursor in
  let? (checksum, cursor) := read_le 4 data cursor in
  ensure? version =? JOURNAL_VERSION in
  ensure? record_size =? Z.of_nat JOURNAL_HEADER_SIZE + payload_size in
  ensure? negb (Z.of_nat (length data - offset) <? record_size) in
  Some (record_size, payload_size, checksum, cursor).

(** One frame: its size, the frame and its payload. *)
Definition read_frame (data : list byte) (offset : nat)
  : option (nat * journal_frame * list byte) :=
  ensure? negb (length data - offset <? JOURNAL_HEADER_SIZE)%nat in
  ensure? bool_decide (slice 4 data offset = JOURNAL_MAGIC) in
  let? (record_size, payload_size, checksum, cursor) := read_header data offset in
  let operation_id := slice CRITICAL_COMMAND_ID_BYTES data cursor in
  let payload := slice (Z.to_nat payload_size) data (cursor + CRITICAL_COMMAND_ID_BYTES) in
  ensure? crc32 payload =? checksum in
  match critical_command_decode payload with
  | Err _ => None
  | Ok command =>
      ensure? critical_operation_id_equal operation_id (CriticalCommand.operation_id command) in
      let size := Z.to_nat record_size in
      Some (size, Frame operation_id command (slice size data offset), payload)
  end.

Definition count_duplicate (j : journal) : journal :=
  {j with health -> h_duplicates ::= bump}.

(** [seen] holds the payload of each operation met so far. *)
Fixpoint scan_loop (fuel : nat) (memory : nat → bool) (data : list byte) (offset : nat)
    (frames : list journal_frame) (seen : gmap (list byte) (list byte)) (j : journal)
  : journal_result * list journal_frame * journal :=
  match fuel with
  | O => (journal_ok, frames, j)
  | S fuel =>
      if (offset <? length data)%nat then
        if CRITICAL_COMMAND_JOURNAL_MAX_RECORDS <=? vsize frames
        then (corrupt_data, frames, j) else
        match read_frame data offset with
        | None => (corrupt_data, frames, j)
        | Some (size, frame, encoded) =>
            if negb (memory offset) then (quota_exceeded, frames, j) else
            match seen !! f_operation_id frame with
            | Some prior =>
                if negb (bool_decide (prior = encoded)) then (corrupt_data, frames, j) else
                scan_loop fuel memory data (offset + size) frames seen (count_duplicate j)
            | None =>
                scan_loop fuel memory data (offset + size) (frames ++ [frame])
                  (<[f_operation_id frame := encoded]> seen) j
            end
        end
      else (journal_ok, frames, j)
  end.

(** [scan] and [scan_bounded]. *)
Definition scan (r : scan_replies) (j : journal)
  : journal_result * list journal_frame * journal :=
  let path := journal_path j in
  if negb (safe_regular (sr_lstat r) path (files j)) then (unsafe_permissions, [], j) else
  let '(failed, d) := open_file (sr_open r) None false path (files j) in
  let j := {j with files := d} in
  match failed with
  | Some _ => (io_failure, [], j)
  | None =>
      let data := data_at d path in
      if negb (sr_fstat r) || (vsize data <? 0) || (journal_quota j <? vsize data)
      then (quota_exceeded, [], j)
      else if negb (sr_resize r) then (quota_exceeded, [], j)
      else if negb (read_loop (sr_reads r) (length data) 0 =? length data)%nat
      then (io_failure, [], j)
      else scan_loop (length data) (sr_memory r) data 0 [] ∅ j
  end.

(** ** Rewriting *)

Record rewrite_replies := RewriteReplies {
  w_open : option open_failure;
  w_fchmod : bool;
  w_writes : list io_reply;
  w_fsync : bool;
  w_close : bool;
  w_rename : bool;
  w_unlink : bool;
  w_directory : bool;
  w_directory_fsync : bool;
}.

(** Every frame is written, also after one that failed. *)
Fixpoint write_frames (replies : list io_reply) (frames : list journal_frame)
  : bool * list byte :=
  match frames with
  | [] => (true, [])
  | frame :: rest =>
      let '(wrote, written, replies) := write_all replies (f_bytes frame) in
      let '(ok, more) := write_frames replies rest in
      (wrote && ok, written ++ more)
  end.

Definition rewrite (r : rewrite_replies) (frames : list journal_frame) (j : journal)
  : journal_result * journal :=
  let temporary := temp_path j in
  let '(failed, d) := open_file (w_open r) (Some 0x180) false temporary (files j) in
  let j := {j with files := d} in
  match failed with
  | Some _ => (io_failure, j)
  | None =>
      let d := set_data (λ _, []) temporary d in
      let d := if w_fchmod r then alter (λ nd, {nd with node_mode := 0x180}) temporary d else d in
      let '(wrote, written) := write_frames (w_writes r) frames in
      let d := append_data written temporary d in
      let ok := w_fchmod r && wrote in
      let ok := ok && w_fsync r in
      let ok := ok && w_close r in
      if negb ok || negb (w_rename r)
      then (io_failure, {j with files := if w_unlink r then delete temporary d else d})
      else
        let j := {j with files := rename temporary (journal_path j) d} in
        if negb (w_directory r) || negb (w_directory_fsync r) then (io_failure, j)
        else (journal_ok, j)
  end.

Definition oldest_of (frames : list journal_frame) : Z :=
  foldl (λ oldest frame,
    let accepted := accepted_at_usec (f_command frame) / 1000 in
    if (oldest =? 0) || (accepted <? oldest) then accepted else oldest) 0 frames.
Definition total_bytes (frames : list journal_frame) : Z :=
  foldl (λ total frame, wrap 64 (total + vsize (f_bytes frame))) 0 frames.

(** [now] holds the two readings of the clock. *)
Definition update_health (now : Z * Z) (frames : list journal_frame) (j : journal) : journal :=
  let oldest := oldest_of frames in
  let bytes := total_bytes frames in
  {j with health := {health j with
    h_records := vsize frames;
    h_bytes := bytes;
    h_oldest_age_msec :=
      if nz oldest && (oldest <? now.1) then wrap 64 (now.2 - oldest) else 0;
    h_quota_exceeded := journal_quota j <=? bytes}}.

Record rollback_replies := RollbackReplies {
  b_open : option open_failure;
  b_ftruncate : bool;
  b_fsync : bool;
  b_close : bool;
}.

Definition rollback_append (r : rollback_replies) (original_size : nat) (j : journal)
  : bool * journal :=
  let '(failed, d) := open_file (b_open r) None false (journal_path j) (files j) in
  match failed with
  | Some _ => (false, {j with files := d})
  | None =>
      let d := if b_ftruncate r then set_data (truncated original_size) (journal_path j) d else d in
      (b_ftruncate r && b_fsync r && b_close r, {j with files := d})
  end.

(** ** Operations *)

Record init_replies := InitReplies {
  i_mkdir : bool;
  i_lstat_directory : bool;
  i_open : option open_failure;
  i_lstat : bool;
  i_scan : scan_replies;
}.

(** [mkdir]: the files afterwards, unless it failed and the directory did not exist. *)
Definition make_directory (ok : bool) (path : string) (d : disk) : option disk :=
  match d !! path with
  | Some _ => Some d
  | None =>
      if ok
      then Some (<[path := Node directory geteuid 2 (Z.land 0x1c0 (Z.lnot umask)) []]> d)
      else None
  end.

Definition count_io_failure (j : journal) : journal :=
  {j with health := {health j with h_last_result := io_failure; h_io_failures ::= bump}}.

Definition critical_command_journal_init (r : init_replies) (now : Z * Z) (directory : string)
    (quota_bytes : Z) (j : journal) : bool * journal :=
  if bool_decide (directory = ""%string) || negb (nz quota_bytes) then (false, j) else
  if h_initialized (health j) then (false, j) else
  let j := {j with health := no_health; journal_directory := directory} in
  match make_directory (i_mkdir r) directory (files j) with
  | None => (false, count_io_failure j)
  | Some d =>
      let j := {j with files := d} in
      let unsafe (j : journal) := {j with health -> h_last_result := unsafe_permissions} in
      if negb (safe_directory (i_lstat_directory r) directory d) then (false, unsafe j) else
      let path := (directory +:+ "/" +:+ JOURNAL_FILE)%string in
      let j := {j with journal_path := path; journal_quota := quota_bytes} in
      let '(failed, d) := open_file (i_open r) (Some 0x180) false path d in
      let j := {j with files := d} in
      match failed with
      | Some _ => (false, count_io_failure j)
      | None =>
          if negb (safe_regular (i_lstat r) path d) then (false, unsafe j) else
          let j := {j with health -> h_initialized := true} in
          let '(result, frames, j) := scan (i_scan r) j in
          if negb (bool_decide (result = journal_ok))
          then (false, record_result result {j with health -> h_initialized := false})
          else (true, update_health now frames {j with health -> h_last_result := journal_ok})
      end
  end.

Definition critical_command_journal_shutdown (j : journal) : journal :=
  {j with health -> h_initialized := false; journal_directory := "";
          journal_path := ""; journal_quota := 0}.

Definition critical_command_journal_reset_for_tests (j : journal) : journal :=
  {j with journal_directory := ""; journal_path := ""; journal_quota := 0; health := no_health}.

Record append_replies := AppendReplies {
  a_memory : bool;
  a_open : option open_failure;
  a_fstat : bool;
  a_writes : list io_reply;
  a_fsync : bool;
  a_close : bool;
  a_rollback : rollback_replies;
}.

Definition critical_command_journal_append (r : append_replies) (command : critical_command)
    (j : journal) : journal_result * journal :=
  if negb (h_initialized (health j)) then (not_initialized, j) else
  if h_append_uncertain (health j)
  then (append_uncertain, {j with health -> h_last_result := append_uncertain}) else
  match build_frame (a_memory r) command with
  | None => fails journal_invalid j
  | Some frame =>
      if CRITICAL_COMMAND_JOURNAL_MAX_RECORDS <=? h_records (health j)
      then fails quota_exceeded j else
      let path := journal_path j in
      let '(failed, d) := open_file (a_open r) None false path (files j) in
      let j := {j with files := d} in
      let original_size := length (data_at d path) in
      if bool_decide (failed ≠ None) || negb (a_fstat r) || (Z.of_nat original_size <? 0)
      then fails io_failure j else
      let size := vsize (f_bytes frame) in
      if (journal_quota j <? size) || (journal_quota j - size <? Z.of_nat original_size)
      then fails quota_exceeded j else
      let '(wrote, written, _) := write_all (a_writes r) (f_bytes frame) in
      let j := {j with files := append_data written path d} in
      let synced := wrote && a_fsync r in
      let closed := a_close r in
      if negb wrote || negb synced || negb closed then
        let '(rolled_back, j) := rollback_append (a_rollback r) original_size j in
        if rolled_back then fails io_failure j
        else fails append_uncertain {j with health -> h_append_uncertain := true}
      else
        (journal_ok, {j with health := {health j with
           h_appends ::= bump; h_records ::= bump;
           h_bytes ::= λ n, wrap 64 (n + size); h_last_result := journal_ok}})
  end.

Record journal_sync_replies := JournalSyncReplies {
  y_open : option open_failure;
  y_fsync : bool;
  y_close : bool;
  y_scan : scan_replies;
}.

Definition critical_command_journal_sync (r : journal_sync_replies) (now : Z * Z) (j : journal)
  : journal_result * journal :=
  if negb (h_initialized (health j)) then (not_initialized, j) else
  let '(failed, d) := open_file (y_open r) None false (journal_path j) (files j) in
  let j := {j with files := d} in
  if bool_decide (failed ≠ None) then fails io_failure j else
  if negb (y_fsync r && y_close r) then fails io_failure j else
  let '(result, frames, j) := scan (y_scan r) j in
  if negb (bool_decide (result = journal_ok)) then fails result j else
  let j := update_health now frames j in
  (journal_ok, {j with health := {health j with h_append_uncertain := false;
                                                h_last_result := journal_ok}}).

Definition critical_command_journal_checkpoint (rs : scan_replies) (rw : rewrite_replies)
    (now : Z * Z) (operation : critical_operation_id) (j : journal) : journal_result * journal :=
  if negb (h_initialized (health j)) then (not_initialized, j) else
  if critical_operation_id_is_zero operation then (journal_invalid, j) else
  let '(result, frames, j) := scan rs j in
  if negb (bool_decide (result = journal_ok)) then fails result j else
  let frames := List.filter (λ frame,
    negb (critical_operation_id_equal (f_operation_id frame) operation)) frames in
  let '(result, j) := rewrite rw frames j in
  if bool_decide (result = journal_ok) then
    let j := {j with health -> h_checkpoints ::= bump} in
    let j := update_health now frames j in
    (journal_ok, {j with health -> h_last_result := journal_ok})
  else fails result j.

Section Replay.
(** The callback runs without the lock: it may use the journal as well. *)
Context {W : Type} (replay : critical_command → W * journal → bool * (W * journal)).

Fixpoint replay_loop (frames : list journal_frame) (s : W * journal)
  : journal_result * (W * journal) :=
  match frames with
  | [] =>
      let '(w, j) := s in (journal_ok, (w, {j with health -> h_last_result := journal_ok}))
  | frame :: rest =>
      let '(taken, s) := replay (f_command frame) s in
      if taken then replay_loop rest s
      else let '(w, j) := s in
           (replay_blocked, (w, {j with health -> h_last_result := replay_blocked}))
  end.

Definition critical_command_journal_replay (r : scan_replies) (s : W * journal)
  : journal_result * (W * journal) :=
  let '(w, j) := s in
  if negb (h_initialized (health j)) then (not_initialized, s) else
  let '(result, frames, j) := scan r j in
  if negb (bool_decide (result = journal_ok)) then (result, (w, record_result result j)) else
  replay_loop frames (w, {j with health -> h_replays ::= bump}).
End Replay.

Definition critical_command_journal_health_copy (j : journal) : critical_command_journal_health :=
  health j.
End Journal.
