(* ===== verification/CommandJournalScan.v ===== *)
(** * Scanning the command journal

    The layout of a record of [CommandJournal], and the scan: it accepts exactly the
    files that are records of valid commands, one operation standing for one command,
    and keeps the first record of each operation.  No record is a beginning of another,
    so a file cut off inside a record is never taken for a whole one. *)

From S2P Require Import Prelude Buffer CriticalCommand Files CommandJournal.

(** ** Lemmas: frames *)

(** A command the journal accepts. *)
Definition admitted (c : critical_command) : Prop :=
  command_typed c ∧ critical_command_valid c = true.

Section Layout.
Context (crc32 : list byte → Z).

(** The record of a command, and the frame a scan makes of it. *)
Definition record_bytes (c : critical_command) : list byte :=
  frame_bytes crc32 c (command_bytes c).
Definition frame_of (c : critical_command) : journal_frame :=
  Frame (operation_id c) c (record_bytes c).
Definition journal_bytes (cs : list critical_command) : list byte :=
  concat (map record_bytes cs).

Lemma journal_bytes_app cs ds : journal_bytes (cs ++ ds) = journal_bytes cs ++ journal_bytes ds.
Proof. unfold journal_bytes. by rewrite map_app, concat_app. Qed.
Lemma journal_bytes_cons c cs : journal_bytes (c :: cs) = record_bytes c ++ journal_bytes cs.
Proof. done. Qed.
Lemma journal_bytes_one c : journal_bytes [c] = record_bytes c.
Proof. unfold journal_bytes. cbn. by rewrite app_nil_r. Qed.

Lemma record_layout c :
  record_bytes c
  = JOURNAL_MAGIC ++ le_split 4 JOURNAL_VERSION
    ++ le_split 8 (Z.of_nat JOURNAL_HEADER_SIZE + vsize (command_bytes c))
    ++ le_split 4 (wrap 32 (vsize (command_bytes c)))
    ++ le_split 4 (wrap 32 (crc32 (command_bytes c)))
    ++ operation_id c ++ command_bytes c.
Proof. unfold record_bytes, frame_bytes, append_le. by rewrite <- !(assoc_L (++)). Qed.

Lemma admitted_id c : admitted c → length (operation_id c) = CRITICAL_COMMAND_ID_BYTES.
Proof. intros [T _]. apply T. Qed.

Lemma admitted_bound c : admitted c → vsize (command_bytes c) <= CRITICAL_COMMAND_MAX_ENCODED_BYTES.
Proof. intros [T V]. apply command_bytes_bound; [apply T|done]. Qed.

Lemma admitted_inj c d : admitted c → admitted d → command_bytes c = command_bytes d → c = d.
Proof.
  intros [Tc Vc] [Td Vd] E. apply decode_command_bytes in Vc, Vd; [|done..]. congruence.
Qed.

Lemma length_record c :
  admitted c → length (record_bytes c) = (JOURNAL_HEADER_SIZE + length (command_bytes c))%nat.
Proof.
  intros A. rewrite record_layout, !length_app, !length_le_split, (admitted_id c A). done.
Qed.

Lemma build_frame_ok memory c f :
  command_typed c → build_frame crc32 memory c = Some f → admitted c ∧ f = frame_of c.
Proof.
  intros T. unfold build_frame. destruct (critical_command_encode c) as [payload|] eqn:E; [|done].
  apply encode_ok in E as [V ->]. destruct memory; [|done]. by intros [= <-].
Qed.

(** No record is a beginning of another. *)
Lemma record_apart c d a b :
  admitted c → admitted d → record_bytes c ++ a = record_bytes d ++ b → c = d ∧ a = b.
Proof.
  intros Ac Ad E. pose proof (admitted_bound c Ac) as Bc. pose proof (admitted_bound d Ad) as Bd.
  unfold vsize, CRITICAL_COMMAND_MAX_ENCODED_BYTES in Bc, Bd.
  assert (length (command_bytes c) = length (command_bytes d)) as L.
  { rewrite !record_layout, <- !(assoc_L (++)) in E.
    apply app_inj_1 in E as [_ E]; [|done]. apply app_inj_1 in E as [_ E]; [|done].
    apply app_inj_1 in E as [E _]; [|by rewrite !length_le_split].
    apply le_split_inj in E; unfold fits, vsize, JOURNAL_HEADER_SIZE in *; lia. }
  apply app_inj_1 in E as [E ->]; [|by rewrite !length_record, L]. split; [|done].
  rewrite !record_layout in E. apply admitted_inj; [done..|].
  do 5 (apply app_inj_1 in E as [_ E]; [|by rewrite ?length_le_split]).
  by apply app_inj_1 in E as [_ E]; [|by rewrite !admitted_id].
Qed.

Lemma journal_bytes_nil cs : Forall admitted cs → journal_bytes cs = [] → cs = [].
Proof.
  intros [|c ds Ac _]; [done|]. rewrite journal_bytes_cons. intros E. apply (f_equal length) in E.
  by rewrite length_app, length_record in E.
Qed.

Lemma journal_bytes_inj cs ds :
  Forall admitted cs → Forall admitted ds → journal_bytes cs = journal_bytes ds → cs = ds.
Proof.
  intros Fc. revert ds. induction Fc as [|c cs Ac Fc IH]; intros ds Fd E.
  { symmetry. by apply journal_bytes_nil. }
  destruct ds as [|d ds].
  - apply journal_bytes_nil in E; [done|by constructor].
  - apply Forall_cons in Fd as [Ad Fd]. rewrite !journal_bytes_cons in E.
    apply record_apart in E as [-> E]; [|done..]. f_equal. by apply IH.
Qed.

(** Records followed by a beginning of one more are records only if it is nothing or
    all of it. *)
Lemma journal_bytes_torn cs torn c ds :
  Forall admitted cs → admitted c → Forall admitted ds → torn `prefix_of` record_bytes c →
  journal_bytes cs ++ torn = journal_bytes ds →
  (torn = [] ∧ ds = cs) ∨ (torn = record_bytes c ∧ ds = cs ++ [c]).
Proof.
  intros Fc Ac. revert ds. induction Fc as [|e cs Ae Fc IH]; intros ds Fd P E.
  - cbn [journal_bytes map concat app] in E. destruct ds as [|d ds]; [by left|right].
    apply Forall_cons in Fd as [Ad Fd]. destruct P as [more P]. rewrite journal_bytes_cons in E.
    rewrite E, <- (assoc_L (++)), <- (app_nil_r (record_bytes c)) in P.
    apply record_apart in P as [-> P]; [|done..]. symmetry in P. apply app_nil in P as [P ->].
    apply journal_bytes_nil in P as ->; [|done]. by rewrite E, app_nil_r.
  - destruct ds as [|d ds].
    { rewrite journal_bytes_cons, <- (assoc_L (++)) in E. apply (f_equal length) in E.
      by rewrite length_app, length_record in E. }
    apply Forall_cons in Fd as [Ad Fd]. rewrite !journal_bytes_cons, <- (assoc_L (++)) in E.
    apply record_apart in E as [-> E]; [|done..].
    destruct (IH ds Fd P E) as [[-> ->]|[-> ->]]; [by left|by right].
Qed.

(** What the scan reads at an offset is a record, and of an admitted command. *)
Lemma read_frame_at data offset size f payload :
  read_frame crc32 data offset = Some (size, f, payload) → (offset <= length data)%nat →
  ∃ c, admitted c ∧ f = frame_of c ∧ payload = command_bytes c ∧ size = length (record_bytes c)
    ∧ at_offset data offset (record_bytes c ++ drop (offset + size) data).
Proof.
  intros H L. unfold read_frame, read_header in H. steps_in H. bool_prop. rename a into c.
  apply decode_ok in E9 as (T & V & P). assert (admitted c) as A by by split.
  unfold critical_operation_id_equal in E10. apply bool_decide_eq_true_1 in E10 as I.
  assert (consumed data offset (take offset data)) as C by by split.
  apply (consumed_app _ _ _ 4) in C; [|unfold JOURNAL_HEADER_SIZE in *; lia].
  fold (slice 4 data offset) in C. rewrite E0 in C.
  apply (read_le_consumed _ _ _ _ _ _ E1) in C as (-> & _ & C).
  apply (read_le_consumed _ _ _ _ _ _ E2) in C as (-> & F0 & C).
  apply (read_le_consumed _ _ _ _ _ _ E3) in C as (-> & F1 & C).
  apply (read_le_consumed _ _ _ _ _ _ E4) in C as (-> & F2 & C).
  unfold JOURNAL_HEADER_SIZE, CRITICAL_COMMAND_ID_BYTES in *.
  set (from := (offset + 4 + 4 + 8 + 4 + 4)%nat) in *.
  assert (from = offset + 24)%nat as Fr by (unfold from; lia).
  assert (z1 = vsize (command_bytes c)) as ->.
  { rewrite <- P. unfold vsize. rewrite length_slice; unfold fits in F1; lia. }
  apply (consumed_app _ _ _ 16) in C; [|lia]. fold (slice 16 data from) in C. rewrite I in C.
  apply (consumed_app _ _ _ (length (command_bytes c))) in C; [|unfold vsize in *; lia].
  rewrite to_nat_vsize in P. fold (slice (length (command_bytes c)) data (from + 16)) in C.
  rewrite P in C.
  assert (Z.to_nat (Z.of_nat 40 + vsize (command_bytes c)) = length (record_bytes c)) as S.
  { rewrite length_record by done. unfold vsize, JOURNAL_HEADER_SIZE. lia. }
  assert (consumed data (offset + length (record_bytes c)) (take offset data ++ record_bytes c)) as C'.
  { rewrite to_nat_vsize, P in E8.
    replace (offset + length (record_bytes c))%nat with (from + 16 + length (command_bytes c))%nat
      by (rewrite length_record by done; unfold from, JOURNAL_HEADER_SIZE; lia).
    rewrite record_layout, E8. unfold append_le in C. rewrite <- !(assoc_L (++)) in C.
    rewrite (wrap_small 32 z2), wrap_small by done. subst z z0. exact C. }
  subst z z0.
  pose proof (consumed_rest _ _ _ C') as R.
  assert (drop offset data = record_bytes c ++ drop (offset + length (record_bytes c)) data) as D.
  { rewrite <- (assoc_L (++)), <- (take_drop offset data) in R at 1. by apply app_inv_head in R. }
  exists c. rewrite S. split_and!; [done| |by rewrite to_nat_vsize|done|split; [done|exact D]].
  unfold frame_of. rewrite I. f_equal. unfold slice. by rewrite D, take_app_length.
Qed.
End Layout.

(** ** Lemmas: the first of each operation *)

Definition add_first (cs : list critical_command) (c : critical_command) : list critical_command :=
  if bool_decide (operation_id c ∈ operation_id <$> cs) then cs else cs ++ [c].
(** The commands of a journal without those met before. *)
Definition firsts (cs : list critical_command) : list critical_command := foldl add_first [] cs.

(** An operation stands for one command. *)
Definition consistent (cs : list critical_command) : Prop :=
  ∀ c d, c ∈ cs → d ∈ cs → operation_id c = operation_id d → c = d.

(** Every record comes before the limit is reached. *)
Definition scannable (cs : list critical_command) : Prop :=
  ∀ front c back, cs = front ++ c :: back →
    vsize (firsts front) < CRITICAL_COMMAND_JOURNAL_MAX_RECORDS.

Lemma firsts_snoc cs c : firsts (cs ++ [c]) = add_first (firsts cs) c.
Proof. unfold firsts. by rewrite foldl_app. Qed.

Lemma firsts_ids cs id : id ∈ operation_id <$> firsts cs ↔ id ∈ operation_id <$> cs.
Proof.
  induction cs as [|c cs IH] using rev_ind; [done|]. rewrite firsts_snoc, fmap_app, elem_of_app, <- IH.
  unfold add_first. case_bool_decide as K.
  - split; [by left|]. intros [|E]; [done|]. by apply list_elem_of_singleton in E as ->.
  - by rewrite fmap_app, elem_of_app.
Qed.

Lemma firsts_sublist cs : firsts cs `sublist_of` cs.
Proof.
  induction cs as [|c cs IH] using rev_ind; [done|]. rewrite firsts_snoc. unfold add_first.
  case_bool_decide; [|by apply sublist_app]. by apply sublist_inserts_r.
Qed.

Lemma firsts_subseteq cs c : c ∈ firsts cs → c ∈ cs.
Proof. by apply sublist_subseteq, firsts_sublist. Qed.

Lemma firsts_nodup cs : NoDup (operation_id <$> firsts cs).
Proof.
  induction cs as [|c cs IH] using rev_ind; [constructor|]. rewrite firsts_snoc. unfold add_first.
  case_bool_decide as K; [done|]. rewrite fmap_app. apply NoDup_app. split_and!; [done| |apply NoDup_singleton].
  intros id I E. apply list_elem_of_singleton in E as ->. done.
Qed.

Lemma firsts_consistent cs c : consistent cs → c ∈ cs → c ∈ firsts cs.
Proof.
  intros K I. assert (operation_id c ∈ operation_id <$> firsts cs) as E
    by (apply firsts_ids, list_elem_of_fmap; eauto).
  apply list_elem_of_fmap in E as (d & E & D). rewrite (K c d); [done..| |done]. by apply firsts_subseteq.
Qed.

Lemma firsts_same cs : NoDup (operation_id <$> cs) → firsts cs = cs.
Proof.
  induction cs as [|c cs IH] using rev_ind; [done|]. rewrite fmap_app. intros (N & D & _)%NoDup_app.
  rewrite firsts_snoc, IH by done. unfold add_first. rewrite bool_decide_eq_false_2; [done|].
  intros E. apply (D _ E). by apply list_elem_of_singleton.
Qed.

Lemma firsts_grow cs c : vsize (firsts cs) <= vsize (firsts (cs ++ [c])) <= vsize (firsts cs) + 1.
Proof.
  rewrite firsts_snoc. unfold add_first, vsize. case_bool_decide; [lia|]. rewrite length_app. cbn. lia.
Qed.

Lemma firsts_mono cs ds : vsize (firsts cs) <= vsize (firsts (cs ++ ds)).
Proof.
  induction ds as [|d ds IH] using rev_ind; [by rewrite app_nil_r|].
  rewrite (assoc_L (++)). pose proof (firsts_grow (cs ++ ds) d). lia.
Qed.

Lemma scannable_snoc cs c :
  scannable (cs ++ [c]) ↔ vsize (firsts cs) < CRITICAL_COMMAND_JOURNAL_MAX_RECORDS.
Proof.
  split; [intros S; by apply (S cs c [])|]. intros L front d back E.
  destruct back as [|b back _] using rev_ind.
  - apply app_inj_2 in E as [<- _]; done.
  - rewrite app_comm_cons, (assoc_L (++)) in E. apply app_inj_2 in E as [-> _]; [|done].
    pose proof (firsts_mono front (d :: back)). lia.
Qed.

Lemma scannable_nil : scannable [].
Proof. intros [|] ? ?; discriminate. Qed.

Lemma scannable_prefix cs ds : scannable (cs ++ ds) → scannable cs.
Proof.
  intros S front c back ->. apply (S front c (back ++ ds)). by rewrite <- (assoc_L (++)).
Qed.

Lemma scannable_firsts cs : scannable cs → vsize (firsts cs) <= CRITICAL_COMMAND_JOURNAL_MAX_RECORDS.
Proof.
  destruct cs as [|c cs _] using rev_ind; [done|]. intros S%scannable_snoc.
  pose proof (firsts_grow cs c). lia.
Qed.

Lemma scannable_short cs :
  vsize cs <= CRITICAL_COMMAND_JOURNAL_MAX_RECORDS → scannable cs.
Proof.
  intros L front c back ->. pose proof (sublist_length _ _ (firsts_sublist front)).
  unfold vsize in *. rewrite length_app in L. cbn in L. lia.
Qed.

Lemma consistent_subseteq cs ds : consistent ds → (∀ c, c ∈ cs → c ∈ ds) → consistent cs.
Proof. intros K S c d C D. apply K; auto. Qed.

Lemma consistent_snoc cs c :
  consistent cs → (∀ d, d ∈ cs → operation_id d = operation_id c → d = c) → consistent (cs ++ [c]).
Proof.
  intros K N a b A B E. rewrite elem_of_app, list_elem_of_singleton in A, B.
  destruct A as [A| ->], B as [B| ->]; auto. symmetry. auto.
Qed.

(** ** Lemmas: the scan *)

Section Scanning.
Context (crc32 : list byte → Z).

(** What the scan has seen after some records. *)
Definition seen_of (front : list critical_command) (seen : gmap (list byte) (list byte)) : Prop :=
  ∀ id, match seen !! id with
        | Some payload => ∃ c, c ∈ firsts front ∧ operation_id c = id ∧ payload = command_bytes c
        | None => id ∉ operation_id <$> firsts front
        end.

Lemma seen_of_start : seen_of [] ∅.
Proof. intros id. rewrite lookup_empty. apply not_elem_of_nil. Qed.

Lemma seen_of_new front seen c :
  seen_of front seen → seen !! operation_id c = None →
  firsts (front ++ [c]) = firsts front ++ [c]
  ∧ seen_of (front ++ [c]) (<[operation_id c := command_bytes c]> seen).
Proof.
  intros S N. pose proof (S (operation_id c)) as Sc. rewrite N in Sc.
  assert (firsts (front ++ [c]) = firsts front ++ [c]) as E
    by (rewrite firsts_snoc; unfold add_first; by rewrite bool_decide_eq_false_2).
  split; [done|]. intros id. rewrite E, lookup_insert. case_decide as D.
  - exists c. split; [|done]. apply elem_of_app. right. by apply list_elem_of_singleton.
  - specialize (S id). destruct (seen !! id).
    + destruct S as (d & I & Rest). exists d. split; [|done]. apply elem_of_app. by left.
    + rewrite fmap_app, elem_of_app. intros [|I]; [done|]. apply list_elem_of_singleton in I. done.
Qed.

Lemma seen_of_again front seen c payload :
  seen_of front seen → seen !! operation_id c = Some payload →
  firsts (front ++ [c]) = firsts front ∧ seen_of (front ++ [c]) seen.
Proof.
  intros S N. pose proof (S (operation_id c)) as Sc. rewrite N in Sc. destruct Sc as (d & I & E & _).
  assert (firsts (front ++ [c]) = firsts front) as Ef.
  { rewrite firsts_snoc. unfold add_first. rewrite bool_decide_eq_true_2; [done|].
    apply list_elem_of_fmap. exists d. by split. }
  split; [done|]. unfold seen_of. by rewrite Ef.
Qed.

(** Where the journal is and whether it runs; and what its appends go by. *)
Definition place (j : journal) : string * string * Z * bool :=
  (journal_directory j, journal_path j, journal_quota j, h_initialized (health j)).
Definition status (j : journal) : string * string * Z * bool * (bool * Z) :=
  (place j, (h_append_uncertain (health j), h_records (health j))).

Lemma scan_loop_status fuel memory data offset frames seen j result fs j' :
  scan_loop crc32 fuel memory data offset frames seen j = (result, fs, j') →
  status j' = status j ∧ files j' = files j.
Proof.
  revert offset frames seen j. induction fuel as [|fuel IH]; intros offset frames seen j E; cbn [scan_loop] in E.
  { by injection E as <- <- <-. }
  destruct (_ <? _)%nat; [|by injection E as <- <- <-].
  destruct (_ <=? _); [by injection E as <- <- <-|].
  destruct (read_frame _ _ _) as [[[size frame] encoded]|]; [|by injection E as <- <- <-].
  destruct (negb (memory _)); [by injection E as <- <- <-|].
  destruct (seen !! _) as [prior|]; [|by eapply IH].
  destruct (negb _); [by injection E as <- <- <-|]. by apply IH in E.
Qed.

Lemma scan_status `{Process} r j result fs j' :
  scan crc32 r j = (result, fs, j') → status j' = status j ∧ same_data (files j) (files j').
Proof.
  unfold scan. destruct (negb (safe_regular _ _ _)); [by intros [= <- <- <-]|].
  destruct (open_file _ _ _ _ _) as [failed d] eqn:O. apply open_file_data in O as [D _].
  destruct failed; [by intros [= <- <- <-]|].
  do 3 (match goal with |- context [if ?b then _ else _] => destruct b end; [by intros [= <- <- <-]|]).
  intros E. by apply scan_loop_status in E as [S ->].
Qed.

(** What a scan that succeeds has read. *)
Lemma scan_loop_reads fuel memory data offset front seen j frames j' :
  scan_loop crc32 fuel memory data offset (frame_of crc32 <$> firsts front) seen j
    = (journal_ok, frames, j') →
  (offset <= length data)%nat → (length data - offset <= fuel)%nat →
  seen_of front seen → Forall admitted front → consistent front → scannable front →
  ∃ cs, drop offset data = journal_bytes crc32 cs ∧ frames = frame_of crc32 <$> firsts (front ++ cs)
    ∧ Forall admitted cs ∧ consistent (front ++ cs) ∧ scannable (front ++ cs).
Proof.
  revert offset front seen j.
  induction fuel as [|fuel IH]; intros offset front seen j E L F S A K M; cbn [scan_loop] in E.
  { injection E as <- <-. exists []. rewrite app_nil_r. rewrite drop_ge by lia. by repeat split. }
  destruct (Nat.ltb_spec offset (length data)) as [B|B].
  2: { injection E as <- <-. exists []. rewrite app_nil_r. rewrite drop_ge by lia. by repeat split. }
  destruct (Z.leb_spec CRITICAL_COMMAND_JOURNAL_MAX_RECORDS (vsize (frame_of crc32 <$> firsts front)))
    as [X|X]; [done|].
  assert (vsize (firsts front) < CRITICAL_COMMAND_JOURNAL_MAX_RECORDS) as M'
    by (unfold vsize in *; by rewrite length_fmap in X).
  destruct (read_frame crc32 data offset) as [[[size frame] encoded]|] eqn:R; [|done].
  apply read_frame_at in R as (c & Ac & -> & -> & -> & [_ D]); [|lia].
  destruct (memory offset); cbn [negb] in E; [|done]. cbn [f_operation_id frame_of] in E.
  pose proof (length_record crc32 c Ac) as Lc. unfold JOURNAL_HEADER_SIZE in Lc.
  assert (offset + length (record_bytes crc32 c) <= length data)%nat as Lo.
  { apply (f_equal length) in D. rewrite length_app, !length_drop in D. lia. }
  assert (∀ seen' j1,
    scan_loop crc32 fuel memory data (offset + length (record_bytes crc32 c))
      (frame_of crc32 <$> firsts (front ++ [c])) seen' j1 = (journal_ok, frames, j') →
    seen_of (front ++ [c]) seen' → consistent (front ++ [c]) →
    ∃ cs, drop offset data = journal_bytes crc32 cs
      ∧ frames = frame_of crc32 <$> firsts (front ++ cs)
      ∧ Forall admitted cs ∧ consistent (front ++ cs) ∧ scannable (front ++ cs)) as Next.
  { intros seen' j1 E' S' K'. eapply IH in E' as (cs & D' & -> & A' & K2 & M2);
      [|done|lia|done| |done|by apply scannable_snoc].
    - exists (c :: cs). rewrite <- (assoc_L (++)) in K2, M2 |- *. rewrite D, D'. split_and!; [done..| |done|done].
      by constructor.
    - apply Forall_app. split; [done|]. by constructor. }
  pose proof (S (operation_id c)) as Sc. destruct (seen !! operation_id c) as [prior|] eqn:Q.
  - case_bool_decide as P; cbn [negb] in E; [|done]. destruct Sc as (d & Id & Ed & Pd).
    destruct (seen_of_again _ _ _ _ S Q) as [Ef S']. rewrite <- Ef in E.
    apply (Next _ _ E S'). apply consistent_snoc; [done|].
    assert (d = c) as ->.
    { apply admitted_inj; [|done|congruence]. rewrite Forall_forall in A. apply A. by apply firsts_subseteq. }
    intros e Ie Ee. apply K; [done|by apply firsts_subseteq|done].
  - destruct (seen_of_new _ _ _ S Q) as [Ef S'].
    replace ((frame_of crc32 <$> firsts front) ++ [frame_of crc32 c])
      with (frame_of crc32 <$> firsts (front ++ [c])) in E by by rewrite Ef, fmap_app.
    apply (Next _ _ E S'). apply consistent_snoc; [done|]. intros e Ie Ee. exfalso. apply Sc.
    apply firsts_ids, list_elem_of_fmap. exists e. by split.
Qed.
End Scanning.

(** ** Lemmas: scanning what was written *)

Section Written.
Context (crc32 : list byte → Z) (crc32_range : ∀ bs, u32 (crc32 bs)).

Lemma read_frame_record data offset c rest :
  admitted c → at_offset data offset (record_bytes crc32 c ++ rest) →
  read_frame crc32 data offset
  = Some (length (record_bytes crc32 c), frame_of crc32 c, command_bytes c).
Proof.
  intros A At. pose proof (at_offset_length _ _ _ At) as L. rewrite length_app in L.
  pose proof (length_record crc32 c A) as LR. pose proof (admitted_bound c A) as Bd.
  assert (slice (length (record_bytes crc32 c)) data offset = record_bytes crc32 c) as Sl
    by apply (at_offset_take _ _ _ _ At).
  rewrite record_layout, <- !(assoc_L (++)) in At.
  unfold JOURNAL_HEADER_SIZE, CRITICAL_COMMAND_MAX_ENCODED_BYTES, vsize in L, LR, Bd.
  unfold read_frame, read_header. rewrite (proj2 (Nat.ltb_ge _ _)) by (unfold JOURNAL_HEADER_SIZE; lia).
  cbn [negb]. rewrite bool_decide_eq_true_2 by apply (at_offset_take _ _ _ _ At).
  apply at_offset_app in At. cbn [length JOURNAL_MAGIC] in At.
  apply read_le_at in At as [-> At]; [|done].
  apply read_le_at in At as [-> At]; [|unfold fits, vsize, JOURNAL_HEADER_SIZE; lia].
  apply read_le_at in At as [-> At]; [|by apply wrap_range].
  apply read_le_at in At as [-> At]; [|by apply wrap_range].
  assert (u32 (vsize (command_bytes c))) as U by (unfold fits, vsize; lia).
  rewrite !(wrap_small 32) by (apply crc32_range || done). rewrite !Z.eqb_refl.
  rewrite (proj2 (Z.ltb_ge _ _)) by (unfold vsize, JOURNAL_HEADER_SIZE; lia). cbn [negb].
  rewrite to_nat_vsize.
  pose proof (at_offset_take _ _ _ _ At) as Id. rewrite (admitted_id c A) in Id.
  apply at_offset_app in At. rewrite (admitted_id c A) in At.
  pose proof (at_offset_take _ _ _ _ At) as Pay.
  fold (slice CRITICAL_COMMAND_ID_BYTES data (offset + 4 + 4 + 8 + 4 + 4)) in Id.
  fold (slice (length (command_bytes c)) data
    (offset + 4 + 4 + 8 + 4 + 4 + CRITICAL_COMMAND_ID_BYTES)) in Pay.
  rewrite Id, Pay, Z.eqb_refl, (decode_command_bytes c) by apply A.
  unfold critical_operation_id_equal. rewrite bool_decide_eq_true_2 by done.
  replace (Z.to_nat (Z.of_nat JOURNAL_HEADER_SIZE + vsize (command_bytes c)))
    with (length (record_bytes crc32 c)) by (unfold vsize, JOURNAL_HEADER_SIZE; lia).
  by rewrite Sl.
Qed.

Lemma scan_loop_written fuel memory data offset front cs seen j :
  at_offset data offset (journal_bytes crc32 cs) → (length data - offset <= fuel)%nat →
  seen_of front seen → Forall admitted front → Forall admitted cs →
  consistent (front ++ cs) → scannable (front ++ cs) →
  ∃ result j',
    scan_loop crc32 fuel memory data offset (frame_of crc32 <$> firsts front) seen j
      = (result, if decide (result = journal_ok) then frame_of crc32 <$> firsts (front ++ cs)
                 else j'.2, j'.1)
    ∧ (result = journal_ok ∨ result = quota_exceeded ∧ ∃ o, memory o = false).
Proof.
  revert fuel offset front seen j.
  induction cs as [|c cs IH]; intros fuel offset front seen j At F S Af Ac K M.
  { exists journal_ok, (j, []). rewrite decide_True, app_nil_r by done. split; [|by left].
    apply at_offset_length in At. destruct fuel; cbn [scan_loop]; [done|].
    by rewrite (proj2 (Nat.ltb_ge _ _)) by (cbn in At; lia). }
  apply Forall_cons in Ac as [Ac Acs]. rewrite journal_bytes_cons in At.
  pose proof (read_frame_record data offset c _ Ac At) as R.
  pose proof (at_offset_length _ _ _ At) as L. rewrite length_app, length_record in L by done.
  unfold JOURNAL_HEADER_SIZE in L. apply at_offset_app in At.
  destruct fuel as [|fuel]; [lia|]. cbn [scan_loop].
  rewrite (proj2 (Nat.ltb_lt _ _)) by lia.
  assert (vsize (frame_of crc32 <$> firsts front) < CRITICAL_COMMAND_JOURNAL_MAX_RECORDS) as X
    by (unfold vsize; rewrite length_fmap; by apply (M front c cs)).
  rewrite (proj2 (Z.leb_gt _ _) X), R.
  destruct (memory offset) eqn:Mo; cbn [negb].
  2: { exists quota_exceeded, (j, frame_of crc32 <$> firsts front). split; [done|]. right. eauto. }
  cbn [f_operation_id frame_of].
  assert (∀ seen' j1, seen_of (front ++ [c]) seen' →
    ∃ result j',
      scan_loop crc32 fuel memory data (offset + length (record_bytes crc32 c))
        (frame_of crc32 <$> firsts (front ++ [c])) seen' j1
        = (result, if decide (result = journal_ok) then frame_of crc32 <$> firsts (front ++ c :: cs)
                   else j'.2, j'.1)
      ∧ (result = journal_ok ∨ result = quota_exceeded ∧ ∃ o, memory o = false)) as Next.
  { intros seen' j1 S'.
    destruct (IH fuel (offset + length (record_bytes crc32 c))%nat (front ++ [c]) seen' j1) as (res & j' & E & Q);
      [done|rewrite length_record by done; unfold JOURNAL_HEADER_SIZE; lia|done| |done| | |].
    - apply Forall_app. split; [done|by constructor].
    - by rewrite <- (assoc_L (++)).
    - by rewrite <- (assoc_L (++)).
    - rewrite <- (assoc_L (++)) in E. by exists res, j'. }
  pose proof (S (operation_id c)) as Sc. destruct (seen !! operation_id c) as [prior|] eqn:Q.
  - destruct Sc as (d & Id & Ed & ->). destruct (seen_of_again _ _ _ _ S Q) as [Ef S'].
    assert (d = c) as ->.
    { apply K; [apply elem_of_app; left; by apply firsts_subseteq|apply elem_of_app; right; left|done]. }
    rewrite bool_decide_eq_true_2 by done. cbn [negb]. rewrite <- Ef. by apply Next.
  - destruct (seen_of_new _ _ _ S Q) as [Ef S'].
    replace ((frame_of crc32 <$> firsts front) ++ [frame_of crc32 c])
      with (frame_of crc32 <$> firsts (front ++ [c])) by by rewrite Ef, fmap_app.
    by apply Next.
Qed.

(** The calls of a scan that succeed, of a file this process may read. *)
Definition scan_serves `{Process} (r : scan_replies) (j : journal) : Prop :=
  safe_regular (sr_lstat r) (journal_path j) (files j) = true
  ∧ sr_open r = None ∧ sr_fstat r = true ∧ sr_resize r = true
  ∧ read_loop (sr_reads r) (length (data_at (files j) (journal_path j))) 0
    = length (data_at (files j) (journal_path j))
  ∧ ∀ offset, sr_memory r offset = true.

(** What the file has to be for a scan of it to succeed. *)
Definition sound_journal (cs : list critical_command) : Prop :=
  Forall admitted cs ∧ consistent cs ∧ scannable cs.

Lemma scan_reads `{Process} r j frames j' :
  scan crc32 r j = (journal_ok, frames, j') →
  ∃ cs, data_at (files j) (journal_path j) = journal_bytes crc32 cs
    ∧ frames = frame_of crc32 <$> firsts cs ∧ sound_journal cs
    ∧ vsize (journal_bytes crc32 cs) <= journal_quota j.
Proof.
  unfold scan. destruct (negb (safe_regular _ _ _)); [done|].
  destruct (open_file _ _ _ _ _) as [failed d] eqn:O. apply open_file_data in O as [D _].
  destruct failed; [done|]. rewrite D. destruct (_ || _) eqn:Q; [done|]. bool_prop.
  destruct (negb (sr_resize r)); [done|]. destruct (negb (_ =? _)%nat); [done|]. intros E.
  apply (scan_loop_reads _ _ _ _ _ []) in E as (cs & Dt & -> & A & K & M);
    [|lia|lia|apply seen_of_start|by apply Forall_nil|by intros c1 c2 ?%elem_of_nil|apply scannable_nil].
  rewrite drop_0 in Dt. exists cs. rewrite <- Dt. by split_and!.
Qed.

Lemma scan_written_journal `{Process} r j cs :
  scan_serves r j → data_at (files j) (journal_path j) = journal_bytes crc32 cs →
  sound_journal cs → vsize (journal_bytes crc32 cs) <= journal_quota j →
  ∃ j', scan crc32 r j = (journal_ok, frame_of crc32 <$> firsts cs, j').
Proof.
  intros (Sf & O & Fs & Rs & Rd & Me) D (A & K & M) Q. unfold scan. rewrite Sf. cbn [negb].
  assert (open_file (sr_open r) None false (journal_path j) (files j) = (None, files j)) as ->.
  { rewrite O. unfold open_file. unfold safe_regular, status_safe in Sf.
    destruct (files j !! journal_path j) as [nd|]; [|done].
    apply andb_prop in Sf as [Sf _]. apply andb_prop in Sf as [_ Sf].
    do 2 (apply andb_prop in Sf as [Sf _]). by rewrite Sf. }
  cbv zeta. change (journal_quota {j with files := files j}) with (journal_quota j). rewrite Fs, Rs, Rd, Nat.eqb_refl. cbn [negb orb].
  rewrite D. unfold vsize in *. rewrite !(proj2 (Z.ltb_ge _ _)) by (cbn; lia). cbn [orb].
  destruct (scan_loop_written (length (journal_bytes crc32 cs)) (sr_memory r) (journal_bytes crc32 cs) 0
    [] cs ∅ {j with files := files j}) as (result & j' & E & R);
    [apply at_offset_start|lia|apply seen_of_start|by apply Forall_nil|done|done|done|].
  destruct R as [->|[_ [o Mo]]]; [|by rewrite Me in Mo].
  rewrite decide_True in E by done. exists j'.1. exact E.
Qed.
End Written.
