(* ===== verification/CommandJournalSafety.v ===== *)
(** * What the command journal keeps

    The operations of [CommandJournal] with every call of the system free to fail: what
    each does to the file and to the flag of an append of unknown outcome, an invariant
    over any history of operations and restarts, and the theorems: no command that was
    accepted is lost before its checkpoint, and a replay offers all of them in order. *)

From S2P Require Import Prelude Buffer CriticalCommand Files CommandJournal CommandJournalScan.

(** ** Lemmas: what the operations do to the file *)

Section Effects.
Context (crc32 : list byte → Z).
Context `{Process} (directory : string).

Definition file_path : string := (directory +:+ "/" +:+ JOURNAL_FILE)%string.
Definition recorded (j : journal) : list byte := data_at (files j) file_path.

(** A journal that runs in [directory]. *)
Definition running (j : journal) : Prop :=
  h_initialized (health j) = true ∧ journal_directory j = directory ∧ journal_path j = file_path.

Lemma place_running j j' : place j' = place j → running j → running j'.
Proof. unfold place, running. by intros [= -> -> _ ->]. Qed.

Lemma status_place j j' : status j' = status j → place j' = place j.
Proof. intros E. exact (f_equal fst E). Qed.

Lemma record_result_status result j : status (record_result result j) = status j.
Proof. by destruct result. Qed.
Lemma record_result_files result j : files (record_result result j) = files j.
Proof. done. Qed.

Lemma temp_apart j : running j → temp_path j ≠ file_path.
Proof.
  intros (_ & D & _). unfold temp_path, file_path. rewrite D. intros E.
  by do 2 apply append_string_inj in E.
Qed.

Lemma frames_written replies fs written :
  write_frames replies fs = (true, written) → written = concat (map f_bytes fs).
Proof.
  revert replies written. induction fs as [|f fs IH]; intros replies written E; cbn in E; [by simplify_eq|].
  destruct (write_all replies (f_bytes f)) as [[[] w] rest] eqn:W.
  2: { by destruct (write_frames rest fs). }
  destruct (write_frames rest fs) as [ok more] eqn:M. injection E as -> <-.
  apply write_all_ok in W as ->. apply IH in M as ->. done.
Qed.

Lemma map_frame_bytes cs : concat (map f_bytes (frame_of crc32 <$> cs)) = journal_bytes crc32 cs.
Proof. unfold journal_bytes. f_equal. induction cs as [|c cs IH]; [done|]. cbn. by rewrite IH. Qed.

(** The rewriting replaces the file at once or leaves it as it is, whatever fails. *)
Lemma rewrite_effect r frames j result j' :
  running j → rewrite r frames j = (result, j') →
  status j' = status j
  ∧ (recorded j' = concat (map f_bytes frames) ∨ result ≠ journal_ok ∧ recorded j' = recorded j).
Proof.
  intros Ru. pose proof (temp_apart j Ru) as A. destruct Ru as (_ & _ & Pa). unfold rewrite, recorded.
  destruct (open_file _ _ _ _ _) as [failed d] eqn:O. apply open_file_data in O as [D Op].
  destruct failed; [intros [= <- <-]; split; [done|right; split; [done|apply D]]|].
  destruct (Op eq_refl) as [Is _].
  set (d0 := if w_fchmod r then _ else _).
  assert (is_Some (d0 !! temp_path j) ∧ data_at d0 (temp_path j) = []
          ∧ data_at d0 file_path = data_at (files j) file_path) as (I0 & T0 & F0).
  { assert (is_Some (set_data (λ _, []) (temp_path j) d !! temp_path j)
            ∧ data_at (set_data (λ _, []) (temp_path j) d) (temp_path j) = []
            ∧ data_at (set_data (λ _, []) (temp_path j) d) file_path = data_at (files j) file_path) as (X & Y & Z).
    { split_and!; [by apply set_data_present|by rewrite data_at_set|by rewrite data_at_set_ne, D]. }
    unfold d0. destruct (w_fchmod r); [|done]. unfold data_at. rewrite lookup_alter_eq, lookup_alter_ne by done.
    destruct X as [nd X]. unfold data_at in Y. rewrite X in *. split_and!; [by eexists|exact Y|exact Z]. }
  clearbody d0. destruct (write_frames _ _) as [wrote w] eqn:W.
  set (d1 := append_data w (temp_path j) d0).
  assert (data_at d1 (temp_path j) = w) as T1 by (unfold d1; by rewrite data_at_append, T0).
  assert (data_at d1 file_path = data_at (files j) file_path) as F1
    by (unfold d1, append_data; by rewrite data_at_set_ne).
  assert (is_Some (d1 !! temp_path j)) as I1 by by apply set_data_present.
  clearbody d1. destruct (negb _ || negb (w_rename r)) eqn:Q.
  { intros [= <- <-]. split; [done|right]. split; [done|]. cbn.
    destruct (w_unlink r); [|done]. by rewrite data_at_delete, decide_False. }
  assert (data_at (rename (temp_path j) (journal_path j) d1) file_path = concat (map f_bytes frames)) as F2.
  { rewrite data_at_rename, Pa, decide_True, T1 by done. bool_prop. destruct wrote; [|done].
    by eapply frames_written. }
  clear Q. destruct (_ || _); intros [= <- <-]; (split; [done|by left]).
Qed.

(** What an append does, by its result. *)
Definition append_outcome (c : critical_command) (j j' : journal) (result : journal_result)
    (added : list byte) : Prop :=
  match result with
  | journal_ok =>
      admitted c ∧ added = record_bytes crc32 c ∧ status j' = (place j, (false, bump (h_records (health j))))
      ∧ h_append_uncertain (health j) = false
      ∧ h_records (health j) < CRITICAL_COMMAND_JOURNAL_MAX_RECORDS
      ∧ vsize (recorded j ++ added) <= journal_quota j
  | append_uncertain =>
      place j' = place j ∧ h_append_uncertain (health j') = true
      ∧ (h_append_uncertain (health j) = true ∧ added = []
         ∨ h_append_uncertain (health j) = false
           ∧ admitted c ∧ added `prefix_of` record_bytes crc32 c)
  | _ => added = [] ∧ status j' = status j
  end.

Lemma rollback_effect r size j ok j' w bs :
  running j → rollback_append r size j = (ok, j') →
  recorded j = bs ++ w → size = length bs → is_Some (files j !! file_path) →
  status j' = status j
  ∧ (recorded j' = bs ∨ ok = false ∧ recorded j' = bs ++ w).
Proof.
  intros (_ & _ & Pa) E R -> Is. revert E. unfold rollback_append. rewrite Pa.
  destruct (open_file _ _ _ _ _) as [failed d] eqn:O. apply open_file_data in O as [D Op].
  destruct failed; [intros [= <- <-]|destruct (b_ftruncate r); intros [= <- <-]].
  - split; [done|right]. split; [done|]. unfold recorded in *. by rewrite <- R.
  - split; [done|left]. unfold recorded in *. cbn. destruct (Op eq_refl) as [I _].
    by rewrite data_at_set, D, R, truncated_prefix.
  - split; [done|right]. split; [done|]. unfold recorded in *. by rewrite <- R.
Qed.

Lemma journal_append_effect r c j result j' :
  running j → command_typed c → critical_command_journal_append crc32 r c j = (result, j') →
  ∃ added, recorded j' = recorded j ++ added ∧ append_outcome c j j' result added.
Proof.
  intros Ru T. pose proof Ru as (I & _ & Pa). unfold critical_command_journal_append. rewrite I. cbn [negb].
  destruct (h_append_uncertain (health j)) eqn:U.
  { intros [= <- <-]. exists []. rewrite app_nil_r. split; [done|]. split; [done|]. split; [exact U|by left]. }
  assert (∀ j1 e, same_data (files j) (files j1) → status j1 = status j →
            e ≠ journal_ok → e ≠ append_uncertain → fails e j1 = (result, j') →
            ∃ added, recorded j' = recorded j ++ added ∧ append_outcome c j j' result added) as Nothing.
  { intros j1 e D S N1 N2. unfold fails. intros [= <- <-]. exists []. rewrite app_nil_r. split; [apply D|].
    rewrite <- (record_result_status e) in S. by destruct e. }
  destruct (build_frame _ _ _) as [f|] eqn:B.
  2: { intros E. by apply (Nothing j journal_invalid). }
  apply build_frame_ok in B as [Ac ->]; [|done].
  destruct (Z.leb_spec CRITICAL_COMMAND_JOURNAL_MAX_RECORDS (h_records (health j))) as [M|M].
  { intros E. by apply (Nothing j quota_exceeded). }
  rewrite Pa. destruct (open_file _ _ _ _ _) as [failed d] eqn:O. apply open_file_data in O as [D Op].
  destruct (_ || _) eqn:G; [by apply (Nothing {j with files := d} io_failure)|]. bool_prop.
  assert (failed = None) as -> by by apply dec_stable.
  destruct (Op eq_refl) as [Is _]. cbn [f_bytes frame_of].
  destruct ((_ <? _) || _) eqn:Q; [by apply (Nothing {j with files := d} quota_exceeded)|]. bool_prop.
  destruct (write_all _ _) as [[wrote w] rest] eqn:W.
  destruct (write_all_prefix _ _ _ _ _ W) as [Pre _].
  set (j1 := {j with files := append_data w file_path d}).
  assert (recorded j1 = recorded j ++ w) as R1
    by (unfold recorded, j1; cbn; by rewrite data_at_append, D).
  assert (running j1) as Ru1 by done.
  destruct (_ || negb (a_close r)) eqn:K.
  - destruct (rollback_append _ _ _) as [ok j2] eqn:Rb.
    apply (rollback_effect _ _ _ _ _ w (recorded j)) in Rb as [S2 R2];
      [|done|done|by rewrite D|by apply set_data_present].
    destruct ok; unfold fails; intros [= <- <-].
    + exists []. rewrite app_nil_r. destruct R2 as [R2|[? _]]; [|done]. by split.
    + assert (∃ added, recorded j2 = recorded j ++ added ∧ added `prefix_of` record_bytes crc32 c)
        as (added & R3 & P3).
      { destruct R2 as [R2|[_ R2]]; [exists []; rewrite app_nil_r; split; [done|apply prefix_nil]|by exists w]. }
      exists added. split; [exact R3|]. split; [by apply status_place in S2|]. split; [done|by right].
  - destruct wrote; [|done]. apply write_all_ok in W as ->. intros [= <- <-]. eexists. split; [exact R1|].
    unfold append_outcome. split_and!; [done|done|by rewrite <- U|done|exact M|].
    clear Nothing. change (journal_quota {j with files := d}) with (journal_quota j) in *.
    rewrite D in *. fold (recorded j) in *. unfold vsize in *. rewrite length_app. lia.
Qed.

(** A scan that succeeds, from a journal that runs. *)
Lemma scan_running r j result frames j' :
  running j → scan crc32 r j = (result, frames, j') →
  status j' = status j ∧ recorded j' = recorded j
  ∧ (result = journal_ok →
     ∃ cs, recorded j = journal_bytes crc32 cs ∧ frames = frame_of crc32 <$> firsts cs
       ∧ sound_journal cs ∧ vsize (recorded j) <= journal_quota j).
Proof.
  intros (_ & _ & Pa) E. pose proof E as E'. apply scan_status in E' as [S D].
  split; [done|]. split; [apply D|]. intros ->.
  apply scan_reads in E as (cs & B & F & So & Q). rewrite Pa in B. fold (recorded j) in B.
  exists cs. rewrite B. by split_and!.
Qed.

(** What is known of a journal that was scanned: nothing is uncertain any more. *)
Definition settled (cs : list critical_command) (j : journal) : Prop :=
  recorded j = journal_bytes crc32 cs ∧ sound_journal cs ∧ vsize (recorded j) <= journal_quota j
  ∧ h_records (health j) = vsize (firsts cs).

Lemma sync_effect r now j result j' :
  running j → critical_command_journal_sync crc32 r now j = (result, j') →
  recorded j' = recorded j ∧ place j' = place j
  ∧ if decide (result = journal_ok)
    then h_append_uncertain (health j') = false ∧ ∃ cs, settled cs j'
    else status j' = status j.
Proof.
  intros Ru. pose proof Ru as (I & _ & Pa). unfold critical_command_journal_sync. rewrite I. cbn [negb].
  destruct (open_file _ _ _ _ _) as [failed d] eqn:O. apply open_file_data in O as [D _].
  destruct (bool_decide _); [intros [= <- <-]; split; [apply D|done]|].
  destruct (negb _); [intros [= <- <-]; split; [apply D|done]|].
  set (j1 := {j with files := d}).
  assert (running j1 ∧ status j1 = status j ∧ recorded j1 = recorded j) as (Ru1 & S1 & R1)
    by (split_and!; [done..|apply D]).
  clearbody j1. destruct (scan crc32 (y_scan r) j1) as [[res frames] j2] eqn:Sc.
  apply scan_running in Sc as (S2 & R2 & K); [|done].
  assert (place j2 = place j) as P2 by (apply status_place; congruence).
  case_bool_decide as Ok; cbn [negb]; intros [= <- <-].
  - subst res. destruct (K eq_refl) as (cs & B & -> & So & Q).
    split; [change (recorded j2 = recorded j); congruence|]. split; [exact P2|].
    rewrite decide_True by done. split; [done|]. exists cs.
    split; [change (recorded j2 = journal_bytes crc32 cs); congruence|]. split; [done|]. split.
    + change (vsize (recorded j2) <= journal_quota j2). rewrite R2.
      replace (journal_quota j2) with (journal_quota j1); [done|]. symmetry.
      apply status_place in S2. unfold place in S2. congruence.
    + change (vsize (frame_of crc32 <$> firsts cs) = vsize (firsts cs)). unfold vsize. by rewrite length_fmap.
  - rewrite decide_False by done. rewrite record_result_status. unfold recorded in *.
    rewrite record_result_files. split_and!; [congruence| |congruence].
    apply status_place. rewrite record_result_status. congruence.
Qed.

Definition without (operation : critical_operation_id) (cs : list critical_command)
  : list critical_command :=
  List.filter (λ c, negb (critical_operation_id_equal (operation_id c) operation)) cs.

Lemma filter_frames operation cs :
  List.filter (λ frame, negb (critical_operation_id_equal (f_operation_id frame) operation))
    (frame_of crc32 <$> cs)
  = frame_of crc32 <$> without operation cs.
Proof.
  induction cs as [|c cs IH]; [done|]. cbn [fmap list_fmap List.filter f_operation_id frame_of].
  unfold without in *. cbn [List.filter]. destruct (negb _); [|exact IH].
  rewrite fmap_cons. f_equal. exact IH.
Qed.

Lemma elem_of_without operation cs c :
  c ∈ without operation cs ↔ c ∈ cs ∧ operation_id c ≠ operation.
Proof.
  unfold without, critical_operation_id_equal. rewrite list_elem_of_In, filter_In, <- list_elem_of_In.
  rewrite negb_true_iff, bool_decide_eq_false. done.
Qed.

Lemma without_sublist operation cs : without operation cs `sublist_of` cs.
Proof. unfold without. induction cs as [|c cs IH]; [done|]. cbn. destruct (negb _); by constructor. Qed.

Lemma journal_bytes_sublist cs ds :
  cs `sublist_of` ds → vsize (journal_bytes crc32 cs) <= vsize (journal_bytes crc32 ds).
Proof.
  unfold vsize. induction 1 as [|c cs ds _ IH|c cs ds _ IH]; [done|..];
    rewrite ?journal_bytes_cons, ?length_app; lia.
Qed.

(** What a checkpoint leaves is as sound, and each of its operations is there once. *)
Lemma without_sound operation cs :
  sound_journal cs →
  sound_journal (without operation (firsts cs)) ∧ firsts (without operation (firsts cs)) = without operation (firsts cs)
  ∧ vsize (journal_bytes crc32 (without operation (firsts cs))) <= vsize (journal_bytes crc32 cs).
Proof.
  intros (A & K & M). set (ds := without operation (firsts cs)).
  assert (ds `sublist_of` firsts cs) as S1 by apply without_sublist.
  assert (ds `sublist_of` cs) as S by (etransitivity; [exact S1|apply firsts_sublist]).
  assert (∀ c, c ∈ ds → c ∈ cs) as Sub by (intros c; by apply sublist_subseteq).
  assert (NoDup (operation_id <$> ds)) as N.
  { eapply sublist_NoDup; [apply (firsts_nodup cs)|]. by apply fmap_sublist. }
  split_and!; [split_and!| |].
  - rewrite Forall_forall in *. auto.
  - by eapply consistent_subseteq.
  - apply scannable_short. apply sublist_length in S1. apply scannable_firsts in M.
    unfold vsize in *. lia.
  - by apply firsts_same.
  - by apply journal_bytes_sublist.
Qed.

Lemma journal_checkpoint_effect rs rw now operation j result j' :
  running j → critical_command_journal_checkpoint crc32 rs rw now operation j = (result, j') →
  place j' = place j ∧ h_append_uncertain (health j') = h_append_uncertain (health j)
  ∧ (result ≠ journal_ok ∧ status j' = status j ∧ recorded j' = recorded j
     ∨ ∃ cs, recorded j = journal_bytes crc32 cs ∧ sound_journal cs ∧ vsize (recorded j) <= journal_quota j
       ∧ recorded j' = journal_bytes crc32 (without operation (firsts cs))
       ∧ if decide (result = journal_ok)
         then h_records (health j') = vsize (without operation (firsts cs))
         else h_records (health j') = h_records (health j)).
Proof.
  intros Ru. pose proof Ru as (I & _ & _). unfold critical_command_journal_checkpoint. rewrite I. cbn [negb].
  destruct (critical_operation_id_is_zero _); [intros [= <- <-]; split; [done|split; [done|by left]]|].
  destruct (scan crc32 rs j) as [[res frames] j1] eqn:Sc.
  apply scan_running in Sc as (S1 & R1 & K); [|done].
  case_bool_decide as Ok; cbn [negb].
  2: { unfold fails. intros [= <- <-]. unfold recorded. rewrite record_result_files.
       assert (status (record_result res j1) = status j) as S by by rewrite record_result_status.
       split; [by apply status_place|]. split; [by injection S|]. left. by split_and!. }
  subst res. destruct (K eq_refl) as (cs & B & -> & So & Q). rewrite filter_frames.
  assert (running j1) as Ru1 by (eapply place_running; [by apply status_place|done]).
  destruct (rewrite rw _ j1) as [res j2] eqn:W.
  apply rewrite_effect in W as [S2 D2]; [|done]. rewrite map_frame_bytes in D2.
  assert (status j2 = status j) as S by congruence.
  pose proof (status_place _ _ S) as P. assert (h_append_uncertain (health j2) = h_append_uncertain (health j)
    ∧ h_records (health j2) = h_records (health j)) as [U H2] by (by injection S).
  case_bool_decide as Ok; unfold fails; intros [= <- <-].
  - destruct D2 as [D2|[? _]]; [|done]. split; [exact P|]. split; [exact U|]. right. exists cs.
    rewrite decide_True by done. split_and!; [done..|exact D2|].
    change (vsize (frame_of crc32 <$> without operation (firsts cs)) = vsize (without operation (firsts cs))).
    unfold vsize. by rewrite length_fmap.
  - assert (status (record_result res j2) = status j) as S' by by rewrite record_result_status.
    split; [by apply status_place|]. split; [by injection S'|].
    unfold recorded in *. rewrite record_result_files.
    destruct D2 as [D2|[_ D2]]; [right|left; split_and!; [done..|congruence]].
    exists cs. rewrite decide_False by done. split_and!; [done..|]. by injection S'.
Qed.

Lemma make_directory_data ok d d' : make_directory ok directory d = Some d' → same_data d d'.
Proof.
  unfold make_directory. destruct (d !! directory) eqn:E; [by intros [= <-]|].
  destruct ok; [|done]. intros [= <-] p. unfold data_at. rewrite lookup_insert.
  case_decide; subst; [|done]. by rewrite E.
Qed.

Lemma init_effect r now quota j ok j' :
  h_initialized (health j) = false →
  critical_command_journal_init crc32 r now directory quota j = (ok, j') →
  recorded j' = recorded j
  ∧ if ok then running j' ∧ h_append_uncertain (health j') = false ∧ ∃ cs, settled cs j'
    else h_initialized (health j') = false.
Proof.
  intros I. unfold critical_command_journal_init. rewrite I.
  destruct (_ || _); [by intros [= <- <-]|].
  destruct (make_directory _ _ _) as [d|] eqn:Mk; [|by intros [= <- <-]].
  apply make_directory_data in Mk. cbv zeta.
  destruct (negb (safe_directory _ _ _)); [intros [= <- <-]; split; [apply Mk|done]|].
  fold file_path. destruct (open_file _ _ _ _ _) as [failed d2] eqn:O. apply open_file_data in O as [D _].
  assert (∀ p, data_at d2 p = data_at (files j) p) as D2 by (intros p; rewrite D; apply Mk).
  destruct failed; [intros [= <- <-]; split; [apply D2|done]|].
  destruct (negb (safe_regular _ _ _)); [intros [= <- <-]; split; [apply D2|done]|].
  destruct (scan crc32 _ _) as [[res frames] j1] eqn:Sc.
  apply scan_running in Sc as (S1 & R1 & K); [|done].
  assert (recorded j1 = recorded j) as R by (rewrite R1; apply D2). clear R1.
  case_bool_decide as Ok; cbn [negb]; intros [= <- <-].
  2: { unfold recorded in *. rewrite record_result_files. split; [exact R|]. by destruct res. }
  subst res. destruct (K eq_refl) as (cs & B & -> & So & Q).
  split; [exact R|]. assert (place j1 = (directory, file_path, quota, true)) as P
    by (by apply status_place in S1). assert (h_append_uncertain (health j1) = false) as U by by injection S1.
  split; [unfold place in P; by injection P|]. split; [exact U|]. exists cs.
  split; [change (recorded j1 = journal_bytes crc32 cs); rewrite R, <- B; symmetry; apply D2|].
  split; [done|]. split.
  - change (vsize (recorded j1) <= journal_quota j1). rewrite R.
    unfold place in P. injection P as _ _ -> _. etransitivity; [|exact Q]. unfold recorded. cbn. by rewrite D2.
  - change (vsize (frame_of crc32 <$> firsts cs) = vsize (firsts cs)). unfold vsize. by rewrite length_fmap.
Qed.
End Effects.

(** ** The journal over time *)

Section History.
Context (crc32 : list byte → Z) `{Process} (directory : string).

(** What is asked of the journal; a restart is a shutdown and an initialisation in the
    same directory. *)
Inductive request :=
| append_request (r : append_replies) (c : critical_command)
| sync_request (r : journal_sync_replies) (now : Z * Z)
| checkpoint_request (rs : scan_replies) (rw : rewrite_replies) (now : Z * Z)
    (operation : critical_operation_id)
| restart_request (r : init_replies) (now : Z * Z) (quota : Z).

Definition request_typed (q : request) : Prop :=
  match q with append_request _ c => command_typed c | _ => True end.

(** The journal, the commands it accepted and was not asked to drop since, and all it
    was asked to take. *)
Record ledger := Ledger {
  ledger_journal : journal;
  owed : list critical_command;
  tried : list critical_command;
}.

Definition serve (l : ledger) (q : request) : ledger :=
  let j := ledger_journal l in
  match q with
  | append_request r c =>
      let '(result, j) := critical_command_journal_append crc32 r c j in
      Ledger j (if decide (result = journal_ok) then owed l ++ [c] else owed l) (tried l ++ [c])
  | sync_request r now =>
      Ledger (critical_command_journal_sync crc32 r now j).2 (owed l) (tried l)
  | checkpoint_request rs rw now operation =>
      Ledger (critical_command_journal_checkpoint crc32 rs rw now operation j).2
        (without operation (owed l)) (tried l)
  | restart_request r now quota =>
      Ledger (critical_command_journal_init crc32 r now directory quota
                (critical_command_journal_shutdown j)).2 (owed l) (tried l)
  end.

(** The ledger of a stopped journal whose file holds some commands. *)
Definition opening (j : journal) (cs : list critical_command) (l : ledger) : Prop :=
  h_initialized (health j) = false ∧ recorded directory j = journal_bytes crc32 cs
  ∧ Forall admitted cs ∧ l = Ledger j cs cs.

(** The file ends in at most a beginning of one record. *)
Definition tail_of (cs : list critical_command) (torn : list byte) (tried : list critical_command) : Prop :=
  (torn = [] ∧ cs `sublist_of` tried)
  ∨ ∃ c, admitted c ∧ torn `prefix_of` record_bytes crc32 c ∧ cs ++ [c] `sublist_of` tried.

(** There is room: a scan will keep all that is there. *)
Definition roomy (cs : list critical_command) (j : journal) : Prop :=
  scannable cs ∧ vsize (firsts cs) <= h_records (health j)
  ∧ vsize (recorded directory j) <= journal_quota j.

Record accounted (l : ledger) (cs : list critical_command) (torn : list byte) : Prop := {
  acc_bytes : recorded directory (ledger_journal l) = journal_bytes crc32 cs ++ torn;
  acc_admitted : Forall admitted cs;
  acc_owed : ∀ c, c ∈ owed l → c ∈ cs;
  acc_tail : tail_of cs torn (tried l);
  acc_running : h_initialized (health (ledger_journal l)) = true → running directory (ledger_journal l);
  acc_certain : h_initialized (health (ledger_journal l)) = true →
    h_append_uncertain (health (ledger_journal l)) = false → torn = [] ∧ roomy cs (ledger_journal l);
}.

(** Where a scan succeeds the tail is nothing or a whole record. *)
Lemma tail_settles cs torn tried ds :
  Forall admitted cs → Forall admitted ds → tail_of cs torn tried →
  journal_bytes crc32 cs ++ torn = journal_bytes crc32 ds →
  ds `sublist_of` tried ∧ (∀ c, c ∈ cs → c ∈ ds) ∧ (torn = [] → ds = cs).
Proof.
  intros Fc Fd T E. destruct T as [[-> S]|(c & Ac & P & S)].
  - rewrite app_nil_r in E. apply journal_bytes_inj in E as ->; done.
  - destruct (journal_bytes_torn crc32 cs torn c ds Fc Ac Fd P E) as [[-> ->]|[-> ->]].
    + split_and!; [|done..]. etransitivity; [|exact S]. by apply sublist_inserts_r.
    + split; [exact S|]. split; [intros d D; apply elem_of_app; by left|].
      intros E0. apply (f_equal length) in E0. by rewrite length_record in E0.
Qed.

Lemma tail_of_more cs torn tried c : tail_of cs torn tried → tail_of cs torn (tried ++ [c]).
Proof.
  intros [[-> S]|(d & A & P & S)]; [left|right; exists d]; split_and!; try done;
    by apply sublist_inserts_r.
Qed.

(** A journal in which nothing else happened. *)
Lemma accounted_same l cs torn j' owed' tried' :
  accounted l cs torn → recorded directory j' = recorded directory (ledger_journal l) →
  status j' = status (ledger_journal l) → (∀ c, c ∈ owed' → c ∈ owed l) → tail_of cs torn tried' →
  accounted (Ledger j' owed' tried') cs torn.
Proof.
  intros [B A O T R C] Re S Ow T'. pose proof (status_place _ _ S) as P.
  assert (h_initialized (health j') = h_initialized (health (ledger_journal l))
          ∧ h_append_uncertain (health j') = h_append_uncertain (health (ledger_journal l))
          ∧ h_records (health j') = h_records (health (ledger_journal l))
          ∧ journal_quota j' = journal_quota (ledger_journal l)) as (I & U & Hr & Q)
    by by injection S.
  split; cbn [ledger_journal owed tried]; [congruence|done|auto|done| |].
  - rewrite I. intros Hi. eapply place_running; [exact P|auto].
  - rewrite I, U. intros Hi Hu. destruct (C Hi Hu) as (-> & M & L & Sz). split; [done|].
    unfold roomy. rewrite Hr, Re, Q. done.
Qed.

Lemma settled_accounted l cs torn j' ds :
  accounted l cs torn → recorded directory j' = recorded directory (ledger_journal l) →
  running directory j' → settled crc32 directory ds j' →
  accounted (Ledger j' (owed l) (tried l)) ds [].
Proof.
  intros [B A O T R C] Re Ru (Bd & (Ad & Kd & Md) & Qd & Hd).
  destruct (tail_settles cs torn (tried l) ds A Ad T) as (S & Sub & _); [congruence|].
  split; cbn [ledger_journal owed tried]; [by rewrite app_nil_r|done|auto|by left|done|].
  intros _ _. split; [done|]. unfold roomy. rewrite Hd. done.
Qed.

Lemma serve_append l cs torn r c :
  accounted l cs torn → command_typed c →
  ∃ cs' torn', accounted (serve l (append_request r c)) cs' torn'.
Proof.
  intros Acc T. cbn [serve]. destruct (critical_command_journal_append _ _ _ _) as [result j'] eqn:E.
  pose proof Acc as [B A O Tl R C].
  destruct (h_initialized (health (ledger_journal l))) eqn:I.
  2: { unfold critical_command_journal_append in E. rewrite I in E. injection E as <- <-.
       rewrite decide_False by done. exists cs, torn. eapply accounted_same; [done..|by apply tail_of_more]. }
  specialize (R eq_refl). apply (journal_append_effect crc32 directory) in E as (added & Re & Out); [|done..].
  destruct (decide (result = journal_ok)) as [->|No].
  - destruct Out as (Ac & -> & S & U & M & Q). destruct (C eq_refl U) as (-> & Sc & L & _).
    rewrite app_nil_r in B. exists (cs ++ [c]), [].
    assert (cs `sublist_of` tried l) as Sub.
    { destruct Tl as [[_ Sub]|(d & _ & _ & Sub)]; [done|]. etransitivity; [|exact Sub]. by apply sublist_inserts_r. }
    pose proof (firsts_grow cs c) as G. unfold CRITICAL_COMMAND_JOURNAL_MAX_RECORDS in *.
    split; cbn [ledger_journal owed tried].
    + by rewrite Re, B, app_nil_r, journal_bytes_app, journal_bytes_one.
    + apply Forall_app. split; [done|by constructor].
    + intros d. rewrite !elem_of_app. intros [D|D]; [left; auto|by right].
    + left. split; [done|]. by apply sublist_app.
    + intros _. eapply place_running; [exact (f_equal fst S)|done].
    + intros _ _. split; [done|]. split; [|split].
      * apply scannable_snoc. unfold CRITICAL_COMMAND_JOURNAL_MAX_RECORDS. lia.
      * assert (h_records (health j') = bump (h_records (health (ledger_journal l)))) as -> by by injection S.
        unfold bump. rewrite wrap_small; unfold fits, vsize in *; lia.
      * assert (journal_quota j' = journal_quota (ledger_journal l)) as -> by by injection S.
        by rewrite Re.
  - destruct (decide (result = append_uncertain)) as [->|Nu].
    + destruct Out as (P & U & Out). exists cs, (torn ++ added).
      assert (h_initialized (health j') = true) as I' by (unfold place in P; congruence).
      split; cbn [ledger_journal owed tried]; [by rewrite Re, B, (assoc_L (++))|done|done| | |].
      * destruct Out as [[_ ->]|(U0 & Ac & Pre)]; [rewrite app_nil_r; by apply tail_of_more|].
        destruct (C eq_refl U0) as [-> _]. right. exists c. split; [done|]. split; [done|].
        apply sublist_app; [|done]. destruct Tl as [[_ Sub]|(d & _ & _ & Sub)]; [done|].
        etransitivity; [|exact Sub]. by apply sublist_inserts_r.
      * intros _. by eapply place_running.
      * intros _. congruence.
    + assert (added = [] ∧ status j' = status (ledger_journal l)) as [-> S] by by destruct result.
      rewrite app_nil_r in Re. exists cs, torn. eapply accounted_same; [done..|by apply tail_of_more].
Qed.

Lemma serve_sync l cs torn r now :
  accounted l cs torn → ∃ cs' torn', accounted (serve l (sync_request r now)) cs' torn'.
Proof.
  intros Acc. cbn [serve]. destruct (critical_command_journal_sync _ _ _ _) as [result j'] eqn:E. cbn [snd].
  pose proof Acc as [B A O Tl R C].
  destruct (h_initialized (health (ledger_journal l))) eqn:I.
  2: { unfold critical_command_journal_sync in E. rewrite I in E. injection E as <- <-.
       exists cs, torn. by destruct l. }
  specialize (R eq_refl). apply (sync_effect crc32 directory) in E as (Re & P & Out); [|done].
  destruct (decide (result = journal_ok)).
  - destruct Out as (U & ds & Sd). exists ds, []. eapply settled_accounted; [done..| |done].
    by eapply place_running.
  - exists cs, torn. by eapply accounted_same.
Qed.

Lemma serve_restart l cs torn r now quota :
  accounted l cs torn → ∃ cs' torn', accounted (serve l (restart_request r now quota)) cs' torn'.
Proof.
  intros Acc. cbn [serve]. destruct (critical_command_journal_init _ _ _ _ _ _) as [ok j'] eqn:E. cbn [snd].
  apply init_effect in E as [Re Out]; [|done].
  destruct ok.
  - destruct Out as (Ru & U & ds & Sd). exists ds, []. by eapply settled_accounted.
  - exists cs, torn. destruct Acc as [B A O Tl R C].
    split; cbn [ledger_journal owed tried]; [by rewrite Re|done..|congruence|congruence].
Qed.

Lemma serve_checkpoint l cs torn rs rw now operation :
  accounted l cs torn →
  ∃ cs' torn', accounted (serve l (checkpoint_request rs rw now operation)) cs' torn'.
Proof.
  intros Acc. cbn [serve].
  destruct (critical_command_journal_checkpoint _ _ _ _ _ _) as [result j'] eqn:E. cbn [snd].
  pose proof Acc as [B A O Tl R C].
  assert (∀ c, c ∈ without operation (owed l) → c ∈ owed l) as Ow
    by (intros c; rewrite elem_of_without; by intros []).
  destruct (h_initialized (health (ledger_journal l))) eqn:I.
  2: { unfold critical_command_journal_checkpoint in E. rewrite I in E. injection E as <- <-.
       exists cs, torn. by eapply accounted_same. }
  specialize (R eq_refl). apply (journal_checkpoint_effect crc32 directory) in E as (P & U & Out); [|done].
  destruct Out as [(_ & S & Re)|(ds & Bd & So & Qd & Bj & Hr)].
  { exists cs, torn. by eapply accounted_same. }
  pose proof So as (Ad & Kd & Md). destruct (without_sound crc32 operation ds So) as ((Aw & Kw & Mw) & Fw & Lw).
  destruct (tail_settles cs torn (tried l) ds A Ad Tl) as (Sd & Sub & Same); [congruence|].
  set (ws := without operation (firsts ds)) in *. exists ws, [].
  assert (journal_quota j' = journal_quota (ledger_journal l)) as Q by (unfold place in P; congruence).
  split; cbn [ledger_journal owed tried]; [by rewrite app_nil_r|done| | | |].
  - intros c. rewrite elem_of_without. intros [Oc N]. apply elem_of_without. split; [|done].
    apply firsts_consistent; auto.
  - left. split; [done|]. etransitivity; [apply without_sublist|].
    etransitivity; [apply firsts_sublist|exact Sd].
  - intros _. by eapply place_running.
  - rewrite U. intros _ Hu. destruct (C eq_refl Hu) as (-> & _ & L & _). split; [done|].
    pose proof (Same eq_refl) as ->. split; [done|]. rewrite Fw, Q, Bj. split; [|rewrite Bd in Qd; lia].
    destruct (decide (result = journal_ok)); [lia|]. rewrite Hr.
    pose proof (sublist_length _ _ (without_sublist operation (firsts cs))) as Lc.
    unfold ws, vsize in *. lia.
Qed.

Lemma serves_accounted qs l cs torn :
  accounted l cs torn → Forall request_typed qs →
  ∃ cs' torn', accounted (foldl serve l qs) cs' torn'.
Proof.
  intros Acc F. revert l cs torn Acc. induction F as [|q qs T F IH]; intros l cs torn Acc; [by eauto|].
  cbn [foldl]. assert (∃ cs' torn', accounted (serve l q) cs' torn') as (cs' & torn' & Acc').
  { destruct q; [by eapply serve_append|by eapply serve_sync|by eapply serve_checkpoint|by eapply serve_restart]. }
  by eapply IH.
Qed.

Lemma opening_accounted j cs l : opening j cs l → accounted l cs [].
Proof.
  intros (I & B & A & ->). split; cbn; [by rewrite app_nil_r|done..|by left|congruence|congruence].
Qed.
End History.

(** ** Lemmas: replay *)

Section ReplayLog.
Context (crc32 : list byte → Z) `{Process} {W : Type}.
Context (replay : critical_command → W * journal → bool * (W * journal)).

(** [replay] with a log of the commands it was called with. *)
Definition logged (c : critical_command) (s : W * list critical_command * journal)
  : bool * (W * list critical_command * journal) :=
  let '(w, log, j) := s in
  let '(taken, (w, j)) := replay c (w, j) in (taken, (w, log ++ [c], j)).

Definition log_of (s : W * list critical_command * journal) : list critical_command := s.1.2.

(** The commands are called in order, up to the first one that is refused. *)
Lemma replay_loop_offers cs s :
  ∃ result called s',
    replay_loop logged (frame_of crc32 <$> cs) s = (result, s')
    ∧ log_of s' = log_of s ++ called
    ∧ (result = journal_ok ∧ called = cs
       ∨ result = replay_blocked ∧ called `prefix_of` cs
         ∧ ∃ front c t, called = front ++ [c] ∧ (replay c t).1 = false).
Proof.
  revert s. induction cs as [|c cs IH]; intros [[w log] j]; cbn [fmap list_fmap replay_loop].
  { do 2 eexists. exists (w, log, {j with health -> h_last_result := journal_ok}). split; [done|].
    cbn. split; [symmetry; apply app_nil_r|by left]. }
  cbn [f_command frame_of logged]. destruct (replay c (w, j)) as [taken [w1 j1]] eqn:R.
  destruct taken.
  - destruct (IH (w1, log ++ [c], j1)) as (result & called & s' & E & L & K).
    exists result, (c :: called), s'. split; [exact E|]. cbn [log_of fst snd] in *. split; [by rewrite L, <- (assoc_L (++))|].
    destruct K as [[-> ->]|(-> & P & front & d & t & -> & D)]; [by left|right].
    split; [done|]. split; [by apply prefix_cons|]. by exists (c :: front), d, t.
  - do 2 eexists. exists (w1, log ++ [c], {j1 with health -> h_last_result := replay_blocked}).
    split; [done|]. split; [done|]. right. split; [done|]. split; [apply prefix_cons, prefix_nil|].
    exists [], c, (w, j). by rewrite R.
Qed.
End ReplayLog.

(** ** Theorems *)

Section Claims.
Context (crc32 : list byte → Z) `{Process}.

(** C9: A scan reads exactly the journals: whatever bytes the file holds, it succeeds if and
    only if they are the records of valid commands, one operation standing for one
    command, with fewer than 4096 operations before each record; and then it keeps the
    first record of each operation, in order. *)
Theorem command_journal_scan_exact (crc32_range : ∀ bs, u32 (crc32 bs)) r j frames :
  scan_serves r j → vsize (data_at (files j) (journal_path j)) <= journal_quota j →
  (∃ j', scan crc32 r j = (journal_ok, frames, j'))
  ↔ ∃ cs, data_at (files j) (journal_path j) = journal_bytes crc32 cs ∧ sound_journal cs
      ∧ frames = frame_of crc32 <$> firsts cs.
Proof.
  intros Sv Q. split.
  - intros [j' E]. apply scan_reads in E as (cs & B & F & So & _). by exists cs.
  - intros (cs & B & So & ->). rewrite B in Q. by apply scan_written_journal.
Qed.

(** C7: Whatever calls fail, over any history of appends, synchronisations, checkpoints and
    restarts: the file holds whole records, after them at most a beginning of one more,
    which only an append of unknown outcome leaves; and each command that was accepted
    and not checkpointed since is among the records. *)
Theorem command_journal_keeps_accepted directory j cs l qs :
  opening crc32 directory j cs l → Forall request_typed qs →
  let l := foldl (serve crc32 directory) l qs in
  ∃ ds torn,
    recorded directory (ledger_journal l) = journal_bytes crc32 ds ++ torn
    ∧ (∀ c, c ∈ owed l → c ∈ ds) ∧ tail_of crc32 ds torn (tried l)
    ∧ (h_initialized (health (ledger_journal l)) = true →
       h_append_uncertain (health (ledger_journal l)) = false → torn = []).
Proof.
  intros Op%opening_accounted F. destruct (serves_accounted crc32 directory qs l cs [] Op F) as (ds & torn & Acc).
  exists ds, torn. split_and!; [apply Acc..|]. intros I U. by apply Acc.
Qed.

(** C8: After any history in which an operation stands for one command, a journal that runs and
    is sure of its last append can be replayed: when the calls of the scan succeed, the
    callback gets, in the order they were first offered and each operation once, all the
    commands accepted and not checkpointed since, unless it refuses one, where the replay stops. *)
Theorem command_journal_replays_accepted (crc32_range : ∀ bs, u32 (crc32 bs)) {W}
    (replay : critical_command → W * journal → bool * (W * journal)) directory j cs l qs r w :
  opening crc32 directory j cs l → Forall request_typed qs →
  let l := foldl (serve crc32 directory) l qs in
  let j := ledger_journal l in
  consistent (tried l) → h_initialized (health j) = true → h_append_uncertain (health j) = false →
  scan_serves r j →
  ∃ result called w' j',
    critical_command_journal_replay crc32 (logged replay) r ((w, []), j) = (result, ((w', called), j'))
    ∧ called `sublist_of` tried l ∧ NoDup (operation_id <$> called)
    ∧ (result = journal_ok ∧ (∀ c, c ∈ owed l → c ∈ called)
       ∨ result = replay_blocked ∧ ∃ front c t, called = front ++ [c] ∧ (replay c t).1 = false).
Proof.
  intros Op%opening_accounted F. destruct (serves_accounted crc32 directory qs l cs [] Op F) as (ds & torn & Acc).
  cbv zeta. set (l' := foldl _ _ _) in *. clearbody l'. clear l Op. rename l' into l.
  intros K I U Sv. destruct Acc as [B A O T R C]. destruct (C I U) as (-> & M & _ & Q).
  pose proof (R I) as (_ & _ & Pa). rewrite app_nil_r in B.
  assert (ds `sublist_of` tried l) as Sub.
  { destruct T as [[_ S]|(c & _ & _ & S)]; [done|]. etransitivity; [|exact S]. by apply sublist_inserts_r. }
  assert (consistent ds) as Kd by (eapply consistent_subseteq; [exact K|intros c; by apply sublist_subseteq]).
  destruct (scan_written_journal crc32 crc32_range r (ledger_journal l) ds Sv) as [j1 Sc];
    [by rewrite Pa|done|by rewrite <- B|].
  unfold critical_command_journal_replay. rewrite I, Sc. cbn [negb].
  rewrite bool_decide_eq_true_2 by done. cbn [negb].
  destruct (replay_loop_offers crc32 replay (firsts ds)
              (w, [], {j1 with health -> h_replays ::= bump})) as (result & called & [[w' log] j'] & E & L & D).
  rewrite E. cbn [log_of fst snd app] in L. subst log. exists result, called, w', j'. split; [done|].
  assert (called `prefix_of` firsts ds) as Pre by (by destruct D as [[_ ->]|(_ & P & _)]).
  assert (called `sublist_of` firsts ds) as Sc' by (destruct Pre as [more ->]; by apply sublist_inserts_r).
  split_and!.
  - etransitivity; [exact Sc'|]. etransitivity; [apply firsts_sublist|exact Sub].
  - eapply sublist_NoDup; [apply (firsts_nodup ds)|]. by apply fmap_sublist.
  - destruct D as [[-> ->]|(-> & _ & D)]; [left|by right]. split; [done|]. intros c Oc.
    apply firsts_consistent; auto.
Qed.

(** A checkpoint rewrites the journal without one operation, at once: afterwards the file
    holds the first record of each other operation, in order, or, if the checkpoint
    fails, perhaps all it held before; nothing else, whatever calls fail. *)
Theorem command_journal_checkpoint_exact directory rs rw now operation j cs result j' :
  running directory j → recorded directory j = journal_bytes crc32 cs → Forall admitted cs →
  critical_command_journal_checkpoint crc32 rs rw now operation j = (result, j') →
  running directory j'
  ∧ (recorded directory j' = journal_bytes crc32 (without operation (firsts cs))
     ∨ result ≠ journal_ok ∧ recorded directory j' = recorded directory j)
  ∧ (result = journal_ok → h_records (health j') = vsize (without operation (firsts cs))).
Proof.
  intros Ru B A E. apply (journal_checkpoint_effect crc32 directory) in E as (P & _ & D); [|done].
  split; [by eapply place_running|].
  destruct D as [(N & _ & D)|(ds & Bd & (Ad & _) & _ & D & Hr)]; [split; [by right|done]|].
  rewrite B in Bd. apply journal_bytes_inj in Bd as ->; [|done..].
  split; [by left|]. intros ->. by rewrite decide_True in Hr.
Qed.

(** C33: An append of unknown outcome is not forgotten: while nothing settles it every append
    is refused and writes nothing, and a synchronisation that succeeds shows that the
    file holds all of the record or none of it. *)
Theorem command_journal_uncertain_settles directory r c j cs j' :
  running directory j → recorded directory j = journal_bytes crc32 cs → Forall admitted cs →
  h_append_uncertain (health j) = false → command_typed c →
  critical_command_journal_append crc32 r c j = (append_uncertain, j') →
  (∀ r2 d, ∃ j2, critical_command_journal_append crc32 r2 d j' = (append_uncertain, j2)
     ∧ files j2 = files j' ∧ h_append_uncertain (health j2) = true)
  ∧ ∀ r2 now j2, critical_command_journal_sync crc32 r2 now j' = (journal_ok, j2) →
      h_append_uncertain (health j2) = false
      ∧ (recorded directory j2 = journal_bytes crc32 cs
         ∨ recorded directory j2 = journal_bytes crc32 (cs ++ [c])).
Proof.
  intros Ru B A U T E. apply (journal_append_effect crc32 directory) in E as (added & Re & P & U' & Out); [|done..].
  assert (running directory j') as Ru' by by eapply place_running.
  destruct Out as [[? _]|(_ & Ac & Pre)]; [congruence|]. split.
  - intros r2 d. unfold critical_command_journal_append. rewrite (proj1 Ru'), U'. cbn [negb].
    eexists. split; [done|]. split; [done|exact U'].
  - intros r2 now j2 S. apply (sync_effect crc32 directory) in S as (R2 & _ & S); [|done].
    rewrite decide_True in S by done. destruct S as (U2 & ds & Bd & (Ad & _) & _). split; [done|].
    rewrite Bd. destruct (journal_bytes_torn crc32 cs added c ds A Ac Ad Pre) as [[_ ->]|[_ ->]];
      [congruence|by left|by right].
Qed.
End Claims.

(** ** Witnesses *)

Definition sample_process : Process := {| geteuid := 1000; umask := 0x12 |}.
#[local] Existing Instance sample_process.

(** A checksum of 32 bits. *)
Definition sample_crc (bs : list byte) : Z :=
  wrap 32 (foldl (λ sum b, 33 * sum + of_byte b) 5381 bs).
Lemma sample_crc_range bs : u32 (sample_crc bs).
Proof. by apply wrap_range. Qed.

(** Commands of three operations. *)
Definition numbered (b : byte) : critical_command := {|
  schema_version := 1; operation_id := Byte.x07 :: repeat b 15;
  command_type := critical_command_type.account_bank; payload_version := 1;
  source_site := critical_source_site.command;
  deadline_class := critical_deadline_class.interactive; accepted_at_usec := 5000;
  keys := [EntityKey 2 9]; expected_revisions := []; payload := [b] |}.
Definition first_command : critical_command := numbered Byte.x01.
Definition second_command : critical_command := numbered Byte.x02.
Definition third_command : critical_command := numbered Byte.x03.

Lemma numbered_typed b : command_typed (numbered b).
Proof. repeat first [split | constructor]; cbn; try done; width; lia. Qed.
Lemma numbered_admitted b : admitted (numbered b).
Proof. split; [apply numbered_typed|by vm_compute]. Qed.

(** Replies of calls that all succeed. *)
Definition good_io : list io_reply := [io_count (Z.to_nat 9000)].
Definition good_scan : scan_replies := ScanReplies true None true true good_io (λ _, true).
Definition good_rewrite : rewrite_replies :=
  RewriteReplies None true (concat (repeat good_io 9)) true true true true true true.
Definition good_rollback : rollback_replies := RollbackReplies None true true true.
Definition good_append : append_replies := AppendReplies true None true good_io true true good_rollback.
Definition good_sync : journal_sync_replies := JournalSyncReplies None true true good_scan.
Definition good_init : init_replies := InitReplies true true None true good_scan.
(** All is written, but neither the synchronisation nor the opening for the rollback
    succeeds. *)
Definition unsure_append : append_replies :=
  AppendReplies true None true good_io false true (RollbackReplies (Some other_failure) true true true).

Definition sample_journal (cs : list critical_command) : journal :=
  Journal "/j" (file_path "/j") 100000
    {no_health with h_initialized := true; h_records := vsize cs}
    {[ file_path "/j" := Node regular_file 1000 1 0x180 (journal_bytes sample_crc cs) ]}.

Lemma sample_running cs : running "/j" (sample_journal cs).
Proof. done. Qed.
Lemma sample_data cs :
  data_at (files (sample_journal cs)) (journal_path (sample_journal cs)) = journal_bytes sample_crc cs.
Proof. unfold data_at. cbn [files journal_path sample_journal]. by rewrite lookup_singleton_eq. Qed.
Lemma sample_recorded cs : recorded "/j" (sample_journal cs) = journal_bytes sample_crc cs.
Proof. apply sample_data. Qed.
Lemma sample_admitted bs : Forall admitted (map numbered bs).
Proof. apply Forall_map, Forall_true. apply numbered_admitted. Qed.

(** A journal of two operations, one of them twice. *)
Definition two_operations : list critical_command := [first_command; second_command; first_command].

Lemma two_operations_sound : sound_journal two_operations.
Proof.
  split; [apply (sample_admitted [Byte.x01; Byte.x02; Byte.x01])|]. split; [|by apply scannable_short].
  intros c d C D. unfold two_operations in *.
  repeat (apply elem_of_cons in C as [->|C]); [..|by apply elem_of_nil in C];
    repeat (apply elem_of_cons in D as [->|D]); try (by apply elem_of_nil in D); done.
Qed.

Lemma two_operations_serves : scan_serves good_scan (sample_journal two_operations).
Proof. split_and!; [by vm_compute..|done]. Qed.

Lemma command_journal_scan_exact_witness :
  ∃ j', scan sample_crc good_scan (sample_journal two_operations)
        = (journal_ok, [frame_of sample_crc first_command; frame_of sample_crc second_command], j').
Proof.
  apply (command_journal_scan_exact sample_crc sample_crc_range); [apply two_operations_serves|by vm_compute|].
  exists two_operations. split; [apply sample_data|]. split; [apply two_operations_sound|].
  by vm_compute.
Defined.

(** A stopped journal over an empty directory, and a history with an append of unknown
    outcome and a restart. *)
Definition stopped : journal := Journal "" "" 0 no_health ∅.
Definition sample_history : list request := [
  restart_request good_init (6, 6) 100000;
  append_request good_append first_command;
  append_request unsure_append second_command;
  append_request good_append third_command;
  sync_request good_sync (7, 7);
  append_request good_append third_command;
  checkpoint_request good_scan good_rewrite (8, 8) (operation_id first_command);
  restart_request good_init (9, 9) 100000 ].
Definition sample_ledger : ledger :=
  foldl (serve sample_crc "/j") (Ledger stopped [] []) sample_history.

Lemma sample_opening : opening sample_crc "/j" stopped [] (Ledger stopped [] []).
Proof. split_and!; [done..|by constructor|done]. Qed.
Lemma sample_history_typed : Forall request_typed sample_history.
Proof. repeat (apply Forall_cons_2; [try exact I; apply numbered_typed|]). by apply Forall_nil. Qed.

(** What the history comes to. *)
Definition sample_end : Prop :=
  h_initialized (health (ledger_journal sample_ledger)) = true
  ∧ h_append_uncertain (health (ledger_journal sample_ledger)) = false
  ∧ owed sample_ledger = [third_command]
  ∧ tried sample_ledger = [first_command; second_command; third_command; third_command].
Lemma sample_ends : sample_end.
Proof. by vm_compute. Qed.

Lemma command_journal_keeps_accepted_witness :
  ∃ ds, recorded "/j" (ledger_journal sample_ledger) = journal_bytes sample_crc ds ∧ third_command ∈ ds.
Proof.
  destruct (command_journal_keeps_accepted sample_crc "/j" stopped [] (Ledger stopped [] []) sample_history
    sample_opening sample_history_typed) as (ds & torn & B & O & _ & T).
  fold sample_ledger in B, O, T. destruct sample_ends as (I & U & Ow & _).
  rewrite (T I U), app_nil_r in B. exists ds. split; [exact B|]. apply O. rewrite Ow. by left.
Defined.

(** A callback that counts. *)
Definition counting (c : critical_command) (s : nat * journal) : bool * (nat * journal) :=
  (true, (S s.1, s.2)).

Lemma sample_consistent : consistent (tried sample_ledger).
Proof.
  destruct sample_ends as (_ & _ & _ & ->). intros c d C D.
  repeat (apply elem_of_cons in C as [->|C]); [..|by apply elem_of_nil in C];
    repeat (apply elem_of_cons in D as [->|D]); try (by apply elem_of_nil in D); done.
Qed.

Lemma sample_serves : scan_serves good_scan (ledger_journal sample_ledger).
Proof. split_and!; [by vm_compute..|done]. Qed.

Lemma command_journal_replays_accepted_witness :
  ∃ called w' j', critical_command_journal_replay sample_crc (logged counting) good_scan
                    ((O, []), ledger_journal sample_ledger) = (journal_ok, ((w', called), j'))
    ∧ third_command ∈ called.
Proof.
  destruct sample_ends as (I & U & Ow & _).
  destruct (command_journal_replays_accepted sample_crc sample_crc_range counting "/j" stopped []
    (Ledger stopped [] []) sample_history good_scan O sample_opening sample_history_typed
    sample_consistent I U sample_serves) as (result & called & w' & j' & E & _ & _ & K).
  fold sample_ledger in E, K. destruct K as [[-> K]|(_ & front & c & t & _ & R)].
  - exists called, w', j'. split; [exact E|]. apply K. rewrite Ow. by left.
  - discriminate R.
Defined.

Lemma command_journal_checkpoint_exact_witness :
  ∃ j', critical_command_journal_checkpoint sample_crc good_scan good_rewrite (8, 8)
          (operation_id first_command) (sample_journal two_operations) = (journal_ok, j')
    ∧ recorded "/j" j' = journal_bytes sample_crc [second_command].
Proof.
  assert ((critical_command_journal_checkpoint sample_crc good_scan good_rewrite (8, 8)
          (operation_id first_command) (sample_journal two_operations)).1 = journal_ok) as R by by vm_compute.
  destruct (critical_command_journal_checkpoint sample_crc good_scan good_rewrite (8, 8)
          (operation_id first_command) (sample_journal two_operations)) as [result j'] eqn:E.
  cbn [fst] in R. subst result. exists j'. split; [exact eq_refl|].
  pose proof (command_journal_checkpoint_exact sample_crc "/j" good_scan good_rewrite (8, 8)
    (operation_id first_command) (sample_journal two_operations) two_operations journal_ok j'
    (sample_running two_operations) (sample_recorded two_operations)
    (proj1 two_operations_sound) E) as (_ & [D|[N _]] & _); [|contradiction].
  clear E. etransitivity; [exact D|]. by vm_compute.
Defined.

Lemma command_journal_uncertain_settles_witness :
  ∃ j' j2, critical_command_journal_append sample_crc unsure_append second_command
             (sample_journal [first_command]) = (append_uncertain, j')
    ∧ critical_command_journal_sync sample_crc good_sync (7, 7) j' = (journal_ok, j2)
    ∧ (recorded "/j" j2 = journal_bytes sample_crc [first_command]
       ∨ recorded "/j" j2 = journal_bytes sample_crc [first_command; second_command]).
Proof.
  assert (let o := critical_command_journal_append sample_crc unsure_append second_command
             (sample_journal [first_command]) in
          o.1 = append_uncertain ∧ (critical_command_journal_sync sample_crc good_sync (7, 7) o.2).1 = journal_ok)
    as R by by vm_compute.
  destruct (critical_command_journal_append sample_crc unsure_append second_command
             (sample_journal [first_command])) as [result j'] eqn:E. cbn [fst snd] in R.
  destruct (critical_command_journal_sync sample_crc good_sync (7, 7) j') as [result2 j2] eqn:E2.
  cbn [fst] in R. destruct R as [-> ->]. exists j', j2. split; [exact eq_refl|]. split; [exact E2|].
  apply (command_journal_uncertain_settles sample_crc "/j" unsure_append second_command
    (sample_journal [first_command]) [first_command] j') with (r2 := good_sync) (now := (7, 7)).
  - apply sample_running.
  - apply sample_recorded.
  - apply (sample_admitted [Byte.x01]).
  - exact eq_refl.
  - apply numbered_typed.
  - exact E.
  - exact E2.
Defined.
