(* ===== verification/LoadTopology.v ===== *)
(** * Item topology on load

    Models [player/player_load_topology.c]: the repair of a loaded character's
    containers.  The custody rows decide each item's parent; rows whose parent is
    missing are promoted to the top level, and the parents must form a forest of depth
    at most 32 whose roots agree with the recorded roots.

    The walk follows the source's path stack; [visit_state], [depth] and [promoted] are lists.
    The climb takes fuel.  Of the results that are an option of an option the outer [None] is a
    loop that did not end, and the inner one is [false], after which the callers discard the
    vectors; elsewhere [None] is [false]. *)

From S2P Require Import Prelude Snapshot.

Definition PLAYER_LOAD_ITEM_MAX : Z := 4096.

Record player_load_item_identity := ItemIdentity {
  database_id : Z;
  serialized_parent_id : Z;
  quantity : Z;
  override_mask : Z;
  item_uid : Z;
  root_item_uid : Z;
  parent_item_uid : Z;
  owner : Z * Z * Z;
  item_revision : Z;
  owner_revision : Z;
  custody_state : Z;
}.

Definition with_place (parent slot : Z) (i : player_item_snapshot) : player_item_snapshot :=
  ItemSnapshot parent slot (object_uid i) (generated_key i) (vnum i) (item_type i)
    (string_mask i) (item_name i) (short_description i) (description i)
    (action_description i) (values i) (timers i) (wear_flags i) (extra_flags i)
    (anti_flags i) (anti2_flags i) (extra2_flags i) (weight i) (material i) (cost i)
    (condition i) (craftsmanship i) (bitvectors i) (affects i) (dynamic_affects i)
    (extra_descriptions i).
Definition with_parents (serialized parent root : Z) (d : player_load_item_identity)
  : player_load_item_identity :=
  ItemIdentity (database_id d) serialized (quantity d) (override_mask d) (item_uid d) root parent
    (owner d) (item_revision d) (owner_revision d) (custody_state d).
Definition with_root (root : Z) (d : player_load_item_identity) : player_load_item_identity :=
  with_parents (serialized_parent_id d) (parent_item_uid d) root d.

(** ** The rows are distinct *)

Fixpoint index_rows (index : nat) (items : list player_item_snapshot)
    (identities : list player_load_item_identity) (databases : gset Z) (uids : gmap Z nat)
  : option (gmap Z nat) :=
  match items, identities with
  | item :: items, identity :: identities =>
      ensure? nz (database_id identity) && nz (item_uid identity)
              && (item_uid identity =? object_uid item)
              && negb (bool_decide (database_id identity ∈ databases))
              && negb (bool_decide (is_Some (uids !! item_uid identity))) in
      index_rows (S index) items identities ({[database_id identity]} ∪ databases)
        (<[item_uid identity := index]> uids)
  | _, _ => Some uids
  end.

(** ** Each row's parent *)

Record placed := Placed {
  p_item : player_item_snapshot;
  p_identity : player_load_item_identity;
  p_parent : option nat;
  p_promoted : bool;
  p_repaired : bool;
}.

Definition place_row (uids : gmap Z nat) (identities : list player_load_item_identity)
    (index : nat) (item : player_item_snapshot) (identity : player_load_item_identity)
  : option placed :=
  if negb (nz (parent_item_uid identity)) then
    Some (Placed (with_place PLAYER_SNAPSHOT_NO_PARENT (equipment_slot item) item)
            (with_parents 0 (parent_item_uid identity) (root_item_uid identity) identity) None
            false (nz (serialized_parent_id identity)))
  else match uids !! parent_item_uid identity with
  | None =>
      Some (Placed (with_place PLAYER_SNAPSHOT_NO_PARENT 0 item)
              (with_parents 0 0 (item_uid identity) identity) None true
              (nz (equipment_slot item)))
  | Some parent =>
      ensure? negb ((parent =? index)%nat || (INT32_MAX <? Z.of_nat parent)) in
      let resolved := from_option database_id 0 (identities !! parent) in
      Some (Placed (with_place (Z.of_nat parent) 0 item)
              (with_parents resolved (parent_item_uid identity) (root_item_uid identity) identity)
              (Some parent) false
              (negb (serialized_parent_id identity =? resolved) || nz (equipment_slot item)))
  end.

Fixpoint place_rows (uids : gmap Z nat) (all : list player_load_item_identity) (index : nat)
    (items : list player_item_snapshot) (identities : list player_load_item_identity)
  : option (list placed) :=
  match items, identities with
  | item :: items, identity :: identities =>
      let? p := place_row uids all index item identity in
      let? ps := place_rows uids all (S index) items identities in
      Some (p :: ps)
  | _, _ => Some []
  end.

(** ** The walk over the parents *)

Record walk := Walk {
  visit_state : list Z;
  depth : list nat;
  promoted : list bool;
  roots : list player_load_item_identity;
}.

(** The first inner loop: up to a visited item or past a root; the path's last item first. *)
Fixpoint climb (fuel : nat) (parents : list (option nat)) (current : option nat)
    (path : list nat) (visit : list Z) : option (option nat * list nat * list Z) :=
  match current with
  | None => Some (None, path, visit)
  | Some node =>
      if bool_decide (visit !! node = Some 0) then
        match fuel with
        | O => None
        | S fuel => climb fuel parents (mjoin (parents !! node)) (node :: path) (<[node := 1]> visit)
        end
      else Some (current, path, visit)
  end.

(** One turn of the second inner loop. *)
Definition settle (parents : list (option nat)) (node : nat) (w : walk) : option walk :=
  let parent := mjoin (parents !! node) in
  let d := match parent with None => 1%nat | Some p => S (default 0%nat (depth w !! p)) end in
  ensure? (d <=? PLAYER_SNAPSHOT_MAX_DEPTH)%nat in
  let mark flags ids := Walk (<[node := 2]> (visit_state w)) (<[node := d]> (depth w)) flags ids in
  let root i := from_option root_item_uid 0 (roots w !! i) in
  match parent with
  | None =>
      ensure? root node =? from_option item_uid 0 (roots w !! node) in
      Some (mark (promoted w) (roots w))
  | Some p =>
      if default false (promoted w !! p) then
        Some (mark (<[node := true]> (promoted w)) (alter (with_root (root p)) node (roots w)))
      else
        ensure? root node =? root p in
        Some (mark (promoted w) (roots w))
  end.

Fixpoint settle_all (parents : list (option nat)) (path : list nat) (w : walk) : option walk :=
  match path with
  | [] => Some w
  | node :: path => let? w := settle parents node w in settle_all parents path w
  end.

(** One turn of the outer loop. *)
Definition visit_from (parents : list (option nat)) (start : nat) (w : walk)
  : option (option walk) :=
  if bool_decide (visit_state w !! start = Some 2) then Some (Some w)
  else
    let? r := climb (length parents) parents (Some start) [] (visit_state w) in
    let '(current, path, visit) := r in
    Some (ensure? negb (from_option (λ c, bool_decide (visit !! c = Some 1)) false current) in
          settle_all parents path (Walk visit (depth w) (promoted w) (roots w))).

Fixpoint visit_all (parents : list (option nat)) (starts : list nat) (w : walk)
  : option (option walk) :=
  match starts with
  | [] => Some (Some w)
  | start :: starts =>
      let? o := visit_from parents start w in
      match o with None => Some None | Some w => visit_all parents starts w end
  end.

Record reconciled := Reconciled {
  r_items : list player_item_snapshot;
  r_identities : list player_load_item_identity;
  promoted_item_rows : Z;
  repaired_item_rows : Z;
}.

Definition count_rows (f : placed → bool) (ps : list placed) : Z :=
  Z.of_nat (length (filter (λ p, f p = true) ps)).

(** What the two loops over the rows make of them. *)
Definition place_all (items : list player_item_snapshot) (identities : list player_load_item_identity)
  : option (list placed) :=
  ensure? (length items =? length identities)%nat && (vsize items <=? PLAYER_LOAD_ITEM_MAX) in
  let? uids := index_rows 0 items identities ∅ ∅ in
  place_rows uids identities 0 items identities.

Definition player_load_reconcile_item_topology (items : list player_item_snapshot)
    (identities : list player_load_item_identity) (promoted_rows repaired_rows : Z)
  : option (option reconciled) :=
  match place_all items identities with
  | None => Some None
  | Some ps =>
      let count := length items in
      let? o := visit_all (p_parent <$> ps) (seq 0 count)
                  (Walk (replicate count 0) (replicate count 0%nat) (p_promoted <$> ps)
                     (p_identity <$> ps)) in
      Some (let? w := o in
            Some (Reconciled (p_item <$> ps) (roots w)
                    (promoted_rows + count_rows p_promoted ps) (repaired_rows + count_rows p_repaired ps)))
  end.

(** ** The forest the walk checks *)

#[local] Opaque PLAYER_SNAPSHOT_MAX_DEPTH.

Lemma list_alter_as_insert {A} (f : A → A) (l : list A) i x :
  l !! i = Some x → alter f i l = <[i := f x]> l.
Proof.
  revert i. induction l as [|y l IH]; intros [|i] H; simpl in *; try done; [congruence|].
  f_equal. by apply IH.
Qed.

Section Forest.

Context (parents : list (option nat)) (flags : list bool) (ids : list player_load_item_identity).
Context (len_flags : length flags = length parents) (len_ids : length ids = length parents).
Context (parents_in : ∀ i p, parents !! i = Some (Some p) → (p < length parents)%nat).
(** Only rows without a parent are promoted. *)
Context (promoted_root : ∀ i, flags !! i = Some true → parents !! i = Some None).

Definition parent_of (i : nat) : option nat := mjoin (parents !! i).

(** [rooted i d r]: from [i], the chain of parents has [d] items and ends at [r]. *)
Inductive rooted : nat → nat → nat → Prop :=
| rooted_root i : parents !! i = Some None → rooted i 1 i
| rooted_child i p d r : parents !! i = Some (Some p) → rooted p d r → rooted i (S d) r.

Lemma rooted_unique i d r d' r' : rooted i d r → rooted i d' r' → d = d' ∧ r = r'.
Proof.
  intros H. revert d' r'. induction H as [i P|i p d r P H IH]; intros d' r' H'; inversion H'; subst;
    simplify_eq; [done|]. by edestruct IH as [-> ->].
Qed.

Definition identity_at (l : list player_load_item_identity) (i : nat) : player_load_item_identity :=
  default (ItemIdentity 0 0 0 0 0 0 0 (0, 0, 0) 0 0 0) (l !! i).
Definition flag_at (i : nat) : bool := default false (flags !! i).

(** What the walk demands of an item: a chain within the depth, whose root is its own root, and
    the root's identity on every item not below a promoted row. *)
Record good (i d r : nat) : Prop := {
  good_rooted : rooted i d r;
  good_depth : (d <= PLAYER_SNAPSHOT_MAX_DEPTH)%nat;
  good_root : root_item_uid (identity_at ids r) = item_uid (identity_at ids r);
  good_same : flag_at r = true ∨ root_item_uid (identity_at ids i) = item_uid (identity_at ids r);
}.

Definition all_good : Prop := ∀ i, (i < length parents)%nat → ∃ d r, good i d r.

(** The parent of a good item is good where the roots of the whole list are. *)
Record settled (w : walk) (i : nat) : Prop := {
  settled_good : ∃ d r, good i d r ∧ depth w !! i = Some d ∧ promoted w !! i = Some (flag_at r)
    ∧ roots w !! i = Some (with_root (item_uid (identity_at ids r)) (identity_at ids i));
}.

Record walk_inv (w : walk) : Prop := {
  len_visit : length (visit_state w) = length parents;
  len_depth : length (depth w) = length parents;
  len_promoted : length (promoted w) = length parents;
  len_roots : length (roots w) = length parents;
  inv_settled : ∀ i, visit_state w !! i = Some 2 → settled w i;
  inv_fresh : ∀ i, visit_state w !! i ≠ Some 2 →
    promoted w !! i = flags !! i ∧ roots w !! i = ids !! i;
}.

Lemma root_identity_same d : with_root (root_item_uid d) d = d.
Proof. by destruct d. Qed.

Lemma lookup_identity i : (i < length parents)%nat → ids !! i = Some (identity_at ids i).
Proof.
  intros L. unfold identity_at. destruct (ids !! i) eqn:X; [done|].
  apply lookup_ge_None in X. lia.
Qed.
Lemma lookup_flag i : (i < length parents)%nat → flags !! i = Some (flag_at i).
Proof.
  intros L. unfold flag_at. destruct (flags !! i) eqn:X; [done|]. apply lookup_ge_None in X. lia.
Qed.

(** Settling one item whose parent, if any, is settled. *)
Lemma settle_inv w node d r ids' :
  walk_inv w → visit_state w !! node = Some 1 → good node d r →
  ids' = with_root (item_uid (identity_at ids r)) (identity_at ids node) →
  ∀ flags' roots', flags' = <[node := flag_at r]> (promoted w) →
  roots' = <[node := ids']> (roots w) →
  walk_inv (Walk (<[node := 2]> (visit_state w)) (<[node := d]> (depth w)) flags' roots').
Proof.
  intros [] V G -> flags' roots' -> ->.
  assert (node < length parents)%nat as L by (apply lookup_lt_Some in V; lia).
  constructor; simpl; rewrite ?length_insert; try done.
  - intros i. rewrite list_lookup_insert. case_decide as K.
    + intros _. destruct K as [<- _]. constructor. exists d, r. simpl.
      rewrite !list_lookup_insert_eq by lia. done.
    + intros Vi. assert (node ≠ i) as N by (intros ->; apply K; split; [done|lia]).
      destruct (inv_settled0 i Vi) as [(d' & r' & ?)]. constructor. exists d', r'. simpl.
      by rewrite !list_lookup_insert_ne.
  - intros i. rewrite list_lookup_insert. case_decide as K; [done|]. intros Vi.
    assert (node ≠ i) as N by (intros ->; apply K; split; [done|lia]).
    rewrite !list_lookup_insert_ne by done. auto.
Qed.

Lemma insert_same {A} (l : list A) i x : l !! i = Some x → <[i := x]> l = l.
Proof. apply list_insert_id. Qed.

Lemma settle_spec w node :
  walk_inv w → visit_state w !! node = Some 1 →
  (∀ p, parent_of node = Some p → visit_state w !! p = Some 2) →
  (∀ w', settle parents node w = Some w' →
     walk_inv w' ∧ visit_state w' = <[node := 2]> (visit_state w) ∧ ∃ d r, good node d r)
  ∧ ((∃ d r, good node d r) → is_Some (settle parents node w)).
Proof.
  intros I V P. assert (node < length parents)%nat as L
    by (apply lookup_lt_Some in V; rewrite (len_visit _ I) in V; done).
  destruct (inv_fresh _ I node) as [Fl Ro]; [by rewrite V|].
  rewrite lookup_identity in Ro by done. rewrite lookup_flag in Fl by done.
  unfold settle. fold (parent_of node). destruct (parent_of node) as [p|] eqn:Q.
  - assert (parents !! node = Some (Some p)) as PN.
    { unfold parent_of in Q. destruct (parents !! node) as [[?|]|] eqn:X; simpl in Q; by simplify_eq. }
    destruct (inv_settled _ I p (P p eq_refl)) as [(dp & r & G & Dp & Fp & Rp)].
    rewrite Dp, Fp, Rp, Ro. cbv zeta. cbn [from_option root_item_uid with_root with_parents id].
    assert (flag_at node = false) as FN.
    { destruct (flag_at node) eqn:X; [|done].
      assert (parents !! node = Some None); [|congruence].
      apply promoted_root. by rewrite lookup_flag, X. }
    assert (∀ d r', good node d r' → d = S dp ∧ r' = r) as Uniq.
    { intros d r' G'. assert (rooted node (S dp) r) as R' by (eapply rooted_child; [done|apply G]).
      eapply rooted_unique; [apply G'|done]. }
    destruct (S dp <=? PLAYER_SNAPSHOT_MAX_DEPTH)%nat eqn:Dd; cbv match.
    + apply Nat.leb_le in Dd. destruct (flag_at r) eqn:Fr.
      * assert (good node (S dp) r) as GN.
        { constructor; [eapply rooted_child; [done|apply G]|done|apply G|by left]. }
        split; [|intros _; by eexists]. intros w' [= <-]. simpl.
        split_and!; [|done|by exists (S dp), r].
        eapply (settle_inv _ _ _ _ _ I V GN eq_refl).
        -- by rewrite Fr.
        -- rewrite (list_alter_as_insert _ _ _ _ Ro). by rewrite ?(good_root _ _ _ G).
      * split.
        -- intros w' H. destruct (root_item_uid (identity_at ids node) =? _) eqn:E0; [|done].
           apply Z.eqb_eq in E0. injection H as <-. simpl.
           assert (good node (S dp) r) as GN.
           { constructor; [eapply rooted_child; [done|apply G]|done|apply G|by right]. }
           split_and!; [|done|by exists (S dp), r].
           eapply (settle_inv _ _ _ _ _ I V GN eq_refl).
           ++ rewrite insert_same; [done|]. by rewrite Fl, FN, Fr.
           ++ rewrite insert_same; [done|]. by rewrite Ro, <- E0, root_identity_same.
        -- intros (d & r' & GN). destruct (Uniq _ _ GN) as [-> ->].
           destruct (good_same _ _ _ GN) as [?|E0]; [congruence|]. by rewrite E0, Z.eqb_refl.
    + split; [done|]. intros (d & r' & GN). destruct (Uniq _ _ GN) as [-> ->].
      apply Nat.leb_gt in Dd. pose proof (good_depth _ _ _ GN). lia.
  - assert (parents !! node = Some None) as PN.
    { unfold parent_of in Q. destruct (parents !! node) as [[?|]|] eqn:X; simpl in Q; try done.
      apply lookup_ge_None in X. lia. }
    rewrite Ro. simpl. split.
    + intros w' H. destruct (root_item_uid _ =? _) eqn:E0; [|done]. apply Z.eqb_eq in E0. injection H as <-.
      assert (good node 1 node) as GN.
      { constructor; [by constructor|apply Nat.leb_le; vm_compute; done|done|by right]. }
      split_and!; [|done|by exists 1%nat, node].
      eapply (settle_inv _ _ _ _ _ I V GN eq_refl).
      * by rewrite insert_same.
      * rewrite insert_same; [done|]. by rewrite Ro, <- E0, root_identity_same.
    + intros (d & r & GN). destruct (rooted_unique _ _ _ _ _ (good_rooted _ _ _ GN)
        (rooted_root node PN)) as [-> ->].
      by rewrite (good_root _ _ _ GN), Z.eqb_refl.
Qed.

(** ** The climb *)

(** [up cur new cur']: [new] is the chain of parents from [cur] to just before [cur'], the last
    item first. *)
Inductive up : option nat → list nat → option nat → Prop :=
| up_stop cur : up cur [] cur
| up_node node new cur' :
    up (parent_of node) new cur' → up (Some node) (new ++ [node]) cur'.

Definition unvisited (visit : list Z) : nat := length (filter (λ v, v = 0) visit).

Lemma unvisited_mark visit node : visit !! node = Some 0 →
  unvisited visit = S (unvisited (<[node := 1]> visit)).
Proof.
  unfold unvisited. revert node. induction visit as [|v visit IH]; intros [|node] H;
    simpl in H; try done; csimpl; rewrite !filter_cons.
  - simplify_eq. rewrite decide_True, decide_False by done. done.
  - destruct (decide (v = 0)); csimpl; by rewrite (IH node).
Qed.

Lemma climb_enough fuel current path visit :
  (unvisited visit <= fuel)%nat → is_Some (climb fuel parents current path visit).
Proof.
  revert current path visit. induction fuel as [|fuel IH]; intros current path visit F; simpl;
    (destruct current as [node|]; [|by eexists]); case_bool_decide as V; try by eexists.
  - rewrite (unvisited_mark _ _ V) in F. lia.
  - apply IH. rewrite (unvisited_mark _ _ V) in F. lia.
Qed.

(** What a climb adds to the path and the marks. *)
Definition climbed (current : option nat) (path : list nat) (visit : list Z)
    (cur' : option nat) (path' : list nat) (visit' : list Z) : Prop :=
  ∃ new, path' = new ++ path ∧ up current new cur' ∧ NoDup new
    ∧ (∀ i, i ∈ new → visit !! i = Some 0)
    ∧ (∀ i, visit' !! i = if bool_decide (i ∈ new) then Some 1 else visit !! i)
    ∧ length visit' = length visit
    ∧ (∀ c, cur' = Some c → visit' !! c ≠ Some 0).

Lemma climbed_stop cur path visit :
  (∀ c, cur = Some c → visit !! c ≠ Some 0) → climbed cur path visit cur path visit.
Proof.
  intros H. exists []. split_and!; try done;
    first [apply up_stop|apply NoDup_nil_2|set_solver
          |intros i; by rewrite bool_decide_eq_false_2 by set_solver].
Qed.

Lemma climb_spec fuel current path visit cur' path' visit' :
  climb fuel parents current path visit = Some (cur', path', visit') →
  climbed current path visit cur' path' visit'.
Proof.
  revert current path visit. induction fuel as [|fuel IH]; intros current path visit H; simpl in H;
    (destruct current as [node|]; [|simplify_eq; by apply climbed_stop]);
    case_bool_decide as V; simplify_eq; try (apply climbed_stop; congruence).
  apply IH in H as (new & -> & U & N & V0 & V1 & Len & Top).
  exists (new ++ [node]). rewrite <- app_assoc. rewrite length_insert in Len.
  assert (node ∉ new) as Nin.
  { intros X. apply V0 in X. rewrite list_lookup_insert_eq in X; [done|].
    by apply lookup_lt_Some in V. }
  split_and!; try done.
  + by constructor.
  + apply NoDup_app. split_and!; [done|set_solver|apply NoDup_singleton].
  + intros i I. apply elem_of_app in I as [I|I]; [|set_solver].
    specialize (V0 i I). rewrite list_lookup_insert_ne in V0; [done|]. by intros ->.
  + intros i. rewrite V1, list_lookup_insert. 
    destruct (decide (i = node)) as [->|Ne].
    * rewrite bool_decide_eq_false_2 by done. rewrite bool_decide_eq_true_2 by set_solver.
      rewrite decide_True; [done|]. split; [done|]. by apply lookup_lt_Some in V.
    * rewrite decide_False by naive_solver.
      destruct (bool_decide (i ∈ new)) eqn:B.
      -- apply bool_decide_eq_true_1 in B. by rewrite bool_decide_eq_true_2 by set_solver.
      -- apply bool_decide_eq_false_1 in B. rewrite bool_decide_eq_false_2; [done|].
         rewrite elem_of_app, list_elem_of_singleton. tauto.
Qed.

(** ** Settling a path *)

Lemma settle_all_app l l' w :
  settle_all parents (l ++ l') w
  = match settle_all parents l w with Some w => settle_all parents l' w | None => None end.
Proof.
  revert w. induction l as [|node l IH]; intros w; simpl; [done|].
  destruct (settle parents node w); [apply IH|done].
Qed.

Lemma up_start p new cur' : up (Some p) new cur' → p ∈ new ∨ (new = [] ∧ cur' = Some p).
Proof. inversion 1; subst; [by right|left; set_solver]. Qed.

Lemma settle_up cur new cur' w :
  up cur new cur' → NoDup new → walk_inv w → (∀ i, i ∈ new → visit_state w !! i = Some 1) →
  (∀ c, cur' = Some c → visit_state w !! c = Some 2) →
  (∀ w', settle_all parents new w = Some w' →
     walk_inv w' ∧ (∀ i, i ∈ new → ∃ d r, good i d r)
     ∧ (∀ i, visit_state w' !! i = if bool_decide (i ∈ new) then Some 2 else visit_state w !! i))
  ∧ ((∀ i, i ∈ new → ∃ d r, good i d r) → is_Some (settle_all parents new w)).
Proof.
  intros U. revert w. induction U as [cur|node new cur' U IH]; intros w N I V C.
  { cbn [settle_all]. split; [|by eexists]. intros w' [= <-]. split_and!; [done|set_solver|].
    intros i. by rewrite bool_decide_eq_false_2 by set_solver. }
  apply NoDup_app in N as (N1 & N2 & _).
  assert (node ∉ new) as Nin by (intros X; by apply (N2 node X); set_solver).
  destruct (IH w N1 I) as [S1 S2]; [set_solver|done|].
  rewrite settle_all_app. destruct (settle_all parents new w) as [w1|] eqn:Q1.
  - destruct (S1 w1 eq_refl) as (I1 & G1 & V1).
    assert (visit_state w1 !! node = Some 1) as Vn.
    { rewrite V1, bool_decide_eq_false_2 by done. apply V. set_solver. }
    destruct (settle_spec w1 node I1 Vn) as [T1 T2].
    { intros p Hp. rewrite Hp in U. rewrite V1. destruct (up_start _ _ _ U) as [P|[-> ->]].
      - by rewrite bool_decide_eq_true_2.
      - rewrite bool_decide_eq_false_2 by set_solver. by apply C. }
    simpl. destruct (settle parents node w1) as [w2|] eqn:Q2.
    + destruct (T1 w2 eq_refl) as (I2 & V2 & G2). split; [|by eexists].
      intros w' [= <-]. split_and!; [done| |].
      * intros i [X|X]%elem_of_app; [auto|]. apply list_elem_of_singleton in X as ->. done.
      * intros i. rewrite V2, list_lookup_insert, V1.
        assert (node < length (visit_state w1))%nat as L by by apply lookup_lt_Some in Vn.
        destruct (decide (node = i)) as [->|Ne].
        -- rewrite decide_True by done. by rewrite bool_decide_eq_true_2 by set_solver.
        -- rewrite decide_False by naive_solver. 
           assert (i ∈ new ++ [node] ↔ i ∈ new) as Eq by set_solver.
           by rewrite (bool_decide_ext _ _ Eq).
    + split; [done|]. intros G. apply T2. apply G. set_solver.
  - split; [done|]. intros G. apply S2. intros i X. apply G. set_solver.
Qed.

(** A chain of rooted items does not come back to itself. *)
Lemma up_acyclic s new c :
  up (Some s) new (Some c) → (∀ i, i ∈ new → ∃ d r, rooted i d r) → c ∉ new.
Proof.
  intros U G.
  assert (∀ cur new cur', up cur new cur' → (∀ i, i ∈ new → ∃ d r, rooted i d r) →
    ∀ c, cur' = Some c → ∀ i d r, i ∈ new → rooted i d r → ∃ dc rc, rooted c dc rc ∧ (dc < d)%nat) as K.
  { clear s new c U G. intros cur new cur' U. induction U as [cur|node new cur' U IH]; intros G c -> i d r I R;
      [set_solver|].
    apply elem_of_app in I as [I|I]; [eapply IH; try done; intros; apply G; set_solver|].
    apply list_elem_of_singleton in I as ->. unfold parent_of in U.
    inversion R as [? P|? p d' ? P R']; subst; rewrite P in U; simpl in U; [inversion U|].
    destruct (up_start _ _ _ U) as [X|[-> Heq]].
    - destruct (IH (λ i Hi, G i (proj2 (elem_of_app _ _ _) (or_introl Hi))) c eq_refl p d' r X R')
        as (dc & rc & Rc & L). exists dc, rc. split; [done|lia].
    - simplify_eq. exists d', r. split; [done|lia]. }
  intros X. destruct (G c X) as (d & r & R).
  destruct (K _ _ _ U G c eq_refl c d r X R) as (dc & rc & Rc & L).
  destruct (rooted_unique _ _ _ _ _ R Rc). lia.
Qed.

(** ** The outer loop *)

Lemma up_in_range cur new cur' : up cur new cur' →
  (∀ p, cur = Some p → (p < length parents)%nat) → ∀ c, cur' = Some c → (c < length parents)%nat.
Proof.
  induction 1 as [cur|node new cur' U IH]; intros In c Hc; [auto|].
  apply IH; [|done]. intros p Hp. apply (parents_in node). unfold parent_of in Hp.
  destruct (parents !! node) as [[q|]|]; simpl in Hp; by simplify_eq.
Qed.

(** Between turns nothing is half visited. *)
Definition between (w : walk) : Prop :=
  walk_inv w ∧ ∀ i, (i < length parents)%nat → visit_state w !! i = Some 0 ∨ visit_state w !! i = Some 2.

Lemma visit_from_spec start w :
  between w → (start < length parents)%nat →
  ∃ o, visit_from parents start w = Some o
    ∧ (∀ w', o = Some w' →
       between w' ∧ visit_state w' !! start = Some 2
       ∧ ∀ i, visit_state w !! i = Some 2 → visit_state w' !! i = Some 2)
    ∧ (all_good → is_Some o).
Proof.
  intros [I Bt] L. unfold visit_from. case_bool_decide as V.
  { eexists. split; [done|]. split; [intros w' [= <-]; done|by eexists]. }
  destruct (climb_enough (length parents) (Some start) [] (visit_state w)) as [[[cur path] visit] Q].
  { rewrite <- (len_visit _ I). apply length_filter. }
  rewrite Q. simpl. eexists. split; [done|].
  apply climb_spec in Q as (new & -> & U & N & V0 & V1 & Len & Top).
  rewrite app_nil_r.
  assert (walk_inv (Walk visit (depth w) (promoted w) (roots w))) as I1.
  { destruct I. constructor; simpl; try done; [lia| |]; intros i; rewrite V1.
    - case_bool_decide; [done|]. intros X. by destruct (inv_settled0 i X).
    - case_bool_decide as X; [|auto]. intros _. apply inv_fresh0. rewrite (V0 i X). done. }
  destruct (from_option (λ c, bool_decide (visit !! c = Some 1)) false cur) eqn:Cyc; simpl.
  - split; [done|]. intros G. exfalso. destruct cur as [c|]; [|done]. simpl in Cyc.
    apply bool_decide_eq_true_1 in Cyc. rewrite V1 in Cyc.
    assert (∀ i, i ∈ new → (i < length parents)%nat) as In.
    { intros i X. apply V0, lookup_lt_Some in X. by rewrite (len_visit _ I) in X. }
    case_bool_decide as X.
    + eapply (up_acyclic start new c); [done| |done].
      intros i Hi. destruct (G i (In i Hi)) as (d & r & Gd). exists d, r. apply Gd.
    + assert (c < length parents)%nat as Lc.
      { apply lookup_lt_Some in Cyc. by rewrite (len_visit _ I) in Cyc. }
      destruct (Bt c Lc); congruence.
  - destruct (settle_up (Some start) new cur (Walk visit (depth w) (promoted w) (roots w)) U N I1)
      as [S1 S2].
    { intros i X. simpl. rewrite V1. by rewrite bool_decide_eq_true_2. }
    { intros c ->. simpl in *. apply bool_decide_eq_false_1 in Cyc.
      assert (c < length parents)%nat as Lc
        by (eapply (up_in_range _ _ _ U); [intros ? [= <-]|]; done).
      specialize (Top c eq_refl). rewrite V1 in *. case_bool_decide; [done|].
      by destruct (Bt c Lc). }
    split.
    + intros w' H. destruct (S1 w' H) as (I' & G & V'). simpl in V'.
      assert (start ∈ new) as St.
      { destruct (up_start _ _ _ U) as [X|[-> ->]]; [done|]. exfalso.
        apply (Top start eq_refl). rewrite V1, bool_decide_eq_false_2 by set_solver.
        by destruct (Bt start L). }
      split_and!; [split; [done|]|by rewrite V', bool_decide_eq_true_2|].
      * intros i Li. rewrite V', V1. case_bool_decide; [by right|]. auto.
      * intros i X. rewrite V', V1. case_bool_decide as Hi; [done|done].
    + intros G. apply S2. intros i X. apply G. apply V0, lookup_lt_Some in X.
      by rewrite (len_visit _ I) in X.
Qed.

Lemma visit_all_spec starts w :
  between w → (∀ i, i ∈ starts → (i < length parents)%nat) →
  ∃ o, visit_all parents starts w = Some o
    ∧ (∀ w', o = Some w' →
       between w' ∧ ∀ i, i ∈ starts ∨ visit_state w !! i = Some 2 → visit_state w' !! i = Some 2)
    ∧ (all_good → is_Some o).
Proof.
  revert w. induction starts as [|start starts IH]; intros w Bt In; simpl.
  { eexists. split; [done|]. split; [|by eexists]. intros w' [= <-]. split; [done|]. intros i [X|X]; [set_solver|done]. }
  destruct (visit_from_spec start w Bt) as (o & -> & V1 & V2); [apply In; set_solver|]. simpl.
  destruct o as [w1|].
  - destruct (V1 w1 eq_refl) as (B1 & St & Mono).
    destruct (IH w1 B1) as (o & -> & A1 & A2); [intros; apply In; set_solver|].
    exists o. split; [done|]. split; [|done]. intros w' H. destruct (A1 w' H) as [B' M']. split; [done|].
    intros i [X|X]; apply M'; [|by auto].
    apply elem_of_cons in X as [->|X]; [by right|by left].
  - exists None. split; [done|]. split; [done|]. intros G. by apply V2 in G as [? ?].
Qed.

Definition initial_walk : walk :=
  Walk (replicate (length parents) 0) (replicate (length parents) 0%nat) flags ids.

Lemma initial_between : between initial_walk.
Proof.
  split.
  - constructor; simpl; rewrite ?length_replicate; try done.
    intros i X. apply lookup_replicate in X as [X _]. done.
  - intros i L. left. simpl. by apply lookup_replicate_2.
Qed.

(** The whole walk succeeds exactly on good forests, and gives every item its root. *)
Lemma walk_exact :
  ∃ o, visit_all parents (seq 0 (length parents)) initial_walk = Some o
    ∧ (∀ w, o = Some w →
       all_good ∧ length (roots w) = length parents
       ∧ ∀ i d r, (i < length parents)%nat → rooted i d r →
           roots w !! i = Some (with_root (item_uid (identity_at ids r)) (identity_at ids i)))
    ∧ (all_good → is_Some o).
Proof.
  destruct (visit_all_spec (seq 0 (length parents)) initial_walk initial_between) as (o & E & A1 & A2).
  { intros i X. apply elem_of_seq in X. lia. }
  exists o. split; [done|]. split; [|done]. intros w H. destruct (A1 w H) as [[I _] V].
  assert (∀ i, (i < length parents)%nat → settled w i) as St.
  { intros i L. apply (inv_settled _ I), V. left. apply elem_of_seq. lia. }
  split_and!.
  - intros i L. destruct (St i L) as [(d & r & G & _)]. by exists d, r.
  - apply I.
  - intros i d r L R. destruct (St i L) as [(d' & r' & G & _ & _ & Q)].
    destruct (rooted_unique _ _ _ _ _ R (good_rooted _ _ _ G)) as [-> ->]. done.
Qed.

End Forest.

(** ** The rows and their places *)

Lemma index_rows_spec k items identities databases uids m :
  index_rows k items identities databases uids = Some m →
  ∀ u i, m !! u = Some i →
    uids !! u = Some i
    ∨ ((k <= i)%nat ∧ ∃ d, identities !! (i - k)%nat = Some d ∧ item_uid d = u).
Proof.
  revert k items databases uids. induction identities as [|d identities IH];
    intros k [|it items] databases uids H u i U; simpl in H; try (by simplify_eq; left).
  destruct (_ && _); [|done]. destruct (IH _ _ _ _ H u i U) as [X|(K & d' & X & Y)].
  - rewrite lookup_insert in X. case_decide; [|by left].
    simplify_eq. right. split; [lia|]. exists d. by rewrite Nat.sub_diag.
  - right. split; [lia|]. exists d'. split; [|done].
    replace (i - k)%nat with (S (i - S k)) by lia. done.
Qed.

(** A row has identities and is of its item. *)
Definition named (item : player_item_snapshot) (d : player_load_item_identity) : Prop :=
  database_id d ≠ 0 ∧ item_uid d ≠ 0 ∧ item_uid d = object_uid item.

(** The loop succeeds on rows that are distinct, from each other and from those before, and
    indexes every one of them. *)
Lemma index_rows_exact k items identities databases uids :
  length items = length identities →
  match index_rows k items identities databases uids with
  | Some m => (∀ i d, identities !! i = Some d → m !! item_uid d = Some (k + i)%nat)
      ∧ (∀ u, u ∉ item_uid <$> identities → m !! u = uids !! u)
  | None => True
  end
  ∧ (is_Some (index_rows k items identities databases uids) ↔
     Forall2 named items identities
     ∧ NoDup (database_id <$> identities) ∧ NoDup (item_uid <$> identities)
     ∧ (∀ b, b ∈ database_id <$> identities → b ∉ databases)
     ∧ ∀ u, u ∈ item_uid <$> identities → uids !! u = None).
Proof.
  revert k items databases uids. induction identities as [|d identities IH]; intros k [|it items] databases uids L; try done.
  { split; [by split|]. split; [|by eexists]. intros _. split_and!; try constructor; set_solver. }
  cbn [index_rows]. injection L as L. rewrite !fmap_cons, !NoDup_cons.
  destruct (IH (S k) items ({[database_id d]} ∪ databases) (<[item_uid d := k]> uids) L) as [A B]. clear IH.
  destruct (nz (database_id d) && nz (item_uid d) && (item_uid d =? object_uid it)
    && negb (bool_decide (database_id d ∈ databases)) && negb (bool_decide (is_Some (uids !! item_uid d)))) eqn:C.
  2: { split; [done|]. split; [by intros []|]. intros (F & _ & _ & Db & Ud). exfalso.
       apply Forall2_cons_1 in F as [(N1 & N2 & N3) _]. unfold nz in C.
       rewrite (proj2 (Z.eqb_neq _ _) N1), (proj2 (Z.eqb_neq _ _) N2), (proj2 (Z.eqb_eq _ _) N3) in C. cbn in C.
       rewrite (bool_decide_eq_false_2 (_ ∈ databases)) in C by (apply Db; by left).
       rewrite (Ud (item_uid d) ltac:(by left)) in C. by rewrite bool_decide_eq_false_2 in C by by intros []. }
  rewrite !andb_true_iff, !negb_true_iff, !bool_decide_eq_false, Z.eqb_eq in C. destruct C as [[[[C1 C2] C3] C4] C5].
  unfold nz in C1, C2. rewrite negb_true_iff, Z.eqb_neq in C1, C2. apply eq_None_not_Some in C5. split.
  - destruct (index_rows (S k) items identities _ _) as [m|]; [|done]. destruct A as [A1 A2].
    destruct (proj1 B ltac:(by eexists)) as (_ & _ & _ & _ & Fr). split.
    + intros [|i] x E; cbn in E; [|rewrite Nat.add_succ_r; by apply (A1 i)].
      injection E as <-. rewrite Nat.add_0_r, A2, lookup_insert_eq; [done|].
      intros X. apply Fr in X. by rewrite lookup_insert_eq in X.
    + intros u N. apply not_elem_of_cons in N as [N1 N2]. rewrite A2, lookup_insert_ne by done. done.
  - rewrite B. split.
    + intros (F & D1 & D2 & Db & Ud). split_and!; try done.
      * by constructor.
      * intros X. apply Db in X. set_solver.
      * intros X. apply Ud in X. by rewrite lookup_insert_eq in X.
      * intros b X. apply elem_of_cons in X as [->|X]; [done|]. apply Db in X. set_solver.
      * intros u X. apply elem_of_cons in X as [->|X]; [done|]. apply Ud in X.
        destruct (decide (item_uid d = u)) as [E|]; [by rewrite E, lookup_insert_eq in X|by rewrite lookup_insert_ne in X].
    + intros (F & [D1 D2] & [D3 D4] & Db & Ud). apply Forall2_cons_1 in F as [_ F]. split_and!; try done.
      * intros b X. assert (b ∉ databases) by (apply Db; by right). assert (b ≠ database_id d) by (intros E; by rewrite E in X). set_solver.
      * intros u X. rewrite lookup_insert_ne by (intros E; by rewrite E in D3). apply Ud. by right.
Qed.

Lemma place_rows_spec uids all k items identities ps :
  length items = length identities → place_rows uids all k items identities = Some ps →
  length ps = length items
  ∧ ∀ i p, ps !! i = Some p → ∃ it d, items !! i = Some it ∧ identities !! i = Some d
      ∧ place_row uids all (k + i) it d = Some p.
Proof.
  revert k items ps. induction identities as [|d identities IH];
    intros k [|it items] ps L H; simpl in *; try done; [by simplify_eq|].
  destruct (place_row uids all k it d) as [p|] eqn:P; simpl in H; [|done].
  destruct (place_rows uids all (S k) items identities) as [ps'|] eqn:Q; simpl in H; [|done].
  simplify_eq. apply IH in Q as [Len Q]; [|congruence]. simpl. split; [by rewrite Len|].
  intros [|i] p' Hp; simpl in Hp.
  - simplify_eq. exists it, d. by rewrite Nat.add_0_r.
  - destruct (Q i p' Hp) as (it' & d' & ? & ? & R). exists it', d'.
    by rewrite <- Nat.add_succ_comm.
Qed.

(** What a placed row says, given what the index is. *)
Definition place_ok (identities : list player_load_item_identity) (i : nat) (p : placed) : Prop :=
  item_uid (p_identity p) = from_option item_uid 0 (identities !! i)
  ∧ database_id (p_identity p) = from_option database_id 0 (identities !! i)
  ∧ match p_parent p with
    | None => parent_index (p_item p) = PLAYER_SNAPSHOT_NO_PARENT
        ∧ parent_item_uid (p_identity p) = 0 ∧ serialized_parent_id (p_identity p) = 0
    | Some q => parent_index (p_item p) = Z.of_nat q ∧ equipment_slot (p_item p) = 0
        ∧ p_promoted p = false ∧ q ≠ i ∧ (q < length identities)%nat
        ∧ parent_item_uid (p_identity p) = from_option item_uid 0 (identities !! q)
        ∧ serialized_parent_id (p_identity p) = from_option database_id 0 (identities !! q)
    end.

Lemma place_row_ok items uids identities i it d p :
  index_rows 0 items identities ∅ ∅ = Some uids → identities !! i = Some d →
  place_row uids identities i it d = Some p → place_ok identities i p.
Proof.
  intros X D H. unfold place_row in H. unfold place_ok. rewrite D.
  destruct (nz (parent_item_uid d)) eqn:Z0; simpl in H.
  - destruct (uids !! parent_item_uid d) as [q|] eqn:Q; simpl in H.
    + destruct (_ || _) eqn:G; [done|]. simpl in H. simplify_eq. simpl. bool_prop.
      destruct (index_rows_spec _ _ _ _ _ _ X _ _ Q) as [Y|(_ & d' & Y & U)];
        [by rewrite lookup_empty in Y|]. rewrite Nat.sub_0_r in Y.
      apply lookup_lt_Some in Y as L. rewrite Y. by split_and!.
    + simplify_eq. done.
  - unfold nz in Z0. bool_prop. simplify_eq. done.
Qed.

Definition parents_of (r : reconciled) : list (option nat) :=
  (λ it, if parent_index it =? PLAYER_SNAPSHOT_NO_PARENT then None
         else Some (Z.to_nat (parent_index it))) <$> r_items r.

Lemma place_parent_index identities i p : place_ok identities i p →
  (if parent_index (p_item p) =? PLAYER_SNAPSHOT_NO_PARENT then None
   else Some (Z.to_nat (parent_index (p_item p)))) = p_parent p.
Proof.
  intros (_ & _ & P). destruct (p_parent p) as [q|].
  - destruct P as (-> & _). rewrite (proj2 (Z.eqb_neq _ _)); [by rewrite Nat2Z.id|].
    unfold PLAYER_SNAPSHOT_NO_PARENT. lia.
  - by destruct P as (-> & _).
Qed.

(** Everything the two row loops establish. *)
Record placed_all (identities : list player_load_item_identity) (ps : list placed) : Prop := {
  placed_length : length ps = length identities;
  placed_ok : ∀ i p, ps !! i = Some p → place_ok identities i p;
  placed_in : ∀ i p, (p_parent <$> ps) !! i = Some (Some p) → (p < length (p_parent <$> ps))%nat;
  placed_roots : ∀ i, (p_promoted <$> ps) !! i = Some true → (p_parent <$> ps) !! i = Some None;
}.

Lemma rows_placed items identities uids ps :
  length items = length identities →
  index_rows 0 items identities ∅ ∅ = Some uids →
  place_rows uids identities 0 items identities = Some ps → placed_all identities ps.
Proof.
  intros L X P. destruct (place_rows_spec _ _ _ _ _ _ L P) as [Len Q].
  assert (∀ i p, ps !! i = Some p → place_ok identities i p) as Ok'.
  { intros i p Hp. destruct (Q i p Hp) as (it & d & _ & D & R). by eapply place_row_ok. }
  constructor; [congruence|done| |]; intros i; rewrite ?list_lookup_fmap, ?length_fmap.
  - intros q Hq. destruct (ps !! i) as [p|] eqn:E0; simpl in Hq; [|done].
    destruct (Ok' i p E0) as (_ & _ & R). simplify_eq. rewrite Hq in R. rewrite Len, L. tauto.
  - destruct (ps !! i) as [p|] eqn:E0; simpl; [|done]. intros [= T].
    destruct (Ok' i p E0) as (_ & _ & R). destruct (p_parent p); [|done].
    destruct R as (_ & _ & F & _). congruence.
Qed.

Lemma place_all_placed items identities ps :
  place_all items identities = Some ps → length items = length identities ∧ placed_all identities ps.
Proof.
  unfold place_all. destruct (_ && _) eqn:G; [|done]. bool_prop.
  destruct (index_rows _ _ _ _ _) as [uids|] eqn:X; [|done]. intros P. split; [done|].
  eapply rows_placed; [|exact X|exact P]. done.
Qed.

(** ** Properties *)

(** C34: What a successful repair leaves: every item's chain of containers ends within 32 steps at
    a root, the recorded root of every item is that root's identity, a nested item is equipped
    nowhere and names exactly its container's identity and database row, and a top-level item
    names none. *)
Theorem topology_sound items identities promoted_rows repaired_rows r :
  player_load_reconcile_item_topology items identities promoted_rows repaired_rows = Some (Some r) →
  length (r_items r) = length items ∧ length (r_identities r) = length items ∧
  ∀ i item id, r_items r !! i = Some item → r_identities r !! i = Some id →
    (∃ d root rid, rooted (parents_of r) i d root ∧ (d <= PLAYER_SNAPSHOT_MAX_DEPTH)%nat
       ∧ r_identities r !! root = Some rid ∧ root_item_uid id = item_uid rid)
    ∧ (parent_index item = PLAYER_SNAPSHOT_NO_PARENT ∧ parent_item_uid id = 0
         ∧ serialized_parent_id id = 0
       ∨ ∃ p pid, parent_index item = Z.of_nat p ∧ p ≠ i ∧ r_identities r !! p = Some pid
         ∧ parent_item_uid id = item_uid pid ∧ serialized_parent_id id = database_id pid
         ∧ equipment_slot item = 0).
Proof.
  intros H. unfold player_load_reconcile_item_topology in H.
  destruct (place_all items identities) as [ps|] eqn:P; [|done].
  destruct (visit_all _ _ _) as [[w|]|] eqn:V; simpl in H; try done. injection H as <-.
  destruct (place_all_placed _ _ _ P) as (Li & A).
  pose proof (placed_length _ _ A) as Len.
  set (parents := p_parent <$> ps) in *. set (flags := p_promoted <$> ps) in *.
  set (ids := p_identity <$> ps) in *.
  assert (length items = length parents) as Lp by (unfold parents; rewrite length_fmap; congruence).
  destruct (walk_exact parents flags ids) as (o & V' & W & _);
    [unfold flags, parents; by rewrite !length_fmap|unfold ids, parents; by rewrite !length_fmap
    |apply A|apply A|].
  rewrite Lp in V. unfold initial_walk in V'. rewrite V in V'. injection V' as <-. destruct (W w eq_refl) as (Good & Lr & Roots). clear W.
  assert (parents_of (Reconciled (p_item <$> ps) (roots w)
    (promoted_rows + count_rows p_promoted ps) (repaired_rows + count_rows p_repaired ps)) = parents)
    as PO.
  { unfold parents_of, parents. simpl. rewrite <- list_fmap_compose. apply list_fmap_ext.
    intros i p Hp. simpl. eapply place_parent_index. by apply (placed_ok _ _ A i). }
  rewrite PO. simpl. split_and!; [rewrite length_fmap; congruence|congruence|].
  assert (∀ i, (i < length parents)%nat → ∃ p, ps !! i = Some p
    ∧ identity_at ids i = p_identity p ∧ place_ok identities i p) as At.
  { intros i L. destruct (ps !! i) as [p|] eqn:E0.
    - exists p. split; [done|]. split; [|by apply (placed_ok _ _ A)].
      unfold identity_at, ids. by rewrite list_lookup_fmap, E0.
    - apply lookup_ge_None in E0. unfold parents in L. rewrite length_fmap in L. lia. }
  assert (∀ i, (i < length parents)%nat → ∃ root, roots w !! i
    = Some (with_root root (identity_at ids i))) as Any.
  { intros i L. destruct (Good i L) as (d & r & Gd). eexists.
    apply (Roots i d r L). apply Gd. }
  intros i item id Hi Hd. rewrite list_lookup_fmap in Hi.
  assert (i < length parents)%nat as L by (apply lookup_lt_Some in Hd; lia).
  destruct (At i L) as (p & E0 & Id & Ok'). rewrite E0 in Hi. simpl in Hi. simplify_eq Hi. intros <-.
  destruct (Good i L) as (d & r & Gd). pose proof (good_rooted _ _ _ _ _ _ Gd) as R.
  rewrite (Roots i d r L R), Id in Hd. simplify_eq Hd. intros <-.
  assert (∀ j dj rj, rooted parents j dj rj → (rj < length parents)%nat) as InR.
  { clear. intros j dj rj R. induction R as [j P|]; [|done]. by apply lookup_lt_Some in P. }
  split.
  - destruct (Any r (InR _ _ _ R)) as [root Hr].
    exists d, r, (with_root root (identity_at ids r)).
    split_and!; [exact R|apply Gd|exact Hr|done].
  - destruct Ok' as (_ & _ & K). destruct (p_parent p) as [q|]; [right|by left].
    destruct K as (K1 & K2 & _ & K3 & K4 & K5 & K6).
    assert (q < length parents)%nat as Lq by lia.
    destruct (Any q Lq) as [root Hq]. destruct (At q Lq) as (pq & Eq & Iq & (U1 & U2 & _)).
    exists q, (with_root root (identity_at ids q)). rewrite Iq. simpl.
    rewrite U1, U2. rewrite Iq in Hq. by split_and!.
Qed.

(** ** What is accepted *)

Section Acceptable.
Context (items : list player_item_snapshot) (identities : list player_load_item_identity).

(** [lies i n r]: the row [i] lies in a chain of [n] rows that ends with [r], of which each names
    the next as its container, and the last none or one that is not there. *)
Inductive lies : nat → nat → nat → Prop :=
| lies_top i d : identities !! i = Some d →
    parent_item_uid d = 0 ∨ parent_item_uid d ∉ item_uid <$> identities → lies i 1 i
| lies_in i d p dp n r : identities !! i = Some d → parent_item_uid d ≠ 0 →
    identities !! p = Some dp → item_uid dp = parent_item_uid d → lies p n r → lies i (S n) r.

(** The rows are distinct and of their items; every one lies in a chain of at most 32, and,
    unless the chain ends where a container is gone, is recorded under its last row. *)
Record acceptable : Prop := {
  acc_length : length items = length identities;
  acc_size : vsize items <= PLAYER_LOAD_ITEM_MAX;
  acc_named : Forall2 named items identities;
  acc_rows : NoDup (database_id <$> identities);
  acc_uids : NoDup (item_uid <$> identities);
  acc_lies i d : identities !! i = Some d → ∃ n r dr, lies i n r ∧ (n <= PLAYER_SNAPSHOT_MAX_DEPTH)%nat
    ∧ identities !! r = Some dr
    ∧ (parent_item_uid dr ≠ 0 ∧ parent_item_uid dr ∉ item_uid <$> identities
       ∨ root_item_uid dr = item_uid dr ∧ root_item_uid d = item_uid dr);
}.

Lemma uid_unique i j d e : NoDup (item_uid <$> identities) →
  identities !! i = Some d → identities !! j = Some e → item_uid d = item_uid e → i = j.
Proof.
  intros Nd Ed Ee E. apply (NoDup_lookup _ i j (item_uid d) Nd); rewrite list_lookup_fmap, ?Ed, ?Ee; cbn; congruence.
Qed.

(** A row in a chain does not lie in itself. *)
Lemma lies_outside i n r d : NoDup (item_uid <$> identities) → lies i n r → identities !! i = Some d →
  parent_item_uid d ≠ item_uid d ∨ parent_item_uid d = 0.
Proof.
  intros Nd L. revert d. induction L as [i d Ed T|i d q dq n r Ed P0 Eq U L IH]; intros d' E'; simplify_eq.
  - destruct T as [T|T]; [by right|left]. intros E. apply T. rewrite E. apply list_elem_of_lookup.
    exists i. by rewrite list_lookup_fmap, Ed.
  - left. intros E. assert (q = i) as -> by (eapply uid_unique; [done..|congruence]). simplify_eq.
    destruct (IH d Ed); congruence.
Qed.

Section Placed.
Context (uids : gmap Z nat) (X : index_rows 0 items identities ∅ ∅ = Some uids).
Context (L : length items = length identities).

Lemma uids_exact u q : uids !! u = Some q ↔ ∃ d, identities !! q = Some d ∧ item_uid d = u.
Proof.
  split.
  - intros E. destruct (index_rows_spec _ _ _ _ _ _ X _ _ E) as [Y|(_ & d & Y & U)]; [by rewrite lookup_empty in Y|].
    rewrite Nat.sub_0_r in Y. by exists d.
  - intros (d & E & <-). destruct (index_rows_exact 0 items identities ∅ ∅ L) as [A _]. rewrite X in A.
    destruct A as [A _]. by apply A.
Qed.

Lemma uids_none u : uids !! u = None ↔ u ∉ item_uid <$> identities.
Proof.
  rewrite list_elem_of_fmap, eq_None_not_Some. split; intros N Y; apply N.
  - destruct Y as (d & -> & I). apply list_elem_of_lookup in I as [q E]. exists q. apply uids_exact. by exists d.
  - destruct Y as [q Y]. apply uids_exact in Y as (d & E & <-). exists d. split; [done|]. by apply list_elem_of_lookup_2 in E.
Qed.

(** What becomes of a row, by what it says. *)
Record placed_as (i : nat) (d : player_load_item_identity) (p : placed) : Prop := {
  pa_parent q : p_parent p = Some q ↔ parent_item_uid d ≠ 0 ∧ ∃ dq, identities !! q = Some dq ∧ item_uid dq = parent_item_uid d;
  pa_promoted : p_promoted p = true ↔ parent_item_uid d ≠ 0 ∧ parent_item_uid d ∉ item_uid <$> identities;
  pa_uid : item_uid (p_identity p) = item_uid d;
  pa_root : root_item_uid (p_identity p) = if p_promoted p then item_uid d else root_item_uid d;
}.

Lemma place_row_as i it d p : place_row uids identities i it d = Some p → placed_as i d p.
Proof.
  unfold place_row, nz. destruct (Z.eqb_spec (parent_item_uid d) 0) as [Z0|Z0]; cbn [negb].
  { intros [= <-]. split; cbn; try done; naive_solver. }
  destruct (uids !! parent_item_uid d) as [q|] eqn:U.
  - destruct (_ || _); [done|]. intros [= <-]. split; cbn; try done.
    + intros q'. rewrite <- uids_exact, U. naive_solver.
    + rewrite <- uids_none, U. naive_solver.
  - intros [= <-]. split; cbn; try done.
    + intros q'. rewrite <- uids_exact, U. naive_solver.
    + by rewrite <- uids_none, U.
Qed.

Lemma place_row_some i it d : (length identities <= Z.to_nat PLAYER_LOAD_ITEM_MAX)%nat → identities !! i = Some d →
  NoDup (item_uid <$> identities) →
  is_Some (place_row uids identities i it d) ↔ parent_item_uid d ≠ item_uid d ∨ parent_item_uid d = 0.
Proof.
  intros Sz Ed Nd. unfold place_row, nz. destruct (Z.eqb_spec (parent_item_uid d) 0) as [Z0|Z0]; cbn [negb]; [naive_solver|].
  destruct (uids !! parent_item_uid d) as [q|] eqn:U.
  - apply uids_exact in U as (dq & Eq & U). assert (INT32_MAX <? Z.of_nat q = false) as ->.
    { apply lookup_lt_Some in Eq. unfold INT32_MAX, PLAYER_LOAD_ITEM_MAX in *. lia. }
    rewrite orb_false_r. destruct (Nat.eqb_spec q i) as [->|N]; cbn [negb].
    + split; [by intros []|]. intros [?|?]; congruence.
    + split; [|by eexists]. intros _. left. intros E. apply N. eapply uid_unique; [done..|congruence].
  - split; [|by eexists]. intros _. left. intros E. apply uids_none in U. apply U. rewrite E. apply list_elem_of_lookup.
    exists i. by rewrite list_lookup_fmap, Ed.
Qed.
End Placed.

Lemma place_rows_some uids all k its ids : length its = length ids →
  (∀ i it d, its !! i = Some it → ids !! i = Some d → is_Some (place_row uids all (k + i) it d)) →
  is_Some (place_rows uids all k its ids).
Proof.
  revert k its. induction ids as [|d ids IH]; intros k [|it its] Le H; try done.
  cbn [place_rows]. destruct (H 0%nat it d eq_refl eq_refl) as [p Ep]. rewrite Nat.add_0_r in Ep. rewrite Ep.
  destruct (IH (S k) its) as [ps Eps]; [by injection Le|intros i it' d' E1 E2; rewrite Nat.add_succ_comm; by apply (H (S i))|].
  rewrite Eps. by eexists.
Qed.

(** ** The rows that pass the loops *)

Context (ps : list placed) (P : place_all items identities = Some ps).

Lemma place_all_as i p : ps !! i = Some p → ∃ d, identities !! i = Some d ∧ placed_as i d p.
Proof.
  unfold place_all in P. destruct (_ && _) eqn:G; [|done]. bool_prop.
  destruct (index_rows _ _ _ _ _) as [uids|] eqn:X; [|done]. intros E.
  destruct (place_rows_spec uids identities 0 items identities ps) as [_ Q]; [done..|].
  destruct (Q i p E) as (it & d & _ & Ed & R). exists d. split; [done|]. eapply place_row_as; [done..|exact R].
Qed.

Lemma place_all_at i d : identities !! i = Some d → ∃ p, ps !! i = Some p ∧ placed_as i d p.
Proof.
  intros Ed. destruct (place_all_placed _ _ _ P) as [_ A]. pose proof (placed_length _ _ A) as Len.
  destruct (lookup_lt_is_Some_2 ps i) as [p Ep]; [apply lookup_lt_Some in Ed; lia|]. exists p. split; [done|].
  destruct (place_all_as i p Ep) as (d' & Ed' & Q). by simplify_eq.
Qed.

Lemma lies_rooted i n r : lies i n r ↔ rooted (p_parent <$> ps) i n r.
Proof.
  split.
  - induction 1 as [i d Ed T|i d q dq n r Ed P0 Eq U _ IH]; destruct (place_all_at i d Ed) as (p & Ep & A).
    + apply rooted_root. rewrite list_lookup_fmap, Ep. cbn. f_equal. destruct (p_parent p) as [q|] eqn:Pp; [|done].
      apply A in Pp as (N & dq & Eq & U). destruct T as [T|T]; [done|]. destruct T. rewrite <- U.
      apply list_elem_of_lookup. exists q. by rewrite list_lookup_fmap, Eq.
    + eapply rooted_child; [|exact IH]. rewrite list_lookup_fmap, Ep. cbn. f_equal. apply A. eauto.
  - induction 1 as [i Pi|i q n r Pi _ IH]; rewrite list_lookup_fmap in Pi;
      destruct (ps !! i) as [p|] eqn:Ep; try done; cbn in Pi; injection Pi as Pi;
      destruct (place_all_as i p Ep) as (d & Ed & A).
    + eapply lies_top; [exact Ed|]. destruct (decide (parent_item_uid d = 0)) as [|N]; [by left|right].
      intros (dq & U & I)%list_elem_of_fmap. apply list_elem_of_lookup in I as [q Eq].
      enough (p_parent p = Some q) by congruence. apply A. eauto.
    + apply A in Pi as (N & dq & Eq & U). eapply lies_in; [exact Ed|exact N|exact Eq|exact U|exact IH].
Qed.

Lemma good_lies : all_good (p_parent <$> ps) (p_promoted <$> ps) (p_identity <$> ps) ↔
  ∀ i d, identities !! i = Some d → ∃ n r dr, lies i n r ∧ (n <= PLAYER_SNAPSHOT_MAX_DEPTH)%nat
    ∧ identities !! r = Some dr
    ∧ (parent_item_uid dr ≠ 0 ∧ parent_item_uid dr ∉ item_uid <$> identities
       ∨ root_item_uid dr = item_uid dr ∧ root_item_uid d = item_uid dr).
Proof.
  destruct (place_all_placed _ _ _ P) as [_ Pa]. pose proof (placed_length _ _ Pa) as Len. clear Pa.
  assert (∀ i p, ps !! i = Some p → identity_at (p_identity <$> ps) i = p_identity p
    ∧ flag_at (p_promoted <$> ps) i = p_promoted p) as At.
  { intros i p Ep. unfold identity_at, flag_at. by rewrite !list_lookup_fmap, Ep. }
  assert (∀ i n r, rooted (p_parent <$> ps) i n r → (r < length identities)%nat) as Rr.
  { induction 1 as [i Pi|]; [|done]. apply lookup_lt_Some in Pi. rewrite length_fmap in Pi. lia. }
  unfold all_good. rewrite length_fmap, Len. split.
  - intros G i d Ed. destruct (G i) as (n & r & [R D Rt Sm]); [by apply lookup_lt_Some in Ed|].
    destruct (lookup_lt_is_Some_2 identities r (Rr i n r R)) as [dr Er].
    destruct (place_all_at i d Ed) as (p & Ep & A). destruct (place_all_at r dr Er) as (pr & Epr & Ar).
    destruct (At i p Ep) as [I1 _], (At r pr Epr) as [I2 F2]. rewrite I1, I2, F2 in *.
    exists n, r, dr. split; [by apply lies_rooted|]. split; [done|]. split; [done|].
    rewrite (pa_uid _ _ _ Ar) in *. destruct (p_promoted pr) eqn:Fr; [left; by apply Ar|].
    destruct Sm as [|Sm]; [done|]. rewrite (pa_root _ _ _ Ar), Fr in Rt. rewrite (pa_root _ _ _ A) in Sm.
    destruct (p_promoted p) eqn:Fp; [|right; done].
    apply A in Fp as [N1 N2]. apply lies_rooted in R. inversion R as [? d0 E0 T|? d0 q dq ? ? E0 ? Eq U ?]; subst; simplify_eq.
    + enough (p_promoted p = true) by congruence. by apply A.
    + destruct N2. rewrite <- U. apply list_elem_of_lookup. exists q. by rewrite list_lookup_fmap, Eq.
  - intros G i Li. destruct (lookup_lt_is_Some_2 identities i Li) as [d Ed].
    destruct (G i d Ed) as (n & r & dr & R & D & Er & C). exists n, r.
    destruct (place_all_at i d Ed) as (p & Ep & A). destruct (place_all_at r dr Er) as (pr & Epr & Ar).
    destruct (At i p Ep) as [I1 _], (At r pr Epr) as [I2 F2]. split; rewrite ?I1, ?I2, ?F2, ?(pa_uid _ _ _ Ar); [by apply lies_rooted|done|..].
    + rewrite (pa_root _ _ _ Ar). destruct (p_promoted pr) eqn:Fr; [done|]. destruct C as [C|[C _]]; [|done].
      apply Ar in C. congruence.
    + destruct C as [C|[_ C]]; [left; by apply Ar|]. rewrite (pa_root _ _ _ A).
      destruct (p_promoted p) eqn:Fp; [|by right]. left.
      apply A in Fp as [N1 N2]. inversion R as [? d0 E0 T|? d0 q dq ? ? E0 ? Eq U ?]; subst; simplify_eq.
      * apply Ar. done.
      * destruct N2. rewrite <- U. apply list_elem_of_lookup. exists q. by rewrite list_lookup_fmap, Eq.
Qed.
End Acceptable.

Lemma place_all_some items identities : acceptable items identities → is_Some (place_all items identities).
Proof.
  intros [Le Sz Na Db Ui Li]. unfold place_all. rewrite Le, Nat.eqb_refl, (proj2 (Z.leb_le _ _) Sz). cbn [andb].
  destruct (index_rows_exact 0 items identities ∅ ∅ Le) as [_ B].
  destruct (proj2 B) as [uids X]; [by split_and!; try done; set_solver|]. rewrite X. apply place_rows_some; [done|].
  intros i it d _ Ed. apply (place_row_some items identities uids X Le i it d); [|done|done|].
  { unfold vsize in Sz. lia. }
  destruct (Li i d Ed) as (n & r & _ & R & _). by eapply lies_outside.
Qed.

(** C39: The repair always ends, and accepts exactly the loads whose lists match and are within
    their size, whose rows have identities, are of their items and are distinct, by database row
    and by item, and where every row, whatever the order of the rows, lies in a chain of at most
    32 containers, none of them twice, under whose last row it is recorded, unless that one's
    own container is gone. *)
Theorem topology_accepts items identities promoted_rows repaired_rows :
  ∃ o, player_load_reconcile_item_topology items identities promoted_rows repaired_rows = Some o
    ∧ (is_Some o ↔ acceptable items identities).
Proof.
  unfold player_load_reconcile_item_topology. destruct (place_all items identities) as [ps|] eqn:P.
  2: { exists None. split; [done|]. split; [by intros []|]. intros A. apply place_all_some in A as []. congruence. }
  destruct (place_all_placed _ _ _ P) as (L & A). pose proof (placed_length _ _ A) as Len.
  destruct (walk_exact (p_parent <$> ps) (p_promoted <$> ps) (p_identity <$> ps)) as (o & V & W1 & W2);
    [by rewrite !length_fmap|by rewrite !length_fmap|apply A|apply A|].
  unfold initial_walk in V. rewrite !length_fmap in V. replace (length items) with (length ps) by congruence.
  rewrite V. eexists. split; [done|]. transitivity (is_Some o).
  { destruct o; split; (by intros []) || by eexists. }
  transitivity (all_good (p_parent <$> ps) (p_promoted <$> ps) (p_identity <$> ps)).
  { split; [|done]. intros [w ->]. by apply (W1 w). }
  rewrite (good_lies items identities ps P). split; [|by intros []]. intros G.
  unfold place_all in P. destruct (_ && _) eqn:Sz; [|done]. bool_prop.
  destruct (index_rows _ _ _ _ _) as [uids|] eqn:X; [|done].
  destruct (index_rows_exact 0 items identities ∅ ∅ L) as [_ B]. rewrite X in B.
  destruct (proj1 B ltac:(by eexists)) as (F & D1 & D2 & _). by split.
Qed.

(** ** Witness *)

(** A bag holding an item a stale row still says is worn, and an item whose bag is gone. *)
Definition sample_items : list player_item_snapshot :=
  (λ p, ItemSnapshot PLAYER_SNAPSHOT_NO_PARENT p.2 p.1 0 0 0 0 [] [] [] []
    (replicate 8 0) (replicate 6 0) 0 0 0 0 0 0 0 0 0 0 (replicate 5 0) (replicate 4 (0, 0)) [] [])
  <$> [(11, 3); (10, 0); (12, 5)].
Definition sample_identities : list player_load_item_identity :=
  [ItemIdentity 1 0 1 0 11 10 10 (0, 0, 0) 1 1 1; ItemIdentity 2 0 1 0 10 10 0 (0, 0, 0) 1 1 1;
   ItemIdentity 3 9 1 0 12 99 99 (0, 0, 0) 1 1 1].

Lemma topology_sound_witness :
  ∃ r, player_load_reconcile_item_topology sample_items sample_identities 0 0 = Some (Some r)
    ∧ length (r_items r) = 3%nat ∧ equipment_slot <$> r_items r = [0; 0; 0]
    ∧ promoted_item_rows r = 1.
Proof.
  eexists. split; [vm_compute; reflexivity|].
  match goal with |- length (r_items ?r) = _ ∧ _ =>
    destruct (topology_sound sample_items sample_identities 0 0 r) as (L & _);
      [vm_compute; reflexivity|split; [exact L|by vm_compute]] end.
Defined.
