(* ===== verification/CurrencyCommand.v ===== *)
(** * Currency commands

    Models [economy/currency_command.c] and [.h]: the payload of a change to a
    character's wallet and account bank, its encoding at fixed offsets, the result
    the repository returns, and the critical command that carries it.

    [SHA256] is a parameter; of it the code uses that a digest has 32 bytes. *)

From S2P Require Import Prelude CriticalCommand.

Definition CURRENCY_COMMAND_PAYLOAD_VERSION : Z := 1.
Definition CURRENCY_ACCOUNT_NAME_MAX_BYTES : nat := 50.
Definition CURRENCY_COMMAND_PAYLOAD_BYTES : nat := 136.
Definition CURRENCY_RESULT_PAYLOAD_BYTES : nat := 80.
Definition CURRENCY_DENOMINATION_COUNT : nat := 4.

Definition PID_OFFSET : nat := 0.
Definition RACEWAR_OFFSET : nat := 4.
Definition REASON_OFFSET : nat := 6.
Definition REASON_ID_OFFSET : nat := 8.
Definition NAME_LENGTH_OFFSET : nat := 16.
Definition NAME_OFFSET : nat := 17.
Definition WALLET_OFFSET : nat := 68.
Definition BANK_OFFSET : nat := 100.

Module currency_reason_type.
Definition unknown : Z := 0.
Definition atm_deposit : Z := 1.
Definition atm_withdraw : Z := 2.
Definition bank_payment : Z := 3.
Definition bank_reward : Z := 4.
Definition wallet_reward : Z := 5.
Definition wallet_spend : Z := 6.
Definition refund : Z := 7.
Definition auction_pickup : Z := 8.
Definition auction_listing : Z := 9.
Definition auction_bid : Z := 10.
Definition auction_claim : Z := 11.
Definition ship_insurance : Z := 12.
Definition boon_reward : Z := 13.
Definition operator_adjustment : Z := 14.
Definition chaos_starter_reward : Z := 15.
Definition coin_transfer : Z := 16.
Definition collector_purchase : Z := 17.
Definition corpse_lifecycle : Z := 18.
End currency_reason_type.

(** The array of four [int64_t]. *)
Abbreviation currency_vector := (list Z).

(** [account_name] is the whole array of 51 characters. *)
Record currency_command_payload := CurrencyPayload {
  pid : Z;
  racewar : Z;
  reason : Z;
  reason_id : Z;
  account_name : list byte;
  wallet_delta : currency_vector;
  bank_delta : currency_vector;
}.

Record currency_command_result := CurrencyResult {
  wallet : currency_vector;
  bank : currency_vector;
  wallet_revision : Z;
  bank_revision : Z;
}.

#[export] Instance currency_payload_eq_dec : EqDecision currency_command_payload.
Proof. solve_decision. Defined.
#[export] Instance currency_result_eq_dec : EqDecision currency_command_result.
Proof. solve_decision. Defined.

(** ** Validity *)

Definition valid_reason (r : Z) : bool :=
  (currency_reason_type.unknown <? r) && (r <=? currency_reason_type.corpse_lifecycle).

(** [strnlen]: the bytes before a NUL, at most [limit] of them. *)
Fixpoint strnlen (name : list byte) (limit : nat) : nat :=
  match name, limit with
  | c :: name, S limit => if of_byte c =? 0 then 0%nat else S (strnlen name limit)
  | _, _ => 0%nat
  end.

Definition valid_name (name : list byte) : option nat :=
  let len := strnlen name (CURRENCY_ACCOUNT_NAME_MAX_BYTES + 1) in
  ensure? negb ((len =? 0)%nat || (CURRENCY_ACCOUNT_NAME_MAX_BYTES <? len)%nat) in
  ensure? forallb (λ c, negb (of_byte c <? 32)) (take len name) in
  Some len.

Definition vector_valid (v : currency_vector) : bool := forallb (λ a, negb (a =? INT64_MIN)) v.
Definition any_delta (p : currency_command_payload) : bool :=
  existsb nz (wallet_delta p) || existsb nz (bank_delta p).

(** ** Vectors at an offset *)

Definition encode_vector (out : list byte) (offset : nat) (v : currency_vector) : list byte :=
  foldl (λ out p, put_bytes out (offset + p.1 * 8) (le_split 8 (wrap 64 p.2))) out
    (zip (seq 0 (length v)) v).
Definition decode_vector (input : list byte) (offset : nat) : currency_vector :=
  (λ i, to_signed 64 (get_le 8 input (offset + i * 8))) <$> seq 0 CURRENCY_DENOMINATION_COUNT.

(** The layout, as numbers. *)
Ltac offsets := unfold PID_OFFSET, RACEWAR_OFFSET, REASON_OFFSET, REASON_ID_OFFSET,
  NAME_LENGTH_OFFSET, NAME_OFFSET, WALLET_OFFSET, BANK_OFFSET, CURRENCY_COMMAND_PAYLOAD_BYTES,
  CURRENCY_RESULT_PAYLOAD_BYTES, CURRENCY_ACCOUNT_NAME_MAX_BYTES in *.

Section Currency.

Context (SHA256 : list byte → list byte).

Definition tolower (c : byte) : byte :=
  let v := of_byte c in if (65 <=? v) && (v <=? 90) then to_byte (v + 32) else c.

Definition currency_account_key (name : list byte) (war : Z) : option critical_entity_key :=
  let? len := valid_name name in
  let canonical := (tolower <$> take len name) ++ [Byte.x00; to_byte war] in
  let identity := get_le 8 (SHA256 canonical) 0 in
  Some (EntityKey critical_entity_type.account (if nz identity then identity else 1)).

Definition currency_command_is_rebasable_wallet_reward (p : currency_command_payload) : bool :=
  (reason p =? currency_reason_type.wallet_reward)
  && forallb (λ d, negb (d.1 <? 0) && negb (nz d.2)) (zip (wallet_delta p) (bank_delta p))
  && existsb (λ a, 0 <? a) (wallet_delta p).
Definition currency_command_is_rebasable_bank_reward (p : currency_command_payload) : bool :=
  (reason p =? currency_reason_type.chaos_starter_reward)
  && forallb (λ d, negb (nz d.1) && negb (d.2 <? 0)) (zip (wallet_delta p) (bank_delta p))
  && existsb (λ a, 0 <? a) (bank_delta p).
Definition currency_command_is_rebasable_reward (p : currency_command_payload) : bool :=
  currency_command_is_rebasable_wallet_reward p || currency_command_is_rebasable_bank_reward p.

(** ** The payload *)

Definition payload_accepted (p : currency_command_payload) : bool :=
  vector_valid (wallet_delta p) && vector_valid (bank_delta p)
  && (any_delta p || (reason p =? currency_reason_type.corpse_lifecycle)).

Definition currency_command_encode_payload (p : currency_command_payload) : option (list byte) :=
  ensure? nz (pid p) && valid_reason (reason p) in
  let? len := valid_name (account_name p) in
  ensure? payload_accepted p in
  let out := replicate CURRENCY_COMMAND_PAYLOAD_BYTES Byte.x00 in
  let out := put_bytes out PID_OFFSET (le_split 4 (pid p)) in
  let out := put_bytes out RACEWAR_OFFSET [to_byte (racewar p)] in
  let out := put_bytes out REASON_OFFSET (le_split 2 (reason p)) in
  let out := put_bytes out REASON_ID_OFFSET (le_split 8 (wrap 64 (reason_id p))) in
  let out := put_bytes out NAME_LENGTH_OFFSET [to_byte (Z.of_nat len)] in
  let out := put_bytes out NAME_OFFSET (take len (account_name p)) in
  let out := encode_vector out WALLET_OFFSET (wallet_delta p) in
  let out := encode_vector out BANK_OFFSET (bank_delta p) in
  Some out.

(** The bytes from [first] up to [last] are zero. *)
Definition zeros_between (input : list byte) (first last : nat) : bool :=
  forallb (λ c, of_byte c =? 0) (slice (last - first) input first).

Definition keys_are (command : critical_command) (player account : critical_entity_key) : bool :=
  match keys command, expected_revisions command with
  | [k0; k1], [r0; r1] =>
      critical_entity_key_equal k0 player && critical_entity_key_equal k1 account
      && critical_entity_key_equal (revision_key r0) player
      && critical_entity_key_equal (revision_key r1) account
  | _, _ => false
  end.

Definition currency_command_decode_payload (command : critical_command)
  : option currency_command_payload :=
  let input := payload command in
  ensure? (command_type command =? critical_command_type.account_bank)
          && (payload_version command =? CURRENCY_COMMAND_PAYLOAD_VERSION)
          && (length input =? CURRENCY_COMMAND_PAYLOAD_BYTES)%nat in
  let name_length := Z.to_nat (byte_of input NAME_LENGTH_OFFSET) in
  ensure? negb ((name_length =? 0)%nat || (CURRENCY_ACCOUNT_NAME_MAX_BYTES <? name_length)%nat) in
  ensure? zeros_between input (NAME_OFFSET + name_length) WALLET_OFFSET in
  ensure? zeros_between input (BANK_OFFSET + 32) (length input) in
  let name := slice name_length input NAME_OFFSET in
  let p := CurrencyPayload (get_le 4 input PID_OFFSET) (byte_of input RACEWAR_OFFSET)
             (get_le 2 input REASON_OFFSET) (to_signed 64 (get_le 8 input REASON_ID_OFFSET))
             (name ++ replicate (CURRENCY_ACCOUNT_NAME_MAX_BYTES + 1 - name_length) Byte.x00)
             (decode_vector input WALLET_OFFSET) (decode_vector input BANK_OFFSET) in
  ensure? nz (pid p) && valid_reason (reason p) in
  let? checked_length := valid_name (account_name p) in
  ensure? (checked_length =? name_length)%nat && payload_accepted p in
  let? account := currency_account_key (account_name p) (racewar p) in
  ensure? keys_are command (EntityKey critical_entity_type.player (pid p)) account in
  Some p.

(** ** The result *)

Definition currency_command_encode_result (r : currency_command_result) : option (list byte) :=
  ensure? vector_valid (wallet r) && vector_valid (bank r) in
  let out := replicate CURRENCY_RESULT_PAYLOAD_BYTES Byte.x00 in
  let out := encode_vector out 0 (wallet r) in
  let out := encode_vector out 32 (bank r) in
  let out := put_bytes out 64 (le_split 8 (wallet_revision r)) in
  Some (put_bytes out 72 (le_split 8 (bank_revision r))).

Definition currency_command_decode_result (encoded : list byte)
  : option currency_command_result :=
  ensure? (length encoded =? CURRENCY_RESULT_PAYLOAD_BYTES)%nat in
  let r := CurrencyResult (decode_vector encoded 0) (decode_vector encoded 32)
             (get_le 8 encoded 64) (get_le 8 encoded 72) in
  ensure? vector_valid (wallet r) && vector_valid (bank r) in
  Some r.

(** ** The command *)

Definition currency_command_build (operation : critical_operation_id)
    (p : currency_command_payload) (expected_wallet expected_bank site deadline : Z)
  : option critical_command :=
  ensure? negb (critical_operation_id_is_zero operation) in
  let? encoded := currency_command_encode_payload p in
  let? account := currency_account_key (account_name p) (racewar p) in
  let player := EntityKey critical_entity_type.player (pid p) in
  Some (CriticalCommand CRITICAL_COMMAND_SCHEMA_VERSION operation
          critical_command_type.account_bank CURRENCY_COMMAND_PAYLOAD_VERSION site deadline 0
          [player; account]
          [ExpectedRevision player expected_wallet; ExpectedRevision account expected_bank]
          encoded).

(** ** Lemmas: fields and vectors *)

Record payload_typed (p : currency_command_payload) : Prop := {
  typed_pid : u32 (pid p);
  typed_racewar : u8 (racewar p);
  typed_reason : u16 (reason p);
  typed_reason_id : i64 (reason_id p);
  typed_name : length (account_name p) = (CURRENCY_ACCOUNT_NAME_MAX_BYTES + 1)%nat;
  typed_wallet : length (wallet_delta p) = CURRENCY_DENOMINATION_COUNT ∧ Forall (sfits 64) (wallet_delta p);
  typed_bank : length (bank_delta p) = CURRENCY_DENOMINATION_COUNT ∧ Forall (sfits 64) (bank_delta p);
}.

Lemma signed_wrap x : i64 x → to_signed 64 (wrap 64 x) = x.
Proof.
  unfold sfits, to_signed, wrap. intros H. destruct (Z.leb_spec 0 x).
  - rewrite Z.mod_small by lia. destruct (Z.ltb_spec x (2 ^ (64 - 1))); lia.
  - replace (x mod 2 ^ 64) with (x + 2 ^ 64) by (symmetry; rewrite <- (Z_mod_plus_full x 1), Z.mod_small; lia).
    destruct (Z.ltb_spec (x + 2 ^ 64) (2 ^ (64 - 1))); lia.
Qed.
Lemma wrap_signed x : u64 x → wrap 64 (to_signed 64 x) = x.
Proof.
  unfold fits, to_signed, wrap. intros H. destruct (Z.ltb_spec x (2 ^ (64 - 1))).
  - apply Z.mod_small. lia.
  - rewrite <- (Z_mod_plus_full _ 1). rewrite Z.mod_small; lia.
Qed.
Lemma signed_fits x : u64 x → i64 (to_signed 64 x).
Proof.
  unfold fits, sfits, to_signed. intros H. destruct (Z.ltb_spec x (2 ^ (64 - 1))); lia.
Qed.

(** Reads through writes at other offsets. *)
Ltac lengths := rewrite ?length_put_bytes, ?length_le_split, ?length_replicate; cbn [length]; lia.
Ltac slices :=
  repeat first [rewrite slice_put_same by lengths | rewrite slice_put_other by lengths].

Definition vector_bytes (v : currency_vector) : list byte := concat ((λ a, le_split 8 (wrap 64 a)) <$> v).

Lemma encode_vector_length out off v : length (encode_vector out off v) = length out.
Proof.
  unfold encode_vector. generalize (seq 0 (length v)). intros l. revert out.
  generalize (zip l v). intros ps. induction ps as [|[i a] ps IH]; intros out; simpl; [done|].
  by rewrite IH, length_put_bytes.
Qed.

Lemma encode_vector_puts out off a b c d :
  encode_vector out off [a; b; c; d]
  = put_bytes (put_bytes (put_bytes (put_bytes out (off + 0) (le_split 8 (wrap 64 a)))
      (off + 8) (le_split 8 (wrap 64 b))) (off + 16) (le_split 8 (wrap 64 c)))
      (off + 24) (le_split 8 (wrap 64 d)).
Proof. done. Qed.

Lemma vector_four (v : currency_vector) : length v = CURRENCY_DENOMINATION_COUNT →
  ∃ a b c d, v = [a; b; c; d].
Proof.
  intros L. do 4 (destruct v as [|? v]; [done|]). destruct v; [|done]. by eexists _, _, _, _.
Qed.

Lemma get_split x : u64 x → le_combine (le_split 8 x) = x.
Proof. intros H. by apply le_combine_split_small. Qed.
Lemma wrap_fits x : u64 (wrap 64 x).
Proof. unfold fits, wrap. apply Z.mod_pos_bound. lia. Qed.

Lemma decode_encode_vector out off v :
  length v = CURRENCY_DENOMINATION_COUNT → Forall (sfits 64) v → (off + 32 <= length out)%nat →
  decode_vector (encode_vector out off v) off = v.
Proof.
  intros L F Hl. destruct (vector_four v L) as (a & b & c & d & ->).
  rewrite encode_vector_puts. unfold decode_vector. cbn [seq fmap list_fmap CURRENCY_DENOMINATION_COUNT].
  rewrite !Forall_cons in F. destruct F as (Fa & Fb & Fc & Fd & _).
  rewrite !get_le_slice. cbn [Nat.mul Nat.add]. slices.
  rewrite !get_split by apply wrap_fits. by rewrite !signed_wrap.
Qed.

Lemma slice_encode_vector_other n out off v off' :
  length v = CURRENCY_DENOMINATION_COUNT →
  (off' + n <= off)%nat ∨ (off + 32 <= off')%nat →
  slice n (encode_vector out off v) off' = slice n out off'.
Proof.
  intros L D. destruct (vector_four v L) as (a & b & c & d & ->). rewrite encode_vector_puts.
  slices. done.
Qed.

Lemma decode_vector_ext input input' off :
  slice 32 input off = slice 32 input' off → decode_vector input off = decode_vector input' off.
Proof.
  intros H. unfold decode_vector. apply list_fmap_ext. intros i x Hx.
  apply lookup_seq in Hx as [-> Hi]. unfold CURRENCY_DENOMINATION_COUNT in Hi.
  rewrite !get_le_slice. do 2 f_equal. apply list_eq. intros j. rewrite !lookup_slice.
  case_decide as Hj; [|done].
  assert (∀ l : list byte, slice 32 l off !! (i * 8 + j)%nat = l !! (off + i * 8 + j)%nat) as S.
  { intros l. rewrite lookup_slice, decide_True by lia. f_equal. lia. }
  simpl. by rewrite <- !S, H.
Qed.

(** ** Lemmas: names *)

Definition name_bytes (name : list byte) : Prop := Forall (λ c, of_byte c ≠ 0) name.

Lemma strnlen_prefix name limit : name_bytes (take (strnlen name limit) name)
  ∧ (strnlen name limit <= limit)%nat ∧ (strnlen name limit <= length name)%nat.
Proof.
  revert limit. induction name as [|c name IH]; intros [|limit]; simpl; try (split_and!; [constructor|lia|lia]).
  destruct (of_byte c =? 0) eqn:Z0; simpl; [split_and!; [constructor|lia|lia]|].
  destruct (IH limit) as (N & L1 & L2). apply Z.eqb_neq in Z0.
  split_and!; [by constructor|lia|lia].
Qed.

Lemma strnlen_app name rest limit :
  name_bytes name → (length name < limit)%nat → (∀ c rest', rest = c :: rest' → of_byte c = 0) →
  strnlen (name ++ rest) limit = length name.
Proof.
  intros N. revert limit. induction N as [|c name Hc N IH]; intros limit L R; simpl in *.
  - destruct rest as [|c rest]; [done|]. destruct limit as [|limit]; [done|]. simpl.
    by rewrite (R c rest eq_refl).
  - destruct limit as [|limit]; [lia|]. rewrite (proj2 (Z.eqb_neq _ _) Hc). f_equal. apply IH; [lia|done].
Qed.

Lemma valid_name_spec name len : valid_name name = Some len →
  (0 < len <= CURRENCY_ACCOUNT_NAME_MAX_BYTES)%nat ∧ (len <= length name)%nat
  ∧ name_bytes (take len name) ∧ forallb (λ c, negb (of_byte c <? 32)) (take len name) = true.
Proof.
  unfold valid_name. intros H. steps_in H.
  destruct (strnlen_prefix name (CURRENCY_ACCOUNT_NAME_MAX_BYTES + 1)) as (N & _ & L).
  bool_prop. split_and!; [lia|lia|done|done|done].
Qed.

(** The array a decoder fills: the name and zeros. *)
Definition padded (name : list byte) : list byte :=
  name ++ replicate (CURRENCY_ACCOUNT_NAME_MAX_BYTES + 1 - length name) Byte.x00.

Lemma valid_name_padded name len : valid_name name = Some len →
  valid_name (padded (take len name)) = Some len
  ∧ take len (padded (take len name)) = take len name.
Proof.
  intros H. destruct (valid_name_spec _ _ H) as ((L1 & L2) & L3 & N & P).
  assert (length (take len name) = len) as LT by (rewrite length_take; lia).
  assert (take len (padded (take len name)) = take len name) as T.
  { unfold padded. rewrite <- LT at 1. apply take_app_length. }
  split; [|done]. unfold valid_name.
  replace (strnlen (padded (take len name)) (CURRENCY_ACCOUNT_NAME_MAX_BYTES + 1)) with len.
  - rewrite T, P. rewrite (proj2 (Nat.eqb_neq _ _)), (proj2 (Nat.ltb_ge _ _)) by lia. done.
  - symmetry. unfold padded. rewrite strnlen_app; [done|done|lia|].
    intros c rest' E0. destruct (CURRENCY_ACCOUNT_NAME_MAX_BYTES + 1 - _)%nat; [done|].
    simpl in E0. by simplify_eq.
Qed.

Definition trimmed (len : nat) (p : currency_command_payload) : currency_command_payload :=
  CurrencyPayload (pid p) (racewar p) (reason p) (reason_id p)
    (padded (take len (account_name p))) (wallet_delta p) (bank_delta p).

(** ** Lemmas: the encoded payload *)

Lemma byte_of_slice input off b : slice 1 input off = [b] → byte_of input off = of_byte b.
Proof.
  intros H. unfold byte_of.
  assert (slice 1 input off !! 0%nat = Some b) as X by by rewrite H.
  rewrite lookup_slice, decide_True, Nat.add_0_r in X by lia. by rewrite X.
Qed.

Record encodes (p : currency_command_payload) (len : nat) (out : list byte) : Prop := {
  enc_length : length out = CURRENCY_COMMAND_PAYLOAD_BYTES;
  enc_pid : get_le 4 out PID_OFFSET = pid p;
  enc_racewar : byte_of out RACEWAR_OFFSET = racewar p;
  enc_reason : get_le 2 out REASON_OFFSET = reason p;
  enc_reason_id : to_signed 64 (get_le 8 out REASON_ID_OFFSET) = reason_id p;
  enc_name_length : byte_of out NAME_LENGTH_OFFSET = Z.of_nat len;
  enc_name : slice len out NAME_OFFSET = take len (account_name p);
  enc_wallet : decode_vector out WALLET_OFFSET = wallet_delta p;
  enc_bank : decode_vector out BANK_OFFSET = bank_delta p;
  enc_pad : zeros_between out (NAME_OFFSET + len) WALLET_OFFSET = true;
  enc_tail : zeros_between out (BANK_OFFSET + 32) (length out) = true;
}.

Lemma zeros_replicate n m off : forallb (λ c, of_byte c =? 0) (slice n (replicate m Byte.x00) off) = true.
Proof.
  apply forallb_forall. intros c Hc. apply list_elem_of_In, list_elem_of_lookup in Hc as [i Hi].
  rewrite lookup_slice in Hi. case_decide; [|done]. apply lookup_replicate in Hi as [-> _]. done.
Qed.

(** The reads of the payload, each through the writes of the other fields. *)
Lemma payload_encodes p len out :
  payload_typed p → valid_name (account_name p) = Some len →
  currency_command_encode_payload p = Some out → encodes p len out.
Proof.
  intros T V H. unfold currency_command_encode_payload in H.
  destruct (_ && _); [|done]. rewrite V in H. cbv beta match zeta in H.
  destruct (payload_accepted p); [|done]. apply (inj Some) in H as <-.
  destruct (valid_name_spec _ _ V) as ((L1 & L2) & L3 & _). destruct T.
  destruct typed_wallet0 as [Lw Fw], typed_bank0 as [Lb Fb].
  assert (length (take len (account_name p)) = len) as Ln by (rewrite length_take; lia).
  offsets. remember (take len (account_name p)) as name eqn:Ename.
  set (out := put_bytes _ 17 name).
  assert (length out = 136%nat) as Lo by (unfold out; lengths).
  assert (∀ n off, (off + n <= 68)%nat →
    slice n (encode_vector (encode_vector out 68 (wallet_delta p)) 100 (bank_delta p)) off
    = slice n out off) as Low.
  { intros n off Hn. rewrite !slice_encode_vector_other by (done || lia). done. }
  constructor; offsets; rewrite ?get_le_slice; rewrite ?Low by lia.
  - by rewrite !encode_vector_length.
  - unfold out. slices. by apply le_combine_split_small.
  - rewrite <- (of_to_byte (racewar p)) by done. apply byte_of_slice. rewrite Low by lia.
    unfold out. slices. done.
  - unfold out. slices. by apply le_combine_split_small.
  - unfold out. slices. rewrite get_split by apply wrap_fits. by apply signed_wrap.
  - rewrite <- (of_to_byte (Z.of_nat len)) by (unfold fits; lia). apply byte_of_slice.
    rewrite Low by lia. unfold out. slices. done.
  - unfold out. rewrite <- Ename. apply slice_put_same; [done|lengths].
  - rewrite (decode_vector_ext _ (encode_vector out 68 (wallet_delta p)))
      by (apply slice_encode_vector_other; [done|lia]).
    apply decode_encode_vector; [done|done|lia].
  - apply decode_encode_vector; [done|done|]. rewrite encode_vector_length. lia.
  - unfold zeros_between. rewrite Low by lia. unfold out. rewrite slice_put_other by lengths.
    slices. apply zeros_replicate.
  - unfold zeros_between. rewrite !encode_vector_length, Lo.
    rewrite !slice_encode_vector_other by (done || lia). unfold out.
    rewrite slice_put_other by lengths. slices. apply zeros_replicate.
Qed.

(** ** Lemmas: building and decoding *)

Lemma account_key_fits name war k : currency_account_key name war = Some k →
  key_type k = critical_entity_type.account ∧ u64 (key_id k) ∧ key_id k ≠ 0.
Proof.
  unfold currency_account_key. intros H. steps_in H. simpl.
  assert (u64 (get_le 8 (SHA256 ((tolower <$> take n name) ++ [Byte.x00; to_byte war])) 0)) as F
    by apply (get_le_fits 8).
  split; [done|]. unfold nz. case_match; bool_prop; [done|]. split; [width_lia|done].
Qed.

Lemma account_key_padded name war len : valid_name name = Some len →
  currency_account_key (padded (take len name)) war = currency_account_key name war.
Proof.
  intros V. destruct (valid_name_padded _ _ V) as [V' T].
  unfold currency_account_key. by rewrite V', V, T.
Qed.

(** What [decode_payload] reads from the bytes [encode_payload] wrote. *)
Lemma decode_encoded p len out c k :
  valid_name (account_name p) = Some len →
  nz (pid p) = true → valid_reason (reason p) = true → payload_accepted p = true →
  encodes p len out →
  command_type c = critical_command_type.account_bank →
  payload_version c = CURRENCY_COMMAND_PAYLOAD_VERSION → payload c = out →
  currency_account_key (account_name p) (racewar p) = Some k →
  keys_are c (EntityKey critical_entity_type.player (pid p)) k = true →
  currency_command_decode_payload c = Some (trimmed len p).
Proof.
  intros V P R A [] Ct Cv Cp K Ks. destruct (valid_name_spec _ _ V) as ((L1 & L2) & L3 & _).
  unfold currency_command_decode_payload.
  rewrite Ct, Cv, Cp, enc_length0, enc_pid0, enc_racewar0, enc_reason0, enc_reason_id0,
    enc_name_length0, enc_wallet0, enc_bank0, Nat2Z.id, enc_name0, enc_pad0.
  rewrite enc_length0 in enc_tail0. rewrite enc_tail0.
  rewrite !Z.eqb_refl, Nat.eqb_refl, (proj2 (Nat.eqb_neq len 0)), (proj2 (Nat.ltb_ge _ len)) by lia.
  cbn [negb andb orb].
  assert (take len (account_name p) ++ replicate (CURRENCY_ACCOUNT_NAME_MAX_BYTES + 1 - len) Byte.x00
    = padded (take len (account_name p))) as Ep
    by (unfold padded; rewrite length_take_le by done; done).
  rewrite Ep.
  change (CurrencyPayload _ _ _ _ _ _ _) with (trimmed len p).
  change (pid (trimmed len p)) with (pid p). change (reason (trimmed len p)) with (reason p).
  change (racewar (trimmed len p)) with (racewar p).
  change (account_name (trimmed len p)) with (padded (take len (account_name p))).
  rewrite P, R, (proj1 (valid_name_padded _ _ V)), Nat.eqb_refl.
  change (payload_accepted (trimmed len p)) with (payload_accepted p). rewrite A.
  cbn [negb andb]. rewrite account_key_padded, K by done. by rewrite Ks.
Qed.

Lemma encode_payload_some p out : currency_command_encode_payload p = Some out →
  nz (pid p) = true ∧ valid_reason (reason p) = true ∧ payload_accepted p = true
  ∧ ∃ len, valid_name (account_name p) = Some len.
Proof.
  unfold currency_command_encode_payload. intros H.
  destruct (nz _ && _) eqn:G; [|done]. apply andb_prop in G as [? ?].
  destruct (valid_name _) as [len|]; [|done]. destruct (payload_accepted p); [|done].
  split_and!; [done..|by exists len].
Qed.

Lemma build_some op p ew eb site dl c :
  currency_command_build op p ew eb site dl = Some c →
  ∃ out k, critical_operation_id_is_zero op = false
  ∧ currency_command_encode_payload p = Some out
  ∧ currency_account_key (account_name p) (racewar p) = Some k
  ∧ c = CriticalCommand CRITICAL_COMMAND_SCHEMA_VERSION op critical_command_type.account_bank
          CURRENCY_COMMAND_PAYLOAD_VERSION site dl 0
          [EntityKey critical_entity_type.player (pid p); k]
          [ExpectedRevision (EntityKey critical_entity_type.player (pid p)) ew;
           ExpectedRevision k eb] out.
Proof.
  unfold currency_command_build. intros H. destruct (critical_operation_id_is_zero op) eqn:Z; [done|].
  simpl in H. destruct (currency_command_encode_payload p) as [out|]; [|done].
  destruct (currency_account_key _ _) as [k|]; [|done]. apply (inj Some) in H as <-.
  by exists out, k.
Qed.

Lemma keys_are_refl c a b ra rb :
  keys c = [a; b] → expected_revisions c = [ExpectedRevision a ra; ExpectedRevision b rb] →
  keys_are c a b = true.
Proof.
  intros E1 E2. unfold keys_are. rewrite E1, E2. simpl.
  by rewrite !(proj2 (key_equal_spec _ _) eq_refl).
Qed.

Lemma encode_payload_length p out :
  currency_command_encode_payload p = Some out → length out = CURRENCY_COMMAND_PAYLOAD_BYTES.
Proof.
  unfold currency_command_encode_payload. intros H. destruct (nz _ && _); [|done].
  destruct (valid_name _); [|done]. destruct (payload_accepted p); [|done].
  apply (inj Some) in H as <-. by rewrite !encode_vector_length, !length_put_bytes, length_replicate.
Qed.

(** A built command is one [critical_command] accepts, whatever the digest. *)
Lemma build_valid op p ew eb site dl usec c :
  currency_command_build op p ew eb site dl = Some c →
  critical_source_site.command <= site <= critical_source_site.operator_repair →
  critical_deadline_class.interactive <= dl <= critical_deadline_class.recovery →
  usec ≠ 0 → critical_command_valid (accepted_at usec c) = true.
Proof.
  intros (out & k & Z & O & K & ->)%build_some S D U.
  destruct (account_key_fits _ _ _ K) as (Kt & _ & K0).
  destruct (encode_payload_some _ _ O) as (P & _). apply encode_payload_length in O.
  assert (critical_entity_key_less (EntityKey critical_entity_type.player (pid p)) k = true) as L.
  { apply key_less_spec. simpl. rewrite Kt. by left. }
  assert (∀ x, x ∈ [EntityKey critical_entity_type.player (pid p); k] →
    key_search [EntityKey critical_entity_type.player (pid p); k] x = true) as Sk
    by (intros; by apply key_search_spec).
  assert (valid_entity_type (key_type k) && nz (key_id k) = true) as Vk
    by (rewrite Kt; unfold nz; by rewrite (proj2 (Z.eqb_neq _ _) K0)).
  unfold critical_command_valid, accepted_at, vsize. cbn [keys expected_revisions payload source_site
    deadline_class schema_version operation_id command_type payload_version accepted_at_usec].
  cbn [keys_valid revisions_valid revision_key key_type key_id].
  rewrite Z, P, L, O, Vk, !Sk by set_solver. unfold nz. rewrite (proj2 (Z.eqb_neq _ _) U).
  rewrite !(proj2 (Z.leb_le _ site)), !(proj2 (Z.leb_le site _)) by lia.
  rewrite !(proj2 (Z.leb_le _ dl)), !(proj2 (Z.leb_le dl _)) by lia. done.
Qed.

Lemma build_typed op p ew eb site dl usec c :
  currency_command_build op p ew eb site dl = Some c → payload_typed p →
  critical_source_site.command <= site <= critical_source_site.operator_repair →
  critical_deadline_class.interactive <= dl <= critical_deadline_class.recovery →
  length op = CRITICAL_COMMAND_ID_BYTES → u64 ew → u64 eb → u64 usec →
  command_typed (accepted_at usec c).
Proof.
  intros (out & k & Z & O & K & ->)%build_some T S D Lo We Be U.
  destruct (account_key_fits _ _ _ K) as (Kt & Ku & _).
  assert (key_typed k) as Tk by (split; [rewrite Kt; done|done]).
  assert (key_typed (EntityKey critical_entity_type.player (pid p))) as Tp.
  { split; [done|]. simpl. pose proof (typed_pid p T). width_lia. }
  unfold critical_source_site.command, critical_source_site.operator_repair,
    critical_deadline_class.interactive, critical_deadline_class.recovery in *.
  constructor; simpl; try done; try width_lia.
  - by rewrite !Forall_cons, Forall_nil.
  - by rewrite !Forall_cons, Forall_nil.
Qed.

End Currency.

(** ** Properties *)

(** C20: a change of a character's money survives the journal: every command
    [currency_command_build] makes, once stamped with the time of acceptance, is
    a valid critical command that the command codec encodes and decodes to
    itself, and [currency_command_decode_payload] then gives the payload it was
    built from, the account name cut at its first NUL and padded with zeros. *)
Theorem currency_durable_roundtrip SHA256 op p ew eb site dl usec c :
  currency_command_build SHA256 op p ew eb site dl = Some c →
  payload_typed p → length op = CRITICAL_COMMAND_ID_BYTES → u64 ew → u64 eb →
  u64 usec → usec ≠ 0 →
  critical_source_site.command <= site <= critical_source_site.operator_repair →
  critical_deadline_class.interactive <= dl <= critical_deadline_class.recovery →
  ∃ bytes len,
    critical_command_encode (accepted_at usec c) = Ok bytes
    ∧ critical_command_decode bytes = Ok (accepted_at usec c)
    ∧ valid_name (account_name p) = Some len
    ∧ currency_command_decode_payload SHA256 (accepted_at usec c) = Some (trimmed len p).
Proof.
  intros B T Lo We Be Ut U0 S D.
  pose proof (build_valid _ _ _ _ _ _ _ _ _ B S D U0) as V.
  pose proof (build_typed _ _ _ _ _ _ _ _ _ B T S D Lo We Be Ut) as Ty.
  destruct (build_some _ _ _ _ _ _ _ _ B) as (out & k & Z & O & K & Ec).
  destruct (encode_payload_some _ _ O) as (P & R & A & len & Vn).
  exists (command_bytes (accepted_at usec c)), len.
  split_and!; [by apply encode_valid; [apply Ty|]|by apply decode_command_bytes|done|].
  eapply (decode_encoded SHA256 p len out _ k); [done..|by apply payload_encodes| | | |exact K|];
    rewrite Ec; try done.
  by eapply keys_are_refl.
Qed.

(** *** The bytes a payload determines *)

Lemma slice_lookup n a b off i :
  slice n a off = slice n b off → (off <= i < off + n)%nat → a !! i = b !! i.
Proof.
  intros H L.
  assert (∀ l : list byte, slice n l off !! (i - off)%nat = l !! i) as X.
  { intros l. rewrite lookup_slice, decide_True by lia. f_equal. lia. }
  by rewrite <- (X a), <- (X b), H.
Qed.

Lemma get_le_inj sz a b off :
  get_le sz a off = get_le sz b off → (off + sz <= length a)%nat → (off + sz <= length b)%nat →
  slice sz a off = slice sz b off.
Proof.
  intros H La Lb. rewrite !get_le_slice in H.
  apply LittleEndianList.le_combine_inj; [by rewrite !length_slice|done].
Qed.

Lemma to_signed_inj x y : u64 x → u64 y → to_signed 64 x = to_signed 64 y → x = y.
Proof. intros X Y E. by rewrite <- (wrap_signed x X), <- (wrap_signed y Y), E. Qed.

Lemma decode_vector_inj a b off :
  decode_vector a off = decode_vector b off →
  (off + 32 <= length a)%nat → (off + 32 <= length b)%nat → slice 32 a off = slice 32 b off.
Proof.
  unfold decode_vector. intros H La Lb.
  cbn [seq fmap list_fmap CURRENCY_DENOMINATION_COUNT Nat.mul Nat.add] in H. injection H as H0 H1 H2 H3.
  apply to_signed_inj in H0, H1, H2, H3; try apply (get_le_fits 8).
  apply get_le_inj in H0, H1, H2, H3; try lia.
  apply list_eq. intros i. rewrite !lookup_slice. case_decide; [|done].
  destruct (decide (i < 8)%nat); [by apply (slice_lookup 8 _ _ (off + 0)); [|lia]|].
  destruct (decide (i < 16)%nat); [by apply (slice_lookup 8 _ _ (off + 8)); [|lia]|].
  destruct (decide (i < 24)%nat); [by apply (slice_lookup 8 _ _ (off + 16)); [|lia]|].
  by apply (slice_lookup 8 _ _ (off + 24)); [|lia].
Qed.

Lemma zeros_slice a first last : zeros_between a first last = true → (last <= length a)%nat →
  slice (last - first) a first = replicate (length (slice (last - first) a first)) Byte.x00.
Proof.
  intros H L. symmetry. apply replicate_as_Forall. split; [done|]. unfold zeros_between in H.
  rewrite forallb_forall in H. apply Forall_forall. intros c Hc.
  apply list_elem_of_In, H in Hc. apply Z.eqb_eq in Hc.
  by rewrite <- (to_of_byte c), Hc.
Qed.

Lemma byte_of_inj a b off : byte_of a off = byte_of b off →
  (off < length a)%nat → (off < length b)%nat → a !! off = b !! off.
Proof.
  unfold byte_of. intros H [x X]%lookup_lt_is_Some [y Y]%lookup_lt_is_Some.
  rewrite X, Y in *. simpl in H. by rewrite <- (to_of_byte x), H, to_of_byte.
Qed.

(** Two encodings of one payload differ at most at the unused fifth byte. *)
Lemma encodes_agree p len a b i :
  (0 < len <= CURRENCY_ACCOUNT_NAME_MAX_BYTES)%nat →
  encodes p len a → encodes p len b → i ≠ 5%nat → a !! i = b !! i.
Proof.
  intros L [] [] N. rewrite enc_length0 in enc_tail0. rewrite enc_length1 in enc_tail1.
  rewrite <- enc_pid1 in enc_pid0. rewrite <- enc_racewar1 in enc_racewar0.
  rewrite <- enc_reason1 in enc_reason0. rewrite <- enc_reason_id1 in enc_reason_id0.
  rewrite <- enc_name_length1 in enc_name_length0. rewrite <- enc_name1 in enc_name0.
  rewrite <- enc_wallet1 in enc_wallet0. rewrite <- enc_bank1 in enc_bank0.
  offsets.
  apply to_signed_inj in enc_reason_id0; try apply (get_le_fits 8).
  apply get_le_inj in enc_pid0, enc_reason0, enc_reason_id0; try lia.
  apply decode_vector_inj in enc_wallet0, enc_bank0; try lia.
  apply byte_of_inj in enc_racewar0, enc_name_length0; try lia.
  apply zeros_slice in enc_pad0, enc_pad1, enc_tail0, enc_tail1; try lia.
  rewrite !length_slice in enc_pad0, enc_pad1, enc_tail0, enc_tail1 by lia.
  rewrite <- enc_pad1 in enc_pad0. rewrite <- enc_tail1 in enc_tail0.
  destruct (decide (i < 4)%nat); [by eapply (slice_lookup 4 _ _ 0); [|lia]|].
  destruct (decide (i = 4)%nat) as [->|]; [done|].
  destruct (decide (i < 8)%nat); [by eapply (slice_lookup 2 _ _ 6); [|lia]|].
  destruct (decide (i < 16)%nat); [by eapply (slice_lookup 8 _ _ 8); [|lia]|].
  destruct (decide (i = 16)%nat) as [->|]; [done|].
  destruct (decide (i < 17 + len)%nat); [by eapply (slice_lookup len _ _ 17); [|lia]|].
  destruct (decide (i < 68)%nat); [by eapply (slice_lookup (68 - (17 + len)) _ _ (17 + len)); [|lia]|].
  destruct (decide (i < 100)%nat); [by eapply (slice_lookup 32 _ _ 68); [|lia]|].
  destruct (decide (i < 132)%nat); [by eapply (slice_lookup 32 _ _ 100); [|lia]|].
  destruct (decide (i < 136)%nat); [by eapply (slice_lookup _ _ _ (100 + 32)); [done|lia]|].
  rewrite !(proj2 (lookup_ge_None _ _)) by lia. done.
Qed.

Lemma decode_facts SHA256 c p :
  currency_command_decode_payload SHA256 c = Some p →
  ∃ len account,
    length (payload c) = CURRENCY_COMMAND_PAYLOAD_BYTES
    ∧ (0 < len <= CURRENCY_ACCOUNT_NAME_MAX_BYTES)%nat
    ∧ byte_of (payload c) NAME_LENGTH_OFFSET = Z.of_nat len
    ∧ zeros_between (payload c) (NAME_OFFSET + len) WALLET_OFFSET = true
    ∧ zeros_between (payload c) (BANK_OFFSET + 32) (length (payload c)) = true
    ∧ p = CurrencyPayload (get_le 4 (payload c) PID_OFFSET) (byte_of (payload c) RACEWAR_OFFSET)
            (get_le 2 (payload c) REASON_OFFSET)
            (to_signed 64 (get_le 8 (payload c) REASON_ID_OFFSET))
            (padded (slice len (payload c) NAME_OFFSET))
            (decode_vector (payload c) WALLET_OFFSET) (decode_vector (payload c) BANK_OFFSET)
    ∧ nz (pid p) = true ∧ valid_reason (reason p) = true ∧ payload_accepted p = true
    ∧ valid_name (account_name p) = Some len
    ∧ currency_account_key SHA256 (account_name p) (racewar p) = Some account
    ∧ keys_are c (EntityKey critical_entity_type.player (pid p)) account = true.
Proof.
  unfold currency_command_decode_payload. intros H.
  destruct (_ && _ && _) eqn:G; [|done]. cbn [negb] in H. bool_prop.
  set (len := Z.to_nat (byte_of (payload c) NAME_LENGTH_OFFSET)) in *.
  destruct (_ || _) eqn:Ln; [done|]. bool_prop. cbn [negb] in H.
  destruct (zeros_between _ (NAME_OFFSET + len) _) eqn:Z1; [|done].
  destruct (zeros_between _ (BANK_OFFSET + 32) _) eqn:Z2; [|done]. cbn [negb] in H.
  assert (slice len (payload c) NAME_OFFSET ++ replicate (CURRENCY_ACCOUNT_NAME_MAX_BYTES + 1 - len) Byte.x00
    = padded (slice len (payload c) NAME_OFFSET)) as Ep
    by (unfold padded; rewrite length_slice by (offsets; lia); done).
  rewrite Ep in H. set (q := CurrencyPayload _ _ _ _ _ _ _) in *.
  steps_in H. bool_prop. exists len. eexists.
  match goal with E : ?n = len |- _ => rewrite E in * end.
  assert (byte_of (payload c) NAME_LENGTH_OFFSET = Z.of_nat len) as Eb by (unfold len; lia).
  split_and!; try done; try lia.
Qed.

(** The typing of the C++ array a decoder fills. *)
Lemma decoded_typed c len r :
  (len <= CURRENCY_ACCOUNT_NAME_MAX_BYTES)%nat →
  length (payload c) = CURRENCY_COMMAND_PAYLOAD_BYTES → u8 r →
  payload_typed (CurrencyPayload (get_le 4 (payload c) PID_OFFSET) r
    (get_le 2 (payload c) REASON_OFFSET) (to_signed 64 (get_le 8 (payload c) REASON_ID_OFFSET))
    (padded (slice len (payload c) NAME_OFFSET))
    (decode_vector (payload c) WALLET_OFFSET) (decode_vector (payload c) BANK_OFFSET)).
Proof.
  intros L Lp R.
  assert (∀ input off, Forall (sfits 64) (decode_vector input off)) as V.
  { intros input off. apply Forall_fmap, Forall_true. intros i. apply signed_fits, (get_le_fits 8). }
  constructor; cbn [pid racewar reason reason_id account_name wallet_delta bank_delta]; try done.
  - apply (get_le_fits 4).
  - apply (get_le_fits 2).
  - apply signed_fits, (get_le_fits 8).
  - unfold padded. rewrite length_app, length_replicate, length_slice; offsets; lia.
Qed.

(** a currency command is believed only when its envelope speaks of the money
    its payload changes: an accepted payload has a player, a known reason, deltas
    other than [INT64_MIN] and a non-zero one (except for a corpse); the command
    locks exactly that player and the account the name and racewar hash to, and
    expects a revision of each; and the accepted bytes are the encoding of the
    payload, except for byte 5, which the decoder never reads. *)
Theorem currency_decode_sound SHA256 c p :
  currency_command_decode_payload SHA256 c = Some p →
  payload_typed p ∧ pid p ≠ 0 ∧ valid_reason (reason p) = true
  ∧ payload_accepted p = true
  ∧ (∃ account r0 r1,
       currency_account_key SHA256 (account_name p) (racewar p) = Some account
       ∧ keys c = [EntityKey critical_entity_type.player (pid p); account]
       ∧ expected_revisions c
         = [ExpectedRevision (EntityKey critical_entity_type.player (pid p)) r0;
            ExpectedRevision account r1])
  ∧ ∃ out, currency_command_encode_payload p = Some out
     ∧ ∀ i, i ≠ 5%nat → out !! i = payload c !! i.
Proof.
  intros (len & account & Lp & L & Eb & Z1 & Z2 & Ep & P & R & A & V & K & Ks)%decode_facts.
  assert (payload_typed p) as T.
  { rewrite Ep. apply decoded_typed; [lia|done|]. unfold byte_of.
    destruct (payload c !! _); [apply of_byte_range|done]. }
  assert (∃ out, currency_command_encode_payload p = Some out) as [out O].
  { unfold currency_command_encode_payload. rewrite P, R, V, A. by eexists. }
  split_and!; [done| |done|done| |].
  - unfold nz in P. by bool_prop.
  - exists account. unfold keys_are in Ks.
    destruct (keys c) as [|k0 [|k1 [|??]]]; [done..| |done].
    destruct (expected_revisions c) as [|[x0 r0] [|[x1 r1] [|??]]]; [done..| |done].
    rewrite !andb_true_iff, !key_equal_spec in Ks. simpl in Ks.
    destruct Ks as (((-> & ->) & ->) & ->). by exists r0, r1.
  - exists out. split; [done|]. intros i Hi.
    eapply (encodes_agree p len); [done|by apply payload_encodes| |done].
    constructor; rewrite ?Ep; try done; [].
    cbn. unfold padded. rewrite take_app_length'; [done|]. rewrite length_slice; offsets; lia.
Qed.

Record result_typed (r : currency_command_result) : Prop := {
  typed_result_wallet : length (wallet r) = CURRENCY_DENOMINATION_COUNT ∧ Forall (sfits 64) (wallet r);
  typed_result_bank : length (bank r) = CURRENCY_DENOMINATION_COUNT ∧ Forall (sfits 64) (bank r);
  typed_wallet_revision : u64 (wallet_revision r);
  typed_bank_revision : u64 (bank_revision r);
}.

Lemma result_encodes r out :
  result_typed r → currency_command_encode_result r = Some out →
  length out = CURRENCY_RESULT_PAYLOAD_BYTES
  ∧ decode_vector out 0 = wallet r ∧ decode_vector out 32 = bank r
  ∧ get_le 8 out 64 = wallet_revision r ∧ get_le 8 out 72 = bank_revision r.
Proof.
  intros [[Lw Fw] [Lb Fb] Ww Wb] H. unfold currency_command_encode_result in H.
  destruct (_ && _); [|done]. apply (inj Some) in H as <-.
  set (zero := replicate _ _). set (both := encode_vector (encode_vector zero 0 _) 32 _).
  assert (length both = 80%nat) as L by (unfold both; by rewrite !encode_vector_length).
  assert (length (encode_vector zero 0 (wallet r)) = 80%nat) as L0 by by rewrite encode_vector_length.
  assert (∀ n off, (off + n <= 64)%nat →
    slice n (put_bytes (put_bytes both 64 (le_split 8 (wallet_revision r))) 72
      (le_split 8 (bank_revision r))) off = slice n both off) as Low.
  { intros n off Hn. rewrite !slice_put_other by (rewrite ?length_le_split; lia). done. }
  split_and!.
  - by rewrite !length_put_bytes.
  - rewrite (decode_vector_ext _ both) by (by apply Low; lia).
    rewrite (decode_vector_ext _ (encode_vector zero 0 (wallet r)))
      by (apply slice_encode_vector_other; [done|lia]).
    apply decode_encode_vector; [done|done|]. unfold zero. rewrite length_replicate. offsets. lia.
  - rewrite (decode_vector_ext _ both) by (apply Low; lia).
    apply decode_encode_vector; [done|done|lia].
  - rewrite get_le_slice, slice_put_other, slice_put_same
      by (rewrite ?length_put_bytes, ?length_le_split; lia). by apply get_split.
  - rewrite get_le_slice, slice_put_same
      by (rewrite ?length_put_bytes, ?length_le_split; lia). by apply get_split.
Qed.

(** A result is determined by its 80 bytes, and determines them. *)
Lemma result_bytes_inj a b :
  length a = CURRENCY_RESULT_PAYLOAD_BYTES → length b = CURRENCY_RESULT_PAYLOAD_BYTES →
  decode_vector a 0 = decode_vector b 0 → decode_vector a 32 = decode_vector b 32 →
  get_le 8 a 64 = get_le 8 b 64 → get_le 8 a 72 = get_le 8 b 72 → a = b.
Proof.
  intros La Lb. offsets. intros W B R1 R2.
  apply decode_vector_inj in W, B; try lia. apply get_le_inj in R1, R2; try lia.
  apply list_eq. intros i.
  destruct (decide (i < 32)%nat); [by eapply (slice_lookup 32 _ _ 0); [|lia]|].
  destruct (decide (i < 64)%nat); [by eapply (slice_lookup 32 _ _ 32); [|lia]|].
  destruct (decide (i < 72)%nat); [by eapply (slice_lookup 8 _ _ 64); [|lia]|].
  destruct (decide (i < 80)%nat); [by eapply (slice_lookup 8 _ _ 72); [|lia]|].
  rewrite !(proj2 (lookup_ge_None _ _)) by lia. done.
Qed.

Lemma decoded_result_typed out r :
  currency_command_decode_result out = Some r → result_typed r.
Proof.
  unfold currency_command_decode_result. intros H. destruct (_ =? _)%nat; [|done].
  destruct (_ && _); [|done]. apply (inj Some) in H as <-.
  assert (∀ off, Forall (sfits 64) (decode_vector out off)) as V.
  { intros off. apply Forall_fmap, Forall_true. intros i. apply signed_fits, (get_le_fits 8). }
  constructor; [split; [done|apply V]..|apply (get_le_fits 8)|apply (get_le_fits 8)].
Qed.

Lemma decode_encoded_result r out :
  result_typed r → currency_command_encode_result r = Some out →
  currency_command_decode_result out = Some r.
Proof.
  intros T E. destruct (result_encodes _ _ T E) as (L & W & B & R1 & R2).
  unfold currency_command_encode_result in E.
  unfold currency_command_decode_result. rewrite L, W, B, R1, R2, Nat.eqb_refl.
  destruct r as [w b rw rb]. cbn [negb wallet bank wallet_revision bank_revision] in *.
  by destruct (_ && _).
Qed.

Lemma encode_decoded_result out r :
  currency_command_decode_result out = Some r → currency_command_encode_result r = Some out.
Proof.
  intros D. pose proof (decoded_result_typed _ _ D) as T.
  assert (length out = CURRENCY_RESULT_PAYLOAD_BYTES ∧ is_Some (currency_command_encode_result r)
    ∧ r = CurrencyResult (decode_vector out 0) (decode_vector out 32)
           (get_le 8 out 64) (get_le 8 out 72)) as (L & [out' E] & Er).
  { unfold currency_command_decode_result in D. destruct (_ =? _)%nat eqn:L; [|done].
    destruct (_ && _) eqn:V; [|done]. apply (inj Some) in D as <-. bool_prop.
    split_and!; [done| |done]. unfold currency_command_encode_result. cbn [wallet bank] in *.
    rewrite (proj2 (andb_true_iff _ _)) by done. by eexists. }
  destruct (result_encodes _ _ T E) as (L' & W & B & R1 & R2). rewrite E. f_equal.
  rewrite Er in W, B, R1, R2. by apply result_bytes_inj.
Qed.

(** the balances and revisions a currency operation reports survive their 80
    bytes in both directions: a well-typed result is encoded exactly when no
    amount is [INT64_MIN], the bytes decode to it, and bytes the decoder accepts
    are the encoding of what it returns. *)
Theorem currency_result_roundtrip :
  (∀ r, result_typed r →
     match currency_command_encode_result r with
     | Some out => currency_command_decode_result out = Some r
     | None => INT64_MIN ∈ wallet r ++ bank r
     end)
  ∧ (∀ out r, currency_command_decode_result out = Some r →
     currency_command_encode_result r = Some out).
Proof.
  split; [|apply encode_decoded_result].
  intros r T. destruct (currency_command_encode_result r) as [out|] eqn:E;
    [by apply decode_encoded_result|].
  unfold currency_command_encode_result in E. destruct (_ && _) eqn:V; [done|]. clear E.
  unfold vector_valid in V. rewrite <- forallb_app in V.
  destruct (decide (INT64_MIN ∈ wallet r ++ bank r)) as [|N]; [done|exfalso].
  rewrite (proj2 (forallb_forall _ _)) in V; [done|]. intros x Hx%list_elem_of_In.
  apply negb_true_iff, Z.eqb_neq. by intros ->.
Qed.

(** The number a digest names an account with. *)
Definition account_identity (digest : list byte) : Z :=
  let identity := get_le 8 digest 0 in if nz identity then identity else 1.

(** an account is one entity under any spelling of its name: names equal up to
    ASCII case on the same racewar side give the same key, which is a valid
    entity key; and two accounts that differ share a key only through two
    distinct texts whose digests name the same account. *)
Theorem currency_account_key_identity SHA256 a b wa wb la lb :
  valid_name a = Some la → valid_name b = Some lb → u8 wa → u8 wb →
  ∃ ka kb,
    currency_account_key SHA256 a wa = Some ka ∧ currency_account_key SHA256 b wb = Some kb
    ∧ valid_entity_type (key_type ka) && nz (key_id ka) = true ∧ u64 (key_id ka)
    ∧ (tolower <$> take la a = tolower <$> take lb b → wa = wb → ka = kb)
    ∧ (ka = kb → (tolower <$> take la a = tolower <$> take lb b ∧ wa = wb)
       ∨ ∃ x y, x ≠ y ∧ account_identity (SHA256 x) = account_identity (SHA256 y)).
Proof.
  intros Va Vb Wa Wb. unfold currency_account_key at 1 2. rewrite Va, Vb.
  eexists _, _. split_and!; [done|done| | | |].
  - unfold nz at 2. cbn. unfold nz. by case_match.
  - cbn. case_match; [apply (get_le_fits 8)|width_lia].
  - by intros -> ->.
  - set (x := (tolower <$> take la a) ++ _). set (y := (tolower <$> take lb b) ++ _).
    intros E. destruct (decide (x = y)) as [Exy|N]; [left|right].
    + apply app_inj_2 in Exy as [-> Ew]; [|done]. injection Ew as Ew. split; [done|].
      by rewrite <- (of_to_byte wa), <- (of_to_byte wb), Ew.
    + exists x, y. split; [done|]. by injection E.
Qed.

Lemma rebasable_halves (v w : currency_vector) :
  length v = length w →
  forallb (λ d, negb (d.1 <? 0) && negb (nz d.2)) (zip v w) = true →
  Forall (λ a, 0 <= a) v ∧ Forall (λ a, a = 0) w.
Proof.
  revert w. induction v as [|a v IH]; intros [|b w] L H; try done.
  simpl in H. rewrite !andb_true_iff in H. destruct H as [[A B] H]. unfold nz in B.
  destruct (IH w) as [F G]; [by injection L|done|]. bool_prop.
  split; constructor; done || lia.
Qed.

Lemma zip_flip (v w : currency_vector) :
  forallb (λ d, negb (nz d.1) && negb (d.2 <? 0)) (zip v w)
  = forallb (λ d, negb (d.1 <? 0) && negb (nz d.2)) (zip w v).
Proof.
  revert w. induction v as [|a v IH]; intros [|b w]; simpl; [done..|].
  by rewrite IH, (andb_comm (negb (nz a))).
Qed.

Lemma exists_positive v : existsb (λ a, 0 <? a) v = true → existsb nz v = true.
Proof.
  rewrite !existsb_exists. intros (a & I & P). exists a. split; [done|].
  unfold nz. apply negb_true_iff, Z.eqb_neq. bool_prop. lia.
Qed.

(** what may be replayed on top of other changes of the balance only ever
    credits: a rebasable reward debits no denomination of wallet or bank, credits
    at least one, leaves one of the two untouched, and is always accepted by the
    encoder for a valid player and name. *)
Theorem currency_rebasable_only_credits p :
  currency_command_is_rebasable_reward p = true → payload_typed p →
  (∀ a, a ∈ wallet_delta p ++ bank_delta p → 0 <= a)
  ∧ (∃ a, a ∈ wallet_delta p ++ bank_delta p ∧ 0 < a)
  ∧ (Forall (λ a, a = 0) (wallet_delta p) ∨ Forall (λ a, a = 0) (bank_delta p))
  ∧ valid_reason (reason p) && payload_accepted p = true.
Proof.
  intros R [_ _ _ _ _ [Lw _] [Lb _]]. unfold currency_command_is_rebasable_reward,
    currency_command_is_rebasable_wallet_reward, currency_command_is_rebasable_bank_reward in R.
  assert (∀ v w, Forall (λ a, 0 <= a) v → Forall (λ a, a = 0) w →
    ∀ a, a ∈ v ∨ a ∈ w → 0 <= a) as Credit.
  { intros v w Fv Fw a [I|I]; [by eapply Forall_forall in Fv|].
    eapply Forall_forall in Fw; [|done]. simpl in Fw. lia. }
  assert (∀ v, (∀ a, a ∈ v → 0 <= a) → vector_valid v = true) as Valid.
  { intros v Hv. apply forallb_forall. intros a Ia%list_elem_of_In%Hv.
    apply negb_true_iff, Z.eqb_neq. width_lia. }
  assert (∀ v, existsb (λ a, 0 <? a) v = true → ∃ a, a ∈ v ∧ 0 < a) as Pos.
  { intros v (a & I & P)%existsb_exists. exists a. bool_prop. by split; [apply list_elem_of_In|]. }
  unfold payload_accepted, any_delta, valid_reason. setoid_rewrite elem_of_app.
  apply orb_true_iff in R as [R|R]; rewrite !andb_true_iff in R; destruct R as [[Er F] P];
    apply Z.eqb_eq in Er; rewrite Er; [|rewrite zip_flip in F];
    (apply rebasable_halves in F as [Fc Fz]; [|by rewrite Lw, Lb]);
    pose proof (exists_positive _ P) as N; rewrite N, ?orb_true_r; simpl;
    destruct (Pos _ P) as (x & Ix & Px).
  - split_and!; [by apply Credit|by exists x; split; [left|]|by right|].
    rewrite !Valid; [done|intros a Ia; eapply Credit; eauto..].
  - split_and!; [intros a Ia; eapply (Credit _ _ Fc Fz); tauto|by exists x; split; [right|]|by left|].
    rewrite !Valid; [done|intros a Ia; eapply (Credit _ _ Fc Fz); eauto..].
Qed.

(** ** Witnesses *)

(** A function with 32-byte results, in the place of SHA-256. *)
Definition sample_digest (input : list byte) : list byte :=
  take 32 (input ++ replicate 32 Byte.x00).

Definition sample_name : list byte :=
  [Byte.x44; Byte.x75; Byte.x72; Byte.x69; Byte.x73] ++ replicate 46 Byte.x00.
(** The same account, spelled in lower case. *)
Definition sample_name_lower : list byte :=
  [Byte.x64; Byte.x75; Byte.x72; Byte.x69; Byte.x73] ++ replicate 46 Byte.x00.

Definition sample_currency : currency_command_payload :=
  CurrencyPayload 7 1 currency_reason_type.wallet_reward (-3) sample_name
    [0; 5; 0; 12] [0; 0; 0; 0].

Lemma sample_currency_typed : payload_typed sample_currency.
Proof.
  constructor; try done; (split; [done|]); repeat (apply Forall_cons; split; [done|]); apply Forall_nil_2.
Qed.

Definition sample_operation : critical_operation_id := replicate 16 Byte.x2a.

Definition sample_currency_command : critical_command :=
  accepted_at 99 (default (CriticalCommand 0 [] 0 0 0 0 0 [] [] [])
    (currency_command_build sample_digest sample_operation sample_currency 3 4 1 1)).

Lemma currency_durable_roundtrip_witness :
  ∃ bytes len,
    critical_command_encode sample_currency_command = Ok bytes
    ∧ critical_command_decode bytes = Ok sample_currency_command
    ∧ valid_name (account_name sample_currency) = Some len
    ∧ currency_command_decode_payload sample_digest sample_currency_command
      = Some (trimmed len sample_currency).
Proof.
  apply (currency_durable_roundtrip sample_digest sample_operation sample_currency 3 4 1 1 99
    (default (CriticalCommand 0 [] 0 0 0 0 0 [] [] [])
      (currency_command_build sample_digest sample_operation sample_currency 3 4 1 1)));
    [vm_compute; reflexivity|apply sample_currency_typed|reflexivity|split; reflexivity || discriminate
    |split; reflexivity || discriminate|split; reflexivity || discriminate|discriminate
    |split; discriminate|split; discriminate].
Defined.

Lemma currency_decode_sound_witness :
  currency_command_decode_payload sample_digest sample_currency_command = Some sample_currency
  ∧ payload_accepted sample_currency = true.
Proof.
  assert (currency_command_decode_payload sample_digest sample_currency_command
    = Some sample_currency) as D by (vm_compute; reflexivity).
  split; [exact D|]. apply (currency_decode_sound sample_digest sample_currency_command _ D).
Defined.

Lemma currency_account_key_identity_witness :
  currency_account_key sample_digest sample_name 1
  = currency_account_key sample_digest sample_name_lower 1.
Proof.
  destruct (currency_account_key_identity sample_digest sample_name sample_name_lower 1 1 5 5)
    as (ka & kb & Ka & Kb & _ & _ & S & _);
    [reflexivity|reflexivity|split; reflexivity || discriminate|split; reflexivity || discriminate|].
  rewrite Ka, Kb, S; reflexivity.
Defined.

Lemma currency_rebasable_only_credits_witness :
  (∀ a, a ∈ wallet_delta sample_currency ++ bank_delta sample_currency → 0 <= a)
  ∧ (∃ a, a ∈ wallet_delta sample_currency ++ bank_delta sample_currency ∧ 0 < a).
Proof.
  destruct (currency_rebasable_only_credits sample_currency) as (A & B & _);
    [reflexivity|apply sample_currency_typed|]. exact (conj A B).
Defined.
