(* ===== verification/ItemTransfer.v ===== *)
(** * Item transfers

    Models [item/item_transfer_command.c] and [.h], but for the bytes: the payload that
    moves items between owners, its validation, and where the items are before and after.

    The arrays [items] and [item_blob] are the lists of their used prefixes, so
    [item_count] and [item_blob_size] are lengths; what lies behind is never read.
    [ItemTransferCodec] has the bytes and the critical command. *)

From S2P Require Import Prelude Snapshot CriticalCommand SnapshotCodec.

Definition ITEM_TRANSFER_PAYLOAD_VERSION : Z := 7.
Definition ITEM_TRANSFER_BATCH_PAYLOAD_VERSION : Z := 6.
Definition ITEM_TRANSFER_CORPSE_PAYLOAD_VERSION : Z := 5.
Definition ITEM_TRANSFER_EXACT_PAYLOAD_VERSION : Z := 4.
Definition ITEM_TRANSFER_PREVIOUS_PAYLOAD_VERSION : Z := 3.
Definition ITEM_TRANSFER_LEGACY_PAYLOAD_VERSION : Z := 2.
Definition ITEM_TRANSFER_LEGACY_MAX_ITEMS : nat := 12.
Definition ITEM_TRANSFER_MAX_ITEMS : Z := 3000.
Definition ITEM_TRANSFER_HEADER_BYTES : nat := 96.
Definition ITEM_TRANSFER_ENTRY_BYTES : nat := 40.
Definition ITEM_TRANSFER_PAYLOAD_BYTES : nat :=
  ITEM_TRANSFER_HEADER_BYTES + ITEM_TRANSFER_LEGACY_MAX_ITEMS * ITEM_TRANSFER_ENTRY_BYTES.
Definition ITEM_TRANSFER_ITEM_BLOB_MAX_BYTES : Z := 128 * 1024.
Definition ITEM_TRANSFER_CORPSE_NAME_MAX_BYTES : Z := 255.
Definition ITEM_TRANSFER_CORPSE_SHORT_DESCRIPTION_MAX_BYTES : Z := 512.
Definition ITEM_TRANSFER_CORPSE_DESCRIPTION_MAX_BYTES : Z := 64 * 1024.
Definition ITEM_TRANSFER_CORPSE_KEYWORDS_MAX_BYTES : Z := 512.
Definition ITEM_TRANSFER_LEGACY_RESULT_BYTES : nat := 40.
Definition ITEM_TRANSFER_RESULT_BYTES : nat := 48.

Definition FROM_OFFSET : nat := 0.
Definition TO_OFFSET : nat := 17.
Definition REASON_OFFSET : nat := 34.
Definition COUNT_OFFSET : nat := 36.
Definition REASON_ID_OFFSET : nat := 40.
Definition FROM_REVISION_OFFSET : nat := 48.
Definition TO_REVISION_OFFSET : nat := 56.
Definition SELECTED_ITEM_OFFSET : nat := 64.
Definition TARGET_ROOT_OFFSET : nat := 72.
Definition TARGET_PARENT_OFFSET : nat := 80.
Definition TARGET_PARENT_REVISION_OFFSET : nat := 88.
Definition CORPSE_CONTEXT_VERSION : Z := 1.
Definition COLLECTOR_CONTEXT_VERSION : Z := 1.
Definition COLLECTOR_CATALOG_KEY : Z := UINT64_MAX.
Definition CORPSE_PID_VALUE_INDEX : nat := 3.
Definition CORPSE_RACEWAR_VALUE_INDEX : nat := 5.
Definition CORPSE_SAVE_ID_VALUE_INDEX : nat := 6.

Module item_transfer_reason.
Definition unknown : Z := 0.
Definition synthetic : Z := 1.
Definition creation : Z := 2.
Definition destruction : Z := 3.
Definition operator_repair : Z := 4.
Definition player_get : Z := 5.
Definition player_drop : Z := 6.
Definition player_put : Z := 7.
Definition player_give : Z := 8.
Definition corpse_create : Z := 9.
Definition corpse_restore : Z := 10.
Definition corpse_loot : Z := 11.
Definition locker_deposit : Z := 12.
Definition locker_withdraw : Z := 13.
Definition auction_list : Z := 14.
Definition auction_claim : Z := 15.
Definition shop_buy : Z := 16.
Definition shop_sell : Z := 17.
Definition mobile_claim : Z := 18.
Definition collector_collect : Z := 19.
Definition collector_buyback : Z := 20.
Definition collector_expire : Z := 21.
Definition death_restitution : Z := 22.
Definition corpse_raise_pet : Z := 23.
Definition pet_give : Z := 24.
Definition pet_return : Z := 25.
Definition trusted_steal : Z := 26.
Definition soulbind : Z := 27.
Definition slip : Z := 28.
Definition craft : Z := 29.
End item_transfer_reason.

(** ** Data *)

Record item_corpse_metadata := CorpseMetadata {
  corpse_present : bool;
  corpse_room_vnum : Z;
  corpse_weight : Z;
  actor_racewar : Z;
  corpse_values : list Z;
  owner_name : list byte;
  corpse_short_description : list byte;
  corpse_description : list byte;
  corpse_keywords : list byte;
}.

Record item_collector_death_policy := DeathPolicy {
  collection_delay : Z;
  sale_delay : Z;
  holding_duration : Z;
  price_percent : Z;
  minimum_value : Z;
}.

Record item_collector_death_enrollment := DeathEnrollment {
  collector_present : bool;
  death_operation : critical_operation_id;
  beneficiary_pid : Z;
  death_time : Z;
  policy : item_collector_death_policy;
  eligible_item_uids : list Z;
}.

Record item_transfer_payload := TransferPayload {
  from_owner : item_owner_identity;
  to_owner : item_owner_identity;
  reason : Z;
  reason_id : Z;
  expected_from_revision : Z;
  expected_to_revision : Z;
  selected_item_uid : Z;
  target_root_item_uid : Z;
  target_parent_item_uid : Z;
  expected_target_parent_revision : Z;
  multi_root : bool;
  entries : list item_transfer_entry;
  item_blob : list byte;
  corpse : item_corpse_metadata;
  collector : item_collector_death_enrollment;
}.

Record item_transfer_result := TransferResult {
  result_root_uid : Z;
  result_item_count : Z;
  from_owner_revision : Z;
  to_owner_revision : Z;
  max_item_revision : Z;
  corpse_revision : Z;
  collector_catalog_changed : bool;
}.

#[export] Instance corpse_metadata_eq_dec : EqDecision item_corpse_metadata.
Proof. solve_decision. Defined.
#[export] Instance death_policy_eq_dec : EqDecision item_collector_death_policy.
Proof. solve_decision. Defined.
#[export] Instance death_enrollment_eq_dec : EqDecision item_collector_death_enrollment.
Proof. solve_decision. Defined.
#[export] Instance transfer_payload_eq_dec : EqDecision item_transfer_payload.
Proof. solve_decision. Defined.
#[export] Instance transfer_result_eq_dec : EqDecision item_transfer_result.
Proof. solve_decision. Defined.

(** The value-initialised sidecars. *)
Definition no_corpse : item_corpse_metadata :=
  CorpseMetadata false 0 0 0 (replicate 8 0) [] [] [] [].
Definition no_collector : item_collector_death_enrollment :=
  DeathEnrollment false (replicate 16 Byte.x00) 0 0 (DeathPolicy 0 0 0 0 0) [].

(** ** Owners *)

Definition encode_owner (o : item_owner_identity) : list byte :=
  [to_byte (owner_type o)] ++ le_split 8 (owner_id o) ++ le_split 8 (context_id o).

Definition decode_owner (input : list byte) (offset : nat) : item_owner_identity :=
  OwnerIdentity (byte_of input offset) (get_le 8 input (offset + 1)) (get_le 8 input (offset + 9)).

Definition entity_type_for_owner (type : Z) : Z :=
  if type =? item_owner_type.player then critical_entity_type.player
  else if type =? item_owner_type.container then critical_entity_type.item
  else if type =? item_owner_type.corpse then critical_entity_type.corpse
  else if type =? item_owner_type.locker then critical_entity_type.locker
  else if type =? item_owner_type.auction then critical_entity_type.auction
  else if type =? item_owner_type.room then critical_entity_type.room
  else if type =? item_owner_type.shopkeeper then critical_entity_type.shopkeeper
  else if type =? item_owner_type.collector then critical_entity_type.collector
  else if type =? item_owner_type.pet then critical_entity_type.pet
  else critical_entity_type.system.

Definition item_owner_identity_valid (o : item_owner_identity) : bool :=
  let type := owner_type o in
  if (type <=? item_owner_type.unknown) || (item_owner_type.pet <? type) then false
  else if (type =? item_owner_type.system) || (type =? item_owner_type.destruction)
  then (owner_id o =? 0) && (context_id o =? 0)
  else if type =? item_owner_type.collector then nz (owner_id o) && (context_id o =? 0)
  else if type =? item_owner_type.pet
  then nz (owner_id o) && nz (context_id o) && (context_id o <=? INT32_MAX)
  else nz (owner_id o).

Definition item_owner_identity_equal (left right : item_owner_identity) : bool :=
  (owner_type left =? owner_type right) && (owner_id left =? owner_id right)
  && (context_id left =? context_id right).

Definition item_corpse_owner_id (player_pid corpse_save_id : Z) : Z :=
  if negb (nz player_pid) || negb (nz corpse_save_id) then 0
  else Z.lor (Z.shiftl player_pid 32) corpse_save_id.
Definition item_shopkeeper_owner_id (shop_id : Z) : Z := shop_id + 1.
Definition item_collector_owner_id (listing_id : Z) : Z := listing_id.

Definition item_owner_key (SHA256 : list byte → list byte) (o : item_owner_identity)
  : option critical_entity_key :=
  ensure? item_owner_identity_valid o in
  if nz (owner_id o) && negb (nz (context_id o))
  then Some (EntityKey (entity_type_for_owner (owner_type o)) (owner_id o))
  else
    let identity := get_le 8 (SHA256 (encode_owner o)) 0 in
    Some (EntityKey (entity_type_for_owner (owner_type o)) (if nz identity then identity else 1)).

Definition valid_text (value : list byte) (maximum : Z) (required : bool) : bool :=
  negb ((required && (length value =? 0)%nat) || (maximum <? vsize value))
  && forallb (λ c, (32 <=? of_byte c) && negb (of_byte c =? 127)) value.

Definition valid_reason (r : Z) : bool :=
  (item_transfer_reason.synthetic <=? r) && (r <=? item_transfer_reason.craft)
  && negb ((item_transfer_reason.collector_collect <=? r)
           && (r <=? item_transfer_reason.collector_expire)).

(** ** Looking items up *)

Definition item_count (p : item_transfer_payload) : Z := vsize (entries p).
(** [payload.items[0]]. *)
Definition first_entry (p : item_transfer_payload) : item_transfer_entry :=
  default (TransferEntry 0 0 0 0 0 0) (entries p !! 0%nat).

(** [std::lower_bound]: [len] halves, so the number of items is fuel enough. *)
Fixpoint lower_bound (fuel : nat) (l : list item_transfer_entry) (first len : nat) (uid : Z) : nat :=
  match fuel with
  | O => first
  | S fuel =>
      if (len =? 0)%nat then first
      else
        let half := Nat.div2 len in
        let middle := (first + half)%nat in
        let less := match l !! middle with Some e => item_uid e <? uid | None => false end in
        if less then lower_bound fuel l (S middle) (len - half - 1) uid
        else lower_bound fuel l first half uid
  end.

Definition find_payload_item (p : item_transfer_payload) (uid : Z) : option item_transfer_entry :=
  match entries p !! lower_bound (S (length (entries p))) (entries p) 0 (length (entries p)) uid with
  | Some found => if item_uid found =? uid then Some found else None
  | None => None
  end.

(** The climb from an item to the item no parent of which is moved. *)
Fixpoint climb (fuel : nat) (p : item_transfer_payload) (entry : item_transfer_entry) : Z :=
  match fuel with
  | O => 0
  | S fuel =>
      match find_payload_item p (parent_item_uid entry) with
      | None => item_uid entry
      | Some parent => climb fuel p parent
      end
  end.

Definition climb_from (p : item_transfer_payload) (uid : Z) : Z :=
  match find_payload_item p uid with
  | None => 0
  | Some entry => climb (S (length (entries p))) p entry
  end.

Definition selected_root_for (p : item_transfer_payload) (uid : Z) : Z :=
  if reason p =? item_transfer_reason.craft then climb_from p uid
  else if negb (multi_root p)
  then if nz (selected_item_uid p) then selected_item_uid p else root_item_uid (first_entry p)
  else climb_from p uid.

Definition item_transfer_selected_root : item_transfer_payload → Z → Z := selected_root_for.

Definition target_topology_for (p : item_transfer_payload) (uid : Z) : option (Z * Z) :=
  match find_payload_item p uid with
  | None => None
  | Some entry =>
      let selected_root := selected_root_for p uid in
      ensure? nz selected_root in
      if reason p =? item_transfer_reason.craft
      then Some (root_item_uid entry, parent_item_uid entry)
      else
        let root :=
          if nz (target_parent_item_uid p) then target_root_item_uid p else selected_root in
        let parent :=
          if uid =? selected_root then target_parent_item_uid p else parent_item_uid entry in
        ensure? nz root in Some (root, parent)
  end.

Definition item_transfer_target_topology : item_transfer_payload → Z → option (Z * Z) :=
  target_topology_for.

(** [std::unique] on a sorted vector. *)
Fixpoint unique (l : list Z) : list Z :=
  match l with
  | a :: (b :: _) as rest => if a =? b then unique rest else a :: unique rest
  | _ => l
  end.

Definition item_transfer_selected_roots (p : item_transfer_payload) : option (list Z) :=
  let roots :=
    filter (λ uid, selected_root_for p uid = uid) (item_uid <$> entries p) in
  let roots := unique (merge_sort Z.le roots) in
  ensure? negb (length roots =? 0)%nat in
  Some roots.

(** The loop of [item_transfer_result_root]. *)
Fixpoint smallest_root (p : item_transfer_payload) (l : list item_transfer_entry) (result : Z) : Z :=
  match l with
  | [] => result
  | entry :: l =>
      let selected_root := selected_root_for p (item_uid entry) in
      if negb (nz selected_root) then 0
      else smallest_root p l
             (if negb (nz result) || (selected_root <? result) then selected_root else result)
  end.

Definition item_transfer_result_root (p : item_transfer_payload) : Z :=
  if reason p =? item_transfer_reason.craft then selected_item_uid p
  else smallest_root p (entries p) 0.

(** ** Crafted outputs and the collector's intake *)

(** No two neighbours equal, in a sorted vector. *)
Fixpoint neighbours_differ (l : list Z) : bool :=
  match l with
  | a :: (b :: _) as rest => negb (a =? b) && neighbours_differ rest
  | _ => true
  end.

(** [std::is_sorted]. *)
Fixpoint is_sorted (l : list Z) : bool :=
  match l with
  | a :: (b :: _) as rest => negb (b <? a) && is_sorted rest
  | _ => true
  end.

Definition craft_output_valid (selected index : Z) (output : player_item_snapshot) : bool :=
  nz (object_uid output) && (0 <? vnum output) && (parent_index output <? index)
  && (PLAYER_SNAPSHOT_NO_PARENT <=? parent_index output)
  && negb ((index =? 0) && negb (object_uid output =? selected))
  && negb (nz index && (parent_index output =? PLAYER_SNAPSHOT_NO_PARENT)
           && (object_uid output =? selected)).

Fixpoint craft_outputs_valid (selected index : Z) (outputs : list player_item_snapshot) : bool :=
  match outputs with
  | [] => true
  | output :: outputs =>
      craft_output_valid selected index output && craft_outputs_valid selected (index + 1) outputs
  end.

Definition decode_craft_outputs (p : item_transfer_payload) : option (list player_item_snapshot) :=
  ensure? (reason p =? item_transfer_reason.craft)
          && (vsize (item_blob p) <=? ITEM_TRANSFER_ITEM_BLOB_MAX_BYTES) in
  if (length (item_blob p) =? 0)%nat then Some []
  else
    match player_item_snapshot_list_decode (item_blob p) with
    | Err _ => None
    | Ok outputs =>
        ensure? negb (length outputs =? 0)%nat && (vsize outputs <=? ITEM_TRANSFER_MAX_ITEMS) in
        ensure? craft_outputs_valid (selected_item_uid p) 0 outputs in
        ensure? neighbours_differ (merge_sort Z.le (object_uid <$> outputs)) in
        Some outputs
    end.

Definition valid_collector_context (p : item_transfer_payload) (payload_version : Z) : bool :=
  let c := collector p in
  if negb (collector_present c) then (length (eligible_item_uids c) =? 0)%nat
  else
    (ITEM_TRANSFER_PAYLOAD_VERSION <=? payload_version)
    && (reason p =? item_transfer_reason.corpse_create) && corpse_present (corpse p)
    && negb (critical_operation_id_is_zero (death_operation c))
    && nz (beneficiary_pid c) && nz (death_time c)
    && (beneficiary_pid c =? wrap 32 (Z.shiftr (owner_id (to_owner p)) 32))
    && (death_time c =? wrap 32 (owner_id (to_owner p)))
    && nz (collection_delay (policy c))
    && (collection_delay (policy c) <=? sale_delay (policy c))
    && nz (holding_duration (policy c)) && nz (price_percent (policy c))
    && nz (minimum_value (policy c))
    && (vsize (eligible_item_uids c) <=? item_count p)
    && is_sorted (eligible_item_uids c) && neighbours_differ (eligible_item_uids c)
    && forallb (λ uid, match find_payload_item p uid with Some _ => true | None => false end)
         (eligible_item_uids c).

(** ** Validation *)

Definition is_type (o : item_owner_identity) (type : Z) : bool := owner_type o =? type.
Definition is_reason (p : item_transfer_payload) (r : Z) : bool := reason p =? r.

Definition basics_valid (p : item_transfer_payload) (payload_version : Z) : bool :=
  item_owner_identity_valid (from_owner p) && item_owner_identity_valid (to_owner p)
  && valid_reason (reason p) && nz (item_count p) && (item_count p <=? ITEM_TRANSFER_MAX_ITEMS)
  && negb ((payload_version <? ITEM_TRANSFER_BATCH_PAYLOAD_VERSION)
           && (Z.of_nat ITEM_TRANSFER_LEGACY_MAX_ITEMS <? item_count p))
  && (vsize (item_blob p) <=? ITEM_TRANSFER_ITEM_BLOB_MAX_BYTES)
  && negb (is_type (from_owner p) item_owner_type.collector)
  && negb (is_type (to_owner p) item_owner_type.collector)
  && valid_collector_context p payload_version.

Definition world_corpse_raise_pet (p : item_transfer_payload) : bool :=
  is_reason p item_transfer_reason.corpse_raise_pet
  && is_type (from_owner p) item_owner_type.room && nz (owner_id (from_owner p))
  && (owner_id (from_owner p) <=? INT32_MAX) && negb (nz (context_id (from_owner p)))
  && is_type (to_owner p) item_owner_type.pet && nz (owner_id (to_owner p))
  && nz (context_id (to_owner p)) && (context_id (to_owner p) <=? INT32_MAX) && multi_root p
  && negb (nz (target_root_item_uid p)) && negb (nz (target_parent_item_uid p))
  && (wrap 64 (reason_id p) =? owner_id (to_owner p)).

Definition player_transfer (p : item_transfer_payload) : bool :=
  is_reason p item_transfer_reason.trusted_steal || is_reason p item_transfer_reason.soulbind
  || is_reason p item_transfer_reason.slip.

Definition player_transfer_valid (p : item_transfer_payload) (payload_version : Z) : bool :=
  (ITEM_TRANSFER_PAYLOAD_VERSION <=? payload_version)
  && is_type (from_owner p) item_owner_type.player && is_type (to_owner p) item_owner_type.player
  && nz (owner_id (from_owner p)) && nz (owner_id (to_owner p))
  && (owner_id (from_owner p) <=? INT32_MAX) && (owner_id (to_owner p) <=? INT32_MAX)
  && negb (nz (context_id (from_owner p))) && negb (nz (context_id (to_owner p)))
  && negb (owner_id (from_owner p) =? owner_id (to_owner p))
  && negb (multi_root p) && negb (nz (target_parent_item_uid p))
  && (reason_id p =? to_signed 64 (owner_id (from_owner p))).

Definition craft_valid (p : item_transfer_payload) (payload_version : Z) : bool :=
  (ITEM_TRANSFER_BATCH_PAYLOAD_VERSION <=? payload_version)
  && is_type (from_owner p) item_owner_type.player && is_type (to_owner p) item_owner_type.player
  && item_owner_identity_equal (from_owner p) (to_owner p)
  && nz (owner_id (from_owner p)) && negb (nz (context_id (from_owner p)))
  && negb (nz (context_id (to_owner p))) && multi_root p && nz (selected_item_uid p)
  && negb (nz (target_root_item_uid p)) && negb (nz (target_parent_item_uid p))
  && negb (nz (expected_target_parent_revision p))
  && match decode_craft_outputs p with
     | None => false
     | Some outputs =>
         negb ((length outputs =? 0)%nat
               && match find_payload_item p (selected_item_uid p) with Some _ => false | None => true end)
         && (item_count p + vsize outputs <=? CRITICAL_COMMAND_MAX_KEYS - 2)
         && forallb (λ output,
              negb (existsb (λ entry, object_uid output =? item_uid entry) (entries p))) outputs
     end.

Definition pet_valid (p : item_transfer_payload) : bool :=
  let give := is_reason p item_transfer_reason.pet_give in
  let return_ := is_reason p item_transfer_reason.pet_return in
  negb ((is_type (from_owner p) item_owner_type.pet || is_type (to_owner p) item_owner_type.pet)
        && negb give && negb return_ && negb (is_reason p item_transfer_reason.corpse_raise_pet))
  && negb (give && negb (is_type (from_owner p) item_owner_type.player
                         && is_type (to_owner p) item_owner_type.pet
                         && (owner_id (from_owner p) =? context_id (to_owner p))
                         && (reason_id p =? to_signed 64 (owner_id (to_owner p)))))
  && negb (return_ && negb (is_type (from_owner p) item_owner_type.pet
                            && is_type (to_owner p) item_owner_type.player
                            && (context_id (from_owner p) =? owner_id (to_owner p))
                            && (reason_id p =? to_signed 64 (owner_id (from_owner p)))))
  && negb ((give || return_) && (multi_root p || nz (target_parent_item_uid p))).

Definition corpse_value (index : nat) (c : item_corpse_metadata) : Z :=
  default 0 (corpse_values c !! index).

Definition corpse_metadata_valid (p : item_transfer_payload) : bool :=
  let c := corpse p in
  let owner :=
    if is_reason p item_transfer_reason.corpse_create then to_owner p else from_owner p in
  let owner_pid := wrap 32 (Z.shiftr (owner_id owner) 32) in
  let save_id := wrap 32 (owner_id owner) in
  let racewar := corpse_value CORPSE_RACEWAR_VALUE_INDEX c in
  nz owner_pid && (owner_pid <=? INT32_MAX) && nz save_id && (save_id <=? INT32_MAX)
  && negb (nz (context_id owner)) && (0 <=? corpse_room_vnum c) && (actor_racewar c <=? 4)
  && (corpse_value CORPSE_PID_VALUE_INDEX c =? to_signed 32 owner_pid)
  && (corpse_value CORPSE_SAVE_ID_VALUE_INDEX c =? to_signed 32 save_id)
  && (0 <=? racewar) && (racewar <=? 4)
  && valid_text (owner_name c) ITEM_TRANSFER_CORPSE_NAME_MAX_BYTES true
  && valid_text (corpse_short_description c) ITEM_TRANSFER_CORPSE_SHORT_DESCRIPTION_MAX_BYTES false
  && valid_text (corpse_description c) ITEM_TRANSFER_CORPSE_DESCRIPTION_MAX_BYTES false
  && valid_text (corpse_keywords c) ITEM_TRANSFER_CORPSE_KEYWORDS_MAX_BYTES false.

Definition corpse_valid (p : item_transfer_payload) (payload_version : Z) : bool :=
  let create := is_reason p item_transfer_reason.corpse_create in
  let loot := is_reason p item_transfer_reason.corpse_loot in
  let raise := is_reason p item_transfer_reason.corpse_raise_pet
               && negb (world_corpse_raise_pet p) in
  let context_required :=
    (ITEM_TRANSFER_CORPSE_PAYLOAD_VERSION <=? payload_version) && (create || loot || raise) in
  eqb context_required (corpse_present (corpse p))
  && negb (create && negb (is_type (from_owner p) item_owner_type.player
                           && is_type (to_owner p) item_owner_type.corpse))
  && negb (loot && negb (is_type (from_owner p) item_owner_type.corpse
                         && is_type (to_owner p) item_owner_type.player))
  && negb (raise && negb (is_type (from_owner p) item_owner_type.corpse
                          && is_type (to_owner p) item_owner_type.pet))
  && negb (corpse_present (corpse p) && negb (corpse_metadata_valid p)).

Definition creation (p : item_transfer_payload) : bool :=
  is_type (from_owner p) item_owner_type.system.
Definition destruction (p : item_transfer_payload) : bool :=
  is_type (to_owner p) item_owner_type.destruction.

Definition direction_valid (p : item_transfer_payload) : bool :=
  negb (is_type (to_owner p) item_owner_type.system)
  && negb (is_type (from_owner p) item_owner_type.destruction)
  && eqb (is_reason p item_transfer_reason.creation) (creation p)
  && eqb (is_reason p item_transfer_reason.destruction) (destruction p)
  && negb ((creation p || destruction p)
           && item_owner_identity_equal (from_owner p) (to_owner p)).

Definition batch_reason (p : item_transfer_payload) : bool :=
  is_reason p item_transfer_reason.player_get || is_reason p item_transfer_reason.player_drop
  || is_reason p item_transfer_reason.player_put || is_reason p item_transfer_reason.locker_deposit
  || is_reason p item_transfer_reason.locker_withdraw || is_reason p item_transfer_reason.corpse_loot
  || is_reason p item_transfer_reason.corpse_raise_pet
  || is_reason p item_transfer_reason.corpse_create
  || is_reason p item_transfer_reason.destruction || is_reason p item_transfer_reason.craft.

Definition creation_batch (p : item_transfer_payload) : bool :=
  creation p && is_reason p item_transfer_reason.creation.

Definition batch_valid (p : item_transfer_payload) (payload_version : Z) : bool :=
  let craft := is_reason p item_transfer_reason.craft in
  (ITEM_TRANSFER_BATCH_PAYLOAD_VERSION <=? payload_version)
  && negb (negb craft && nz (selected_item_uid p))
  && (creation_batch p || batch_reason p)
  && negb (craft && negb (nz (selected_item_uid p) && multi_root p))
  && negb (creation_batch p && negb (is_type (to_owner p) item_owner_type.player
                                     && negb (nz (target_root_item_uid p))
                                     && negb (nz (target_parent_item_uid p))))
  && (if nz (target_parent_item_uid p) then nz (target_root_item_uid p)
      else negb (nz (target_root_item_uid p))).

Definition after_previous (previous : option item_transfer_entry) (entry : item_transfer_entry) : bool :=
  match previous with None => true | Some p => item_uid p <? item_uid entry end.

Definition created_entry_valid (p : item_transfer_payload) (entry : item_transfer_entry) : bool :=
  let selected_root := selected_root_for p (item_uid entry) in
  match find_payload_item p selected_root with
  | None => false
  | Some root =>
      (selected_root =? root_item_uid entry) && (root_item_uid root =? item_uid root)
      && negb (nz (parent_item_uid root))
      && match target_topology_for p (item_uid entry) with
         | None => false
         | Some (target_root, target_parent) =>
             (target_root =? root_item_uid entry) && (target_parent =? parent_item_uid entry)
         end
  end.

Definition moved_entry_valid (p : item_transfer_payload) (entry : item_transfer_entry) : bool :=
  match find_payload_item p (selected_root_for p (item_uid entry)) with
  | None => false
  | Some selected =>
      (root_item_uid selected =? root_item_uid entry)
      && match target_topology_for p (item_uid entry) with Some _ => true | None => false end
  end.

Fixpoint batch_entries_valid (p : item_transfer_payload) (previous : option item_transfer_entry)
    (l : list item_transfer_entry) : bool :=
  match l with
  | [] => true
  | entry :: l =>
      nz (item_uid entry) && nz (root_item_uid entry) && (0 <? entry_vnum entry)
      && (if creation_batch p
          then (expected_item_revision entry =? ITEM_TRANSFER_ABSENT_REVISION)
               && (expected_state entry =? item_custody_state.absent)
          else expected_state entry =? item_custody_state.active)
      && after_previous previous entry
      && negb (item_uid entry =? target_parent_item_uid p)
      && (if creation_batch p then created_entry_valid p entry else moved_entry_valid p entry)
      && batch_entries_valid p (Some entry) l
  end.

Definition source_root (p : item_transfer_payload) : Z := root_item_uid (first_entry p).
Definition selected_uid (p : item_transfer_payload) : Z :=
  if nz (selected_item_uid p) then selected_item_uid p else source_root p.
Definition target_root (p : item_transfer_payload) : Z :=
  if nz (target_root_item_uid p) then target_root_item_uid p else selected_uid p.

(** The first loop of a tree; the result is [found_selected]. *)
Fixpoint tree_entries_valid (p : item_transfer_payload) (previous : option item_transfer_entry)
    (found_selected : bool) (l : list item_transfer_entry) : option bool :=
  match l with
  | [] => Some found_selected
  | entry :: l =>
      ensure? nz (item_uid entry) && (root_item_uid entry =? source_root p)
              && (0 <? entry_vnum entry)
              && (expected_state entry =?
                    (if creation p then item_custody_state.absent else item_custody_state.active))
              && negb (creation p
                       && negb (expected_item_revision entry =? ITEM_TRANSFER_ABSENT_REVISION)) in
      ensure? after_previous previous entry in
      ensure? negb (item_uid entry =? target_parent_item_uid p) in
      if item_uid entry =? selected_uid p then
        ensure? negb found_selected in tree_entries_valid p (Some entry) true l
      else
        ensure? nz (parent_item_uid entry) in tree_entries_valid p (Some entry) found_selected l
  end.

(** The climb from an ancestor to the selected item, by [std::find_if]. *)
Fixpoint reaches (fuel : nat) (p : item_transfer_payload) (ancestor_uid : Z) : bool :=
  match fuel with
  | O => false
  | S fuel =>
      if ancestor_uid =? selected_uid p then true
      else
        match List.find (λ e, item_uid e =? ancestor_uid) (entries p) with
        | None => false
        | Some parent => reaches fuel p (parent_item_uid parent)
        end
  end.

Definition tree_valid (p : item_transfer_payload) : bool :=
  nz (source_root p) && nz (selected_uid p) && nz (target_root p)
  && negb (negb (nz (target_parent_item_uid p)) && negb (target_root p =? selected_uid p))
  && match tree_entries_valid p None false (entries p) with
     | None => false
     | Some found_selected =>
         found_selected && negb (creation p && negb (selected_uid p =? source_root p))
         && forallb (λ e, (item_uid e =? selected_uid p)
                          || reaches (length (entries p)) p (parent_item_uid e)) (entries p)
     end.

Definition validate_payload (p : item_transfer_payload) (payload_version : Z) : bool :=
  basics_valid p payload_version
  && negb (player_transfer p && negb (player_transfer_valid p payload_version))
  && negb (is_reason p item_transfer_reason.craft && negb (craft_valid p payload_version))
  && pet_valid p && corpse_valid p payload_version && direction_valid p
  && if multi_root p then batch_valid p payload_version && batch_entries_valid p None (entries p)
     else tree_valid p.

(** ** Lemmas: looking up in sorted entries *)

Definition uid_lt (a b : item_transfer_entry) : Prop := item_uid a < item_uid b.

Definition uid_at (l : list item_transfer_entry) (i : nat) : Z := from_option item_uid 0 (l !! i).

Lemma sorted_uid_lt l i j a b :
  StronglySorted uid_lt l → l !! i = Some a → l !! j = Some b → (i < j)%nat → item_uid a < item_uid b.
Proof.
  intros S. revert i j. induction S as [|x l S IH F]; intros i j A B L; [done|].
  destruct j as [|j]; [lia|]. simpl in B. destruct i as [|i]; simpl in A.
  - simplify_eq. rewrite Forall_forall in F. apply F. by eapply list_elem_of_lookup_2.
  - apply (IH i j); [done..|lia].
Qed.

Lemma sorted_uid_unique l a b :
  StronglySorted uid_lt l → a ∈ l → b ∈ l → item_uid a = item_uid b → a = b.
Proof.
  intros S [i A]%list_elem_of_lookup [j B]%list_elem_of_lookup E.
  destruct (Nat.lt_trichotomy i j) as [L|[->|L]]; [|by simplify_eq|].
  - pose proof (sorted_uid_lt _ _ _ _ _ S A B L). lia.
  - pose proof (sorted_uid_lt _ _ _ _ _ S B A L). lia.
Qed.

Lemma sorted_uids_nodup l : StronglySorted uid_lt l → NoDup (item_uid <$> l).
Proof.
  intros S. apply NoDup_alt. intros i j u A B. rewrite list_lookup_fmap in A, B.
  destruct (l !! i) as [a|] eqn:Ea, (l !! j) as [b|] eqn:Eb; simplify_eq/=.
  destruct (Nat.lt_trichotomy i j) as [L|[->|L]]; [|done|].
  - pose proof (sorted_uid_lt _ _ _ _ _ S Ea Eb L). lia.
  - pose proof (sorted_uid_lt _ _ _ _ _ S Eb Ea L). lia.
Qed.

(** The search keeps the place between what is smaller and what is not. *)
Lemma lower_bound_spec l uid fuel first len :
  (len < fuel)%nat → (first + len <= length l)%nat → StronglySorted uid_lt l →
  (∀ i a, l !! i = Some a → (i < first)%nat → item_uid a < uid) →
  (∀ i a, l !! i = Some a → (first + len <= i)%nat → uid <= item_uid a) →
  let k := lower_bound fuel l first len uid in
  (∀ i a, l !! i = Some a → (i < k)%nat → item_uid a < uid)
  ∧ (∀ i a, l !! i = Some a → (k <= i)%nat → uid <= item_uid a).
Proof.
  intros F L S. revert first len F L. induction fuel as [|fuel IH]; intros first len F L Lo Hi; [lia|].
  cbn [lower_bound]. destruct (Nat.eqb_spec len 0) as [->|N].
  { split; [done|]. intros i a A I. apply (Hi i a A). lia. }
  assert (Nat.div2 len < len)%nat as D by (apply Nat.lt_div2; lia).
  generalize dependent (Nat.div2 len). intros half D.
  destruct (lookup_lt_is_Some_2 l (first + half)) as [m M]; [lia|]. rewrite M.
  destruct (Z.ltb_spec (item_uid m) uid) as [C|C].
  - apply IH; [lia|lia| |].
    + intros i a A I. destruct (Nat.eq_dec i (first + half)) as [->|]; [by simplify_eq|].
      pose proof (sorted_uid_lt _ _ _ _ _ S A M ltac:(lia)). lia.
    + intros i a A I. apply (Hi i a A). lia.
  - apply IH; [lia|lia|done|]. intros i a A I.
    destruct (Nat.eq_dec i (first + half)) as [->|]; [by simplify_eq|].
    pose proof (sorted_uid_lt _ _ _ _ _ S M A ltac:(lia)). lia.
Qed.

Lemma find_payload_item_in p uid e :
  find_payload_item p uid = Some e → e ∈ entries p ∧ item_uid e = uid.
Proof.
  unfold find_payload_item. intros H.
  destruct (entries p !! _) as [x|] eqn:E; [|done]. destruct (Z.eqb_spec (item_uid x) uid); simplify_eq.
  split; [|done]. by eapply list_elem_of_lookup_2.
Qed.

Lemma find_payload_item_spec p uid e :
  StronglySorted uid_lt (entries p) →
  find_payload_item p uid = Some e ↔ e ∈ entries p ∧ item_uid e = uid.
Proof.
  intros S. split; [apply find_payload_item_in|]. intros [[i I]%list_elem_of_lookup <-].
  unfold find_payload_item.
  destruct (lower_bound_spec (entries p) (item_uid e) (Datatypes.S (length (entries p))) 0
    (length (entries p))) as [Lo Hi]; [lia|lia|done|lia| |].
  { intros j a J ?. apply lookup_lt_Some in J. lia. }
  set (k := lower_bound _ _ _ _ _) in *.
  destruct (Nat.lt_trichotomy i k) as [L|[->|L]].
  - pose proof (Lo _ _ I L). lia.
  - by rewrite I, Z.eqb_refl.
  - destruct (lookup_lt_is_Some_2 (entries p) k) as [x X]; [apply lookup_lt_Some in I; lia|].
    pose proof (sorted_uid_lt _ _ _ _ _ S X I L). pose proof (Hi _ _ X ltac:(lia)). lia.
Qed.

Lemma find_payload_item_None p uid :
  StronglySorted uid_lt (entries p) →
  find_payload_item p uid = None ↔ uid ∉ item_uid <$> entries p.
Proof.
  intros S. split.
  - intros H I. apply list_elem_of_fmap in I as (e & -> & E).
    rewrite (proj2 (find_payload_item_spec p _ e S)) in H by done. done.
  - intros N. destruct (find_payload_item p uid) as [e|] eqn:E; [|done].
    apply find_payload_item_in in E as [I <-]. destruct N. by apply list_elem_of_fmap_2.
Qed.

(** ** Specification: climbing over the moved items *)

(** From an item, over moved parents, to another. *)
Inductive climbs (l : list item_transfer_entry) : nat → Z → Z → Prop :=
| climbs_here uid : climbs l 0 uid uid
| climbs_up e n root :
    e ∈ l → climbs l n (parent_item_uid e) root → climbs l (S n) (item_uid e) root.

(** A moved item whose parent does not move. *)
Definition is_top (l : list item_transfer_entry) (root : Z) : Prop :=
  ∃ e, e ∈ l ∧ item_uid e = root ∧ parent_item_uid e ∉ item_uid <$> l.

Lemma climbs_from_in l n u root :
  climbs l n u root → root ∈ item_uid <$> l → u ∈ item_uid <$> l.
Proof. intros [v|e m r I _] T; [done|by apply list_elem_of_fmap_2]. Qed.

Lemma climbs_in l n u root : climbs l n u root → is_top l root → u ∈ item_uid <$> l.
Proof.
  intros C (t & I & <- & _). apply (climbs_from_in _ _ _ _ C). by apply list_elem_of_fmap_2.
Qed.

Section Climb.
Context (p : item_transfer_payload).
Hypothesis sorted : StronglySorted uid_lt (entries p).
Hypothesis nonzero : 0 ∉ item_uid <$> entries p.

Lemma climb_sound fuel e r :
  e ∈ entries p → climb fuel p e = r → r ≠ 0 →
  is_top (entries p) r ∧ ∃ n, climbs (entries p) n (item_uid e) r.
Proof.
  revert e. induction fuel as [|fuel IH]; intros e I H N; simpl in H; [by subst|].
  destruct (find_payload_item p (parent_item_uid e)) as [x|] eqn:F.
  - apply find_payload_item_in in F as [Ix Ex]. destruct (IH x Ix H N) as [T (n & C)].
    split; [done|]. exists (S n). rewrite Ex in C. by apply climbs_up.
  - subst r. split; [|exists 0%nat; constructor].
    exists e. split_and!; [done..|]. by apply find_payload_item_None.
Qed.

Lemma climb_complete fuel e n r :
  e ∈ entries p → climbs (entries p) n (item_uid e) r → is_top (entries p) r →
  (n < fuel)%nat → climb fuel p e = r.
Proof.
  intros I C (t & It & Et & Nt). remember (item_uid e) as u eqn:Eu. revert e fuel I Eu.
  induction C as [u|e' n r I' C IH]; intros e fuel I Eu F; (destruct fuel as [|fuel]; [lia|]); simpl.
  - assert (t = e) as -> by (eapply sorted_uid_unique; [exact sorted|done|done|congruence]).
    by rewrite (proj2 (find_payload_item_None p _ sorted) Nt).
  - assert (e' = e) as -> by (by eapply sorted_uid_unique).
    destruct (find_payload_item p (parent_item_uid e)) as [x|] eqn:Fx.
    + apply find_payload_item_in in Fx as [Ix Ex]. apply (IH Et x fuel Ix); [done|lia].
    + apply (find_payload_item_None p _ sorted) in Fx. destruct Fx.
      apply (climbs_in _ _ _ _ C). by exists t.
Qed.
End Climb.

(** A climb to a top item passes no item twice, so it has at most one step for each
    moved item. *)
Lemma climbs_deterministic l u m n root :
  StronglySorted uid_lt l → climbs l m u root → climbs l n u root → is_top l root → m = n.
Proof.
  intros S C. revert n. induction C as [u|e m root I C IH]; intros n D T.
  - inversion D as [|e k r I' D']; subst; [done|].
    pose proof T as (t & It & Et & Nt). assert (t = e) as -> by by eapply sorted_uid_unique.
    destruct Nt. by apply (climbs_in _ _ _ _ D').
  - inversion D as [u' E|e' k r I' D' E]; subst.
    + pose proof T as (t & It & Et & Nt). assert (t = e) as -> by by eapply sorted_uid_unique.
      destruct Nt. by apply (climbs_in _ _ _ _ C).
    + assert (e' = e) as -> by by eapply sorted_uid_unique. f_equal. by apply IH.
Qed.

Lemma climbs_path l n u root :
  StronglySorted uid_lt l → climbs l n u root → is_top l root →
  ∃ path : list Z, length path = n ∧ NoDup path ∧ path ⊆ item_uid <$> l
    ∧ ∀ v, v ∈ path → ∃ k, (k <= n)%nat ∧ (0 < k)%nat ∧ climbs l k v root.
Proof.
  intros S C T. induction C as [u|e n root I C IH].
  - exists []. split_and!; [done|constructor|set_solver|set_solver].
  - destruct (IH T) as (path & L & D & Sub & P). exists (item_uid e :: path). split_and!.
    + simpl. by f_equal.
    + constructor; [|done]. intros V. destruct (P _ V) as (k & K & _ & Ck).
      assert (k = Datatypes.S n) by (eapply climbs_deterministic; [done|exact Ck|by constructor|done]). lia.
    + intros v V. apply elem_of_cons in V as [->|V]; [by apply list_elem_of_fmap_2|by apply Sub].
    + intros v V. apply elem_of_cons in V as [->|V].
      * exists (Datatypes.S n). split_and!; [lia|lia|by constructor].
      * destruct (P _ V) as (k & ? & ? & ?). exists k. split_and!; [lia|done|done].
Qed.

Lemma climbs_bounded l n u root :
  StronglySorted uid_lt l → climbs l n u root → is_top l root → (n <= length l)%nat.
Proof.
  intros S C T. destruct (climbs_path l n u root S C T) as (path & <- & D & Sub & _).
  rewrite <- (length_fmap item_uid l). apply submseteq_length, NoDup_submseteq; [done|].
  intros v V. by apply Sub.
Qed.

(** The loops find the top item above a moved item exactly when there is one: the number
    of items is enough, and only a cycle of parents gives nothing. *)
Lemma climb_from_spec p uid r :
  StronglySorted uid_lt (entries p) → 0 ∉ item_uid <$> entries p → r ≠ 0 →
  climb_from p uid = r ↔
  uid ∈ item_uid <$> entries p ∧ is_top (entries p) r ∧ ∃ n, climbs (entries p) n uid r.
Proof.
  intros S N R. unfold climb_from. split.
  - destruct (find_payload_item p uid) as [e|] eqn:F; [|by intros <-].
    apply find_payload_item_in in F as [I <-]. intros H.
    split; [by apply list_elem_of_fmap_2|]. by eapply climb_sound.
  - intros (U & T & n & C). apply list_elem_of_fmap in U as (e & -> & I).
    rewrite (proj2 (find_payload_item_spec p _ e S)) by done.
    eapply climb_complete; [done|done|exact C|done|]. pose proof (climbs_bounded _ _ _ _ S C T). lia.
Qed.

(** ** Lemmas: what validation says of the entries *)

Fixpoint ascending (previous : option item_transfer_entry) (l : list item_transfer_entry) : Prop :=
  match l with
  | [] => True
  | e :: l => after_previous previous e = true ∧ ascending (Some e) l
  end.

Lemma ascending_from a l : ascending (Some a) l → Forall (uid_lt a) l ∧ StronglySorted uid_lt l.
Proof.
  revert a. induction l as [|e l IH]; intros a H; [by split; constructor|].
  destruct H as [L H]. apply Z.ltb_lt in L. destruct (IH e H) as [F S].
  split; [|by constructor]. constructor; [done|].
  eapply Forall_impl; [exact F|]. unfold uid_lt. intros x X. lia.
Qed.

Lemma ascending_sorted l : ascending None l → StronglySorted uid_lt l.
Proof.
  destruct l as [|e l]; [constructor|]. intros [_ H]. destruct (ascending_from e l H).
  by constructor.
Qed.

(** What both kinds of payload say of each entry. *)
Definition entry_valid (p : item_transfer_payload) (e : item_transfer_entry) : Prop :=
  item_uid e ≠ 0 ∧ root_item_uid e ≠ 0 ∧ 0 < entry_vnum e
  ∧ expected_state e =
      (if creation p then item_custody_state.absent else item_custody_state.active)
  ∧ (creation p = true → expected_item_revision e = ITEM_TRANSFER_ABSENT_REVISION)
  ∧ item_uid e ≠ target_parent_item_uid p.

Lemma batch_entries_spec p previous l :
  creation_batch p = creation p →
  batch_entries_valid p previous l = true →
  ascending previous l ∧ Forall (entry_valid p) l
  ∧ Forall (λ e, (if creation_batch p then created_entry_valid p e else moved_entry_valid p e) = true) l.
Proof.
  intros K. revert previous. induction l as [|e l IH]; intros previous H; [done|].
  cbn [batch_entries_valid] in H. rewrite !andb_true_iff, !nz_true, negb_true_iff, Z.eqb_neq, Z.ltb_lt in H.
  destruct H as (((((((N1 & N2) & N3) & C) & A) & P) & V) & R). destruct (IH _ R) as (A' & F & F').
  split; [by split|]. split; [|by constructor]. constructor; [|done].
  unfold entry_valid. rewrite K in C. destruct (creation p).
  - rewrite andb_true_iff, !Z.eqb_eq in C. destruct C. split_and!; done.
  - rewrite Z.eqb_eq in C. split_and!; done.
Qed.

Lemma tree_entries_spec p previous found l r :
  source_root p ≠ 0 →
  tree_entries_valid p previous found l = Some r →
  ascending previous l ∧ Forall (entry_valid p) l
  ∧ Forall (λ e, root_item_uid e = source_root p
      ∧ (item_uid e ≠ selected_uid p → parent_item_uid e ≠ 0)) l
  ∧ (r = true → found = true ∨ selected_uid p ∈ item_uid <$> l).
Proof.
  intros SR. revert previous found. induction l as [|e l IH]; intros previous found H;
    [injection H as <-; by split_and!; [done|constructor|constructor|left]|].
  cbn [tree_entries_valid] in H. destruct (_ && _) eqn:G; [|done]. cbn [negb] in H.
  destruct (after_previous previous e) eqn:A; [|done]. cbn [negb] in H.
  destruct (Z.eqb_spec (item_uid e) (target_parent_item_uid p)); [done|]. cbn [negb] in H.
  rewrite !andb_true_iff, nz_true, !Z.eqb_eq, Z.ltb_lt, negb_true_iff, andb_false_iff, negb_false_iff,
    Z.eqb_eq in G. destruct G as ((((G1 & G2) & G3) & G4) & G5).
  assert (entry_valid p e) as V.
  { unfold entry_valid. rewrite G2. split_and!; [done..| |done]. intros C. destruct G5; congruence. }
  destruct (Z.eqb_spec (item_uid e) (selected_uid p)) as [E|E].
  - destruct found; [done|]. cbn [negb] in H. destruct (IH _ _ H) as (A' & F & F' & _).
    split_and!; [by split|by constructor|by constructor|]. intros _. right. rewrite <- E. left.
  - destruct (nz (parent_item_uid e)) eqn:P; [|done]. apply nz_true in P. cbn [negb] in H.
    destruct (IH _ _ H) as (A' & F & F' & O).
    split_and!; [by split|by constructor|by constructor|]. intros R. destruct (O R); [by left|].
    right. by right.
Qed.

Lemma reaches_climbs p fuel u :
  reaches fuel p u = true → ∃ n, climbs (entries p) n u (selected_uid p).
Proof.
  revert u. induction fuel as [|fuel IH]; intros u H; [done|]. cbn [reaches] in H.
  destruct (Z.eqb_spec u (selected_uid p)) as [E|N]; [exists 0%nat; rewrite E; constructor|].
  destruct (List.find _ _) as [e|] eqn:F; [|done]. apply List.find_some in F as [I E].
  apply Z.eqb_eq in E. destruct (IH _ H) as [n C]. exists (S n). rewrite <- E.
  constructor; [by apply list_elem_of_In|done].
Qed.

(** ** Lemmas: the topology of a valid payload *)

Lemma validate_parts p v :
  validate_payload p v = true →
  basics_valid p v = true
  ∧ (player_transfer p = true → player_transfer_valid p v = true)
  ∧ (is_reason p item_transfer_reason.craft = true → craft_valid p v = true)
  ∧ pet_valid p = true ∧ corpse_valid p v = true ∧ direction_valid p = true
  ∧ (if multi_root p then batch_valid p v = true ∧ batch_entries_valid p None (entries p) = true
     else tree_valid p = true).
Proof.
  unfold validate_payload. rewrite !andb_true_iff, !negb_true_iff, !andb_false_iff, !negb_false_iff.
  intros ((((((B & P) & C) & Pe) & Co) & D) & M). split_and!; [done| | |done|done|done|].
  - intros E. destruct P; congruence.
  - intros E. destruct C; congruence.
  - destruct (multi_root p); [by apply andb_prop in M|done].
Qed.

Lemma direction_creation p : direction_valid p = true → creation_batch p = creation p.
Proof.
  unfold direction_valid, creation_batch. rewrite !andb_true_iff, !eqb_true_iff.
  intros ((((_ & _) & E) & _) & _). rewrite <- E. by rewrite andb_diag.
Qed.

Lemma craft_multi p v : craft_valid p v = true → multi_root p = true ∧ selected_item_uid p ≠ 0.
Proof. unfold craft_valid. rewrite !andb_true_iff, !nz_true. tauto. Qed.

(** The entries of a valid payload, of one root or of many. *)
Lemma valid_entries p v :
  validate_payload p v = true →
  StronglySorted uid_lt (entries p) ∧ Forall (entry_valid p) (entries p)
  ∧ entries p ≠ [].
Proof.
  intros V. destruct (validate_parts _ _ V) as (B & _ & _ & _ & _ & D & M).
  assert (entries p ≠ []) as N.
  { unfold basics_valid in B. rewrite !andb_true_iff, !nz_true in B. intros E.
    unfold item_count in B. rewrite E in B. tauto. }
  destruct (multi_root p).
  - destruct M as [_ M]. destruct (batch_entries_spec _ _ _ (direction_creation _ D) M) as (A & F & _).
    split_and!; [by apply ascending_sorted|done|done].
  - unfold tree_valid in M. rewrite !andb_true_iff, !nz_true in M. destruct M as [[[[SR _] _] _] M].
    destruct (tree_entries_valid _ _ _ _) as [r|] eqn:E; [|done].
    destruct (tree_entries_spec _ _ _ _ _ SR E) as (A & F & _).
    split_and!; [by apply ascending_sorted|done|done].
Qed.

Lemma valid_nonzero p v : validate_payload p v = true → 0 ∉ item_uid <$> entries p.
Proof.
  intros V I. destruct (valid_entries _ _ V) as (_ & F & _).
  apply list_elem_of_fmap in I as (e & E & I). rewrite Forall_forall in F. by destruct (F e I).
Qed.

(** Each moved item lies in a moved item that is selected, and so does its parent. *)
Lemma valid_selected p v e :
  validate_payload p v = true → e ∈ entries p →
  let root := selected_root_for p (item_uid e) in
  root ∈ item_uid <$> entries p ∧ (∃ n, climbs (entries p) n (item_uid e) root)
  ∧ (item_uid e ≠ root →
     parent_item_uid e ∈ item_uid <$> entries p ∧ selected_root_for p (parent_item_uid e) = root).
Proof.
  intros V I root. destruct (valid_entries _ _ V) as (S & _ & _). pose proof (valid_nonzero _ _ V) as N.
  destruct (validate_parts _ _ V) as (_ & _ & C & _ & _ & D & M).
  destruct (multi_root p) eqn:MR.
  - assert (∀ u, selected_root_for p u = climb_from p u) as SR
      by (intros u; unfold selected_root_for; rewrite MR; by destruct (reason p =? _)).
    destruct M as [_ M]. destruct (batch_entries_spec _ _ _ (direction_creation _ D) M) as (_ & _ & F).
    rewrite Forall_forall in F. specialize (F e I).
    assert (∃ x, find_payload_item p root = Some x) as [x X].
    { destruct (creation_batch p); [unfold created_entry_valid in F|unfold moved_entry_valid in F];
        fold root in F; destruct (find_payload_item p root); eauto; done. }
    apply find_payload_item_in in X as [Ix Ex].
    assert (root ∈ item_uid <$> entries p) as R by (rewrite <- Ex; by apply list_elem_of_fmap_2).
    assert (root ≠ 0) as R0 by (intros E; by rewrite E in R).
    destruct (proj1 (climb_from_spec p (item_uid e) root S N R0)) as (_ & T & n & Cl); [by rewrite <- SR|].
    split; [done|]. split; [by exists n|]. intros Ne. rewrite !SR.
    inversion Cl as [|e' m r I' Cl' E']; subst; [done|].
    assert (e' = e) as -> by by eapply sorted_uid_unique.
    pose proof (climbs_in _ _ _ _ Cl' T) as P. split; [done|]. apply climb_from_spec; [done..|].
    split_and!; [done|done|by exists m].
  - assert (is_reason p item_transfer_reason.craft = false) as NC.
    { destruct (is_reason p _) eqn:E; [|done]. destruct (craft_multi _ _ (C eq_refl)). congruence. }
    assert (∀ u, selected_root_for p u = selected_uid p) as SR
      by (intros u; unfold selected_root_for; unfold is_reason in NC; by rewrite NC, MR).
    unfold root. rewrite !SR. unfold tree_valid in M. rewrite !andb_true_iff, !nz_true in M.
    destruct M as [[[[SR0 _] _] _] M]. destruct (tree_entries_valid _ _ _ _) as [r|] eqn:E; [|done].
    destruct (tree_entries_spec _ _ _ _ _ SR0 E) as (_ & _ & _ & O).
    rewrite !andb_true_iff in M. destruct M as [[-> _] M]. destruct (O eq_refl) as [|Sel]; [done|].
    rewrite forallb_forall in M. specialize (M e (proj1 (list_elem_of_In _ _) I)).
    destruct (Z.eqb_spec (item_uid e) (selected_uid p)) as [Eq|Ne].
    + split; [done|]. split; [|done]. exists 0%nat. rewrite Eq. constructor.
    + destruct (reaches_climbs _ _ _ M) as [n Cl]. split; [done|].
      split; [exists (Datatypes.S n); by constructor|]. intros _. split; [|done].
      by apply (climbs_from_in _ _ _ _ Cl).
Qed.

Lemma target_topology_valid p v e :
  validate_payload p v = true → e ∈ entries p →
  target_topology_for p (item_uid e) =
    if is_reason p item_transfer_reason.craft then Some (root_item_uid e, parent_item_uid e)
    else
      let root := if nz (target_parent_item_uid p) then target_root_item_uid p
                  else selected_root_for p (item_uid e) in
      ensure? nz root in
      Some (root, if item_uid e =? selected_root_for p (item_uid e)
                  then target_parent_item_uid p else parent_item_uid e).
Proof.
  intros V I. destruct (valid_entries _ _ V) as (S & _ & _).
  destruct (valid_selected _ _ _ V I) as (R & _ & _).
  unfold target_topology_for. rewrite (proj2 (find_payload_item_spec p _ e S)) by done.
  assert (nz (selected_root_for p (item_uid e)) = true) as ->; [|done].
  apply nz_true. intros E. rewrite E in R. by apply (valid_nonzero _ _ V).
Qed.

(** ** Theorems: topology *)

(** C26: In a valid payload the items are distinct, sorted and in the state the transfer
    expects, and each lies, over moved parents, in a selected item that moves too.  The
    transfer then keeps every tree as it is: a selected item comes to the target parent,
    any other item keeps its parent, which moves with it under the same selected item,
    and all get the target's root, or their selected item if there is no target; crafted
    items stay where they are.  The new place is undefined only when a target parent is
    named without its root. *)
Theorem item_transfer_topology p v :
  validate_payload p v = true →
  StronglySorted uid_lt (entries p) ∧ Forall (entry_valid p) (entries p)
  ∧ ∀ e, e ∈ entries p →
    let root := item_transfer_selected_root p (item_uid e) in
    root ∈ item_uid <$> entries p ∧ (∃ n, climbs (entries p) n (item_uid e) root)
    ∧ match item_transfer_target_topology p (item_uid e) with
      | None => reason p ≠ item_transfer_reason.craft
                ∧ target_parent_item_uid p ≠ 0 ∧ target_root_item_uid p = 0
      | Some (new_root, new_parent) =>
          if reason p =? item_transfer_reason.craft
          then new_root = root_item_uid e ∧ new_parent = parent_item_uid e
          else new_root = (if nz (target_parent_item_uid p) then target_root_item_uid p else root)
            ∧ if item_uid e =? root then new_parent = target_parent_item_uid p
              else new_parent = parent_item_uid e ∧ new_parent ∈ item_uid <$> entries p
                   ∧ item_transfer_selected_root p new_parent = root
      end.
Proof.
  intros V. destruct (valid_entries _ _ V) as (S & F & _). split_and!; [done..|].
  intros e I root. destruct (valid_selected _ _ _ V I) as (R & C & P). split_and!; [done..|].
  unfold item_transfer_target_topology. rewrite (target_topology_valid _ _ _ V I). unfold is_reason.
  change (selected_root_for p (item_uid e)) with root in *.
  destruct (Z.eqb_spec (reason p) item_transfer_reason.craft) as [|NC]; [done|].
  destruct (nz (target_parent_item_uid p)) eqn:T.
  - destruct (nz (target_root_item_uid p)) eqn:Tr; cbn [negb].
    + split; [done|]. destruct (Z.eqb_spec (item_uid e) root); [done|]. by destruct P.
    + split_and!; [done|by apply nz_true|by apply nz_false].
  - assert (nz root = true) as ->; cbn [negb].
    { apply nz_true. intros E. rewrite E in R. by apply (valid_nonzero _ _ V). }
    split; [done|]. destruct (Z.eqb_spec (item_uid e) root); [done|]. by destruct P.
Qed.

(** Which selected item a moved item lies in is found by climbing at most once per
    moved item: the loop gives an item exactly when the parents lead from the given one
    to a moved item whose own parent does not move, and then that item; otherwise, for
    an item that does not move or a cycle of parents, it gives zero. *)
Theorem item_transfer_climb p uid :
  StronglySorted uid_lt (entries p) → 0 ∉ item_uid <$> entries p →
  multi_root p = true →
  let root := item_transfer_selected_root p uid in
  (root ≠ 0 → uid ∈ item_uid <$> entries p ∧ is_top (entries p) root
              ∧ ∃ n, (n <= length (entries p))%nat ∧ climbs (entries p) n uid root)
  ∧ ∀ n top, climbs (entries p) n uid top → is_top (entries p) top → root = top.
Proof.
  intros S N M root.
  assert (root = climb_from p uid) as SR
    by (unfold root, item_transfer_selected_root, selected_root_for; rewrite M; by destruct (reason p =? _)).
  split.
  - intros R. destruct (proj1 (climb_from_spec p uid root S N R) (eq_sym SR)) as (U & T & n & C).
    split_and!; [done..|]. exists n. split; [by apply (climbs_bounded _ _ uid root)|done].
  - intros n top C T. rewrite SR. assert (top ≠ 0) as T0.
    { destruct T as (t & I & <- & _). intros E. apply N. rewrite <- E. by apply list_elem_of_fmap_2. }
    apply climb_from_spec; [done..|]. split_and!; [|done|by exists n]. by apply (climbs_in _ _ _ _ C).
Qed.

(** ** Lemmas: the selected items *)

Lemma tree_selected p v u :
  validate_payload p v = true → multi_root p = false → selected_root_for p u = selected_uid p.
Proof.
  intros (_ & _ & C & _)%validate_parts M. unfold selected_root_for. rewrite M. unfold is_reason in C.
  destruct (reason p =? _); [|done]. destruct (craft_multi _ _ (C eq_refl)). congruence.
Qed.

Lemma batch_selected p u : multi_root p = true → selected_root_for p u = climb_from p u.
Proof. intros M. unfold selected_root_for. rewrite M. by destruct (reason p =? _). Qed.

Lemma selected_idempotent p v e :
  validate_payload p v = true → e ∈ entries p →
  selected_root_for p (selected_root_for p (item_uid e)) = selected_root_for p (item_uid e).
Proof.
  intros V I. destruct (multi_root p) eqn:M; [|by rewrite !(tree_selected _ _ _ V M)].
  destruct (valid_entries _ _ V) as (S & _ & _). pose proof (valid_nonzero _ _ V) as N.
  destruct (valid_selected _ _ _ V I) as (R & _ & _).
  assert (selected_root_for p (item_uid e) ≠ 0) as R0 by (intros E; by rewrite E in R).
  rewrite !batch_selected in * by done.
  destruct (proj1 (climb_from_spec p (item_uid e) _ S N R0) eq_refl) as (_ & T & _).
  apply climb_from_spec; [done..|]. split_and!; [done|done|]. exists 0%nat. constructor.
Qed.

(** The loop finds the least of the selected items. *)
Lemma smallest_root_spec p l result :
  (∀ e, e ∈ l → selected_root_for p (item_uid e) ≠ 0) →
  let s := smallest_root p l result in
  ((s = result ∧ (result = 0 → l = [])) ∨ ∃ e, e ∈ l ∧ s = selected_root_for p (item_uid e))
  ∧ (result ≠ 0 → s <= result) ∧ ∀ e, e ∈ l → s <= selected_root_for p (item_uid e).
Proof.
  revert result. induction l as [|e l IH]; intros result N; cbn [smallest_root].
  { split_and!; [by left|lia|]. intros e E. by apply not_elem_of_nil in E. }
  assert (selected_root_for p (item_uid e) ≠ 0) as Ne by (apply N; left).
  rewrite (proj2 (nz_true _) Ne). cbn [negb]. set (next := if negb (nz result) || _ then _ else result).
  destruct (IH next) as (A & B & C); [intros x X; apply N; by right|].
  assert (next ≠ 0 ∧ next <= selected_root_for p (item_uid e) ∧ (result ≠ 0 → next <= result)
    ∧ (next = result ∨ next = selected_root_for p (item_uid e))) as (X1 & X2 & X3 & X4).
  { unfold next. destruct (nz result) eqn:Z; cbn [negb orb].
    - apply nz_true in Z. destruct (Z.ltb_spec (selected_root_for p (item_uid e)) result).
      + split_and!; [done|lia|lia|by right].
      + split_and!; [done|lia|lia|by left].
    - apply nz_false in Z. split_and!; [done|lia|lia|by right]. }
  split_and!.
  - destruct A as [[-> _]|(x & X & ->)].
    + destruct X4 as [E|E]; [left; split; [done|]; congruence|]. rewrite E. right. exists e. split; [left|done].
    + right. exists x. split; [by right|done].
  - specialize (B X1). lia.
  - intros x X. apply elem_of_cons in X as [->|X]; [specialize (B X1); lia|by apply C].
Qed.

Lemma unique_sorted l : StronglySorted Z.lt l → unique l = l.
Proof.
  induction 1 as [|a l S IH F]; [done|]. destruct l as [|b l]; [done|].
  apply Forall_cons in F as [F _]. cbn [unique] in *. rewrite (proj2 (Z.eqb_neq a b)) by lia. by rewrite IH.
Qed.

(** The selected items of a valid payload are listed without repetition and in order:
    they are exactly the items some moved item lies in, each lies in itself, and there is
    at least one; the item a result is named after is the first of them, the least, save
    that a craft names the item the payload selects. *)
Theorem item_transfer_selected_items p v :
  validate_payload p v = true →
  ∃ roots, item_transfer_selected_roots p = Some roots
  ∧ StronglySorted Z.lt roots
  ∧ (∀ u, u ∈ roots ↔ ∃ e, e ∈ entries p ∧ item_transfer_selected_root p (item_uid e) = u)
  ∧ (∀ u, u ∈ roots → item_transfer_selected_root p u = u)
  ∧ (reason p ≠ item_transfer_reason.craft → head roots = Some (item_transfer_result_root p))
  ∧ (reason p = item_transfer_reason.craft → item_transfer_result_root p = selected_item_uid p).
Proof.
  intros V. destruct (valid_entries _ _ V) as (S & _ & Ne).
  set (roots := filter (λ uid, selected_root_for p uid = uid) (item_uid <$> entries p)).
  assert (StronglySorted Z.lt roots) as Sr.
  { eapply StronglySorted_sublist; [apply sublist_filter|]. by apply (StronglySorted_map item_uid Z.lt). }
  assert (∀ u, u ∈ roots ↔ ∃ e, e ∈ entries p ∧ selected_root_for p (item_uid e) = u) as Mem.
  { intros u. unfold roots. rewrite list_elem_of_filter. split.
    - intros [E (e & -> & I)%list_elem_of_fmap]. by exists e.
    - intros (e & I & <-). split; [by eapply selected_idempotent|]. by apply (valid_selected _ _ _ V I). }
  assert (merge_sort Z.le roots = roots) as Ms.
  { apply (StronglySorted_unique Z.le); [apply StronglySorted_merge_sort; apply _| |apply merge_sort_Permutation].
    eapply StronglySorted_weaken; [|exact Sr]. intros a b. lia. }
  assert (∃ e0, e0 ∈ entries p) as [e0 I0] by (destruct (entries p) as [|e0 es]; [done|exists e0; left]).
  assert (selected_root_for p (item_uid e0) ∈ roots) as R0 by (apply Mem; by exists e0).
  exists roots. unfold item_transfer_selected_root, item_transfer_result_root, item_transfer_selected_roots.
  fold roots. rewrite Ms, (unique_sorted _ Sr). split_and!; [|done|done| | |].
  - by destruct roots as [|r rs]; [apply not_elem_of_nil in R0|].
  - intros u U. unfold roots in U. by apply list_elem_of_filter in U as [U _].
  - intros C. rewrite (proj2 (Z.eqb_neq _ _) C).
    destruct (smallest_root_spec p (entries p) 0) as (A & _ & Le).
    { intros e I E. destruct (valid_selected _ _ _ V I) as (R & _). rewrite E in R.
      by apply (valid_nonzero _ _ V). }
    set (s := smallest_root p (entries p) 0) in *.
    assert (s ∈ roots) as Ins.
    { destruct A as [[_ A]|(e & I & ->)]; [by destruct (Ne (A eq_refl))|by apply Mem; exists e]. }
    destruct roots as [|r rs]; [by apply not_elem_of_nil in Ins|]. cbn [head]. f_equal.
    apply elem_of_cons in Ins as [->|Ins]; [done|].
    assert (s <= r) by (destruct (proj1 (Mem r)) as (e & I & <-); [left|by apply Le]).
    apply StronglySorted_inv in Sr as [_ Sr]. rewrite Forall_forall in Sr. specialize (Sr s Ins). lia.
  - intros C. by rewrite C.
Qed.

(** ** Witnesses *)

(** A corpse is made of two items, a bag and what is in it, which the collector may take. *)
Definition sample_transfer : item_transfer_payload :=
  TransferPayload (OwnerIdentity item_owner_type.player 7 0)
    (OwnerIdentity item_owner_type.corpse (item_corpse_owner_id 7 99) 0)
    item_transfer_reason.corpse_create (-3) 4 0 0 0 0 0 false
    [TransferEntry 100 100 0 6 3001 item_custody_state.active;
     TransferEntry 101 100 100 2 3002 item_custody_state.active]
    [Byte.x01; Byte.x02]
    (CorpseMetadata true 3000 (-5) 1 [0; 0; 0; 7; 0; 1; 99; -1] [Byte.x61] [] [Byte.x62] [])
    (DeathEnrollment true (replicate 16 Byte.x09) 7 99 (DeathPolicy 5 6 7 8 9) [101]).

Lemma sample_transfer_valid : validate_payload sample_transfer ITEM_TRANSFER_PAYLOAD_VERSION = true.
Proof. by vm_compute. Qed.

Lemma item_transfer_topology_witness :
  item_transfer_target_topology sample_transfer 101 = Some (100, 100)
  ∧ item_transfer_selected_root sample_transfer 101 ∈ item_uid <$> entries sample_transfer.
Proof.
  split; [by vm_compute|].
  destruct (item_transfer_topology sample_transfer ITEM_TRANSFER_PAYLOAD_VERSION
    sample_transfer_valid) as (_ & _ & M).
  apply (M (TransferEntry 101 100 100 2 3002 item_custody_state.active)). right. left.
Defined.

Lemma item_transfer_selected_items_witness :
  ∃ roots, item_transfer_selected_roots sample_transfer = Some roots ∧ StronglySorted Z.lt roots.
Proof.
  destruct (item_transfer_selected_items sample_transfer ITEM_TRANSFER_PAYLOAD_VERSION
    sample_transfer_valid) as (roots & R & S & _). by exists roots.
Defined.

(** Two bags that are dropped together. *)
Definition sample_batch : item_transfer_payload :=
  TransferPayload (OwnerIdentity item_owner_type.player 7 0)
    (OwnerIdentity item_owner_type.room 3000 0)
    item_transfer_reason.player_drop 0 4 0 0 0 0 0 true
    [TransferEntry 100 100 0 6 3001 item_custody_state.active;
     TransferEntry 101 100 100 2 3002 item_custody_state.active;
     TransferEntry 102 102 0 2 3002 item_custody_state.active] [] no_corpse no_collector.

Example sample_batch_valid : validate_payload sample_batch ITEM_TRANSFER_PAYLOAD_VERSION = true.
Proof. by vm_compute. Qed.

Lemma item_transfer_climb_witness : item_transfer_selected_root sample_batch 101 = 100.
Proof.
  destruct (item_transfer_climb sample_batch 101) as [_ M];
    [apply (valid_entries _ _ sample_batch_valid)|apply (valid_nonzero _ _ sample_batch_valid)|done|]. apply (M 1%nat).
  - apply (climbs_up (entries sample_batch) (TransferEntry 101 100 100 2 3002 item_custody_state.active));
      [right; left|constructor].
  - exists (TransferEntry 100 100 0 6 3001 item_custody_state.active).
    split_and!; [left|done|]. apply (bool_decide_unpack _). by vm_compute.
Defined.
