(* ===== verification/ItemTransferCodec.v ===== *)
(** * The bytes of item transfers

    Models the codecs of [item/item_transfer_command.c]: the sidecars of a payload, the
    six versions of its bytes, the entities a command names, the command, and the
    result.  [SHA256] is a parameter, of which nothing is used.  Allocation failure is not
    modelled. *)

From S2P Require Import Prelude Buffer Snapshot Wire CriticalCommand SnapshotCodec ItemTransfer.

(** ** The sidecars *)

Definition append_u32 (output : list byte) (value : Z) : list byte := append_le 4 output (wrap 32 value).
Definition append_text (output : list byte) (value : list byte) : option (list byte) :=
  ensure? vsize value <=? 2 ^ 32 - 1 in
  Some (append_u32 output (vsize value) ++ value).

Definition read_u32 : list byte → nat → option (Z * nat) := read_le 4.
Definition read_text (input : list byte) (offset : nat) (maximum : Z) : option (list byte * nat) :=
  let? (length, offset) := read_u32 input offset in
  ensure? negb ((maximum <? length) || (vsize input - Z.of_nat offset <? length)) in
  Some (slice (Z.to_nat length) input offset, (offset + Z.to_nat length)%nat).

Definition encode_corpse_context (c : item_corpse_metadata) : option (list byte) :=
  if negb (corpse_present c) then Some []
  else
    let e := append_u32 [] CORPSE_CONTEXT_VERSION in
    let e := append_u32 e (corpse_room_vnum c) in
    let e := append_u32 e (corpse_weight c) in
    let e := append_u32 e (actor_racewar c) in
    let e := foldl append_u32 e (corpse_values c) in
    let? e := append_text e (owner_name c) in
    let? e := append_text e (corpse_short_description c) in
    let? e := append_text e (corpse_description c) in
    append_text e (corpse_keywords c).

(** The loop over the eight values. *)
Fixpoint read_values (count : nat) (input : list byte) (offset : nat) : option (list Z * nat) :=
  match count with
  | O => Some ([], offset)
  | S count =>
      let? (decoded, offset) := read_u32 input offset in
      let? (rest, offset) := read_values count input offset in
      Some (to_signed 32 decoded :: rest, offset)
  end.

Definition decode_corpse_context (encoded : list byte) : option item_corpse_metadata :=
  if (length encoded =? 0)%nat then Some no_corpse
  else
    let? (version, offset) := read_u32 encoded 0 in
    ensure? version =? CORPSE_CONTEXT_VERSION in
    let? (room_vnum, offset) := read_u32 encoded offset in
    let? (weight, offset) := read_u32 encoded offset in
    let? (racewar, offset) := read_u32 encoded offset in
    ensure? racewar <=? 255 in
    let? (values, offset) := read_values 8 encoded offset in
    let? (name, offset) := read_text encoded offset ITEM_TRANSFER_CORPSE_NAME_MAX_BYTES in
    let? (short, offset) :=
      read_text encoded offset ITEM_TRANSFER_CORPSE_SHORT_DESCRIPTION_MAX_BYTES in
    let? (description, offset) :=
      read_text encoded offset ITEM_TRANSFER_CORPSE_DESCRIPTION_MAX_BYTES in
    let? (keywords, offset) :=
      read_text encoded offset ITEM_TRANSFER_CORPSE_KEYWORDS_MAX_BYTES in
    ensure? (offset =? length encoded)%nat in
    Some (CorpseMetadata true (to_signed 32 room_vnum) (to_signed 32 weight) racewar values
            name short description keywords).

(** [fixed_size]. *)
Definition collector_fixed_size : nat := 4 + 16 + 4 + 8 * 6 + 4.

(** The buffer of [fixed_size + 8 * n] bytes, filled from the front. *)
Definition encode_collector_context (c : item_collector_death_enrollment) : option (list byte) :=
  if negb (collector_present c) then Some []
  else
    let count := vsize (eligible_item_uids c) in
    ensure? negb ((2 ^ 32 - 1 <? count)
                  || ((CRITICAL_COMMAND_MAX_PAYLOAD_BYTES - Z.of_nat collector_fixed_size) / 8
                      <? count)) in
    let p := policy c in
    let e := append_le 4 [] COLLECTOR_CONTEXT_VERSION in
    let e := e ++ death_operation c in
    let e := append_le 4 e (beneficiary_pid c) in
    let e := append_le 8 e (death_time c) in
    let e := append_le 8 e (collection_delay p) in
    let e := append_le 8 e (sale_delay p) in
    let e := append_le 8 e (holding_duration p) in
    let e := append_le 8 e (price_percent p) in
    let e := append_le 8 e (minimum_value p) in
    let e := append_le 4 e count in
    let e := foldl (append_le 8) e (eligible_item_uids c) in
    ensure? (length e =? collector_fixed_size + 8 * length (eligible_item_uids c))%nat in
    Some e.

Definition decode_collector_context (encoded : list byte)
  : option item_collector_death_enrollment :=
  if (length encoded =? 0)%nat then Some no_collector
  else
    ensure? negb (length encoded <? collector_fixed_size)%nat
            && (get_le 4 encoded 0 =? COLLECTOR_CONTEXT_VERSION) in
    let count := get_le 4 encoded 72 in
    ensure? negb ((ITEM_TRANSFER_MAX_ITEMS <? count)
                  || negb (vsize encoded - 76 =? count * 8)) in
    Some (DeathEnrollment true (slice 16 encoded 4) (get_le 4 encoded 20) (get_le 8 encoded 24)
            (DeathPolicy (get_le 8 encoded 32) (get_le 8 encoded 40) (get_le 8 encoded 48)
               (get_le 8 encoded 56) (get_le 8 encoded 64))
            ((λ i, get_le 8 encoded (76 + i * 8)) <$> seq 0 (Z.to_nat count))).

(** ** The entities of the command *)

Section Transfer.

Context (SHA256 : list byte → list byte).

Definition item_key (uid : Z) : critical_entity_key := EntityKey critical_entity_type.item uid.
Definition collector_catalog_key : critical_entity_key :=
  EntityKey critical_entity_type.collector COLLECTOR_CATALOG_KEY.

(** The pairs pushed onto [keys] and [expected_revisions] together, before the sort. *)
Definition command_entities (p : item_transfer_payload) : option (list critical_expected_revision) :=
  let? from_key := item_owner_key SHA256 (from_owner p) in
  let? to_key := item_owner_key SHA256 (to_owner p) in
  let from := ExpectedRevision from_key (expected_from_revision p) in
  let to := ExpectedRevision to_key (expected_to_revision p) in
  let same := item_owner_identity_equal (from_owner p) (to_owner p) in
  ensure? negb (same && negb (expected_from_revision p =? expected_to_revision p)) in
  let owners := if same then [from] else [from; to] in
  let items :=
    (λ e, ExpectedRevision (item_key (item_uid e)) (expected_item_revision e)) <$> entries p in
  let parent :=
    if nz (target_parent_item_uid p)
    then [ExpectedRevision (item_key (target_parent_item_uid p)) (expected_target_parent_revision p)]
    else [] in
  let? outputs :=
    (if is_reason p item_transfer_reason.craft then decode_craft_outputs p else Some []) in
  let crafted :=
    (λ o, ExpectedRevision (item_key (object_uid o)) ITEM_TRANSFER_ABSENT_REVISION) <$> outputs in
  let catalog :=
    if collector_present (collector p) then [ExpectedRevision collector_catalog_key 0] else [] in
  Some (owners ++ items ++ parent ++ crafted ++ catalog).

Definition populate_command_entities (p : item_transfer_payload)
  : option (list critical_entity_key * list critical_expected_revision) :=
  let? pairs := command_entities p in
  let keys := merge_sort key_le (revision_key <$> pairs) in
  ensure? negb (adjacent_equal keys) in
  Some (keys, merge_sort revision_le pairs).

(** ** The payload's bytes *)

(** The fields of an entry, each written into the zeroed buffer at its place. *)
Definition put_entry (out : list byte) (index : nat) (e : item_transfer_entry) : list byte :=
  let at_ := (ITEM_TRANSFER_HEADER_BYTES + index * ITEM_TRANSFER_ENTRY_BYTES)%nat in
  let out := put_bytes out at_ (le_split 8 (item_uid e)) in
  let out := put_bytes out (at_ + 8) (le_split 8 (root_item_uid e)) in
  let out := put_bytes out (at_ + 16) (le_split 8 (parent_item_uid e)) in
  let out := put_bytes out (at_ + 24) (le_split 8 (expected_item_revision e)) in
  let out := put_bytes out (at_ + 32) (le_split 4 (wrap 32 (entry_vnum e))) in
  put_bytes out (at_ + 36) [to_byte (expected_state e)].

Fixpoint put_entries (out : list byte) (index : nat) (l : list item_transfer_entry) : list byte :=
  match l with
  | [] => out
  | e :: l => put_entries (put_entry out index e) (S index) l
  end.

(** [selected] and the target root as they are written. *)
Definition encoded_selected (p : item_transfer_payload) : Z :=
  if multi_root p && negb (is_reason p item_transfer_reason.craft) then 0
  else if nz (selected_item_uid p) then selected_item_uid p else root_item_uid (first_entry p).
Definition encoded_target_root (p : item_transfer_payload) : Z :=
  if multi_root p then target_root_item_uid p
  else if nz (target_root_item_uid p) then target_root_item_uid p else encoded_selected p.

Definition item_transfer_command_encode_payload (p : item_transfer_payload) : option (list byte) :=
  ensure? validate_payload p ITEM_TRANSFER_PAYLOAD_VERSION in
  let? corpse_context := encode_corpse_context (corpse p) in
  let? collector_context := encode_collector_context (collector p) in
  let item_section_size :=
    (ITEM_TRANSFER_HEADER_BYTES + length (entries p) * ITEM_TRANSFER_ENTRY_BYTES)%nat in
  let payload_size :=
    (item_section_size + 4 + length (item_blob p) + 4 + length corpse_context + 4
     + length collector_context)%nat in
  ensure? Z.of_nat payload_size <=? CRITICAL_COMMAND_MAX_PAYLOAD_BYTES in
  let out := replicate payload_size Byte.x00 in
  let out := put_bytes out FROM_OFFSET (encode_owner (from_owner p)) in
  let out := put_bytes out TO_OFFSET (encode_owner (to_owner p)) in
  let out := put_bytes out REASON_OFFSET (le_split 2 (reason p)) in
  let out := put_bytes out COUNT_OFFSET (le_split 2 (item_count p)) in
  let out := put_bytes out REASON_ID_OFFSET (le_split 8 (wrap 64 (reason_id p))) in
  let out := put_bytes out FROM_REVISION_OFFSET (le_split 8 (expected_from_revision p)) in
  let out := put_bytes out TO_REVISION_OFFSET (le_split 8 (expected_to_revision p)) in
  let out := put_bytes out SELECTED_ITEM_OFFSET (le_split 8 (encoded_selected p)) in
  let out := put_bytes out TARGET_ROOT_OFFSET (le_split 8 (encoded_target_root p)) in
  let out := put_bytes out TARGET_PARENT_OFFSET (le_split 8 (target_parent_item_uid p)) in
  let out := put_bytes out TARGET_PARENT_REVISION_OFFSET
               (le_split 8 (expected_target_parent_revision p)) in
  let out := put_entries out 0 (entries p) in
  let out := put_bytes out item_section_size (le_split 4 (vsize (item_blob p))) in
  let out := put_bytes out (item_section_size + 4) (item_blob p) in
  let corpse_size_offset := (item_section_size + 4 + length (item_blob p))%nat in
  let out := put_bytes out corpse_size_offset (le_split 4 (vsize corpse_context)) in
  let out := put_bytes out (corpse_size_offset + 4) corpse_context in
  let collector_size_offset := (corpse_size_offset + 4 + length corpse_context)%nat in
  let out := put_bytes out collector_size_offset (le_split 4 (vsize collector_context)) in
  Some (put_bytes out (collector_size_offset + 4) collector_context).

(** An entry at its place, with the three bytes after it zero. *)
Definition get_entry (input : list byte) (index : nat) : option item_transfer_entry :=
  let at_ := (ITEM_TRANSFER_HEADER_BYTES + index * ITEM_TRANSFER_ENTRY_BYTES)%nat in
  ensure? negb (nz (byte_of input (at_ + 37)) || nz (byte_of input (at_ + 38))
                || nz (byte_of input (at_ + 39))) in
  Some (TransferEntry (get_le 8 input at_) (get_le 8 input (at_ + 8)) (get_le 8 input (at_ + 16))
          (get_le 8 input (at_ + 24)) (to_signed 32 (get_le 4 input (at_ + 32)))
          (byte_of input (at_ + 36))).

Definition entry_unused (input : list byte) (index : nat) : bool :=
  forallb (λ b, negb (nz (of_byte b)))
    (slice ITEM_TRANSFER_ENTRY_BYTES input
       (ITEM_TRANSFER_HEADER_BYTES + index * ITEM_TRANSFER_ENTRY_BYTES)).

(** The loop over [encoded_item_count] places, of which [used] hold an entry. *)
Fixpoint get_entries (input : list byte) (used index places : nat) : option (list item_transfer_entry) :=
  match places with
  | O => Some []
  | S places =>
      if (index <? used)%nat then
        let? e := get_entry input index in
        let? l := get_entries input used (S index) places in
        Some (e :: l)
      else
        ensure? entry_unused input index in get_entries input used (S index) places
  end.

(** The sections behind the items: blob, corpse and collector. *)
Definition get_sections (version : Z) (input : list byte) (item_section_size : nat)
  : option (list byte * item_corpse_metadata * item_collector_death_enrollment) :=
  if version <? ITEM_TRANSFER_EXACT_PAYLOAD_VERSION then Some ([], no_corpse, no_collector)
  else
    ensure? negb (length input <? item_section_size + 4)%nat in
    let blob_size := get_le 4 input item_section_size in
    let item_end := Z.of_nat item_section_size + 4 + blob_size in
    ensure? negb ((ITEM_TRANSFER_ITEM_BLOB_MAX_BYTES <? blob_size) || (vsize input <? item_end)) in
    let blob := slice (Z.to_nat blob_size) input (item_section_size + 4) in
    if version =? ITEM_TRANSFER_EXACT_PAYLOAD_VERSION then
      ensure? vsize input =? item_end in Some (blob, no_corpse, no_collector)
    else
      ensure? negb (vsize input <? item_end + 4) in
      let corpse_size := get_le 4 input (Z.to_nat item_end) in
      let corpse_end := item_end + 4 + corpse_size in
      ensure? negb ((CRITICAL_COMMAND_MAX_PAYLOAD_BYTES <? corpse_size)
                    || (vsize input <? corpse_end)) in
      let? corpse :=
        decode_corpse_context (slice (Z.to_nat corpse_size) input (Z.to_nat (item_end + 4))) in
      if version <? ITEM_TRANSFER_PAYLOAD_VERSION then
        ensure? vsize input =? corpse_end in Some (blob, corpse, no_collector)
      else
        ensure? negb (vsize input <? corpse_end + 4) in
        let collector_size := get_le 4 input (Z.to_nat corpse_end) in
        ensure? negb ((CRITICAL_COMMAND_MAX_PAYLOAD_BYTES <? collector_size)
                      || negb (vsize input =? corpse_end + 4 + collector_size)) in
        let? collector :=
          decode_collector_context
            (slice (Z.to_nat collector_size) input (Z.to_nat (corpse_end + 4))) in
        Some (blob, corpse, collector).

(** A draft wrote crafts with the value of [soulbind]. *)
Definition decoded_reason (version r : Z) (from to : item_owner_identity) : Z :=
  if (version =? 7) && (r =? item_transfer_reason.soulbind)
     && is_type from item_owner_type.player && item_owner_identity_equal from to
  then item_transfer_reason.craft else r.

Definition read_payload (version : Z) (input : list byte) : option item_transfer_payload :=
  let from := decode_owner input FROM_OFFSET in
  let to := decode_owner input TO_OFFSET in
  let r := decoded_reason version (get_le 2 input REASON_OFFSET) from to in
  let count := get_le 2 input COUNT_OFFSET in
  let selected := get_le 8 input SELECTED_ITEM_OFFSET in
  let multi :=
    (ITEM_TRANSFER_BATCH_PAYLOAD_VERSION <=? version)
    && ((selected =? 0) || (r =? item_transfer_reason.craft)) in
  ensure? nz count && (count <=? ITEM_TRANSFER_MAX_ITEMS) in
  let variable := ITEM_TRANSFER_BATCH_PAYLOAD_VERSION <=? version in
  ensure? variable || (count <=? Z.of_nat ITEM_TRANSFER_LEGACY_MAX_ITEMS) in
  let places := if variable then Z.to_nat count else ITEM_TRANSFER_LEGACY_MAX_ITEMS in
  let item_section_size := (ITEM_TRANSFER_HEADER_BYTES + places * ITEM_TRANSFER_ENTRY_BYTES)%nat in
  ensure? negb (length input <? item_section_size)%nat in
  let? l := get_entries input (Z.to_nat count) 0 places in
  let? (blob, corpse, collector) := get_sections version input item_section_size in
  Some (TransferPayload from to r (to_signed 64 (get_le 8 input REASON_ID_OFFSET))
          (get_le 8 input FROM_REVISION_OFFSET) (get_le 8 input TO_REVISION_OFFSET)
          selected (get_le 8 input TARGET_ROOT_OFFSET) (get_le 8 input TARGET_PARENT_OFFSET)
          (get_le 8 input TARGET_PARENT_REVISION_OFFSET) multi l blob corpse collector).

Definition version_supported (version : Z) : bool :=
  (ITEM_TRANSFER_LEGACY_PAYLOAD_VERSION <=? version) && (version <=? ITEM_TRANSFER_PAYLOAD_VERSION).

Definition item_transfer_command_decode_payload (command : critical_command)
  : option item_transfer_payload :=
  let version := payload_version command in
  let input := payload command in
  ensure? (command_type command =? critical_command_type.item_transfer) && version_supported version
          && (if ITEM_TRANSFER_EXACT_PAYLOAD_VERSION <=? version
              then negb (length input <? ITEM_TRANSFER_HEADER_BYTES + ITEM_TRANSFER_ENTRY_BYTES + 4)%nat
              else (length input =? ITEM_TRANSFER_PAYLOAD_BYTES)%nat) in
  let? p := read_payload version input in
  ensure? validate_payload p version
          && negb ((version =? ITEM_TRANSFER_LEGACY_PAYLOAD_VERSION)
                   && (item_transfer_reason.auction_claim <? reason p))
          && (length (expected_revisions command) =? length (keys command))%nat in
  let? (expected_keys, expected) := populate_command_entities p in
  ensure? bool_decide (keys command = expected_keys)
          && bool_decide (expected_revisions command = expected) in
  Some p.

Definition item_transfer_command_build (operation : critical_operation_id)
    (p : item_transfer_payload) (site deadline : Z) : option critical_command :=
  ensure? negb (critical_operation_id_is_zero operation) in
  let? encoded := item_transfer_command_encode_payload p in
  let? (keys, revisions) := populate_command_entities p in
  Some (CriticalCommand CRITICAL_COMMAND_SCHEMA_VERSION operation
          critical_command_type.item_transfer ITEM_TRANSFER_PAYLOAD_VERSION site deadline 0
          keys revisions encoded).

End Transfer.

(** ** The result *)

Definition item_transfer_command_encode_result (r : item_transfer_result) : option (list byte) :=
  ensure? nz (result_root_uid r) && nz (result_item_count r)
          && (result_item_count r <=? ITEM_TRANSFER_MAX_ITEMS) in
  let out := replicate ITEM_TRANSFER_RESULT_BYTES Byte.x00 in
  let out := put_bytes out 0 (le_split 8 (result_root_uid r)) in
  let out := put_bytes out 8 (le_split 2 (result_item_count r)) in
  let out := put_bytes out 16 (le_split 8 (from_owner_revision r)) in
  let out := put_bytes out 24 (le_split 8 (to_owner_revision r)) in
  let out := put_bytes out 32 (le_split 8 (max_item_revision r)) in
  let out := put_bytes out 40 (le_split 8 (corpse_revision r)) in
  Some (put_bytes out 10 [if collector_catalog_changed r then Byte.x01 else Byte.x00]).

Definition item_transfer_command_decode_result (encoded : list byte) : option item_transfer_result :=
  let size := length encoded in
  ensure? ((size =? ITEM_TRANSFER_RESULT_BYTES)%nat
           || (size =? ITEM_TRANSFER_LEGACY_RESULT_BYTES)%nat)
          && (byte_of encoded 10 <=? 1)
          && forallb (λ b, negb (nz (of_byte b))) (slice 5 encoded 11) in
  let r := TransferResult (get_le 8 encoded 0) (get_le 2 encoded 8) (get_le 8 encoded 16)
             (get_le 8 encoded 24) (get_le 8 encoded 32)
             (if (size =? ITEM_TRANSFER_RESULT_BYTES)%nat then get_le 8 encoded 40 else 0)
             (nz (byte_of encoded 10)) in
  ensure? nz (result_root_uid r) && nz (result_item_count r)
          && (result_item_count r <=? ITEM_TRANSFER_MAX_ITEMS) in
  Some r.

(** ** Lemmas: the sidecars *)

Definition text_bytes (value : list byte) : list byte := le_split 4 (vsize value) ++ value.

Record corpse_typed (c : item_corpse_metadata) : Prop := {
  typed_corpse_room : i32 (corpse_room_vnum c);
  typed_corpse_weight : i32 (corpse_weight c);
  typed_actor_racewar : u8 (actor_racewar c);
  typed_corpse_values : length (corpse_values c) = 8%nat ∧ Forall (sfits 32) (corpse_values c);
}.

Definition corpse_texts (c : item_corpse_metadata) : Prop :=
  vsize (owner_name c) <= ITEM_TRANSFER_CORPSE_NAME_MAX_BYTES
  ∧ vsize (corpse_short_description c) <= ITEM_TRANSFER_CORPSE_SHORT_DESCRIPTION_MAX_BYTES
  ∧ vsize (corpse_description c) <= ITEM_TRANSFER_CORPSE_DESCRIPTION_MAX_BYTES
  ∧ vsize (corpse_keywords c) <= ITEM_TRANSFER_CORPSE_KEYWORDS_MAX_BYTES.

Definition corpse_bytes (c : item_corpse_metadata) : list byte :=
  le_split 4 CORPSE_CONTEXT_VERSION ++ le_split 4 (wrap 32 (corpse_room_vnum c))
  ++ le_split 4 (wrap 32 (corpse_weight c)) ++ le_split 4 (wrap 32 (actor_racewar c))
  ++ concat (map (λ v, le_split 4 (wrap 32 v)) (corpse_values c))
  ++ text_bytes (owner_name c) ++ text_bytes (corpse_short_description c)
  ++ text_bytes (corpse_description c) ++ text_bytes (corpse_keywords c).

Lemma append_text_bytes out value m :
  vsize value <= m → m < 2 ^ 32 → append_text out value = Some (out ++ text_bytes value).
Proof.
  intros L M. unfold append_text. rewrite (proj2 (Z.leb_le _ _)) by lia. cbn [negb].
  unfold append_u32, append_le, text_bytes. rewrite wrap_small by (unfold fits, vsize in *; lia).
  by rewrite (assoc_L (++)).
Qed.

Lemma encode_corpse_bytes c :
  corpse_present c = true → corpse_texts c → encode_corpse_context c = Some (corpse_bytes c).
Proof.
  intros P (T1 & T2 & T3 & T4). unfold encode_corpse_context. rewrite P. cbn [negb].
  rewrite (foldl_enc append_u32 (λ v, le_split 4 (wrap 32 v))) by done.
  rewrite (append_text_bytes _ _ _ T1), (append_text_bytes _ _ _ T2), (append_text_bytes _ _ _ T3),
    (append_text_bytes _ _ _ T4) by done.
  unfold corpse_bytes, append_u32, append_le. by rewrite <- !(assoc_L (++)).
Qed.

Lemma read_u32_at input off x rest :
  u32 x → at_offset input off (le_split 4 x ++ rest) →
  read_u32 input off = Some (x, (off + 4)%nat) ∧ at_offset input (off + 4) rest.
Proof. exact (read_le_at 4 input off x rest). Qed.

Lemma read_text_at input off value maximum rest :
  vsize value <= maximum → maximum < 2 ^ 32 → at_offset input off (text_bytes value ++ rest) →
  read_text input off maximum = Some (value, (off + 4 + length value)%nat)
  ∧ at_offset input (off + 4 + length value) rest.
Proof.
  intros L M A. unfold text_bytes in A. rewrite <- (assoc_L (++)) in A.
  destruct (read_u32_at input off (vsize value) _ ltac:(unfold fits, vsize in *; lia) A) as [R A'].
  unfold read_text. rewrite R. rewrite (proj2 (Z.ltb_ge _ _)) by done.
  pose proof (at_offset_length _ _ _ A') as Len. rewrite length_app in Len.
  destruct A' as [B A']. rewrite (proj2 (Z.ltb_ge _ _)) by (unfold vsize; lia). cbn [orb negb].
  unfold vsize. rewrite Nat2Z.id.
  destruct (slice_at input (off + 4) value rest _ eq_refl (conj B A')) as [-> A'']. done.
Qed.

Lemma read_values_at l input off rest :
  Forall (sfits 32) l → at_offset input off (concat (map (λ v, le_split 4 (wrap 32 v)) l) ++ rest) →
  read_values (length l) input off = Some (l, (off + 4 * length l)%nat)
  ∧ at_offset input (off + 4 * length l) rest.
Proof.
  intros F. revert off. induction F as [|v l Fv F IH]; intros off A.
  - cbn. rewrite Nat.add_0_r. done.
  - cbn [map concat] in A. rewrite <- (assoc_L (++)) in A. cbn [length read_values].
    destruct (read_u32_at input off (wrap 32 v) _ ltac:(apply wrap_range; lia) A) as [-> A'].
    destruct (IH _ A') as [-> A'']. rewrite to_signed_wrap by (done || lia).
    replace (off + 4 * Datatypes.S (length l))%nat with (off + 4 + 4 * length l)%nat by lia. done.
Qed.

(** One step of a reader on the bytes of a value. *)
Ltac read_u32_step A :=
  match type of A with
  | at_offset ?i ?o (le_split 4 ?x ++ ?rest) =>
      let R := fresh "R" in let A' := fresh "A" in
      let F := fresh "F" in
      assert (u32 x) as F by first [done | apply wrap_range; lia];
      destruct (read_u32_at i o x rest F A) as [R A'];
      rewrite R; clear R A F; rename A' into A
  end.
Ltac read_text_step S A :=
  match type of A with
  | at_offset ?i ?o (text_bytes ?v ++ ?rest) =>
      let R := fresh "R" in let A' := fresh "A" in
      destruct (read_text_at i o v _ rest S eq_refl A) as [R A'];
      rewrite R; clear R A; rename A' into A
  end.

Lemma decode_corpse_bytes c :
  corpse_typed c → corpse_present c = true → corpse_texts c →
  decode_corpse_context (corpse_bytes c) = Some c.
Proof.
  intros [T1 T2 T3 [T4 T5]] P (S1 & S2 & S3 & S4).
  pose proof (at_offset_start (corpse_bytes c)) as A. unfold decode_corpse_context.
  assert (Nat.eqb (length (corpse_bytes c)) 0 = false) as ->.
  { apply Nat.eqb_neq. unfold corpse_bytes. rewrite length_app, length_le_split. lia. }
  remember (corpse_bytes c) as input. rewrite Heqinput in A at 2. unfold corpse_bytes in A.
  read_u32_step A. rewrite Z.eqb_refl. cbn [negb]. do 3 read_u32_step A.
  rewrite (wrap_small 32 (actor_racewar c)) by (unfold fits in *; lia).
  rewrite (proj2 (Z.leb_le _ _)) by (unfold fits in *; lia). cbn [negb]. rewrite <- T4 at 1.
  destruct (read_values_at _ _ _ _ T5 A) as [-> A']. clear A. rename A' into A.
  read_text_step S1 A. read_text_step S2 A. read_text_step S3 A.
  rewrite <- (app_nil_r (text_bytes (corpse_keywords c))) in A. read_text_step S4 A.
  apply at_offset_length in A as Len. destruct A as [B _]. cbn [length] in Len.
  rewrite (proj2 (Nat.eqb_eq _ _)) by lia. cbn [negb]. rewrite !to_signed_wrap by (done || lia).
  destruct c. cbn in *. by subst.
Qed.

Record collector_typed (c : item_collector_death_enrollment) : Prop := {
  typed_death_operation : length (death_operation c) = 16%nat;
  typed_beneficiary : u32 (beneficiary_pid c);
  typed_death_time : u64 (death_time c);
  typed_policy : u64 (collection_delay (policy c)) ∧ u64 (sale_delay (policy c))
    ∧ u64 (holding_duration (policy c)) ∧ u64 (price_percent (policy c))
    ∧ u64 (minimum_value (policy c));
  typed_eligible : Forall (fits 64) (eligible_item_uids c);
}.

Definition collector_bytes (c : item_collector_death_enrollment) : list byte :=
  le_split 4 COLLECTOR_CONTEXT_VERSION ++ death_operation c ++ le_split 4 (beneficiary_pid c)
  ++ le_split 8 (death_time c) ++ le_split 8 (collection_delay (policy c))
  ++ le_split 8 (sale_delay (policy c)) ++ le_split 8 (holding_duration (policy c))
  ++ le_split 8 (price_percent (policy c)) ++ le_split 8 (minimum_value (policy c))
  ++ le_split 4 (vsize (eligible_item_uids c))
  ++ concat (map (le_split 8) (eligible_item_uids c)).

Lemma length_concat_le l : length (concat (map (le_split 8) l)) = (8 * length l)%nat.
Proof. induction l as [|x l IH]; cbn [map concat length]; rewrite ?length_app, ?length_le_split; lia. Qed.

Lemma length_collector_bytes c :
  length (death_operation c) = 16%nat →
  length (collector_bytes c) = (76 + 8 * length (eligible_item_uids c))%nat.
Proof.
  intros L. unfold collector_bytes. rewrite !length_app, !length_le_split, length_concat_le, L. lia.
Qed.

Lemma encode_collector_bytes c :
  collector_present c = true → length (death_operation c) = 16%nat →
  vsize (eligible_item_uids c) <= ITEM_TRANSFER_MAX_ITEMS →
  encode_collector_context c = Some (collector_bytes c).
Proof.
  intros P L N. unfold encode_collector_context. rewrite P. cbn [negb].
  rewrite (proj2 (Z.ltb_ge _ _)) by (unfold ITEM_TRANSFER_MAX_ITEMS in N; lia).
  change ((_ - _) / 8) with 49142.
  rewrite (proj2 (Z.ltb_ge _ _)) by (unfold ITEM_TRANSFER_MAX_ITEMS in N; lia). cbn [orb negb].
  rewrite (foldl_enc (append_le 8) (le_split 8)) by done.
  assert (∀ e, e = collector_bytes c →
    (ensure? (length e =? collector_fixed_size + 8 * length (eligible_item_uids c))%nat in Some e)
    = Some (collector_bytes c)) as X.
  { intros e ->. rewrite length_collector_bytes by done. unfold collector_fixed_size.
    rewrite (proj2 (Nat.eqb_eq _ _)) by lia. done. }
  apply X. unfold collector_bytes, append_le. by rewrite <- !(assoc_L (++)).
Qed.

Lemma decode_collector_bytes c :
  collector_typed c → collector_present c = true →
  vsize (eligible_item_uids c) <= ITEM_TRANSFER_MAX_ITEMS →
  decode_collector_context (collector_bytes c) = Some c.
Proof.
  intros [L Tb Td (T1 & T2 & T3 & T4 & T5) Te] P N.
  pose proof (length_collector_bytes c L) as Len.
  pose proof (at_offset_start (collector_bytes c)) as A. unfold decode_collector_context.
  remember (collector_bytes c) as input. rewrite Heqinput in A at 2. unfold collector_bytes in A.
  rewrite Len, (proj2 (Nat.eqb_neq _ _)) by lia. unfold collector_fixed_size.
  rewrite (proj2 (Nat.ltb_ge _ _)) by (cbn; lia). cbn [negb andb].
  get_at A; [|done]. rewrite E. rewrite Z.eqb_refl. cbn [negb].
  destruct (slice_at input 4 (death_operation c) _ 16 (eq_sym L) A) as [-> A1]. cbn [Nat.add] in A1.
  get_at A1; [|done]. do 6 (get_at A1; [|done]).
  get_at A1; [|unfold fits, vsize, ITEM_TRANSFER_MAX_ITEMS in *; lia].
  rewrite E7, (proj2 (Z.ltb_ge _ _)) by done.
  rewrite (proj2 (Z.eqb_eq _ _)) by (unfold vsize; rewrite Len; lia). cbn [orb negb].
  rewrite <- (app_nil_r (concat _)) in A1. unfold vsize. rewrite Nat2Z.id, (get_les_at 8 _ _ _ _ Te A1).
  rewrite E0, E1, E2, E3, E4, E5, E6. destruct c as [? ? ? ? [] ?]. cbn in *. by subst.
Qed.

(** ** Lemmas: the payload's bytes *)

Record entry_typed (e : item_transfer_entry) : Prop := {
  typed_entry_uids : u64 (item_uid e) ∧ u64 (root_item_uid e) ∧ u64 (parent_item_uid e)
    ∧ u64 (expected_item_revision e);
  typed_entry_vnum : i32 (entry_vnum e);
  typed_entry_state : u8 (expected_state e);
}.

Definition owner_typed (o : item_owner_identity) : Prop :=
  u8 (owner_type o) ∧ u64 (owner_id o) ∧ u64 (context_id o).

Record transfer_typed (p : item_transfer_payload) : Prop := {
  typed_from : owner_typed (from_owner p);
  typed_to : owner_typed (to_owner p);
  typed_transfer_reason : u16 (reason p);
  typed_transfer_reason_id : i64 (reason_id p);
  typed_revisions : u64 (expected_from_revision p) ∧ u64 (expected_to_revision p)
    ∧ u64 (expected_target_parent_revision p);
  typed_uids : u64 (selected_item_uid p) ∧ u64 (target_root_item_uid p)
    ∧ u64 (target_parent_item_uid p);
  typed_entries : Forall entry_typed (entries p);
  typed_corpse : corpse_typed (corpse p);
  typed_collector : collector_typed (collector p);
}.

Definition owner_bytes (o : item_owner_identity) : list byte :=
  to_byte (owner_type o) :: le_split 8 (owner_id o) ++ le_split 8 (context_id o).

Definition entry_bytes (e : item_transfer_entry) : list byte :=
  le_split 8 (item_uid e) ++ le_split 8 (root_item_uid e) ++ le_split 8 (parent_item_uid e)
  ++ le_split 8 (expected_item_revision e) ++ le_split 4 (wrap 32 (entry_vnum e))
  ++ [to_byte (expected_state e)] ++ zeros 3.

Definition header_bytes (p : item_transfer_payload) : list byte :=
  owner_bytes (from_owner p) ++ owner_bytes (to_owner p) ++ le_split 2 (reason p)
  ++ le_split 2 (item_count p) ++ zeros 2 ++ le_split 8 (wrap 64 (reason_id p))
  ++ le_split 8 (expected_from_revision p) ++ le_split 8 (expected_to_revision p)
  ++ le_split 8 (encoded_selected p) ++ le_split 8 (encoded_target_root p)
  ++ le_split 8 (target_parent_item_uid p) ++ le_split 8 (expected_target_parent_revision p).

Definition section_bytes (bs : list byte) : list byte := le_split 4 (vsize bs) ++ bs.

Definition transfer_bytes (p : item_transfer_payload) (corpse collector : list byte) : list byte :=
  header_bytes p ++ concat (map entry_bytes (entries p)) ++ section_bytes (item_blob p)
  ++ section_bytes corpse ++ section_bytes collector.

Lemma length_owner_bytes o : length (owner_bytes o) = 17%nat.
Proof. unfold owner_bytes. cbn [length]. rewrite length_app, !length_le_split. done. Qed.
Lemma length_header_bytes p : length (header_bytes p) = 96%nat.
Proof.
  unfold header_bytes. rewrite !length_app, !length_owner_bytes, !length_le_split. done.
Qed.
Lemma length_entry_bytes e : length (entry_bytes e) = 40%nat.
Proof. unfold entry_bytes. rewrite !length_app, !length_le_split. done. Qed.
Lemma length_entries_bytes l : length (concat (map entry_bytes l)) = (40 * length l)%nat.
Proof.
  induction l as [|e l IH]; cbn [map concat length]; rewrite ?length_app, ?length_entry_bytes; lia.
Qed.

(** The next write into the zeroed buffer. *)
Ltac buffer_lia :=
  rewrite ?length_app, ?length_owner_bytes, ?length_le_split, ?length_header_bytes,
    ?length_entries_bytes, ?length_zeros; cbn [length]; lia.
Ltac fill F :=
  match type of F with
  | filled ?out ?pre ?n =>
      match goal with
      | |- context [put_bytes out ?off ?bs] =>
          let G := fresh "G" in
          assert (filled (put_bytes out off bs) (pre ++ bs) (n - length bs)) as G
            by (apply (filled_put _ _ _ _ _ F); buffer_lia);
          clear F; rename G into F
      end
  end.

Lemma put_entry_filled out pre n e index :
  filled out pre n → length pre = (96 + index * 40)%nat → (40 <= n)%nat →
  filled (put_entry out index e) (pre ++ entry_bytes e) (n - 40).
Proof.
  intros F L N. unfold put_entry, ITEM_TRANSFER_HEADER_BYTES, ITEM_TRANSFER_ENTRY_BYTES.
  cbv zeta. do 6 fill F. apply (filled_skip _ _ _ 3) in F; [|buffer_lia].
  rewrite !length_le_split in F. cbn [length] in F. unfold entry_bytes.
  replace (n - 40)%nat with (n - 8 - 8 - 8 - 8 - 4 - 1 - 3)%nat by lia.
  by rewrite <- !(assoc_L (++)) in F.
Qed.

Lemma put_entries_filled l out pre n index :
  filled out pre n → length pre = (96 + index * 40)%nat → (40 * length l <= n)%nat →
  filled (put_entries out index l) (pre ++ concat (map entry_bytes l)) (n - 40 * length l).
Proof.
  revert out pre n index. induction l as [|e l IH]; intros out pre n index F L N.
  - cbn. by rewrite app_nil_r, Nat.sub_0_r.
  - cbn [length] in *. cbn [put_entries map concat]. rewrite (assoc_L (++)).
    replace (n - 40 * Datatypes.S (length l))%nat with (n - 40 - 40 * length l)%nat by lia.
    apply IH; [apply put_entry_filled; [done|done|lia]| |lia].
    rewrite length_app, length_entry_bytes. lia.
Qed.

(** ** Lemmas: encoding a payload *)

Definition corpse_section (p : item_transfer_payload) : list byte :=
  if corpse_present (corpse p) then corpse_bytes (corpse p) else [].
Definition collector_section (p : item_transfer_payload) : list byte :=
  if collector_present (collector p) then collector_bytes (collector p) else [].

Lemma valid_text_size value m required : valid_text value m required = true → vsize value <= m.
Proof.
  unfold valid_text. rewrite andb_true_iff, negb_true_iff, orb_false_iff, Z.ltb_ge. tauto.
Qed.

Lemma valid_corpse_texts p v :
  validate_payload p v = true → corpse_present (corpse p) = true → corpse_texts (corpse p).
Proof.
  intros (_ & _ & _ & _ & C & _)%validate_parts P. unfold corpse_valid in C.
  rewrite P in C. apply andb_prop in C as [_ C]. rewrite andb_true_l, negb_involutive in C.
  unfold corpse_metadata_valid in C. rewrite !andb_true_iff in C.
  unfold corpse_texts. split_and!; eapply valid_text_size; apply C.
Qed.

Lemma valid_basics p v :
  validate_payload p v = true →
  item_owner_identity_valid (from_owner p) = true ∧ item_owner_identity_valid (to_owner p) = true
  ∧ valid_reason (reason p) = true ∧ 0 < item_count p <= ITEM_TRANSFER_MAX_ITEMS
  ∧ vsize (item_blob p) <= ITEM_TRANSFER_ITEM_BLOB_MAX_BYTES
  ∧ valid_collector_context p v = true.
Proof.
  intros (B & _)%validate_parts. unfold basics_valid in B.
  rewrite !andb_true_iff, nz_true, !Z.leb_le in B. unfold item_count, vsize in *. naive_solver lia.
Qed.

Lemma valid_eligible p v :
  validate_payload p v = true →
  if collector_present (collector p)
  then vsize (eligible_item_uids (collector p)) <= ITEM_TRANSFER_MAX_ITEMS
  else eligible_item_uids (collector p) = [].
Proof.
  intros (_ & _ & _ & [_ N] & _ & C)%valid_basics. unfold valid_collector_context in C.
  destruct (collector_present _); cbn [negb] in C.
  - rewrite !andb_true_iff, !Z.leb_le in C. lia.
  - by apply Nat.eqb_eq, nil_length_inv in C.
Qed.

Lemma corpse_section_spec p v :
  validate_payload p v = true → transfer_typed p →
  encode_corpse_context (corpse p) = Some (corpse_section p)
  ∧ decode_corpse_context (corpse_section p)
    = Some (if corpse_present (corpse p) then corpse p else no_corpse).
Proof.
  intros V T. unfold corpse_section. destruct (corpse_present (corpse p)) eqn:P.
  - pose proof (valid_corpse_texts _ _ V P) as X.
    split; [by apply encode_corpse_bytes|apply decode_corpse_bytes; [apply T|done..]].
  - unfold encode_corpse_context. by rewrite P.
Qed.

Lemma collector_section_spec p v :
  validate_payload p v = true → transfer_typed p →
  encode_collector_context (collector p) = Some (collector_section p)
  ∧ decode_collector_context (collector_section p)
    = Some (if collector_present (collector p) then collector p else no_collector).
Proof.
  intros V T. unfold collector_section. pose proof (valid_eligible _ _ V) as N.
  destruct (collector_present (collector p)) eqn:P.
  - pose proof (typed_collector _ T) as Tc.
    split; [apply encode_collector_bytes; [done|apply Tc|done]|by apply decode_collector_bytes].
  - unfold encode_collector_context. by rewrite P.
Qed.

Definition payload_bytes (p : item_transfer_payload) : list byte :=
  transfer_bytes p (corpse_section p) (collector_section p).

Lemma length_payload_bytes p :
  length (payload_bytes p) =
    (96 + length (entries p) * 40 + 4 + length (item_blob p) + 4 + length (corpse_section p) + 4
     + length (collector_section p))%nat.
Proof.
  unfold payload_bytes, transfer_bytes, section_bytes.
  rewrite !length_app, !length_le_split, length_header_bytes, length_entries_bytes. lia.
Qed.

(** The writes at the places of the fields lay the fields out one after another. *)
Lemma encode_payload_bytes p out :
  transfer_typed p → item_transfer_command_encode_payload p = Some out →
  out = payload_bytes p ∧ validate_payload p ITEM_TRANSFER_PAYLOAD_VERSION = true
  ∧ vsize out <= CRITICAL_COMMAND_MAX_PAYLOAD_BYTES.
Proof.
  intros T. unfold item_transfer_command_encode_payload.
  destruct (validate_payload _ _) eqn:V; [|done]. cbn [negb].
  rewrite (proj1 (corpse_section_spec _ _ V T)), (proj1 (collector_section_spec _ _ V T)).
  unfold ITEM_TRANSFER_HEADER_BYTES, ITEM_TRANSFER_ENTRY_BYTES.
  cbv zeta. rewrite <- length_payload_bytes.
  destruct (Z.leb_spec (Z.of_nat (length (payload_bytes p))) CRITICAL_COMMAND_MAX_PAYLOAD_BYTES) as [L|]; [|done].
  cbn [negb]. intros E. apply (inj Some) in E.
  enough (out = payload_bytes p) as Eo; [split_and!; [done..|by rewrite Eo]|].
  rewrite <- E. clear E L. apply filled_all.
  change (encode_owner (from_owner p)) with (owner_bytes (from_owner p)).
  change (encode_owner (to_owner p)) with (owner_bytes (to_owner p)).
  unfold FROM_OFFSET, TO_OFFSET, REASON_OFFSET, COUNT_OFFSET, REASON_ID_OFFSET, FROM_REVISION_OFFSET,
    TO_REVISION_OFFSET, SELECTED_ITEM_OFFSET, TARGET_ROOT_OFFSET, TARGET_PARENT_OFFSET,
    TARGET_PARENT_REVISION_OFFSET.
  match goal with |- context [replicate ?n _] =>
    assert (filled (replicate n Byte.x00) [] n) as F by done;
    assert (n = (96 + length (entries p) * 40 + 4 + length (item_blob p) + 4
      + length (corpse_section p) + 4 + length (collector_section p))%nat) as En
      by apply length_payload_bytes;
    revert F; generalize (replicate n Byte.x00); generalize dependent n end.
  intros n En buffer F. do 4 fill F. apply (filled_skip _ _ _ 2) in F; [|buffer_lia]. do 7 fill F.
  apply (put_entries_filled (entries p) _ _ _ 0) in F; [|buffer_lia..].
  do 6 fill F. rewrite <- !(assoc_L (++)) in F. cbn [app] in F.
  match type of F with filled _ _ ?k => replace k with 0%nat in F by (subst n; buffer_lia) end.
  exact F.
Qed.

(** ** Lemmas: decoding a payload *)

Lemma get_entry_at input index e rest :
  entry_typed e → at_offset input (96 + index * 40) (entry_bytes e ++ rest) →
  get_entry input index = Some e ∧ at_offset input (96 + Datatypes.S index * 40) rest.
Proof.
  intros [(T1 & T2 & T3 & T4) T5 T6] A.
  assert (at_offset input (96 + index * 40 + 40) rest) as R
    by (apply at_offset_app in A; by rewrite length_entry_bytes in A).
  replace (96 + Datatypes.S index * 40)%nat with (96 + index * 40 + 40)%nat by lia.
  split; [|done]. unfold entry_bytes, zeros in A. rewrite <- !(assoc_L (++)) in A.
  unfold get_entry, ITEM_TRANSFER_HEADER_BYTES, ITEM_TRANSFER_ENTRY_BYTES.
  cbv zeta. remember (96 + index * 40)%nat as off eqn:Eo. clear Eo R.
  do 5 (get_at A; [|first [done|apply wrap_range; lia]]).
  cbn [replicate app] in A. do 4 get_at A. rewrite <- !(Nat.add_assoc off) in *. cbn [Nat.add] in *.
  rewrite E, E0, E1, E2, E3, E4, E5, E6, E7.
  rewrite to_signed_wrap, of_to_byte by (done || lia). cbn. by destruct e.
Qed.

Lemma get_entries_at l input used index rest :
  Forall entry_typed l → used = (index + length l)%nat →
  at_offset input (96 + index * 40) (concat (map entry_bytes l) ++ rest) →
  get_entries input used index (length l) = Some l.
Proof.
  intros F. revert index. induction F as [|e l Te F IH]; intros index U A; [done|].
  cbn [map concat length] in *. rewrite <- (assoc_L (++)) in A. cbn [get_entries].
  rewrite (proj2 (Nat.ltb_lt _ _)) by lia. destruct (get_entry_at _ _ _ _ Te A) as [-> A'].
  by rewrite (IH (Datatypes.S index)) by (done || lia).
Qed.

Lemma decode_owner_at input off o rest :
  owner_typed o → at_offset input off (owner_bytes o ++ rest) →
  decode_owner input off = o ∧ at_offset input (off + 17) rest.
Proof.
  intros (T1 & T2 & T3) A. assert (at_offset input (off + 17) rest) as R
    by (apply at_offset_app in A; by rewrite length_owner_bytes in A).
  split; [|done]. unfold owner_bytes in A. cbn [app] in A. rewrite <- !(assoc_L (++)) in A.
  unfold decode_owner. get_at A. do 2 (get_at A; [|done]).
  rewrite <- (Nat.add_assoc off 1 8) in *. cbn [Nat.add] in *.
  rewrite E, E0, E1, of_to_byte by done. by destruct o.
Qed.

Lemma section_at input off bs rest :
  vsize bs < 2 ^ 32 → at_offset input off (section_bytes bs ++ rest) →
  get_le 4 input off = vsize bs ∧ slice (length bs) input (off + 4) = bs
  ∧ at_offset input (off + 4 + length bs) rest.
Proof.
  intros L A. unfold section_bytes in A. rewrite <- (assoc_L (++)) in A.
  get_at A; [|unfold fits, vsize in *; lia]. split; [done|].
  by apply (slice_at _ _ _ _ (length bs) eq_refl) in A.
Qed.

(** The sections behind the items. *)
Lemma get_sections_at input off blob corpse_context collector_context c k :
  vsize blob <= ITEM_TRANSFER_ITEM_BLOB_MAX_BYTES →
  vsize input <= CRITICAL_COMMAND_MAX_PAYLOAD_BYTES →
  decode_corpse_context corpse_context = Some c →
  decode_collector_context collector_context = Some k →
  at_offset input off (section_bytes blob ++ section_bytes corpse_context
                       ++ section_bytes collector_context) →
  get_sections ITEM_TRANSFER_PAYLOAD_VERSION input off = Some (blob, c, k).
Proof.
  intros B I Dc Dk A. pose proof (at_offset_length _ _ _ A) as Len.
  assert (off <= length input)%nat as Lo by apply A.
  unfold section_bytes in Len. rewrite !length_app, !length_le_split in Len.
  rewrite <- (app_nil_r (section_bytes collector_context)) in A.
  unfold CRITICAL_COMMAND_MAX_PAYLOAD_BYTES in I.
  apply section_at in A as (E1 & S1 & A); [|unfold vsize in *; lia].
  apply section_at in A as (E2 & S2 & A); [|unfold vsize in *; lia].
  apply section_at in A as (E3 & S3 & _); [|unfold vsize in *; lia].
  unfold get_sections. cbv zeta.
  change (ITEM_TRANSFER_PAYLOAD_VERSION <? ITEM_TRANSFER_EXACT_PAYLOAD_VERSION) with false.
  change (ITEM_TRANSFER_PAYLOAD_VERSION =? ITEM_TRANSFER_EXACT_PAYLOAD_VERSION) with false.
  change (ITEM_TRANSFER_PAYLOAD_VERSION <? ITEM_TRANSFER_PAYLOAD_VERSION) with false.
  rewrite E1, (proj2 (Nat.ltb_ge _ _)) by lia. cbn [negb].
  rewrite (proj2 (Z.ltb_ge _ (vsize blob))), (proj2 (Z.ltb_ge (vsize input) _)) by (unfold vsize in *; lia).
  replace (Z.to_nat (Z.of_nat off + 4 + vsize blob)) with (off + 4 + length blob)%nat by (unfold vsize; lia).
  rewrite E2. replace (Z.to_nat (Z.of_nat off + 4 + vsize blob + 4))
    with (off + 4 + length blob + 4)%nat by (unfold vsize; lia).
  replace (Z.to_nat (Z.of_nat off + 4 + vsize blob + 4 + vsize corpse_context))
    with (off + 4 + length blob + 4 + length corpse_context)%nat by (unfold vsize; lia).
  replace (Z.to_nat (Z.of_nat off + 4 + vsize blob + 4 + vsize corpse_context + 4))
    with (off + 4 + length blob + 4 + length corpse_context + 4)%nat by (unfold vsize; lia).
  rewrite E3, !to_nat_vsize, S1, S2, S3, Dc, Dk.
  rewrite !(proj2 (Z.ltb_ge _ _)), (proj2 (Z.eqb_eq _ _)) by
    (unfold CRITICAL_COMMAND_MAX_PAYLOAD_BYTES, vsize in *; lia). done.
Qed.

(** ** Lemmas: the payload that is read back *)

(** What a payload reads back as: the selected item and the target's root as they were
    written, and a sidecar that is absent without contents. *)
Definition canonical (p : item_transfer_payload) : item_transfer_payload :=
  TransferPayload (from_owner p) (to_owner p) (reason p) (reason_id p)
    (expected_from_revision p) (expected_to_revision p) (encoded_selected p) (encoded_target_root p)
    (target_parent_item_uid p) (expected_target_parent_revision p) (multi_root p) (entries p)
    (item_blob p) (if corpse_present (corpse p) then corpse p else no_corpse)
    (if collector_present (collector p) then collector p else no_collector).

(** A batch keeps its selected item and its target; the root of a tree is in the header
    whenever the payload leaves it out. *)
Lemma encoded_uids p :
  validate_payload p ITEM_TRANSFER_PAYLOAD_VERSION = true →
  if multi_root p
  then encoded_selected p = selected_item_uid p ∧ encoded_target_root p = target_root_item_uid p
       ∧ (is_reason p item_transfer_reason.craft = false → selected_item_uid p = 0)
  else encoded_selected p = selected_uid p ∧ encoded_target_root p = target_root p
       ∧ selected_uid p ≠ 0 ∧ target_root p ≠ 0
       ∧ is_reason p item_transfer_reason.craft = false.
Proof.
  intros (_ & _ & C & _ & _ & _ & M)%validate_parts. unfold encoded_target_root, encoded_selected.
  destruct (multi_root p) eqn:MR; cbn [andb].
  - destruct (is_reason p item_transfer_reason.craft) eqn:R; cbn [negb].
    + destruct (craft_multi _ _ (C eq_refl)) as [_ S]. apply nz_true in S. by rewrite S.
    + destruct M as [M _]. unfold batch_valid in M. rewrite R in M.
      assert (selected_item_uid p = 0) as S; [|by rewrite S].
      rewrite !andb_true_iff in M. destruct M as (((((_ & M) & _) & _) & _) & _).
      cbn [negb andb] in M. apply negb_true_iff, nz_false in M. done.
  - unfold tree_valid in M. rewrite !andb_true_iff, !nz_true in M. destruct M as ((((_ & S) & T) & _) & _).
    split_and!; [done..|]. destruct (is_reason p _); [|done]. destruct (craft_multi _ _ (C eq_refl)). congruence.
Qed.

Lemma encoded_uids_typed p :
  transfer_typed p → u64 (encoded_selected p) ∧ u64 (encoded_target_root p).
Proof.
  intros T. destruct (typed_uids _ T) as (T1 & T2 & T3).
  assert (u64 (root_item_uid (first_entry p))) as R.
  { unfold first_entry. destruct (entries p !! 0%nat) as [e|] eqn:E; [|done].
    apply (Forall_lookup_1 _ _ _ _ (typed_entries _ T)) in E as []. naive_solver. }
  assert (u64 (encoded_selected p)) as S.
  { unfold encoded_selected. repeat case_match; done. }
  split; [done|]. unfold encoded_target_root. repeat case_match; done.
Qed.

Lemma header_at p input rest :
  transfer_typed p → item_count p <= ITEM_TRANSFER_MAX_ITEMS →
  at_offset input 0 (header_bytes p ++ rest) →
  decode_owner input 0 = from_owner p ∧ decode_owner input 17 = to_owner p
  ∧ get_le 2 input 34 = reason p ∧ get_le 2 input 36 = item_count p
  ∧ get_le 8 input 40 = wrap 64 (reason_id p)
  ∧ get_le 8 input 48 = expected_from_revision p ∧ get_le 8 input 56 = expected_to_revision p
  ∧ get_le 8 input 64 = encoded_selected p ∧ get_le 8 input 72 = encoded_target_root p
  ∧ get_le 8 input 80 = target_parent_item_uid p
  ∧ get_le 8 input 88 = expected_target_parent_revision p.
Proof.
  intros T N A. destruct (encoded_uids_typed _ T) as [Ts Tt].
  destruct (typed_uids _ T) as (_ & _ & Tp). destruct (typed_revisions _ T) as (Tf & Tr & Te).
  unfold header_bytes in A. rewrite <- !(assoc_L (++)) in A.
  apply decode_owner_at in A as [O1 A]; [|apply T]. apply decode_owner_at in A as [O2 A]; [|apply T].
  cbn [Nat.add] in A. get_at A; [|apply T].
  get_at A; [|unfold fits, item_count, vsize, ITEM_TRANSFER_MAX_ITEMS in *; lia].
  apply (at_offset_app _ _ (zeros 2)) in A. rewrite length_zeros in A. cbn [Nat.add] in A.
  get_at A; [|apply wrap_range; lia]. do 6 (get_at A; [|done]). split_and!; done.
Qed.

Lemma decoded_reason_id p :
  validate_payload p ITEM_TRANSFER_PAYLOAD_VERSION = true →
  decoded_reason ITEM_TRANSFER_PAYLOAD_VERSION (reason p) (from_owner p) (to_owner p) = reason p.
Proof.
  intros (_ & P & _)%validate_parts. unfold decoded_reason.
  destruct (Z.eqb_spec (reason p) item_transfer_reason.soulbind) as [E|]; [|by rewrite andb_false_r].
  assert (player_transfer p = true) as Pt.
  { unfold player_transfer, is_reason. rewrite E. done. }
  specialize (P Pt). unfold player_transfer_valid in P. rewrite !andb_true_iff in P.
  destruct P as ((((_ & P) & _) & _) & _). apply negb_true_iff in P.
  unfold item_owner_identity_equal. by rewrite P, andb_false_r, andb_false_l, andb_false_r.
Qed.

(** Whether several roots move is read off the selected item. *)
Lemma decoded_multi p :
  validate_payload p ITEM_TRANSFER_PAYLOAD_VERSION = true →
  (encoded_selected p =? 0) || (reason p =? item_transfer_reason.craft) = multi_root p.
Proof.
  intros V. pose proof (encoded_uids _ V) as U. unfold is_reason in U. destruct (multi_root p).
  - destruct U as (-> & _ & U). destruct (Z.eqb_spec (reason p) item_transfer_reason.craft); [by rewrite orb_true_r|].
    by rewrite (U eq_refl).
  - destruct U as (-> & _ & S & _ & ->). rewrite orb_false_r. by apply Z.eqb_neq.
Qed.

Lemma read_payload_bytes p :
  transfer_typed p → validate_payload p ITEM_TRANSFER_PAYLOAD_VERSION = true →
  vsize (payload_bytes p) <= CRITICAL_COMMAND_MAX_PAYLOAD_BYTES →
  read_payload ITEM_TRANSFER_PAYLOAD_VERSION (payload_bytes p) = Some (canonical p).
Proof.
  intros T V L. pose proof (valid_basics _ _ V) as (_ & _ & _ & N & Bl & _).
  pose proof (at_offset_start (payload_bytes p)) as A.
  assert (at_offset (payload_bytes p) 96 (concat (map entry_bytes (entries p))
    ++ section_bytes (item_blob p) ++ section_bytes (corpse_section p)
    ++ section_bytes (collector_section p))) as Ae.
  { apply at_offset_app in A. by rewrite length_header_bytes in A. }
  change (payload_bytes p) with (transfer_bytes p (corpse_section p) (collector_section p)) in A at 2.
  unfold transfer_bytes in A.
  destruct (header_at p _ _ T (proj2 N) A) as (H1 & H2 & H3 & H4 & H5 & H6 & H7 & H8 & H9 & H10 & H11).
  pose proof (encoded_uids _ V) as U.
  unfold read_payload, FROM_OFFSET, TO_OFFSET, REASON_OFFSET, COUNT_OFFSET, REASON_ID_OFFSET,
    FROM_REVISION_OFFSET, TO_REVISION_OFFSET, SELECTED_ITEM_OFFSET, TARGET_ROOT_OFFSET,
    TARGET_PARENT_OFFSET, TARGET_PARENT_REVISION_OFFSET. cbv zeta.
  rewrite H1, H2, H3, H4, H5, H6, H7, H8, H9, H10, H11, (decoded_reason_id _ V).
  change (ITEM_TRANSFER_BATCH_PAYLOAD_VERSION <=? ITEM_TRANSFER_PAYLOAD_VERSION) with true.
  cbn [andb orb negb]. rewrite (proj2 (nz_true _)), (proj2 (Z.leb_le _ _)) by lia. cbn [andb negb].
  unfold ITEM_TRANSFER_HEADER_BYTES, ITEM_TRANSFER_ENTRY_BYTES, item_count. rewrite to_nat_vsize.
  rewrite (proj2 (Nat.ltb_ge _ _)) by (rewrite length_payload_bytes; lia). cbn [negb].
  rewrite (get_entries_at (entries p) _ (length (entries p)) 0 _ (typed_entries _ T) eq_refl Ae).
  apply at_offset_app in Ae. rewrite length_entries_bytes, (Nat.mul_comm 40) in Ae.
  rewrite (get_sections_at _ _ _ _ _ _ _ Bl L (proj2 (corpse_section_spec _ _ V T))
    (proj2 (collector_section_spec _ _ V T)) Ae).
  rewrite to_signed_wrap by (apply T || lia). unfold canonical. repeat f_equal.
  by apply decoded_multi.
Qed.

(** ** Lemmas: the payload that is read back is as valid *)

Lemma climb_canonical p fuel e : climb fuel (canonical p) e = climb fuel p e.
Proof.
  revert e. induction fuel as [|fuel IH]; intros e; [done|]. cbn [climb].
  change (find_payload_item (canonical p)) with (find_payload_item p). by case_match.
Qed.

Lemma climb_from_canonical p uid : climb_from (canonical p) uid = climb_from p uid.
Proof.
  unfold climb_from. change (find_payload_item (canonical p)) with (find_payload_item p).
  change (entries (canonical p)) with (entries p). case_match; [apply climb_canonical|done].
Qed.

Section Canonical.

Context (p : item_transfer_payload)
  (V : validate_payload p ITEM_TRANSFER_PAYLOAD_VERSION = true).

(** *** A batch *)

Lemma batch_selected_canonical :
  multi_root p = true → selected_item_uid (canonical p) = selected_item_uid p.
Proof. intros M. pose proof (encoded_uids _ V) as U. rewrite M in U. apply U. Qed.
Lemma batch_target_canonical :
  multi_root p = true → target_root_item_uid (canonical p) = target_root_item_uid p.
Proof. intros M. pose proof (encoded_uids _ V) as U. rewrite M in U. apply U. Qed.

Lemma batch_root_canonical uid :
  multi_root p = true → selected_root_for (canonical p) uid = selected_root_for p uid.
Proof.
  intros M. unfold selected_root_for. change (multi_root (canonical p)) with (multi_root p). rewrite M.
  change (reason (canonical p)) with (reason p). by rewrite climb_from_canonical.
Qed.

Lemma batch_topology_canonical uid :
  multi_root p = true → target_topology_for (canonical p) uid = target_topology_for p uid.
Proof.
  intros M. unfold target_topology_for. rewrite batch_root_canonical, batch_target_canonical by done.
  done.
Qed.

Lemma batch_entries_canonical previous l :
  multi_root p = true → batch_entries_valid (canonical p) previous l = batch_entries_valid p previous l.
Proof.
  intros M. revert previous. induction l as [|e l IH]; intros previous; [done|].
  cbn [batch_entries_valid]. rewrite IH. unfold created_entry_valid, moved_entry_valid.
  by rewrite batch_root_canonical, batch_topology_canonical.
Qed.

Lemma batch_canonical :
  multi_root p = true →
  batch_valid (canonical p) ITEM_TRANSFER_PAYLOAD_VERSION
  = batch_valid p ITEM_TRANSFER_PAYLOAD_VERSION.
Proof.
  intros M. unfold batch_valid, creation_batch. by rewrite batch_selected_canonical, batch_target_canonical.
Qed.

(** *** A tree *)

Lemma tree_selected_canonical : multi_root p = false → selected_uid (canonical p) = selected_uid p.
Proof.
  intros M. pose proof (encoded_uids _ V) as U. rewrite M in U. destruct U as (E & _ & N & _).
  unfold selected_uid at 1. change (selected_item_uid (canonical p)) with (encoded_selected p).
  rewrite E. apply nz_true in N. by rewrite N.
Qed.

Lemma tree_target_canonical : multi_root p = false → target_root (canonical p) = target_root p.
Proof.
  intros M. pose proof (encoded_uids _ V) as U. rewrite M in U. destruct U as (_ & E & _ & N & _).
  unfold target_root at 1. change (target_root_item_uid (canonical p)) with (encoded_target_root p).
  rewrite E. apply nz_true in N. by rewrite N.
Qed.

Lemma tree_entries_canonical previous found l :
  multi_root p = false →
  tree_entries_valid (canonical p) previous found l = tree_entries_valid p previous found l.
Proof.
  intros M. revert previous found. induction l as [|e l IH]; intros previous found; [done|].
  cbn [tree_entries_valid]. by rewrite tree_selected_canonical, !IH.
Qed.

Lemma reaches_canonical fuel uid :
  multi_root p = false → reaches fuel (canonical p) uid = reaches fuel p uid.
Proof.
  intros M. revert uid. induction fuel as [|fuel IH]; intros uid; [done|]. cbn [reaches].
  rewrite tree_selected_canonical by done. change (entries (canonical p)) with (entries p).
  case_match; [done|]. by case_match.
Qed.

Lemma tree_canonical : multi_root p = false → tree_valid (canonical p) = tree_valid p.
Proof.
  intros M. unfold tree_valid. rewrite tree_selected_canonical, tree_target_canonical by done.
  change (entries (canonical p)) with (entries p). rewrite tree_entries_canonical by done.
  case_match; [|done]. do 2 f_equal. apply forallb_same. intros e. by rewrite reaches_canonical.
Qed.

(** *** Either *)

Lemma outputs_canonical : decode_craft_outputs (canonical p) = decode_craft_outputs p.
Proof.
  unfold decode_craft_outputs. change (reason (canonical p)) with (reason p).
  destruct (Z.eqb_spec (reason p) item_transfer_reason.craft) as [R|]; [|done].
  assert (multi_root p = true) as M.
  { destruct (validate_parts _ _ V) as (_ & _ & C & _). unfold is_reason in C. rewrite R in C.
    apply (craft_multi p _ (C eq_refl)). }
  by rewrite batch_selected_canonical.
Qed.

Lemma sidecars_canonical :
  corpse_present (corpse (canonical p)) = corpse_present (corpse p)
  ∧ collector_present (collector (canonical p)) = collector_present (collector p)
  ∧ valid_collector_context (canonical p) ITEM_TRANSFER_PAYLOAD_VERSION = true
  ∧ corpse_valid (canonical p) ITEM_TRANSFER_PAYLOAD_VERSION = true.
Proof.
  destruct (valid_basics _ _ V) as (_ & _ & _ & _ & _ & K).
  destruct (validate_parts _ _ V) as (_ & _ & _ & _ & C & _).
  assert (world_corpse_raise_pet (canonical p) = world_corpse_raise_pet p) as W.
  { unfold world_corpse_raise_pet. change (multi_root (canonical p)) with (multi_root p).
    destruct (multi_root p) eqn:M; [by rewrite batch_target_canonical|by rewrite !andb_false_r]. }
  unfold valid_collector_context, corpse_valid, corpse_metadata_valid in *. rewrite W.
  cbn [canonical corpse collector is_reason reason from_owner to_owner item_count entries].
  destruct (corpse_present (corpse p)) eqn:P1, (collector_present (collector p)) eqn:P2; rewrite ?P1, ?P2; done.
Qed.

Lemma craft_canonical :
  is_reason p item_transfer_reason.craft = true →
  craft_valid (canonical p) ITEM_TRANSFER_PAYLOAD_VERSION = true.
Proof.
  intros R. destruct (validate_parts _ _ V) as (_ & _ & C & _). specialize (C R). rewrite <- C.
  destruct (craft_multi _ _ C) as [M _]. unfold craft_valid. rewrite outputs_canonical.
  by rewrite batch_selected_canonical, batch_target_canonical.
Qed.

Lemma validate_canonical : validate_payload (canonical p) ITEM_TRANSFER_PAYLOAD_VERSION = true.
Proof.
  destruct sidecars_canonical as (_ & _ & K & C). pose proof craft_canonical as Cr.
  destruct (validate_parts _ _ V) as (B & P & _ & Pe & _ & D & M).
  unfold validate_payload. rewrite C.
  assert (basics_valid (canonical p) ITEM_TRANSFER_PAYLOAD_VERSION = true) as ->.
  { unfold basics_valid in *. rewrite K. rewrite !andb_true_iff in *. tauto. }
  change (player_transfer (canonical p)) with (player_transfer p).
  change (player_transfer_valid (canonical p)) with (player_transfer_valid p).
  change (is_reason (canonical p)) with (is_reason p).
  change (pet_valid (canonical p)) with (pet_valid p).
  change (direction_valid (canonical p)) with (direction_valid p).
  change (multi_root (canonical p)) with (multi_root p).
  change (entries (canonical p)) with (entries p). rewrite Pe, D.
  assert (player_transfer p && negb (player_transfer_valid p ITEM_TRANSFER_PAYLOAD_VERSION) = false) as ->
    by (destruct (player_transfer p); [by rewrite P|done]).
  assert (is_reason p item_transfer_reason.craft
    && negb (craft_valid (canonical p) ITEM_TRANSFER_PAYLOAD_VERSION) = false) as ->
    by (destruct (is_reason p _); [by rewrite Cr|done]).
  destruct (multi_root p) eqn:Mr.
  - by rewrite batch_canonical, batch_entries_canonical, (proj1 M), (proj2 M).
  - by rewrite tree_canonical, M.
Qed.

Lemma entities_canonical SHA256 : command_entities SHA256 (canonical p) = command_entities SHA256 p.
Proof.
  unfold command_entities. rewrite outputs_canonical.
  by rewrite (proj1 (proj2 sidecars_canonical)).
Qed.

End Canonical.

(** ** Lemmas: the entities *)

Lemma populate_some SHA256 p ks rs :
  populate_command_entities SHA256 p = Some (ks, rs) →
  ∃ pairs, command_entities SHA256 p = Some pairs
  ∧ ks ≡ₚ revision_key <$> pairs ∧ rs ≡ₚ pairs
  ∧ StronglySorted key_lt ks ∧ revision_key <$> rs = ks.
Proof.
  unfold populate_command_entities. destruct (command_entities _ _) as [pairs|]; [|done].
  destruct (adjacent_equal _) eqn:A; [done|]. cbn [negb]. intros E.
  apply (inj Some), pair_equal_spec in E as [<- <-]. exists pairs.
  split_and!; [done|apply merge_sort_Permutation..| |apply sorted_revision_keys].
  apply adjacent_unequal_sorted; [apply StronglySorted_merge_sort; apply _|done].
Qed.

Lemma entity_type_for_owner_ok type :
  valid_entity_type (entity_type_for_owner type) = true ∧ u8 (entity_type_for_owner type).
Proof. unfold entity_type_for_owner. repeat case_match; done. Qed.

Lemma item_owner_key_ok SHA256 o k :
  item_owner_key SHA256 o = Some k → key_ok k ∧ (u64 (owner_id o) → key_typed k).
Proof.
  unfold item_owner_key. destruct (entity_type_for_owner_ok (owner_type o)) as [E T].
  pose proof (get_le_fits 8 (SHA256 (encode_owner o)) 0) as F.
  destruct (item_owner_identity_valid o); [|done]. cbn [negb].
  destruct (nz (owner_id o)) eqn:N, (nz (context_id o)); cbn [andb negb]; intros K;
    apply (inj Some) in K as <-; unfold key_ok, key_typed; cbn [key_type key_id];
    try destruct (nz (get_le _ _ _)) eqn:N'; (split; [by split|by intros ?; split]).
Qed.

Lemma craft_outputs_spec p outputs :
  decode_craft_outputs p = Some outputs →
  Forall (λ o, object_uid o ≠ 0 ∧ u64 (object_uid o)) outputs.
Proof.
  unfold decode_craft_outputs. destruct (_ && _); [|done]. cbn [negb].
  destruct (_ =? _)%nat; [intros E; apply (inj Some) in E as <-; constructor|].
  destruct (player_item_snapshot_list_decode _) as [items|] eqn:D; [|done].
  destruct (list_decode_Ok _ _ D) as (T & _). destruct (_ && _); [|done]. cbn [negb].
  destruct (craft_outputs_valid _ _ _) eqn:C; [|done]. cbn [negb].
  destruct (neighbours_differ _); [|done]. cbn [negb]. intros E. apply (inj Some) in E as <-.
  clear D. revert C. generalize 0 at 1. induction T as [|o l To T IH]; intros index C; [constructor|].
  cbn [craft_outputs_valid] in C. apply andb_prop in C as [C R]. constructor; [|by eapply IH].
  split; [|apply To]. unfold craft_output_valid in C. rewrite !andb_true_iff, nz_true in C. tauto.
Qed.

(** A fact of each element of a list that is written out. *)
Ltac listed :=
  rewrite ?Forall_cons, ?Forall_nil;
  unfold revision_typed, key_ok, key_typed in *; cbn [revision_key revision_value key_type key_id];
  repeat match goal with |- _ ∧ _ => split end; tauto || done.

(** What a command is made of: owners, the moved items and the parent they go to, the
    crafted items, and the collector's catalog. *)
Lemma command_entities_ok SHA256 p v pairs :
  validate_payload p v = true → command_entities SHA256 p = Some pairs →
  pairs ≠ [] ∧ Forall (λ r, key_ok (revision_key r)) pairs
  ∧ (transfer_typed p → Forall revision_typed pairs).
Proof.
  intros V. destruct (valid_entries _ _ V) as (_ & F & _). unfold command_entities.
  destruct (item_owner_key SHA256 (from_owner p)) as [fk|] eqn:Kf; [|done].
  destruct (item_owner_key SHA256 (to_owner p)) as [tk|] eqn:Kt; [|done].
  apply item_owner_key_ok in Kf as [Of Tf], Kt as [Ot Tt].
  destruct (negb _); [done|]. 
  destruct (if is_reason p _ then _ else _) as [outputs|] eqn:D; [|done].
  assert (Forall (λ o, object_uid o ≠ 0 ∧ u64 (object_uid o)) outputs) as Fo.
  { destruct (is_reason _ _); [by eapply craft_outputs_spec|]. by apply (inj Some) in D as <-. }
  intros E. apply (inj Some) in E as <-. split_and!.
  - by destruct (item_owner_identity_equal _ _).
  - repeat (apply Forall_app; split).
    + destruct (item_owner_identity_equal _ _); listed.
    + apply Forall_fmap. eapply Forall_impl; [exact F|]. intros e (N & _). split; [done|by apply nz_true].
    + destruct (nz _) eqn:N; [|constructor]. listed.
    + apply Forall_fmap. eapply Forall_impl; [exact Fo|]. intros o [N _]. split; [done|by apply nz_true].
    + destruct (collector_present _); listed.
  - intros T. destruct (typed_revisions _ T) as (T1 & T2 & T3). destruct (typed_uids _ T) as (_ & _ & T4).
    specialize (Tf (proj1 (proj2 (typed_from _ T)))). specialize (Tt (proj1 (proj2 (typed_to _ T)))).
    repeat (apply Forall_app; split).
    + destruct (item_owner_identity_equal _ _); listed.
    + apply Forall_fmap. eapply Forall_impl; [apply (typed_entries _ T)|].
      intros e [(E1 & _ & _ & E4) _ _]. split; [by split|done].
    + destruct (nz _); [|constructor]. listed.
    + apply Forall_fmap. eapply Forall_impl; [exact Fo|]. intros o [_ N]. split; [by split|done].
    + destruct (collector_present _); listed.
Qed.

(** ** Lemmas: the command *)

Lemma transfer_build_some SHA256 op p site dl c :
  item_transfer_command_build SHA256 op p site dl = Some c →
  critical_operation_id_is_zero op = false
  ∧ item_transfer_command_encode_payload p = Some (payload c)
  ∧ populate_command_entities SHA256 p = Some (keys c, expected_revisions c)
  ∧ c = CriticalCommand CRITICAL_COMMAND_SCHEMA_VERSION op critical_command_type.item_transfer
          ITEM_TRANSFER_PAYLOAD_VERSION site dl 0 (keys c) (expected_revisions c) (payload c).
Proof.
  unfold item_transfer_command_build. destruct (critical_operation_id_is_zero op); [done|].
  cbn [negb]. destruct (item_transfer_command_encode_payload p) as [out|]; [|done].
  destruct (populate_command_entities SHA256 p) as [[ks rs]|]; [|done].
  intros E. apply (inj Some) in E as <-. done.
Qed.

Lemma build_command_ok SHA256 op p site dl usec c :
  item_transfer_command_build SHA256 op p site dl = Some c →
  transfer_typed p → length op = CRITICAL_COMMAND_ID_BYTES → u64 usec → usec ≠ 0 →
  critical_source_site.command <= site <= critical_source_site.operator_repair →
  critical_deadline_class.interactive <= dl <= critical_deadline_class.recovery →
  vsize (keys c) <= CRITICAL_COMMAND_MAX_KEYS →
  command_typed (accepted_at usec c) ∧ critical_command_valid (accepted_at usec c) = true.
Proof.
  intros B T Lo Ut U0 S D K. destruct (transfer_build_some _ _ _ _ _ _ B) as (Z & E & P & ->).
  cbn [keys expected_revisions payload] in *. revert K E P.
  generalize (keys c) (expected_revisions c) (payload c). clear B c. intros ks rs bs K E P.
  destruct (encode_payload_bytes _ _ T E) as (_ & V & L).
  destruct (populate_some _ _ _ _ P) as (pairs & C & Pk & Pr & Ss & Er).
  destruct (command_entities_ok _ _ _ _ V C) as (N & Ok & Ty). specialize (Ty T).
  assert (Forall key_ok ks) as Oks by (rewrite Pk; by apply Forall_fmap).
  assert (vsize rs = vsize ks) as Lr by (unfold vsize; by rewrite <- Er, length_fmap).
  split.
  - unfold critical_source_site.command, critical_source_site.operator_repair,
      critical_deadline_class.interactive, critical_deadline_class.recovery in *.
    constructor; simpl; try done; try width_lia.
    + rewrite Pk. apply Forall_fmap. eapply Forall_impl; [exact Ty|]. by intros r [R _].
    + by rewrite Pr.
  - assert ((vsize ks =? 0) = false) as N0.
    { apply Z.eqb_neq. intros E0. apply N, length_zero_iff_nil.
      assert (length ks = length pairs) as X by (rewrite Pk; apply length_fmap). unfold vsize in E0. lia. }
    assert (keys_valid None ks = true) as Kv.
    { apply keys_valid_sorted. split; [done|]. by apply StronglySorted_Sorted. }
    assert (revisions_valid ks None rs = true) as Rv.
    { apply revisions_valid_spec. change (map revision_key rs) with (revision_key <$> rs). rewrite Er.
      split; [done|]. apply Forall_forall. intros r R. rewrite <- Er. by apply list_elem_of_fmap_2. }
    unfold critical_command_valid, accepted_at. cbn [keys expected_revisions payload source_site
      deadline_class schema_version operation_id command_type payload_version accepted_at_usec].
    rewrite Z, N0, Kv, Rv, Lr, (proj2 (Z.leb_le _ CRITICAL_COMMAND_MAX_KEYS)) by done.
    rewrite (proj2 (Z.leb_le _ CRITICAL_COMMAND_MAX_PAYLOAD_BYTES)) by done.
    rewrite !(proj2 (Z.leb_le _ site)), !(proj2 (Z.leb_le site _)) by lia.
    rewrite !(proj2 (Z.leb_le _ dl)), !(proj2 (Z.leb_le dl _)) by lia.
    rewrite (proj2 (nz_true usec)) by done. done.
Qed.

(** Building has checked what decoding checks. *)
Lemma build_decodes SHA256 op p site dl usec c :
  item_transfer_command_build SHA256 op p site dl = Some c → transfer_typed p →
  item_transfer_command_decode_payload SHA256 (accepted_at usec c) = Some (canonical p).
Proof.
  intros B T. destruct (transfer_build_some _ _ _ _ _ _ B) as (Z & E & P & Ec).
  destruct (encode_payload_bytes _ _ T E) as (Eb & V & L).
  destruct (populate_some _ _ _ _ P) as (pairs & C & _ & _ & _ & Er).
  assert (populate_command_entities SHA256 (canonical p)
    = Some (keys c, expected_revisions c)) as Pc
    by (unfold populate_command_entities in *; by rewrite (entities_canonical _ V)).
  pose proof (valid_basics _ _ V) as (_ & _ & _ & N & _). pose proof (length_payload_bytes p) as Len.
  rewrite Eb in L. unfold item_count, vsize in N.
  unfold item_transfer_command_decode_payload. rewrite Ec. cbn [accepted_at command_type payload_version
    payload keys expected_revisions]. rewrite Eb, Z.eqb_refl.
  change (version_supported ITEM_TRANSFER_PAYLOAD_VERSION) with true.
  change (ITEM_TRANSFER_EXACT_PAYLOAD_VERSION <=? ITEM_TRANSFER_PAYLOAD_VERSION) with true. cbn [andb].
  unfold ITEM_TRANSFER_HEADER_BYTES, ITEM_TRANSFER_ENTRY_BYTES.
  rewrite (proj2 (Nat.ltb_ge _ _)) by lia. cbn [negb].
  rewrite (read_payload_bytes _ T V L), (validate_canonical _ V), Pc.
  rewrite <- Er at 1. rewrite length_fmap, Nat.eqb_refl.
  change (ITEM_TRANSFER_PAYLOAD_VERSION =? ITEM_TRANSFER_LEGACY_PAYLOAD_VERSION) with false.
  cbn [andb negb]. by rewrite !bool_decide_true.
Qed.

(** ** Theorems: the command *)

(** C25: A transfer survives the journal: a command that is built, once stamped with the
    time of acceptance, is a valid critical command that is encoded and decoded to itself,
    and its payload reads back as the payload it was built from, with the selected item
    and the target's root filled in; that payload is valid as well and names the same
    entities.  The one thing the transfer does not check itself is the number of entities. *)
Theorem item_transfer_durable_roundtrip SHA256 op p site dl usec c :
  item_transfer_command_build SHA256 op p site dl = Some c →
  transfer_typed p → length op = CRITICAL_COMMAND_ID_BYTES → u64 usec → usec ≠ 0 →
  critical_source_site.command <= site <= critical_source_site.operator_repair →
  critical_deadline_class.interactive <= dl <= critical_deadline_class.recovery →
  vsize (keys c) <= CRITICAL_COMMAND_MAX_KEYS →
  ∃ bytes,
    critical_command_encode (accepted_at usec c) = Ok bytes
    ∧ critical_command_decode bytes = Ok (accepted_at usec c)
    ∧ item_transfer_command_decode_payload SHA256 (accepted_at usec c) = Some (canonical p)
    ∧ validate_payload (canonical p) ITEM_TRANSFER_PAYLOAD_VERSION = true
    ∧ populate_command_entities SHA256 (canonical p) = Some (keys c, expected_revisions c).
Proof.
  intros B T Lo Ut U0 S D K.
  destruct (build_command_ok _ _ _ _ _ _ _ B T Lo Ut U0 S D K) as [Ty V].
  destruct (transfer_build_some _ _ _ _ _ _ B) as (_ & E & P & _).
  destruct (encode_payload_bytes _ _ T E) as (_ & Vp & _).
  exists (command_bytes (accepted_at usec c)). split_and!.
  - apply encode_valid; [apply Ty|done].
  - by apply decode_command_bytes.
  - by eapply build_decodes.
  - by apply validate_canonical.
  - unfold populate_command_entities in *. by rewrite (entities_canonical _ Vp).
Qed.

(** What decoding has checked. *)
Lemma transfer_decode_facts SHA256 c p :
  item_transfer_command_decode_payload SHA256 c = Some p →
  command_type c = critical_command_type.item_transfer
  ∧ ITEM_TRANSFER_LEGACY_PAYLOAD_VERSION <= payload_version c <= ITEM_TRANSFER_PAYLOAD_VERSION
  ∧ validate_payload p (payload_version c) = true
  ∧ populate_command_entities SHA256 p = Some (keys c, expected_revisions c).
Proof.
  unfold item_transfer_command_decode_payload.
  destruct ((command_type c =? _) && _ && _) eqn:G; [|done]. cbn [negb].
  destruct (read_payload _ _) as [q|]; [|done].
  destruct (validate_payload q _ && _ && _) eqn:G2; [|done]. cbn [negb].
  destruct (populate_command_entities SHA256 q) as [[ks rs]|] eqn:P; [|done].
  destruct (bool_decide (keys c = ks) && _) eqn:G3; [|done]. cbn [negb].
  intros E. apply (inj Some) in E as <-.
  unfold version_supported in G. rewrite !andb_true_iff, Z.eqb_eq, !Z.leb_le in G. destruct G as [[Ty Vs] _].
  rewrite !andb_true_iff in G2. destruct G2 as [[V _] _].
  rewrite andb_true_iff, !bool_decide_eq_true in G3. destruct G3 as [-> ->]. done.
Qed.

(** What the decoder accepts is sound: the payload is valid for the version of its
    bytes, and the command names exactly the entities of the payload, each once and in
    order — both owners, every item that moves, the parent they move to, every crafted
    item and the collector's catalog — with the revision the payload expects of each. *)
Theorem item_transfer_decode_sound SHA256 c p :
  item_transfer_command_decode_payload SHA256 c = Some p →
  command_type c = critical_command_type.item_transfer
  ∧ ITEM_TRANSFER_LEGACY_PAYLOAD_VERSION <= payload_version c <= ITEM_TRANSFER_PAYLOAD_VERSION
  ∧ validate_payload p (payload_version c) = true
  ∧ (∃ pairs, command_entities SHA256 p = Some pairs ∧ expected_revisions c ≡ₚ pairs)
  ∧ StronglySorted key_lt (keys c) ∧ revision_key <$> expected_revisions c = keys c
  ∧ Forall key_ok (keys c)
  ∧ ∀ e, e ∈ entries p →
      ExpectedRevision (item_key (item_uid e)) (expected_item_revision e) ∈ expected_revisions c.
Proof.
  intros D. destruct (transfer_decode_facts _ _ _ D) as (Ty & Vs & V & P).
  destruct (populate_some _ _ _ _ P) as (pairs & C & Pk & Pr & Ss & Er).
  destruct (command_entities_ok _ _ _ _ V C) as (_ & Ok & _).
  split_and!; [done|apply Vs|apply Vs|done|by exists pairs|done|done| |].
  - rewrite Pk. by apply Forall_fmap.
  - intros e I. rewrite Pr. unfold command_entities in C.
    destruct (item_owner_key _ _); [|done]. destruct (item_owner_key _ _); [|done].
    destruct (negb _); [done|]. destruct (if is_reason _ _ then _ else _); [|done].
    apply (inj Some) in C as <-. rewrite elem_of_app. right. rewrite elem_of_app. left.
    apply list_elem_of_fmap. by exists e.
Qed.

(** ** The result *)

Record result_typed (r : item_transfer_result) : Prop := {
  typed_result_root : u64 (result_root_uid r);
  typed_result_count : u16 (result_item_count r);
  typed_result_revisions : u64 (from_owner_revision r) ∧ u64 (to_owner_revision r)
    ∧ u64 (max_item_revision r) ∧ u64 (corpse_revision r);
}.

(** The fields both versions have. *)
Definition result_prefix (r : item_transfer_result) : list byte :=
  le_split 8 (result_root_uid r) ++ le_split 2 (result_item_count r)
  ++ [if collector_catalog_changed r then Byte.x01 else Byte.x00] ++ zeros 5
  ++ le_split 8 (from_owner_revision r) ++ le_split 8 (to_owner_revision r)
  ++ le_split 8 (max_item_revision r).

Definition result_bytes (r : item_transfer_result) : list byte :=
  result_prefix r ++ le_split 8 (corpse_revision r).

Definition result_valid (r : item_transfer_result) : bool :=
  nz (result_root_uid r) && nz (result_item_count r)
  && (result_item_count r <=? ITEM_TRANSFER_MAX_ITEMS).

Lemma encode_result_bytes r :
  item_transfer_command_encode_result r = if result_valid r then Some (result_bytes r) else None.
Proof.
  unfold item_transfer_command_encode_result, result_valid. destruct (_ && _); [|done]. reflexivity.
Qed.

(** An older result lacks the last field. *)
Definition without_corpse_revision (r : item_transfer_result) : item_transfer_result :=
  TransferResult (result_root_uid r) (result_item_count r) (from_owner_revision r)
    (to_owner_revision r) (max_item_revision r) 0 (collector_catalog_changed r).

Lemma result_reads r rest :
  result_typed r →
  let out := result_prefix r ++ rest in
  get_le 8 out 0 = result_root_uid r ∧ get_le 2 out 8 = result_item_count r
  ∧ byte_of out 10 = (if collector_catalog_changed r then 1 else 0) ∧ slice 5 out 11 = zeros 5
  ∧ get_le 8 out 16 = from_owner_revision r ∧ get_le 8 out 24 = to_owner_revision r
  ∧ get_le 8 out 32 = max_item_revision r ∧ at_offset out 40 rest.
Proof.
  intros [T1 T2 (T3 & T4 & T5 & T6)] out. pose proof (at_offset_start out) as A.
  change out with (result_prefix r ++ rest) in A at 2. unfold result_prefix in A. generalize dependent out.
  rewrite <- !(assoc_L (++)). intros out A. do 2 (get_at A; [|done]). get_at A.
  apply (slice_at _ _ (zeros 5) _ 5 eq_refl) in A as [S A]. cbn [Nat.add] in A.
  do 3 (get_at A; [|done]). split_and!; try done. rewrite E1. by destruct (collector_catalog_changed r).
Qed.

Lemma length_result_prefix r : length (result_prefix r) = 40%nat.
Proof. unfold result_prefix. rewrite !length_app, !length_le_split. done. Qed.

Lemma decode_result_bytes r :
  result_typed r → result_valid r = true →
  item_transfer_command_decode_result (result_bytes r) = Some r
  ∧ item_transfer_command_decode_result (result_prefix r) = Some (without_corpse_revision r).
Proof.
  intros T V. unfold result_valid in V. split.
  - destruct (result_reads r (le_split 8 (corpse_revision r)) T) as (R1 & R2 & R3 & R4 & R5 & R6 & R7 & A).
    fold (result_bytes r) in *. rewrite <- (app_nil_r (le_split 8 _)) in A. get_at A; [|apply T].
    unfold item_transfer_command_decode_result. rewrite R1, R2, R3, R4, R5, R6, R7, E.
    assert (length (result_bytes r) = 48%nat) as ->
      by (unfold result_bytes; by rewrite length_app, length_result_prefix, length_le_split).
    destruct r as [? ? ? ? ? ? []]; cbn in *; by rewrite V.
  - destruct (result_reads r [] T) as (R1 & R2 & R3 & R4 & R5 & R6 & R7 & _).
    rewrite app_nil_r in *. unfold item_transfer_command_decode_result.
    rewrite length_result_prefix, R1, R2, R3, R4, R5, R6, R7.
    destruct r as [? ? ? ? ? ? []]; cbn in *; by rewrite V.
Qed.

Lemma decode_result_reads out r :
  item_transfer_command_decode_result out = Some r →
  result_typed r ∧ result_valid r = true
  ∧ (out = result_bytes r ∨ out = result_prefix r ∧ corpse_revision r = 0).
Proof.
  unfold item_transfer_command_decode_result. cbv zeta.
  destruct (_ && _ && forallb _ _) eqn:G; [|done]. cbn [negb].
  match goal with |- context [Some ?x] => remember x as d eqn:Ed end.
  fold (result_valid d). destruct (result_valid d) eqn:V; [|done]. cbn [negb].
  intros E. apply (inj Some) in E as <-.
  rewrite !andb_true_iff, orb_true_iff, !Nat.eqb_eq in G. destruct G as [[L F] Z].
  unfold ITEM_TRANSFER_RESULT_BYTES, ITEM_TRANSFER_LEGACY_RESULT_BYTES in *.
  assert (40 <= length out)%nat as L40 by lia.
  assert (slice 40 out 0 = result_prefix d) as Ep.
  { rewrite Ed. unfold result_prefix. cbn [result_root_uid result_item_count collector_catalog_changed
      from_owner_revision to_owner_revision max_item_revision].
    rewrite <- (slice_flag out 10), <- (slice_zeros 5 out 11), !get_le_bytes by (done || lia).
    by rewrite <- !slice_app. }
  split_and!; [|done|].
  - rewrite Ed. constructor; cbn; repeat split; try apply get_le_fits; case_match; apply (get_le_fits 8) || done.
  - pose proof (take_drop 40 out) as Eo. change (take 40 out) with (slice 40 out 0) in Eo. rewrite Ep in Eo.
    destruct L as [L|L].
    + left. rewrite <- Eo at 1. unfold result_bytes. f_equal. rewrite Ed. cbn [corpse_revision].
      rewrite L, Nat.eqb_refl, get_le_bytes by lia. unfold slice. rewrite take_ge; [done|].
      rewrite length_drop. lia.
    + right. split; [|by rewrite Ed; cbn [corpse_revision]; rewrite L].
      rewrite <- Eo at 1. rewrite drop_ge by lia. apply app_nil_r.
Qed.

(** The result of a transfer is exactly what its bytes say: a result with an item and
    at most 3000 of them is encoded in 48 bytes that decode to it, and their first 40, the
    older format, to the result without the corpse's revision; any other result is refused.
    What the decoder accepts is a result with an item in it, whose bytes are those it is
    encoded to, or the older 40. *)
Theorem item_transfer_result_roundtrip :
  (∀ r, result_typed r →
    match item_transfer_command_encode_result r with
    | Some out =>
        length out = ITEM_TRANSFER_RESULT_BYTES
        ∧ item_transfer_command_decode_result out = Some r
        ∧ item_transfer_command_decode_result (take ITEM_TRANSFER_LEGACY_RESULT_BYTES out)
          = Some (without_corpse_revision r)
    | None => result_root_uid r = 0 ∨ result_item_count r = 0
              ∨ ITEM_TRANSFER_MAX_ITEMS < result_item_count r
    end)
  ∧ ∀ out r, item_transfer_command_decode_result out = Some r →
    ∃ full, item_transfer_command_encode_result r = Some full
    ∧ (out = full
       ∨ out = take ITEM_TRANSFER_LEGACY_RESULT_BYTES full ∧ corpse_revision r = 0).
Proof.
  assert (∀ r, take ITEM_TRANSFER_LEGACY_RESULT_BYTES (result_bytes r) = result_prefix r) as P
    by (intros r; unfold result_bytes, ITEM_TRANSFER_LEGACY_RESULT_BYTES; by rewrite take_app_length').
  split.
  - intros r T. rewrite encode_result_bytes. destruct (result_valid r) eqn:V.
    + destruct (decode_result_bytes r T V) as [D1 D2]. rewrite P. split_and!; [|done..].
      unfold result_bytes. by rewrite length_app, length_result_prefix, length_le_split.
    + unfold result_valid in V. rewrite !andb_false_iff, !nz_false, Z.leb_gt in V. tauto.
  - intros out r D. destruct (decode_result_reads _ _ D) as (T & V & O).
    exists (result_bytes r). rewrite encode_result_bytes, V, P. done.
Qed.

(** ** Witnesses *)

Definition sample_operation : critical_operation_id := replicate 16 Byte.x05.

Definition sample_sha (bs : list byte) : list byte := replicate 32 Byte.x07.

Lemma sample_transfer_typed : transfer_typed sample_transfer.
Proof.
  constructor; [by repeat split|by repeat split|by split|by split|by repeat split|by repeat split| | |].
  - repeat constructor; done.
  - constructor; [by split..|]. split; [done|]. repeat constructor; done.
  - constructor; [done|by split|by split|by repeat split|]. repeat constructor; done.
Qed.

Definition sample_transfer_command : critical_command :=
  Eval vm_compute in
    default (CriticalCommand 0 [] 0 0 0 0 0 [] [] [])
      (item_transfer_command_build sample_sha sample_operation sample_transfer 1 1).

Lemma item_transfer_durable_roundtrip_witness :
  ∃ bytes,
    critical_command_encode (accepted_at 99 sample_transfer_command) = Ok bytes
    ∧ critical_command_decode bytes = Ok (accepted_at 99 sample_transfer_command)
    ∧ item_transfer_command_decode_payload sample_sha (accepted_at 99 sample_transfer_command)
      = Some (canonical sample_transfer)
    ∧ validate_payload (canonical sample_transfer) ITEM_TRANSFER_PAYLOAD_VERSION = true
    ∧ populate_command_entities sample_sha (canonical sample_transfer)
      = Some (keys sample_transfer_command, expected_revisions sample_transfer_command).
Proof.
  apply (item_transfer_durable_roundtrip sample_sha sample_operation sample_transfer 1 1 99
    sample_transfer_command);
    [vm_compute; reflexivity|exact sample_transfer_typed|reflexivity|by split|done|by split|by split|done].
Defined.

Lemma item_transfer_decode_sound_witness :
  ExpectedRevision (item_key 101) 2 ∈ expected_revisions (accepted_at 99 sample_transfer_command).
Proof.
  destruct (item_transfer_decode_sound sample_sha (accepted_at 99 sample_transfer_command)
    (canonical sample_transfer) ltac:(vm_compute; reflexivity)) as (_ & _ & _ & _ & _ & _ & _ & M).
  apply (M (TransferEntry 101 100 100 2 3002 item_custody_state.active)). right. left.
Defined.

