(* ===== verification/CoinTransfer.v ===== *)
(** * Coin transfers

    Models [economy/coin_transfer_command.c] and [.h]: one command that takes coins from
    a wallet or a pile and gives the same amount to another, out of a currency command or
    an item transfer for each side; its codec, its results, and the result of a refusal.

    [SHA256] is a parameter, of which the code uses that a digest has 32 bytes.  The text
    [build] reports is the error of its result.  Allocation failure is not modelled. *)

From S2P Require Import Prelude Buffer CriticalCommand Snapshot Wire SnapshotCodec.
From S2P Require Import ItemTransfer ItemTransferCodec.
From S2P Require CurrencyCommand.
Import CurrencyCommand(CURRENCY_RESULT_PAYLOAD_BYTES, currency_command_payload,
  currency_command_result, CurrencyResult, currency_command_decode_payload, wallet, bank,
  wallet_revision, bank_revision, currency_command_encode_result, currency_command_decode_result,
  currency_vector, wallet_delta, bank_delta).

Definition COIN_TRANSFER_PAYLOAD_VERSION : Z := 1.
Definition COIN_TRANSFER_RESULT_BYTES : nat :=
  2 * (CURRENCY_RESULT_PAYLOAD_BYTES + ITEM_TRANSFER_RESULT_BYTES).
Definition COIN_TRANSFER_STALE_RESULT_VERSION : Z := 1.
Definition COIN_TRANSFER_STALE_RESULT_BYTES : nat := 3 + CURRENCY_RESULT_PAYLOAD_BYTES.
Definition COIN_OPERATION_DOMAIN : Z := 0x434f494e.
Definition ENDPOINT_HEADER_BYTES : nat := 36.

(** ** Data *)

(** [before] and [after] are arrays of four [int32_t]. *)
Record coin_transfer_endpoint := CoinEndpoint {
  coins_before : list Z;
  coins_after : list Z;
  change : critical_command;
}.

Record coin_transfer_payload := CoinPayload {
  source : coin_transfer_endpoint;
  destination : coin_transfer_endpoint;
}.

(** [wallets] and [piles] are arrays of two. *)
Record coin_transfer_result := CoinResult {
  wallets : list currency_command_result;
  piles : list item_transfer_result;
}.

Record coin_transfer_stale_result := StaleResult {
  endpoint_index : nat;
  wallet_stale : bool;
  bank_stale : bool;
  current : currency_command_result;
}.

#[export] Instance coin_endpoint_eq_dec : EqDecision coin_transfer_endpoint.
Proof. solve_decision. Defined.
#[export] Instance coin_payload_eq_dec : EqDecision coin_transfer_payload.
Proof. solve_decision. Defined.

(** Value-initialised results. *)
Definition no_wallet : currency_command_result := CurrencyResult [0; 0; 0; 0] [0; 0; 0; 0] 0 0.
Definition no_pile : item_transfer_result := TransferResult 0 0 0 0 0 0 false.
Definition wallet_at (r : coin_transfer_result) (index : nat) : currency_command_result :=
  default no_wallet (wallets r !! index).
Definition pile_at (r : coin_transfer_result) (index : nat) : item_transfer_result :=
  default no_pile (piles r !! index).

(** ** Amounts *)

Definition denominations : list Z := [1; 10; 100; 1000].

(** The loop of [value]: -1 as soon as an amount is negative. *)
Fixpoint value_loop (amounts denominations : list Z) (total : Z) : Z :=
  match amounts, denominations with
  | amount :: amounts, denomination :: denominations =>
      if amount <? 0 then -1
      else value_loop amounts denominations (total + amount * denomination)
  | _, _ => total
  end.

Definition value (amounts : list Z) : Z := value_loop amounts denominations 0.

Definition amount_at (amounts : list Z) (index : nat) : Z := default 0 (amounts !! index).

(** Each loop over the four denominations. *)
Definition for_each_coin (f : nat → bool) : bool := forallb f (seq 0 4).

Section Coin.

Context (SHA256 : list byte → list byte).

(** ** Validation *)

Definition validate_wallet (e : coin_transfer_endpoint) : res string critical_entity_key :=
  match currency_command_decode_payload SHA256 (change e), expected_revisions (change e) with
  | Some w, [r0; r1] =>
      ensure (CurrencyCommand.reason w =? CurrencyCommand.currency_reason_type.coin_transfer)
             && negb (revision_value r0 =? UINT64_MAX) && negb (revision_value r1 =? UINT64_MAX)
        else "invalid wallet endpoint"%string in
      ensure for_each_coin (λ i,
               negb (nz (amount_at (bank_delta w) i))
               && (amount_at (wallet_delta w) i
                   =? amount_at (coins_after e) i - amount_at (coins_before e) i))
        else "wallet delta does not match amounts"%string in
      Ok (EntityKey critical_entity_type.player (CurrencyCommand.pid w))
  | _, _ => Err "invalid wallet endpoint"%string
  end.

Definition pile_creation (pile : item_transfer_payload) : bool :=
  is_type (from_owner pile) item_owner_type.system.
Definition pile_consumed (pile : item_transfer_payload) : bool :=
  is_type (to_owner pile) item_owner_type.destruction.

Definition pile_snapshot_matches (e : coin_transfer_endpoint) (is_source : bool)
    (pile : item_transfer_payload) (snapshot : player_item_snapshot) : bool :=
  for_each_coin (λ i,
    negb (if is_source then amount_at (coins_before e) i <? amount_at (coins_after e) i
          else amount_at (coins_after e) i <? amount_at (coins_before e) i)
    && (amount_at (values snapshot) i
        =? (if pile_consumed pile then amount_at (coins_before e) i
            else amount_at (coins_after e) i))).

Definition validate_pile (e : coin_transfer_endpoint) (is_source : bool) (before after : Z)
  : res string critical_entity_key :=
  match item_transfer_command_decode_payload SHA256 (change e) with
  | None => Err "invalid pile identity"%string
  | Some pile =>
      ensure (item_count pile =? 1) && negb (multi_root pile)
             && (item_uid (first_entry pile) =? selected_item_uid pile)
        else "invalid pile identity"%string in
      let creation := pile_creation pile in
      let consumed := pile_consumed pile in
      ensure negb (if creation then is_source || nz before || consumed
                   else negb (nz before)
                        || (negb consumed
                            && negb (item_owner_identity_equal (from_owner pile) (to_owner pile))))
        else "invalid pile ownership transition"%string in
      ensure eqb consumed (after =? 0)
             && negb (negb creation && negb consumed
                      && (negb (target_root_item_uid pile =? root_item_uid (first_entry pile))
                          || negb (target_parent_item_uid pile
                                   =? parent_item_uid (first_entry pile))))
        else "invalid pile topology"%string in
      match player_item_snapshot_list_decode (item_blob pile) with
      | Ok [snapshot] =>
          ensure (object_uid snapshot =? selected_item_uid pile)
                 && (vnum snapshot =? entry_vnum (first_entry pile))
                 && (item_type snapshot =? ITEM_MONEY)
                 && (parent_index snapshot =? PLAYER_SNAPSHOT_NO_PARENT)
            else "pile snapshot identity or type mismatch"%string in
          ensure pile_snapshot_matches e is_source pile snapshot
            else "pile snapshot amount mismatch"%string in
          Ok (EntityKey critical_entity_type.item (selected_item_uid pile))
      | _ => Err "pile snapshot identity or type mismatch"%string
      end
  end.

Definition validate_endpoint (e : coin_transfer_endpoint) (is_source : bool)
  : res string critical_entity_key :=
  let before := value (coins_before e) in
  let after := value (coins_after e) in
  ensure negb ((before <? 0) || (after <? 0)
               || (if is_source then before <=? after else after <=? before))
    else "invalid coin amounts"%string in
  if command_type (change e) =? critical_command_type.account_bank then validate_wallet e
  else
    ensure command_type (change e) =? critical_command_type.item_transfer
      else "unsupported endpoint type"%string in
    validate_pile e is_source before after.

Definition validate_payload (p : coin_transfer_payload) : res string unit :=
  let* source_key := validate_endpoint (source p) true in
  let* destination_key := validate_endpoint (destination p) false in
  ensure negb (critical_entity_key_equal source_key destination_key)
         && (value (coins_before (source p)) - value (coins_after (source p))
             =? value (coins_after (destination p)) - value (coins_before (destination p)))
    else "duplicate endpoints or nonconserving transfer"%string in
  Ok tt.

(** ** The command *)

(** The change of one side as it is written: a command of its own identity, which
    follows from the parent's, at the parent's site and deadline. *)
Definition endpoint_change (operation : critical_operation_id) (site deadline : Z)
    (e : coin_transfer_endpoint) (index : Z) : option critical_command :=
  let? derived := critical_operation_id_derive SHA256 operation COIN_OPERATION_DOMAIN index in
  let c := change e in
  critical_command_normalize
    (CriticalCommand (schema_version c) derived (command_type c) (payload_version c) site deadline 1
       (keys c) (expected_revisions c) (payload c)).

Definition endpoint_bytes (e : coin_transfer_endpoint) (encoded : list byte) : list byte :=
  let out := foldl (λ out a, append_le 4 out (wrap 32 a)) [] (coins_before e) in
  let out := foldl (λ out a, append_le 4 out (wrap 32 a)) out (coins_after e) in
  append_le 4 out (wrap 32 (vsize encoded)) ++ encoded.

(** [append_endpoint]: the payload and the keys of the command so far. *)
Definition append_endpoint (operation : critical_operation_id) (site deadline : Z)
    (built : list byte * list critical_entity_key) (e : coin_transfer_endpoint) (index : Z)
  : option (list byte * list critical_entity_key) :=
  let? change := endpoint_change operation site deadline e index in
  match critical_command_encode change with
  | Err _ => None
  | Ok encoded =>
      let out := built.1 ++ endpoint_bytes e encoded in
      ensure? vsize out <=? CRITICAL_COMMAND_MAX_PAYLOAD_BYTES in
      Some (out, built.2 ++ keys change)
  end.

(** [std::unique] on a sorted vector of keys. *)
Fixpoint unique_keys (l : list critical_entity_key) : list critical_entity_key :=
  match l with
  | a :: (b :: _) as rest =>
      if critical_entity_key_equal a b then unique_keys rest else a :: unique_keys rest
  | _ => l
  end.

Definition coin_transfer_command_build (operation : critical_operation_id)
    (p : coin_transfer_payload) (site deadline : Z) : res string critical_command :=
  ensure negb (critical_operation_id_is_zero operation) else "invalid command identity"%string in
  let* _ := validate_payload p in
  let built :=
    let? built := append_endpoint operation site deadline ([], []) (source p) 0 in
    let? (out, ks) := append_endpoint operation site deadline built (destination p) 1 in
    let command :=
      CriticalCommand CRITICAL_COMMAND_SCHEMA_VERSION operation critical_command_type.coin_transfer
        COIN_TRANSFER_PAYLOAD_VERSION site deadline 1 (unique_keys (merge_sort key_le ks)) [] out in
    ensure? critical_command_valid command in
    Some (accepted_at 0 command) in
  match built with
  | Some command => Ok command
  | None => Err "coin command encoding failed"%string
  end.

(** One endpoint, and the offset behind it. *)
Definition read_endpoint (input : list byte) (offset : nat)
  : option (coin_transfer_endpoint * nat) :=
  ensure? negb ((length input <? offset)%nat
                || (length input - offset <? ENDPOINT_HEADER_BYTES)%nat) in
  let before := (λ i, get_le 4 input (offset + i * 4)) <$> seq 0 4 in
  let after := (λ i, get_le 4 input (offset + 16 + i * 4)) <$> seq 0 4 in
  ensure? forallb (λ a, a <=? INT32_MAX) before && forallb (λ a, a <=? INT32_MAX) after in
  let size := get_le 4 input (offset + 32) in
  let offset := (offset + ENDPOINT_HEADER_BYTES)%nat in
  ensure? size <=? Z.of_nat (length input - offset) in
  match critical_command_decode (slice (Z.to_nat size) input offset) with
  | Err _ => None
  | Ok c => Some (CoinEndpoint before after c, (offset + Z.to_nat size)%nat)
  end.

Definition coin_transfer_command_decode_payload (command : critical_command)
  : option coin_transfer_payload :=
  ensure? (command_type command =? critical_command_type.coin_transfer)
          && (payload_version command =? COIN_TRANSFER_PAYLOAD_VERSION)
          && (vsize (payload command) <=? CRITICAL_COMMAND_MAX_PAYLOAD_BYTES)
          && (length (expected_revisions command) =? 0)%nat in
  let? (source, offset) := read_endpoint (payload command) 0 in
  let? (destination, offset) := read_endpoint (payload command) offset in
  ensure? (offset =? length (payload command))%nat in
  let decoded := CoinPayload source destination in
  match coin_transfer_command_build (operation_id command) decoded (source_site command)
          (deadline_class command) with
  | Err _ => None
  | Ok expected =>
      ensure? bool_decide (payload expected = payload command)
              && bool_decide (keys expected = keys command) in
      Some decoded
  end.

(** ** The result *)

(** One side's part of the result: a wallet's fills the first bytes, a pile's the last. *)
Definition encode_result_part (e : coin_transfer_endpoint) (r : coin_transfer_result) (index : nat)
    (out : list byte) : option (list byte) :=
  let at_ := (index * (CURRENCY_RESULT_PAYLOAD_BYTES + ITEM_TRANSFER_RESULT_BYTES))%nat in
  if command_type (change e) =? critical_command_type.account_bank then
    let? bytes := currency_command_encode_result (wallet_at r index) in
    Some (put_bytes out at_ bytes)
  else if command_type (change e) =? critical_command_type.item_transfer then
    let? bytes := item_transfer_command_encode_result (pile_at r index) in
    Some (put_bytes out (at_ + CURRENCY_RESULT_PAYLOAD_BYTES) bytes)
  else None.

Definition coin_transfer_command_encode_result (p : coin_transfer_payload) (r : coin_transfer_result)
  : option (list byte) :=
  let out := replicate COIN_TRANSFER_RESULT_BYTES Byte.x00 in
  let? out := encode_result_part (source p) r 0 out in
  encode_result_part (destination p) r 1 out.

Definition all_zero (bs : list byte) : bool := forallb (λ b, negb (nz (of_byte b))) bs.

Definition decode_result_part (e : coin_transfer_endpoint) (encoded : list byte) (index : nat)
  : option (currency_command_result * item_transfer_result) :=
  let at_ := (index * (CURRENCY_RESULT_PAYLOAD_BYTES + ITEM_TRANSFER_RESULT_BYTES))%nat in
  let wallet_bytes := slice CURRENCY_RESULT_PAYLOAD_BYTES encoded at_ in
  let pile_bytes := slice ITEM_TRANSFER_RESULT_BYTES encoded (at_ + CURRENCY_RESULT_PAYLOAD_BYTES) in
  if command_type (change e) =? critical_command_type.account_bank then
    let? w := currency_command_decode_result wallet_bytes in
    ensure? all_zero pile_bytes in Some (w, no_pile)
  else if command_type (change e) =? critical_command_type.item_transfer then
    let? pile := item_transfer_command_decode_result pile_bytes in
    ensure? all_zero wallet_bytes in Some (no_wallet, pile)
  else None.

Definition coin_transfer_command_decode_result (p : coin_transfer_payload) (encoded : list byte)
  : option coin_transfer_result :=
  ensure? (length encoded =? COIN_TRANSFER_RESULT_BYTES)%nat in
  let? (w0, pile0) := decode_result_part (source p) encoded 0 in
  let? (w1, pile1) := decode_result_part (destination p) encoded 1 in
  Some (CoinResult [w0; w1] [pile0; pile1]).

(** ** The destination's fences after the source was changed *)

(** The revision of one owner; [false] if the two commands disagree about it. *)
Definition advance (first : item_transfer_payload) (r : item_transfer_result)
    (owner : item_owner_identity) (revision : Z) : option Z :=
  if item_owner_identity_equal owner (from_owner first) then
    ensure? revision =? expected_from_revision first in Some (from_owner_revision r)
  else if item_owner_identity_equal owner (to_owner first) then
    ensure? revision =? expected_to_revision first in Some (to_owner_revision r)
  else Some revision.

Definition with_owner_revisions (p : item_transfer_payload) (from to : Z) : item_transfer_payload :=
  TransferPayload (from_owner p) (to_owner p) (reason p) (reason_id p) from to
    (selected_item_uid p) (target_root_item_uid p) (target_parent_item_uid p)
    (expected_target_parent_revision p) (multi_root p) (entries p) (item_blob p) (corpse p)
    (collector p).

Definition with_revisions (c : critical_command) (l : list critical_expected_revision)
  : critical_command :=
  CriticalCommand (schema_version c) (operation_id c) (command_type c) (payload_version c)
    (source_site c) (deadline_class c) (accepted_at_usec c) (keys c) l (payload c).

Definition coin_transfer_command_destination_after_source (p : coin_transfer_payload)
    (r : coin_transfer_result) : option critical_command :=
  let first := change (source p) in
  let second := change (destination p) in
  if negb (command_type first =? command_type second) then Some second
  else if command_type first =? critical_command_type.account_bank then
    match expected_revisions first, expected_revisions second with
    | [_; bank_first], [wallet_second; bank_second] =>
        match keys first !! 1%nat, keys second !! 1%nat with
        | Some k, Some k' =>
            if critical_entity_key_equal k k' then
              ensure? revision_value bank_first =? revision_value bank_second in
              Some (with_revisions second
                      [wallet_second;
                       ExpectedRevision (revision_key bank_second) (bank_revision (wallet_at r 0))])
            else Some second
        | _, _ => None
        end
    | _, _ => None
    end
  else
    let? one := item_transfer_command_decode_payload SHA256 first in
    let? two := item_transfer_command_decode_payload SHA256 second in
    let? from := advance one (pile_at r 0) (from_owner two) (expected_from_revision two) in
    let? to := advance one (pile_at r 0) (to_owner two) (expected_to_revision two) in
    let? built :=
      item_transfer_command_build SHA256 (operation_id second) (with_owner_revisions two from to)
        (source_site first) (deadline_class first) in
    Some (accepted_at (accepted_at_usec second) built).

(** ** The result of a refusal *)

(** The side, and whether its wallet and its bank are stale. *)
Definition stale_currency_endpoint (p : coin_transfer_payload) (stage : Z)
  : option (nat * bool * bool) :=
  ensure? critical_failure_stage_valid stage in
  let source_wallet := critical_failure_stage.coin_source_wallet_revision in
  let source_bank := critical_failure_stage.coin_source_bank_revision in
  let destination_wallet := critical_failure_stage.coin_destination_wallet_revision in
  let destination_bank := critical_failure_stage.coin_destination_bank_revision in
  let from := Z.lor source_wallet source_bank in
  let to := Z.lor destination_wallet destination_bank in
  ensure? negb (negb (nz stage) || nz (Z.land stage (Z.lnot (Z.lor from to)))
                || eqb (nz (Z.land stage from)) (nz (Z.land stage to))) in
  let index := if nz (Z.land stage from) then 0%nat else 1%nat in
  let e := if (index =? 0)%nat then source p else destination p in
  ensure? command_type (change e) =? critical_command_type.account_bank in
  let wallet_stale :=
    nz (Z.land stage (if (index =? 0)%nat then source_wallet else destination_wallet)) in
  let bank_stale :=
    nz (Z.land stage (if (index =? 0)%nat then source_bank else destination_bank)) in
  ensure? wallet_stale || bank_stale in
  Some (index, wallet_stale, bank_stale).

Definition coin_transfer_command_stale_result_expected (p : coin_transfer_payload) (stage : Z) : bool :=
  match stale_currency_endpoint p stage with Some _ => true | None => false end.

Definition stale_flags (wallet_stale bank_stale : bool) : Z :=
  Z.lor (if wallet_stale then 1 else 0) (if bank_stale then 2 else 0).

Definition coin_transfer_command_encode_stale_result (p : coin_transfer_payload)
    (r : coin_transfer_result) (stage : Z) : option (list byte) :=
  let? (index, wallet_stale, bank_stale) := stale_currency_endpoint p stage in
  let held := wallet_at r index in
  let selected :=
    CurrencyResult (if wallet_stale then wallet held else [0; 0; 0; 0])
      (if bank_stale then bank held else [0; 0; 0; 0])
      (if wallet_stale then wallet_revision held else 0)
      (if bank_stale then bank_revision held else 0) in
  let? current := currency_command_encode_result selected in
  let out := replicate COIN_TRANSFER_STALE_RESULT_BYTES Byte.x00 in
  let out := put_bytes out 0 [to_byte COIN_TRANSFER_STALE_RESULT_VERSION] in
  let out := put_bytes out 1 [to_byte (Z.of_nat index)] in
  let out := put_bytes out 2 [to_byte (stale_flags wallet_stale bank_stale)] in
  Some (put_bytes out 3 current).

(** A side that is not stale is left out of the result. *)
Definition side_absent (amounts : currency_vector) (revision : Z) : bool :=
  negb (nz revision || existsb nz amounts).
(** A stale side is newer than what was expected, and could be held by a player. *)
Definition side_newer (amounts : currency_vector) (revision expected : Z) : bool :=
  negb ((revision =? UINT64_MAX) || (revision <=? expected)
        || existsb (λ a, (a <? 0) || (INT32_MAX <? a)) amounts).

Definition coin_transfer_command_decode_stale_result (p : coin_transfer_payload) (stage : Z)
    (encoded : list byte) : option coin_transfer_stale_result :=
  ensure? (length encoded =? COIN_TRANSFER_STALE_RESULT_BYTES)%nat in
  let? (index, wallet_stale, bank_stale) := stale_currency_endpoint p stage in
  ensure? (byte_of encoded 0 =? COIN_TRANSFER_STALE_RESULT_VERSION)
          && (byte_of encoded 1 =? Z.of_nat index)
          && (byte_of encoded 2 =? stale_flags wallet_stale bank_stale) in
  let? current := currency_command_decode_result (slice CURRENCY_RESULT_PAYLOAD_BYTES encoded 3) in
  ensure? (wallet_stale || side_absent (wallet current) (wallet_revision current))
          && (bank_stale || side_absent (bank current) (bank_revision current)) in
  let e := change (if (index =? 0)%nat then source p else destination p) in
  match expected_revisions e, currency_command_decode_payload SHA256 e with
  | [r0; r1], Some _ =>
      ensure? (negb wallet_stale
               || side_newer (wallet current) (wallet_revision current) (revision_value r0))
              && (negb bank_stale
                  || side_newer (bank current) (bank_revision current) (revision_value r1)) in
      Some (StaleResult index wallet_stale bank_stale current)
  | _, _ => None
  end.

End Coin.

(** ** Specification: what a side changes *)

(** The worth of an amount of coins, for amounts that may be negative. *)
Definition worth (amounts : list Z) : Z :=
  amount_at amounts 0 + 10 * amount_at amounts 1 + 100 * amount_at amounts 2
  + 1000 * amount_at amounts 3.

Definition coins_ok (amounts : list Z) : Prop := length amounts = 4%nat ∧ Forall (sfits 32) amounts.

Record endpoint_typed (e : coin_transfer_endpoint) : Prop := {
  typed_before : coins_ok (coins_before e);
  typed_after : coins_ok (coins_after e);
  typed_change : command_typed (change e);
}.

Definition coin_typed (p : coin_transfer_payload) : Prop :=
  endpoint_typed (source p) ∧ endpoint_typed (destination p).

(** [moves SHA256 e key delta]: the command of a side changes the worth of what [key]
    names by [delta].  A wallet is changed by the currency command's own delta and nothing
    else; a pile is one item without contents whose new worth is that of the snapshot the
    transfer carries, or none if the transfer destroys it. *)
Inductive moves (SHA256 : list byte → list byte) (e : coin_transfer_endpoint)
  : critical_entity_key → Z → Prop :=
| moves_wallet w :
    currency_command_decode_payload SHA256 (change e) = Some w →
    CurrencyCommand.reason w = CurrencyCommand.currency_reason_type.coin_transfer →
    (∀ i, (i < 4)%nat → amount_at (bank_delta w) i = 0) →
    moves SHA256 e (EntityKey critical_entity_type.player (CurrencyCommand.pid w)) (worth (wallet_delta w))
| moves_pile pile snapshot entry old new :
    item_transfer_command_decode_payload SHA256 (change e) = Some pile →
    entries pile = [entry] → item_uid entry = selected_item_uid pile →
    player_item_snapshot_list_decode (item_blob pile) = Ok [snapshot] →
    object_uid snapshot = selected_item_uid pile → item_type snapshot = ITEM_MONEY →
    old = (if pile_creation pile then 0 else worth (coins_before e)) →
    new = (if pile_consumed pile then 0 else worth (values snapshot)) →
    worth (values snapshot) = (if pile_consumed pile then worth (coins_before e)
                               else worth (coins_after e)) →
    moves SHA256 e (EntityKey critical_entity_type.item (selected_item_uid pile)) (new - old).

(** ** Lemmas: amounts *)

Lemma four_coins (amounts : list Z) : length amounts = 4%nat → ∃ a b c d, amounts = [a; b; c; d].
Proof. intros L. destruct amounts as [|a [|b [|c [|d []]]]]; try done. by exists a, b, c, d. Qed.

Lemma value_spec amounts :
  length amounts = 4%nat →
  (0 <= value amounts → value amounts = worth amounts ∧ Forall (λ a, 0 <= a) amounts).
Proof.
  intros (a & b & c & d & ->)%four_coins. unfold value, denominations, value_loop, worth, amount_at.
  cbn [lookup list_lookup default from_option].
  destruct (Z.ltb_spec a 0); [lia|]. destruct (Z.ltb_spec b 0); [lia|].
  destruct (Z.ltb_spec c 0); [lia|]. destruct (Z.ltb_spec d 0); [lia|]. intros _.
  split; [cbn; lia|]. by repeat constructor.
Qed.

Lemma each_coin f : for_each_coin f = true → ∀ i, (i < 4)%nat → f i = true.
Proof.
  unfold for_each_coin. rewrite forallb_forall. intros H i L. apply H, in_seq. lia.
Qed.

Lemma worth_ext l k : (∀ i, (i < 4)%nat → amount_at l i = amount_at k i) → worth l = worth k.
Proof. intros E. unfold worth. rewrite !E by lia. done. Qed.

Lemma worth_sub l a b :
  (∀ i, (i < 4)%nat → amount_at l i = amount_at a i - amount_at b i) → worth l = worth a - worth b.
Proof. intros E. unfold worth. rewrite !E by lia. lia. Qed.

(** ** Lemmas: a valid side *)

Section Validate.

Context (SHA256 : list byte → list byte) (e : coin_transfer_endpoint).
Hypothesis before_ok : length (coins_before e) = 4%nat.
Hypothesis after_ok : length (coins_after e) = 4%nat.

Lemma validate_wallet_moves key :
  validate_wallet SHA256 e = Ok key → moves SHA256 e key (worth (coins_after e) - worth (coins_before e)).
Proof.
  unfold validate_wallet. destruct (currency_command_decode_payload _ _) as [w|] eqn:D; [|done].
  destruct (expected_revisions (change e)) as [|r0 [|r1 []]]; try done.
  destruct (_ && _) eqn:R; [|done]. cbn [negb].
  destruct (for_each_coin _) eqn:F; [|done]. cbn [negb]. intros [= <-].
  rewrite !andb_true_iff, Z.eqb_eq in R. destruct R as [[R _] _].
  assert (∀ i, (i < 4)%nat → amount_at (bank_delta w) i = 0
    ∧ amount_at (wallet_delta w) i = amount_at (coins_after e) i - amount_at (coins_before e) i) as Each.
  { intros i L. pose proof (each_coin _ F i L) as X. cbn in X.
    apply andb_prop in X as [X Y]. apply negb_true_iff, nz_false in X. by apply Z.eqb_eq in Y. }
  rewrite <- (worth_sub (wallet_delta w)) by (intros i L; by apply Each).
  apply moves_wallet; [done|done|]. intros i L. by apply Each.
Qed.

Lemma validate_pile_moves is_source key :
  0 <= value (coins_before e) → 0 <= value (coins_after e) →
  validate_pile SHA256 e is_source (value (coins_before e)) (value (coins_after e)) = Ok key →
  moves SHA256 e key (worth (coins_after e) - worth (coins_before e)).
Proof.
  intros B A. destruct (value_spec _ before_ok B) as [Vb _]. destruct (value_spec _ after_ok A) as [Va _].
  unfold validate_pile. destruct (item_transfer_command_decode_payload _ _) as [pile|] eqn:D; [|done].
  destruct (_ && _ && _) eqn:I; [|done]. cbn [negb].
  destruct (if pile_creation pile then _ else _) eqn:C; [done|]. cbn [negb].
  destruct (eqb _ _ && _) eqn:T; [|done]. cbn [negb].
  destruct (player_item_snapshot_list_decode _) as [[|snapshot []]|] eqn:L; try done.
  destruct (_ && _ && _ && _) eqn:S; [|done]. cbn [negb].
  destruct (pile_snapshot_matches _ _ _ _) eqn:M; [|done]. cbn [negb]. intros [= <-].
  rewrite !andb_true_iff, !Z.eqb_eq in *.
  destruct I as [[I _] Iu], S as [[[S1 S2] S3] S4], T as [T _].
  assert (∃ entry, entries pile = [entry]) as [entry En].
  { unfold item_count, vsize in I. destruct (entries pile) as [|entry []]; cbn [length] in I; [lia| |lia].
    by exists entry. }
  assert (worth (values snapshot) = if pile_consumed pile then worth (coins_before e)
                                    else worth (coins_after e)) as W.
  { assert (∀ i, (i < 4)%nat → amount_at (values snapshot) i =
      amount_at (if pile_consumed pile then coins_before e else coins_after e) i) as X.
    { intros i Li. pose proof (each_coin _ M i Li) as X. cbn in X. apply andb_prop in X as [_ X].
      apply Z.eqb_eq in X. by destruct (pile_consumed pile). }
    rewrite (worth_ext _ _ X). by destruct (pile_consumed pile). }
  replace (worth (coins_after e) - worth (coins_before e)) with
    ((if pile_consumed pile then 0 else worth (values snapshot))
     - (if pile_creation pile then 0 else worth (coins_before e))).
  { eapply moves_pile; try done. unfold first_entry in Iu. by rewrite En in Iu. }
  rewrite Va, Vb in *. apply eqb_prop in T.
  assert ((if pile_consumed pile then 0 else worth (values snapshot)) = worth (coins_after e)) as ->.
  { rewrite W. destruct (pile_consumed pile); [|done]. symmetry in T. apply Z.eqb_eq in T. lia. }
  destruct (pile_creation pile); [|done]. apply orb_false_iff in C as [C _].
  apply orb_false_iff in C as [_ C]. apply nz_false in C. lia.
Qed.

(** A valid side changes what it names by the difference of its amounts, which are worth
    something and go the right way. *)
Lemma validate_endpoint_moves is_source key :
  validate_endpoint SHA256 e is_source = Ok key →
  moves SHA256 e key (worth (coins_after e) - worth (coins_before e))
  ∧ value (coins_before e) = worth (coins_before e) ∧ value (coins_after e) = worth (coins_after e)
  ∧ Forall (λ a, 0 <= a) (coins_before e) ∧ Forall (λ a, 0 <= a) (coins_after e)
  ∧ (if is_source then worth (coins_after e) < worth (coins_before e)
     else worth (coins_before e) < worth (coins_after e)).
Proof.
  unfold validate_endpoint. destruct (_ || _ || _) eqn:O; [done|]. cbn [negb].
  rewrite !orb_false_iff, !Z.ltb_ge in O. destruct O as [[B A] O].
  destruct (value_spec _ before_ok B) as [Vb Fb]. destruct (value_spec _ after_ok A) as [Va Fa].
  intros H. split.
  - destruct (_ =? critical_command_type.account_bank); [by apply validate_wallet_moves|].
    destruct (_ =? critical_command_type.item_transfer); [|done]. by apply (validate_pile_moves is_source).
  - split_and!; [done..|]. rewrite Va, Vb in O. destruct is_source; apply Z.leb_gt in O; lia.
Qed.

End Validate.

(** C19: A coin transfer conserves money: whatever a valid payload does, one side loses
    exactly the worth the other gains, which is not zero, and the two sides are different
    wallets or piles.  What a side loses or gains is what the commands inside the payload
    say: the delta of a wallet, whose bank is left alone, or the worth of the one money
    object a pile is before and after, which nothing else shares. *)
Theorem coin_transfer_conserves SHA256 p :
  coin_typed p → validate_payload SHA256 p = Ok tt →
  ∃ from to amount, 0 < amount ∧ from ≠ to
  ∧ moves SHA256 (source p) from (- amount) ∧ moves SHA256 (destination p) to amount
  ∧ worth (coins_before (source p)) + worth (coins_before (destination p))
    = worth (coins_after (source p)) + worth (coins_after (destination p)).
Proof.
  intros [[[Lb _] [La _] _] [[Lb' _] [La' _] _]]. unfold validate_payload.
  destruct (validate_endpoint SHA256 (source p) true) as [from|] eqn:S; [|done].
  destruct (validate_endpoint SHA256 (destination p) false) as [to|] eqn:D; [|done].
  apply validate_endpoint_moves in S as (Ms & Vb & Va & _ & _ & Ls); [|done..].
  apply validate_endpoint_moves in D as (Md & Vb' & Va' & _ & _ & Ld); [|done..].
  rewrite Vb, Va, Vb', Va'. destruct (_ && _) eqn:G; [|done]. cbn [negb]. intros _.
  apply andb_prop in G as [N E]. apply negb_true_iff in N. apply Z.eqb_eq in E.
  exists from, to, (worth (coins_after (destination p)) - worth (coins_before (destination p))).
  split_and!; [lia| | |done|lia].
  - intros ->. by rewrite (proj2 (key_equal_spec to to) eq_refl) in N.
  - by replace (- _) with (worth (coins_after (source p)) - worth (coins_before (source p))) by lia.
Qed.

(** ** Lemmas: the command of a side as it is written *)

(** What decides whether a command decodes and to what. *)
Record same_change (c d : critical_command) : Prop := {
  change_type : command_type c = command_type d;
  change_version : payload_version c = payload_version d;
  change_keys : keys c = keys d;
  change_revisions : expected_revisions c = expected_revisions d;
  change_payload : payload c = payload d;
}.

Lemma same_change_decodes SHA256 c d :
  same_change c d →
  currency_command_decode_payload SHA256 c = currency_command_decode_payload SHA256 d
  ∧ item_transfer_command_decode_payload SHA256 c = item_transfer_command_decode_payload SHA256 d.
Proof.
  intros [T V K R P]. split.
  - unfold currency_command_decode_payload, CurrencyCommand.keys_are. by rewrite T, V, K, R, P.
  - unfold item_transfer_command_decode_payload. by rewrite T, V, K, R, P.
Qed.

Lemma validate_endpoint_same SHA256 e c is_source :
  same_change (change e) c →
  validate_endpoint SHA256 (CoinEndpoint (coins_before e) (coins_after e) c) is_source
  = validate_endpoint SHA256 e is_source.
Proof.
  intros S. destruct (same_change_decodes SHA256 _ _ S) as [W I]. destruct S as [T _ _ R _].
  unfold validate_endpoint, validate_wallet, validate_pile. cbn [coins_before coins_after change].
  rewrite <- W, <- I, <- T, <- R. done.
Qed.

(** The command of a side with the identity, place and time it is written with. *)
Definition stamped_change (SHA256 : list byte → list byte) (operation : critical_operation_id)
    (site deadline index : Z) (c : critical_command) : critical_command :=
  CriticalCommand (schema_version c)
    (take CRITICAL_COMMAND_ID_BYTES (SHA256 (derive_input operation COIN_OPERATION_DOMAIN index)))
    (command_type c) (payload_version c) site deadline 1 (keys c) (expected_revisions c) (payload c).

Definition stamped_endpoint SHA256 operation site deadline index e : coin_transfer_endpoint :=
  CoinEndpoint (coins_before e) (coins_after e)
    (stamped_change SHA256 operation site deadline index (change e)).

Definition stamped SHA256 operation site deadline (p : coin_transfer_payload) : coin_transfer_payload :=
  CoinPayload (stamped_endpoint SHA256 operation site deadline 0 (source p))
    (stamped_endpoint SHA256 operation site deadline 1 (destination p)).

(** A side that is valid names its entities in order. *)
Lemma valid_endpoint_sorted SHA256 e is_source key :
  validate_endpoint SHA256 e is_source = Ok key →
  StronglySorted key_lt (keys (change e))
  ∧ revision_key <$> expected_revisions (change e) = keys (change e).
Proof.
  unfold validate_endpoint. destruct (negb _); [done|]. 
  destruct (_ =? critical_command_type.account_bank).
  - unfold validate_wallet. destruct (currency_command_decode_payload _ _) as [w|] eqn:D; [|done].
    intros _. destruct (CurrencyCommand.decode_facts _ _ _ D) as (len & k & F).
    destruct F as (_ & _ & _ & _ & _ & _ & _ & _ & _ & _ & K & Ks).
    apply CurrencyCommand.account_key_fits in K as (Kt & _ & _). unfold CurrencyCommand.keys_are in Ks.
    destruct (keys (change e)) as [|k0 [|k1 []]]; try done.
    destruct (expected_revisions (change e)) as [|r0 [|r1 []]]; try done.
    rewrite !andb_true_iff, !key_equal_spec in Ks. destruct Ks as [[[-> ->] R0] R1].
    split; [|cbn; by rewrite R0, R1]. repeat constructor. apply key_less_spec. cbn. rewrite Kt. by left.
  - destruct (_ =? critical_command_type.item_transfer); [|done]. cbn [negb]. unfold validate_pile.
    destruct (item_transfer_command_decode_payload _ _) as [pile|] eqn:D; [|done]. intros _.
    destruct (transfer_decode_facts _ _ _ D) as (_ & _ & _ & P).
    destruct (populate_some _ _ _ _ P) as (_ & _ & _ & _ & S & R). done.
Qed.

Lemma endpoint_change_stamped SHA256 operation site deadline e index is_source key c :
  validate_endpoint SHA256 e is_source = Ok key →
  endpoint_change SHA256 operation site deadline e index = Some c →
  c = stamped_change SHA256 operation site deadline index (change e)
  ∧ critical_command_valid c = true.
Proof.
  intros V. destruct (valid_endpoint_sorted _ _ _ _ V) as [S R]. unfold endpoint_change.
  unfold critical_operation_id_derive. destruct (negb (_ && _)); [done|].
  destruct (critical_operation_id_is_zero (take _ _)); [done|]. cbn [negb]. intros N.
  pose proof (normalize_same _ _ N) as [_ Vc]. split; [|done]. by apply normalize_sorted in N.
Qed.

(** Writing a side again writes the same. *)
Lemma endpoint_change_again SHA256 operation site deadline e index :
  endpoint_change SHA256 operation site deadline
    (stamped_endpoint SHA256 operation site deadline index e) index
  = endpoint_change SHA256 operation site deadline e index.
Proof. done. Qed.

Lemma validate_stamped SHA256 operation site deadline p :
  validate_payload SHA256 (stamped SHA256 operation site deadline p) = validate_payload SHA256 p.
Proof.
  unfold validate_payload, stamped, stamped_endpoint. cbn [source destination coins_before coins_after].
  by rewrite !validate_endpoint_same by done.
Qed.

(** ** Lemmas: the payload *)

Definition side_bytes (e : coin_transfer_endpoint) : list byte :=
  concat (map (le_split 4) (coins_before e)) ++ concat (map (le_split 4) (coins_after e))
  ++ le_split 4 (vsize (command_bytes (change e))) ++ command_bytes (change e).

Definition coins_wire (l : list Z) : Prop := length l = 4%nat ∧ Forall (λ a, 0 <= a <= INT32_MAX) l.

Lemma append_coins l out :
  Forall (λ a, 0 <= a <= INT32_MAX) l →
  foldl (λ out a, append_le 4 out (wrap 32 a)) out l = out ++ concat (map (le_split 4) l).
Proof.
  intros F. revert out. induction F as [|a l Fa F IH]; intros out; [by rewrite app_nil_r|].
  cbn [foldl map concat]. rewrite IH. unfold append_le.
  rewrite wrap_small by (unfold fits, INT32_MAX in *; lia). by rewrite <- (assoc_L (++)).
Qed.

Lemma length_coin_bytes l : length (concat (map (le_split 4) l)) = (4 * length l)%nat.
Proof. induction l as [|x l IH]; cbn [map concat length]; rewrite ?length_app, ?length_le_split; lia. Qed.

Lemma endpoint_bytes_spec e :
  coins_wire (coins_before e) → coins_wire (coins_after e) → vsize (command_bytes (change e)) < 2 ^ 32 →
  endpoint_bytes e (command_bytes (change e)) = side_bytes e.
Proof.
  intros [_ B] [_ A] L. unfold endpoint_bytes, side_bytes. rewrite !append_coins by done. unfold append_le.
  rewrite wrap_small by (unfold fits, vsize in *; lia). cbn [app]. by rewrite <- !(assoc_L (++)).
Qed.

Lemma read_endpoint_at input off e rest :
  coins_wire (coins_before e) → coins_wire (coins_after e) →
  command_typed (change e) → critical_command_valid (change e) = true →
  vsize (command_bytes (change e)) < 2 ^ 32 → at_offset input off (side_bytes e ++ rest) →
  read_endpoint input off = Some (e, (off + length (side_bytes e))%nat)
  ∧ at_offset input (off + length (side_bytes e)) rest.
Proof.
  intros [Lb Fb] [La Fa] T V L A.
  assert (at_offset input (off + length (side_bytes e)) rest) as R by (by apply at_offset_app in A).
  split; [|done]. pose proof (at_offset_length _ _ _ A) as Len. assert (off <= length input)%nat as Lo by apply A.
  assert (length (side_bytes e) = 36 + length (command_bytes (change e)))%nat as Ls.
  { unfold side_bytes. rewrite !length_app, !length_coin_bytes, length_le_split, Lb, La. lia. }
  rewrite length_app, Ls in Len. rewrite Ls. clear R.
  assert (∀ l, Forall (λ a, 0 <= a <= INT32_MAX) l → Forall (fits 32) l) as U.
  { intros l F. eapply Forall_impl; [exact F|]. unfold fits, INT32_MAX. intros a X. cbn in X. lia. }
  unfold side_bytes in A. rewrite <- !(assoc_L (++)) in A.
  pose proof (get_les_at 4 _ _ _ _ (U _ Fb) A) as Eb. rewrite Lb in Eb.
  apply at_offset_app in A. rewrite length_coin_bytes, Lb in A. change (4 * 4)%nat with 16%nat in A.
  pose proof (get_les_at 4 _ _ _ _ (U _ Fa) A) as Ea. rewrite La in Ea.
  apply at_offset_app in A. rewrite length_coin_bytes, La in A. change (4 * 4)%nat with 16%nat in A.
  rewrite <- Nat.add_assoc in A. cbn [Nat.add] in A.
  apply get_le_at in A as [Ec A]; [|unfold fits, vsize in *; lia].
  unfold read_endpoint, ENDPOINT_HEADER_BYTES. rewrite Eb, Ea, Ec.
  rewrite <- Nat.add_assoc in A. cbn [Nat.add] in A.
  apply (slice_at _ _ _ _ _ eq_refl) in A as [Es _]. rewrite to_nat_vsize, Es.
  rewrite !(proj2 (Nat.ltb_ge _ _)) by lia. cbn [orb negb].
  assert (∀ l, Forall (λ a, 0 <= a <= INT32_MAX) l → forallb (λ a, a <=? INT32_MAX) l = true) as W.
  { intros l F. apply forallb_forall. intros a I. rewrite Forall_forall in F.
    apply Z.leb_le, F. by apply list_elem_of_In. }
  rewrite !W by done. cbn [andb negb].
  rewrite (proj2 (Z.leb_le _ _)) by (unfold vsize; lia). cbn [negb].
  rewrite decode_command_bytes by done. rewrite Nat.add_assoc. by destruct e.
Qed.

(** ** Lemmas: building *)

Lemma unique_keys_subset l : unique_keys l ⊆ l.
Proof.
  induction l as [|a l IH]; [done|]. destruct l as [|b l]; [done|]. cbn [unique_keys] in *.
  destruct (critical_entity_key_equal a b); set_solver.
Qed.

Lemma valid_at usec usec' c :
  critical_command_valid (accepted_at usec c) = true → usec' ≠ 0 →
  critical_command_valid (accepted_at usec' c) = true.
Proof.
  unfold critical_command_valid, accepted_at. cbn [keys expected_revisions payload source_site
    deadline_class schema_version operation_id command_type payload_version accepted_at_usec].
  intros V N. apply nz_true in N. rewrite N. rewrite !andb_true_iff in *. tauto.
Qed.

Section Build.

Context (SHA256 : list byte → list byte) (operation : critical_operation_id) (site deadline : Z).

Lemma valid_coins e is_source key :
  endpoint_typed e → validate_endpoint SHA256 e is_source = Ok key →
  coins_wire (coins_before e) ∧ coins_wire (coins_after e).
Proof.
  intros [[Lb Fb] [La Fa] _] V.
  destruct (validate_endpoint_moves _ _ Lb La _ _ V) as (_ & _ & _ & Nb & Na & _).
  assert (∀ l, Forall (sfits 32) l → Forall (λ a, 0 <= a) l → Forall (λ a, 0 <= a <= INT32_MAX) l) as W.
  { intros l F N. rewrite !Forall_forall in *. intros a I. specialize (F a I). specialize (N a I).
    unfold sfits, INT32_MAX in *. lia. }
  split; split; auto.
Qed.

Lemma append_endpoint_spec built e index is_source key r :
  endpoint_typed e → validate_endpoint SHA256 e is_source = Ok key →
  append_endpoint SHA256 operation site deadline built e index = Some r →
  let s := stamped_endpoint SHA256 operation site deadline index e in
  r = (built.1 ++ side_bytes s, built.2 ++ keys (change e))
  ∧ critical_command_valid (change s) = true
  ∧ vsize (command_bytes (change s)) < 2 ^ 32
  ∧ vsize r.1 <= CRITICAL_COMMAND_MAX_PAYLOAD_BYTES.
Proof.
  intros T V A s. destruct (valid_coins _ _ _ T V) as [Wb Wa]. unfold append_endpoint in A.
  destruct (endpoint_change _ _ _ _ _ _) as [c|] eqn:C; [|done].
  destruct (endpoint_change_stamped _ _ _ _ _ _ _ _ _ V C) as [-> Vc].
  destruct (critical_command_encode _) as [encoded|] eqn:E; [|done].
  apply encode_ok in E as [_ ->].
  destruct (Z.leb_spec (vsize (built.1 ++ endpoint_bytes e
    (command_bytes (stamped_change SHA256 operation site deadline index (change e)))))
    CRITICAL_COMMAND_MAX_PAYLOAD_BYTES) as [L|]; [|done].
  cbn [negb] in A. apply (inj Some) in A as <-. cbn [fst].
  assert (vsize (command_bytes (change s)) < 2 ^ 32) as Ls.
  { unfold endpoint_bytes, vsize in L. rewrite !length_app in L.
    change (stamped_change SHA256 operation site deadline index (change e)) with (change s) in L.
    unfold CRITICAL_COMMAND_MAX_PAYLOAD_BYTES in L. unfold vsize. lia. }
  split_and!; [|done|done|done]. f_equal. f_equal. by apply (endpoint_bytes_spec s).
Qed.

Lemma coin_build_spec p c :
  coin_typed p → coin_transfer_command_build SHA256 operation p site deadline = Ok c →
  let s := stamped SHA256 operation site deadline p in
  validate_payload SHA256 p = Ok tt
  ∧ payload c = side_bytes (source s) ++ side_bytes (destination s)
  ∧ c = CriticalCommand CRITICAL_COMMAND_SCHEMA_VERSION operation critical_command_type.coin_transfer
          COIN_TRANSFER_PAYLOAD_VERSION site deadline 0 (keys c) [] (payload c)
  ∧ keys c = unique_keys (merge_sort key_le (keys (change (source p)) ++ keys (change (destination p))))
  ∧ critical_command_valid (accepted_at 1 c) = true
  ∧ critical_command_valid (change (source s)) = true
  ∧ critical_command_valid (change (destination s)) = true
  ∧ vsize (command_bytes (change (source s))) < 2 ^ 32
  ∧ vsize (command_bytes (change (destination s))) < 2 ^ 32
  ∧ vsize (payload c) <= CRITICAL_COMMAND_MAX_PAYLOAD_BYTES.
Proof.
  intros [Ts Td] B s. unfold coin_transfer_command_build in B.
  destruct (negb (negb (critical_operation_id_is_zero operation))); [done|].
  destruct (validate_payload SHA256 p) as [[]|] eqn:V; [|done].
  pose proof V as V'. unfold validate_payload in V'.
  destruct (validate_endpoint SHA256 (source p) true) as [ks|] eqn:Vs; [|done].
  destruct (validate_endpoint SHA256 (destination p) false) as [kd|] eqn:Vd; [|done]. clear V'.
  destruct (append_endpoint _ _ _ _ _ (source p) 0) as [b1|] eqn:A1; [|done].
  destruct (append_endpoint _ _ _ _ b1 (destination p) 1) as [[out keys2]|] eqn:A2; [|done].
  destruct (append_endpoint_spec _ _ _ _ _ _ Ts Vs A1) as (-> & V1 & L1 & _).
  destruct (append_endpoint_spec _ _ _ _ _ _ Td Vd A2) as (E2 & V2 & L2 & L3). cbn [fst snd] in E2, L3.
  apply pair_equal_spec in E2 as [-> ->].
  destruct (critical_command_valid _) eqn:Vc; [|done]. cbn [negb] in B. injection B as <-.
  split_and!; try done; by destruct V2.
Qed.

(** Reading what was written. *)
Lemma coin_read_sides p input :
  let s := stamped SHA256 operation site deadline p in
  coins_wire (coins_before (source p)) → coins_wire (coins_after (source p)) →
  coins_wire (coins_before (destination p)) → coins_wire (coins_after (destination p)) →
  command_typed (change (source s)) → command_typed (change (destination s)) →
  critical_command_valid (change (source s)) = true →
  critical_command_valid (change (destination s)) = true →
  vsize (command_bytes (change (source s))) < 2 ^ 32 →
  vsize (command_bytes (change (destination s))) < 2 ^ 32 →
  input = side_bytes (source s) ++ side_bytes (destination s) →
  ∃ offset, read_endpoint input 0 = Some (source s, offset)
  ∧ read_endpoint input offset = Some (destination s, length input).
Proof.
  intros s B1 A1 B2 A2 T1 T2 V1 V2 L1 L2 E. pose proof (at_offset_start input) as A.
  rewrite E in A at 2.
  destruct (read_endpoint_at input 0 (source s) _ B1 A1 T1 V1 L1 A) as [R1 A'].
  rewrite <- (app_nil_r (side_bytes (destination s))) in A'.
  destruct (read_endpoint_at input _ (destination s) _ B2 A2 T2 V2 L2 A') as [R2 A''].
  exists (0 + length (side_bytes (source s)))%nat. split; [done|]. rewrite R2. do 2 f_equal.
  by rewrite E, length_app.
Qed.

Lemma stamped_change_typed c index :
  (∀ x, length (SHA256 x) = 32%nat) → command_typed c → u16 site → u8 deadline →
  command_typed (stamped_change SHA256 operation site deadline index c).
Proof.
  intros D [] S Dl. constructor; cbn; try done. rewrite length_take, D. done.
Qed.

End Build.

(** ** Theorems: the command *)

Lemma build_stamped SHA256 operation site deadline p :
  coin_transfer_command_build SHA256 operation (stamped SHA256 operation site deadline p) site deadline
  = coin_transfer_command_build SHA256 operation p site deadline.
Proof. unfold coin_transfer_command_build. by rewrite validate_stamped. Qed.

Lemma valid_site_deadline c :
  critical_command_valid c = true → u16 (source_site c) ∧ u8 (deadline_class c).
Proof.
  unfold critical_command_valid. rewrite !andb_true_iff, !Z.leb_le.
  unfold critical_source_site.command, critical_source_site.operator_repair,
    critical_deadline_class.interactive, critical_deadline_class.recovery, fits. lia.
Qed.

Lemma coin_sides_wire SHA256 p :
  coin_typed p → validate_payload SHA256 p = Ok tt →
  (coins_wire (coins_before (source p)) ∧ coins_wire (coins_after (source p)))
  ∧ coins_wire (coins_before (destination p)) ∧ coins_wire (coins_after (destination p)).
Proof.
  intros [Ts Td] V. unfold validate_payload in V.
  destruct (validate_endpoint SHA256 (source p) true) as [ks|] eqn:Vs; [|done].
  destruct (validate_endpoint SHA256 (destination p) false) as [kd|] eqn:Vd; [|done].
  split; [by apply (valid_coins _ _ _ _ Ts Vs)|by apply (valid_coins _ _ _ _ Td Vd)].
Qed.

(** What is read back from the bytes of a built command. *)
Lemma coin_build_reads SHA256 operation site deadline p c :
  (∀ x, length (SHA256 x) = 32%nat) → coin_typed p →
  coin_transfer_command_build SHA256 operation p site deadline = Ok c →
  let s := stamped SHA256 operation site deadline p in
  command_typed (change (source s)) ∧ command_typed (change (destination s))
  ∧ ∃ offset, read_endpoint (payload c) 0 = Some (source s, offset)
    ∧ read_endpoint (payload c) offset = Some (destination s, length (payload c)).
Proof.
  intros D T B s. destruct (coin_build_spec _ _ _ _ _ _ T B) as (V & P & E & _ & Vc & V1 & V2 & L1 & L2 & _).
  destruct (coin_sides_wire _ _ T V) as ((B1 & A1) & B2 & A2). destruct T as [Ts Td].
  destruct (valid_site_deadline _ Vc) as [S Dl]. rewrite E in S, Dl. cbn in S, Dl.
  assert (command_typed (change (source s))) as T1
    by (apply stamped_change_typed; [done|apply Ts|done|done]).
  assert (command_typed (change (destination s))) as T2
    by (apply stamped_change_typed; [done|apply Td|done|done]).
  split_and!; [done..|]. by apply (coin_read_sides SHA256 operation site deadline p).
Qed.

Lemma coin_command_typed SHA256 operation site deadline p usec c :
  coin_typed p → coin_transfer_command_build SHA256 operation p site deadline = Ok c →
  length operation = CRITICAL_COMMAND_ID_BYTES → u64 usec → command_typed (accepted_at usec c).
Proof.
  intros T B Lo U. destruct (coin_build_spec _ _ _ _ _ _ T B) as (_ & _ & E & K & Vc & _).
  destruct (valid_site_deadline _ Vc) as [S Dl]. rewrite E in S, Dl. cbn in S, Dl.
  rewrite E. constructor; cbn; try done.
  rewrite K. destruct T as [Ts Td]. apply Forall_forall. intros k I.
  apply unique_keys_subset in I. rewrite merge_sort_Permutation in I. apply elem_of_app in I as [I|I].
  - pose proof (typed_keys _ (typed_change _ Ts)) as F. rewrite Forall_forall in F. by apply F.
  - pose proof (typed_keys _ (typed_change _ Td)) as F. rewrite Forall_forall in F. by apply F.
Qed.

(** A coin transfer survives the journal: a command that is built, once stamped with
    the time of acceptance, is a valid critical command that is encoded and decoded to
    itself, and its payload reads back as the one it was built from, each side's command
    under the identity derived from the parent's, at the parent's site and deadline; that
    payload builds the same command again. *)
Theorem coin_transfer_durable_roundtrip SHA256 operation site deadline p usec c :
  (∀ x, length (SHA256 x) = 32%nat) →
  coin_transfer_command_build SHA256 operation p site deadline = Ok c →
  coin_typed p → length operation = CRITICAL_COMMAND_ID_BYTES → u64 usec → usec ≠ 0 →
  let s := stamped SHA256 operation site deadline p in
  ∃ bytes,
    critical_command_encode (accepted_at usec c) = Ok bytes
    ∧ critical_command_decode bytes = Ok (accepted_at usec c)
    ∧ coin_transfer_command_decode_payload SHA256 (accepted_at usec c) = Some s
    ∧ coin_transfer_command_build SHA256 operation s site deadline = Ok c.
Proof.
  intros D B T Lo U N s.
  destruct (coin_build_spec _ _ _ _ _ _ T B) as (V & _ & E & _ & Vc & _ & _ & _ & _ & L).
  pose proof (valid_at _ usec _ Vc N) as Vu. pose proof (coin_command_typed _ _ _ _ _ _ _ T B Lo U) as Tu.
  destruct (coin_build_reads _ _ _ _ _ _ D T B) as (_ & _ & offset & R1 & R2).
  exists (command_bytes (accepted_at usec c)). split_and!.
  - apply encode_valid; [apply Tu|done].
  - by apply decode_command_bytes.
  - unfold coin_transfer_command_decode_payload. unfold s in *. rewrite E.
    cbn [accepted_at command_type payload_version payload expected_revisions operation_id source_site
      deadline_class keys length]. rewrite !Z.eqb_refl, (proj2 (Z.leb_le _ _) L), Nat.eqb_refl.
    cbn [andb negb]. rewrite R1, R2, Nat.eqb_refl. cbn [negb].
    change (CoinPayload (source ?x) (destination ?x)) with x.
    rewrite build_stamped, B, !bool_decide_true by done. done.
  - unfold s. by rewrite build_stamped.
Qed.

Lemma read_endpoint_typed input off e off' :
  read_endpoint input off = Some (e, off') → endpoint_typed e.
Proof.
  unfold read_endpoint. destruct (negb (_ || _)); [|done]. cbn [negb].
  destruct (forallb _ _ && _) eqn:F; [|done]. cbn [negb]. destruct (_ <=? Z.of_nat _); [|done]. cbn [negb].
  destruct (critical_command_decode _) as [c|] eqn:Dc; [|done]. intros E.
  apply (inj Some), pair_equal_spec in E as [<- _]. apply andb_prop in F as [Fb Fa].
  apply decode_ok in Dc as (T & _ & _).
  assert (∀ l, forallb (λ a, a <=? INT32_MAX) l = true → Forall (fits 32) l → Forall (sfits 32) l) as W.
  { intros l H F. rewrite forallb_forall in H. rewrite Forall_forall in *. intros a I.
    pose proof (F a I). apply list_elem_of_In, H, Z.leb_le in I. unfold fits, sfits, INT32_MAX in *. lia. }
  assert (∀ o, Forall (fits 32) ((λ i, get_le 4 input (o + i * 4)) <$> seq 0 4)) as G
    by (intros o; apply Forall_fmap, Forall_true; intros i; apply (get_le_fits 4)).
  constructor; cbn [coins_before coins_after change]; [split; [done|by apply W]..|done].
Qed.

(** What the decoder accepts is sound: the payload has the declared types, is valid —
    so it conserves money — and is exactly the one a command of the same operation, site
    and deadline would be built with: building it again gives the same payload, the same
    keys and no expected revisions, and its two commands carry the identities derived from
    the operation, which nobody chose. *)
Theorem coin_transfer_decode_sound SHA256 c p :
  (∀ x, length (SHA256 x) = 32%nat) →
  coin_transfer_command_decode_payload SHA256 c = Some p →
  coin_typed p ∧ validate_payload SHA256 p = Ok tt
  ∧ p = stamped SHA256 (operation_id c) (source_site c) (deadline_class c) p
  ∧ expected_revisions c = []
  ∧ ∃ c', coin_transfer_command_build SHA256 (operation_id c) p (source_site c) (deadline_class c) = Ok c'
    ∧ payload c' = payload c ∧ keys c' = keys c.
Proof.
  intros D. unfold coin_transfer_command_decode_payload. destruct (_ && _ && _ && _) eqn:G; [|done]. cbn [negb].
  destruct (read_endpoint (payload c) 0) as [[s offset]|] eqn:R1; [|done].
  destruct (read_endpoint (payload c) offset) as [[d offset']|] eqn:R2; [|done].
  destruct (offset' =? _)%nat; [|done]. cbn [negb].
  destruct (coin_transfer_command_build _ _ _ _ _) as [c'|] eqn:B; [|done].
  destruct (bool_decide _ && _) eqn:Q; [|done]. cbn [negb]. intros E. apply (inj Some) in E as <-.
  apply andb_prop in Q as [Q1 Q2]. apply bool_decide_eq_true in Q1, Q2.
  apply andb_prop in G as [_ G]. apply Nat.eqb_eq, nil_length_inv in G.
  assert (coin_typed (CoinPayload s d)) as T
    by (split; [by apply (read_endpoint_typed _ _ _ _ R1)|by apply (read_endpoint_typed _ _ _ _ R2)]).
  destruct (coin_build_spec _ _ _ _ _ _ T B) as (V & _).
  destruct (coin_build_reads _ _ _ _ _ _ D T B) as (_ & _ & o & R1' & R2').
  rewrite Q1, R1 in R1'. apply (inj Some), pair_equal_spec in R1' as [Es <-].
  rewrite Q1, R2 in R2'. apply (inj Some), pair_equal_spec in R2' as [Ed _].
  split; [done|]. split; [done|]. split; [|split; [done|by exists c']].
  unfold stamped in *. cbn [source destination] in *. by rewrite <- Es, <- Ed.
Qed.

(** ** Lemmas: the result *)

(** The 128 bytes of one side. *)
Definition part_bytes (e : coin_transfer_endpoint) (r : coin_transfer_result) (index : nat)
    (bs : list byte) : Prop :=
  (command_type (change e) = critical_command_type.account_bank
   ∧ ∃ w, currency_command_encode_result (wallet_at r index) = Some w ∧ bs = w ++ zeros 48)
  ∨ (command_type (change e) = critical_command_type.item_transfer
     ∧ ∃ pile, item_transfer_command_encode_result (pile_at r index) = Some pile
       ∧ bs = zeros 80 ++ pile).

(** What of a result the bytes keep of one side. *)
Definition kept_side (e : coin_transfer_endpoint) (r : coin_transfer_result) (index : nat)
  : currency_command_result * item_transfer_result :=
  if command_type (change e) =? critical_command_type.account_bank
  then (wallet_at r index, no_pile) else (no_wallet, pile_at r index).

Definition kept (p : coin_transfer_payload) (r : coin_transfer_result) : coin_transfer_result :=
  let s := kept_side (source p) r 0 in
  let d := kept_side (destination p) r 1 in
  CoinResult [s.1; d.1] [s.2; d.2].

Definition coin_result_typed (r : coin_transfer_result) : Prop :=
  ∀ i, (i < 2)%nat → CurrencyCommand.result_typed (wallet_at r i) ∧ result_typed (pile_at r i).

Lemma length_wallet_bytes r w :
  currency_command_encode_result r = Some w → length w = 80%nat.
Proof.
  unfold currency_command_encode_result. destruct (_ && _); [|done]. cbn [negb]. intros E.
  apply (inj Some) in E as <-. by rewrite !length_put_bytes, !CurrencyCommand.encode_vector_length.
Qed.

Lemma length_pile_bytes r pile :
  item_transfer_command_encode_result r = Some pile → length pile = 48%nat.
Proof.
  unfold item_transfer_command_encode_result. destruct (_ && _); [|done]. cbn [negb]. intros E.
  apply (inj Some) in E as <-. by rewrite !length_put_bytes.
Qed.

Lemma part_length e r index bs : part_bytes e r index bs → length bs = 128%nat.
Proof.
  intros [(_ & w & E & ->)|(_ & pile & E & ->)]; rewrite length_app, length_zeros.
  - by rewrite (length_wallet_bytes _ _ E).
  - by rewrite (length_pile_bytes _ _ E).
Qed.

Lemma encode_part_filled e r index out pre n out' :
  filled out pre n → length pre = (index * 128)%nat → (128 <= n)%nat →
  encode_result_part e r index out = Some out' →
  ∃ bs, part_bytes e r index bs ∧ filled out' (pre ++ bs) (n - 128).
Proof.
  intros F L N. unfold encode_result_part.
  change (CURRENCY_RESULT_PAYLOAD_BYTES + ITEM_TRANSFER_RESULT_BYTES)%nat with 128%nat.
  change CURRENCY_RESULT_PAYLOAD_BYTES with 80%nat.
  destruct (Z.eqb_spec (command_type (change e)) critical_command_type.account_bank) as [T|T].
  - destruct (currency_command_encode_result _) as [w|] eqn:E; [|done]. intros X. apply (inj Some) in X as <-.
    pose proof (length_wallet_bytes _ _ E) as Lw. exists (w ++ zeros 48). split; [left; eauto|].
    apply (filled_put _ _ _ (index * 128) w) in F; [|lia|lia].
    apply (filled_skip _ _ _ 48) in F; [|lia]. rewrite <- (assoc_L (++)) in F.
    replace (n - 128)%nat with (n - length w - 48)%nat by lia. done.
  - destruct (Z.eqb_spec (command_type (change e)) critical_command_type.item_transfer) as [T'|T']; [|done].
    destruct (item_transfer_command_encode_result _) as [pile|] eqn:E; [|done].
    intros X. apply (inj Some) in X as <-. pose proof (length_pile_bytes _ _ E) as Lp.
    exists (zeros 80 ++ pile). split; [right; eauto|].
    apply (filled_skip _ _ _ 80) in F; [|lia].
    apply (filled_put _ _ _ (index * 128 + 80) pile) in F; [|rewrite length_app, length_zeros; lia|lia].
    rewrite <- (assoc_L (++)) in F. replace (n - 128)%nat with (n - 80 - length pile)%nat by lia. done.
Qed.

Lemma part_bytes_unique e r index a b : part_bytes e r index a → part_bytes e r index b → a = b.
Proof.
  intros [(T & w & E & ->)|(T & w & E & ->)] [(T' & w' & E' & ->)|(T' & w' & E' & ->)];
    congruence || (rewrite T in T'; done).
Qed.

Lemma encode_part_some e r index out bs :
  part_bytes e r index bs → ∃ out', encode_result_part e r index out = Some out'.
Proof.
  unfold encode_result_part. intros [(T & w & E & _)|(T & w & E & _)]; rewrite T, E; eauto.
Qed.

Lemma all_zero_zeros n : all_zero (zeros n) = true.
Proof. unfold all_zero, zeros. induction n; [done|]. cbn. done. Qed.

Lemma decode_part_at e r index bs input rest :
  part_bytes e r index bs → CurrencyCommand.result_typed (wallet_at r index) → result_typed (pile_at r index) →
  at_offset input (index * 128) (bs ++ rest) →
  decode_result_part e input index = Some (kept_side e r index).
Proof.
  intros P Tw Tp A. unfold decode_result_part, kept_side.
  change (CURRENCY_RESULT_PAYLOAD_BYTES + ITEM_TRANSFER_RESULT_BYTES)%nat with 128%nat.
  change CURRENCY_RESULT_PAYLOAD_BYTES with 80%nat. change ITEM_TRANSFER_RESULT_BYTES with 48%nat.
  destruct P as [(T & w & E & ->)|(T & pile & E & ->)]; rewrite T; rewrite <- (assoc_L (++)) in A.
  - pose proof (length_wallet_bytes _ _ E) as Lw.
    apply (slice_at _ _ _ _ 80 (eq_sym Lw)) in A as [-> A].
    apply (slice_at _ _ (zeros 48) _ 48 eq_refl) in A as [-> _]. rewrite Z.eqb_refl.
    by rewrite (CurrencyCommand.decode_encoded_result _ _ Tw E), all_zero_zeros.
  - pose proof (length_pile_bytes _ _ E) as Lp.
    apply (slice_at _ _ (zeros 80) _ 80 eq_refl) in A as [-> A].
    apply (slice_at _ _ _ _ 48 (eq_sym Lp)) in A as [-> _]. rewrite encode_result_bytes in E.
    destruct (result_valid (pile_at r index)) eqn:V; [|done]. apply (inj Some) in E as <-.
    cbn [Z.eqb]. change (critical_command_type.item_transfer =? critical_command_type.account_bank) with false.
    rewrite Z.eqb_refl. by rewrite (proj1 (decode_result_bytes _ Tp V)), all_zero_zeros.
Qed.

(** A side that is decoded is encoded to the same bytes. *)
Lemma decode_part_bytes e input index w pile r :
  (index * 128 + 128 <= length input)%nat →
  decode_result_part e input index = Some (w, pile) → wallet_at r index = w → pile_at r index = pile →
  part_bytes e r index (slice 128 input (index * 128))
  ∧ kept_side e r index = (w, pile).
Proof.
  intros L. unfold decode_result_part, part_bytes, kept_side.
  change (CURRENCY_RESULT_PAYLOAD_BYTES + ITEM_TRANSFER_RESULT_BYTES)%nat with 128%nat.
  change CURRENCY_RESULT_PAYLOAD_BYTES with 80%nat. change ITEM_TRANSFER_RESULT_BYTES with 48%nat.
  rewrite (slice_app 80 48). intros D <- <-.
  destruct (Z.eqb_spec (command_type (change e)) critical_command_type.account_bank) as [T|T].
  - destruct (currency_command_decode_result _) as [w'|] eqn:E; [|done].
    destruct (all_zero _) eqn:Z; [|done]. cbn [negb] in D. apply (inj Some), pair_equal_spec in D as [-> <-].
    split; [|done]. left. split; [done|].
    eexists. split; [by apply CurrencyCommand.encode_decoded_result|]. f_equal. apply slice_zeros; [lia|done].
  - destruct (Z.eqb_spec (command_type (change e)) critical_command_type.item_transfer) as [T'|T']; [|done].
    destruct (item_transfer_command_decode_result _) as [pile'|] eqn:E; [|done].
    destruct (all_zero _) eqn:Z; [|done]. cbn [negb] in D. apply (inj Some), pair_equal_spec in D as [<- ->].
    split; [|done]. right. split; [done|].
    destruct (decode_result_reads _ _ E) as (_ & V & [O|[O _]]).
    + eexists. split; [rewrite encode_result_bytes, V; reflexivity|]. rewrite <- O. f_equal.
      apply slice_zeros; [lia|done].
    + exfalso. apply (f_equal length) in O. rewrite length_result_prefix, length_slice in O by lia. done.
Qed.

(** The result of a coin transfer says what happened on each side, in the half of its
    256 bytes that belongs to the side: for a wallet the wallet's result, for a pile the
    pile's.  A result that is encoded decodes to itself, except for what the two commands
    cannot have produced; and what is decoded is encoded to the same bytes, so no other
    bytes are accepted. *)
Theorem coin_transfer_result_roundtrip p :
  (∀ r out, coin_result_typed r →
    coin_transfer_command_encode_result p r = Some out →
    length out = COIN_TRANSFER_RESULT_BYTES
    ∧ coin_transfer_command_decode_result p out = Some (kept p r))
  ∧ ∀ out r, coin_transfer_command_decode_result p out = Some r →
    kept p r = r ∧ coin_transfer_command_encode_result p r = Some out.
Proof.
  split.
  - intros r out T E. unfold coin_transfer_command_encode_result in E.
    destruct (encode_result_part (source p) r 0 _) as [out1|] eqn:E1; [|done].
    assert (filled (replicate COIN_TRANSFER_RESULT_BYTES Byte.x00) [] 256) as F by done.
    destruct (encode_part_filled _ _ 0 _ _ _ _ F eq_refl ltac:(lia) E1) as (b1 & P1 & F1).
    pose proof (part_length _ _ _ _ P1) as L1.
    destruct (encode_part_filled _ _ 1 _ _ _ _ F1 L1 ltac:(lia) E) as (b2 & P2 & F2).
    pose proof (part_length _ _ _ _ P2) as L2.
    apply filled_all in F2 as ->. cbn [app].
    assert (length (b1 ++ b2) = COIN_TRANSFER_RESULT_BYTES) as L by (rewrite length_app, L1, L2; done).
    split; [done|]. unfold coin_transfer_command_decode_result. rewrite L, Nat.eqb_refl. cbn [negb].
    destruct (T 0%nat ltac:(lia)) as [Tw0 Tp0], (T 1%nat ltac:(lia)) as [Tw1 Tp1].
    pose proof (at_offset_start (b1 ++ b2)) as A.
    rewrite (decode_part_at _ _ _ _ _ _ P1 Tw0 Tp0 A). apply at_offset_app in A. rewrite L1 in A.
    rewrite <- (app_nil_r b2) in A at 2.
    rewrite (decode_part_at _ _ _ _ _ _ P2 Tw1 Tp1 A). unfold kept.
    by destruct (kept_side (source p) r 0), (kept_side (destination p) r 1).
  - intros out r D. unfold coin_transfer_command_decode_result in D.
    destruct (_ =? _)%nat eqn:L; [|done]. cbn [negb] in D. apply Nat.eqb_eq in L.
    destruct (decode_result_part (source p) out 0) as [[w0 p0]|] eqn:D0; [|done].
    destruct (decode_result_part (destination p) out 1) as [[w1 p1]|] eqn:D1; [|done].
    apply (inj Some) in D as <-. set (r := CoinResult _ _).
    change COIN_TRANSFER_RESULT_BYTES with 256%nat in L.
    destruct (decode_part_bytes _ out 0 _ _ r ltac:(lia) D0 eq_refl eq_refl) as [P0 K0].
    destruct (decode_part_bytes _ out 1 _ _ r ltac:(lia) D1 eq_refl eq_refl) as [P1 K1].
    split; [unfold kept; by rewrite K0, K1|]. unfold coin_transfer_command_encode_result.
    assert (filled (replicate COIN_TRANSFER_RESULT_BYTES Byte.x00) [] 256) as F by done.
    destruct (encode_part_some _ _ _ (replicate COIN_TRANSFER_RESULT_BYTES Byte.x00) _ P0) as [o0 E0].
    rewrite E0. destruct (encode_part_some _ _ _ o0 _ P1) as [o1 E1]. rewrite E1. f_equal.
    destruct (encode_part_filled _ _ 0 _ _ _ _ F eq_refl ltac:(lia) E0) as (b0 & Q0 & F0).
    rewrite (part_bytes_unique _ _ _ _ _ Q0 P0) in F0. pose proof (part_length _ _ _ _ P0) as L0.
    destruct (encode_part_filled _ _ 1 _ _ _ _ F0 L0 ltac:(lia) E1) as (b1 & Q1 & F1).
    rewrite (part_bytes_unique _ _ _ _ _ Q1 P1) in F1. apply filled_all in F1 as ->. cbn [app].
    change (0 * 128)%nat with 0%nat. change (1 * 128)%nat with (0 + 128)%nat.
    rewrite <- (slice_app 128 128). change (128 + 128)%nat with 256%nat. rewrite <- L. apply slice_all.
Qed.

(** ** Lemmas: the result of a refusal *)

Lemma small_stage stage : Z.land stage (Z.lnot 15) = 0 → 0 <= stage < 16.
Proof.
  intros H. change (Z.land stage (Z.lnot 15)) with (Z.land stage (Z.lnot 15)) in H.
  rewrite <- Z.ldiff_land in H. pose proof (Z.lor_ldiff_and stage 15) as E. rewrite H, Z.lor_0_l in E.
  change 15 with (Z.ones 4) in E. rewrite Z.land_ones in E by lia. rewrite <- E.
  apply Z.mod_pos_bound. lia.
Qed.

Definition side (p : coin_transfer_payload) (index : nat) : coin_transfer_endpoint :=
  if (index =? 0)%nat then source p else destination p.

(** The stages that say which wallet or bank was stale are those of one side. *)
Lemma stale_endpoint_spec p stage index ws bs :
  stale_currency_endpoint p stage = Some (index, ws, bs) ↔
  (index < 2)%nat ∧ ws || bs = true
  ∧ stage = Z.shiftl (stale_flags ws bs) (2 * Z.of_nat index)
  ∧ command_type (change (side p index)) = critical_command_type.account_bank.
Proof.
  split.
  - unfold stale_currency_endpoint. destruct (critical_failure_stage_valid stage); [|done]. cbn [negb].
    destruct (negb _ || _ || _) eqn:G; [done|]. cbn [negb]. rewrite !orb_false_iff in G.
    destruct G as [[G1 G2] G3]. apply nz_false in G2. apply small_stage in G2.
    assert (stage = 0 ∨ stage = 1 ∨ stage = 2 ∨ stage = 3 ∨ stage = 4 ∨ stage = 5 ∨ stage = 6 ∨ stage = 7
      ∨ stage = 8 ∨ stage = 9 ∨ stage = 10 ∨ stage = 11 ∨ stage = 12 ∨ stage = 13 ∨ stage = 14 ∨ stage = 15)
      as Cases by lia.
    repeat destruct Cases as [->|Cases]; try subst stage; try discriminate;
      (match goal with |- context [command_type ?x =? ?y] =>
         destruct (Z.eqb_spec (command_type x) y) as [T|] end; [|intros; discriminate]);
      intros E; injection E as <- <- <-; (split_and!; [lia|done|done|exact T]).
  - intros (I & F & -> & T). unfold stale_currency_endpoint.
    destruct p as [[b1 a1 [? ? ty1 ? ? ? ? ? ? ?]] [b2 a2 [? ? ty2 ? ? ? ? ? ? ?]]].
    destruct index as [|[|index]]; [| |lia]; cbn in T; subst; destruct ws, bs; done.
Qed.

Definition stale_current (r : coin_transfer_result) (index : nat) (ws bs : bool) : currency_command_result :=
  CurrencyResult (if ws then wallet (wallet_at r index) else [0; 0; 0; 0])
    (if bs then bank (wallet_at r index) else [0; 0; 0; 0])
    (if ws then wallet_revision (wallet_at r index) else 0)
    (if bs then bank_revision (wallet_at r index) else 0).

Definition stale_bytes (index : nat) (ws bs : bool) (current : list byte) : list byte :=
  [to_byte COIN_TRANSFER_STALE_RESULT_VERSION; to_byte (Z.of_nat index); to_byte (stale_flags ws bs)]
  ++ current.

Lemma encode_stale_spec p r stage out :
  coin_transfer_command_encode_stale_result p r stage = Some out ↔
  ∃ index ws bs current, stale_currency_endpoint p stage = Some (index, ws, bs)
  ∧ currency_command_encode_result (stale_current r index ws bs) = Some current
  ∧ out = stale_bytes index ws bs current.
Proof.
  unfold coin_transfer_command_encode_stale_result.
  destruct (stale_currency_endpoint p stage) as [[[index ws] bs]|]; [|naive_solver].
  fold (stale_current r index ws bs).
  destruct (currency_command_encode_result _) as [current|] eqn:E; [|naive_solver].
  pose proof (length_wallet_bytes _ _ E) as L.
  assert (put_bytes (put_bytes (put_bytes (put_bytes (replicate COIN_TRANSFER_STALE_RESULT_BYTES Byte.x00) 0
    [to_byte COIN_TRANSFER_STALE_RESULT_VERSION]) 1 [to_byte (Z.of_nat index)]) 2 [to_byte (stale_flags ws bs)])
    3 current = stale_bytes index ws bs current) as ->.
  { assert (filled (replicate COIN_TRANSFER_STALE_RESULT_BYTES Byte.x00) [] 83) as F by done.
    apply (filled_put _ _ _ 0 [to_byte COIN_TRANSFER_STALE_RESULT_VERSION]) in F; [|done|cbn; lia].
    apply (filled_put _ _ _ 1 [to_byte (Z.of_nat index)]) in F; [|done|cbn; lia].
    apply (filled_put _ _ _ 2 [to_byte (stale_flags ws bs)]) in F; [|done|cbn; lia].
    apply (filled_put _ _ _ 3 current) in F; [|done|cbn; lia].
    replace (83 - _ - _ - _ - length current)%nat with 0%nat in F by (cbn; lia). by apply filled_all in F. }
  split; [intros H; apply (inj Some) in H as <-; by exists index, ws, bs, current|].
  intros (i & w & b & cur & H & E' & ->). apply (inj Some) in H. injection H as <- <- <-. congruence.
Qed.

(** What a refusal may report of a side: newer than what was expected, and coins a
    player can hold. *)
Definition newer (amounts : currency_vector) (revision expected : Z) : Prop :=
  expected < revision ∧ revision ≠ UINT64_MAX ∧ Forall (λ a, 0 <= a <= INT32_MAX) amounts.
Definition absent (amounts : currency_vector) (revision : Z) : Prop :=
  revision = 0 ∧ Forall (λ a, a = 0) amounts.

Lemma side_newer_spec amounts revision expected :
  side_newer amounts revision expected = true ↔ newer amounts revision expected.
Proof.
  unfold side_newer, newer. rewrite negb_true_iff, !orb_false_iff, Z.eqb_neq, Z.leb_gt, existsb_false_forall.
  assert (Forall (λ a, (a <? 0) || (INT32_MAX <? a) = false) amounts ↔ Forall (λ a, 0 <= a <= INT32_MAX) amounts)
    as ->; [|tauto].
  apply Forall_proper; [|done]. intros a. rewrite orb_false_iff, !Z.ltb_ge. done.
Qed.

Lemma side_absent_spec amounts revision : side_absent amounts revision = true ↔ absent amounts revision.
Proof.
  unfold side_absent, absent. rewrite negb_true_iff, orb_false_iff, nz_false, existsb_false_forall.
  assert (Forall (λ a, nz a = false) amounts ↔ Forall (λ a, a = 0) amounts) as ->; [|done].
  apply Forall_proper; [|done]. intros a. apply nz_false.
Qed.

Lemma decode_stale_sound SHA256 p stage out s :
  coin_transfer_command_decode_stale_result SHA256 p stage out = Some s →
  let e := change (side p (endpoint_index s)) in
  (endpoint_index s < 2)%nat ∧ wallet_stale s || bank_stale s = true
  ∧ stage = Z.shiftl (stale_flags (wallet_stale s) (bank_stale s)) (2 * Z.of_nat (endpoint_index s))
  ∧ command_type e = critical_command_type.account_bank
  ∧ (∃ r0 r1, expected_revisions e = [r0; r1]
     ∧ (if wallet_stale s then newer (wallet (current s)) (wallet_revision (current s)) (revision_value r0)
        else absent (wallet (current s)) (wallet_revision (current s)))
     ∧ (if bank_stale s then newer (bank (current s)) (bank_revision (current s)) (revision_value r1)
        else absent (bank (current s)) (bank_revision (current s))))
  ∧ ∃ bs, currency_command_encode_result (current s) = Some bs
    ∧ out = stale_bytes (endpoint_index s) (wallet_stale s) (bank_stale s) bs.
Proof.
  unfold coin_transfer_command_decode_stale_result.
  destruct (_ =? _)%nat eqn:L; [|done]. cbn [negb]. apply Nat.eqb_eq in L.
  destruct (stale_currency_endpoint p stage) as [[[index ws] bs]|] eqn:S; [|done].
  apply stale_endpoint_spec in S as (I & F & St & Ty). destruct (_ && _ && _) eqn:B; [|done]. cbn [negb].
  destruct (currency_command_decode_result _) as [cur|] eqn:D; [|done].
  destruct ((ws || _) && _) eqn:A; [|done]. cbn [negb].
  fold (side p index).
  destruct (expected_revisions (change (side p index))) as [|r0 [|r1 []]] eqn:R; try done.
  destruct (currency_command_decode_payload _ _); [|done].
  destruct ((negb ws || _) && _) eqn:N; [|done]. cbn [negb]. intros E. apply (inj Some) in E as <-.
  cbn [endpoint_index wallet_stale bank_stale current].
  apply andb_prop in A as [A1 A2]. apply andb_prop in N as [N1 N2].
  split_and!; [done..| |].
  - exists r0, r1. split_and!; [done| |].
    + destruct ws; [by apply side_newer_spec|by apply side_absent_spec].
    + destruct bs; [by apply side_newer_spec|by apply side_absent_spec].
  - eexists. split; [by apply CurrencyCommand.encode_decoded_result|].
    rewrite !andb_true_iff, !Z.eqb_eq in B. destruct B as [[B0 B1] B2].
    change COIN_TRANSFER_STALE_RESULT_BYTES with 83%nat in L.
    rewrite <- (slice_all out) at 1. rewrite L. change 83%nat with (3 + 80)%nat. rewrite slice_app.
    unfold stale_bytes. f_equal.
    change 3%nat with (1 + (1 + 1))%nat. rewrite !slice_app, !slice_byte by lia. cbn [Nat.add app].
    by rewrite B0, B1, B2.
Qed.

Lemma decode_stale_bytes SHA256 p stage r index ws bs w r0 r1 cur :
  (∀ i, (i < 2)%nat → CurrencyCommand.result_typed (wallet_at r i)) →
  stale_currency_endpoint p stage = Some (index, ws, bs) →
  currency_command_decode_payload SHA256 (change (side p index)) = Some w →
  expected_revisions (change (side p index)) = [r0; r1] →
  (ws = true → newer (wallet (wallet_at r index)) (wallet_revision (wallet_at r index)) (revision_value r0)) →
  (bs = true → newer (bank (wallet_at r index)) (bank_revision (wallet_at r index)) (revision_value r1)) →
  currency_command_encode_result (stale_current r index ws bs) = Some cur →
  coin_transfer_command_decode_stale_result SHA256 p stage (stale_bytes index ws bs cur)
  = Some (StaleResult index ws bs (stale_current r index ws bs)).
Proof.
  intros T S D R Nw Nb E. pose proof (proj1 (stale_endpoint_spec _ _ _ _ _) S) as (I & _).
  assert (CurrencyCommand.result_typed (stale_current r index ws bs)) as Ts.
  { destruct (T index I) as [[] [] ? ?].
    constructor; cbn; [destruct ws|destruct bs|destruct ws|destruct bs]; try done;
      by (split; [done|repeat constructor]). }
  pose proof (length_wallet_bytes _ _ E) as L.
  unfold coin_transfer_command_decode_stale_result.
  assert (length (stale_bytes index ws bs cur) = COIN_TRANSFER_STALE_RESULT_BYTES) as ->
    by (unfold stale_bytes; rewrite length_app, L; done).
  rewrite S, Nat.eqb_refl. cbn [negb].
  assert (slice CURRENCY_RESULT_PAYLOAD_BYTES (stale_bytes index ws bs cur) 3 = cur) as ->
    by (unfold slice, stale_bytes; cbn [app drop]; apply take_ge; rewrite L; done).
  change (byte_of (stale_bytes index ws bs cur) 0) with 1.
  change (byte_of (stale_bytes index ws bs cur) 1) with (of_byte (to_byte (Z.of_nat index))).
  change (byte_of (stale_bytes index ws bs cur) 2) with (of_byte (to_byte (stale_flags ws bs))).
  rewrite (of_to_byte (Z.of_nat index)) by (unfold fits; lia).
  rewrite (of_to_byte (stale_flags ws bs)) by (by destruct ws, bs).
  rewrite !Z.eqb_refl. cbn [andb negb].
  rewrite (CurrencyCommand.decode_encoded_result _ _ Ts E). fold (side p index). rewrite D, R.
  assert (ws || side_absent (wallet (stale_current r index ws bs))
    (wallet_revision (stale_current r index ws bs)) = true) as -> by by destruct ws.
  assert (bs || side_absent (bank (stale_current r index ws bs))
    (bank_revision (stale_current r index ws bs)) = true) as -> by by destruct bs.
  assert (negb ws || side_newer (wallet (stale_current r index ws bs))
    (wallet_revision (stale_current r index ws bs)) (revision_value r0) = true) as ->
    by (destruct ws; [by apply side_newer_spec, Nw|done]).
  assert (negb bs || side_newer (bank (stale_current r index ws bs))
    (bank_revision (stale_current r index ws bs)) (revision_value r1) = true) as ->
    by (destruct bs; [by apply side_newer_spec, Nb|done]).
  done.
Qed.

(** The result of a refusal tells the game exactly what was stale, and only that.  What
    is decoded belongs to the stage the refusal was reported at, which names one side only
    and a wallet; every part that stage calls stale is newer than the command expected and
    holds amounts of coins a player can hold, every other part is zero; and those bytes
    are what the current wallet and bank are encoded to.  What is encoded decodes to the
    stale parts whenever they are newer than the command expected. *)
Theorem coin_stale_result_exact SHA256 p stage :
  (∀ out s, coin_transfer_command_decode_stale_result SHA256 p stage out = Some s →
    let e := change (side p (endpoint_index s)) in
    (endpoint_index s < 2)%nat ∧ wallet_stale s || bank_stale s = true
    ∧ stage = Z.shiftl (stale_flags (wallet_stale s) (bank_stale s)) (2 * Z.of_nat (endpoint_index s))
    ∧ command_type e = critical_command_type.account_bank
    ∧ (∃ r0 r1, expected_revisions e = [r0; r1]
       ∧ (if wallet_stale s then newer (wallet (current s)) (wallet_revision (current s)) (revision_value r0)
          else absent (wallet (current s)) (wallet_revision (current s)))
       ∧ (if bank_stale s then newer (bank (current s)) (bank_revision (current s)) (revision_value r1)
          else absent (bank (current s)) (bank_revision (current s))))
    ∧ ∃ bs, currency_command_encode_result (current s) = Some bs
      ∧ out = stale_bytes (endpoint_index s) (wallet_stale s) (bank_stale s) bs)
  ∧ ∀ r out index ws bs w r0 r1,
    (∀ i, (i < 2)%nat → CurrencyCommand.result_typed (wallet_at r i)) →
    stale_currency_endpoint p stage = Some (index, ws, bs) →
    currency_command_decode_payload SHA256 (change (side p index)) = Some w →
    expected_revisions (change (side p index)) = [r0; r1] →
    (ws = true → newer (wallet (wallet_at r index)) (wallet_revision (wallet_at r index)) (revision_value r0)) →
    (bs = true → newer (bank (wallet_at r index)) (bank_revision (wallet_at r index)) (revision_value r1)) →
    coin_transfer_command_encode_stale_result p r stage = Some out →
    coin_transfer_command_decode_stale_result SHA256 p stage out
    = Some (StaleResult index ws bs (stale_current r index ws bs)).
Proof.
  split; [apply decode_stale_sound|]. intros r out index ws bs w r0 r1 T S D R Nw Nb E.
  apply encode_stale_spec in E as (i & w' & b' & cur & S' & E & ->).
  rewrite S in S'. apply (inj Some) in S'. injection S' as <- <- <-. by eapply decode_stale_bytes.
Qed.

(** ** The destination after the source *)

(** The revision an owner has once the source's transfer is done. *)
Definition fence_after (one : item_transfer_payload) (r : item_transfer_result)
    (owner : item_owner_identity) (revision : Z) : Z :=
  if item_owner_identity_equal owner (from_owner one) then from_owner_revision r
  else if item_owner_identity_equal owner (to_owner one) then to_owner_revision r
  else revision.

(** The two commands agree about an owner they share. *)
Definition fences_agree (one : item_transfer_payload) (owner : item_owner_identity) (revision : Z) : Prop :=
  if item_owner_identity_equal owner (from_owner one) then revision = expected_from_revision one
  else if item_owner_identity_equal owner (to_owner one) then revision = expected_to_revision one
  else True.

Lemma advance_spec one r owner revision next :
  advance one r owner revision = Some next ↔
  next = fence_after one r owner revision ∧ fences_agree one owner revision.
Proof.
  unfold advance, fence_after, fences_agree.
  destruct (item_owner_identity_equal owner (from_owner one)).
  - destruct (Z.eqb_spec revision (expected_from_revision one)); cbn [negb]; naive_solver.
  - destruct (item_owner_identity_equal owner (to_owner one)); [|naive_solver].
    destruct (Z.eqb_spec revision (expected_to_revision one)); cbn [negb]; naive_solver.
Qed.

Definition followed (one two : item_transfer_payload) (r : item_transfer_result) : item_transfer_payload :=
  with_owner_revisions two (fence_after one r (from_owner two) (expected_from_revision two))
    (fence_after one r (to_owner two) (expected_to_revision two)).

Lemma currency_decode_type SHA256 c w :
  currency_command_decode_payload SHA256 c = Some w → command_type c = critical_command_type.account_bank.
Proof.
  unfold currency_command_decode_payload. destruct (_ && _ && _) eqn:G; [|done]. intros _.
  rewrite !andb_true_iff, !Z.eqb_eq in G. apply G.
Qed.

(** A wallet's command names its player and its account, each with what is expected. *)
Lemma currency_decode_names SHA256 c w :
  currency_command_decode_payload SHA256 c = Some w →
  ∃ k0 k1 r0 r1, keys c = [k0; k1] ∧ expected_revisions c = [r0; r1]
  ∧ revision_key r0 = k0 ∧ revision_key r1 = k1.
Proof.
  intros D. destruct (CurrencyCommand.decode_facts _ _ _ D) as (len & k & F).
  destruct F as (_ & _ & _ & _ & _ & _ & _ & _ & _ & _ & _ & Ks). unfold CurrencyCommand.keys_are in Ks.
  destruct (keys c) as [|k0 [|k1 []]]; try done. destruct (expected_revisions c) as [|r0 [|r1 []]]; try done.
  rewrite !andb_true_iff, !key_equal_spec in Ks. destruct Ks as [[[-> ->] R0] R1].
  by exists (EntityKey critical_entity_type.player (CurrencyCommand.pid w)), k, r0, r1.
Qed.

(** Only the keys of the expected revisions matter to the decoder. *)
Lemma currency_decode_fenced SHA256 c r0 r1 v :
  expected_revisions c = [r0; r1] →
  currency_command_decode_payload SHA256 (with_revisions c [r0; ExpectedRevision (revision_key r1) v])
  = currency_command_decode_payload SHA256 c.
Proof.
  intros R. unfold currency_command_decode_payload, CurrencyCommand.keys_are, with_revisions.
  cbn [command_type payload_version payload keys expected_revisions]. by rewrite R.
Qed.

Lemma wallet_follows SHA256 first second r one two c :
  currency_command_decode_payload SHA256 first = Some one →
  currency_command_decode_payload SHA256 second = Some two →
  match expected_revisions first, expected_revisions second with
  | [_; bank_first], [wallet_second; bank_second] =>
      match keys first !! 1%nat, keys second !! 1%nat with
      | Some k, Some k' =>
          if critical_entity_key_equal k k' then
            ensure? revision_value bank_first =? revision_value bank_second in
            Some (with_revisions second
                    [wallet_second;
                     ExpectedRevision (revision_key bank_second) (bank_revision (wallet_at r 0))])
          else Some second
      | _, _ => None
      end
  | _, _ => None
  end = Some c →
  ∃ wallet_fence bank_fence,
    currency_command_decode_payload SHA256 c = Some two ∧ keys c = keys second
    ∧ expected_revisions second = [wallet_fence; bank_fence]
    ∧ expected_revisions c = [wallet_fence;
        ExpectedRevision (revision_key bank_fence)
          (if bool_decide (keys first !! 1%nat = keys second !! 1%nat)
           then bank_revision (wallet_at r 0) else revision_value bank_fence)].
Proof.
  intros D1 D2. destruct (currency_decode_names _ _ _ D1) as (k0 & k1 & r0 & r1 & K & R & _).
  destruct (currency_decode_names _ _ _ D2) as (k0' & k1' & r0' & r1' & K' & R' & _).
  rewrite K, K', R, R'. cbn [lookup list_lookup]. intros F. exists r0', r1'.
  destruct (critical_entity_key_equal k1 k1') eqn:Q.
  - apply key_equal_spec in Q as ->. destruct (_ =? _); [|done]. cbn [negb] in F. apply (inj Some) in F as <-.
    rewrite bool_decide_true by done. split_and!; [by rewrite (currency_decode_fenced _ _ _ _ _ R')|done..].
  - apply (inj Some) in F as <-. rewrite bool_decide_false.
    + split_and!; [done..|]. rewrite R'. by destruct r1'.
    + intros E. injection E as ->. by rewrite (proj2 (key_equal_spec k1' k1') eq_refl) in Q.
Qed.

(** The destination's command is fenced against the state the source leaves.  When
    both sides are wallets it is the same command, but that it expects the revision of the
    bank the source reports if both use one account; when both are piles it carries the
    same transfer, which the decoder accepts, but that it expects of every owner the two
    share the revision the source reports, and it is made only if the two agreed about
    those owners before; when the sides are of different kinds it is the same command. *)
Theorem coin_destination_follows SHA256 p r c :
  coin_transfer_command_destination_after_source SHA256 p r = Some c →
  let first := change (source p) in
  let second := change (destination p) in
  (command_type first ≠ command_type second → c = second)
  ∧ (∀ one two, currency_command_decode_payload SHA256 first = Some one →
      currency_command_decode_payload SHA256 second = Some two →
      ∃ wallet_fence bank_fence,
        currency_command_decode_payload SHA256 c = Some two ∧ keys c = keys second
        ∧ expected_revisions second = [wallet_fence; bank_fence]
        ∧ expected_revisions c = [wallet_fence;
            ExpectedRevision (revision_key bank_fence)
              (if bool_decide (keys first !! 1%nat = keys second !! 1%nat)
               then bank_revision (wallet_at r 0) else revision_value bank_fence)])
  ∧ ∀ one two, item_transfer_command_decode_payload SHA256 first = Some one →
      item_transfer_command_decode_payload SHA256 second = Some two →
      transfer_typed (followed one two (pile_at r 0)) →
      item_transfer_command_decode_payload SHA256 c = Some (canonical (followed one two (pile_at r 0)))
      ∧ fences_agree one (from_owner two) (expected_from_revision two)
      ∧ fences_agree one (to_owner two) (expected_to_revision two).
Proof.
  intros F first second. unfold coin_transfer_command_destination_after_source in F.
  fold first second in F. destruct (Z.eqb_spec (command_type first) (command_type second)) as [T|T]; cbn [negb] in F.
  2:{ apply (inj Some) in F as <-. split; [done|].
      split; intros one two D1 D2; exfalso; apply T.
      - by rewrite (currency_decode_type _ _ _ D1), (currency_decode_type _ _ _ D2).
      - by rewrite (proj1 (transfer_decode_facts _ _ _ D1)), (proj1 (transfer_decode_facts _ _ _ D2)). }
  split; [done|]. destruct (Z.eqb_spec (command_type first) critical_command_type.account_bank) as [A|A].
  - split; intros one two D1 D2.
    + by apply (wallet_follows _ _ _ r _ _ _ D1 D2).
    + exfalso. pose proof (proj1 (transfer_decode_facts _ _ _ D1)) as X. by rewrite A in X.
  - split; intros one two D1 D2; [by destruct A; apply (currency_decode_type _ _ _ D1)|].
    rewrite D1, D2 in F. destruct (advance one _ (from_owner two) _) as [from|] eqn:Af; [|done].
    destruct (advance one _ (to_owner two) _) as [to|] eqn:At; [|done].
    apply advance_spec in Af as [-> Af], At as [-> At].
    fold (followed one two (pile_at r 0)) in F.
    destruct (item_transfer_command_build _ _ _ _ _) as [built|] eqn:B; [|done].
    apply (inj Some) in F as <-. intros Ty. split_and!; [|done..].
    by apply (build_decodes _ _ _ _ _ _ _ B).
Qed.

(** ** Witnesses *)

(** Three copper coins leave a wallet of five and become a pile in a room. *)
Definition sample_coins : player_item_snapshot :=
  ItemSnapshot (-1) 0 500 0 3 ITEM_MONEY 0 [] [] [] [] [3; 0; 0; 0; 0; 0; 0; 0] (replicate 6 0)
    1 0 0 0 0 1 0 3 100 0 (replicate 5 0) (replicate 4 (0, 0)) [] [].

Definition sample_pile : item_transfer_payload :=
  TransferPayload (OwnerIdentity item_owner_type.system 0 0) (OwnerIdentity item_owner_type.room 3000 0)
    item_transfer_reason.creation 0 0 8 500 500 0 0 false
    [TransferEntry 500 500 0 ITEM_TRANSFER_ABSENT_REVISION 3 item_custody_state.absent]
    (match player_item_snapshot_list_encode [sample_coins] with Ok bs => bs | Err _ => [] end)
    no_corpse no_collector.

Definition sample_wallet : currency_command_payload :=
  CurrencyCommand.CurrencyPayload 7 1 CurrencyCommand.currency_reason_type.coin_transfer 0
    CurrencyCommand.sample_name [-3; 0; 0; 0] [0; 0; 0; 0].

Definition no_command : critical_command := CriticalCommand 0 [] 0 0 0 0 0 [] [] [].

Definition sample_coin_payload : coin_transfer_payload := Eval vm_compute in
  CoinPayload
    (CoinEndpoint [5; 0; 0; 0] [2; 0; 0; 0]
       (default no_command
          (CurrencyCommand.currency_command_build sample_sha sample_operation sample_wallet 3 4 1 1)))
    (CoinEndpoint [0; 0; 0; 0] [3; 0; 0; 0]
       (default no_command (item_transfer_command_build sample_sha sample_operation sample_pile 1 1))).

Lemma sample_change_typed c :
  forallb (λ k, (0 <=? key_type k) && (key_type k <? 2 ^ 8) && (0 <=? key_id k) && (key_id k <? 2 ^ 64)) (keys c)
  && forallb (λ r, (0 <=? key_type (revision_key r)) && (key_type (revision_key r) <? 2 ^ 8)
                   && (0 <=? key_id (revision_key r)) && (key_id (revision_key r) <? 2 ^ 64)
                   && (0 <=? revision_value r) && (revision_value r <? 2 ^ 64)) (expected_revisions c) = true →
  u32 (schema_version c) → length (operation_id c) = CRITICAL_COMMAND_ID_BYTES → u16 (command_type c) →
  u16 (payload_version c) → u16 (source_site c) → u8 (deadline_class c) → u64 (accepted_at_usec c) →
  command_typed c.
Proof.
  intros F. rewrite andb_true_iff, !forallb_forall in F. destruct F as [K R].
  intros. constructor; try done; apply Forall_forall; intros x X%list_elem_of_In.
  - specialize (K x X). rewrite !andb_true_iff, !Z.leb_le, !Z.ltb_lt in K. unfold key_typed, fits. lia.
  - specialize (R x X). rewrite !andb_true_iff, !Z.leb_le, !Z.ltb_lt in R. unfold revision_typed, key_typed, fits. lia.
Qed.

Lemma sample_coin_typed : coin_typed sample_coin_payload.
Proof.
  split; constructor; [| |apply sample_change_typed; by vm_compute| | |apply sample_change_typed; by vm_compute];
    (split; [done|]; by repeat (apply Forall_cons; split; [done|])).
Qed.

Lemma coin_transfer_conserves_witness :
  ∃ from to amount, 0 < amount ∧ from ≠ to
  ∧ moves sample_sha (source sample_coin_payload) from (- amount)
  ∧ moves sample_sha (destination sample_coin_payload) to amount.
Proof.
  destruct (coin_transfer_conserves sample_sha sample_coin_payload sample_coin_typed
    ltac:(by vm_compute)) as (from & to & amount & A & N & S & D & _).
  by exists from, to, amount.
Defined.

Definition sample_coin_command : critical_command := Eval vm_compute in
  match coin_transfer_command_build sample_sha sample_operation sample_coin_payload 1 1 with
  | Ok c => c | Err _ => no_command end.

Lemma sample_sha_length x : length (sample_sha x) = 32%nat.
Proof. done. Qed.

Lemma coin_transfer_durable_roundtrip_witness :
  ∃ bytes,
    critical_command_encode (accepted_at 99 sample_coin_command) = Ok bytes
    ∧ critical_command_decode bytes = Ok (accepted_at 99 sample_coin_command)
    ∧ coin_transfer_command_decode_payload sample_sha (accepted_at 99 sample_coin_command)
      = Some (stamped sample_sha sample_operation 1 1 sample_coin_payload).
Proof.
  destruct (coin_transfer_durable_roundtrip sample_sha sample_operation 1 1 sample_coin_payload 99
    sample_coin_command sample_sha_length ltac:(by vm_compute) sample_coin_typed eq_refl ltac:(by split)
    ltac:(done)) as (bytes & E & D & P & _).
  exists bytes. split; [exact E|]. split; [exact D|exact P].
Defined.

Lemma coin_transfer_decode_sound_witness :
  coin_typed (stamped sample_sha sample_operation 1 1 sample_coin_payload).
Proof.
  apply (coin_transfer_decode_sound sample_sha (accepted_at 99 sample_coin_command)
    (stamped sample_sha sample_operation 1 1 sample_coin_payload) sample_sha_length
    ltac:(by vm_compute)).
Defined.

(** Two players of one account: the bank's revision moves from 4 to 9 between them. *)
Definition sample_two_wallets : coin_transfer_payload := Eval vm_compute in
  let wallet pid delta :=
    default no_command
      (CurrencyCommand.currency_command_build sample_sha sample_operation
         (CurrencyCommand.CurrencyPayload pid 1 CurrencyCommand.currency_reason_type.coin_transfer 0
            CurrencyCommand.sample_name [delta; 0; 0; 0] [0; 0; 0; 0]) 3 4 1 1) in
  CoinPayload (CoinEndpoint [5; 0; 0; 0] [2; 0; 0; 0] (wallet 7 (-3)))
    (CoinEndpoint [1; 0; 0; 0] [4; 0; 0; 0] (wallet 8 3)).

Definition sample_bank_moved : coin_transfer_result := CoinResult [CurrencyResult [] [] 4 9] [].

Definition sample_followed : critical_command := Eval vm_compute in
  default no_command
    (coin_transfer_command_destination_after_source sample_sha sample_two_wallets sample_bank_moved).

Lemma coin_destination_follows_witness :
  ∃ wallet_fence bank_key, expected_revisions sample_followed = [wallet_fence; ExpectedRevision bank_key 9].
Proof.
  destruct (coin_destination_follows sample_sha sample_two_wallets sample_bank_moved sample_followed
    ltac:(by vm_compute)) as (_ & W & _).
  destruct (W (default sample_wallet (currency_command_decode_payload sample_sha (change (source sample_two_wallets))))
    (default sample_wallet (currency_command_decode_payload sample_sha (change (destination sample_two_wallets))))
    ltac:(by vm_compute) ltac:(by vm_compute)) as (w & b & _ & _ & _ & E).
  exists w, (revision_key b). exact E.
Defined.
