(* ===== verification/CollectorCodec.v ===== *)
(** * Collector codec

    Models [economy/collector_codec.h] and [.c]: the fixed-width form of a collector
    record and of the catalog of all records, whose listings increase strictly below
    the next one.

    A pointer into a buffer is an offset; the encoder's array of 154 bytes with its
    offset is a pair.  [memory] tells whether the single [reserve] of the catalog
    functions succeeds. *)

From S2P Require Import Prelude Snapshot CollectorPolicy.

Definition catalog_magic : list byte := [Byte.x44; Byte.x43; Byte.x41; Byte.x54].
Definition catalog_codec_version : Z := 1.
Definition catalog_header_bytes : nat := 28.
Definition encoded_record_bytes : nat := 154.
Definition catalog_max_records : Z := 262144.

Record catalog := Catalog {
  catalog_revision : Z;
  next_listing : Z;
  records : list record;
}.

(** [codec_result] without [ok], which is [Ok]. *)
Inductive codec_result :=
| codec_invalid | codec_malformed | codec_unsupported_version | codec_too_many_records
| codec_allocation_failure.

#[export] Instance catalog_eq_dec : EqDecision catalog.
Proof. solve_decision. Defined.
#[export] Instance collector_codec_result_eq_dec : EqDecision codec_result.
Proof. solve_decision. Defined.

(** ** Fields *)

(** The array and the offset of the next field. *)
Definition put (sz : nat) (value : Z) (s : list byte * nat) : option (list byte * nat) :=
  let '(output, offset) := s in
  if (length output <? offset)%nat || (length output - offset <? sz)%nat then None
  else Some (put_bytes output offset (le_split sz value), (offset + sz)%nat).

Definition hexadecimal_value (value : byte) : Z :=
  let v := of_byte value in
  if (48 <=? v) && (v <=? 57) then v - 48
  else if (97 <=? v) && (v <=? 102) then v - 97 + 10 else -1.

Definition hexadecimal_digits : list byte :=
  [Byte.x30; Byte.x31; Byte.x32; Byte.x33; Byte.x34; Byte.x35; Byte.x36; Byte.x37;
   Byte.x38; Byte.x39; Byte.x61; Byte.x62; Byte.x63; Byte.x64; Byte.x65; Byte.x66].
Definition digit (v : Z) : byte := default Byte.x00 (hexadecimal_digits !! Z.to_nat v).

(** The 32 characters, two at a time. *)
Fixpoint put_operation (operation : list byte) (s : list byte * nat)
  : option (list byte * nat) :=
  match operation with
  | high :: low :: rest =>
      ensure? negb ((hexadecimal_value high <? 0) || (hexadecimal_value low <? 0)) in
      let? s := put 1 (Z.lor (Z.shiftl (hexadecimal_value high) 4) (hexadecimal_value low)) s in
      put_operation rest s
  | _ => Some s
  end.

Fixpoint get_operation (bytes : nat) (input : list byte) (offset : nat)
  : option (list byte * nat) :=
  match bytes with
  | O => Some ([], offset)
  | S bytes =>
      let? (value, offset) := read_le 1 input offset in
      let? (rest, offset) := get_operation bytes input offset in
      Some (digit (Z.shiftr value 4) :: digit (Z.land value 15) :: rest, offset)
  end.

(** ** Catalogs *)

Fixpoint listings_increase (rs : list record) : bool :=
  match rs with
  | a :: (b :: _) as rest => negb (listing b <=? listing a) && listings_increase rest
  | _ => true
  end.

Definition listings_are_canonical (rs : list record) (next : Z) : bool :=
  nz next && forallb (λ e, negb (next <=? listing e)) rs && listings_increase rs.

Definition valid_catalog (c : catalog) : bool :=
  (vsize (records c) <=? catalog_max_records)
  && listings_are_canonical (records c) (next_listing c)
  && forallb valid_record (records c).

(** ** Records *)

Definition bool_byte (b : bool) : Z := if b then 1 else 0.

Definition put_record (e : record) (s : list byte * nat) : option (list byte * nat) :=
  let p := policy e in
  let? s := put 2 (version e) s in
  let? s := put 8 (listing e) s in
  let? s := put_operation (death_operation e) s in
  let? s := put 4 (beneficiary e) s in
  let? s := put 8 (uid e) s in
  let? s := put 8 (death_time e) s in
  let? s := put 8 (collect_at e) s in
  let? s := put 8 (sale_at e) s in
  let? s := put 8 (available_at e) s in
  let? s := put 8 (expires_at e) s in
  let? s := put 1 (bool_byte (holding_paused e)) s in
  let? s := put 8 (paused_at e) s in
  let? s := put 8 (revision e) s in
  let? s := put 8 (item_revision e) s in
  let? s := put 8 (price_value e) s in
  let? s := put 1 (bool_byte (enabled p)) s in
  let? s := put 8 (collection_delay p) s in
  let? s := put 8 (sale_delay p) s in
  let? s := put 8 (holding_duration p) s in
  let? s := put 8 (price_percent p) s in
  let? s := put 8 (minimum_value p) s in
  let? s := put 1 (status e) s in
  put 1 (closed_reason e) s.

Definition record_encode (e : record) : res codec_result (list byte) :=
  ensure version e =? record_version else codec_unsupported_version in
  ensure valid_record e else codec_invalid in
  match put_record e (replicate encoded_record_bytes Byte.x00, 0%nat) with
  | Some (candidate, offset) =>
      ensure (offset =? length candidate)%nat else codec_invalid in
      Ok candidate
  | None => Err codec_invalid
  end.

(** The fields after the version, and the offset after them; [None] is [malformed]. *)
Definition get_record (version : Z) (input : list byte) (offset : nat)
  : option (record * nat) :=
  let? (listing, offset) := read_le 8 input offset in
  let? (operation, offset) := get_operation 16 input offset in
  let? (beneficiary, offset) := read_le 4 input offset in
  let? (uid, offset) := read_le 8 input offset in
  let? (death_time, offset) := read_le 8 input offset in
  let? (collect_at, offset) := read_le 8 input offset in
  let? (sale_at, offset) := read_le 8 input offset in
  let? (available_at, offset) := read_le 8 input offset in
  let? (expires_at, offset) := read_le 8 input offset in
  let? (paused, offset) := read_le 1 input offset in
  ensure? negb (1 <? paused) in
  let? (paused_at, offset) := read_le 8 input offset in
  let? (revision, offset) := read_le 8 input offset in
  let? (item_revision, offset) := read_le 8 input offset in
  let? (price_value, offset) := read_le 8 input offset in
  let? (enabled, offset) := read_le 1 input offset in
  ensure? negb (1 <? enabled) in
  let? (collection_delay, offset) := read_le 8 input offset in
  let? (sale_delay, offset) := read_le 8 input offset in
  let? (holding_duration, offset) := read_le 8 input offset in
  let? (price_percent, offset) := read_le 8 input offset in
  let? (minimum_value, offset) := read_le 8 input offset in
  let? (status, offset) := read_le 1 input offset in
  let? (closed_reason, offset) := read_le 1 input offset in
  Some (CollectorRecord version listing operation Byte.x00 beneficiary uid death_time
          collect_at sale_at available_at expires_at (nz paused) paused_at revision
          item_revision price_value
          (Rules (nz enabled) collection_delay sale_delay holding_duration price_percent
             minimum_value)
          status closed_reason, offset).

Definition record_decode (encoded : list byte) : res codec_result record :=
  ensure (length encoded =? encoded_record_bytes)%nat else codec_malformed in
  match read_le 2 encoded 0 with
  | None => Err codec_malformed
  | Some (version, offset) =>
      ensure version =? record_version else codec_unsupported_version in
      match get_record version encoded offset with
      | None => Err codec_malformed
      | Some (candidate, offset) =>
          ensure (offset =? length encoded)%nat else codec_malformed in
          ensure valid_record candidate else codec_invalid in
          Ok candidate
      end
  end.

(** ** Whole catalogs *)

Fixpoint encode_records (candidate : list byte) (rs : list record)
  : res codec_result (list byte) :=
  match rs with
  | [] => Ok candidate
  | e :: rs =>
      let* record_bytes := record_encode e in
      encode_records (candidate ++ record_bytes) rs
  end.

Definition catalog_encode (memory : bool) (c : catalog) : res codec_result (list byte) :=
  ensure vsize (records c) <=? catalog_max_records else codec_too_many_records in
  ensure valid_catalog c else codec_invalid in
  ensure memory else codec_allocation_failure in
  let candidate := catalog_magic in
  let candidate := append_le 2 candidate catalog_codec_version in
  let candidate := append_le 2 candidate 0 in
  let candidate := append_le 8 candidate (catalog_revision c) in
  let candidate := append_le 8 candidate (next_listing c) in
  let candidate := append_le 4 candidate (vsize (records c)) in
  encode_records candidate (records c).

(** One turn of the loop: the record at the cursor. *)
Definition record_at (input : list byte) (offset : nat) : res codec_result (record * nat) :=
  let* e := record_decode (slice encoded_record_bytes input offset) in
  Ok (e, (offset + encoded_record_bytes)%nat).

(** The reserved field, the revision, the cursor and the count. *)
Definition get_header (input : list byte) (offset : nat) : option (Z * Z * Z * nat) :=
  let? (reserved, offset) := read_le 2 input offset in
  ensure? negb (nz reserved) in
  let? (revision, offset) := read_le 8 input offset in
  let? (next, offset) := read_le 8 input offset in
  let? (count, offset) := read_le 4 input offset in
  Some (revision, next, count, offset).

Definition catalog_decode (memory : bool) (encoded : list byte) : res codec_result catalog :=
  ensure negb (length encoded <? catalog_header_bytes)%nat
         && bool_decide (take 4 encoded = catalog_magic) else codec_malformed in
  match read_le 2 encoded 4 with
  | None => Err codec_malformed
  | Some (version, offset) =>
      ensure version =? catalog_codec_version else codec_unsupported_version in
      match get_header encoded offset with
      | None => Err codec_malformed
      | Some (revision, next, count, offset) =>
          ensure count <=? catalog_max_records else codec_too_many_records in
          ensure (length encoded
                  =? catalog_header_bytes + Z.to_nat count * encoded_record_bytes)%nat
            else codec_malformed in
          ensure memory else codec_allocation_failure in
          let* (rs, offset) := decode_many (record_at encoded) (Z.to_nat count) offset in
          let candidate := Catalog revision next rs in
          ensure (offset =? length encoded)%nat && valid_catalog candidate
            else codec_invalid in
          Ok candidate
      end
  end.

(** ** Lemmas: hexadecimal operations *)

Lemma hexadecimal_digit c : hexadecimal c = true →
  0 <= hexadecimal_value c < 16 ∧ digit (hexadecimal_value c) = c.
Proof. destruct c; vm_compute; intros H; by repeat split. Qed.

Lemma nibbles h l : 0 <= h < 16 → 0 <= l < 16 →
  u8 (Z.lor (Z.shiftl h 4) l) ∧ Z.shiftr (Z.lor (Z.shiftl h 4) l) 4 = h
  ∧ Z.land (Z.lor (Z.shiftl h 4) l) 15 = l.
Proof.
  intros H L.
  assert (forallb (λ h, forallb (λ l, let v := Z.lor (Z.shiftl h 4) l in
    (0 <=? v) && (v <? 2 ^ 8) && (Z.shiftr v 4 =? h) && (Z.land v 15 =? l)) (seqZ 0 16)) (seqZ 0 16)
    = true) as F by (vm_compute; reflexivity).
  assert (∀ x, 0 <= x < 16 → x ∈ seqZ 0 16) as I by (intros; by apply elem_of_seqZ).
  rewrite forallb_forall in F. specialize (F h). rewrite forallb_forall in F.
  specialize (F (proj1 (list_elem_of_In _ _) (I _ H)) l (proj1 (list_elem_of_In _ _) (I _ L))).
  cbv zeta in F. bool_prop. split_and!; [split; lia|done|done].
Qed.

Lemma digit_nibbles b :
  hexadecimal_value (digit (Z.shiftr (of_byte b) 4)) = Z.shiftr (of_byte b) 4
  ∧ hexadecimal_value (digit (Z.land (of_byte b) 15)) = Z.land (of_byte b) 15
  ∧ Z.lor (Z.shiftl (Z.shiftr (of_byte b) 4) 4) (Z.land (of_byte b) 15) = of_byte b
  ∧ (Z.shiftr (of_byte b) 4 <? 0) || (Z.land (of_byte b) 15 <? 0) = false.
Proof. destruct b; by vm_compute. Qed.

(** The 16 bytes of an operation. *)
Fixpoint operation_bytes (operation : list byte) : list byte :=
  match operation with
  | high :: low :: rest =>
      le_split 1 (Z.lor (Z.shiftl (hexadecimal_value high) 4) (hexadecimal_value low))
      ++ operation_bytes rest
  | _ => []
  end.

Lemma pairs_ind (P : list byte → Prop) n l :
  P [] → (∀ a b l, P l → P (a :: b :: l)) → length l = (2 * n)%nat → P l.
Proof.
  intros P0 P2. revert l. induction n as [|n IH]; intros [|a [|b l]] L; try done; simpl in L; [lia|].
  apply P2, IH. lia.
Qed.

Lemma length_operation_bytes n operation : length operation = (2 * n)%nat →
  length (operation_bytes operation) = n.
Proof.
  revert operation. induction n as [|n IH]; intros [|a [|b l]] L; try done; simpl in L; [lia|].
  cbn [operation_bytes]. rewrite length_app, length_le_split, IH; lia.
Qed.

Lemma get_operation_at n operation input off rest :
  length operation = (2 * n)%nat → forallb hexadecimal operation = true →
  at_offset input off (operation_bytes operation ++ rest) →
  get_operation n input off = Some (operation, (off + n)%nat) ∧ at_offset input (off + n) rest.
Proof.
  revert operation off. induction n as [|n IH]; intros [|a [|b l]] off L X A; try done; simpl in L; try lia.
  - by rewrite Nat.add_0_r.
  - simpl in X. rewrite !andb_true_iff in X. destruct X as (Xa & Xb & X).
    destruct (hexadecimal_digit a Xa) as [Va Da], (hexadecimal_digit b Xb) as [Vb Db].
    destruct (nibbles _ _ Va Vb) as (U & Hi & Lo).
    cbn [operation_bytes] in A. rewrite <- (assoc_L (++)) in A.
    destruct (read_le_at 1 _ _ _ _ U A) as [R A1]. cbn [get_operation]. rewrite R.
    destruct (IH l (off + 1)%nat ltac:(lia) X A1) as [-> A2]. rewrite Hi, Lo, Da, Db.
    split; [do 2 f_equal; lia|]. by replace (off + S n)%nat with (off + 1 + n)%nat by lia.
Qed.

Lemma get_operation_consumed n input off operation off' out :
  get_operation n input off = Some (operation, off') → consumed input off out →
  length operation = (2 * n)%nat ∧ consumed input off' (out ++ operation_bytes operation).
Proof.
  revert off operation off' out. induction n as [|n IH]; intros off operation off' out H C.
  - simpl in H. simplify_eq. split; [done|]. by rewrite app_nil_r.
  - cbn [get_operation] in H. destruct (read_le 1 input off) as [[v o]|] eqn:R; [|done].
    destruct (get_operation n input o) as [[rest o']|] eqn:G; [|done]. simplify_eq.
    destruct (read_le_consumed _ _ _ _ _ _ R C) as (-> & F & C1).
    destruct (IH _ _ _ _ G C1) as [L C2]. split; [simpl; lia|].
    cbn [operation_bytes]. destruct (digit_nibbles (to_byte v)) as (H1 & H2 & H3 & _).
    rewrite of_to_byte in H1, H2, H3 by done. rewrite H1, H2, H3.
    unfold append_le in C2. by rewrite <- (assoc_L (++)) in C2.
Qed.

(** ** Lemmas: writing a record *)

(** The array starts with the bytes written, and the offset is after them. *)
Definition written (s : list byte * nat) (bs : list byte) : Prop :=
  length s.1 = encoded_record_bytes ∧ s.2 = length bs ∧ take (length bs) s.1 = bs.

Lemma put_written sz v s bs :
  written s bs → (length bs + sz <= encoded_record_bytes)%nat →
  ∃ s', put sz v s = Some s' ∧ written s' (bs ++ le_split sz v).
Proof.
  destruct s as [out off]. intros (L & E & T) H. simpl in *. subst off. unfold put.
  rewrite L, !(proj2 (Nat.ltb_ge _ _)) by lia. eexists. split; [done|].
  unfold written. simpl. rewrite length_put_bytes, length_app, length_le_split.
  split_and!; [done|done|]. apply list_eq. intros i. rewrite lookup_take, lookup_app.
  case_decide as Hi.
  - destruct (decide (i < length bs)%nat) as [Hb|Hb].
    + rewrite lookup_put_other by lia.
      assert (bs !! i = out !! i) as -> by (rewrite <- T at 1; by apply lookup_take_lt).
      destruct (lookup_lt_is_Some_2 out i ltac:(lia)) as [x Hx]. by rewrite Hx.
    + rewrite (proj2 (lookup_ge_None bs _)) by lia. unfold put_bytes.
      by rewrite list_lookup_inserts by (rewrite ?length_le_split; lia).
  - rewrite (proj2 (lookup_ge_None bs _)) by lia. symmetry. apply lookup_ge_None.
    rewrite length_le_split. lia.
Qed.

Lemma put_operation_written n operation s bs :
  length operation = (2 * n)%nat → forallb hexadecimal operation = true →
  written s bs → (length bs + n <= encoded_record_bytes)%nat →
  ∃ s', put_operation operation s = Some s' ∧ written s' (bs ++ operation_bytes operation).
Proof.
  revert operation s bs. induction n as [|n IH]; intros [|a [|b l]] s bs L X W B; try done; simpl in L; try lia.
  - exists s. by rewrite app_nil_r.
  - simpl in X. rewrite !andb_true_iff in X. destruct X as (Xa & Xb & X).
    destruct (hexadecimal_digit a Xa) as [Va _], (hexadecimal_digit b Xb) as [Vb _].
    cbn [put_operation operation_bytes]. rewrite !(proj2 (Z.ltb_ge _ _)) by lia. cbn [orb negb].
    destruct (put_written 1 (Z.lor (Z.shiftl (hexadecimal_value a) 4) (hexadecimal_value b))
      s bs W ltac:(lia)) as (s1 & -> & W1).
    destruct (IH l s1 _ ltac:(lia) X W1) as (s2 & E & W2).
    { rewrite length_app, length_le_split. lia. }
    exists s2. split; [done|]. by rewrite <- (assoc_L (++)) in W2.
Qed.

(** The 152 bytes after the version. *)
Definition body_bytes (e : record) : list byte :=
  let p := policy e in
  le_split 8 (listing e) ++ operation_bytes (death_operation e) ++ le_split 4 (beneficiary e)
  ++ le_split 8 (uid e) ++ le_split 8 (death_time e) ++ le_split 8 (collect_at e)
  ++ le_split 8 (sale_at e) ++ le_split 8 (available_at e) ++ le_split 8 (expires_at e)
  ++ le_split 1 (bool_byte (holding_paused e)) ++ le_split 8 (paused_at e)
  ++ le_split 8 (revision e) ++ le_split 8 (item_revision e) ++ le_split 8 (price_value e)
  ++ le_split 1 (bool_byte (enabled p)) ++ le_split 8 (collection_delay p)
  ++ le_split 8 (sale_delay p) ++ le_split 8 (holding_duration p)
  ++ le_split 8 (price_percent p) ++ le_split 8 (minimum_value p) ++ le_split 1 (status e)
  ++ le_split 1 (closed_reason e).
Definition record_bytes (e : record) : list byte := le_split 2 (version e) ++ body_bytes e.

(** The ranges the C++ field types give, where validity does not. *)
Record codec_typed (e : record) : Prop := {
  typed_record : record_typed e;
  typed_listing : u64 (listing e);
  typed_beneficiary : u32 (beneficiary e);
  typed_uid : u64 (uid e);
}.

Record wire_facts (e : record) : Prop := {
  wire_version : version e = record_version;
  wire_operation : length (death_operation e) = (2 * 16)%nat;
  wire_hexadecimal : forallb hexadecimal (death_operation e) = true;
  wire_end : death_operation_end e = Byte.x00;
  wire_enabled : enabled (policy e) = true;
  wire_collect : collect_at e = death_time e + collection_delay (policy e)
    ∧ collect_at e <= UINT64_MAX;
  wire_status : 1 <= status e <= 6;
  wire_reason : 0 <= closed_reason e <= 7;
}.

Lemma valid_wire e : valid_record e = true → wire_facts e.
Proof.
  unfold valid_record, valid_death_operation_id, valid_death_operation, valid_reason,
    cancellation_reason. intros H. rewrite !andb_true_iff, !orb_true_iff in H. destruct_and!.
  repeat match goal with H : bool_decide _ = true |- _ => apply bool_decide_eq_true_1, add_spec in H end.
  repeat match goal with
  | H : (_ =? _) = true |- _ => apply Z.eqb_eq in H
  | H : (_ <=? _) = true |- _ => apply Z.leb_le in H
  | H : (_ =? _)%nat = true |- _ => apply Nat.eqb_eq in H
  end.
  unfold state.candidate, state.expired in *.
  constructor; try done; try lia.
  - rewrite <- (to_of_byte (death_operation_end e)).
    match goal with H : of_byte _ = 0 |- _ => by rewrite H end.
  - unfold reason.none, reason.claimed, reason.destroyed, reason.quarantined, reason.excluded,
      reason.character_deleted, reason.season_reset, reason.holding_elapsed in *.
    repeat match goal with H : _ ∨ _ |- _ => destruct H end; bool_prop; lia.
Qed.

Ltac put_field L16 W :=
  match goal with
  | |- context [put ?sz ?v ?s] =>
      let s' := fresh "s" in let W' := fresh "W" in
      destruct (put_written sz v s _ W) as (s' & -> & W');
      [rewrite ?length_app, ?length_le_split, ?L16; unfold encoded_record_bytes; simpl; lia|clear W; rename W' into W]
  end.

Lemma put_record_written e s :
  wire_facts e → written s [] →
  ∃ s', put_record e s = Some s' ∧ written s' (record_bytes e).
Proof.
  intros [_ Lo Hx _ _ _ _ _] W. unfold put_record.
  pose proof (length_operation_bytes 16 _ Lo) as L16.
  cbv zeta. do 2 put_field L16 W.
  destruct (put_operation_written 16 _ _ _ Lo Hx W) as (s2 & -> & W2);
    [rewrite !length_app, !length_le_split; unfold encoded_record_bytes; simpl; lia|]. clear W.
  do 20 put_field L16 W2.
  eexists. split; [done|]. unfold record_bytes, body_bytes. cbn [app] in W2.
  by rewrite <- !(assoc_L (++)) in W2.
Qed.

Lemma length_record_bytes e : wire_facts e → length (record_bytes e) = encoded_record_bytes.
Proof.
  intros [_ Lo _ _ _ _ _ _]. unfold record_bytes, body_bytes.
  by rewrite !length_app, !length_le_split, (length_operation_bytes 16 _ Lo).
Qed.

Lemma written_all s bs : written s bs → length bs = encoded_record_bytes →
  s = (bs, encoded_record_bytes).
Proof.
  destruct s as [out off]. intros (L & E & T) Lb. simpl in *. rewrite Lb in *. subst off.
  rewrite <- L in T. by rewrite firstn_all in T; subst.
Qed.

Lemma record_encode_valid e : valid_record e = true → record_encode e = Ok (record_bytes e).
Proof.
  intros V. pose proof (valid_wire e V) as W. unfold record_encode.
  rewrite V, (wire_version e W), Z.eqb_refl. cbn [negb].
  destruct (put_record_written e (replicate encoded_record_bytes Byte.x00, 0%nat) W) as (s & -> & Ws);
    [done|]. rewrite (written_all _ _ Ws (length_record_bytes e W)).
  by rewrite (length_record_bytes e W).
Qed.

Lemma record_encode_ok e bs : record_encode e = Ok bs →
  valid_record e = true ∧ bs = record_bytes e.
Proof.
  intros H. assert (valid_record e = true) as V.
  { unfold record_encode in H. destruct (negb _); [done|]. by destruct (valid_record e). }
  rewrite (record_encode_valid e V) in H. by simplify_eq.
Qed.

(** ** Lemmas: reading a record *)

Lemma bool_byte_fits b : u8 (bool_byte b).
Proof. destruct b; simpl; width_lia. Qed.
Lemma bool_byte_small b : (1 <? bool_byte b) = false.
Proof. by destruct b. Qed.
Lemma nz_bool_byte b : nz (bool_byte b) = b.
Proof. by destruct b. Qed.
Lemma bool_byte_nz x : u8 x → (1 <? x) = false → bool_byte (nz x) = x.
Proof.
  intros F H. bool_prop. assert (x = 0 ∨ x = 1) as [-> | ->] by width_lia; done.
Qed.

(** Steps the reader over the next field of the buffer. *)
Ltac get_field A :=
  match goal with
  | |- context [read_le ?sz ?input ?off] =>
      let R := fresh "R" in let A' := fresh "A" in
      edestruct (read_le_at sz input off) as [R A']; [|exact A|rewrite R; clear R A; rename A' into A];
      [by (done || apply bool_byte_fits || width_lia)|]
  end.

Lemma get_record_at e input off rest :
  codec_typed e → wire_facts e → at_offset input off (body_bytes e ++ rest) →
  get_record (version e) input off = Some (e, (off + 152)%nat).
Proof.
  intros [Tr Ll Lb Lu] [Wv Wo Wx We Wn [Wc Wc'] Ws Wr] A. destruct Tr as [? ? ? ? ? ? ? ? Tp], Tp.
  unfold body_bytes in A. rewrite <- !(assoc_L (++)) in A. unfold get_record.
  assert (u64 (collect_at e)) as Uc by width_lia.
  get_field A.
  destruct (get_operation_at 16 _ _ _ _ Wo Wx A) as [-> A1]. clear A.
  do 7 get_field A1. get_field A1. rewrite bool_byte_small. cbn [negb].
  do 4 get_field A1. get_field A1. rewrite bool_byte_small. cbn [negb]. do 7 get_field A1.
  rewrite !nz_bool_byte. clear A1. do 2 f_equal; [|lia].
  destruct e as [????????????????[] ??]. simpl in *. by subst.
Qed.

Lemma record_decode_at e : codec_typed e → valid_record e = true →
  record_decode (record_bytes e) = Ok e.
Proof.
  intros T V. pose proof (valid_wire e V) as W. pose proof (length_record_bytes e W) as L.
  unfold record_decode. rewrite L, Nat.eqb_refl. cbn [negb].
  pose proof (at_offset_start (record_bytes e)) as A. unfold record_bytes in A at 2.
  edestruct (read_le_at 2 (record_bytes e) 0 (version e)) as [-> A2]; [rewrite (wire_version e W); done|exact A|].
  rewrite (wire_version e W), Z.eqb_refl. cbn [negb].
  rewrite <- (app_nil_r (body_bytes e)) in A2.
  rewrite <- (wire_version e W), (get_record_at e _ _ [] T W A2), Nat.eqb_refl, V. done.
Qed.

(** What a field read says: its range, and the bytes consumed with it. *)
Ltac got_field H C :=
  match type of H with
  | context [read_le ?sz ?input ?off] =>
      let v := fresh "v" in let o := fresh "o" in let R := fresh "R" in let F := fresh "F" in
      let C' := fresh "C" in let E := fresh "E" in
      destruct (read_le sz input off) as [[v o]|] eqn:R; [|discriminate H];
      destruct (read_le_consumed _ _ _ _ _ _ R C) as (E & F & C'); clear R C;
      rename C' into C; clear E
  end.
Ltac got_flag H :=
  match type of H with
  | context [1 <? ?v] => let G := fresh "G" in destruct (1 <? v) eqn:G; [discriminate H|]; cbn [negb] in H
  end.

Lemma get_record_consumed version input off e off' out :
  get_record version input off = Some (e, off') → consumed input off out →
  CollectorPolicy.version e = version ∧ codec_typed e ∧ consumed input off' (out ++ body_bytes e).
Proof.
  unfold get_record. intros H C. got_field H C.
  destruct (get_operation 16 input o) as [[operation o1]|] eqn:G; [|discriminate H].
  destruct (get_operation_consumed _ _ _ _ _ _ G C) as [L C1]. clear C G.
  do 8 got_field H C1. got_flag H. do 5 got_field H C1. got_flag H. do 7 got_field H C1.
  apply (inj Some) in H. injection H as <- <-.
  split; [done|]. split; [repeat (constructor; try done)|].
  unfold append_le in C1. rewrite <- !(assoc_L (++)) in C1.
  unfold body_bytes. cbn [listing death_operation beneficiary uid death_time collect_at sale_at
    available_at expires_at holding_paused paused_at revision item_revision price_value policy
    enabled collection_delay sale_delay holding_duration price_percent minimum_value status
    closed_reason].
  rewrite !bool_byte_nz by done. exact C1.
Qed.

Lemma record_decode_ok bs e : record_decode bs = Ok e →
  codec_typed e ∧ valid_record e = true ∧ bs = record_bytes e.
Proof.
  unfold record_decode. intros H. destruct (length bs =? _)%nat; [|done]. cbn [negb] in H.
  assert (consumed bs 0 []) as C by (split; [lia|done]).
  destruct (read_le 2 bs 0) as [[v o]|] eqn:R; [|done].
  destruct (read_le_consumed _ _ _ _ _ _ R C) as (_ & _ & C1). clear C R.
  destruct (v =? record_version) eqn:Ev; [|done]. cbn [negb] in H.
  destruct (get_record v bs o) as [[e' o']|] eqn:G; [|done].
  destruct (get_record_consumed _ _ _ _ _ _ G C1) as (Hv & T & C2).
  destruct (Nat.eqb_spec o' (length bs)) as [->|]; [|done]. cbn [negb] in H.
  destruct (valid_record e') eqn:V; [|done]. injection H as ->.
  split_and!; [done|done|]. apply consumed_all in C2. rewrite <- C2.
  unfold record_bytes. by rewrite Hv.
Qed.

(** ** Lemmas: catalogs *)

Lemma encode_records_valid candidate rs : forallb valid_record rs = true →
  encode_records candidate rs = Ok (candidate ++ concat (map record_bytes rs)).
Proof.
  revert candidate. induction rs as [|e rs IH]; intros candidate V; simpl in *.
  - by rewrite app_nil_r.
  - apply andb_prop in V as [Ve V]. rewrite record_encode_valid by done.
    by rewrite IH, <- (assoc_L (++)) by done.
Qed.

Definition catalog_bytes (c : catalog) : list byte :=
  catalog_magic ++ le_split 2 catalog_codec_version ++ le_split 2 0
  ++ le_split 8 (catalog_revision c) ++ le_split 8 (next_listing c)
  ++ le_split 4 (vsize (records c)) ++ concat (map record_bytes (records c)).

Lemma catalog_encode_valid c : valid_catalog c = true →
  catalog_encode true c = Ok (catalog_bytes c).
Proof.
  intros V. unfold catalog_encode. rewrite V. unfold valid_catalog in V.
  rewrite !andb_true_iff in V. destruct V as ((B & _) & R). rewrite B. cbn [negb].
  rewrite encode_records_valid by done. unfold append_le. by rewrite <- !(assoc_L (++)).
Qed.

Record catalog_typed (c : catalog) : Prop := {
  typed_catalog_revision : u64 (catalog_revision c);
  typed_next_listing : u64 (next_listing c);
  typed_records : Forall codec_typed (records c);
}.

Lemma record_at_spec input e off rest :
  codec_typed e ∧ valid_record e = true → at_offset input off (record_bytes e ++ rest) →
  record_at input off = Ok (e, (off + length (record_bytes e))%nat).
Proof.
  intros [T V] A. pose proof (length_record_bytes e (valid_wire e V)) as L.
  unfold record_at, slice. rewrite <- L, (at_offset_take _ _ _ _ A), record_decode_at by done.
  by rewrite L.
Qed.

Lemma record_at_consumed input off e off' out :
  record_at input off = Ok (e, off') → consumed input off out →
  (codec_typed e ∧ valid_record e = true) ∧ consumed input off' (out ++ record_bytes e).
Proof.
  unfold record_at. intros H C. destruct (record_decode _) as [e'|] eqn:D; [|done].
  injection H as -> <-. destruct (record_decode_ok _ _ D) as (T & V & E). split; [done|].
  rewrite <- E. apply consumed_app; [done|].
  apply (f_equal length) in E. rewrite (length_record_bytes e (valid_wire e V)) in E.
  unfold slice in E. rewrite length_take, length_drop in E. unfold encoded_record_bytes in *. lia.
Qed.

Lemma length_records rs : forallb valid_record rs = true →
  length (concat (map record_bytes rs)) = (length rs * encoded_record_bytes)%nat.
Proof.
  induction rs as [|e rs IH]; intros V; [done|]. apply andb_prop in V as [Ve V].
  cbn [map concat length]. rewrite length_app, IH, (length_record_bytes e (valid_wire e Ve)) by done. done.
Qed.

Lemma listings_increase_sorted rs : listings_increase rs = true →
  StronglySorted Z.lt (map listing rs).
Proof.
  intros H. apply Sorted_StronglySorted; [intros ???; lia|].
  induction rs as [|a [|b rs] IH]; [constructor|by repeat constructor|].
  cbn [listings_increase] in H. apply andb_prop in H as [Hab H]. bool_prop.
  cbn [map]. constructor; [by apply IH|]. constructor. lia.
Qed.

Lemma catalog_decode_ok bs c : catalog_decode true bs = Ok c →
  valid_catalog c = true ∧ bs = catalog_bytes c.
Proof.
  unfold catalog_decode. intros H.
  destruct (length bs <? catalog_header_bytes)%nat eqn:L; [done|]. apply Nat.ltb_ge in L.
  case_bool_decide as M; [|done]. cbn [negb andb] in H.
  assert (consumed bs 4 catalog_magic) as C
    by (split; [unfold catalog_header_bytes in L; lia|done]).
  got_field H C. destruct (v =? catalog_codec_version) eqn:Ev; [|done]. apply Z.eqb_eq in Ev as ->.
  cbn [negb] in H. destruct (get_header bs o) as [[[[revision next] count] o1]|] eqn:G; [|done].
  unfold get_header in G. got_field G C. destruct (nz v) eqn:Z0; [done|]. apply nz_false in Z0 as ->.
  cbn [negb] in G. do 3 got_field G C. injection G as <- <- <- <-.
  destruct (v1 <=? catalog_max_records); [|done]. destruct (length bs =? _)%nat; [|done]. cbn [negb] in H.
  destruct (decode_many _ _ _) as [[rs last]|] eqn:D; [|done].
  destruct (decode_many_consumed (λ out e, out ++ record_bytes e) (record_at bs) bs
    (λ e, codec_typed e ∧ valid_record e = true) _ _ _ _ _ (record_at_consumed bs) D C) as (Ln & _ & Cr).
  destruct (Nat.eqb_spec last (length bs)) as [->|]; [|done]. cbn [andb] in H.
  destruct (valid_catalog _) eqn:V; [|done]. injection H as <-. split; [done|].
  apply consumed_all in Cr. rewrite <- Cr, (foldl_enc _ record_bytes) by done.
  unfold catalog_bytes, append_le. cbn [records catalog_revision next_listing].
  replace (vsize rs) with v1 by (unfold vsize; width_lia).
  by rewrite <- !(assoc_L (++)).
Qed.

(** ** Properties *)

(** a catalog survives its file: every well-typed valid catalog is encoded, into
    28 bytes and 154 for each record, and decoding them gives it back; a catalog that
    is not valid is never written. *)
Theorem collector_catalog_roundtrip c :
  catalog_typed c →
  match catalog_encode true c with
  | Ok bs =>
      length bs = (catalog_header_bytes + length (records c) * encoded_record_bytes)%nat
      ∧ catalog_decode true bs = Ok c
  | Err _ => valid_catalog c = false
  end.
Proof.
  intros [Tr Tn Ts]. destruct (valid_catalog c) eqn:V.
  - rewrite catalog_encode_valid by done.
    unfold valid_catalog in V. rewrite !andb_true_iff in V.
    assert (valid_catalog c = true) as V' by (unfold valid_catalog; by rewrite !andb_true_iff).
    destruct V as ((B & _) & R). apply Z.leb_le in B.
    assert (length (catalog_bytes c)
      = (catalog_header_bytes + length (records c) * encoded_record_bytes)%nat) as L.
    { unfold catalog_bytes. rewrite !length_app, !length_le_split, length_records by done. done. }
    split; [done|]. unfold catalog_decode. rewrite L.
    rewrite (proj2 (Nat.ltb_ge _ _)) by lia. rewrite bool_decide_eq_true_2 by done. cbn [negb andb].
    pose proof (at_offset_start (catalog_bytes c)) as A. unfold catalog_bytes in A at 2.
    apply (at_offset_app _ _ catalog_magic) in A. change (0 + length catalog_magic)%nat with 4%nat in A.
    get_field A. cbn [negb Z.eqb]. unfold get_header. get_field A. cbn [negb nz].
    get_field A. get_field A.
    assert (fits (8 * Z.of_nat 4) (vsize (records c))) as Fc
      by (unfold fits, vsize, catalog_max_records in *; lia).
    destruct (read_le_at 4 _ _ _ _ Fc A) as [-> A'].
    rewrite Z.eqb_refl. change (nz 0) with false. cbn [negb].
    rewrite (proj2 (Z.leb_le _ _) B). unfold vsize at 1 2. rewrite Nat2Z.id, Nat.eqb_refl.
    rewrite <- (app_nil_r (concat _)) in A'. cbn [negb].
    destruct (decode_many_at record_bytes (record_at (catalog_bytes c)) (catalog_bytes c)
      (λ e, codec_typed e ∧ valid_record e = true) (records c) _ []
      ltac:(intros; by eapply record_at_spec) ltac:(rewrite Forall_and; split;
        [done|apply Forall_forall; intros e He; rewrite forallb_forall in R;
         by apply R, list_elem_of_In]) A') as [-> _].
    rewrite length_records by done. destruct c as [rv nx rs].
    cbn [records catalog_revision next_listing] in *. rewrite V', andb_true_r. rewrite (proj2 (Nat.eqb_eq _ _)) by done. done.
  - unfold catalog_encode. rewrite V. by destruct (negb _).
Qed.

(** C37: only canonical files are read: a decoded catalog is valid — its records are
    valid, at most 262144, and their listings increase strictly below the next
    listing — and encoding it gives exactly the bytes it came from, so no two files
    hold the same catalog. *)
Theorem collector_catalog_canonical bs c :
  catalog_decode true bs = Ok c →
  catalog_encode true c = Ok bs
  ∧ vsize (records c) <= catalog_max_records
  ∧ Forall (λ e, valid_record e = true ∧ listing e < next_listing c) (records c)
  ∧ StronglySorted Z.lt (map listing (records c)).
Proof.
  intros (V & ->)%catalog_decode_ok. split; [by apply catalog_encode_valid|].
  unfold valid_catalog, listings_are_canonical in V. rewrite !andb_true_iff in V.
  destruct V as ((B & (_ & Next) & Inc) & R). apply Z.leb_le in B.
  split_and!; [done| |by apply listings_increase_sorted].
  rewrite forallb_forall in R, Next. apply Forall_forall. intros e He%list_elem_of_In.
  split; [by apply R|]. specialize (Next e He). bool_prop. lia.
Qed.

(** ** Witnesses *)

Definition sample_operation : list byte :=
  Byte.x61 :: Byte.x37 :: replicate 30 Byte.x30.

Definition sample_record : record :=
  CollectorRecord record_version 5 sample_operation Byte.x00 77 900 1000
    (1000 + 12 * 60 * 60) (1000 + 24 * 60 * 60) 0 0 false 0 1 3 0
    (Rules true (12 * 60 * 60) (24 * 60 * 60) (7 * 24 * 60 * 60) 200 100)
    state.candidate reason.none.

Definition sample_catalog : catalog := Catalog 9 6 [sample_record].

Lemma sample_catalog_typed : catalog_typed sample_catalog.
Proof.
  constructor; [split; done..|]. repeat constructor; simpl; width_lia.
Qed.

Definition sample_catalog_file : list byte :=
  match catalog_encode true sample_catalog with Ok bs => bs | Err _ => [] end.

Lemma collector_catalog_roundtrip_witness :
  match catalog_encode true sample_catalog with
  | Ok bs => length bs = 182%nat ∧ catalog_decode true bs = Ok sample_catalog
  | Err _ => valid_catalog sample_catalog = false
  end.
Proof. exact (collector_catalog_roundtrip sample_catalog sample_catalog_typed). Defined.

Lemma collector_catalog_canonical_witness :
  catalog_encode true sample_catalog = Ok sample_catalog_file
  ∧ catalog_decode true sample_catalog_file = Ok sample_catalog.
Proof.
  assert (catalog_decode true sample_catalog_file = Ok sample_catalog) as D
    by (vm_compute; reflexivity).
  split; [exact (proj1 (collector_catalog_canonical _ _ D))|exact D].
Defined.
