(* ===== verification/GameplayRead.v ===== *)
(** * Gameplay read state

    Models [persistence/gameplay_read_state.h] and [.c]: what a character keeps of the
    durable history gameplay reads — its recent deaths to other players, with those not
    yet committed, and the zones whose epic it completed.

    An array with its count is the list of its first [count] entries; the code clears
    the rest and never reads it.  Null pointers are not modelled. *)

From S2P Require Import Prelude.

Definition GAMEPLAY_READ_RECENT_DURABLE_MAX : nat := 20.
Definition GAMEPLAY_READ_RECENT_PENDING_MAX : nat := 128.
Definition GAMEPLAY_READ_RECENT_MAX : nat :=
  GAMEPLAY_READ_RECENT_DURABLE_MAX + GAMEPLAY_READ_RECENT_PENDING_MAX.
Definition GAMEPLAY_READ_COMPLETED_ZONE_MAX : nat := 1024.
Definition GAMEPLAY_READ_RECENT_WINDOW_SECONDS : Z := 60 * 60.

Inductive gameplay_read_status := unavailable | ready.

Record gameplay_recent_death := RecentDeath {
  occurred_at : Z;
  token : Z;
  provisional : bool;
}.

Record gameplay_read_state := ReadState {
  status : gameplay_read_status;
  recent_deaths : list gameplay_recent_death;
  completed_zones : list Z;
  next_token : Z;
}.

#[export] Instance read_status_eq_dec : EqDecision gameplay_read_status.
Proof. solve_decision. Defined.
#[export] Instance recent_death_eq_dec : EqDecision gameplay_recent_death.
Proof. solve_decision. Defined.
#[export] Instance read_state_eq_dec : EqDecision gameplay_read_state.
Proof. solve_decision. Defined.

Definition is_ready (s : gameplay_read_state) : bool := bool_decide (status s = ready).
Definition with_deaths (l : list gameplay_recent_death) (s : gameplay_read_state)
  : gameplay_read_state := ReadState (status s) l (completed_zones s) (next_token s).
Definition with_zones (l : list Z) (s : gameplay_read_state) : gameplay_read_state :=
  ReadState (status s) (recent_deaths s) l (next_token s).

Definition death_before (left right : gameplay_recent_death) : bool :=
  if negb (occurred_at left =? occurred_at right) then occurred_at right <? occurred_at left
  else token right <? token left.

(** [durable] counts the durable entries passed. *)
Fixpoint prune (durable : nat) (l : list gameplay_recent_death) : list gameplay_recent_death :=
  match l with
  | [] => []
  | entry :: l =>
      if provisional entry then entry :: prune durable l
      else if (GAMEPLAY_READ_RECENT_DURABLE_MAX <=? durable)%nat then prune (S durable) l
      else entry :: prune (S durable) l
  end.

Definition prune_durable (s : gameplay_read_state) : gameplay_read_state :=
  with_deaths (prune 0 (recent_deaths s)) s.

Definition gameplay_read_state_reset : gameplay_read_state := ReadState unavailable [] [] 0.

(** The checks of the two loops of [publish]; [previous] is the entry before. *)
Fixpoint deaths_accepted (previous : option Z) (l : list Z) : bool :=
  match l with
  | [] => true
  | t :: l =>
      negb ((t <=? 0) || from_option (λ p, p <? t) false previous) && deaths_accepted (Some t) l
  end.
Fixpoint zones_accepted (previous : option Z) (l : list Z) : bool :=
  match l with
  | [] => true
  | z :: l =>
      negb ((z <=? 0) || from_option (λ p, z <=? p) false previous) && zones_accepted (Some z) l
  end.

Definition gameplay_read_state_publish (deaths zones : list Z) : option gameplay_read_state :=
  ensure? negb ((GAMEPLAY_READ_RECENT_DURABLE_MAX <? length deaths)%nat
                || (GAMEPLAY_READ_COMPLETED_ZONE_MAX <? length zones)%nat) in
  ensure? deaths_accepted None deaths in
  ensure? zones_accepted None zones in
  Some (ReadState ready (map (λ t, RecentDeath t 0 false) deaths) zones 1).

Definition is_recent (now : Z) (d : gameplay_recent_death) : bool :=
  (occurred_at d <=? now) && (now - occurred_at d <? GAMEPLAY_READ_RECENT_WINDOW_SECONDS).

Definition gameplay_read_state_recent_count (s : gameplay_read_state) (now : Z) : nat :=
  if negb (is_ready s) || (now <=? 0) then 0%nat
  else length (filter (λ d, (is_recent now d) = true)
         (take GAMEPLAY_READ_RECENT_DURABLE_MAX (recent_deaths s))).

(** The loop over the deaths after the first. *)
Fixpoint double (times : nat) (duration : Z) : option Z :=
  match times with
  | O => Some duration
  | S times => ensure? negb (INT32_MAX / 2 <? duration) in double times (duration * 2)
  end.

Definition gameplay_read_state_heaven_seconds (s : gameplay_read_state) (now base_seconds : Z)
  : option Z :=
  ensure? negb (negb (is_ready s) || (now <=? 0) || (base_seconds <=? 0)) in
  let? duration := double (gameplay_read_state_recent_count s now - 1) base_seconds in
  if 30 * 60 <? duration then
    ensure? negb (INT32_MAX / 24 <? duration) in Some (duration * 24)
  else Some duration.

(** The [while] and the [memmove]. *)
Fixpoint insert_death (entry : gameplay_recent_death) (l : list gameplay_recent_death)
  : list gameplay_recent_death :=
  match l with
  | d :: rest => if death_before d entry then d :: insert_death entry rest else entry :: l
  | [] => [entry]
  end.

(** The token, 0 for a refusal. *)
Definition gameplay_read_state_add_provisional (occurred : Z) (s : gameplay_read_state)
  : Z * gameplay_read_state :=
  if negb (is_ready s) || (occurred <=? 0)
     || (GAMEPLAY_READ_RECENT_MAX <=? length (recent_deaths s))%nat
  then (0, s)
  else
    let next := wrap 64 (next_token s + 1) in
    let '(t, next) := if negb (nz (next_token s)) then (next, wrap 64 (next + 1))
                      else (next_token s, next) in
    (t, ReadState (status s) (insert_death (RecentDeath occurred t true) (recent_deaths s))
          (completed_zones s) next).

Definition is_pending (t : Z) (d : gameplay_recent_death) : bool :=
  provisional d && (token d =? t).

(** The first entry the loop stops at becomes durable, or is removed. *)
Fixpoint commit_first (t : Z) (l : list gameplay_recent_death)
  : option (list gameplay_recent_death) :=
  match l with
  | [] => None
  | d :: l => if is_pending t d then Some (RecentDeath (occurred_at d) (token d) false :: l)
              else let? l := commit_first t l in Some (d :: l)
  end.
Fixpoint remove_first (t : Z) (l : list gameplay_recent_death)
  : option (list gameplay_recent_death) :=
  match l with
  | [] => None
  | d :: l => if is_pending t d then Some l else let? l := remove_first t l in Some (d :: l)
  end.

Definition gameplay_read_state_finish_provisional (t : Z) (committed : bool)
    (s : gameplay_read_state) : option gameplay_read_state :=
  ensure? is_ready s && nz t in
  if committed then
    let? l := commit_first t (recent_deaths s) in Some (prune_durable (with_deaths l s))
  else
    let? l := remove_first t (recent_deaths s) in Some (with_deaths l s).

(** [std::lower_bound]: the entries less than the value, of a sorted range. *)
Fixpoint lower_bound (z : Z) (l : list Z) : nat :=
  match l with
  | a :: l => if a <? z then S (lower_bound z l) else 0%nat
  | [] => 0%nat
  end.

(** [std::binary_search]. *)
Definition gameplay_read_state_zone_completed (s : gameplay_read_state) (zone : Z) : bool :=
  is_ready s && negb (zone <=? 0)
  && from_option (λ a, negb (zone <? a)) false
       (completed_zones s !! lower_bound zone (completed_zones s)).

Definition gameplay_read_state_add_completed_zone (zone : Z) (s : gameplay_read_state)
  : option gameplay_read_state :=
  ensure? is_ready s && negb (zone <=? 0) in
  let l := completed_zones s in
  let at_ := lower_bound zone l in
  if from_option (λ a, a =? zone) false (l !! at_) then Some s
  else
    ensure? negb (GAMEPLAY_READ_COMPLETED_ZONE_MAX <=? length l)%nat in
    Some (with_zones (take at_ l ++ zone :: drop at_ l) s).

(** ** The states of a session *)

Inductive read_op :=
| AddProvisional (occurred : Z)
| FinishProvisional (t : Z) (committed : bool)
| AddCompletedZone (zone : Z).

Definition run_op (op : read_op) (s : gameplay_read_state) : gameplay_read_state :=
  match op with
  | AddProvisional occurred => (gameplay_read_state_add_provisional occurred s).2
  | FinishProvisional t committed =>
      default s (gameplay_read_state_finish_provisional t committed s)
  | AddCompletedZone zone => default s (gameplay_read_state_add_completed_zone zone s)
  end.

(** States after a publication; a session adds fewer than 2^64 - 1 deaths. *)
Inductive reachable : gameplay_read_state → Prop :=
| reach_publish deaths zones s :
    gameplay_read_state_publish deaths zones = Some s → reachable s
| reach_op op s : reachable s → next_token s < UINT64_MAX → reachable (run_op op s).

Definition is_durable (d : gameplay_recent_death) : Prop := provisional d = false.

(** Latest first, then by token; ties allowed. *)
Definition death_order (a b : gameplay_recent_death) : Prop := death_before b a = false.

Definition pending_tokens (l : list gameplay_recent_death) : list Z :=
  map token (filter (λ d, provisional d = true) l).

Record read_ok (s : gameplay_read_state) : Prop := {
  ok_ready : status s = ready;
  ok_sorted : StronglySorted death_order (recent_deaths s);
  ok_length : (length (recent_deaths s) <= GAMEPLAY_READ_RECENT_MAX)%nat;
  ok_durable : (length (filter is_durable (recent_deaths s)) <= GAMEPLAY_READ_RECENT_DURABLE_MAX)%nat;
  ok_tokens : NoDup (pending_tokens (recent_deaths s));
  ok_fresh : Forall (λ t, 0 < t < next_token s) (pending_tokens (recent_deaths s));
  ok_next : 0 < next_token s;
  ok_zones : StronglySorted Z.lt (completed_zones s);
  ok_zone_ids : Forall (λ z, 0 < z) (completed_zones s);
  ok_zone_count : (length (completed_zones s) <= GAMEPLAY_READ_COMPLETED_ZONE_MAX)%nat;
}.

#[export] Instance is_durable_dec d : Decision (is_durable d).
Proof. unfold is_durable. apply _. Defined.

(** ** Lemmas: the order of deaths *)

Lemma death_order_spec a b : death_order a b ↔
  occurred_at b < occurred_at a ∨ (occurred_at b = occurred_at a ∧ token b <= token a).
Proof.
  unfold death_order, death_before. destruct (Z.eqb_spec (occurred_at b) (occurred_at a)); simpl;
    rewrite Z.ltb_ge; lia.
Qed.

Lemma death_before_spec a b : death_before a b = true ↔
  occurred_at b < occurred_at a ∨ (occurred_at b = occurred_at a ∧ token b < token a).
Proof.
  unfold death_before. destruct (Z.eqb_spec (occurred_at a) (occurred_at b)); simpl;
    rewrite Z.ltb_lt; lia.
Qed.

Lemma insert_permutation e l : insert_death e l ≡ₚ e :: l.
Proof.
  induction l as [|d l IH]; simpl; [done|]. destruct (death_before d e); [|done].
  rewrite IH. apply perm_swap.
Qed.

Lemma insert_sorted e l : StronglySorted death_order l → StronglySorted death_order (insert_death e l).
Proof.
  induction 1 as [|d l S IH F]; simpl; [by repeat constructor|].
  destruct (death_before d e) eqn:B.
  - constructor; [done|]. rewrite insert_permutation. constructor; [|done].
    apply death_before_spec in B. apply death_order_spec. lia.
  - constructor; [by constructor|]. constructor; [done|].
    eapply Forall_impl; [exact F|]. intros x Hx. unfold death_order in *.
    change (death_order e d) in B. change (death_order d x) in Hx.
    apply death_order_spec in B, Hx. apply death_order_spec. lia.
Qed.

Lemma prune_sublist n l : sublist (prune n l) l.
Proof.
  revert n. induction l as [|d l IH]; intros n; cbn [prune]; [constructor|].
  destruct (provisional d); [by constructor|]. case_match; by constructor.
Qed.

Lemma prune_durables n l :
  (length (filter is_durable (prune n l)) <= GAMEPLAY_READ_RECENT_DURABLE_MAX - n)%nat.
Proof.
  revert n. induction l as [|d l IH]; intros n; cbn [prune]; [simpl; lia|].
  destruct (provisional d) eqn:P.
  - rewrite filter_cons, decide_False by (unfold is_durable; congruence). apply IH.
  - destruct (GAMEPLAY_READ_RECENT_DURABLE_MAX <=? n)%nat eqn:B; bool_prop.
    + specialize (IH (S n)). lia.
    + rewrite filter_cons, decide_True by done. cbn [length]. specialize (IH (S n)). lia.
Qed.

Lemma prune_pending n l :
  filter (λ d, provisional d = true) (prune n l) = filter (λ d, provisional d = true) l.
Proof.
  revert n. induction l as [|d l IH]; intros n; cbn [prune]; [done|].
  destruct (provisional d) eqn:P.
  - rewrite !filter_cons, !decide_True by done. by rewrite IH.
  - rewrite (filter_cons _ d l), decide_False by congruence. case_match; [done|].
    rewrite filter_cons, decide_False by congruence. done.
Qed.

(** ** Lemmas: the provisional deaths *)

Definition erase (d : gameplay_recent_death) : gameplay_recent_death :=
  RecentDeath (occurred_at d) (token d) false.

Lemma sorted_erase l : StronglySorted death_order (map erase l) ↔ StronglySorted death_order l.
Proof.
  rewrite StronglySorted_map. split; apply StronglySorted_weaken; intros a b;
    by rewrite !death_order_spec.
Qed.

(** Both loops stop at the first entry pending under the token. *)
Lemma first_pending t l :
  (commit_first t l = None ∧ remove_first t l = None ∧ Forall (λ d, is_pending t d = false) l)
  ∨ ∃ a d b, l = a ++ d :: b ∧ is_pending t d = true ∧ Forall (λ d, is_pending t d = false) a
    ∧ commit_first t l = Some (a ++ erase d :: b) ∧ remove_first t l = Some (a ++ b).
Proof.
  induction l as [|x l IH]; [by left|]. cbn [commit_first remove_first].
  destruct (is_pending t x) eqn:P; [by right; exists [], x, l|].
  destruct IH as [(-> & -> & F)|(a & d & b & -> & Pd & F & -> & ->)]; [left|right].
  - split_and!; [done..|by constructor].
  - exists (x :: a), d, b. split_and!; [done..|by constructor|done|done].
Qed.

Lemma pending_app a b : pending_tokens (a ++ b) = pending_tokens a ++ pending_tokens b.
Proof. unfold pending_tokens. by rewrite filter_app, map_app. Qed.
Lemma pending_cons d l : pending_tokens (d :: l)
  = if provisional d then token d :: pending_tokens l else pending_tokens l.
Proof.
  unfold pending_tokens. rewrite filter_cons. by destruct (provisional d).
Qed.
Lemma pending_permutation l l' : l ≡ₚ l' → pending_tokens l ≡ₚ pending_tokens l'.
Proof. intros P. unfold pending_tokens. by rewrite P. Qed.

Lemma is_pending_spec t d : is_pending t d = true ↔ provisional d = true ∧ token d = t.
Proof. unfold is_pending. by rewrite andb_true_iff, Z.eqb_eq. Qed.

Lemma publish_ok deaths zones s :
  gameplay_read_state_publish deaths zones = Some s → read_ok s.
Proof.
  unfold gameplay_read_state_publish. intros H. destruct (_ || _) eqn:L; [done|].
  destruct (deaths_accepted None deaths) eqn:D; [|done].
  destruct (zones_accepted None zones) eqn:Zs; [|done]. apply (inj Some) in H as <-. bool_prop.
  assert (StronglySorted (λ a b, b <= a) deaths) as Sd.
  { clear -D. apply Sorted_StronglySorted; [intros ???; lia|]. revert D. generalize (@None Z).
    induction deaths as [|a l IH]; intros p D; [constructor|]. cbn [deaths_accepted] in D.
    apply andb_prop in D as [_ D]. constructor; [by eapply IH|].
    destruct l as [|b l]; constructor. cbn [deaths_accepted from_option] in D. bool_prop. lia. }
  assert (StronglySorted Z.lt zones ∧ Forall (λ z, 0 < z) zones) as [Sz Fz].
  { clear -Zs. revert Zs. generalize (@None Z).
    assert (∀ p, zones_accepted p zones = true → Sorted Z.lt zones ∧ Forall (λ z, 0 < z) zones) as A.
    { induction zones as [|a l IH]; intros p D; [split; constructor|]. cbn [zones_accepted] in D.
      apply andb_prop in D as [Da D]. destruct (IH _ D) as [S F]. bool_prop.
      split; [|by constructor; [lia|]]. constructor; [done|].
      destruct l as [|b l]; constructor. cbn [zones_accepted from_option] in D. bool_prop. lia. }
    intros p H. destruct (A p H) as [S F]. split; [|done].
    apply Sorted_StronglySorted; [intros ???; lia|done]. }
  assert (pending_tokens (map (λ t, RecentDeath t 0 false) deaths) = []) as Pn.
  { clear. unfold pending_tokens. induction deaths as [|a l IH]; [done|].
    cbn [map]. by rewrite filter_cons, decide_False. }
  constructor; cbn [status recent_deaths completed_zones next_token]; rewrite ?Pn; try done; try lia.
  - apply StronglySorted_map. eapply StronglySorted_weaken; [|exact Sd].
    intros a b Hab. apply death_order_spec. simpl in *. lia.
  - rewrite length_map. unfold GAMEPLAY_READ_RECENT_MAX. lia.
  - etrans; [apply length_filter|]. by rewrite length_map.
  - constructor.
Qed.

Lemma finish_ok t committed s s' :
  read_ok s → gameplay_read_state_finish_provisional t committed s = Some s' → read_ok s'.
Proof.
  intros [] H. unfold gameplay_read_state_finish_provisional in H.
  destruct (is_ready s && nz t); [|done]. cbn [negb] in H.
  destruct (first_pending t (recent_deaths s)) as [(C & R & _)|(a & d & b & E & P & _ & C & R)];
    rewrite C, R in H; [by destruct committed|].
  apply is_pending_spec in P as [P _].
  rewrite E in *. rewrite pending_app, pending_cons, P in *.
  assert (pending_tokens a ++ token d :: pending_tokens b
    ≡ₚ token d :: pending_tokens a ++ pending_tokens b) as Pm by (symmetry; apply Permutation_middle).
  rewrite Pm in ok_tokens0, ok_fresh0. apply NoDup_cons in ok_tokens0 as [_ Nd].
  apply Forall_cons in ok_fresh0 as [_ Fr].
  destruct committed; apply (inj Some) in H as <-; constructor;
    cbn [status recent_deaths completed_zones next_token with_deaths prune_durable];
    try done.
  - eapply StronglySorted_sublist; [apply prune_sublist|]. apply sorted_erase.
    apply sorted_erase in ok_sorted0. rewrite map_app in *. exact ok_sorted0.
  - etrans; [apply sublist_length, prune_sublist|]. rewrite !length_app in *. done.
  - etrans; [apply prune_durables|]. lia.
  - unfold pending_tokens. rewrite prune_pending. fold (pending_tokens (a ++ erase d :: b)).
    by rewrite pending_app, pending_cons.
  - unfold pending_tokens. rewrite prune_pending. fold (pending_tokens (a ++ erase d :: b)).
    by rewrite pending_app, pending_cons.
  - eapply StronglySorted_sublist; [|exact ok_sorted0]. apply sublist_app; [done|by constructor].
  - rewrite !length_app in *. simpl in *. lia.
  - rewrite filter_app, filter_cons, decide_False in ok_durable0 by (unfold is_durable; congruence).
    by rewrite filter_app.
  - by rewrite pending_app.
  - by rewrite pending_app.
Qed.

Lemma add_provisional_spec occurred s t s' :
  gameplay_read_state_add_provisional occurred s = (t, s') → read_ok s → next_token s < UINT64_MAX →
  (t = 0 ∧ s' = s)
  ∨ (t = next_token s ∧ 0 < occurred ∧ (length (recent_deaths s) < GAMEPLAY_READ_RECENT_MAX)%nat
     ∧ s' = ReadState (status s) (insert_death (RecentDeath occurred t true) (recent_deaths s))
              (completed_zones s) (next_token s + 1)).
Proof.
  intros H K B. unfold gameplay_read_state_add_provisional in H. destruct (_ || _) eqn:G.
  - simplify_eq. by left.
  - right. bool_prop. pose proof (ok_next s K). unfold nz in H.
    rewrite (proj2 (Z.eqb_neq (next_token s) 0)) in H by lia. cbn [negb] in H.
    unfold wrap in H. rewrite Z.mod_small in H by (width_lia). simplify_eq. done.
Qed.

Lemma add_ok occurred s : read_ok s → next_token s < UINT64_MAX →
  read_ok (gameplay_read_state_add_provisional occurred s).2.
Proof.
  intros K B. destruct (gameplay_read_state_add_provisional occurred s) as [t s'] eqn:A.
  destruct (add_provisional_spec _ _ _ _ A K B) as [[_ ->]|(-> & _ & L & ->)]; [done|]. destruct K.
  assert (pending_tokens (insert_death (RecentDeath occurred (next_token s) true) (recent_deaths s))
    ≡ₚ next_token s :: pending_tokens (recent_deaths s)) as Pm.
  { rewrite (pending_permutation _ _ (insert_permutation _ _)). by rewrite pending_cons. }
  constructor; cbn [snd status recent_deaths completed_zones next_token]; try done; try lia.
  - by apply insert_sorted.
  - rewrite insert_permutation. simpl. lia.
  - rewrite insert_permutation. by rewrite filter_cons, decide_False by done.
  - rewrite Pm. constructor; [|done]. intros I.
    eapply Forall_forall in I; [|exact ok_fresh0]. simpl in I. lia.
  - rewrite Pm. constructor; [lia|]. eapply Forall_impl; [exact ok_fresh0|]. simpl. lia.
Qed.

(** ** Lemmas: completed zones *)

Lemma lower_bound_lookup z l : StronglySorted Z.lt l →
  match l !! lower_bound z l with
  | Some a => z <= a ∧ (z ∈ l ↔ a = z)
  | None => z ∉ l
  end.
Proof.
  induction 1 as [|a l S IH F]; cbn [lower_bound]; [apply not_elem_of_nil|].
  destruct (Z.ltb_spec a z); cbn.
  - assert (z ∈ a :: l ↔ z ∈ l) as I by (rewrite elem_of_cons; split; [intros [?|?]; [lia|done]|by right]).
    destruct (l !! _); by rewrite I.
  - split; [done|]. rewrite elem_of_cons. split; [|by left]. intros [?|I]; [done|].
    eapply Forall_forall in I; [|exact F]. simpl in I. lia.
Qed.

Lemma lower_bound_insert z l : StronglySorted Z.lt l → z ∉ l →
  StronglySorted Z.lt (take (lower_bound z l) l ++ z :: drop (lower_bound z l) l).
Proof.
  intros S. induction S as [|a l S IH F]; intros N; cbn [lower_bound]; [by repeat constructor|].
  apply not_elem_of_cons in N as [Na N]. destruct (Z.ltb_spec a z); cbn [take drop app].
  - constructor; [by apply IH|]. apply Forall_app. rewrite Forall_cons.
    rewrite <- (take_drop (lower_bound z l) l) in F. by apply Forall_app in F as [? ?].
  - constructor; [by constructor|]. constructor; [lia|].
    eapply Forall_impl; [exact F|]. simpl. lia.
Qed.

Lemma insert_zone_elem z x n (l : list Z) : x ∈ take n l ++ z :: drop n l ↔ x = z ∨ x ∈ l.
Proof.
  rewrite elem_of_app, elem_of_cons. rewrite <- (take_drop n l) at 3. rewrite elem_of_app. tauto.
Qed.

Lemma zone_completed_spec s z : read_ok s →
  gameplay_read_state_zone_completed s z = true ↔ z ∈ completed_zones s.
Proof.
  intros []. unfold gameplay_read_state_zone_completed, is_ready.
  rewrite bool_decide_eq_true_2 by done. cbn [andb].
  pose proof (lower_bound_lookup z _ ok_zones0) as L.
  rewrite andb_true_iff, negb_true_iff, Z.leb_gt.
  destruct (completed_zones s !! lower_bound z (completed_zones s)) as [a|] eqn:E; cbn.
  - destruct L as [L ->]. rewrite negb_true_iff, Z.ltb_ge. split; [lia|intros ->].
    apply list_elem_of_lookup_2 in E. eapply Forall_forall in E; [|exact ok_zone_ids0].
    simpl in E. lia.
  - split; [by intros [_ ?]|done].
Qed.

Lemma add_zone_spec z s : read_ok s →
  match gameplay_read_state_add_completed_zone z s with
  | Some s' => 0 < z ∧ read_ok s' ∧ recent_deaths s' = recent_deaths s
      ∧ next_token s' = next_token s
      ∧ ∀ x, x ∈ completed_zones s' ↔ x = z ∨ x ∈ completed_zones s
  | None => z <= 0
      ∨ ((z ∉ completed_zones s) ∧ length (completed_zones s) = GAMEPLAY_READ_COMPLETED_ZONE_MAX)
  end.
Proof.
  intros K. pose proof K as []. unfold gameplay_read_state_add_completed_zone, is_ready.
  rewrite bool_decide_eq_true_2 by done. cbn [andb].
  destruct (Z.leb_spec z 0); [by left|]. cbn [negb].
  pose proof (lower_bound_lookup z _ ok_zones0) as L.
  destruct (from_option _ false _) eqn:G.
  - split_and!; [done..|]. intros x. split; [by right|intros [->|?]; [|done]].
    destruct (completed_zones s !! _) as [a|]; [|done]. apply L. simpl in G. by apply Z.eqb_eq in G.
  - assert (z ∉ completed_zones s) as N.
    { destruct (completed_zones s !! _) as [a|]; [|done]. destruct L as [_ ->]. simpl in G.
      by apply Z.eqb_neq in G. }
    destruct (GAMEPLAY_READ_COMPLETED_ZONE_MAX <=? _)%nat eqn:B; bool_prop; cbn [negb].
    + right. split; [done|lia].
    + split_and!; [done| |done|done|intros x; apply insert_zone_elem].
      constructor; cbn [status recent_deaths completed_zones next_token with_zones]; try done.
      * by apply lower_bound_insert.
      * apply Forall_forall. intros x [->|I]%insert_zone_elem; [done|].
        by eapply Forall_forall in I; [|exact ok_zone_ids0].
      * rewrite length_app, length_cons, length_take, length_drop. lia.
Qed.

Lemma reachable_ok s : reachable s → read_ok s.
Proof.
  induction 1 as [deaths zones s H|op s R IH B]; [by eapply publish_ok|].
  destruct op as [occurred|t committed|zone]; cbn [run_op].
  - by apply add_ok.
  - destruct (gameplay_read_state_finish_provisional t committed s) eqn:E; [|done].
    by eapply finish_ok.
  - pose proof (add_zone_spec zone s IH) as A.
    by destruct (gameplay_read_state_add_completed_zone zone s); [destruct A as (_ & ? & _)|].
Qed.

(** ** Lemmas: penalties and rollback *)

Lemma double_exact k d : 0 < d <= INT32_MAX →
  double k d = if d * 2 ^ Z.of_nat k <=? INT32_MAX then Some (d * 2 ^ Z.of_nat k) else None.
Proof.
  revert d. induction k as [|k IH]; intros d D.
  - cbn [double]. rewrite Z.mul_1_r. by rewrite (proj2 (Z.leb_le _ _)) by lia.
  - cbn [double]. rewrite Nat2Z.inj_succ, Z.pow_succ_r by lia.
    replace (d * (2 * 2 ^ Z.of_nat k)) with (d * 2 * 2 ^ Z.of_nat k) by lia.
    pose proof (Z.pow_pos_nonneg 2 (Z.of_nat k) ltac:(lia) ltac:(lia)) as P.
    change (INT32_MAX / 2) with 1073741823. destruct (Z.ltb_spec 1073741823 d); cbn [negb].
    + rewrite (proj2 (Z.leb_gt _ _)); [done|]. unfold INT32_MAX in *. nia.
    + apply IH. unfold INT32_MAX in *. lia.
Qed.

Lemma insert_split e l :
  ∃ a b, l = a ++ b ∧ insert_death e l = a ++ e :: b ∧ insert_death (erase e) l = a ++ erase e :: b.
Proof.
  induction l as [|d l (a & b & -> & E & E')]; [by exists [], []|].
  cbn [insert_death]. change (death_before d (erase e)) with (death_before d e).
  destruct (death_before d e); [|by eexists [], _].
  exists (d :: a), b. rewrite E, E'. done.
Qed.

Lemma first_pending_at t a e b : Forall (λ d, is_pending t d = false) a → is_pending t e = true →
  commit_first t (a ++ e :: b) = Some (a ++ erase e :: b)
  ∧ remove_first t (a ++ e :: b) = Some (a ++ b).
Proof.
  intros F P. induction F as [|d a D F [C R]]; cbn [app commit_first remove_first].
  - by rewrite P.
  - by rewrite D, C, R.
Qed.

Lemma fresh_not_pending s : read_ok s →
  Forall (λ d, is_pending (next_token s) d = false) (recent_deaths s).
Proof.
  intros []. apply Forall_forall. intros d Hd. destruct (is_pending _ d) eqn:P; [|done].
  apply is_pending_spec in P as [P T]. exfalso.
  assert (next_token s ∈ pending_tokens (recent_deaths s)) as I.
  { unfold pending_tokens. rewrite <- T. apply list_elem_of_fmap_2. by apply list_elem_of_filter. }
  eapply Forall_forall in I; [|exact ok_fresh0]. simpl in I. lia.
Qed.

(** ** Properties *)

(** whatever is added, committed, withdrawn and completed after the load, the
    deaths stay ordered from the latest and within the array, at most 20 of them
    durable, the pending ones under distinct tokens already handed out, and the
    completed zones stay strictly increasing and within theirs. *)
Theorem gameplay_read_invariant s : reachable s → read_ok s.
Proof. apply reachable_ok. Qed.

(** C38: the time a dead character waits is the base time doubled for every recent
    death after the first, and 24 times as long past half an hour; the code's
    checks against [INT_MAX] refuse it exactly when that number is not an [int]. *)
Theorem gameplay_heaven_seconds_exact s now base :
  status s = ready → 0 < now → 0 < base <= INT32_MAX →
  let waited := base * 2 ^ Z.of_nat (gameplay_read_state_recent_count s now - 1) in
  let total := if 1800 <? waited then waited * 24 else waited in
  gameplay_read_state_heaven_seconds s now base
  = if total <=? INT32_MAX then Some total else None.
Proof.
  intros R N B waited total. unfold gameplay_read_state_heaven_seconds, is_ready.
  rewrite bool_decide_eq_true_2, (proj2 (Z.leb_gt _ _)), (proj2 (Z.leb_gt _ _)) by (done || lia).
  cbn [negb orb]. rewrite double_exact by done. fold waited. unfold total.
  change (INT32_MAX / 24) with 89478485. change (30 * 60) with 1800.
  destruct (Z.leb_spec waited INT32_MAX), (Z.ltb_spec 1800 waited).
  - destruct (Z.ltb_spec 89478485 waited), (Z.leb_spec (waited * 24) INT32_MAX); try done;
      unfold INT32_MAX in *; lia.
  - by rewrite (proj2 (Z.leb_le _ _)).
  - rewrite (proj2 (Z.leb_gt _ _)); [done|lia].
  - by rewrite (proj2 (Z.leb_gt _ _)).
Qed.

(** a provisional death is a transaction: withdrawing it gives back the history
    before it, except for the next token, and committing it gives the history with
    that death durable, cut after the twentieth durable one. *)
Theorem gameplay_provisional_transaction s occurred t s' :
  reachable s → next_token s < UINT64_MAX →
  gameplay_read_state_add_provisional occurred s = (t, s') → t ≠ 0 →
  gameplay_read_state_finish_provisional t false s'
    = Some (ReadState ready (recent_deaths s) (completed_zones s) (next_token s + 1))
  ∧ gameplay_read_state_finish_provisional t true s'
    = Some (ReadState ready
        (prune 0 (insert_death (RecentDeath occurred t false) (recent_deaths s)))
        (completed_zones s) (next_token s + 1)).
Proof.
  intros K%reachable_ok B A T.
  destruct (add_provisional_spec _ _ _ _ A K B) as [[? _]|(-> & _ & _ & ->)]; [done|].
  pose proof (fresh_not_pending s K) as F. pose proof (ok_ready s K) as R.
  destruct (insert_split (RecentDeath occurred (next_token s) true) (recent_deaths s))
    as (a & b & E & I & I').
  change (erase (RecentDeath occurred (next_token s) true))
    with (RecentDeath occurred (next_token s) false) in I'.
  rewrite E in F. apply Forall_app in F as [F _].
  destruct (first_pending_at (next_token s) a (RecentDeath occurred (next_token s) true) b F) as [C D].
  { by apply is_pending_spec. }
  unfold gameplay_read_state_finish_provisional, is_ready. cbn [status recent_deaths].
  rewrite R, I, I', C, D, E. unfold nz. rewrite (proj2 (Z.eqb_neq _ _) T). done.
Qed.

(** the sorted array of completed zones is a set: a query answers membership by
    binary search, and an addition — of a positive zone, while there is room — adds
    that zone only and leaves the rest of the state alone. *)
Theorem gameplay_zones_refine_set s zone :
  reachable s →
  (∀ z, gameplay_read_state_zone_completed s z = true ↔ z ∈ completed_zones s)
  ∧ match gameplay_read_state_add_completed_zone zone s with
    | Some s' => 0 < zone ∧ recent_deaths s' = recent_deaths s ∧ next_token s' = next_token s
        ∧ ∀ z, gameplay_read_state_zone_completed s' z = true
               ↔ z = zone ∨ gameplay_read_state_zone_completed s z = true
    | None => zone <= 0
        ∨ (gameplay_read_state_zone_completed s zone = false
           ∧ length (completed_zones s) = GAMEPLAY_READ_COMPLETED_ZONE_MAX)
    end.
Proof.
  intros K%reachable_ok. split; [intros z; by apply zone_completed_spec|].
  pose proof (add_zone_spec zone s K) as A.
  destruct (gameplay_read_state_add_completed_zone zone s) as [s'|].
  - destruct A as (P & K' & D & N & E). split_and!; [done..|].
    intros z. rewrite !zone_completed_spec by done. apply E.
  - destruct A as [A|[N L]]; [by left|right]. split; [|done].
    destruct (gameplay_read_state_zone_completed s zone) eqn:Z0; [|done].
    by apply zone_completed_spec in Z0.
Qed.

(** ** Witnesses *)

(** Two durable deaths, one an hour ago, and one completed zone. *)
Definition sample_state : gameplay_read_state :=
  default gameplay_read_state_reset (gameplay_read_state_publish [9900; 9000] [7; 30]).

Lemma read_sample_reachable : reachable sample_state.
Proof. by apply (reach_publish [9900; 9000] [7; 30]). Qed.

Lemma gameplay_read_invariant_witness : read_ok sample_state ∧ length (recent_deaths sample_state) = 2%nat.
Proof. exact (conj (gameplay_read_invariant sample_state read_sample_reachable) eq_refl). Defined.

Lemma gameplay_heaven_seconds_exact_witness :
  gameplay_read_state_heaven_seconds sample_state 10000 1000 = Some (2000 * 24).
Proof.
  rewrite (gameplay_heaven_seconds_exact sample_state 10000 1000);
    [vm_compute; reflexivity|reflexivity|reflexivity|split; [reflexivity|discriminate]].
Defined.

Lemma gameplay_provisional_transaction_witness :
  gameplay_read_state_finish_provisional 1 false
    (gameplay_read_state_add_provisional 9950 sample_state).2
  = Some (ReadState ready (recent_deaths sample_state) (completed_zones sample_state) 2).
Proof.
  apply (gameplay_provisional_transaction sample_state 9950 1);
    [exact read_sample_reachable|reflexivity|vm_compute; reflexivity|discriminate].
Defined.

Lemma gameplay_zones_refine_set_witness :
  gameplay_read_state_zone_completed sample_state 30 = true.
Proof.
  apply (proj1 (gameplay_zones_refine_set sample_state 30 read_sample_reachable) 30).
  apply list_elem_of_In. right. left. reflexivity.
Defined.
