(* ===== verification/EventMemory.v ===== *)
(** * The memory of the event scheduler

    Models [core/mm.c] and the links of [world/new_events.c]: the pool events are taken
    from and released to, and the three doubly linked lists an event is on, of a bucket of
    the wheel, of a character and of an object.  The pool is a map from pointers to
    events, so a pointer to a released event still reads what the memory holds.  A check
    that fails calls [panic_corruption], which ends the process: [None]. *)

From S2P Require Import Prelude.
From coqutil Require Export Datatypes.RecordSetters.
Export OCamlLikeNotations.

Arguments constant _ _ _ /.

(** ** Data *)

Abbreviation ptr := nat.

(** The callbacks the scheduler knows by name. *)
Inductive event_func :=
| event_spellcast | event_memorize | event_balance_affects | event_item_action_active
| event_wait | event_mana_regen | event_move_regen | event_hit_regen | event_ward_regen
| release_mob_mem
| other_callback (n : Z).
#[export] Instance event_func_eq_dec : EqDecision event_func.
Proof. solve_decision. Defined.

(** [NEVENT_LIFECYCLE_*]; memory never used is zero. *)
Inductive lifecycle := unused | active | cancel_pending | destroying | released.
#[export] Instance lifecycle_eq_dec : EqDecision lifecycle.
Proof. solve_decision. Defined.

(** The payload of an event: the scheduler's own copy of the bytes it was given, or what a
    caller handed over with a destructor. *)
Inductive payload := Copy (z : Z) | Owned (z : Z).
#[export] Instance payload_eq_dec : EqDecision payload.
Proof. solve_decision. Defined.

(** [nevent_data] without its links.  Characters and objects are names; [cld] names
    the link from its character to its victim, by the sequence of the event it was made for.
    [diagnostic_obj_vnum], which only log lines read, is left out. *)
Record event_data := EventData {
  ev_obj : option Z;
  ev_ch : option Z;
  ev_victim : option Z;
  func : option event_func;
  ev_data : option payload;
  data_destroy : bool;
  element : Z;
  priority : Z;
  deferral_count : Z;
  lifecycle_state : lifecycle;
  periodic_job_id : Z;
  due_tick : Z;
  deferred_cost_us : Z;
  sequence : Z;
  cld : option Z;
  owner_runtime_id : Z;
  victim_runtime_id : Z;
}.
Definition zero_data : event_data :=
  EventData None None None None None false 0 0 0 unused 0 0 0 0 None 0 0.

Record nevent_data := Event {
  ev : event_data;
  prev_char_nev : option ptr;
  next_char_nev : option ptr;
  prev_obj_nev : option ptr;
  next_obj_nev : option ptr;
  prev_sched : option ptr;
  next_sched : option ptr;
}.
Definition zero_event : nevent_data := Event zero_data None None None None None None.

Abbreviation heap := (gmap ptr nevent_data).

(** An array of list heads and one of tails: [ne_schedule] by bucket, [nevents] of the
    characters and of the objects by name; what is absent is [NULL]. *)
Record anchors := Anchors {
  heads : gmap Z ptr;
  tails : gmap Z ptr;
}.

(** [mm_ds], of the event pool. *)
Record pool := Pool {
  pool_head : option ptr;
  pool_tail : option ptr;
  pages_owned : Z;
  objs_used : Z;
}.

Record memory := Memory {
  events : heap;
  wheel : anchors;
  of_char : anchors;
  of_obj : anchors;
  ne_dead_event_pool : pool;
}.

(** ** Lists through an event *)

(** Which two links of an event a list goes through. *)
Record linkage := Linkage {
  lk_prev : nevent_data → option ptr;
  lk_next : nevent_data → option ptr;
  set_prev : option ptr → nevent_data → nevent_data;
  set_next : option ptr → nevent_data → nevent_data;
}.
Definition sched_links : linkage :=
  Linkage prev_sched next_sched (λ o n, {n with prev_sched := o}) (λ o n, {n with next_sched := o}).
Definition char_links : linkage :=
  Linkage prev_char_nev next_char_nev (λ o n, {n with prev_char_nev := o})
    (λ o n, {n with next_char_nev := o}).
Definition obj_links : linkage :=
  Linkage prev_obj_nev next_obj_nev (λ o n, {n with prev_obj_nev := o})
    (λ o n, {n with next_obj_nev := o}).

Definition set_anchor (k : Z) (o : option ptr) : gmap Z ptr → gmap Z ptr :=
  partial_alter (λ _, o) k.

(** The bodies of [nevent_unlink_schedule], [nevent_detach_character] and
    [nevent_detach_object]. *)
Definition unlink (L : linkage) (k : Z) (p : ptr) (h : heap) (a : anchors)
  : option (heap * anchors) :=
  let? n := h !! p in
  let? (h, a) :=
    match lk_prev L n with
    | Some q =>
        let? nq := h !! q in
        ensure? bool_decide (lk_next L nq = Some p) in
        Some (alter (set_next L (lk_next L n)) q h, a)
    | None =>
        ensure? bool_decide (heads a !! k = Some p) in
        Some (h, {a with heads ::= set_anchor k (lk_next L n)})
    end in
  let? (h, a) :=
    match lk_next L n with
    | Some q =>
        let? nq := h !! q in
        ensure? bool_decide (lk_prev L nq = Some p) in
        Some (alter (set_prev L (lk_prev L n)) q h, a)
    | None =>
        ensure? bool_decide (tails a !! k = Some p) in
        Some (h, {a with tails ::= set_anchor k (lk_prev L n)})
    end in
  Some (alter (λ n, set_prev L None (set_next L None n)) p h, a).

(** An event becomes the tail. *)
Definition append (L : linkage) (k : Z) (p : ptr) (h : heap) (a : anchors) : heap * anchors :=
  let h := alter (λ n, set_prev L (tails a !! k) (set_next L None n)) p h in
  match tails a !! k with
  | Some t => (alter (set_next L (Some p)) t h, {a with tails ::= set_anchor k (Some p)})
  | None => (h, {a with heads ::= set_anchor k (Some p); tails ::= set_anchor k (Some p)})
  end.

(** The walk of [nevent_link_schedule] back from the tail. *)
Fixpoint walk_back (before : event_data → event_data → bool) (event : event_data)
    (fuel : nat) (cursor : ptr) (h : heap) : option ptr :=
  match fuel with
  | O => None
  | S fuel =>
      let? n := h !! cursor in
      match prev_sched n with
      | Some q =>
          let? nq := h !! q in
          if before event (ev nq) then walk_back before event fuel q h else Some cursor
      | None => Some cursor
      end
  end.

Definition insert_before (L : linkage) (k : Z) (p cursor : ptr) (h : heap) (a : anchors)
  : option (heap * anchors) :=
  let? c := h !! cursor in
  let h := alter (λ n, set_prev L (lk_prev L c) (set_next L (Some cursor) n)) p h in
  let '(h, a) :=
    match lk_prev L c with
    | Some q => (alter (set_next L (Some p)) q h, a)
    | None => (h, {a with heads ::= set_anchor k (Some p)})
    end in
  Some (alter (set_prev L (Some p)) cursor h, a).

(** The lists by what holds them. *)
Inductive kind := Sched | Char | Obj.
#[export] Instance kind_eq_dec : EqDecision kind.
Proof. solve_decision. Defined.
Definition lk (w : kind) : linkage :=
  match w with Sched => sched_links | Char => char_links | Obj => obj_links end.
Definition anchors_of (w : kind) (m : memory) : anchors :=
  match w with Sched => wheel m | Char => of_char m | Obj => of_obj m end.
Definition with_list (w : kind) (h : heap) (a : anchors) (m : memory) : memory :=
  match w with
  | Sched => {m with events := h; wheel := a}
  | Char => {m with events := h; of_char := a}
  | Obj => {m with events := h; of_obj := a}
  end.
Definition unlink_at (w : kind) (k : Z) (p : ptr) (m : memory) : option memory :=
  let? (h, a) := unlink (lk w) k p (events m) (anchors_of w m) in
  Some (with_list w h a m).
Definition append_at (w : kind) (k : Z) (p : ptr) (m : memory) : memory :=
  let '(h, a) := append (lk w) k p (events m) (anchors_of w m) in
  with_list w h a m.
(** An event goes to the end of an owner's list, if it has such an owner. *)
Definition append_if (w : kind) (o : option Z) (p : ptr) (m : memory) : memory :=
  match o with Some k => append_at w k p m | None => m end.

(** [before] is [nevent_sorts_before]. *)
Definition nevent_link_schedule (before : event_data → event_data → bool) (p : ptr) (loc : Z)
    (m : memory) : option memory :=
  let? n := events m !! p in
  match tails (wheel m) !! loc with
  | None => Some (append_at Sched loc p m)
  | Some t =>
      let? nt := events m !! t in
      if negb (before (ev n) (ev nt)) then Some (append_at Sched loc p m) else
      let? cursor := walk_back before (ev n) (size (events m)) t (events m) in
      let? (h, a) := insert_before sched_links loc p cursor (events m) (wheel m) in
      Some {m with events := h; wheel := a}
  end.

(** An event becomes the last of the merged list of [nevent_merge_sorted_batch]. *)
Definition link_merged (next : ptr) (merged_tail : option ptr) (h : heap) : heap :=
  let h := alter (λ n, {n with prev_sched := merged_tail; next_sched := None}) next h in
  match merged_tail with
  | Some t => alter (λ n, {n with next_sched := Some next}) t h
  | None => h
  end.

(** The loop of [nevent_merge_sorted_batch]: the rest of the batch, the cursor in the bucket
    and the merged list so far. *)
Fixpoint merge_loop (before : event_data → event_data → bool) (fuel : nat) (batch : list ptr)
    (cursor merged_head merged_tail : option ptr) (h : heap)
  : option (heap * option ptr * option ptr) :=
  match fuel with
  | O => None
  | S fuel =>
      let take (next : ptr) (batch : list ptr) (cursor : option ptr) :=
        let merged_head := match merged_tail with Some _ => merged_head | None => Some next end in
        merge_loop before fuel batch cursor merged_head (Some next) (link_merged next merged_tail h) in
      match batch, cursor with
      | [], None => Some (h, merged_head, merged_tail)
      | b :: batch, None => take b batch None
      | [], Some c =>
          let? nc := h !! c in
          take c [] (next_sched nc)
      | b :: rest, Some c =>
          let? nb := h !! b in
          let? nc := h !! c in
          if before (ev nb) (ev nc) then take b rest (Some c)
          else take c (b :: rest) (next_sched nc)
      end
  end.

Definition nevent_merge_sorted_batch (before : event_data → event_data → bool)
    (batch : list ptr) (loc : Z) (m : memory) : option memory :=
  let? (h, head, tail) :=
    merge_loop before (S (length batch + size (events m))) batch (heads (wheel m) !! loc)
      None None (events m) in
  Some {m with events := h;
    wheel := {wheel m with heads ::= set_anchor loc head; tails ::= set_anchor loc tail}}.

(** ** The pool *)

(** What a call can end in: its result; the end of the process for a cause outside the
    scheduler, no memory or a pointer of a caller that never was an event's; or
    [panic_corruption], which is also what an invalid pointer of the scheduler's own and an
    endless loop end in here. *)
Inductive outcome (A : Type) := Done (a : A) | Outside | Corrupt.
Arguments Done {A} a.
Arguments Outside {A}.
Arguments Corrupt {A}.
Definition bind_outcome {A B} (o : outcome A) (f : A → outcome B) : outcome B :=
  match o with Done a => f a | Outside => Outside | Corrupt => Corrupt end.
Definition present {A} (o : option A) : outcome A :=
  match o with Some a => Done a | None => Corrupt end.
Notation "'let!' p ':=' m 'in' k" :=
  (bind_outcome m (fun p => k))
  (at level 10, p pattern, k at level 200) : code_scope.
Notation "'ensure!' b 'in' k" :=
  (if negb b then Corrupt else k)
  (at level 10, b at level 200, k at level 200) : code_scope.

Section Pool.
(** How many events a chunk of the pool holds; whether [mmap] succeeds when the pool has so
    many. *)
Context (chunk_objects : nat) (granted : nat → bool).

Definition NEVENT_POOL_PAGES : Z := 11.

(** The new objects go to the head one by one, so the last of them is the head. *)
Definition new_links (more : ptr) : list (ptr * option ptr) :=
  let objects := reverse (seq more chunk_objects) in
  zip objects (tail (Some <$> objects) ++ [None]).

(** [mm_alloc_chunk], called only on an empty pool.  A failure of [mmap] ends the process. *)
Definition mm_alloc_chunk (m : memory) : outcome memory :=
  let more := size (events m) in
  if negb (granted more) then Outside else
  let objects := reverse (seq more chunk_objects) in
  Done {m with
    events ::= λ h, foldr (λ '(p, next), <[p := {zero_event with next_sched := next}]>) h (new_links more);
    ne_dead_event_pool := {ne_dead_event_pool m with
      pool_head := head objects; pool_tail := last objects;
      pages_owned ::= λ n, wrap 64 (n + NEVENT_POOL_PAGES)}}.

Definition mm_get (m : memory) : outcome (ptr * memory) :=
  let! m :=
    match pool_head (ne_dead_event_pool m) with
    | None => mm_alloc_chunk m
    | Some _ => Done m
    end in
  let! mem := present (pool_head (ne_dead_event_pool m)) in
  let! n := present (events m !! mem) in
  Done (mem, {m with
    ne_dead_event_pool := {ne_dead_event_pool m with
      pool_head := next_sched n;
      pool_tail := match next_sched n with None => None | Some _ => pool_tail (ne_dead_event_pool m) end;
      objs_used ::= λ n, wrap 64 (n + 1)};
    events ::= <[mem := zero_event]> }).

Definition mm_release (p : ptr) (m : memory) : memory :=
  let h := alter (λ n, {n with next_sched := None}) p (events m) in
  let d := ne_dead_event_pool m in
  let objs := wrap 64 (objs_used d - 1) in
  match pool_tail d with
  | Some t =>
      {m with events := alter (λ n, {n with next_sched := Some p}) t h;
              ne_dead_event_pool := {d with pool_tail := Some p; objs_used := objs}}
  | None =>
      {m with events := h;
              ne_dead_event_pool := {d with pool_head := Some p; pool_tail := Some p; objs_used := objs}}
  end.
End Pool.

(** [mm_create]. *)
Definition no_memory : memory :=
  Memory ∅ (Anchors ∅ ∅) (Anchors ∅ ∅) (Anchors ∅ ∅) (Pool None None 0 0).

(** A change of the data of an event. *)
Definition set_ev (p : ptr) (f : event_data → event_data) (m : memory) : memory :=
  {m with events := alter (λ n, {n with ev ::= f}) p (events m)}.
(** The first of a list, and the one after an event. *)
Definition head_of (w : kind) (k : Z) (m : memory) : option ptr := heads (anchors_of w m) !! k.
Definition next_of (w : kind) (p : ptr) (m : memory) : option (option ptr) :=
  lk_next (lk w) <$> events m !! p.
(** What the events say, without their links. *)
Definition data (m : memory) : gmap ptr event_data := ev <$> events m.

(** ** What the links represent *)

(** The links of a list do not touch the data or the other links. *)
Class Linked (L : linkage) : Prop := {
  prev_set_prev o n : lk_prev L (set_prev L o n) = o;
  next_set_next o n : lk_next L (set_next L o n) = o;
  prev_set_next o n : lk_prev L (set_next L o n) = lk_prev L n;
  next_set_prev o n : lk_next L (set_prev L o n) = lk_next L n;
  ev_set_prev o n : ev (set_prev L o n) = ev n;
  ev_set_next o n : ev (set_next L o n) = ev n;
}.
#[export] Instance sched_linked : Linked sched_links. Proof. by split. Qed.
#[export] Instance char_linked : Linked char_links. Proof. by split. Qed.
#[export] Instance obj_linked : Linked obj_links. Proof. by split. Qed.

(** [L'] does not see the links of [L]. *)
Definition apart (L L' : linkage) : Prop :=
  ∀ o n, lk_prev L' (set_prev L o n) = lk_prev L' n ∧ lk_next L' (set_prev L o n) = lk_next L' n
       ∧ lk_prev L' (set_next L o n) = lk_prev L' n ∧ lk_next L' (set_next L o n) = lk_next L' n.

(** The first pointer of a list, or what comes after it; the last, or what comes before. *)
Definition first (l : list ptr) (after : option ptr) : option ptr :=
  match l with [] => after | p :: _ => Some p end.
Definition final (before : option ptr) (l : list ptr) : option ptr :=
  match last l with None => before | Some p => Some p end.

Section Chains.
Context (L : linkage).
Context `{!Linked L}.

(** A stretch of a doubly linked list. *)
Fixpoint chain (h : heap) (before : option ptr) (l : list ptr) (after : option ptr) : Prop :=
  match l with
  | [] => True
  | p :: l =>
      (∃ n, h !! p = Some n ∧ lk_prev L n = before ∧ lk_next L n = first l after)
      ∧ chain h (Some p) l after
  end.

Record listed (h : heap) (a : anchors) (k : Z) (l : list ptr) : Prop := {
  listed_head : heads a !! k = first l None;
  listed_tail : tails a !! k = final None l;
  listed_chain : chain h None l None;
  listed_nodup : NoDup l;
}.

Lemma final_cons before p l : final before (p :: l) = final (Some p) l.
Proof.
  unfold final. destruct l as [|q l]; [done|]. change (last (p :: q :: l)) with (last (q :: l)).
  destruct (last (q :: l)) eqn:E; [done|]. by apply last_None in E.
Qed.

Lemma final_snoc before l p : final before (l ++ [p]) = Some p.
Proof. unfold final. by rewrite last_snoc. Qed.

Lemma first_app l k after : first (l ++ k) after = first l (first k after).
Proof. by destruct l. Qed.

Lemma final_app before l k : final before (l ++ k) = final (final before l) k.
Proof.
  revert before. induction l as [|p l IH]; intros before; [done|].
  cbn [app]. by rewrite !final_cons, IH.
Qed.

Lemma chain_app h before l k after :
  chain h before (l ++ k) after
  ↔ chain h before l (first k after) ∧ chain h (final before l) k after.
Proof.
  revert before. induction l as [|p l IH]; intros before; cbn [app chain]; [naive_solver|].
  rewrite IH, final_cons, first_app. tauto.
Qed.

(** The links of an event. *)
Definition links (n : nevent_data) : option ptr * option ptr := (lk_prev L n, lk_next L n).

Lemma chain_frame h h' before l after :
  (∀ p, p ∈ l → links <$> h' !! p = links <$> h !! p) →
  chain h before l after → chain h' before l after.
Proof.
  revert before. induction l as [|p l IH]; intros before F; cbn [chain]; [done|].
  intros [(n & E & P & N) C]. split.
  - specialize (F p ltac:(left)). rewrite E in F. cbn in F.
    destruct (h' !! p) as [n'|]; [|done]. injection F as P' N'. exists n'. by rewrite P', N'.
  - apply IH; [|done]. intros q I. apply F. by right.
Qed.

Lemma chain_alter h before l after p f :
  p ∉ l → chain h before l after → chain (alter f p h) before l after.
Proof.
  intros N. apply chain_frame. intros q I. rewrite lookup_alter_ne; [done|]. by intros ->.
Qed.

Lemma chain_valid h before l after p : chain h before l after → p ∈ l → is_Some (h !! p).
Proof.
  revert before. induction l as [|q l IH]; intros before C I; [by apply not_elem_of_nil in I|].
  destruct C as [(n & E & _) C]. apply elem_of_cons in I as [->|I]; [by rewrite E|by eapply IH].
Qed.

(** The two ends are rewritten. *)
Lemma chain_first h before before' p l after :
  p ∉ l → chain h before (p :: l) after → chain (alter (set_prev L before') p h) before' (p :: l) after.
Proof.
  intros N [(n & E & P & Nx) C]. split; [|by apply chain_alter].
  exists (set_prev L before' n). rewrite lookup_alter_eq, E. split; [done|].
  by rewrite prev_set_prev, next_set_prev.
Qed.

Lemma chain_final h before l p after after' :
  p ∉ l → chain h before (l ++ [p]) after → chain (alter (set_next L after') p h) before (l ++ [p]) after'.
Proof.
  intros N C. apply chain_app in C as [C1 [(n & E & P & Nx) _]]. apply chain_app. split.
  - by apply chain_alter.
  - split; [|done]. exists (set_next L after' n). rewrite lookup_alter_eq, E. split; [done|].
    by rewrite prev_set_next, next_set_next.
Qed.

Lemma chain_at h l1 p l2 n :
  chain h None (l1 ++ p :: l2) None → h !! p = Some n →
  lk_prev L n = final None l1 ∧ lk_next L n = first l2 None.
Proof.
  intros C E. apply chain_app in C as [_ [(n' & E' & P & N) _]]. rewrite E in E'. by injection E' as <-.
Qed.
End Chains.

Lemma set_anchor_eq k o (m : gmap Z ptr) : set_anchor k o m !! k = o.
Proof. apply lookup_partial_alter_eq. Qed.
Lemma set_anchor_ne k i o (m : gmap Z ptr) : k ≠ i → set_anchor k o m !! i = m !! i.
Proof. apply lookup_partial_alter_ne. Qed.

(** What a change of the links of one list leaves: all else of the events. *)
Definition same_except (L : linkage) (n n' : nevent_data) : Prop :=
  ev n' = ev n ∧ ∀ L', apart L L' → links L' n' = links L' n.
Definition others (L : linkage) (h h' : heap) : Prop :=
  ∀ p, option_Forall2 (same_except L) (h !! p) (h' !! p).

#[export] Instance same_except_preorder L : PreOrder (same_except L).
Proof.
  split; [done|]. intros n1 n2 n3 [E1 F1] [E2 F2]. split; [congruence|].
  intros L' A. rewrite F2 by done. by apply F1.
Qed.
#[export] Instance others_preorder L : PreOrder (others L).
Proof.
  split; [by intros h p|]. intros h1 h2 h3 O1 O2 p. etransitivity; [apply O1|apply O2].
Qed.

Lemma others_alter L h f p : (∀ n, same_except L n (f n)) → others L h (alter f p h).
Proof.
  intros F q. destruct (decide (p = q)) as [->|N].
  - rewrite lookup_alter_eq. destruct (h !! q); constructor. apply F.
  - by rewrite lookup_alter_ne.
Qed.

Lemma same_set_prev L `{!Linked L} o n : same_except L n (set_prev L o n).
Proof.
  split; [apply ev_set_prev|]. intros L' A. destruct (A o n) as (P & N & _). unfold links. by rewrite P, N.
Qed.
Lemma same_set_next L `{!Linked L} o n : same_except L n (set_next L o n).
Proof.
  split; [apply ev_set_next|]. intros L' A. destruct (A o n) as (_ & _ & P & N). unfold links. by rewrite P, N.
Qed.

Lemma same_set_both L `{!Linked L} o o' n : same_except L n (set_prev L o (set_next L o' n)).
Proof. transitivity (set_next L o' n); [by apply same_set_next|by apply same_set_prev]. Qed.

(** Where a change of one list of anchors and events shows. *)
Record confined (L : linkage) (k : Z) (l : list ptr) (h h' : heap) (a a' : anchors) : Prop := {
  conf_others : others L h h';
  conf_heap q : q ∉ l → h' !! q = h !! q;
  conf_heads i : i ≠ k → heads a' !! i = heads a !! i;
  conf_tails i : i ≠ k → tails a' !! i = tails a !! i;
}.

Section Unlink.
Context (L : linkage).
Context `{!Linked L}.

(** The part of a list before an event and the part after it are joined. *)
Lemma join_before h k a l1 p l2 n :
  listed L h a k (l1 ++ p :: l2) → h !! p = Some n →
  ∃ h1 a1,
    match lk_prev L n with
    | Some q =>
        let? nq := h !! q in
        ensure? bool_decide (lk_next L nq = Some p) in
        Some (alter (set_next L (lk_next L n)) q h, a)
    | None =>
        ensure? bool_decide (heads a !! k = Some p) in
        Some (h, {a with heads ::= set_anchor k (lk_next L n)})
    end = Some (h1, a1)
    ∧ confined L k (l1 ++ p :: l2) h h1 a a1 ∧ h1 !! p = h !! p
    ∧ heads a1 !! k = first (l1 ++ l2) None ∧ tails a1 !! k = tails a !! k
    ∧ chain L h1 None l1 (first l2 None) ∧ chain L h1 (Some p) l2 None.
Proof.
  intros [Hd Tl C N] E. destruct (chain_at L h l1 p l2 n C E) as [P Nx]. rewrite P, Nx.
  apply NoDup_app in N as (N1 & D & N2). apply NoDup_cons in N2 as [Np N2].
  apply chain_app in C as [C1 [_ C2]].
  destruct l1 as [|q l1 _] using rev_ind.
  - cbn [final last]. change (final None []) with (@None ptr). cbn [app] in *.
    rewrite Hd. cbn [first]. rewrite bool_decide_true by done. cbn [negb].
    eexists h, _. split; [done|]. split; [split|].
    + done.
    + done.
    + intros i Ni. exact (set_anchor_ne k i (first l2 None) (heads a) (not_eq_sym Ni)).
    + done.
    + split; [done|]. split; [exact (set_anchor_eq k (first l2 None) (heads a))|]. by split.
  - rewrite final_snoc. apply NoDup_app in N1 as (N1 & D1 & _).
    assert (q ∉ l1) as Nq by (intros I; apply (D1 q I); by left).
    assert (q ≠ p) as Qp by (intros ->; apply (D p); [set_solver|by left]).
    assert (q ∉ l2) as Ql by (intros I; apply (D q); [set_solver|by right]).
    pose proof C1 as C1'. apply chain_app in C1' as [_ [(nq & Eq & _ & Nq') _]]. cbn [first] in Nq'.
    rewrite Eq, Nq'. rewrite bool_decide_true by done. cbn [negb].
    eexists _, a. split; [done|]. split; [split|].
    + apply others_alter. intros m. by apply same_set_next.
    + intros r I. rewrite lookup_alter_ne; [done|]. intros ->. apply I. set_solver.
    + done.
    + done.
    + split; [by rewrite lookup_alter_ne|]. split.
      { rewrite Hd, !first_app. by destruct l1. }
      split; [done|]. split.
      * by eapply chain_final.
      * by apply chain_alter.
Qed.

(** The other half, after the first. *)
Lemma join_after h a k l1 p l2 n :
  NoDup (l1 ++ p :: l2) → h !! p = Some n →
  lk_prev L n = final None l1 → lk_next L n = first l2 None →
  tails a !! k = final (Some p) l2 →
  chain L h None l1 (first l2 None) → chain L h (Some p) l2 None →
  ∃ h1 a1,
    match lk_next L n with
    | Some q =>
        let? nq := h !! q in
        ensure? bool_decide (lk_prev L nq = Some p) in
        Some (alter (set_prev L (lk_prev L n)) q h, a)
    | None =>
        ensure? bool_decide (tails a !! k = Some p) in
        Some (h, {a with tails ::= set_anchor k (lk_prev L n)})
    end = Some (h1, a1)
    ∧ confined L k (l1 ++ p :: l2) h h1 a a1 ∧ h1 !! p = h !! p
    ∧ heads a1 !! k = heads a !! k ∧ tails a1 !! k = final None (l1 ++ l2)
    ∧ chain L h1 None (l1 ++ l2) None.
Proof.
  intros N E P Nx Tl C1 C2. rewrite Nx, P.
  apply NoDup_app in N as (N1 & D & N2). apply NoDup_cons in N2 as [Np N2].
  destruct l2 as [|q l2].
  - cbn [first]. rewrite Tl. rewrite bool_decide_true by done. cbn [negb]. rewrite app_nil_r.
    eexists h, _. split; [done|]. split; [split|].
    + done.
    + done.
    + done.
    + intros i Ni. exact (set_anchor_ne k i (final None l1) (tails a) (not_eq_sym Ni)).
    + split; [done|]. split; [done|]. split; [exact (set_anchor_eq k (final None l1) (tails a))|].
      exact C1.
  - cbn [first]. apply NoDup_cons in N2 as [Nq N2].
    assert (q ≠ p) as Qp by (intros ->; apply Np; by left).
    assert (q ∉ l1) as Ql by (intros I; apply (D q I); right; by left).
    pose proof C2 as [(nq & Eq & Pq & _) _]. rewrite Eq, Pq.
    rewrite bool_decide_true by done. cbn [negb].
    eexists _, a. split; [done|]. split; [split|].
    + apply others_alter. intros m. by apply same_set_prev.
    + intros r I. rewrite lookup_alter_ne; [done|]. intros ->. apply I. set_solver.
    + done.
    + done.
    + split; [by rewrite lookup_alter_ne|]. split; [done|]. split.
      { rewrite Tl, final_app. by rewrite !final_cons. }
      apply chain_app. split; [by apply chain_alter|]. by eapply chain_first.
Qed.

Lemma confined_trans k l h1 h2 h3 a1 a2 a3 :
  confined L k l h1 h2 a1 a2 → confined L k l h2 h3 a2 a3 → confined L k l h1 h3 a1 a3.
Proof.
  intros [O1 H1 A1 T1] [O2 H2 A2 T2]. split.
  - by etransitivity.
  - intros q I. by rewrite H2, H1.
  - intros i I. by rewrite A2, A1.
  - intros i I. by rewrite T2, T1.
Qed.

Lemma unlink_listed h k a l1 p l2 :
  listed L h a k (l1 ++ p :: l2) →
  ∃ h' a', unlink L k p h a = Some (h', a')
    ∧ confined L k (l1 ++ p :: l2) h h' a a' ∧ listed L h' a' k (l1 ++ l2)
    ∧ links L <$> h' !! p = Some (None, None).
Proof.
  intros Ls. pose proof Ls as [Hd Tl C N].
  destruct (chain_valid L h None _ None p C) as [n E]; [set_solver|].
  destruct (chain_at L h l1 p l2 n C E) as [P Nx].
  destruct (join_before h k a l1 p l2 n Ls E) as (h1 & a1 & E1 & F1 & Ep & Hd1 & Tl1 & C1 & C2).
  rewrite Tl, final_app, final_cons in Tl1. rewrite E in Ep.
  destruct (join_after h1 a1 k l1 p l2 n N Ep P Nx Tl1 C1 C2) as (h2 & a2 & E2 & F2 & Ep2 & Hd2 & Tl2 & C3).
  rewrite Ep in Ep2. unfold unlink. rewrite E, E1, E2.
  eexists _, a2. split; [done|].
  assert (p ∉ l1 ++ l2) as Np.
  { apply NoDup_app in N as (_ & D & N2). apply NoDup_cons in N2 as [Np _].
    intros I. apply elem_of_app in I as [I|I]; [|done]. apply (D p I). by left. }
  split; [|split].
  - eapply confined_trans; [exact F1|]. eapply confined_trans; [exact F2|]. split; try done.
    + apply others_alter. intros m. by apply same_set_both.
    + intros q I. rewrite lookup_alter_ne; [done|]. intros ->. apply I. set_solver.
  - split; [by rewrite Hd2|done|by apply chain_alter|].
    apply NoDup_app in N as (N1 & D & N2). apply NoDup_cons in N2 as [_ N2]. apply NoDup_app.
    split; [done|]. split; [|done]. intros q I J. apply (D q I). by right.
  - rewrite lookup_alter_eq, Ep2. cbn. unfold links.
    by rewrite prev_set_prev, next_set_prev, next_set_next.
Qed.

Lemma append_listed h k a l p :
  listed L h a k l → p ∉ l → is_Some (h !! p) →
  let '(h', a') := append L k p h a in
  confined L k (l ++ [p]) h h' a a' ∧ listed L h' a' k (l ++ [p]).
Proof.
  intros [Hd Tl C N] Np [n E]. unfold append. rewrite Tl.
  set (h1 := alter _ p h).
  assert (h1 !! p = Some (set_prev L (final None l) (set_next L None n))) as E1
    by (unfold h1; by rewrite lookup_alter_eq, E).
  assert (chain L h1 None l None) as C1 by by apply chain_alter.
  assert (NoDup (l ++ [p])) as N'.
  { apply NoDup_app. split; [done|]. split; [|apply NoDup_singleton]. intros q I J.
    apply list_elem_of_singleton in J as ->. done. }
  assert (others L h h1) as O1.
  { apply others_alter. intros m. by apply same_set_both. }
  assert (∀ q, q ∉ l ++ [p] → h1 !! q = h !! q) as F1.
  { intros q I. unfold h1. rewrite lookup_alter_ne; [done|]. intros ->. apply I. set_solver. }
  destruct l as [|q l _] using rev_ind.
  - change (final None []) with (@None ptr). split; [split; try done|split; try done].
    + intros i Ni. exact (set_anchor_ne k i (Some p) (heads a) (not_eq_sym Ni)).
    + intros i Ni. exact (set_anchor_ne k i (Some p) (tails a) (not_eq_sym Ni)).
    + exact (set_anchor_eq k (Some p) (heads a)).
    + exact (set_anchor_eq k (Some p) (tails a)).
    + split; [|done]. eexists. split; [exact E1|].
      by rewrite prev_set_prev, next_set_prev, next_set_next.
  - rewrite final_snoc in *. apply NoDup_app in N as (Nl & Dl & _).
    assert (q ∉ l) as Nq by (intros I; apply (Dl q I); by left).
    assert (q ≠ p) as Qp by (intros ->; apply Np; set_solver).
    split; [split; try done|split; try done].
    + etransitivity; [exact O1|]. apply others_alter. intros m. by apply same_set_next.
    + intros r I. rewrite lookup_alter_ne; [by apply F1|]. intros ->. apply I. set_solver.
    + intros i Ni. exact (set_anchor_ne k i (Some p) (tails a) (not_eq_sym Ni)).
    + cbn [heads]. change (heads a !! k = first ((l ++ [q]) ++ [p]) None). rewrite Hd, !first_app. by destruct l.
    + rewrite final_snoc. exact (set_anchor_eq k (Some p) (tails a)).
    + apply chain_app. split; [by eapply chain_final|]. split; [|done].
      exists (set_prev L (Some q) (set_next L None n)). rewrite lookup_alter_ne by done. split; [exact E1|].
      by rewrite final_snoc, prev_set_prev, next_set_prev, next_set_next.
Qed.

Lemma insert_listed h k a l1 c l2 p :
  listed L h a k (l1 ++ c :: l2) → p ∉ l1 ++ c :: l2 → is_Some (h !! p) →
  ∃ h' a', insert_before L k p c h a = Some (h', a')
    ∧ confined L k (l1 ++ p :: c :: l2) h h' a a' ∧ listed L h' a' k (l1 ++ p :: c :: l2).
Proof.
  intros [Hd Tl C N] Np [n E]. destruct (chain_valid L h None _ None c C) as [nc Ec]; [set_solver|].
  destruct (chain_at L h l1 c l2 nc C Ec) as [P Nx]. unfold insert_before. rewrite Ec, P.
  set (h1 := alter _ p h).
  assert (h1 !! p = Some (set_prev L (final None l1) (set_next L (Some c) n))) as E1
    by (unfold h1; by rewrite lookup_alter_eq, E).
  assert (chain L h1 None (l1 ++ c :: l2) None) as C1 by by apply chain_alter.
  apply chain_app in C1 as [C1 C2]. cbn [first] in C1.
  pose proof N as N'. apply NoDup_app in N' as (N1 & D & N2). apply NoDup_cons in N2 as [Nc N2].
  assert (c ≠ p) as Cp by (intros ->; set_solver).
  assert (c ∉ l1) as Cl by (intros I; apply (D c I); by left).
  assert (others L h h1) as O1.
  { apply others_alter. intros m. by apply same_set_both. }
  assert (∀ q, q ∉ l1 ++ p :: c :: l2 → h1 !! q = h !! q) as F1.
  { intros q I. unfold h1. rewrite lookup_alter_ne; [done|]. intros ->. apply I. set_solver. }
  assert (NoDup (l1 ++ p :: c :: l2)) as Nn.
  { rewrite <- (Permutation_middle l1 (c :: l2) p). by apply NoDup_cons. }
  destruct l1 as [|q l1 _] using rev_ind.
  - change (final None []) with (@None ptr) in *. cbn [app] in *.
    eexists _, _. split; [done|]. split; [split; try done|split; try done].
    + etransitivity; [exact O1|]. apply others_alter. intros m. by apply same_set_prev.
    + intros r I. rewrite lookup_alter_ne; [by apply F1|]. intros ->. apply I. set_solver.
    + intros i Ni. exact (set_anchor_ne k i (Some p) (heads a) (not_eq_sym Ni)).
    + exact (set_anchor_eq k (Some p) (heads a)).
    + split; [|by eapply chain_first].
      exists (set_prev L None (set_next L (Some c) n)). rewrite lookup_alter_ne by done. split; [exact E1|].
      by rewrite prev_set_prev, next_set_prev, next_set_next.
  - rewrite final_snoc in *. apply NoDup_app in N1 as (Nl & Dl & _).
    assert (q ∉ l1) as Nq by (intros I; apply (Dl q I); by left).
    assert (q ≠ p) as Qp by (intros ->; apply Np; set_solver).
    assert (q ≠ c) as Qc by (intros ->; apply Cl; set_solver).
    assert (q ∉ l2) as Ql by (intros I; apply (D q); set_solver).
    eexists _, _. split; [done|]. split; [split; try done|split; try done].
    + etransitivity; [exact O1|]. etransitivity.
      * apply others_alter. intros m. by apply same_set_next.
      * apply others_alter. intros m. by apply same_set_prev.
    + intros r I. rewrite !lookup_alter_ne; [by apply F1|..]; intros ->; apply I; set_solver.
    + rewrite Hd, !first_app. by destruct l1.
    + rewrite Tl, !final_app, !final_cons. done.
    + apply chain_app. cbn [first]. split.
      * apply chain_alter; [done|]. by eapply chain_final.
      * rewrite final_snoc. split.
        -- exists (set_prev L (Some q) (set_next L (Some c) n)). rewrite !lookup_alter_ne by done.
           split; [exact E1|]. by rewrite prev_set_prev, next_set_prev, next_set_next.
        -- eapply chain_first; [exact _|done|]. apply chain_alter; [|exact C2].
           intros I. apply elem_of_cons in I as [?|?]; done.
Qed.
End Unlink.

(** ** The memory as lists *)

(** What the pointers represent: the list at each bucket, character and object, and the
    free objects of the pool. *)
Record view := View {
  lists : kind → Z → list ptr;
  free : list ptr;
}.
Definition buckets (v : view) : Z → list ptr := lists v Sched.

Definition without (p : ptr) (l : list ptr) : list ptr := filter (λ q, q ≠ p) l.

Definition set_list (w : kind) (k : Z) (l : list ptr) (v : view) : view :=
  {v with lists := λ w' j, if decide (w = w' ∧ k = j) then l else lists v w' j}.

(** The free objects through their [next_sched]. *)
Fixpoint path (h : heap) (l : list ptr) (after : option ptr) : Prop :=
  match l with
  | [] => True
  | p :: l => next_sched <$> h !! p = Some (first l after) ∧ path h l after
  end.

Record rep (m : memory) (v : view) : Prop := {
  rep_dense p : is_Some (events m !! p) ↔ (p < size (events m))%nat;
  rep_listed w k : listed (lk w) (events m) (anchors_of w m) k (lists v w k);
  rep_apart w j k p : p ∈ lists v w j → p ∈ lists v w k → j = k;
  rep_free_apart w k p : p ∈ free v → p ∈ lists v w k → False;
  rep_head : pool_head (ne_dead_event_pool m) = first (free v) None;
  rep_tail : pool_tail (ne_dead_event_pool m) = final None (free v);
  rep_path : path (events m) (free v) None;
  rep_nodup : NoDup (free v);
  rep_free p : p ∈ free v → is_Some (events m !! p);
}.

#[export] Instance lk_linked w : Linked (lk w). Proof. destruct w; apply _. Qed.
Lemma lk_apart w w' : w ≠ w' → apart (lk w) (lk w').
Proof. by destruct w, w'. Qed.

Lemma without_none p l : p ∉ l → without p l = l.
Proof.
  unfold without. induction l as [|q l IH]; [done|]. intros N. apply not_elem_of_cons in N as [N1 N2].
  rewrite filter_cons_True by done. by rewrite IH.
Qed.
Lemma without_middle p l1 l2 : NoDup (l1 ++ p :: l2) → without p (l1 ++ p :: l2) = l1 ++ l2.
Proof.
  intros N. apply NoDup_app in N as (_ & D & N2). apply NoDup_cons in N2 as [Np _].
  unfold without. rewrite filter_app, filter_cons_False by tauto.
  change (without p l1 ++ without p l2 = l1 ++ l2). rewrite !without_none; [done..|].
  intros I. apply (D p I). by left.
Qed.
Lemma elem_of_without_event p q l : q ∈ without p l ↔ q ∈ l ∧ q ≠ p.
Proof. unfold without. rewrite list_elem_of_filter. tauto. Qed.

Lemma listed_frame L h h' a a' k l :
  (∀ p, p ∈ l → links L <$> h' !! p = links L <$> h !! p) →
  heads a' !! k = heads a !! k → tails a' !! k = tails a !! k →
  listed L h a k l → listed L h' a' k l.
Proof.
  intros F E1 E2 [Hd Tl C N]. split; [by rewrite E1|by rewrite E2| |done]. by eapply chain_frame.
Qed.

Lemma path_frame h h' l after :
  (∀ p, p ∈ l → next_sched <$> h' !! p = next_sched <$> h !! p) → path h l after → path h' l after.
Proof.
  induction l as [|p l IH]; intros F; cbn [path]; [done|]. intros [E P]. split.
  - rewrite F; [done|by left].
  - apply IH; [|done]. intros q I. apply F. by right.
Qed.

Lemma path_app h l k after : path h (l ++ k) after ↔ path h l (first k after) ∧ path h k after.
Proof. induction l as [|p l IH]; cbn [app path]; [tauto|]. rewrite IH, first_app. tauto. Qed.
Lemma path_alter h p f l after : p ∉ l → path h l after → path (alter f p h) l after.
Proof. intros N. apply path_frame. intros q I. rewrite lookup_alter_ne; [done|]. by intros ->. Qed.

Lemma others_ev L h h' : others L h h' → ev <$> h' = ev <$> h.
Proof.
  intros O. apply map_eq. intros p. rewrite !lookup_fmap. specialize (O p).
  destruct O as [n n' [E _]|]; cbn; [by rewrite E|done].
Qed.
Lemma others_dom L h h' p : others L h h' → is_Some (h' !! p) ↔ is_Some (h !! p).
Proof. intros O. specialize (O p). destruct O; split; eauto; intros [? ?]; done. Qed.
Lemma others_size L h h' : others L h h' → size h' = size h.
Proof.
  intros O. rewrite <- !size_dom. f_equal. apply set_eq. intros p. rewrite !elem_of_dom.
  by eapply others_dom.
Qed.
Lemma others_links L L' h h' p : others L h h' → apart L L' → links L' <$> h' !! p = links L' <$> h !! p.
Proof. intros O A. specialize (O p). destruct O as [n n' [_ F]|]; cbn; [by rewrite F|done]. Qed.

Lemma events_with_list w h a m : events (with_list w h a m) = h.
Proof. by destruct w. Qed.
Lemma anchors_with_list w h a m : anchors_of w (with_list w h a m) = a.
Proof. by destruct w. Qed.
Lemma anchors_with_list_ne w w' h a m : w ≠ w' → anchors_of w' (with_list w h a m) = anchors_of w' m.
Proof. by destruct w, w'. Qed.
Lemma pool_with_list w h a m : ne_dead_event_pool (with_list w h a m) = ne_dead_event_pool m.
Proof. by destruct w. Qed.

Lemma lists_set w k l v w' j :
  lists (set_list w k l v) w' j = if decide (w = w' ∧ k = j) then l else lists v w' j.
Proof. done. Qed.
Lemma free_set w k l v : free (set_list w k l v) = free v.
Proof. done. Qed.

Lemma links_next_sched (h h' : heap) p :
  links sched_links <$> h' !! p = links sched_links <$> h !! p →
  next_sched <$> h' !! p = next_sched <$> h !! p.
Proof.
  intros E. destruct (h !! p) as [n|], (h' !! p) as [n'|]; cbn in *; try done. injection E as _ E.
  by rewrite E.
Qed.

(** One list of one kind changed, its place of [l] taken by [l']: what an operation on the
    links of that kind must show. *)
Lemma rep_change m v w k h a l' touched :
  rep m v →
  confined (lk w) k touched (events m) h (anchors_of w m) a →
  listed (lk w) h a k l' →
  (∀ p, p ∈ touched → p ∈ lists v w k ∨ p ∉ free v ∧ ∀ j, p ∉ lists v w j) →
  (∀ p, p ∈ l' → p ∈ touched) →
  rep (with_list w h a m) (set_list w k l' v).
Proof.
  intros R [O F Hd Tl] Ls T S.
  assert (∀ p, p ∈ free v → links sched_links <$> h !! p = links sched_links <$> events m !! p) as Ff.
  { intros p I. destruct (decide (w = Sched)) as [->|N].
    - rewrite F; [done|]. intros J. destruct (T p J) as [J'|[J' _]]; [|done].
      by eapply (rep_free_apart m v R).
    - by apply (others_links (lk w) (lk Sched) _ _ _ O (lk_apart w Sched N)). }
  split; rewrite ?events_with_list, ?pool_with_list, ?free_set.
  - intros p. rewrite (others_size _ _ _ O), (others_dom _ _ _ p O). apply (rep_dense m v R).
  - intros w' j. rewrite lists_set. destruct (decide (w = w' ∧ k = j)) as [[<- <-]|N].
    + by rewrite anchors_with_list.
    + destruct (decide (w = w')) as [<-|N'].
      * rewrite anchors_with_list. assert (j ≠ k) as Nj by (intros ->; tauto).
        eapply listed_frame; [|by apply Hd|by apply Tl|apply (rep_listed m v R)].
        intros p I. rewrite F; [done|]. intros J. destruct (T p J) as [J'|[_ J']].
        -- apply Nj. by eapply (rep_apart m v R).
        -- by eapply J'.
      * rewrite anchors_with_list_ne by done.
        eapply listed_frame; [|done|done|apply (rep_listed m v R)].
        intros p I. by apply (others_links (lk w) (lk w') _ _ _ O (lk_apart w w' N')).
  - intros w' i j p. rewrite !lists_set. destruct (decide (w = w' ∧ k = i)) as [[<- <-]|N1];
      destruct (decide _) as [[? ?]|N2]; try by simplify_eq.
    + intros I J. destruct (T p (S p I)) as [J'|[_ J']]; [by eapply (rep_apart m v R)|].
      exfalso. by eapply J'.
    + intros I J. simplify_eq. destruct (T p (S p J)) as [J'|[_ J']]; [by eapply (rep_apart m v R)|].
      exfalso. by eapply J'.
    + apply (rep_apart m v R).
  - intros w' j p I. rewrite lists_set. destruct (decide _) as [[<- <-]|N]; [|by apply (rep_free_apart m v R)].
    intros J. destruct (T p (S p J)) as [J'|[J' _]]; [|done]. by eapply (rep_free_apart m v R).
  - apply (rep_head m v R).
  - apply (rep_tail m v R).
  - eapply path_frame; [|apply (rep_path m v R)]. intros p I. by apply links_next_sched, Ff.
  - apply (rep_nodup m v R).
  - intros p I. rewrite (others_dom _ _ _ p O). by apply (rep_free m v R).
Qed.

(** ** What the operations do to the lists *)

Lemma data_lookup m p n : events m !! p = Some n → data m !! p = Some (ev n).
Proof. intros E. unfold data. by rewrite lookup_fmap, E. Qed.
Lemma lookup_data m p d : data m !! p = Some d → ∃ n, events m !! p = Some n ∧ ev n = d.
Proof. unfold data. rewrite lookup_fmap. intros E. by apply fmap_Some in E as (n & E & ->); eauto. Qed.
Lemma size_data m : size (data m) = size (events m).
Proof. unfold data. apply map_size_fmap. Qed.

Lemma data_with_list w h a m L : others L (events m) h → data (with_list w h a m) = data m.
Proof. intros O. unfold data. rewrite events_with_list. by eapply others_ev. Qed.

Lemma listed_valid m v w k p : rep m v → p ∈ lists v w k → is_Some (events m !! p).
Proof. intros R I. eapply chain_valid; [apply (rep_listed m v R)|exact I]. Qed.

Lemma unlink_at_spec m v w k p :
  rep m v → p ∈ lists v w k →
  ∃ m', unlink_at w k p m = Some m'
    ∧ rep m' (set_list w k (without p (lists v w k)) v)
    ∧ data m' = data m ∧ ne_dead_event_pool m' = ne_dead_event_pool m.
Proof.
  intros R I. destruct (list_elem_of_split _ _ I) as (l1 & l2 & E).
  pose proof (rep_listed m v R w k) as Ls. rewrite E in Ls.
  destruct (unlink_listed (lk w) _ _ _ _ _ _ Ls) as (h & a & U & C & Ls' & _).
  unfold unlink_at. rewrite U. eexists. split; [done|]. split; [|split].
  - rewrite E, without_middle by apply (listed_nodup _ _ _ _ _ Ls).
    eapply rep_change; [exact R|exact C|exact Ls'|..].
    + intros q J. left. by rewrite E.
    + intros q J. set_solver.
  - by eapply data_with_list, conf_others.
  - apply pool_with_list.
Qed.

(** An event on no list of a kind and not free. *)
Definition loose (v : view) (w : kind) (p : ptr) : Prop := p ∉ free v ∧ ∀ k, p ∉ lists v w k.

Lemma append_at_spec m v w k p :
  rep m v → loose v w p → is_Some (events m !! p) →
  let m' := append_at w k p m in
  rep m' (set_list w k (lists v w k ++ [p]) v)
  ∧ data m' = data m ∧ ne_dead_event_pool m' = ne_dead_event_pool m.
Proof.
  intros R [Nf Nl] V. unfold append_at.
  pose proof (append_listed (lk w) _ _ _ _ p (rep_listed m v R w k) (Nl k) V) as A.
  destruct (append (lk w) k p (events m) (anchors_of w m)) as [h a]. destruct A as [C Ls].
  split; [|split].
  - eapply rep_change; [exact R|exact C|exact Ls|..].
    + intros q J. apply elem_of_app in J as [J|J]; [by left|].
      apply list_elem_of_singleton in J as ->. by right.
    + done.
  - by eapply data_with_list, conf_others.
  - apply pool_with_list.
Qed.

(** How an event sorts against one of a list. *)
Definition sorts (before : event_data → event_data → bool) (m : memory) (e : event_data) (q : ptr)
  : Prop := ∃ d, data m !! q = Some d ∧ before e d = true.

Lemma sorts_dec before m e q n :
  events m !! q = Some n → before e (ev n) = false → ¬ sorts before m e q.
Proof. intros E B (d & D & S). rewrite (data_lookup _ _ _ E) in D. congruence. Qed.

Lemma walk_back_spec before e m v k : rep m v → ∀ fuel l1 c l2,
  buckets v k = l1 ++ c :: l2 → (length l1 < fuel)%nat → Forall (sorts before m e) (c :: l2) →
  ∃ k1 c' k2, buckets v k = k1 ++ c' :: k2 ∧ walk_back before e fuel c (events m) = Some c'
    ∧ Forall (sorts before m e) (c' :: k2) ∧ (∀ q, last k1 = Some q → ¬ sorts before m e q).
Proof.
  intros R. induction fuel as [|fuel IH]; intros l1 c l2 E F S; [lia|].
  pose proof (rep_listed m v R Sched k) as Ls. change (lists v Sched k) with (buckets v k) in Ls. rewrite E in Ls.
  pose proof (listed_chain _ _ _ _ _ Ls) as C.
  destruct (chain_valid _ _ _ _ _ c C) as [n En]; [set_solver|].
  destruct (chain_at _ _ _ _ _ _ C En) as [P _]. change (lk_prev (lk Sched) n) with (prev_sched n) in P.
  cbn [walk_back]. rewrite En, P. destruct l1 as [|q l1 _] using rev_ind.
  { exists [], c, l2. split; [done|]. split; [done|]. by split. }
  rewrite final_snoc. destruct (chain_valid _ _ _ _ _ q C) as [nq Eq]; [set_solver|]. rewrite Eq.
  destruct (before e (ev nq)) eqn:B.
  - rewrite length_app in F. cbn in F. apply (IH l1 q (c :: l2)); [by rewrite E, <- app_assoc|lia|].
    constructor; [|done]. exists (ev nq). split; [by apply data_lookup|done].
  - exists (l1 ++ [q]), c, l2. split; [done|]. split; [done|]. split; [done|].
    intros r. rewrite last_snoc. intros [= <-]. by eapply sorts_dec.
Qed.

Lemma list_bound (h : heap) (l : list ptr) :
  NoDup l → (∀ p, p ∈ l → is_Some (h !! p)) → (length l ≤ size h)%nat.
Proof.
  intros N V. rewrite <- (size_list_to_set (C := gset ptr)) by done. rewrite <- size_dom.
  apply subseteq_size. intros p I. apply elem_of_dom, V. by apply elem_of_list_to_set in I.
Qed.

Lemma bucket_bound m v w k : rep m v → (length (lists v w k) ≤ size (events m))%nat.
Proof.
  intros R. apply list_bound; [apply (listed_nodup _ _ _ _ _ (rep_listed m v R w k))|].
  intros p. by apply listed_valid.
Qed.

(** An event comes before all that sort after it and after the next. *)
Lemma link_schedule_spec before p d k m v :
  rep m v → loose v Sched p → data m !! p = Some d →
  ∃ m' l1 l2, nevent_link_schedule before p k m = Some m'
    ∧ buckets v k = l1 ++ l2
    ∧ rep m' (set_list Sched k (l1 ++ p :: l2) v)
    ∧ data m' = data m ∧ ne_dead_event_pool m' = ne_dead_event_pool m
    ∧ Forall (sorts before m d) l2 ∧ (∀ q, last l1 = Some q → ¬ sorts before m d q).
Proof.
  intros R Ls D. destruct (lookup_data _ _ _ D) as (n & En & <-).
  assert (is_Some (events m !! p)) as V by eauto.
  destruct (append_at_spec m v Sched k p R Ls V) as (Ra & Da & Pa).
  pose proof (rep_listed m v R Sched k) as Lk. pose proof Lk as [_ Tl C Nd].
  unfold nevent_link_schedule. rewrite En. change (anchors_of Sched m) with (wheel m) in Tl. rewrite Tl.
  change (lists v Sched k) with (buckets v k) in *.
  destruct (buckets v k) as [|t l _] eqn:Eb using rev_ind.
  { eexists _, [], []. split; [done|]. split; [done|]. split; [done|]. split; [done|]. split; [done|].
    by split; [constructor|]. }
  rewrite final_snoc. destruct (chain_valid _ _ _ _ _ t C) as [nt Et]; [set_solver|]. rewrite Et.
  destruct (before (ev n) (ev nt)) eqn:B; cbn [negb].
  - destruct (walk_back_spec before (ev n) m v k R (size (events m)) l t []) as (k1 & c & k2 & E & W & S & N).
    + exact Eb.
    + pose proof (bucket_bound m v Sched k R) as L. change (lists v Sched k) with (buckets v k) in L.
      rewrite Eb, length_app in L. cbn in L. lia.
    + constructor; [|constructor]. exists (ev nt). split; [by apply data_lookup|done].
    + rewrite W. rewrite Eb in E. rewrite E in Lk.
      destruct (insert_listed sched_links _ _ _ _ _ _ p Lk) as (h & a & I & Cf & Ls').
      { rewrite <- E, <- Eb. apply Ls. }
      { done. }
      change (anchors_of Sched m) with (wheel m) in I. rewrite I. exists (with_list Sched h a m), k1, (c :: k2). split; [done|]. split; [done|].
      split; [|split; [by eapply data_with_list, conf_others|done]].
      eapply rep_change; [exact R|exact Cf|exact Ls'|..].
      * intros q J. change (lists v Sched k) with (buckets v k). rewrite Eb, E.
        destruct (decide (q = p)) as [->|N']; [by right|left; set_solver].
      * done.
  - eexists _, (l ++ [t]), []. split; [done|]. split; [by rewrite app_nil_r|]. split; [done|].
    split; [done|]. split; [done|]. split; [constructor|]. intros q. rewrite last_snoc. intros [= <-].
    by eapply sorts_dec.
Qed.

(** Two ordered lists into one, the second first among equals. *)
Fixpoint merge_lists (lt : ptr → ptr → bool) (batch : list ptr) : list ptr → list ptr :=
  fix go l :=
    match batch, l with
    | [], _ => l
    | _, [] => batch
    | b :: batch', c :: l' => if lt b c then b :: merge_lists lt batch' l else c :: go l'
    end.

Definition sorts_before (before : event_data → event_data → bool) (m : gmap ptr event_data)
    (p q : ptr) : bool :=
  match m !! p, m !! q with Some d, Some d' => before d d' | _, _ => false end.

Lemma merge_lists_nil_r lt batch : merge_lists lt batch [] = batch.
Proof. by destruct batch. Qed.
Lemma merge_lists_nil_l lt l : merge_lists lt [] l = l.
Proof. by destruct l. Qed.
Lemma merge_lists_cons lt b batch c l :
  merge_lists lt (b :: batch) (c :: l)
  = if lt b c then b :: merge_lists lt batch (c :: l) else c :: merge_lists lt (b :: batch) l.
Proof. done. Qed.

Lemma merge_lists_perm lt batch l : merge_lists lt batch l ≡ₚ batch ++ l.
Proof.
  revert l. induction batch as [|b batch IHb]; intros l; [by rewrite merge_lists_nil_l|].
  induction l as [|c l IHl]; [by rewrite merge_lists_nil_r, app_nil_r|].
  rewrite merge_lists_cons. destruct (lt b c); [by rewrite IHb|]. rewrite IHl. cbn.
  by rewrite (Permutation_middle (b :: batch) l c).
Qed.

(** One event more of the merged list. *)
Lemma take_chain next (h : heap) l :
  chain sched_links h None l None → NoDup l → next ∉ l → is_Some (h !! next) →
  let h2 := link_merged next (final None l) h in
  chain sched_links h2 None (l ++ [next]) None ∧ NoDup (l ++ [next])
  ∧ others sched_links h h2 ∧ (∀ q, q ∉ l ++ [next] → h2 !! q = h !! q)
  ∧ match final None l with Some _ => first l None | None => Some next end = first (l ++ [next]) None.
Proof.
  intros C Nd N V.
  pose (a := Anchors (set_anchor 0 (first l None) ∅) (set_anchor 0 (final None l) ∅)).
  assert (listed sched_links h a 0 l) as Ls.
  { split; [exact (set_anchor_eq 0 _ ∅)|exact (set_anchor_eq 0 _ ∅)|done|done]. }
  pose proof (append_listed sched_links h 0 a l next Ls N V) as A. unfold append in A.
  assert (tails a !! 0 = final None l) as T by apply set_anchor_eq. rewrite T in A. cbv zeta. unfold link_merged.
  destruct l as [|t l _] using rev_ind.
  - change (final None []) with (@None ptr) in *. destruct A as [[O F _ _] [_ _ C' Nd']].
    split; [exact C'|]. split; [exact Nd'|]. split; [exact O|]. split; [exact F|done].
  - rewrite final_snoc in *. destruct A as [[O F _ _] [_ _ C' Nd']]. split; [exact C'|].
    split; [exact Nd'|]. split; [exact O|]. split; [exact F|]. by destruct l.
Qed.

Lemma merge_loop_spec before D : ∀ fuel batch rest dn (h : heap),
  ev <$> h = D → chain sched_links h None dn None → NoDup (dn ++ batch ++ rest) →
  (∀ p, p ∈ batch ++ rest → is_Some (h !! p)) → path h rest None →
  (length batch + length rest < fuel)%nat →
  ∃ h', merge_loop before fuel batch (first rest None) (first dn None) (final None dn) h
      = Some (h', first (dn ++ merge_lists (sorts_before before D) batch rest) None,
                  final None (dn ++ merge_lists (sorts_before before D) batch rest))
    ∧ chain sched_links h' None (dn ++ merge_lists (sorts_before before D) batch rest) None
    ∧ others sched_links h h' ∧ (∀ q, q ∉ dn ++ batch ++ rest → h' !! q = h !! q).
Proof.
  induction fuel as [|fuel IH]; intros batch rest dn h ED C N V P F; [lia|].
  (* one event taken *)
  assert (∀ next batch' rest' ,
    next :: batch' ++ rest' ≡ₚ batch ++ rest →
    merge_lists (sorts_before before D) batch rest = next :: merge_lists (sorts_before before D) batch' rest' →
    path h rest' None →
    ∃ h', merge_loop before fuel batch' (first rest' None)
        (match final None dn with Some _ => first dn None | None => Some next end) (Some next)
        (link_merged next (final None dn) h)
      = Some (h', first (dn ++ merge_lists (sorts_before before D) batch rest) None,
                  final None (dn ++ merge_lists (sorts_before before D) batch rest))
    ∧ chain sched_links h' None (dn ++ merge_lists (sorts_before before D) batch rest) None
    ∧ others sched_links h h' ∧ (∀ q, q ∉ dn ++ batch ++ rest → h' !! q = h !! q)) as Take.
  { intros next batch' rest' Pm -> P'.
    assert (NoDup (dn ++ next :: batch' ++ rest')) as N' by by rewrite Pm.
    pose proof N' as N2. apply NoDup_app in N2 as (Nd & D1 & N2). apply NoDup_cons in N2 as [Nn N2].
    assert (next ∉ dn) as Ndn by (intros I; apply (D1 next I); by left).
    assert (∀ q, q ∈ next :: batch' ++ rest' → is_Some (h !! q)) as V' by (intros q I; apply V; by rewrite <- Pm).
    destruct (take_chain next h dn C Nd Ndn (V' next ltac:(by left))) as (C' & Nd' & O & Fr & Hd).
    set (h2 := link_merged next (final None dn) h) in *. rewrite Hd.
    destruct (IH batch' rest' (dn ++ [next]) h2) as (h' & E & C2 & O2 & F2).
    - rewrite <- ED. by eapply others_ev.
    - done.
    - by rewrite <- app_assoc.
    - intros q I. apply (others_dom _ _ _ q O). apply V'. by right.
    - eapply path_frame; [|exact P']. intros q I. rewrite Fr; [done|]. intros J.
      apply elem_of_app in J as [J|J].
      + apply (D1 q J). right. set_solver.
      + apply list_elem_of_singleton in J as ->. apply Nn. set_solver.
    - apply Permutation_length in Pm. rewrite length_cons, !length_app in Pm. lia.
    - rewrite final_snoc, <- app_assoc in E. rewrite <- app_assoc in C2, F2.
      exists h'. split; [exact E|]. split; [exact C2|]. split; [by etransitivity|].
      intros q I. rewrite <- Pm in I. rewrite F2, Fr; [done|set_solver|].
      intros J. apply I. set_solver. }
  cbn [merge_loop]. destruct batch as [|b batch], rest as [|c rest].
  - rewrite merge_lists_nil_l, app_nil_r. exists h. by repeat split.
  - destruct P as [Pc P]. cbn [first]. apply fmap_Some in Pc as (nc & Ec & Pc). rewrite Ec, <- Pc.
    apply (Take c [] rest); [done|by rewrite !merge_lists_nil_l|done].
  - cbn [first]. apply (Take b batch []); [done|by rewrite !merge_lists_nil_r|done].
  - destruct P as [Pc P]. cbn [first]. apply fmap_Some in Pc as (nc & Ec & Pc).
    destruct (V b ltac:(by left)) as [nb Eb]. rewrite Eb, Ec.
    assert (sorts_before before D b c = before (ev nb) (ev nc)) as S.
    { unfold sorts_before. by rewrite <- ED, !lookup_fmap, Eb, Ec. }
    destruct (before (ev nb) (ev nc)) eqn:B.
    + apply (Take b batch (c :: rest)); [done|by rewrite merge_lists_cons, S|].
      split; [by rewrite Ec; cbn; f_equal|done].
    + rewrite <- Pc. apply (Take c (b :: batch) rest); [|by rewrite merge_lists_cons, S|done].
      cbn. by rewrite (Permutation_middle (b :: batch) rest c).
Qed.

Lemma chain_path L h before l : Linked L → chain sched_links h before l None → path h l None.
Proof.
  intros _. revert before. induction l as [|p l IH]; intros before; [done|].
  intros [(n & E & _ & N) C]. split; [rewrite E; cbn; by f_equal|by eapply IH].
Qed.

Lemma merge_sorted_batch_spec before batch k m v :
  rep m v → NoDup batch → (∀ p, p ∈ batch → loose v Sched p ∧ is_Some (events m !! p)) →
  ∃ m', nevent_merge_sorted_batch before batch k m = Some m'
    ∧ rep m' (set_list Sched k (merge_lists (sorts_before before (data m)) batch (buckets v k)) v)
    ∧ data m' = data m ∧ ne_dead_event_pool m' = ne_dead_event_pool m.
Proof.
  intros R N B. pose proof (rep_listed m v R Sched k) as [Hd Tl C Nd].
  change (lists v Sched k) with (buckets v k) in *. change (anchors_of Sched m) with (wheel m) in *.
  pose proof (bucket_bound m v Sched k R) as Lb. change (lists v Sched k) with (buckets v k) in Lb.
  unfold nevent_merge_sorted_batch. rewrite Hd.
  destruct (merge_loop_spec before (data m) (S (length batch + size (events m))) batch (buckets v k) [] (events m))
    as (h & E & C' & O & F); try done.
  - cbn [app]. apply NoDup_app. split; [exact N|]. split; [|exact Nd]. intros p I. destruct (B p I) as [[_ L] _]. apply L.
  - intros p I. apply elem_of_app in I as [I|I]; [by apply B|]. by eapply (listed_valid m v Sched).
  - by eapply (chain_path sched_links); [apply _|].
  - lia.
  - change (first [] None) with (@None ptr) in E. change (final None []) with (@None ptr) in E.
    cbn [app] in E, C'. rewrite E. set (l := merge_lists _ _ _) in *.
    assert (l ≡ₚ batch ++ buckets v k) as Pm by apply merge_lists_perm.
    eexists. split; [done|]. split; [|split; [by eapply others_ev|done]].
    set (a := Anchors (set_anchor k (first l None) (heads (wheel m))) (set_anchor k (final None l) (tails (wheel m)))).
    change (rep (with_list Sched h a m) (set_list Sched k l v)).
    apply (rep_change m v Sched k h a l (batch ++ buckets v k)); [done|split; try done|split; try done|..].
    + intros i Ni. exact (set_anchor_ne k i (first l None) (heads (wheel m)) (not_eq_sym Ni)).
    + intros i Ni. exact (set_anchor_ne k i (final None l) (tails (wheel m)) (not_eq_sym Ni)).
    + exact (set_anchor_eq k (first l None) (heads (wheel m))).
    + exact (set_anchor_eq k (final None l) (tails (wheel m))).
    + rewrite Pm. apply NoDup_app. split; [done|]. split; [|done]. intros p I. destruct (B p I) as [[_ L] _]. apply L.
    + intros p I. apply elem_of_app in I as [I|I]; [right; by apply B|by left].
    + intros p. by rewrite Pm.
Qed.

Lemma rep_same_links m v h :
  rep m v → (∀ w p, links (lk w) <$> h !! p = links (lk w) <$> events m !! p) →
  rep {m with events := h} v.
Proof.
  intros R F.
  assert (∀ p, is_Some (h !! p) ↔ is_Some (events m !! p)) as Dm.
  { intros p. specialize (F Sched p). destruct (h !! p), (events m !! p); cbn in F; try done; split; eauto; intros [? ?]; done. }
  assert (size h = size (events m)) as Sz.
  { rewrite <- !size_dom. f_equal. apply set_eq. intros p. by rewrite !elem_of_dom. }
  set (m' := {m with events := h}). assert (events m' = h) as Em by done.
  assert (∀ w, anchors_of w m' = anchors_of w m) as Am by by intros [].
  assert (ne_dead_event_pool m' = ne_dead_event_pool m) as Pm by done. clearbody m'.
  split; rewrite ?Em, ?Pm; try apply R.
  - intros p. rewrite Sz, Dm. apply R.
  - intros w k. rewrite Am. eapply listed_frame; [|done|done|apply (rep_listed m v R)].
    intros p _. apply F.
  - eapply path_frame; [|apply R]. intros p _. apply links_next_sched, (F Sched).
  - intros p I. rewrite Dm. by apply (rep_free m v R).
Qed.

Lemma set_ev_spec m v p f : rep m v →
  rep (set_ev p f m) v ∧ data (set_ev p f m) = alter f p (data m)
  ∧ ne_dead_event_pool (set_ev p f m) = ne_dead_event_pool m.
Proof.
  intros R. split; [|split; [|done]].
  - apply (rep_same_links m v (alter (λ n, {n with ev ::= f}) p (events m)) R). intros w q. destruct (decide (p = q)) as [->|N].
    + rewrite lookup_alter_eq. destruct (events m !! q); [by destruct w|done].
    + by rewrite lookup_alter_ne.
  - change (ev <$> alter (λ n, {n with ev ::= f}) p (events m) = alter f p (data m)). unfold data. apply map_eq. intros q. rewrite lookup_fmap.
    destruct (decide (p = q)) as [->|N].
    + rewrite !lookup_alter_eq, lookup_fmap. by destruct (events m !! q).
    + by rewrite !lookup_alter_ne, lookup_fmap.
Qed.

Lemma head_of_spec m v w k : rep m v → head_of w k m = first (lists v w k) None.
Proof. intros R. apply (rep_listed m v R). Qed.

Lemma next_of_spec m v w k l1 p l2 :
  rep m v → lists v w k = l1 ++ p :: l2 → next_of w p m = Some (first l2 None).
Proof.
  intros R E. pose proof (rep_listed m v R w k) as Ls. rewrite E in Ls.
  pose proof (listed_chain _ _ _ _ _ Ls) as C.
  destruct (chain_valid _ _ _ _ _ p C) as [n En]; [set_solver|].
  destruct (chain_at _ _ _ _ _ _ C En) as [_ N]. unfold next_of. rewrite En. cbn. by f_equal.
Qed.

(** *** The pool *)

Lemma path_snoc h l p :
  NoDup l → path h l None → next_sched <$> h !! p = Some None → p ∉ l →
  path (match final None l with Some t => alter (λ n, {n with next_sched := Some p}) t h | None => h end)
    (l ++ [p]) None.
Proof.
  intros N P E Np. destruct l as [|t l _] using rev_ind; [by split|]. rewrite final_snoc.
  apply NoDup_app in N as (_ & D & _). apply path_app in P as [P [Et _]].
  apply path_app. split.
  - apply path_app. split.
    + apply path_alter; [|done]. intros I. apply (D t I). by left.
    + split; [|done]. rewrite lookup_alter_eq. cbn. by destruct (h !! t).
  - split; [|done]. rewrite lookup_alter_ne; [done|]. intros ->. set_solver.
Qed.

(** The free list takes a released event at its end. *)
Lemma mm_release_spec m v p :
  rep m v → p ∉ free v → (∀ w k, p ∉ lists v w k) → is_Some (events m !! p) →
  let m' := mm_release p m in
  rep m' {v with free := free v ++ [p] } ∧ data m' = data m
  ∧ objs_used (ne_dead_event_pool m') = wrap 64 (objs_used (ne_dead_event_pool m) - 1).
Proof.
  intros R Nf Nl V. pose proof (rep_tail m v R) as Tl.
  set (h1 := alter (λ n, {n with next_sched := None}) p (events m)).
  set (h2 := match final None (free v) with Some t => alter (λ n, {n with next_sched := Some p}) t h1 | None => h1 end).
  set (m' := mm_release p m).
  assert (events m' = h2 ∧ (∀ w, anchors_of w m' = anchors_of w m)
    ∧ pool_head (ne_dead_event_pool m') = first (free v ++ [p]) None
    ∧ pool_tail (ne_dead_event_pool m') = Some p
    ∧ objs_used (ne_dead_event_pool m') = wrap 64 (objs_used (ne_dead_event_pool m) - 1)) as (Em & Am & Hm & Tm & Om).
  { unfold m', mm_release. rewrite Tl. unfold h2, h1. pose proof (rep_head m v R) as Hd.
    destruct (free v) as [|t l _] using rev_ind.
    - by repeat split; try intros [].
    - rewrite final_snoc. repeat split; try intros []; try done.
      change (pool_head (ne_dead_event_pool m) = first ((l ++ [t]) ++ [p]) None).
      rewrite Hd, !first_app. by destruct l. }
  assert (others sched_links (events m) h1) as O1 by (apply others_alter; intros n; exact (same_set_next sched_links None n)).
  assert (others sched_links (events m) h2) as O.
  { etransitivity; [exact O1|]. unfold h2. destruct (final None (free v)); [|done].
    apply others_alter. intros n'. exact (same_set_next sched_links (Some p) n'). }
  assert (∀ q, q ∉ free v ++ [p] → h2 !! q = events m !! q) as F.
  { intros q I. assert (h1 !! q = events m !! q) as <- by (unfold h1; rewrite lookup_alter_ne; [done|set_solver]).
    unfold h2. destruct (free v) as [|t l _] using rev_ind; [done|]. rewrite final_snoc.
    rewrite lookup_alter_ne; [done|set_solver]. }
  assert (path h2 (free v ++ [p]) None) as P.
  { destruct V as [n En]. assert (next_sched <$> h1 !! p = Some None) as E1
      by (unfold h1; by rewrite lookup_alter_eq, En).
    assert (path h1 (free v) None) as P1 by (apply path_alter; [done|apply R]).
    apply path_snoc; [apply R|done|done|done]. }
  split; [|split; [unfold data; rewrite Em; by eapply others_ev|done]]. clearbody m'.
  split; rewrite ?Em.
  - intros q. rewrite (others_size _ _ _ O), (others_dom _ _ _ q O). apply R.
  - intros w k. rewrite Am. eapply listed_frame; [|done|done|apply (rep_listed m v R)].
    intros q I. destruct (decide (w = Sched)) as [->|N].
    + rewrite F; [done|]. intros J. apply elem_of_app in J as [J|J].
      * by eapply (rep_free_apart m v R).
      * apply list_elem_of_singleton in J as ->. by eapply Nl.
    + by apply (others_links sched_links (lk w) _ _ _ O (lk_apart Sched w (not_eq_sym N))).
  - apply R.
  - intros w k q I J. apply elem_of_app in I as [I|I].
    + by eapply (rep_free_apart m v R).
    + apply list_elem_of_singleton in I as ->. by eapply Nl.
  - exact Hm.
  - rewrite Tm. cbn. by rewrite final_snoc.
  - exact P.
  - apply NoDup_app. split; [apply R|]. split; [|apply NoDup_singleton].
    intros q I J. by apply list_elem_of_singleton in J as ->.
  - intros q I. rewrite (others_dom _ _ _ q O). apply elem_of_app in I as [I|I].
    + by apply (rep_free m v R).
    + by apply list_elem_of_singleton in I as ->.
Qed.

Section Chunk.
Context (chunk_objects : nat) (granted : nat → bool).

(** The new objects of a chunk. *)
Lemma new_links_path more (h : heap) :
  (0 < chunk_objects)%nat →
  let objects := reverse (seq more chunk_objects) in
  let h' := foldr (λ '(p, next), <[p := {zero_event with next_sched := next}]>) h (new_links chunk_objects more) in
  path h' objects None
  ∧ (∀ q, q ∈ objects → ev <$> h' !! q = Some zero_data)
  ∧ (∀ q, q ∉ objects → h' !! q = h !! q).
Proof.
  intros Pos objects. unfold new_links. fold objects.
  assert (NoDup objects) as N by (unfold objects; rewrite reverse_Permutation; apply NoDup_seq).
  clearbody objects. clear Pos. cbv zeta.
  induction objects as [|p [|q l] IH].
  - split; [done|]. split; [|done]. intros q I. by apply not_elem_of_nil in I.
  - cbn. split; [by rewrite lookup_insert_eq|]. split.
    + intros q I. apply list_elem_of_singleton in I as ->. by rewrite lookup_insert_eq.
    + intros q I. rewrite lookup_insert_ne; [done|set_solver].
  - apply NoDup_cons in N as [Np N]. destruct (IH N) as (P & Z & F). clear IH.
    set (h1 := foldr _ _ _) in P, Z, F. set (h' := foldr _ _ _).
    assert (h' = <[p := {zero_event with next_sched := Some q}]> h1) as -> by done.
    clearbody h1. split; [|split].
    + split; [by rewrite lookup_insert_eq|]. eapply path_frame; [|exact P].
      intros r I. rewrite lookup_insert_ne; [done|]. by intros <-.
    + intros r I. destruct (decide (p = r)) as [<-|Nr]; [by rewrite lookup_insert_eq|].
      rewrite lookup_insert_ne by done. apply Z. set_solver.
    + intros r I. rewrite lookup_insert_ne by set_solver. apply F. set_solver.
Qed.

Lemma dense_size (h : heap) n : (∀ p, is_Some (h !! p) ↔ (p < n)%nat) → size h = n.
Proof.
  intros Dn. rewrite <- size_dom. assert (dom h = list_to_set (C := gset ptr) (seq 0 n)) as ->.
  { apply set_eq. intros p. rewrite elem_of_dom, Dn, elem_of_list_to_set, elem_of_seq. lia. }
  rewrite size_list_to_set by apply NoDup_seq. apply length_seq.
Qed.

Lemma mm_alloc_chunk_spec m v m' :
  (0 < chunk_objects)%nat → rep m v → free v = [] →
  mm_alloc_chunk chunk_objects granted m = Done m' →
  rep m' {v with free := reverse (seq (size (events m)) chunk_objects) }
  ∧ granted (size (events m)) = true
  ∧ (∃ fresh, data m' = data m ∪ fresh ∧ (∀ q d, fresh !! q = Some d → d = zero_data ∧ data m !! q = None))
  ∧ size (data m') = (size (data m) + chunk_objects)%nat
  ∧ objs_used (ne_dead_event_pool m') = objs_used (ne_dead_event_pool m).
Proof.
  intros Pos R Ef. unfold mm_alloc_chunk. destruct (granted (size (events m))) eqn:G; [|done]. cbn [negb].
  intros [= Em']. set (more := size (events m)) in *. set (objects := reverse (seq more chunk_objects)) in *.
  destruct (new_links_path more (events m) Pos) as (P & Z & F). fold objects in P, Z, F.
  set (h' := foldr _ (events m) _) in P, Z, F.
  assert (∀ q, q ∈ objects ↔ (more ≤ q < more + chunk_objects)%nat) as Io.
  { intros q. unfold objects. rewrite elem_of_reverse, elem_of_seq. done. }
  assert (∀ q, q ∈ objects → events m !! q = None) as Fr.
  { intros q I. apply eq_None_not_Some. rewrite (rep_dense m v R). apply Io in I. unfold more in I. lia. }
  assert (events m' = h') as Eh by by rewrite <- Em'.
  assert (∀ w, anchors_of w m' = anchors_of w m) as Am by (intros []; by rewrite <- Em').
  assert (pool_head (ne_dead_event_pool m') = head objects) as Hm by by rewrite <- Em'.
  assert (pool_tail (ne_dead_event_pool m') = last objects) as Tm by by rewrite <- Em'.
  assert (objs_used (ne_dead_event_pool m') = objs_used (ne_dead_event_pool m)) as Om by by rewrite <- Em'.
  clear Em'.
  assert (∀ p, is_Some (h' !! p) ↔ (p < more + chunk_objects)%nat) as Dn.
  { intros p. destruct (decide (p ∈ objects)) as [I|I].
    - pose proof (Z p I) as Zp. apply Io in I. split; [lia|intros _]. by destruct (h' !! p).
    - rewrite F, (rep_dense m v R) by done. rewrite Io in I. fold more. lia. }
  split; [|split; [done|split; [|split; [|done]]]].
  - split; rewrite ?Eh.
    + intros p. by rewrite (dense_size _ _ Dn).
    + intros w k. rewrite Am. eapply listed_frame; [|done|done|apply (rep_listed m v R)].
      intros q I. rewrite F; [done|]. intros J. apply (listed_valid m v) in I; [|done].
      rewrite Fr in I by done. by destruct I.
    + apply R.
    + intros w k p I J. apply (listed_valid m v) in J; [|done]. change (p ∈ objects) in I.
      rewrite Fr in J by done. by destruct J.
    + rewrite Hm. change (head objects = first objects None). by destruct objects.
    + rewrite Tm. change (last objects = final None objects). unfold final. by destruct (last objects).
    + exact P.
    + change (NoDup objects). unfold objects. rewrite reverse_Permutation. apply NoDup_seq.
    + intros p I. change (p ∈ objects) in I. apply Dn. apply Io in I. lia.
  - exists (gset_to_gmap zero_data (list_to_set objects)). split.
    + apply map_eq. intros q. unfold data. rewrite Eh, lookup_fmap. destruct (decide (q ∈ objects)) as [I|I].
      * rewrite Z by done. rewrite lookup_union_r by (by rewrite lookup_fmap, Fr).
        symmetry. apply lookup_gset_to_gmap_Some. split; [by apply elem_of_list_to_set|done].
      * rewrite F by done. rewrite lookup_union_l; [by rewrite lookup_fmap|].
        apply lookup_gset_to_gmap_None. by rewrite elem_of_list_to_set.
    + intros q d. rewrite lookup_gset_to_gmap_Some, elem_of_list_to_set. intros [I <-].
      split; [done|]. unfold data. by rewrite lookup_fmap, Fr.
  - rewrite !size_data, Eh, (dense_size _ _ Dn). done.
Qed.

(** The head of the pool is taken and zeroed. *)
Lemma mm_take_spec m v p l n m' :
  rep m v → free v = p :: l → events m !! p = Some n →
  m' = {m with
    ne_dead_event_pool := {ne_dead_event_pool m with
      pool_head := next_sched n;
      pool_tail := match next_sched n with None => None | Some _ => pool_tail (ne_dead_event_pool m) end;
      objs_used ::= λ n, wrap 64 (n + 1)};
    events ::= <[p := zero_event]> } →
  rep m' {v with free := l} ∧ data m' = <[p := zero_data]> (data m)
  ∧ objs_used (ne_dead_event_pool m') = wrap 64 (objs_used (ne_dead_event_pool m) + 1).
Proof.
  intros R Ef En Em'.
  pose proof (rep_path m v R) as P. pose proof (rep_nodup m v R) as N. pose proof (rep_tail m v R) as Tl.
  rewrite Ef in P, N, Tl. destruct P as [Pn P]. apply NoDup_cons in N as [Np N].
  rewrite En in Pn. injection Pn as Pn.
  assert (∀ w k, p ∉ lists v w k) as Nl.
  { intros w k I. eapply (rep_free_apart m v R); [|exact I]. rewrite Ef. by left. }
  assert (events m' = <[p := zero_event]> (events m)) as Em by by rewrite Em'.
  assert (∀ w, anchors_of w m' = anchors_of w m) as Am by (intros []; by rewrite Em').
  assert (pool_head (ne_dead_event_pool m') = next_sched n) as Hm by by rewrite Em'.
  assert (pool_tail (ne_dead_event_pool m')
    = match next_sched n with None => None | Some _ => pool_tail (ne_dead_event_pool m) end) as Tm by by rewrite Em'.
  split; [|split; [|by rewrite Em']].
  2: { unfold data. by rewrite Em, fmap_insert. }
  clear Em'.
  assert (∀ q, is_Some (<[p := zero_event]> (events m) !! q) ↔ is_Some (events m !! q)) as Dm.
  { intros q. destruct (decide (p = q)) as [<-|Nq].
    - rewrite lookup_insert_eq, En. split; eauto.
    - by rewrite lookup_insert_ne. }
  set (v' := {v with free := l}). assert (free v' = l) as Ev by done.
  assert (lists v' = lists v) as Lv by done. clearbody v'. split; rewrite ?Em, ?Ev, ?Lv.
  - intros q. rewrite Dm, map_size_insert_Some by eauto. apply R.
  - intros w k. rewrite Am. eapply listed_frame; [|done|done|apply (rep_listed m v R)].
    intros q I. rewrite lookup_insert_ne; [done|]. intros ->. by eapply Nl.
  - apply R.
  - intros w k q I. apply (rep_free_apart m v R). rewrite Ef. by right.
  - by rewrite Hm, Pn.
  - rewrite Tm, Pn, Tl, final_cons. destruct l as [|q l]; [done|]. cbn [first]. by rewrite !final_cons.
  - eapply path_frame; [|exact P]. intros q I. rewrite lookup_insert_ne; [done|]. by intros ->.
  - done.
  - intros q I. rewrite Dm. apply (rep_free m v R). rewrite Ef. by right.
Qed.

(** What [mm_get] does: the pool of [m], or [m1] with a new chunk, loses its head. *)
Record got (m : memory) (v : view) (p : ptr) (m' : memory) (v' : view) (m1 : memory) (v1 : view) : Prop := {
  got_rep : rep m' v';
  got_base : rep m1 v1;
  got_fresh : ∃ fresh, data m1 = data m ∪ fresh ∧
    ∀ q d, fresh !! q = Some d → d = zero_data ∧ data m !! q = None;
  got_size : size (data m1) = size (data m)
    ∨ granted (size (data m)) = true ∧ size (data m1) = (size (data m) + chunk_objects)%nat;
  got_free1 q : is_Some (data m1 !! q) → q ∈ free v1 ↔ q ∈ free v ∨ data m !! q = None;
  got_lists1 : lists v1 = lists v;
  got_used1 : objs_used (ne_dead_event_pool m1) = objs_used (ne_dead_event_pool m);
  got_ptr : p ∈ free v1;
  got_data : data m' = <[p := zero_data]> (data m1);
  got_lists : lists v' = lists v;
  got_free q : q ∈ free v' ↔ q ∈ free v1 ∧ q ≠ p;
  got_used : objs_used (ne_dead_event_pool m') = wrap 64 (objs_used (ne_dead_event_pool m) + 1);
}.

(** An event of the pool, zeroed. *)
Lemma mm_get_spec m v :
  (0 < chunk_objects)%nat → rep m v →
  match mm_get chunk_objects granted m with
  | Done (p, m') => ∃ v' m1 v1, got m v p m' v' m1 v1
  | Outside => True
  | Corrupt => False
  end.
Proof.
  intros Pos R. unfold mm_get. rewrite (rep_head m v R). destruct (free v) as [|p l] eqn:Ef; cbn [first].
  - destruct (mm_alloc_chunk chunk_objects granted m) as [m1| |] eqn:A; cbn [bind_outcome]; [|done|].
    2: { revert A. unfold mm_alloc_chunk. by destruct (negb _). }
    destruct (mm_alloc_chunk_spec m v m1 Pos R Ef A) as (R1 & G & (fresh & D1 & F1) & S1 & U1).
    set (v1 := {v with free := _}) in R1. set (objects := reverse (seq _ _)) in v1.
    assert (free v1 = objects) as Ev1 by done. assert (lists v1 = lists v) as Lv1 by done.
    assert (∀ q, q ∈ objects ↔ is_Some (data m1 !! q) ∧ data m !! q = None) as Io.
    { intros q. unfold data. rewrite !lookup_fmap, fmap_is_Some, fmap_None, (rep_dense m1 v1 R1).
      rewrite <- !size_data, S1, size_data. unfold objects. rewrite elem_of_reverse, elem_of_seq.
      rewrite eq_None_not_Some, (rep_dense m v R). lia. }
    clearbody v1. destruct objects as [|p l] eqn:Eo.
    { apply (f_equal length) in Eo. unfold objects in Eo. rewrite length_reverse, length_seq in Eo. cbn in Eo. lia. }
    destruct (rep_free m1 v1 R1 p) as [n En]; [rewrite Ev1; by left|].
    rewrite (rep_head m1 v1 R1), Ev1. cbn [first present bind_outcome]. rewrite En. cbn [present bind_outcome].
    destruct (mm_take_spec m1 v1 p l n _ R1 Ev1 En eq_refl) as (R' & D' & U').
    pose proof (rep_nodup m1 v1 R1) as N. rewrite Ev1 in N. apply NoDup_cons in N as [Np N].
    eexists _, m1, v1. split; try done.
    + by exists fresh.
    + right. split; [by rewrite size_data|done].
    + intros q V. rewrite Ev1, Ef, Io. split; [intros [_ E]; by right|].
      intros [I|E]; [by apply not_elem_of_nil in I|done].
    + rewrite Ev1. by left.
    + intros q. change (free {v1 with free := l}) with l. rewrite Ev1, elem_of_cons. naive_solver.
    + rewrite U'. by rewrite U1.
  - destruct (rep_free m v R p) as [n En]; [rewrite Ef; by left|].
    cbn [bind_outcome]. rewrite (rep_head m v R), Ef. cbn [first present bind_outcome]. rewrite En. cbn [present bind_outcome].
    destruct (mm_take_spec m v p l n _ R Ef En eq_refl) as (R' & D' & U').
    pose proof (rep_nodup m v R) as N. rewrite Ef in N. apply NoDup_cons in N as [Np N].
    eexists _, m, v. split; try done.
    + exists ∅. by rewrite map_union_empty.
    + by left.
    + intros q V. split; [by left|]. intros [I|E]; [done|]. rewrite E in V. by destruct V.
    + rewrite Ef. by left.
    + intros q. change (free {v with free := l}) with l. rewrite Ef, elem_of_cons. naive_solver.
Qed.

End Chunk.

Lemma no_memory_rep : rep no_memory (View (λ _ _, []) []).
Proof.
  split; try done.
  - intros p. split; [by intros [? ?]|]. intros L. change (size (events no_memory)) with (size (∅ : heap)) in L.
    rewrite map_size_empty in L. lia.
  - intros [] k; split; try done; apply NoDup_nil_2.
  - intros w j k p I. by apply not_elem_of_nil in I.
  - intros w k p I. by apply not_elem_of_nil in I.
  - apply NoDup_nil_2.
  - intros p I. by apply not_elem_of_nil in I.
Qed.
