(* ===== verification/Scheduler.v ===== *)
(** * The event scheduler

    Models the scheduler of [world/new_events.c]: a wheel of 300 buckets hashed by the tick an
    event is due, the lists of the events of each character and object, handles that carry
    the sequence of their event, cancellation and rescheduling put off while a pass runs,
    the pass with its budgets, the deferral of what a budget leaves and the accounts of that
    debt.

    A callback is what it asks of the scheduler, a list of [request]s, and how long it took.
    The requests [nevent_periodic.c] makes around a callback and after a pass are among
    them.  The model is of the thread that owns the scheduler; analytics and log lines are
    left out.  [log] is the model's own record of what happened. *)

From S2P Require Import Prelude.
From S2P Require Import EventMemory.

(** ** Data *)

Definition ULLONG_MAX : Z := 2 ^ 64 - 1.
Definition LONG_MAX : Z := 2 ^ 63 - 1.
Definition PULSES_IN_TICK : Z := 300.
Definition NEVENT_UNLIMITED : Z := 0.
Definition NEVENT_PRIORITY_NORMAL : Z := 0.
Definition NEVENT_PRIORITY_PLAYER : Z := 1.
Definition NEVENT_PRIORITY_AGED_NORMAL : Z := 2.
Definition NEVENT_NORMAL_AGING_DEFERRALS : Z := 2.
Definition NEVENT_NORMAL_AGING_TICKS : Z := 2.
Definition NEVENT_CATCHUP_WINDOW_PULSES : Z := 4.
Definition NEVENT_CALLBACK_EWMA_SHIFT : Z := 4.
Definition NEVENT_CONFIG_MAX_CALLBACKS : Z := 1000000.

(** What the scheduler asks of a character. *)
Record character := Character {
  name : Z;
  runtime_id : Z;
  IS_ALIVE : bool;
  IS_PC : bool;
  IS_NPC : bool;
  master_ordering : bool;
}.

Record nevent_handle := Handle {
  event : option ptr;
  h_sequence : Z;
}.
Definition null_handle : nevent_handle := Handle None 0.

Inductive nevent_schedule_status :=
| scheduled | null_callback | negative_delay | dead_owner | victim_without_owner
| invalid_payload | sequence_exhausted | invalid_replace_target.
#[export] Instance nevent_schedule_status_eq_dec : EqDecision nevent_schedule_status.
Proof. solve_decision. Defined.

Inductive nevent_cancel_result :=
| canceled | deferred | already_inactive | stale_handle | invalid_handle.
#[export] Instance nevent_cancel_result_eq_dec : EqDecision nevent_cancel_result.
Proof. solve_decision. Defined.

(** What happened: an event was run when due and at which tick, cancelled, a payload was
    handed to the scheduler, or given to its destructor. *)
Inductive note :=
| Ran (sequence due tick : Z)
| Cancelled (sequence : Z)
| Handed (z : Z)
| Destroyed (p : payload).
#[export] Instance note_eq_dec : EqDecision note.
Proof. solve_decision. Defined.

Record scheduler := Scheduler {
  mem : memory;
  current_nevent : option ptr;
  ne_event_counter : Z;
  ne_event_tick : Z;
  ne_event_sequence : Z;
  pulse : Z;
  after_events_call : bool;
  nevent_catchup_debt : Z;
  nevent_catchup_remaining : Z;
  nevent_avg_callback_us : Z;
  nevent_catchup_quota : Z;
  nevent_catchup_extension_us : Z;
  nevent_catchup_extra_callbacks : Z;
  nevent_catchup_debt_estimated_us : Z;
  nevent_deferred_due_counts : gmap Z Z;
  nevent_pending_cancellations : list nevent_handle;
  nevent_pending_reschedules : gmap ptr (Z * Z);
  log : list note;
}.

(** What the environment configures, by [nevent_config_limit]. *)
Record config := Config {
  player_priority : Z;
  nevent_budget_usec : Z;
  nevent_max_callbacks : Z;
  nevent_catchup_max_extension_us : Z;
  nevent_catchup_max_extra_callbacks : Z;
}.

(** The arguments of [add_event_internal]; a payload given over comes with whether it has a
    destructor, and of the victim the [runtime_id] is read too. *)
Record schedule_args := Schedule {
  a_func : option event_func;
  delay : Z;
  ch : option character;
  victim : option (Z * Z);
  obj : option Z;
  src : option Z;
  data_size : Z;
  owned_payload : option Z;
  owned_payload_destroy : bool;
}.

(** ** Ticks and order *)

Definition nevent_bucket_for_tick (tick : Z) : Z := tick mod PULSES_IN_TICK.

Definition nevent_add_ticks (tick delay : Z) : Z :=
  if ULLONG_MAX - tick <? delay then ULLONG_MAX else tick + delay.

Definition nevent_first_eligible_tick (s : scheduler) : Z :=
  nevent_add_ticks (ne_event_tick s) (if after_events_call s then 1 else 0).

Definition nevent_is_player_timed (f : event_func) (ch : option character) : bool :=
  match ch with
  | None => false
  | Some ch =>
      match f with
      | event_spellcast | event_memorize | event_balance_affects | event_item_action_active => IS_PC ch
      | event_wait => IS_PC ch || IS_NPC ch && master_ordering ch
      | event_mana_regen | event_move_regen | event_hit_regen | event_ward_regen => IS_PC ch
      | _ => false
      end
  end.

Definition nevent_effective_priority (tick : Z) (e : event_data) : Z :=
  if (priority e =? NEVENT_PRIORITY_NORMAL)
     && ((NEVENT_NORMAL_AGING_DEFERRALS <=? deferral_count e)
         || (due_tick e <? tick) && (NEVENT_NORMAL_AGING_TICKS <=? tick - due_tick e))
  then NEVENT_PRIORITY_AGED_NORMAL else priority e.

Definition nevent_sorts_before (tick : Z) (left right : event_data) : bool :=
  let left_priority := nevent_effective_priority tick left in
  let right_priority := nevent_effective_priority tick right in
  if negb (due_tick left =? due_tick right) then due_tick left <? due_tick right
  else if negb (left_priority =? right_priority) then right_priority <? left_priority
  else sequence left <? sequence right.

Section Scheduler.
Context (cfg : config) (chunk_objects : nat) (granted : nat → bool).

Definition nevent_priority (f : event_func) (ch : option character) : Z :=
  if (0 <? player_priority cfg) && nevent_is_player_timed f ch
  then NEVENT_PRIORITY_PLAYER else NEVENT_PRIORITY_NORMAL.

(** ** Access *)

Definition at_ptr (p : ptr) (s : scheduler) : outcome event_data := present (data (mem s) !! p).
(** The pointer of a caller's handle. *)
Definition at_handle (p : ptr) (s : scheduler) : outcome event_data :=
  match data (mem s) !! p with Some d => Done d | None => Outside end.
Definition with_mem (m : memory) (s : scheduler) : scheduler := {s with mem := m}.
Definition put (p : ptr) (f : event_data → event_data) (s : scheduler) : scheduler :=
  with_mem (set_ev p f (mem s)) s.
Definition tell (n : note) (s : scheduler) : scheduler := {s with log ::= cons n}.

Definition nevent_assert_pool_accounting (s : scheduler) : outcome scheduler :=
  ensure! (0 <=? ne_event_counter s)
    && (wrap 64 (ne_event_counter s) =? objs_used (ne_dead_event_pool (mem s))) in
  Done s.

Definition link (p : ptr) (loc : Z) (s : scheduler) : outcome scheduler :=
  let! m := present (nevent_link_schedule (nevent_sorts_before (ne_event_tick s)) p loc (mem s)) in
  Done (with_mem m s).

(** [nevent_unlink_schedule]. *)
Definition unlink_schedule (p : ptr) (s : scheduler) : outcome scheduler :=
  let! d := at_ptr p s in
  ensure! element d <? PULSES_IN_TICK in
  let! m := present (unlink_at Sched (element d) p (mem s)) in
  Done (with_mem m s).

(** ** Catch-up debt *)

Definition nevent_saturating_add_ull (left right : Z) : Z :=
  if ULLONG_MAX - left <? right then ULLONG_MAX else left + right.
Definition nevent_saturating_add_long (left right : Z) : Z :=
  if LONG_MAX - left <? right then LONG_MAX else left + right.
Definition nevent_ceil_div_ull (value divisor : Z) : Z :=
  value / divisor + (if value mod divisor =? 0 then 0 else 1).

Definition due_count (t : Z) (s : scheduler) : Z := default 0 (nevent_deferred_due_counts s !! t).

Definition nevent_register_deferred (p : ptr) (s : scheduler) : outcome scheduler :=
  let! d := at_ptr p s in
  if 0 <? deferral_count d then Done s else
  ensure! negb (nevent_catchup_debt s =? LONG_MAX) in
  let cost := Z.max 1 (nevent_avg_callback_us s) in
  let s := put p (λ d, {d with deferred_cost_us := cost}) s in
  Done {s with
    nevent_catchup_debt ::= λ n, n + 1;
    nevent_catchup_debt_estimated_us ::= λ n, nevent_saturating_add_ull n cost;
    nevent_deferred_due_counts := <[due_tick d := due_count (due_tick d) s + 1]> (nevent_deferred_due_counts s);
    nevent_catchup_remaining ::= λ n, if n <=? 0 then NEVENT_CATCHUP_WINDOW_PULSES else n }.

Definition nevent_complete_deferred (p : ptr) (s : scheduler) : outcome scheduler :=
  let! d := at_ptr p s in
  if deferral_count d =? 0 then Done s else
  ensure! negb (nevent_catchup_debt s <=? 0) in
  let! due := present (nevent_deferred_due_counts s !! due_tick d) in
  ensure! negb (due <=? 0) in
  let counts :=
    if due - 1 =? 0 then delete (due_tick d) (nevent_deferred_due_counts s)
    else <[due_tick d := due - 1]> (nevent_deferred_due_counts s) in
  ensure! negb (nevent_catchup_debt_estimated_us s <? deferred_cost_us d) in
  let s := {s with
    nevent_deferred_due_counts := counts;
    nevent_catchup_debt ::= λ n, n - 1;
    nevent_catchup_debt_estimated_us ::= λ n, n - deferred_cost_us d } in
  Done (put p (λ d, {d with deferred_cost_us := 0}) s).

Definition nevent_record_callback_cost (callback_us : Z) (s : scheduler) : scheduler :=
  let callback_us := Z.max 1 callback_us in
  let avg := nevent_avg_callback_us s in
  let avg :=
    if avg <? 1 then callback_us
    else avg + Z.shiftr (callback_us - avg) NEVENT_CALLBACK_EWMA_SHIFT in
  {s with nevent_avg_callback_us := Z.max 1 avg}.

(** The effective budget and the effective limit of callbacks. *)
Definition nevent_prepare_catchup (s : scheduler) : Z * Z * scheduler :=
  let base_budget_usec := nevent_budget_usec cfg in
  let base_max_callbacks := nevent_max_callbacks cfg in
  let s := {s with nevent_catchup_quota := 0; nevent_catchup_extra_callbacks := 0;
                   nevent_catchup_extension_us := 0} in
  if (nevent_catchup_debt s <=? 0) || (nevent_catchup_remaining s <=? 0)
  then (base_budget_usec, base_max_callbacks, s) else
  let callback_quota := nevent_ceil_div_ull (nevent_catchup_debt s) (nevent_catchup_remaining s) in
  let cost_quota := nevent_ceil_div_ull (nevent_catchup_debt_estimated_us s) (nevent_catchup_remaining s) in
  let quota := Z.min callback_quota NEVENT_CONFIG_MAX_CALLBACKS in
  let s := {s with nevent_catchup_quota := quota} in
  let '(callbacks, s) :=
    if negb (base_max_callbacks =? NEVENT_UNLIMITED) then
      let extra := Z.min quota (nevent_catchup_max_extra_callbacks cfg) in
      (nevent_saturating_add_long base_max_callbacks extra,
       {s with nevent_catchup_extra_callbacks := extra})
    else (base_max_callbacks, s) in
  if negb (base_budget_usec =? NEVENT_UNLIMITED) then
    let extension := Z.min cost_quota (nevent_catchup_max_extension_us cfg) in
    (nevent_saturating_add_long base_budget_usec extension, callbacks,
     {s with nevent_catchup_extension_us := extension})
  else (base_budget_usec, callbacks, s).

Definition nevent_finish_catchup_pulse (s : scheduler) : outcome scheduler :=
  if nevent_catchup_debt s <=? 0 then
    ensure! bool_decide (nevent_deferred_due_counts s = ∅)
      && (nevent_catchup_debt_estimated_us s =? 0) in
    Done {s with nevent_catchup_debt := 0; nevent_catchup_remaining := 0}
  else
    ensure! negb (bool_decide (nevent_deferred_due_counts s = ∅)) in
    let r := nevent_catchup_remaining s in
    let r := if 0 <? r then r - 1 else r in
    Done {s with nevent_catchup_remaining := if r <=? 0 then NEVENT_CATCHUP_WINDOW_PULSES else r}.

(** ** Owners and the end of an event *)

Definition nevent_detach_character (p : ptr) (s : scheduler) : outcome scheduler :=
  let! d := at_ptr p s in
  match ev_ch d with
  | None => Done s
  | Some c =>
      let! m := present (unlink_at Char c p (mem s)) in
      Done (put p (λ d, {d with ev_ch := None}) (with_mem m s))
  end.

Definition nevent_detach_object (p : ptr) (s : scheduler) : outcome scheduler :=
  let! d := at_ptr p s in
  match ev_obj d with
  | None => Done s
  | Some o =>
      let! m := present (unlink_at Obj o p (mem s)) in
      Done (put p (λ d, {d with ev_obj := None}) (with_mem m s))
  end.

Definition nevent_detach_owners (p : ptr) (s : scheduler) : outcome scheduler :=
  let s := put p (λ d, {d with cld := None; ev_victim := None}) s in
  let! s := nevent_detach_object p s in
  nevent_detach_character p s.

Definition is_live (l : lifecycle) : bool :=
  match l with active | cancel_pending => true | _ => false end.

Definition release_payload (p : ptr) (s : scheduler) : outcome scheduler :=
  let! d := at_ptr p s in
  match ev_data d with
  | None => Done s
  | Some x =>
      ensure! data_destroy d in
      Done (put p (λ d, {d with ev_data := None; data_destroy := false}) (tell (Destroyed x) s))
  end.

Definition complete_if_deferred (p : ptr) (s : scheduler) : outcome scheduler :=
  let! d := at_ptr p s in
  if 0 <? deferral_count d then
    let! s := nevent_complete_deferred p s in
    Done (put p (λ d, {d with deferral_count := 0}) s)
  else Done s.

Definition nevent_destroy (p : ptr) (s : scheduler) : outcome scheduler :=
  let! d := at_ptr p s in
  if negb (is_live (lifecycle_state d)) then Done s else
  let s := put p (λ d, {d with lifecycle_state := destroying}) s in
  let s := {s with nevent_pending_reschedules ::= delete p} in
  let! s := nevent_detach_owners p s in
  let! s := unlink_schedule p s in
  let! s := release_payload p s in
  let! s := complete_if_deferred p s in
  ensure! 0 <? ne_event_counter s in
  let s := {s with ne_event_counter ::= λ n, n - 1} in
  let s := put p (λ d, {d with func := None; lifecycle_state := released}) s in
  let s := with_mem (mm_release p (mem s)) s in
  nevent_assert_pool_accounting s.

(** ** Handles *)

Definition nevent_handle_from_event (e : option ptr) (s : scheduler) : outcome nevent_handle :=
  match e with
  | None => Done null_handle
  | Some p => let! d := at_ptr p s in Done (Handle (Some p) (sequence d))
  end.

Definition nevent_cancel (h : nevent_handle) (s : scheduler)
  : outcome (nevent_cancel_result * scheduler) :=
  match event h with
  | None => Done (invalid_handle, s)
  | Some p =>
      if h_sequence h =? 0 then Done (invalid_handle, s) else
      let! d := at_handle p s in
      if negb (sequence d =? h_sequence h) then Done (stale_handle, s) else
      match lifecycle_state d with
      | cancel_pending | destroying | released => Done (already_inactive, s)
      | unused => Done (invalid_handle, s)
      | active =>
          let s := put p (λ d, {d with lifecycle_state := cancel_pending; func := None}) s in
          let s := {s with nevent_pending_reschedules ::= delete p} in
          let s := tell (Cancelled (sequence d)) s in
          match current_nevent s with
          | Some _ =>
              let! s := nevent_detach_owners p s in
              Done (deferred, {s with nevent_pending_cancellations := nevent_pending_cancellations s ++ [h] })
          | None =>
              let! s := nevent_destroy p s in
              Done (canceled, s)
          end
      end
  end.

Fixpoint process_cancellations (pending : list nevent_handle) (s : scheduler) : outcome scheduler :=
  match pending with
  | [] => Done s
  | h :: pending =>
      let! s :=
        match event h with
        | None => Done s
        | Some p =>
            let! d := at_ptr p s in
            if (sequence d =? h_sequence h) && bool_decide (lifecycle_state d = cancel_pending)
            then nevent_destroy p s else Done s
        end in
      process_cancellations pending s
  end.
Definition nevent_process_pending_cancellations (s : scheduler) : outcome scheduler :=
  process_cancellations (nevent_pending_cancellations s) {s with nevent_pending_cancellations := [] }.

(** ** Rescheduling *)

Definition nevent_apply_reschedule (p : ptr) (due : Z) (s : scheduler) : outcome scheduler :=
  let! s := unlink_schedule p s in
  let! s := complete_if_deferred p s in
  let loc := nevent_bucket_for_tick due in
  link p loc (put p (λ d, {d with due_tick := due; element := loc}) s).

(** Whether the event was moved. *)
Definition nevent_apply_pending_reschedule (p : ptr) (s : scheduler) : outcome (bool * scheduler) :=
  match nevent_pending_reschedules s !! p with
  | None => Done (false, s)
  | Some (seq, due) =>
      let s := {s with nevent_pending_reschedules ::= delete p} in
      let! d := at_ptr p s in
      if negb (sequence d =? seq) || negb (bool_decide (lifecycle_state d = active))
      then Done (false, s)
      else let! s := nevent_apply_reschedule p due s in Done (true, s)
  end.

Fixpoint process_reschedules (pending : list (ptr * (Z * Z))) (s : scheduler) : outcome scheduler :=
  match pending with
  | [] => Done s
  | (p, (seq, due)) :: pending =>
      let s := {s with nevent_pending_reschedules ::= delete p} in
      let! d := at_ptr p s in
      let! s :=
        if (sequence d =? seq) && bool_decide (lifecycle_state d = active)
        then nevent_apply_reschedule p due s else Done s in
      process_reschedules pending s
  end.
(** The loop takes the first until none is left; the order of the addresses is not the
    model's, and what a step does to the map is to take its own entry out. *)
Definition nevent_process_pending_reschedules (s : scheduler) : outcome scheduler :=
  process_reschedules (map_to_list (nevent_pending_reschedules s)) s.

Definition nevent_reschedule_at (h : nevent_handle) (due : Z) (s : scheduler)
  : outcome (bool * scheduler) :=
  match event h with
  | None => Done (false, s)
  | Some p =>
      if h_sequence h =? 0 then Done (false, s) else
      let! d := at_handle p s in
      if negb (sequence d =? h_sequence h) || negb (bool_decide (lifecycle_state d = active))
      then Done (false, s) else
      let due := Z.max due (nevent_first_eligible_tick s) in
      match current_nevent s with
      | Some c =>
          if bool_decide (p = c) then Done (false, s)
          else Done (true, {s with nevent_pending_reschedules ::= <[p := (sequence d, due)]>})
      | None => let! s := nevent_apply_reschedule p due s in Done (true, s)
      end
  end.

Definition nevent_reschedule_after (h : nevent_handle) (delay : Z) (s : scheduler)
  : outcome (bool * scheduler) :=
  nevent_reschedule_at h (nevent_add_ticks (ne_event_tick s) delay) s.

Definition nevent_advance_by (h : nevent_handle) (ticks : Z) (s : scheduler)
  : outcome (bool * scheduler) :=
  match event h with
  | None => Done (false, s)
  | Some p =>
      if h_sequence h =? 0 then Done (false, s) else
      let! d := at_handle p s in
      if negb (sequence d =? h_sequence h) then Done (false, s) else
      nevent_reschedule_at h (if due_tick d <=? ticks then 0 else due_tick d - ticks) s
  end.

(** ** Scheduling *)

(** The record of a payload handed over with a destructor. *)
Definition note_handed (a : schedule_args) (s : scheduler) : scheduler :=
  match owned_payload a with
  | Some z => if owned_payload_destroy a then tell (Handed z) s else s
  | None => s
  end.
Definition discard_owned_payload (a : schedule_args) (s : scheduler) : scheduler :=
  match owned_payload a with
  | Some z => if owned_payload_destroy a then tell (Destroyed (Owned z)) s else s
  | None => s
  end.

Definition failure (a : schedule_args) (status : nevent_schedule_status) (s : scheduler)
  : outcome (nevent_schedule_status * nevent_handle * scheduler) :=
  Done (status, null_handle, discard_owned_payload a s).

(** What the event is filled with. *)
Definition new_event (a : schedule_args) (f : event_func) (s : scheduler) : event_data :=
  let due := Z.max (nevent_add_ticks (ne_event_tick s) (delay a)) (nevent_first_eligible_tick s) in
  let seq := ne_event_sequence s + 1 in
  let x :=
    match owned_payload a with
    | Some z => Some (Owned z)
    | None => if 0 <? data_size a then Copy <$> src a else None
    end in
  {| ev_obj := obj a; ev_ch := name <$> ch a; ev_victim := fst <$> victim a; func := Some f;
     ev_data := x; data_destroy := match x with Some _ => true | None => false end;
     element := nevent_bucket_for_tick due; priority := nevent_priority f (ch a);
     deferral_count := 0; lifecycle_state := active; periodic_job_id := 0; due_tick := due;
     deferred_cost_us := 0; sequence := seq;
     cld := match ch a, victim a with
            | Some c, Some (w, _) => if name c =? w then None else Some seq
            | _, _ => None
            end;
     owner_runtime_id := match ch a with Some c => runtime_id c | None => 0 end;
     victim_runtime_id := match victim a with Some (_, id) => id | None => 0 end |}.

(** [add_event_internal] once it has taken an event from the pool. *)
Definition place (a : schedule_args) (f : event_func) (p : ptr) (m : memory) (s : scheduler)
  : outcome (nevent_schedule_status * nevent_handle * scheduler) :=
  let e := new_event a f s in
  let s := put p (λ _, e) (with_mem m s) in
  let s := {s with ne_event_sequence ::= λ n, n + 1} in
  let s := with_mem (append_if Char (ev_ch e) p (mem s)) s in
  let s := with_mem (append_if Obj (ev_obj e) p (mem s)) s in
  let! s := link p (element e) s in
  let s := {s with ne_event_counter ::= λ n, n + 1} in
  let! s := nevent_assert_pool_accounting s in
  let! h := nevent_handle_from_event (Some p) s in
  Done (scheduled, h, s).

Definition add_event_internal (a : schedule_args) (s : scheduler)
  : outcome (nevent_schedule_status * nevent_handle * scheduler) :=
  let s := note_handed a s in
  match a_func a with
  | None => failure a null_callback s
  | Some f =>
      if delay a <? 0 then failure a negative_delay s else
      if match ch a with
         | Some c => negb (IS_ALIVE c) && negb (bool_decide (f = release_mob_mem))
         | None => false
         end then failure a dead_owner s else
      if bool_decide (is_Some (victim a)) && bool_decide (ch a = None)
      then failure a victim_without_owner s else
      if (data_size a <? 0) || (0 <? data_size a) && bool_decide (src a = None)
         || bool_decide (is_Some (owned_payload a)) && negb (owned_payload_destroy a)
      then failure a invalid_payload s else
      if ne_event_sequence s =? ULLONG_MAX then failure a sequence_exhausted s else
      let! (p, m) := mm_get chunk_objects granted (mem s) in
      place a f p m s
  end.

Definition nevent_handle_is_active (h : nevent_handle) (s : scheduler) : outcome bool :=
  match event h with
  | None => Done false
  | Some p =>
      if h_sequence h =? 0 then Done false else
      let! d := at_handle p s in
      Done ((sequence d =? h_sequence h) && bool_decide (lifecycle_state d = active))
  end.

Definition nevent_finish_replace (existing : nevent_handle) (st : nevent_schedule_status)
    (h : nevent_handle) (s : scheduler)
  : outcome (nevent_schedule_status * nevent_handle * scheduler) :=
  if negb (bool_decide (st = scheduled)) then Done (st, h, s) else
  let! (c, s) := nevent_cancel existing s in
  match c with
  | canceled | deferred => Done (st, h, s)
  | _ =>
      let! (_, s) := nevent_cancel h s in
      Done (invalid_replace_target, null_handle, s)
  end.

(** [nevent_replace] and [nevent_replace_owned_payload]. *)
Definition nevent_replace (existing : nevent_handle) (a : schedule_args) (s : scheduler)
  : outcome (nevent_schedule_status * nevent_handle * scheduler) :=
  let! is_active := nevent_handle_is_active existing s in
  if negb is_active then
    failure a invalid_replace_target (note_handed a s)
  else
    let! (st, h, s) := add_event_internal a s in
    nevent_finish_replace existing st h s.

(** The walk over the list of an owner, the next event read before one is cancelled. *)
Fixpoint disarm_loop (w : kind) (f : option event_func) (fuel : nat) (e : option ptr)
    (s : scheduler) : outcome scheduler :=
  match fuel, e with
  | _, None => Done s
  | O, _ => Corrupt
  | S fuel, Some p =>
      let! next := present (next_of w p (mem s)) in
      let! d := at_ptr p s in
      let! s :=
        if bool_decide (f = None) || bool_decide (func d = f) then
          let! h := nevent_handle_from_event (Some p) s in
          let! (_, s) := nevent_cancel h s in
          Done s
        else Done s in
      disarm_loop w f fuel next s
  end.
Definition disarm_char_nevents (c : Z) (f : option event_func) (s : scheduler) : outcome scheduler :=
  disarm_loop Char f (size (events (mem s))) (head_of Char c (mem s)) s.
Definition disarm_obj_nevents (o : Z) (f : option event_func) (s : scheduler) : outcome scheduler :=
  disarm_loop Obj f (size (events (mem s))) (head_of Obj o (mem s)) s.

(** The events of a list. *)
Fixpoint walk (w : kind) (fuel : nat) (e : option ptr) (m : memory) : outcome (list ptr) :=
  match fuel, e with
  | _, None => Done []
  | O, _ => Corrupt
  | S fuel, Some p =>
      let! next := present (next_of w p m) in
      let! l := walk w fuel next m in
      Done (p :: l)
  end.
Definition events_of (w : kind) (k : Z) (s : scheduler) : outcome (list ptr) :=
  walk w (size (events (mem s))) (head_of w k (mem s)) (mem s).

(** What [periodic_schedule_at] of [nevent_periodic.c] does with the scheduler: the event it
    adds for a job is given the number of the job. *)
Definition periodic_schedule (a : schedule_args) (job_id : Z) (s : scheduler)
  : outcome (nevent_schedule_status * nevent_handle * scheduler) :=
  let! (st, h, s) := add_event_internal a s in
  if negb (bool_decide (st = scheduled)) then Done (st, h, s) else
  match event h with
  | None => Corrupt
  | Some p => Done (st, h, put p (λ d, {d with periodic_job_id := job_id}) s)
  end.

(** A link of a character is broken. *)
Definition event_broken (c : Z) (broken : Z) (s : scheduler) : outcome scheduler :=
  let! l := events_of Char c s in
  match list_find (λ p, cld <$> data (mem s) !! p = Some (Some broken)) l with
  | None => Done s
  | Some (_, p) =>
      let! h := nevent_handle_from_event (Some p) s in
      let s := put p (λ d, {d with cld := None; ev_victim := None}) s in
      let! d := at_ptr p s in
      if bool_decide (lifecycle_state d = active) then
        let! (_, s) := nevent_cancel h s in
        Done s
      else Done s
  end.

(** ** Search *)

Definition nevent_earlier_match (f : event_func) (excluded : option ptr) (s : scheduler)
    (best : option ptr) (candidate : ptr) : option ptr :=
  match data (mem s) !! candidate with
  | None => best
  | Some d =>
      if bool_decide (Some candidate = excluded) || negb (bool_decide (func d = Some f))
         || negb (bool_decide (lifecycle_state d = active))
      then best else
      match best with
      | None => Some candidate
      | Some b =>
          if sorts_before (nevent_sorts_before (ne_event_tick s)) (data (mem s)) candidate b
          then Some candidate else best
      end
  end.

Definition find_in (f : event_func) (excluded : option ptr) (l : list ptr) (s : scheduler)
  : outcome nevent_handle :=
  nevent_handle_from_event (foldl (nevent_earlier_match f excluded s) None l) s.

Fixpoint wheel_events (ks : list Z) (s : scheduler) : outcome (list ptr) :=
  match ks with
  | [] => Done []
  | k :: ks =>
      let! l := events_of Sched k s in
      let! r := wheel_events ks s in
      Done (l ++ r)
  end.
Definition all_buckets : list Z := seqZ 0 PULSES_IN_TICK.

Definition nevent_find_next (f : event_func) (s : scheduler) : outcome nevent_handle :=
  let! l := wheel_events all_buckets s in
  find_in f None l s.
Definition nevent_find_next_character (c : Z) (f : event_func) (s : scheduler) : outcome nevent_handle :=
  let! l := events_of Char c s in
  find_in f None l s.
Definition nevent_find_next_excluding_current (c : Z) (f : event_func) (s : scheduler)
  : outcome nevent_handle :=
  let! l := events_of Char c s in
  find_in f (current_nevent s) l s.
Definition nevent_find_next_object (o : Z) (f : event_func) (s : scheduler) : outcome nevent_handle :=
  let! l := events_of Obj o s in
  find_in f None l s.

(** The pulses left of an event, as an [int]. *)
Definition ne_event_time (p : ptr) (s : scheduler) : outcome Z :=
  let! d := at_handle p s in
  Done (if negb (bool_decide (lifecycle_state d = active)) || (due_tick d <=? ne_event_tick s) then 0
        else Z.min (due_tick d - ne_event_tick s) INT32_MAX).

(** ** The pass *)

(** What a caller asks. *)
Inductive request :=
| Add (a : schedule_args)
| AddPeriodic (a : schedule_args) (job_id : Z)
| Replace (existing : nevent_handle) (a : schedule_args)
| Cancel (h : nevent_handle)
| Reschedule (h : nevent_handle) (due : Z)
| RescheduleAfter (h : nevent_handle) (delay : Z)
| AdvanceBy (h : nevent_handle) (ticks : Z)
| DisarmChar (c : Z) (f : option event_func)
| DisarmObj (o : Z) (f : option event_func)
| Broken (c : Z) (broken : Z).

Definition perform (r : request) (s : scheduler) : outcome scheduler :=
  match r with
  | Add a => let! (_, _, s) := add_event_internal a s in Done s
  | AddPeriodic a id => let! (_, _, s) := periodic_schedule a id s in Done s
  | Replace h a => let! (_, _, s) := nevent_replace h a s in Done s
  | Cancel h => let! (_, s) := nevent_cancel h s in Done s
  | Reschedule h due => let! (_, s) := nevent_reschedule_at h due s in Done s
  | RescheduleAfter h delay => let! (_, s) := nevent_reschedule_after h delay s in Done s
  | AdvanceBy h ticks => let! (_, s) := nevent_advance_by h ticks s in Done s
  | DisarmChar c f => disarm_char_nevents c f s
  | DisarmObj o f => disarm_obj_nevents o f s
  | Broken c l => event_broken c l s
  end.
Fixpoint perform_all (rs : list request) (s : scheduler) : outcome scheduler :=
  match rs with
  | [] => Done s
  | r :: rs => let! s := perform r s in perform_all rs s
  end.

(** What a callback does and how many microseconds it takes. *)
Record reply := Reply {
  requests : list request;
  callback_us : Z;
}.
Definition no_reply : reply := Reply [] 0.

(** The due events from one on, of a bucket ordered by due tick. *)
Fixpoint due_prefix (fuel : nat) (e : option ptr) (s : scheduler) : outcome (list ptr) :=
  match fuel, e with
  | _, None => Done []
  | O, _ => Corrupt
  | S fuel, Some p =>
      let! d := at_ptr p s in
      if due_tick d <=? ne_event_tick s then
        let! next := present (next_of Sched p (mem s)) in
        let! l := due_prefix fuel next s in
        Done (p :: l)
      else Done []
  end.

Definition defer_one (next_bucket : Z) (p : ptr) (s : scheduler) : outcome scheduler :=
  let! s := unlink_schedule p s in
  let s := put p (λ d, {d with element := next_bucket}) s in
  let! s := nevent_register_deferred p s in
  Done (put p (λ d, {d with deferral_count ::= λ n, wrap 32 (n + 1)}) s).
Fixpoint defer_all (next_bucket : Z) (batch : list ptr) (s : scheduler) : outcome scheduler :=
  match batch with
  | [] => Done s
  | p :: batch => let! s := defer_one next_bucket p s in defer_all next_bucket batch s
  end.

(** [std::sort], whose result an order without equals determines. *)
Fixpoint sort_insert (lt : ptr → ptr → bool) (p : ptr) (l : list ptr) : list ptr :=
  match l with
  | [] => [p]
  | q :: l' => if lt p q then p :: l else q :: sort_insert lt p l'
  end.
Definition std_sort (lt : ptr → ptr → bool) (l : list ptr) : list ptr :=
  foldr (sort_insert lt) [] l.

Definition nevent_defer_suffix (e : option ptr) (s : scheduler) : outcome scheduler :=
  match e with
  | None => Done s
  | Some _ =>
      let next_bucket := nevent_bucket_for_tick (nevent_add_ticks (ne_event_tick s) 1) in
      let! batch := due_prefix (size (events (mem s))) e s in
      let! s := defer_all next_bucket batch s in
      let before := nevent_sorts_before (ne_event_tick s) in
      let sorted := std_sort (sorts_before before (data (mem s))) batch in
      let! m := present (nevent_merge_sorted_batch before sorted next_bucket (mem s)) in
      Done (with_mem m s)
  end.

(** The loop of [ne_events].  [clock i] is the time since the pass began as read at the
    [i]-th event scanned; the callbacks that run take their replies in order. *)
Section Pass.
Context (clock : nat → Z) (pass_sequence budget_usec max_callbacks : Z).

Fixpoint pass (fuel : nat) (replies : list reply) (budget_exhausted : bool) (scanned : nat)
    (executed : Z) (current : option ptr) (s : scheduler) : outcome scheduler :=
  match fuel, current with
  | _, None => Done s
  | O, _ => Corrupt
  | S fuel, Some p =>
      let s := {s with current_nevent := Some p} in
      let scanned := S scanned in
      let! next_event := present (next_of Sched p (mem s)) in
      let! (moved, s) := nevent_apply_pending_reschedule p s in
      if moved : bool then pass fuel replies budget_exhausted scanned executed next_event s else
      let! d := at_ptr p s in
      if (pass_sequence <? sequence d) || (ne_event_tick s <? due_tick d) then
        let budget_exhausted :=
          if (0 <? budget_usec) && (Z.of_nat scanned mod 64 =? 0)
          then budget_usec <=? clock scanned else budget_exhausted in
        if budget_exhausted && bool_decide (is_Some next_event)
        then nevent_defer_suffix next_event s
        else pass fuel replies budget_exhausted scanned executed next_event s
      else
        let! (replies, executed, s) :=
          match func d with
          | Some _ =>
              let r := default no_reply (head replies) in
              let s := tell (Ran (sequence d) (due_tick d) (ne_event_tick s)) s in
              let! s := perform_all (requests r) s in
              Done (tail replies, executed + 1, nevent_record_callback_cost (callback_us r) s)
          | None => Done (replies, executed, s)
          end in
        let! d := at_ptr p s in
        let! s := if bool_decide (lifecycle_state d = cancel_pending) then Done s
                  else nevent_destroy p s in
        let budget_exhausted :=
          budget_exhausted || (0 <? max_callbacks) && (max_callbacks <=? executed)
          || (0 <? budget_usec) && (budget_usec <=? clock scanned) in
        if budget_exhausted && bool_decide (is_Some next_event)
        then nevent_defer_suffix next_event s
        else pass fuel replies budget_exhausted scanned executed next_event s
  end.
End Pass.

(** Steps enough for a pass: the events there are and those the callbacks add or move. *)
Definition pass_fuel (replies : list reply) (s : scheduler) : nat :=
  S (size (events (mem s)) + sum_list (length ∘ requests <$> replies)).

Definition ne_events (replies : list reply) (clock : nat → Z) (watchdog : list request)
    (s : scheduler) : outcome scheduler :=
  ensure! negb ((pulse s <? 0) || (PULSES_IN_TICK <=? pulse s)) in
  ensure! pulse s =? nevent_bucket_for_tick (ne_event_tick s) in
  ensure! negb (after_events_call s) in
  let s := {s with after_events_call := true} in
  let pass_sequence := ne_event_sequence s in
  let '(budget_usec, max_callbacks, s) := nevent_prepare_catchup s in
  let! s := pass clock pass_sequence budget_usec max_callbacks (pass_fuel replies s) replies
      false O 0 (head_of Sched (pulse s) (mem s)) s in
  let s := {s with current_nevent := None} in
  let! s := nevent_process_pending_cancellations s in
  let! s := nevent_process_pending_reschedules s in
  let! s := perform_all watchdog s in
  let! s := nevent_finish_catchup_pulse s in
  nevent_assert_pool_accounting s.

Definition nevent_advance_tick (s : scheduler) : outcome scheduler :=
  ensure! after_events_call s in
  ensure! negb (ne_event_tick s =? ULLONG_MAX) in
  let tick := ne_event_tick s + 1 in
  Done {s with ne_event_tick := tick; pulse := nevent_bucket_for_tick tick; after_events_call := false}.

(** [ne_init_event_pool] of a process that starts. *)
Definition ne_init_event_pool : scheduler :=
  Scheduler no_memory None 0 0 0 0 false 0 0 50 0 0 0 0 ∅ [] ∅ [].

(** What the game thread does with the scheduler. *)
Inductive action :=
| Ask (r : request)
| Events (replies : list reply) (clock : nat → Z) (watchdog : list request)
| AdvanceTick.

Definition act (a : action) (s : scheduler) : outcome scheduler :=
  match a with
  | Ask r => perform r s
  | Events replies clock watchdog => ne_events replies clock watchdog s
  | AdvanceTick => nevent_advance_tick s
  end.
Fixpoint run (acts : list action) (s : scheduler) : outcome scheduler :=
  match acts with
  | [] => Done s
  | a :: acts => let! s := act a s in run acts s
  end.
End Scheduler.
