(* ===== verification/SchedulerInvariant.v ===== *)
(** * The invariant of the event scheduler

    What holds of the wheel, the owners' lists, the pool, the counters and the debt at every
    step of every operation of [Scheduler], with the lemmas for the steps the operations
    are made of. *)

From S2P Require Import Prelude.
From S2P Require Import EventMemory.
From S2P Require Import Scheduler.

(** ** Sums over the events *)

Definition tally (w : event_data → Z) (D : gmap ptr event_data) : Z :=
  map_fold (λ _ d n, w d + n) 0 D.

Section Tally.
Context (w : event_data → Z).

Lemma tally_empty : tally w ∅ = 0.
Proof. apply map_fold_empty. Qed.

Lemma tally_insert D p d : D !! p = None → tally w (<[p := d]> D) = w d + tally w D.
Proof. intros N. apply (map_fold_insert_L (λ _ d n, w d + n) 0 p d D); [intros; lia|done]. Qed.

Lemma tally_update D p d d' : D !! p = Some d → tally w (<[p := d']> D) = tally w D - w d + w d'.
Proof.
  intros E. rewrite <- (insert_delete_id D p d) at 2 by done.
  rewrite <- insert_delete_eq. rewrite !tally_insert by apply lookup_delete_eq. lia.
Qed.

Lemma tally_union D F :
  (∀ p d, F !! p = Some d → w d = 0 ∧ D !! p = None) → tally w (D ∪ F) = tally w D.
Proof.
  induction F as [|p d F N IH] using map_ind; intros H; [by rewrite map_union_empty|].
  destruct (H p d) as [W Dp]; [by rewrite lookup_insert_eq|].
  rewrite <- insert_union_r by done. rewrite tally_insert by (by rewrite lookup_union_None).
  rewrite W, IH; [done|]. intros q e E. apply H. rewrite lookup_insert_ne; [done|]. intros ->. congruence.
Qed.

Lemma tally_bounds D c : (∀ p d, D !! p = Some d → 0 ≤ w d ≤ c) → 0 ≤ tally w D ≤ c * Z.of_nat (size D).
Proof.
  induction D as [|p d D N IH] using map_ind; intros H; [rewrite tally_empty, map_size_empty; lia|].
  rewrite tally_insert, map_size_insert_None by done.
  pose proof (H p d ltac:(by rewrite lookup_insert_eq)).
  assert (0 ≤ tally w D ≤ c * Z.of_nat (size D)); [|lia].
  apply IH. intros q e E. apply (H q). rewrite lookup_insert_ne; [done|]. intros ->. congruence.
Qed.

Lemma tally_at D p d : (∀ p d, D !! p = Some d → 0 ≤ w d) → D !! p = Some d → w d ≤ tally w D.
Proof.
  intros H E. rewrite <- (insert_delete_id D p d) by done. rewrite tally_insert by apply lookup_delete_eq.
  assert (0 ≤ tally w (delete p D)); [|lia].
  clear E. revert H. generalize (delete_subseteq D p). intros S H.
  assert (∀ q e, delete p D !! q = Some e → 0 ≤ w e) as H' by (intros q e E; eapply H, lookup_weaken; done).
  clear S H. induction (delete p D) as [|q e D' N IH] using map_ind; [by rewrite tally_empty|].
  rewrite tally_insert by done. pose proof (H' q e ltac:(by rewrite lookup_insert_eq)).
  assert (0 ≤ tally w D'); [|lia]. apply IH. intros r f E. apply (H' r). rewrite lookup_insert_ne; [done|].
  intros ->. congruence.
Qed.

Lemma tally_zero D : (∀ p d, D !! p = Some d → 0 ≤ w d) → tally w D = 0 → ∀ p d, D !! p = Some d → w d = 0.
Proof. intros H E p d Ep. pose proof (tally_at D p d H Ep). pose proof (H p d Ep). lia. Qed.
End Tally.

Lemma tally_ext w w' D : (∀ p d, D !! p = Some d → w d = w' d) → tally w D = tally w' D.
Proof.
  induction D as [|p d D N IH] using map_ind; intros E; [done|].
  rewrite !tally_insert by done. f_equal; [apply (E p); by rewrite lookup_insert_eq|].
  apply IH. intros q e Eq. apply (E q). rewrite lookup_insert_ne; [done|]. intros ->. congruence.
Qed.
Lemma tally_const_zero D : tally (λ _, 0) D = 0.
Proof. induction D as [|p d D N IH] using map_ind; [done|]. rewrite tally_insert by done. lia. Qed.

(** ** The outcome of an operation *)

(** No corruption, and a result that satisfies [Q]. *)
Definition holds {A} (Q : A → Prop) (o : outcome A) : Prop :=
  match o with Done a => Q a | Outside => True | Corrupt => False end.

Lemma holds_bind {A B} (P : A → Prop) (Q : B → Prop) (o : outcome A) (f : A → outcome B) :
  holds P o → (∀ a, P a → holds Q (f a)) → holds Q (bind_outcome o f).
Proof. destruct o; cbn; auto. Qed.
Lemma holds_impl {A} (P Q : A → Prop) (o : outcome A) :
  holds P o → (∀ a, P a → Q a) → holds Q o.
Proof. destruct o; cbn; auto. Qed.

(** ** What an event is *)

Definition MAX_EVENTS : Z := 2 ^ 32.
Definition MAX_COST : Z := 2 ^ 31.
Definition MAX_TICK : Z := 2 ^ 32 - 2.

(** Taken from the pool and not yet back. *)
Definition used (d : event_data) : bool :=
  match lifecycle_state d with active | cancel_pending | destroying => true | _ => false end.
Definition owing (d : event_data) : bool := 0 <? deferral_count d.

(** The list of each kind an event is on. *)
Definition key (w : kind) (d : event_data) : option Z :=
  match w with
  | Sched => if used d then Some (element d) else None
  | Char => ev_ch d
  | Obj => ev_obj d
  end.

(** Where an event stands when the next tick to run is [T]: at the bucket of its due tick, or,
    its tick past, put off to the bucket of [T]. *)
Definition placed_at (T : Z) (d : event_data) : Prop :=
  deferral_count d ≤ T
  ∧ (element d = nevent_bucket_for_tick (due_tick d) ∧ T ≤ due_tick d
     ∨ 0 < deferral_count d ∧ due_tick d < T ∧ element d = nevent_bucket_for_tick T).

Record dead_ok (d : event_data) : Prop := {
  dead_ch : ev_ch d = None;
  dead_obj : ev_obj d = None;
  dead_data : ev_data d = None;
  dead_count : deferral_count d = 0;
}.

(** A victim has an owner, and a link with it unless they are one. *)
Definition link_ok (d : event_data) : Prop :=
  match ev_victim d with
  | None => cld d = None
  | Some w => match ev_ch d with None => False | Some c => cld d = None ↔ c = w end
  end.

Record used_ok (d : event_data) : Prop := {
  used_sequence : 1 ≤ sequence d;
  used_due : 0 ≤ due_tick d ≤ ULLONG_MAX;
  used_data : data_destroy d = true ↔ is_Some (ev_data d);
  used_count : 0 ≤ deferral_count d;
  used_cost : owing d = true → 1 ≤ deferred_cost_us d ≤ MAX_COST;
  used_active : lifecycle_state d = active → is_Some (func d);
  used_cancelled : lifecycle_state d = cancel_pending → func d = None;
  used_links : link_ok d;
}.

Lemma zero_dead : dead_ok zero_data. Proof. by split. Qed.

(** The tick of the next pass. *)
Definition next_tick (s : scheduler) : Z := ne_event_tick s + (if after_events_call s then 1 else 0).

(** Weights of the sums. *)
Definition count_used (d : event_data) : Z := if used d then 1 else 0.
Definition count_owing (d : event_data) : Z := if used d && owing d then 1 else 0.
Definition cost_owing (d : event_data) : Z := if used d && owing d then deferred_cost_us d else 0.
Definition count_due (t : Z) (d : event_data) : Z :=
  if used d && owing d && (due_tick d =? t) then 1 else 0.

Definition due_le (D : gmap ptr event_data) (p q : ptr) : Prop :=
  ∀ d e, D !! p = Some d → D !! q = Some e → due_tick d ≤ due_tick e.

(** In the middle of an operation: the tick events not yet seen to are placed by, the handles of
    the cancellations that wait, the events off the wheel, and those being destroyed. *)
Record phase := Phase {
  floor_tick : Z;
  waiting : list nevent_handle;
  off_wheel : list ptr;
  dying : list ptr;
}.

Record inv (ph : phase) (s : scheduler) (v : view) : Prop := {
  i_rep : rep (mem s) v;
  i_size : Z.of_nat (size (data (mem s))) ≤ MAX_EVENTS;
  i_owners w k p : w ≠ Sched →
    p ∈ lists v w k ↔ ∃ d, data (mem s) !! p = Some d ∧ key w d = Some k;
  i_wheel k p :
    p ∈ buckets v k ↔ p ∉ off_wheel ph ∧ ∃ d, data (mem s) !! p = Some d ∧ key Sched d = Some k;
  i_free p d : data (mem s) !! p = Some d → p ∈ free v ↔ used d = false;
  i_dead p d : data (mem s) !! p = Some d → used d = false → dead_ok d;
  i_used p d : data (mem s) !! p = Some d → used d = true → used_ok d;
  i_sequences p d : data (mem s) !! p = Some d → 0 ≤ sequence d ≤ ne_event_sequence s;
  i_distinct p q d e : data (mem s) !! p = Some d → data (mem s) !! q = Some e →
    used d = true → used e = true → sequence d = sequence e → p = q;
  i_placed p d : data (mem s) !! p = Some d → used d = true → p ∉ off_wheel ph →
    placed_at (next_tick s) d ∨ placed_at (floor_tick ph) d;
  i_off p : p ∈ off_wheel ph → ∃ d, data (mem s) !! p = Some d ∧ used d = true;
  i_dying p d : data (mem s) !! p = Some d → lifecycle_state d = destroying → p ∈ dying ph;
  i_waiting p d : data (mem s) !! p = Some d → lifecycle_state d = cancel_pending →
    Handle (Some p) (sequence d) ∈ waiting ph;
  i_counter : ne_event_counter s = tally count_used (data (mem s));
  i_objs : objs_used (ne_dead_event_pool (mem s)) = ne_event_counter s;
  i_debt : nevent_catchup_debt s = tally count_owing (data (mem s));
  i_estimate : nevent_catchup_debt_estimated_us s = tally cost_owing (data (mem s));
  i_due t : due_count t s = tally (count_due t) (data (mem s));
  i_due_pos t n : nevent_deferred_due_counts s !! t = Some n → 0 < n;
  i_avg : 1 ≤ nevent_avg_callback_us s ≤ MAX_COST;
  i_tick : 0 ≤ ne_event_tick s ≤ MAX_TICK;
  i_pulse : pulse s = nevent_bucket_for_tick (ne_event_tick s);
  i_sequence : 0 ≤ ne_event_sequence s ≤ ULLONG_MAX;
  i_sorted k : StronglySorted (due_le (data (mem s))) (buckets v k);
  i_moves p seq due : nevent_pending_reschedules s !! p = Some (seq, due) →
    next_tick s ≤ due ≤ ULLONG_MAX ∧ is_Some (data (mem s) !! p);
  i_cancels h : h ∈ nevent_pending_cancellations s → ∃ p, event h = Some p ∧ is_Some (data (mem s) !! p);
}.

(** ** One event's data change *)

Record same_clock (s s' : scheduler) : Prop := {
  clock_tick : ne_event_tick s' = ne_event_tick s;
  clock_after : after_events_call s' = after_events_call s;
  clock_pulse : pulse s' = pulse s;
  clock_avg : nevent_avg_callback_us s' = nevent_avg_callback_us s;
  clock_current : current_nevent s' = current_nevent s;
}.
#[export] Instance same_clock_preorder : PreOrder same_clock.
Proof.
  split; [by split|]. intros s1 s2 s3 [A1 A2 A3 A4 A5] [B1 B2 B3 B4 B5]. split; congruence.
Qed.

Record same_debt (s s' : scheduler) : Prop := {
  debt_count : nevent_catchup_debt s' = nevent_catchup_debt s;
  debt_estimate : nevent_catchup_debt_estimated_us s' = nevent_catchup_debt_estimated_us s;
  debt_due : nevent_deferred_due_counts s' = nevent_deferred_due_counts s;
}.
#[export] Instance same_debt_preorder : PreOrder same_debt.
Proof.
  split; [by split|]. intros s1 s2 s3 [A1 A2 A3] [B1 B2 B3]. split; congruence.
Qed.

Definition fewer_waits (s s' : scheduler) : Prop :=
  nevent_pending_reschedules s' ⊆ nevent_pending_reschedules s
  ∧ nevent_pending_cancellations s' ⊆ nevent_pending_cancellations s.

(** The debt follows one event. *)
Record debt_moves (s s' : scheduler) (d d' : event_data) : Prop := {
  moves_count : nevent_catchup_debt s' = nevent_catchup_debt s - count_owing d + count_owing d';
  moves_estimate :
    nevent_catchup_debt_estimated_us s' = nevent_catchup_debt_estimated_us s - cost_owing d + cost_owing d';
  moves_due t : due_count t s' = due_count t s - count_due t d + count_due t d';
  moves_pos : (∀ t n, nevent_deferred_due_counts s !! t = Some n → 0 < n) →
    ∀ t n, nevent_deferred_due_counts s' !! t = Some n → 0 < n;
}.

Lemma debt_stays s s' d d' :
  same_debt s s' → count_owing d' = count_owing d → cost_owing d' = cost_owing d →
  (∀ t, count_due t d' = count_due t d) → debt_moves s s' d d'.
Proof.
  intros [A B C] E1 E2 E3. split; [lia|lia| |by rewrite C].
  intros t. unfold due_count. rewrite C, E3. lia.
Qed.

Lemma due_le_update D p d d' l :
  (p ∈ l → due_tick d' = due_tick d) → D !! p = Some d →
  StronglySorted (due_le D) l → StronglySorted (due_le (<[p := d']> D)) l.
Proof.
  intros E Ep. induction 1 as [|q l S IH F]; constructor.
  - apply IH. intros I. apply E. by right.
  - rewrite Forall_forall in F |- *. intros r I e f. specialize (F r I).
    destruct (decide (q = p)) as [->|Nq], (decide (r = p)) as [->|Nr];
      rewrite ?lookup_insert_eq, ?lookup_insert_ne by done.
    + intros [= <-] [= <-]. done.
    + intros [= <-] Er. rewrite E by by left. by apply F.
    + intros Eq [= <-]. rewrite E by by right. by apply F.
    + apply F.
Qed.

Record change (ph ph' : phase) (s s' : scheduler) (v v' : view) (p : ptr) (d d' : event_data) : Prop := {
  ch_rep : rep (mem s') v';
  ch_data : data (mem s') = <[p := d']> (data (mem s));
  ch_lists w k q : q ≠ p → q ∈ lists v' w k ↔ q ∈ lists v w k;
  ch_own w k : w ≠ Sched → p ∈ lists v' w k ↔ key w d' = Some k;
  ch_wheel k : p ∈ buckets v' k ↔ p ∉ off_wheel ph' ∧ key Sched d' = Some k;
  ch_free q : q ≠ p → q ∈ free v' ↔ q ∈ free v;
  ch_freed : p ∈ free v' ↔ used d' = false;
  ch_sorted k : StronglySorted (due_le (<[p := d']> (data (mem s)))) (buckets v' k);
  ch_off q : q ≠ p → q ∈ off_wheel ph' ↔ q ∈ off_wheel ph;
  ch_off_used : p ∈ off_wheel ph' → used d' = true;
  ch_floor : floor_tick ph' = floor_tick ph;
  ch_waiting h : h ∈ waiting ph → event h ≠ Some p → h ∈ waiting ph';
  ch_dying q : q ∈ dying ph → q ≠ p → q ∈ dying ph';
  ch_cancelled : lifecycle_state d' = cancel_pending → Handle (Some p) (sequence d') ∈ waiting ph';
  ch_destroying : lifecycle_state d' = destroying → p ∈ dying ph';
  ch_used_ok : used d' = true → used_ok d';
  ch_dead_ok : used d' = false → dead_ok d';
  ch_placed : used d' = true → p ∉ off_wheel ph' →
    placed_at (next_tick s) d' ∨ placed_at (floor_tick ph) d';
  ch_sequences : ne_event_sequence s ≤ ne_event_sequence s' ≤ ULLONG_MAX;
  ch_sequence : 0 ≤ sequence d' ≤ ne_event_sequence s';
  ch_distinct : used d' = true → ∀ q e, q ≠ p → data (mem s) !! q = Some e → used e = true →
    sequence e ≠ sequence d';
  ch_counter : ne_event_counter s' = ne_event_counter s - count_used d + count_used d';
  ch_objs : objs_used (ne_dead_event_pool (mem s')) = ne_event_counter s';
  ch_clock : same_clock s s';
  ch_debt : debt_moves s s' d d';
  ch_waits : fewer_waits s s';
}.

Lemma next_tick_clock s s' : same_clock s s' → next_tick s' = next_tick s.
Proof. intros C. unfold next_tick. by rewrite (clock_tick _ _ C), (clock_after _ _ C). Qed.

Lemma inv_change ph ph' s s' v v' p d d' :
  inv ph s v → data (mem s) !! p = Some d → change ph ph' s s' v v' p d d' → inv ph' s' v'.
Proof.
  intros I Ep P. pose proof (ch_clock _ _ _ _ _ _ _ _ _ P) as C. pose proof (next_tick_clock _ _ C) as Nt.
  pose proof (ch_data _ _ _ _ _ _ _ _ _ P) as ED. pose proof (ch_debt _ _ _ _ _ _ _ _ _ P) as M.
  assert (∀ q e, data (mem s') !! q = Some e → q = p ∧ e = d' ∨ q ≠ p ∧ data (mem s) !! q = Some e) as L.
  { intros q e. rewrite ED. destruct (decide (p = q)) as [<-|N].
    - rewrite lookup_insert_eq. intros [= <-]. by left.
    - rewrite lookup_insert_ne by done. intros E. right. split; [by intros ->|done]. }
  assert (∀ q, is_Some (data (mem s) !! q) → is_Some (data (mem s') !! q)) as Dm.
  { intros q. rewrite ED. destruct (decide (p = q)) as [<-|N];
      [rewrite lookup_insert_eq; eauto|by rewrite lookup_insert_ne]. }
  assert (data (mem s') !! p = Some d') as Ep' by by rewrite ED, lookup_insert_eq.
  assert (∀ q, q ≠ p → data (mem s') !! q = data (mem s) !! q) as Eq.
  { intros q N. by rewrite ED, lookup_insert_ne. }
  split.
  - apply P.
  - rewrite ED, map_size_insert_Some by eauto. apply I.
  - intros w k q Nw. destruct (decide (q = p)) as [->|N].
    + rewrite (ch_own _ _ _ _ _ _ _ _ _ P) by done. rewrite Ep'. naive_solver.
    + rewrite (ch_lists _ _ _ _ _ _ _ _ _ P), (i_owners _ _ _ I), Eq by done. done.
  - intros k q. destruct (decide (q = p)) as [->|N].
    + rewrite (ch_wheel _ _ _ _ _ _ _ _ _ P), Ep'. naive_solver.
    + unfold buckets. rewrite (ch_lists _ _ _ _ _ _ _ _ _ P), Eq by done.
      rewrite (ch_off _ _ _ _ _ _ _ _ _ P) by done. apply (i_wheel _ _ _ I).
  - intros q e E. destruct (L q e E) as [[-> ->]|[N E']]; [by apply P|].
    rewrite (ch_free _ _ _ _ _ _ _ _ _ P) by done. by apply (i_free _ _ _ I).
  - intros q e E U. destruct (L q e E) as [[-> ->]|[N E']]; [by apply P|by eapply (i_dead _ _ _ I)].
  - intros q e E U. destruct (L q e E) as [[-> ->]|[N E']]; [by apply P|by eapply (i_used _ _ _ I)].
  - intros q e E. pose proof (ch_sequences _ _ _ _ _ _ _ _ _ P).
    destruct (L q e E) as [[-> ->]|[N E']]; [by apply P|].
    pose proof (i_sequences _ _ _ I q e E'). lia.
  - intros q r e f E F U V S. destruct (L q e E) as [[-> ->]|[N E']], (L r f F) as [[-> ->]|[N2 F']]; [done|..].
    + exfalso. by eapply (ch_distinct _ _ _ _ _ _ _ _ _ P U r f).
    + exfalso. by eapply (ch_distinct _ _ _ _ _ _ _ _ _ P V q e).
    + by eapply (i_distinct _ _ _ I).
  - intros q e E U. rewrite Nt, (ch_floor _ _ _ _ _ _ _ _ _ P).
    destruct (L q e E) as [[-> ->]|[N E']]; [by apply P|].
    rewrite (ch_off _ _ _ _ _ _ _ _ _ P) by done. by eapply (i_placed _ _ _ I).
  - intros q O. destruct (decide (q = p)) as [->|N].
    + exists d'. split; [done|]. by apply (ch_off_used _ _ _ _ _ _ _ _ _ P).
    + rewrite Eq by done. apply (i_off _ _ _ I). by apply (ch_off _ _ _ _ _ _ _ _ _ P).
  - intros q e E Y. destruct (L q e E) as [[-> ->]|[N E']]; [by apply (ch_destroying _ _ _ _ _ _ _ _ _ P)|].
    apply (ch_dying _ _ _ _ _ _ _ _ _ P); [|done]. by eapply (i_dying _ _ _ I).
  - intros q e E Y. destruct (L q e E) as [[-> ->]|[N E']]; [by apply (ch_cancelled _ _ _ _ _ _ _ _ _ P)|].
    apply (ch_waiting _ _ _ _ _ _ _ _ _ P); [by eapply (i_waiting _ _ _ I)|]. cbn. congruence.
  - rewrite (ch_counter _ _ _ _ _ _ _ _ _ P), ED, (tally_update _ _ _ _ _ Ep), (i_counter _ _ _ I). done.
  - apply P.
  - rewrite (moves_count _ _ _ _ M), ED, (tally_update _ _ _ _ _ Ep), (i_debt _ _ _ I). done.
  - rewrite (moves_estimate _ _ _ _ M), ED, (tally_update _ _ _ _ _ Ep), (i_estimate _ _ _ I). done.
  - intros t. rewrite (moves_due _ _ _ _ M), ED, (tally_update _ _ _ _ _ Ep), (i_due _ _ _ I). done.
  - apply (moves_pos _ _ _ _ M). apply I.
  - rewrite (clock_avg _ _ C). apply I.
  - rewrite (clock_tick _ _ C). apply I.
  - rewrite (clock_tick _ _ C), (clock_pulse _ _ C). apply I.
  - pose proof (ch_sequences _ _ _ _ _ _ _ _ _ P). pose proof (i_sequence _ _ _ I). lia.
  - intros k. rewrite ED. apply P.
  - intros q sq du E. rewrite Nt. destruct (ch_waits _ _ _ _ _ _ _ _ _ P) as [W _].
    destruct (i_moves _ _ _ I q sq du) as [B S]; [by eapply lookup_weaken|]. split; [done|by apply Dm].
  - intros h Ih. destruct (ch_waits _ _ _ _ _ _ _ _ _ P) as [_ W].
    destruct (i_cancels _ _ _ I h) as (q & E & S); [by apply W|]. exists q. split; [done|by apply Dm].
Qed.

(** An event that stays as it is but for its data, on the lists it is on. *)
Lemma inv_put ph ph' s s' v p d d' :
  inv ph s v → data (mem s) !! p = Some d →
  rep (mem s') v → data (mem s') = <[p := d']> (data (mem s)) →
  ne_dead_event_pool (mem s') = ne_dead_event_pool (mem s) →
  (∀ w, w ≠ Sched → key w d' = key w d) → used d' = true → used d = true → sequence d' = sequence d →
  (p ∉ off_wheel ph → element d' = element d ∧ due_tick d' = due_tick d
     ∧ deferral_count d' = deferral_count d) →
  used_ok d' →
  off_wheel ph' = off_wheel ph → floor_tick ph' = floor_tick ph →
  (∀ h, h ∈ waiting ph → event h ≠ Some p → h ∈ waiting ph') →
  (∀ q, q ∈ dying ph → q ≠ p → q ∈ dying ph') →
  (lifecycle_state d' = cancel_pending → Handle (Some p) (sequence d') ∈ waiting ph') →
  (lifecycle_state d' = destroying → p ∈ dying ph') →
  same_clock s s' → ne_event_sequence s' = ne_event_sequence s → ne_event_counter s' = ne_event_counter s →
  debt_moves s s' d d' → fewer_waits s s' →
  inv ph' s' v.
Proof.
  intros I Ep R ED Po Ko U' U Es Same Ok Off Fl Wa Dy Ca De C Sq Co M Wt.
  assert (p ∉ off_wheel ph → key Sched d' = key Sched d) as Ks.
  { intros N. unfold key. rewrite U', U. by destruct (Same N) as [-> _]. }
  eapply (inv_change ph ph' s s' v v p d d' I Ep). split; try done.
  - intros w k Nw. rewrite (i_owners _ _ _ I) by done. rewrite Ep, Ko by done. naive_solver.
  - intros k. rewrite (i_wheel _ _ _ I), Off, Ep. split; intros [N E]; (split; [done|]).
    + destruct E as (e & [= <-] & E). by rewrite Ks.
    + rewrite Ks in E by done. eauto.
  - rewrite (i_free _ _ _ I p d Ep). by rewrite U, U'.
  - intros k. eapply due_le_update; [|exact Ep|apply I]. intros B. apply (i_wheel _ _ _ I) in B as [B _].
    by apply Same.
  - intros q _. by rewrite Off.
  - congruence.
  - intros _ N. rewrite Off in N. unfold placed_at. destruct (Same N) as (-> & -> & ->).
    by apply (i_placed _ _ _ I p d).
  - rewrite Sq. split; [done|apply I].
  - rewrite Es, Sq. by apply (i_sequences _ _ _ I p d).
  - intros _ q e N Eq Ue Sqe. apply N. eapply (i_distinct _ _ _ I q p e d); congruence.
  - rewrite Co. unfold count_used. rewrite U, U'. lia.
  - rewrite Po, Co. apply I.
Qed.

Lemma alter_is_insert (D : gmap ptr event_data) f p d :
  D !! p = Some d → alter f p D = <[p := f d]> D.
Proof.
  intros E. apply map_eq. intros q. destruct (decide (p = q)) as [<-|N].
  - by rewrite lookup_alter_eq, lookup_insert_eq, E.
  - by rewrite lookup_alter_ne, lookup_insert_ne.
Qed.

Lemma put_spec s v p f d :
  rep (mem s) v → data (mem s) !! p = Some d →
  rep (mem (put p f s)) v ∧ data (mem (put p f s)) = <[p := f d]> (data (mem s))
  ∧ ne_dead_event_pool (mem (put p f s)) = ne_dead_event_pool (mem s).
Proof.
  intros R E. destruct (set_ev_spec (mem s) v p f R) as (R' & D' & P').
  split; [exact R'|]. split; [|exact P']. change (data (set_ev p f (mem s)) = <[p := f d]> (data (mem s))).
  by rewrite D', (alter_is_insert _ _ _ _ E).
Qed.

(** ** The steps the operations are made of *)

#[global] Arguments data : simpl never.
#[global] Arguments mem : simpl never.

Lemma same_clock_mem m s : same_clock s (with_mem m s). Proof. by split. Qed.
Lemma fewer_refl s s' : nevent_pending_reschedules s' = nevent_pending_reschedules s →
  nevent_pending_cancellations s' = nevent_pending_cancellations s → fewer_waits s s'.
Proof. intros E1 E2. split; by rewrite ?E1, ?E2. Qed.

Lemma elem_without_lists w k p v w' k' q :
  q ∈ lists (set_list w k (without p (lists v w k)) v) w' k'
  ↔ q ∈ lists v w' k' ∧ ¬ (q = p ∧ w' = w ∧ k' = k).
Proof.
  rewrite lists_set. destruct (decide (w = w' ∧ k = k')) as [[<- <-]|N].
  - rewrite elem_of_without_event. naive_solver.
  - naive_solver.
Qed.

(** An owner's list without the event. *)
Lemma detach_step ph s v w k p d f :
  inv ph s v → w ≠ Sched → data (mem s) !! p = Some d → key w d = Some k → used d = true →
  key w (f d) = None → (∀ w', w' ≠ w → key w' (f d) = key w' d) → used (f d) = true →
  sequence (f d) = sequence d → element (f d) = element d → due_tick (f d) = due_tick d →
  deferral_count (f d) = deferral_count d → deferred_cost_us (f d) = deferred_cost_us d →
  lifecycle_state (f d) = lifecycle_state d → func (f d) = func d → ev_data (f d) = ev_data d →
  data_destroy (f d) = data_destroy d → (link_ok d → link_ok (f d)) →
  ∃ m, unlink_at w k p (mem s) = Some m
    ∧ let s' := put p f (with_mem m s) in let v' := set_list w k (without p (lists v w k)) v in
      inv ph s' v' ∧ data (mem s') = <[p := f d]> (data (mem s)).
Proof.
  intros I Nw Ep Kw U Kf Ko Uf Sq El Du Dc Co Li Fu Da Dd Lk.
  assert (p ∈ lists v w k) as B by (apply (i_owners _ _ _ I); eauto).
  destruct (unlink_at_spec (mem s) v w k p (i_rep _ _ _ I) B) as (m & E & R & D & Po).
  exists m. split; [done|]. cbv zeta.
  destruct (put_spec (with_mem m s) _ p f d R) as (R' & D' & Po').
  { change (data m !! p = Some d). by rewrite D. }
  change (data (mem (with_mem m s))) with (data m) in D'. rewrite D in D'.
  change (ne_dead_event_pool (mem (with_mem m s))) with (ne_dead_event_pool m) in Po'. rewrite Po in Po'.
  split; [|exact D'].
  assert (key Sched (f d) = key Sched d) as Ks by (apply Ko; done).
  eapply (inv_change ph ph s _ v _ p d (f d) I Ep). split; try done.
  - intros w' k' q Nq. rewrite elem_without_lists. naive_solver.
  - intros w' k' Nw'. rewrite elem_without_lists, (i_owners _ _ _ I), Ep by done.
    destruct (decide (w' = w)) as [->|N].
    + rewrite Kf. split; [|done]. intros [(e & [= <-] & K) N]. rewrite Kw in K. injection K as <-. tauto.
    + rewrite Ko by done. split; [intros [(e & [= <-] & K) _]; done|intros K; split; [eauto|tauto]].
  - intros k'. unfold buckets. rewrite elem_without_lists. change (lists v Sched k') with (buckets v k').
    rewrite (i_wheel _ _ _ I), Ep, Ks. split.
    + intros [[N (e & [= <-] & K)] _]. done.
    + intros [N K]. split; [eauto|]. intros (_ & Q & _). by destruct Nw.
  - change (p ∈ free v ↔ used (f d) = false). rewrite (i_free _ _ _ I p d Ep), U, Uf. done.
  - intros k'. eapply due_le_update; [|exact Ep|].
    + done.
    + unfold buckets. rewrite lists_set. rewrite decide_False by naive_solver. apply I.
  - intros Lc. rewrite Sq. apply (i_waiting _ _ _ I p d Ep). congruence.
  - intros Lc. apply (i_dying _ _ _ I p d Ep). congruence.
  - intros _. destruct (i_used _ _ _ I p d Ep U) as [A1 A2 A3 A4 A5 A6 A7 A8].
    split; unfold owing in *; rewrite ?Sq, ?Du, ?Da, ?Dd, ?Dc, ?Co, ?Li, ?Fu; auto; done.
  - congruence.
  - intros _ N. unfold placed_at. rewrite El, Du, Dc. by apply (i_placed _ _ _ I p d).
  - split; [done|apply I].
  - rewrite Sq. by apply (i_sequences _ _ _ I p d).
  - intros _ q e N Eq Ue Sqe. apply N. eapply (i_distinct _ _ _ I q p e d); congruence.
  - unfold count_used. rewrite U, Uf. change (ne_event_counter (put p f (with_mem m s))) with (ne_event_counter s). lia.
  - rewrite Po'. apply I.
  - apply debt_stays; [by split|..]; unfold count_owing, cost_owing, count_due, owing; by rewrite U, Uf, Dc, ?Co, ?Du.
Qed.

Lemma set_without w k p v w' k' :
  (∀ j, p ∈ lists v w j → j = k) →
  lists (set_list w k (without p (lists v w k)) v) w' k'
  = if decide (w' = w) then without p (lists v w' k') else lists v w' k'.
Proof.
  intros O. rewrite lists_set. destruct (decide (w = w' ∧ k = k')) as [[<- <-]|N].
  - by rewrite decide_True.
  - destruct (decide (w' = w)) as [->|]; [|done]. rewrite without_none; [done|]. intros I. apply N.
    split; [done|]. symmetry. by apply O.
Qed.

Lemma owner_only ph s v w k p d j :
  inv ph s v → w ≠ Sched → data (mem s) !! p = Some d → key w d = Some k → p ∈ lists v w j → j = k.
Proof.
  intros I N E K B. apply (i_owners _ _ _ I) in B as (e & E' & K'); [|done]. congruence.
Qed.

Lemma no_owner ph s v w p d j :
  inv ph s v → w ≠ Sched → data (mem s) !! p = Some d → key w d = None → without p (lists v w j) = lists v w j.
Proof.
  intros I N E K. apply without_none. intros B. apply (i_owners _ _ _ I) in B as (e & E' & K'); [|done]. congruence.
Qed.

Lemma detach_object_inv ph s v p d :
  inv ph s v → data (mem s) !! p = Some d → used d = true →
  ∃ m v', nevent_detach_object p s = Done (with_mem m s) ∧ inv ph (with_mem m s) v'
    ∧ data m = <[p := {d with ev_obj := None}]> (data (mem s)) ∧ buckets v' = buckets v
    ∧ ∀ w k, lists v' w k = if decide (w = Obj) then without p (lists v w k) else lists v w k.
Proof.
  intros I Ep U. unfold nevent_detach_object, at_ptr. rewrite Ep. cbn [present bind_outcome].
  destruct (ev_obj d) as [o|] eqn:E.
  - destruct (detach_step ph s v Obj o p d (λ d, {d with ev_obj := None}) I) as (m & Em & I' & D'); try done.
    { by intros []. }
    rewrite Em. cbn [present bind_outcome]. eexists _, _. split; [done|]. split; [exact I'|]. split; [exact D'|].
    split; [done|]. intros w k. apply set_without. intros j. by apply (owner_only ph s v Obj o p d j I).
  - exists (mem s), v. split; [by destruct s|]. split; [by destruct s|]. split; [|split; [done|]].
    + rewrite insert_id; [done|]. rewrite Ep. f_equal. destruct d. cbn in E. by rewrite E.
    + intros w k. destruct (decide _) as [->|]; [|done]. symmetry. by apply (no_owner ph s v Obj p d k I).
Qed.
Lemma detach_character_inv ph s v p d :
  inv ph s v → data (mem s) !! p = Some d → used d = true → ev_victim d = None →
  ∃ m v', nevent_detach_character p s = Done (with_mem m s) ∧ inv ph (with_mem m s) v'
    ∧ data m = <[p := {d with ev_ch := None}]> (data (mem s)) ∧ buckets v' = buckets v
    ∧ ∀ w k, lists v' w k = if decide (w = Char) then without p (lists v w k) else lists v w k.
Proof.
  intros I Ep U Vi. unfold nevent_detach_character, at_ptr. rewrite Ep. cbn [present bind_outcome].
  destruct (ev_ch d) as [o|] eqn:E.
  - destruct (detach_step ph s v Char o p d (λ d, {d with ev_ch := None}) I) as (m & Em & I' & D'); try done.
    { by intros []. }
    { unfold link_ok. change (ev_victim {d with ev_ch := None}) with (ev_victim d). by rewrite Vi. }
    rewrite Em. cbn [present bind_outcome]. eexists _, _. split; [done|]. split; [exact I'|]. split; [exact D'|].
    split; [done|]. intros w k. apply set_without. intros j. by apply (owner_only ph s v Char o p d j I).
  - exists (mem s), v. split; [by destruct s|]. split; [by destruct s|]. split; [|split; [done|]].
    + rewrite insert_id; [done|]. rewrite Ep. f_equal. destruct d. cbn in E. by rewrite E.
    + intros w k. destruct (decide _) as [->|]; [|done]. symmetry. by apply (no_owner ph s v Char p d k I).
Qed.

(** An event without its owners. *)
Definition detached (d : event_data) : event_data :=
  {d with cld := None; ev_victim := None; ev_obj := None; ev_ch := None}.

Lemma detach_owners_inv ph s v p d :
  inv ph s v → data (mem s) !! p = Some d → used d = true →
  ∃ m v', nevent_detach_owners p s = Done (with_mem m s) ∧ inv ph (with_mem m s) v'
    ∧ data m = <[p := detached d]> (data (mem s)) ∧ buckets v' = buckets v
    ∧ ∀ w k, w ≠ Sched → lists v' w k = without p (lists v w k).
Proof.
  intros I Ep U. unfold nevent_detach_owners.
  set (d1 := {d with cld := None; ev_victim := None}).
  destruct (put_spec s v p (λ d, {d with cld := None; ev_victim := None}) d (i_rep _ _ _ I) Ep) as (R1 & D1 & P1).
  set (s1 := put p _ s) in *. change {d with cld := None; ev_victim := None} with d1 in D1.
  assert (inv ph s1 v) as I1.
  { destruct (i_used _ _ _ I p d Ep U) as [A1 A2 A3 A4 A5 A6 A7 A8].
    eapply (inv_put ph ph s s1 v p d d1 I Ep R1 D1 P1); try done.
    - apply (i_waiting _ _ _ I p d Ep).
    - apply (i_dying _ _ _ I p d Ep).
    - by apply debt_stays. }
  destruct (detach_object_inv ph s1 v p d1 I1) as (m2 & v2 & E2 & I2 & D2 & B2 & L2); [by rewrite D1, lookup_insert_eq|done|].
  rewrite E2. cbn [bind_outcome]. set (d2 := {d1 with ev_obj := None}) in D2.
  assert (data (mem (with_mem m2 s1)) !! p = Some d2) as Ep2.
  { change (data m2 !! p = Some d2). by rewrite D2, lookup_insert_eq. }
  destruct (detach_character_inv ph (with_mem m2 s1) v2 p d2 I2 Ep2) as (m3 & v3 & E3 & I3 & D3 & B3 & L3); [done|done|].
  exists m3, v3. split; [by rewrite E3|]. split; [exact I3|]. split; [|split; [congruence|]].
  2: { intros w k N. rewrite L3, L2. by destruct w. }
  rewrite D3. change (mem (with_mem m2 s1)) with m2. rewrite D2, D1. by rewrite !insert_insert_eq.
Qed.

(** What a step of an operation leaves of the state besides the events and the debt. *)
Record keeps (s s' : scheduler) : Prop := {
  keeps_clock : same_clock s s';
  keeps_sequence : ne_event_sequence s' = ne_event_sequence s;
  keeps_log : log s' = log s;
  keeps_moves : nevent_pending_reschedules s' = nevent_pending_reschedules s;
  keeps_cancels : nevent_pending_cancellations s' = nevent_pending_cancellations s;
}.
Lemma keeps_mem m s : keeps s (with_mem m s). Proof. by split. Qed.

Definition take_off (p : ptr) (ph : phase) : phase :=
  Phase (floor_tick ph) (waiting ph) (p :: off_wheel ph) (dying ph).

Lemma bucket_range t : 0 ≤ nevent_bucket_for_tick t < PULSES_IN_TICK.
Proof. unfold nevent_bucket_for_tick, PULSES_IN_TICK. apply Z.mod_pos_bound. lia. Qed.

Lemma element_range ph s v p d :
  inv ph s v → data (mem s) !! p = Some d → used d = true → p ∉ off_wheel ph →
  0 ≤ element d < PULSES_IN_TICK.
Proof.
  intros I Ep U N. destruct (i_placed _ _ _ I p d Ep U N) as [[_ P]|[_ P]];
    destruct P as [(-> & _)|(_ & _ & ->)]; apply bucket_range.
Qed.

Lemma without_sorted D p l : StronglySorted (due_le D) l → StronglySorted (due_le D) (without p l).
Proof.
  induction 1 as [|q l S IH F]; [constructor|]. unfold without. rewrite filter_cons.
  destruct (decide (q ≠ p)); [|done]. constructor; [done|]. rewrite Forall_forall in F |- *.
  intros r I. apply F. by apply list_elem_of_filter in I as [_ I].
Qed.

Lemma unlink_inv ph s v p d :
  inv ph s v → data (mem s) !! p = Some d → used d = true → p ∉ off_wheel ph →
  ∃ m, let v' := set_list Sched (element d) (without p (buckets v (element d))) v in
    unlink_schedule p s = Done (with_mem m s) ∧ inv (take_off p ph) (with_mem m s) v'
    ∧ data m = data (mem s).
Proof.
  intros I Ep U N. unfold unlink_schedule, at_ptr. rewrite Ep. cbn [present bind_outcome].
  pose proof (element_range _ _ _ _ _ I Ep U N). destruct (Z.ltb_spec (element d) PULSES_IN_TICK); [|lia]. cbn [negb].
  assert (key Sched d = Some (element d)) as K by (unfold key; by rewrite U).
  assert (p ∈ buckets v (element d)) as B by (apply (i_wheel _ _ _ I); eauto).
  destruct (unlink_at_spec (mem s) v Sched (element d) p (i_rep _ _ _ I) B) as (m & E & R & D & Po).
  rewrite E. cbn [present bind_outcome]. exists m. split; [done|]. split; [|done].
  assert (data m = <[p := d]> (data (mem s))) as D' by (rewrite D; symmetry; by apply insert_id).
  eapply (inv_change ph _ s _ v _ p d d I Ep). split; try done.
  - intros w' k' q Nq. unfold buckets. rewrite elem_without_lists. naive_solver.
  - intros w' k' Nw'. unfold buckets. rewrite elem_without_lists, (i_owners _ _ _ I), Ep by done.
    split; [intros [(e & [= <-] & K') _]; done|intros K'; split; [eauto|tauto]].
  - intros k'. unfold buckets. rewrite elem_without_lists. change (lists v Sched k') with (buckets v k').
    rewrite (i_wheel _ _ _ I), Ep, K. cbn [off_wheel take_off]. split.
    + intros [[_ (e & [= <-] & K')] N']. exfalso. apply N'. rewrite K in K'. by injection K' as <-.
    + intros [N' _]. exfalso. apply N'. by left.
  - by apply (i_free _ _ _ I).
  - intros k'. rewrite insert_id by done. unfold buckets. rewrite lists_set.
    destruct (decide _); [apply without_sorted|]; apply I.
  - intros q Nq. cbn. rewrite elem_of_cons. naive_solver.
  - apply (i_waiting _ _ _ I p d Ep).
  - apply (i_dying _ _ _ I p d Ep).
  - intros _. by apply (i_used _ _ _ I p d Ep).
  - congruence.
  - intros _ N'. exfalso. apply N'. by left.
  - split; [done|apply I].
  - by apply (i_sequences _ _ _ I p d).
  - intros _ q e Nq Eq Ue Sqe. apply Nq. eapply (i_distinct _ _ _ I q p e d); congruence.
  - change (ne_event_counter (with_mem m s)) with (ne_event_counter s). lia.
  - change (objs_used (ne_dead_event_pool m) = ne_event_counter s). rewrite Po. apply I.
  - by apply debt_stays.
Qed.
(** The debt of an event off the wheel is paid. *)
Definition settled (d : event_data) : event_data :=
  if owing d then {d with deferred_cost_us := 0; deferral_count := 0} else d.

Lemma count_due_pos t p d (D : gmap ptr event_data) :
  D !! p = Some d → used d = true → owing d = true → due_tick d = t → 1 ≤ tally (count_due t) D.
Proof.
  intros E U O T. assert (count_due t d = 1) as <-.
  { unfold count_due. by rewrite U, O, T, Z.eqb_refl. }
  eapply tally_at; [|exact E]. intros q e _. unfold count_due. destruct (_ && _); lia.
Qed.

Lemma cost_owing_nonneg p d ph s v : inv ph s v → data (mem s) !! p = Some d → 0 ≤ cost_owing d ≤ MAX_COST.
Proof.
  intros I E. unfold cost_owing, MAX_COST. destruct (used d) eqn:U; [|cbn; lia]. destruct (owing d) eqn:O; [|cbn; lia].
  cbn. pose proof (used_cost _ (i_used _ _ _ I p d E U) O). unfold MAX_COST in *. lia.
Qed.

Lemma complete_inv ph s v p d :
  inv ph s v → data (mem s) !! p = Some d → used d = true → p ∈ off_wheel ph →
  ∃ s', complete_if_deferred p s = Done s' ∧ inv ph s' v ∧ keeps s s'
    ∧ ne_event_counter s' = ne_event_counter s
    ∧ data (mem s') = <[p := settled d]> (data (mem s)).
Proof.
  intros I Ep U Off. unfold complete_if_deferred, at_ptr. rewrite Ep. cbn [present bind_outcome].
  unfold settled. change (0 <? deferral_count d) with (owing d).
  destruct (owing d) eqn:O.
  2: { exists s. split; [done|]. split; [done|]. split; [by split|]. split; [done|]. by rewrite insert_id. }
  unfold nevent_complete_deferred, at_ptr. rewrite Ep. cbn [present bind_outcome].
  assert (0 < deferral_count d) as Oz by (unfold owing in O; lia).
  destruct (Z.eqb_spec (deferral_count d) 0) as [Z0|_]; [lia|].
  assert (count_owing d = 1) as C1 by (unfold count_owing; by rewrite U, O).
  assert (1 ≤ nevent_catchup_debt s) as Hd.
  { rewrite (i_debt _ _ _ I), <- C1. eapply tally_at; [|exact Ep]. intros q e _. unfold count_owing.
    destruct (_ && _); lia. }
  destruct (Z.leb_spec (nevent_catchup_debt s) 0); [lia|]. cbn [negb].
  pose proof (count_due_pos (due_tick d) p d _ Ep U O eq_refl) as Hc.
  rewrite <- (i_due _ _ _ I) in Hc. unfold due_count in Hc.
  destruct (nevent_deferred_due_counts s !! due_tick d) as [n|] eqn:En; [|cbn in Hc; lia].
  cbn [present bind_outcome]. change (1 ≤ n) in Hc.
  destruct (Z.leb_spec n 0); [lia|]. cbn [negb].
  assert (cost_owing d = deferred_cost_us d) as C2 by (unfold cost_owing; by rewrite U, O).
  assert (deferred_cost_us d ≤ nevent_catchup_debt_estimated_us s) as He.
  { rewrite (i_estimate _ _ _ I), <- C2. eapply tally_at; [|exact Ep]. intros q e Eq.
    by eapply cost_owing_nonneg. }
  destruct (Z.ltb_spec (nevent_catchup_debt_estimated_us s) (deferred_cost_us d)); [lia|]. cbn [negb].
  set (counts := if n - 1 =? 0 then _ else _).
  set (s1 := {s with nevent_deferred_due_counts := counts; nevent_catchup_debt ::= λ n, n - 1;
    nevent_catchup_debt_estimated_us ::= λ n, n - deferred_cost_us d}).
  destruct (put_spec s1 v p (λ d, {d with deferred_cost_us := 0}) d (i_rep _ _ _ I) Ep) as (R1 & D1 & P1).
  set (s2 := put p _ s1) in *. cbn [bind_outcome].
  set (d1 := {d with deferred_cost_us := 0}) in *.
  destruct (put_spec s2 v p (λ d, {d with deferral_count := 0}) d1 R1) as (R2 & D2 & P2).
  { by rewrite D1, lookup_insert_eq. }
  set (s3 := put p _ s2) in *. set (d2 := {d with deferred_cost_us := 0; deferral_count := 0}).
  change {d1 with deferral_count := 0} with d2 in D2. rewrite D1, insert_insert_eq in D2.
  exists s3. split; [done|].
  assert (data (mem s3) = <[p := d2]> (data (mem s))) as D3 by exact D2.
  assert (used d2 = true) as U2 by done.
  assert (owing d2 = false) as O2 by done.
  split; [|split; [by split|split; [done|done]]].
  destruct (i_used _ _ _ I p d Ep U) as [A1 A2 A3 A4 A5 A6 A7 A8].
  eapply (inv_put ph ph s s3 v p d d2 I Ep R2 D3); try done.
  - apply (i_waiting _ _ _ I p d Ep).
  - apply (i_dying _ _ _ I p d Ep).
  - split.
    + change (nevent_catchup_debt s3) with (nevent_catchup_debt s - 1). rewrite C1. unfold count_owing. rewrite O2, U2. cbn. lia.
    + change (nevent_catchup_debt_estimated_us s3) with (nevent_catchup_debt_estimated_us s - deferred_cost_us d).
      rewrite C2. unfold cost_owing. rewrite O2, U2. cbn. lia.
    + intros t. unfold due_count. change (nevent_deferred_due_counts s3) with counts.
      unfold count_due. rewrite U, U2, O, O2. cbn [andb].
      destruct (Z.eqb_spec (due_tick d) t) as [<-|Nt].
      * rewrite En. unfold counts. destruct (Z.eqb_spec (n - 1) 0).
        -- rewrite lookup_delete_eq. cbn. lia.
        -- rewrite lookup_insert_eq. cbn. lia.
      * assert (counts !! t = nevent_deferred_due_counts s !! t) as ->; [|lia].
        unfold counts. destruct (_ =? _); [by rewrite lookup_delete_ne|by rewrite lookup_insert_ne].
    + intros Pos t k. change (nevent_deferred_due_counts s3) with counts. unfold counts.
      destruct (Z.eqb_spec (n - 1) 0); destruct (decide (due_tick d = t)) as [<-|Nt].
      * by rewrite lookup_delete_eq.
      * rewrite lookup_delete_ne by done. apply Pos.
      * rewrite lookup_insert_eq. intros [= <-]. lia.
      * rewrite lookup_insert_ne by done. apply Pos.
Qed.

Lemma release_payload_inv ph s v p d :
  inv ph s v → data (mem s) !! p = Some d → used d = true →
  let d' := match ev_data d with Some _ => {d with ev_data := None; data_destroy := false} | None => d end in
  ∃ s', release_payload p s = Done s' ∧ inv ph s' v
    ∧ same_clock s s' ∧ ne_event_sequence s' = ne_event_sequence s
    ∧ ne_event_counter s' = ne_event_counter s
    ∧ nevent_pending_reschedules s' = nevent_pending_reschedules s
    ∧ nevent_pending_cancellations s' = nevent_pending_cancellations s
    ∧ log s' = match ev_data d with Some x => Destroyed x :: log s | None => log s end
    ∧ data (mem s') = <[p := d']> (data (mem s)).
Proof.
  intros I Ep U. cbv zeta. unfold release_payload, at_ptr. rewrite Ep. cbn [present bind_outcome].
  destruct (i_used _ _ _ I p d Ep U) as [A1 A2 A3 A4 A5 A6 A7 A8].
  destruct (ev_data d) as [x|] eqn:Ex.
  - rewrite (proj2 A3) by eauto. cbn [negb].
    destruct (put_spec (tell (Destroyed x) s) v p (λ d, {d with ev_data := None; data_destroy := false}) d
      (i_rep _ _ _ I) Ep) as (R1 & D1 & P1).
    set (s1 := put p _ _) in *. exists s1. split; [done|].
    split; [|by repeat split].
    eapply (inv_put ph ph s s1 v p d _ I Ep R1 D1 P1); try done.
    + split; try done. split; [done|]. by intros [? ?].
    + apply (i_waiting _ _ _ I p d Ep).
    + apply (i_dying _ _ _ I p d Ep).
    + by apply debt_stays.
  - exists s. split; [done|]. split; [done|]. split; [by split|]. repeat split. by rewrite insert_id.
Qed.

Definition put_back (p : ptr) (ph : phase) : phase :=
  Phase (floor_tick ph) (filter (λ h, event h ≠ Some p) (waiting ph)) (filter (λ q, q ≠ p) (off_wheel ph))
    (filter (λ q, q ≠ p) (dying ph)).

Definition retired (d : event_data) : event_data := {d with func := None; lifecycle_state := released}.

(** The last steps of the destruction of an event that is off the wheel and has nothing left. *)
Lemma retire_inv ph s v p d :
  inv ph s v → data (mem s) !! p = Some d → used d = true → p ∈ off_wheel ph →
  ev_ch d = None → ev_obj d = None → ev_data d = None → owing d = false →
  ∃ s', (ensure! 0 <? ne_event_counter s in
     let s := {s with ne_event_counter ::= λ n, n - 1} in
     let s := put p (λ d, {d with func := None; lifecycle_state := released}) s in
     let s := with_mem (mm_release p (mem s)) s in
     nevent_assert_pool_accounting s) = Done s'
    ∧ inv (put_back p ph) s' {v with free := free v ++ [p] }
    ∧ keeps s s' ∧ ne_event_counter s' = ne_event_counter s - 1
    ∧ data (mem s') = <[p := retired d]> (data (mem s)).
Proof.
  intros I Ep U Off Ec Eo Ed O.
  assert (1 ≤ ne_event_counter s) as Hc.
  { rewrite (i_counter _ _ _ I). assert (count_used d = 1) as <- by (unfold count_used; by rewrite U).
    eapply tally_at; [|exact Ep]. intros q e _. unfold count_used. destruct (used e); lia. }
  destruct (Z.ltb_spec 0 (ne_event_counter s)); [|lia]. cbn [negb]. cbv zeta.
  set (s1 := {s with ne_event_counter ::= λ n, n - 1}).
  destruct (put_spec s1 v p (λ d, {d with func := None; lifecycle_state := released}) d (i_rep _ _ _ I) Ep) as (R1 & D1 & P1).
  set (s2 := put p _ s1) in *.
  assert (p ∉ free v) as Nf by (rewrite (i_free _ _ _ I p d Ep), U; done).
  assert (∀ w k, p ∉ lists v w k) as Nl.
  { intros w k B. destruct (decide (w = Sched)) as [->|Nw].
    - by apply (i_wheel _ _ _ I) in B as [B _].
    - apply (i_owners _ _ _ I) in B as (e & E & K); [|done]. rewrite Ep in E. injection E as <-.
      destruct w; [done|..]; cbn in K; congruence. }
  assert (is_Some (events (mem s2) !! p)) as V.
  { assert (is_Some (data (mem s2) !! p)) as V by (rewrite D1, lookup_insert_eq; eauto).
    unfold data in V. by rewrite lookup_fmap, fmap_is_Some in V. }
  destruct (mm_release_spec (mem s2) v p R1 Nf Nl V) as (R & D & Ob).
  set (s3 := with_mem (mm_release p (mem s2)) s2).
  assert (objs_used (ne_dead_event_pool (mem s3)) = ne_event_counter s - 1) as Ob'.
  { change (objs_used (ne_dead_event_pool (mm_release p (mem s2))) = ne_event_counter s - 1).
    rewrite Ob, P1. change (objs_used (ne_dead_event_pool (mem s1))) with (objs_used (ne_dead_event_pool (mem s))).
    rewrite (i_objs _ _ _ I). unfold wrap. apply Z.mod_small.
    pose proof (tally_bounds count_used (data (mem s)) 1) as B. rewrite <- (i_counter _ _ _ I) in B.
    pose proof (i_size _ _ _ I) as S. unfold MAX_EVENTS in S.
    destruct B as [_ B]; [|lia]. intros q e _. unfold count_used. destruct (used e); lia. }
  assert (ne_event_counter s3 = ne_event_counter s - 1) as Co by done.
  assert (data (mem s3) = <[p := retired d]> (data (mem s))) as D3.
  { change (data (mm_release p (mem s2)) = <[p := retired d]> (data (mem s))). rewrite D. exact D1. }
  exists s3. split.
  { unfold nevent_assert_pool_accounting. rewrite Ob', Co. destruct (Z.leb_spec 0 (ne_event_counter s - 1)); [|lia].
    assert (wrap 64 (ne_event_counter s - 1) = ne_event_counter s - 1) as ->; [|by rewrite Z.eqb_refl].
    rewrite <- Ob'. rewrite Ob' at 1. rewrite <- Ob'.
    change (objs_used (ne_dead_event_pool (mem s3))) with (objs_used (ne_dead_event_pool (mm_release p (mem s2)))).
    rewrite Ob. unfold wrap. by rewrite Z.mod_mod by lia. }
  split; [|by repeat split].
  set (v' := {v with free := free v ++ [p] }) in *.
  assert (used (retired d) = false) as U' by done.
  eapply (inv_change ph _ s s3 v v' p d (retired d) I Ep). split; try done.
  - intros w k Nw. change (lists v' w k) with (lists v w k). split; [by intros B; apply Nl in B|].
    destruct w; intros K; [done|change (ev_ch d = Some k) in K; congruence|change (ev_obj d = Some k) in K; congruence].
  - intros k. split; [by intros B; apply Nl in B|]. intros [_ K]. unfold key in K. by rewrite U' in K.
  - intros q N. change (free v') with (free v ++ [p]). rewrite elem_of_app, list_elem_of_singleton. naive_solver.
  - change (free v') with (free v ++ [p]). split; [done|]. intros _. apply elem_of_app. right. by left.
  - intros k. eapply due_le_update; [|exact Ep|apply I]. intros B. by apply Nl in B.
  - intros q N. cbn. rewrite list_elem_of_filter. naive_solver.
  - cbn. rewrite list_elem_of_filter. naive_solver.
  - intros h Ih N. cbn. by apply list_elem_of_filter.
  - intros q Iq N. cbn. by apply list_elem_of_filter.
  - split; try done. change (deferral_count d = 0).
    pose proof (used_count _ (i_used _ _ _ I p d Ep U)). unfold owing in O. lia.
  - split; [done|apply I].
  - by apply (i_sequences _ _ _ I p d).
  - rewrite Co. unfold count_used. rewrite U, U'. lia.
  - apply debt_stays; [by split|..]; unfold count_owing, cost_owing, count_due; rewrite U', O, ?andb_false_r; try done.
Qed.

Lemma inv_weaken ph ph' s v :
  inv ph s v → floor_tick ph' = floor_tick ph → (∀ p, p ∈ off_wheel ph' ↔ p ∈ off_wheel ph) →
  waiting ph ⊆ waiting ph' → dying ph ⊆ dying ph' → inv ph' s v.
Proof.
  intros I F O W Dy. destruct I. split; try done.
  - intros k p. rewrite O. apply i_wheel0.
  - intros p d E U. rewrite F, O. by apply i_placed0.
  - intros p. rewrite O. apply i_off0.
  - intros p d E L. by eapply Dy, i_dying0.
  - intros p d E L. by eapply W, i_waiting0.
Qed.

(** An event is gone: what its destruction leaves. *)
Record ended (s s' : scheduler) (v v' : view) (p : ptr) (d : event_data) : Prop := {
  end_clock : same_clock s s';
  end_sequence : ne_event_sequence s' = ne_event_sequence s;
  end_counter : ne_event_counter s' = ne_event_counter s - 1;
  end_log : log s' = match ev_data d with Some x => Destroyed x :: log s | None => log s end;
  end_moves : nevent_pending_reschedules s' = delete p (nevent_pending_reschedules s);
  end_cancels : nevent_pending_cancellations s' = nevent_pending_cancellations s;
  end_data : ∃ d', data (mem s') = <[p := d']> (data (mem s)) ∧ lifecycle_state d' = released
    ∧ sequence d' = sequence d ∧ ev_data d' = None;
  end_owners w k : w ≠ Sched → lists v' w k = without p (lists v w k);
  end_buckets k : buckets v' k = if decide (k = element d) then without p (buckets v k) else buckets v k;
}.

Lemma is_live_used d : is_live (lifecycle_state d) = true → used d = true.
Proof. unfold used. by destruct (lifecycle_state d). Qed.

Lemma destroy_inv ph s v p d :
  inv ph s v → data (mem s) !! p = Some d → is_live (lifecycle_state d) = true → p ∉ off_wheel ph →
  dying ph = [] →
  ∃ s' v', nevent_destroy p s = Done s'
    ∧ inv (Phase (floor_tick ph) (filter (λ h, event h ≠ Some p) (waiting ph)) (off_wheel ph) []) s' v'
    ∧ ended s s' v v' p d.
Proof.
  intros I Ep Lv N Dy. pose proof (is_live_used d Lv) as U. unfold nevent_destroy, at_ptr.
  rewrite Ep. cbn [present bind_outcome]. rewrite Lv. cbn [negb].
  set (d1 := {d with lifecycle_state := destroying}).
  set (s1 := {put p (λ d, {d with lifecycle_state := destroying}) s with
    nevent_pending_reschedules ::= delete p}).
  destruct (put_spec s v p (λ d, {d with lifecycle_state := destroying}) d (i_rep _ _ _ I) Ep) as (R1 & D1 & P1).
  change {d with lifecycle_state := destroying} with d1 in D1.
  set (ph1 := Phase (floor_tick ph) (waiting ph) (off_wheel ph) [p]).
  assert (inv ph1 s1 v) as I1.
  { destruct (i_used _ _ _ I p d Ep U) as [A1 A2 A3 A4 A5 A6 A7 A8].
    eapply (inv_put ph ph1 s s1 v p d d1 I Ep R1 D1 P1); try done.
    - by intros [].
    - intros q Iq. rewrite Dy in Iq. by apply not_elem_of_nil in Iq.
    - intros _. by left.
    - apply debt_stays; [by split|..]; unfold count_owing, cost_owing, count_due; by rewrite U.
    - split; [apply delete_subseteq|done]. }
  assert (data (mem s1) !! p = Some d1) as E1 by (change (data (mem s1)) with (data (mem (put p (λ d, {d with lifecycle_state := destroying}) s))); by rewrite D1, lookup_insert_eq).
  destruct (detach_owners_inv ph1 s1 v p d1 I1 E1) as (m2 & v2 & O2 & I2 & D2 & B2 & L2); [done|].
  cbv zeta. fold s1. rewrite O2. cbn [bind_outcome].
  assert (data (mem (with_mem m2 s1)) !! p = Some (detached d1)) as E2
    by (change (data m2 !! p = Some (detached d1)); by rewrite D2, lookup_insert_eq).
  destruct (unlink_inv ph1 _ v2 p _ I2 E2) as (m3 & O3 & I3 & D3); [done|done|].
  rewrite O3. cbn [bind_outcome]. set (v3 := set_list _ _ _ v2) in I3.
  change (with_mem m3 (with_mem m2 s1)) with (with_mem m3 s1) in *.
  assert (data (mem (with_mem m3 s1)) !! p = Some (detached d1)) as E3
    by (change (data m3 !! p = Some (detached d1)); by rewrite D3).
  destruct (release_payload_inv _ _ v3 p _ I3 E3) as (s4 & O4 & I4 & C4 & Q4 & N4 & M4 & K4 & L4 & D4); [done|].
  rewrite O4. cbn [bind_outcome]. change (ev_data (detached d1)) with (ev_data d) in *.
  set (d4 := match ev_data d with Some _ => _ | None => _ end) in D4.
  assert (used d4 = true) as U4 by (unfold d4; by destruct (ev_data d)).
  assert (data (mem s4) !! p = Some d4) as E4 by by rewrite D4, lookup_insert_eq.
  destruct (complete_inv _ _ v3 p _ I4 E4 U4) as (s5 & O5 & I5 & Kp5 & N5 & D5); [by left|].
  rewrite O5. cbn [bind_outcome].
  assert (used (settled d4) = true) as U5 by (unfold settled; by destruct (owing d4)).
  assert (ev_data (settled d4) = None) as X5.
  { assert (ev_data d4 = None) by (unfold d4; by destruct (ev_data d) eqn:?). unfold settled. by destruct (owing d4). }
  assert (data (mem s5) !! p = Some (settled d4)) as E5 by by rewrite D5, lookup_insert_eq.
  destruct (retire_inv _ _ v3 p _ I5 E5 U5) as (s6 & O6 & I6 & Kp6 & N6 & D6); try done.
  { by left. }
  { unfold settled, d4. by destruct (ev_data d), (owing _). }
  { unfold settled, d4. by destruct (ev_data d), (owing _). }
  { unfold settled. destruct (owing d4) eqn:O; [done|exact O]. }
  exists s6, {v3 with free := free v3 ++ [p] }. split; [exact O6|]. split; [|].
  - eapply inv_weaken; [exact I6|done|..].
    + intros q. cbn [put_back take_off off_wheel]. rewrite list_elem_of_filter. cbn. rewrite elem_of_cons. naive_solver.
    + done.
    + intros q Iq. apply list_elem_of_filter in Iq as [Nq Iq]. by apply list_elem_of_singleton in Iq.
  - destruct Kp5 as [C5 Q5 L5 M5 X5'], Kp6 as [C6 Q6 L6 M6 X6]. split.
    + transitivity s5; [|done]. transitivity s4; [|done]. transitivity (with_mem m3 s1); [by split|done].
    + by rewrite Q6, Q5, Q4.
    + rewrite N6, N5, N4. done.
    + by rewrite L6, L5, L4.
    + by rewrite M6, M5, M4.
    + by rewrite X6, X5', K4.
    + exists (retired (settled d4)). split.
      * rewrite D6, D5, D4. change (mem (with_mem m3 s1)) with m3. rewrite D3.
        change (mem (with_mem m2 s1)) with m2. rewrite D2.
        change (data (mem s1)) with (data (mem (put p (λ d, {d with lifecycle_state := destroying}) s))).
        by rewrite D1, !insert_insert_eq.
      * split; [done|]. split; [|done]. unfold settled, d4. by destruct (ev_data d), (owing _).
    + intros w k Nw. change (lists v3 w k = without p (lists v w k)). unfold v3.
      rewrite lists_set, decide_False by naive_solver. by apply L2.
    + intros k. change (lists v3 Sched k = if decide (k = element d) then without p (buckets v k) else buckets v k).
      unfold v3. rewrite lists_set, B2. change (element (detached d1)) with (element d).
      change (lists v2 Sched k) with (buckets v2 k). rewrite B2.
      destruct (decide (k = element d)) as [->|Nk]; [by rewrite decide_True|].
      rewrite decide_False; [done|naive_solver].
Qed.

(** ** The history *)

Definition ran (n : note) : option Z := match n with Ran q _ _ => Some q | _ => None end.
Definition was_handed (z : Z) (l : list note) : Z :=
  Z.of_nat (length (filter (λ n, n = Handed z) l)).
Definition was_destroyed (z : Z) (l : list note) : Z :=
  Z.of_nat (length (filter (λ n, n = Destroyed (Owned z)) l)).
Definition holds_payload (z : Z) (d : event_data) : Z :=
  if bool_decide (ev_data d = Some (Owned z)) then 1 else 0.

(** An entry of the log given those before it, the newest first: an event is run once, not
    before it is due, not once cancelled, and of the events run at a tick those due first come
    first. *)
Fixpoint chronicle (l : list note) : Prop :=
  match l with
  | [] => True
  | n :: l =>
      match n with
      | Ran q due tick =>
          due ≤ tick ∧ Cancelled q ∉ l ∧ (∀ due' tick', Ran q due' tick' ∉ l)
          ∧ ∀ q' due' tick', Ran q' due' tick' ∈ l → tick' ≤ tick ∧ (tick' = tick → due' ≤ due)
      | _ => True
      end ∧ chronicle l
  end.

(** [running] is the event whose callback runs. *)
Record hist (running : option ptr) (s : scheduler) : Prop := {
  h_chronicle : chronicle (log s);
  h_ran q due tick : Ran q due tick ∈ log s → 1 ≤ q ≤ ne_event_sequence s ∧ tick < next_tick s;
  h_active p d : data (mem s) !! p = Some d → lifecycle_state d = active →
    Cancelled (sequence d) ∉ log s
    ∧ (∀ due tick, Ran (sequence d) due tick ∈ log s → running = Some p);
  h_cancelled q : Cancelled q ∈ log s → 1 ≤ q ≤ ne_event_sequence s;
  h_kept q : 1 ≤ q ≤ ne_event_sequence s →
    (∃ p d, data (mem s) !! p = Some d ∧ lifecycle_state d = active ∧ sequence d = q)
    ∨ (∃ due tick, Ran q due tick ∈ log s) ∨ Cancelled q ∈ log s;
  h_payloads z : was_handed z (log s) = was_destroyed z (log s) + tally (holds_payload z) (data (mem s));
}.

Lemma was_handed_cons z n l :
  was_handed z (n :: l) = (if bool_decide (n = Handed z) then 1 else 0) + was_handed z l.
Proof.
  unfold was_handed. rewrite filter_cons. destruct (decide (n = Handed z)).
  - rewrite bool_decide_true by done. cbn [length]. lia.
  - rewrite bool_decide_false by done. lia.
Qed.
Lemma was_destroyed_cons z n l :
  was_destroyed z (n :: l) = (if bool_decide (n = Destroyed (Owned z)) then 1 else 0) + was_destroyed z l.
Proof.
  unfold was_destroyed. rewrite filter_cons. destruct (decide (n = Destroyed (Owned z))).
  - rewrite bool_decide_true by done. cbn [length]. lia.
  - rewrite bool_decide_false by done. lia.
Qed.

(** A change of the data of an event that keeps its life, sequence and payload. *)
Lemma hist_move r s s' p d d' :
  hist r s → data (mem s) !! p = Some d → data (mem s') = <[p := d']> (data (mem s)) →
  (lifecycle_state d' = active ↔ lifecycle_state d = active) → sequence d' = sequence d → ev_data d' = ev_data d →
  log s' = log s → ne_event_sequence s' = ne_event_sequence s → next_tick s' = next_tick s →
  hist r s'.
Proof.
  intros [C R A Ca K P] Ep D L S X Lg Sq T. split; rewrite ?Lg, ?Sq, ?T; try done.
  - intros q e E Ac. rewrite D in E. destruct (decide (p = q)) as [<-|N].
    + rewrite lookup_insert_eq in E. injection E as <-. rewrite S. apply A; [done|by apply L].
    + rewrite lookup_insert_ne in E by done. by apply A.
  - intros q B. destruct (K q B) as [(p' & e & E & Ac & Sq')|K']; [left|by right].
    rewrite D. destruct (decide (p = p')) as [<-|N].
    + exists p, d'. rewrite lookup_insert_eq. split; [done|]. rewrite Ep in E. injection E as <-.
      split; [by apply L|congruence].
    + exists p', e. by rewrite lookup_insert_ne.
  - intros z. rewrite D, (tally_update _ _ _ _ _ Ep), P. unfold holds_payload. rewrite X. lia.
Qed.

(** Events nobody uses appear. *)
Lemma hist_same r s s' :
  hist r s → log s' = log s → ne_event_sequence s' = ne_event_sequence s → next_tick s' = next_tick s →
  data (mem s') = data (mem s) → hist r s'.
Proof. intros [C R A Ca K P] L S T D. split; rewrite ?L, ?S, ?T, ?D; done. Qed.

Lemma hist_cancel r s s' p d d' :
  hist r s → data (mem s) !! p = Some d → 1 ≤ sequence d ≤ ne_event_sequence s →
  (∀ q e, data (mem s) !! q = Some e → lifecycle_state e = active → sequence e = sequence d → q = p) →
  lifecycle_state d = active → lifecycle_state d' ≠ active →
  data (mem s') = <[p := d']> (data (mem s)) → sequence d' = sequence d → ev_data d' = ev_data d →
  log s' = Cancelled (sequence d) :: log s → ne_event_sequence s' = ne_event_sequence s →
  next_tick s' = next_tick s → hist r s'.
Proof.
  intros [C R A Ca K P] Ep B Un Ac Na D S X Lg Sq T. split; rewrite ?Lg, ?Sq, ?T; try done.
  - intros q due tick I. apply elem_of_cons in I as [I|I]; [done|by apply (R _ due)].
  - intros q e E Ac'. rewrite D in E. destruct (decide (p = q)) as [<-|N].
    + rewrite lookup_insert_eq in E. injection E as <-. done.
    + rewrite lookup_insert_ne in E by done. destruct (A q e E Ac') as [A1 A2]. split.
      * intros I. apply elem_of_cons in I as [I|I]; [|done]. injection I as I. apply N. symmetry. by eapply Un.
      * intros due tick I. apply elem_of_cons in I as [I|I]; [done|by eapply A2].
  - intros q I. apply elem_of_cons in I as [I|I]; [|by apply Ca]. injection I as ->. done.
  - intros q Bq. destruct (K q Bq) as [(p' & e & E & Ac' & Sq')|[(due & tick & K')|K']].
    + destruct (decide (p = p')) as [<-|N].
      * right. right. rewrite Ep in E. injection E as <-. rewrite Sq'. by left.
      * left. exists p', e. by rewrite D, lookup_insert_ne.
    + right. left. exists due, tick. by right.
    + right. right. by right.
  - intros z. rewrite was_handed_cons, was_destroyed_cons, D, (tally_update _ _ _ _ _ Ep), P.
    rewrite !bool_decide_false by done. unfold holds_payload. rewrite X. lia.
Qed.

Lemma hist_end r s s' v v' p d :
  hist r s → data (mem s) !! p = Some d →
  (lifecycle_state d = active → ∃ due tick, Ran (sequence d) due tick ∈ log s) →
  ended s s' v v' p d → hist r s'.
Proof.
  intros [C R A Ca K P] Ep Rn [Cl Sq Co Lg Mo Can (d' & D & L & S & X) Ow Bu].
  pose proof (next_tick_clock _ _ Cl) as T.
  assert (∀ n, (∀ x, n ≠ Destroyed x) → n ∈ log s' ↔ n ∈ log s) as In.
  { intros n N. rewrite Lg. destruct (ev_data d); [|done]. rewrite elem_of_cons. naive_solver. }
  split; rewrite ?Sq, ?T.
  - rewrite Lg. by destruct (ev_data d).
  - intros q due tick. rewrite In by done. apply R.
  - intros q e E Ac. rewrite D in E. destruct (decide (p = q)) as [<-|N].
    + rewrite lookup_insert_eq in E. injection E as <-. congruence.
    + rewrite lookup_insert_ne in E by done. destruct (A q e E Ac) as [A1 A2].
      rewrite In by done. split; [done|]. intros due tick. rewrite In by done. apply A2.
  - intros q. rewrite In by done. apply Ca.
  - intros q Bq. destruct (K q Bq) as [(p' & e & E & Ac' & Sq')|[(due & tick & K')|K']].
    + destruct (decide (p = p')) as [<-|N].
      * rewrite Ep in E. injection E as <-. destruct (Rn Ac') as (due & tick & I).
        right. left. exists due, tick. rewrite In by done. by rewrite <- Sq'.
      * left. exists p', e. by rewrite D, lookup_insert_ne.
    + right. left. exists due, tick. by rewrite In.
    + right. right. by rewrite In.
  - intros z. rewrite D, (tally_update _ _ _ _ _ Ep). unfold holds_payload at 2 3. rewrite X.
    rewrite (bool_decide_false (None = _)) by done. rewrite Lg. destruct (ev_data d) as [x|].
    + rewrite was_handed_cons, was_destroyed_cons, P, bool_decide_false by done.
      destruct (decide (x = Owned z)) as [->|N].
      * rewrite !bool_decide_true by done. lia.
      * rewrite !bool_decide_false by congruence. lia.
    + rewrite P, bool_decide_false by done. lia.
Qed.

(** ** What an operation does *)

(** Between the operations. *)
Definition phase_of (s : scheduler) : phase :=
  Phase (match current_nevent s with Some _ => ne_event_tick s | None => next_tick s end)
    (nevent_pending_cancellations s) [] [].

Record good (s : scheduler) (v : view) : Prop := {
  g_inv : inv (phase_of s) s v;
  g_calm : current_nevent s = None →
    nevent_pending_cancellations s = [] ∧ nevent_pending_reschedules s = ∅;
  g_after : current_nevent s ≠ None → after_events_call s = true;
}.

(** An event that at most has been cancelled. *)
Definition same_event (d d' : event_data) : Prop :=
  used d' = true ∧ sequence d' = sequence d ∧ due_tick d' = due_tick d ∧ element d' = element d
  ∧ deferral_count d' = deferral_count d
  ∧ (lifecycle_state d' = lifecycle_state d ∧ func d' = func d
     ∨ lifecycle_state d = active ∧ lifecycle_state d' = cancel_pending).

(** What a request made while a pass runs leaves alone; [n] is how much work it adds to the
    pass. *)
Record stable (n : nat) (s : scheduler) (v : view) (s' : scheduler) (v' : view) : Prop := {
  st_events p d : data (mem s) !! p = Some d → used d = true →
    ∃ d', data (mem s') !! p = Some d' ∧ same_event d d';
  st_new p d' : data (mem s') !! p = Some d' → used d' = true →
    (∃ d, data (mem s) !! p = Some d ∧ used d = true)
    ∨ next_tick s ≤ due_tick d' ∧ ne_event_sequence s < sequence d';
  st_buckets k : sublist (buckets v k) (buckets v' k);
  st_work k : (length (buckets v' k) + size (nevent_pending_reschedules s')
    ≤ length (buckets v k) + size (nevent_pending_reschedules s) + n)%nat;
}.

Lemma same_event_refl d : used d = true → same_event d d.
Proof. intros U. repeat split; auto. Qed.

Lemma stable_update n s v s' v' p d d' :
  data (mem s) !! p = Some d → data (mem s') = <[p := d']> (data (mem s)) →
  (used d = true → same_event d d') → (used d' = true → used d = true) → buckets v' = buckets v →
  (size (nevent_pending_reschedules s') ≤ size (nevent_pending_reschedules s) + n)%nat →
  stable n s v s' v'.
Proof.
  intros Ep D Sm Us B Sz. split.
  - intros q e E U. rewrite D. destruct (decide (p = q)) as [<-|N].
    + rewrite lookup_insert_eq. exists d'. split; [done|]. rewrite Ep in E. injection E as <-. by apply Sm.
    + rewrite lookup_insert_ne by done. exists e. split; [done|by apply same_event_refl].
  - intros q e E U. left. rewrite D in E. destruct (decide (p = q)) as [<-|N].
    + rewrite lookup_insert_eq in E. injection E as <-. eauto.
    + rewrite lookup_insert_ne in E by done. eauto.
  - intros k. by rewrite B.
  - intros k. rewrite B. lia.
Qed.

Lemma stable_refl n s v s' v' :
  data (mem s') = data (mem s) → buckets v' = buckets v →
  (size (nevent_pending_reschedules s') ≤ size (nevent_pending_reschedules s) + n)%nat → stable n s v s' v'.
Proof.
  intros D B Sz. split.
  - intros p d E U. exists d. rewrite D. split; [done|by apply same_event_refl].
  - intros p d E U. left. exists d. by rewrite <- D.
  - intros k. by rewrite B.
  - intros k. rewrite B. lia.
Qed.

(** What a request ends in. *)
Record asked_at (n : nat) (r : option ptr) (s : scheduler) (v : view) (s' : scheduler) (v' : view) : Prop := {
  ask_good : good s' v';
  ask_hist : hist r s';
  ask_clock : same_clock s s';
  ask_sequence : ne_event_sequence s ≤ ne_event_sequence s';
  ask_ran q due tick : Ran q due tick ∈ log s' ↔ Ran q due tick ∈ log s;
  ask_stable : current_nevent s ≠ None → stable n s v s' v';
}.
Definition asked (n : nat) (r : option ptr) (s : scheduler) (v : view) (s' : scheduler) : Prop :=
  ∃ v', asked_at n r s v s' v'.

Lemma asked_refl n r s v : good s v → hist r s → asked n r s v s.
Proof.
  intros G H. exists v. split; try done. intros _. apply stable_refl; [done|done|lia].
Qed.

Lemma same_event_trans d1 d2 d3 : same_event d1 d2 → same_event d2 d3 → same_event d1 d3.
Proof.
  intros (U1 & S1 & T1 & E1 & C1 & L1) (U2 & S2 & T2 & E2 & C2 & L2).
  split; [done|]. split; [congruence|]. split; [congruence|]. split; [congruence|]. split; [congruence|].
  destruct L1 as [[L1 F1]|[A1 B1]], L2 as [[L2 F2]|[A2 B2]].
  - left. split; congruence.
  - right. split; congruence.
  - right. split; congruence.
  - congruence.
Qed.

Lemma stable_trans n n' s v s1 v1 s2 v2 :
  stable n s v s1 v1 → stable n' s1 v1 s2 v2 → same_clock s s1 → ne_event_sequence s ≤ ne_event_sequence s1 →
  stable (n + n') s v s2 v2.
Proof.
  intros [E1 N1 B1 W1] [E2 N2 B2 W2] C Sq.
  assert (next_tick s1 = next_tick s) as Nt.
  { unfold next_tick. by rewrite (clock_tick _ _ C), (clock_after _ _ C). }
  split.
  - intros p d E U. destruct (E1 p d E U) as (d1 & F1 & S1).
    destruct (E2 p d1 F1 (proj1 S1)) as (d2 & F2 & S2). exists d2. split; [done|]. by eapply same_event_trans.
  - intros p d E U. destruct (N2 p d E U) as [(d1 & F1 & U1)|[A B]].
    + destruct (E2 p d1 F1 U1) as (d' & F' & S'). rewrite E in F'. injection F' as <-.
      destruct (N1 p d1 F1 U1) as [L|[A B]]; [by left|]. right.
      destruct S' as (_ & -> & -> & _). done.
    + right. rewrite Nt in A. lia.
  - intros k. etransitivity; [apply B1|apply B2].
  - intros k. pose proof (W1 k). pose proof (W2 k). lia.
Qed.

Lemma asked_mono n n' r s v s' : (n ≤ n')%nat → asked n r s v s' → asked n' r s v s'.
Proof.
  intros Le (v' & [G H C Sq Ra St]). exists v'. split; try done.
  intros Nc. destruct (St Nc) as [E N B W]. split; try done. intros k. specialize (W k). lia.
Qed.

(** One request after another. *)
Lemma asked_bind n n' r s v s1 v1 s2 :
  asked_at n r s v s1 v1 → asked n' r s1 v1 s2 → asked (n + n') r s v s2.
Proof.
  intros [G H C Sq Ra St] (v2 & [G2 H2 C2 Sq2 Ra2 St2]).
  exists v2. split; [done|done|by etransitivity|lia|intros q due tick; by rewrite Ra2|].
  intros Nc. eapply stable_trans; [by apply St| |done|done]. apply St2. by rewrite (clock_current _ _ C).
Qed.

(** An event is marked as cancelled. *)
Definition marked (d : event_data) : event_data := {d with lifecycle_state := cancel_pending; func := None}.
Definition mark (p : ptr) (d : event_data) (s : scheduler) : scheduler :=
  let s := put p (λ d, {d with lifecycle_state := cancel_pending; func := None}) s in
  let s := {s with nevent_pending_reschedules ::= delete p} in
  tell (Cancelled (sequence d)) s.

Lemma mark_event_inv ph r s v p d :
  inv ph s v → hist r s → data (mem s) !! p = Some d → lifecycle_state d = active →
  let s' := mark p d s in
  inv (Phase (floor_tick ph) (waiting ph ++ [Handle (Some p) (sequence d)]) (off_wheel ph) (dying ph)) s' v
  ∧ hist r s' ∧ same_clock s s' ∧ ne_event_sequence s' = ne_event_sequence s
  ∧ data (mem s') = <[p := marked d]> (data (mem s))
  ∧ nevent_pending_cancellations s' = nevent_pending_cancellations s
  ∧ nevent_pending_reschedules s' = delete p (nevent_pending_reschedules s).
Proof.
  intros I H Ep Ac s'. assert (used d = true) as U by (unfold used; by rewrite Ac).
  destruct (put_spec s v p (λ d, {d with lifecycle_state := cancel_pending; func := None}) d (i_rep _ _ _ I) Ep)
    as (R1 & D1 & P1).
  assert (data (mem s') = <[p := marked d]> (data (mem s))) as D by exact D1.
  destruct (i_used _ _ _ I p d Ep U) as [A1 A2 A3 A4 A5 A6 A7 A8].
  split; [|split; [|by repeat split]].
  - eapply (inv_put ph _ s s' v p d (marked d) I Ep R1 D P1); try done.
    + by intros [].
    + intros h Ih _. cbn. apply elem_of_app. by left.
    + intros _. cbn. apply elem_of_app. right. by left.
    + apply debt_stays; [by split|..]; unfold count_owing, cost_owing, count_due; by rewrite U.
    + split; [apply delete_subseteq|done].
  - eapply (hist_cancel r s s' p d (marked d) H Ep); try done.
    + pose proof (i_sequences _ _ _ I p d Ep). lia.
    + intros q e E Ae Se. eapply (i_distinct _ _ _ I); try done. unfold used. by rewrite Ae.
Qed.

Lemma event_used_lookup d : lifecycle_state d = active → used d = true.
Proof. intros A. unfold used. by rewrite A. Qed.

(** The cancellation of one event, given by its handle. *)
Lemma cancel_event r s v p d :
  good s v → hist r s → (current_nevent s = None → r = None) →
  data (mem s) !! p = Some d → lifecycle_state d = active →
  ∃ c s' v', nevent_cancel (Handle (Some p) (sequence d)) s = Done (c, s')
    ∧ c = match current_nevent s with Some _ => deferred | None => canceled end
    ∧ asked_at 0 r s v s' v'
    ∧ (∀ w k, w ≠ Sched → lists v' w k = without p (lists v w k)).
Proof.
  intros G H Rn Ep Ac. pose proof (g_inv _ _ G) as I. pose proof (event_used_lookup d Ac) as U.
  pose proof (used_sequence _ (i_used _ _ _ I p d Ep U)) as Sq.
  unfold nevent_cancel, at_handle. cbn [event h_sequence]. rewrite Ep.
  destruct (Z.eqb_spec (sequence d) 0); [lia|]. cbn [bind_outcome]. rewrite Z.eqb_refl. cbn [negb]. rewrite Ac.
  destruct (mark_event_inv _ r s v p d I H Ep Ac) as (I1 & H1 & C1 & Q1 & D1 & X1 & M1).
  cbv zeta. change (tell (Cancelled (sequence d)) _) with (mark p d s).
  set (s1 := mark p d s) in *. rewrite (clock_current _ _ C1).
  assert (data (mem s1) !! p = Some (marked d)) as E1 by by rewrite D1, lookup_insert_eq.
  destruct (current_nevent s) as [c|] eqn:Ec.
  - destruct (detach_owners_inv _ s1 v p _ I1 E1) as (m2 & v2 & O2 & I2 & D2 & B2 & L2); [done|].
    rewrite O2. cbn [bind_outcome]. set (s2 := {with_mem m2 s1 with nevent_pending_cancellations := _}).
    exists deferred, s2, v2. split; [done|]. split; [done|].
    assert (data (mem s2) = <[p := detached (marked d)]> (data (mem s))) as D.
    { change (data m2 = <[p := detached (marked d)]> (data (mem s))). by rewrite D2, D1, insert_insert_eq. }
    split; [|done]. split.
    + split.
      * assert (nevent_pending_cancellations s2
          = nevent_pending_cancellations s ++ [Handle (Some p) (sequence d)]) as X2 by (by rewrite <- X1).
        assert (phase_of s2 = Phase (floor_tick (phase_of s)) (waiting (phase_of s) ++ [Handle (Some p) (sequence d)]) [] []) as ->.
        { unfold phase_of. change (current_nevent s2) with (current_nevent s1). rewrite (clock_current _ _ C1), Ec.
          rewrite X2. cbn. by f_equal. }
        destruct I2. split; try done.
        intros h Ih. rewrite X2 in Ih. apply elem_of_app in Ih as [Ih|Ih].
        -- apply i_cancels0. change (h ∈ nevent_pending_cancellations s1). by rewrite X1.
        -- apply list_elem_of_singleton in Ih as ->. exists p. split; [done|]. rewrite D, lookup_insert_eq. eauto.
      * change (current_nevent s2) with (current_nevent s1). rewrite (clock_current _ _ C1), Ec. done.
      * change (after_events_call s2) with (after_events_call s1). rewrite (clock_after _ _ C1). intros _.
        apply (g_after _ _ G). congruence.
    + eapply (hist_move r s1 s2 p (marked d) (detached (marked d))); try done.
    + transitivity s1; [done|by split].
    + change (ne_event_sequence s2) with (ne_event_sequence s1). lia.
    + intros q due tick. change (log s2) with (Cancelled (sequence d) :: log s). rewrite elem_of_cons. naive_solver.
    + intros _. eapply stable_update; [exact Ep|exact D|..].
      * intros _. repeat split; auto.
      * done.
      * done.
      * change (nevent_pending_reschedules s2) with (nevent_pending_reschedules s1). rewrite M1.
        pose proof (map_subseteq_size _ _ (delete_subseteq (nevent_pending_reschedules s) p)). lia.
  - destruct (destroy_inv _ s1 v p _ I1 E1) as (s2 & v2 & O2 & I2 & End2); try done.
    { by apply not_elem_of_nil. }
    rewrite O2. cbn [bind_outcome]. exists canceled, s2, v2. split; [done|]. split; [done|]. split; [|apply (end_owners _ _ _ _ _ _ End2)].
    destruct (g_calm _ _ G Ec) as [Xc Xr]. pose proof End2 as [Cl Sq2 Co Lg Mo Can Da Ow Bu].
    split; [| | | | |done].
    + split.
      * assert (phase_of s2 = phase_of s) as ->.
        { unfold phase_of. rewrite (clock_current _ _ Cl), (clock_current _ _ C1), Can, X1, Ec.
          by rewrite (next_tick_clock _ _ Cl), (next_tick_clock _ _ C1). }
        eapply inv_weaken; [exact I2|done|done|..|done].
        cbn [waiting phase_of]. rewrite Xc. cbn [app]. intros h Ih.
        apply list_elem_of_filter in Ih as [Nh Ih]. apply list_elem_of_singleton in Ih as ->. done.
      * intros _. rewrite Can, X1, Mo, M1, Xr. by rewrite !delete_empty.
      * intros N. exfalso. apply N. by rewrite (clock_current _ _ Cl), (clock_current _ _ C1).
    + eapply hist_end; [exact H1|exact E1|done|exact End2].
    + by transitivity s1.
    + lia.
    + intros q due tick. rewrite Lg. change (log s1) with (Cancelled (sequence d) :: log s).
      destruct (ev_data _); rewrite !elem_of_cons; naive_solver.
Qed.

Lemma cancel_asked r s v h :
  good s v → hist r s → (current_nevent s = None → r = None) →
  holds (λ '(c, s'), asked 0 r s v s') (nevent_cancel h s).
Proof.
  intros G H Rn. destruct h as [[p|] q].
  - destruct (data (mem s) !! p) as [d|] eqn:Ep.
    + destruct (decide (lifecycle_state d = active ∧ sequence d = q)) as [[Ac <-]|N].
      * destruct (cancel_event r s v p d G H Rn Ep Ac) as (c & s' & v' & -> & _ & A & _). by exists v'.
      * unfold nevent_cancel, at_handle. cbn [event h_sequence]. rewrite Ep. cbn [bind_outcome].
        pose proof (asked_refl 0 r s v G H).
        destruct (q =? 0); [done|]. destruct (Z.eqb_spec (sequence d) q) as [E|]; [|done]. cbn [negb].
        destruct (lifecycle_state d) eqn:L; try done. tauto.
    + unfold nevent_cancel, at_handle. cbn [event h_sequence]. rewrite Ep.
      destruct (q =? 0); [by apply asked_refl|done].
  - by apply asked_refl.
Qed.

(** ** Order in a bucket *)

Lemma before_due tick d e : nevent_sorts_before tick d e = true → due_tick d ≤ due_tick e.
Proof. unfold nevent_sorts_before. destruct (Z.eqb_spec (due_tick d) (due_tick e)); cbn [negb]; lia. Qed.
Lemma not_before_due tick d e : nevent_sorts_before tick d e = false → due_tick e ≤ due_tick d.
Proof. unfold nevent_sorts_before. destruct (Z.eqb_spec (due_tick d) (due_tick e)); cbn [negb]; lia. Qed.

Lemma sorted_insert {A} (R : A → A → Prop) l1 p l2 :
  StronglySorted R (l1 ++ l2) → (∀ x, x ∈ l1 → R x p) → (∀ x, x ∈ l2 → R p x) →
  StronglySorted R (l1 ++ p :: l2).
Proof.
  induction l1 as [|q l1 IH]; cbn [app]; intros S B1 B2.
  - constructor; [done|]. by apply Forall_forall.
  - apply StronglySorted_inv in S as [S F]. constructor.
    + apply IH; [done| |done]. intros x I. apply B1. by right.
    + rewrite Forall_app in F |- *. destruct F as [F1 F2]. split; [done|]. constructor; [|done].
      apply B1. by left.
Qed.

Lemma sorted_last {A} (R : A → A → Prop) l q x :
  StronglySorted R l → last l = Some q → x ∈ l → x = q ∨ R x q.
Proof.
  destruct l as [|y l _] using rev_ind; [done|]. rewrite last_snoc. intros S [= ->] I.
  apply elem_of_app in I as [I|I]; [right|left; by apply list_elem_of_singleton in I].
  induction l as [|z l IH]; [by apply not_elem_of_nil in I|]. cbn [app] in S.
  apply StronglySorted_inv in S as [S F]. apply elem_of_cons in I as [->|I]; [|by apply IH].
  rewrite Forall_app, Forall_singleton in F. apply F.
Qed.
Lemma sorted_prefix {A} (R : A → A → Prop) l1 l2 : StronglySorted R (l1 ++ l2) → StronglySorted R l1.
Proof.
  induction l1 as [|x l1 IH]; cbn [app]; [constructor|]. intros S. apply StronglySorted_inv in S as [S F].
  constructor; [by apply IH|]. by apply Forall_app in F as [F _].
Qed.

Lemma link_sorted tick m p d l1 l2 :
  data m !! p = Some d → (∀ q, q ∈ l1 ++ l2 → is_Some (data m !! q)) →
  StronglySorted (due_le (data m)) (l1 ++ l2) →
  Forall (sorts (nevent_sorts_before tick) m d) l2 →
  (∀ q, last l1 = Some q → ¬ sorts (nevent_sorts_before tick) m d q) →
  StronglySorted (due_le (data m)) (l1 ++ p :: l2).
Proof.
  intros Ep V S F N. apply sorted_insert; [done|..].
  - intros x I. destruct (last l1) as [q|] eqn:El.
    2: { apply last_None in El as ->. by apply not_elem_of_nil in I. }
    destruct (V q) as [e Eq]; [apply elem_of_app; left; by apply last_Some_elem_of|].
    assert (due_tick e ≤ due_tick d) as Le.
    { apply (not_before_due tick). destruct (nevent_sorts_before tick d e) eqn:B; [|done].
      exfalso. apply (N q eq_refl). by exists e. }
    destruct (sorted_last _ _ _ x (sorted_prefix _ _ _ S) El I) as [->|R]; intros e1 e2 E1 E2.
    + congruence.
    + rewrite Ep in E2. injection E2 as <-. specialize (R e1 e E1 Eq). lia.
  - intros x I. rewrite Forall_forall in F. destruct (F x I) as (e & E & B). intros e1 e2 E1 E2.
    apply before_due in B. congruence.
Qed.

(** An event off the wheel is linked at the bucket of its due tick. *)
Lemma link_inv ph s v p d loc :
  inv (take_off p ph) s v → p ∉ off_wheel ph → data (mem s) !! p = Some d →
  element d = loc → loc = nevent_bucket_for_tick (due_tick d) → deferral_count d = 0 →
  next_tick s ≤ due_tick d →
  ∃ m l1 l2, link p loc s = Done (with_mem m s) ∧ buckets v loc = l1 ++ l2
    ∧ inv ph (with_mem m s) (set_list Sched loc (l1 ++ p :: l2) v)
    ∧ data m = data (mem s) ∧ ne_dead_event_pool m = ne_dead_event_pool (mem s).
Proof.
  intros I N Ep El Lo Dc Nt.
  destruct (i_off _ _ _ I p) as (d' & E' & U); [by left|]. rewrite Ep in E'. injection E' as <-.
  assert (∀ k, p ∉ buckets v k) as Nb.
  { intros k B. apply (i_wheel _ _ _ I) in B as [B _]. apply B. by left. }
  assert (p ∉ free v) as Nf by (rewrite (i_free _ _ _ I p d Ep), U; done).
  destruct (link_schedule_spec (nevent_sorts_before (ne_event_tick s)) p d loc (mem s) v (i_rep _ _ _ I))
    as (m & l1 & l2 & E & Eb & R & D & Po & F & La); [by split|done|].
  exists m, l1, l2. unfold link. rewrite E. cbn [present bind_outcome]. split; [done|]. split; [done|].
  split; [|done].
  assert (StronglySorted (due_le (data (mem s))) (l1 ++ p :: l2)) as So.
  { eapply link_sorted; [exact Ep| |rewrite <- Eb; apply I|exact F|exact La].
    intros q Iq. rewrite <- Eb in Iq. apply (i_wheel _ _ _ I) in Iq as (_ & e & Eq & _). eauto. }
  assert (data m = <[p := d]> (data (mem s))) as D' by (rewrite D; symmetry; by apply insert_id).
  pose proof (i_tick _ _ _ I) as Tk.
  eapply (inv_change (take_off p ph) ph s _ v _ p d d I Ep). split; try done.
  - intros w' k' q Nq. rewrite lists_set. destruct (decide _) as [[<- <-]|_]; [|done].
    change (lists v Sched loc) with (buckets v loc). rewrite Eb, !elem_of_app, elem_of_cons. naive_solver.
  - intros w' k' Nw'. rewrite lists_set, decide_False by naive_solver.
    rewrite (i_owners _ _ _ I), Ep by done. naive_solver.
  - intros k'. unfold buckets. rewrite lists_set. unfold key. rewrite U, El.
    destruct (decide _) as [[_ <-]|Nk].
    + split; [done|]. intros _. apply elem_of_app. right. by left.
    + split; [intros B; by apply Nb in B|]. intros [_ [= ->]]. naive_solver.
  - rewrite U. split; [done|done].
  - intros k'. rewrite insert_id by done. unfold buckets. rewrite lists_set.
    destruct (decide _) as [[_ <-]|Nk]; [done|]. apply I.
  - intros q Nq. cbn. rewrite elem_of_cons. naive_solver.
  - apply (i_waiting _ _ _ I p d Ep).
  - apply (i_dying _ _ _ I p d Ep).
  - intros _. by apply (i_used _ _ _ I p d Ep).
  - congruence.
  - intros _ _. left. split; [|left; split; [congruence|done]].
    rewrite Dc. unfold next_tick. destruct (after_events_call s); lia.
  - split; [done|apply I].
  - by apply (i_sequences _ _ _ I p d).
  - intros _ q e Nq Eq Ue Sqe. apply Nq. eapply (i_distinct _ _ _ I q p e d); congruence.
  - change (ne_event_counter (with_mem m s)) with (ne_event_counter s). lia.
  - change (objs_used (ne_dead_event_pool m) = ne_event_counter s). rewrite Po. apply I.
  - by apply debt_stays.
Qed.

Record moved (s s' : scheduler) (v v' : view) (p : ptr) (d : event_data) (due : Z) : Prop := {
  mv_keeps : keeps s s';
  mv_data : ∃ d', data (mem s') = <[p := d']> (data (mem s)) ∧ due_tick d' = due
    ∧ lifecycle_state d' = lifecycle_state d ∧ sequence d' = sequence d ∧ func d' = func d;
  mv_buckets : ∃ l1 l2,
    let W k := if decide (k = element d) then without p (buckets v k) else buckets v k in
    W (nevent_bucket_for_tick due) = l1 ++ l2
    ∧ ∀ k, buckets v' k = if decide (k = nevent_bucket_for_tick due) then l1 ++ p :: l2 else W k;
}.

Lemma reschedule_inv ph r s v p d due :
  inv ph s v → hist r s → data (mem s) !! p = Some d → used d = true → p ∉ off_wheel ph →
  next_tick s ≤ due ≤ ULLONG_MAX →
  ∃ s' v', nevent_apply_reschedule p due s = Done s' ∧ inv ph s' v' ∧ hist r s' ∧ moved s s' v v' p d due.
Proof.
  intros I H Ep U N B. unfold nevent_apply_reschedule.
  destruct (unlink_inv ph s v p d I Ep U N) as (m1 & O1 & I1 & D1). rewrite O1. cbn [bind_outcome].
  set (v1 := set_list _ _ _ v) in I1. set (s1 := with_mem m1 s) in *.
  assert (data (mem s1) !! p = Some d) as E1 by (change (data m1 !! p = Some d); by rewrite D1).
  destruct (complete_inv _ s1 v1 p d I1 E1 U) as (s2 & O2 & I2 & Kp2 & N2 & D2); [by left|].
  rewrite O2. cbn [bind_outcome].
  set (d2 := settled d) in *. assert (data (mem s2) !! p = Some d2) as E2 by by rewrite D2, lookup_insert_eq.
  assert (used d2 = true) as U2 by (unfold d2, settled; by destruct (owing d)).
  assert (owing d2 = false) as Ow2.
  { unfold d2, settled. destruct (owing d) eqn:O; [done|exact O]. }
  destruct (i_used _ _ _ I2 p d2 E2 U2) as [A1 A2 A3 A4 A5 A6 A7 A8].
  set (loc := nevent_bucket_for_tick due).
  destruct (put_spec s2 v1 p (λ d, {d with due_tick := due; element := loc}) d2 (i_rep _ _ _ I2) E2) as (R3 & D3 & P3).
  set (s3 := put p _ s2) in *. set (d3 := {d2 with due_tick := due; element := loc}).
  change {d2 with due_tick := due; element := loc} with d3 in D3.
  assert (inv (take_off p ph) s3 v1) as I3.
  { eapply (inv_put _ _ s2 s3 v1 p d2 d3 I2 E2 R3 D3 P3); try done.
    - intros [] Nw; [by destruct Nw|done..].
    - intros Nn. exfalso. apply Nn. by left.
    - split; try done. unfold next_tick in B. pose proof (i_tick _ _ _ I). cbn.
      destruct (after_events_call s); lia.
    - apply (i_waiting _ _ _ I2 p d2 E2).
    - apply (i_dying _ _ _ I2 p d2 E2).
    - apply debt_stays; [by split|..]; unfold count_owing, cost_owing, count_due;
        change (owing d3) with (owing d2); rewrite Ow2, ?andb_false_r; try done. }
  assert (data (mem s3) !! p = Some d3) as E3 by by rewrite D3, lookup_insert_eq.
  assert (deferral_count d3 = 0) as Dc.
  { change (deferral_count d2 = 0). unfold owing in Ow2. lia. }
  destruct Kp2 as [C2 Q2 L2 M2 X2].
  assert (next_tick s3 = next_tick s) as Nt.
  { change (next_tick s3) with (next_tick s2). by rewrite (next_tick_clock _ _ C2). }
  destruct (link_inv ph s3 v1 p d3 loc I3 N E3) as (m4 & l1 & l2 & O4 & Eb & I4 & D4 & P4); try done.
  { rewrite Nt. apply B. }
  cbv zeta. fold loc. fold s3. rewrite O4.
  eexists _, _. split; [done|]. split; [exact I4|].
  assert (data (mem (with_mem m4 s3)) = <[p := d3]> (data (mem s))) as D.
  { change (data m4 = <[p := d3]> (data (mem s))). rewrite D4, D3, D2. change (mem s1) with m1.
    by rewrite D1, insert_insert_eq. }
  assert (lifecycle_state d3 = lifecycle_state d) as Ld by (cbn; unfold d3, d2, settled; by destruct (owing d)).
  assert (sequence d3 = sequence d) as Sd by (unfold d3, d2, settled; by destruct (owing d)).
  assert (func d3 = func d) as Fd by (unfold d3, d2, settled; by destruct (owing d)).
  assert (ev_data d3 = ev_data d) as Xd by (unfold d3, d2, settled; by destruct (owing d)).
  assert (keeps s (with_mem m4 s3)) as Kp.
  { split; try done. destruct C2 as [T1 T2 T3 T4 T5]. by split. }
  split; [|split].
  - eapply (hist_move r s _ p d d3 H Ep D); try done.
    by rewrite Ld.
  - exact Kp.
  - exists d3. done.
  - exists l1, l2. cbv zeta. fold loc.
    assert (∀ k, buckets v1 k = if decide (k = element d) then without p (buckets v k) else buckets v k) as W.
    { intros k. unfold v1, buckets at 1. rewrite lists_set. destruct (decide (k = element d)) as [->|Nk].
      - by rewrite decide_True.
      - rewrite decide_False; [done|naive_solver]. }
    split; [by rewrite <- W|]. intros k. unfold buckets at 1. rewrite lists_set.
    destruct (decide (k = loc)) as [->|Nk]; [by rewrite decide_True|].
    rewrite decide_False by naive_solver. apply W.
Qed.

Lemma moves_asked r s v p d due :
  good s v → hist r s → current_nevent s ≠ None → data (mem s) !! p = Some d → next_tick s ≤ due ≤ ULLONG_MAX →
  asked 1 r s v {s with nevent_pending_reschedules ::= <[p := (sequence d, due)]>}.
Proof.
  intros G H Nc Ep B. set (s' := {s with nevent_pending_reschedules ::= _}). exists v.
  split.
  - destruct G as [I Ca Af]. split; [|done|done].
    change (inv (phase_of s) s' v). destruct I. split; try done.
    intros q sq du. change (nevent_pending_reschedules s') with (<[p := (sequence d, due)]> (nevent_pending_reschedules s)).
    destruct (decide (p = q)) as [<-|N].
    + rewrite lookup_insert_eq. intros [= <- <-]. split; [done|]. change (is_Some (data (mem s) !! p)). eauto.
    + rewrite lookup_insert_ne by done. apply i_moves0.
  - by eapply hist_same.
  - by split.
  - done.
  - done.
  - intros _. apply stable_refl; [done|done|].
    change (nevent_pending_reschedules s') with (<[p := (sequence d, due)]> (nevent_pending_reschedules s)).
    destruct (nevent_pending_reschedules s !! p) eqn:E;
      [rewrite map_size_insert_Some by eauto|rewrite map_size_insert_None by done]; lia.
Qed.

(** Requests of the types of their arguments. *)
Definition tick_ok (t : Z) : Prop := 0 ≤ t ≤ ULLONG_MAX.

Lemma good_idle_move s s' v v' : good s v → current_nevent s = None → inv (phase_of s) s' v' →
  keeps s s' → good s' v'.
Proof.
  intros G Ec I Kp. destruct (keeps_clock _ _ Kp) as [T A P V Cu].
  assert (phase_of s' = phase_of s) as E.
  { unfold phase_of, next_tick. by rewrite Cu, T, A, (keeps_cancels _ _ Kp). }
  split.
  - by rewrite E.
  - intros _. rewrite (keeps_cancels _ _ Kp), (keeps_moves _ _ Kp). by apply (g_calm _ _ G).
  - rewrite Cu. by intros [].
Qed.

Lemma reschedule_at_asked r s v h due :
  good s v → hist r s → tick_ok due →
  holds (λ '(c, s'), asked 1 r s v s') (nevent_reschedule_at h due s).
Proof.
  intros G H B. pose proof (asked_refl 1 r s v G H) as Rf. unfold nevent_reschedule_at, at_handle.
  destruct (event h) as [p|]; [|exact Rf]. destruct (h_sequence h =? 0); [exact Rf|].
  destruct (data (mem s) !! p) as [d|] eqn:Ep; [|done]. cbn [bind_outcome].
  destruct (negb (sequence d =? h_sequence h) || negb (bool_decide (lifecycle_state d = active))) eqn:Ac; [exact Rf|].
  apply orb_false_iff in Ac as [_ Ac]. apply negb_false_iff, bool_decide_eq_true in Ac.
  pose proof (i_tick _ _ _ (g_inv _ _ G)) as Tk.
  assert (nevent_first_eligible_tick s = next_tick s) as Fe.
  { unfold nevent_first_eligible_tick, next_tick, nevent_add_ticks. unfold MAX_TICK, ULLONG_MAX in *.
    destruct (Z.ltb_spec (2 ^ 64 - 1 - ne_event_tick s) (if after_events_call s then 1 else 0)); [|done].
    destruct (after_events_call s); lia. }
  rewrite Fe. assert (next_tick s ≤ Z.max due (next_tick s) ≤ ULLONG_MAX) as B'.
  { unfold tick_ok in B. unfold next_tick, MAX_TICK, ULLONG_MAX in *. destruct (after_events_call s); lia. }
  destruct (current_nevent s) as [c|] eqn:Ec.
  - destruct (bool_decide (p = c)); [exact Rf|]. cbn [holds]. apply moves_asked; try done. congruence.
  - destruct (reschedule_inv _ r s v p d (Z.max due (next_tick s)) (g_inv _ _ G) H Ep (event_used_lookup d Ac))
      as (s' & v' & E & I' & H' & Mv); [by apply not_elem_of_nil|done|].
    rewrite E. cbn [bind_outcome holds]. exists v'. pose proof (mv_keeps _ _ _ _ _ _ _ Mv) as Kp.
    split; [by eapply good_idle_move|done|apply Kp|by rewrite (keeps_sequence _ _ Kp)| |by intros []].
    intros q du tick. by rewrite (keeps_log _ _ Kp).
Qed.

Lemma reschedule_after_asked r s v h delay :
  good s v → hist r s → tick_ok delay →
  holds (λ '(c, s'), asked 1 r s v s') (nevent_reschedule_after h delay s).
Proof.
  intros G H B. apply reschedule_at_asked; [done|done|]. pose proof (i_tick _ _ _ (g_inv _ _ G)) as Tk.
  unfold tick_ok, nevent_add_ticks in *. destruct (Z.ltb_spec (ULLONG_MAX - ne_event_tick s) delay); unfold ULLONG_MAX, MAX_TICK in *; lia.
Qed.

Lemma advance_by_asked r s v h ticks :
  good s v → hist r s → tick_ok ticks →
  holds (λ '(c, s'), asked 1 r s v s') (nevent_advance_by h ticks s).
Proof.
  intros G H B. pose proof (asked_refl 1 r s v G H) as Rf. unfold nevent_advance_by.
  destruct h as [[p|] q]; [|exact Rf]. cbn [event h_sequence]. destruct (q =? 0) eqn:Zq; [exact Rf|].
  unfold at_handle. destruct (data (mem s) !! p) as [d|] eqn:Ep; [|done]. cbn [bind_outcome].
  destruct (negb (sequence d =? q)) eqn:Sq; [exact Rf|].
  destruct (used d) eqn:U.
  - apply reschedule_at_asked; [done|done|]. pose proof (used_due _ (i_used _ _ _ (g_inv _ _ G) p d Ep U)).
    unfold tick_ok in *. destruct (Z.leb_spec (due_tick d) ticks); unfold ULLONG_MAX in *; lia.
  - unfold nevent_reschedule_at, at_handle. cbn [event h_sequence]. rewrite Zq, Ep. cbn [bind_outcome].
    rewrite Sq. assert (bool_decide (lifecycle_state d = active) = false) as ->; [|exact Rf].
    apply bool_decide_eq_false. intros A. unfold used in U. by rewrite A in U.
Qed.

(** ** A new event *)

Lemma inv_tell ph s v n : inv ph s v → inv ph (tell n s) v.
Proof. intros []. by split. Qed.

(** The pool may have grown. *)
Lemma inv_base ph s v m1 v1 :
  inv ph s v → rep m1 v1 → lists v1 = lists v → Z.of_nat (size (data m1)) ≤ MAX_EVENTS →
  (∃ fresh, data m1 = data (mem s) ∪ fresh ∧
    ∀ q d, fresh !! q = Some d → d = zero_data ∧ data (mem s) !! q = None) →
  (∀ q, is_Some (data m1 !! q) → q ∈ free v1 ↔ q ∈ free v ∨ data (mem s) !! q = None) →
  objs_used (ne_dead_event_pool m1) = objs_used (ne_dead_event_pool (mem s)) →
  inv ph (with_mem m1 s) v1.
Proof.
  intros I R Lv Sz (fresh & D & Fr) Fv Ob.
  assert (∀ q d, data m1 !! q = Some d → data (mem s) !! q = Some d ∨ d = zero_data ∧ data (mem s) !! q = None) as L.
  { intros q d. rewrite D, lookup_union_Some_raw. intros [E|[E E']]; [by left|]. right. split; [|done].
    by apply (Fr q d). }
  assert (∀ q d, data (mem s) !! q = Some d → data m1 !! q = Some d) as W.
  { intros q d E. rewrite D. by apply lookup_union_Some_l. }
  assert (∀ w : event_data → Z, w zero_data = 0 → tally w (data m1) = tally w (data (mem s))) as T.
  { intros w Z0. rewrite D. apply tally_union. intros q d E. destruct (Fr q d E) as [-> N]. done. }
  destruct I. split; cbn [mem with_mem]; change (mem (with_mem m1 s)) with m1; try done.
  - intros w k p Nw. rewrite Lv, i_owners0 by done. split; intros (d & E & K).
    + exists d. split; [by apply W|done].
    + destruct (L p d E) as [E'|[-> _]]; [by exists d|]. by destruct w.
  - intros k p. change (buckets v1 k) with (lists v1 Sched k). rewrite Lv.
    change (lists v Sched k) with (buckets v k). rewrite i_wheel0. split; intros [O (d & E & K)]; (split; [done|]).
    + exists d. split; [by apply W|done].
    + destruct (L p d E) as [E'|[-> _]]; [by exists d|done].
  - intros p d E. rewrite Fv by eauto. destruct (L p d E) as [E'|[-> E']].
    + rewrite (i_free0 p d E'), E'. naive_solver.
    + split; [done|]. intros _. by right.
  - intros p d E U. destruct (L p d E) as [E'|[-> _]]; [by eapply i_dead0|by split].
  - intros p d E U. destruct (L p d E) as [E'|[-> _]]; [by eapply i_used0|done].
  - intros p d E. change (ne_event_sequence (with_mem m1 s)) with (ne_event_sequence s).
    destruct (L p d E) as [E'|[-> _]]; [by eapply i_sequences0|]. cbn. lia.
  - intros p q d e E F U V S. destruct (L p d E) as [E'|[-> _]]; [|done]. destruct (L q e F) as [F'|[-> _]]; [|done].
    by eapply i_distinct0.
  - intros p d E U. destruct (L p d E) as [E'|[-> _]]; [by apply i_placed0|done].
  - intros p O. destruct (i_off0 p O) as (d & E & U). exists d. split; [by apply W|done].
  - intros p d E U. destruct (L p d E) as [E'|[-> _]]; [by eapply i_dying0|done].
  - intros p d E U. destruct (L p d E) as [E'|[-> _]]; [by eapply i_waiting0|done].
  - rewrite T by done. apply i_counter0.
  - rewrite Ob. apply i_objs0.
  - rewrite T by done. apply i_debt0.
  - rewrite T by done. apply i_estimate0.
  - intros t. rewrite T by done. apply i_due0.
  - intros k. change (buckets v1 k) with (lists v1 Sched k). rewrite Lv.
    assert (∀ l, (∀ q, q ∈ l → is_Some (data (mem s) !! q)) → StronglySorted (due_le (data (mem s))) l →
      StronglySorted (due_le (data m1)) l) as H.
    { intros l V. induction 1 as [|q l S IH F]; constructor.
      - apply IH. intros x I. apply V. by right.
      - rewrite Forall_forall in F |- *. intros x I d e E1 E2.
        destruct (V q ltac:(by left)) as [d' Ed]. destruct (V x ltac:(by right)) as [e' Ee].
        pose proof (W _ _ Ed). pose proof (W _ _ Ee).
        apply (F x I); congruence. }
    apply H; [|apply i_sorted0]. intros q B. apply i_wheel0 in B as (_ & d & E & _). eauto.
  - intros p sq du E. destruct (i_moves0 p sq du E) as [B [d Ed]]. split; [done|]. exists d. by apply W.
  - intros h Ih. destruct (i_cancels0 h Ih) as (p & E & [d Ed]). exists p. split; [done|]. exists d. by apply W.
Qed.

Lemma hist_add r s s' p d0 d' fresh :
  hist r s → (data (mem s) ∪ fresh) !! p = Some d0 → lifecycle_state d0 ≠ active → ev_data d0 = None →
  (∀ q d, fresh !! q = Some d → d = zero_data ∧ data (mem s) !! q = None) →
  data (mem s') = <[p := d']> (data (mem s) ∪ fresh) →
  lifecycle_state d' = active → sequence d' = ne_event_sequence s + 1 → 0 ≤ ne_event_sequence s →
  ne_event_sequence s' = ne_event_sequence s + 1 → next_tick s' = next_tick s →
  log s' = match ev_data d' with Some (Owned z) => Handed z :: log s | _ => log s end →
  hist r s'.
Proof.
  intros [C R A Ca K P] Ep Na Nx Fr D Ac Sd Nn Sq T Lg.
  assert (∀ n, (∀ z, n ≠ Handed z) → n ∈ log s' ↔ n ∈ log s) as In.
  { intros n N. rewrite Lg. destruct (ev_data d') as [[]|]; rewrite ?elem_of_cons; naive_solver. }
  assert (∀ q d, (data (mem s) ∪ fresh) !! q = Some d → lifecycle_state d = active → data (mem s) !! q = Some d) as L.
  { intros q d. rewrite lookup_union_Some_raw. intros [E|[_ E]]; [done|]. by destruct (Fr q d E) as [-> _]. }
  split; rewrite ?Sq, ?T.
  - rewrite Lg. by destruct (ev_data d') as [[]|].
  - intros q due tick. rewrite In by done. intros I. pose proof (R q due tick I). lia.
  - intros q e E Ae. rewrite D in E. destruct (decide (p = q)) as [<-|N].
    + rewrite lookup_insert_eq in E. injection E as <-. rewrite Sd. split.
      * rewrite In by done. intros I. apply Ca in I. lia.
      * intros due tick. rewrite In by done. intros I. apply R in I. lia.
    + rewrite lookup_insert_ne in E by done. destruct (A q e (L q e E Ae) Ae) as [A1 A2].
      rewrite In by done. split; [done|]. intros due tick. rewrite In by done. apply A2.
  - intros q. rewrite In by done. intros I. apply Ca in I. lia.
  - intros q B. destruct (decide (q = ne_event_sequence s + 1)) as [->|Nq].
    { left. exists p, d'. by rewrite D, lookup_insert_eq. }
    destruct (K q ltac:(lia)) as [(p' & e & E & Ae & Se)|[(due & tick & I)|I]].
    + left. exists p', e. rewrite D. rewrite lookup_insert_ne.
      * split; [by apply lookup_union_Some_l|done].
      * intros <-. apply Na. assert (d0 = e) as ->; [|done].
        apply lookup_union_Some_raw in Ep as [E'|[E' _]]; congruence.
    + right. left. exists due, tick. by rewrite In.
    + right. right. by rewrite In.
  - intros z. rewrite D, (tally_update _ _ _ _ _ Ep), tally_union.
    2: { intros q e E. by destruct (Fr q e E) as [-> N]. }
    unfold holds_payload at 2 3. rewrite Nx, (bool_decide_false (None = _)) by done.
    rewrite Lg. destruct (ev_data d') as [[y|y]|].
    + rewrite P, bool_decide_false by congruence. lia.
    + rewrite was_handed_cons, was_destroyed_cons, P, (bool_decide_false (Handed y = Destroyed _)) by done.
      destruct (decide (y = z)) as [->|N]; [rewrite !bool_decide_true by done; lia|].
      rewrite !bool_decide_false by congruence. lia.
    + rewrite P, bool_decide_false by done. lia.
Qed.

Lemma hist_discard r s z : hist r s → hist r (tell (Destroyed (Owned z)) (tell (Handed z) s)).
Proof.
  intros [C R A Ca K P]. set (s' := tell _ _).
  assert (log s' = Destroyed (Owned z) :: Handed z :: log s) as Lg by done.
  assert (∀ n, (∀ z, n ≠ Handed z) → (∀ z, n ≠ Destroyed z) → n ∈ log s' ↔ n ∈ log s) as In.
  { intros n N N'. rewrite Lg, !elem_of_cons. naive_solver. }
  change (data (mem s)) with (data (mem s')) in *. change (ne_event_sequence s) with (ne_event_sequence s') in *.
  change (next_tick s) with (next_tick s') in *. split.
  - by rewrite Lg.
  - intros q due tick. rewrite In by done. apply R.
  - intros p d E Ac. destruct (A p d E Ac) as [A1 A2]. rewrite In by done. split; [done|].
    intros due tick. rewrite In by done. apply A2.
  - intros q. rewrite In by done. apply Ca.
  - intros q B. destruct (K q B) as [L|[(due & tick & I)|I]]; [by left|..].
    + right. left. exists due, tick. by rewrite In.
    + right. right. by rewrite In.
  - intros y. rewrite Lg, !was_handed_cons, !was_destroyed_cons, P.
    rewrite (bool_decide_false (Destroyed _ = Handed _)), (bool_decide_false (Handed _ = Destroyed _)) by done.
    destruct (decide (z = y)) as [->|N]; [rewrite !bool_decide_true by done; lia|].
    rewrite !bool_decide_false by congruence. lia.
Qed.

Lemma asked_tell n r s v s' :
  good s v → hist r s' → (∀ q due tick, Ran q due tick ∈ log s' ↔ Ran q due tick ∈ log s) → data (mem s') = data (mem s) → mem s' = mem s → same_clock s s' →
  ne_event_sequence s' = ne_event_sequence s → ne_event_counter s' = ne_event_counter s →
  nevent_pending_reschedules s' = nevent_pending_reschedules s →
  nevent_pending_cancellations s' = nevent_pending_cancellations s → same_debt s s' →
  asked n r s v s'.
Proof.
  intros [I Ca Af] H Rn D M C Sq Co Mo Can [De1 De2 De3]. exists v.
  pose proof C as [T A Pu Av Cu]. pose proof (next_tick_clock _ _ C) as Nt.
  split; [|done|done|lia|done|].
  - assert (phase_of s' = phase_of s) as Eph by (unfold phase_of; by rewrite Cu, T, Nt, Can).
    split.
    + rewrite Eph. destruct I. split; rewrite ?D, ?M, ?Sq, ?Co, ?Mo, ?Can, ?De1, ?De2, ?De3, ?T, ?Pu, ?Av, ?Nt; try done.
      intros t. unfold due_count. rewrite De3. apply i_due0.
    + rewrite Cu, Can, Mo. done.
    + rewrite Cu, A. done.
  - intros _. apply stable_refl; [done|done|rewrite Mo; lia].
Qed.

Lemma failure_asked r s v a st :
  good s v → hist r s → holds (λ '(_, _, s'), asked 1 r s v s') (failure a st (note_handed a s)).
Proof.
  intros G H. unfold failure, discard_owned_payload, note_handed. cbn [holds].
  destruct (owned_payload a) as [z|]; [destruct (owned_payload_destroy a)|]; try by apply asked_refl.
  eapply asked_tell; try done; [by apply hist_discard|].
  intros q du tick. change (log _) with (Destroyed (Owned z) :: Handed z :: log s) at 1. rewrite !elem_of_cons. naive_solver.
Qed.

(** ** Walks over the lists *)

Lemma walk_spec m v w k : rep m v → ∀ fuel l1 l2,
  lists v w k = l1 ++ l2 → (length l2 ≤ fuel)%nat → walk w fuel (first l2 None) m = Done l2.
Proof.
  intros R. induction fuel as [|fuel IH]; intros l1 l2 E F.
  - destruct l2; [done|cbn in F; lia].
  - destruct l2 as [|p l2]; [done|]. cbn [first walk]. rewrite (next_of_spec _ _ _ _ _ _ _ R E).
    cbn [present bind_outcome]. rewrite (IH (l1 ++ [p]) l2); [done|by rewrite E, <- app_assoc|cbn in F; lia].
Qed.

Lemma events_of_spec s v w k : rep (mem s) v → events_of w k s = Done (lists v w k).
Proof.
  intros R. unfold events_of. rewrite (head_of_spec _ _ _ _ R). apply (walk_spec _ v w k R _ []); [done|].
  by apply bucket_bound.
Qed.

Section Add.
Context (cfg : config) (chunk_objects : nat) (granted : nat → bool).
(** The memory of the machine: chunks of events hold one, and are granted while there is
    room for four thousand million events. *)
Context (chunk_some : (0 < chunk_objects)%nat).
Context (granted_limit : ∀ n, granted n = true → Z.of_nat (n + chunk_objects) ≤ MAX_EVENTS).

(** The arguments have their types: [delay] is an [int]. *)
Definition args_ok (a : schedule_args) : Prop := delay a ≤ INT32_MAX.

Lemma link_other_counter p loc s c m :
  link p loc {s with ne_event_counter := c} = Done (with_mem m {s with ne_event_counter := c}) →
  link p loc s = Done (with_mem m s).
Proof.
  unfold link. change (mem {s with ne_event_counter := c}) with (mem s).
  change (ne_event_tick {s with ne_event_counter := c}) with (ne_event_tick s).
  destruct (nevent_link_schedule _ p loc (mem s)) as [m'|]; cbn [present bind_outcome]; [|done].
  by intros [= ->].
Qed.

Lemma first_eligible_next ph s v : inv ph s v → nevent_first_eligible_tick s = next_tick s.
Proof.
  intros I. pose proof (i_tick _ _ _ I) as Tk.
  unfold nevent_first_eligible_tick, next_tick, nevent_add_ticks, MAX_TICK, ULLONG_MAX in *.
  destruct (Z.ltb_spec (2 ^ 64 - 1 - ne_event_tick s) (if after_events_call s then 1 else 0)); [|done].
  destruct (after_events_call s); lia.
Qed.

Lemma new_event_ok ph s v a f :
  inv ph s v → args_ok a → 0 ≤ delay a → ne_event_sequence s ≠ ULLONG_MAX → (ch a = None → victim a = None) →
  let e := new_event cfg a f s in
  used_ok e ∧ next_tick s ≤ due_tick e ∧ element e = nevent_bucket_for_tick (due_tick e).
Proof.
  intros I Ao Dl Nu Vi e. pose proof (i_tick _ _ _ I) as Tk. pose proof (i_sequence _ _ _ I) as Sq.
  assert (due_tick e = Z.max (nevent_add_ticks (ne_event_tick s) (delay a)) (next_tick s)) as Du.
  { unfold e. cbn. by rewrite (first_eligible_next _ _ _ I). }
  assert (0 ≤ due_tick e ≤ ULLONG_MAX) as B.
  { rewrite Du. unfold args_ok, nevent_add_ticks, next_tick, MAX_TICK, ULLONG_MAX, INT32_MAX in *.
    destruct (Z.ltb_spec (2 ^ 64 - 1 - ne_event_tick s) (delay a)), (after_events_call s); lia. }
  split; [|split; [lia|done]]. split; try done.
  - cbn. lia.
  - cbn. destruct (match owned_payload a with Some _ => _ | None => _ end); [by split; eauto|]. split; [done|by intros [? ?]].
  - unfold link_ok. cbn. destruct (victim a) as [[w id]|], (ch a) as [c|]; cbn; try done.
    + by destruct (Z.eqb_spec (name c) w).
    + by specialize (Vi eq_refl).
Qed.

Lemma append_if_spec m v w o p :
  rep m v → loose v w p → is_Some (events m !! p) →
  let m' := append_if w o p m in
  ∃ v', rep m' v' ∧ data m' = data m ∧ ne_dead_event_pool m' = ne_dead_event_pool m ∧ free v' = free v
    ∧ (∀ w' k q, q ∈ lists v' w' k ↔ q ∈ lists v w' k ∨ q = p ∧ w' = w ∧ o = Some k)
    ∧ (∀ w' k, w' ≠ w → lists v' w' k = lists v w' k).
Proof.
  intros R L V. unfold append_if. destruct o as [k|].
  - destruct (append_at_spec m v w k p R L V) as (R' & D' & P').
    exists (set_list w k (lists v w k ++ [p]) v). split; [done|]. split; [done|]. split; [done|]. split; [done|].
    split; [|intros w' k' N; rewrite lists_set; by rewrite decide_False by naive_solver].
    intros w' k' q. rewrite lists_set. destruct (decide _) as [[<- <-]|N].
    + rewrite elem_of_app, list_elem_of_singleton. naive_solver.
    + naive_solver.
  - exists v. split; [done|]. split; [done|]. split; [done|]. split; [done|]. split; [|done]. naive_solver.
Qed.

(** The new event with its owners, off the wheel. *)
Lemma place_owners s v a f p m v' m1 v1 :
  got chunk_objects granted (mem s) v p m v' m1 v1 → inv (phase_of s) s v →
  let e := new_event cfg a f s in
  let s1 := {with_mem (append_if Obj (ev_obj e) p (append_if Char (ev_ch e) p (set_ev p (λ _, e) m))) s with
    ne_event_sequence ::= λ n, n + 1; ne_event_counter ::= λ n, n + 1} in
  args_ok a → 0 ≤ delay a → ne_event_sequence s ≠ ULLONG_MAX → (ch a = None → victim a = None) →
  ∃ v2, inv (take_off p (phase_of s)) s1 v2 ∧ data (mem s1) = <[p := e]> (data m1)
    ∧ (∀ k, buckets v2 k = buckets v k) ∧ (∃ d0, data m1 !! p = Some d0 ∧ used d0 = false)
    ∧ objs_used (ne_dead_event_pool (mem s1)) = ne_event_counter s + 1
    ∧ 0 ≤ ne_event_counter s + 1 < 2 ^ 64.
Proof.
  intros Gt I e s1 Ao Dl Nu Vi. destruct Gt as [R' R1 Fr Sz Fv1 Lv1 Us1 Pf D' Lv' Fv' Us'].
  destruct (new_event_ok _ s v a f I Ao Dl Nu Vi) as (Eok & Edue & Eel). fold e in Eok, Edue, Eel.
  assert (Z.of_nat (size (data m1)) ≤ MAX_EVENTS) as Sz1.
  { destruct Sz as [->|[Gr ->]]; [apply I|]. by apply granted_limit. }
  assert (inv (phase_of s) (with_mem m1 s) v1) as I1 by by eapply inv_base.
  assert (∃ d0, data m1 !! p = Some d0) as [d0 E0].
  { destruct (rep_free m1 v1 R1 p Pf) as [n En]. eexists. by apply data_lookup. }
  assert (used d0 = false) as U0 by (by apply (i_free _ _ _ I1 p d0 E0)).
  assert (∀ w k, p ∉ lists v' w k) as Nl.
  { intros w k B. rewrite Lv', <- Lv1 in B. by eapply (rep_free_apart m1 v1 R1). }
  assert (p ∉ free v') as Nf by (rewrite Fv'; tauto).
  destruct (set_ev_spec m v' p (λ _, e) R') as (R2 & D2 & P2).
  assert (data (set_ev p (λ _, e) m) = <[p := e]> (data m1)) as D2'.
  { rewrite D2, D'. apply map_eq. intros q. destruct (decide (p = q)) as [<-|N].
    - by rewrite lookup_alter_eq, !lookup_insert_eq.
    - by rewrite lookup_alter_ne, !lookup_insert_ne. }
  set (m2 := set_ev p (λ _, e) m) in *.
  assert (∀ m, data m = data m2 → is_Some (events m !! p)) as V.
  { intros m0 E. assert (is_Some (data m0 !! p)) as X by (rewrite E, D2', lookup_insert_eq; eauto).
    unfold data in X. by rewrite lookup_fmap, fmap_is_Some in X. }
  destruct (append_if_spec m2 v' Char (ev_ch e) p R2) as (v3 & R3 & D3 & P3 & F3 & L3 & O3); [by split|by apply V|].
  set (m3 := append_if Char (ev_ch e) p m2) in *.
  destruct (append_if_spec m3 v3 Obj (ev_obj e) p R3) as (v4 & R4 & D4 & P4 & F4 & L4 & O4).
  { split; [by rewrite F3|]. intros k B. rewrite O3 in B by done. by apply Nl in B. }
  { by apply V. }
  set (m4 := append_if Obj (ev_obj e) p m3) in *.
  assert (data (mem s1) = <[p := e]> (data m1)) as D by (change (data m4 = <[p := e]> (data m1)); by rewrite D4, D3).
  assert (∀ k, buckets v4 k = buckets v k) as Bu.
  { intros k. unfold buckets. by rewrite O4, O3, Lv' by done. }
  assert (used e = true) as Ue by done.
  assert (ne_event_counter s + 1 ≤ MAX_EVENTS) as Cb.
  { rewrite (i_counter _ _ _ I1) || idtac.
    pose proof (i_counter _ _ _ I1) as C. change (ne_event_counter (with_mem m1 s)) with (ne_event_counter s) in C.
    change (mem (with_mem m1 s)) with m1 in C.
    pose proof (tally_update count_used (data m1) p d0 e E0) as T. unfold count_used at 3 4 in T. rewrite U0, Ue in T.
    pose proof (tally_bounds count_used (<[p := e]> (data m1)) 1) as B. rewrite T in B.
    rewrite map_size_insert_Some in B by eauto. destruct B as [_ B]; [|lia].
    intros q x _. unfold count_used. destruct (used x); lia. }
  assert (0 ≤ ne_event_counter s) as Cn.
  { rewrite (i_counter _ _ _ I). eapply (tally_bounds _ _ 1). intros q x _. unfold count_used. destruct (used x); lia. }
  assert (objs_used (ne_dead_event_pool (mem s1)) = ne_event_counter s + 1) as Ob.
  { change (objs_used (ne_dead_event_pool m4) = ne_event_counter s + 1). rewrite P4, P3, P2, Us'.
    rewrite (i_objs _ _ _ I). unfold wrap. apply Z.mod_small. unfold MAX_EVENTS in Cb. lia. }
  exists v4. split; [|split; [done|split; [done|split; [by exists d0|split; [done|unfold MAX_EVENTS in Cb; lia]]]]].
  eapply (inv_change _ _ (with_mem m1 s) s1 v1 v4 p d0 e I1 E0). split; try done.
  - intros w k q N. rewrite L4, L3, Lv', Lv1. naive_solver.
  - intros w k Nw. rewrite L4, L3. pose proof (Nl w k). destruct w; [done|..]; cbn [key]; naive_solver.
  - intros k. rewrite Bu. split.
    + intros B. exfalso. apply (Nl Sched k). by rewrite Lv'.
    + intros [N _]. exfalso. apply N. by left.
  - intros q N. rewrite F4, F3, Fv'. tauto.
  - rewrite F4, F3, Ue. split; [by intros B; apply Fv' in B as [_ B]|done].
  - intros k. rewrite Bu. eapply due_le_update; [|exact E0|].
    + intros B. exfalso. apply (Nl Sched k). by rewrite Lv'.
    + change (buckets v k) with (lists v Sched k). rewrite <- Lv1. apply (i_sorted _ _ _ I1).
  - intros q N. cbn. rewrite elem_of_cons. naive_solver.
  - intros _ N. exfalso. apply N. by left.
  - change (ne_event_sequence s1) with (ne_event_sequence s + 1).
    change (ne_event_sequence (with_mem m1 s)) with (ne_event_sequence s). pose proof (i_sequence _ _ _ I). lia.
  - change (ne_event_sequence s1) with (ne_event_sequence s + 1).
    change (sequence e) with (ne_event_sequence s + 1). pose proof (i_sequence _ _ _ I). lia.
  - intros _ q x N Eq Ux. pose proof (i_sequences _ _ _ I1 q x Eq) as B.
    change (ne_event_sequence (with_mem m1 s)) with (ne_event_sequence s) in B.
    change (sequence e) with (ne_event_sequence s + 1). lia.
  - change (ne_event_counter s1) with (ne_event_counter s + 1).
    change (ne_event_counter (with_mem m1 s)) with (ne_event_counter s). unfold count_used. rewrite U0, Ue. lia.
  - apply debt_stays; [by split|..]; unfold count_owing, cost_owing, count_due; rewrite U0;
      change (owing e) with false; by rewrite ?andb_false_r.
Qed.
Lemma sublist_insert {A} (l1 l2 : list A) p : sublist (l1 ++ l2) (l1 ++ p :: l2).
Proof. apply sublist_app; [done|]. by apply sublist_cons. Qed.

Lemma place_asked r s v a f p m v' m1 v1 :
  good s v → hist r s → got chunk_objects granted (mem s) v p m v' m1 v1 →
  args_ok a → 0 ≤ delay a → ne_event_sequence s ≠ ULLONG_MAX → (ch a = None → victim a = None) →
  (∀ z, owned_payload a = Some z → owned_payload_destroy a = true) →
  ∃ h s', place cfg a f p m (note_handed a s) = Done (scheduled, h, s') ∧ asked 1 r s v s'
    ∧ h = Handle (Some p) (ne_event_sequence s + 1) ∧ data (mem s') !! p = Some (new_event cfg a f s)
    ∧ ne_event_sequence s' = ne_event_sequence s + 1
    ∧ (∀ q d, data (mem s) !! q = Some d → used d = true → q ≠ p ∧ data (mem s') !! q = Some d).
Proof.
  intros G H Gt Ao Dl Nu Vi Ow. pose proof (g_inv _ _ G) as I.
  pose proof (got_fresh _ _ _ _ _ _ _ _ _ Gt) as (fresh & D1 & Fr).
  destruct (place_owners s v a f p m v' m1 v1 Gt I Ao Dl Nu Vi) as (v2 & I2 & D2 & B2 & (d0 & E0 & U0) & Ob & Cb).
  destruct (new_event_ok _ s v a f I Ao Dl Nu Vi) as (Eok & Edue & Eel).
  set (e := new_event cfg a f s) in *. set (s1 := {with_mem _ s with ne_event_sequence ::= _; ne_event_counter ::= _}) in *.
  assert (data (mem s1) !! p = Some e) as E1 by by rewrite D2, lookup_insert_eq.
  assert (p ∉ off_wheel (phase_of s)) as No by apply not_elem_of_nil.
  destruct (link_inv (phase_of s) s1 v2 p e (element e) I2 No E1) as (m5 & l1 & l2 & O5 & Eb & I5 & D5 & P5); try done.
  set (sn := note_handed a s) in *.
  assert (mem sn = mem s ∧ ne_event_tick sn = ne_event_tick s ∧ ne_event_sequence sn = ne_event_sequence s
    ∧ after_events_call sn = after_events_call s) as (Mn & Tn & Qn & An).
  { unfold sn, note_handed. by destruct (owned_payload a); [destruct (owned_payload_destroy a)|]. }
  assert (new_event cfg a f sn = e) as En.
  { unfold e, new_event, nevent_first_eligible_tick. by rewrite Tn, Qn, An. }
  set (s2 := {sn with mem := m5; ne_event_sequence ::= λ n, n + 1; ne_event_counter ::= λ n, n + 1}).
  assert (place cfg a f p m sn = Done (scheduled, Handle (Some p) (sequence e), s2)) as Pl.
  { unfold place. rewrite En.
    set (s3 := with_mem (append_if Obj (ev_obj e) p (append_if Char (ev_ch e) p (set_ev p (λ _, e) m))) 
      {sn with ne_event_sequence ::= λ n, n + 1}).
    cbv zeta. change (with_mem (append_if Obj _ _ _) _) with s3.
    assert (link p (element e) s3 = Done (with_mem m5 s3)) as ->.
    { revert O5. unfold link. change (mem s1) with (mem s3). change (ne_event_tick s1) with (ne_event_tick s).
      change (ne_event_tick s3) with (ne_event_tick sn). rewrite Tn.
      destruct (nevent_link_schedule _ p (element e) (mem s3)) as [m'|]; cbn [present bind_outcome]; [|done].
      by intros [= ->]. }
    cbn [bind_outcome]. change {with_mem m5 s3 with ne_event_counter ::= λ n, n + 1} with s2.
    assert (ne_event_counter sn = ne_event_counter s) as Cn.
    { unfold sn, note_handed. by destruct (owned_payload a); [destruct (owned_payload_destroy a)|]. }
    unfold nevent_assert_pool_accounting. change (ne_event_counter s2) with (ne_event_counter sn + 1).
    change (ne_dead_event_pool (mem s2)) with (ne_dead_event_pool m5). rewrite P5, Ob, Cn.
    destruct (Z.leb_spec 0 (ne_event_counter s + 1)); [|lia].
    assert (wrap 64 (ne_event_counter s + 1) = ne_event_counter s + 1) as -> by (unfold wrap; by apply Z.mod_small).
    rewrite Z.eqb_refl. cbn [andb negb bind_outcome]. unfold nevent_handle_from_event, at_ptr.
    change (data (mem s2)) with (data m5). rewrite D5, E1. done. }
  exists (Handle (Some p) (sequence e)), s2. split; [exact Pl|].
  assert (data (mem s2) = <[p := e]> (data (mem s) ∪ fresh)) as D.
  { change (data m5 = <[p := e]> (data (mem s) ∪ fresh)). by rewrite D5, D2, D1. }
  assert (same_clock s s2) as Cl.
  { unfold s2, sn, note_handed. by destruct (owned_payload a); [destruct (owned_payload_destroy a)|]. }
  assert (nevent_pending_cancellations s2 = nevent_pending_cancellations s
    ∧ nevent_pending_reschedules s2 = nevent_pending_reschedules s ∧ ne_event_sequence s2 = ne_event_sequence s + 1
    ∧ ne_event_counter s2 = ne_event_counter s + 1 ∧ same_debt s s2) as (X2 & M2 & Q2 & C2 & De2).
  { unfold s2, sn, note_handed. by destruct (owned_payload a); [destruct (owned_payload_destroy a)|]. }
  assert (∀ q d, data (mem s) !! q = Some d → used d = true → q ≠ p ∧ data (mem s2) !! q = Some d) as Ot.
  { intros q d Eq U. assert (q ≠ p) as Nq.
    { intros ->. rewrite D1 in E0. apply lookup_union_Some_raw in E0 as [E0|[E0 _]]; congruence. }
    split; [done|]. rewrite D, lookup_insert_ne by done. by apply lookup_union_Some_l. }
  split.
  2: { split; [done|]. rewrite D, lookup_insert_eq. split; [done|]. split; [done|]. by rewrite <- D. }
  exists (set_list Sched (element e) (l1 ++ p :: l2) v2).
  split; [| |done|lia| |].
  - assert (phase_of s2 = phase_of s) as Eph.
    { unfold phase_of. rewrite (next_tick_clock _ _ Cl), X2. by destruct Cl as [-> _ _ _ ->]. }
    split.
    + rewrite Eph. destruct Cl as [T A P V Cu], De2 as [De1 De2 De3].
      assert (next_tick s2 = next_tick s) as Nt by (unfold next_tick; by rewrite T, A).
      destruct I5. split; rewrite ?X2, ?M2, ?Q2, ?C2, ?T, ?P, ?V, ?De1, ?De2, ?Nt; try done.
      * intros t. unfold due_count. rewrite De3. apply i_due0.
      * rewrite De3. apply i_due_pos0.
    + destruct Cl as [_ _ _ _ ->]. rewrite X2, M2. apply G.
    + destruct Cl as [_ -> _ _ ->]. apply G.
  - rewrite D1 in E0. eapply (hist_add r s s2 p d0 e fresh H E0).
    + intros A. unfold used in U0. by rewrite A in U0.
    + apply lookup_union_Some_raw in E0 as [E0|[_ E0]]; [|by destruct (Fr p d0 E0) as [-> _]].
      apply dead_data. by apply (i_dead _ _ _ I p d0).
    + done.
    + done.
    + done.
    + done.
    + apply (i_sequence _ _ _ I).
    + done.
    + by apply next_tick_clock.
    + change (log s2) with (log sn). unfold sn, note_handed. change (ev_data e) with
        (match owned_payload a with Some z => Some (Owned z) | None => if 0 <? data_size a then Copy <$> src a else None end).
      destruct (owned_payload a) as [z|]; [by rewrite (Ow z eq_refl)|].
      destruct (0 <? data_size a); [|done]. by destruct (src a).
  - intros q du tick. change (log s2) with (log sn). unfold sn, note_handed.
    destruct (owned_payload a) as [z|]; [destruct (owned_payload_destroy a)|]; try done.
    change (log (tell (Handed z) s)) with (Handed z :: log s). rewrite elem_of_cons. naive_solver.
  - intros _. split.
    + intros q d Eq U. exists d. split; [by apply (Ot q d)|by apply same_event_refl].
    + intros q d Eq U. rewrite D in Eq. destruct (decide (p = q)) as [<-|N].
      * rewrite lookup_insert_eq in Eq. injection Eq as <-. right. split; [done|].
        change (sequence e) with (ne_event_sequence s + 1). lia.
      * rewrite lookup_insert_ne in Eq by done. left.
        apply lookup_union_Some_raw in Eq as [Eq|[_ Eq]]; [by exists d|]. by destruct (Fr q d Eq) as [-> _].
    + intros k. rewrite <- B2. unfold buckets at 2. rewrite lists_set.
      destruct (decide _) as [[_ <-]|_]; [|done]. rewrite Eb. apply sublist_insert.
    + intros k. rewrite M2. rewrite <- B2. unfold buckets at 1. rewrite lists_set.
      destruct (decide _) as [[_ <-]|_].
      * rewrite Eb, !length_app. cbn [length]. lia.
      * change (lists v2 Sched k) with (buckets v2 k). lia.
Qed.
(** What scheduling an event does. *)
Definition added (s : scheduler) (a : schedule_args) (h : nevent_handle) (s' : scheduler) : Prop :=
  ∃ p f, a_func a = Some f ∧ h = Handle (Some p) (ne_event_sequence s + 1)
    ∧ data (mem s') !! p = Some (new_event cfg a f s) ∧ ne_event_sequence s' = ne_event_sequence s + 1
    ∧ ∀ q d, data (mem s) !! q = Some d → used d = true → q ≠ p ∧ data (mem s') !! q = Some d.

Lemma add_asked r s v a :
  good s v → hist r s → args_ok a →
  holds (λ '(st, h, s'), asked 1 r s v s'
      ∧ (st = scheduled → added s a h s'))
    (add_event_internal cfg chunk_objects granted a s).
Proof.
  intros G H Ao. unfold add_event_internal.
  assert (∀ st, st ≠ scheduled → holds (λ '(st, h, s'), asked 1 r s v s'
      ∧ (st = scheduled → added s a h s')) (failure a st (note_handed a s))) as Fl.
  { intros st Ns. pose proof (failure_asked r s v a st G H) as F. unfold failure in *. cbn [holds] in *. done. }
  destruct (a_func a) as [f|] eqn:Fa; [|by apply Fl].
  destruct (Z.ltb_spec (delay a) 0) as [|Dl]; [by apply Fl|].
  destruct (match ch a with Some _ => _ | None => _ end); [by apply Fl|].
  destruct (bool_decide (is_Some (victim a)) && bool_decide (ch a = None)) eqn:Va; [by apply Fl|].
  assert (ch a = None → victim a = None) as Vi.
  { intros E. rewrite (bool_decide_eq_true_2 (ch a = None)), andb_true_r in Va by done.
    apply bool_decide_eq_false in Va. destruct (victim a); [|done]. exfalso. eauto. }
  destruct ((data_size a <? 0) || _ || _) eqn:Pa; [by apply Fl|].
  assert (ne_event_sequence (note_handed a s) = ne_event_sequence s ∧ mem (note_handed a s) = mem s) as [Qn Mn].
  { unfold note_handed. by destruct (owned_payload a); [destruct (owned_payload_destroy a)|]. }
  rewrite Qn, Mn. destruct (Z.eqb_spec (ne_event_sequence s) ULLONG_MAX) as [|Nu]; [by apply Fl|].
  assert (∀ z, owned_payload a = Some z → owned_payload_destroy a = true) as Ow.
  { intros z E. rewrite E in Pa. apply orb_false_iff in Pa as [_ Pa]. rewrite bool_decide_true in Pa by eauto.
    by destruct (owned_payload_destroy a). }
  pose proof (mm_get_spec chunk_objects granted (mem s) v chunk_some (i_rep _ _ _ (g_inv _ _ G))) as Gt.
  destruct (mm_get chunk_objects granted (mem s)) as [[p m]| |]; cbn [bind_outcome]; [|done|done].
  destruct Gt as (v' & m1 & v1 & Gt).
  destruct (place_asked r s v a f p m v' m1 v1 G H Gt Ao Dl Nu Vi Ow) as (h & s' & -> & A & Ad).
  cbn [holds]. split; [done|]. intros _. by exists p, f.
Qed.

(** An event of a scheduler between its operations may change its job. *)
Lemma job_asked r s v p d id :
  good s v → hist r s → data (mem s) !! p = Some d → used d = true →
  asked_at 0 r s v (put p (λ d, {d with periodic_job_id := id}) s) v.
Proof.
  intros G H Ed U. pose proof (g_inv _ _ G) as I.
  destruct (put_spec s v p (λ d, {d with periodic_job_id := id}) d (i_rep _ _ _ I) Ed) as (R1 & D1 & P1).
  set (s1 := put p _ s) in *. set (d1 := {d with periodic_job_id := id}).
  change {d with periodic_job_id := id} with d1 in D1. split.
  - split; [|apply G|apply G]. change (phase_of s1) with (phase_of s).
    destruct (i_used _ _ _ I p d Ed U) as [B1 B2 B3 B4 B5 B6 B7].
    eapply (inv_put _ _ s s1 v p d d1 I Ed R1 D1 P1); try done.
    + apply (i_waiting _ _ _ I p d Ed).
    + apply (i_dying _ _ _ I p d Ed).
    + by apply debt_stays.
  - by eapply (hist_move r s s1 p d d1).
  - by split.
  - done.
  - done.
  - intros _. eapply stable_update; [exact Ed|exact D1|..]; try done.
    + intros _. repeat split; auto.
    + change (nevent_pending_reschedules s1) with (nevent_pending_reschedules s). lia.
Qed.

Lemma periodic_asked r s v a id :
  good s v → hist r s → args_ok a →
  holds (λ '(_, _, s'), asked 1 r s v s') (periodic_schedule cfg chunk_objects granted a id s).
Proof.
  intros G H Ao. unfold periodic_schedule. eapply holds_bind; [by apply add_asked|].
  intros [[st h] s1] [A Ad]. destruct (bool_decide _) eqn:B; cbn [negb]; [|exact A].
  apply bool_decide_eq_true in B. destruct (Ad B) as (p & f & _ & -> & Ep & _). cbn [event holds].
  destruct A as (v1 & A). apply (asked_bind 1 0 r s v s1 v1); [done|]. exists v1.
  by eapply job_asked; [apply A|apply A|exact Ep|].
Qed.

Lemma current_clock s s' : same_clock s s' → current_nevent s' = current_nevent s.
Proof. apply clock_current. Qed.

Lemma replace_asked r s v h a :
  good s v → hist r s → (current_nevent s = None → r = None) → args_ok a →
  holds (λ '(_, _, s'), asked 1 r s v s') (nevent_replace cfg chunk_objects granted h a s).
Proof.
  intros G H Rn Ao. unfold nevent_replace.
  destruct (nevent_handle_is_active h s) as [b| |] eqn:Ha; cbn [bind_outcome]; [|done|].
  2: { unfold nevent_handle_is_active, at_handle in Ha. destruct (event h) as [q|]; [|done].
       destruct (h_sequence h =? 0); [done|]. by destruct (data (mem s) !! q). }
  destruct b; cbn [negb]; [|by apply failure_asked].
  eapply holds_bind; [by apply add_asked|]. intros [[st hn] s1] [A _]. unfold nevent_finish_replace.
  destruct (negb (bool_decide (st = scheduled))); [exact A|]. destruct A as (v1 & A).
  assert (current_nevent s1 = None → r = None) as Rn1 by (rewrite (clock_current _ _ (ask_clock _ _ _ _ _ _ A)); done).
  eapply holds_bind; [apply (cancel_asked r s1 v1); [apply A|apply A|done]|]. intros [c s2] (v2 & A2).
  assert (asked 1 r s v s2) as A12 by (apply (asked_bind 1 0 r s v s1 v1); [done|by exists v2]).
  assert (holds (λ '(_, s3), asked 1 r s v s3) (nevent_cancel hn s2)) as A3.
  { eapply holds_impl; [apply (cancel_asked r s2 v2); [apply A2|apply A2|]|].
    - rewrite (clock_current _ _ (ask_clock _ _ _ _ _ _ A2)). done.
    - intros [c' s3] A3. apply (asked_bind 1 0 r s v s1 v1); [done|]. by apply (asked_bind 0 0 r s1 v1 s2 v2). }
  destruct c; try exact A12; (eapply holds_bind; [exact A3|]; intros [c' s3] A4; exact A4).
Qed.

Lemma disarm_asked r w k f : w ≠ Sched → ∀ fuel l1 l2 s v,
  good s v → hist r s → (current_nevent s = None → r = None) →
  lists v w k = l1 ++ l2 → (length l2 ≤ fuel)%nat →
  holds (λ s', asked 0 r s v s') (disarm_loop w f fuel (first l2 None) s).
Proof.
  intros Nw. induction fuel as [|fuel IH]; intros l1 l2 s v G H Rn E F.
  - destruct l2; [by apply asked_refl|cbn in F; lia].
  - destruct l2 as [|p l2]; [by apply asked_refl|]. cbn [first disarm_loop].
    pose proof (g_inv _ _ G) as I. rewrite (next_of_spec _ _ _ _ _ _ _ (i_rep _ _ _ I) E). cbn [present bind_outcome].
    assert (p ∈ lists v w k) as B by (rewrite E; set_solver).
    pose proof B as B'. apply (i_owners _ _ _ I) in B' as (d & Ed & Kd); [|done].
    unfold at_ptr. rewrite Ed. cbn [present bind_outcome].
    assert (holds (λ s', asked 0 r s v s') (disarm_loop w f fuel (first l2 None) s)) as Skip.
    { apply (IH (l1 ++ [p]) l2); try done; [by rewrite E, <- app_assoc|cbn in F; lia]. }
    destruct (bool_decide (f = None) || bool_decide (func d = f)); [|cbn [bind_outcome]; exact Skip].
    unfold nevent_handle_from_event, at_ptr. rewrite Ed. cbn [present bind_outcome].
    destruct (decide (lifecycle_state d = active)) as [Ac|Na].
    + destruct (cancel_event r s v p d G H Rn Ed Ac) as (c & s1 & v1 & -> & _ & A & L). cbn [bind_outcome].
      pose proof (rep_listed _ _ (i_rep _ _ _ I) w k) as [_ _ _ Nd]. rewrite E in Nd.
      eapply holds_impl; [apply (IH l1 l2 s1 v1)|].
      * apply A.
      * apply A.
      * rewrite (clock_current _ _ (ask_clock _ _ _ _ _ _ A)). done.
      * rewrite (L w k Nw), E. by apply without_middle.
      * cbn in F. lia.
      * intros s2 A2. by apply (asked_bind 0 0 r s v s1 v1).
    + assert (nevent_cancel (Handle (Some p) (sequence d)) s = Done (already_inactive, s)
        ∨ nevent_cancel (Handle (Some p) (sequence d)) s = Done (invalid_handle, s)) as [-> | ->];
        [|cbn [bind_outcome]; exact Skip..].
      unfold nevent_cancel, at_handle. cbn [event h_sequence]. rewrite Ed. cbn [bind_outcome].
      destruct (sequence d =? 0); [by right|]. rewrite Z.eqb_refl. cbn [negb].
      destruct (lifecycle_state d); naive_solver.
Qed.

Lemma broken_asked r s v c l :
  good s v → hist r s → (current_nevent s = None → r = None) →
  holds (λ s', asked 0 r s v s') (event_broken c l s).
Proof.
  intros G H Rn. pose proof (g_inv _ _ G) as I. unfold event_broken.
  rewrite (events_of_spec s v Char c (i_rep _ _ _ I)). cbn [bind_outcome].
  destruct (list_find _ _) as [[i p]|] eqn:Fd; [|by apply asked_refl].
  apply list_find_Some in Fd as (Li & Cl & _). apply list_elem_of_lookup_2 in Li.
  apply (i_owners _ _ _ I) in Li as (d & Ed & Kd); [|done].
  unfold nevent_handle_from_event, at_ptr. rewrite Ed. cbn [present bind_outcome].
  destruct (put_spec s v p (λ d, {d with cld := None; ev_victim := None}) d (i_rep _ _ _ I) Ed) as (R1 & D1 & P1).
  set (s1 := put p _ s) in *. set (d1 := {d with cld := None; ev_victim := None}).
  change {d with cld := None; ev_victim := None} with d1 in D1.
  assert (used d = true) as U.
  { destruct (used d) eqn:U; [done|]. pose proof (dead_ch _ (i_dead _ _ _ I p d Ed U)). cbn in Kd. congruence. }
  assert (asked_at 0 r s v s1 v) as A1.
  { split.
    - split; [|apply G|apply G]. change (phase_of s1) with (phase_of s).
      destruct (i_used _ _ _ I p d Ed U) as [B1 B2 B3 B4 B5 B6 B7].
      eapply (inv_put _ _ s s1 v p d d1 I Ed R1 D1 P1); try done.
      + apply (i_waiting _ _ _ I p d Ed).
      + apply (i_dying _ _ _ I p d Ed).
      + by apply debt_stays.
    - by eapply (hist_move r s s1 p d d1).
    - by split.
    - done.
    - done.
    - intros _. eapply stable_update; [exact Ed|exact D1|..]; try done.
      + intros _. repeat split; auto.
      + change (nevent_pending_reschedules s1) with (nevent_pending_reschedules s). lia. }
  assert (data (mem s1) !! p = Some d1) as E1 by by rewrite D1, lookup_insert_eq.
  unfold at_ptr. rewrite E1. cbn [present bind_outcome]. destruct (bool_decide _); [|by exists v].
  eapply holds_bind; [apply (cancel_asked r s1 v); [apply A1|apply A1|done]|].
  intros [c' s2] A2. by apply (asked_bind 0 0 r s v s1 v).
Qed.

(** ** Requests *)

Definition request_ok (q : request) : Prop :=
  match q with
  | Add a | Replace _ a => args_ok a
  | AddPeriodic a id => args_ok a ∧ 0 < id ≤ 32
  | Reschedule _ t | RescheduleAfter _ t | AdvanceBy _ t => tick_ok t
  | _ => True
  end.

Lemma perform_asked r s v q :
  good s v → hist r s → (current_nevent s = None → r = None) → request_ok q →
  holds (λ s', asked 1 r s v s') (perform cfg chunk_objects granted q s).
Proof.
  intros G H Rn Q. assert (∀ A (o : outcome (A * scheduler)) n, (n ≤ 1)%nat → holds (λ '(_, s'), asked n r s v s') o →
    holds (λ s', asked 1 r s v s') (let! (_, s) := o in Done s)) as K.
  { intros A o n Le Ho. eapply holds_bind; [exact Ho|]. intros [x s'] As. by apply (asked_mono n). }
  pose proof (g_inv _ _ G) as I.
  destruct q as [a|a id|h a|h|h t|h t|h t|c f|o f|c l]; cbn [perform] in *.
  - eapply holds_bind; [by apply add_asked|]. intros [[st h] s'] [A _]. exact A.
  - destruct Q as [Q _]. eapply holds_bind; [by apply periodic_asked|]. intros [[st h] s'] A. exact A.
  - eapply holds_bind; [by apply replace_asked|]. intros [[st h'] s'] A. exact A.
  - apply (K _ _ 0%nat); [lia|]. by apply cancel_asked.
  - apply (K _ _ 1%nat); [lia|]. by apply reschedule_at_asked.
  - apply (K _ _ 1%nat); [lia|]. by apply reschedule_after_asked.
  - apply (K _ _ 1%nat); [lia|]. by apply advance_by_asked.
  - unfold disarm_char_nevents. rewrite (head_of_spec _ _ _ _ (i_rep _ _ _ I)).
    eapply holds_impl; [apply (disarm_asked r Char c f ltac:(done) _ [] (lists v Char c) s v); try done|].
    + by apply (bucket_bound _ _ Char), I.
    + intros s' A. by apply (asked_mono 0 1); [lia|].
  - unfold disarm_obj_nevents. rewrite (head_of_spec _ _ _ _ (i_rep _ _ _ I)).
    eapply holds_impl; [apply (disarm_asked r Obj o f ltac:(done) _ [] (lists v Obj o) s v); try done|].
    + by apply (bucket_bound _ _ Obj), I.
    + intros s' A. by apply (asked_mono 0 1); [lia|].
  - eapply holds_impl; [by apply broken_asked|]. intros s' A. by apply (asked_mono 0 1); [lia|].
Qed.

Lemma perform_all_asked r qs : ∀ s v,
  good s v → hist r s → (current_nevent s = None → r = None) → Forall request_ok qs →
  holds (λ s', asked (length qs) r s v s') (perform_all cfg chunk_objects granted qs s).
Proof.
  induction qs as [|q qs IH]; intros s v G H Rn F; [by apply asked_refl|].
  apply Forall_cons in F as [Q F]. cbn [perform_all].
  eapply holds_bind; [by apply perform_asked|]. intros s1 (v1 & A1).
  eapply holds_impl; [apply (IH s1 v1); [apply A1|apply A1| |done]|].
  - rewrite (clock_current _ _ (ask_clock _ _ _ _ _ _ A1)). done.
  - intros s2 A2. by apply (asked_bind 1 (length qs) r s v s1 v1).
Qed.
End Add.
