(* ===== verification/SchedulerPass.v ===== *)
(** * The pass of the event scheduler

    The deferral of what a budget leaves, the loop over the bucket of a tick, the work put off
    to its end, and what holds once it is over. *)

From S2P Require Import Prelude.
From S2P Require Import EventMemory.
From S2P Require Import Scheduler.
From S2P Require Import SchedulerInvariant.

(** ** Sorting by due tick *)

Lemma sort_insert_perm lt p l : sort_insert lt p l ≡ₚ p :: l.
Proof.
  induction l as [|q l IH]; cbn [sort_insert]; [done|]. destruct (lt p q); [done|].
  rewrite IH. constructor.
Qed.
Lemma std_sort_perm lt l : std_sort lt l ≡ₚ l.
Proof.
  induction l as [|p l IH]; [done|]. cbn [std_sort foldr]. change (foldr (sort_insert lt) [] l) with (std_sort lt l).
  by rewrite sort_insert_perm, IH.
Qed.

Section Order.
Context (D : gmap ptr event_data) (lt : ptr → ptr → bool) (l0 : list ptr).
Context (lt_due : ∀ p q, p ∈ l0 → q ∈ l0 → lt p q = true → due_le D p q).
Context (nlt_due : ∀ p q, p ∈ l0 → q ∈ l0 → lt p q = false → due_le D q p).
Context (valid : ∀ p, p ∈ l0 → is_Some (D !! p)).

Lemma due_le_trans p q r : q ∈ l0 → due_le D p q → due_le D q r → due_le D p r.
Proof.
  intros V A B d f Ed Ef. destruct (valid q V) as [e Ee]. specialize (A d e Ed Ee). specialize (B e f Ee Ef). lia.
Qed.

Lemma sort_insert_due p l :
  p ∈ l0 → (∀ q, q ∈ l → q ∈ l0) → StronglySorted (due_le D) l → StronglySorted (due_le D) (sort_insert lt p l).
Proof.
  intros Ip. induction l as [|q l IH]; intros I S; cbn [sort_insert]; [by repeat constructor|].
  apply StronglySorted_inv in S as [S F]. destruct (lt p q) eqn:L.
  - constructor; [by constructor|]. assert (due_le D p q) as Le by (apply lt_due; [done|apply I; by left|done]).
    constructor; [done|]. rewrite Forall_forall in F |- *. intros x Ix.
    eapply due_le_trans; [|exact Le|by apply F]. apply I. by left.
  - constructor; [apply IH; [|done]; intros x Ix; apply I; by right|].
    rewrite Forall_forall in F |- *. intros x Ix. rewrite sort_insert_perm in Ix.
    apply elem_of_cons in Ix as [->|Ix]; [|by apply F]. apply nlt_due; [done|apply I; by left|done].
Qed.

Lemma std_sort_due l : (∀ q, q ∈ l → q ∈ l0) → StronglySorted (due_le D) (std_sort lt l).
Proof.
  induction l as [|p l IH]; intros I; [constructor|]. cbn [std_sort foldr]. apply sort_insert_due.
  - apply I. by left.
  - intros q Iq. change (foldr (sort_insert lt) [] l) with (std_sort lt l) in Iq. rewrite std_sort_perm in Iq.
    apply I. by right.
  - apply IH. intros q Iq. apply I. by right.
Qed.

Lemma merge_due a b :
  (∀ q, q ∈ a ++ b → q ∈ l0) → StronglySorted (due_le D) a → StronglySorted (due_le D) b →
  StronglySorted (due_le D) (merge_lists lt a b).
Proof.
  revert b. induction a as [|p a IHa]; intros b; [by rewrite merge_lists_nil_l|].
  induction b as [|q b IHb]; [by rewrite merge_lists_nil_r|]. intros I Sa Sb.
  rewrite merge_lists_cons. pose proof Sa as Sa'. pose proof Sb as Sb'.
  apply StronglySorted_inv in Sa' as [Sa' Fa]. apply StronglySorted_inv in Sb' as [Sb' Fb].
  rewrite Forall_forall in Fa, Fb.
  assert (p ∈ l0) as Ip by (apply I; set_solver). assert (q ∈ l0) as Iq by (apply I; set_solver).
  destruct (lt p q) eqn:L.
  - constructor; [apply IHa; [set_solver|done|done]|]. apply Forall_forall. intros x Ix.
    rewrite merge_lists_perm in Ix. apply elem_of_app in Ix as [Ix|Ix]; [by apply Fa|].
    assert (due_le D p q) as Le by by apply lt_due.
    apply elem_of_cons in Ix as [->|Ix]; [done|]. by eapply due_le_trans; [|exact Le|apply Fb].
  - constructor; [apply IHb; [set_solver|done|done]|]. apply Forall_forall. intros x Ix.
    rewrite merge_lists_perm in Ix. apply elem_of_app in Ix as [Ix|Ix]; [|by apply Fb].
    assert (due_le D q p) as Le by by apply nlt_due.
    apply elem_of_cons in Ix as [->|Ix]; [done|]. by eapply due_le_trans; [|exact Le|apply Fa].
Qed.
End Order.

(** ** Deferral *)

Lemma due_prefix_spec ph s v k : inv ph s v → ∀ fuel l1 l2,
  buckets v k = l1 ++ l2 → (length l2 ≤ fuel)%nat →
  ∃ batch rest, due_prefix fuel (first l2 None) s = Done batch ∧ l2 = batch ++ rest
    ∧ (∀ q, q ∈ batch → ∃ d, data (mem s) !! q = Some d ∧ due_tick d ≤ ne_event_tick s)
    ∧ (∀ q d, q ∈ rest → data (mem s) !! q = Some d → ne_event_tick s < due_tick d).
Proof.
  intros I. induction fuel as [|fuel IH]; intros l1 l2 E F.
  - destruct l2; [|cbn in F; lia]. exists [], []. split; [done|]. split; [done|].
    split; intros q; [|intros d]; by intros B%not_elem_of_nil.
  - destruct l2 as [|p l2].
    { exists [], []. split; [done|]. split; [done|]. split; intros q; [|intros d]; by intros B%not_elem_of_nil. }
    cbn [first due_prefix]. assert (p ∈ buckets v k) as B by (rewrite E; set_solver).
    apply (i_wheel _ _ _ I) in B as (_ & d & Ed & _). unfold at_ptr. rewrite Ed. cbn [present bind_outcome].
    destruct (Z.leb_spec (due_tick d) (ne_event_tick s)) as [Le|Gt].
    + rewrite (next_of_spec _ _ Sched k _ _ _ (i_rep _ _ _ I) E). cbn [present bind_outcome].
      destruct (IH (l1 ++ [p]) l2) as (batch & rest & -> & -> & A & C); [by rewrite E, <- app_assoc|cbn in F; lia|].
      exists (p :: batch), rest. split; [done|]. split; [done|]. split; [|done].
      intros q Iq. apply elem_of_cons in Iq as [->|Iq]; [by exists d|by apply A].
    + exists [], (p :: l2). split; [done|]. split; [done|]. split; [by intros q Bq%not_elem_of_nil|].
      intros q e Iq Eq. pose proof (i_sorted _ _ _ I k) as S. rewrite E in S.
      apply elem_of_cons in Iq as [->|Iq]; [congruence|].
      assert (StronglySorted (due_le (data (mem s))) (p :: l2)) as S2.
      { clear -S. induction l1 as [|x l1 IH]; [done|]. apply IH. by apply StronglySorted_inv in S as [S _]. }
      apply StronglySorted_inv in S2 as [_ F2]. rewrite Forall_forall in F2.
      specialize (F2 q Iq d e Ed Eq). lia.
Qed.

(** An event put off once more. *)
Record put_off (nb : Z) (d d' : event_data) : Prop := {
  off_element : element d' = nb;
  off_count : deferral_count d' = deferral_count d + 1;
  off_due : due_tick d' = due_tick d;
  off_sequence : sequence d' = sequence d;
  off_life : lifecycle_state d' = lifecycle_state d;
  off_func : func d' = func d;
  off_data : ev_data d' = ev_data d;
}.

Lemma put_off_used nb d d' : put_off nb d d' → used d' = used d.
Proof. intros P. unfold used. by rewrite (off_life _ _ _ P). Qed.

Lemma defer_one_inv ph r s v p d nb :
  inv ph s v → hist r s → data (mem s) !! p = Some d → used d = true → p ∉ off_wheel ph →
  deferral_count d ≤ ne_event_tick s →
  ∃ s' v' d', defer_one nb p s = Done s' ∧ inv (take_off p ph) s' v' ∧ hist r s' ∧ keeps s s'
    ∧ data (mem s') = <[p := d']> (data (mem s)) ∧ put_off nb d d'
    ∧ v' = set_list Sched (element d) (without p (buckets v (element d))) v.
Proof.
  intros I H Ep U N Dc. unfold defer_one.
  destruct (unlink_inv ph s v p d I Ep U N) as (m1 & O1 & I1 & D1). rewrite O1. cbn [bind_outcome].
  set (v1 := set_list _ _ _ v) in I1 |- *. set (s1 := with_mem m1 s) in *.
  assert (data (mem s1) !! p = Some d) as E1 by (change (data m1 !! p = Some d); by rewrite D1).
  destruct (i_used _ _ _ I p d Ep U) as [A1 A2 A3 A4 A5 A6 A7 A8].
  pose proof (i_tick _ _ _ I) as Tk.
  set (d1 := {d with element := nb}).
  destruct (put_spec s1 v1 p (λ d, {d with element := nb}) d (i_rep _ _ _ I1) E1) as (R2 & D2 & P2).
  set (s2 := put p _ s1) in *. change {d with element := nb} with d1 in D2.
  assert (data (mem s2) !! p = Some d1) as E2 by by rewrite D2, lookup_insert_eq.
  cbv zeta. unfold nevent_register_deferred, at_ptr. fold s2. rewrite E2. cbn [present bind_outcome].
  change (deferral_count d1) with (deferral_count d).
  assert (wrap 32 (deferral_count d + 1) = deferral_count d + 1) as Wr.
  { unfold wrap. apply Z.mod_small. unfold MAX_TICK in Tk. lia. }
  destruct (Z.ltb_spec 0 (deferral_count d)) as [Ow|Ow].
  - cbn [bind_outcome]. 
    destruct (put_spec s2 v1 p (λ d, {d with deferral_count ::= λ n, wrap 32 (n + 1)}) d1 R2 E2) as (R3 & D3 & P3).
    set (s3 := put p _ s2) in *. set (d3 := {d1 with deferral_count ::= λ n, wrap 32 (n + 1)}).
    change {d1 with deferral_count ::= λ n, wrap 32 (n + 1)} with d3 in D3.
    assert (deferral_count d3 = deferral_count d + 1) as Dc3 by exact Wr.
    assert (data (mem s3) = <[p := d3]> (data (mem s1))) as D by by rewrite D3, D2, insert_insert_eq.
    assert (owing d3 = true) as O3 by (unfold owing; lia). assert (owing d = true) as O by (unfold owing; lia).
    exists s3, v1, d3. split; [done|]. split; [|split; [|split; [by split|split; [|by split]]]].
    + eapply (inv_put _ _ s1 s3 v1 p d d3 I1 E1 R3 D); try done.
      * by intros [].
      * intros Nn. exfalso. apply Nn. by left.
      * split; try done; [lia|]. intros _. by apply A5.
      * apply (i_waiting _ _ _ I p d Ep).
      * apply (i_dying _ _ _ I p d Ep).
      * apply debt_stays; [by split|..]; unfold count_owing, cost_owing, count_due;
          change (used d3) with (used d); rewrite O, O3; done.
    + eapply (hist_move r s s3 p d d3 H Ep); try done. rewrite D. change (data (mem s1)) with (data m1). by rewrite D1.
    + rewrite D. change (data (mem s1)) with (data m1). by rewrite D1.
  - assert (deferral_count d = 0) as Dz by lia.
    assert (nevent_catchup_debt s2 = tally count_owing (data (mem s1))) as De by apply (i_debt _ _ _ I1).
    assert (nevent_catchup_debt_estimated_us s2 = tally cost_owing (data (mem s1))) as Es by apply (i_estimate _ _ _ I1).
    assert (nevent_catchup_debt s2 < LONG_MAX) as Db.
    { rewrite De. pose proof (tally_bounds count_owing (data (mem s1)) 1) as B.
      pose proof (i_size _ _ _ I1) as Sz. unfold MAX_EVENTS, LONG_MAX in *.
      destruct B as [_ B]; [|lia]. intros q e _. unfold count_owing. destruct (_ && _); lia. }
    destruct (Z.eqb_spec (nevent_catchup_debt s2) LONG_MAX); [lia|]. cbn [negb bind_outcome].
    pose proof (i_avg _ _ _ I1) as Av. change (nevent_avg_callback_us s1) with (nevent_avg_callback_us s2) in Av.
    assert (Z.max 1 (nevent_avg_callback_us s2) = nevent_avg_callback_us s2) as -> by lia.
    set (cost := nevent_avg_callback_us s2) in *.
    assert (nevent_saturating_add_ull (nevent_catchup_debt_estimated_us s2) cost
      = nevent_catchup_debt_estimated_us s2 + cost) as Sa.
    { rewrite Es. pose proof (tally_bounds cost_owing (data (mem s1)) MAX_COST) as B.
      pose proof (i_size _ _ _ I1) as Sz. unfold nevent_saturating_add_ull, MAX_EVENTS, MAX_COST, ULLONG_MAX in *.
      destruct B as [_ B]; [intros q e Eq; by eapply cost_owing_nonneg|].
      destruct (Z.ltb_spec (2 ^ 64 - 1 - tally cost_owing (data (mem s1))) cost); lia. }
    destruct (put_spec s2 v1 p (λ d, {d with deferred_cost_us := cost}) d1 R2 E2) as (R3 & D3 & P3).
    set (s3 := put p (λ d, {d with deferred_cost_us := cost}) s2) in *. set (d2 := {d1 with deferred_cost_us := cost}).
    change {d1 with deferred_cost_us := cost} with d2 in D3.
    set (s4 := {s3 with nevent_catchup_debt ::= _; nevent_catchup_debt_estimated_us ::= _;
      nevent_deferred_due_counts := _; nevent_catchup_remaining ::= _}).
    assert (data (mem s4) !! p = Some d2) as E4 by (change (data (mem s4)) with (data (mem s3)); by rewrite D3, lookup_insert_eq).
    destruct (put_spec s4 v1 p (λ d, {d with deferral_count ::= λ n, wrap 32 (n + 1)}) d2 R3 E4) as (R5 & D5 & P5).
    set (s5 := put p _ s4) in *. set (d3 := {d2 with deferral_count ::= λ n, wrap 32 (n + 1)}).
    change {d2 with deferral_count ::= λ n, wrap 32 (n + 1)} with d3 in D5.
    assert (deferral_count d3 = deferral_count d + 1) as Dc3 by exact Wr.
    assert (data (mem s5) = <[p := d3]> (data (mem s1))) as D.
    { rewrite D5. change (data (mem s4)) with (data (mem s3)). by rewrite D3, D2, !insert_insert_eq. }
    assert (owing d3 = true) as O3 by (unfold owing; lia). assert (owing d = false) as O by (unfold owing; lia).
    exists s5, v1, d3. split; [done|]. split; [|split; [|split; [by split|split; [|by split]]]].
    + eapply (inv_put _ _ s1 s5 v1 p d d3 I1 E1 R5 D); try done.
      * by intros [].
      * intros Nn. exfalso. apply Nn. by left.
      * split; try done. lia.
      * apply (i_waiting _ _ _ I p d Ep).
      * apply (i_dying _ _ _ I p d Ep).
      * split; unfold count_owing, cost_owing, count_due; change (used d3) with (used d); rewrite ?U, ?O, ?O3; cbn [andb].
        -- change (nevent_catchup_debt s5) with (nevent_catchup_debt s1 + 1). lia.
        -- change (nevent_catchup_debt_estimated_us s5) with (nevent_saturating_add_ull (nevent_catchup_debt_estimated_us s2) cost).
           rewrite Sa. change (deferred_cost_us d3) with cost.
           change (nevent_catchup_debt_estimated_us s1) with (nevent_catchup_debt_estimated_us s2). lia.
        -- intros t. unfold due_count at 1.
           change (nevent_deferred_due_counts s5) with (<[due_tick d := due_count (due_tick d) s1 + 1]> (nevent_deferred_due_counts s1)).
           change (due_tick d3) with (due_tick d). destruct (Z.eqb_spec (due_tick d) t) as [->|Nt].
           ++ rewrite lookup_insert_eq. cbn. lia.
           ++ rewrite lookup_insert_ne by done. unfold due_count. lia.
        -- intros Pos t n'. 
           change (nevent_deferred_due_counts s5) with (<[due_tick d := due_count (due_tick d) s1 + 1]> (nevent_deferred_due_counts s1)).
           destruct (decide (due_tick d = t)) as [->|Nt]; [|rewrite lookup_insert_ne by done; apply Pos].
           rewrite lookup_insert_eq. intros [= <-]. unfold due_count.
           destruct (nevent_deferred_due_counts s1 !! t) as [k|] eqn:Ek; cbn; [|lia]. pose proof (Pos t k Ek). lia.
    + eapply (hist_move r s s5 p d d3 H Ep); try done. rewrite D. change (data (mem s1)) with (data m1). by rewrite D1.
    + rewrite D. change (data (mem s1)) with (data m1). by rewrite D1.
Qed.

(** What the deferral of a batch makes of the events. *)
Definition batch_data (nb : Z) (batch : list ptr) (D D' : gmap ptr event_data) : Prop :=
  (∀ q, q ∉ batch → D' !! q = D !! q)
  ∧ ∀ q d, q ∈ batch → D !! q = Some d → ∃ d', D' !! q = Some d' ∧ put_off nb d d'.

#[export] Instance keeps_preorder : PreOrder keeps.
Proof.
  split; [by split|]. intros s1 s2 s3 [A1 A2 A3 A4 A5] [B1 B2 B3 B4 B5].
  split; [by etransitivity|congruence..].
Qed.

Lemma defer_all_inv r nb k : ∀ batch ph s v pre rest,
  inv ph s v → hist r s → buckets v k = pre ++ batch ++ rest →
  (∀ q d, q ∈ batch → data (mem s) !! q = Some d → deferral_count d ≤ ne_event_tick s) →
  ∃ s' v', defer_all nb batch s = Done s'
    ∧ inv (Phase (floor_tick ph) (waiting ph) (reverse batch ++ off_wheel ph) (dying ph)) s' v'
    ∧ hist r s' ∧ keeps s s' ∧ batch_data nb batch (data (mem s)) (data (mem s'))
    ∧ buckets v' k = pre ++ rest ∧ ∀ j, j ≠ k → buckets v' j = buckets v j.
Proof.
  induction batch as [|p batch IH]; intros ph s v pre rest I H B Dc.
  - exists s, v. split; [done|]. split; [by destruct ph|]. split; [done|]. split; [done|].
    split; [|done]. split; [done|]. by intros q d X%not_elem_of_nil.
  - assert (p ∈ buckets v k) as Ip by (rewrite B; set_solver).
    pose proof Ip as Ip'. apply (i_wheel _ _ _ I) in Ip' as (N & d & Ed & Kd).
    assert (used d = true ∧ element d = k) as [U El].
    { unfold key in Kd. destruct (used d); [|done]. by injection Kd as ->. }
    destruct (defer_one_inv ph r s v p d nb I H Ed U N) as (s1 & v1 & d1 & O1 & I1 & H1 & K1 & D1 & P1 & E1).
    { apply (Dc p d); [by left|done]. }
    cbn [defer_all]. rewrite O1. cbn [bind_outcome].
    pose proof (rep_listed _ _ (i_rep _ _ _ I) Sched k) as [_ _ _ Nd].
    change (lists v Sched k) with (buckets v k) in Nd. rewrite B in Nd.
    assert (p ∉ batch) as Npb.
    { apply NoDup_app in Nd as (_ & _ & Nd). cbn [app] in Nd. apply NoDup_cons in Nd as [Np _]. set_solver. }
    assert (buckets v1 k = pre ++ batch ++ rest) as B1.
    { rewrite E1. unfold buckets at 1. rewrite lists_set, decide_True by done. rewrite El, B.
      cbn [app]. by apply without_middle. }
    destruct (IH (take_off p ph) s1 v1 pre rest I1 H1 B1) as (s2 & v2 & O2 & I2 & H2 & K2 & [D2 D2'] & B2 & B2').
    { intros q e Iq Eq. rewrite D1, lookup_insert_ne in Eq by (intros ->; done).
      rewrite (clock_tick _ _ (keeps_clock _ _ K1)). apply (Dc q e); [by right|done]. }
    exists s2, v2. split; [done|]. split; [|split; [done|split; [by etransitivity|split; [|split; [done|]]]]].
    + cbn [take_off off_wheel floor_tick waiting dying] in I2. by rewrite reverse_cons, <- app_assoc.
    + split.
      * intros q Nq. apply not_elem_of_cons in Nq as [N1 N2]. rewrite D2 by done. rewrite D1. by rewrite lookup_insert_ne.
      * intros q e Iq Eq. destruct (decide (q = p)) as [->|Nq].
        -- rewrite Ed in Eq. injection Eq as <-. exists d1. split; [|done]. rewrite D2 by done.
           by rewrite D1, lookup_insert_eq.
        -- apply elem_of_cons in Iq as [->|Iq]; [done|]. apply D2'; [done|]. by rewrite D1, lookup_insert_ne.
    + intros j Nj. rewrite B2' by done. rewrite E1. unfold buckets at 1. rewrite lists_set, decide_False; [done|naive_solver].
Qed.

(** A batch off the wheel is merged into its bucket. *)
Lemma merge_inv ph r s v batch nb :
  inv (Phase (floor_tick ph) (waiting ph) batch (dying ph)) s v → hist r s → off_wheel ph = [] → NoDup batch →
  (∀ q d, q ∈ batch → data (mem s) !! q = Some d → element d = nb
     ∧ (placed_at (next_tick s) d ∨ placed_at (floor_tick ph) d)) →
  let before := nevent_sorts_before (ne_event_tick s) in
  let sorted := std_sort (sorts_before before (data (mem s))) batch in
  ∃ m v', nevent_merge_sorted_batch before sorted nb (mem s) = Some m
    ∧ inv ph (with_mem m s) v' ∧ hist r (with_mem m s) ∧ data m = data (mem s)
    ∧ (∀ j, j ≠ nb → buckets v' j = buckets v j) ∧ buckets v' nb ≡ₚ batch ++ buckets v nb.
Proof.
  intros I H Of Nd Ba before sorted.
  assert (sorted ≡ₚ batch) as Pm by apply std_sort_perm.
  assert (∀ q, q ∈ batch → ∃ d, data (mem s) !! q = Some d ∧ used d = true) as V by apply (i_off _ _ _ I).
  assert (∀ q, q ∈ sorted → loose v Sched q ∧ is_Some (events (mem s) !! q)) as Lo.
  { intros q Iq. rewrite Pm in Iq. destruct (V q Iq) as (d & Ed & U). split; [split|].
    - rewrite (i_free _ _ _ I q d Ed), U. done.
    - intros k B. apply (i_wheel _ _ _ I) in B as [B _]. done.
    - destruct (lookup_data _ _ _ Ed) as (n & En & _). eauto. }
  assert (NoDup sorted) as Nds by by rewrite Pm.
  destruct (merge_sorted_batch_spec before sorted nb (mem s) v (i_rep _ _ _ I) Nds Lo) as (m & E & R & D & P).
  set (l := merge_lists _ sorted (buckets v nb)) in R.
  exists m, (set_list Sched nb l v). split; [done|].
  assert (l ≡ₚ batch ++ buckets v nb) as Pl by (unfold l; by rewrite merge_lists_perm, Pm).
  assert (∀ k, buckets (set_list Sched nb l v) k = if decide (k = nb) then l else buckets v k) as Bu.
  { intros k. unfold buckets at 1. rewrite lists_set. destruct (decide (k = nb)) as [->|N].
    - by rewrite decide_True.
    - rewrite decide_False; [done|naive_solver]. }
  split; [|split; [by eapply hist_same|split; [done|split]]].
  2: { intros j Nj. rewrite Bu. by rewrite decide_False. }
  2: { rewrite Bu. by rewrite decide_True. }
  assert (∀ p q, p ∈ batch ++ buckets v nb → q ∈ batch ++ buckets v nb →
    if sorts_before before (data (mem s)) p q then due_le (data (mem s)) p q else due_le (data (mem s)) q p) as So.
  { assert (∀ p, p ∈ batch ++ buckets v nb → ∃ d, data (mem s) !! p = Some d) as Va.
    { intros p Ip. apply elem_of_app in Ip as [Ip|Ip]; [destruct (V p Ip) as (d & Ed & _); eauto|].
      apply (i_wheel _ _ _ I) in Ip as (_ & d & Ed & _). eauto. }
    intros p q Ip Iq. destruct (Va p Ip) as [d Ed], (Va q Iq) as [e Ee]. unfold sorts_before. rewrite Ed, Ee.
    destruct (before d e) eqn:Bf; intros d1 e1 E1 E2; [apply before_due in Bf|apply not_before_due in Bf]; congruence. }
  assert (StronglySorted (due_le (data (mem s))) l) as Sl.
  { unfold l. apply (merge_due _ _ (batch ++ buckets v nb)).
    - intros p q Ip Iq L. specialize (So p q Ip Iq). by rewrite L in So.
    - intros p q Ip Iq L. specialize (So p q Ip Iq). by rewrite L in So.
    - intros p Ip. apply elem_of_app in Ip as [Ip|Ip]; [destruct (V p Ip) as (d & Ed & _); eauto|].
      apply (i_wheel _ _ _ I) in Ip as (_ & d & Ed & _). eauto.
    - intros q Iq. rewrite Pm in Iq. done.
    - apply (std_sort_due _ _ (batch ++ buckets v nb)).
      + intros p q Ip Iq L. specialize (So p q Ip Iq). by rewrite L in So.
      + intros p q Ip Iq L. specialize (So p q Ip Iq). by rewrite L in So.
      + intros p Ip. apply elem_of_app in Ip as [Ip|Ip]; [destruct (V p Ip) as (d & Ed & _); eauto|].
        apply (i_wheel _ _ _ I) in Ip as (_ & d & Ed & _). eauto.
      + intros q Iq. apply elem_of_app. by left.
    - apply I. }
  destruct I. split; cbn [mem with_mem]; change (mem (with_mem m s)) with m; rewrite ?D; try done.
  - intros w k p Nw. rewrite lists_set, decide_False by naive_solver. by apply i_owners.
  - intros k p. rewrite Bu, Of. destruct (decide (k = nb)) as [->|N].
    + rewrite Pl, elem_of_app, i_wheel. cbn [off_wheel]. split.
      * intros [Ip|[_ B]]; (split; [apply not_elem_of_nil|]); [|done].
        destruct (V p Ip) as (d & Ed & U). exists d. split; [done|]. unfold key. rewrite U.
        by destruct (Ba p d Ip Ed) as [-> _].
      * intros [_ B]. destruct (decide (p ∈ batch)); [by left|by right].
    + rewrite i_wheel. cbn [off_wheel]. split.
      * intros [_ B]. split; [apply not_elem_of_nil|done].
      * intros [_ (d & Ed & K)]. split; [|eauto]. intros Ip. destruct (Ba p d Ip Ed) as [El _].
        unfold key in K. destruct (used d); [|done]. congruence.
  - intros p d Ed U _. destruct (decide (p ∈ batch)) as [Ip|N]; [by apply (Ba p d Ip Ed)|].
    by apply (i_placed p d Ed U).
  - intros p. rewrite Of. by intros X%not_elem_of_nil.
  - rewrite P. apply i_objs.
  - intros k. rewrite Bu. destruct (decide (k = nb)) as [->|N]; [done|apply i_sorted].
Qed.

(** ** The loop *)

Definition in_pass (s : scheduler) : phase :=
  Phase (ne_event_tick s) (nevent_pending_cancellations s) [] [].

(** The loop stands before [suf] of the bucket, past [pre].  [ps] is the last sequence of the
    events that were there when the pass began. *)
Record passing (ps : Z) (s : scheduler) (v : view) (pre suf : list ptr) : Prop := {
  pg_inv : inv (in_pass s) s v;
  pg_hist : hist None s;
  pg_after : after_events_call s = true;
  pg_split : buckets v (pulse s) = pre ++ suf;
  pg_pre q d : q ∈ pre → data (mem s) !! q = Some d →
    lifecycle_state d = cancel_pending ∨ ne_event_tick s < due_tick d;
  pg_new q d : data (mem s) !! q = Some d → used d = true → ps < sequence d → ne_event_tick s < due_tick d;
  pg_placed q d : data (mem s) !! q = Some d → used d = true →
    placed_at (ne_event_tick s) d ∨ ne_event_tick s < due_tick d;
  pg_order q due : Ran q due (ne_event_tick s) ∈ log s → ∀ p d, p ∈ suf → data (mem s) !! p = Some d →
    due ≤ due_tick d;
}.

(** The loop is over. *)
Record passed (s : scheduler) (v : view) : Prop := {
  pd_inv : inv (in_pass s) s v;
  pd_hist : hist None s;
  pd_after : after_events_call s = true;
  pd_done p d : data (mem s) !! p = Some d → lifecycle_state d = active → placed_at (ne_event_tick s + 1) d;
}.

Lemma placed_later T d : placed_at T d → T < due_tick d → placed_at (T + 1) d.
Proof. intros [C [(E & Du)|(P & Du & E)]] L; [|lia]. split; [lia|]. left. split; [done|lia]. Qed.

Lemma next_tick_after s : after_events_call s = true → next_tick s = ne_event_tick s + 1.
Proof. intros A. unfold next_tick. by rewrite A. Qed.

(** An event not yet placed for the next tick is in the bucket of the pass. *)
Lemma not_seen s v p d :
  inv (in_pass s) s v → after_events_call s = true → data (mem s) !! p = Some d → used d = true →
  placed_at (ne_event_tick s + 1) d
  ∨ element d = pulse s ∧ deferral_count d ≤ ne_event_tick s ∧ due_tick d ≤ ne_event_tick s.
Proof.
  intros I A Ed U. destruct (i_placed _ _ _ I p d Ed U) as [P|P]; [by apply not_elem_of_nil|..].
  - left. by rewrite next_tick_after in P.
  - cbn [floor_tick in_pass] in P. destruct (Z.ltb_spec (ne_event_tick s) (due_tick d)); [left; by apply placed_later|].
    right. rewrite (i_pulse _ _ _ I). destruct P as [C [(E & Du)|(Pd & Du & E)]]; [|done].
    split; [|lia]. rewrite E. f_equal. lia.
Qed.

Lemma bucket_next t : nevent_bucket_for_tick (t + 1) ≠ nevent_bucket_for_tick t.
Proof.
  unfold nevent_bucket_for_tick, PULSES_IN_TICK. intros E.
  pose proof (Z.div_mod (t + 1) 300 ltac:(lia)). pose proof (Z.div_mod t 300 ltac:(lia)). lia.
Qed.

Lemma in_bucket ph s v k p d :
  inv ph s v → p ∈ buckets v k → data (mem s) !! p = Some d → used d = true ∧ element d = k.
Proof.
  intros I B Ed. apply (i_wheel _ _ _ I) in B as (_ & e & Ee & K). rewrite Ed in Ee. injection Ee as <-.
  unfold key in K. destruct (used d); [|done]. by injection K as ->.
Qed.

Lemma used_cases ph s v p d :
  inv ph s v → dying ph = [] → data (mem s) !! p = Some d → used d = true →
  lifecycle_state d = active ∧ is_Some (func d) ∨ lifecycle_state d = cancel_pending ∧ func d = None.
Proof.
  intros I Dy Ed U. pose proof (i_used _ _ _ I p d Ed U) as Ok.
  destruct (lifecycle_state d) eqn:L; try by (unfold used in U; rewrite L in U).
  - left. split; [done|]. by apply Ok.
  - right. split; [done|]. by apply Ok.
  - apply (i_dying _ _ _ I p d Ed) in L. rewrite Dy in L. by apply not_elem_of_nil in L.
Qed.

Lemma passing_none ps s v pre p d :
  passing ps s v pre [] → data (mem s) !! p = Some d → lifecycle_state d = active → ne_event_tick s < due_tick d.
Proof.
  intros P Ed Ac. pose proof (pg_inv _ _ _ _ _ P) as I. pose proof (event_used_lookup d Ac) as U.
  destruct (pg_placed _ _ _ _ _ P p d Ed U) as [Pl|]; [|done].
  destruct (Z.ltb_spec (ne_event_tick s) (due_tick d)) as [|Du]; [done|exfalso].
  assert (element d = pulse s) as El.
  { rewrite (i_pulse _ _ _ I). destruct Pl as [_ [(E & X)|(_ & _ & E)]]; [|done]. rewrite E. f_equal. lia. }
  assert (p ∈ buckets v (pulse s)) as B.
  { apply (i_wheel _ _ _ I). split; [apply not_elem_of_nil|]. exists d. split; [done|]. unfold key. by rewrite U, El. }
  rewrite (pg_split _ _ _ _ _ P), app_nil_r in B. destruct (pg_pre _ _ _ _ _ P p d B Ed) as [L|L]; [congruence|lia].
Qed.

Lemma passing_end ps s v pre : passing ps s v pre [] → passed s v.
Proof.
  intros P. split; try apply P. intros p d Ed Ac. pose proof (pg_inv _ _ _ _ _ P) as I.
  pose proof (event_used_lookup d Ac) as U.
  destruct (not_seen s v p d I (pg_after _ _ _ _ _ P) Ed U) as [|(El & Dc & Du)]; [done|].
  assert (p ∈ buckets v (pulse s)) as B.
  { apply (i_wheel _ _ _ I). split; [apply not_elem_of_nil|]. exists d. split; [done|]. unfold key. by rewrite U, El. }
  rewrite (pg_split _ _ _ _ _ P), app_nil_r in B. destruct (pg_pre _ _ _ _ _ P p d B Ed) as [L|L]; [congruence|lia].
Qed.

Lemma defer_suffix_passed ps s v pre suf :
  passing ps s v pre suf →
  holds (λ s', ∃ v', passed s' v' ∧ keeps s s') (nevent_defer_suffix (first suf None) s).
Proof.
  intros P. destruct suf as [|q suf]; [exists v; split; [by eapply passing_end|done]|].
  pose proof (pg_inv _ _ _ _ _ P) as I. pose proof (i_tick _ _ _ I) as Tk.
  set (l := q :: suf) in *. unfold nevent_defer_suffix. change (first l None) with (Some q) at 1. cbv iota beta.
  assert (nevent_add_ticks (ne_event_tick s) 1 = ne_event_tick s + 1) as ->.
  { unfold nevent_add_ticks, MAX_TICK, ULLONG_MAX in *. destruct (Z.ltb_spec (2 ^ 64 - 1 - ne_event_tick s) 1); lia. }
  set (nb := nevent_bucket_for_tick (ne_event_tick s + 1)). cbv zeta.
  assert (nb ≠ pulse s) as Nb by (rewrite (i_pulse _ _ _ I); apply bucket_next).
  destruct (due_prefix_spec _ s v (pulse s) I (size (events (mem s))) pre l (pg_split _ _ _ _ _ P))
    as (batch & rest & -> & El & Du & Fu).
  { pose proof (bucket_bound _ v Sched (pulse s) (i_rep _ _ _ I)) as Bd. change (lists v Sched (pulse s)) with (buckets v (pulse s)) in Bd.
    rewrite (pg_split _ _ _ _ _ P), length_app in Bd. lia. }
  cbn [bind_outcome].
  assert (buckets v (pulse s) = pre ++ batch ++ rest) as B by by rewrite (pg_split _ _ _ _ _ P), El.
  assert (∀ p d, p ∈ batch → data (mem s) !! p = Some d →
    used d = true ∧ element d = pulse s ∧ deferral_count d ≤ ne_event_tick s ∧ due_tick d ≤ ne_event_tick s) as Bt.
  { intros p d Ip Ed. destruct (in_bucket _ _ _ (pulse s) p d I) as [U E]; [rewrite B; set_solver|done|].
    destruct (Du p Ip) as (e & Ee & Le). rewrite Ed in Ee. injection Ee as <-.
    split; [done|]. split; [done|]. destruct (not_seen s v p d I (pg_after _ _ _ _ _ P) Ed U) as [Pl|(_ & Dc & _)]; [|done].
    exfalso. destruct Pl as [_ [(_ & X)|(_ & _ & X)]]; [lia|]. rewrite E in X. by apply Nb. }
  destruct (defer_all_inv None nb (pulse s) batch _ s v pre rest I (pg_hist _ _ _ _ _ P) B)
    as (s1 & v1 & O1 & I1 & H1 & K1 & [D1 D1'] & B1 & B1').
  { intros p d Ip Ed. by apply (Bt p d). }
  rewrite O1. cbn [bind_outcome]. rewrite app_nil_r in I1.
  pose proof (clock_tick _ _ (keeps_clock _ _ K1)) as T1. pose proof (next_tick_clock _ _ (keeps_clock _ _ K1)) as N1.
  assert (∀ p d', p ∈ batch → data (mem s1) !! p = Some d' → element d' = nb ∧ placed_at (ne_event_tick s + 1) d') as Pl.
  { intros p d' Ip Ed'. destruct (Du p Ip) as (d & Ed & _). destruct (D1' p d Ip Ed) as (d2 & E2 & Po).
    rewrite Ed' in E2. injection E2 as <-. destruct (Bt p d Ip Ed) as (U & _ & Dc & Le).
    pose proof (used_count _ (i_used _ _ _ I p d Ed U)).
    split; [apply Po|]. split; [rewrite (off_count _ _ _ Po); lia|]. right.
    rewrite (off_count _ _ _ Po), (off_due _ _ _ Po), (off_element _ _ _ Po). split; [lia|]. split; [lia|done]. }
  destruct (merge_inv (in_pass s) None s1 v1 batch nb) as (m & v2 & O2 & I2 & H2 & D2 & B2 & B2').
  - eapply inv_weaken; [exact I1|done| |done|done]. intros p. cbn. by rewrite reverse_Permutation.
  - done.
  - done.
  - pose proof (rep_listed _ _ (i_rep _ _ _ I) Sched (pulse s)) as [_ _ _ Nd].
    change (lists v Sched (pulse s)) with (buckets v (pulse s)) in Nd. rewrite B in Nd.
    apply NoDup_app in Nd as (_ & _ & Nd). by apply NoDup_app in Nd as (Nd & _).
  - intros p d Ip Ed. destruct (Pl p d Ip Ed) as [E Pd]. split; [done|]. left.
    rewrite N1, next_tick_after by apply P. done.
  - rewrite O2. cbn [bind_outcome holds]. exists v2. split; [|by transitivity s1].
    split.
    + assert (in_pass (with_mem m s1) = in_pass s) as ->.
      { unfold in_pass. change (ne_event_tick (with_mem m s1)) with (ne_event_tick s1).
        change (nevent_pending_cancellations (with_mem m s1)) with (nevent_pending_cancellations s1).
        by rewrite T1, (keeps_cancels _ _ K1). }
      exact I2.
    + exact H2.
    + change (after_events_call s1 = true). rewrite (clock_after _ _ (keeps_clock _ _ K1)). apply P.
    + intros p d' Ed' Ac. change (ne_event_tick (with_mem m s1)) with (ne_event_tick s1). rewrite T1.
      change (data m !! p = Some d') in Ed'. rewrite D2 in Ed'.
      destruct (decide (p ∈ batch)) as [Ip|Ip]; [by apply (Pl p d' Ip)|].
      rewrite D1 in Ed' by done. pose proof (event_used_lookup d' Ac) as U.
      destruct (not_seen s v p d' I (pg_after _ _ _ _ _ P) Ed' U) as [|(E & Dc & Le)]; [done|]. exfalso.
      assert (p ∈ buckets v (pulse s)) as Bp.
      { apply (i_wheel _ _ _ I). split; [apply not_elem_of_nil|]. exists d'. split; [done|]. unfold key. by rewrite U, E. }
      rewrite B, !elem_of_app in Bp. destruct Bp as [Bp|[Bp|Bp]]; [|done|].
      * destruct (pg_pre _ _ _ _ _ P p d' Bp Ed') as [L|L]; [congruence|lia].
      * pose proof (Fu p d' Bp Ed'). lia.
Qed.

(** A list has grown inside; the place before what followed is found again. *)
Lemma resplit (pre suf l : list ptr) :
  NoDup l → sublist (pre ++ suf) l →
  ∃ pre' suf', l = pre' ++ suf' ∧ first suf' None = first suf None ∧ (length pre ≤ length pre')%nat
    ∧ (∀ x, x ∈ pre' → x ∈ pre ∨ x ∉ pre ++ suf) ∧ (∀ x, x ∈ suf' → x ∈ suf ∨ x ∉ pre ++ suf).
Proof.
  intros N S. destruct suf as [|q suf].
  - exists l, []. rewrite !app_nil_r in *. split; [done|]. split; [done|]. split; [by apply sublist_length|].
    split; [|by intros x X%not_elem_of_nil]. intros x _. destruct (decide (x ∈ pre)); [by left|by right].
  - apply sublist_app_l in S as (k1 & k2 & -> & S1 & S2). apply sublist_cons_l in S2 as (k21 & k22 & -> & S2).
    exists (k1 ++ k21), (q :: k22). rewrite <- app_assoc. split; [done|]. split; [done|].
    split; [rewrite length_app; apply sublist_length in S1; lia|].
    assert (∀ x, x ∈ suf → x ∈ k22) as I2 by (intros x Ix; by eapply elem_of_sublist).
    assert (∀ x, x ∈ pre → x ∈ k1) as I1 by (intros x Ix; by eapply elem_of_sublist).
    apply NoDup_app in N as (_ & D1 & N). apply NoDup_app in N as (_ & D2 & N).
    split; intros x Ix.
    + destruct (decide (x ∈ pre)) as [|Np]; [by left|right]. intros J. apply elem_of_app in J as [J|J]; [done|].
      assert (x ∈ q :: k22) as J' by (apply elem_of_cons in J as [->|J]; [by left|right; by apply I2]).
      apply elem_of_app in Ix as [Ix|Ix]; [apply (D1 x Ix); apply elem_of_app; by right|by apply (D2 x Ix)].
    + destruct (decide (x ∈ q :: suf)) as [|Ns]; [by left|right]. intros J. apply elem_of_app in J as [J|J]; [|done].
      apply (D1 x (I1 x J)). apply elem_of_app. by right.
Qed.

Lemma ran_due l q due tick : chronicle l → Ran q due tick ∈ l → due ≤ tick.
Proof.
  induction l as [|n l IH]; intros C R; [by apply not_elem_of_nil in R|]. destruct C as [C1 C2].
  apply elem_of_cons in R as [<-|R]; [tauto|by apply IH].
Qed.
Lemma sorted_suffix {A} (R : A → A → Prop) l1 l2 : StronglySorted R (l1 ++ l2) → StronglySorted R l2.
Proof. induction l1 as [|x l1 IH]; intros S; [done|]. apply IH. by apply StronglySorted_inv in S as [S _]. Qed.

Definition work (replies : list reply) : nat := sum_list (length ∘ requests <$> replies).

Definition reply_ok (r : reply) : Prop := Forall request_ok (requests r) ∧ callback_us r ≤ MAX_COST.

Lemma passing_current ps s v pre suf c : passing ps s v pre suf → passing ps {s with current_nevent := c} v pre suf.
Proof.
  intros []. split; try done.
  - change (in_pass {s with current_nevent := c}) with (in_pass s). by destruct pg_inv0.
  - by destruct pg_hist0.
Qed.

(** What the loop keeps of the clock. *)
Record same_pass (s s' : scheduler) : Prop := {
  sp_tick : ne_event_tick s' = ne_event_tick s;
  sp_after : after_events_call s' = after_events_call s;
  sp_pulse : pulse s' = pulse s;
}.
#[export] Instance same_pass_preorder : PreOrder same_pass.
Proof. split; [by split|]. intros s1 s2 s3 [A1 A2 A3] [B1 B2 B3]. split; congruence. Qed.
Lemma clock_pass s s' : same_clock s s' → same_pass s s'.
Proof. intros [A B C D E]. by split. Qed.

(** What a step of the loop does to the events: those due stay as they are or are cancelled. *)
Definition later (s s' : scheduler) : Prop :=
  ∀ q d', data (mem s') !! q = Some d' → used d' = true →
    ne_event_tick s < due_tick d'
    ∨ ∃ d, data (mem s) !! q = Some d ∧ used d = true ∧ sequence d' = sequence d ∧ due_tick d' = due_tick d
        ∧ element d' = element d ∧ deferral_count d' = deferral_count d
        ∧ (lifecycle_state d = cancel_pending → lifecycle_state d' = cancel_pending).

Lemma passing_next ps s v pre p suf s' v' pre1 suf1 :
  passing ps s v pre (p :: suf) → inv (in_pass s') s' v' → hist None s' → same_pass s s' →
  buckets v' (pulse s) = pre1 ++ suf1 → later s s' →
  (∀ q d', q ∈ pre1 → data (mem s') !! q = Some d' →
     q ∈ pre ∨ lifecycle_state d' = cancel_pending ∨ ne_event_tick s < due_tick d') →
  (∀ q d', q ∈ suf1 → data (mem s') !! q = Some d' → q ∈ suf ∨ ne_event_tick s < due_tick d') →
  (∀ q due, Ran q due (ne_event_tick s) ∈ log s' → Ran q due (ne_event_tick s) ∈ log s
     ∨ ∃ d, data (mem s) !! p = Some d ∧ due = due_tick d) →
  passing ps s' v' pre1 suf1.
Proof.
  intros P I H [T A Pu] B L Lp Ls Lr. split; [done|done| |by rewrite Pu|..].
  - rewrite A. apply P.
  - intros q d' Iq Ed'. rewrite T. destruct (Lp q d' Iq Ed') as [Ip|]; [|done].
    destruct (in_bucket _ _ _ (pulse s) q d' I) as [U _]; [rewrite B; set_solver|done|].
    destruct (L q d' Ed' U) as [|(d & Ed & _ & _ & -> & _ & _ & C)]; [by right|].
    destruct (pg_pre _ _ _ _ _ P q d Ip Ed) as [X|X]; [left; by apply C|by right].
  - intros q d' Ed' U Sq. rewrite T. destruct (L q d' Ed' U) as [|(d & Ed & Ud & E1 & -> & _)]; [done|].
    apply (pg_new _ _ _ _ _ P q d Ed Ud). lia.
  - intros q d' Ed' U. rewrite T. destruct (L q d' Ed' U) as [|(d & Ed & Ud & _ & E1 & E2 & E3 & _)]; [by right|].
    unfold placed_at. rewrite E1, E2, E3. by apply (pg_placed _ _ _ _ _ P q d).
  - intros q due R x d' Ix Ed'. rewrite T in R.
    destruct (in_bucket _ _ _ (pulse s) x d' I) as [U _]; [rewrite B; set_solver|done|].
    assert (due ≤ ne_event_tick s) as Le by by eapply ran_due; [apply H|].
    destruct (Ls x d' Ix Ed') as [Is|]; [|lia].
    destruct (L x d' Ed' U) as [|(d & Ed & _ & _ & -> & _)]; [lia|].
    destruct (Lr q due R) as [R0|(d0 & E0 & ->)].
    + apply (pg_order _ _ _ _ _ P q due R0 x d); [by right|done].
    + pose proof (i_sorted _ _ _ (pg_inv _ _ _ _ _ P) (pulse s)) as S. rewrite (pg_split _ _ _ _ _ P) in S.
      apply sorted_suffix in S. apply StronglySorted_inv in S as [_ F]. rewrite Forall_forall in F.
      by apply (F x Is).
Qed.

(** ** The history of a callback *)

Lemma hist_idle s p :
  hist (Some p) s → (∀ d, data (mem s) !! p = Some d → lifecycle_state d ≠ active) → hist None s.
Proof.
  intros [C Ra Ac Ca Ke Pa] N. split; try done. intros q d Ed L. destruct (Ac q d Ed L) as [A1 A2].
  split; [done|]. intros due tick R. specialize (A2 due tick R). injection A2 as ->. by destruct (N d Ed).
Qed.

Lemma hist_run ph s v p d :
  inv ph s v → hist None s → after_events_call s = true → data (mem s) !! p = Some d →
  lifecycle_state d = active → due_tick d ≤ ne_event_tick s →
  (∀ q due, Ran q due (ne_event_tick s) ∈ log s → due ≤ due_tick d) →
  hist (Some p) (tell (Ran (sequence d) (due_tick d) (ne_event_tick s)) s).
Proof.
  intros I [C Ra Ac Ca Ke Pa] Af Ed L Du Or. pose proof (event_used_lookup d L) as U.
  pose proof (i_used _ _ _ I p d Ed U) as Ok. pose proof (i_sequences _ _ _ I p d Ed) as Sq.
  pose proof (used_sequence _ Ok) as Sq1. destruct (Ac p d Ed L) as [Nc Nr].
  assert (next_tick s = ne_event_tick s + 1) as Nt by by apply next_tick_after.
  set (n := Ran (sequence d) (due_tick d) (ne_event_tick s)). change (log (tell n s)) with (n :: log s).
  split; change (log (tell n s)) with (n :: log s); change (ne_event_sequence (tell n s)) with (ne_event_sequence s);
    change (next_tick (tell n s)) with (next_tick s); change (mem (tell n s)) with (mem s).
  - cbn [chronicle]. unfold n at 1. split; [|done]. split; [done|]. split; [done|]. split.
    + intros due tick R. by apply Nr in R.
    + intros q due tick R. pose proof (Ra q due tick R) as [_ Lt]. split; [lia|]. intros ->. by apply (Or q).
  - intros q due tick R. apply elem_of_cons in R as [E|R]; [|by apply (Ra q due tick)].
    injection E as -> _ ->. lia.
  - intros q e Eq Lq. destruct (Ac q e Eq Lq) as [Nc' Nr']. split.
    + intros X. apply elem_of_cons in X as [X|X]; [done|by apply Nc'].
    + intros due tick R. apply elem_of_cons in R as [E|R]; [|by apply Nr' in R].
      injection E as E _ _. f_equal. apply (i_distinct _ _ _ I p q d e); try done; by apply event_used_lookup.
  - intros q X. apply elem_of_cons in X as [X|X]; [done|by apply Ca].
  - intros q B. destruct (Ke q B) as [X|[(due & tick & X)|X]]; [by left|right; left|right; right].
    + exists due, tick. by right.
    + by right.
  - intros z. rewrite was_handed_cons, was_destroyed_cons. do 2 (rewrite bool_decide_eq_false_2 by done). apply Pa.
Qed.

(** ** The three ways of a step *)

Lemma later_refl s s' : data (mem s') = data (mem s) → later s s'.
Proof. intros E q d Eq U. right. exists d. rewrite <- E. done. Qed.

Lemma passing_head ps s v pre p suf :
  passing ps s v pre (p :: suf) → ∃ d, data (mem s) !! p = Some d ∧ used d = true ∧ element d = pulse s.
Proof.
  intros P. assert (p ∈ buckets v (pulse s)) as B by (rewrite (pg_split _ _ _ _ _ P); set_solver).
  pose proof (pg_inv _ _ _ _ _ P) as I. pose proof B as B'. apply (i_wheel _ _ _ I) in B as (_ & d & Ed & _).
  exists d. split; [done|]. by eapply in_bucket.
Qed.

Lemma passing_NoDup ps s v pre suf : passing ps s v pre suf → NoDup (pre ++ suf).
Proof.
  intros P. pose proof (rep_listed _ _ (i_rep _ _ _ (pg_inv _ _ _ _ _ P)) Sched (pulse s)) as [_ _ _ Nd].
  change (lists v Sched (pulse s)) with (buckets v (pulse s)) in Nd. by rewrite (pg_split _ _ _ _ _ P) in Nd.
Qed.

(** An event not due, or with nothing to run, is passed over. *)
Lemma passing_skip ps s v pre p suf :
  passing ps s v pre (p :: suf) →
  (∀ d, data (mem s) !! p = Some d → lifecycle_state d = cancel_pending ∨ ne_event_tick s < due_tick d) →
  passing ps s v (pre ++ [p]) suf.
Proof.
  intros P N. eapply (passing_next ps s v pre p suf s v); try apply P; try done.
  - by rewrite <- app_assoc; apply P.
  - by apply later_refl.
  - intros q d Iq Eq. apply elem_of_app in Iq as [Iq|Iq]; [by left|right].
    apply list_elem_of_singleton in Iq as ->. by apply N.
  - intros q d Iq _. by left.
  - intros q due R. by left.
Qed.

(** Fewer reschedules wait. *)
Lemma passing_waits ps s v pre suf m :
  passing ps s v pre suf → m ⊆ nevent_pending_reschedules s →
  passing ps {s with nevent_pending_reschedules := m} v pre suf.
Proof.
  intros [] Sub. set (s' := {s with nevent_pending_reschedules := m}). split; try done.
  - change (in_pass s') with (in_pass s). destruct pg_inv0. split; try done.
    intros p seq due E. apply (i_moves p seq due). by eapply lookup_weaken.
  - by destruct pg_hist0.
Qed.

(** The event is moved. *)
Lemma passing_moved ps s v pre p suf s' v' d due :
  passing ps s v pre (p :: suf) → inv (in_pass s) s' v' → hist None s' → log s' = log s →
  data (mem s) !! p = Some d → used d = true → element d = pulse s → ne_event_tick s < due →
  moved s s' v v' p d due →
  ∃ pre1 suf1, passing ps s' v' pre1 suf1 ∧ first suf1 None = first suf None
    ∧ (length suf1 ≤ S (length suf))%nat.
Proof.
  intros P I H Lg Ed U El Du [K (d' & D & Dd & Dl & Dq & _) (l1 & l2 & W & Bu)].
  pose proof (passing_NoDup _ _ _ _ _ P) as Nd. pose proof (keeps_clock _ _ K) as Cl.
  assert (without p (buckets v (pulse s)) = pre ++ suf) as Wo.
  { rewrite (pg_split _ _ _ _ _ P). by apply without_middle. }
  cbv zeta in W. 
  assert (sublist (pre ++ suf) (buckets v' (pulse s)) ∧ (length (buckets v' (pulse s)) ≤ S (length (pre ++ suf)))%nat)
    as [Sb Ln].
  { rewrite Bu. destruct (decide (pulse s = nevent_bucket_for_tick due)) as [E|E].
    - rewrite <- E, decide_True, Wo in W by done. rewrite W. split; [apply sublist_insert|].
      rewrite !length_app. cbn. lia.
    - rewrite decide_True, Wo by done. split; [done|lia]. }
  assert (NoDup (buckets v' (pulse s))) as Nd'.
  { by pose proof (rep_listed _ _ (i_rep _ _ _ I) Sched (pulse s)) as [_ _ _ X]. }
  destruct (resplit pre suf _ Nd' Sb) as (pre1 & suf1 & E1 & Fi & Lp & Ip & Is).
  exists pre1, suf1. split; [|split; [done|]].
  2: { rewrite E1, !length_app in Ln. lia. }
  assert (∀ x d', x ∉ pre ++ suf → x ∈ buckets v' (pulse s) → data (mem s') !! x = Some d' → ne_event_tick s < due_tick d') as New.
  { intros x e Nx Ix Ex. assert (x = p) as ->.
    { rewrite Bu in Ix. destruct (decide (pulse s = nevent_bucket_for_tick due)) as [E|E].
      - rewrite <- E, decide_True, Wo in W by done. rewrite W in Nx. set_solver.
      - rewrite decide_True, Wo in Ix by done. done. }
    rewrite D, lookup_insert_eq in Ex. injection Ex as <-. lia. }
  eapply (passing_next ps s v pre p suf); try done.
  - assert (in_pass s' = in_pass s) as ->; [|done]. unfold in_pass.
    by rewrite (clock_tick _ _ Cl), (keeps_cancels _ _ K).
  - by apply clock_pass.
  - intros q e Eq Uq. rewrite D in Eq. destruct (decide (q = p)) as [->|N].
    + rewrite lookup_insert_eq in Eq. injection Eq as <-. left. lia.
    + rewrite lookup_insert_ne in Eq by done. right. by exists e.
  - intros x e Ix Ex. destruct (Ip x Ix) as [X|X]; [by left|right; right].
    apply (New x); [done|rewrite E1; set_solver|done].
  - intros x e Ix Ex. destruct (Is x Ix) as [X|X]; [by left|right].
    apply (New x); [done|rewrite E1; set_solver|done].
  - intros q due0. rewrite Lg. by left.
Qed.

(** ** A callback *)

Lemma callback_cost_inv ph s v us :
  inv ph s v → us ≤ MAX_COST → inv ph (nevent_record_callback_cost us s) v.
Proof.
  intros [] Le. unfold nevent_record_callback_cost. cbv zeta.
  set (avg := nevent_avg_callback_us s) in *. set (u := Z.max 1 us).
  assert (1 ≤ Z.max 1 (if avg <? 1 then u else avg + Z.shiftr (u - avg) NEVENT_CALLBACK_EWMA_SHIFT) ≤ MAX_COST) as A.
  { destruct (Z.ltb_spec avg 1); [lia|]. change NEVENT_CALLBACK_EWMA_SHIFT with 4.
    rewrite Z.shiftr_div_pow2 by done. change (2 ^ 4) with 16.
    pose proof (Z.div_mod (u - avg) 16 ltac:(lia)). pose proof (Z.mod_pos_bound (u - avg) 16 ltac:(lia)).
    unfold MAX_COST in *. lia. }
  by split.
Qed.
Lemma callback_cost_hist r s us : hist r s → hist r (nevent_record_callback_cost us s).
Proof. by intros []. Qed.

Lemma without_app p l1 l2 : without p (l1 ++ l2) = without p l1 ++ without p l2.
Proof. apply filter_app. Qed.

Lemma map_size_delete_le {A} (m : gmap ptr A) p : (size (delete p m) ≤ size m)%nat.
Proof. rewrite map_size_delete. destruct (m !! p); unfold id; lia. Qed.

(** What the requests of a callback leave of the events. *)
Lemma stable_later n s v s' v' : stable n s v s' v' → after_events_call s = true → later s s'.
Proof.
  intros S A q d' Ed' U. pose proof (next_tick_after s A) as Nt.
  destruct (st_new _ _ _ _ _ S q d' Ed' U) as [(d & Ed & Ud)|[Du _]]; [right|left; lia].
  destruct (st_events _ _ _ _ _ S q d Ed Ud) as (e & Ee & _ & Sq & Du & El & Dc & L).
  rewrite Ed' in Ee. injection Ee as <-. exists d. repeat (split; [done|]). intros C.
  destruct L as [[-> _]|[L _]]; congruence.
Qed.

Lemma stable_fresh ph ph' n s v s' v' k x d' :
  stable n s v s' v' → inv ph s v → off_wheel ph = [] → inv ph' s' v' → after_events_call s = true →
  x ∈ buckets v' k → x ∉ buckets v k → data (mem s') !! x = Some d' → ne_event_tick s < due_tick d'.
Proof.
  intros S I Of I' A Ix Nx Ed'. destruct (in_bucket _ _ _ k x d' I' Ix Ed') as [U El].
  pose proof (next_tick_after s A) as Nt.
  destruct (st_new _ _ _ _ _ S x d' Ed' U) as [(d & Ed & Ud)|[Du _]]; [exfalso|lia].
  destruct (st_events _ _ _ _ _ S x d Ed Ud) as (e & Ee & _ & _ & _ & E2 & _).
  rewrite Ed' in Ee. injection Ee as <-. apply Nx. apply (i_wheel _ _ _ I). rewrite Of.
  split; [apply not_elem_of_nil|]. exists d. split; [done|]. unfold key. rewrite Ud. congruence.
Qed.

Section Callback.
Context (ps : Z) (s : scheduler) (v : view) (pre : list ptr) (p : ptr) (suf : list ptr) (d : event_data).
Context (P : passing ps s v pre (p :: suf)) (Cu : current_nevent s = Some p).
Context (Ed : data (mem s) !! p = Some d) (Ac : lifecycle_state d = active) (Le : due_tick d ≤ ne_event_tick s).

Definition told : scheduler := tell (Ran (sequence d) (due_tick d) (ne_event_tick s)) s.

Lemma told_good : good told v ∧ hist (Some p) told.
Proof.
  pose proof (pg_inv _ _ _ _ _ P) as I. split.
  - split.
    + assert (phase_of told = in_pass s) as ->; [|by apply inv_tell]. unfold phase_of, told.
      change (current_nevent (tell _ s)) with (current_nevent s). by rewrite Cu.
    + unfold told. change (current_nevent (tell _ s)) with (current_nevent s). by rewrite Cu.
    + intros _. apply P.
  - eapply hist_run; try done; try apply P. intros q due R.
    apply (pg_order _ _ _ _ _ P q due R p d); [by left|done].
Qed.

Lemma after_callback n us s2 v2 :
  asked_at n (Some p) told v s2 v2 → us ≤ MAX_COST →
  let s3 := nevent_record_callback_cost us s2 in
  ∃ d2 s4 v4 pre1 suf1, at_ptr p s3 = Done d2
    ∧ (if bool_decide (lifecycle_state d2 = cancel_pending) then Done s3 else nevent_destroy p s3) = Done s4
    ∧ passing ps s4 v4 pre1 suf1 ∧ first suf1 None = first suf None ∧ same_pass s s4
    ∧ (length suf1 + size (nevent_pending_reschedules s4)
         ≤ length suf + size (nevent_pending_reschedules s) + n)%nat
    ∧ (∀ q due t, Ran q due t ∈ log s4 → Ran q due t ∈ log told).
Proof.
  intros [G H C _ Ra St] Us s3. specialize (St ltac:(change (current_nevent told) with (current_nevent s); by rewrite Cu)).
  assert (current_nevent s2 = Some p) as Cu2 by (rewrite (clock_current _ _ C); exact Cu).
  pose proof (pg_after _ _ _ _ _ P) as Af. pose proof (pg_inv _ _ _ _ _ P) as I0.
  assert (same_pass s s3) as Sp by (split; apply C).
  assert (inv (in_pass s3) s3 v2) as I.
  { apply callback_cost_inv; [|done]. pose proof (g_inv _ _ G) as I. unfold phase_of in I. by rewrite Cu2 in I. }
  assert (hist (Some p) s3) as H3 by by apply callback_cost_hist.
  assert (stable n s v s3 v2) as S by (destruct St; by split).
  clear St G. pose proof (stable_later _ _ _ _ _ S Af) as La.
  pose proof (passing_NoDup _ _ _ _ _ P) as Nd.
  assert (buckets v (pulse s) = (pre ++ [p]) ++ suf) as Bv by (rewrite <- app_assoc; apply P).
  assert (NoDup (buckets v2 (pulse s))) as Nd2.
  { by pose proof (rep_listed _ _ (i_rep _ _ _ I) Sched (pulse s)) as [_ _ _ X]. }
  pose proof (st_buckets _ _ _ _ _ S (pulse s)) as Sb. rewrite Bv in Sb.
  destruct (resplit (pre ++ [p]) suf _ Nd2 Sb) as (pre1 & suf1 & E1 & Fi & Lp & Ip & Is).
  assert (∀ x e, x ∉ (pre ++ [p]) ++ suf → x ∈ pre1 ++ suf1 → data (mem s3) !! x = Some e → ne_event_tick s < due_tick e) as New.
  { intros x e Nx Ix Ex. rewrite <- Bv in Nx. rewrite <- E1 in Ix. by eapply (stable_fresh _ _ n s v s3 v2 (pulse s)). }
  assert (length suf1 + size (nevent_pending_reschedules s3)
    ≤ length suf + size (nevent_pending_reschedules s) + n)%nat as Wk.
  { pose proof (st_work _ _ _ _ _ S (pulse s)) as W. rewrite E1, Bv, !length_app in W. rewrite length_app in Lp. lia. }
  pose proof (event_used_lookup d Ac) as U.
  destruct (st_events _ _ _ _ _ S p d Ed U) as (d2 & E2 & U2 & Sq & Du & El & _ & Lc).
  assert (element d = pulse s) as Ep.
  { eapply (in_bucket _ s v); [done| |done]. rewrite Bv. set_solver. }
  assert (∀ q due, Ran q due (ne_event_tick s) ∈ log s3 → Ran q due (ne_event_tick s) ∈ log s
     ∨ ∃ d, data (mem s) !! p = Some d ∧ due = due_tick d) as Lr.
  { intros q due R. apply Ra in R. unfold told in R. apply elem_of_cons in R as [R|R]; [right|by left].
    injection R as _ ->. by exists d. }
  exists d2. unfold at_ptr. rewrite E2. 
  destruct (decide (lifecycle_state d2 = cancel_pending)) as [Cd|Nc].
  - rewrite bool_decide_eq_true_2 by done. exists s3, v2, pre1, suf1. split; [done|]. split; [done|].
    split; [|split; [done|split; [done|split; [done|intros q due t R; by apply Ra]]]].
    eapply (passing_next ps s v pre p suf s3 v2); try done.
    + eapply hist_idle; [exact H3|]. intros e Ee. rewrite E2 in Ee. injection Ee as <-. by rewrite Cd.
    + intros x e Ix Ex. destruct (Ip x Ix) as [X|X].
      * apply elem_of_app in X as [X|X]; [by left|]. apply list_elem_of_singleton in X as ->.
        right; left. congruence.
      * right; right. apply (New x e X); [set_solver|done].
    + intros x e Ix Ex. destruct (Is x Ix) as [X|X]; [by left|right]. apply (New x e X); [set_solver|done].
  - rewrite bool_decide_eq_false_2 by done. destruct Lc as [[Ld _]|[_ Ld]]; [|done].
    assert (is_live (lifecycle_state d2) = true) as Lv by by rewrite Ld, Ac.
    destruct (destroy_inv (in_pass s3) s3 v2 p d2 I E2 Lv) as (s4 & v4 & O & I4 & En);
      [apply not_elem_of_nil|done|].
    pose proof (end_clock _ _ _ _ _ _ En) as C4. destruct (end_data _ _ _ _ _ _ En) as (d4 & D4 & L4 & _ & _).
    assert (p ∉ suf1) as Np.
    { intros X. destruct (Is p X) as [Y|Y]; [|set_solver].
      apply NoDup_app in Nd as (_ & _ & Nd). apply NoDup_cons in Nd as [Nd _]. done. }
    exists s4, v4, (without p pre1), suf1. split; [done|]. split; [done|]. 
    assert (same_pass s s4) as Sp4 by (transitivity s3; [done|by apply clock_pass]).
    assert (∀ q due t, Ran q due t ∈ log s4 → Ran q due t ∈ log s3) as L34.
    { intros q due t R. rewrite (end_log _ _ _ _ _ _ En) in R. destruct (ev_data d2); [|done].
      apply elem_of_cons in R as [R|R]; [done|done]. }
    split; [|split; [done|split; [done|split; [|intros q due t R; by apply Ra, L34]]]].
    2: { rewrite (end_moves _ _ _ _ _ _ En). pose proof (map_size_delete_le (nevent_pending_reschedules s3) p). lia. }
    assert (∀ q e, data (mem s4) !! q = Some e → q ≠ p → data (mem s3) !! q = Some e) as D4'.
    { intros q e Eq N. by rewrite D4, lookup_insert_ne in Eq by done. }
    eapply (passing_next ps s v pre p suf s4 v4); try done.
    + eapply inv_weaken; [exact I4|by cbn; rewrite (clock_tick _ _ C4)|done| |done].
      cbn. rewrite (end_cancels _ _ _ _ _ _ En). intros h Ih. by apply list_elem_of_filter in Ih as [_ Ih].
    + eapply hist_idle.
      * eapply hist_end; [exact H3|exact E2| |exact En]. intros _. exists (due_tick d), (ne_event_tick s).
        rewrite Sq. apply Ra. by left.
      * intros e Ee. rewrite D4, lookup_insert_eq in Ee. injection Ee as <-. by rewrite L4.
    + rewrite (end_buckets _ _ _ _ _ _ En), decide_True by congruence. rewrite E1, without_app.
      by rewrite (without_none p suf1).
    + intros q e Eq Uq. destruct (decide (q = p)) as [->|N].
      * rewrite D4, lookup_insert_eq in Eq. injection Eq as <-. unfold used in Uq. by rewrite L4 in Uq.
      * by apply (La q e); [apply D4'|].
    + intros x e Ix Ex. apply elem_of_without_event in Ix as [Ix N]. destruct (Ip x Ix) as [X|X].
      * left. apply elem_of_app in X as [X|X]; [done|]. by apply list_elem_of_singleton in X.
      * right; right. apply (New x e X); [set_solver|by apply D4'].
    + intros x e Ix Ex. assert (x ≠ p) as N by by intros ->. destruct (Is x Ix) as [X|X]; [by left|right].
      apply (New x e X); [set_solver|by apply D4'].
    + intros q due R. by apply Lr, L34.
Qed.
End Callback.

(** ** The whole loop *)

Lemma bind_outcome_assoc {A B C} (o : outcome A) (f : A → outcome B) (g : B → outcome C) :
  bind_outcome (bind_outcome o f) g = bind_outcome o (λ a, bind_outcome (f a) g).
Proof. by destruct o. Qed.

(** What waits for the event is done, or dropped when it is no longer the event it was for. *)
Lemma apply_pending ps s v pre p suf :
  passing ps s v pre (p :: suf) →
  ∃ moved s1, nevent_apply_pending_reschedule p s = Done (moved, s1) ∧ log s1 = log s ∧ same_pass s s1
    ∧ if moved : bool then
        ∃ v1 pre1 suf1, passing ps s1 v1 pre1 suf1 ∧ first suf1 None = first suf None
          ∧ (length suf1 + size (nevent_pending_reschedules s1)
               ≤ length suf + size (nevent_pending_reschedules s))%nat
      else passing ps s1 v pre (p :: suf) ∧ current_nevent s1 = current_nevent s
        ∧ data (mem s1) = data (mem s)
        ∧ (size (nevent_pending_reschedules s1) ≤ size (nevent_pending_reschedules s))%nat.
Proof.
  intros P. unfold nevent_apply_pending_reschedule.
  destruct (nevent_pending_reschedules s !! p) as [[seq due]|] eqn:E; [|by exists false, s].
  destruct (passing_head _ _ _ _ _ _ P) as (d & Ed & U & El).
  pose proof (passing_waits _ _ _ _ _ (delete p (nevent_pending_reschedules s)) P (delete_subseteq _ _)) as P1.
  cbv zeta. set (s1 := {s with nevent_pending_reschedules ::= delete p}).
  change {s with nevent_pending_reschedules := delete p (nevent_pending_reschedules s)} with s1 in P1.
  assert (S (size (nevent_pending_reschedules s1)) = size (nevent_pending_reschedules s)) as Sz.
  { change (nevent_pending_reschedules s1) with (delete p (nevent_pending_reschedules s)).
    rewrite map_size_delete, E. assert (size (nevent_pending_reschedules s) ≠ 0%nat); [|lia].
    intros Z. apply map_size_empty_iff in Z. by rewrite Z, lookup_empty in E. }
  unfold at_ptr. change (data (mem s1)) with (data (mem s)). rewrite Ed. cbn [present bind_outcome].
  destruct (_ || _) eqn:G.
  { exists false, s1. split; [done|]. split; [done|]. split; [by split|].
    split; [done|]. split; [done|]. split; [done|lia]. }
  destruct (i_moves _ _ _ (pg_inv _ _ _ _ _ P) p seq due E) as [B _].
  destruct (reschedule_inv (in_pass s1) None s1 v p d due) as (s2 & v2 & O & I2 & H2 & M); try done.
  { apply P1. } { apply P1. } { apply not_elem_of_nil. }
  rewrite O. cbn [bind_outcome]. exists true, s2. split; [done|]. pose proof (mv_keeps _ _ _ _ _ _ _ M) as K.
  split; [apply K|]. split; [apply clock_pass; transitivity s1; [by split|apply K]|].
  destruct (passing_moved ps s1 v pre p suf s2 v2 d due) as (pre1 & suf1 & P2 & F & L); try done.
  { apply K. } { rewrite next_tick_after in B by apply P. change (ne_event_tick s1) with (ne_event_tick s). lia. }
  exists v2, pre1, suf1. split; [done|]. split; [done|]. rewrite (keeps_moves _ _ K). lia.
Qed.

Section Loop.
Context (cfg : config) (chunk_objects : nat) (granted : nat → bool).
Context (chunk_some : (0 < chunk_objects)%nat).
Context (granted_limit : ∀ n, granted n = true → Z.of_nat (n + chunk_objects) ≤ MAX_EVENTS).
Context (clock : nat → Z) (ps budget_usec max_callbacks : Z).

(** What the loop ends in, from [executed] callbacks: all due events are seen to when nothing
    limits it, and no more callbacks run than its limit. *)
Record pass_end (unlimited : Prop) (executed : Z) (s s' : scheduler) : Prop := {
  pe_passed : ∃ v', passed s' v';
  pe_same : same_pass s s';
  pe_all : unlimited → ∀ p d, data (mem s') !! p = Some d → lifecycle_state d = active → ne_event_tick s < due_tick d;
  pe_ran : ∃ qs, (∀ q due t, Ran q due t ∈ log s' → Ran q due t ∈ log s ∨ q ∈ qs)
    ∧ (0 < max_callbacks → executed ≤ max_callbacks → Z.of_nat (length qs) + executed ≤ max_callbacks);
}.

Lemma pass_end_trans U1 U2 e s1 s2 s3 :
  same_pass s1 s2 → (∀ q due t, Ran q due t ∈ log s2 → Ran q due t ∈ log s1) → (U1 → U2) →
  pass_end U2 e s2 s3 → pass_end U1 e s1 s3.
Proof.
  intros S R U [A B C (qs & D1 & D2)]. split; [done|by transitivity s2|..].
  - intros X. rewrite <- (sp_tick _ _ S). by apply C, U.
  - exists qs. split; [|done]. intros q due t X. destruct (D1 q due t X); [left; by apply R|by right].
Qed.

Lemma pass_end_deferred U e s v pre suf :
  passing ps s v pre suf → ¬ U → holds (pass_end U e s) (nevent_defer_suffix (first suf None) s).
Proof.
  intros P N. eapply holds_impl; [by eapply defer_suffix_passed|]. intros s' (v' & Pd & K).
  split; [by exists v'|by apply clock_pass, K|done|].
  exists []. split; [|cbn; lia]. intros q due t R. left. by rewrite (keeps_log _ _ K) in R.
Qed.

Lemma pass_holds : ∀ fuel replies exhausted scanned executed s v pre suf,
  passing ps s v pre suf → Forall reply_ok replies →
  (length suf + size (nevent_pending_reschedules s) + work replies < fuel)%nat →
  (0 < max_callbacks → suf ≠ [] → executed < max_callbacks) →
  holds (pass_end (budget_usec ≤ 0 ∧ max_callbacks ≤ 0 ∧ exhausted = false) executed s)
    (pass cfg chunk_objects granted clock ps budget_usec max_callbacks fuel replies exhausted scanned executed
       (first suf None) s).
Proof.
  induction fuel as [|fuel IH]; intros replies be scanned executed s v pre suf P Ro Fu Mx; [lia|].
  destruct suf as [|p suf].
  { split; [exists v; by eapply passing_end|done| |].
    - intros _ p d Ed Ac. by eapply passing_none.
    - exists []. split; [by left|cbn; lia]. }
  cbn [first pass].
  apply (passing_current _ _ _ _ _ (Some p)) in P.
  set (s0 := {s with current_nevent := Some p}) in *.
  change (nevent_pending_reschedules s) with (nevent_pending_reschedules s0) in Fu.
  apply (holds_impl (pass_end (budget_usec ≤ 0 ∧ max_callbacks ≤ 0 ∧ be = false) executed s0)).
  2: { intros s' E. by eapply (pass_end_trans _ _ _ s s0). }
  assert (current_nevent s0 = Some p) as Cu by done. clearbody s0. clear s. rename s0 into s.
  cbv zeta. rewrite (next_of_spec _ _ Sched (pulse s) _ _ _ (i_rep _ _ _ (pg_inv _ _ _ _ _ P)) (pg_split _ _ _ _ _ P)).
  cbn [present bind_outcome].
  destruct (passing_head _ _ _ _ _ _ P) as (d & Ed & U & El).
  set (U0 := budget_usec ≤ 0 ∧ max_callbacks ≤ 0 ∧ be = false).
  assert (∀ replies be' scanned executed' s1 v1 pre1 suf1, passing ps s1 v1 pre1 suf1 → Forall reply_ok replies →
    (length suf1 + size (nevent_pending_reschedules s1) + work replies < fuel)%nat →
    first suf1 None = first suf None → (U0 → be' = false) →
    (0 < max_callbacks → suf1 ≠ [] → executed' < max_callbacks ∨ be' = true) →
    holds (pass_end U0 executed' s1)
      (if be' && bool_decide (is_Some (first suf None)) then nevent_defer_suffix (first suf None) s1
       else pass cfg chunk_objects granted clock ps budget_usec max_callbacks fuel replies be' scanned executed'
              (first suf None) s1)) as Tail.
  { clear P Cu d Ed U El Mx. intros rs be' sc ex s1 v1 pre1 suf1 P R F E Ub M. rewrite <- E.
    destruct be' eqn:Eb; cbn [andb].
    - destruct suf1 as [|q suf1].
      + rewrite bool_decide_eq_false_2 by by intros [].
        eapply holds_impl; [eapply IH; [exact P|done|done|done]|]. intros s' X.
        eapply (pass_end_trans _ _ _ s1 s1); [done|done| |exact X]. intros V. specialize (Ub V). done.
      + rewrite bool_decide_eq_true_2 by by eexists. eapply pass_end_deferred; [exact P|]. intros V. by specialize (Ub V).
    - eapply holds_impl; [eapply IH; [exact P|done|done|]|].
      + intros A B. by destruct (M A B).
      + intros s' X. eapply (pass_end_trans _ _ _ s1 s1); [done|done| |exact X]. intros (V1 & V2 & _). done. }
  destruct (apply_pending _ _ _ _ _ _ P) as (moved & s1 & -> & Lg & Sp & Mv). cbn [bind_outcome].
  destruct moved.
  { destruct Mv as (v1 & pre1 & suf1 & P1 & F1 & L1). rewrite <- F1.
    eapply holds_impl; [eapply IH; [exact P1|done|cbn [length] in Fu; lia|]|].
    - intros A B. apply Mx; [done|done].
    - intros s' X. eapply (pass_end_trans _ _ _ s s1); [done| |done|exact X]. intros q due t. by rewrite Lg. }
  destruct Mv as (P1 & Cu1 & D1 & Sz).
  unfold at_ptr at 1. rewrite D1, Ed. cbn [present bind_outcome].
  rewrite <- D1 in Ed. rewrite <- (sp_pulse _ _ Sp) in El. rewrite Cu in Cu1.
  apply (holds_impl (pass_end U0 executed s1)).
  2: { intros s' X. eapply (pass_end_trans _ _ _ s s1); [done| |done|exact X]. intros q due t. by rewrite Lg. }
  assert (length suf + size (nevent_pending_reschedules s1) + work replies < fuel)%nat as Fu1 by (cbn [length] in Fu; lia).
  clear Lg Sp Sz D1 P Cu Fu s. rename s1 into s, P1 into P, Cu1 into Cu, Fu1 into Fu.
  destruct (_ || _) eqn:Sk.
  { assert (ne_event_tick s < due_tick d) as Lt.
    { apply orb_true_iff in Sk as [Sk|Sk]; [|by apply Z.ltb_lt]. apply Z.ltb_lt in Sk.
      by apply (pg_new _ _ _ _ _ P p d Ed U). }
    assert (passing ps s v (pre ++ [p]) suf) as P'.
    { eapply passing_skip; [exact P|]. intros e Ee. rewrite Ed in Ee. injection Ee as <-. by right. }
    eapply Tail; try done.
    - intros (V1 & _ & ->). destruct (Z.ltb_spec 0 budget_usec); [lia|done].
    - intros A B. left. apply Mx; done. }
  apply orb_false_iff in Sk as [_ Du]. apply Z.ltb_ge in Du.
  destruct (used_cases _ _ _ p d (pg_inv _ _ _ _ _ P) eq_refl Ed U) as [[Ac [f Ef]]|[Ca Ef]]; rewrite Ef.
  - cbn [bind_outcome]. set (r := default no_reply (head replies)).
    assert (reply_ok r ∧ Forall reply_ok (tail replies) ∧ work replies = (length (requests r) + work (tail replies))%nat)
      as (Or & Ot & Wk).
    { unfold r. destruct replies as [|r0 rs]; [split; [split; [constructor|done]|done]|].
      apply Forall_cons in Ro as [R1 R2]. split; [exact R1|]. split; [exact R2|done]. }
    destruct Or as [Or1 Or2].
    destruct (told_good ps s v pre p suf d P Cu Ed Ac Du) as [G1 H1].
    rewrite bind_outcome_assoc.
    eapply holds_bind; [eapply (perform_all_asked cfg chunk_objects granted chunk_some granted_limit (Some p));
      [exact G1|exact H1| |exact Or1]|].
    { unfold told. change (current_nevent (tell _ s)) with (current_nevent s). by rewrite Cu. }
    intros s2 (v2 & A). cbn [bind_outcome].
    destruct (after_callback ps s v pre p suf d P Cu Ed Ac Du (length (requests r)) (callback_us r) s2 v2 A Or2)
      as (d2 & s4 & v4 & pre1 & suf1 & O2 & O4 & P4 & F4 & Sp4 & W4 & L4).
    rewrite O2. cbn [bind_outcome]. rewrite O4. cbn [bind_outcome].
    eapply holds_impl; [eapply (Tail _ _ _ _ s4 v4 pre1 suf1); try done|].
    + lia.
    + intros (V1 & V2 & ->). destruct (Z.ltb_spec 0 max_callbacks), (Z.ltb_spec 0 budget_usec); [lia..|done].
    + intros A1 _. destruct (Z.leb_spec max_callbacks (executed + 1)) as [Lm|Lm]; [right|by left].
      apply Z.ltb_lt in A1. rewrite A1. by rewrite orb_true_r.
    + intros s' [X1 X2 X3 (qs & X4 & X5)]. split; [done|by transitivity s4| |].
      * intros V. rewrite <- (sp_tick _ _ Sp4). by apply X3.
      * exists (sequence d :: qs). split.
        -- intros q due t R. destruct (X4 q due t R) as [Y|Y]; [|right; by right].
           apply L4 in Y. unfold told in Y. apply elem_of_cons in Y as [Y|Y]; [injection Y as -> _ _; right; by left|by left].
        -- intros A1 A2. specialize (Mx A1 ltac:(done)). specialize (X5 A1). cbn [length]. lia.
  - cbn [bind_outcome]. unfold at_ptr at 1. rewrite Ed. cbn [present bind_outcome].
    rewrite bool_decide_eq_true_2 by done. cbn [bind_outcome].
    assert (passing ps s v (pre ++ [p]) suf) as P'.
    { eapply passing_skip; [exact P|]. intros e Ee. rewrite Ed in Ee. injection Ee as <-. by left. }
    eapply Tail; try done.
    + intros (V1 & V2 & ->). destruct (Z.ltb_spec 0 max_callbacks), (Z.ltb_spec 0 budget_usec); [lia..|done].
    + intros A1 _. left. apply Mx; done.
Qed.
End Loop.

(** ** After the loop *)

(** The handles of [W] wait for their events to be destroyed. *)
Record winding (W : list nevent_handle) (s : scheduler) (v : view) : Prop := {
  wd_inv : inv (Phase (ne_event_tick s) W [] []) s v;
  wd_hist : hist None s;
  wd_after : after_events_call s = true;
  wd_done p d : data (mem s) !! p = Some d → lifecycle_state d = active → placed_at (ne_event_tick s + 1) d;
  wd_none : nevent_pending_cancellations s = [];
  wd_valid h : h ∈ W → ∃ p, event h = Some p ∧ is_Some (data (mem s) !! p);
}.

(** Nothing runs any more, and the events left are as they were. *)
Record winds (s s' : scheduler) : Prop := {
  ws_same : same_pass s s';
  ws_current : current_nevent s' = current_nevent s;
  ws_ran q due t : Ran q due t ∈ log s' → Ran q due t ∈ log s;
  ws_left p d : data (mem s') !! p = Some d → lifecycle_state d = active →
    data (mem s) !! p = Some d ∨ ne_event_tick s < due_tick d;
}.
#[export] Instance winds_preorder : PreOrder winds.
Proof.
  split; [intros s; split; auto; done|]. intros s1 s2 s3 [A1 A2 A3 A4] [B1 B2 B3 B4].
  split; [by transitivity s2|congruence|auto|]. intros p d E L. rewrite <- (sp_tick _ _ A1) in *.
  destruct (B4 p d E L) as [X|X]; [by apply A4|by right].
Qed.

Lemma winding_destroy h W p s v d :
  winding (h :: W) s v → event h = Some p → data (mem s) !! p = Some d → lifecycle_state d = cancel_pending →
  ∃ s' v', nevent_destroy p s = Done s' ∧ winding W s' v' ∧ winds s s'.
Proof.
  intros [I H A Dn N Va] Eh Ed Lc.
  assert (is_live (lifecycle_state d) = true) as Lv by by rewrite Lc.
  destruct (destroy_inv _ s v p d I Ed Lv) as (s' & v' & O & I' & En); [apply not_elem_of_nil|done|].
  pose proof (end_clock _ _ _ _ _ _ En) as C. destruct (end_data _ _ _ _ _ _ En) as (d' & D & L' & _ & _).
  exists s', v'. split; [done|].
  assert (∀ q e, data (mem s') !! q = Some e → lifecycle_state e = active → data (mem s) !! q = Some e) as Lf.
  { intros q e Eq Lq. destruct (decide (q = p)) as [->|Nq]; [|by rewrite D, lookup_insert_ne in Eq].
    rewrite D, lookup_insert_eq in Eq. injection Eq as <-. congruence. }
  split; split.
  - eapply inv_weaken; [exact I'|by cbn; rewrite (clock_tick _ _ C)|done| |done].
    cbn [waiting]. rewrite filter_cons_False by by rewrite Eh; intros X; apply X. 
    intros x Ix. by apply list_elem_of_filter in Ix as [_ Ix].
  - eapply hist_end; [exact H|exact Ed|by rewrite Lc|exact En].
  - by rewrite (clock_after _ _ C).
  - intros q e Eq Lq. rewrite (clock_tick _ _ C). eauto.
  - by rewrite (end_cancels _ _ _ _ _ _ En).
  - intros x Ix. destruct (Va x ltac:(by right)) as (q & Eq & Sq). exists q. split; [done|].
    rewrite D. destruct (decide (q = p)) as [->|Nq]; [rewrite lookup_insert_eq; eauto|by rewrite lookup_insert_ne].
  - by apply clock_pass.
  - apply C.
  - intros q due t R. rewrite (end_log _ _ _ _ _ _ En) in R. destruct (ev_data d); [|done].
    apply elem_of_cons in R as [R|R]; [done|done].
  - intros q e Eq Lq. left. by apply Lf.
Qed.

Lemma cancellations_end : ∀ W s v, winding W s v →
  ∃ s' v', process_cancellations W s = Done s' ∧ winding [] s' v' ∧ winds s s'.
Proof.
  induction W as [|h W IH]; intros s v Wd; [by exists s, v|]. cbn [process_cancellations].
  destruct (wd_valid _ _ _ Wd h) as (p & Eh & [d Ed]); [by left|]. rewrite Eh. unfold at_ptr at 1. rewrite Ed.
  cbn [present bind_outcome]. destruct (_ && _) eqn:G.
  - apply andb_true_iff in G as [_ G%bool_decide_eq_true].
    destruct (winding_destroy h W p s v d Wd Eh Ed G) as (s1 & v1 & O & Wd1 & Ws). rewrite O. cbn [bind_outcome].
    destruct (IH s1 v1 Wd1) as (s2 & v2 & O2 & Wd2 & Ws2). exists s2, v2. split; [done|]. split; [done|]. by transitivity s1.
  - cbn [bind_outcome]. apply (IH s v). destruct Wd as [I H A Dn N Va]. split; try done.
    + destruct I. split; try done. intros q e Eq Lq. specialize (i_waiting q e Eq Lq).
      apply elem_of_cons in i_waiting as [X|X]; [exfalso|done].
      rewrite <- X in Eh, G. cbn in Eh, G. injection Eh as ->. rewrite Ed in Eq. injection Eq as ->.
      by rewrite Z.eqb_refl, Lq in G.
    + intros x Ix. apply Va. by right.
Qed.

(** The moves of [L] wait, and nothing else does. *)
Record calming (L : list (ptr * (Z * Z))) (s : scheduler) (v : view) : Prop := {
  cm_inv : inv (Phase (next_tick s) [] [] []) s v;
  cm_hist : hist None s;
  cm_after : after_events_call s = true;
  cm_none : nevent_pending_cancellations s = [];
  cm_moves : nevent_pending_reschedules s = list_to_map L;
  cm_nodup : NoDup L.*1;
}.

Lemma winding_calming s v :
  winding [] s v → calming (map_to_list (nevent_pending_reschedules s)) s v.
Proof.
  intros [I H A Dn N _]. split; try done.
  - destruct I. split; try done. intros p d Ed U _. left. rewrite next_tick_after by done.
    destruct (lifecycle_state d) eqn:Lc; try by (unfold used in U; rewrite Lc in U).
    + by apply (Dn p d).
    + specialize (i_waiting p d Ed Lc). by apply not_elem_of_nil in i_waiting.
    + specialize (i_dying p d Ed Lc). by apply not_elem_of_nil in i_dying.
  - symmetry. apply list_to_map_to_list.
  - apply NoDup_fst_map_to_list.
Qed.

Lemma reschedules_end : ∀ L s v, calming L s v →
  ∃ s' v', process_reschedules L s = Done s' ∧ calming [] s' v' ∧ winds s s'.
Proof.
  induction L as [|[p [seq due]] L IH]; intros s v [I H A N M Nd]; [by exists s, v|].
  cbn [process_reschedules]. cbv zeta. set (s1 := {s with nevent_pending_reschedules ::= delete p}).
  apply NoDup_cons in Nd as [Np Nd].
  assert (nevent_pending_reschedules s !! p = Some (seq, due)) as E by (rewrite M; by rewrite list_to_map_cons, lookup_insert_eq).
  destruct (i_moves _ _ _ I p seq due E) as [B [d Ed]].
  assert (calming L s1 v) as C1.
  { assert (nevent_pending_reschedules s1 = list_to_map L) as M1.
    { change (nevent_pending_reschedules s1) with (delete p (nevent_pending_reschedules s)). rewrite M, list_to_map_cons.
      rewrite delete_insert_id; [done|]. by apply not_elem_of_list_to_map. }
    split; try done.
    - change (next_tick s1) with (next_tick s). destruct I. split; try done. intros q sq du Eq. apply (i_moves q sq du).
      change (nevent_pending_reschedules s1) with (delete p (nevent_pending_reschedules s)) in Eq.
      eapply lookup_weaken; [exact Eq|apply delete_subseteq].
    - by destruct H. }
  assert (winds s s1) as Ws by (split; auto; done).
  unfold at_ptr at 1. change (data (mem s1)) with (data (mem s)). rewrite Ed. cbn [present bind_outcome].
  destruct (_ && _) eqn:G.
  - apply andb_true_iff in G as [_ G%bool_decide_eq_true]. destruct C1 as [I1 H1 A1 N1 M1 _].
    destruct (reschedule_inv _ None s1 v p d due I1 H1) as (s2 & v2 & O & I2 & H2 & Mv); try done.
    { by apply event_used_lookup. } { apply not_elem_of_nil. }
    rewrite O. cbn [bind_outcome]. pose proof (mv_keeps _ _ _ _ _ _ _ Mv) as K. pose proof (keeps_clock _ _ K) as Cl.
    destruct (IH s2 v2) as (s3 & v3 & O3 & C3 & W3).
    { split; try done.
      - by rewrite (next_tick_clock _ _ Cl).
      - by rewrite (clock_after _ _ Cl).
      - by rewrite (keeps_cancels _ _ K).
      - by rewrite (keeps_moves _ _ K). }
    exists s3, v3. split; [done|]. split; [done|]. transitivity s2; [|done]. transitivity s1; [done|].
    split; [by apply clock_pass|apply Cl|by rewrite (keeps_log _ _ K)|].
    intros q e Eq Lq. destruct (mv_data _ _ _ _ _ _ _ Mv) as (d' & D & Du & _).
    rewrite D in Eq. destruct (decide (q = p)) as [->|Nq]; [|left; by rewrite lookup_insert_ne in Eq].
    rewrite lookup_insert_eq in Eq. injection Eq as <-. right. rewrite next_tick_after in B by done.
    change (ne_event_tick s1) with (ne_event_tick s). lia.
  - cbn [bind_outcome]. destruct (IH s1 v C1) as (s3 & v3 & O3 & C3 & W3). exists s3, v3.
    split; [done|]. split; [done|]. by transitivity s1.
Qed.

Lemma calming_good s v : calming [] s v → current_nevent s = None → good s v.
Proof.
  intros [I H A N M _] C. assert (phase_of s = Phase (next_tick s) [] [] []) as E by (unfold phase_of; by rewrite C, N).
  split; [by rewrite E|done|by rewrite C].
Qed.

(** ** The debt at the end of a pass *)

Lemma count_owing_nonneg d : 0 ≤ count_owing d.
Proof. unfold count_owing. by destruct (_ && _). Qed.
Lemma count_due_nonneg t d : 0 ≤ count_due t d.
Proof. unfold count_due. by destruct (_ && _). Qed.

Lemma no_debt ph s v : inv ph s v → nevent_catchup_debt s ≤ 0 →
  nevent_catchup_debt s = 0 ∧ nevent_deferred_due_counts s = ∅ ∧ nevent_catchup_debt_estimated_us s = 0.
Proof.
  intros I Le. pose proof (i_debt _ _ _ I) as Db. pose proof (i_estimate _ _ _ I) as Es.
  set (D := data (mem s)) in *.
  assert (∀ p d, D !! p = Some d → 0 ≤ count_owing d) as Po by (intros; apply count_owing_nonneg).
  assert (0 ≤ tally count_owing D) as Nn.
  { pose proof (tally_bounds count_owing D 1) as B. destruct B as [B _]; [|done].
    intros p d _. unfold count_owing. destruct (_ && _); lia. }
  assert (∀ p d, D !! p = Some d → used d && owing d = false) as Z.
  { intros p d Ed. pose proof (tally_zero count_owing D Po ltac:(lia) p d Ed) as E. unfold count_owing in E.
    by destruct (_ && _). }
  split; [lia|]. split.
  - apply map_empty. intros t. destruct (nevent_deferred_due_counts s !! t) as [n|] eqn:E; [exfalso|done].
    pose proof (i_due_pos _ _ _ I t n E). pose proof (i_due _ _ _ I t) as Du. unfold due_count in Du.
    rewrite E in Du. change (default 0 (Some n)) with n in Du. fold D in Du.
    rewrite (tally_ext _ (λ _, 0)), tally_const_zero in Du; [lia|].
    intros p d Ed. unfold count_due. by rewrite (Z p d Ed).
  - rewrite Es, (tally_ext _ (λ _, 0)); [apply tally_const_zero|]. intros p d Ed. unfold cost_owing. by rewrite (Z p d Ed).
Qed.

Lemma some_debt ph s v : inv ph s v → 0 < nevent_catchup_debt s → nevent_deferred_due_counts s ≠ ∅.
Proof.
  intros I Gt E. pose proof (i_debt _ _ _ I) as Db. set (D := data (mem s)) in *.
  rewrite (tally_ext _ (λ _, 0)), tally_const_zero in Db; [lia|]. intros p d Ed.
  pose proof (i_due _ _ _ I (due_tick d)) as Du. unfold due_count in Du. rewrite E, lookup_empty in Du.
  change (default 0 None) with 0 in Du. symmetry in Du. fold D in Du.
  pose proof (tally_zero (count_due (due_tick d)) D ltac:(intros; apply count_due_nonneg) Du p d Ed) as Z.
  unfold count_due in Z. unfold count_owing. rewrite Z.eqb_refl, andb_true_r in Z. done.
Qed.

Lemma accounting_ok ph s v : inv ph s v → nevent_assert_pool_accounting s = Done s.
Proof.
  intros I. unfold nevent_assert_pool_accounting. pose proof (i_counter _ _ _ I) as Co.
  pose proof (tally_bounds count_used (data (mem s)) 1) as B. pose proof (i_size _ _ _ I) as Sz. unfold MAX_EVENTS in Sz.
  destruct B as [B1 B2]; [intros p d _; unfold count_used; destruct (used d); lia|].
  rewrite (i_objs _ _ _ I). destruct (Z.leb_spec 0 (ne_event_counter s)); [|lia]. cbn [andb].
  unfold wrap. rewrite Z.mod_small by lia. by rewrite Z.eqb_refl.
Qed.

(** Only the plan for the debt changes. *)
Record plans (s s' : scheduler) : Prop := {
  pl_mem : mem s' = mem s;
  pl_log : log s' = log s;
  pl_clock : same_clock s s';
  pl_debt : same_debt s s';
  pl_sequence : ne_event_sequence s' = ne_event_sequence s;
  pl_counter : ne_event_counter s' = ne_event_counter s;
  pl_moves : nevent_pending_reschedules s' = nevent_pending_reschedules s;
  pl_cancels : nevent_pending_cancellations s' = nevent_pending_cancellations s;
}.

Lemma plans_inv ph s s' v : plans s s' → inv ph s v → inv ph s' v.
Proof.
  intros [M _ C [D1 D2 D3] Sq Co Mo Ca] []. pose proof (next_tick_clock _ _ C) as Nt. destruct C as [Ct Ca' Cp Cv _].
  split; rewrite ?M, ?Sq, ?Co, ?Nt, ?D1, ?D2, ?Ct, ?Cv, ?Cp; try done.
  - intros t. rewrite <- i_due. unfold due_count. by rewrite D3.
  - by rewrite D3.
  - by rewrite Mo.
  - by rewrite Ca.
Qed.
Lemma plans_hist r s s' : plans s s' → hist r s → hist r s'.
Proof.
  intros P []. pose proof (next_tick_clock _ _ (pl_clock _ _ P)) as Nt. destruct P as [M L C _ Sq _ _ _].
  split; rewrite ?M, ?L, ?Nt, ?Sq; done.
Qed.
Lemma plans_winds s s' : plans s s' → winds s s'.
Proof.
  intros P. split; [by apply clock_pass, P|apply P|by rewrite (pl_log _ _ P)|].
  intros p d. rewrite (pl_mem _ _ P). by left.
Qed.
Lemma plans_good s s' v : plans s s' → good s v → good s' v.
Proof.
  intros P [I C A]. pose proof (next_tick_clock _ _ (pl_clock _ _ P)) as Nt.
  assert (phase_of s' = phase_of s) as E.
  { unfold phase_of. by rewrite Nt, (pl_cancels _ _ P), (clock_current _ _ (pl_clock _ _ P)), (clock_tick _ _ (pl_clock _ _ P)). }
  split; rewrite ?E, ?(clock_current _ _ (pl_clock _ _ P)), ?(pl_cancels _ _ P), ?(pl_moves _ _ P); [|done|].
  - by eapply plans_inv.
  - rewrite (clock_after _ _ (pl_clock _ _ P)). done.
Qed.

Lemma finish_catchup_plans ph s v : inv ph s v →
  ∃ s', nevent_finish_catchup_pulse s = Done s' ∧ plans s s'.
Proof.
  intros I. unfold nevent_finish_catchup_pulse. destruct (Z.leb_spec (nevent_catchup_debt s) 0) as [Le|Gt].
  - destruct (no_debt _ _ _ I Le) as (D0 & C0 & E0). rewrite bool_decide_eq_true_2 by done. rewrite E0, Z.eqb_refl. cbn [andb].
    eexists. split; [reflexivity|]. split; try done; by split.
  - rewrite bool_decide_eq_false_2 by by eapply some_debt. cbn [negb].
    eexists. split; [reflexivity|]. split; try done; by split.
Qed.

Lemma prepare_catchup_plans cfg s : plans s (nevent_prepare_catchup cfg s).2.
Proof.
  unfold nevent_prepare_catchup. cbv zeta. destruct (_ || _); [split; try done; by split|].
  destruct (negb _), (negb _); (split; try done; by split).
Qed.

(** ** A pass as a whole *)

Lemma prepare_catchup_later cfg s :
  (nevent_prepare_catchup cfg {s with after_events_call := true}).1 = (nevent_prepare_catchup cfg s).1.
Proof.
  unfold nevent_prepare_catchup. cbv zeta.
  change (nevent_catchup_debt {{s with after_events_call := true} with nevent_catchup_quota := 0;
    nevent_catchup_extra_callbacks := 0; nevent_catchup_extension_us := 0}) with (nevent_catchup_debt s).
  destruct (_ || _); [done|]. by destruct (negb _), (negb _).
Qed.

Lemma prepare_catchup_unlimited cfg s :
  nevent_budget_usec cfg = NEVENT_UNLIMITED → nevent_max_callbacks cfg = NEVENT_UNLIMITED →
  (nevent_prepare_catchup cfg s).1 = (0, 0).
Proof.
  intros B M. unfold nevent_prepare_catchup. cbv zeta. rewrite B, M. by destruct (_ || _).
Qed.

Lemma passing_start s v s1 :
  good s v → hist None s → current_nevent s = None → after_events_call s = false →
  plans {s with after_events_call := true} s1 → passing (ne_event_sequence s) s1 v [] (buckets v (pulse s1)).
Proof.
  intros G H C A P.
  destruct (g_calm _ _ G C) as [N M]. pose proof (g_inv _ _ G) as I.
  assert (next_tick s = ne_event_tick s) as Nt by (unfold next_tick; rewrite A; lia).
  unfold phase_of in I. rewrite C, N, Nt in I.
  set (s0 := {s with after_events_call := true}) in *.
  assert (inv (in_pass s0) s0 v) as I0.
  { assert (in_pass s0 = Phase (ne_event_tick s) [] [] []) as -> by (unfold in_pass; by change (nevent_pending_cancellations s0) with (nevent_pending_cancellations s); rewrite N).
    destruct I. split; try done.
    - intros p d Ed U Of. right. destruct (i_placed p d Ed U Of) as [X|X]; [by rewrite Nt in X|done].
    - intros p seq due E. change (nevent_pending_reschedules s0) with (nevent_pending_reschedules s) in E.
      by rewrite M, lookup_empty in E. }
  assert (hist None s0) as H0.
  { destruct H. split; try done. intros q due t R. destruct (h_ran q due t R) as [B L]. split; [done|].
    change (next_tick s0) with (ne_event_tick s + 1). lia. }
  pose proof (pl_clock _ _ P) as Cl.
  assert (in_pass s1 = in_pass s0) as E.
  { unfold in_pass. by rewrite (clock_tick _ _ Cl), (pl_cancels _ _ P). }
  split.
  - rewrite E. by eapply plans_inv.
  - by eapply plans_hist.
  - by rewrite (clock_after _ _ Cl).
  - done.
  - intros q d X. by apply not_elem_of_nil in X.
  - intros q d Eq U X. rewrite (pl_mem _ _ P) in Eq. pose proof (i_sequences _ _ _ I q d Eq). lia.
  - intros q d Eq U. left. rewrite (pl_mem _ _ P) in Eq. rewrite (clock_tick _ _ Cl).
    destruct (i_placed _ _ _ I q d Eq U) as [X|X]; [apply not_elem_of_nil|by rewrite Nt in X|done].
  - intros q due R. rewrite (pl_log _ _ P), (clock_tick _ _ Cl) in R.
    destruct (h_ran _ _ H q due _ R) as [_ X]. change (ne_event_tick s0) with (ne_event_tick s) in X. lia.
Qed.

Lemma passed_winding s v :
  passed s v → winding (nevent_pending_cancellations s)
    {{s with current_nevent := None} with nevent_pending_cancellations := [] } v.
Proof.
  intros [I H A Dn]. split; try done.
  - destruct I. split; try done. intros h X. by apply not_elem_of_nil in X.
  - by destruct H.
  - intros h Ih. apply (i_cancels _ _ _ I h Ih).
Qed.

Section Events.
Context (cfg : config) (chunk_objects : nat) (granted : nat → bool).
Context (chunk_some : (0 < chunk_objects)%nat).
Context (granted_limit : ∀ n, granted n = true → Z.of_nat (n + chunk_objects) ≤ MAX_EVENTS).

(** What a pass ends in. *)
Record events_end (watchdog : list request) (s s' : scheduler) : Prop := {
  ee_good : ∃ v', good s' v';
  ee_hist : hist None s';
  ee_same_tick : ne_event_tick s' = ne_event_tick s;
  ee_after : after_events_call s' = true;
  ee_current : current_nevent s' = None;
  ee_all : nevent_budget_usec cfg = NEVENT_UNLIMITED → nevent_max_callbacks cfg = NEVENT_UNLIMITED → watchdog = [] →
    ∀ p d, data (mem s') !! p = Some d → lifecycle_state d = active → ne_event_tick s < due_tick d;
  ee_ran : let limit := (nevent_prepare_catchup cfg s).1.2 in
    ∃ qs, (∀ q due t, Ran q due t ∈ log s' → Ran q due t ∈ log s ∨ q ∈ qs)
      ∧ (0 < limit → Z.of_nat (length qs) ≤ limit);
}.

Lemma ne_events_holds s v replies clock watchdog :
  good s v → hist None s → current_nevent s = None → after_events_call s = false →
  Forall reply_ok replies → Forall request_ok watchdog →
  holds (events_end watchdog s) (ne_events cfg chunk_objects granted replies clock watchdog s).
Proof.
  intros G H C A Ro Wo. unfold ne_events.
  pose proof (g_inv _ _ G) as I. pose proof (i_pulse _ _ _ I) as Pu.
  pose proof (bucket_range (ne_event_tick s)) as Br. rewrite <- Pu in Br.
  assert ((pulse s <? 0) || (PULSES_IN_TICK <=? pulse s) = false) as -> by lia. cbn [negb].
  rewrite <- Pu, Z.eqb_refl, A. cbn [negb]. cbv zeta.
  set (s0 := {s with after_events_call := true}).
  pose proof (prepare_catchup_plans cfg s0) as Pl. pose proof (prepare_catchup_later cfg s) as Pe. fold s0 in Pe.
  destruct (nevent_prepare_catchup cfg s0) as [[budget limit] s1] eqn:Ep. cbn [fst snd] in Pl, Pe.
  pose proof (passing_start s v s1 G H C A Pl) as Ps.
  rewrite (head_of_spec _ _ Sched (pulse s1) (i_rep _ _ _ (pg_inv _ _ _ _ _ Ps))).
  change (lists v Sched (pulse s1)) with (buckets v (pulse s1)).
  change (ne_event_sequence s0) with (ne_event_sequence s).
  destruct (g_calm _ _ G C) as [N M].
  eapply holds_bind.
  { eapply (pass_holds cfg chunk_objects granted chunk_some granted_limit); [exact Ps|exact Ro| |].
    - rewrite (pl_moves _ _ Pl). change (nevent_pending_reschedules s0) with (nevent_pending_reschedules s).
      rewrite M, map_size_empty. unfold pass_fuel, work.
      pose proof (bucket_bound _ v Sched (pulse s1) (i_rep _ _ _ (pg_inv _ _ _ _ _ Ps))) as B.
      change (lists v Sched (pulse s1)) with (buckets v (pulse s1)) in B. lia.
    - done. }
  intros s2 [[v2 Pd] Sp Al (qs & R1 & R2)].
  pose proof (pl_clock _ _ Pl) as Cl.
  set (s3 := {s2 with current_nevent := None}). unfold nevent_process_pending_cancellations.
  pose proof (passed_winding s2 v2 Pd) as W. fold s3 in W.
  change (nevent_pending_cancellations s3) with (nevent_pending_cancellations s2).
  set (s4 := {s3 with nevent_pending_cancellations := [] }) in *.
  destruct (cancellations_end _ s4 v2 W) as (s5 & v5 & -> & W5 & Ws5). cbn [bind_outcome].
  unfold nevent_process_pending_reschedules.
  destruct (reschedules_end _ s5 v5 (winding_calming _ _ W5)) as (s6 & v6 & -> & C6 & Ws6). cbn [bind_outcome].
  assert (winds s4 s6) as Ws by by transitivity s5.
  assert (current_nevent s6 = None) as Cu6 by (rewrite (ws_current _ _ Ws); done).
  pose proof (calming_good _ _ C6 Cu6) as G6.
  assert (ne_event_tick s6 = ne_event_tick s) as T6.
  { rewrite (sp_tick _ _ (ws_same _ _ Ws)). change (ne_event_tick s4) with (ne_event_tick s2).
    rewrite (sp_tick _ _ Sp), (clock_tick _ _ Cl). done. }
  assert (∀ q due t, Ran q due t ∈ log s6 → Ran q due t ∈ log s ∨ q ∈ qs) as R6.
  { intros q due t R. apply (ws_ran _ _ Ws) in R. apply R1 in R. rewrite (pl_log _ _ Pl) in R. done. }
  assert (nevent_budget_usec cfg = NEVENT_UNLIMITED → nevent_max_callbacks cfg = NEVENT_UNLIMITED →
    ∀ p d, data (mem s6) !! p = Some d → lifecycle_state d = active → ne_event_tick s < due_tick d) as A6.
  { intros U1 U2 p d Ed Ac. rewrite (prepare_catchup_unlimited cfg s U1 U2) in Pe. injection Pe as -> ->.
    destruct (ws_left _ _ Ws p d Ed Ac) as [X|X].
    - apply (Al ltac:(done) p d) in X; [|done]. by rewrite (clock_tick _ _ Cl) in X.
    - change (ne_event_tick s4) with (ne_event_tick s2) in X. by rewrite (sp_tick _ _ Sp), (clock_tick _ _ Cl) in X. }
  assert (holds (λ s7, asked (length watchdog) None s6 v6 s7 ∧ (watchdog = [] → s7 = s6))
    (perform_all cfg chunk_objects granted watchdog s6)) as Wd.
  { pose proof (perform_all_asked cfg chunk_objects granted chunk_some granted_limit None watchdog s6 v6 G6
      (cm_hist _ _ _ C6) ltac:(done) Wo) as X.
    destruct watchdog as [|w ws]; [by split|]. eapply holds_impl; [exact X|]. intros s7 Y. by split. }
  eapply holds_bind; [exact Wd|]. clear Wd.
  intros s7 [(v7 & [G7 H7 C7 _ R7 _]) E7].
  destruct (finish_catchup_plans _ s7 v7 (g_inv _ _ G7)) as (s8 & -> & P8). cbn [bind_outcome].
  pose proof (plans_good _ _ _ P8 G7) as G8.
  rewrite (accounting_ok _ _ _ (g_inv _ _ G8)).
  pose proof (pl_clock _ _ P8) as C8. split.
  - eauto.
  - by eapply plans_hist.
  - by rewrite (clock_tick _ _ C8), (clock_tick _ _ C7).
  - rewrite (clock_after _ _ C8), (clock_after _ _ C7). apply C6.
  - by rewrite (clock_current _ _ C8), (clock_current _ _ C7).
  - intros U1 U2 U3. specialize (E7 U3) as ->. rewrite (pl_mem _ _ P8). by apply A6.
  - cbv zeta. rewrite <- Pe. exists qs. split.
    + intros q due t R. apply R6. rewrite (pl_log _ _ P8) in R. by apply R7.
    + cbn [snd]. intros L. specialize (R2 L ltac:(lia)). lia.
Qed.
End Events.
