(* ===== verification/SchedulerInspect.v ===== *)
(** * The integrity check of the event scheduler

    [nevent_inspect_invariants] and [check_nevents] of [world/new_events.c]: that they find
    nothing wrong with the scheduler itself in any of its states between operations, and what
    of the rest of the game they find wrong: the characters and objects events name, the
    links that join them, and the registry of periodic jobs of [world/nevent_periodic.c],
    whose own checks [nevent_periodic_event_is_valid] and [nevent_periodic_integrity_errors]
    are part of it.  The rest of the game is a [game] and a list of jobs, and may be any. *)

From S2P Require Import Prelude.
From S2P Require Import EventMemory.
From S2P Require Import Scheduler.
From S2P Require Import SchedulerInvariant.

(** ** The report *)

Record nevent_integrity_report := Report {
  r_errors : Z;
  wheel_count : Z;
  owner_links : kind → Z;
  r_deferred_count : Z;
  r_deferred_cost_us : Z;
  wheel_events : gset ptr;
  sequences : gset Z;
  owner_events : kind → gset ptr;
  deferred_due_counts : gmap Z Z;
}.
Definition no_report : nevent_integrity_report := Report 0 0 (λ _, 0) 0 0 ∅ ∅ (λ _, ∅) ∅.

(** [nevent_integrity_problem]. *)
Definition problem (b : bool) (r : nevent_integrity_report) : nevent_integrity_report :=
  if b then {r with r_errors ::= λ n, n + 1} else r.

(** ** What the check is given *)

Definition LNK_EVENT : Z := 3.

Record char_link_data := CharLink {
  link_type : Z;
  linking : Z;
  linked : Z;
}.
#[export] Instance char_link_data_eq_dec : EqDecision char_link_data.
Proof. solve_decision. Defined.

(** What the memory of the game holds: the [runtime_id] of the characters of
    [character_list], the objects of [object_list], the links by name, and the links a walk of
    the lists [linking] and [linked] of a character meets before it ends or comes back. *)
Record game := Game {
  live_characters : gmap Z Z;
  live_objects : gset Z;
  link_of : Z → char_link_data;
  linking_list : Z → list Z;
  linked_list : Z → list Z;
}.

(** A job of the registry of [world/nevent_periodic.c], as far as the check reads it. *)
Record nevent_periodic_job_state := Job {
  callback : option event_func;
  configured : bool;
  enabled : bool;
  arming : bool;
  disarming : bool;
  running : bool;
  handle : nevent_handle;
  running_event : option ptr;
}.

Section Inspect.
Context (g : game) (periodic_jobs : list nevent_periodic_job_state).

(** ** The registry of periodic jobs *)

(** [periodic_job_id] of the job of an index. *)
Definition job_id_of (index : nat) : Z := Z.of_nat index + 1.

Definition periodic_handle_matches (index : nat) (job : nevent_periodic_job_state) (s : scheduler)
  : outcome bool :=
  let! is_active := nevent_handle_is_active (handle job) s in
  if negb is_active then Done false else
  match event (handle job) with
  | None => Done false
  | Some p =>
      let! d := at_handle p s in
      Done ((periodic_job_id d =? job_id_of index) && bool_decide (func d = callback job))
  end.

Definition nevent_periodic_event_is_valid (p : ptr) (d : event_data) : bool :=
  if periodic_job_id d =? 0 then true else
  match periodic_jobs !! Z.to_nat (periodic_job_id d - 1) with
  | None => false
  | Some job =>
      if negb (configured job) || negb (bool_decide (func d = callback job)) then false
      else if running job then bool_decide (running_event job = Some p)
      else bool_decide (event (handle job) = Some p) && (h_sequence (handle job) =? sequence d)
  end.

Definition job_errors (index : nat) (job : nevent_periodic_job_state) (s : scheduler) : outcome Z :=
  if arming job || disarming job then Done 0 else
  let! armed := periodic_handle_matches index job s in
  let! valid :=
    match event (handle job) with
    | Some p => if armed then let! d := at_handle p s in Done (nevent_periodic_event_is_valid p d) else Done true
    | None => Done true
    end in
  Done (Z.b2z (enabled job && negb armed && negb (running job))
        + Z.b2z (negb (enabled job) && (armed || running job))
        + Z.b2z (armed && negb valid)).

Fixpoint jobs_errors (index : nat) (jobs : list nevent_periodic_job_state) (s : scheduler) : outcome Z :=
  match jobs with
  | [] => Done 0
  | job :: jobs =>
      let! n := job_errors index job s in
      let! m := jobs_errors (S index) jobs s in
      Done (n + m)
  end.
Definition nevent_periodic_integrity_errors (s : scheduler) : outcome Z := jobs_errors O periodic_jobs s.

(** ** The check *)

(** One event of a bucket, after [previous]. *)
Definition inspect_event (bucket : Z) (p : ptr) (n : nevent_data) (previous : option ptr)
    (r : nevent_integrity_report) : nevent_integrity_report :=
  let e := ev n in
  let r := {r with wheel_events ::= union {[p]}; wheel_count ::= λ n, n + 1} in
  let r := problem (negb (bool_decide (prev_sched n = previous))) r in
  let r := problem (negb (element e =? bucket)) r in
  let r := problem ((deferral_count e =? 0) && negb (nevent_bucket_for_tick (due_tick e) =? bucket)) r in
  let r := problem ((sequence e =? 0) || bool_decide (sequence e ∈ sequences r)) r in
  let r := if sequence e =? 0 then r else {r with sequences ::= union {[sequence e]} } in
  let r := problem (negb (is_live (lifecycle_state e))) r in
  let r := problem (negb (Bool.eqb (bool_decide (ev_data e = None)) (negb (data_destroy e)))) r in
  let r := problem (negb (nevent_periodic_event_is_valid p e)) r in
  if 0 <? deferral_count e then
    {r with r_deferred_count ::= λ n, n + 1;
            r_deferred_cost_us ::= λ n, nevent_saturating_add_ull n (deferred_cost_us e);
            deferred_due_counts ::= λ m, <[due_tick e := default 0 (m !! due_tick e) + 1]> m}
  else r.

(** The last event seen of the bucket and the report. *)
Fixpoint inspect_bucket (bucket : Z) (m : memory) (fuel : nat) (event previous : option ptr)
    (r : nevent_integrity_report) : outcome (option ptr * nevent_integrity_report) :=
  match fuel, event with
  | _, None => Done (previous, r)
  | O, _ => Corrupt
  | S fuel, Some p =>
      if decide (p ∈ wheel_events r) then Done (previous, problem true r) else
      let! n := present (events m !! p) in
      inspect_bucket bucket m fuel (next_sched n) (Some p) (inspect_event bucket p n previous r)
  end.

Fixpoint inspect_buckets (ks : list Z) (m : memory) (r : nevent_integrity_report)
  : outcome nevent_integrity_report :=
  match ks with
  | [] => Done r
  | k :: ks =>
      let! (previous, r) := inspect_bucket k m (S (size (events m))) (head_of Sched k m) None r in
      inspect_buckets ks m (problem (negb (bool_decide (tails (wheel m) !! k = previous))) r)
  end.

Definition owner_of (w : kind) (e : event_data) : option Z :=
  match w with Sched => None | Char => ev_ch e | Obj => ev_obj e end.

(** The list of an owner; [local] are the events seen of it. *)
Fixpoint inspect_owned (w : kind) (k : Z) (m : memory) (fuel : nat) (owned previous : option ptr)
    (local : gset ptr) (r : nevent_integrity_report)
  : outcome (option ptr * nevent_integrity_report) :=
  match fuel, owned with
  | _, None => Done (previous, r)
  | O, _ => Corrupt
  | S fuel, Some p =>
      if decide (p ∉ wheel_events r ∨ p ∈ local) then Done (previous, problem true r) else
      let! n := present (events m !! p) in
      let r := {r with
        owner_links ::= λ f w', if bool_decide (w' = w) then f w' + 1 else f w';
        owner_events ::= λ f w', if bool_decide (w' = w) then {[p]} ∪ f w' else f w' } in
      let r := problem (negb (bool_decide (owner_of w (ev n) = Some k))
                        || negb (bool_decide (lk_prev (lk w) n = previous))) r in
      inspect_owned w k m fuel (lk_next (lk w) n) (Some p) ({[p]} ∪ local) r
  end.

Fixpoint inspect_owners (w : kind) (ks : list Z) (m : memory) (r : nevent_integrity_report)
  : outcome nevent_integrity_report :=
  match ks with
  | [] => Done r
  | k :: ks =>
      let! (previous, r) := inspect_owned w k m (S (size (events m))) (head_of w k m) None ∅ r in
      inspect_owners w ks m (problem (negb (bool_decide (tails (anchors_of w m) !! k = previous))) r)
  end.

(** Whether what an event names is not what is live, or is not joined as it should be. *)
Definition bad_character (e : event_data) : bool :=
  match ev_ch e with
  | None => false
  | Some c =>
      match live_characters g !! c with
      | None => negb (bool_decide (func e = Some release_mob_mem))
      | Some id => negb (owner_runtime_id e =? 0) && negb (id =? owner_runtime_id e)
      end
  end.
Definition bad_object (e : event_data) : bool :=
  match ev_obj e with Some o => bool_decide (o ∉ live_objects g) | None => false end.
Definition victim_live (w : Z) (e : event_data) : bool :=
  match live_characters g !! w with
  | None => false
  | Some id => (victim_runtime_id e =? 0) || (id =? victim_runtime_id e)
  end.
Definition bad_link (c w l : Z) : bool :=
  negb (bool_decide (l ∈ linking_list g c)) || negb (bool_decide (l ∈ linked_list g w))
  || negb (bool_decide (link_of g l = CharLink LNK_EVENT c w)).
Definition bad_victim (e : event_data) : bool :=
  match ev_victim e with
  | None => bool_decide (is_Some (cld e))
  | Some w =>
      if negb (victim_live w e) then true
      else if bool_decide (ev_ch e = Some w) then bool_decide (is_Some (cld e))
      else match ev_ch e with
           | None => true
           | Some c =>
               if bool_decide (is_Some (live_characters g !! c)) then
                 match cld e with Some l => bad_link c w l | None => true end
               else false
           end
  end.
(** Whether a live owner's list lacks the event. *)
Definition absent (w : kind) (live : Z → bool) (p : ptr) (e : event_data) (r : nevent_integrity_report) : bool :=
  match owner_of w e with
  | Some k => live k && bool_decide (p ∉ owner_events r w)
  | None => false
  end.

Definition inspect_names (m : memory) (p : ptr) (r : nevent_integrity_report) : nevent_integrity_report :=
  match data m !! p with
  | Some e => problem (bad_victim e) (problem (bad_object e) (problem (bad_character e) r))
  | None => r
  end.
Definition inspect_absent (m : memory) (p : ptr) (r : nevent_integrity_report) : nevent_integrity_report :=
  match data m !! p with
  | Some e =>
      problem (absent Obj (λ o, bool_decide (o ∈ live_objects g)) p e r)
        (problem (absent Char (λ c, bool_decide (is_Some (live_characters g !! c))) p e r) r)
  | None => r
  end.

Definition nevent_inspect_invariants (s : scheduler) : outcome nevent_integrity_report :=
  let m := mem s in
  let! r := inspect_buckets all_buckets m no_report in
  let! r := inspect_owners Char (elements (dom (live_characters g))) m r in
  let! r := inspect_owners Obj (elements (live_objects g)) m r in
  let r := foldr (inspect_names m) r (elements (wheel_events r)) in
  let r := foldr (inspect_absent m) r (elements (wheel_events r)) in
  let r := problem (negb (wheel_count r =? ne_event_counter s)) r in
  let r := problem (negb (wheel_count r =? objs_used (ne_dead_event_pool m))) r in
  let r := problem (negb (r_deferred_count r =? nevent_catchup_debt s)
    || negb (r_deferred_cost_us r =? nevent_catchup_debt_estimated_us s)
    || negb (bool_decide (deferred_due_counts r = nevent_deferred_due_counts s))) r in
  let! periodic_errors := nevent_periodic_integrity_errors s in
  Done {r with r_errors ::= λ n, n + periodic_errors}.

Definition check_nevents (s : scheduler) : outcome bool :=
  let! r := nevent_inspect_invariants s in
  Done (r_errors r =? 0).
End Inspect.

(** ** What the wheel shows *)

(** The sum of a weight over a list of events. *)
Fixpoint lsum (w : event_data → Z) (D : gmap ptr event_data) (l : list ptr) : Z :=
  match l with
  | [] => 0
  | p :: l => match D !! p with Some d => w d | None => 0 end + lsum w D l
  end.

Lemma lsum_delete w D p l : p ∉ l → lsum w (delete p D) l = lsum w D l.
Proof.
  induction l as [|q l IH]; intros N; [done|]. apply not_elem_of_cons in N as [N1 N2]. cbn [lsum].
  rewrite IH by done. by rewrite lookup_delete_ne.
Qed.

Lemma tally_lsum w : ∀ l D, NoDup l → (∀ p d, D !! p = Some d → p ∉ l → w d = 0) →
  tally w D = lsum w D l.
Proof.
  induction l as [|p l IH]; intros D Nd Z.
  - rewrite (tally_ext _ (λ _, 0)); [apply tally_const_zero|]. intros q d E. apply (Z q d E). apply not_elem_of_nil.
  - apply NoDup_cons in Nd as [Np Nd]. cbn [lsum]. destruct (D !! p) as [d|] eqn:E.
    + rewrite <- (insert_delete_id D p d) at 1 by done. rewrite tally_insert by apply lookup_delete_eq. f_equal.
      rewrite <- (lsum_delete w D p l Np). apply IH; [done|]. intros q e Eq Nq.
      apply lookup_delete_Some in Eq as [N Eq]. apply (Z q e Eq). apply not_elem_of_cons. done.
    + rewrite <- (lsum_delete w D p l Np), (delete_id D p E). rewrite (IH D Nd); [done|].
      intros q e Eq Nq. apply (Z q e Eq). apply not_elem_of_cons. split; [|done]. intros ->. congruence.
Qed.

(** The report on the events of [L]. *)
Record surveyed (js : list nevent_periodic_job_state) (D : gmap ptr event_data) (L : list ptr)
    (r : nevent_integrity_report) : Prop := {
  sv_errors : 0 ≤ r_errors r;
  sv_valid : r_errors r = 0 ↔
    ∀ p d, p ∈ L → D !! p = Some d → nevent_periodic_event_is_valid js p d = true;
  sv_nodup : NoDup L;
  sv_used p : p ∈ L → ∃ d, D !! p = Some d ∧ used d = true;
  sv_events p : p ∈ wheel_events r ↔ p ∈ L;
  sv_count : wheel_count r = Z.of_nat (length L);
  sv_sequences q : q ∈ sequences r ↔ ∃ p d, p ∈ L ∧ D !! p = Some d ∧ sequence d = q;
  sv_deferred : r_deferred_count r = lsum count_owing D L;
  sv_cost : r_deferred_cost_us r = lsum cost_owing D L;
  sv_due t : default 0 (deferred_due_counts r !! t) = lsum (count_due t) D L;
  sv_due_pos t n : deferred_due_counts r !! t = Some n → 0 < n;
}.

Lemma used_list_bound (D : gmap ptr event_data) L :
  NoDup L → (∀ p, p ∈ L → ∃ d, D !! p = Some d ∧ used d = true) → (length L ≤ size D)%nat.
Proof.
  intros Nd V. rewrite <- (size_dom D). transitivity (size (list_to_set L : gset ptr)).
  - by rewrite size_list_to_set.
  - apply subseteq_size. intros p Ip. apply elem_of_list_to_set in Ip. destruct (V p Ip) as (d & E & _).
    apply elem_of_dom. eauto.
Qed.

Lemma lsum_cost_bound ph s v L : inv ph s v → 0 ≤ lsum cost_owing (data (mem s)) L ≤ MAX_COST * Z.of_nat (length L).
Proof.
  intros I. induction L as [|p L IH]; [done|]. cbn [lsum length].
  assert (0 ≤ match data (mem s) !! p with Some d => cost_owing d | None => 0 end ≤ MAX_COST) as B.
  { destruct (data (mem s) !! p) as [d|] eqn:E; [by eapply cost_owing_nonneg|done]. }
  unfold MAX_COST in *. lia.
Qed.

Lemma inspect_event_surveyed js ph s v L r p n k previous :
  inv ph s v → off_wheel ph = [] → dying ph = [] → surveyed js (data (mem s)) L r →
  p ∉ L → events (mem s) !! p = Some n → used (ev n) = true → element (ev n) = k → prev_sched n = previous →
  surveyed js (data (mem s)) (p :: L) (inspect_event js k p n previous r).
Proof.
  intros I Of Dy [Er Vl Nd Us Ev Co Sq De Cs Du Dp] Np En U El Pv. set (D := data (mem s)) in *.
  assert (D !! p = Some (ev n)) as Ed by (unfold D; by apply data_lookup).
  set (d := ev n) in *. pose proof (i_used _ _ _ I p d Ed U) as Ok.
  unfold inspect_event. fold d. rewrite Pv, El, (bool_decide_eq_true_2 (previous = previous)), Z.eqb_refl by done. cbn [negb problem].
  assert ((deferral_count d =? 0) && negb (nevent_bucket_for_tick (due_tick d) =? k) = false) as ->.
  { destruct (Z.eqb_spec (deferral_count d) 0) as [Z|]; [|done]. cbn [andb]. apply negb_false_iff, Z.eqb_eq.
    destruct (i_placed _ _ _ I p d Ed U) as [[_ X]|[_ X]]; [rewrite Of; apply not_elem_of_nil|..];
      (destruct X as [[X _]|[X _]]; [congruence|lia]). }
  cbn [problem]. pose proof (used_sequence _ Ok) as S1.
  destruct (Z.eqb_spec (sequence d) 0) as [|Sn]; [lia|]. cbn [orb].
  rewrite (bool_decide_eq_false_2 (sequence d ∈ _)).
  2: { intros X. apply Sq in X as (q & e & Iq & Eq & Sqe). destruct (Us q Iq) as (e' & Eq' & Uq).
       rewrite Eq in Eq'. injection Eq' as <-. apply Np. by rewrite (i_distinct _ _ _ I p q d e Ed Eq U Uq). }
  cbn [problem].
  assert (is_live (lifecycle_state d) = true) as ->.
  { destruct (lifecycle_state d) eqn:Lc; try by (unfold used in U; rewrite Lc in U).
    exfalso. pose proof (i_dying _ _ _ I p d Ed Lc) as X. rewrite Dy in X. by apply not_elem_of_nil in X. }
  cbn [negb problem].
  assert (Bool.eqb (bool_decide (ev_data d = None)) (negb (data_destroy d)) = true) as ->.
  { pose proof (used_data _ Ok) as X. destruct (ev_data d), (data_destroy d); try done.
    - assert (false = true) by (apply X; eauto). done.
    - destruct (proj1 X eq_refl) as [? Y]. done. }
  cbn [negb problem].
  assert (∀ q, (∃ p0 d0, p0 ∈ p :: L ∧ D !! p0 = Some d0 ∧ sequence d0 = q)
    ↔ q = sequence d ∨ q ∈ sequences r) as Sq'.
  { intros q. rewrite Sq. split.
    - intros (p0 & d0 & I0 & E0 & Q0). apply elem_of_cons in I0 as [->|I0]; [left; congruence|right; eauto].
    - intros [->|(p0 & d0 & I0 & E0 & Q0)]; [exists p, d; by split; [left|]|exists p0, d0; by split; [right|]]. }
  assert (∀ q, q ∈ p :: L → ∃ d0, D !! q = Some d0 ∧ used d0 = true) as Us'.
  { intros q X. apply elem_of_cons in X as [->|X]; [eauto|by apply Us]. }
  assert (NoDup (p :: L)) as Nd' by by constructor.
  assert (0 < deferral_count d ↔ owing d = true) as Ow by (unfold owing; lia).
  assert (∀ r', wheel_events r' = {[p]} ∪ wheel_events r → wheel_count r' = wheel_count r + 1 →
    sequences r' = {[sequence d]} ∪ sequences r →
    r_errors r' = r_errors r + Z.b2z (negb (nevent_periodic_event_is_valid js p d)) →
    r_deferred_count r' = r_deferred_count r + count_owing d →
    r_deferred_cost_us r' = r_deferred_cost_us r + cost_owing d →
    (∀ t, default 0 (deferred_due_counts r' !! t) = default 0 (deferred_due_counts r !! t) + count_due t d) →
    (∀ t n, deferred_due_counts r' !! t = Some n → 0 < n) → surveyed js D (p :: L) r') as Go.
  { intros r' E1 E2 E3 E4 E5 E6 E7 E8. split; try done.
    - rewrite E4. destruct (nevent_periodic_event_is_valid js p d); cbn; lia.
    - transitivity (nevent_periodic_event_is_valid js p d = true ∧ r_errors r = 0).
      { rewrite E4. destruct (nevent_periodic_event_is_valid js p d); cbn; split; [lia|lia|lia|]. by intros []. }
      rewrite Vl. split.
      + intros [V1 V2] q x Iq Eq. apply elem_of_cons in Iq as [->|Iq]; [congruence|eauto].
      + intros V. split; [apply V; [by left|done]|]. intros q x Iq Eq. apply V; [by right|done].
    - intros q. by rewrite E1, elem_of_union, elem_of_singleton, Ev, elem_of_cons.
    - rewrite E2, Co. cbn [length]. lia.
    - intros q. by rewrite Sq', E3, elem_of_union, elem_of_singleton.
    - cbn [lsum]. rewrite E5, Ed, De. lia.
    - cbn [lsum]. rewrite E6, Ed, Cs. lia.
    - intros t. cbn [lsum]. rewrite E7, Ed, Du. lia. }
  assert (count_owing d = if owing d then 1 else 0) as Wc by (unfold count_owing; by rewrite U).
  assert (cost_owing d = if owing d then deferred_cost_us d else 0) as Wu by (unfold cost_owing; by rewrite U).
  assert (∀ t, count_due t d = if owing d && (due_tick d =? t) then 1 else 0) as Wd by (intros t; unfold count_due; by rewrite U).
  set (r2 := problem (negb (nevent_periodic_event_is_valid js p d)) _).
  assert (wheel_events r2 = {[p]} ∪ wheel_events r ∧ wheel_count r2 = wheel_count r + 1
    ∧ sequences r2 = {[sequence d]} ∪ sequences r
    ∧ r_errors r2 = r_errors r + Z.b2z (negb (nevent_periodic_event_is_valid js p d))
    ∧ r_deferred_count r2 = r_deferred_count r ∧ r_deferred_cost_us r2 = r_deferred_cost_us r
    ∧ deferred_due_counts r2 = deferred_due_counts r) as (Q1 & Q2 & Q3 & Q4 & Q5 & Q6 & Q7).
  { unfold r2. destruct (nevent_periodic_event_is_valid js p d); split_and!; try done. symmetry. apply Z.add_0_r. }
  clearbody r2.
  destruct (Z.ltb_spec 0 (deferral_count d)) as [Gt|Le].
  - assert (owing d = true) as O by by apply Ow. rewrite O in Wc, Wu. apply Go; try done.
    + change (r_deferred_count r2 + 1 = r_deferred_count r + count_owing d). by rewrite Wc, Q5.
    + change (nevent_saturating_add_ull (r_deferred_cost_us r2) (deferred_cost_us d) = r_deferred_cost_us r + cost_owing d).
      rewrite Wu, Q6, Cs. pose proof (lsum_cost_bound _ _ _ L I) as B. pose proof (used_list_bound D L Nd Us) as Ll.
      pose proof (i_size _ _ _ I) as Sz. fold D in Sz, B. pose proof (used_cost _ Ok O) as Uc.
      unfold nevent_saturating_add_ull, MAX_EVENTS, MAX_COST, ULLONG_MAX in *.
      destruct (Z.ltb_spec (2 ^ 64 - 1 - lsum cost_owing D L) (deferred_cost_us d)); lia.
    + intros t. rewrite Wd, O, <- Q7. cbn [andb].
      change (default 0 (<[due_tick d := default 0 (deferred_due_counts r2 !! due_tick d) + 1]> (deferred_due_counts r2) !! t)
        = default 0 (deferred_due_counts r2 !! t) + (if due_tick d =? t then 1 else 0)).
      destruct (Z.eqb_spec (due_tick d) t) as [->|Nt]; [by rewrite lookup_insert_eq|].
      rewrite lookup_insert_ne by done. lia.
    + intros t m. change (<[due_tick d := default 0 (deferred_due_counts r2 !! due_tick d) + 1]> (deferred_due_counts r2) !! t
        = Some m → 0 < m). rewrite Q7.
      destruct (decide (due_tick d = t)) as [->|Nt]; [|rewrite lookup_insert_ne by done; apply Dp].
      rewrite lookup_insert_eq. intros [= <-].
      destruct (deferred_due_counts r !! t) as [x|] eqn:Ex; cbn; [pose proof (Dp t x Ex); unfold id|]; lia.
  - assert (owing d = false) as O by (destruct (owing d); [|done]; lia).
    rewrite O in Wc, Wu. apply Go; rewrite ?Q5, ?Q6, ?Q7; try done.
    + rewrite Wc. symmetry. apply Z.add_0_r.
    + rewrite Wu. symmetry. apply Z.add_0_r.
    + intros t. rewrite Wd, O. symmetry. apply Z.add_0_r.
Qed.

(** ** The lists of the wheel and of the owners *)

Section Wheel.
Context (js : list nevent_periodic_job_state) (ph : phase) (s : scheduler) (v : view) (I : inv ph s v).
Context (Of : off_wheel ph = []) (Dy : dying ph = []).

Lemma inspect_bucket_spec k : ∀ fuel l1 l2 L r,
  buckets v k = l1 ++ l2 → surveyed js (data (mem s)) L r → (∀ p, p ∈ l2 → p ∉ L) → (length l2 ≤ fuel)%nat →
  ∃ r' L', inspect_bucket js k (mem s) fuel (first l2 None) (final None l1) r = Done (final None (l1 ++ l2), r')
    ∧ surveyed js (data (mem s)) L' r' ∧ ∀ p, p ∈ L' ↔ p ∈ L ∨ p ∈ l2.
Proof.
  induction fuel as [|fuel IH]; intros l1 l2 L r B S Nl F.
  - destruct l2; [|cbn in F; lia]. exists r, L. rewrite app_nil_r. split; [done|]. split; [done|]. set_solver.
  - destruct l2 as [|p l2].
    { exists r, L. rewrite app_nil_r. split; [done|]. split; [done|]. set_solver. }
    pose proof (rep_listed _ _ (i_rep _ _ _ I) Sched k) as [_ _ Ch Nd].
    change (lists v Sched k) with (buckets v k) in Ch, Nd. rewrite B in Ch, Nd.
    assert (p ∈ buckets v k) as Ip by (rewrite B; set_solver).
    pose proof Ip as (_ & d & Ed & Kd)%(i_wheel _ _ _ I).
    assert (used d = true ∧ element d = k) as [U El].
    { unfold key in Kd. destruct (used d); [|done]. by injection Kd as ->. }
    destruct (lookup_data _ _ _ Ed) as (n & En & <-).
    destruct (chain_at _ _ _ _ _ _ Ch En) as [Pv Nx]. cbn [lk lk_prev lk_next sched_links] in Pv, Nx.
    cbn [first inspect_bucket]. rewrite decide_False.
    2: { rewrite (sv_events _ _ _ _ S). apply Nl. by left. }
    rewrite En. cbn [present bind_outcome]. rewrite Nx.
    destruct (IH (l1 ++ [p]) l2 (p :: L) (inspect_event js k p n (final None l1) r)) as (r' & L' & E & S' & L'p).
    + by rewrite <- app_assoc.
    + eapply inspect_event_surveyed; try done. apply Nl. by left.
    + apply NoDup_app in Nd as (_ & _ & Nd). apply NoDup_cons in Nd as [Nd _].
      intros q Iq X. apply elem_of_cons in X as [->|X]; [done|]. by apply (Nl q); [right|].
    + cbn in F. lia.
    + exists r', L'. rewrite final_snoc, <- app_assoc in E. split; [done|]. split; [done|]. set_solver.
Qed.

Lemma inspect_buckets_spec : ∀ ks L r,
  NoDup ks → surveyed js (data (mem s)) L r → (∀ k p, k ∈ ks → p ∈ buckets v k → p ∉ L) →
  ∃ r' L', inspect_buckets js ks (mem s) r = Done r' ∧ surveyed js (data (mem s)) L' r'
    ∧ ∀ p, p ∈ L' ↔ p ∈ L ∨ ∃ k, k ∈ ks ∧ p ∈ buckets v k.
Proof.
  induction ks as [|k ks IH]; intros L r Nd S Nl.
  - exists r, L. split; [done|]. split; [done|]. set_solver.
  - apply NoDup_cons in Nd as [Nk Nd]. cbn [inspect_buckets].
    rewrite (head_of_spec _ _ Sched k (i_rep _ _ _ I)). change (lists v Sched k) with (buckets v k).
    destruct (inspect_bucket_spec k (Datatypes.S (size (events (mem s)))) [] (buckets v k) L r eq_refl S) as (r1 & L1 & E1 & S1 & L1p).
    { intros p Ip. apply (Nl k p); [by left|done]. }
    { pose proof (bucket_bound _ v Sched k (i_rep _ _ _ I)) as B. change (lists v Sched k) with (buckets v k) in B. lia. }
    change (final None []) with (@None ptr) in E1. rewrite E1. cbn [bind_outcome].
    pose proof (listed_tail _ _ _ _ _ (rep_listed _ _ (i_rep _ _ _ I) Sched k)) as Tl.
    cbn [anchors_of] in Tl. rewrite Tl. change (lists v Sched k) with (buckets v k). cbn [app].
    rewrite bool_decide_eq_true_2 by done. cbn [negb problem].
    destruct (IH L1 r1 Nd S1) as (r2 & L2 & E2 & S2 & L2p).
    { intros j p Ij Ip X. apply L1p in X as [X|X]; [by apply (Nl j p); [right|..]|].
      pose proof (rep_apart _ _ (i_rep _ _ _ I) Sched j k p Ip X) as ->. done. }
    exists r2, L2. split; [done|]. split; [done|]. intros p. rewrite L2p, L1p. set_solver.
Qed.

(** The wheel holds the events in use. *)
Lemma wheel_surveyed : ∃ r L, inspect_buckets js all_buckets (mem s) no_report = Done r
  ∧ surveyed js (data (mem s)) L r ∧ ∀ p d, data (mem s) !! p = Some d → used d = true → p ∈ L.
Proof.
  destruct (inspect_buckets_spec all_buckets [] no_report) as (r & L & E & S & Lp).
  - apply NoDup_seqZ.
  - split; try done; try constructor; try set_solver.
  - intros k p _ _. apply not_elem_of_nil.
  - exists r, L. split; [done|]. split; [done|]. intros p d Ed U. apply Lp. right. exists (element d). split.
    + apply elem_of_seqZ. assert (∃ t, element d = nevent_bucket_for_tick t) as (t & ->).
      { destruct (i_placed _ _ _ I p d Ed U) as [[_ [X|X]]|[_ [X|X]]]; [rewrite Of; apply not_elem_of_nil|..]; destruct_and?; eauto. }
      pose proof (bucket_range t). unfold PULSES_IN_TICK in *. lia.
    + apply (i_wheel _ _ _ I). rewrite Of. split; [apply not_elem_of_nil|]. exists d. split; [done|]. unfold key. by rewrite U.
Qed.

End Wheel.

Section Owners.
Context (js : list nevent_periodic_job_state) (ph : phase) (s : scheduler) (v : view) (I : inv ph s v).

Lemma surveyed_owned D L r f g : surveyed js D L r → surveyed js D L {r with owner_links := f; owner_events := g}.
Proof. intros []. by split. Qed.

Lemma inspect_owned_spec w k L : w ≠ Sched → (∀ p d, data (mem s) !! p = Some d → used d = true → p ∈ L) →
  ∀ fuel l1 l2 local r, lists v w k = l1 ++ l2 → surveyed js (data (mem s)) L r →
  (∀ p, p ∈ l2 → p ∉ local) → (length l2 ≤ fuel)%nat →
  ∃ r', inspect_owned w k (mem s) fuel (first l2 None) (final None l1) local r = Done (final None (l1 ++ l2), r')
    ∧ surveyed js (data (mem s)) L r' ∧ r_errors r' = r_errors r
    ∧ (∀ w', owner_events r w' ⊆ owner_events r' w')
    ∧ ∀ p, p ∈ l2 → p ∈ owner_events r' w.
Proof.
  intros Nw Al. induction fuel as [|fuel IH]; intros l1 l2 local r B S Nl F.
  - destruct l2; [|cbn in F; lia]. exists r. rewrite app_nil_r. split; [done|]. split; [done|]. set_solver.
  - destruct l2 as [|p l2].
    { exists r. rewrite app_nil_r. split; [done|]. split; [done|]. set_solver. }
    pose proof (rep_listed _ _ (i_rep _ _ _ I) w k) as [_ _ Ch Nd]. rewrite B in Ch, Nd.
    assert (p ∈ lists v w k) as Ip by (rewrite B; set_solver).
    pose proof Ip as (d & Ed & Kd)%(i_owners _ _ _ I); [|done].
    assert (used d = true) as U.
    { destruct (used d) eqn:U; [done|]. destruct (i_dead _ _ _ I p d Ed U) as [D1 D2 _ _]. by destruct w; cbn in Kd; congruence. }
    destruct (lookup_data _ _ _ Ed) as (n & En & <-).
    destruct (chain_at _ _ _ _ _ _ Ch En) as [Pv Nx].
    cbn [first inspect_owned]. rewrite decide_False.
    2: { rewrite (sv_events _ _ _ _ S). intros [X|X]; [by apply X, (Al p (ev n))|]. by apply (Nl p); [left|]. }
    rewrite En. cbn [present bind_outcome]. rewrite Nx, Pv.
    assert (owner_of w (ev n) = Some k) as -> by by destruct w.
    rewrite !bool_decide_eq_true_2 by done. cbn [negb orb problem].
    set (r1 := {r with owner_links ::= _; owner_events ::= _}).
    destruct (IH (l1 ++ [p]) l2 ({[p]} ∪ local) r1) as (r' & E & S' & Er & M & O).
    + by rewrite <- app_assoc.
    + by apply surveyed_owned.
    + apply NoDup_app in Nd as (_ & _ & Nd). apply NoDup_cons in Nd as [Nd _]. intros q Iq.
      assert (q ∉ local) by (apply Nl; by right). set_solver.
    + cbn in F. lia.
    + assert (∀ w', owner_events r1 w' = if bool_decide (w' = w) then {[p]} ∪ owner_events r w' else owner_events r w') as E1 by done.
      exists r'. rewrite final_snoc, <- app_assoc in E. split; [done|]. split; [done|]. split; [done|]. split.
      * intros w'. specialize (M w'). rewrite E1 in M. destruct (bool_decide (w' = w)); set_solver.
      * intros q Iq. apply elem_of_cons in Iq as [->|Iq]; [|by apply O].
        apply (M w). rewrite E1, bool_decide_eq_true_2 by done. set_solver.
Qed.

Lemma inspect_owners_spec w L : w ≠ Sched → (∀ p d, data (mem s) !! p = Some d → used d = true → p ∈ L) →
  ∀ ks r, surveyed js (data (mem s)) L r →
  ∃ r', inspect_owners w ks (mem s) r = Done r' ∧ surveyed js (data (mem s)) L r'
    ∧ r_errors r' = r_errors r
    ∧ (∀ w', owner_events r w' ⊆ owner_events r' w')
    ∧ ∀ k p, k ∈ ks → p ∈ lists v w k → p ∈ owner_events r' w.
Proof.
  intros Nw Al. induction ks as [|k ks IH]; intros r S.
  - exists r. split; [done|]. split; [done|]. split; [done|]. split; [done|]. by intros k p X%not_elem_of_nil.
  - cbn [inspect_owners]. rewrite (head_of_spec _ _ w k (i_rep _ _ _ I)).
    destruct (inspect_owned_spec w k L Nw Al (Datatypes.S (size (events (mem s)))) [] (lists v w k) ∅ r eq_refl S)
      as (r1 & E1 & S1 & Er1 & M1 & O1).
    { set_solver. } { pose proof (bucket_bound _ v w k (i_rep _ _ _ I)). lia. }
    change (final None []) with (@None ptr) in E1. rewrite E1. cbn [bind_outcome].
    rewrite (listed_tail _ _ _ _ _ (rep_listed _ _ (i_rep _ _ _ I) w k)). cbn [app].
    rewrite bool_decide_eq_true_2 by done. cbn [negb problem].
    destruct (IH r1 S1) as (r2 & E2 & S2 & Er2 & M2 & O2).
    exists r2. split; [done|]. split; [done|]. split; [congruence|]. split.
    + intros w'. transitivity (owner_events r1 w'); [apply M1|apply M2].
    + intros j p Ij Ip. apply elem_of_cons in Ij as [->|Ij]; [by apply (M2 w), O1|by apply (O2 j)].
Qed.
End Owners.

(** ** The whole check *)

(** An event in order with the rest of the game: what it names is live and is what it was
    when the event was made, its link joins the two characters in both of their lists, and the job
    it belongs to has it as its event. *)
Record event_in_order (g : game) (jobs : list nevent_periodic_job_state) (p : ptr) (d : event_data) : Prop := {
  io_owner c : ev_ch d = Some c →
    (∃ id, live_characters g !! c = Some id ∧ (owner_runtime_id d = 0 ∨ owner_runtime_id d = id))
    ∨ live_characters g !! c = None ∧ func d = Some release_mob_mem;
  io_object o : ev_obj d = Some o → o ∈ live_objects g;
  io_victim w : ev_victim d = Some w →
    ∃ id, live_characters g !! w = Some id ∧ (victim_runtime_id d = 0 ∨ victim_runtime_id d = id);
  io_link c w : ev_ch d = Some c → ev_victim d = Some w → c ≠ w → is_Some (live_characters g !! c) →
    ∃ l, cld d = Some l ∧ l ∈ linking_list g c ∧ l ∈ linked_list g w ∧ link_of g l = CharLink LNK_EVENT c w;
  io_job : periodic_job_id d ≠ 0 →
    ∃ job, jobs !! Z.to_nat (periodic_job_id d - 1) = Some job ∧ configured job = true ∧ func d = callback job
      ∧ if running job then running_event job = Some p else handle job = Handle (Some p) (sequence d);
}.

(** The job of an index has an event waiting: its handle is of an active event of the job. *)
Definition waiting (s : scheduler) (index : nat) (job : nevent_periodic_job_state) : Prop :=
  ∃ p d, handle job = Handle (Some p) (sequence d) ∧ data (mem s) !! p = Some d
    ∧ lifecycle_state d = active ∧ periodic_job_id d = Z.of_nat index + 1 ∧ func d = callback job.

(** An enabled job waits or runs, a disabled one does neither, unless it is being armed or
    disarmed. *)
Definition job_in_order (s : scheduler) (index : nat) (job : nevent_periodic_job_state) : Prop :=
  arming job = false → disarming job = false →
  if enabled job then running job = true ∨ waiting s index job
  else running job = false ∧ ¬ waiting s index job.

Record in_order (g : game) (jobs : list nevent_periodic_job_state) (s : scheduler) : Prop := {
  io_events p d : data (mem s) !! p = Some d → used d = true → event_in_order g jobs p d;
  io_jobs index job : jobs !! index = Some job → job_in_order s index job;
}.

(** The handles of the jobs are of memory of the pool. *)
Definition handles_in_pool (jobs : list nevent_periodic_job_state) (s : scheduler) : Prop :=
  ∀ job p, job ∈ jobs → event (handle job) = Some p → is_Some (data (mem s) !! p).

(** ** Errors add up *)

Definition more (n : Z) (r : nevent_integrity_report) : nevent_integrity_report :=
  {r with r_errors ::= λ m, m + n}.

Lemma more_more n m r : more n (more m r) = more (m + n) r.
Proof. destruct r. unfold more. cbn. by rewrite Z.add_assoc. Qed.
Lemma more_zero r : more 0 r = r.
Proof. destruct r. unfold more. cbn. by rewrite Z.add_0_r. Qed.
Lemma problem_more b r : problem b r = more (Z.b2z b) r.
Proof. destruct b; [done|]. cbn [problem Z.b2z]. by rewrite more_zero. Qed.

(** How much a weight of the elements of a list is together. *)
Definition weigh {A} (w : A → Z) (l : list A) : Z := foldr (λ x n, n + w x) 0 l.

Lemma foldr_more {A} (f : A → nevent_integrity_report → nevent_integrity_report) w l r :
  (∀ x n, x ∈ l → f x (more n r) = more (n + w x) r) → foldr f r l = more (weigh w l) r.
Proof.
  induction l as [|x l IH]; intros H; [by rewrite more_zero|]. cbn [foldr].
  change (weigh w (x :: l)) with (weigh w l + w x). rewrite IH; [|intros y n Iy; apply H; by right]. apply H. by left.
Qed.

Lemma weigh_zero {A} (w : A → Z) l :
  (∀ x, x ∈ l → 0 ≤ w x) → 0 ≤ weigh w l ∧ (weigh w l = 0 ↔ ∀ x, x ∈ l → w x = 0).
Proof.
  induction l as [|x l IH]; intros N.
  - split; [done|]. split; [by intros _ x X%not_elem_of_nil|done].
  - destruct IH as [P Z]; [intros y Iy; apply N; by right|]. pose proof (N x ltac:(by left)) as Nx.
    change (weigh w (x :: l)) with (weigh w l + w x). split; [lia|].
    split.
    + intros E y Iy. apply elem_of_cons in Iy as [->|Iy]; [lia|]. apply Z; [lia|done].
    + intros A0. rewrite (A0 x ltac:(by left)). rewrite (proj2 Z); [done|]. intros y Iy. apply A0. by right.
Qed.

Section Order.
Context (g : game) (jobs : list nevent_periodic_job_state) (s : scheduler).

(** ** An event in order *)

(** How much is wrong with what an event names. *)
Definition names_wrong (p : ptr) : Z :=
  match data (mem s) !! p with
  | Some e => Z.b2z (bad_character g e) + Z.b2z (bad_object g e) + Z.b2z (bad_victim g e)
  | None => 0
  end.

Lemma names_more p n r : inspect_names g (mem s) p (more n r) = more (n + names_wrong p) r.
Proof.
  unfold inspect_names, names_wrong. destruct (data (mem s) !! p) as [e|]; [|by rewrite Z.add_0_r].
  rewrite !problem_more, !more_more. f_equal. lia.
Qed.

Lemma valid_job p d :
  nevent_periodic_event_is_valid jobs p d = true ↔ (periodic_job_id d ≠ 0 →
    ∃ job, jobs !! Z.to_nat (periodic_job_id d - 1) = Some job ∧ configured job = true ∧ func d = callback job
      ∧ if running job then running_event job = Some p else handle job = Handle (Some p) (sequence d)).
Proof.
  unfold nevent_periodic_event_is_valid. destruct (Z.eqb_spec (periodic_job_id d) 0) as [->|Nz].
  { split; [by intros _ []|done]. }
  destruct (jobs !! _) as [[cb cf en ar di ru [he hs] re]|];
    [|split; [done|by intros X; destruct (X Nz) as (? & ? & _)]]. cbn.
  transitivity (cf = true ∧ func d = cb ∧ if ru then re = Some p else he = Some p ∧ hs = sequence d).
  - destruct cf; [|split; [done|by intros [? _]]]. destruct (decide (func d = cb)) as [F|F].
    + rewrite (bool_decide_eq_true_2 (func d = cb)) by done. cbn. destruct ru; rewrite ?andb_true_iff, ?bool_decide_eq_true, ?Z.eqb_eq; naive_solver.
    + rewrite (bool_decide_eq_false_2 (func d = cb)) by done. cbn. naive_solver.
  - split.
    + intros (-> & -> & X) _. eexists. split; [done|]. split; [done|]. split; [done|].
      cbn. destruct ru; [done|]. by destruct X as [-> ->].
    + intros X. destruct (X Nz) as (job & [= <-] & C & F & Y). split; [done|]. split; [done|].
      cbn in Y. destruct ru; [done|]. by injection Y as -> ->.
Qed.

Lemma good_character d :
  bad_character g d = false ↔ ∀ c, ev_ch d = Some c →
    (∃ id, live_characters g !! c = Some id ∧ (owner_runtime_id d = 0 ∨ owner_runtime_id d = id))
    ∨ live_characters g !! c = None ∧ func d = Some release_mob_mem.
Proof.
  unfold bad_character. destruct (ev_ch d) as [c|]; [|done].
  transitivity ((∃ id, live_characters g !! c = Some id ∧ (owner_runtime_id d = 0 ∨ owner_runtime_id d = id))
    ∨ live_characters g !! c = None ∧ func d = Some release_mob_mem); [|split; [by intros ? ? [= <-]|by intros X; apply X]].
  destruct (live_characters g !! c) as [id|].
  - rewrite andb_false_iff, !negb_false_iff, !Z.eqb_eq. split.
    + intros X. left. exists id. split; [done|]. destruct X as [X|X]; [by left|by right].
    + intros [(i & [= <-] & X)|[? _]]; [|done]. destruct X as [X|X]; [by left|by right].
  - rewrite negb_false_iff, bool_decide_eq_true. split; [by right|]. by intros [(i & ? & _)|[_ ?]].
Qed.

Lemma good_object d : bad_object g d = false ↔ ∀ o, ev_obj d = Some o → o ∈ live_objects g.
Proof.
  unfold bad_object. destruct (ev_obj d) as [o|]; [|done]. rewrite bool_decide_eq_false. split.
  - intros N o' [= <-]. by apply dec_stable.
  - intros X N. by apply N, X.
Qed.

Lemma good_victim d : used_ok d →
  bad_victim g d = false ↔
    (∀ w, ev_victim d = Some w →
      ∃ id, live_characters g !! w = Some id ∧ (victim_runtime_id d = 0 ∨ victim_runtime_id d = id))
    ∧ ∀ c w, ev_ch d = Some c → ev_victim d = Some w → c ≠ w → is_Some (live_characters g !! c) →
      ∃ l, cld d = Some l ∧ l ∈ linking_list g c ∧ l ∈ linked_list g w ∧ link_of g l = CharLink LNK_EVENT c w.
Proof.
  intros Ok. pose proof (used_links _ Ok) as Lk. unfold link_ok in Lk. unfold bad_victim.
  destruct (ev_victim d) as [w|]; [|rewrite Lk; split; [by split|done]].
  assert (victim_live g w d = true ↔ ∃ id, live_characters g !! w = Some id
    ∧ (victim_runtime_id d = 0 ∨ victim_runtime_id d = id)) as Vl.
  { unfold victim_live. destruct (live_characters g !! w) as [id|]; [|split; [done|by intros (? & ? & _)]].
    rewrite orb_true_iff, !Z.eqb_eq. split.
    - intros X. exists id. split; [done|]. destruct X as [X|X]; [by left|by right].
    - intros (i & [= <-] & X). destruct X as [X|X]; [by left|by right]. }
  destruct (victim_live g w d); cbn [negb].
  2: { split; [done|]. intros [X _]. by destruct (proj2 Vl (X w eq_refl)). }
  destruct (ev_ch d) as [c|]; [|done]. pose proof (proj1 Vl eq_refl) as V1.
  destruct (decide (c = w)) as [->|N].
  { rewrite bool_decide_eq_true_2, (proj2 Lk) by done. split; [|done]. intros _. split; [by intros ? [= <-]|].
    intros c w' [= <-] [= <-]. done. }
  rewrite (bool_decide_eq_false_2 (Some c = Some w)) by congruence.
  destruct (decide (is_Some (live_characters g !! c))) as [Lc|Nl].
  2: { rewrite bool_decide_eq_false_2 by done. split; [|done]. intros _. split; [by intros ? [= <-]|].
       by intros c' w' [= <-] _ _ X. }
  rewrite bool_decide_eq_true_2 by done.
  destruct (cld d) as [l|]; [|split; [done|by intros _; destruct N; apply Lk]].
  unfold bad_link. rewrite !orb_false_iff, !negb_false_iff, !bool_decide_eq_true. split.
  - intros [[L1 L2] L3]. split; [by intros ? [= <-]|]. intros c' w' [= <-] [= <-] _ _. by exists l.
  - intros [_ X]. destruct (X c w eq_refl eq_refl N Lc) as (l' & [= <-] & L1 & L2 & L3). done.
Qed.

Lemma event_ok p d : data (mem s) !! p = Some d → used_ok d →
  event_in_order g jobs p d ↔ nevent_periodic_event_is_valid jobs p d = true ∧ names_wrong p = 0.
Proof.
  intros Ed Ok. rewrite valid_job. unfold names_wrong. rewrite Ed.
  transitivity ((bad_character g d = false ∧ bad_object g d = false ∧ bad_victim g d = false)
    ∧ nevent_periodic_event_is_valid jobs p d = true).
  - rewrite good_character, good_object, (good_victim d Ok), valid_job. split.
    + intros [A B C D E]. done.
    + by intros [(A & B & C & D) E].
  - rewrite valid_job. destruct (bad_character g d), (bad_object g d), (bad_victim g d); cbn; naive_solver lia.
Qed.

(** ** A job in order *)

Definition valid_events : Prop :=
  ∀ p d, data (mem s) !! p = Some d → used d = true → nevent_periodic_event_is_valid jobs p d = true.

Context (Ok : ∀ p d, data (mem s) !! p = Some d → used d = true → used_ok d).

Lemma matches_spec index job :
  (∀ p, event (handle job) = Some p → is_Some (data (mem s) !! p)) →
  ∃ b, periodic_handle_matches index job s = Done b ∧ (b = true ↔ waiting s index job).
Proof.
  intros In. unfold periodic_handle_matches, nevent_handle_is_active, waiting.
  destruct (handle job) as [[p|] q]; cbn [event h_sequence bind_outcome] in *.
  2: { exists false. split; [done|]. split; [done|]. by intros (p & d & [=] & _). }
  destruct (In p eq_refl) as [d Ed].
  assert ((∃ p0 d0, Handle (Some p) q = Handle (Some p0) (sequence d0) ∧ data (mem s) !! p0 = Some d0
      ∧ lifecycle_state d0 = active ∧ periodic_job_id d0 = Z.of_nat index + 1 ∧ func d0 = callback job)
    ↔ q = sequence d ∧ lifecycle_state d = active ∧ periodic_job_id d = Z.of_nat index + 1
      ∧ func d = callback job) as W.
  { split; [|intros (-> & X); by exists p, d].
    intros (p0 & d0 & [= <- ->] & E & X). by assert (d0 = d) as -> by congruence. }
  setoid_rewrite W.
  destruct (Z.eqb_spec q 0) as [->|Nq]; cbn [bind_outcome negb].
  { exists false. split; [done|]. split; [done|]. intros (Z & Ac & _). exfalso.
    assert (used d = true) as U by by (unfold used; rewrite Ac). pose proof (used_sequence _ (Ok p d Ed U)). lia. }
  unfold at_handle. rewrite Ed. cbn [bind_outcome].
  destruct (Z.eqb_spec (sequence d) q) as [<-|Ns]; cbn [andb bind_outcome negb].
  2: { exists false. split; [done|]. split; [done|]. by intros (-> & _). }
  destruct (decide (lifecycle_state d = active)) as [Ac|Na].
  - rewrite bool_decide_eq_true_2 by done. cbn [negb]. eexists. split; [done|].
    rewrite andb_true_iff, Z.eqb_eq, bool_decide_eq_true. unfold job_id_of. naive_solver.
  - rewrite bool_decide_eq_false_2 by done. cbn [negb]. exists false. split; [done|]. naive_solver.
Qed.

Lemma job_errors_spec index job :
  (∀ p, event (handle job) = Some p → is_Some (data (mem s) !! p)) →
  ∃ n, job_errors jobs index job s = Done n ∧ 0 ≤ n ∧ (valid_events → n = 0 ↔ job_in_order s index job).
Proof.
  intros In. unfold job_errors, job_in_order. destruct (arming job); cbn [orb].
  { exists 0. split; [done|]. split; [done|]. intros _. by split. }
  destruct (disarming job).
  { exists 0. split; [done|]. split; [done|]. intros _. by split. }
  destruct (matches_spec index job In) as (armed & -> & Am). cbn [bind_outcome].
  assert (∃ valid, match event (handle job) with
    | Some p => if armed then let! d := at_handle p s in Done (nevent_periodic_event_is_valid jobs p d) else Done true
    | None => Done true end = Done valid ∧ (valid_events → valid = true)) as (valid & -> & Va).
  { destruct (event (handle job)) as [p|] eqn:Eh; [|by exists true]. destruct armed; [|by exists true].
    destruct (proj1 Am eq_refl) as (p' & d & E & Ed & Ac & _). rewrite E in Eh. injection Eh as ->.
    unfold at_handle. rewrite Ed. cbn [bind_outcome]. eexists. split; [done|]. intros V. apply V; [done|].
    unfold used. by rewrite Ac. }
  cbn [bind_outcome]. eexists. split; [done|]. split.
  { destruct (enabled job), armed, (running job), valid; done. }
  intros V. rewrite (Va V). transitivity (if enabled job then running job = true ∨ armed = true else running job = false ∧ armed ≠ true).
  - destruct (enabled job), armed, (running job); cbn; naive_solver.
  - transitivity (if enabled job then running job = true ∨ waiting s index job else running job = false ∧ ¬ waiting s index job).
    + destruct (enabled job); rewrite <- Am; done.
    + split; [by intros X _ _|by intros X; apply X].
Qed.

Lemma jobs_errors_spec : ∀ js index,
  (∀ job p, job ∈ js → event (handle job) = Some p → is_Some (data (mem s) !! p)) →
  ∃ n, jobs_errors jobs index js s = Done n ∧ 0 ≤ n
    ∧ (valid_events → n = 0 ↔ ∀ i job, js !! i = Some job → job_in_order s (index + i) job).
Proof.
  induction js as [|job js IH]; intros index In.
  - exists 0. split; [done|]. split; [done|]. by split.
  - cbn [jobs_errors]. destruct (job_errors_spec index job) as (n & -> & N & Hn); [intros p; apply In; by left|].
    destruct (IH (S index)) as (m & -> & M & Hm); [intros x p Ix; apply In; by right|]. cbn [bind_outcome].
    exists (n + m). split; [done|]. split; [lia|]. intros V. specialize (Hn V). specialize (Hm V).
    transitivity (n = 0 ∧ m = 0); [lia|]. rewrite Hn, Hm. split.
    + intros [A B] [|i] x E; cbn in E.
      * injection E as <-. by rewrite Nat.add_0_r.
      * rewrite Nat.add_succ_r. by apply B.
    + intros A. split; [rewrite <- (Nat.add_0_r index); by apply (A 0%nat)|].
      intros i x E. rewrite Nat.add_succ_comm. by apply (A (S i)).
Qed.

(** What is wrong with the events and jobs together. *)
Lemma in_order_errors L n m : handles_in_pool jobs s → 0 ≤ n →
  (∀ p, p ∈ L ↔ ∃ d, data (mem s) !! p = Some d ∧ used d = true) →
  (n = 0 ↔ ∀ p d, p ∈ L → data (mem s) !! p = Some d → nevent_periodic_event_is_valid jobs p d = true) →
  nevent_periodic_integrity_errors jobs s = Done m →
  n + weigh names_wrong L + m = 0 ↔ in_order g jobs s.
Proof.
  intros Hp N Lu V Em. destruct (jobs_errors_spec jobs 0 Hp) as (m' & E' & M & Hm).
  unfold nevent_periodic_integrity_errors in Em. rewrite E' in Em. injection Em as ->.
  destruct (weigh_zero names_wrong L) as [W Wz].
  { intros p _. unfold names_wrong. destruct (data (mem s) !! p) as [e|]; [|done].
    destruct (bad_character g e), (bad_object g e), (bad_victim g e); done. }
  assert (n = 0 ↔ valid_events) as Vn.
  { rewrite V. unfold valid_events. split.
    - intros X p d Ed U. apply X; [apply Lu; eauto|done].
    - intros X p d Ip Ed. apply Lu in Ip as (d' & Ed' & U). assert (d' = d) as -> by congruence. by apply X. }
  transitivity (valid_events ∧ weigh names_wrong L = 0 ∧ m = 0); [rewrite <- Vn; lia|]. rewrite Wz. split.
  - intros (A & B & C). split; [|by apply (Hm A)]. intros p d Ed U. apply event_ok; [done|by apply (Ok p)|].
    split; [by apply A|]. apply B, Lu. eauto.
  - intros [A B]. assert (valid_events) as Ve.
    { intros p d Ed U. apply (event_ok p d Ed (Ok p d Ed U)). by apply A. }
    split; [done|]. split; [|by apply (Hm Ve)]. intros p Ip. apply Lu in Ip as (d & Ed & U).
    apply (event_ok p d Ed (Ok p d Ed U)). by apply A.
Qed.
End Order.

Section Checked.
Context (g : game) (jobs : list nevent_periodic_job_state) (s : scheduler).

(** No event is absent from the list of a live owner. *)
Lemma absent_none w live v p d r : w ≠ Sched → inv (phase_of s) s v → data (mem s) !! p = Some d →
  (∀ k q, live k = true → q ∈ lists v w k → q ∈ owner_events r w) → absent w live p d r = false.
Proof.
  intros Nw I Ed O. unfold absent. destruct (owner_of w d) as [k|] eqn:K; [|done].
  destruct (live k) eqn:Lk; [|done]. cbn [andb]. apply bool_decide_eq_false. intros X. apply X, (O k); [done|].
  apply (i_owners _ _ _ I); [done|]. exists d. split; [done|]. by destruct w.
Qed.

(** The counts taken from the wheel are those the scheduler keeps. *)
Lemma counts_agree ph L r v : inv ph s v → surveyed jobs (data (mem s)) L r →
  (∀ p d, data (mem s) !! p = Some d → used d = true → p ∈ L) →
  wheel_count r = ne_event_counter s ∧ wheel_count r = objs_used (ne_dead_event_pool (mem s))
  ∧ r_deferred_count r = nevent_catchup_debt s ∧ r_deferred_cost_us r = nevent_catchup_debt_estimated_us s
  ∧ deferred_due_counts r = nevent_deferred_due_counts s.
Proof.
  intros I S3 Al. pose proof (sv_nodup _ _ _ _ S3) as Nd.
  assert (∀ w, (∀ d, used d = false → w d = 0) → tally w (data (mem s)) = lsum w (data (mem s)) L) as Ts.
  { intros w W. apply tally_lsum; [done|]. intros p d Ed Np. apply W. destruct (used d) eqn:U; [|done]. exfalso. by apply Np, (Al p d). }
  assert (wheel_count r = ne_event_counter s) as Wc.
  { rewrite (sv_count _ _ _ _ S3), (i_counter _ _ _ I), Ts by (intros d U; unfold count_used; by rewrite U).
    pose proof (sv_used _ _ _ _ S3) as Us3. clear -Us3. induction L as [|p L IH]; [done|]. cbn [lsum length].
    destruct (Us3 p) as (d & -> & U); [by left|]. unfold count_used at 1. rewrite U, <- IH; [lia|].
    intros q Iq. apply Us3. by right. }
  rewrite Wc, (i_objs _ _ _ I), (sv_deferred _ _ _ _ S3), (i_debt _ _ _ I), Ts by (intros d U; unfold count_owing; by rewrite U).
  rewrite (sv_cost _ _ _ _ S3), (i_estimate _ _ _ I), Ts by (intros d U; unfold cost_owing; by rewrite U).
  split_and!; try done. apply map_eq. intros t. pose proof (sv_due _ _ _ _ S3 t) as D1. pose proof (i_due _ _ _ I t) as D2.
  rewrite Ts in D2 by (intros d U; unfold count_due; by rewrite U). unfold due_count in D2. rewrite <- D1 in D2.
  pose proof (sv_due_pos _ _ _ _ S3 t) as P1. pose proof (i_due_pos _ _ _ I t) as P2.
  destruct (deferred_due_counts r !! t) as [x|], (nevent_deferred_due_counts s !! t) as [y|];
    try specialize (P1 _ eq_refl); try specialize (P2 _ eq_refl); cbn in D2; unfold id in D2; [by rewrite D2|lia..|done].
Qed.

Lemma foldr_same {A B} (f : A → B → B) l x : (∀ y, y ∈ l → f y x = x) → foldr f x l = x.
Proof.
  induction l as [|y l IH]; intros H; [done|]. cbn [foldr]. rewrite IH; [apply H; by left|].
  intros z Iz. apply H. by right.
Qed.

Lemma inspect_ordered v : good s v → current_nevent s = None → handles_in_pool jobs s →
  ∃ r, nevent_inspect_invariants g jobs s = Done r ∧ (r_errors r = 0 ↔ in_order g jobs s).
Proof.
  intros G C Hp. pose proof (g_inv _ _ G) as I. unfold nevent_inspect_invariants. cbv zeta.
  assert (off_wheel (phase_of s) = []) as Of by by unfold phase_of; rewrite C.
  assert (dying (phase_of s) = []) as Dy by by unfold phase_of; rewrite C.
  destruct (wheel_surveyed jobs _ s v I Of Dy) as (r1 & L & -> & S1 & Al). cbn [bind_outcome].
  destruct (inspect_owners_spec jobs _ s v I Char L ltac:(done) Al (elements (dom (live_characters g))) r1 S1)
    as (r2 & -> & S2 & _ & _ & O2).
  cbn [bind_outcome].
  destruct (inspect_owners_spec jobs _ s v I Obj L ltac:(done) Al (elements (live_objects g)) r2 S2)
    as (r3 & -> & S3 & _ & M3 & O3).
  cbn [bind_outcome].
  assert (∀ p, p ∈ elements (wheel_events r3) ↔ ∃ d, data (mem s) !! p = Some d ∧ used d = true) as Us.
  { intros p. rewrite elem_of_elements, (sv_events _ _ _ _ S3). split; [by apply (sv_used _ _ _ _ S3)|].
    intros (d & Ed & U). by apply (Al p d). }
  rewrite (foldr_more (inspect_names g (mem s)) (names_wrong g s) _ r3) by (intros p n _; by apply names_more).
  set (wrong := weigh (names_wrong g s) (elements (wheel_events r3))).
  rewrite (foldr_same (inspect_absent g (mem s)) (elements (wheel_events (more wrong r3)))).
  2: { intros p Ip. change (wheel_events (more wrong r3)) with (wheel_events r3) in Ip. apply Us in Ip as (d & Ed & U).
       unfold inspect_absent. rewrite Ed, (absent_none Char _ v p d), (absent_none Obj _ v p d); try done.
       - intros k q K%bool_decide_eq_true B. apply (O3 k); [by apply elem_of_elements|done].
       - intros k q K%bool_decide_eq_true B. apply M3, (O2 k); [by apply elem_of_elements, elem_of_dom|done]. }
  pose proof (counts_agree _ L r3 v I S3 Al) as (W1 & W2 & W3 & W4 & W5).
  change (wheel_count (more wrong r3)) with (wheel_count r3). rewrite W1, Z.eqb_refl. cbn [negb problem].
  change (wheel_count (more wrong r3)) with (wheel_count r3). rewrite W2, Z.eqb_refl. cbn [negb problem].
  change (r_deferred_count (more wrong r3)) with (r_deferred_count r3).
  change (r_deferred_cost_us (more wrong r3)) with (r_deferred_cost_us r3).
  change (deferred_due_counts (more wrong r3)) with (deferred_due_counts r3).
  rewrite W3, W4, W5, !Z.eqb_refl, bool_decide_eq_true_2 by done. cbn [negb orb problem].
  destruct (jobs_errors_spec jobs s (λ p d Ed U, i_used _ _ _ I p d Ed U) jobs 0 Hp) as (n & E & N & _).
  unfold nevent_periodic_integrity_errors at 1. rewrite E. cbn [bind_outcome]. eexists. split; [done|].
  change (r_errors r3 + wrong + n = 0 ↔ in_order g jobs s).
  apply (in_order_errors g jobs s (λ p d Ed U, i_used _ _ _ I p d Ed U)); try done.
  - apply S3.
  - rewrite (sv_valid _ _ _ _ S3). split; intros X p d Ip; apply X; revert Ip;
      by rewrite elem_of_elements, (sv_events _ _ _ _ S3).
Qed.
End Checked.
