(* ===== verification/SchedulerSafety.v ===== *)
(** * What the event scheduler guarantees

    The states the game thread can bring the scheduler to, and the theorems about them. *)

From S2P Require Import Prelude.
From S2P Require Import EventMemory.
From S2P Require Import Scheduler.
From S2P Require Import SchedulerInvariant.
From S2P Require Import SchedulerPass.
From S2P Require Import SchedulerInspect.

(** ** The states between operations *)

(** Between the operations of the game thread, outside a pass. *)
Record ready (s : scheduler) : Prop := {
  r_good : ∃ v, good s v;
  r_hist : hist None s;
  r_current : current_nevent s = None;
}.

(** Passes and ticks take turns, and arguments have their types. *)
Fixpoint alternates (after : bool) (acts : list action) : Prop :=
  match acts with
  | [] => True
  | Ask r :: acts => request_ok r ∧ alternates after acts
  | Events replies _ watchdog :: acts =>
      after = false ∧ Forall reply_ok replies ∧ Forall request_ok watchdog ∧ alternates true acts
  | AdvanceTick :: acts => after = true ∧ alternates false acts
  end.

Lemma init_inv : inv (phase_of ne_init_event_pool) ne_init_event_pool (View (λ _ _, []) []).
Proof.
  split; try done; try (by intros; cbn in *; rewrite ?lookup_empty in *; simplify_eq/=); try (cbn; lia).
  - apply no_memory_rep.
  - intros w k p _. split; [by intros X%not_elem_of_nil|]. intros (d & E & _). done.
  - intros k p. split; [by intros X%not_elem_of_nil|]. intros (_ & d & E & _). done.
  - intros p X. by apply not_elem_of_nil in X.
  - constructor.
  - intros h X. by apply not_elem_of_nil in X.
Qed.

Lemma init_hist : hist None ne_init_event_pool.
Proof.
  split; try done.
  - intros q due tick X. by apply not_elem_of_nil in X.
  - intros q X. by apply not_elem_of_nil in X.
  - intros q B. cbn in B. lia.
Qed.

Lemma init_ready : ready ne_init_event_pool.
Proof. split; [|apply init_hist|done]. exists (View (λ _ _, []) []). split; [apply init_inv|done|done]. Qed.

Lemma advance_tick_ready s :
  ready s → after_events_call s = true → ne_event_tick s < MAX_TICK →
  ∃ s', nevent_advance_tick s = Done s' ∧ ready s' ∧ after_events_call s' = false
    ∧ ne_event_tick s' = ne_event_tick s + 1.
Proof.
  intros [[v G] H C] A Lt. unfold nevent_advance_tick. rewrite A. cbn [negb].
  assert (ne_event_tick s =? ULLONG_MAX = false) as -> by (unfold MAX_TICK, ULLONG_MAX in *; lia). cbn [negb]. cbv zeta.
  set (s' := {s with ne_event_tick := _; pulse := _; after_events_call := _}).
  exists s'. split; [done|]. split; [|split; [done|done]].
  assert (next_tick s' = next_tick s) as Nt.
  { unfold next_tick. rewrite A. change (ne_event_tick s') with (ne_event_tick s + 1).
    change (after_events_call s') with false. cbv iota. lia. }
  destruct G as [I Ca Af]. unfold phase_of in I. rewrite C in I. split; [|by destruct H; split; rewrite ?Nt|done].
  exists v. split; [|exact Ca|done].
  assert (phase_of s' = Phase (next_tick s) (nevent_pending_cancellations s) [] []) as ->.
  { unfold phase_of. change (current_nevent s') with (current_nevent s). by rewrite C, Nt. }
  pose proof (i_tick _ _ _ I) as Tk. destruct I. split; rewrite ?Nt; try done.
  change (ne_event_tick s') with (ne_event_tick s + 1). lia.
Qed.

Section Runs.
Context (cfg : config) (chunk_objects : nat) (granted : nat → bool).
Context (chunk_some : (0 < chunk_objects)%nat).
Context (granted_limit : ∀ n, granted n = true → Z.of_nat (n + chunk_objects) ≤ MAX_EVENTS).

Lemma ask_ready s q :
  ready s → request_ok q →
  holds (λ s', ready s' ∧ after_events_call s' = after_events_call s ∧ ne_event_tick s' = ne_event_tick s)
    (perform cfg chunk_objects granted q s).
Proof.
  intros [[v G] H C] Q.
  eapply holds_impl; [by eapply (perform_asked cfg chunk_objects granted chunk_some granted_limit None)|].
  intros s' (v' & [G' H' Cl _ _ _]). split; [|split; apply Cl].
  split; [eauto|done|]. by rewrite (clock_current _ _ Cl).
Qed.

Lemma run_ready : ∀ acts s,
  ready s → alternates (after_events_call s) acts →
  ne_event_tick s + Z.of_nat (length acts) ≤ MAX_TICK → holds ready (run cfg chunk_objects granted acts s).
Proof.
  induction acts as [|a acts IH]; intros s R A L; [done|]. cbn [run]. cbn [length] in L.
  destruct a as [q|replies clock watchdog|]; cbn [act alternates] in *.
  - destruct A as [Q A]. eapply holds_bind; [by apply ask_ready|]. intros s1 (R1 & A1 & T1).
    apply IH; [done|by rewrite A1|lia].
  - destruct A as (Af & Ro & Wo & A). destruct R as [[v G] H C].
    eapply holds_bind.
    { by eapply (ne_events_holds cfg chunk_objects granted chunk_some granted_limit s v). }
    intros s1 E. apply IH; [|by rewrite (ee_after _ _ _ _ E)|rewrite (ee_same_tick _ _ _ _ E); lia].
    split; [apply E|apply E|apply E].
  - destruct A as (Af & A). destruct (advance_tick_ready s R Af) as (s1 & -> & R1 & A1 & T1); [lia|].
    cbn [bind_outcome]. apply IH; [done|by rewrite A1|lia].
Qed.

(** A state the game thread has brought the scheduler to. *)
Definition reached (s : scheduler) : Prop :=
  ∃ acts, alternates false acts ∧ Z.of_nat (length acts) ≤ MAX_TICK
    ∧ run cfg chunk_objects granted acts ne_init_event_pool = Done s.

Lemma reached_ready s : reached s → ready s.
Proof.
  intros (acts & A & L & E). pose proof (run_ready acts ne_init_event_pool init_ready A) as R.
  rewrite E in R. apply R. change (ne_event_tick ne_init_event_pool) with 0. lia.
Qed.
End Runs.

(** ** Helpers *)

Lemma debt_nonneg ph s v : inv ph s v → 0 ≤ nevent_catchup_debt s.
Proof.
  intros I. rewrite (i_debt _ _ _ I). pose proof (tally_bounds count_owing (data (mem s)) 1) as B.
  destruct B as [B _]; [|done]. intros p d _. unfold count_owing. destruct (_ && _); lia.
Qed.

Lemma prepare_catchup_limit cfg s :
  0 < nevent_max_callbacks cfg → 0 ≤ nevent_catchup_max_extra_callbacks cfg → 0 ≤ nevent_catchup_debt s →
  0 < (nevent_prepare_catchup cfg s).1.2 ≤ nevent_max_callbacks cfg + nevent_catchup_max_extra_callbacks cfg.
Proof.
  intros M X D. unfold nevent_prepare_catchup. cbv zeta.
  change (nevent_catchup_debt {s with nevent_catchup_quota := 0; nevent_catchup_extra_callbacks := 0;
    nevent_catchup_extension_us := 0}) with (nevent_catchup_debt s).
  change (nevent_catchup_remaining {s with nevent_catchup_quota := 0; nevent_catchup_extra_callbacks := 0;
    nevent_catchup_extension_us := 0}) with (nevent_catchup_remaining s).
  destruct (Z.leb_spec (nevent_catchup_debt s) 0), (Z.leb_spec (nevent_catchup_remaining s) 0); cbn [orb]; try (cbn [fst snd]; lia).
  unfold NEVENT_UNLIMITED. destruct (Z.eqb_spec (nevent_max_callbacks cfg) 0) as [|_]; [lia|]. cbn [negb].
  set (quota := Z.min (nevent_ceil_div_ull (nevent_catchup_debt s) _) _).
  assert (0 ≤ quota) as Q.
  { unfold quota, NEVENT_CONFIG_MAX_CALLBACKS, nevent_ceil_div_ull. apply Z.min_glb; [|lia].
    pose proof (Z.div_pos (nevent_catchup_debt s) (nevent_catchup_remaining s) ltac:(lia) ltac:(lia)).
    destruct (_ =? 0); lia. }
  assert (0 < nevent_saturating_add_long (nevent_max_callbacks cfg) (Z.min quota (nevent_catchup_max_extra_callbacks cfg))
    ≤ nevent_max_callbacks cfg + nevent_catchup_max_extra_callbacks cfg) as B.
  { unfold nevent_saturating_add_long, LONG_MAX. destruct (Z.ltb_spec (2 ^ 63 - 1 - nevent_max_callbacks cfg) (Z.min quota (nevent_catchup_max_extra_callbacks cfg))); lia. }
  destruct (negb _); exact B.
Qed.

Lemma chronicle_at l1 n l2 : chronicle (l1 ++ n :: l2) → chronicle (n :: l2).
Proof. induction l1 as [|m l1 IH]; [done|]. intros [_ C]. by apply IH. Qed.

Lemma events_of_view s v w k l : good s v → events_of w k s = Done l → l = lists v w k.
Proof. intros G E. rewrite (events_of_spec s v w k (i_rep _ _ _ (g_inv _ _ G))) in E. by injection E. Qed.

(** A cancellation outside a pass. *)
Lemma cancel_idle s v p d :
  good s v → hist None s → current_nevent s = None → data (mem s) !! p = Some d → lifecycle_state d = active →
  ∃ s' v' d', nevent_cancel (Handle (Some p) (sequence d)) s = Done (canceled, s') ∧ good s' v'
    ∧ data (mem s') = <[p := d']> (data (mem s)) ∧ lifecycle_state d' = released
    ∧ ∀ w k, lists v' w k = without p (lists v w k).
Proof.
  intros G H C Ed Ac.
  destruct (cancel_event None s v p d G H ltac:(done) Ed Ac) as (c & s' & v' & O & Ec & [G' _ _ _ _ _] & _).
  rewrite C in Ec. subst c.
  pose proof (event_used_lookup d Ac) as U. pose proof (g_inv _ _ G) as I.
  pose proof (used_sequence _ (i_used _ _ _ I p d Ed U)) as S1.
  destruct (mark_event_inv _ None s v p d I H Ed Ac) as (I1 & H1 & C1 & Q1 & D1 & W1 & M1).
  destruct (destroy_inv _ (mark p d s) v p (marked d) I1) as (s2 & v2 & O2 & I2 & En).
  { by rewrite D1, lookup_insert_eq. } { done. } { apply not_elem_of_nil. } { done. }
  assert (nevent_cancel (Handle (Some p) (sequence d)) s = Done (canceled, s2)) as O'.
  { unfold nevent_cancel, at_handle. cbn [event h_sequence]. destruct (Z.eqb_spec (sequence d) 0); [lia|].
    rewrite Ed. cbn [bind_outcome]. rewrite Z.eqb_refl, Ac. cbn [negb]. cbv zeta. fold (mark p d s).
    rewrite (clock_current _ _ C1), C. by rewrite O2. }
  rewrite O in O'. injection O' as ->.
  destruct (end_data _ _ _ _ _ _ En) as (d' & D2 & L2 & _).
  exists s2, v', d'. split; [done|]. split; [done|]. split; [by rewrite D2, D1, insert_insert_eq|]. split; [done|].
  pose proof (i_rep _ _ _ (g_inv _ _ G')) as R'. pose proof (i_rep _ _ _ I2) as R2.
  assert (∀ w k, lists v' w k = lists v2 w k) as Ev.
  { intros w k. pose proof (events_of_spec s2 v' w k R') as X. rewrite (events_of_spec s2 v2 w k R2) in X. by injection X. }
  intros w k. rewrite Ev. destruct (decide (w = Sched)) as [->|Nw]; [|by apply (end_owners _ _ _ _ _ _ En)].
  change (buckets v2 k = without p (buckets v k)). rewrite (end_buckets _ _ _ _ _ _ En).
  destruct (decide _) as [E|N]; [done|]. symmetry. apply without_none. intros Ip.
  destruct (in_bucket _ _ _ _ _ _ I Ip Ed) as [_ El]. by apply N.
Qed.

(** ** The guarantees *)

Section Guarantees.
Context (cfg : config) (chunk_objects : nat) (granted : nat → bool).
Context (chunk_some : (0 < chunk_objects)%nat).
Context (granted_limit : ∀ n, granted n = true → Z.of_nat (n + chunk_objects) ≤ MAX_EVENTS).

(** C14: Whatever the game thread asks of the scheduler, between passes and from the callbacks
    inside them, as long as passes and ticks take turns and for four thousand million actions,
    no list, counter, account or pool check of it ever fails and no walk over its lists fails
    to end. *)
Theorem scheduler_never_corrupt acts :
  alternates false acts → Z.of_nat (length acts) ≤ MAX_TICK →
  run cfg chunk_objects granted acts ne_init_event_pool ≠ Corrupt.
Proof.
  intros A L E. pose proof (run_ready cfg chunk_objects granted chunk_some granted_limit acts _ init_ready A) as R.
  rewrite E in R. apply R. change (ne_event_tick ne_init_event_pool) with 0. lia.
Qed.

(** C15: In any state the game thread can reach, the integrity check, which walks the wheel and
    the lists of all owners, adds up counts, costs and due ticks anew and looks into the
    registry of periodic jobs, ends, and finds no error if and only if the rest of the game is in
    order: every event in use names live characters and objects that are what they were when
    it was made, its link joins both characters, the job it belongs to has it as its event,
    and every enabled job has an event waiting or runs, and no disabled job does.  So of the
    scheduler itself it never finds anything wrong. *)
Theorem check_nevents_clean g jobs s :
  reached cfg chunk_objects granted s → handles_in_pool jobs s →
  ∃ b, check_nevents g jobs s = Done b ∧ (b = true ↔ in_order g jobs s).
Proof.
  intros R Hp. apply reached_ready in R as [[v G] _ C]; [|done|done]. unfold check_nevents.
  destruct (inspect_ordered g jobs s v G C Hp) as (r & -> & E).
  cbn [bind_outcome]. exists (r_errors r =? 0). split; [done|]. by rewrite Z.eqb_eq.
Qed.

(** C16: In every state reached, a callback that was run was due, was not cancelled before and
    not run before, and the callbacks run before it were run at no later tick and, at the same
    tick, were due no later. *)
Theorem callbacks_run_once_when_due s later q due tick before :
  reached cfg chunk_objects granted s → log s = later ++ Ran q due tick :: before →
  due ≤ tick ∧ Cancelled q ∉ before ∧ (∀ due' tick', Ran q due' tick' ∉ before)
  ∧ ∀ q' due' tick', Ran q' due' tick' ∈ before → tick' ≤ tick ∧ (tick' = tick → due' ≤ due).
Proof.
  intros R E. apply reached_ready in R as [_ H _]; [|done|done]. pose proof (h_chronicle _ _ H) as C.
  rewrite E in C. by apply chronicle_at in C as [C _].
Qed.

(** C18: A pass with no budget sees to everything due: of the events ever scheduled, by then or
    by its callbacks, each one was run, or was cancelled, or waits for a later tick. *)
Theorem unlimited_pass_runs_all_due s replies clock s' q :
  reached cfg chunk_objects granted s → after_events_call s = false → Forall reply_ok replies →
  nevent_budget_usec cfg = NEVENT_UNLIMITED → nevent_max_callbacks cfg = NEVENT_UNLIMITED →
  ne_events cfg chunk_objects granted replies clock [] s = Done s' →
  1 ≤ q ≤ ne_event_sequence s' →
  (∃ due tick, Ran q due tick ∈ log s') ∨ Cancelled q ∈ log s'
  ∨ ∃ p d, data (mem s') !! p = Some d ∧ sequence d = q ∧ lifecycle_state d = active ∧ ne_event_tick s < due_tick d.
Proof.
  intros R A Ro B M E Q. apply reached_ready in R as [[v G] H C]; [|done|done].
  pose proof (ne_events_holds cfg chunk_objects granted chunk_some granted_limit s v replies clock [] G H C A Ro
    ltac:(constructor)) as X. rewrite E in X.
  destruct (h_kept _ _ (ee_hist _ _ _ _ X) q Q) as [(p & d & Ed & Ac & Sq)|[Y|Y]]; [right; right|by left|right; by left].
  exists p, d. split; [done|]. split; [done|]. split; [done|]. by eapply (ee_all _ _ _ _ X).
Qed.

(** C29: With a limit on callbacks a pass runs at most that many and those the catch-up
    allows on top. *)
Theorem pass_respects_limit s replies clock watchdog s' :
  reached cfg chunk_objects granted s → after_events_call s = false → Forall reply_ok replies → Forall request_ok watchdog →
  0 < nevent_max_callbacks cfg → 0 ≤ nevent_catchup_max_extra_callbacks cfg →
  ne_events cfg chunk_objects granted replies clock watchdog s = Done s' →
  ∃ qs, Z.of_nat (length qs) ≤ nevent_max_callbacks cfg + nevent_catchup_max_extra_callbacks cfg
    ∧ ∀ q due tick, Ran q due tick ∈ log s' → Ran q due tick ∈ log s ∨ q ∈ qs.
Proof.
  intros R A Ro Wo M X E. apply reached_ready in R as [[v G] H C]; [|done|done].
  pose proof (ne_events_holds cfg chunk_objects granted chunk_some granted_limit s v replies clock watchdog G H C A Ro Wo) as Y.
  rewrite E in Y. destruct (ee_ran _ _ _ _ Y) as (qs & Q1 & Q2). exists qs. split; [|done].
  pose proof (prepare_catchup_limit cfg s M X (debt_nonneg _ _ _ (g_inv _ _ G))). lia.
Qed.

(** C17: Of every payload handed over to the scheduler with its destructor, no matter how the
    scheduling went, as many are destroyed as are not still held by an event; so once there are
    no events all have been destroyed, each once. *)
Theorem payloads_destroyed_once s z :
  reached cfg chunk_objects granted s →
  was_handed z (log s) = was_destroyed z (log s) + tally (holds_payload z) (data (mem s))
  ∧ (ne_event_counter s = 0 → was_handed z (log s) = was_destroyed z (log s)).
Proof.
  intros R. apply reached_ready in R as [[v G] H _]; [|done|done]. pose proof (h_payloads _ _ H z) as P.
  split; [done|]. intros Z. rewrite P. pose proof (g_inv _ _ G) as I. rewrite (i_counter _ _ _ I) in Z.
  rewrite (tally_ext _ (λ _, 0)), tally_const_zero; [lia|]. intros p d Ed. unfold holds_payload.
  destruct (used d) eqn:U.
  - assert (∀ p d, data (mem s) !! p = Some d → 0 ≤ count_used d) as N by (intros p' e _; unfold count_used; by destruct (used e)).
    pose proof (tally_zero count_used _ N Z p d Ed) as X. unfold count_used in X. by rewrite U in X.
  - by rewrite (dead_data _ (i_dead _ _ _ I p d Ed U)).
Qed.

(** C28: Outside a pass a handle always cancels the event it was given for while that is active:
    the answer is [canceled], the event is gone from the wheel and from its owners' lists, every
    other event and every list is as it was.  Any other handle changes nothing, and the
    answer tells why: no event in it, an event that is over and whose memory holds another, or an
    event that is over. *)
Theorem cancel_ends_its_event s h :
  reached cfg chunk_objects granted s → (∀ p, event h = Some p → is_Some (data (mem s) !! p)) →
  (∃ p d s' d', h = Handle (Some p) (sequence d) ∧ data (mem s) !! p = Some d ∧ lifecycle_state d = active
    ∧ nevent_cancel h s = Done (canceled, s')
    ∧ data (mem s') = <[p := d']> (data (mem s)) ∧ lifecycle_state d' = released
    ∧ ∀ w k l, events_of w k s = Done l → events_of w k s' = Done (without p l))
  ∨ (∀ p d, h = Handle (Some p) (sequence d) → data (mem s) !! p = Some d → lifecycle_state d ≠ active)
    ∧ ∃ c, nevent_cancel h s = Done (c, s)
      ∧ match c with
        | invalid_handle => event h = None ∨ h_sequence h = 0
            ∨ ∃ p d, h = Handle (Some p) (sequence d) ∧ data (mem s) !! p = Some d ∧ lifecycle_state d = unused
        | stale_handle => ∃ p d, event h = Some p ∧ data (mem s) !! p = Some d ∧ sequence d ≠ h_sequence h
        | already_inactive => ∃ p d, h = Handle (Some p) (sequence d) ∧ data (mem s) !! p = Some d
            ∧ lifecycle_state d ∉ [unused; active]
        | canceled | deferred => False
        end.
Proof.
  intros R In. apply reached_ready in R as [[v G] H C]; [|done|done].
  destruct h as [[p|] q]; [|right; split; [done|]; eexists; split; [done|by left]]. cbn [event h_sequence] in *.
  destruct (In p eq_refl) as [d Ed]. destruct (decide (q = sequence d ∧ lifecycle_state d = active)) as [[-> Ac]|N].
  - left. destruct (cancel_idle s v p d G H C Ed Ac) as (s2 & v2 & d' & O & G2 & D & L & Ls).
    exists p, d, s2, d'. repeat (split; [done|]).
    intros w k l El. apply (events_of_view s v) in El as ->; [|done]. rewrite <- Ls. apply events_of_spec. apply G2.
  - right. split. { intros p' d' [= <- ->] Ed' Ac. apply N. by assert (d' = d) as -> by congruence. }
    unfold nevent_cancel, at_handle. cbn [event h_sequence]. rewrite Ed. cbn [bind_outcome].
    destruct (Z.eqb_spec q 0) as [->|Nq]; [eexists; split; [done|by right; left]|].
    destruct (Z.eqb_spec (sequence d) q) as [<-|Ns]; cbn [negb]; [|eexists; split; [done|by exists p, d]].
    destruct (lifecycle_state d) eqn:Lc; [|by destruct N|..]; eexists; (split; [done|]).
    + right. right. by exists p, d.
    + exists p, d. rewrite Lc. by repeat split; [set_solver|set_solver].
    + exists p, d. rewrite Lc. by repeat split; [set_solver|set_solver].
    + exists p, d. rewrite Lc. by repeat split; [set_solver|set_solver].
Qed.

(** C27: An event scheduled with success outside a pass has the arguments it was given and is due
    after its delay, at the next pass at the soonest; its handle is active; it is in the bucket
    of that tick, whose events are in the order they are due, and in the lists of its owners;
    and no other event has changed. *)
Theorem add_schedules_when_due s a h s' :
  reached cfg chunk_objects granted s → args_ok a → add_event_internal cfg chunk_objects granted a s = Done (scheduled, h, s') →
  ∃ p f l, a_func a = Some f ∧ h = Handle (Some p) (ne_event_sequence s')
    ∧ let e := new_event cfg a f s in
      data (mem s') !! p = Some e ∧ func e = Some f ∧ ev_victim e = fst <$> victim a
      ∧ due_tick e = Z.max (nevent_add_ticks (ne_event_tick s) (delay a)) (nevent_first_eligible_tick s)
      ∧ nevent_handle_is_active h s' = Done true
      ∧ events_of Sched (nevent_bucket_for_tick (due_tick e)) s' = Done l ∧ p ∈ l
      ∧ StronglySorted (due_le (data (mem s'))) l
      ∧ (∀ c, ch a = Some c → ∃ lc, events_of Char (name c) s' = Done lc ∧ p ∈ lc)
      ∧ (∀ o, obj a = Some o → ∃ lo, events_of Obj o s' = Done lo ∧ p ∈ lo)
      ∧ ∀ q d, data (mem s) !! q = Some d → used d = true → q ≠ p ∧ data (mem s') !! q = Some d.
Proof.
  intros R Ao E. apply reached_ready in R as [[v G] H C]; [|done|done].
  pose proof (add_asked cfg chunk_objects granted chunk_some granted_limit None s v a G H Ao) as X.
  rewrite E in X. destruct X as [(v' & [G' _ _ _ _ _]) Ad]. destruct (Ad eq_refl) as (p & f & Fa & -> & Ep & Sq & Ot).
  pose proof (g_inv _ _ G') as I. pose proof (i_rep _ _ _ I) as Rp. set (e := new_event cfg a f s) in *.
  exists p, f, (buckets v' (nevent_bucket_for_tick (due_tick e))). split; [done|]. split; [by rewrite Sq|].
  cbv zeta. fold e. split; [done|]. split; [done|]. split; [done|]. split; [done|].
  assert (sequence e = ne_event_sequence s + 1) as Se by done.
  pose proof (i_sequence _ _ _ (g_inv _ _ G)) as Sn.
  split.
  { unfold nevent_handle_is_active, at_handle. cbn [event h_sequence].
    destruct (Z.eqb_spec (ne_event_sequence s + 1) 0); [lia|]. rewrite Ep. cbn [bind_outcome]. rewrite Se, Z.eqb_refl.
    done. }
  split; [by apply events_of_spec|]. split.
  { apply (i_wheel _ _ _ I). split; [apply not_elem_of_nil|]. exists e. done. }
  split; [apply I|]. split; [|split; [|done]].
  - intros c Ec. exists (lists v' Char (name c)). split; [by apply events_of_spec|].
    apply (i_owners _ _ _ I); [done|]. exists e. split; [done|]. cbn. by rewrite Ec.
  - intros o Eo. exists (lists v' Obj o). split; [by apply events_of_spec|].
    apply (i_owners _ _ _ I); [done|]. exists e. split; [done|]. exact Eo.
Qed.
End Guarantees.

(** ** Witnesses *)

Module Demo.
Definition call (f : event_func) (delay : Z) (ch : option character) : schedule_args :=
  Schedule (Some f) delay ch None None None 0 None false.
Definition elf : character := Character 7 70 true true false false.
Definition attack : schedule_args :=
  Schedule (Some (other_callback 3)) 0 (Some elf) (Some (9, 90)) (Some 4) None 0 (Some 77) true.
Definition asks : list action := [
  Ask (Add (call (other_callback 1) 0 None));
  Ask (Add (call event_hit_regen 0 (Some elf)));
  Ask (Add attack);
  Ask (AddPeriodic (call (other_callback 4) 300 None) 1);
  Ask (Add (call (other_callback 5) 0 None))].
(** The first callback adds an event and cancels the attack, the second puts an event off. *)
Definition replies : list reply := [
  Reply [Add (call (other_callback 8) 0 None); Cancel (Handle (Some 1%nat) 3)] 100;
  Reply [Reschedule (Handle (Some 2%nat) 2) 5] 10].
Definition clock : nat → Z := λ _, 0.
Definition acts : list action := asks ++ [Events replies clock []; AdvanceTick; Events [] clock []].
Definition limited : config := Config 1 25000 2 5000 4000.
Definition unlimited : config := Config 1 0 0 0 0.
Definition granted : nat → bool := λ n, bool_decide (n < 100)%nat.
Definition final_of (o : outcome scheduler) : scheduler :=
  match o with Done s => s | _ => ne_init_event_pool end.
Definition asked_state (cfg : config) : scheduler := final_of (run cfg 4 granted asks ne_init_event_pool).
Definition last_state (cfg : config) : scheduler := final_of (run cfg 4 granted acts ne_init_event_pool).
Definition passed_state (cfg : config) : scheduler :=
  final_of (ne_events cfg 4 granted replies clock [] (asked_state cfg)).

Lemma chunk_some : (0 < 4)%nat. Proof. lia. Qed.
Lemma granted_limit n : granted n = true → Z.of_nat (n + 4) ≤ MAX_EVENTS.
Proof. unfold granted, MAX_EVENTS. intros G%bool_decide_eq_true. lia. Qed.
Lemma acts_alternate : alternates false acts.
Proof. repeat split; try done; repeat constructor; done. Qed.
Lemma asks_alternate : alternates false asks.
Proof. repeat split; try done. Qed.
Lemma replies_ok : Forall reply_ok replies.
Proof. repeat constructor; done. Qed.
Lemma attack_ok : args_ok attack. Proof. done. Qed.
Lemma asked_reached : reached limited 4 granted (asked_state limited).
Proof. exists asks. split; [apply asks_alternate|]. split; [done|]. by vm_compute. Qed.
Lemma asked_reached' : reached unlimited 4 granted (asked_state unlimited).
Proof. exists asks. split; [apply asks_alternate|]. split; [done|]. by vm_compute. Qed.
Lemma last_reached : reached limited 4 granted (last_state limited).
Proof. exists acts. split; [apply acts_alternate|]. split; [done|]. by vm_compute. Qed.

(** The rest of the game: the elf, its enemy, what it holds, the link of the attack and the
    job of the fourth event. *)
Definition world (elf_id : Z) : game :=
  Game {[7 := elf_id; 9 := 90]} {[4]} (λ _, CharLink LNK_EVENT 7 9)
    (λ c, if c =? 7 then [3] else []) (λ c, if c =? 9 then [3] else []).
Definition cleanup (enabled : bool) : nevent_periodic_job_state :=
  Job (Some (other_callback 4)) true enabled false false false (Handle (Some 0%nat) 4) None.
Lemma cleanup_in_pool b : handles_in_pool [cleanup b] (asked_state limited).
Proof. intros job p J. apply list_elem_of_singleton in J as ->. intros [= <-]. refine (bool_decide_unpack _ _). by vm_compute. Qed.
Lemma fourth_in_pool p : event (Handle (Some 0%nat) 4) = Some p → is_Some (data (mem (last_state limited)) !! p).
Proof. intros [= <-]. refine (bool_decide_unpack _ _). by vm_compute. Qed.
End Demo.
Import Demo.

Lemma scheduler_never_corrupt_witness :
  alternates false acts ∧ Z.of_nat (length acts) ≤ MAX_TICK
  ∧ run limited 4 granted acts ne_init_event_pool ≠ Corrupt.
Proof.
  split; [apply acts_alternate|]. split; [done|].
  exact (scheduler_never_corrupt limited 4 granted chunk_some granted_limit acts acts_alternate ltac:(done)).
Defined.

(** The check tells a live event of another's identity, one no job has, and a disabled job that
    waits. *)
Lemma check_nevents_clean_witness :
  ne_event_counter (asked_state limited) = 5
  ∧ check_nevents (world 70) [cleanup true] (asked_state limited) = Done true
  ∧ check_nevents (world 71) [cleanup true] (asked_state limited) = Done false
  ∧ check_nevents (world 70) [] (asked_state limited) = Done false
  ∧ check_nevents (world 70) [cleanup false] (asked_state limited) = Done false
  ∧ ∃ b, check_nevents (world 70) [cleanup true] (asked_state limited) = Done b
      ∧ (b = true ↔ in_order (world 70) [cleanup true] (asked_state limited)).
Proof.
  split; [by vm_compute|]. split; [by vm_compute|]. split; [by vm_compute|]. split; [by vm_compute|].
  split; [by vm_compute|].
  exact (check_nevents_clean limited 4 granted chunk_some granted_limit _ _ _ asked_reached (cleanup_in_pool true)).
Defined.

Lemma callbacks_run_once_when_due_witness :
  let before := [Destroyed (Owned 77); Ran 1 0 0; Cancelled 3; Ran 2 0 0; Handed 77] in
  log (last_state limited) = [Ran 6 1 1] ++ Ran 5 0 1 :: before
  ∧ 0 ≤ 1 ∧ Cancelled 5 ∉ before ∧ (∀ due' tick', Ran 5 due' tick' ∉ before)
  ∧ ∀ q' due' tick', Ran q' due' tick' ∈ before → tick' ≤ 1 ∧ (tick' = 1 → due' ≤ 0).
Proof.
  intros before. assert (log (last_state limited) = [Ran 6 1 1] ++ Ran 5 0 1 :: before) as E by by vm_compute.
  split; [exact E|].
  exact (callbacks_run_once_when_due limited 4 granted chunk_some granted_limit _ _ _ _ _ _ last_reached E).
Defined.

Lemma unlimited_pass_runs_all_due_witness :
  ne_event_sequence (passed_state unlimited) = 6
  ∧ ((∃ due tick, Ran 5 due tick ∈ log (passed_state unlimited)) ∨ Cancelled 5 ∈ log (passed_state unlimited)
     ∨ ∃ p d, data (mem (passed_state unlimited)) !! p = Some d ∧ sequence d = 5 ∧ lifecycle_state d = active
         ∧ ne_event_tick (asked_state unlimited) < due_tick d).
Proof.
  split; [by vm_compute|].
  apply (unlimited_pass_runs_all_due unlimited 4 granted chunk_some granted_limit (asked_state unlimited) replies clock);
    [exact asked_reached'|by vm_compute|exact replies_ok|done|done|by vm_compute|].
  assert (ne_event_sequence (passed_state unlimited) = 6) as -> by by vm_compute. lia.
Defined.

Lemma pass_respects_limit_witness :
  ∃ qs, Z.of_nat (length qs) ≤ 2 + 4000
    ∧ ∀ q due tick, Ran q due tick ∈ log (passed_state limited) → Ran q due tick ∈ log (asked_state limited) ∨ q ∈ qs.
Proof.
  apply (pass_respects_limit limited 4 granted chunk_some granted_limit (asked_state limited) replies clock []);
    [exact asked_reached|by vm_compute|exact replies_ok|constructor|done|done|by vm_compute].
Defined.

Lemma payloads_destroyed_once_witness :
  was_handed 77 (log (last_state limited)) = 1
  ∧ was_handed 77 (log (last_state limited))
    = was_destroyed 77 (log (last_state limited)) + tally (holds_payload 77) (data (mem (last_state limited)))
  ∧ (ne_event_counter (last_state limited) = 0 →
     was_handed 77 (log (last_state limited)) = was_destroyed 77 (log (last_state limited))).
Proof.
  split; [by vm_compute|].
  exact (payloads_destroyed_once limited 4 granted chunk_some granted_limit (last_state limited) 77 last_reached).
Defined.

(** The memory of the event of sequence 3 is free again and its handle does nothing; the one of
    sequence 4 is active. *)
Lemma cancel_ends_its_event_witness :
  let s := last_state limited in let h := Handle (Some 0%nat) 4 in
  nevent_cancel (Handle (Some 1%nat) 3) s = Done (already_inactive, s)
  ∧ nevent_handle_is_active h s = Done true
  ∧ ((∃ p d s' d', h = Handle (Some p) (sequence d) ∧ data (mem s) !! p = Some d ∧ lifecycle_state d = active
    ∧ nevent_cancel h s = Done (canceled, s')
    ∧ data (mem s') = <[p := d']> (data (mem s)) ∧ lifecycle_state d' = released
    ∧ ∀ w k l, events_of w k s = Done l → events_of w k s' = Done (without p l))
  ∨ (∀ p d, h = Handle (Some p) (sequence d) → data (mem s) !! p = Some d → lifecycle_state d ≠ active)
    ∧ ∃ c, nevent_cancel h s = Done (c, s)
      ∧ match c with
        | invalid_handle => event h = None ∨ h_sequence h = 0
            ∨ ∃ p d, h = Handle (Some p) (sequence d) ∧ data (mem s) !! p = Some d ∧ lifecycle_state d = unused
        | stale_handle => ∃ p d, event h = Some p ∧ data (mem s) !! p = Some d ∧ sequence d ≠ h_sequence h
        | already_inactive => ∃ p d, h = Handle (Some p) (sequence d) ∧ data (mem s) !! p = Some d
            ∧ lifecycle_state d ∉ [unused; active]
        | canceled | deferred => False
        end).
Proof.
  intros s h. split; [by vm_compute|]. split; [by vm_compute|].
  exact (cancel_ends_its_event limited 4 granted chunk_some granted_limit s h last_reached fourth_in_pool).
Defined.

Lemma add_schedules_when_due_witness :
  let h := Handle (Some 6%nat) 6 in
  let s' := final_of (let! (_, _, s) := add_event_internal limited 4 granted attack (asked_state limited) in Done s) in
  add_event_internal limited 4 granted attack (asked_state limited) = Done (scheduled, h, s')
  ∧ ∃ p f l, a_func attack = Some f ∧ h = Handle (Some p) (ne_event_sequence s')
    ∧ let e := new_event limited attack f (asked_state limited) in
      data (mem s') !! p = Some e ∧ func e = Some f ∧ ev_victim e = fst <$> victim attack
      ∧ due_tick e = Z.max (nevent_add_ticks (ne_event_tick (asked_state limited)) (delay attack))
                       (nevent_first_eligible_tick (asked_state limited))
      ∧ nevent_handle_is_active h s' = Done true
      ∧ events_of Sched (nevent_bucket_for_tick (due_tick e)) s' = Done l ∧ p ∈ l
      ∧ StronglySorted (due_le (data (mem s'))) l
      ∧ (∀ c, ch attack = Some c → ∃ lc, events_of Char (name c) s' = Done lc ∧ p ∈ lc)
      ∧ (∀ o, obj attack = Some o → ∃ lo, events_of Obj o s' = Done lo ∧ p ∈ lo)
      ∧ ∀ q d, data (mem (asked_state limited)) !! q = Some d → used d = true → q ≠ p ∧ data (mem s') !! q = Some d.
Proof.
  intros h s'.
  assert (add_event_internal limited 4 granted attack (asked_state limited) = Done (scheduled, h, s')) as E by by vm_compute.
  split; [exact E|].
  exact (add_schedules_when_due limited 4 granted chunk_some granted_limit _ _ _ _ asked_reached attack_ok E).
Defined.
